(* ===== verification/_CoqProject ===== *)
-Q . S2P
Prelude.v
Bitops.v
FindBit.v
Bitmap.v
BitmapFacts.v
BitTheorems.v
Kfifo.v
KfifoFacts.v
Words.v
Cipher.v
Tea.v
Blowfish.v
Cast5.v
CipherModes.v
CipherModesFacts.v
Crc.v
CrcFacts.v
RbTree.v
RbTreeHeap.v
RbTreeFacts.v
RbTreeClient.v
Order.v
Sort.v
PrioHeap.v
ListSort.v
Nls.v
NlsFacts.v
TimeConv.v
RadixTree.v
RadixTreeInv.v
RadixTreeLookup.v
RadixTreeInsert.v
RadixTreeTags.v
RadixTreeDelete.v
RadixTreeGang.v
RadixTreeFacts.v
Strings.v
StringsFacts.v
Vsprintf.v
VsprintfDigits.v
VsprintfOut.v
VsprintfFmt.v
VsprintfFacts.v
VsprintfRound.v
VsprintfAddr.v
BitmapText.v
BitmapParseFacts.v
BitmapPrintFacts.v
BitmapListFacts.v
Hash.v
Sha.v
ShaSpec.v
ShaFacts.v
Sha1Facts.v
Sha2Facts.v
Sha512Facts.v
Md.v
MdSpec.v
MdFrame.v
Shash.v
ShashFacts.v
Hmac.v
HmacFacts.v
StringLib.v
StringLibFacts.v
StringSearch.v
Kmem.v
ArgvSplit.v
Cmdline.v
Parser.v
ParserFacts.v
Aes.v
AesSpec.v
AesFacts.v
AesKey.v
AesCorrect.v
Sscanf.v
SscanfSpec.v
SscanfFacts.v
SscanfRound.v
