(* ===== verification/Prelude.v ===== *)
(** * Verification of the kernel's generic data structures, checksums, ciphers and formatting

    The repository is a phone's software tree; its program is the Linux kernel under
    [src/kernel], with MediaTek board code beside it.  This development models the
    parts of the kernel that carry its own algorithms and depend on no hardware, in
    the configuration of the tree (ARM, 32-bit [long], little endian), and proves
    them correct.  A machine integer is a [Z] with its wrap-around written out, an
    array is a [list Z] whose accesses fail out of range, a loop is a fixpoint with
    fuel, and every function that can fault, fail to allocate or run out of fuel
    returns an [option]: a theorem that a function returns [Some] shows at once that
    the loops end, that no access leaves its object and that the result is right.

    ** Parts and files

    - [Prelude]: integers of fixed width, arrays, bounded loops ([loop], [for_up],
      [for_down]) with their rules, tactics and hints used everywhere.
    - [Bitops], [FindBit], [Bitmap], [BitmapFacts], [BitTheorems]: the word
      operations of [include/asm-generic/bitops] and [lib/hweight.c], the searches of
      [lib/find_next_bit.c] and [lib/find_last_bit.c], and the bitmaps of
      [lib/bitmap.c] (logic, shifts, ranges, zero areas, ordinals and remapping, the
      region allocator).  A bitmap is the list of its words; the theorems speak of
      it as a set of bit positions.
    - [Kfifo], [KfifoFacts]: [kernel/kfifo.c] and [include/linux/kfifo.h].  The state
      is the record [kfifo]; [queue] is the abstract list of bytes, and the theorems
      are a refinement of the byte interface, of the record interface and of the
      copies from and to user space, whose faults are a parameter.
    - [Words], [Cipher], [Tea], [Blowfish], [Cast5]: loads and stores of words, the
      interface [BlockCipher] with its laws, and the ciphers of [crypto/tea.c],
      [crypto/blowfish.c] and [crypto/cast5.c] as instances of it.
    - [CipherModes], [CipherModesFacts]: the block loops of [crypto/cbc.c],
      [crypto/pcbc.c], [crypto/ecb.c] and [crypto/ctr.c] with [crypto_xor] and
      [crypto_inc] of [crypto/algapi.c], on a flat memory so that in-place operation
      is aliasing of pointers.  The theorems hold for every cipher that satisfies
      the laws.
    - [Crc], [CrcFacts]: [lib/crc32.c] with its table generator, [lib/crc16.c],
      [lib/crc-ccitt.c], [lib/crc-itu-t.c], [lib/crc-t10dif.c], [lib/crc7.c] and
      [crypto/crc32c.c], against division by the polynomial one bit at a time.
    - [RbTree], [RbTreeHeap], [RbTreeFacts], [RbTreeClient]: [lib/rbtree.c] and
      [include/linux/rbtree.h] on a heap of nodes in which parent and colour share a
      word.  A heap predicate relates it to a functional tree and a path to the
      node in hand; the pointer operations have rules ([wp_]) with which insertion,
      deletion, traversal and replacement are proved.  [RbTreeClient] is a user of the tree,
      a set of addresses ordered by a key: the walk to the place of a new node, and any
      sequence of insertions and deletions, which runs to its end and leaves the sorted
      sequence in a tree of logarithmic height.
    - [Order], [Sort], [PrioHeap], [ListSort]: the contract of comparison callbacks and
      heap order; the heap sort of [lib/sort.c] on an object of bytes with its swaps;
      the bounded heap of [lib/prio_heap.c]; the stable merge sort of
      [lib/list_sort.c] on a memory of list nodes.
    - [Nls], [NlsFacts]: the conversions between UTF-8, UTF-16 and UTF-32 of
      [fs/nls/nls_base.c], against the encodings as functions of code points.
    - [TimeConv]: [time_to_tm] of [kernel/time/timeconv.c] and [mktime] and the
      [timespec] helpers of [kernel/time.c], against the day number of a date.
    - [RadixTree], [RadixTreeInv], [RadixTreeLookup], [RadixTreeInsert], [RadixTreeTags],
      [RadixTreeDelete], [RadixTreeGang], [RadixTreeFacts]: [lib/radix-tree.c] and
      [include/linux/radix-tree.h] on a heap of nodes, with the slab cache as a parameter
      (class [Slab]).  A ghost map from heights and index prefixes to nodes states the
      invariant; the abstract state is a sparse array of items with two tags per index,
      and the theorems give each operation on it and the refinement of every sequence of calls.
      [rt_compact] says that a tree wastes nothing: no empty node, the least height, no lost
      node; deletion keeps it.
    - [Strings], [StringsFacts]: the character classes of [lib/ctype.c], the lengths of
      [lib/string.c] and the string-to-number functions of [lib/vsprintf.c], on objects of
      bytes that hold null-terminated strings; the strict parsers accept exactly the
      numerals.
    - [Vsprintf], [VsprintfDigits], [VsprintfOut], [VsprintfFmt], [VsprintfFacts],
      [VsprintfRound], [VsprintfAddr]: the output half of [lib/vsprintf.c].  A buffer is an
      object at a 32-bit address, the arguments are a list of words, long longs and
      pointers.  Digits, fields, the syntax of directives and the meaning of a format are
      each stated on lists of characters; the theorems show that the loops store those
      characters, that printed numbers are read back, and what the address forms of %p
      print.
    - [Sscanf], [SscanfSpec], [SscanfFacts], [SscanfRound]: [vsscanf] and
      [sscanf] of [lib/vsprintf.c] on one memory that holds the input, the format and the
      objects of the arguments.  [scanned] is the meaning of a format as a list of outputs on
      lists of characters, [format_rooms] gives the sizes of the objects; the theorems show
      that the loop stores these outputs and nothing else and that numbers printed by
      [snprintf] are scanned back.
    - [BitmapText], [BitmapParseFacts], [BitmapPrintFacts], [BitmapListFacts]: the text form
      of bitmaps in [lib/bitmap.c] on top of [scnprintf] and [simple_strtoul]: hexadecimal
      masks and lists of ranges.  The parser of masks is specified on every text by a
      reference reader ([mask_text]) and a grammar of the texts it accepts, the parser of lists
      on lists of ranges with commas between them; the printers write such texts, and each pair
      is a round trip.
    - [Hash], [Sha], [ShaSpec], [ShaFacts], [Sha1Facts], [Sha2Facts],
      [Sha512Facts]: the SHA functions of [lib/sha1.c], [crypto/sha1_generic.c],
      [crypto/sha256_generic.c] and [crypto/sha512_generic.c].  [Hash] is the theory of
      iterated hash functions with the interface [Compresses] of compression functions,
      [ShaSpec] the standard FIPS 180 as executable functions; the frames (buffering and
      padding) are proved against the interface, the transforms discharge it.
    - [Md], [MdSpec], [MdFrame]: MD4 and MD5 of [crypto/md4.c] and
      [crypto/md5.c] and [lib/halfmd4.c], against RFC 1320 and RFC 1321, on the same theory.
    - [Shash], [ShashFacts]: the calls of [crypto/shash.c] on a request.  The
      class [Hashes] states what a hash promises its users; the calls are proved against it for
      every alignment, and the tables of the SHA and MD functions are its instances.
    - [Hmac], [HmacFacts]: the template of [crypto/hmac.c] on top of the hash layer, proved
      against the class [Hashes] to be the keyed hash of RFC 2104.
    - [StringLib], [StringLibFacts], [StringSearch]: the rest of [lib/string.c].  The memory is
      one list of bytes and pointers are indices in it, so that areas may overlap.  Comparison is the
      lexicographic order, copies are stores of lists of characters, searches give first and last
      positions, [strsep] gives the fields of a text.
    - [Kmem], [ArgvSplit]: [kstrdup], [kstrndup] and [kmemdup] of [mm/util.c] and the argument
      vectors of [lib/argv_split.c] on a heap of objects.  The class [Allocator] is [kmalloc] as
      a parameter with a state, [AllocatorLaws] what its users rely on.
    - [Cmdline]: the lists of options and the sizes of [lib/cmdline.c].
    - [Parser], [ParserFacts]: the tables of patterns of [lib/parser.c].  A pattern is a list of
      characters and conversions with a reference matcher [pmatch] on lists of characters.
    - [Aes], [AesSpec], [AesFacts], [AesKey], [AesCorrect]: AES of
      [crypto/aes_generic.c].  [AesSpec] is FIPS 197 as executable functions on words of four bytes,
      with the S-box as inverse and affine map in the field of 256 elements.  The tables hold the
      columns of the round maps, a round of the code is a round of the standard, the loops of the
      key schedule build the key expansion, and decryption is the equivalent inverse cipher; a
      context with a key is an instance of the interface of block ciphers.

    ** What the theorems show

    Functional theorems give the result of each operation on every branch, errors
    included, and its frame.  Refinements relate a component to an abstract object
    (a queue, a queue of records, an ordered sequence, a sparse array).  Round trips show that
    decryption undoes encryption for every key and that encodings can be decoded.
    Equivalences relate optimised code (tables, words at a time, parallel counts) to
    a reference definition.  The theorems on sequences of calls start from an empty
    structure or from any well-formed one and show that every sequence of valid calls runs to its end.  A few theorems record where
    the code does something else than it means to.

    ** Fuel

    Every fuel is computed from the arguments: the number of nodes of the heap for a
    walk along a tree path, the number of words or bytes for a scan, the bound of
    the counter for a counting loop, the number of characters of a format for [vsnprintf], the size of the memory for [vsscanf];
    the search for the year of a date has four turns,
    enough for any [time_t].  The theorems show that it is never used up.

    ** Not modelled

    Locks and memory barriers: the model is sequential, and the locked variants of
    the operations are the unlocked ones under a spin lock.  Registration of
    ciphers, templates and modules; the scatter-list walk; the
    binary form of printf.  [symbol_string] and [resource_string], which %p calls for
    kernel symbols and resources, are parameters.  Memory management, scheduling, file
    systems, networking, drivers and architecture code depend on hardware or on concurrency
    that the sequential model does not have.  Compression is third-party code.

    ** Plan

    Next are the id allocator, and further ciphers (DES, Serpent)
    and hashes. *)

From Stdlib Require Export ZArith Lia.
From stdpp Require Export base list numbers option.
#[export] Set Default Goal Selector "!".
#[local] Open Scope Z_scope.

Declare Scope kernel_scope.
Delimit Scope kernel_scope with K.

(** * Tactics *)

(** Split a conjunction without unfolding the definitions under it. *)
Ltac ands := repeat lazymatch goal with |- _ ∧ _ => split end.

(** * Machine integers *)

(** Reduction to an unsigned [w]-bit register. *)
Definition uwrap (w x : Z) : Z := x mod 2 ^ w.

(** The value range of an unsigned [w]-bit register. *)
Definition urange (w x : Z) : Prop := 0 ≤ x < 2 ^ w.

Abbreviation u8 := (uwrap 8).
Abbreviation u16 := (uwrap 16).
Abbreviation u32 := (uwrap 32).
Abbreviation u64 := (uwrap 64).

(** Reduction to a signed 32-bit [int] (two's complement). *)
Definition s32 (x : Z) : Z :=
  let y := u32 x in if y <? 2 ^ 31 then y else y - 2 ^ 32.

#[export] Instance urange_dec w x : Decision (urange w x).
Proof. unfold urange; apply _. Defined.

(** C truth value of an integer and the integer of a comparison. *)
Definition ctrue (x : Z) : bool := negb (x =? 0).
Definition cbool (b : bool) : Z := if b then 1 else 0.

(** * Arrays with bounds-checked access

    An access outside the object is undefined behaviour in C; the models
    return [None] for it, so a theorem that an operation returns [Some _]
    includes that every access it makes is in bounds. *)
Definition arr_get {A} (l : list A) (i : Z) : option A :=
  if 0 <=? i then l !! Z.to_nat i else None.

Definition arr_set {A} (l : list A) (i : Z) (x : A) : option (list A) :=
  if (0 <=? i) && (i <? Z.of_nat (length l))
  then Some (<[Z.to_nat i := x]> l) else None.

(** [n] bytes at offset [off] of an object, and a store of [d] there. *)
Definition arr_read {A} (l : list A) (off n : Z) : option (list A) :=
  if (0 <=? off) && (0 <=? n) && (off + n <=? Z.of_nat (length l))
  then Some (take (Z.to_nat n) (drop (Z.to_nat off) l)) else None.

Definition arr_write {A} (l : list A) (off : Z) (d : list A) : option (list A) :=
  if (0 <=? off) && (off + Z.of_nat (length d) <=? Z.of_nat (length l))
  then Some (take (Z.to_nat off) l ++ d ++ drop (Z.to_nat off + length d) l) else None.

(** [memcpy(dst + doff, src + soff, n)] on two objects. *)
Definition memcpy {A} (dst : list A) (doff : Z) (src : list A) (soff n : Z) : option (list A) :=
  d ← arr_read src soff n; arr_write dst doff d.

Notation "l .[ i ]" := (arr_get l i) (at level 1, left associativity) : kernel_scope.
Notation "l .[ i <- x ]" := (arr_set l i x) (at level 1, left associativity) : kernel_scope.
#[export] Set Warnings "-notation-overridden".
#[local] Open Scope kernel_scope.

(** * Loops

    [for_up k n body s]: [for (i = k; i < n; i++) s = body i s].
    [loop fuel step s]: [while (1)] with [step] either continuing ([inl])
    or leaving the loop with a result ([inr]); [None] is undefined behaviour
    or lack of fuel, which the totality rules below rule out. *)
Fixpoint for_nat {S} (n : nat) (k : Z) (body : Z → S → option S) (s : S) : option S :=
  match n with
  | O => Some s
  | Datatypes.S n' => s' ← body k s; for_nat n' (k + 1) body s'
  end.

Definition for_up {S} (k n : Z) (body : Z → S → option S) (s : S) : option S :=
  for_nat (Z.to_nat (n - k)) k body s.

(** [for (i = k; i >= n; i--)]. *)
Fixpoint for_nat_down {S} (n : nat) (k : Z) (body : Z → S → option S) (s : S) : option S :=
  match n with
  | O => Some s
  | Datatypes.S n' => s' ← body k s; for_nat_down n' (k - 1) body s'
  end.

Definition for_down {S} (k n : Z) (body : Z → S → option S) (s : S) : option S :=
  for_nat_down (Z.to_nat (k - n + 1)) k body s.

Fixpoint loop {S R} (fuel : nat) (step : S → option (S + R)) (s : S) : option R :=
  match fuel with
  | O => None
  | Datatypes.S f =>
      o ← step s;
      match o with inl s' => loop f step s' | inr r => Some r end
  end.

(** [loop] with the fuel [2 ^ d], for loops whose bound is too large for a unary number:
    [inl] is the state after [2 ^ d] turns. *)
Fixpoint bturns {S R} (d : nat) (step : S → option (S + R)) (s : S) : option (S + R) :=
  match d with
  | O => step s
  | Datatypes.S d =>
      o ← bturns d step s;
      match o with inl s' => bturns d step s' | inr r => Some (inr r) end
  end.

Definition bloop {S R} (d : nat) (step : S → option (S + R)) (s : S) : option R :=
  o ← bturns d step s; match o with inl _ => None | inr r => Some r end.

(** A [for] loop over [k, n) whose body may return from the function. *)
Fixpoint scan_nat {R} (n : nat) (k : Z) (body : Z → option (option R)) : option (option R) :=
  match n with
  | O => Some None
  | Datatypes.S n' =>
      o ← body k;
      match o with Some r => Some (Some r) | None => scan_nat n' (k + 1) body end
  end.

Definition scan_up {R} (k n : Z) (body : Z → option (option R)) : option (option R) :=
  scan_nat (Z.to_nat (n - k)) k body.

(** ** Total-correctness rules for the loops *)
Section LoopRules.
Context {St R : Type}.

Lemma for_up_rule (I : Z → St → Prop) k n body s :
  k ≤ n → I k s →
  (∀ i s, k ≤ i < n → I i s → ∃ s', body i s = Some s' ∧ I (i + 1) s') →
  ∃ s', for_up k n body s = Some s' ∧ I n s'.
Proof.
  intros Hkn HI Hb. unfold for_up.
  remember (Z.to_nat (n - k)) as m eqn:Hm.
  revert k s Hkn HI Hb Hm. induction m as [|m IH]; intros k s Hkn HI Hb Hm; simpl.
  - exists s; split; [done|]. by replace n with k by lia.
  - destruct (Hb k s) as (s' & -> & HI'); [lia|done|]. simpl.
    apply IH; [lia|done| |lia]. intros i t Hi. apply Hb. lia.
Qed.

Lemma for_up_ext k n (body body' : Z → St → option St) s :
  (∀ i s, k ≤ i < n → body i s = body' i s) → for_up k n body s = for_up k n body' s.
Proof.
  intros Hb. unfold for_up. remember (Z.to_nat (n - k)) as m eqn:Hm.
  revert k s Hb Hm. induction m as [|m IH]; intros k s Hb Hm; simpl; [done|].
  rewrite Hb by lia. destruct (body' k s) as [s'|]; [|done]. simpl.
  apply IH; [|lia]. intros i t Hi. apply Hb. lia.
Qed.

Lemma for_down_rule (I : Z → St → Prop) k n body s :
  n ≤ k + 1 → I k s →
  (∀ i s, n ≤ i ≤ k → I i s → ∃ s', body i s = Some s' ∧ I (i - 1) s') →
  ∃ s', for_down k n body s = Some s' ∧ I (n - 1) s'.
Proof.
  intros Hkn HI Hb. unfold for_down.
  remember (Z.to_nat (k - n + 1)) as m eqn:Hm.
  revert k s Hkn HI Hb Hm. induction m as [|m IH]; intros k s Hkn HI Hb Hm; simpl.
  - exists s; split; [done|]. by replace (n - 1) with k by lia.
  - destruct (Hb k s) as (s' & -> & HI'); [lia|done|]. simpl.
    apply IH; [lia|done| |lia]. intros i t Hi. apply Hb. lia.
Qed.

Lemma loop_rule (I : St → Prop) (m : St → nat) (Q : R → Prop) step fuel s :
  (∀ s, I s → ∃ o, step s = Some o ∧
     match o with inl s' => I s' ∧ (m s' < m s)%nat | inr r => Q r end) →
  I s → (m s < fuel)%nat →
  ∃ r, loop fuel step s = Some r ∧ Q r.
Proof.
  intros Hstep. revert s. induction fuel as [|f IH]; intros s HI Hf; [lia|]. simpl.
  destruct (Hstep s HI) as ([s'|r] & -> & H); simpl.
  - apply IH; [tauto|lia].
  - eauto.
Qed.

(** The same with the measure carried by the invariant. *)
Lemma loop_rule_idx (I : nat → St → Prop) (Q : R → Prop) step n fuel s :
  (∀ n s, I n s → ∃ o, step s = Some o ∧
     match o with inl s' => ∃ n', (n' < n)%nat ∧ I n' s' | inr r => Q r end) →
  I n s → (n < fuel)%nat →
  ∃ r, loop fuel step s = Some r ∧ Q r.
Proof.
  intros Hstep. revert n s. induction fuel as [|f IH]; intros n s HI Hf; [lia|]. simpl.
  destruct (Hstep n s HI) as ([s'|r] & -> & H); simpl; [|eauto].
  destruct H as (n' & Hn & HI'). apply (IH n'); [done|lia].
Qed.

(** After [2 ^ d] turns the measure has dropped by as much. *)
Lemma bturns_rule (I : Z → St → Prop) (Q : R → Prop) step d n s :
  (∀ n s, I n s → ∃ o, step s = Some o ∧
     match o with inl s' => ∃ n', 0 ≤ n' < n ∧ I n' s' | inr r => Q r end) →
  I n s →
  ∃ o, bturns d step s = Some o ∧
    match o with inl s' => ∃ n', 0 ≤ n' ≤ n - 2 ^ Z.of_nat d ∧ I n' s' | inr r => Q r end.
Proof.
  intros Hstep. revert n s. induction d as [|d IH]; intros n s HI.
  - destruct (Hstep n s HI) as ([s'|r] & E & H); simpl; rewrite E; [|eauto].
    destruct H as (n' & Hn & HI'). eexists; split; [done|]. exists n'. split; [lia|done].
  - rewrite Nat2Z.inj_succ, Z.pow_succ_r by lia.
    destruct (IH n s HI) as ([s1|r] & E & H); cbn [bturns]; rewrite E; cbn [mbind option_bind]; [|eauto].
    destruct H as (n1 & Hn1 & HI1).
    destruct (IH n1 s1 HI1) as ([s2|r] & E2 & H2); rewrite E2; eexists; (split; [done|]); [|done].
    destruct H2 as (n2 & Hn2 & HI2). exists n2. split; [lia|done].
Qed.

Lemma bloop_rule (I : Z → St → Prop) (Q : R → Prop) step d n s :
  (∀ n s, I n s → ∃ o, step s = Some o ∧
     match o with inl s' => ∃ n', 0 ≤ n' < n ∧ I n' s' | inr r => Q r end) →
  I n s → n < 2 ^ Z.of_nat d →
  ∃ r, bloop d step s = Some r ∧ Q r.
Proof.
  intros Hstep HI Hn. unfold bloop.
  destruct (bturns_rule I Q step d n s Hstep HI) as ([s'|r] & -> & H); cbn; [|eauto].
  destruct H as (n' & Hn' & _). lia.
Qed.

(** A scan either leaves at the first index whose body returns, or finishes. *)
Lemma scan_up_rule (k n : Z) (body : Z → option (option R)) :
  (∀ i, k ≤ i < n → is_Some (body i)) →
  (∃ r i, scan_up k n body = Some (Some r) ∧ k ≤ i < n ∧ body i = Some (Some r) ∧
     ∀ j, k ≤ j < i → body j = Some None) ∨
  (scan_up k n body = Some None ∧ ∀ i, k ≤ i < n → body i = Some None).
Proof.
  unfold scan_up. remember (Z.to_nat (n - k)) as m eqn:Hm. revert k Hm.
  induction m as [|m IH]; intros k Hm Hb; simpl.
  - right; split; [done|]. intros; lia.
  - destruct (Hb k ltac:(lia)) as ([r|] & Hk); rewrite Hk; simpl.
    + left. exists r, k. repeat split; [lia|lia|done|]. intros; lia.
    + destruct (IH (k + 1)) as [(r & i & Hs & Hi & Hbi & Hj)|(Hs & Hall)]; [lia| | |].
      * intros i Hi. apply Hb. lia.
      * left. exists r, i. repeat split; [done|lia|lia|done|].
        intros j Hj'. destruct (decide (j = k)) as [->|]; [done|]. apply Hj. lia.
      * right. split; [done|]. intros i Hi.
        destruct (decide (i = k)) as [->|]; [done|]. apply Hall. lia.
Qed.
End LoopRules.

(** Run the first loop of the goal with invariant [I], initial measure [k] and
    postcondition [Q] of its result [r]; the proof goes on after the loop. *)
Ltac run_loop I k Q r HQ :=
  let E := fresh "E" in
  match goal with |- context [loop ?n ?f ?s] =>
    assert (∃ r, loop n f s = Some r ∧ Q r) as (r & E & HQ);
      [apply (loop_rule_idx I Q f k n s)|rewrite E; clear E; cbn [mbind option_bind]]
  end.

(** ** Lemmas on array access *)
Section ArrLemmas.
Context {A : Type}.
Implicit Types (l : list A) (i j : Z).

Definition alen l : Z := Z.of_nat (length l).

Lemma arr_get_lt l i : 0 ≤ i < alen l → ∃ x, l.[i] = Some x.
Proof.
  unfold alen, arr_get. intros H. destruct (Z.leb_spec 0 i) as [?|?]; [|lia].
  apply lookup_lt_is_Some_2. lia.
Qed.

Lemma arr_get_Some_lt l i x : l.[i] = Some x → 0 ≤ i < alen l.
Proof.
  unfold alen, arr_get. destruct (Z.leb_spec 0 i); [|done].
  intros Hl%lookup_lt_Some. lia.
Qed.

Lemma arr_get_None l i : ¬ (0 ≤ i < alen l) → l.[i] = None.
Proof.
  intros H. destruct (l.[i]) eqn:E; [|done]. by apply arr_get_Some_lt in E.
Qed.

Lemma arr_set_lt l i x : 0 ≤ i < alen l → l.[i <- x] = Some (<[Z.to_nat i := x]> l).
Proof.
  unfold alen, arr_set. intros H.
  destruct (Z.leb_spec 0 i), (Z.ltb_spec i (Z.of_nat (length l))); simpl; done || lia.
Qed.

Lemma arr_set_spec l i x l' :
  l.[i <- x] = Some l' ↔ 0 ≤ i < alen l ∧ l' = <[Z.to_nat i := x]> l.
Proof.
  split.
  - unfold alen, arr_set.
    destruct (Z.leb_spec 0 i), (Z.ltb_spec i (Z.of_nat (length l))); simpl;
      intros; simplify_eq; split; done || lia.
  - intros [H ->]. by apply arr_set_lt.
Qed.

Lemma arr_get_insert l i j x :
  0 ≤ i → 0 ≤ j < alen l →
  (<[Z.to_nat j := x]> l).[i] = if decide (i = j) then Some x else l.[i].
Proof.
  unfold arr_get, alen. intros Hi Hj. destruct (Z.leb_spec 0 i); [|lia].
  case_decide as Hd.
  - subst. rewrite list_lookup_insert_eq; [done|lia].
  - rewrite list_lookup_insert_ne; [done|lia].
Qed.

Lemma arr_get_set l i j x l' :
  l.[j <- x] = Some l' → l'.[i] = if decide (i = j) then Some x else l.[i].
Proof.
  intros [Hj ->]%arr_set_spec. destruct (decide (0 ≤ i)) as [Hi|Hi].
  - by apply arr_get_insert.
  - case_decide; [lia|]. rewrite !arr_get_None; [done|lia|]. unfold alen. lia.
Qed.

Lemma alen_set l i x l' : l.[i <- x] = Some l' → alen l' = alen l.
Proof. intros [_ ->]%arr_set_spec. unfold alen. by rewrite length_insert. Qed.

Lemma alen_insert l (n : nat) x : alen (<[n := x]> l) = alen l.
Proof. unfold alen. by rewrite length_insert. Qed.

Lemma alen_nonneg l : 0 ≤ alen l.
Proof. unfold alen. lia. Qed.

Lemma arr_get_lookup l (n : nat) : l.[Z.of_nat n] = l !! n.
Proof.
  unfold arr_get. destruct (Z.leb_spec 0 (Z.of_nat n)); [|lia]. by rewrite Nat2Z.id.
Qed.

Lemma arr_ext l l' :
  alen l = alen l' → (∀ i, 0 ≤ i < alen l → l.[i] = l'.[i]) → l = l'.
Proof.
  intros Hlen H. apply list_eq. intros n.
  destruct (decide (Z.of_nat n < alen l)) as [Hn|Hn].
  - rewrite <- !arr_get_lookup. apply H. lia.
  - unfold alen in *. rewrite !lookup_ge_None_2; [done|lia|lia].
Qed.

Lemma arr_read_spec l off n :
  0 ≤ off → 0 ≤ n → off + n ≤ alen l →
  ∃ d, arr_read l off n = Some d ∧ alen d = n ∧ ∀ i, 0 ≤ i < n → d.[i] = l.[off + i].
Proof.
  unfold arr_read, alen. intros. exists (take (Z.to_nat n) (drop (Z.to_nat off) l)).
  destruct (Z.leb_spec 0 off), (Z.leb_spec 0 n), (Z.leb_spec (off + n) (Z.of_nat (length l)));
    try lia. split; [done|]. split; [rewrite length_take, length_drop; lia|].
  intros i Hi. unfold arr_get. destruct (Z.leb_spec 0 i), (Z.leb_spec 0 (off + i)); try lia.
  rewrite lookup_take_lt, lookup_drop by lia. f_equal. lia.
Qed.

Lemma arr_write_spec l off d :
  0 ≤ off → off + alen d ≤ alen l →
  ∃ l', arr_write l off d = Some l' ∧ alen l' = alen l ∧
    ∀ i, l'.[i] = if decide (off ≤ i < off + alen d) then d.[i - off] else l.[i].
Proof.
  unfold arr_write, alen. intros Hoff Hlen.
  exists (take (Z.to_nat off) l ++ d ++ drop (Z.to_nat off + length d) l).
  destruct (Z.leb_spec 0 off), (Z.leb_spec (off + Z.of_nat (length d)) (Z.of_nat (length l)));
    try lia. split; [done|].
  split; [rewrite !length_app, length_take, length_drop; lia|].
  intros i. unfold arr_get. destruct (Z.leb_spec 0 i); [|destruct (decide _); [lia|done]].
  destruct (decide (i < off)) as [?|?].
  - rewrite decide_False, lookup_app_l, lookup_take_lt by (rewrite ?length_take; lia). done.
  - rewrite lookup_app_r by (rewrite length_take; lia).
    replace (Z.to_nat i - length (take (Z.to_nat off) l))%nat with (Z.to_nat (i - off))
      by (rewrite length_take; lia).
    case_decide as Hd.
    + destruct (Z.leb_spec 0 (i - off)); [|lia]. rewrite lookup_app_l by lia. done.
    + rewrite lookup_app_r, lookup_drop by lia. f_equal. lia.
Qed.

Lemma arr_read_Some l off n d : arr_read l off n = Some d → 0 ≤ off ∧ 0 ≤ n ∧ off + n ≤ alen l.
Proof.
  unfold arr_read, alen. destruct (Z.leb_spec 0 off), (Z.leb_spec 0 n),
    (Z.leb_spec (off + n) (Z.of_nat (length l))); simpl; done || lia.
Qed.

Lemma Forall_arr_get (P : A → Prop) l i x : Forall P l → l.[i] = Some x → P x.
Proof.
  unfold arr_get. destruct (0 <=? i); [|done]. intros HF H.
  eapply Forall_lookup_1; eauto.
Qed.

Lemma Forall_arr_set (P : A → Prop) l i x l' :
  Forall P l → P x → l.[i <- x] = Some l' → Forall P l'.
Proof. intros HF Hx [_ ->]%arr_set_spec. by apply Forall_insert. Qed.
End ArrLemmas.

(** ** Segments of arrays *)

Lemma alen_fmap_seqZ {A} (g : Z → A) n : 0 ≤ n → alen (g <$> seqZ 0 n) = n.
Proof. intros. unfold alen. rewrite length_fmap, length_seqZ. lia. Qed.

Lemma arr_get_fmap_seqZ {A} (g : Z → A) n i : 0 ≤ i < n → (g <$> seqZ 0 n).[i] = Some (g i).
Proof.
  intros Hi. unfold arr_get. destruct (Z.leb_spec 0 i); [|lia].
  rewrite list_lookup_fmap, lookup_seqZ_lt by lia. simpl. do 2 f_equal. lia.
Qed.

Lemma alen_app {A} (l l' : list A) : alen (l ++ l') = alen l + alen l'.
Proof. unfold alen. rewrite length_app. lia. Qed.

Lemma arr_get_app {A} (l l' : list A) i :
  0 ≤ i → (l ++ l').[i] = if decide (i < alen l) then l.[i] else l'.[i - alen l].
Proof.
  unfold arr_get, alen. intros Hi. destruct (Z.leb_spec 0 i); [|lia]. case_decide.
  - apply lookup_app_l. lia.
  - destruct (Z.leb_spec 0 (i - Z.of_nat (length l))); [|lia].
    rewrite lookup_app_r by lia. f_equal. lia.
Qed.

Lemma alen_cons {A} (c : A) t : alen (c :: t) = 1 + alen t.
Proof. unfold alen. cbn [length]. lia. Qed.

Lemma arr_get_cons {A} (c : A) t i : 0 ≤ i → (c :: t).[i + 1] = t.[i].
Proof.
  intros Hi. unfold arr_get. destruct (Z.leb_spec 0 (i + 1)), (Z.leb_spec 0 i); try lia.
  by replace (Z.to_nat (i + 1)) with (S (Z.to_nat i)) by lia.
Qed.

Lemma alen_take {A} (l : list A) n : 0 ≤ n ≤ alen l → alen (take (Z.to_nat n) l) = n.
Proof. unfold alen. intros. rewrite length_take. lia. Qed.

Lemma alen_drop {A} (l : list A) n : 0 ≤ n ≤ alen l → alen (drop (Z.to_nat n) l) = alen l - n.
Proof. unfold alen. intros. rewrite length_drop. lia. Qed.

Lemma arr_get_take {A} (l : list A) n i : 0 ≤ i < n → (take (Z.to_nat n) l).[i] = l.[i].
Proof.
  intros. unfold arr_get. destruct (Z.leb_spec 0 i); [|lia]. rewrite lookup_take_lt by lia. done.
Qed.

Lemma arr_get_drop {A} (l : list A) n i : 0 ≤ i → 0 ≤ n → (drop (Z.to_nat n) l).[i] = l.[n + i].
Proof.
  intros. unfold arr_get. destruct (Z.leb_spec 0 i), (Z.leb_spec 0 (n + i)); try lia.
  rewrite lookup_drop. f_equal. lia.
Qed.

(** * Bits of machine words *)
Section Bits.
Implicit Types (x w n i : Z).

Lemma urange_uwrap w x : 0 ≤ w → urange w (uwrap w x).
Proof. intros. apply Z.mod_pos_bound. lia. Qed.

Lemma uwrap_small w x : urange w x → uwrap w x = x.
Proof. apply Z.mod_small. Qed.

Lemma uwrap_uwrap w x : uwrap w (uwrap w x) = uwrap w x.
Proof. unfold uwrap. destruct (decide (2 ^ w = 0)) as [->|]; [by rewrite !Z.mod_0_r|]. by apply Z.mod_mod. Qed.

Lemma testbit_uwrap w x i :
  0 ≤ w → Z.testbit (uwrap w x) i = (i <? w) && Z.testbit x i.
Proof.
  intros Hw. unfold uwrap. destruct (Z.ltb_spec i w); simpl.
  - destruct (decide (0 ≤ i)).
    + apply Z.mod_pow2_bits_low; lia.
    + rewrite !Z.testbit_neg_r by lia. done.
  - apply Z.mod_pow2_bits_high; lia.
Qed.

(** A word is zero above its width; conversely such a number is in range. *)
Lemma urange_testbit_high w x i : urange w x → w ≤ i → Z.testbit x i = false.
Proof.
  intros Hx Hi. destruct (decide (0 ≤ w)).
  - rewrite <- (uwrap_small w x) by done. rewrite testbit_uwrap by lia.
    destruct (Z.ltb_spec i w); [lia|done].
  - unfold urange in Hx. rewrite Z.pow_neg_r in Hx; lia.
Qed.

Lemma urange_of_bits w x :
  0 ≤ w → 0 ≤ x → (∀ i, w ≤ i → Z.testbit x i = false) → urange w x.
Proof.
  intros Hw Hx Hi. enough (x = uwrap w x) as -> by by apply urange_uwrap.
  apply Z.bits_inj'. intros i Hi'. rewrite testbit_uwrap by done.
  destruct (Z.ltb_spec i w); simpl; [done|]. apply Hi. lia.
Qed.

Lemma urange_land_l w x y : 0 ≤ w → urange w x → 0 ≤ y → urange w (Z.land x y).
Proof.
  intros Hw Hx Hy. apply urange_of_bits; [done| |].
  - apply Z.land_nonneg. unfold urange in *. lia.
  - intros i Hi. rewrite Z.land_spec, (urange_testbit_high w x) by done. done.
Qed.

Lemma urange_land w x y : 0 ≤ w → urange w x → urange w y → urange w (Z.land x y).
Proof. intros ? ? []. by apply urange_land_l. Qed.

Lemma urange_lor w x y : 0 ≤ w → urange w x → urange w y → urange w (Z.lor x y).
Proof.
  intros Hw Hx Hy. apply urange_of_bits; [done| |].
  - apply Z.lor_nonneg. unfold urange in *. lia.
  - intros i Hi. rewrite Z.lor_spec, !(urange_testbit_high w) by done. done.
Qed.

Lemma urange_lxor w x y : 0 ≤ w → urange w x → urange w y → urange w (Z.lxor x y).
Proof.
  intros Hw Hx Hy. apply urange_of_bits; [done| |].
  - apply Z.lxor_nonneg. unfold urange in *. lia.
  - intros i Hi. rewrite Z.lxor_spec, !(urange_testbit_high w) by done. done.
Qed.

Lemma urange_shiftr w x n : 0 ≤ w → 0 ≤ n → urange w x → urange w (Z.shiftr x n).
Proof.
  intros Hw Hn Hx. apply urange_of_bits; [done| |].
  - apply Z.shiftr_nonneg. unfold urange in *. lia.
  - intros i Hi. rewrite Z.shiftr_spec, (urange_testbit_high w) by (done || lia). done.
Qed.

Lemma word_zero_bits w x :
  urange w x → x = 0 ↔ ∀ i, 0 ≤ i < w → Z.testbit x i = false.
Proof.
  intros Hx. split.
  - intros -> i _. apply Z.bits_0.
  - intros H. apply Z.bits_inj'. intros i Hi. rewrite Z.bits_0.
    destruct (decide (i < w)); [by apply H|]. eapply urange_testbit_high; [done|lia].
Qed.

Lemma word_eq_bits w x y :
  urange w x → urange w y → x = y ↔ ∀ i, 0 ≤ i < w → Z.testbit x i = Z.testbit y i.
Proof.
  intros Hx Hy. split; [by intros ->|]. intros H.
  apply Z.bits_inj'. intros i Hi. destruct (decide (i < w)); [by apply H|].
  rewrite !(urange_testbit_high w) by (done || lia). done.
Qed.
End Bits.

Lemma s32_small x : - 2 ^ 31 ≤ x < 2 ^ 31 → s32 x = x.
Proof.
  intros Hx. unfold s32, uwrap. destruct (decide (0 ≤ x)).
  - rewrite Z.mod_small by lia. destruct (Z.ltb_spec x (2 ^ 31)); lia.
  - rewrite <- (Z_mod_plus_full x 1), Z.mod_small by lia. destruct (Z.ltb_spec (x + 1 * 2 ^ 32) (2 ^ 31)); lia.
Qed.

Lemma s32_add_l x y : s32 (s32 x + y) = s32 (x + y).
Proof.
  assert (E : u32 (s32 x + y) = u32 (x + y)).
  { unfold s32, uwrap. case_match; [by rewrite Zplus_mod_idemp_l|].
    replace (x mod 2 ^ 32 - 2 ^ 32 + y) with (x mod 2 ^ 32 + y + -1 * 2 ^ 32) by lia.
    by rewrite Z_mod_plus_full, Zplus_mod_idemp_l. }
  unfold s32 at 1. rewrite E. done.
Qed.

Lemma s32_le x : 0 ≤ x → s32 x ≤ x.
Proof.
  intros Hx. unfold s32, uwrap. pose proof (Z.mod_le x (2 ^ 32) Hx ltac:(lia)). case_match; lia.
Qed.

Lemma Some_bind {A B} (x : A) (k : A → option B) : (Some x ≫= k) = k x.
Proof. done. Qed.

Lemma ctrue_true x : ctrue x = true ↔ x ≠ 0.
Proof. unfold ctrue. destruct (Z.eqb_spec x 0); naive_solver. Qed.
Lemma ctrue_false x : ctrue x = false ↔ x = 0.
Proof. unfold ctrue. destruct (Z.eqb_spec x 0); naive_solver. Qed.

Create HintDb word.
#[export] Hint Resolve urange_uwrap urange_land urange_lor urange_lxor urange_shiftr : word.
#[export] Hint Extern 1 (_ ≤ _) => lia : word.

(** ** Complement and left shift at a register width *)

(** C's [~x] and [x << n] on an unsigned [w]-bit operand. *)
Definition unot (w x : Z) : Z := uwrap w (Z.lnot x).
Definition ushl (w x n : Z) : Z := uwrap w (Z.shiftl x n).

Lemma testbit_unot w x i :
  0 ≤ w → 0 ≤ i → Z.testbit (unot w x) i = (i <? w) && negb (Z.testbit x i).
Proof. intros. unfold unot. rewrite testbit_uwrap, Z.lnot_spec by lia. done. Qed.

Lemma testbit_ushl w x n i :
  0 ≤ w → 0 ≤ i → Z.testbit (ushl w x n) i = (i <? w) && Z.testbit x (i - n).
Proof. intros. unfold ushl. rewrite testbit_uwrap, Z.shiftl_spec by lia. done. Qed.

Lemma urange_unot w x : 0 ≤ w → urange w (unot w x).
Proof. apply urange_uwrap. Qed.

Lemma urange_ushl w x n : 0 ≤ w → urange w (ushl w x n).
Proof. apply urange_uwrap. Qed.

Lemma unot_zero_iff w x : 0 ≤ w → urange w x → unot w x = 0 ↔ x = unot w 0.
Proof.
  intros Hw Hx. rewrite (word_zero_bits w) by by apply urange_unot.
  rewrite (word_eq_bits w) by (done || by apply urange_unot).
  split; intros H i Hi; specialize (H i Hi); revert H;
    rewrite !testbit_unot by lia; rewrite ?Z.bits_0;
    destruct (Z.ltb_spec i w); simpl; try lia;
    destruct (Z.testbit x i); naive_solver.
Qed.

#[export] Hint Resolve urange_unot urange_ushl : word.
