(* ===== verification/Bitops.v ===== *)
(** * Single-word bit operations

    Models [include/asm-generic/bitops/{__ffs,ffz,__fls,fls,non-atomic}.h] and
    [lib/hweight.c] at [BITS_PER_LONG = 32] (the ARM configuration of the tree),
    and proves the binary searches, the bit accessors and the population count
    against their bit-level meaning. *)
From S2P Require Import Prelude.
#[local] Open Scope Z_scope.
#[local] Open Scope kernel_scope.

Definition BITS_PER_LONG : Z := 32.
Definition BIT_WORD (nr : Z) : Z := nr / BITS_PER_LONG.
Definition BIT_MASK (nr : Z) : Z := Z.shiftl 1 (nr mod BITS_PER_LONG).
Definition BITS_TO_LONGS (nr : Z) : Z := (nr + BITS_PER_LONG - 1) / BITS_PER_LONG.

(** [unsigned long] operators. *)
Abbreviation ulong := (urange 32).
Abbreviation lnot_ul := (unot 32).
Abbreviation shl_ul := (ushl 32).
(** [~0UL] *)
Definition ULONG_MAX : Z := lnot_ul 0.

(** ** Definitions *)

Definition ffs_step (mask n : Z) (s : Z * Z) : Z * Z :=
  let '(num, word) := s in
  if Z.land word mask =? 0 then (num + n, Z.shiftr word n) else (num, word).

Definition __ffs (word : Z) : Z :=
  let s := ffs_step 0xffff 16 (0, word) in
  let s := ffs_step 0xff 8 s in
  let s := ffs_step 0xf 4 s in
  let s := ffs_step 0x3 2 s in
  let '(num, word) := s in
  if Z.land word 0x1 =? 0 then num + 1 else num.

Definition ffz (x : Z) : Z := __ffs (lnot_ul x).

Definition fls_step (n : Z) (s : Z * Z) : Z * Z :=
  let '(num, word) := s in
  if Z.land word (shl_ul ULONG_MAX (BITS_PER_LONG - n)) =? 0
  then (num - n, shl_ul word n) else (num, word).

Definition __fls (word : Z) : Z :=
  let s := fls_step 16 (BITS_PER_LONG - 1, word) in
  let s := fls_step 8 s in
  let s := fls_step 4 s in
  let s := fls_step 2 s in
  let '(num, word) := s in
  if Z.land word (shl_ul ULONG_MAX (BITS_PER_LONG - 1)) =? 0 then num - 1 else num.

(** [fls(int x)]: the argument is taken as its 32-bit pattern. *)
Definition fls (x : Z) : Z :=
  if u32 x =? 0 then 0 else
  let s := fls_step 16 (32, u32 x) in
  let s := fls_step 8 s in
  let s := fls_step 4 s in
  let s := fls_step 2 s in
  let s := fls_step 1 s in
  s.1.

Definition __set_bit (nr : Z) (addr : list Z) : option (list Z) :=
  p ← addr.[BIT_WORD nr]; addr.[BIT_WORD nr <- Z.lor p (BIT_MASK nr)].

Definition __clear_bit (nr : Z) (addr : list Z) : option (list Z) :=
  p ← addr.[BIT_WORD nr]; addr.[BIT_WORD nr <- Z.land p (lnot_ul (BIT_MASK nr))].

Definition __change_bit (nr : Z) (addr : list Z) : option (list Z) :=
  p ← addr.[BIT_WORD nr]; addr.[BIT_WORD nr <- Z.lxor p (BIT_MASK nr)].

Definition __test_and_set_bit (nr : Z) (addr : list Z) : option (list Z * bool) :=
  old ← addr.[BIT_WORD nr];
  addr' ← addr.[BIT_WORD nr <- Z.lor old (BIT_MASK nr)];
  Some (addr', ctrue (Z.land old (BIT_MASK nr))).

Definition __test_and_clear_bit (nr : Z) (addr : list Z) : option (list Z * bool) :=
  old ← addr.[BIT_WORD nr];
  addr' ← addr.[BIT_WORD nr <- Z.land old (lnot_ul (BIT_MASK nr))];
  Some (addr', ctrue (Z.land old (BIT_MASK nr))).

Definition test_bit (nr : Z) (addr : list Z) : option bool :=
  w ← addr.[BIT_WORD nr];
  Some (ctrue (Z.land 1 (Z.shiftr w (Z.land nr (BITS_PER_LONG - 1))))).

Definition __sw_hweight32 (w : Z) : Z :=
  let res := u32 (w - Z.land (Z.shiftr w 1) 0x55555555) in
  let res := u32 (Z.land res 0x33333333 + Z.land (Z.shiftr res 2) 0x33333333) in
  let res := Z.land (u32 (res + Z.shiftr res 4)) 0x0F0F0F0F in
  let res := u32 (res + Z.shiftr res 8) in
  Z.land (u32 (res + Z.shiftr res 16)) 0x000000FF.

Definition __sw_hweight16 (w : Z) : Z :=
  let res := u32 (w - Z.land (Z.shiftr w 1) 0x5555) in
  let res := u32 (Z.land res 0x3333 + Z.land (Z.shiftr res 2) 0x3333) in
  let res := Z.land (u32 (res + Z.shiftr res 4)) 0x0F0F in
  Z.land (u32 (res + Z.shiftr res 8)) 0x00FF.

Definition __sw_hweight8 (w : Z) : Z :=
  let res := u32 (w - Z.land (Z.shiftr w 1) 0x55) in
  let res := u32 (Z.land res 0x33 + Z.land (Z.shiftr res 2) 0x33) in
  Z.land (u32 (res + Z.shiftr res 4)) 0x0F.

Definition __sw_hweight64 (w : Z) : Z :=
  u32 (__sw_hweight32 (u32 (Z.shiftr w 32)) + __sw_hweight32 (u32 w)).

(** [sizeof(w) == 4 ? hweight32(w) : hweight64(w)] *)
Definition hweight_long (w : Z) : Z := __sw_hweight32 w.

(** ** Specifications *)

(** The bit of a bitmap at absolute position [i]: the abstract view of a
    [unsigned long] array used by every theorem on bitmaps. *)
Definition bit (map : list Z) (i : Z) : bool :=
  match map.[i / BITS_PER_LONG] with
  | Some w => Z.testbit w (i mod BITS_PER_LONG)
  | None => false
  end.

Definition lowest_bit (w r : Z) : Prop :=
  0 ≤ r ∧ Z.testbit w r = true ∧ ∀ j, 0 ≤ j < r → Z.testbit w j = false.

Definition highest_bit (n w r : Z) : Prop :=
  0 ≤ r < n ∧ Z.testbit w r = true ∧ ∀ j, r < j < n → Z.testbit w j = false.

(** Number of set bits below position [n]. *)
Fixpoint popcount (n : nat) (w : Z) : Z :=
  match n with
  | O => 0
  | S n' => popcount n' w + Z.b2z (Z.testbit w (Z.of_nat n'))
  end.

(** ** The binary searches *)
#[local] Arguments ffs_step : simpl never.
#[local] Arguments fls_step : simpl never.

Lemma lowest_bit_exists w : 0 < w → ∃ r, lowest_bit w r.
Proof.
  intros Hw. destruct w as [|p|p]; [lia| |lia].
  induction p as [p _|p IH|].
  - exists 0. split; [lia|]. split; [done|]. intros; lia.
  - destruct IH as (r & Hr & Ht & Hj); [lia|]. exists (r + 1).
    change (Z.pos p~0) with (2 * Z.pos p). split; [lia|]. split.
    + rewrite Z.add_1_r. by rewrite Z.double_bits_succ.
    + intros j Hj'. destruct (decide (j = 0)) as [->|]; [apply Z.testbit_even_0|].
      replace j with (Z.succ (j - 1)) by lia.
      rewrite Z.double_bits_succ. apply Hj. lia.
  - exists 0. split; [lia|]. split; [done|]. intros; lia.
Qed.

Lemma land_mask_zero w k r :
  0 ≤ k → lowest_bit w r → Z.land w (Z.ones k) = 0 ↔ k ≤ r.
Proof.
  intros Hk (Hr & Ht & Hj). split.
  - intros H. destruct (decide (k ≤ r)); [done|].
    assert (Hb : Z.testbit (Z.land w (Z.ones k)) r = true).
    { rewrite Z.land_spec, Ht, Z.ones_spec_low by lia. done. }
    rewrite H, Z.bits_0 in Hb. done.
  - intros Hkr. apply Z.bits_inj'. intros i Hi. rewrite Z.land_spec, Z.bits_0.
    destruct (decide (i < k)); [rewrite Hj by lia; done|].
    rewrite Z.ones_spec_high by lia. apply andb_false_r.
Qed.

Lemma ffs_step_spec k num w r :
  0 < k → lowest_bit w r → r < 2 * k →
  ∃ r', lowest_bit (ffs_step (Z.ones k) k (num, w)).2 r' ∧ r' < k ∧
        (ffs_step (Z.ones k) k (num, w)).1 + r' = num + r.
Proof.
  intros Hk Hl Hr. unfold ffs_step.
  destruct (Z.eqb_spec (Z.land w (Z.ones k)) 0) as [E|E].
  - apply (land_mask_zero _ _ r) in E; [|lia|done]. destruct Hl as (Hr0 & Ht & Hj).
    exists (r - k). simpl. split; [|lia]. split; [lia|].
    rewrite Z.shiftr_spec by lia. replace (r - k + k) with r by lia. split; [done|].
    intros j Hj'. rewrite Z.shiftr_spec by lia. apply Hj. lia.
  - rewrite (land_mask_zero _ _ r) in E; [|lia|done]. exists r. simpl. split; [done|lia].
Qed.

Lemma __ffs_lowest w r : lowest_bit w r → r < 32 → __ffs w = r.
Proof.
  intros Hl Hr. unfold __ffs.
  change 0xffff with (Z.ones 16). change 0xff with (Z.ones 8).
  change 0xf with (Z.ones 4). change 0x3 with (Z.ones 2).
  destruct (ffs_step_spec 16 0 w r) as (r1 & H1 & Hr1 & E1); [lia|done|lia|].
  destruct (ffs_step _ 16 _) as [n1 w1]; simpl in *.
  destruct (ffs_step_spec 8 n1 w1 r1) as (r2 & H2 & Hr2 & E2); [lia|done|lia|].
  destruct (ffs_step _ 8 _) as [n2 w2]; simpl in *.
  destruct (ffs_step_spec 4 n2 w2 r2) as (r3 & H3 & Hr3 & E3); [lia|done|lia|].
  destruct (ffs_step _ 4 _) as [n3 w3]; simpl in *.
  destruct (ffs_step_spec 2 n3 w3 r3) as (r4 & H4 & Hr4 & E4); [lia|done|lia|].
  destruct (ffs_step _ 2 _) as [n4 w4]; simpl in *.
  destruct (Z.eqb_spec (Z.land w4 0x1) 0) as [E|E];
    rewrite (land_mask_zero _ 1 r4) in E by (done || lia); destruct H4; lia.
Qed.

(** [__ffs] of a non-zero word is its lowest set bit. *)
Lemma __ffs_spec w : ulong w → w ≠ 0 → lowest_bit w (__ffs w) ∧ __ffs w < 32.
Proof.
  intros Hw H0. destruct (lowest_bit_exists w) as [r Hr]; [unfold urange in Hw; lia|].
  assert (r < 32).
  { destruct (decide (r < 32)); [done|]. destruct Hr as (_ & Ht & _).
    rewrite (urange_testbit_high 32) in Ht by (done || lia). done. }
  by rewrite (__ffs_lowest _ r).
Qed.

Lemma highest_bit_exists n w :
  0 ≤ n → urange n w → w ≠ 0 → ∃ r, highest_bit n w r.
Proof.
  intros Hn Hw H0. unfold urange in Hw. exists (Z.log2 w). split.
  - split; [apply Z.log2_nonneg|]. apply Z.log2_lt_pow2; lia.
  - split; [apply Z.bit_log2; lia|]. intros j Hj. apply Z.bits_above_log2; lia.
Qed.

Lemma land_himask_zero w k r :
  0 ≤ k ≤ 32 → highest_bit 32 w r →
  Z.land w (shl_ul ULONG_MAX (32 - k)) = 0 ↔ r < 32 - k.
Proof.
  intros Hk (Hr & Ht & Hj).
  assert (Hm : ∀ i, 0 ≤ i → Z.testbit (shl_ul ULONG_MAX (32 - k)) i =
                    (i <? 32) && (32 - k <=? i)).
  { intros i Hi. rewrite testbit_ushl by lia. unfold ULONG_MAX.
    destruct (Z.ltb_spec i 32); simpl; [|done].
    destruct (Z.leb_spec (32 - k) i).
    - rewrite testbit_unot, Z.bits_0 by lia. destruct (Z.ltb_spec (i - (32 - k)) 32); [done|lia].
    - apply Z.testbit_neg_r. lia. }
  split.
  - intros H. destruct (decide (r < 32 - k)); [done|].
    assert (Hb : Z.testbit (Z.land w (shl_ul ULONG_MAX (32 - k))) r = true).
    { rewrite Z.land_spec, Ht, Hm by lia.
      destruct (Z.ltb_spec r 32), (Z.leb_spec (32 - k) r); done || lia. }
    rewrite H, Z.bits_0 in Hb. done.
  - intros Hkr. apply Z.bits_inj'. intros i Hi. rewrite Z.land_spec, Z.bits_0, Hm by lia.
    destruct (Z.ltb_spec i 32), (Z.leb_spec (32 - k) i); simpl; rewrite ?andb_false_r; try done.
    rewrite Hj by lia. done.
Qed.

Lemma fls_step_spec k num w r :
  0 < k ≤ 16 → highest_bit 32 w r → 32 - 2 * k ≤ r →
  ∃ r', highest_bit 32 (fls_step k (num, w)).2 r' ∧ 32 - k ≤ r' ∧
        (fls_step k (num, w)).1 - (31 - r') = num - (31 - r).
Proof.
  intros Hk Hl Hr. unfold fls_step. change BITS_PER_LONG with 32.
  destruct (Z.eqb_spec (Z.land w (shl_ul ULONG_MAX (32 - k))) 0) as [E|E].
  - apply (land_himask_zero _ _ r) in E; [|lia|done]. destruct Hl as (Hr0 & Ht & Hj).
    exists (r + k). simpl. split; [|lia]. split; [lia|].
    rewrite testbit_ushl by lia. replace (r + k - k) with r by lia.
    rewrite Ht. destruct (Z.ltb_spec (r + k) 32); [|lia]. split; [done|].
    intros j Hj'. rewrite testbit_ushl by lia. rewrite Hj by lia. apply andb_false_r.
  - rewrite (land_himask_zero _ _ r) in E; [|lia|done]. exists r. simpl. split; [done|lia].
Qed.

Lemma fls_steps_spec num w r :
  highest_bit 32 w r →
  ∃ r', highest_bit 32 (fls_step 2 (fls_step 4 (fls_step 8 (fls_step 16 (num, w))))).2 r'
      ∧ 30 ≤ r' ∧
      (fls_step 2 (fls_step 4 (fls_step 8 (fls_step 16 (num, w))))).1 - (31 - r') = num - (31 - r).
Proof.
  intros Hl. assert (0 ≤ r) by (destruct Hl; lia).
  destruct (fls_step_spec 16 num w r) as (r1 & H1 & Hr1 & E1); [lia|done|lia|].
  destruct (fls_step 16 _) as [n1 w1]; simpl in *.
  destruct (fls_step_spec 8 n1 w1 r1) as (r2 & H2 & Hr2 & E2); [lia|done|lia|].
  destruct (fls_step 8 _) as [n2 w2]; simpl in *.
  destruct (fls_step_spec 4 n2 w2 r2) as (r3 & H3 & Hr3 & E3); [lia|done|lia|].
  destruct (fls_step 4 _) as [n3 w3]; simpl in *.
  destruct (fls_step_spec 2 n3 w3 r3) as (r4 & H4 & Hr4 & E4); [lia|done|lia|].
  exists r4. split; [done|]. split; lia.
Qed.

Lemma __fls_highest w r : highest_bit 32 w r → __fls w = r.
Proof.
  intros Hl. unfold __fls. change BITS_PER_LONG with 32.
  destruct (fls_steps_spec (32 - 1) w r) as (r4 & H4 & Hr4 & E4); [done|].
  destruct (fls_step 2 _) as [n4 w4]; simpl in *.
  destruct (Z.eqb_spec (Z.land w4 (shl_ul ULONG_MAX (32 - 1))) 0) as [E|E];
    rewrite (land_himask_zero _ 1 r4) in E by (done || lia); destruct H4; lia.
Qed.

(** [__fls] of a non-zero word is its highest set bit. *)
Lemma __fls_spec w : ulong w → w ≠ 0 → highest_bit 32 w (__fls w).
Proof.
  intros Hw H0. destruct (highest_bit_exists 32 w) as [r Hr]; [lia|done|done|].
  by rewrite (__fls_highest _ r).
Qed.

(** [fls] is one plus the highest set bit, and zero on zero: the number of
    bits needed to hold the 32-bit pattern of its argument. *)
Lemma fls_spec x : urange (fls x) (u32 x) ∧ 0 ≤ fls x ≤ 32 ∧
  (u32 x ≠ 0 → 2 ^ (fls x - 1) ≤ u32 x).
Proof.
  assert (Hw : urange 32 (u32 x)) by (apply urange_uwrap; lia). unfold fls.
  destruct (Z.eqb_spec (u32 x) 0) as [E|E].
  { rewrite E. unfold urange. simpl. lia. }
  destruct (highest_bit_exists 32 (u32 x)) as [r Hr]; [lia|done|done|].
  destruct (fls_steps_spec 32 (u32 x) r) as (r4 & H4 & Hr4 & E4); [done|].
  destruct (fls_step 2 _) as [n4 w4]; simpl in E4.
  assert (Hn : (fls_step 1 (n4, w4)).1 = r + 1).
  { unfold fls_step. change BITS_PER_LONG with 32.
    destruct (Z.eqb_spec (Z.land w4 (shl_ul ULONG_MAX (32 - 1))) 0) as [Ez|Ez];
      rewrite (land_himask_zero _ 1 r4) in Ez by (done || lia); simpl; destruct H4; lia. }
  rewrite Hn. destruct Hr as (Hr & Ht & Hj). split; [|split; [lia|]].
  - apply urange_of_bits; [lia|unfold urange in Hw; lia|]. intros i Hi.
    destruct (decide (i < 32)); [apply Hj; lia|]. by apply (urange_testbit_high 32); [|lia].
  - intros _. replace (r + 1 - 1) with r by lia.
    destruct (decide (2 ^ r ≤ u32 x)); [done|].
    rewrite (urange_testbit_high r) in Ht; [done| |lia]. unfold urange in *. lia.
Qed.

(** ** Bit accessors *)
Abbreviation words := (Forall ulong).

Lemma bit_update map k w map' i :
  map.[k <- w] = Some map' → 0 ≤ i →
  bit map' i = if decide (i / 32 = k) then Z.testbit w (i mod 32) else bit map i.
Proof.
  intros Hs Hi. unfold bit. change BITS_PER_LONG with 32.
  rewrite (arr_get_set _ _ _ _ _ Hs). by case_decide.
Qed.

Lemma bit_word map i w : map.[i / 32] = Some w → bit map i = Z.testbit w (i mod 32).
Proof. intros H. unfold bit. change BITS_PER_LONG with 32. by rewrite H. Qed.

Lemma word_index i n : 0 ≤ i < 32 * n → 0 ≤ i / 32 < n.
Proof. intros. split; [apply Z.div_pos; lia|]. apply Z.div_lt_upper_bound; lia. Qed.

Lemma mod32_range i : 0 ≤ i mod 32 < 32.
Proof. apply Z.mod_pos_bound. lia. Qed.

Lemma BIT_MASK_testbit nr j :
  0 ≤ j → Z.testbit (BIT_MASK nr) j = (j =? nr mod 32).
Proof.
  intros Hj. unfold BIT_MASK. change BITS_PER_LONG with 32.
  rewrite Z.shiftl_1_l, Z.pow2_bits_eqb by apply mod32_range. apply Z.eqb_sym.
Qed.

Lemma ulong_BIT_MASK nr : ulong (BIT_MASK nr).
Proof.
  apply urange_of_bits; [lia| |].
  - unfold BIT_MASK. apply Z.shiftl_nonneg. lia.
  - intros i Hi. rewrite BIT_MASK_testbit by lia. apply Z.eqb_neq.
    pose proof (mod32_range nr). lia.
Qed.
#[export] Hint Resolve ulong_BIT_MASK : word.

(** Positions [i] and [nr] coincide iff they agree on word and offset. *)
Lemma same_word_eqb i nr :
  i / 32 = nr / 32 → (i mod 32 =? nr mod 32) = (i =? nr).
Proof.
  intros H. pose proof (Z.div_mod i 32) as Hi. pose proof (Z.div_mod nr 32) as Hn.
  destruct (Z.eqb_spec (i mod 32) (nr mod 32)), (Z.eqb_spec i nr); try done; lia.
Qed.

Lemma diff_word_eqb i nr : i / 32 ≠ nr / 32 → (i =? nr) = false.
Proof. intros H. apply Z.eqb_neq. by intros ->. Qed.

(** A read-modify-write of the word of [nr] by a function [f] that acts on the
    single bit [nr mod 32] through [g]. *)
Lemma rmw_bit_spec f g nr map :
  (∀ w j, ulong w → 0 ≤ j < 32 →
     Z.testbit (f w) j = if j =? nr mod 32 then g (Z.testbit w j) else Z.testbit w j) →
  (∀ w, ulong w → ulong (f w)) →
  words map → 0 ≤ nr < 32 * alen map →
  ∃ w map', map.[BIT_WORD nr] = Some w ∧ map.[BIT_WORD nr <- f w] = Some map' ∧
    Z.testbit w (nr mod 32) = bit map nr ∧ ulong w ∧
    alen map' = alen map ∧ words map' ∧
    ∀ i, 0 ≤ i → bit map' i = if i =? nr then g (bit map i) else bit map i.
Proof.
  intros Hf Hr Hmap Hnr. unfold BIT_WORD. change BITS_PER_LONG with 32.
  pose proof (word_index _ _ Hnr) as Hi.
  destruct (arr_get_lt map (nr / 32)) as [w Hw]; [done|].
  assert (Hu : ulong w) by by eapply Forall_arr_get.
  pose proof (arr_set_lt map (nr / 32) (f w) Hi) as Hs.
  exists w, (<[Z.to_nat (nr / 32) := f w]> map).
  split; [done|]. split; [done|]. split; [by rewrite (bit_word _ _ _ Hw)|].
  split; [done|]. split; [by eapply alen_set|]. split; [by eapply (Forall_arr_set _ _ _ _ _ Hmap (Hr w Hu))|].
  - intros i Hi0. rewrite (bit_update _ _ _ _ _ Hs) by done. case_decide as Hd.
    + rewrite Hf by (done || apply mod32_range). rewrite same_word_eqb by done.
      by rewrite (bit_word map i w) by congruence.
    + by rewrite diff_word_eqb.
Qed.

Lemma __set_bit_spec nr map :
  words map → 0 ≤ nr < 32 * alen map →
  ∃ map', __set_bit nr map = Some map' ∧ alen map' = alen map ∧ words map' ∧
    ∀ i, 0 ≤ i → bit map' i = (i =? nr) || bit map i.
Proof.
  intros Hm Hnr.
  destruct (rmw_bit_spec (λ w, Z.lor w (BIT_MASK nr)) (λ _, true) nr map)
    as (w & map' & Hw & Hs & _ & _ & Hl & Hok & Hb); [| |done|done|].
  - intros w j Hw Hj. rewrite Z.lor_spec, BIT_MASK_testbit by lia.
    destruct (_ =? _); [apply orb_true_r|apply orb_false_r].
  - auto with word.
  - exists map'. unfold __set_bit. rewrite Hw. simpl. rewrite Hs. do 3 (split; [done|]).
    intros i Hi. rewrite Hb by done. by destruct (i =? nr).
Qed.

Lemma __clear_bit_spec nr map :
  words map → 0 ≤ nr < 32 * alen map →
  ∃ map', __clear_bit nr map = Some map' ∧ alen map' = alen map ∧ words map' ∧
    ∀ i, 0 ≤ i → bit map' i = negb (i =? nr) && bit map i.
Proof.
  intros Hm Hnr.
  destruct (rmw_bit_spec (λ w, Z.land w (lnot_ul (BIT_MASK nr))) (λ _, false) nr map)
    as (w & map' & Hw & Hs & _ & _ & Hl & Hok & Hb); [| |done|done|].
  - intros w j Hw Hj. rewrite Z.land_spec, testbit_unot, BIT_MASK_testbit by lia.
    destruct (Z.ltb_spec j 32); [|lia].
    destruct (_ =? _); simpl; [apply andb_false_r|apply andb_true_r].
  - auto with word.
  - exists map'. unfold __clear_bit. rewrite Hw. simpl. rewrite Hs. do 3 (split; [done|]).
    intros i Hi. rewrite Hb by done. by destruct (i =? nr).
Qed.

Lemma test_bit_spec nr map :
  0 ≤ nr < 32 * alen map → test_bit nr map = Some (bit map nr).
Proof.
  intros Hnr. unfold test_bit, BIT_WORD. change BITS_PER_LONG with 32.
  destruct (arr_get_lt map (nr / 32)) as [w Hw]; [by apply word_index|].
  rewrite Hw. simpl. rewrite (bit_word _ _ _ Hw). f_equal.
  change (32 - 1) with (Z.ones 5). rewrite Z.land_ones by lia. change (2 ^ 5) with 32.
  pose proof (mod32_range nr).
  destruct (Z.testbit w (nr mod 32)) eqn:E.
  - apply ctrue_true. intros H0.
    assert (Hb : Z.testbit (Z.land 1 (Z.shiftr w (nr mod 32))) 0 = true).
    { rewrite Z.land_spec, Z.shiftr_spec by lia. by rewrite Z.add_0_l, E. }
    rewrite H0 in Hb. done.
  - apply ctrue_false. apply Z.bits_inj'. intros j Hj.
    rewrite Z.land_spec, Z.shiftr_spec, Z.bits_0 by lia.
    destruct (decide (j = 0)) as [->|]; [by rewrite Z.add_0_l, E, andb_false_r|].
    change 1 with (Z.ones 1). rewrite Z.ones_spec_high by lia. done.
Qed.

Lemma land_BIT_MASK_ctrue w nr :
  ctrue (Z.land w (BIT_MASK nr)) = Z.testbit w (nr mod 32).
Proof.
  pose proof (mod32_range nr). destruct (Z.testbit w (nr mod 32)) eqn:E.
  - apply ctrue_true. intros H0.
    assert (Hb : Z.testbit (Z.land w (BIT_MASK nr)) (nr mod 32) = true).
    { rewrite Z.land_spec, E, BIT_MASK_testbit, Z.eqb_refl by lia. done. }
    by rewrite H0, Z.bits_0 in Hb.
  - apply ctrue_false, Z.bits_inj'. intros j Hj.
    rewrite Z.land_spec, Z.bits_0, BIT_MASK_testbit by lia.
    destruct (Z.eqb_spec j (nr mod 32)) as [->|]; [by rewrite E|apply andb_false_r].
Qed.

(** ** Population count

    The SWAR sums act on each byte lane separately; on one byte they are
    checked by computation, and [lane_*] lift this to words. *)
Section Hweight.

Lemma testbit_lane a x i :
  0 ≤ a < 256 → 0 ≤ i →
  Z.testbit (a + 256 * x) i = if i <? 8 then Z.testbit a i else Z.testbit x (i - 8).
Proof.
  intros Ha Hi. destruct (Z.ltb_spec i 8).
  - rewrite <- (Z.mod_pow2_bits_low (a + 256 * x) 8) by lia.
    f_equal. change (2 ^ 8) with 256. rewrite Z.mul_comm, Z.mod_add by lia. by apply Z.mod_small.
  - replace i with ((i - 8) + 8) at 1 by lia. rewrite <- Z.div_pow2_bits by lia.
    f_equal. change (2 ^ 8) with 256. rewrite Z.mul_comm, Z.div_add by lia.
    rewrite Z.div_small by lia. lia.
Qed.

Lemma lane_land s a x m M :
  0 ≤ s ≤ 8 → 0 ≤ a < 256 → 0 ≤ m < 2 ^ (8 - s) →
  Z.land (Z.shiftr (a + 256 * x) s) (m + 256 * M)
  = Z.land (Z.shiftr a s) m + 256 * Z.land (Z.shiftr x s) M.
Proof.
  intros Hs Ha Hm.
  assert (Hm8 : 0 ≤ m < 256).
  { split; [lia|]. apply Z.lt_le_trans with (2 ^ (8 - s)); [lia|].
    change 256 with (2 ^ 8). apply Z.pow_le_mono_r; lia. }
  assert (Hl : 0 ≤ Z.land (Z.shiftr a s) m < 256).
  { change 256 with (2 ^ 8). rewrite Z.land_comm. apply (urange_land_l 8); [lia|done|].
    apply Z.shiftr_nonneg. lia. }
  apply Z.bits_inj'. intros i Hi.
  rewrite Z.land_spec, Z.shiftr_spec, !testbit_lane by lia.
  destruct (Z.ltb_spec i 8).
  - rewrite Z.land_spec, Z.shiftr_spec by lia.
    destruct (Z.ltb_spec (i + s) 8); [done|].
    rewrite (urange_testbit_high (8 - s) m i), !andb_false_r by (done || lia). done.
  - destruct (Z.ltb_spec (i + s) 8); [lia|].
    rewrite Z.land_spec, Z.shiftr_spec by lia. do 2 f_equal. lia.
Qed.

Definition stage1 (M w : Z) : Z := w - Z.land (Z.shiftr w 1) M.
Definition stage2 (M r : Z) : Z := Z.land r M + Z.land (Z.shiftr r 2) M.
Definition stage3 (M r : Z) : Z := Z.land (r + Z.shiftr r 4) M.

Lemma lane_stage1 a x M :
  0 ≤ a < 256 → stage1 (0x55 + 256 * M) (a + 256 * x) = stage1 0x55 a + 256 * stage1 M x.
Proof. intros Ha. unfold stage1. rewrite lane_land by (simpl; lia). lia. Qed.

Lemma lane_stage2 a x M :
  0 ≤ a < 256 → stage2 (0x33 + 256 * M) (a + 256 * x) = stage2 0x33 a + 256 * stage2 M x.
Proof.
  intros Ha. unfold stage2. rewrite (lane_land 2) by (simpl; lia).
  pose proof (lane_land 0 a x 0x33 M ltac:(lia) Ha ltac:(simpl; lia)) as H0.
  rewrite !Z.shiftr_0_r in H0. lia.
Qed.

Lemma lane_stage3 a x M :
  0 ≤ a ≤ 0x44 → a mod 16 ≤ 4 → x mod 16 ≤ 4 →
  stage3 (0x0f + 256 * M) (a + 256 * x) = stage3 0x0f a + 256 * stage3 M x.
Proof.
  intros Ha Hm Hx. unfold stage3.
  assert (E : a + 256 * x + Z.shiftr (a + 256 * x) 4
    = (a + Z.shiftr a 4 + 16 * (x mod 16)) + 256 * (x + Z.shiftr x 4)).
  { rewrite !Z.shiftr_div_pow2 by lia. change (2 ^ 4) with 16.
    Z.to_euclidean_division_equations. lia. }
  assert (0 ≤ Z.shiftr a 4 ≤ 4).
  { rewrite Z.shiftr_div_pow2 by lia. change (2 ^ 4) with 16.
    Z.to_euclidean_division_equations. lia. }
  rewrite E.
  pose proof (lane_land 0 (a + Z.shiftr a 4 + 16 * (x mod 16)) (x + Z.shiftr x 4) 0x0f M
    ltac:(lia) ltac:(pose proof (Z.mod_pos_bound x 16); lia) ltac:(simpl; lia)) as H0.
  rewrite !Z.shiftr_0_r in H0. rewrite H0. f_equal.
  change 15 with (Z.ones 4). rewrite !Z.land_ones by lia. change (2 ^ 4) with 16.
  rewrite Z.mul_comm, Z.mod_add by lia. done.
Qed.

(** One byte through the first two stages, and through all three. *)
Definition byte2 (b : Z) : Z := stage2 0x33 (stage1 0x55 b).
Definition byte_ok (b : Z) : bool :=
  (0 <=? stage1 0x55 b) && (stage1 0x55 b <? 256) &&
  (0 <=? byte2 b) && (byte2 b <=? 0x44) && (byte2 b mod 16 <=? 4) &&
  (stage3 0x0f (byte2 b) =? popcount 8 b) && (0 <=? popcount 8 b) && (popcount 8 b <=? 8).

Lemma byte_all_ok : forallb (λ n, byte_ok (Z.of_nat n)) (seq 0 256) = true.
Proof. vm_compute. done. Qed.

Lemma byte_facts b :
  0 ≤ b < 256 →
  0 ≤ stage1 0x55 b < 256 ∧ 0 ≤ byte2 b ≤ 0x44 ∧ byte2 b mod 16 ≤ 4 ∧
  stage3 0x0f (byte2 b) = popcount 8 b ∧ 0 ≤ popcount 8 b ≤ 8.
Proof.
  intros Hb. pose proof byte_all_ok as H. rewrite forallb_forall in H.
  specialize (H (Z.to_nat b)). rewrite Z2Nat.id in H by lia.
  unfold byte_ok in H. rewrite !andb_true_iff in H.
  destruct H as [[[[[[[]]]]]]]; [apply in_seq; lia|]. lia.
Qed.

Lemma popcount_ext n w w' :
  (∀ i, 0 ≤ i < Z.of_nat n → Z.testbit w i = Z.testbit w' i) → popcount n w = popcount n w'.
Proof.
  induction n as [|n IH]; intros H; cbn [popcount]; [done|].
  rewrite IH, H; [done|lia|intros; apply H; lia].
Qed.

Lemma popcount_add n m w :
  popcount (n + m) w = popcount n w + popcount m (Z.shiftr w (Z.of_nat n)).
Proof.
  induction m as [|m IH]; [rewrite Nat.add_0_r; simpl; lia|].
  rewrite Nat.add_succ_r. cbn [popcount]. rewrite IH, Z.shiftr_spec by lia.
  rewrite <- Z.add_assoc. do 4 f_equal. lia.
Qed.

Lemma popcount_lane n a x :
  0 ≤ a < 256 → popcount (8 + n) (a + 256 * x) = popcount 8 a + popcount n x.
Proof.
  intros Ha. rewrite popcount_add. f_equal.
  - apply popcount_ext. intros i Hi. rewrite testbit_lane by lia.
    destruct (Z.ltb_spec i 8); [done|lia].
  - f_equal. rewrite Z.shiftr_div_pow2 by lia. change (2 ^ Z.of_nat 8) with 256.
    rewrite Z.mul_comm, Z.div_add, Z.div_small by lia. lia.
Qed.

Lemma popcount_range n w : 0 ≤ popcount n w ≤ Z.of_nat n.
Proof.
  induction n as [|n IH]; cbn [popcount]; [lia|].
  destruct (Z.testbit w (Z.of_nat n)); simpl; lia.
Qed.

Lemma split_byte w n : urange (8 + n) w → 0 ≤ n →
  ∃ b x, w = b + 256 * x ∧ 0 ≤ b < 256 ∧ urange n x.
Proof.
  intros Hw Hn. unfold urange in *. rewrite Z.pow_add_r in Hw by lia. change (2 ^ 8) with 256 in Hw.
  exists (w mod 256), (w / 256). pose proof (Z.mod_pos_bound w 256 ltac:(lia)).
  split; [rewrite Z.add_comm; apply Z.div_mod; lia|]. split; [done|].
  split; [apply Z.div_pos; lia|apply Z.div_lt_upper_bound; lia].
Qed.

Lemma __sw_hweight8_popcount w : urange 8 w → __sw_hweight8 w = popcount 8 w.
Proof.
  intros Hw. destruct (byte_facts w Hw) as (H1 & H2 & H3 & H4 & H5).
  unfold __sw_hweight8. change (w - _) with (stage1 0x55 w).
  rewrite (uwrap_small 32 (stage1 _ _)) by (unfold urange; lia).
  change (Z.land (stage1 0x55 w) 0x33 + _) with (byte2 w).
  rewrite (uwrap_small 32 (byte2 _)) by (unfold urange; lia).
  rewrite uwrap_small; [done|]. unfold urange. rewrite Z.shiftr_div_pow2 by lia.
  Z.to_euclidean_division_equations. lia.
Qed.

Lemma __sw_hweight16_popcount w : urange 16 w → __sw_hweight16 w = popcount 16 w.
Proof.
  intros Hw. destruct (split_byte w 8) as (a & b & -> & Ha & Hb); [done|lia|].
  destruct (byte_facts a Ha) as (A1 & A2 & A3 & A4 & A5).
  destruct (byte_facts b Hb) as (B1 & B2 & B3 & B4 & B5).
  rewrite (popcount_lane 8) by done. unfold __sw_hweight16.
  change (_ - Z.land _ 0x5555) with (stage1 (0x55 + 256 * 0x55) (a + 256 * b)).
  rewrite lane_stage1 by done.
  rewrite (uwrap_small 32 (stage1 _ _ + _)) by (unfold urange; lia).
  change (Z.land ?r 0x3333 + _) with (stage2 (0x33 + 256 * 0x33) r).
  rewrite lane_stage2 by done. fold (byte2 a) (byte2 b).
  rewrite (uwrap_small 32 (byte2 _ + _)) by (unfold urange; lia).
  rewrite (uwrap_small 32 (_ + _ + _)).
  2:{ unfold urange. rewrite Z.shiftr_div_pow2 by lia. Z.to_euclidean_division_equations. lia. }
  change (Z.land (?r + Z.shiftr ?r 4) 0x0F0F) with (stage3 (0x0f + 256 * 0x0f) r).
  rewrite lane_stage3, A4, B4 by lia.
  change 0xFF with (Z.ones 8). rewrite Z.land_ones, Z.shiftr_div_pow2 by lia.
  unfold uwrap. Z.to_euclidean_division_equations. lia.
Qed.

(** The last two steps add the four byte lanes. *)
Lemma fold_bytes p q r s :
  0 ≤ p ≤ 8 → 0 ≤ q ≤ 8 → 0 ≤ r ≤ 8 → 0 ≤ s ≤ 8 →
  let res := p + 256 * (q + 256 * (r + 256 * s)) in
  let res := u32 (res + Z.shiftr res 8) in
  Z.land (u32 (res + Z.shiftr res 16)) 0xFF = p + (q + (r + s)).
Proof.
  intros Hp Hq Hr Hs res. cbv zeta. rewrite (Z.shiftr_div_pow2 res) by lia.
  assert (E : res / 2 ^ 8 = q + 256 * (r + 256 * s)).
  { symmetry. apply (Z.div_unique _ _ _ p); unfold res; lia. }
  rewrite E, (uwrap_small 32 (res + _)) by (unfold urange, res; lia).
  rewrite Z.shiftr_div_pow2 by lia.
  assert (E2 : (res + (q + 256 * (r + 256 * s))) / 2 ^ 16 = r + s + 256 * s).
  { symmetry. apply (Z.div_unique _ _ _ (p + q + 256 * (q + r))); unfold res; lia. }
  rewrite E2, uwrap_small by (unfold urange, res; lia).
  change 0xFF with (Z.ones 8). rewrite Z.land_ones by lia. symmetry.
  apply (Z.mod_unique _ _ (q + r + 256 * (r + s) + 65536 * s + s)); unfold res; lia.
Qed.

Lemma __sw_hweight32_popcount w : urange 32 w → __sw_hweight32 w = popcount 32 w.
Proof.
  intros Hw. destruct (split_byte w 24) as (a & x & -> & Ha & Hx); [done|lia|].
  destruct (split_byte x 16) as (b & y & -> & Hb & Hy); [done|lia|].
  destruct (split_byte y 8) as (c & d & -> & Hc & Hd); [done|lia|].
  destruct (byte_facts a Ha) as (A1 & A2 & A3 & A4 & A5).
  destruct (byte_facts b Hb) as (B1 & B2 & B3 & B4 & B5).
  destruct (byte_facts c Hc) as (C1 & C2 & C3 & C4 & C5).
  destruct (byte_facts d Hd) as (D1 & D2 & D3 & D4 & D5).
  rewrite (popcount_lane 24), (popcount_lane 16), (popcount_lane 8) by done.
  unfold __sw_hweight32.
  change (?w - Z.land _ 0x55555555)
    with (stage1 (0x55 + 256 * (0x55 + 256 * (0x55 + 256 * 0x55))) w).
  rewrite !lane_stage1 by done.
  rewrite (uwrap_small 32 (stage1 _ _ + _)) by (unfold urange; lia).
  change (Z.land ?r 0x33333333 + _)
    with (stage2 (0x33 + 256 * (0x33 + 256 * (0x33 + 256 * 0x33))) r).
  rewrite !lane_stage2 by done. fold (byte2 a) (byte2 b) (byte2 c) (byte2 d).
  rewrite (uwrap_small 32 (byte2 _ + _)) by (unfold urange; lia).
  rewrite (uwrap_small 32 (_ + _ + _)).
  2:{ unfold urange. rewrite Z.shiftr_div_pow2 by lia. Z.to_euclidean_division_equations. lia. }
  change (Z.land (?r + Z.shiftr ?r 4) 0x0F0F0F0F)
    with (stage3 (0x0f + 256 * (0x0f + 256 * (0x0f + 256 * 0x0f))) r).
  assert (Hl : ∀ p q, (p + 256 * q) mod 16 = p mod 16).
  { intros p q. replace (p + 256 * q) with (p + (16 * q) * 16) by lia. by rewrite Z.mod_add by lia. }
  rewrite !lane_stage3, A4, B4, C4, D4 by (rewrite ?Hl; lia).
  apply fold_bytes; lia.
Qed.

Lemma __sw_hweight64_popcount w : urange 64 w → __sw_hweight64 w = popcount 64 w.
Proof.
  intros Hw. unfold __sw_hweight64.
  rewrite !__sw_hweight32_popcount by (apply urange_uwrap; lia).
  change 64%nat with (32 + 32)%nat. rewrite (popcount_add 32 32 w), uwrap_small.
  2:{ pose proof (popcount_range 32 (u32 w)).
      pose proof (popcount_range 32 (u32 (Z.shiftr w 32))). unfold urange. lia. }
  rewrite Z.add_comm. f_equal; apply popcount_ext; intros i Hi;
    rewrite testbit_uwrap by lia; destruct (Z.ltb_spec i 32); done || lia.
Qed.
End Hweight.
