(* ===== verification/FindBit.v ===== *)
(** * Searching a bitmap for a set or clear bit

    Models [lib/find_next_bit.c] ([find_next_bit], [find_next_zero_bit],
    [find_first_bit], [find_first_zero_bit]) and [lib/find_last_bit.c].  A bitmap
    is the array of its 32-bit words; the [goto] targets are local definitions.
    The theorems say that each search returns the extremal position with the
    wanted bit value, that it never reads outside the words that hold [size]
    bits, and that its unsigned arithmetic does not wrap. *)
From S2P Require Import Prelude Bitops.
#[local] Open Scope Z_scope.
#[local] Open Scope kernel_scope.

Definition BITOP_WORD (nr : Z) : Z := nr / BITS_PER_LONG.

(** The word scan the searches share, with [test] the condition on the word
    ([tmp] or [~tmp]):
<<
    while (size & ~(BITS_PER_LONG-1)) {
        if (test(tmp = *(p++))) goto found_middle;
        result += BITS_PER_LONG; size -= BITS_PER_LONG;
    }
>>
    [inl (result, tmp)] leaves through the [goto], [inr (p, size, result)] by
    falling out of the loop. *)
Definition scan_words (test : Z → Z) (addr : list Z) (p size result : Z)
  : option (Z * Z + Z * Z * Z) :=
  loop (Z.to_nat (size / BITS_PER_LONG) + 1)
    (λ '(p, size, result),
      if ctrue (Z.land size (lnot_ul (BITS_PER_LONG - 1))) then
        tmp ← addr.[p];
        if ctrue (test tmp) then Some (inr (inl (result, tmp)))
        else Some (inl (p + 1, u32 (size - BITS_PER_LONG), u32 (result + BITS_PER_LONG)))
      else Some (inr (inr (p, size, result))))
    (p, size, result).

Definition find_next_bit (addr : list Z) (size offset : Z) : option Z :=
  let p := BITOP_WORD offset in
  let result := Z.land offset (lnot_ul (BITS_PER_LONG - 1)) in
  let found_middle result tmp := Some (u32 (result + __ffs tmp)) in
  let found_first size result tmp :=
    let tmp := Z.land tmp (Z.shiftr ULONG_MAX (BITS_PER_LONG - size)) in
    if tmp =? 0 then Some (u32 (result + size)) else found_middle result tmp in
  let aligned p size result :=
    o ← scan_words (λ tmp, tmp) addr p size result;
    match o with
    | inl (result, tmp) => found_middle result tmp
    | inr (p, size, result) =>
        if size =? 0 then Some result
        else tmp ← addr.[p]; found_first size result tmp
    end in
  if size <=? offset then Some size else
  let size := u32 (size - result) in
  let offset := offset mod BITS_PER_LONG in
  if ctrue offset then
    tmp ← addr.[p];
    let tmp := Z.land tmp (shl_ul ULONG_MAX offset) in
    if size <? BITS_PER_LONG then found_first size result tmp
    else if ctrue tmp then found_middle result tmp
    else aligned (p + 1) (u32 (size - BITS_PER_LONG)) (u32 (result + BITS_PER_LONG))
  else aligned p size result.

Definition find_next_zero_bit (addr : list Z) (size offset : Z) : option Z :=
  let p := BITOP_WORD offset in
  let result := Z.land offset (lnot_ul (BITS_PER_LONG - 1)) in
  let found_middle result tmp := Some (u32 (result + ffz tmp)) in
  let found_first size result tmp :=
    let tmp := Z.lor tmp (shl_ul ULONG_MAX size) in
    if tmp =? ULONG_MAX then Some (u32 (result + size)) else found_middle result tmp in
  let aligned p size result :=
    o ← scan_words lnot_ul addr p size result;
    match o with
    | inl (result, tmp) => found_middle result tmp
    | inr (p, size, result) =>
        if size =? 0 then Some result
        else tmp ← addr.[p]; found_first size result tmp
    end in
  if size <=? offset then Some size else
  let size := u32 (size - result) in
  let offset := offset mod BITS_PER_LONG in
  if ctrue offset then
    tmp ← addr.[p];
    let tmp := Z.lor tmp (Z.shiftr ULONG_MAX (BITS_PER_LONG - offset)) in
    if size <? BITS_PER_LONG then found_first size result tmp
    else if ctrue (lnot_ul tmp) then found_middle result tmp
    else aligned (p + 1) (u32 (size - BITS_PER_LONG)) (u32 (result + BITS_PER_LONG))
  else aligned p size result.

Definition find_first_bit (addr : list Z) (size : Z) : option Z :=
  o ← scan_words (λ tmp, tmp) addr 0 size 0;
  match o with
  | inl (result, tmp) => Some (u32 (result + __ffs tmp))
  | inr (p, size, result) =>
      if size =? 0 then Some result else
      w ← addr.[p];
      let tmp := Z.land w (Z.shiftr ULONG_MAX (BITS_PER_LONG - size)) in
      if tmp =? 0 then Some (u32 (result + size)) else Some (u32 (result + __ffs tmp))
  end.

Definition find_first_zero_bit (addr : list Z) (size : Z) : option Z :=
  o ← scan_words lnot_ul addr 0 size 0;
  match o with
  | inl (result, tmp) => Some (u32 (result + ffz tmp))
  | inr (p, size, result) =>
      if size =? 0 then Some result else
      w ← addr.[p];
      let tmp := Z.lor w (shl_ul ULONG_MAX size) in
      if tmp =? ULONG_MAX then Some (u32 (result + size)) else Some (u32 (result + ffz tmp))
  end.

Definition find_last_bit (addr : list Z) (size : Z) : option Z :=
  let found words tmp := Some (u32 (words * BITS_PER_LONG + __fls tmp)) in
  let scan words :=
    loop (Z.to_nat words + 1)
      (λ words,
        if ctrue words then
          let words := words - 1 in
          tmp ← addr.[words];
          if ctrue tmp then r ← found words tmp; Some (inr r) else Some (inl words)
        else Some (inr size)) words in
  let words := size / BITS_PER_LONG in
  let rem := Z.land size (BITS_PER_LONG - 1) in
  if ctrue rem then
    w ← addr.[words];
    let tmp := Z.land w (Z.shiftr ULONG_MAX (BITS_PER_LONG - rem)) in
    if ctrue tmp then found words tmp else scan words
  else scan words.

(** ** What a search must return *)

(** [r] is the first position of [lo, hi) where [P] holds, or [hi]. *)
Definition first_in (P : Z → bool) (lo hi r : Z) : Prop :=
  lo ≤ r ≤ hi ∧ (∀ i, lo ≤ i < r → P i = false) ∧ (r < hi → P r = true).

(** [r] is the last position of [0, hi) where [P] holds, or [hi]. *)
Definition last_in (P : Z → bool) (hi r : Z) : Prop :=
  (0 ≤ r < hi ∧ P r = true ∧ ∀ i, r < i < hi → P i = false) ∨
  (r = hi ∧ ∀ i, 0 ≤ i < hi → P i = false).

(** [size] bits fit in the array and in an [unsigned long]. *)
Definition bits_in (addr : list Z) (size : Z) : Prop :=
  words addr ∧ 0 ≤ size ≤ 32 * alen addr ∧ size < 2 ^ 32.

Lemma first_in_unique P lo hi r r' : first_in P lo hi r → first_in P lo hi r' → r = r'.
Proof.
  intros (H1 & H2 & H3) (H1' & H2' & H3').
  destruct (Z.lt_trichotomy r r') as [H|[H|H]]; [|done|].
  - rewrite (H2' r) in H3 by lia. discriminate (H3 ltac:(lia)).
  - rewrite (H2 r') in H3' by lia. discriminate (H3' ltac:(lia)).
Qed.

Lemma first_in_ext P Q lo hi r :
  (∀ i, lo ≤ i < hi → P i = Q i) → first_in P lo hi r → first_in Q lo hi r.
Proof.
  intros HPQ (H1 & H2 & H3). split; [done|]. split.
  - intros i Hi. rewrite <- HPQ by lia. by apply H2.
  - intros Hr. rewrite <- HPQ by lia. by apply H3.
Qed.

Lemma first_in_extend P lo m hi r :
  lo ≤ m → (∀ i, lo ≤ i < m → P i = false) → first_in P m hi r → first_in P lo hi r.
Proof.
  intros Hm Hlo (H1 & H2 & H3). split; [lia|]. split; [|done].
  intros i Hi. destruct (decide (i < m)); [apply Hlo; lia|apply H2; lia].
Qed.

(** ** Word-level facts *)

Lemma testbit_ULONG_MAX i : 0 ≤ i → Z.testbit ULONG_MAX i = (i <? 32).
Proof. intros. unfold ULONG_MAX. by rewrite testbit_unot, Z.bits_0, andb_true_r by lia. Qed.

Lemma testbit_himask n i :
  0 ≤ i → 0 ≤ n → Z.testbit (shl_ul ULONG_MAX n) i = (i <? 32) && (n <=? i).
Proof.
  intros Hi Hn. rewrite testbit_ushl by lia. destruct (Z.ltb_spec i 32); simpl; [|done].
  destruct (Z.leb_spec n i); [|by apply Z.testbit_neg_r; lia].
  rewrite testbit_ULONG_MAX by lia. apply Z.ltb_lt. lia.
Qed.

Lemma testbit_lomask n i :
  0 ≤ i → n ≤ 32 → Z.testbit (Z.shiftr ULONG_MAX (32 - n)) i = (i <? n).
Proof.
  intros Hi Hn. rewrite Z.shiftr_spec, testbit_ULONG_MAX by lia.
  destruct (Z.ltb_spec (i + (32 - n)) 32), (Z.ltb_spec i n); done || lia.
Qed.

Lemma ulong_MAX : ulong ULONG_MAX.
Proof. unfold ULONG_MAX. auto with word. Qed.
#[export] Hint Resolve ulong_MAX : word.

Lemma land_not31 x : ulong x → Z.land x (lnot_ul (BITS_PER_LONG - 1)) = 32 * (x / 32).
Proof.
  intros Hx. apply Z.bits_inj'. intros i Hi.
  rewrite Z.land_spec, testbit_unot by lia.
  change (BITS_PER_LONG - 1) with (Z.ones 5). change 32 with (2 ^ 5) at 2 3.
  rewrite (Z.mul_comm _ (x / _)), <- Z.shiftl_mul_pow2, <- Z.shiftr_div_pow2 by lia.
  rewrite Z.shiftl_spec by lia. destruct (decide (i < 5)).
  - rewrite Z.ones_spec_low, !andb_false_r, Z.testbit_neg_r by lia. done.
  - rewrite Z.ones_spec_high, Z.shiftr_spec, Z.sub_add, andb_true_r by lia.
    destruct (Z.ltb_spec i 32); [apply andb_true_r|].
    rewrite (urange_testbit_high 32 x) by (done || lia). done.
Qed.

(** Inside the word that starts at [32 * k]. *)
Lemma bit_in_word addr k w i :
  addr.[k] = Some w → 32 * k ≤ i < 32 * k + 32 → bit addr i = Z.testbit w (i - 32 * k).
Proof.
  intros Hw Hi. assert (Hd : i / 32 = k) by (symmetry; apply (Z.div_unique _ _ _ (i - 32 * k)); lia).
  rewrite (bit_word addr i w) by (by rewrite Hd). f_equal.
  symmetry. apply (Z.mod_unique _ _ k); lia.
Qed.

Lemma bits_in_word addr T k :
  bits_in addr T → 0 ≤ k → 32 * k < T → ∃ w, addr.[k] = Some w ∧ ulong w.
Proof.
  intros (Hw & HT & _) Hk Hlt. destruct (arr_get_lt addr k) as [w E]; [lia|].
  exists w. split; [done|]. by eapply Forall_arr_get.
Qed.

(** The part [lo, hi) of word [k] is selected into [tmp]. *)
Definition selects (addr : list Z) (k lo hi tmp : Z) : Prop :=
  ulong tmp ∧ ∀ j, 0 ≤ j < 32 →
    Z.testbit tmp j = bit addr (32 * k + j) && (lo <=? 32 * k + j) && (32 * k + j <? hi).

Lemma selects_found addr k lo hi tmp :
  0 ≤ k → 32 * k ≤ lo → selects addr k lo hi tmp → tmp ≠ 0 →
  first_in (bit addr) lo hi (32 * k + __ffs tmp).
Proof.
  intros Hk Hlo [Hu Hs] H0. destruct (__ffs_spec tmp Hu H0) as ((Hr & Ht & Hj) & Hr32).
  rewrite Hs in Ht by lia. rewrite !andb_true_iff in Ht. destruct Ht as [[Hb Hl] Hh].
  split; [lia|]. split; [|done]. intros i Hi.
  specialize (Hj (i - 32 * k) ltac:(lia)). rewrite Hs in Hj by lia.
  replace (32 * k + (i - 32 * k)) with i in Hj by lia.
  destruct (Z.leb_spec lo i), (Z.ltb_spec i hi); try lia.
  by rewrite !andb_true_r in Hj.
Qed.

Lemma selects_empty addr k lo hi :
  32 * k ≤ lo ≤ hi → hi ≤ 32 * k + 32 → selects addr k lo hi 0 → first_in (bit addr) lo hi hi.
Proof.
  intros Hlo Hhi [_ Hs]. split; [lia|]. split; [|lia]. intros i Hi.
  specialize (Hs (i - 32 * k) ltac:(lia)). rewrite Z.bits_0 in Hs.
  replace (32 * k + (i - 32 * k)) with i in Hs by lia.
  destruct (Z.leb_spec lo i), (Z.ltb_spec i hi); try lia. by rewrite !andb_true_r in Hs.
Qed.

Lemma selects_word addr k w : addr.[k] = Some w → ulong w → selects addr k (32 * k) (32 * k + 32) w.
Proof.
  intros Hw Hu. split; [done|]. intros j Hj. rewrite (bit_in_word addr k w) by (done || lia).
  replace (32 * k + j - 32 * k) with j by lia.
  destruct (Z.leb_spec (32 * k) (32 * k + j)), (Z.ltb_spec (32 * k + j) (32 * k + 32)); try lia.
  by rewrite !andb_true_r.
Qed.

Lemma selects_low addr k w n :
  0 ≤ n → selects addr k (32 * k) (32 * k + 32) w →
  selects addr k (32 * k + n) (32 * k + 32) (Z.land w (shl_ul ULONG_MAX n)).
Proof.
  intros Hn [Hu Hs]. split; [auto with word|]. intros j Hj.
  rewrite Z.land_spec, Hs, testbit_himask by lia.
  destruct (Z.ltb_spec j 32), (Z.leb_spec (32 * k) (32 * k + j)),
    (Z.ltb_spec (32 * k + j) (32 * k + 32)), (Z.leb_spec n j),
    (Z.leb_spec (32 * k + n) (32 * k + j)); try lia; by destruct (bit addr (32 * k + j)).
Qed.

Lemma selects_high addr k lo w n :
  0 ≤ n ≤ 32 → selects addr k lo (32 * k + 32) w →
  selects addr k lo (32 * k + n) (Z.land w (Z.shiftr ULONG_MAX (32 - n))).
Proof.
  intros Hn [Hu Hs]. split; [auto with word|]. intros j Hj.
  rewrite Z.land_spec, Hs, testbit_lomask by lia.
  destruct (Z.ltb_spec (32 * k + j) (32 * k + 32)), (Z.ltb_spec j n),
    (Z.ltb_spec (32 * k + j) (32 * k + n)); try lia;
    by destruct (bit addr (32 * k + j)), (lo <=? 32 * k + j).
Qed.

Lemma scan_words_spec addr T p size :
  bits_in addr T → 0 ≤ p → 0 ≤ size → 32 * p + size = T →
  ∃ o, scan_words (λ t, t) addr p size (32 * p) = Some o ∧
    match o with
    | inl (res, tmp) => ∃ k, res = 32 * k ∧ p ≤ k ∧ addr.[k] = Some tmp ∧ ulong tmp ∧
        tmp ≠ 0 ∧ 32 * k + 32 ≤ T ∧ ∀ i, 32 * p ≤ i < 32 * k → bit addr i = false
    | inr (p', size', res') => res' = 32 * p' ∧ p ≤ p' ∧ 32 * p' + size' = T ∧
        0 ≤ size' < 32 ∧ ∀ i, 32 * p ≤ i < 32 * p' → bit addr i = false
    end.
Proof.
  intros HT Hp Hs E. unfold scan_words.
  apply (loop_rule (λ '(p', s', r'), r' = 32 * p' ∧ p ≤ p' ∧ 32 * p' + s' = T ∧ 0 ≤ s' ∧
           ∀ i, 32 * p ≤ i < 32 * p' → bit addr i = false)
           (λ '(p', s', r'), Z.to_nat (s' / BITS_PER_LONG))).
  2: { split_and!; try done; lia. } 2: lia.
  intros [[p' s'] r'] (-> & Hp' & E' & Hs' & Hz).
  assert (Hu : ulong s') by (destruct HT; unfold urange; lia).
  rewrite (land_not31 s' Hu). destruct (ctrue (32 * (s' / 32))) eqn:Ec.
  - assert (32 ≤ s').
    { apply ctrue_true in Ec. destruct (decide (32 ≤ s')); [done|].
      rewrite Z.div_small in Ec by lia. done. }
    destruct (bits_in_word addr T p') as (w & Hw & Huw); [done|lia|lia|].
    rewrite Hw; simpl. destruct (ctrue w) eqn:Ew.
    + eexists. split; [done|]. exists p'. apply ctrue_true in Ew. split_and!; done || lia.
    + apply ctrue_false in Ew. subst w. eexists. split; [done|]. change BITS_PER_LONG with 32.
      rewrite !uwrap_small by (destruct HT; unfold urange; lia).
      split; [|apply Z2Nat.inj_lt; [apply Z.div_pos; lia|apply Z.div_pos; lia|];
               replace (s' - 32) with (s' + (-1) * 32) by lia; rewrite Z.div_add by lia; lia].
      split_and!; try lia. intros i Hi. destruct (decide (i < 32 * p')); [apply Hz; lia|].
      rewrite (bit_in_word addr p' 0) by (done || lia). apply Z.bits_0.
  - eexists. split; [done|]. simpl. split_and!; try done.
    apply ctrue_false in Ec. assert (Hd0 : s' / 32 = 0) by lia.
    apply Z.div_small_iff in Hd0; lia.
Qed.

(** The aligned part of the searches, from word [p] on. *)
Lemma scan_finish addr T p size :
  bits_in addr T → 0 ≤ p → 0 ≤ size → 32 * p + size = T →
  ∃ r, (o ← scan_words (λ t, t) addr p size (32 * p);
        match o with
        | inl (result, tmp) => Some (u32 (result + __ffs tmp))
        | inr (p, size, result) =>
            if size =? 0 then Some result else
            w ← addr.[p];
            let tmp := Z.land w (Z.shiftr ULONG_MAX (BITS_PER_LONG - size)) in
            if tmp =? 0 then Some (u32 (result + size)) else Some (u32 (result + __ffs tmp))
        end) = Some r ∧ first_in (bit addr) (32 * p) T r.
Proof.
  intros HT Hp Hs E.
  destruct (scan_words_spec addr T p size HT Hp Hs E) as ([[res tmp]|[[p' s'] r']] & -> & H); simpl.
  - destruct H as (k & -> & Hk & Hw & Hu & H0 & Hle & Hz).
    assert (Hf : first_in (bit addr) (32 * k) (32 * k + 32) (32 * k + __ffs tmp)).
    { apply selects_found; [lia|lia|by apply selects_word|done]. }
    destruct (__ffs_spec tmp Hu H0) as ((Hr & _) & Hr32).
    rewrite uwrap_small by (destruct HT; unfold urange; lia). eexists. split; [done|].
    apply (first_in_extend _ _ (32 * k)); [lia|done|]. destruct Hf as (Hf1 & Hf2 & Hf3).
    split; [lia|]. split; [done|]. intros _. apply Hf3. lia.
  - destruct H as (-> & Hp' & E' & Hs' & Hz). destruct (Z.eqb_spec s' 0) as [->|Hs0].
    { eexists. split; [done|]. split; [lia|]. split; [|lia]. intros i Hi. apply Hz. lia. }
    destruct (bits_in_word addr T p') as (w & Hw & Huw); [done|lia|lia|].
    rewrite Hw; simpl. change BITS_PER_LONG with 32.
    assert (Hsel := selects_high addr p' _ w s' ltac:(lia) (selects_word _ _ _ Hw Huw)).
    rewrite E' in Hsel.
    destruct (Z.eqb_spec (Z.land w (Z.shiftr ULONG_MAX (32 - s'))) 0) as [Ez|Ez].
    + rewrite Ez in Hsel. rewrite E', uwrap_small by (destruct HT; unfold urange; lia).
      eexists. split; [done|]. apply (first_in_extend _ _ (32 * p')); [lia|done|].
      apply (selects_empty _ p'); [lia|lia|done].
    + pose proof (selects_found addr p' (32 * p') T _ ltac:(lia) ltac:(lia) Hsel Ez) as Hf.
      rewrite uwrap_small by (destruct HT, Hf; unfold urange; lia).
      eexists. split; [done|]. by apply (first_in_extend _ _ (32 * p')); [lia|done|].
Qed.

Lemma find_first_bit_spec addr size :
  bits_in addr size → ∃ r, find_first_bit addr size = Some r ∧ first_in (bit addr) 0 size r.
Proof.
  intros HT. apply (scan_finish addr size 0 size HT); destruct HT; lia.
Qed.

Lemma find_next_bit_spec addr size offset :
  bits_in addr size → 0 ≤ offset →
  ∃ r, find_next_bit addr size offset = Some r ∧
    (size ≤ offset → r = size) ∧ (offset ≤ size → first_in (bit addr) offset size r).
Proof.
  intros HT Ho. unfold find_next_bit, BITOP_WORD. change BITS_PER_LONG with 32.
  destruct (Z.leb_spec size offset) as [Hle|Hlt].
  { exists size. split; [done|]. split; [done|]. intros.
    split; [lia|]. split; [intros; lia|lia]. }
  assert (Hu : ulong offset) by (destruct HT; unfold urange; lia).
  change (32 - 1) with (BITS_PER_LONG - 1). rewrite (land_not31 offset Hu).
  pose proof (Z.div_mod offset 32 ltac:(lia)) as Hdm. pose proof (mod32_range offset) as Hm.
  pose proof (Z.div_pos offset 32 ltac:(lia) ltac:(lia)) as Hq.
  set (q := offset / 32) in *. set (m := offset mod 32) in *.
  rewrite (uwrap_small 32 (size - _)) by (destruct HT; unfold urange; lia).
  assert (Hgo : ∀ e, (∃ r, e = Some r ∧ first_in (bit addr) offset size r) →
    ∃ r, e = Some r ∧ (size ≤ offset → r = size) ∧
      (offset ≤ size → first_in (bit addr) offset size r)) by (intros e (r & ? & ?); exists r; split; [done|split; [lia|done]]).
  apply Hgo. clear Hgo.
  destruct (ctrue m) eqn:Em.
  2: { apply ctrue_false in Em. replace offset with (32 * q) by lia.
       apply (scan_finish addr size q (size - 32 * q) HT); lia. }
  destruct (bits_in_word addr size q) as (w & Hw & Huw); [done|lia|lia|].
  rewrite Hw; simpl.
  assert (Hsel := selects_low addr q w m ltac:(lia) (selects_word _ _ _ Hw Huw)).
  replace (32 * q + m) with offset in Hsel by lia.
  set (tmp := Z.land w (shl_ul ULONG_MAX m)) in *.
  destruct (Z.ltb_spec (size - 32 * q) 32) as [Hs|Hs].
  - apply (selects_high _ _ _ _ (size - 32 * q)) in Hsel; [|lia].
    replace (32 * q + (size - 32 * q)) with size in * by lia.
    destruct (Z.eqb_spec (Z.land tmp (Z.shiftr ULONG_MAX (32 - (size - 32 * q)))) 0) as [Ez|Ez].
    + rewrite Ez in Hsel. rewrite uwrap_small by (destruct HT; unfold urange; lia).
      eexists. split; [done|]. apply (selects_empty _ q); [lia|lia|done].
    + pose proof (selects_found addr q offset size _ ltac:(lia) ltac:(lia) Hsel Ez) as Hf.
      rewrite uwrap_small by (destruct HT, Hf; unfold urange; lia). eauto.
  - destruct (ctrue tmp) eqn:Et.
    + apply ctrue_true in Et.
      pose proof (selects_found addr q offset _ _ ltac:(lia) ltac:(lia) Hsel Et) as (F1 & F2 & F3).
      destruct Hsel as [Hut _]. destruct (__ffs_spec tmp Hut Et) as (_ & Hr32).
      rewrite uwrap_small by (destruct HT; unfold urange; lia).
      eexists. split; [done|]. split; [lia|]. split; [done|]. intros _. apply F3. lia.
    + apply ctrue_false in Et. rewrite Et in Hsel.
      apply (selects_empty _ q) in Hsel as (_ & F2 & _); [|lia|lia].
      rewrite !uwrap_small by (destruct HT; unfold urange; lia).
      replace (32 * q + 32) with (32 * (q + 1)) in * by lia.
      destruct (scan_finish addr size (q + 1) (size - 32 * q - 32) HT) as (r & Hr & Hf); [lia|lia|lia|].
      exists r. split; [exact Hr|]. apply (first_in_extend _ _ (32 * (q + 1))); [lia|done|done].
Qed.

(** ** Searching for a clear bit is searching the complement *)

Lemma lnot_ul_invol w : ulong w → lnot_ul (lnot_ul w) = w.
Proof.
  intros Hu. apply (word_eq_bits 32); [auto with word|done|]. intros i Hi.
  rewrite !testbit_unot by lia. destruct (Z.ltb_spec i 32); [|lia]. by rewrite !andb_true_l, negb_involutive.
Qed.

Lemma arr_get_fmap {A B} (f : A → B) (l : list A) i : (f <$> l).[i] = f <$> l.[i].
Proof. unfold arr_get. destruct (0 <=? i); [apply list_lookup_fmap|done]. Qed.

Lemma lnot_lor w m : lnot_ul (Z.lor w m) = Z.land (lnot_ul w) (lnot_ul m).
Proof.
  apply Z.bits_inj'. intros i Hi. rewrite Z.land_spec, !testbit_unot, Z.lor_spec by lia.
  destruct (i <? 32); simpl; [by rewrite negb_orb|done].
Qed.

Lemma lnot_himask n : 0 ≤ n ≤ 32 → lnot_ul (shl_ul ULONG_MAX n) = Z.shiftr ULONG_MAX (32 - n).
Proof.
  intros Hn. apply Z.bits_inj'. intros i Hi.
  rewrite testbit_unot, testbit_himask, testbit_lomask by lia.
  destruct (Z.ltb_spec i 32), (Z.leb_spec n i), (Z.ltb_spec i n); simpl; done || lia.
Qed.

Lemma lnot_lomask n : 0 ≤ n ≤ 32 → lnot_ul (Z.shiftr ULONG_MAX (32 - n)) = shl_ul ULONG_MAX n.
Proof.
  intros Hn. rewrite <- lnot_himask by done. apply lnot_ul_invol. auto with word.
Qed.

Lemma eqb_ULONG_MAX w : ulong w → (w =? ULONG_MAX) = (lnot_ul w =? 0).
Proof.
  intros Hw. apply eq_true_iff_eq. rewrite !Z.eqb_eq. symmetry.
  by apply unot_zero_iff; [lia|].
Qed.

Lemma scan_words_compl addr p size result :
  words addr →
  scan_words lnot_ul addr p size result =
  (o ← scan_words (λ t, t) (lnot_ul <$> addr) p size result;
   Some match o with inl (r, t) => inl (r, lnot_ul t) | inr x => inr x end).
Proof.
  intros Hw. unfold scan_words.
  generalize (Z.to_nat (size / BITS_PER_LONG) + 1)%nat as fuel. intros fuel.
  revert p size result. induction fuel as [|f IH]; intros p size result; [done|].
  cbn [loop]. destruct (ctrue (Z.land size _)); [|done].
  rewrite arr_get_fmap. destruct (addr.[p]) as [w|] eqn:E; [|done]. simpl.
  assert (ulong w) by by eapply Forall_arr_get.
  destruct (ctrue (lnot_ul w)); simpl; [by rewrite lnot_ul_invol|]. apply IH.
Qed.

Lemma bits_in_compl addr size : bits_in addr size → bits_in (lnot_ul <$> addr) size.
Proof.
  intros (Hw & Hs & Hm). split; [|split; [unfold alen in *; rewrite length_fmap; lia|done]].
  apply Forall_fmap, Forall_true. intros w. simpl. auto with word.
Qed.

Lemma bit_compl addr size i :
  bits_in addr size → 0 ≤ i < size → bit (lnot_ul <$> addr) i = negb (bit addr i).
Proof.
  intros HT Hi. destruct (bits_in_word addr size (i / 32)) as (w & Hw & _);
    [done|apply Z.div_pos; lia|pose proof (Z.mul_div_le i 32); lia|].
  rewrite (bit_word addr i w Hw), (bit_word _ i (lnot_ul w)) by (by rewrite arr_get_fmap, Hw).
  pose proof (mod32_range i). rewrite testbit_unot by lia.
  by destruct (Z.ltb_spec (i mod 32) 32); [|lia].
Qed.

(** The last, partial word: [ffz] side against [__ffs] side. *)
Lemma found_first_compl w s res :
  ulong w → 0 ≤ s ≤ 32 →
  (if Z.lor w (shl_ul ULONG_MAX s) =? ULONG_MAX then Some (u32 (res + s))
   else Some (u32 (res + ffz (Z.lor w (shl_ul ULONG_MAX s))))) =
  (if Z.land (lnot_ul w) (Z.shiftr ULONG_MAX (BITS_PER_LONG - s)) =? 0 then Some (u32 (res + s))
   else Some (u32 (res + __ffs (Z.land (lnot_ul w) (Z.shiftr ULONG_MAX (BITS_PER_LONG - s)))))).
Proof.
  intros Hw Hs. rewrite eqb_ULONG_MAX by auto with word.
  unfold ffz. by rewrite lnot_lor, lnot_himask.
Qed.

Lemma aligned_compl addr T p size :
  bits_in addr T → 0 ≤ p → 0 ≤ size → 32 * p + size = T →
  (o ← scan_words lnot_ul addr p size (32 * p);
   match o with
   | inl (result, tmp) => Some (u32 (result + ffz tmp))
   | inr (p, size, result) =>
       if size =? 0 then Some result else
       w ← addr.[p];
       let tmp := Z.lor w (shl_ul ULONG_MAX size) in
       if tmp =? ULONG_MAX then Some (u32 (result + size)) else Some (u32 (result + ffz tmp))
   end) =
  (o ← scan_words (λ t, t) (lnot_ul <$> addr) p size (32 * p);
   match o with
   | inl (result, tmp) => Some (u32 (result + __ffs tmp))
   | inr (p, size, result) =>
       if size =? 0 then Some result else
       w ← (lnot_ul <$> addr).[p];
       let tmp := Z.land w (Z.shiftr ULONG_MAX (BITS_PER_LONG - size)) in
       if tmp =? 0 then Some (u32 (result + size)) else Some (u32 (result + __ffs tmp))
   end).
Proof.
  intros HT Hp Hs E. rewrite scan_words_compl by (by destruct HT).
  destruct (scan_words_spec _ T p size (bits_in_compl _ _ HT) Hp Hs E)
    as ([[res tmp]|[[p' s'] r']] & -> & H); simpl.
  - destruct H as (k & _ & _ & _ & Hu & _). unfold ffz. by rewrite lnot_ul_invol.
  - destruct H as (-> & Hp' & E' & Hs' & _). destruct (s' =? 0) eqn:Es; [done|].
    apply Z.eqb_neq in Es. rewrite arr_get_fmap.
    destruct (bits_in_word addr T p') as (w & Hw & Huw); [done|lia|lia|].
    rewrite Hw; simpl. apply found_first_compl; [done|lia].
Qed.

Lemma find_next_zero_bit_compl addr size offset :
  bits_in addr size → 0 ≤ offset →
  find_next_zero_bit addr size offset = find_next_bit (lnot_ul <$> addr) size offset.
Proof.
  intros HT Ho. unfold find_next_zero_bit, find_next_bit, BITOP_WORD. change BITS_PER_LONG with 32.
  destruct (Z.leb_spec size offset) as [Hle|Hlt]; [done|].
  assert (Hu : ulong offset) by (destruct HT; unfold urange; lia).
  change (32 - 1) with (BITS_PER_LONG - 1). rewrite (land_not31 offset Hu).
  pose proof (Z.div_mod offset 32 ltac:(lia)) as Hdm. pose proof (mod32_range offset) as Hm.
  pose proof (Z.div_pos offset 32 ltac:(lia) ltac:(lia)) as Hq.
  set (q := offset / 32) in *. set (m := offset mod 32) in *.
  rewrite (uwrap_small 32 (size - _)) by (destruct HT; unfold urange; lia).
  destruct (ctrue m); [|apply (aligned_compl _ size); done || lia].
  rewrite arr_get_fmap. destruct (bits_in_word addr size q) as (w & Hw & Huw); [done|lia|lia|].
  rewrite Hw; simpl.
  assert (Et : lnot_ul (Z.lor w (Z.shiftr ULONG_MAX (32 - m)))
               = Z.land (lnot_ul w) (shl_ul ULONG_MAX m)) by (rewrite lnot_lor, lnot_lomask; done || lia).
  rewrite <- Et. assert (Hu' : ulong (Z.lor w (Z.shiftr ULONG_MAX (32 - m)))) by auto with word.
  set (tmp := Z.lor w (Z.shiftr ULONG_MAX (32 - m))) in *.
  destruct (Z.ltb_spec (size - 32 * q) 32); [apply found_first_compl; done || lia|].
  destruct (ctrue (lnot_ul tmp)); [done|].
  rewrite !uwrap_small by (destruct HT; unfold urange; lia).
  replace (32 * q + 32) with (32 * (q + 1)) by lia.
  apply (aligned_compl _ size); done || lia.
Qed.

Lemma find_next_zero_bit_spec addr size offset :
  bits_in addr size → 0 ≤ offset →
  ∃ r, find_next_zero_bit addr size offset = Some r ∧
    (size ≤ offset → r = size) ∧
    (offset ≤ size → first_in (λ i, negb (bit addr i)) offset size r).
Proof.
  intros HT Ho. rewrite find_next_zero_bit_compl by done.
  destruct (find_next_bit_spec _ size offset (bits_in_compl _ _ HT) Ho) as (r & Hr & H1 & H2).
  exists r. split; [done|]. split; [done|]. intros Hle.
  eapply first_in_ext; [|by apply H2]. intros i Hi. apply (bit_compl _ size); [done|lia].
Qed.

Lemma find_first_zero_bit_spec addr size :
  bits_in addr size →
  ∃ r, find_first_zero_bit addr size = Some r ∧ first_in (λ i, negb (bit addr i)) 0 size r.
Proof.
  intros HT. assert (E : find_first_zero_bit addr size = find_first_bit (lnot_ul <$> addr) size).
  { apply (aligned_compl addr size 0 size); try done; destruct HT; lia. }
  destruct (find_first_bit_spec _ size (bits_in_compl _ _ HT)) as (r & Hr & Hf).
  exists r. split; [congruence|]. eapply first_in_ext; [|done].
  intros i Hi. apply (bit_compl _ size); [done|lia].
Qed.

(** ** [find_last_bit] *)

Lemma selects_last addr k hi hi' tmp :
  0 ≤ k → hi ≤ hi' → selects addr k (32 * k) hi tmp → tmp ≠ 0 →
  (∀ i, hi ≤ i < hi' → bit addr i = false) → hi ≤ 32 * k + 32 →
  last_in (bit addr) hi' (32 * k + __fls tmp).
Proof.
  intros Hk Hh [Hu Hs] H0 Hz Hhi. destruct (__fls_spec tmp Hu H0) as (Hr & Ht & Hj).
  rewrite Hs in Ht by lia. rewrite !andb_true_iff in Ht. destruct Ht as [[Hb _] Hh'].
  left. split; [lia|]. split; [done|]. intros i Hi.
  destruct (decide (hi ≤ i)); [apply Hz; lia|].
  specialize (Hj (i - 32 * k) ltac:(lia)). rewrite Hs in Hj by lia.
  replace (32 * k + (i - 32 * k)) with i in Hj by lia.
  destruct (Z.leb_spec (32 * k) i), (Z.ltb_spec i hi); try lia.
  by rewrite !andb_true_r in Hj.
Qed.

Lemma find_last_bit_spec addr size :
  bits_in addr size → ∃ r, find_last_bit addr size = Some r ∧ last_in (bit addr) size r.
Proof.
  intros HT. assert (Hsz : 0 ≤ size < 2 ^ 32) by (destruct HT; lia).
  unfold find_last_bit. change BITS_PER_LONG with 32. change (32 - 1) with (Z.ones 5).
  rewrite Z.land_ones by lia. change (2 ^ 5) with 32.
  pose proof (Z.div_mod size 32 ltac:(lia)) as Hdm. pose proof (mod32_range size) as Hm.
  pose proof (Z.div_pos size 32 ltac:(lia) ltac:(lia)) as Hq.
  set (q := size / 32) in *. set (m := size mod 32) in *.
  assert (Hscan : (∀ i, 32 * q ≤ i < size → bit addr i = false) →
    ∃ r, loop (Z.to_nat q + 1) (λ words,
        if ctrue words then
          tmp ← addr.[words - 1];
          if ctrue tmp then r ← Some (u32 ((words - 1) * 32 + __fls tmp)); Some (inr r)
          else Some (inl (words - 1))
        else Some (inr size)) q = Some r ∧ last_in (bit addr) size r).
  { intros Hz. apply (loop_rule (λ k, 0 ≤ k ≤ q ∧ ∀ i, 32 * k ≤ i < size → bit addr i = false) Z.to_nat);
      [|split; [lia|done]|lia].
    intros k [Hk Hz']. destruct (ctrue k) eqn:Ek.
    - apply ctrue_true in Ek. destruct (bits_in_word addr size (k - 1)) as (w & Hw & Hu); [done|lia|lia|].
      rewrite Hw; simpl. pose proof (selects_word _ _ _ Hw Hu) as Hsel.
      destruct (ctrue w) eqn:Ew.
      + apply ctrue_true in Ew. destruct (__fls_spec w Hu Ew) as (Hr & _).
        rewrite uwrap_small by (unfold urange; lia). eexists. split; [done|].
        rewrite Z.mul_comm. apply (selects_last _ _ (32 * (k - 1) + 32)); try done; try lia.
        intros i Hi. apply Hz'. lia.
      + apply ctrue_false in Ew. subst w. eexists. split; [done|]. simpl. split; [|lia].
        split; [lia|]. intros i Hi. destruct (decide (32 * k ≤ i)); [apply Hz'; lia|].
        rewrite (bit_in_word addr (k - 1) 0) by (done || lia). apply Z.bits_0.
    - apply ctrue_false in Ek. subst k. eexists. split; [done|]. right. split; [done|].
      intros i Hi. apply Hz'. lia. }
  destruct (ctrue m) eqn:Em; [|apply Hscan; apply ctrue_false in Em; intros; lia].
  destruct (bits_in_word addr size q) as (w & Hw & Hu); [done|lia|apply ctrue_true in Em; lia|].
  rewrite Hw; simpl.
  assert (Hsel := selects_high addr q _ w m ltac:(lia) (selects_word _ _ _ Hw Hu)).
  replace (32 * q + m) with size in Hsel by lia.
  destruct (ctrue (Z.land w (Z.shiftr ULONG_MAX (32 - m)))) eqn:Et.
  - apply ctrue_true in Et. pose proof Hsel as [Hut _].
    destruct (__fls_spec _ Hut Et) as (Hr & _).
    assert (Hl : last_in (bit addr) size (32 * q + __fls (Z.land w (Z.shiftr ULONG_MAX (32 - m))))).
    { apply (selects_last _ _ size); try done; try lia. }
    rewrite Z.mul_comm, uwrap_small.
    + eauto.
    + destruct Hl as [Hl|Hl]; unfold urange; lia.
  - apply Hscan. apply ctrue_false in Et. rewrite Et in Hsel.
    apply (selects_empty _ q) in Hsel as (_ & Hz & _); [done|lia|lia].
Qed.
