(* ===== verification/Bitmap.v ===== *)
(** * Bitmaps of arbitrary length

    Models [lib/bitmap.c]: the logical operations, the shifts, the weight, the
    range operations, the area search, the ordinal maps
    ([bitmap_remap]/[_onto]/[_fold]) and the power-of-two region allocator.
    An output buffer is passed and returned; an input operand is [None] when the
    caller passes the output buffer itself (the kernel calls most of these
    operations in place), so the models read the buffer as it is being written.
    Each theorem describes the result bit by bit through [bit]. *)
From S2P Require Import Prelude Bitops FindBit.
#[local] Open Scope Z_scope.
#[local] Open Scope kernel_scope.

(** ** Operations *)

Definition ENOMEM : Z := 12.
Definition EBUSY : Z := 16.

(** An input buffer: [Some] array, or [None] for the output buffer. *)
Definition operand (dst : list Z) (src : option (list Z)) : list Z := default dst src.

Definition BITMAP_LAST_WORD_MASK (nbits : Z) : Z :=
  if ctrue (nbits mod BITS_PER_LONG)
  then Z.shiftl 1 (nbits mod BITS_PER_LONG) - 1 else ULONG_MAX.

(** The scan shared by the predicates: whole words under [test], then the
    partial last word, whose value is [last], under the mask. *)
Definition scan_bits (bits : Z) (test : Z → option bool) (last : Z → option Z)
  (hit miss : Z) : option Z :=
  let lim := bits / BITS_PER_LONG in
  o ← scan_up 0 lim (λ k, b ← test k; Some (if b : bool then Some hit else None));
  match o with
  | Some r => Some r
  | None =>
      if ctrue (bits mod BITS_PER_LONG) then
        w ← last lim;
        Some (if ctrue (Z.land w (BITMAP_LAST_WORD_MASK bits)) then hit else miss)
      else Some miss
  end.

Definition __bitmap_empty (bitmap : list Z) (bits : Z) : option Z :=
  scan_bits bits (λ k, w ← bitmap.[k]; Some (ctrue w)) (λ k, bitmap.[k]) 0 1.

Definition __bitmap_full (bitmap : list Z) (bits : Z) : option Z :=
  scan_bits bits (λ k, w ← bitmap.[k]; Some (ctrue (lnot_ul w)))
    (λ k, w ← bitmap.[k]; Some (lnot_ul w)) 0 1.

Definition __bitmap_equal (bitmap1 bitmap2 : list Z) (bits : Z) : option Z :=
  scan_bits bits
    (λ k, v ← bitmap1.[k]; w ← bitmap2.[k]; Some (negb (v =? w)))
    (λ k, v ← bitmap1.[k]; w ← bitmap2.[k]; Some (Z.lxor v w)) 0 1.

Definition __bitmap_intersects (bitmap1 bitmap2 : list Z) (bits : Z) : option Z :=
  scan_bits bits
    (λ k, v ← bitmap1.[k]; w ← bitmap2.[k]; Some (ctrue (Z.land v w)))
    (λ k, v ← bitmap1.[k]; w ← bitmap2.[k]; Some (Z.land v w)) 1 0.

Definition __bitmap_subset (bitmap1 bitmap2 : list Z) (bits : Z) : option Z :=
  scan_bits bits
    (λ k, v ← bitmap1.[k]; w ← bitmap2.[k]; Some (ctrue (Z.land v (lnot_ul w))))
    (λ k, v ← bitmap1.[k]; w ← bitmap2.[k]; Some (Z.land v (lnot_ul w))) 0 1.

Definition __bitmap_complement (dst : list Z) (src : option (list Z)) (bits : Z)
  : option (list Z) :=
  let lim := bits / BITS_PER_LONG in
  dst ← for_up 0 lim (λ k dst,
    w ← (operand dst src).[k]; dst.[k <- lnot_ul w]) dst;
  if ctrue (bits mod BITS_PER_LONG) then
    w ← (operand dst src).[lim];
    dst.[lim <- Z.land (lnot_ul w) (BITMAP_LAST_WORD_MASK bits)]
  else Some dst.

Definition __bitmap_and (dst : list Z) (bitmap1 bitmap2 : option (list Z)) (bits : Z)
  : option (list Z * bool) :=
  '(dst, result) ← for_up 0 (BITS_TO_LONGS bits) (λ k '(dst, result),
    v ← (operand dst bitmap1).[k]; w ← (operand dst bitmap2).[k];
    dst' ← dst.[k <- Z.land v w]; Some (dst', Z.lor result (Z.land v w))) (dst, 0);
  Some (dst, ctrue result).

Definition __bitmap_or (dst : list Z) (bitmap1 bitmap2 : option (list Z)) (bits : Z)
  : option (list Z) :=
  for_up 0 (BITS_TO_LONGS bits) (λ k dst,
    v ← (operand dst bitmap1).[k]; w ← (operand dst bitmap2).[k];
    dst.[k <- Z.lor v w]) dst.

Definition __bitmap_xor (dst : list Z) (bitmap1 bitmap2 : option (list Z)) (bits : Z)
  : option (list Z) :=
  for_up 0 (BITS_TO_LONGS bits) (λ k dst,
    v ← (operand dst bitmap1).[k]; w ← (operand dst bitmap2).[k];
    dst.[k <- Z.lxor v w]) dst.

Definition __bitmap_andnot (dst : list Z) (bitmap1 bitmap2 : option (list Z)) (bits : Z)
  : option (list Z * bool) :=
  '(dst, result) ← for_up 0 (BITS_TO_LONGS bits) (λ k '(dst, result),
    v ← (operand dst bitmap1).[k]; w ← (operand dst bitmap2).[k];
    dst' ← dst.[k <- Z.land v (lnot_ul w)];
    Some (dst', Z.lor result (Z.land v (lnot_ul w)))) (dst, 0);
  Some (dst, ctrue result).

(** [memset(&dst[from], 0, n * sizeof(unsigned long))] *)
Definition zero_words (dst : list Z) (from n : Z) : option (list Z) :=
  for_up 0 n (λ k dst, dst.[from + k <- 0]) dst.

Definition __bitmap_shift_right (dst : list Z) (src : option (list Z)) (shift bits : Z)
  : option (list Z) :=
  let lim := BITS_TO_LONGS bits in
  let left := bits mod BITS_PER_LONG in
  let off := shift / BITS_PER_LONG in
  let rem := shift mod BITS_PER_LONG in
  let mask := Z.shiftl 1 left - 1 in
  dst ← for_up 0 (lim - off) (λ k dst,
    upper ←
      (if (rem =? 0) || (lim <=? off + k + 1) then Some 0 else
       upper ← (operand dst src).[off + k + 1];
       Some (if (off + k + 1 =? lim - 1) && ctrue left then Z.land upper mask else upper));
    lower ← (operand dst src).[off + k];
    let lower := if ctrue left && (off + k =? lim - 1) then Z.land lower mask else lower in
    let w := Z.lor (shl_ul upper (BITS_PER_LONG - rem)) (Z.shiftr lower rem) in
    let w := if ctrue left && (k =? lim - 1) then Z.land w mask else w in
    dst.[k <- w]) dst;
  if ctrue off then zero_words dst (lim - off) off else Some dst.

Definition __bitmap_shift_left (dst : list Z) (src : option (list Z)) (shift bits : Z)
  : option (list Z) :=
  let lim := BITS_TO_LONGS bits in
  let left := bits mod BITS_PER_LONG in
  let off := shift / BITS_PER_LONG in
  let rem := shift mod BITS_PER_LONG in
  dst ← for_down (lim - off - 1) 0 (λ k dst,
    lower ← (if ctrue rem && (0 <? k) then (operand dst src).[k - 1] else Some 0);
    upper ← (operand dst src).[k];
    let upper := if ctrue left && (k =? lim - 1)
                 then Z.land upper (Z.shiftl 1 left - 1) else upper in
    let w := Z.lor (Z.shiftr lower (BITS_PER_LONG - rem)) (shl_ul upper rem) in
    let w := if ctrue left && (k + off =? lim - 1)
             then Z.land w (Z.shiftl 1 left - 1) else w in
    dst.[k + off <- w]) dst;
  if ctrue off then zero_words dst 0 off else Some dst.

Definition __bitmap_weight (bitmap : list Z) (bits : Z) : option Z :=
  let lim := bits / BITS_PER_LONG in
  w ← for_up 0 lim (λ k w, x ← bitmap.[k]; Some (w + hweight_long x)) 0;
  if ctrue (bits mod BITS_PER_LONG) then
    x ← bitmap.[lim];
    Some (w + hweight_long (Z.land x (BITMAP_LAST_WORD_MASK bits)))
  else Some w.

Definition BITMAP_FIRST_WORD_MASK (start : Z) : Z :=
  shl_ul ULONG_MAX (start mod BITS_PER_LONG).

(** The loop shared by [bitmap_set] and [bitmap_clear]; [upd] is the update of
    a word under a mask ([*p |= mask] or [*p &= ~mask]). *)
Definition bitmap_range (upd : Z → Z → Z) (map : list Z) (start nr : Z) : option (list Z) :=
  let size := start + nr in
  '(map, p, nr, mask) ← loop (Z.to_nat nr + 2)
    (λ '(map, p, nr, bits_to, mask),
      if 0 <=? nr - bits_to then
        w ← map.[p]; map' ← map.[p <- upd w mask];
        Some (inl (map', p + 1, nr - bits_to, BITS_PER_LONG, ULONG_MAX))
      else Some (inr (map, p, nr, mask)))
    (map, BIT_WORD start, nr, BITS_PER_LONG - start mod BITS_PER_LONG,
     BITMAP_FIRST_WORD_MASK start);
  if ctrue nr then
    w ← map.[p]; map.[p <- upd w (Z.land mask (BITMAP_LAST_WORD_MASK size))]
  else Some map.

Definition bitmap_set (map : list Z) (start nr : Z) : option (list Z) :=
  bitmap_range (λ w mask, Z.lor w mask) map start nr.

Definition bitmap_clear (map : list Z) (start nr : Z) : option (list Z) :=
  bitmap_range (λ w mask, Z.land w (lnot_ul mask)) map start nr.

(** [__ALIGN_MASK(x, mask)] *)
Definition ALIGN_MASK (x mask : Z) : Z := Z.land (u32 (x + mask)) (lnot_ul mask).

Definition bitmap_find_next_zero_area (map : list Z) (size start nr align_mask : Z) : option Z :=
  loop (Z.to_nat size + 2)
    (λ start,
      index ← find_next_zero_bit map size start;
      let index := ALIGN_MASK index align_mask in
      let end_ := u32 (index + nr) in
      if size <? end_ then Some (inr end_) else
      i ← find_next_bit map end_ index;
      if i <? end_ then Some (inl (u32 (i + 1))) else Some (inr index))
    start.

(** [for_each_set_bit(bit, addr, size) body] *)
Definition for_each_set_bit {S} (addr : list Z) (size : Z) (body : Z → S → option S) (s : S)
  : option S :=
  b0 ← find_first_bit addr size;
  loop (Z.to_nat size + 1)
    (λ '(b, s),
      if b <? size then
        s' ← body b s; b' ← find_next_bit addr size (b + 1); Some (inl (b', s'))
      else Some (inr s)) (b0, s).

Definition bitmap_zero (dst : list Z) (nbits : Z) : option (list Z) :=
  zero_words dst 0 (BITS_TO_LONGS nbits).

(** [BUG_ON(i != pos)] is a [None]. *)
Definition bitmap_pos_to_ord (buf : list Z) (pos bits : Z) : option Z :=
  if (pos <? 0) || (bits <=? pos) then Some (-1) else
  t ← test_bit pos buf;
  if negb t then Some (-1) else
  i ← find_first_bit buf bits;
  '(i, ord) ← loop (Z.to_nat bits + 1)
    (λ '(i, ord),
      if i <? pos then i' ← find_next_bit buf bits (i + 1); Some (inl (i', ord + 1))
      else Some (inr (i, ord))) (i, 0);
  if negb (i =? pos) then None else Some ord.

Definition bitmap_ord_to_pos (buf : list Z) (ord bits : Z) : option Z :=
  if (0 <=? ord) && (ord <? bits) then
    i ← find_first_bit buf bits;
    '(i, ord) ← loop (Z.to_nat bits + 1)
      (λ '(i, ord),
        if (i <? bits) && (0 <? ord) then
          i' ← find_next_bit buf bits (i + 1); Some (inl (i', ord - 1))
        else Some (inr (i, ord))) (i, ord);
    Some (if (i <? bits) && (ord =? 0) then i else 0)
  else Some 0.

(** [src = None] is the call with [dst == src], which returns at once. *)
Definition bitmap_remap (dst : list Z) (src : option (list Z)) (old new : list Z) (bits : Z)
  : option (list Z) :=
  match src with None => Some dst | Some src =>
  dst ← bitmap_zero dst bits;
  w ← __bitmap_weight new bits;
  for_each_set_bit src bits (λ oldbit dst,
    n ← bitmap_pos_to_ord old oldbit bits;
    if (n <? 0) || (w =? 0) then __set_bit oldbit dst
    else pos ← bitmap_ord_to_pos new (n mod w) bits; __set_bit pos dst) dst
  end.

Definition bitmap_bitremap (oldbit : Z) (old new : list Z) (bits : Z) : option Z :=
  w ← __bitmap_weight new bits;
  n ← bitmap_pos_to_ord old oldbit bits;
  if (n <? 0) || (w =? 0) then Some oldbit else bitmap_ord_to_pos new (n mod w) bits.

Definition bitmap_onto (dst : list Z) (orig : option (list Z)) (relmap : list Z) (bits : Z)
  : option (list Z) :=
  match orig with None => Some dst | Some orig =>
  dst ← bitmap_zero dst bits;
  '(dst, m) ← for_each_set_bit relmap bits (λ n '(dst, m),
    t ← test_bit m orig;
    dst ← (if (t : bool) then __set_bit n dst else Some dst);
    Some (dst, m + 1)) (dst, 0);
  Some dst
  end.

Definition bitmap_fold (dst : list Z) (orig : option (list Z)) (sz bits : Z)
  : option (list Z) :=
  match orig with None => Some dst | Some orig =>
  dst ← bitmap_zero dst bits;
  for_each_set_bit orig bits (λ oldbit dst, __set_bit (oldbit mod sz) dst) dst
  end.

Inductive reg_op := REG_OP_ISFREE | REG_OP_ALLOC | REG_OP_RELEASE.

Definition __reg_op (bitmap : list Z) (pos order : Z) (op : reg_op) : option (list Z * Z) :=
  let nbits_reg := Z.shiftl 1 order in
  let index := pos / BITS_PER_LONG in
  let offset := pos - index * BITS_PER_LONG in
  let nlongs_reg := BITS_TO_LONGS nbits_reg in
  let nbitsinlong := Z.min nbits_reg BITS_PER_LONG in
  let mask := Z.shiftl 1 (nbitsinlong - 1) in
  let mask := u32 (mask + (mask - 1)) in
  let mask := shl_ul mask offset in
  match op with
  | REG_OP_ISFREE =>
      o ← scan_up 0 nlongs_reg (λ i,
        w ← bitmap.[index + i]; Some (if ctrue (Z.land w mask) then Some 0 else None));
      Some (bitmap, default 1 o)
  | REG_OP_ALLOC =>
      bitmap' ← for_up 0 nlongs_reg (λ i bitmap,
        w ← bitmap.[index + i]; bitmap.[index + i <- Z.lor w mask]) bitmap;
      Some (bitmap', 0)
  | REG_OP_RELEASE =>
      bitmap' ← for_up 0 nlongs_reg (λ i bitmap,
        w ← bitmap.[index + i]; bitmap.[index + i <- Z.land w (lnot_ul mask)]) bitmap;
      Some (bitmap', 0)
  end.

Definition bitmap_find_free_region (bitmap : list Z) (bits order : Z) : option (list Z * Z) :=
  loop (Z.to_nat bits + 2)
    (λ pos,
      let end_ := s32 (pos + s32 (Z.shiftl 1 order)) in
      if end_ <=? bits then
        '(_, free) ← __reg_op bitmap pos order REG_OP_ISFREE;
        if negb (ctrue free) then Some (inl end_) else
        '(bitmap', _) ← __reg_op bitmap pos order REG_OP_ALLOC;
        Some (inr (bitmap', pos))
      else Some (inr (bitmap, - ENOMEM))) 0.

Definition bitmap_release_region (bitmap : list Z) (pos order : Z) : option (list Z) :=
  '(bitmap', _) ← __reg_op bitmap pos order REG_OP_RELEASE; Some bitmap'.

Definition bitmap_allocate_region (bitmap : list Z) (pos order : Z) : option (list Z * Z) :=
  '(_, free) ← __reg_op bitmap pos order REG_OP_ISFREE;
  if negb (ctrue free) then Some (bitmap, - EBUSY) else
  '(bitmap', _) ← __reg_op bitmap pos order REG_OP_ALLOC; Some (bitmap', 0).

(** [cpu_to_le32] is the identity on the little-endian target. *)
Definition bitmap_copy_le (dst : list Z) (src : list Z) (nbits : Z) : option (list Z) :=
  for_up 0 (nbits / BITS_PER_LONG) (λ i d, w ← src.[i]; d.[i <- w]) dst.
