(* ===== verification/BitmapFacts.v ===== *)
(** * Correctness of the bitmap operations

    Bit-level specifications of the operations of [Bitmap] ([lib/bitmap.c]). *)
From S2P Require Import Prelude Bitops FindBit Bitmap.
#[local] Open Scope Z_scope.
#[local] Open Scope kernel_scope.

Implicit Types (dst map orig : list Z).

(** ** Shared facts *)

Lemma LAST_WORD_MASK_testbit bits j :
  0 ≤ j → Z.testbit (BITMAP_LAST_WORD_MASK bits) j =
    if bits mod 32 =? 0 then j <? 32 else j <? bits mod 32.
Proof.
  intros Hj. unfold BITMAP_LAST_WORD_MASK, ctrue. change BITS_PER_LONG with 32.
  pose proof (mod32_range bits). destruct (Z.eqb_spec (bits mod 32) 0); simpl.
  - by apply testbit_ULONG_MAX.
  - rewrite Z.shiftl_1_l. replace (2 ^ (bits mod 32) - 1) with (Z.ones (bits mod 32))
      by (rewrite Z.ones_equiv; lia).
    destruct (Z.ltb_spec j (bits mod 32)); [apply Z.ones_spec_low|apply Z.ones_spec_high]; lia.
Qed.

Lemma ulong_LAST_WORD_MASK bits : ulong (BITMAP_LAST_WORD_MASK bits).
Proof.
  pose proof (mod32_range bits). apply urange_of_bits; [lia| |].
  - unfold BITMAP_LAST_WORD_MASK. change BITS_PER_LONG with 32. destruct (ctrue _).
    + rewrite Z.shiftl_1_l. lia.
    + destruct ulong_MAX; lia.
  - intros i Hi. rewrite LAST_WORD_MASK_testbit by lia.
    destruct (_ =? 0); apply Z.ltb_ge; lia.
Qed.
#[export] Hint Resolve ulong_LAST_WORD_MASK : word.

Lemma BITS_TO_LONGS_bounds bits :
  0 ≤ bits → bits ≤ 32 * BITS_TO_LONGS bits < bits + 32.
Proof.
  intros Hb. unfold BITS_TO_LONGS. change BITS_PER_LONG with 32.
  pose proof (Z.div_mod (bits + 32 - 1) 32 ltac:(lia)). pose proof (mod32_range (bits + 32 - 1)). lia.
Qed.

Lemma BITS_TO_LONGS_le bits n : bits ≤ 32 * n → BITS_TO_LONGS bits ≤ n.
Proof.
  intros H. unfold BITS_TO_LONGS. change BITS_PER_LONG with 32.
  apply Z.lt_succ_r, Z.div_lt_upper_bound; lia.
Qed.

Lemma in_word i k : 0 ≤ i → 32 * k ≤ i < 32 * k + 32 ↔ i / 32 = k.
Proof.
  intros Hi. pose proof (Z.div_mod i 32 ltac:(lia)). pose proof (mod32_range i). lia.
Qed.

(** The words of [dst'] below [n] have been replaced by [val]. *)
Lemma bit_filled dst dst' n val i :
  (∀ j, 0 ≤ j → dst'.[j] = if j <? n then Some (val j) else dst.[j]) → 0 ≤ i →
  bit dst' i = if i <? 32 * n then Z.testbit (val (i / 32)) (i mod 32) else bit dst i.
Proof.
  intros H Hi. unfold bit. change BITS_PER_LONG with 32. pose proof (Z.div_pos i 32 ltac:(lia) ltac:(lia)).
  rewrite H by lia. pose proof (Z.div_mod i 32 ltac:(lia)). pose proof (mod32_range i).
  destruct (Z.ltb_spec (i / 32) n), (Z.ltb_spec i (32 * n)); done || lia.
Qed.

(** ** Predicates *)

Lemma scan_bits_spec bits test last hit miss (P : Z → bool) :
  0 ≤ bits →
  (∀ k, 0 ≤ k → 32 * k < bits → ∃ w, ulong w ∧ last k = Some w ∧ test k = Some (ctrue w) ∧
     ∀ j, 0 ≤ j < 32 → Z.testbit w j = P (32 * k + j)) →
  (scan_bits bits test last hit miss = Some hit ∧ ∃ i, 0 ≤ i < bits ∧ P i = true) ∨
  (scan_bits bits test last hit miss = Some miss ∧ ∀ i, 0 ≤ i < bits → P i = false).
Proof.
  intros Hb Hw. unfold scan_bits. change BITS_PER_LONG with 32.
  pose proof (Z.div_mod bits 32 ltac:(lia)) as Hdm. pose proof (mod32_range bits) as Hm.
  pose proof (Z.div_pos bits 32 ltac:(lia) ltac:(lia)) as Hq.
  set (q := bits / 32) in *. set (m := bits mod 32) in *.
  destruct (scan_up_rule 0 q (λ k, b ← test k; Some (if b : bool then Some hit else None)))
    as [(r & i & -> & Hi & Hbi & _)|(-> & Hall)].
  { intros i Hi. destruct (Hw i) as (w & _ & _ & -> & _); [lia|lia|]. by eexists. }
  - destruct (Hw i) as (w & Hu & _ & Ht & Hj); [lia|lia|]. rewrite Ht in Hbi. simpl in Hbi.
    destruct (ctrue w) eqn:Ew; simplify_eq. left. split; [done|].
    apply ctrue_true in Ew. destruct (__ffs_spec w Hu Ew) as ((Hr & Hrt & _) & Hr32).
    exists (32 * i + __ffs w). split; [lia|]. rewrite <- Hj by lia. done.
  - assert (Hlow : ∀ i, 0 ≤ i < 32 * q → P i = false).
    { intros i Hi. pose proof (Z.div_mod i 32 ltac:(lia)) as Hi2. pose proof (mod32_range i).
      pose proof (word_index i q Hi). specialize (Hall (i / 32) ltac:(lia)).
      destruct (Hw (i / 32)) as (w & Hu & _ & Ht & Hj); [lia|lia|]. rewrite Ht in Hall. simpl in Hall.
      destruct (ctrue w) eqn:Ew; simplify_eq. apply ctrue_false in Ew. subst w.
      specialize (Hj (i mod 32) ltac:(lia)). rewrite Z.bits_0 in Hj.
      by replace (32 * (i / 32) + i mod 32) with i in Hj by lia. }
    simpl. destruct (ctrue m) eqn:Em; [apply ctrue_true in Em|apply ctrue_false in Em].
    2: { right. split; [done|]. intros i Hi. apply Hlow. lia. }
    destruct (Hw q) as (w & Hu & -> & _ & Hj); [lia|lia|]. simpl.
    assert (Hbit : ∀ j, 0 ≤ j < 32 → Z.testbit (Z.land w (BITMAP_LAST_WORD_MASK bits)) j
                   = P (32 * q + j) && (j <? m)).
    { intros j Hj'. rewrite Z.land_spec, LAST_WORD_MASK_testbit, Hj by lia. fold m.
      by destruct (Z.eqb_spec m 0); [lia|]. }
    destruct (ctrue (Z.land w (BITMAP_LAST_WORD_MASK bits))) eqn:Ew.
    + left. split; [done|]. apply ctrue_true in Ew.
      assert (Hul : ulong (Z.land w (BITMAP_LAST_WORD_MASK bits))) by auto with word.
      destruct (__ffs_spec _ Hul Ew) as ((Hr & Hrt & _) & Hr32).
      rewrite Hbit in Hrt by lia. apply andb_true_iff in Hrt as [Hp Hlt].
      eexists (32 * q + _). split; [|exact Hp]. lia.
    + right. split; [done|]. apply ctrue_false in Ew. intros i Hi.
      destruct (decide (i < 32 * q)); [apply Hlow; lia|].
      specialize (Hbit (i - 32 * q) ltac:(lia)). rewrite Ew, Z.bits_0 in Hbit.
      replace (32 * q + (i - 32 * q)) with i in Hbit by lia.
      destruct (Z.ltb_spec (i - 32 * q) m); [|lia]. by rewrite andb_true_r in Hbit.
Qed.

(** A word expression [f] of one or two bitmaps computes [P] bitwise. *)
Lemma word1 b bits (f : Z → Z) (g : bool → bool) :
  bits_in b bits →
  (∀ w, ulong w → ulong (f w) ∧ ∀ j, 0 ≤ j < 32 → Z.testbit (f w) j = g (Z.testbit w j)) →
  ∀ k, 0 ≤ k → 32 * k < bits → ∃ w, b.[k] = Some w ∧ ulong (f w) ∧
    ∀ j, 0 ≤ j < 32 → Z.testbit (f w) j = g (bit b (32 * k + j)).
Proof.
  intros Hb Hf k Hk Hlt. destruct (bits_in_word b bits k) as (w & Hw & Hu); [done..|].
  destruct (Hf w Hu) as [H1 H2]. exists w. split; [done|]. split; [done|]. intros j Hj.
  rewrite H2, (bit_in_word b k w) by (done || lia). do 2 f_equal. lia.
Qed.

Lemma word2 b1 b2 bits (f : Z → Z → Z) (g : bool → bool → bool) :
  bits_in b1 bits → bits_in b2 bits →
  (∀ v w, ulong v → ulong w → ulong (f v w) ∧
     ∀ j, 0 ≤ j < 32 → Z.testbit (f v w) j = g (Z.testbit v j) (Z.testbit w j)) →
  ∀ k, 0 ≤ k → 32 * k < bits → ∃ v w, b1.[k] = Some v ∧ b2.[k] = Some w ∧ ulong v ∧ ulong w ∧
    ulong (f v w) ∧
    ∀ j, 0 ≤ j < 32 → Z.testbit (f v w) j = g (bit b1 (32 * k + j)) (bit b2 (32 * k + j)).
Proof.
  intros Hb1 Hb2 Hf k Hk Hlt.
  destruct (bits_in_word b1 bits k) as (v & Hv & Huv); [done..|].
  destruct (bits_in_word b2 bits k) as (w & Hw & Huw); [done..|].
  destruct (Hf v w Huv Huw) as [H1 H2]. exists v, w. do 5 (split; [done|]). intros j Hj.
  rewrite H2, (bit_in_word b1 k v), (bit_in_word b2 k w) by (done || lia).
  f_equal; f_equal; lia.
Qed.

Lemma lnot_bitwise w : ulong w → ulong (lnot_ul w) ∧
  ∀ j, 0 ≤ j < 32 → Z.testbit (lnot_ul w) j = negb (Z.testbit w j).
Proof.
  intros _. split; [auto with word|]. intros j Hj. rewrite testbit_unot by lia.
  by destruct (Z.ltb_spec j 32); [|lia].
Qed.

Lemma land_bitwise v w : ulong v → ulong w → ulong (Z.land v w) ∧
  ∀ j, 0 ≤ j < 32 → Z.testbit (Z.land v w) j = Z.testbit v j && Z.testbit w j.
Proof. intros. split; [auto with word|]. intros. apply Z.land_spec. Qed.

Lemma lor_bitwise v w : ulong v → ulong w → ulong (Z.lor v w) ∧
  ∀ j, 0 ≤ j < 32 → Z.testbit (Z.lor v w) j = Z.testbit v j || Z.testbit w j.
Proof. intros. split; [auto with word|]. intros. apply Z.lor_spec. Qed.

Lemma lxor_bitwise v w : ulong v → ulong w → ulong (Z.lxor v w) ∧
  ∀ j, 0 ≤ j < 32 → Z.testbit (Z.lxor v w) j = xorb (Z.testbit v j) (Z.testbit w j).
Proof. intros. split; [auto with word|]. intros. apply Z.lxor_spec. Qed.

Lemma andnot_bitwise v w : ulong v → ulong w → ulong (Z.land v (lnot_ul w)) ∧
  ∀ j, 0 ≤ j < 32 → Z.testbit (Z.land v (lnot_ul w)) j = Z.testbit v j && negb (Z.testbit w j).
Proof.
  intros Hv Hw. split; [auto with word|]. intros j Hj. rewrite Z.land_spec. f_equal.
  by apply lnot_bitwise.
Qed.

Lemma __bitmap_empty_spec b bits :
  bits_in b bits →
  (__bitmap_empty b bits = Some 0 ∧ ∃ i, 0 ≤ i < bits ∧ bit b i = true) ∨
  (__bitmap_empty b bits = Some 1 ∧ ∀ i, 0 ≤ i < bits → bit b i = false).
Proof.
  intros Hb. apply scan_bits_spec; [destruct Hb; lia|]. intros k Hk Hlt.
  destruct (word1 b bits (λ w, w) (λ x, x) Hb) with k as (w & Hw & H); [by intros|done..|].
  exists w. rewrite Hw. naive_solver.
Qed.

Lemma __bitmap_full_spec b bits :
  bits_in b bits →
  (__bitmap_full b bits = Some 0 ∧ ∃ i, 0 ≤ i < bits ∧ negb (bit b i) = true) ∨
  (__bitmap_full b bits = Some 1 ∧ ∀ i, 0 ≤ i < bits → negb (bit b i) = false).
Proof.
  intros Hb. apply (scan_bits_spec _ _ _ _ _ (λ i, negb (bit b i))); [destruct Hb; lia|]. intros k Hk Hlt.
  destruct (word1 b bits lnot_ul negb Hb) with k as (w & Hw & H); [apply lnot_bitwise|done..|].
  exists (lnot_ul w). rewrite Hw. naive_solver.
Qed.

Lemma __bitmap_equal_spec b1 b2 bits :
  bits_in b1 bits → bits_in b2 bits →
  (__bitmap_equal b1 b2 bits = Some 0 ∧ ∃ i, 0 ≤ i < bits ∧ xorb (bit b1 i) (bit b2 i) = true) ∨
  (__bitmap_equal b1 b2 bits = Some 1 ∧ ∀ i, 0 ≤ i < bits → xorb (bit b1 i) (bit b2 i) = false).
Proof.
  intros Hb1 Hb2. apply (scan_bits_spec _ _ _ _ _ (λ i, xorb (bit b1 i) (bit b2 i))); [destruct Hb1; lia|].
  intros k Hk Hlt.
  destruct (word2 b1 b2 bits Z.lxor xorb Hb1 Hb2) with k as (v & w & Hv & Hw & H);
    [apply lxor_bitwise|done..|].
  exists (Z.lxor v w). rewrite Hv, Hw. simpl. split; [tauto|]. split; [done|]. split; [|tauto].
  f_equal. unfold ctrue. f_equal. apply eq_true_iff_eq. by rewrite !Z.eqb_eq, Z.lxor_eq_0_iff.
Qed.

Lemma __bitmap_intersects_spec b1 b2 bits :
  bits_in b1 bits → bits_in b2 bits →
  (__bitmap_intersects b1 b2 bits = Some 1 ∧ ∃ i, 0 ≤ i < bits ∧ bit b1 i && bit b2 i = true) ∨
  (__bitmap_intersects b1 b2 bits = Some 0 ∧ ∀ i, 0 ≤ i < bits → bit b1 i && bit b2 i = false).
Proof.
  intros Hb1 Hb2. apply (scan_bits_spec _ _ _ _ _ (λ i, bit b1 i && bit b2 i)); [destruct Hb1; lia|].
  intros k Hk Hlt.
  destruct (word2 b1 b2 bits Z.land andb Hb1 Hb2) with k as (v & w & Hv & Hw & H);
    [apply land_bitwise|done..|].
  exists (Z.land v w). rewrite Hv, Hw. simpl. naive_solver.
Qed.

Lemma __bitmap_subset_spec b1 b2 bits :
  bits_in b1 bits → bits_in b2 bits →
  (__bitmap_subset b1 b2 bits = Some 0 ∧ ∃ i, 0 ≤ i < bits ∧ bit b1 i && negb (bit b2 i) = true) ∨
  (__bitmap_subset b1 b2 bits = Some 1 ∧ ∀ i, 0 ≤ i < bits → bit b1 i && negb (bit b2 i) = false).
Proof.
  intros Hb1 Hb2. apply (scan_bits_spec _ _ _ _ _ (λ i, bit b1 i && negb (bit b2 i))); [destruct Hb1; lia|].
  intros k Hk Hlt.
  destruct (word2 b1 b2 bits (λ v w, Z.land v (lnot_ul w)) (λ x y, x && negb y) Hb1 Hb2) with k
    as (v & w & Hv & Hw & H); [apply andnot_bitwise|done..|].
  exists (Z.land v (lnot_ul w)). rewrite Hv, Hw. simpl. naive_solver.
Qed.

(** ** Word-by-word writers *)

(** A loop that writes [val k] to word [k], reading only words it has not yet
    written: the shape of the in-place safe operations. *)
Lemma fill_up dst0 n val body :
  0 ≤ n ≤ alen dst0 →
  (∀ k dst, 0 ≤ k < n → alen dst = alen dst0 → (∀ j, k ≤ j → dst.[j] = dst0.[j]) →
     body k dst = dst.[k <- val k]) →
  ∃ dst', for_up 0 n body dst0 = Some dst' ∧ alen dst' = alen dst0 ∧
    ∀ j, 0 ≤ j → dst'.[j] = if j <? n then Some (val j) else dst0.[j].
Proof.
  intros Hn Hb.
  destruct (for_up_rule (λ k dst, alen dst = alen dst0 ∧
    ∀ j, 0 ≤ j → dst.[j] = if j <? k then Some (val j) else dst0.[j]) 0 n body dst0)
    as (dst' & H & Hl & Hj); [lia| | |by exists dst'].
  - split; [done|]. intros j Hj. by destruct (Z.ltb_spec j 0); [lia|].
  - intros k dst Hk [Hl Hj]. rewrite Hb; [|done|done|].
    2: { intros j Hkj. rewrite Hj by lia. by destruct (Z.ltb_spec j k); [lia|]. }
    rewrite (arr_set_lt dst k) by lia. eexists. split; [done|].
    split; [by rewrite alen_insert|]. intros j Hj0. rewrite arr_get_insert by lia.
    destruct (decide (j = k)) as [->|].
    + by destruct (Z.ltb_spec k (k + 1)); [|lia].
    + rewrite Hj by done. destruct (Z.ltb_spec j k), (Z.ltb_spec j (k + 1)); done || lia.
Qed.

(** The same with an accumulated word, as [__bitmap_and] keeps in [result]. *)
Lemma fill_up_acc dst0 n val body :
  0 ≤ n ≤ alen dst0 → (∀ k, 0 ≤ k < n → ulong (val k)) →
  (∀ k dst r, 0 ≤ k < n → alen dst = alen dst0 → (∀ j, k ≤ j → dst.[j] = dst0.[j]) →
     body k (dst, r) = dst' ← dst.[k <- val k]; Some (dst', Z.lor r (val k))) →
  ∃ dst' r, for_up 0 n body (dst0, 0) = Some (dst', r) ∧ alen dst' = alen dst0 ∧
    (∀ j, 0 ≤ j → dst'.[j] = if j <? n then Some (val j) else dst0.[j]) ∧
    (ctrue r = true ↔ ∃ k, 0 ≤ k < n ∧ val k ≠ 0).
Proof.
  intros Hn Hu Hb.
  destruct (for_up_rule (λ k '(dst, r), alen dst = alen dst0 ∧
    (∀ j, 0 ≤ j → dst.[j] = if j <? k then Some (val j) else dst0.[j]) ∧
    (r = 0 ↔ ∀ j, 0 ≤ j < k → val j = 0)) 0 n body (dst0, 0))
    as ([dst' r] & H & Hl & Hj & Hr); [lia| | |].
  - split; [done|]. split; [|split; [intros; lia|done]].
    intros j Hj. by destruct (Z.ltb_spec j 0); [lia|].
  - intros k [dst r] Hk (Hl & Hj & Hr). rewrite Hb; [|done|done|].
    2: { intros j Hkj. rewrite Hj by lia. by destruct (Z.ltb_spec j k); [lia|]. }
    rewrite (arr_set_lt dst k) by lia. eexists. split; [done|].
    split; [by rewrite alen_insert|]. split.
    + intros j Hj0. rewrite arr_get_insert by lia. destruct (decide (j = k)) as [->|].
      * by destruct (Z.ltb_spec k (k + 1)); [|lia].
      * rewrite Hj by done. destruct (Z.ltb_spec j k), (Z.ltb_spec j (k + 1)); done || lia.
    + rewrite Z.lor_eq_0_iff, Hr. split.
      * intros [H1 H2] j Hj'. destruct (decide (j = k)) as [->|]; [done|]. apply H1. lia.
      * intros H1. split; [intros j Hj'; apply H1; lia|apply H1; lia].
  - exists dst', r. split; [done|]. split; [done|]. split; [done|].
    rewrite ctrue_true, Hr. split.
    + intros Hex. destruct (decide (Exists (λ k, val k ≠ 0) (seqZ 0 n))) as [Hd|Hd].
      * apply Exists_exists in Hd as (k & Hin & Hv). apply list_elem_of_In, elem_of_seqZ in Hin. exists k. lia.
      * exfalso. apply Hex. intros j Hj'. destruct (decide (val j = 0)); [done|].
        exfalso. apply Hd, Exists_exists. exists j. split; [apply list_elem_of_In, elem_of_seqZ; lia|done].
    + intros (k & Hk & Hv) Hall. by apply Hv, Hall.
Qed.

(** A descending loop that writes [val k] to word [k + off]. *)
Lemma fill_down dst0 n off val body :
  0 ≤ n → 0 ≤ off → n + off ≤ alen dst0 →
  (∀ k dst, 0 ≤ k < n → alen dst = alen dst0 → (∀ j, j ≤ k + off → dst.[j] = dst0.[j]) →
     body k dst = dst.[k + off <- val k]) →
  ∃ dst', for_down (n - 1) 0 body dst0 = Some dst' ∧ alen dst' = alen dst0 ∧
    ∀ j, 0 ≤ j → dst'.[j] = if (off <=? j) && (j <? n + off) then Some (val (j - off)) else dst0.[j].
Proof.
  intros Hn Ho Hl Hb.
  destruct (for_down_rule (λ k dst, alen dst = alen dst0 ∧
    ∀ j, 0 ≤ j → dst.[j] =
      if (k + off <? j) && (j <? n + off) then Some (val (j - off)) else dst0.[j]) (n - 1) 0 body dst0)
    as (dst' & H & Hl' & Hj); [lia| | |].
  - split; [done|]. intros j Hj.
    destruct (Z.ltb_spec (n - 1 + off) j), (Z.ltb_spec j (n + off)); simpl; done || lia.
  - intros k dst Hk [Hld Hj]. rewrite Hb; [|lia|done|].
    2: { intros j Hkj. destruct (decide (0 ≤ j)); [|by rewrite !arr_get_None by lia].
         rewrite Hj by lia. by destruct (Z.ltb_spec (k + off) j); [lia|]. }
    rewrite (arr_set_lt dst (k + off)) by lia. eexists. split; [done|].
    split; [by rewrite alen_insert|]. intros j Hj0. rewrite arr_get_insert by lia.
    destruct (decide (j = k + off)) as [->|].
    + destruct (Z.ltb_spec (k - 1 + off) (k + off)), (Z.ltb_spec (k + off) (n + off)); simpl; try lia.
      by rewrite Z.add_simpl_r.
    + rewrite Hj by done.
      destruct (Z.ltb_spec (k + off) j), (Z.ltb_spec (k - 1 + off) j), (Z.ltb_spec j (n + off));
        simpl; done || lia.
  - exists dst'. split; [done|]. split; [done|]. intros j Hj0. rewrite Hj by done.
    destruct (Z.ltb_spec (0 - 1 + off) j), (Z.leb_spec off j); simpl; done || lia.
Qed.

Lemma zero_words_spec dst from n :
  0 ≤ from → 0 ≤ n → from + n ≤ alen dst →
  ∃ dst', zero_words dst from n = Some dst' ∧ alen dst' = alen dst ∧
    ∀ j, 0 ≤ j → dst'.[j] = if (from <=? j) && (j <? from + n) then Some 0 else dst.[j].
Proof.
  intros Hf Hn Hl. unfold zero_words.
  destruct (for_up_rule (λ k d, alen d = alen dst ∧
    ∀ j, 0 ≤ j → d.[j] = if (from <=? j) && (j <? from + k) then Some 0 else dst.[j])
    0 n (λ k d, d.[from + k <- 0]) dst) as (dst' & H & Hl' & Hj); [lia| | |by exists dst'].
  - split; [done|]. intros j Hj. destruct (Z.leb_spec from j), (Z.ltb_spec j (from + 0)); simpl; done || lia.
  - intros k d Hk [Hld Hj]. rewrite (arr_set_lt d) by lia. eexists. split; [done|].
    split; [by rewrite alen_insert|]. intros j Hj0. rewrite arr_get_insert by lia.
    destruct (decide (j = from + k)) as [->|].
    + destruct (Z.leb_spec from (from + k)), (Z.ltb_spec (from + k) (from + (k + 1))); simpl; done || lia.
    + rewrite Hj by done. destruct (Z.leb_spec from j), (Z.ltb_spec j (from + k)),
        (Z.ltb_spec j (from + (k + 1))); simpl; done || lia.
Qed.

(** ** Logical operations *)

(** Word [k] of a buffer that is known to hold it. *)
Definition wd b k : Z := default 0 b.[k].

Lemma operand_stable dst dst0 src k :
  dst.[k] = dst0.[k] → (operand dst src).[k] = (operand dst0 src).[k].
Proof. by destruct src. Qed.

Lemma bits_in_wd b bits k :
  bits_in b bits → 0 ≤ k < BITS_TO_LONGS bits → b.[k] = Some (wd b k) ∧ ulong (wd b k).
Proof.
  intros Hb Hk. assert (0 ≤ bits) by (destruct Hb; lia).
  pose proof (BITS_TO_LONGS_bounds bits ltac:(lia)).
  destruct (bits_in_word b bits k) as (w & Hw & Hu); [done|lia|lia|].
  unfold wd. by rewrite Hw.
Qed.

Lemma testbit_wd b i : Z.testbit (wd b (i / 32)) (i mod 32) = bit b i.
Proof.
  unfold wd, bit. change BITS_PER_LONG with 32. destruct (b.[i / 32]); [done|]. apply Z.bits_0.
Qed.

(** The result buffer after the words below [n] were set to [val]. *)
Lemma words_filled dst dst' n val :
  words dst → alen dst' = alen dst → (∀ k, 0 ≤ k < n → ulong (val k)) →
  (∀ j, 0 ≤ j → dst'.[j] = if j <? n then Some (val j) else dst.[j]) → words dst'.
Proof.
  intros Hw Hl Hv Hj. apply Forall_lookup_2. intros i x Hx.
  rewrite <- arr_get_lookup, Hj in Hx by lia. destruct (Z.ltb_spec (Z.of_nat i) n).
  - simplify_eq. apply Hv. lia.
  - by eapply Forall_arr_get.
Qed.

Section Logical.
Context (dst : list Z) (b1 b2 : option (list Z)) (bits : Z).
Context (Hd : bits_in dst bits) (H1 : bits_in (operand dst b1) bits)
        (H2 : bits_in (operand dst b2) bits).
Context (f : Z → Z → Z) (g : bool → bool → bool).
Context (Hf : ∀ v w, ulong v → ulong w → ulong (f v w) ∧
     ∀ j, 0 ≤ j < 32 → Z.testbit (f v w) j = g (Z.testbit v j) (Z.testbit w j)).
#[local] Abbreviation val := (λ k, f (wd (operand dst b1) k) (wd (operand dst b2) k)).
#[local] Abbreviation n := (BITS_TO_LONGS bits).

Lemma val_ulong k : 0 ≤ k < n → ulong (val k).
Proof. intros Hk. apply Hf; eapply bits_in_wd; eauto. Qed.

Lemma longs_fit : 0 ≤ n ≤ alen dst.
Proof.
  destruct Hd as (_ & ? & _). pose proof (BITS_TO_LONGS_bounds bits ltac:(lia)).
  split; [lia|]. apply BITS_TO_LONGS_le. lia.
Qed.

Lemma reads_val {R} k dst1 (K : Z → Z → option R) :
  0 ≤ k < n → (∀ j, k ≤ j → dst1.[j] = dst.[j]) →
  (v ← (operand dst1 b1).[k]; w ← (operand dst1 b2).[k]; K v w) =
  K (wd (operand dst b1) k) (wd (operand dst b2) k).
Proof.
  intros Hk Hj. rewrite !(operand_stable dst1 dst) by (apply Hj; lia).
  by rewrite (proj1 (bits_in_wd _ _ _ H1 Hk)), (proj1 (bits_in_wd _ _ _ H2 Hk)).
Qed.

Lemma val_bits dst' i :
  (∀ j, 0 ≤ j → dst'.[j] = if j <? n then Some (val j) else dst.[j]) → 0 ≤ i →
  bit dst' i = if i <? 32 * n then g (bit (operand dst b1) i) (bit (operand dst b2) i) else bit dst i.
Proof.
  intros Hj Hi. rewrite (bit_filled dst dst' n val i Hj Hi).
  destruct (Z.ltb_spec i (32 * n)); [|done].
  pose proof (word_index i n ltac:(lia)) as Hk.
  rewrite (proj2 (Hf _ _ (proj2 (bits_in_wd _ _ _ H1 Hk)) (proj2 (bits_in_wd _ _ _ H2 Hk))))
    by apply mod32_range.
  by rewrite !testbit_wd.
Qed.

Lemma logical_spec :
  ∃ dst', for_up 0 n (λ k dst,
      v ← (operand dst b1).[k]; w ← (operand dst b2).[k]; dst.[k <- f v w]) dst = Some dst' ∧
    alen dst' = alen dst ∧ words dst' ∧
    ∀ i, 0 ≤ i → bit dst' i =
      if i <? 32 * n then g (bit (operand dst b1) i) (bit (operand dst b2) i) else bit dst i.
Proof.
  destruct (fill_up dst n val (λ k dst,
      v ← (operand dst b1).[k]; w ← (operand dst b2).[k]; dst.[k <- f v w]))
    as (dst' & E & Hl & Hj); [apply longs_fit| |].
  { intros k dst1 Hk _ Hs. by apply reads_val. }
  exists dst'. split; [done|]. split; [done|]. split.
  - eapply words_filled; [by destruct Hd|done|apply val_ulong|done].
  - intros i Hi. by apply val_bits.
Qed.

Lemma logical_acc_spec :
  ∃ dst' r, for_up 0 n (λ k '(dst, result),
      v ← (operand dst b1).[k]; w ← (operand dst b2).[k];
      dst' ← dst.[k <- f v w]; Some (dst', Z.lor result (f v w))) (dst, 0) = Some (dst', r) ∧
    alen dst' = alen dst ∧ words dst' ∧
    (∀ i, 0 ≤ i → bit dst' i =
      if i <? 32 * n then g (bit (operand dst b1) i) (bit (operand dst b2) i) else bit dst i) ∧
    (ctrue r = true ↔ ∃ i, 0 ≤ i < 32 * n ∧ bit dst' i = true).
Proof.
  destruct (fill_up_acc dst n val (λ k '(dst, result),
      v ← (operand dst b1).[k]; w ← (operand dst b2).[k];
      dst' ← dst.[k <- f v w]; Some (dst', Z.lor result (f v w))))
    as (dst' & r & E & Hl & Hj & Hr); [apply longs_fit|apply val_ulong| |].
  { intros k dst1 r Hk _ Hs. by apply reads_val. }
  exists dst', r. split; [done|]. split; [done|].
  split; [eapply words_filled; [by destruct Hd|done|apply val_ulong|done]|].
  split; [intros i Hi; by apply val_bits|]. rewrite Hr. split.
  - intros (k & Hk & Hv). destruct (__ffs_spec _ (val_ulong k Hk) Hv) as ((Hr0 & Ht & _) & Hr32).
    exists (32 * k + __ffs (val k)). split; [lia|].
    rewrite (bit_in_word dst' k (val k)).
    + by replace (32 * k + __ffs (val k) - 32 * k) with (__ffs (val k)) by lia.
    + rewrite Hj by lia. by destruct (Z.ltb_spec k n); [|lia].
    + lia.
  - intros (i & Hi & Hb). exists (i / 32). split; [by apply word_index|]. intros H0.
    rewrite (bit_filled dst dst' n val i Hj) in Hb by lia.
    destruct (Z.ltb_spec i (32 * n)); [|lia]. cbv beta in Hb. by rewrite H0, Z.bits_0 in Hb.
Qed.
End Logical.

Lemma __bitmap_and_spec dst b1 b2 bits :
  bits_in dst bits → bits_in (operand dst b1) bits → bits_in (operand dst b2) bits →
  ∃ dst' ret, __bitmap_and dst b1 b2 bits = Some (dst', ret) ∧ alen dst' = alen dst ∧ words dst' ∧
    (∀ i, 0 ≤ i → bit dst' i =
      if i <? 32 * BITS_TO_LONGS bits then bit (operand dst b1) i && bit (operand dst b2) i
      else bit dst i) ∧
    (ret = true ↔ ∃ i, 0 ≤ i < 32 * BITS_TO_LONGS bits ∧ bit dst' i = true).
Proof.
  intros Hd H1 H2. unfold __bitmap_and.
  destruct (logical_acc_spec dst b1 b2 bits Hd H1 H2 Z.land andb land_bitwise)
    as (dst' & r & -> & H). simpl. by exists dst', (ctrue r).
Qed.

Lemma __bitmap_andnot_spec dst b1 b2 bits :
  bits_in dst bits → bits_in (operand dst b1) bits → bits_in (operand dst b2) bits →
  ∃ dst' ret, __bitmap_andnot dst b1 b2 bits = Some (dst', ret) ∧ alen dst' = alen dst ∧ words dst' ∧
    (∀ i, 0 ≤ i → bit dst' i =
      if i <? 32 * BITS_TO_LONGS bits then bit (operand dst b1) i && negb (bit (operand dst b2) i)
      else bit dst i) ∧
    (ret = true ↔ ∃ i, 0 ≤ i < 32 * BITS_TO_LONGS bits ∧ bit dst' i = true).
Proof.
  intros Hd H1 H2. unfold __bitmap_andnot.
  destruct (logical_acc_spec dst b1 b2 bits Hd H1 H2 (λ v w, Z.land v (lnot_ul w))
    (λ x y, x && negb y) andnot_bitwise) as (dst' & r & -> & H). simpl. by exists dst', (ctrue r).
Qed.

Lemma __bitmap_or_spec dst b1 b2 bits :
  bits_in dst bits → bits_in (operand dst b1) bits → bits_in (operand dst b2) bits →
  ∃ dst', __bitmap_or dst b1 b2 bits = Some dst' ∧ alen dst' = alen dst ∧ words dst' ∧
    ∀ i, 0 ≤ i → bit dst' i =
      if i <? 32 * BITS_TO_LONGS bits then bit (operand dst b1) i || bit (operand dst b2) i
      else bit dst i.
Proof. intros Hd H1 H2. apply (logical_spec dst b1 b2 bits Hd H1 H2 Z.lor orb lor_bitwise). Qed.

Lemma __bitmap_xor_spec dst b1 b2 bits :
  bits_in dst bits → bits_in (operand dst b1) bits → bits_in (operand dst b2) bits →
  ∃ dst', __bitmap_xor dst b1 b2 bits = Some dst' ∧ alen dst' = alen dst ∧ words dst' ∧
    ∀ i, 0 ≤ i → bit dst' i =
      if i <? 32 * BITS_TO_LONGS bits then xorb (bit (operand dst b1) i) (bit (operand dst b2) i)
      else bit dst i.
Proof. intros Hd H1 H2. apply (logical_spec dst b1 b2 bits Hd H1 H2 Z.lxor xorb lxor_bitwise). Qed.

Lemma BITS_TO_LONGS_div bits :
  0 ≤ bits → BITS_TO_LONGS bits = bits / 32 + (if bits mod 32 =? 0 then 0 else 1).
Proof.
  intros Hb. pose proof (BITS_TO_LONGS_bounds bits Hb).
  pose proof (Z.div_mod bits 32 ltac:(lia)). pose proof (mod32_range bits).
  destruct (Z.eqb_spec (bits mod 32) 0); lia.
Qed.

(** [__bitmap_complement] also clears the unused bits of the last word. *)
Lemma __bitmap_complement_spec dst src bits :
  bits_in dst bits → bits_in (operand dst src) bits →
  ∃ dst', __bitmap_complement dst src bits = Some dst' ∧ alen dst' = alen dst ∧ words dst' ∧
    ∀ i, 0 ≤ i → bit dst' i =
      if i <? 32 * BITS_TO_LONGS bits then (i <? bits) && negb (bit (operand dst src) i)
      else bit dst i.
Proof.
  intros Hd Hs. assert (Hb0 : 0 ≤ bits) by (destruct Hd; lia).
  pose proof (longs_fit dst bits Hd) as Hfit. pose proof (BITS_TO_LONGS_div bits Hb0) as HD.
  pose proof (Z.div_mod bits 32 ltac:(lia)) as Hdm. pose proof (mod32_range bits) as Hm.
  pose proof (Z.div_pos bits 32 ltac:(lia) ltac:(lia)) as Hq.
  set (val k := Z.land (lnot_ul (wd (operand dst src) k))
                  (if k <? bits / 32 then ULONG_MAX else BITMAP_LAST_WORD_MASK bits)).
  assert (Hval : ∀ w, ulong w → Z.land (lnot_ul w) ULONG_MAX = lnot_ul w).
  { intros w Hw. apply Z.bits_inj'. intros j Hj. rewrite Z.land_spec, testbit_ULONG_MAX by lia.
    rewrite testbit_unot by lia. by destruct (j <? 32), (Z.testbit w j). }
  assert (Hfin : ∃ dst', __bitmap_complement dst src bits = Some dst' ∧ alen dst' = alen dst ∧
    ∀ j, 0 ≤ j → dst'.[j] = if j <? BITS_TO_LONGS bits then Some (val j) else dst.[j]).
  { unfold __bitmap_complement. change BITS_PER_LONG with 32.
    destruct (fill_up dst (bits / 32) (λ k, lnot_ul (wd (operand dst src) k))
      (λ k dst, w ← (operand dst src).[k]; dst.[k <- lnot_ul w])) as (d1 & -> & Hl & Hj);
      [destruct (bits mod 32 =? 0); lia| |].
    { intros k d Hk _ Hst. rewrite (operand_stable d dst) by (apply Hst; lia).
      by rewrite (proj1 (bits_in_wd _ _ k Hs ltac:(destruct (bits mod 32 =? 0); lia))). }
    simpl. destruct (ctrue (bits mod 32)) eqn:Em.
    - apply ctrue_true in Em. destruct (Z.eqb_spec (bits mod 32) 0); [done|].
      rewrite (operand_stable d1 dst) by (rewrite Hj by lia; by rewrite Z.ltb_irrefl).
      rewrite (proj1 (bits_in_wd _ _ (bits / 32) Hs ltac:(lia))). simpl.
      rewrite (arr_set_lt d1) by lia. eexists. split; [done|].
      split; [by rewrite alen_insert|]. intros j Hj0. rewrite arr_get_insert by lia.
      destruct (decide (j = bits / 32)) as [->|].
      + destruct (Z.ltb_spec (bits / 32) (BITS_TO_LONGS bits)); [|lia].
        unfold val. by rewrite Z.ltb_irrefl.
      + rewrite Hj by done. unfold val.
        destruct (Z.ltb_spec j (bits / 32)), (Z.ltb_spec j (BITS_TO_LONGS bits)); try lia; [|done].
        by rewrite Hval by (apply (bits_in_wd _ bits); done || lia).
    - apply ctrue_false in Em. rewrite Em in HD. simpl in HD.
      exists d1. split; [done|]. split; [done|]. intros j Hj0. rewrite Hj by done. unfold val.
      replace (BITS_TO_LONGS bits) with (bits / 32) by lia.
      destruct (Z.ltb_spec j (bits / 32)); [|done].
      by rewrite Hval by (apply (bits_in_wd _ bits); done || lia). }
  destruct Hfin as (dst' & E & Hl & Hj). exists dst'. split; [done|]. split; [done|]. split.
  { eapply words_filled; [by destruct Hd|done| |done]. intros k Hk. unfold val.
    destruct (k <? bits / 32); auto with word. }
  intros i Hi. rewrite (bit_filled dst dst' _ val i Hj Hi).
  destruct (Z.ltb_spec i (32 * BITS_TO_LONGS bits)); [|done].
  unfold val. pose proof (mod32_range i) as Hmi. pose proof (Z.div_mod i 32 ltac:(lia)) as Hdi.
  rewrite Z.land_spec, testbit_unot, testbit_wd, andb_comm by lia.
  destruct (Z.ltb_spec (i mod 32) 32); [|lia]. simpl. f_equal.
  destruct (Z.ltb_spec (i / 32) (bits / 32)).
  - rewrite testbit_ULONG_MAX by lia. destruct (Z.ltb_spec (i mod 32) 32), (Z.ltb_spec i bits); done || lia.
  - rewrite LAST_WORD_MASK_testbit by lia. destruct (Z.eqb_spec (bits mod 32) 0); [lia|].
    assert (i / 32 = bits / 32) by lia.
    destruct (Z.ltb_spec (i mod 32) (bits mod 32)), (Z.ltb_spec i bits); done || lia.
Qed.

(** ** Shifts *)

(** Word [k] of [b] with the unused bits of the last word cleared. *)
Definition mwd (b : list Z) (bits k : Z) : Z :=
  if ctrue (bits mod 32) && (k =? BITS_TO_LONGS bits - 1)
  then Z.land (wd b k) (Z.shiftl 1 (bits mod 32) - 1) else wd b k.

Lemma ones_mask n : 0 ≤ n → Z.shiftl 1 n - 1 = Z.ones n.
Proof. intros. rewrite Z.shiftl_1_l, Z.ones_equiv. lia. Qed.

Lemma ulong_ones n : 0 ≤ n ≤ 32 → ulong (Z.ones n).
Proof.
  intros Hn. unfold urange. rewrite Z.ones_equiv.
  pose proof (Z.pow_le_mono_r 2 n 32 ltac:(lia) ltac:(lia)).
  pose proof (Z.pow_pos_nonneg 2 n ltac:(lia) ltac:(lia)). lia.
Qed.

Lemma testbit_ones n i : 0 ≤ n → 0 ≤ i → Z.testbit (Z.ones n) i = (i <? n).
Proof.
  intros. destruct (Z.ltb_spec i n); [apply Z.ones_spec_low|apply Z.ones_spec_high]; lia.
Qed.

Section Shift.
Context (b : list Z) (bits : Z) (Hb : bits_in b bits).
#[local] Abbreviation lim := (BITS_TO_LONGS bits).

Lemma shift_bits_facts :
  0 ≤ bits ∧ bits = 32 * (bits / 32) + bits mod 32 ∧ 0 ≤ bits mod 32 < 32 ∧ 0 ≤ bits / 32 ∧
  lim = bits / 32 + (if bits mod 32 =? 0 then 0 else 1) ∧ lim ≤ alen b.
Proof.
  assert (H0 : 0 ≤ bits) by (destruct Hb; lia).
  split; [done|]. split; [apply Z.div_mod; lia|]. split; [apply mod32_range|].
  split; [apply Z.div_pos; lia|]. split; [by apply BITS_TO_LONGS_div|].
  apply (longs_fit b bits Hb).
Qed.

Lemma wd_testbit k t :
  0 ≤ k < lim → 0 ≤ t < 32 → Z.testbit (wd b k) t = bit b (32 * k + t).
Proof.
  intros Hk Ht. rewrite (bit_in_word b k (wd b k)); [f_equal; lia| |lia].
  by apply (bits_in_wd b bits).
Qed.

Lemma mwd_ulong k : 0 ≤ k < lim → ulong (mwd b bits k).
Proof.
  intros Hk. destruct (bits_in_wd b bits k Hb Hk) as [_ Hu]. unfold mwd.
  pose proof (mod32_range bits). destruct (_ && _); [|done].
  rewrite ones_mask by lia. apply urange_land; [lia|done|]. apply ulong_ones. lia.
Qed.

Lemma mwd_testbit k t :
  0 ≤ k < lim → 0 ≤ t < 32 →
  Z.testbit (mwd b bits k) t = (32 * k + t <? bits) && bit b (32 * k + t).
Proof.
  intros Hk Ht. destruct shift_bits_facts as (_ & Hdm & Hm & Hq & HD & _). unfold mwd.
  destruct (ctrue (bits mod 32)) eqn:Em; simpl.
  - apply ctrue_true in Em. destruct (Z.eqb_spec (bits mod 32) 0); [done|].
    destruct (Z.eqb_spec k (lim - 1)).
    + rewrite ones_mask, Z.land_spec, wd_testbit, testbit_ones, andb_comm by lia. f_equal.
      destruct (Z.ltb_spec t (bits mod 32)), (Z.ltb_spec (32 * k + t) bits); done || lia.
    + rewrite wd_testbit by lia. by destruct (Z.ltb_spec (32 * k + t) bits); [|lia].
  - apply ctrue_false in Em. destruct (Z.eqb_spec (bits mod 32) 0); [|done].
    rewrite wd_testbit by lia. by destruct (Z.ltb_spec (32 * k + t) bits); [|lia].
Qed.

(** Word [k] of the bitmap shifted right by [32 * off + rem]. *)
Definition shr_val (off rem k : Z) : Z :=
  let upper := if (rem =? 0) || (lim <=? off + k + 1) then 0 else mwd b bits (off + k + 1) in
  let w := Z.lor (shl_ul upper (32 - rem)) (Z.shiftr (mwd b bits (off + k)) rem) in
  if ctrue (bits mod 32) && (k =? lim - 1) then Z.land w (Z.shiftl 1 (bits mod 32) - 1) else w.

Lemma shr_val_spec off rem k :
  0 ≤ off → 0 ≤ rem < 32 → 0 ≤ k < lim - off →
  ulong (shr_val off rem k) ∧ ∀ t, 0 ≤ t < 32 →
    Z.testbit (shr_val off rem k) t =
    (32 * k + t + (32 * off + rem) <? bits) && bit b (32 * k + t + (32 * off + rem)).
Proof.
  intros Ho Hr Hk. destruct shift_bits_facts as (_ & Hdm & Hm & Hq & HD & _).
  unfold shr_val. set (upper := if _ || _ then 0 else _).
  assert (Hu : ulong upper).
  { unfold upper. destruct (Z.eqb_spec rem 0), (Z.leb_spec lim (off + k + 1)); simpl;
      try (by unfold urange; lia). apply mwd_ulong. lia. }
  assert (Hup : ∀ s, 0 ≤ s < rem → Z.testbit upper s =
    (32 * (off + k + 1) + s <? bits) && bit b (32 * (off + k + 1) + s)).
  { intros s Hs. unfold upper. destruct (Z.eqb_spec rem 0); [lia|].
    destruct (Z.leb_spec lim (off + k + 1)); simpl.
    - rewrite Z.bits_0. destruct (Z.ltb_spec (32 * (off + k + 1) + s) bits); [|done].
      destruct (Z.eqb_spec (bits mod 32) 0); lia.
    - apply mwd_testbit; lia. }
  assert (Hlo : ulong (mwd b bits (off + k))) by (apply mwd_ulong; lia).
  set (w := Z.lor _ _).
  assert (Hw : ulong w) by (unfold w; auto with word).
  assert (Ht : ∀ t, 0 ≤ t < 32 → Z.testbit w t =
    (32 * k + t + (32 * off + rem) <? bits) && bit b (32 * k + t + (32 * off + rem))).
  { intros t Ht. unfold w. rewrite Z.lor_spec, testbit_ushl, Z.shiftr_spec by lia.
    destruct (Z.ltb_spec t 32); [|lia]. rewrite andb_true_l.
    destruct (decide (t + rem < 32)).
    - rewrite (Z.testbit_neg_r upper), orb_false_l, mwd_testbit by lia.
      do 2 f_equal; lia.
    - rewrite (urange_testbit_high 32 (mwd b bits (off + k))), orb_false_r, Hup by (done || lia).
      do 2 f_equal; lia. }
  destruct (ctrue (bits mod 32) && (k =? lim - 1)) eqn:Ec; [|done].
  apply andb_true_iff in Ec as [Em Ek]. apply ctrue_true in Em. apply Z.eqb_eq in Ek.
  destruct (Z.eqb_spec (bits mod 32) 0); [done|]. rewrite ones_mask by lia.
  split; [apply urange_land; [lia|done|apply ulong_ones; lia]|].
  intros t Htt. rewrite Z.land_spec, testbit_ones, Ht by lia.
  destruct (Z.ltb_spec t (bits mod 32)), (Z.ltb_spec (32 * k + t + (32 * off + rem)) bits);
    rewrite ?andb_true_r, ?andb_false_r; done || lia.
Qed.

(** Word [k + off] of the bitmap shifted left by [32 * off + rem]. *)
Definition shl_val (off rem k : Z) : Z :=
  let lower := if ctrue rem && (0 <? k) then wd b (k - 1) else 0 in
  let w := Z.lor (Z.shiftr lower (32 - rem)) (shl_ul (mwd b bits k) rem) in
  if ctrue (bits mod 32) && (k + off =? lim - 1) then Z.land w (Z.shiftl 1 (bits mod 32) - 1) else w.

Lemma shl_val_spec off rem k :
  0 ≤ off → 0 ≤ rem < 32 → 0 ≤ k < lim - off →
  ulong (shl_val off rem k) ∧ ∀ t, 0 ≤ t < 32 →
    Z.testbit (shl_val off rem k) t =
    (32 * (k + off) + t <? bits) && (rem <=? 32 * k + t) && bit b (32 * k + t - rem).
Proof.
  intros Ho Hr Hk. destruct shift_bits_facts as (_ & Hdm & Hm & Hq & HD & _).
  unfold shl_val. set (lower := if ctrue rem && _ then _ else 0).
  assert (Hu : ulong lower).
  { unfold lower. destruct (ctrue rem), (Z.ltb_spec 0 k); simpl; try (by unfold urange; lia).
    apply (bits_in_wd b bits); [done|lia]. }
  assert (Hlow : ∀ s, 32 - rem ≤ s < 32 → Z.testbit lower s =
    (0 <? k) && bit b (32 * (k - 1) + s)).
  { intros s Hs. unfold lower, ctrue. destruct (Z.eqb_spec rem 0); [lia|].
    destruct (Z.ltb_spec 0 k); simpl; [apply wd_testbit; lia|apply Z.bits_0]. }
  assert (Hup : ulong (mwd b bits k)) by (apply mwd_ulong; lia).
  set (w := Z.lor _ _).
  assert (Hw : ulong w) by (unfold w; auto with word).
  assert (Ht : ∀ t, 0 ≤ t < 32 → Z.testbit w t =
    if rem <=? t then (32 * k + (t - rem) <? bits) && bit b (32 * k + (t - rem))
    else (0 <? k) && bit b (32 * (k - 1) + (t + (32 - rem)))).
  { intros t Ht. unfold w. rewrite Z.lor_spec, testbit_ushl, Z.shiftr_spec by lia.
    destruct (Z.ltb_spec t 32); [|lia]. rewrite andb_true_l.
    destruct (Z.leb_spec rem t).
    - rewrite (urange_testbit_high 32 lower), orb_false_l, mwd_testbit by (done || lia). done.
    - rewrite (Z.testbit_neg_r (mwd b bits k)), orb_false_r, Hlow by lia. done. }
  assert (Hgoal : ∀ t, 0 ≤ t < 32 → 32 * (k + off) + t < bits → Z.testbit w t =
    (rem <=? 32 * k + t) && bit b (32 * k + t - rem)).
  { intros t Htt Hlt. rewrite Ht by lia. destruct (Z.leb_spec rem t).
    - destruct (Z.ltb_spec (32 * k + (t - rem)) bits), (Z.leb_spec rem (32 * k + t)); try lia.
      simpl. f_equal. lia.
    - destruct (Z.ltb_spec 0 k), (Z.leb_spec rem (32 * k + t)); try lia; simpl; f_equal; lia. }
  destruct (ctrue (bits mod 32) && (k + off =? lim - 1)) eqn:Ec.
  - apply andb_true_iff in Ec as [Em Ek]. apply ctrue_true in Em. apply Z.eqb_eq in Ek.
    destruct (Z.eqb_spec (bits mod 32) 0); [done|]. rewrite ones_mask by lia.
    split; [apply urange_land; [lia|done|apply ulong_ones; lia]|].
    intros t Htt. rewrite Z.land_spec, testbit_ones by lia.
    destruct (Z.ltb_spec t (bits mod 32)), (Z.ltb_spec (32 * (k + off) + t) bits);
      rewrite ?andb_true_r, ?andb_false_r; try done; try lia. by apply Hgoal.
  - split; [done|]. intros t Htt.
    assert (Hlt : 32 * (k + off) + t < bits).
    { unfold ctrue in Ec. destruct (Z.eqb_spec (bits mod 32) 0), (Z.eqb_spec (k + off) (lim - 1));
        simpl in Ec; done || lia. }
    rewrite Hgoal by lia. by destruct (Z.ltb_spec (32 * (k + off) + t) bits); [|lia].
Qed.
End Shift.

Lemma shift_divmod shift : 0 ≤ shift →
  shift = 32 * (shift / 32) + shift mod 32 ∧ 0 ≤ shift mod 32 < 32 ∧ 0 ≤ shift / 32.
Proof.
  intros. split; [apply Z.div_mod; lia|]. split; [apply mod32_range|apply Z.div_pos; lia].
Qed.

Lemma __bitmap_shift_right_spec dst src shift bits :
  bits_in dst bits → bits_in (operand dst src) bits → 0 ≤ shift → shift / 32 ≤ BITS_TO_LONGS bits →
  ∃ dst', __bitmap_shift_right dst src shift bits = Some dst' ∧ alen dst' = alen dst ∧
    ∀ i, 0 ≤ i → bit dst' i =
      if i <? 32 * BITS_TO_LONGS bits
      then (i + shift <? bits) && bit (operand dst src) (i + shift) else bit dst i.
Proof.
  intros Hd Hs Hsh Hoff. destruct (shift_divmod shift Hsh) as (Hdm & Hr & Ho).
  pose proof (longs_fit dst bits Hd) as Hfit.
  unfold __bitmap_shift_right. cbv zeta. change BITS_PER_LONG with 32.
  set (off := shift / 32) in *. set (rem := shift mod 32) in *. set (lim := BITS_TO_LONGS bits) in *.
  match goal with |- context [for_up 0 (lim - off) ?body dst] =>
    destruct (fill_up dst (lim - off) (shr_val (operand dst src) bits off rem) body)
      as (d1 & -> & Hl & Hj) end; [lia| |].
  { intros k d Hk _ Hst. unfold shr_val, mwd. fold lim.
    rewrite (operand_stable d dst src (off + k)) by (apply Hst; lia).
    rewrite (proj1 (bits_in_wd _ bits (off + k) Hs ltac:(lia))).
    destruct ((rem =? 0) || (lim <=? off + k + 1)) eqn:Eu; [done|].
    apply orb_false_iff in Eu as [_ Eu]. apply Z.leb_gt in Eu.
    rewrite (operand_stable d dst src (off + k + 1)) by (apply Hst; lia).
    rewrite (proj1 (bits_in_wd _ bits (off + k + 1) Hs ltac:(lia))).
    simpl. by rewrite (andb_comm (off + k + 1 =? lim - 1)). }
  simpl. assert (Hfin : ∃ d2, (if ctrue off then zero_words d1 (lim - off) off else Some d1) = Some d2 ∧
    alen d2 = alen dst ∧ ∀ j, 0 ≤ j → d2.[j] = if j <? lim then Some
      (if j <? lim - off then shr_val (operand dst src) bits off rem j else 0) else dst.[j]).
  { destruct (ctrue off) eqn:Eo.
    - destruct (zero_words_spec d1 (lim - off) off) as (d2 & -> & Hl2 & Hj2); [lia..|].
      exists d2. split; [done|]. split; [lia|]. intros j Hj0. rewrite Hj2, Hj by done.
      destruct (Z.leb_spec (lim - off) j), (Z.ltb_spec j (lim - off + off)),
        (Z.ltb_spec j (lim - off)), (Z.ltb_spec j lim); simpl; done || lia.
    - apply ctrue_false in Eo. exists d1. split; [done|]. split; [done|]. intros j Hj0.
      rewrite Hj, Eo, Z.sub_0_r by done. by destruct (j <? lim). }
  destruct Hfin as (d2 & -> & Hl2 & Hj2). exists d2. split; [done|]. split; [done|].
  intros i Hi. rewrite (bit_filled dst d2 lim _ i Hj2 Hi).
  destruct (Z.ltb_spec i (32 * lim)); [|done].
  pose proof (word_index i lim ltac:(lia)). pose proof (mod32_range i).
  pose proof (Z.div_mod i 32 ltac:(lia)).
  destruct (Z.ltb_spec (i / 32) (lim - off)).
  - rewrite (proj2 (shr_val_spec _ _ Hs off rem (i / 32) ltac:(lia) ltac:(lia) ltac:(fold lim; lia)))
      by lia.
    by replace (32 * (i / 32) + i mod 32 + (32 * off + rem)) with (i + shift) by lia.
  - rewrite Z.bits_0. pose proof (BITS_TO_LONGS_bounds bits) as HB. fold lim in HB.
    destruct (Z.ltb_spec (i + shift) bits); [|done]. destruct Hd as (_ & ? & _). lia.
Qed.

Lemma __bitmap_shift_left_spec dst src shift bits :
  bits_in dst bits → bits_in (operand dst src) bits → 0 ≤ shift → shift / 32 ≤ BITS_TO_LONGS bits →
  ∃ dst', __bitmap_shift_left dst src shift bits = Some dst' ∧ alen dst' = alen dst ∧ words dst' ∧
    ∀ i, 0 ≤ i → bit dst' i =
      if i <? 32 * BITS_TO_LONGS bits
      then (i <? bits) && (shift <=? i) && bit (operand dst src) (i - shift) else bit dst i.
Proof.
  intros Hd Hs Hsh Hoff. destruct (shift_divmod shift Hsh) as (Hdm & Hr & Ho).
  pose proof (longs_fit dst bits Hd) as Hfit.
  unfold __bitmap_shift_left. cbv zeta. change BITS_PER_LONG with 32.
  set (off := shift / 32) in *. set (rem := shift mod 32) in *. set (lim := BITS_TO_LONGS bits) in *.
  match goal with |- context [for_down (lim - off - 1) 0 ?body dst] =>
    destruct (fill_down dst (lim - off) off (shl_val (operand dst src) bits off rem) body)
      as (d1 & -> & Hl & Hj) end; [lia|lia|lia| |].
  { intros k d Hk _ Hst. unfold shl_val, mwd. fold lim.
    rewrite (operand_stable d dst src k) by (apply Hst; lia).
    rewrite (proj1 (bits_in_wd _ bits k Hs ltac:(fold lim; lia))).
    destruct (ctrue rem && (0 <? k)) eqn:Eu; [|done].
    apply andb_true_iff in Eu as [_ Eu]. apply Z.ltb_lt in Eu.
    rewrite (operand_stable d dst src (k - 1)) by (apply Hst; lia).
    by rewrite (proj1 (bits_in_wd _ bits (k - 1) Hs ltac:(fold lim; lia))). }
  simpl. assert (Hfin : ∃ d2, (if ctrue off then zero_words d1 0 off else Some d1) = Some d2 ∧
    alen d2 = alen dst ∧ ∀ j, 0 ≤ j → d2.[j] = if j <? lim then Some
      (if off <=? j then shl_val (operand dst src) bits off rem (j - off) else 0) else dst.[j]).
  { destruct (ctrue off) eqn:Eo.
    - destruct (zero_words_spec d1 0 off) as (d2 & -> & Hl2 & Hj2); [lia..|].
      exists d2. split; [done|]. split; [lia|]. intros j Hj0. rewrite Hj2, Hj by done.
      destruct (Z.leb_spec 0 j), (Z.ltb_spec j (0 + off)), (Z.leb_spec off j),
        (Z.ltb_spec j (lim - off + off)), (Z.ltb_spec j lim); simpl; done || lia.
    - apply ctrue_false in Eo. exists d1. split; [done|]. split; [done|]. intros j Hj0.
      rewrite Hj by done. destruct (Z.leb_spec off j), (Z.ltb_spec j (lim - off + off)),
        (Z.ltb_spec j lim); simpl; done || lia. }
  destruct Hfin as (d2 & -> & Hl2 & Hj2). exists d2. split; [done|]. split; [done|].
  split. { eapply words_filled; [apply Hd|done| |exact Hj2]. intros k Hk. cbv beta. destruct (Z.leb_spec off k); [|by unfold urange].
    apply (shl_val_spec _ _ Hs off rem (k - off) ltac:(lia) ltac:(lia) ltac:(fold lim; lia)). }
  intros i Hi. rewrite (bit_filled dst d2 lim _ i Hj2 Hi).
  destruct (Z.ltb_spec i (32 * lim)); [|done].
  pose proof (word_index i lim ltac:(lia)). pose proof (mod32_range i).
  pose proof (Z.div_mod i 32 ltac:(lia)).
  destruct (Z.leb_spec off (i / 32)).
  - rewrite (proj2 (shl_val_spec _ _ Hs off rem (i / 32 - off) ltac:(lia) ltac:(lia) ltac:(fold lim; lia)))
      by lia.
    replace (32 * (i / 32 - off + off) + i mod 32) with i by lia.
    replace (32 * (i / 32 - off) + i mod 32 - rem) with (i - shift) by lia.
    destruct (i <? bits); simpl; [|done]. f_equal.
    destruct (Z.leb_spec rem (32 * (i / 32 - off) + i mod 32)), (Z.leb_spec shift i); done || lia.
  - rewrite Z.bits_0. destruct (Z.leb_spec shift i); [lia|]. by rewrite andb_false_r.
Qed.

(** ** Weight *)

(** How many positions below [n] satisfy [P]. *)
Fixpoint count (P : Z → bool) (n : nat) : Z :=
  match n with O => 0 | S n' => count P n' + Z.b2z (P (Z.of_nat n')) end.

(** The number of set bits of [b] below position [n]: the rank of [n]. *)
Definition rank (b : list Z) (n : Z) : Z := count (bit b) (Z.to_nat n).

Lemma count_ext P Q n : (∀ i, 0 ≤ i < Z.of_nat n → P i = Q i) → count P n = count Q n.
Proof.
  induction n as [|n IH]; intros H; simpl; [done|]. rewrite IH, H; [done|lia|intros; apply H; lia].
Qed.

Lemma count_add P n m : count P (n + m) = count P n + count (λ i, P (Z.of_nat n + i)) m.
Proof.
  induction m as [|m IH]; [rewrite Nat.add_0_r; simpl; lia|].
  rewrite Nat.add_succ_r. cbn [count]. rewrite IH, <- Z.add_assoc. do 4 f_equal. lia.
Qed.

Lemma popcount_count n w : popcount n w = count (Z.testbit w) n.
Proof. induction n as [|n IH]; simpl; [done|]. by rewrite IH. Qed.

Lemma count_range P n : 0 ≤ count P n ≤ Z.of_nat n.
Proof. induction n as [|n IH]; cbn [count]; [lia|]. destruct (P (Z.of_nat n)); simpl Z.b2z; lia. Qed.

Lemma count_false P n : (∀ i, 0 ≤ i < Z.of_nat n → P i = false) → count P n = 0.
Proof.
  induction n as [|n IH]; intros H; simpl; [done|]. rewrite IH, H; [done|lia|intros; apply H; lia].
Qed.

Lemma count_pad P n m :
  (n ≤ m)%nat → (∀ i, Z.of_nat n ≤ i < Z.of_nat m → P i = false) → count P m = count P n.
Proof.
  intros Hnm H. replace m with (n + (m - n))%nat by lia. rewrite count_add.
  rewrite (count_false (λ i, P (Z.of_nat n + i))); [lia|]. intros i Hi. apply H. lia.
Qed.

Lemma rank_add b n m :
  0 ≤ n → 0 ≤ m → rank b (n + m) = rank b n + count (λ i, bit b (n + i)) (Z.to_nat m).
Proof.
  intros Hn Hm. unfold rank. rewrite Z2Nat.inj_add, count_add by lia. f_equal.
  apply count_ext. intros i Hi. by rewrite Z2Nat.id by lia.
Qed.

Lemma __bitmap_weight_spec b bits :
  bits_in b bits → __bitmap_weight b bits = Some (rank b bits).
Proof.
  intros Hb. destruct (shift_bits_facts b bits Hb) as (H0 & Hdm & Hm & Hq & HD & Hfit).
  unfold __bitmap_weight. cbv zeta. change BITS_PER_LONG with 32.
  match goal with |- context [for_up 0 _ ?body _] =>
    destruct (for_up_rule (λ k w, w = rank b (32 * k)) 0 (bits / 32) body 0)
      as (w & -> & ->) end; [done|done| |].
  { intros k w Hk ->.
    destruct (bits_in_wd b bits k Hb) as [-> Hu]; [destruct (bits mod 32 =? 0); lia|].
    eexists. split; [done|]. unfold hweight_long.
    rewrite __sw_hweight32_popcount, popcount_count by done.
    replace (32 * (k + 1)) with (32 * k + 32) by lia. rewrite rank_add by lia. f_equal.
    apply count_ext. intros i Hi.
    apply (wd_testbit b bits); [done| |lia]. destruct (bits mod 32 =? 0); lia. }
  simpl. destruct (ctrue (bits mod 32)) eqn:Em.
  - apply ctrue_true in Em. destruct (Z.eqb_spec (bits mod 32) 0); [done|].
    destruct (bits_in_wd b bits (bits / 32) Hb) as [-> Hu]; [lia|]. simpl. f_equal.
    unfold hweight_long. rewrite __sw_hweight32_popcount, popcount_count by auto with word.
    replace (rank b bits) with (rank b (32 * (bits / 32) + bits mod 32)) by (f_equal; lia).
    rewrite rank_add by lia. f_equal.
    rewrite (count_pad _ (Z.to_nat (bits mod 32))).
    + apply count_ext. intros i Hi. rewrite Z.land_spec, LAST_WORD_MASK_testbit by lia.
      destruct (Z.eqb_spec (bits mod 32) 0); [done|]. destruct (Z.ltb_spec i (bits mod 32)); [|lia].
      rewrite andb_true_r. apply (wd_testbit b bits); [done|lia|lia].
    + lia.
    + intros i Hi. rewrite Z.land_spec, LAST_WORD_MASK_testbit by lia.
      destruct (Z.eqb_spec (bits mod 32) 0); [done|]. destruct (Z.ltb_spec i (bits mod 32)); [lia|].
      apply andb_false_r.
  - apply ctrue_false in Em. do 2 f_equal. lia.
Qed.

(** ** Setting and clearing a range *)

(** Update of the bits of word [p] selected by [mask]. *)
Lemma bitmap_range_spec upd (g : bool → bool) map start nr :
  (∀ w m, ulong w → ulong m → ulong (upd w m) ∧ ∀ j, 0 ≤ j < 32 →
     Z.testbit (upd w m) j = if Z.testbit m j then g (Z.testbit w j) else Z.testbit w j) →
  words map → 0 ≤ start → 0 ≤ nr → start + nr ≤ 32 * alen map →
  ∃ map', bitmap_range upd map start nr = Some map' ∧ alen map' = alen map ∧ words map' ∧
    ∀ i, 0 ≤ i → bit map' i =
      if (start <=? i) && (i <? start + nr) then g (bit map i) else bit map i.
Proof.
  intros Hupd Hw Hs Hn Hlen. unfold bitmap_range, BIT_WORD, BITMAP_FIRST_WORD_MASK. cbv zeta.
  change BITS_PER_LONG with 32. destruct (shift_divmod start Hs) as (Hdm & Hm & Hq).
  set (q := start / 32) in *. set (m := start mod 32) in *. set (stop := start + nr) in *.
  set (Inv := λ '(mp, p, n, bt, mask), 0 < bt ≤ 32 ∧ 0 ≤ n ∧ n = stop - (32 * (p + 1) - bt) ∧
     0 ≤ p ∧ start ≤ 32 * (p + 1) - bt ∧ ulong mask ∧
     (∀ j, 0 ≤ j < 32 → Z.testbit mask j = (32 - bt <=? j)) ∧ alen mp = alen map ∧ words mp ∧
     ∀ i, 0 ≤ i → bit mp i =
       if (start <=? i) && (i <? 32 * (p + 1) - bt) then g (bit map i) else bit map i).
  match goal with |- context [loop ?fuel ?step ?s0] =>
    destruct (loop_rule Inv (λ '(_, _, n, _, _), Z.to_nat n)
      (λ '(mp, p, n, mask), ∃ bt, Inv (mp, p, n, bt, mask) ∧ n < bt) step fuel s0)
      as ([[[mp p] n] mask] & -> & (bt & HI & Hlt)) end.
  - intros [[[[mp p] n] bt] mask] HI. pose proof HI as (Hbt & Hn0 & Hn' & Hp & Hst & Hmu & Hmask & Hl & Hwm & Hb).
    destruct (Z.leb_spec 0 (n - bt)).
    + destruct (arr_get_lt mp p) as [w Hgw]; [lia|]. rewrite Hgw. simpl.
      rewrite (arr_set_lt mp p) by lia. simpl. eexists. split; [done|].
      assert (Hu : ulong w) by by eapply Forall_arr_get. destruct (Hupd w mask Hu Hmu) as [Hu' Htb].
      split; [|lia]. unfold Inv. ands; try lia; try done.
      * intros j Hj. rewrite testbit_ULONG_MAX by lia.
        destruct (Z.ltb_spec j 32), (Z.leb_spec (32 - 32) j); done || lia.
      * by rewrite alen_insert.
      * by apply Forall_insert.
      * intros i Hi. rewrite (bit_update mp p (upd w mask)) by (done || apply arr_set_lt; lia).
        pose proof (in_word i p Hi) as Hiw. destruct (decide (i / 32 = p)) as [Ei|Ei].
        -- rewrite Htb, Hmask by apply mod32_range.
           pose proof (Z.div_mod i 32 ltac:(lia)).
           assert (Hbi : Z.testbit w (i mod 32) = bit mp i) by (symmetry; apply bit_word; congruence).
           rewrite Hbi, Hb by done.
           destruct (Z.leb_spec (32 - bt) (i mod 32)), (Z.leb_spec start i),
             (Z.ltb_spec i (32 * (p + 1) - bt)), (Z.ltb_spec i (32 * (p + 1 + 1) - 32)); simpl; done || lia.
        -- rewrite Hb by done. destruct (Z.leb_spec start i),
             (Z.ltb_spec i (32 * (p + 1) - bt)), (Z.ltb_spec i (32 * (p + 1 + 1) - 32)); simpl; done || lia.
    + eexists. split; [done|]. exists bt. split; [done|lia].
  - unfold Inv. ands; try lia; try done.
    + auto with word.
    + intros j Hj. rewrite testbit_himask by lia.
      destruct (Z.ltb_spec j 32), (Z.leb_spec m j), (Z.leb_spec (32 - (32 - m)) j); done || lia.
    + intros i Hi. destruct (Z.leb_spec start i), (Z.ltb_spec i (32 * (q + 1) - (32 - m))); simpl; done || lia.
  - lia.
  - destruct HI as (Hbt & Hn0 & Hn' & Hp & Hst & Hmu & Hmask & Hl & Hwm & Hb). simpl.
    destruct (ctrue n) eqn:En.
    + apply ctrue_true in En. destruct (arr_get_lt mp p) as [w Hgw]; [lia|]. rewrite Hgw. simpl.
      rewrite (arr_set_lt mp p) by lia. eexists. split; [done|].
      assert (Hu : ulong w) by by eapply Forall_arr_get.
      destruct (Hupd w (Z.land mask (BITMAP_LAST_WORD_MASK stop)) Hu ltac:(auto with word)) as [Hu' Htb].
      split; [by rewrite alen_insert|]. split; [by apply Forall_insert|].
      assert (Hsm : stop mod 32 = stop - 32 * p) by (symmetry; apply (Z.mod_unique _ _ p); lia).
      intros i Hi. rewrite (bit_update mp p (upd w (Z.land mask (BITMAP_LAST_WORD_MASK stop))))
        by (done || apply arr_set_lt; lia).
      pose proof (in_word i p Hi) as Hiw. destruct (decide (i / 32 = p)) as [Ei|Ei].
      * pose proof (mod32_range i). pose proof (Z.div_mod i 32 ltac:(lia)).
        rewrite Htb, Z.land_spec, Hmask, LAST_WORD_MASK_testbit, Hsm by lia.
        assert (Hbi : Z.testbit w (i mod 32) = bit mp i) by (symmetry; apply bit_word; congruence).
        rewrite Hbi, Hb by done. destruct (Z.eqb_spec (stop - 32 * p) 0); [lia|].
        destruct (Z.leb_spec (32 - bt) (i mod 32)), (Z.leb_spec start i),
             (Z.ltb_spec i (32 * (p + 1) - bt)), (Z.ltb_spec i stop),
             (Z.ltb_spec (i mod 32) (stop - 32 * p)); simpl; done || lia.
      * rewrite Hb by done. destruct (Z.leb_spec start i), (Z.ltb_spec i stop),
             (Z.ltb_spec i (32 * (p + 1) - bt)); simpl; done || lia.
    + apply ctrue_false in En. exists mp. split; [done|]. split; [done|]. split; [done|].
      intros i Hi. rewrite Hb by done. by replace (32 * (p + 1) - bt) with stop by lia.
Qed.

Lemma bitmap_set_spec map start nr :
  words map → 0 ≤ start → 0 ≤ nr → start + nr ≤ 32 * alen map →
  ∃ map', bitmap_set map start nr = Some map' ∧ alen map' = alen map ∧ words map' ∧
    ∀ i, 0 ≤ i → bit map' i = if (start <=? i) && (i <? start + nr) then true else bit map i.
Proof.
  apply (bitmap_range_spec _ (λ _, true)). intros w m Hw Hm. split; [auto with word|].
  intros j Hj. rewrite Z.lor_spec, orb_comm. by destruct (Z.testbit m j).
Qed.

Lemma bitmap_clear_spec map start nr :
  words map → 0 ≤ start → 0 ≤ nr → start + nr ≤ 32 * alen map →
  ∃ map', bitmap_clear map start nr = Some map' ∧ alen map' = alen map ∧ words map' ∧
    ∀ i, 0 ≤ i → bit map' i = if (start <=? i) && (i <? start + nr) then false else bit map i.
Proof.
  apply (bitmap_range_spec _ (λ _, false)). intros w m Hw Hm. split; [auto with word|].
  intros j Hj. rewrite Z.land_spec, (proj2 (lnot_bitwise m Hm)), andb_comm by done.
  by destruct (Z.testbit m j).
Qed.

(** ** Searching for a free, aligned area *)

(** The area [x, x + nr) is free in the first [size] bits and [x] is a multiple
    of [2 ^ a]. *)
Definition free_area map (size nr a x : Z) : Prop :=
  0 ≤ x ∧ x + nr ≤ size ∧ (2 ^ a | x) ∧ ∀ i, x ≤ i < x + nr → bit map i = false.

Lemma ALIGN_MASK_spec x a :
  0 ≤ a < 32 → 0 ≤ x → x + 2 ^ a ≤ 2 ^ 32 →
  ALIGN_MASK x (2 ^ a - 1) = 2 ^ a * ((x + 2 ^ a - 1) / 2 ^ a).
Proof.
  intros Ha Hx Hlt. unfold ALIGN_MASK. pose proof (Z.pow_pos_nonneg 2 a ltac:(lia) ltac:(lia)).
  rewrite uwrap_small by (unfold urange; lia).
  replace (x + (2 ^ a - 1)) with (x + 2 ^ a - 1) by lia. set (y := x + 2 ^ a - 1).
  assert (Hy : ulong y) by (unfold urange, y; lia).
  apply Z.bits_inj'. intros i Hi. rewrite Z.land_spec, testbit_unot by lia.
  replace (2 ^ a - 1) with (Z.ones a) by (rewrite Z.ones_equiv; lia).
  rewrite testbit_ones by lia. rewrite (Z.mul_comm (2 ^ a)), <- Z.shiftl_mul_pow2,
    <- Z.shiftr_div_pow2, Z.shiftl_spec by lia.
  destruct (Z.ltb_spec i a); simpl.
  - by rewrite !andb_false_r, Z.testbit_neg_r by lia.
  - rewrite Z.shiftr_spec, Z.sub_add, andb_true_r by lia.
    destruct (Z.ltb_spec i 32); [apply andb_true_r|].
    rewrite (urange_testbit_high 32 y) by (done || lia). done.
Qed.

Lemma align_up_spec x a :
  0 ≤ a → 0 ≤ x →
  let y := 2 ^ a * ((x + 2 ^ a - 1) / 2 ^ a) in
  x ≤ y < x + 2 ^ a ∧ (2 ^ a | y) ∧ ∀ z, (2 ^ a | z) → x ≤ z → y ≤ z.
Proof.
  intros Ha Hx y. pose proof (Z.pow_pos_nonneg 2 a ltac:(lia) ltac:(lia)) as Hp.
  pose proof (Z.div_mod (x + 2 ^ a - 1) (2 ^ a) ltac:(lia)) as Hdm.
  pose proof (Z.mod_pos_bound (x + 2 ^ a - 1) (2 ^ a) Hp) as Hm. fold y in Hdm.
  split; [lia|]. split; [apply Z.divide_factor_l|]. intros z [q ->] Hz.
  unfold y. rewrite (Z.mul_comm q). apply Z.mul_le_mono_nonneg_l; [lia|].
  apply Z.lt_succ_r, Z.div_lt_upper_bound; nia.
Qed.

Lemma bits_in_le b n m : bits_in b n → 0 ≤ m ≤ n → bits_in b m.
Proof. intros (H1 & H2 & H3) Hm. split; [done|]. lia. Qed.

(** The search returns the lowest free aligned area at or after [start]; when
    there is none it returns a value beyond [size]. *)
Lemma bitmap_find_next_zero_area_spec map size start nr a :
  bits_in map size → 0 ≤ a < 32 → 0 ≤ start → 0 < nr → size + 2 ^ a + nr < 2 ^ 32 →
  ∃ r, bitmap_find_next_zero_area map size start nr (2 ^ a - 1) = Some r ∧
    ((start ≤ r ∧ free_area map size nr a r ∧
        ∀ x, start ≤ x → free_area map size nr a x → r ≤ x) ∨
     (size < r ∧ ∀ x, start ≤ x → ¬ free_area map size nr a x)).
Proof.
  intros Hb Ha Hs Hn Hov. assert (Hsz : 0 ≤ size) by (destruct Hb; lia).
  pose proof (Z.pow_pos_nonneg 2 a ltac:(lia) ltac:(lia)) as Hp.
  unfold bitmap_find_next_zero_area.
  apply (loop_rule (λ s, start ≤ s ∧ ∀ x, start ≤ x → free_area map size nr a x → s ≤ x)
    (λ s, Z.to_nat (size - s))); [|split; [lia|by intros]|lia].
  intros s [Hss Hmin].
  destruct (find_next_zero_bit_spec map size s Hb ltac:(lia)) as (idx & -> & Hge & Hf). simpl.
  assert (Hidx : 0 ≤ idx ≤ size ∧ (s ≤ size → s ≤ idx) ∧
    ∀ x, start ≤ x → free_area map size nr a x → idx ≤ x).
  { destruct (decide (s ≤ size)) as [Hle|Hgt].
    - destruct (Hf Hle) as (H1 & H2 & H3). split; [lia|]. split; [lia|].
      intros x Hx Hfree. specialize (Hmin x Hx Hfree). destruct (decide (idx ≤ x)); [done|].
      destruct Hfree as (_ & _ & _ & Hc). specialize (H2 x ltac:(lia)).
      rewrite (Hc x) in H2 by lia. done.
    - rewrite (Hge ltac:(lia)). split; [lia|]. split; [lia|].
      intros x Hx Hfree. specialize (Hmin x Hx Hfree). lia. }
  destruct Hidx as (Hir & Hsi & Hxi). rewrite ALIGN_MASK_spec by lia.
  destruct (align_up_spec idx a ltac:(lia) ltac:(lia)) as (Hy & Hdiv & Hleast).
  set (y := 2 ^ a * ((idx + 2 ^ a - 1) / 2 ^ a)) in *.
  assert (Hxy : ∀ x, start ≤ x → free_area map size nr a x → y ≤ x).
  { intros x Hx Hfree. apply Hleast; [by destruct Hfree as (_ & _ & ? & _)|by apply Hxi]. }
  rewrite (uwrap_small 32 (y + nr)) by (unfold urange; lia).
  destruct (Z.ltb_spec size (y + nr)) as [Hend|Hend].
  { eexists. split; [done|]. right. split; [done|]. intros x Hx Hfree.
    specialize (Hxy x Hx Hfree). destruct Hfree as (_ & Hle & _). lia. }
  destruct (find_next_bit_spec map (y + nr) y) as (i & -> & _ & Hfi); [by apply (bits_in_le _ size); [|lia]|lia|].
  destruct (Hfi ltac:(lia)) as (H1 & H2 & H3). simpl.
  destruct (Z.ltb_spec i (y + nr)) as [Hlt|Hge'].
  - rewrite uwrap_small by (unfold urange; lia). eexists. split; [done|]. simpl.
    split; [|lia]. split; [lia|]. intros x Hx Hfree. specialize (Hxy x Hx Hfree).
    destruct (decide (i + 1 ≤ x)); [done|]. destruct Hfree as (_ & _ & _ & Hc).
    specialize (H3 ltac:(lia)). rewrite Hc in H3 by lia. done.
  - eexists. split; [done|]. left. split; [lia|]. split; [|done].
    split; [lia|]. split; [lia|]. split; [done|]. intros j Hj. apply H2. lia.
Qed.

(** ** The region allocator *)

Section Region.
Context (pos order : Z) (Hord : 0 ≤ order < 31) (Hpos : 0 ≤ pos) (Hal : (2 ^ order | pos)).
#[local] Abbreviation nbits := (Z.shiftl 1 order).
#[local] Abbreviation index := (pos / 32).

Definition reg_mask : Z :=
  let nbitsinlong := Z.min nbits 32 in
  let mask := Z.shiftl 1 (nbitsinlong - 1) in
  shl_ul (u32 (mask + (mask - 1))) (pos - index * 32).

(** The geometry of a region: it is a part of one word, or whole words. *)
Lemma region_geometry :
  nbits = 2 ^ order ∧ pos = 32 * index + pos mod 32 ∧ 0 ≤ index ∧
  ((nbits ≤ 32 ∧ BITS_TO_LONGS nbits = 1 ∧ pos mod 32 + nbits ≤ 32) ∨
   (32 < nbits ∧ nbits = 32 * BITS_TO_LONGS nbits ∧ pos mod 32 = 0)).
Proof.
  rewrite Z.shiftl_1_l. split; [done|]. destruct (shift_divmod pos Hpos) as (Hdm & Hm & Hq).
  split; [done|]. split; [done|]. pose proof (Z.pow_pos_nonneg 2 order ltac:(lia) ltac:(lia)) as Hp.
  pose proof (BITS_TO_LONGS_bounds (2 ^ order) ltac:(lia)) as HB.
  destruct (decide (order ≤ 5)) as [Ho|Ho].
  - left. pose proof (Z.pow_le_mono_r 2 order 5 ltac:(lia) Ho) as Hle. change (2 ^ 5) with 32 in Hle.
    split; [done|]. split; [lia|].
    assert (H32 : (2 ^ order | 32)).
    { change 32 with (2 ^ 5). exists (2 ^ (5 - order)). rewrite <- Z.pow_add_r by lia. f_equal. lia. }
    assert (Hd1 : (2 ^ order | pos mod 32)).
    { replace (pos mod 32) with (pos - 32 * index) by lia. apply Z.divide_sub_r; [done|].
      by apply Z.divide_mul_l. }
    destruct Hd1 as [c Hc], H32 as [d Hd]. assert (c < d) by nia. nia.
  - right. assert (H32 : (32 | 2 ^ order)).
    { change 32 with (2 ^ 5). exists (2 ^ (order - 5)). rewrite <- Z.pow_add_r by lia. f_equal. lia. }
    destruct H32 as [c Hc]. split; [pose proof (Z.pow_lt_mono_r 2 5 order ltac:(lia) ltac:(lia) ltac:(lia)); lia|].
    split; [lia|]. destruct Hal as [d Hd]. symmetry. apply (Z.mod_unique _ _ (d * c)); lia.
Qed.

Lemma reg_mask_ulong : ulong reg_mask.
Proof. unfold reg_mask. auto with word. Qed.

Lemma reg_mask_testbit i j :
  0 ≤ i < BITS_TO_LONGS nbits → 0 ≤ j < 32 →
  Z.testbit reg_mask j =
    (pos <=? 32 * (index + i) + j) && (32 * (index + i) + j <? pos + nbits).
Proof.
  intros Hi Hj. destruct region_geometry as (Hn & Hdm & Hq & Hg). pose proof (mod32_range pos) as Hm.
  pose proof (Z.pow_pos_nonneg 2 order ltac:(lia) ltac:(lia)) as Hp.
  unfold reg_mask. cbv zeta. set (nb := Z.min nbits 32).
  assert (Hnb : 0 < nb ≤ 32) by lia.
  replace (Z.shiftl 1 (nb - 1) + (Z.shiftl 1 (nb - 1) - 1)) with (Z.ones nb).
  2: { rewrite Z.shiftl_1_l, Z.ones_equiv. replace nb with (1 + (nb - 1)) at 1 by lia.
       rewrite Z.pow_add_r by lia. lia. }
  rewrite uwrap_small by (apply ulong_ones; lia).
  replace (pos - index * 32) with (pos mod 32) by lia. rewrite testbit_ushl by lia.
  destruct (Z.ltb_spec j 32); [|lia]. rewrite andb_true_l.
  destruct (decide (j < pos mod 32)).
  - rewrite Z.testbit_neg_r by lia.
    destruct (Z.leb_spec pos (32 * (index + i) + j)); simpl; [lia|done].
  - rewrite testbit_ones by lia.
    destruct (Z.ltb_spec (j - pos mod 32) nb), (Z.leb_spec pos (32 * (index + i) + j)),
      (Z.ltb_spec (32 * (index + i) + j) (pos + nbits)); simpl; done || lia.
Qed.

(** Positions of the region lie in the scanned words. *)
Lemma region_word x :
  pos ≤ x < pos + nbits → 0 ≤ x / 32 - index < BITS_TO_LONGS nbits.
Proof.
  intros Hx. destruct region_geometry as (_ & Hdm & Hq & Hg). pose proof (mod32_range pos).
  pose proof (Z.div_mod x 32 ltac:(lia)). pose proof (mod32_range x). lia.
Qed.

Lemma region_fits map i :
  pos + nbits ≤ 32 * alen map → 0 ≤ i < BITS_TO_LONGS nbits → 0 ≤ index + i < alen map.
Proof.
  intros Hl Hi. destruct region_geometry as (Hn & Hdm & Hq & Hg). pose proof (mod32_range pos).
  pose proof (Z.pow_pos_nonneg 2 order ltac:(lia) ltac:(lia)). lia.
Qed.

Lemma reg_isfree_spec map :
  words map → pos + nbits ≤ 32 * alen map →
  (__reg_op map pos order REG_OP_ISFREE = Some (map, 1) ∧
     ∀ x, pos ≤ x < pos + nbits → bit map x = false) ∨
  (__reg_op map pos order REG_OP_ISFREE = Some (map, 0) ∧
     ∃ x, pos ≤ x < pos + nbits ∧ bit map x = true).
Proof.
  intros Hw Hl. unfold __reg_op. cbv zeta. change BITS_PER_LONG with 32.
  change (shl_ul _ (pos - index * 32)) with reg_mask.
  assert (Hrd : ∀ i, 0 ≤ i < BITS_TO_LONGS nbits → ∃ w, map.[index + i] = Some w ∧ ulong w).
  { intros i Hi. destruct (arr_get_lt map (index + i)) as [w Hg]; [by apply region_fits|].
    exists w. split; [done|]. by eapply Forall_arr_get. }
  match goal with |- context [scan_up 0 ?n ?body] =>
    destruct (scan_up_rule 0 n body) as [(r & i & -> & Hi & Hb & _)|(-> & Hall)] end.
  - intros i Hi. destruct (Hrd i Hi) as (w & -> & _). by eexists.
  - right. destruct (Hrd i Hi) as (w & Hg & Hu). rewrite Hg in Hb. simpl in Hb.
    destruct (ctrue (Z.land w reg_mask)) eqn:E; simplify_eq. split; [done|].
    apply ctrue_true in E.
    assert (Hul : ulong (Z.land w reg_mask)) by (apply urange_land; [lia|done|apply reg_mask_ulong]).
    destruct (__ffs_spec _ Hul E) as ((Hr & Ht & _) & Hr32).
    set (j := __ffs (Z.land w reg_mask)) in *.
    rewrite Z.land_spec, (reg_mask_testbit i) in Ht by lia.
    rewrite !andb_true_iff in Ht. exists (32 * (index + i) + j). split; [lia|].
    rewrite (bit_in_word map (index + i) w) by (done || lia).
    replace (32 * (index + i) + j - 32 * (index + i)) with j by lia. tauto.
  - left. split; [done|]. intros x Hx. pose proof (region_word x Hx) as Hi.
    specialize (Hall _ Hi). cbv beta in Hall. destruct (Hrd _ Hi) as (w & Hg & Hu).
    rewrite Hg in Hall. simpl in Hall. destruct (ctrue (Z.land w reg_mask)) eqn:E; simplify_eq.
    apply ctrue_false in E. pose proof (mod32_range x).
    pose proof (reg_mask_testbit (x / 32 - index) (x mod 32) Hi ltac:(lia)) as Hm.
    replace (index + (x / 32 - index)) with (x / 32) in * by lia.
    rewrite (bit_word map x w Hg).
    assert (Hb : Z.testbit (Z.land w reg_mask) (x mod 32) = false) by (by rewrite E, Z.bits_0).
    rewrite Z.land_spec, Hm in Hb. pose proof (Z.div_mod x 32 ltac:(lia)).
    destruct (Z.leb_spec pos (32 * (x / 32) + x mod 32)),
      (Z.ltb_spec (32 * (x / 32) + x mod 32) (pos + nbits)); try lia.
    by rewrite andb_true_r in Hb.
Qed.

Lemma reg_update_spec upd (g : bool → bool) map :
  (∀ w m, ulong w → ulong m → ulong (upd w m) ∧ ∀ j, 0 ≤ j < 32 →
     Z.testbit (upd w m) j = if Z.testbit m j then g (Z.testbit w j) else Z.testbit w j) →
  words map → pos + nbits ≤ 32 * alen map →
  ∃ map', for_up 0 (BITS_TO_LONGS nbits) (λ i map,
      w ← map.[index + i]; map.[index + i <- upd w reg_mask]) map = Some map' ∧
    alen map' = alen map ∧ words map' ∧
    ∀ x, 0 ≤ x → bit map' x = if (pos <=? x) && (x <? pos + nbits) then g (bit map x) else bit map x.
Proof.
  intros Hupd Hw Hl. destruct region_geometry as (Hn & Hdm & Hq & Hg).
  pose proof (Z.pow_pos_nonneg 2 order ltac:(lia) ltac:(lia)) as Hp.
  match goal with |- context [for_up 0 ?n ?body map] =>
    destruct (for_up_rule (λ i mp, alen mp = alen map ∧ words mp ∧
      ∀ x, 0 ≤ x → bit mp x = if (pos <=? x) && (x <? pos + nbits) && (x / 32 <? index + i)
                              then g (bit map x) else bit map x) 0 n body map)
      as (map' & -> & Hl' & Hw' & Hb) end.
  - lia.
  - split; [done|]. split; [done|]. intros x Hx.
    destruct (Z.leb_spec pos x), (Z.ltb_spec (x / 32) (index + 0)); rewrite ?andb_false_r; try done.
    pose proof (Z.div_le_mono pos x 32 ltac:(lia) ltac:(lia)). lia.
  - intros i mp Hi (Hlm & Hwm & Hb). pose proof (region_fits map i Hl Hi) as Hfit.
    destruct (arr_get_lt mp (index + i)) as [w Hgw]; [lia|]. rewrite Hgw. simpl.
    assert (Hu : ulong w) by by eapply Forall_arr_get.
    destruct (Hupd w reg_mask Hu reg_mask_ulong) as [Hu' Htb].
    rewrite (arr_set_lt mp (index + i)) by lia. eexists. split; [done|].
    split; [by rewrite alen_insert|]. split; [by apply Forall_insert|]. intros x Hx.
    rewrite (bit_update mp (index + i) (upd w reg_mask)) by (done || apply arr_set_lt; lia).
    destruct (decide (x / 32 = index + i)) as [Ex|Ex].
    + pose proof (mod32_range x). pose proof (Z.div_mod x 32 ltac:(lia)).
      rewrite Htb, (reg_mask_testbit i) by lia.
      replace (32 * (index + i) + x mod 32) with x by lia.
      assert (Hbx : Z.testbit w (x mod 32) = bit mp x) by (symmetry; apply bit_word; congruence).
      rewrite Hbx, Hb by done. destruct (Z.ltb_spec (x / 32) (index + (i + 1))); [|lia].
      rewrite andb_true_r. destruct (Z.ltb_spec (x / 32) (index + i)); [lia|].
      by rewrite andb_false_r.
    + rewrite Hb by done. f_equal.
      destruct (Z.ltb_spec (x / 32) (index + i)), (Z.ltb_spec (x / 32) (index + (i + 1))); done || lia.
  - exists map'. split; [done|]. split; [done|]. split; [done|]. intros x Hx. rewrite Hb by done.
    destruct ((pos <=? x) && (x <? pos + nbits)) eqn:E; [|done]. simpl.
    apply andb_true_iff in E as [E1 E2]. pose proof (region_word x ltac:(lia)).
    by destruct (Z.ltb_spec (x / 32) (index + BITS_TO_LONGS nbits)); [|lia].
Qed.

Lemma reg_alloc_spec map :
  words map → pos + nbits ≤ 32 * alen map →
  ∃ map', __reg_op map pos order REG_OP_ALLOC = Some (map', 0) ∧ alen map' = alen map ∧ words map' ∧
    ∀ x, 0 ≤ x → bit map' x = if (pos <=? x) && (x <? pos + nbits) then true else bit map x.
Proof.
  intros Hw Hl. destruct (reg_update_spec Z.lor (λ _, true) map) as (map' & E & H); [|done|done|].
  { intros w m Hw' Hm. split; [auto with word|].
    intros j Hj. rewrite Z.lor_spec, orb_comm. by destruct (Z.testbit m j). }
  exists map'. split; [|done]. unfold __reg_op. cbv zeta. change BITS_PER_LONG with 32.
  change (shl_ul _ (pos - index * 32)) with reg_mask. by rewrite E.
Qed.

Lemma reg_release_spec map :
  words map → pos + nbits ≤ 32 * alen map →
  ∃ map', __reg_op map pos order REG_OP_RELEASE = Some (map', 0) ∧ alen map' = alen map ∧ words map' ∧
    ∀ x, 0 ≤ x → bit map' x = if (pos <=? x) && (x <? pos + nbits) then false else bit map x.
Proof.
  intros Hw Hl.
  destruct (reg_update_spec (λ w m, Z.land w (lnot_ul m)) (λ _, false) map) as (map' & E & H); [|done|done|].
  { intros w m Hw' Hm. split; [auto with word|].
    intros j Hj. rewrite Z.land_spec, (proj2 (lnot_bitwise m Hm)), andb_comm by done.
    by destruct (Z.testbit m j). }
  exists map'. split; [|done]. unfold __reg_op. cbv zeta. change BITS_PER_LONG with 32.
  change (shl_ul _ (pos - index * 32)) with reg_mask. by rewrite E.
Qed.
End Region.

#[local] Arguments __reg_op : simpl never.

(** A free region of [2 ^ order] bits at a multiple of its size. *)
Abbreviation free_region map bits order x := (free_area map bits (2 ^ order) order x).

Lemma bitmap_find_free_region_spec map bits order :
  words map → 0 ≤ bits ≤ 32 * alen map → 0 ≤ order < 31 → bits + 2 ^ order < 2 ^ 31 →
  (∃ map' pos, bitmap_find_free_region map bits order = Some (map', pos) ∧
     free_region map bits order pos ∧ (∀ x, free_region map bits order x → pos ≤ x) ∧
     alen map' = alen map ∧ words map' ∧
     ∀ x, 0 ≤ x → bit map' x =
       if (pos <=? x) && (x <? pos + 2 ^ order) then true else bit map x) ∨
  (bitmap_find_free_region map bits order = Some (map, - ENOMEM) ∧
     ∀ x, ¬ free_region map bits order x).
Proof.
  intros Hw Hb Ho Hfit. pose proof (Z.pow_pos_nonneg 2 order ltac:(lia) ltac:(lia)) as Hp.
  unfold bitmap_find_free_region. rewrite Z.shiftl_1_l, (s32_small (2 ^ order)) by lia.
  match goal with |- context [loop ?fuel ?step ?s0] =>
    destruct (loop_rule (λ pos, 0 ≤ pos ≤ bits ∧ (2 ^ order | pos) ∧
        ∀ x, free_region map bits order x → pos ≤ x) (λ pos, Z.to_nat (bits - pos))
      (λ '(map', r), (free_region map bits order r ∧ (∀ x, free_region map bits order x → r ≤ x) ∧
          alen map' = alen map ∧ words map' ∧ ∀ x, 0 ≤ x → bit map' x =
            if (r <=? x) && (x <? r + 2 ^ order) then true else bit map x) ∨
        (map' = map ∧ r = - ENOMEM ∧ ∀ x, ¬ free_region map bits order x)) step fuel s0)
      as ([map' r] & -> & Hr) end.
  - intros pos ([Hpos Hpos'] & Hal & Hmin). rewrite s32_small by lia.
    destruct (Z.leb_spec (pos + 2 ^ order) bits) as [Hle|Hgt].
    + destruct (reg_isfree_spec pos order Ho Hpos Hal map Hw) as [[-> Hfree]|[-> (x & Hx & Hbx)]];
        rewrite ?Z.shiftl_1_l in *; [lia| |]; simpl.
      * destruct (reg_alloc_spec pos order Ho Hpos Hal map Hw) as (map' & -> & Hl & Hw' & Hb');
          rewrite ?Z.shiftl_1_l in *; [lia|]. simpl. eexists. split; [done|]. left.
        by repeat split.
      * eexists. split; [done|]. simpl. split; [|lia]. split; [lia|].
        split; [by apply Z.divide_add_r; [|exists 1; lia]|].
        intros y Hy. specialize (Hmin y Hy). destruct (decide (y = pos)) as [->|Hne].
        { destruct Hy as (_ & _ & _ & Hc). rewrite Hc in Hbx by lia. done. }
        destruct Hy as (_ & _ & [c ->] & _), Hal as [d ->]. assert (d < c) by nia. nia.
    + eexists. split; [done|]. right. split; [done|]. split; [done|]. intros x Hx.
      specialize (Hmin x Hx). destruct Hx as (_ & ? & _). lia.
  - split; [lia|]. split; [apply Z.divide_0_r|]. by intros x [].
  - lia.
  - destruct Hr as [(H1 & H2 & H3)|(-> & -> & H)]; [left|right].
    + by exists map', r.
    + done.
Qed.

Lemma bitmap_allocate_region_spec map pos order :
  words map → 0 ≤ pos → (2 ^ order | pos) → 0 ≤ order < 31 → pos + 2 ^ order ≤ 32 * alen map →
  (∃ map', bitmap_allocate_region map pos order = Some (map', 0) ∧
     (∀ x, pos ≤ x < pos + 2 ^ order → bit map x = false) ∧ alen map' = alen map ∧ words map' ∧
     ∀ x, 0 ≤ x → bit map' x =
       if (pos <=? x) && (x <? pos + 2 ^ order) then true else bit map x) ∨
  (bitmap_allocate_region map pos order = Some (map, - EBUSY) ∧
     ∃ x, pos ≤ x < pos + 2 ^ order ∧ bit map x = true).
Proof.
  intros Hw Hpos Hal Ho Hl. unfold bitmap_allocate_region.
  destruct (reg_isfree_spec pos order Ho Hpos Hal map Hw) as [[-> Hfree]|[-> Hx]];
    rewrite ?Z.shiftl_1_l in *; [lia| |]; simpl; [left|by right].
  destruct (reg_alloc_spec pos order Ho Hpos Hal map Hw) as (map' & -> & H);
    rewrite ?Z.shiftl_1_l in *; [lia|]. by exists map'.
Qed.

Lemma bitmap_release_region_spec map pos order :
  words map → 0 ≤ pos → (2 ^ order | pos) → 0 ≤ order < 31 → pos + 2 ^ order ≤ 32 * alen map →
  ∃ map', bitmap_release_region map pos order = Some map' ∧ alen map' = alen map ∧ words map' ∧
     ∀ x, 0 ≤ x → bit map' x =
       if (pos <=? x) && (x <? pos + 2 ^ order) then false else bit map x.
Proof.
  intros Hw Hpos Hal Ho Hl. unfold bitmap_release_region.
  destruct (reg_release_spec pos order Ho Hpos Hal map Hw) as (map' & -> & H);
    rewrite ?Z.shiftl_1_l in *; [lia|]. by exists map'.
Qed.

(** Two buffers of words with the same bits are equal. *)
Lemma bit_ext map map' :
  words map → words map' → alen map = alen map' →
  (∀ x, 0 ≤ x → bit map x = bit map' x) → map = map'.
Proof.
  intros Hw Hw' Hl Hb. apply arr_ext; [done|]. intros k Hk.
  destruct (arr_get_lt map k) as [v Hv]; [done|]. destruct (arr_get_lt map' k) as [w Hw2]; [lia|].
  rewrite Hv, Hw2. f_equal. apply (word_eq_bits 32); [by apply (Forall_arr_get _ map k)|by apply (Forall_arr_get _ map' k)|].
  intros j Hj. specialize (Hb (32 * k + j) ltac:(lia)).
  rewrite (bit_in_word map k v), (bit_in_word map' k w) in Hb by (done || lia).
  by replace (32 * k + j - 32 * k) with j in Hb by lia.
Qed.

(** ** Ordinals and remapping *)

Lemma rank_mono b n m : 0 ≤ n ≤ m → rank b n ≤ rank b m.
Proof.
  intros H. replace m with (n + (m - n)) by lia. rewrite rank_add by lia.
  pose proof (count_range (λ i, bit b (n + i)) (Z.to_nat (m - n))). lia.
Qed.

Lemma rank_succ b n : 0 ≤ n → rank b (n + 1) = rank b n + Z.b2z (bit b n).
Proof. intros Hn. rewrite rank_add by lia. simpl. by rewrite Z.add_0_r. Qed.

(** Skipping clear positions does not change the rank. *)
Lemma rank_skip b n m : 0 ≤ n ≤ m → (∀ i, n ≤ i < m → bit b i = false) → rank b m = rank b n.
Proof.
  intros Hnm H. replace m with (n + (m - n)) by lia. rewrite rank_add by lia.
  rewrite (count_false (λ i, bit b (n + i))); [lia|]. intros i Hi. apply H. lia.
Qed.

Lemma rank_0 b : rank b 0 = 0.
Proof. done. Qed.

(** A set position is determined by its rank. *)
Lemma rank_inj b i j : 0 ≤ i → 0 ≤ j → bit b i = true → bit b j = true → rank b i = rank b j → i = j.
Proof.
  intros Hi Hj Hbi Hbj Hr. destruct (Z.lt_trichotomy i j) as [H|[H|H]]; [|done|].
  - pose proof (rank_mono b (i + 1) j ltac:(lia)). rewrite rank_succ, Hbi in * by lia. simpl in *. lia.
  - pose proof (rank_mono b (j + 1) i ltac:(lia)). rewrite rank_succ, Hbj in * by lia. simpl in *. lia.
Qed.

Lemma bitmap_pos_to_ord_spec b pos bits :
  bits_in b bits →
  bitmap_pos_to_ord b pos bits =
    Some (if (0 <=? pos) && (pos <? bits) && bit b pos then rank b pos else -1).
Proof.
  intros Hb. unfold bitmap_pos_to_ord.
  destruct (Z.ltb_spec pos 0), (Z.leb_spec bits pos), (Z.leb_spec 0 pos), (Z.ltb_spec pos bits);
    simpl; try done; try lia.
  rewrite test_bit_spec by (destruct Hb; lia). simpl. destruct (bit b pos) eqn:Ep; [|done]. simpl.
  destruct (find_first_bit_spec b bits Hb) as (f & -> & Hf1 & Hf2 & Hf3). simpl.
  match goal with |- context [loop ?fuel ?step ?s0] =>
    destruct (loop_rule (λ '(i, ord), 0 ≤ i ≤ pos ∧ bit b i = true ∧ ord = rank b i)
      (λ '(i, _), Z.to_nat (pos - i)) (λ '(i, ord), i = pos ∧ ord = rank b pos) step fuel s0)
      as ([i ord] & -> & -> & ->) end.
  - intros [i ord] (Hi & Hbi & ->). destruct (Z.ltb_spec i pos).
    + destruct (find_next_bit_spec b bits (i + 1) Hb ltac:(lia)) as (i' & -> & _ & Hn).
      destruct (Hn ltac:(lia)) as (N1 & N2 & N3). simpl. eexists. split; [done|]. simpl.
      assert (i' ≤ pos). { destruct (decide (i' ≤ pos)); [done|]. rewrite N2 in Ep by lia. done. }
      split; [|lia]. split; [lia|]. split; [apply N3; lia|].
      rewrite (rank_skip b (i + 1) i'), rank_succ, Hbi by (done || lia). done.
    + eexists. split; [done|]. simpl. split; [lia|]. by replace i with pos by lia.
  - assert (f ≤ pos). { destruct (decide (f ≤ pos)); [done|]. rewrite Hf2 in Ep by lia. done. }
    split; [lia|]. split; [apply Hf3; lia|]. rewrite (rank_skip b 0 f) by (done || lia). done.
  - lia.
  - simpl. by rewrite Z.eqb_refl.
Qed.

Lemma bitmap_ord_to_pos_spec b ord bits :
  bits_in b bits →
  ∃ p, bitmap_ord_to_pos b ord bits = Some p ∧
    (0 ≤ ord < rank b bits → 0 ≤ p < bits ∧ bit b p = true ∧ rank b p = ord) ∧
    (¬ (0 ≤ ord < rank b bits) → p = 0).
Proof.
  intros Hb. assert (Hrk : rank b bits ≤ bits).
  { unfold rank. pose proof (count_range (bit b) (Z.to_nat bits)). destruct Hb; lia. }
  unfold bitmap_ord_to_pos.
  destruct (Z.leb_spec 0 ord), (Z.ltb_spec ord bits); simpl;
    try (exists 0; split; [done|]; split; intros; [lia|done]).
  destruct (find_first_bit_spec b bits Hb) as (f & -> & Hf1 & Hf2 & Hf3). simpl.
  match goal with |- context [loop ?fuel ?step ?s0] =>
    destruct (loop_rule (λ '(i, o), 0 ≤ i ≤ bits ∧ 0 ≤ o ∧ (i < bits → bit b i = true) ∧
        rank b i + o = ord) (λ '(i, _), Z.to_nat (bits - i))
      (λ '(i, o), 0 ≤ i ≤ bits ∧ 0 ≤ o ∧ (i < bits → bit b i = true ∧ o = 0) ∧
        rank b i + o = ord) step fuel s0) as ([i o] & -> & Hi & Ho & Hbi & Hr) end.
  - intros [i o] (Hi & Ho & Hbi & Hr). destruct (Z.ltb_spec i bits), (Z.ltb_spec 0 o); simpl.
    2-4: eexists; (split; [done|]); simpl; (split; [lia|]); (split; [lia|]); (split; [|lia]);
         intros; (split; [by apply Hbi|lia]).
    destruct (find_next_bit_spec b bits (i + 1) Hb ltac:(lia)) as (i' & -> & _ & Hn).
    destruct (Hn ltac:(lia)) as (N1 & N2 & N3). simpl. eexists. split; [done|]. simpl.
    split; [|lia]. split; [lia|]. split; [lia|]. split; [done|].
    rewrite (rank_skip b (i + 1) i'), rank_succ, (Hbi ltac:(lia)) by (done || lia). simpl. lia.
  - split; [lia|]. split; [lia|]. split; [done|]. rewrite (rank_skip b 0 f) by (done || lia). done.
  - lia.
  - simpl. eexists. split; [done|]. destruct (Z.ltb_spec i bits) as [Hlt|Hge]; simpl.
    + destruct (Hbi Hlt) as [Hb1 ->]. rewrite Z.eqb_refl.
      split; [intros; split; [lia|split; [done|lia]]|]. intros Hn. exfalso. apply Hn.
      pose proof (rank_mono b (i + 1) bits ltac:(lia)) as Hmono.
      rewrite rank_succ, Hb1 in Hmono by lia. simpl in Hmono. lia.
    + assert (i = bits) as -> by lia. split; [lia|done].
Qed.

(** Where [bitmap_bitremap] sends a position. *)
Lemma bitmap_bitremap_spec x old new bits :
  bits_in old bits → bits_in new bits → 0 ≤ x < bits →
  ∃ y, bitmap_bitremap x old new bits = Some y ∧ 0 ≤ y < bits ∧
    (if bit old x && (0 <? rank new bits)
     then bit new y = true ∧ rank new y = rank old x mod rank new bits
     else y = x).
Proof.
  intros Ho Hn Hx. unfold bitmap_bitremap.
  rewrite __bitmap_weight_spec, bitmap_pos_to_ord_spec by done. simpl.
  destruct (Z.leb_spec 0 x), (Z.ltb_spec x bits); try lia. simpl.
  pose proof (count_range (bit new) (Z.to_nat bits)) as Hc. fold (rank new bits) in Hc.
  pose proof (count_range (bit old) (Z.to_nat x)) as Hc'. fold (rank old x) in Hc'.
  destruct (bit old x); simpl; [|by exists x].
  destruct (Z.ltb_spec (rank old x) 0); [lia|]. simpl.
  destruct (Z.eqb_spec (rank new bits) 0) as [E|E], (Z.ltb_spec 0 (rank new bits)); try lia; [by exists x|].
  pose proof (Z.mod_pos_bound (rank old x) (rank new bits) ltac:(lia)) as Hmod.
  destruct (bitmap_ord_to_pos_spec new (rank old x mod rank new bits) bits Hn) as (p & -> & Hp & _).
  exists p. destruct (Hp ltac:(lia)) as (? & ? & ?). by split.
Qed.

Lemma for_each_set_bit_rule {S} (I : Z → S → Prop) b size body (s : S) :
  bits_in b size → I 0 s →
  (∀ i j s, 0 ≤ i ≤ j → j ≤ size → (∀ k, i ≤ k < j → bit b k = false) → I i s → I j s) →
  (∀ i s, 0 ≤ i < size → bit b i = true → I i s → ∃ s', body i s = Some s' ∧ I (i + 1) s') →
  ∃ s', for_each_set_bit b size body s = Some s' ∧ I size s'.
Proof.
  intros Hb HI Hskip Hbody. unfold for_each_set_bit.
  destruct (find_first_bit_spec b size Hb) as (f & -> & Hf1 & Hf2 & Hf3). simpl.
  apply (loop_rule (λ '(i, s), 0 ≤ i ≤ size ∧ (i < size → bit b i = true) ∧ I i s)
    (λ '(i, _), Z.to_nat (size - i))).
  - intros [i t] (Hi & Hbi & HIi). destruct (Z.ltb_spec i size).
    + destruct (Hbody i t) as (t' & -> & HI'); [lia|by apply Hbi|done|]. simpl.
      destruct (find_next_bit_spec b size (i + 1) Hb ltac:(lia)) as (i' & -> & _ & Hn).
      destruct (Hn ltac:(lia)) as (N1 & N2 & N3). simpl. eexists. split; [done|]. simpl.
      split; [|lia]. split; [lia|]. split; [done|]. by apply (Hskip (i + 1) i'); [lia|lia| |].
    + eexists. split; [done|]. simpl. by replace size with i by lia.
  - split; [lia|]. split; [done|]. by apply (Hskip 0 f); [lia|lia| |].
  - lia.
Qed.

Lemma bitmap_zero_spec dst bits :
  bits_in dst bits →
  ∃ dst', bitmap_zero dst bits = Some dst' ∧ alen dst' = alen dst ∧ words dst' ∧
    ∀ i, 0 ≤ i → bit dst' i = if i <? 32 * BITS_TO_LONGS bits then false else bit dst i.
Proof.
  intros Hd. pose proof (longs_fit dst bits Hd) as Hfit. unfold bitmap_zero.
  destruct (zero_words_spec dst 0 (BITS_TO_LONGS bits)) as (dst' & -> & Hl & Hj); [lia..|].
  assert (Hj' : ∀ j, 0 ≤ j → dst'.[j] = if j <? BITS_TO_LONGS bits then Some 0 else dst.[j]).
  { intros j H0. rewrite Hj by done. by destruct (Z.leb_spec 0 j); [|lia]. }
  exists dst'. split; [done|]. split; [done|]. split.
  - eapply (words_filled dst dst' _ (λ _, 0)); [by destruct Hd|done| |done]. intros; unfold urange; lia.
  - intros i Hi. rewrite (bit_filled dst dst' _ (λ _, 0) i Hj' Hi).
    by destruct (i <? _); [rewrite Z.bits_0|].
Qed.

(** The destination holds exactly the images [f x] of the positions [x] below
    [n] that satisfy [P]; beyond the words of the map it is unchanged. *)
Definition image_of (dst dst' : list Z) (bits : Z) (P : Z → bool) (f : Z → Z) (n : Z) : Prop :=
  alen dst' = alen dst ∧ words dst' ∧
  (∀ y, 0 ≤ y < 32 * BITS_TO_LONGS bits →
     bit dst' y = true ↔ ∃ x, 0 ≤ x < n ∧ P x = true ∧ f x = y) ∧
  (∀ y, 32 * BITS_TO_LONGS bits ≤ y → bit dst' y = bit dst y).

Lemma image_of_skip dst dst' bits P f i j :
  0 ≤ i ≤ j → (∀ k, i ≤ k < j → P k = false) →
  image_of dst dst' bits P f i → image_of dst dst' bits P f j.
Proof.
  intros Hij Hk (Hl & Hw & H1 & H2). split; [done|]. split; [done|]. split; [|done].
  intros y Hy. rewrite H1 by done. split; intros (x & Hx & HP & Hf); exists x.
  - split; [lia|done].
  - destruct (decide (x < i)); [split; [lia|done]|]. rewrite Hk in HP by lia. done.
Qed.

Lemma image_of_set dst dst1 bits P f n :
  bits_in dst bits → image_of dst dst1 bits P f n → 0 ≤ n → P n = true → 0 ≤ f n < bits →
  ∃ dst', __set_bit (f n) dst1 = Some dst' ∧ image_of dst dst' bits P f (n + 1).
Proof.
  intros Hd (Hl & Hw & H1 & H2) Hn HP Hf. pose proof (BITS_TO_LONGS_bounds bits ltac:(lia)).
  destruct (__set_bit_spec (f n) dst1 Hw) as (d2 & -> & Hl2 & Hw2 & Hb2); [destruct Hd; lia|].
  exists d2. split; [done|]. split; [lia|]. split; [done|]. split.
  - intros y Hy. rewrite Hb2, orb_true_iff, H1, Z.eqb_eq by lia. split.
    + intros [->|(x & Hx & HPx & Hfx)]; [exists n; split; [lia|done]|exists x; split; [lia|done]].
    + intros (x & Hx & HPx & Hfx). destruct (decide (x = n)) as [->|]; [by left|].
      right. exists x. split; [lia|done].
  - intros y Hy. rewrite Hb2 by lia. destruct (Z.eqb_spec y (f n)); [lia|]. by apply H2.
Qed.

Lemma image_of_keep dst dst1 bits P f n :
  image_of dst dst1 bits P f n → 0 ≤ n → P n = false → image_of dst dst1 bits P f (n + 1).
Proof.
  intros H Hn HP. apply (image_of_skip _ _ _ _ _ n); [lia| |done]. intros k Hk. by replace k with n by lia.
Qed.

Lemma image_of_zero dst bits P f :
  bits_in dst bits → ∃ dst', bitmap_zero dst bits = Some dst' ∧ image_of dst dst' bits P f 0.
Proof.
  intros Hd. destruct (bitmap_zero_spec dst bits Hd) as (d & -> & Hl & Hw & Hb).
  exists d. split; [done|]. split; [done|]. split; [done|]. split.
  - intros y Hy. rewrite Hb by lia. destruct (Z.ltb_spec y (32 * BITS_TO_LONGS bits)); [|lia].
    split; [done|]. intros (x & Hx & _). lia.
  - intros y Hy. assert (0 ≤ bits) by (destruct Hd; lia).
    pose proof (BITS_TO_LONGS_bounds bits ltac:(lia)). rewrite Hb by lia.
    by destruct (Z.ltb_spec y (32 * BITS_TO_LONGS bits)); [lia|].
Qed.

Lemma bitmap_remap_spec dst src old new bits :
  bits_in dst bits → bits_in src bits → bits_in old bits → bits_in new bits →
  ∃ dst', bitmap_remap dst (Some src) old new bits = Some dst' ∧
    image_of dst dst' bits (bit src) (λ x, default 0 (bitmap_bitremap x old new bits)) bits.
Proof.
  intros Hd Hs Ho Hn. unfold bitmap_remap. set (f := λ x, default 0 (bitmap_bitremap x old new bits)).
  destruct (image_of_zero dst bits (bit src) f Hd) as (d0 & -> & H0). simpl.
  rewrite __bitmap_weight_spec by done. simpl.
  apply (for_each_set_bit_rule (λ n d, image_of dst d bits (bit src) f n)); [done|done| |].
  { intros i j d Hij Hj Hk. by apply image_of_skip. }
  intros x d Hx Hbx Him. destruct (bitmap_bitremap_spec x old new bits Ho Hn Hx) as (y & Hy & Hyr & _).
  destruct (image_of_set dst d bits (bit src) f x) as (d' & Hset & Him'); try done; [lia|unfold f; by rewrite Hy|].
  exists d'. split; [|done]. rewrite <- Hset. unfold f. rewrite Hy. simpl.
  unfold bitmap_bitremap in Hy. rewrite __bitmap_weight_spec in Hy by done. simpl in Hy.
  destruct (bitmap_pos_to_ord old x bits) as [n|]; [|done]. simpl in *.
  destruct ((n <? 0) || (rank new bits =? 0)); [by simplify_eq|]. by rewrite Hy.
Qed.

Lemma bitmap_onto_spec dst orig relmap bits :
  bits_in dst bits → bits_in orig bits → bits_in relmap bits →
  ∃ dst', bitmap_onto dst (Some orig) relmap bits = Some dst' ∧
    image_of dst dst' bits (λ n, bit relmap n && bit orig (rank relmap n)) (λ n, n) bits.
Proof.
  intros Hd Ho Hr. unfold bitmap_onto. set (P := λ n, bit relmap n && bit orig (rank relmap n)).
  destruct (image_of_zero dst bits P (λ n, n) Hd) as (d0 & -> & H0). simpl.
  match goal with |- context [for_each_set_bit relmap bits ?body _] =>
    destruct (for_each_set_bit_rule (λ n '(d, m), image_of dst d bits P (λ n, n) n ∧ m = rank relmap n)
      relmap bits body (d0, 0)) as ([d m] & -> & Him & _) end; [done|done| | |].
  - intros i j [d m] Hij Hj Hk [Him ->]. split; [|by rewrite (rank_skip _ i j)].
    eapply image_of_skip; [done| |done]. intros k Hk'. unfold P. by rewrite Hk.
  - intros n [d m] Hn Hbn [Him ->].
    pose proof (count_range (bit relmap) (Z.to_nat n)) as Hc. fold (rank relmap n) in Hc.
    rewrite test_bit_spec by (destruct Ho as (_ & ? & _); lia). simpl.
    destruct (bit orig (rank relmap n)) eqn:Eo.
    + destruct (image_of_set dst d bits P (λ n, n) n) as (d' & -> & Him');
        [done|done|lia|unfold P; by rewrite Hbn, Eo|lia|].
      simpl. eexists. split; [done|]. split; [done|]. rewrite rank_succ, Hbn by lia. done.
    + simpl. eexists. split; [done|]. split.
      * apply image_of_keep; [done|lia|]. unfold P. by rewrite Eo, andb_false_r.
      * rewrite rank_succ, Hbn by lia. done.
  - simpl. by exists d.
Qed.

Lemma bitmap_fold_spec dst orig sz bits :
  bits_in dst bits → bits_in orig bits → 0 < sz →
  ∃ dst', bitmap_fold dst (Some orig) sz bits = Some dst' ∧
    image_of dst dst' bits (bit orig) (λ x, x mod sz) bits.
Proof.
  intros Hd Ho Hsz. unfold bitmap_fold.
  destruct (image_of_zero dst bits (bit orig) (λ x, x mod sz) Hd) as (d0 & -> & H0). simpl.
  apply (for_each_set_bit_rule (λ n d, image_of dst d bits (bit orig) (λ x, x mod sz) n)); [done|done| |].
  { intros i j d Hij Hj Hk. by apply image_of_skip. }
  intros x d Hx Hbx Him. apply (image_of_set dst d bits (bit orig) (λ x, x mod sz) x); try done; [lia|].
  pose proof (Z.mod_pos_bound x sz Hsz). pose proof (Z.mod_le x sz ltac:(lia) Hsz). lia.
Qed.
