(* ===== verification/BitTheorems.v ===== *)
(** * Bit operations and bitmaps: the theorems

    The contracts of the bit searches, population counts, bitmap operations and the
    region allocator, collected from the lemmas of [Bitops], [FindBit] and
    [BitmapFacts], on the abstract view of a bitmap as a set of positions. *)
From S2P Require Import Prelude Bitops FindBit Bitmap BitmapFacts.
#[local] Open Scope Z_scope.
#[local] Open Scope kernel_scope.

(** Decidable side conditions of the witnesses. *)
Definition bits_in_b (addr : list Z) (size : Z) : bool :=
  forallb (λ w, (0 <=? w) && (w <? 4294967296)) addr && (0 <=? size) && (size <=? 32 * alen addr) &&
  (size <? 4294967296).

Lemma words_b addr : forallb (λ w, (0 <=? w) && (w <? 4294967296)) addr = true → words addr.
Proof.
  intros HF. rewrite forallb_forall in HF. apply List.Forall_forall. intros w [H1 H2]%HF%andb_true_iff.
  unfold urange. lia.
Qed.

Lemma bits_in_b_ok addr size : bits_in_b addr size = true → bits_in addr size.
Proof.
  unfold bits_in_b. rewrite !andb_true_iff. intros [[[Hw H1] H2] H3].
  split; [by apply words_b|]. lia.
Qed.

Definition wm1 : list Z := [0xf0f; 0x80000001].
Definition wm2 : list Z := [0xffffffff; 0x3].
Definition wm3 : list Z := [0; 0].

(** ** Words *)

(** On every 32-bit word, [__ffs] is the lowest and [__fls] the highest set
    bit when there is one, [ffz] the lowest clear bit when there is one, and [fls]
    the number of bits the word needs: zero for zero, otherwise one more than
    [__fls]. *)
Theorem bit_search_correct w : ulong w →
  (w ≠ 0 → lowest_bit w (__ffs w) ∧ highest_bit 32 w (__fls w) ∧ fls w = __fls w + 1) ∧
  (w ≠ ULONG_MAX → 0 ≤ ffz w < 32 ∧ Z.testbit w (ffz w) = false ∧ ∀ j, 0 ≤ j < ffz w → Z.testbit w j = true) ∧
  fls 0 = 0.
Proof.
  intros Hw. split; [|split; [|done]].
  - intros Hne. destruct (__ffs_spec w Hw Hne) as [Hl _]. pose proof (__fls_spec w Hw Hne) as Hh.
    split; [done|]. split; [done|]. destruct (fls_spec w) as (H1 & H2 & H3). rewrite (uwrap_small 32 w Hw) in *.
    specialize (H3 Hne). destruct Hh as (Hr & Ht & Hhi).
    assert (Hp : fls w ≠ 0) by (intros E0; rewrite E0 in H1; unfold urange in H1; change (2 ^ 0) with 1 in H1; unfold urange in Hw; lia).
    assert (__fls w < fls w).
    { apply Z.nle_gt. intros Hle. rewrite (urange_testbit_high (fls w) w) in Ht by (done || lia). done. }
    destruct (decide (fls w = __fls w + 1)); [done|].
    assert (Hlt : w < 2 ^ (fls w - 1)); [|lia].
    assert (Hu : urange (fls w - 1) w); [|unfold urange in Hu; lia].
    apply urange_of_bits; [lia|unfold urange in Hw; lia|]. intros i Hi. destruct (decide (i < 32)).
    + apply Hhi. lia.
    + by apply (urange_testbit_high 32); [|lia].
  - intros Hne. unfold ffz. assert (Hc : ulong (lnot_ul w)) by (apply urange_unot; lia).
    assert (Hn0 : lnot_ul w ≠ 0) by (intros E; apply Hne, (unot_zero_iff 32 w); [lia|done|done]).
    destruct (__ffs_spec _ Hc Hn0) as [(H0 & Ht & Hj) H32]. split; [lia|].
    rewrite testbit_unot in Ht by lia. apply andb_true_iff in Ht as [_ Ht]. split; [by destruct (Z.testbit w _)|].
    intros j Hjr. specialize (Hj j Hjr). rewrite testbit_unot in Hj by lia.
    destruct (Z.ltb_spec j 32); [|lia]. by destruct (Z.testbit w j).
Qed.

Lemma bit_search_correct_witness : ulong 0xf0 ∧ lowest_bit 0xf0 4 ∧ highest_bit 32 0xf0 7.
Proof.
  assert (Hw : ulong 0xf0) by (unfold urange; lia). split; [exact Hw|].
  destruct (bit_search_correct 0xf0 Hw) as [H _]. destruct H as (H1 & H2 & _); [discriminate|].
  split; [exact H1|exact H2].
Defined.

(** The population counts by parallel addition of bit fields equal the number
    of set bits, at each of the four widths. *)
Theorem hweight_correct w :
  (urange 8 w → __sw_hweight8 w = popcount 8 w) ∧ (urange 16 w → __sw_hweight16 w = popcount 16 w) ∧
  (urange 32 w → __sw_hweight32 w = popcount 32 w ∧ hweight_long w = popcount 32 w) ∧
  (urange 64 w → __sw_hweight64 w = popcount 64 w).
Proof.
  split; [apply __sw_hweight8_popcount|]. split; [apply __sw_hweight16_popcount|].
  split; [|apply __sw_hweight64_popcount]. intros Hw. unfold hweight_long. by rewrite __sw_hweight32_popcount.
Qed.

(** The words [f] writes in the read-modify-write operations. *)
Lemma testbit_lor_mask nr w j : 0 ≤ j → Z.testbit (Z.lor w (BIT_MASK nr)) j =
  if j =? nr mod 32 then true else Z.testbit w j.
Proof. intros. rewrite Z.lor_spec, BIT_MASK_testbit by lia. destruct (_ =? _); [apply orb_true_r|apply orb_false_r]. Qed.
Lemma testbit_land_mask nr w j : 0 ≤ j < 32 → Z.testbit (Z.land w (lnot_ul (BIT_MASK nr))) j =
  if j =? nr mod 32 then false else Z.testbit w j.
Proof.
  intros. rewrite Z.land_spec, testbit_unot, BIT_MASK_testbit by lia. destruct (Z.ltb_spec j 32); [|lia].
  destruct (_ =? _); simpl; [apply andb_false_r|apply andb_true_r].
Qed.
Lemma testbit_lxor_mask nr w j : 0 ≤ j → Z.testbit (Z.lxor w (BIT_MASK nr)) j =
  if j =? nr mod 32 then negb (Z.testbit w j) else Z.testbit w j.
Proof.
  intros. rewrite Z.lxor_spec, BIT_MASK_testbit by lia.
  destruct (_ =? _); [apply xorb_true_r|apply xorb_false_r].
Qed.

(** The single-bit operations on an array of longs: inside the array they
    read and change exactly the bit at the given position, and the test-and-set
    and test-and-clear variants return its old value. *)
Theorem bit_ops_correct nr map : words map → 0 ≤ nr < 32 * alen map →
  test_bit nr map = Some (bit map nr) ∧
  (∃ m', __set_bit nr map = Some m' ∧ __test_and_set_bit nr map = Some (m', bit map nr) ∧
     ∀ i, 0 ≤ i → bit m' i = if i =? nr then true else bit map i) ∧
  (∃ m', __clear_bit nr map = Some m' ∧ __test_and_clear_bit nr map = Some (m', bit map nr) ∧
     ∀ i, 0 ≤ i → bit m' i = if i =? nr then false else bit map i) ∧
  (∃ m', __change_bit nr map = Some m' ∧
     ∀ i, 0 ≤ i → bit m' i = if i =? nr then negb (bit map i) else bit map i).
Proof.
  intros Hm Hnr. split; [by apply test_bit_spec|]. split; [|split].
  - destruct (rmw_bit_spec (λ w, Z.lor w (BIT_MASK nr)) (λ _, true) nr map)
      as (w & m' & Hw & Hs & Hb & _ & _ & _ & Hi); [intros; apply testbit_lor_mask; lia|auto with word|done|done|].
    exists m'. unfold __set_bit, __test_and_set_bit. rewrite Hw. cbn [mbind option_bind]. rewrite Hs.
    cbn [mbind option_bind]. by rewrite land_BIT_MASK_ctrue, Hb.
  - destruct (rmw_bit_spec (λ w, Z.land w (lnot_ul (BIT_MASK nr))) (λ _, false) nr map)
      as (w & m' & Hw & Hs & Hb & _ & _ & _ & Hi); [intros; by apply testbit_land_mask|auto with word|done|done|].
    exists m'. unfold __clear_bit, __test_and_clear_bit. rewrite Hw. cbn [mbind option_bind]. rewrite Hs.
    cbn [mbind option_bind]. by rewrite land_BIT_MASK_ctrue, Hb.
  - destruct (rmw_bit_spec (λ w, Z.lxor w (BIT_MASK nr)) negb nr map)
      as (w & m' & Hw & Hs & Hb & _ & _ & _ & Hi); [intros; apply testbit_lxor_mask; lia| |done|done|].
    { intros. apply urange_lxor; [lia|done|apply ulong_BIT_MASK]. }
    exists m'. unfold __change_bit. rewrite Hw. cbn [mbind option_bind]. by rewrite Hs.
Qed.

Lemma bit_ops_correct_witness : words wm1 ∧ test_bit 63 wm1 = Some true.
Proof.
  assert (Hw : words wm1) by (apply words_b; reflexivity). split; [exact Hw|].
  destruct (bit_ops_correct 63 wm1 Hw) as [E _]; [change (alen wm1) with 2; lia|]. exact E.
Defined.

(** ** Searches *)

(** The searches in a bitmap terminate, never read outside the words of the
    map, and return what they promise: the next or first set (or clear) bit at or
    after the start, the last set bit, and the size when there is none. *)
Theorem find_bit_correct addr size offset : bits_in addr size → 0 ≤ offset →
  (∃ r, find_next_bit addr size offset = Some r ∧ (size ≤ offset → r = size) ∧
     (offset ≤ size → first_in (bit addr) offset size r)) ∧
  (∃ r, find_next_zero_bit addr size offset = Some r ∧ (size ≤ offset → r = size) ∧
     (offset ≤ size → first_in (λ i, negb (bit addr i)) offset size r)) ∧
  (∃ r, find_first_bit addr size = Some r ∧ first_in (bit addr) 0 size r) ∧
  (∃ r, find_first_zero_bit addr size = Some r ∧ first_in (λ i, negb (bit addr i)) 0 size r) ∧
  (∃ r, find_last_bit addr size = Some r ∧ last_in (bit addr) size r).
Proof.
  intros Hb Ho. split; [by apply find_next_bit_spec|]. split; [by apply find_next_zero_bit_spec|].
  split; [by apply find_first_bit_spec|]. split; [by apply find_first_zero_bit_spec|by apply find_last_bit_spec].
Qed.

Lemma find_bit_correct_witness : bits_in wm1 64 ∧ ∃ r, find_next_bit wm1 64 12 = Some r ∧ first_in (bit wm1) 12 64 r.
Proof.
  assert (Hb : bits_in wm1 64) by (apply bits_in_b_ok; reflexivity). split; [exact Hb|].
  destruct (find_bit_correct wm1 64 12 Hb) as [(r & E & _ & F) _]; [lia|].
  exists r. split; [exact E|]. apply F. lia.
Defined.

(** C40: [bitmap_find_next_zero_area] returns the lowest area of [nr] clear bits
    at or after [start] whose start is aligned, and a value beyond the map when
    there is none; with the sizes bounded it always terminates. *)
Theorem find_zero_area_correct map size start nr a :
  bits_in map size → 0 ≤ a < 32 → 0 ≤ start → 0 < nr → size + 2 ^ a + nr < 2 ^ 32 →
  ∃ r, bitmap_find_next_zero_area map size start nr (2 ^ a - 1) = Some r ∧
    ((start ≤ r ∧ free_area map size nr a r ∧ ∀ x, start ≤ x → free_area map size nr a x → r ≤ x) ∨
     (size < r ∧ ∀ x, start ≤ x → ¬ free_area map size nr a x)).
Proof. apply bitmap_find_next_zero_area_spec. Qed.

Lemma find_zero_area_correct_witness :
  bits_in wm1 64 ∧ ∃ r, bitmap_find_next_zero_area wm1 64 1 5 3 = Some r.
Proof.
  assert (Hb : bits_in wm1 64) by (apply bits_in_b_ok; reflexivity). split; [exact Hb|].
  destruct (find_zero_area_correct wm1 64 1 5 2 Hb) as (r & E & _); [lia|lia|lia|reflexivity|].
  exists r. exact E.
Defined.

(** ** Whole bitmaps *)

(** [bitmap_set] and [bitmap_clear] set and clear exactly the bits of a range,
    whatever its alignment to words, and keep every other bit. *)
Theorem bitmap_range_correct map start nr :
  words map → 0 ≤ start → 0 ≤ nr → start + nr ≤ 32 * alen map →
  (∃ m', bitmap_set map start nr = Some m' ∧ alen m' = alen map ∧ words m' ∧
     ∀ i, 0 ≤ i → bit m' i = if (start <=? i) && (i <? start + nr) then true else bit map i) ∧
  (∃ m', bitmap_clear map start nr = Some m' ∧ alen m' = alen map ∧ words m' ∧
     ∀ i, 0 ≤ i → bit m' i = if (start <=? i) && (i <? start + nr) then false else bit map i).
Proof. intros. split; [by apply bitmap_set_spec|by apply bitmap_clear_spec]. Qed.

Lemma bitmap_range_correct_witness : words wm1 ∧ ∃ m', bitmap_set wm1 5 40 = Some m' ∧ bit m' 44 = true.
Proof.
  assert (Hw : words wm1) by (apply words_b; reflexivity). split; [exact Hw|].
  destruct (bitmap_range_correct wm1 5 40 Hw) as [(m' & E & _ & _ & Hb) _]; [lia|lia|change (alen wm1) with 2; lia|].
  exists m'. split; [exact E|]. rewrite Hb by lia. reflexivity.
Defined.

(** The logical operations on bitmaps, with either operand possibly the
    destination itself, compute the operation on every bit of the words of the map
    (the complement clears the bits beyond the size) and leave the rest alone. *)
Theorem bitmap_logic_correct dst b1 b2 bits :
  bits_in dst bits → bits_in (operand dst b1) bits → bits_in (operand dst b2) bits →
  let n := 32 * BITS_TO_LONGS bits in
  (∃ d r, __bitmap_and dst b1 b2 bits = Some (d, r) ∧ ∀ i, 0 ≤ i → bit d i =
     if i <? n then bit (operand dst b1) i && bit (operand dst b2) i else bit dst i) ∧
  (∃ d, __bitmap_or dst b1 b2 bits = Some d ∧ ∀ i, 0 ≤ i → bit d i =
     if i <? n then bit (operand dst b1) i || bit (operand dst b2) i else bit dst i) ∧
  (∃ d, __bitmap_xor dst b1 b2 bits = Some d ∧ ∀ i, 0 ≤ i → bit d i =
     if i <? n then xorb (bit (operand dst b1) i) (bit (operand dst b2) i) else bit dst i) ∧
  (∃ d r, __bitmap_andnot dst b1 b2 bits = Some (d, r) ∧ ∀ i, 0 ≤ i → bit d i =
     if i <? n then bit (operand dst b1) i && negb (bit (operand dst b2) i) else bit dst i) ∧
  (∃ d, __bitmap_complement dst b1 bits = Some d ∧ ∀ i, 0 ≤ i → bit d i =
     if i <? n then (i <? bits) && negb (bit (operand dst b1) i) else bit dst i).
Proof.
  intros Hd H1 H2 n. split; [|split; [|split; [|split]]].
  - destruct (__bitmap_and_spec dst b1 b2 bits Hd H1 H2) as (d & r & E & _ & _ & Hb & _). eauto.
  - destruct (__bitmap_or_spec dst b1 b2 bits Hd H1 H2) as (d & E & _ & _ & Hb). eauto.
  - destruct (__bitmap_xor_spec dst b1 b2 bits Hd H1 H2) as (d & E & _ & _ & Hb). eauto.
  - destruct (__bitmap_andnot_spec dst b1 b2 bits Hd H1 H2) as (d & r & E & _ & _ & Hb & _). eauto.
  - destruct (__bitmap_complement_spec dst b1 bits Hd H1) as (d & E & _ & _ & Hb). eauto.
Qed.

Lemma bitmap_logic_correct_witness :
  bits_in wm1 40 ∧ ∃ d r, __bitmap_and wm1 None (Some wm2) 40 = Some (d, r) ∧ bit d 32 = true.
Proof.
  assert (H1 : bits_in wm1 40) by (apply bits_in_b_ok; reflexivity).
  assert (H2 : bits_in wm2 40) by (apply bits_in_b_ok; reflexivity). split; [exact H1|].
  destruct (bitmap_logic_correct wm1 None (Some wm2) 40 H1 H1 H2) as [(d & r & E & Hb) _].
  exists d, r. split; [exact E|]. rewrite Hb by lia. reflexivity.
Defined.

(** The shifts of bitmaps by any number of bits, also in place, move every
    bit of the map by the shift and fill with zeroes. *)
Theorem bitmap_shift_correct dst src shift bits :
  bits_in dst bits → bits_in (operand dst src) bits → 0 ≤ shift → shift / 32 ≤ BITS_TO_LONGS bits →
  (∃ d, __bitmap_shift_right dst src shift bits = Some d ∧ alen d = alen dst ∧ ∀ i, 0 ≤ i → bit d i =
     if i <? 32 * BITS_TO_LONGS bits then (i + shift <? bits) && bit (operand dst src) (i + shift) else bit dst i) ∧
  (∃ d, __bitmap_shift_left dst src shift bits = Some d ∧ alen d = alen dst ∧ ∀ i, 0 ≤ i → bit d i =
     if i <? 32 * BITS_TO_LONGS bits
     then (i <? bits) && (shift <=? i) && bit (operand dst src) (i - shift) else bit dst i).
Proof.
  intros. split; [by apply __bitmap_shift_right_spec|].
  destruct (__bitmap_shift_left_spec dst src shift bits) as (d & E & Hl & _ & Hb); [done..|]. by exists d.
Qed.

Lemma bitmap_shift_correct_witness :
  bits_in wm1 50 ∧ ∃ d, __bitmap_shift_left wm1 None 35 50 = Some d ∧ bit d 35 = true.
Proof.
  assert (H1 : bits_in wm1 50) by (apply bits_in_b_ok; reflexivity). split; [exact H1|].
  destruct (bitmap_shift_correct wm1 None 35 50 H1 H1) as [_ (d & E & _ & Hb)]; [lia|cbv; discriminate|].
  exists d. split; [exact E|]. rewrite Hb by lia. reflexivity.
Defined.

(** The tests on bitmaps decide emptiness, fullness, equality, intersection
    and inclusion of the first [bits] positions, and the weight is their number of
    set bits; bits beyond the size never matter. *)
Theorem bitmap_tests_correct b1 b2 bits : bits_in b1 bits → bits_in b2 bits →
  __bitmap_empty b1 bits = Some (cbool (forallb (λ i, negb (bit b1 i)) (seqZ 0 bits))) ∧
  __bitmap_full b1 bits = Some (cbool (forallb (bit b1) (seqZ 0 bits))) ∧
  __bitmap_equal b1 b2 bits = Some (cbool (forallb (λ i, eqb (bit b1 i) (bit b2 i)) (seqZ 0 bits))) ∧
  __bitmap_intersects b1 b2 bits = Some (cbool (negb (forallb (λ i, negb (bit b1 i && bit b2 i)) (seqZ 0 bits)))) ∧
  __bitmap_subset b1 b2 bits = Some (cbool (forallb (λ i, implb (bit b1 i) (bit b2 i)) (seqZ 0 bits))) ∧
  __bitmap_weight b1 bits = Some (rank b1 bits).
Proof.
  intros H1 H2.
  assert (HT : ∀ (P Q : Z → bool) (o : option Z) (yes no : Z), (∀ i, P i = negb (Q i)) →
    (o = Some no ∧ ∃ i, 0 ≤ i < bits ∧ P i = true) ∨ (o = Some yes ∧ ∀ i, 0 ≤ i < bits → P i = false) →
    o = Some (if forallb Q (seqZ 0 bits) then yes else no)).
  { intros P Q o yes no HPQ [(-> & i & Hi & HP)|(-> & HP)].
    - destruct (forallb Q (seqZ 0 bits)) eqn:E; [|done]. rewrite forallb_forall in E.
      rewrite HPQ, E in HP; [done|]. apply list_elem_of_In, elem_of_seqZ. lia.
    - destruct (forallb Q (seqZ 0 bits)) eqn:E; [done|].
      assert (forallb Q (seqZ 0 bits) = true); [|congruence]. apply forallb_forall. intros i Hi.
      apply list_elem_of_In, elem_of_seqZ in Hi. specialize (HP i ltac:(lia)). rewrite HPQ in HP. by destruct (Q i). }
  split; [|split; [|split; [|split; [|split]]]].
  - apply (HT (bit b1)); [intros; by rewrite negb_involutive|by apply __bitmap_empty_spec].
  - apply (HT (λ i, negb (bit b1 i))); [done|by apply __bitmap_full_spec].
  - apply (HT (λ i, xorb (bit b1 i) (bit b2 i))); [|by apply __bitmap_equal_spec].
    intros i. by destruct (bit b1 i), (bit b2 i).
  - assert (E := HT (λ i, bit b1 i && bit b2 i) (λ i, negb (bit b1 i && bit b2 i)) (__bitmap_intersects b1 b2 bits) 0 1).
    rewrite E; [by destruct (forallb _ _)|intros; by rewrite negb_involutive|by apply __bitmap_intersects_spec].
  - apply (HT (λ i, bit b1 i && negb (bit b2 i))); [|by apply __bitmap_subset_spec].
    intros i. by destruct (bit b1 i), (bit b2 i).
  - by apply __bitmap_weight_spec.
Qed.

Lemma bitmap_tests_correct_witness :
  bits_in wm1 33 ∧ __bitmap_subset wm1 wm2 33 = Some 1 ∧ __bitmap_weight wm1 33 = Some 9.
Proof.
  assert (H1 : bits_in wm1 33) by (apply bits_in_b_ok; reflexivity).
  assert (H2 : bits_in wm2 33) by (apply bits_in_b_ok; reflexivity). split; [exact H1|].
  destruct (bitmap_tests_correct wm1 wm2 33 H1 H2) as (_ & _ & _ & _ & E & F).
  split; [exact E|exact F].
Defined.

(** ** The region allocator *)

(** C35: The allocator of power-of-two regions: a search finds the lowest free
    aligned region and marks exactly its bits, or fails with [-ENOMEM] and the map
    unchanged when there is none; releasing the region restores the map as it was
    before. The search adds the size of a region to an [int] position, so the map ends
    below [2 ^ 31] bits by at least one region. *)
Theorem region_allocator_correct map bits order :
  words map → 0 ≤ bits ≤ 32 * alen map → 0 ≤ order < 31 → bits + 2 ^ order < 2 ^ 31 →
  (∃ map' pos, bitmap_find_free_region map bits order = Some (map', pos) ∧
     free_region map bits order pos ∧ (∀ x, free_region map bits order x → pos ≤ x) ∧
     (∀ x, 0 ≤ x → bit map' x = if (pos <=? x) && (x <? pos + 2 ^ order) then true else bit map x) ∧
     bitmap_release_region map' pos order = Some map) ∨
  (bitmap_find_free_region map bits order = Some (map, - ENOMEM) ∧ ∀ x, ¬ free_region map bits order x).
Proof.
  intros Hw Hb Ho Hfit. destruct (bitmap_find_free_region_spec map bits order Hw Hb Ho Hfit)
    as [(map' & pos & E & Hfree & Hmin & Hl & Hw' & Hb')|H]; [left|by right].
  exists map', pos. split; [done|]. split; [done|]. split; [done|]. split; [done|].
  destruct Hfree as (Hp0 & Hp1 & Hal & Hclr).
  destruct (bitmap_release_region_spec map' pos order) as (map2 & -> & Hl2 & Hw2 & Hb2); [done|done|done|done|lia|].
  f_equal. apply bit_ext; [done|done|congruence|]. intros x Hx. rewrite Hb2, Hb' by done.
  destruct (Z.leb_spec pos x), (Z.ltb_spec x (pos + 2 ^ order)); cbn [andb]; try done.
  symmetry. apply Hclr. lia.
Qed.

Lemma region_allocator_correct_witness :
  words wm1 ∧ ∃ map' pos, bitmap_find_free_region wm1 64 2 = Some (map', pos) ∧ pos = 4 ∧
    bitmap_release_region map' pos 2 = Some wm1.
Proof.
  assert (Hw : words wm1) by (apply words_b; reflexivity). split; [exact Hw|].
  destruct (region_allocator_correct wm1 64 2 Hw) as [(map' & pos & E & _ & _ & _ & R)|[E _]];
    [change (alen wm1) with 2; lia|lia|lia| |exfalso; revert E; vm_compute; discriminate].
  exists map', pos. split; [exact E|]. split; [|exact R].
  revert E. vm_compute. intros E. injection E as _ <-. reflexivity.
Defined.

(** [bitmap_allocate_region] claims an aligned region exactly when all its
    bits are clear, and otherwise returns [-EBUSY] with the map unchanged. *)
Theorem allocate_region_correct map pos order :
  words map → 0 ≤ pos → (2 ^ order | pos) → 0 ≤ order < 31 → pos + 2 ^ order ≤ 32 * alen map →
  (∃ map', bitmap_allocate_region map pos order = Some (map', 0) ∧
     (∀ x, pos ≤ x < pos + 2 ^ order → bit map x = false) ∧ alen map' = alen map ∧ words map' ∧
     ∀ x, 0 ≤ x → bit map' x = if (pos <=? x) && (x <? pos + 2 ^ order) then true else bit map x) ∨
  (bitmap_allocate_region map pos order = Some (map, - EBUSY) ∧
     ∃ x, pos ≤ x < pos + 2 ^ order ∧ bit map x = true).
Proof. apply bitmap_allocate_region_spec. Qed.

Lemma allocate_region_correct_witness :
  words wm1 ∧ (∃ map', bitmap_allocate_region wm1 4 2 = Some (map', 0)) ∧
  bitmap_allocate_region wm1 8 2 = Some (wm1, - EBUSY).
Proof.
  assert (Hw : words wm1) by (apply words_b; reflexivity). split; [exact Hw|]. split.
  - destruct (allocate_region_correct wm1 4 2 Hw) as [(map' & E & _)|[E _]];
      [lia|exists 1; reflexivity|lia|change (alen wm1) with 2; lia|exists map'; exact E|].
    exfalso. revert E. vm_compute. discriminate.
  - destruct (allocate_region_correct wm1 8 2 Hw) as [(map' & E & _)|[E _]];
      [lia|exists 2; reflexivity|lia|change (alen wm1) with 2; lia| |exact E].
    exfalso. revert E. vm_compute. discriminate.
Defined.

(** ** Remapping *)

(** Positions and ordinals of the set bits of a map correspond: [bitmap_pos_to_ord]
    gives the rank of a set bit and -1 for every other position, and
    [bitmap_ord_to_pos] is its inverse on the ordinals below the weight. *)
Theorem ordinals_correct b bits pos : bits_in b bits →
  bitmap_pos_to_ord b pos bits = Some (if (0 <=? pos) && (pos <? bits) && bit b pos then rank b pos else -1) ∧
  (0 ≤ pos < bits → bit b pos = true → bitmap_ord_to_pos b (rank b pos) bits = Some pos) ∧
  (∀ ord, 0 ≤ ord < rank b bits → ∃ p, bitmap_ord_to_pos b ord bits = Some p ∧
     bitmap_pos_to_ord b p bits = Some ord).
Proof.
  intros Hb. split; [by apply bitmap_pos_to_ord_spec|]. split.
  - intros Hp Hbit. destruct (bitmap_ord_to_pos_spec b (rank b pos) bits Hb) as (p & -> & Hin & _). f_equal.
    assert (Hr : rank b (pos + 1) ≤ rank b bits) by (apply rank_mono; lia).
    rewrite rank_succ, Hbit in Hr by lia. cbn in Hr.
    assert (0 ≤ rank b pos) by apply count_range.
    destruct Hin as (Hp' & Hbp & Hrk); [lia|]. apply (rank_inj b); (done || lia).
  - intros ord Ho. destruct (bitmap_ord_to_pos_spec b ord bits Hb) as (p & E & Hin & _). exists p.
    split; [done|]. destruct (Hin Ho) as (Hp & Hbp & Hrk). rewrite bitmap_pos_to_ord_spec by done.
    destruct (Z.leb_spec 0 p), (Z.ltb_spec p bits); try lia. by rewrite Hbp, Hrk.
Qed.

Lemma ordinals_correct_witness : bits_in wm1 64 ∧ bitmap_ord_to_pos wm1 (rank wm1 8) 64 = Some 8.
Proof.
  assert (Hb : bits_in wm1 64) by (apply bits_in_b_ok; reflexivity). split; [exact Hb|].
  destruct (ordinals_correct wm1 64 8 Hb) as (_ & H & _). apply H; [lia|reflexivity].
Defined.

(** The remapping operations write exactly the image of a set: [bitmap_remap]
    under the map of the n-th set bit of [old] to the n-th of [new] (cyclically, other
    positions fixed, as [bitmap_bitremap] does for one position), [bitmap_onto] the
    set bits of [relmap] whose ordinal is in [orig], [bitmap_fold] the positions
    modulo [sz]; bits beyond the words of the destination stay. *)
Theorem remap_correct dst src old new bits sz :
  bits_in dst bits → bits_in src bits → bits_in old bits → bits_in new bits → 0 < sz →
  (∀ x, 0 ≤ x < bits → ∃ y, bitmap_bitremap x old new bits = Some y ∧ 0 ≤ y < bits ∧
     if bit old x && (0 <? rank new bits)
     then bit new y = true ∧ rank new y = rank old x mod rank new bits else y = x) ∧
  (∃ d, bitmap_remap dst (Some src) old new bits = Some d ∧
     image_of dst d bits (bit src) (λ x, default 0 (bitmap_bitremap x old new bits)) bits) ∧
  (∃ d, bitmap_onto dst (Some src) old bits = Some d ∧
     image_of dst d bits (λ n, bit old n && bit src (rank old n)) (λ n, n) bits) ∧
  (∃ d, bitmap_fold dst (Some src) sz bits = Some d ∧ image_of dst d bits (bit src) (λ x, x mod sz) bits).
Proof.
  intros Hd Hs Ho Hn Hz. split; [intros x Hx; by apply bitmap_bitremap_spec|].
  split; [by apply bitmap_remap_spec|]. split; [by apply bitmap_onto_spec|by apply bitmap_fold_spec].
Qed.

Lemma remap_correct_witness :
  bits_in wm1 64 ∧ ∃ d, bitmap_remap wm3 (Some wm1) wm1 wm2 64 = Some d.
Proof.
  assert (H1 : bits_in wm1 64) by (apply bits_in_b_ok; reflexivity).
  assert (H2 : bits_in wm2 64) by (apply bits_in_b_ok; reflexivity).
  assert (H3 : bits_in wm3 64) by (apply bits_in_b_ok; reflexivity). split; [exact H1|].
  destruct (remap_correct wm3 wm1 wm1 wm2 64 5 H3 H1 H1 H2) as (_ & (d & E & _) & _); [lia|].
  exists d. exact E.
Defined.

(** The value [__bitmap_and] and [__bitmap_andnot] return depends on bits
    beyond the size of the map: here both maps have only bit 35 set, the
    intersection of their first 33 bits is empty as [__bitmap_intersects] says, and
    yet [__bitmap_and] returns true; likewise [__bitmap_andnot] although the first map is a
    subset of the second as [__bitmap_subset] says. *)
Theorem and_return_counts_tail :
  __bitmap_and [0; 0] (Some [0; 8]) (Some [0; 8]) 33 = Some ([0; 8], true) ∧
  __bitmap_intersects [0; 8] [0; 8] 33 = Some 0 ∧
  __bitmap_andnot [0; 0] (Some [0; 8]) (Some [0; 0]) 33 = Some ([0; 8], true) ∧
  __bitmap_subset [0; 8] [0; 0] 33 = Some 1.
Proof. split; [|split; [|split]]; reflexivity. Qed.
