(* ===== verification/Kfifo.v ===== *)
(** * The byte FIFO

    Models [kernel/kfifo.c] and [include/linux/kfifo.h]: the ring buffer with
    free-running 32-bit indices, the byte interface, the record interface with a
    one- or two-byte length header, and the user-space variants.  The memory
    barriers order accesses of other processors and have no counterpart in the
    sequential model. *)
From S2P Require Import Prelude Bitops.
#[local] Open Scope Z_scope.
#[local] Open Scope kernel_scope.

(** [buffer = None] is the null pointer. *)
Record kfifo := Kfifo { buffer : option (list Z); size : Z; in_ : Z; out : Z }.

Definition buf (f : kfifo) : list Z := default [] (buffer f).
Definition with_buf (f : kfifo) (b : list Z) : kfifo :=
  Kfifo (match buffer f with Some _ => Some b | None => None end) (size f) (in_ f) (out f).

Definition ENOMEM : Z := 12.
Definition EFAULT : Z := 14.

(** ** [log2.h] *)

Definition is_power_of_2 (n : Z) : bool := negb (n =? 0) && (Z.land n (u32 (n - 1)) =? 0).
Definition fls_long (l : Z) : Z := fls l.
Definition roundup_pow_of_two (n : Z) : Z := ushl 32 1 (fls_long (u32 (n - 1))).

(** ** Inline accessors *)

Definition kfifo_initialized (f : kfifo) : bool :=
  match buffer f with Some _ => true | None => false end.
Definition kfifo_reset (f : kfifo) : kfifo := Kfifo (buffer f) (size f) 0 0.
Definition kfifo_reset_out (f : kfifo) : kfifo := Kfifo (buffer f) (size f) (in_ f) (in_ f).
Definition kfifo_size (f : kfifo) : Z := size f.
Definition kfifo_len (f : kfifo) : Z := u32 (in_ f - out f).
Definition kfifo_is_empty (f : kfifo) : bool := in_ f =? out f.
Definition kfifo_is_full (f : kfifo) : bool := kfifo_len f =? kfifo_size f.
Definition kfifo_avail (f : kfifo) : Z := u32 (kfifo_size f - kfifo_len f).
Definition __kfifo_add_out (f : kfifo) (off : Z) : kfifo :=
  Kfifo (buffer f) (size f) (in_ f) (u32 (out f + off)).
Definition __kfifo_add_in (f : kfifo) (off : Z) : kfifo :=
  Kfifo (buffer f) (size f) (u32 (in_ f + off)) (out f).
Definition __kfifo_off (f : kfifo) (off : Z) : Z := Z.land off (u32 (size f - 1)).

(** ** Set-up *)

Definition _kfifo_init (b : option (list Z)) (sz : Z) : kfifo := kfifo_reset (Kfifo b sz 0 0).

(** [BUG_ON] stops the machine: [None]. *)
Definition kfifo_init (b : list Z) (sz : Z) : option kfifo :=
  if negb (is_power_of_2 sz) then None else Some (_kfifo_init (Some b) sz).

(** [kmalloc] returns the object or null. *)
Definition kfifo_alloc (kmalloc : Z → option (list Z)) (sz : Z) : option (kfifo * Z) :=
  sz ← (if negb (is_power_of_2 sz)
        then if 0x80000000 <? sz then None else Some (roundup_pow_of_two sz)
        else Some sz);
  match kmalloc sz with
  | None => Some (_kfifo_init None 0, - ENOMEM)
  | Some b => Some (_kfifo_init (Some b) sz, 0)
  end.

Definition kfifo_free (f : kfifo) : kfifo := _kfifo_init None 0.

Definition kfifo_skip (f : kfifo) (len : Z) : kfifo :=
  if len <? kfifo_len f then __kfifo_add_out f len else kfifo_reset_out f.

(** ** Copying in and out *)

Definition __kfifo_in_data (f : kfifo) (from : list Z) (len off : Z) : option kfifo :=
  let off := __kfifo_off f (u32 (in_ f + off)) in
  let l := Z.min len (u32 (size f - off)) in
  b ← memcpy (buf f) off from 0 l;
  b ← memcpy b 0 from l (len - l);
  Some (with_buf f b).

(** Returns the caller's object [to] after the copy. *)
Definition __kfifo_out_data (f : kfifo) (to : list Z) (len off : Z) : option (list Z) :=
  let off := __kfifo_off f (u32 (out f + off)) in
  let l := Z.min len (u32 (size f - off)) in
  to ← memcpy to 0 (buf f) off l;
  memcpy to l (buf f) 0 (len - l).

Definition kfifo_in (f : kfifo) (from : list Z) (len : Z) : option (kfifo * Z) :=
  let len := Z.min (kfifo_avail f) len in
  f ← __kfifo_in_data f from len 0;
  Some (__kfifo_add_in f len, len).

Definition kfifo_out (f : kfifo) (to : list Z) (len : Z) : option (kfifo * list Z * Z) :=
  let len := Z.min (kfifo_len f) len in
  to ← __kfifo_out_data f to len 0;
  Some (__kfifo_add_out f len, to, len).

Definition kfifo_out_peek (f : kfifo) (to : list Z) (len offset : Z) : option (list Z * Z) :=
  let len := Z.min (kfifo_len f) (u32 (len + offset)) in
  to ← __kfifo_out_data f to len offset;
  Some (to, len).

(** ** Records *)

Definition __kfifo_peek_n (f : kfifo) (recsize : Z) : option Z :=
  l ← (buf f).[__kfifo_off f (u32 (out f + 0))];
  let recsize := u32 (recsize - 1) in
  if ctrue recsize then
    h ← (buf f).[__kfifo_off f (u32 (out f + 1))]; Some (Z.lor l (Z.shiftl h 8))
  else Some l.

Definition __kfifo_poke_n (f : kfifo) (recsize n : Z) : option kfifo :=
  b ← (buf f).[__kfifo_off f (u32 (in_ f + 0)) <- u8 (Z.shiftr n 0)];
  let f := with_buf f b in
  let recsize := u32 (recsize - 1) in
  if ctrue recsize then
    b ← (buf f).[__kfifo_off f (u32 (in_ f + 1)) <- u8 (Z.shiftr n 8)]; Some (with_buf f b)
  else Some f.

Definition __kfifo_in_n (f : kfifo) (from : list Z) (len recsize : Z) : option (kfifo * Z) :=
  if kfifo_avail f <? u32 (len + recsize) then Some (f, u32 (len + 1)) else
  f ← __kfifo_in_data f from len recsize; Some (f, 0).

Definition __kfifo_in_rec (f : kfifo) (from : list Z) (n recsize : Z) : option (kfifo * Z) :=
  '(f, ret) ← __kfifo_in_n f from n recsize;
  if ret =? 0 then
    f ← (if ctrue recsize then __kfifo_poke_n f recsize n else Some f);
    Some (__kfifo_add_in f (u32 (n + recsize)), ret)
  else Some (f, ret).

Definition __kfifo_in_generic := __kfifo_in_rec.

Definition __kfifo_out_n (f : kfifo) (to : list Z) (len recsize : Z) : option (kfifo * list Z * Z) :=
  if kfifo_len f <? u32 (len + recsize) then Some (f, to, len) else
  to ← __kfifo_out_data f to len recsize;
  Some (__kfifo_add_out f (u32 (len + recsize)), to, 0).

(** The last component is [*total]. *)
Definition __kfifo_out_rec (f : kfifo) (to : list Z) (n recsize : Z) :
    option (kfifo * list Z * Z * Z) :=
  if negb (ctrue recsize) then
    '(f, to, ret) ← __kfifo_out_n f to n recsize; Some (f, to, ret, n)
  else
    l ← __kfifo_peek_n f recsize;
    if n <? l then Some (f, to, l, l) else
    '(f, to, ret) ← __kfifo_out_n f to l recsize; Some (f, to, ret, l).

Definition __kfifo_out_generic := __kfifo_out_rec.

Definition __kfifo_peek_generic (f : kfifo) (recsize : Z) : option Z :=
  if recsize =? 0 then Some (kfifo_avail f) else __kfifo_peek_n f recsize.

(** [constant]: [__builtin_constant_p(recsize)]. *)
Definition kfifo_peek_rec (constant : bool) (f : kfifo) (recsize : Z) : option Z :=
  if negb constant then __kfifo_peek_generic f recsize else
  if negb (ctrue recsize) then Some (kfifo_len f) else __kfifo_peek_n f recsize.

Definition __kfifo_skip_rec (f : kfifo) (recsize : Z) : option kfifo :=
  if ctrue recsize then
    l ← __kfifo_peek_n f recsize;
    if u32 (l + recsize) <=? kfifo_len f then Some (__kfifo_add_out f (u32 (l + recsize)))
    else Some (kfifo_reset_out f)
  else Some (kfifo_reset_out f).

Definition __kfifo_skip_generic := __kfifo_skip_rec.

Definition kfifo_avail_rec (f : kfifo) (recsize : Z) : Z :=
  let l := u32 (kfifo_size f - kfifo_len f) in
  if recsize <? l then l - recsize else 0.

(** ** User space

    [copy_from_user u off n] gives the [n] bytes that end up in the kernel
    object and the number of bytes that could not be copied; [copy_to_user u
    off d] gives the user object after the call and that number. *)
Class UserAccess := {
  copy_from_user : list Z → Z → Z → list Z * Z;
  copy_to_user : list Z → Z → list Z → list Z * Z }.

Section User.
Context `{UserAccess}.

Definition __kfifo_from_user_data (f : kfifo) (from : list Z) (len off : Z) :
    option (kfifo * Z * Z) :=
  let off := __kfifo_off f (u32 (in_ f + off)) in
  let l := Z.min len (u32 (size f - off)) in
  let '(d, ret) := copy_from_user from 0 l in
  b ← arr_write (buf f) off d;
  let f := with_buf f b in
  if ctrue ret then Some (f, - EFAULT, ret) else
  let lenout := l in
  let '(d, ret) := copy_from_user from l (len - l) in
  b ← arr_write (buf f) 0 d;
  Some (with_buf f b, if ctrue ret then - EFAULT else 0,
        u32 (lenout + if ctrue ret then ret else len - l)).

(** Returns the user object, the error code and [*lenout]. *)
Definition __kfifo_to_user_data (f : kfifo) (to : list Z) (len off : Z) :
    option (list Z * Z * Z) :=
  let off := __kfifo_off f (u32 (out f + off)) in
  let l := Z.min len (u32 (size f - off)) in
  d ← arr_read (buf f) off l;
  let '(to, ret) := copy_to_user to 0 d in
  if ctrue ret then Some (to, - EFAULT, u32 (l - ret)) else
  let len := len - l in
  d ← arr_read (buf f) 0 len;
  let '(to, ret) := copy_to_user to l d in
  if ctrue ret then Some (to, - EFAULT, u32 (l + (len - ret))) else
  Some (to, 0, u32 (l + len)).

Definition kfifo_from_user (f : kfifo) (from : list Z) (len : Z) : option (kfifo * Z * Z) :=
  let len := Z.min (kfifo_avail f) len in
  '(f, ret, total) ← __kfifo_from_user_data f from len 0;
  if ctrue ret then Some (f, ret, total) else
  Some (__kfifo_add_in f len, 0, total).

Definition kfifo_to_user (f : kfifo) (to : list Z) (len : Z) : option (kfifo * list Z * Z * Z) :=
  let len := Z.min (kfifo_len f) len in
  '(to, ret, lenout) ← __kfifo_to_user_data f to len 0;
  Some (__kfifo_add_out f lenout, to, ret, lenout).

Definition __kfifo_from_user_n (f : kfifo) (from : list Z) (len recsize : Z) :
    option (kfifo * Z) :=
  if kfifo_avail f <? u32 (len + recsize) then Some (f, u32 (len + 1)) else
  '(f, _, total) ← __kfifo_from_user_data f from len recsize;
  Some (f, total).

Definition __kfifo_from_user_rec (f : kfifo) (from : list Z) (n recsize : Z) :
    option (kfifo * Z) :=
  '(f, ret) ← __kfifo_from_user_n f from n recsize;
  if ret =? 0 then
    f ← (if ctrue recsize then __kfifo_poke_n f recsize n else Some f);
    Some (__kfifo_add_in f (u32 (n + recsize)), ret)
  else Some (f, ret).

Definition __kfifo_from_user_generic := __kfifo_from_user_rec.

Definition __kfifo_to_user_n (f : kfifo) (to : list Z) (len reclen recsize : Z) :
    option (kfifo * list Z * Z) :=
  if kfifo_len f <? u32 (reclen + recsize) then Some (f, to, len) else
  '(to, ret, total) ← __kfifo_to_user_data f to reclen recsize;
  Some (if ret =? 0 then __kfifo_add_out f (u32 (reclen + recsize)) else f, to, total).

Definition __kfifo_to_user_rec (f : kfifo) (to : list Z) (n recsize : Z) :
    option (kfifo * list Z * Z * Z) :=
  if negb (ctrue recsize) then
    '(f, to, ret) ← __kfifo_to_user_n f to n n recsize; Some (f, to, ret, n)
  else
    l ← __kfifo_peek_n f recsize;
    if n <? l then Some (f, to, l, l) else
    '(f, to, ret) ← __kfifo_to_user_n f to n l recsize; Some (f, to, ret, l).

Definition __kfifo_to_user_generic := __kfifo_to_user_rec.
End User.
