(* ===== verification/KfifoFacts.v ===== *)
(** * The byte FIFO implements a bounded queue

    The abstract queue of a FIFO is the list of bytes between [out] and [in];
    every operation is shown to act on it as the corresponding queue operation,
    for any position of the free-running indices. *)
From S2P Require Import Prelude Bitops Kfifo.
#[local] Open Scope Z_scope.
#[local] Open Scope kernel_scope.

(** ** Invariant and abstraction *)

(** The buffer has [2^k] bytes, the indices are 32-bit and at most [size] apart. *)
Record kfifo_wf (f : kfifo) : Prop := {
  wf_size : ∃ k, 0 ≤ k ≤ 31 ∧ size f = 2 ^ k;
  wf_buf : ∃ b, buffer f = Some b ∧ alen b = size f;
  wf_in : urange 32 (in_ f);
  wf_out : urange 32 (out f);
  wf_len : kfifo_len f ≤ size f }.

(** The byte at ring position [j] and the bytes queued. *)
Definition cell (b : list Z) (j : Z) : Z := default 0 b.[j mod alen b].
Definition content (f : kfifo) : list Z :=
  (λ i, cell (buf f) (out f + i)) <$> seqZ 0 (kfifo_len f).

(** ** Index arithmetic *)
Section Ring.
Context (f : kfifo) (Hwf : kfifo_wf f).

Lemma kf_size_bounds : 1 ≤ size f ≤ 2 ^ 31.
Proof.
  destruct (wf_size f Hwf) as (k & Hk & ->). split; [|apply Z.pow_le_mono_r; lia].
  pose proof (Z.pow_pos_nonneg 2 k). lia.
Qed.

Lemma kf_buf : ∃ b, buffer f = Some b ∧ buf f = b ∧ alen b = size f.
Proof. destruct (wf_buf f Hwf) as (b & Hb & Hl). exists b. unfold buf. by rewrite Hb. Qed.

Lemma kf_off x : __kfifo_off f (u32 x) = x mod size f.
Proof.
  pose proof kf_size_bounds. unfold __kfifo_off. destruct (wf_size f Hwf) as (k & Hk & E).
  rewrite (uwrap_small 32 (size f - 1)) by (unfold urange; lia). rewrite E.
  replace (2 ^ k - 1) with (Z.ones k) by (rewrite Z.ones_equiv; lia).
  rewrite Z.land_ones by lia. unfold uwrap. apply Z.mod_mod_divide.
  exists (2 ^ (32 - k)). rewrite <- Z.pow_add_r by lia. f_equal. lia.
Qed.

Lemma kf_len_range : 0 ≤ kfifo_len f ≤ size f.
Proof. split; [apply urange_uwrap; lia|apply Hwf]. Qed.

Lemma kf_avail : kfifo_avail f = size f - kfifo_len f.
Proof.
  pose proof kf_len_range. pose proof kf_size_bounds. apply uwrap_small. unfold urange, kfifo_size. lia.
Qed.

Lemma content_len : alen (content f) = kfifo_len f.
Proof. apply alen_fmap_seqZ, kf_len_range. Qed.

Lemma content_get i : 0 ≤ i < kfifo_len f → (content f).[i] = Some (cell (buf f) (out f + i)).
Proof. apply (arr_get_fmap_seqZ (λ i, cell (buf f) (out f + i))). Qed.
End Ring.

Lemma cell_get b j : 0 < alen b → b.[j mod alen b] = Some (cell b j).
Proof.
  intros Hb. unfold cell. destruct (arr_get_lt b (j mod alen b)) as [x ->]; [|done].
  apply Z.mod_pos_bound. lia.
Qed.

Lemma cell_mod b j j' : j mod alen b = j' mod alen b → cell b j = cell b j'.
Proof. unfold cell. by intros ->. Qed.

Lemma mod_sub_cases j s n : 0 < n →
  (j - s) mod n = if decide (s mod n ≤ j mod n) then j mod n - s mod n else j mod n - s mod n + n.
Proof.
  intros Hn. pose proof (Z.mod_pos_bound j n Hn). pose proof (Z.mod_pos_bound s n Hn).
  rewrite Zminus_mod. case_decide.
  - apply Z.mod_small. lia.
  - rewrite <- (Z_mod_plus_full _ 1 n), Z.mod_small by lia. lia.
Qed.

Lemma mod_add_cases s i n : 0 ≤ i < n →
  (s + i) mod n = if decide (s mod n + i < n) then s mod n + i else s mod n + i - n.
Proof.
  intros Hi. pose proof (Z.mod_pos_bound s n ltac:(lia)).
  rewrite <- Zplus_mod_idemp_l. case_decide.
  - apply Z.mod_small. lia.
  - rewrite <- (Z_mod_plus_full _ (-1) n), Z.mod_small by lia. lia.
Qed.

(** ** The two-part copies *)

Lemma memcpy_spec {A} (dst : list A) doff (src : list A) soff n :
  0 ≤ doff → 0 ≤ soff → 0 ≤ n → doff + n ≤ alen dst → soff + n ≤ alen src →
  ∃ d, memcpy dst doff src soff n = Some d ∧ alen d = alen dst ∧
    ∀ i, d.[i] = if decide (doff ≤ i < doff + n) then src.[soff + (i - doff)] else dst.[i].
Proof.
  intros Hd Hs Hn Hdl Hsl. destruct (arr_read_spec src soff n) as (x & Hx & Hlx & Hgx); [lia..|].
  destruct (arr_write_spec dst doff x) as (d & Hw & Hld & Hgd); [lia..|].
  exists d. unfold memcpy. rewrite Hx. simpl. split; [done|]. split; [done|].
  intros i. rewrite Hgd, Hlx. case_decide; [|done]. apply Hgx. lia.
Qed.

Lemma ring_write b from s len :
  0 < alen b → 0 ≤ len ≤ alen b → len ≤ alen from →
  let o := s mod alen b in let l := Z.min len (alen b - o) in
  ∃ b1 b2, memcpy b o from 0 l = Some b1 ∧ memcpy b1 0 from l (len - l) = Some b2 ∧
    alen b2 = alen b ∧
    ∀ j, cell b2 j = if decide ((j - s) mod alen b < len)
                     then default 0 from.[(j - s) mod alen b] else cell b j.
Proof.
  intros Hb Hlen Hfrom o l. pose proof (Z.mod_pos_bound s (alen b) Hb) as Ho. fold o in Ho.
  destruct (memcpy_spec b o from 0 l) as (b1 & E1 & L1 & G1); [lia..|].
  destruct (memcpy_spec b1 0 from l (len - l)) as (b2 & E2 & L2 & G2); [lia..|].
  exists b1, b2. split; [done|]. split; [done|]. split; [lia|]. intros j.
  unfold cell. replace (alen b2) with (alen b) by lia. rewrite G2, G1.
  pose proof (Z.mod_pos_bound j (alen b) Hb). rewrite mod_sub_cases by lia. fold o.
  repeat case_decide; try lia; try done; f_equal; f_equal; lia.
Qed.

Lemma ring_read b to s len :
  0 < alen b → 0 ≤ len ≤ alen b → len ≤ alen to →
  let o := s mod alen b in let l := Z.min len (alen b - o) in
  ∃ t1 t2, memcpy to 0 b o l = Some t1 ∧ memcpy t1 l b 0 (len - l) = Some t2 ∧
    t2 = ((λ i, cell b (s + i)) <$> seqZ 0 len) ++ drop (Z.to_nat len) to.
Proof.
  intros Hb Hlen Hto o l. pose proof (Z.mod_pos_bound s (alen b) Hb) as Ho. fold o in Ho.
  destruct (memcpy_spec to 0 b o l) as (t1 & E1 & L1 & G1); [lia..|].
  destruct (memcpy_spec t1 l b 0 (len - l)) as (t2 & E2 & L2 & G2); [lia..|].
  exists t1, t2. split; [done|]. split; [done|]. apply arr_ext.
  - rewrite alen_app, alen_fmap_seqZ, alen_drop by lia. lia.
  - intros i Hi. rewrite G2, G1, arr_get_app, alen_fmap_seqZ by lia.
    destruct (decide (i < len)).
    + rewrite (arr_get_fmap_seqZ (λ i, cell b (s + i))) by lia.
      rewrite <- cell_get by lia.
      rewrite mod_add_cases by lia. fold o. repeat case_decide; try lia; f_equal; lia.
    + rewrite arr_get_drop by lia. rewrite !decide_False by lia. f_equal. lia.
Qed.

(** ** Moving the indices *)

Lemma uwrap_add_l w x y : uwrap w (uwrap w x + y) = uwrap w (x + y).
Proof. unfold uwrap. destruct (decide (2 ^ w = 0)) as [->|]; [by rewrite !Z.mod_0_r|]. by rewrite Zplus_mod_idemp_l. Qed.

Lemma uwrap_sub_l w x y : uwrap w (uwrap w x - y) = uwrap w (x - y).
Proof. rewrite <- !Z.add_opp_r. apply uwrap_add_l. Qed.

Lemma uwrap_sub_r w x y : uwrap w (x - uwrap w y) = uwrap w (x - y).
Proof. unfold uwrap. destruct (decide (2 ^ w = 0)) as [->|]; [by rewrite !Z.mod_0_r|]. by rewrite Zminus_mod_idemp_r. Qed.

Section Indices.
Context (f : kfifo) (Hwf : kfifo_wf f).

Lemma size_divides : (size f | 2 ^ 32).
Proof.
  destruct (wf_size f Hwf) as (k & Hk & ->). exists (2 ^ (32 - k)).
  rewrite <- Z.pow_add_r by lia. f_equal. lia.
Qed.

Lemma u32_mod_size x : u32 x mod size f = x mod size f.
Proof. apply Z.mod_mod_divide, size_divides. Qed.

Lemma in_mod : (out f + kfifo_len f) mod size f = in_ f mod size f.
Proof.
  pose proof (kf_size_bounds f Hwf). unfold kfifo_len. rewrite <- Zplus_mod_idemp_r, u32_mod_size.
  rewrite Zplus_mod_idemp_r. f_equal. lia.
Qed.

Lemma len_add_in b m :
  0 ≤ m ≤ size f - kfifo_len f →
  kfifo_len (__kfifo_add_in (with_buf f b) m) = kfifo_len f + m.
Proof.
  intros Hm. pose proof (kf_size_bounds f Hwf). pose proof (kf_len_range f Hwf).
  unfold kfifo_len at 1. simpl. rewrite uwrap_sub_l.
  replace (in_ f + m - out f) with (in_ f - out f + m) by lia. rewrite <- uwrap_add_l.
  apply uwrap_small. fold (kfifo_len f). unfold urange. lia.
Qed.

Lemma len_add_out m : 0 ≤ m ≤ kfifo_len f → kfifo_len (__kfifo_add_out f m) = kfifo_len f - m.
Proof.
  intros Hm. pose proof (kf_size_bounds f Hwf). pose proof (kf_len_range f Hwf).
  unfold kfifo_len at 1. simpl. rewrite uwrap_sub_r.
  replace (in_ f - (out f + m)) with (in_ f - out f - m) by lia. rewrite <- uwrap_sub_l.
  apply uwrap_small. fold (kfifo_len f). unfold urange. lia.
Qed.

Lemma with_buf_wf b : alen b = size f → kfifo_wf (with_buf f b).
Proof.
  intros Hb. destruct (wf_buf f Hwf) as (b0 & E & _). destruct Hwf.
  split; simpl; try done. rewrite E. by exists b.
Qed.

Lemma buf_with b : buf (with_buf f b) = b.
Proof. destruct (wf_buf f Hwf) as (b0 & E & _). unfold buf, with_buf. simpl. by rewrite E. Qed.

Lemma add_in_wf b m :
  alen b = size f → 0 ≤ m ≤ size f - kfifo_len f → kfifo_wf (__kfifo_add_in (with_buf f b) m).
Proof.
  intros Hb Hm. pose proof (len_add_in b m Hm) as HL. destruct (with_buf_wf b Hb) as [H1 H2 H3 H4 H5].
  split; [done|done|apply urange_uwrap; lia|done|]. rewrite HL. simpl. lia.
Qed.

Lemma add_out_wf m : 0 ≤ m ≤ kfifo_len f → kfifo_wf (__kfifo_add_out f m).
Proof.
  intros Hm. pose proof (len_add_out m Hm) as HL. pose proof (kf_len_range f Hwf). destruct Hwf.
  split; [done|done|done|apply urange_uwrap; lia|]. rewrite HL. simpl. lia.
Qed.

Lemma cell_cong b j j' : alen b = size f → j mod size f = j' mod size f → cell b j = cell b j'.
Proof. intros Hb E. apply cell_mod. by rewrite Hb. Qed.

(** Appending: the bytes after [in] become part of the queue. *)
Lemma content_add_in b d :
  alen b = size f → alen d ≤ size f - kfifo_len f →
  (∀ i, 0 ≤ i < kfifo_len f → cell b (out f + i) = cell (buf f) (out f + i)) →
  (∀ i, 0 ≤ i < alen d → Some (cell b (in_ f + i)) = d.[i]) →
  content (__kfifo_add_in (with_buf f b) (alen d)) = content f ++ d.
Proof.
  intros Hb Hd Hold Hnew. pose proof (alen_nonneg d). pose proof (kf_len_range f Hwf).
  assert (Hwf' := add_in_wf b (alen d) Hb ltac:(lia)).
  apply arr_ext; [rewrite alen_app, !content_len, len_add_in by (done || lia); done|].
  intros i Hi. rewrite content_len, len_add_in in Hi by (done || lia).
  rewrite content_get by (rewrite len_add_in; lia).
  rewrite arr_get_app, content_len by (done || lia).
  change (buf (__kfifo_add_in (with_buf f b) (alen d))) with (buf (with_buf f b)).
  rewrite buf_with. change (out (__kfifo_add_in _ _)) with (out f). case_decide.
  - rewrite content_get by lia. f_equal. apply Hold. lia.
  - rewrite <- Hnew by lia. f_equal. apply cell_cong; [done|].
    rewrite <- (Zplus_mod_idemp_l (in_ f)), <- in_mod, Zplus_mod_idemp_l. f_equal. lia.
Qed.

(** Removing: the front of the queue is dropped. *)
Lemma content_add_out m :
  0 ≤ m ≤ kfifo_len f → content (__kfifo_add_out f m) = drop (Z.to_nat m) (content f).
Proof.
  intros Hm. assert (Hwf' := add_out_wf m Hm). pose proof (kf_len_range f Hwf).
  apply arr_ext; [rewrite alen_drop, !content_len, len_add_out by (rewrite ?content_len; done || lia); done|].
  intros i Hi. rewrite content_len, len_add_out in Hi by (done || lia).
  rewrite arr_get_drop, !content_get by (rewrite ?len_add_out; lia). f_equal.
  destruct (kf_buf f Hwf) as (b & Eb & Eb' & Hb).
  change (buf (__kfifo_add_out f m)) with (buf f). rewrite Eb'. apply cell_cong; [done|]. simpl.
  rewrite <- Zplus_mod_idemp_l, u32_mod_size, Zplus_mod_idemp_l. f_equal. lia.
Qed.
End Indices.

(** ** Byte interface *)

Lemma size_sub_off f x : kfifo_wf f → u32 (size f - x mod size f) = size f - x mod size f.
Proof.
  intros Hwf. pose proof (kf_size_bounds f Hwf).
  pose proof (Z.mod_pos_bound x (size f) ltac:(lia)). apply uwrap_small. unfold urange. lia.
Qed.

(** The free cells are those the queue does not reach. *)
Lemma free_cell f s len i :
  kfifo_wf f → 0 ≤ s → 0 ≤ len → s + len ≤ size f - kfifo_len f → 0 ≤ i < kfifo_len f →
  len ≤ (out f + i - (in_ f + s)) mod size f.
Proof.
  intros Hwf Hs Hl Hlen Hi. pose proof (kf_size_bounds f Hwf).
  rewrite Zminus_mod, <- (Zplus_mod_idemp_l (in_ f)), <- (in_mod f Hwf), Zplus_mod_idemp_l, <- Zminus_mod.
  replace (out f + i - (out f + kfifo_len f + s)) with (i - kfifo_len f - s) by lia.
  rewrite <- (Z_mod_plus_full _ 1 (size f)), Z.mod_small by lia. lia.
Qed.

Lemma in_data_spec f from len off :
  kfifo_wf f → 0 ≤ off → 0 ≤ len ≤ alen from → off + len ≤ size f - kfifo_len f →
  ∃ b, __kfifo_in_data f from len off = Some (with_buf f b) ∧ alen b = size f ∧
    (∀ i, 0 ≤ i < kfifo_len f → cell b (out f + i) = cell (buf f) (out f + i)) ∧
    (∀ i, 0 ≤ i < len → Some (cell b (in_ f + off + i)) = from.[i]).
Proof.
  intros Hwf Hoff Hlen Hfit. destruct (kf_buf f Hwf) as (b0 & Eb & Eb' & Hb).
  pose proof (kf_size_bounds f Hwf). pose proof (kf_len_range f Hwf).
  destruct (ring_write b0 from (in_ f + off) len) as (b1 & b2 & E1 & E2 & L2 & G2); [lia..|].
  exists b2. unfold __kfifo_in_data. rewrite kf_off, size_sub_off, Eb' by done.
  rewrite Hb in E1, E2, G2. rewrite E1. simpl. rewrite E2. simpl. split; [done|]. split; [lia|].
  split; intros i Hi; rewrite G2.
  - rewrite decide_False; [done|]. pose proof (free_cell f off len i Hwf Hoff ltac:(lia) ltac:(lia) Hi). lia.
  - replace (in_ f + off + i - (in_ f + off)) with i by lia. rewrite Z.mod_small by lia.
    rewrite decide_True by lia. destruct (arr_get_lt from i) as [x ->]; [lia|done].
Qed.

Lemma out_data_spec f to len off :
  kfifo_wf f → 0 ≤ len ≤ alen to → len ≤ size f →
  __kfifo_out_data f to len off =
    Some (((λ i, cell (buf f) (out f + off + i)) <$> seqZ 0 len) ++ drop (Z.to_nat len) to).
Proof.
  intros Hwf Hlen Hto. destruct (kf_buf f Hwf) as (b0 & Eb & Eb' & Hb).
  pose proof (kf_size_bounds f Hwf).
  destruct (ring_read b0 to (out f + off) len) as (t1 & t2 & E1 & E2 & ->); [lia..|].
  unfold __kfifo_out_data. rewrite kf_off, size_sub_off, Eb' by done.
  rewrite Hb in E1, E2. by rewrite E1.
Qed.

(** What is read is a segment of the queue. *)
Lemma out_data_content f to len off :
  kfifo_wf f → 0 ≤ off → 0 ≤ len ≤ alen to → off + len ≤ kfifo_len f →
  __kfifo_out_data f to len off =
    Some (take (Z.to_nat len) (drop (Z.to_nat off) (content f)) ++ drop (Z.to_nat len) to).
Proof.
  intros Hwf Hoff Hlen Hin. pose proof (kf_len_range f Hwf). rewrite out_data_spec by (done || lia).
  do 2 f_equal. pose proof (content_len f Hwf) as HL. apply arr_ext.
  - rewrite alen_fmap_seqZ, alen_take by (rewrite ?alen_drop; lia). done.
  - intros i Hi. rewrite alen_fmap_seqZ in Hi by lia.
    rewrite (arr_get_fmap_seqZ (λ i, cell (buf f) (out f + off + i))) by lia.
    rewrite arr_get_take, arr_get_drop, content_get by lia. do 2 f_equal. lia.
Qed.

Lemma kfifo_in_spec f from len :
  kfifo_wf f → 0 ≤ len ≤ alen from →
  let n := Z.min (size f - kfifo_len f) len in
  ∃ f', kfifo_in f from len = Some (f', n) ∧ kfifo_wf f' ∧ size f' = size f ∧
    content f' = content f ++ take (Z.to_nat n) from.
Proof.
  intros Hwf Hlen n. pose proof (kf_len_range f Hwf). unfold kfifo_in. rewrite kf_avail by done. fold n.
  destruct (in_data_spec f from n 0) as (b & E & Hb & Hold & Hnew); [done|lia..|].
  rewrite E. simpl. eexists. split; [done|]. split; [by apply add_in_wf; [|done|lia]|].
  split; [done|].
  assert (Hn : alen (take (Z.to_nat n) from) = n) by (apply alen_take; lia).
  rewrite <- Hn at 1. apply content_add_in; [done..|lia|done|].
  rewrite Hn. intros i Hi. rewrite arr_get_take by lia. rewrite <- Hnew by done. do 2 f_equal. lia.
Qed.

Lemma kfifo_out_spec f to len :
  kfifo_wf f → 0 ≤ len ≤ alen to →
  let n := Z.min (kfifo_len f) len in
  ∃ f', kfifo_out f to len = Some (f', take (Z.to_nat n) (content f) ++ drop (Z.to_nat n) to, n) ∧
    kfifo_wf f' ∧ size f' = size f ∧ content f' = drop (Z.to_nat n) (content f).
Proof.
  intros Hwf Hlen n. pose proof (kf_len_range f Hwf). unfold kfifo_out. fold n.
  rewrite out_data_content by (done || lia). simpl. eexists. split; [done|].
  split; [by apply add_out_wf; [|lia]|]. split; [done|]. by apply content_add_out; [|lia].
Qed.

Lemma kfifo_reset_out_spec f :
  kfifo_wf f → kfifo_wf (kfifo_reset_out f) ∧ content (kfifo_reset_out f) = [].
Proof.
  intros Hwf. assert (E : kfifo_len (kfifo_reset_out f) = 0).
  { unfold kfifo_len. simpl. by rewrite Z.sub_diag. }
  pose proof (kf_size_bounds f Hwf). split.
  - destruct Hwf. split; simpl; try done. rewrite E. lia.
  - unfold content. by rewrite E.
Qed.

Lemma kfifo_skip_spec f len :
  kfifo_wf f → 0 ≤ len →
  kfifo_wf (kfifo_skip f len) ∧ content (kfifo_skip f len) = drop (Z.to_nat len) (content f).
Proof.
  intros Hwf Hlen. unfold kfifo_skip. pose proof (kf_len_range f Hwf).
  destruct (Z.ltb_spec len (kfifo_len f)).
  - split; [by apply add_out_wf; [|lia]|by apply content_add_out; [|lia]].
  - destruct (kfifo_reset_out_spec f Hwf) as [? ->]. split; [done|].
    pose proof (content_len f Hwf) as HL. unfold alen in HL. rewrite drop_ge; [done|lia].
Qed.

(** ** Set-up *)

Lemma is_power_of_2_spec n : urange 32 n → is_power_of_2 n = true ↔ ∃ k, 0 ≤ k ≤ 31 ∧ n = 2 ^ k.
Proof.
  intros Hn. unfold is_power_of_2. destruct (Z.eqb_spec n 0) as [->|H0]; simpl.
  { split; [done|]. intros (k & Hk & E). pose proof (Z.pow_pos_nonneg 2 k). lia. }
  unfold urange in Hn. rewrite (uwrap_small 32 (n - 1)) by (unfold urange; lia). split.
  - intros E%Z.eqb_eq. exists (Z.log2 n). pose proof (Z.log2_spec n ltac:(lia)) as [Hl Hu].
    assert (Hlog : Z.log2 n < 32) by (apply Z.log2_lt_pow2; lia).
    split; [pose proof (Z.log2_nonneg n); lia|].
    destruct (decide (n = 2 ^ Z.log2 n)) as [|Hne]; [done|exfalso].
    assert (Hb : Z.testbit (Z.land n (n - 1)) (Z.log2 n) = true).
    { rewrite Z.land_spec, Z.bit_log2 by lia. simpl.
      pose proof (Z.pow_pos_nonneg 2 (Z.log2 n) ltac:(lia) (Z.log2_nonneg n)).
      replace (Z.log2 n) with (Z.log2 (n - 1)) at 1; [apply Z.bit_log2; lia|].
      apply Z.log2_unique; [apply Z.log2_nonneg|lia]. }
    by rewrite E, Z.bits_0 in Hb.
  - intros (k & Hk & ->). apply Z.eqb_eq. replace (2 ^ k - 1) with (Z.ones k) by (rewrite Z.ones_equiv; lia).
    rewrite Z.land_ones by lia. apply Z_mod_same_full.
Qed.

Lemma roundup_pow_of_two_spec n :
  1 < n ≤ 2 ^ 31 → ∃ k, 0 ≤ k ≤ 31 ∧ roundup_pow_of_two n = 2 ^ k ∧ n ≤ 2 ^ k < 2 * n.
Proof.
  intros Hn. unfold roundup_pow_of_two, fls_long. destruct (fls_spec (u32 (n - 1))) as (Hr & Hf & Hl).
  rewrite !uwrap_uwrap, (uwrap_small 32 (n - 1)) in * by (unfold urange; lia).
  set (k := fls (n - 1)) in *. specialize (Hl ltac:(lia)). unfold urange in Hr.
  assert (k ≤ 31).
  { destruct (decide (k ≤ 31)); [done|]. replace k with 32 in Hl by lia. simpl in Hl. lia. }
  assert (1 ≤ k). { destruct (decide (1 ≤ k)); [done|]. replace k with 0 in Hr by lia. simpl in Hr. lia. }
  exists k. split; [lia|]. unfold ushl. rewrite Z.shiftl_1_l. split.
  - apply uwrap_small. split; [lia|]. apply Z.pow_lt_mono_r; lia.
  - replace (2 ^ k) with (2 * 2 ^ (k - 1)) in *; [lia|]. rewrite <- Z.pow_succ_r by lia. f_equal. lia.
Qed.

Lemma init_wf b k : 0 ≤ k ≤ 31 → alen b = 2 ^ k →
  kfifo_wf (_kfifo_init (Some b) (2 ^ k)) ∧ content (_kfifo_init (Some b) (2 ^ k)) = [].
Proof.
  intros Hk Hb. split; [|done]. split; simpl; [by exists k|by exists b|done|done|].
  pose proof (Z.pow_pos_nonneg 2 k). change (kfifo_len _) with 0. lia.
Qed.

(** ** Records *)

(** The length header, little endian in one or two bytes. *)
Definition hdr (recsize n : Z) : list Z :=
  if recsize =? 1 then [n mod 256] else [n mod 256; n / 256].

(** The byte queue that holds the records [rs]. *)
Fixpoint enc (recsize : Z) (rs : list (list Z)) : list Z :=
  match rs with [] => [] | r :: rs => hdr recsize (alen r) ++ r ++ enc recsize rs end.

Lemma enc_app recsize rs rs' : enc recsize (rs ++ rs') = enc recsize rs ++ enc recsize rs'.
Proof. induction rs as [|r rs IH]; simpl; [done|]. by rewrite IH, <- !app_assoc. Qed.

Lemma hdr_len recsize n : recsize = 1 ∨ recsize = 2 → alen (hdr recsize n) = recsize.
Proof. by intros [-> | ->]. Qed.

Lemma cell_set b j x :
  0 < alen b → ∃ b', b.[j mod alen b <- x] = Some b' ∧ alen b' = alen b ∧
    ∀ i, cell b' i = if decide (i mod alen b = j mod alen b) then x else cell b i.
Proof.
  intros Hb. pose proof (Z.mod_pos_bound j (alen b) Hb). eexists.
  split; [apply arr_set_lt; lia|]. split; [apply alen_insert|]. intros i. unfold cell.
  rewrite alen_insert. pose proof (Z.mod_pos_bound i (alen b) Hb).
  rewrite arr_get_insert by lia. case_decide; done.
Qed.

Lemma mod_shift_ne x d n : 0 < d < n → (x + d) mod n ≠ x mod n.
Proof.
  intros Hd E. pose proof (mod_add_cases x d n ltac:(lia)) as Hc.
  pose proof (Z.mod_pos_bound x n ltac:(lia)). case_decide; lia.
Qed.

(** Writing the header below the data leaves the rest of the ring alone. *)
Lemma poke_spec f recsize n :
  kfifo_wf f → recsize = 1 ∨ recsize = 2 → recsize ≤ size f → 0 ≤ n < 2 ^ (8 * recsize) →
  ∃ b, __kfifo_poke_n f recsize n = Some (with_buf f b) ∧ alen b = size f ∧
    (∀ i, 0 ≤ i < recsize → Some (cell b (in_ f + i)) = (hdr recsize n).[i]) ∧
    (∀ j, (∀ i, 0 ≤ i < recsize → j mod size f ≠ (in_ f + i) mod size f) →
       cell b j = cell (buf f) j).
Proof.
  intros Hwf Hrec Hsz Hn. destruct (kf_buf f Hwf) as (b0 & Eb & Eb' & Hb).
  unfold __kfifo_poke_n. rewrite kf_off, Eb' by done. pose proof (kf_size_bounds f Hwf).
  destruct (cell_set b0 (in_ f + 0) (u8 (Z.shiftr n 0))) as (b1 & E1 & L1 & G1); [lia|].
  rewrite Hb in E1, G1. rewrite E1. cbn [mbind option_bind]. rewrite Z.shiftr_0_r in *.
  destruct Hrec as [-> | ->].
  - change (ctrue (u32 (1 - 1))) with false. exists b1. split; [done|]. split; [lia|]. split.
    + intros i Hi. replace i with 0 by lia. rewrite G1, decide_True by done. done.
    + intros j Hj. rewrite G1, decide_False; [done|]. apply Hj. lia.
  - change (ctrue (u32 (2 - 1))) with true. cbv iota zeta. rewrite buf_with by done.
    change (in_ (with_buf f b1)) with (in_ f).
    change (__kfifo_off (with_buf f b1)) with (__kfifo_off f). rewrite kf_off by done.
    destruct (cell_set b1 (in_ f + 1) (u8 (Z.shiftr n 8))) as (b2 & E2 & L2 & G2); [lia|].
    rewrite L1, Hb in E2, G2. rewrite E2. simpl. exists b2.
    split; [unfold with_buf; simpl; by rewrite Eb|]. split; [lia|].
    pose proof (mod_shift_ne (in_ f + 0) 1 (size f) ltac:(lia)) as Hne. rewrite Z.add_0_r in *.
    split.
    + intros i Hi. rewrite G2, G1. assert (i = 0 ∨ i = 1) as [-> | ->] by lia.
      * rewrite Z.add_0_r, decide_False, decide_True by done. done.
      * rewrite decide_True by done. cbv [hdr Z.eqb Pos.eqb arr_get]. simpl. f_equal.
        rewrite Z.shiftr_div_pow2 by lia. apply Z.mod_small. simpl in Hn |- *.
        change (2 ^ 8) with 256 in *. split; [apply Z.div_pos; lia|apply Z.div_lt_upper_bound; lia].
    + intros j Hj. rewrite G2, G1. pose proof (Hj 0 ltac:(lia)) as H0. rewrite Z.add_0_r in H0.
      rewrite !decide_False; [done|done|]. apply Hj. lia.
Qed.

Lemma free_ne f s len i k :
  kfifo_wf f → 0 ≤ s → s + len ≤ size f - kfifo_len f → 0 ≤ i < kfifo_len f → 0 ≤ k < len →
  (out f + i) mod size f ≠ (in_ f + s + k) mod size f.
Proof.
  intros Hwf Hs Hl Hi Hk E. pose proof (free_cell f s len i Hwf Hs ltac:(lia) Hl Hi) as Hf.
  rewrite Zminus_mod, E, <- Zminus_mod in Hf. pose proof (kf_len_range f Hwf).
  replace (in_ f + s + k - (in_ f + s)) with k in Hf by lia. rewrite Z.mod_small in Hf; lia.
Qed.

(** A record that fits is appended with its header; otherwise nothing changes. *)
Lemma in_rec_spec f from n recsize :
  kfifo_wf f → recsize = 1 ∨ recsize = 2 → 0 ≤ n < 2 ^ (8 * recsize) → n ≤ alen from →
  if decide (n + recsize ≤ size f - kfifo_len f) then
    ∃ f', __kfifo_in_rec f from n recsize = Some (f', 0) ∧ kfifo_wf f' ∧ size f' = size f ∧
      content f' = content f ++ hdr recsize n ++ take (Z.to_nat n) from
  else __kfifo_in_rec f from n recsize = Some (f, n + 1).
Proof.
  intros Hwf Hrec Hn Hfrom. pose proof (kf_len_range f Hwf). pose proof (kf_size_bounds f Hwf).
  assert (Hn16 : n < 2 ^ 16) by (destruct Hrec as [-> | ->]; simpl in Hn; lia).
  unfold __kfifo_in_rec, __kfifo_in_n. rewrite kf_avail by done.
  rewrite (uwrap_small 32 (n + recsize)), (uwrap_small 32 (n + 1)) by (unfold urange; lia).
  case_decide as Hfit.
  - destruct (Z.ltb_spec (size f - kfifo_len f) (n + recsize)); [lia|].
    destruct (in_data_spec f from n recsize) as (b & E & Hb & Hold & Hnew); [done|lia..|].
    rewrite E. cbn [mbind option_bind]. rewrite Z.eqb_refl.
    assert (Hctr : ctrue recsize = true) by (apply ctrue_true; lia). rewrite Hctr.
    pose proof (with_buf_wf f Hwf b Hb) as Hwf1.
    destruct (poke_spec (with_buf f b) recsize n) as (b' & E' & Hb' & Hh & Ho); [done..|simpl; lia|done|].
    change (size (with_buf f b)) with (size f) in *. change (in_ (with_buf f b)) with (in_ f) in *.
    rewrite buf_with in Ho by done. rewrite E'. cbn [mbind option_bind].
    assert (Ew : with_buf (with_buf f b) b' = with_buf f b').
    { unfold with_buf. simpl. by destruct (buffer f). }
    rewrite Ew. eexists. split; [done|]. split; [by apply add_in_wf; [|done|lia]|]. split; [done|].
    assert (Hlen : alen (hdr recsize n ++ take (Z.to_nat n) from) = n + recsize).
    { rewrite alen_app, hdr_len, alen_take by (done || lia). lia. }
    rewrite <- Hlen. apply content_add_in; [done..|lia| |].
    + intros i Hi. rewrite Ho; [by apply Hold|]. intros k Hk.
      replace (in_ f + k) with (in_ f + 0 + k) by lia.
      apply (free_ne f 0 recsize); done || lia.
    + rewrite Hlen. intros i Hi. rewrite arr_get_app, hdr_len by (done || lia). case_decide.
      * by rewrite Hh by lia.
      * rewrite arr_get_take by lia. rewrite <- Hnew by lia. rewrite Ho.
        -- do 2 f_equal. lia.
        -- intros k Hk. replace (in_ f + i) with (in_ f + k + (i - k)) by lia.
           apply mod_shift_ne. lia.
  - destruct (Z.ltb_spec (size f - kfifo_len f) (n + recsize)); [|lia]. cbn [mbind option_bind].
    destruct (Z.eqb_spec (n + 1) 0); [lia|done].
Qed.

Lemma lor_hdr n : 0 ≤ n → Z.lor (n mod 256) (Z.shiftl (n / 256) 8) = n.
Proof.
  intros Hn. apply Z.bits_inj'. intros i Hi. rewrite Z.lor_spec, Z.shiftl_spec by lia.
  change 256 with (2 ^ 8). destruct (decide (i < 8)).
  - rewrite Z.mod_pow2_bits_low, (Z.testbit_neg_r _ (i - 8)) by lia. by rewrite orb_false_r.
  - rewrite Z.mod_pow2_bits_high, Z.div_pow2_bits by lia. simpl. f_equal. lia.
Qed.

(** The header at the front of the queue is read back. *)
Lemma peek_spec f recsize n rest :
  kfifo_wf f → recsize = 1 ∨ recsize = 2 → 0 ≤ n < 2 ^ (8 * recsize) →
  content f = hdr recsize n ++ rest → __kfifo_peek_n f recsize = Some n.
Proof.
  intros Hwf Hrec Hn Hc. destruct (kf_buf f Hwf) as (b & Eb & Eb' & Hb).
  pose proof (kf_size_bounds f Hwf). pose proof (content_len f Hwf) as HL.
  rewrite Hc, alen_app, hdr_len in HL by done. pose proof (alen_nonneg rest).
  assert (Hget : ∀ i, 0 ≤ i < recsize → b.[(out f + i) mod size f] = (hdr recsize n).[i]).
  { intros i Hi. rewrite <- Hb, cell_get, <- Eb', <- content_get by (done || lia).
    rewrite Hc, arr_get_app, hdr_len, decide_True by (done || lia). done. }
  unfold __kfifo_peek_n. rewrite !kf_off, Eb', (Hget 0) by (done || lia).
  destruct Hrec as [-> | ->]; cbn [mbind option_bind].
  - change (ctrue (u32 (1 - 1))) with false. cbv iota. simpl in Hn |- *. f_equal. by apply Z.mod_small.
  - change (ctrue (u32 (2 - 1))) with true. cbv iota. rewrite (Hget 1) by lia.
    simpl. f_equal. apply lor_hdr. lia.
Qed.

Lemma drop_app_alen {A} (l l' : list A) n : n = alen l → drop (Z.to_nat n) (l ++ l') = l'.
Proof. intros ->. unfold alen. rewrite Nat2Z.id. apply drop_app_length. Qed.
Lemma take_app_alen {A} (l l' : list A) n : n = alen l → take (Z.to_nat n) (l ++ l') = l.
Proof. intros ->. unfold alen. rewrite Nat2Z.id. apply take_app_length. Qed.

Lemma add_out_rec f recsize r rest :
  kfifo_wf f → recsize = 1 ∨ recsize = 2 → content f = hdr recsize (alen r) ++ r ++ rest →
  kfifo_wf (__kfifo_add_out f (alen r + recsize)) ∧
  content (__kfifo_add_out f (alen r + recsize)) = rest.
Proof.
  intros Hwf Hrec Hc. pose proof (content_len f Hwf) as HL. rewrite Hc, !alen_app, hdr_len in HL by done.
  pose proof (alen_nonneg r). pose proof (alen_nonneg rest).
  split; [apply add_out_wf; [done|lia]|]. rewrite content_add_out, Hc, app_assoc by (done || lia).
  apply drop_app_alen. rewrite alen_app, hdr_len by done. lia.
Qed.

(** Reading the record at the front. *)
Lemma out_rec_spec f to n recsize r rest :
  kfifo_wf f → recsize = 1 ∨ recsize = 2 → alen r < 2 ^ (8 * recsize) →
  content f = hdr recsize (alen r) ++ r ++ rest → n ≤ alen to →
  if decide (alen r ≤ n) then
    ∃ f', __kfifo_out_rec f to n recsize = Some (f', r ++ drop (length r) to, 0, alen r) ∧
      kfifo_wf f' ∧ size f' = size f ∧ content f' = rest
  else __kfifo_out_rec f to n recsize = Some (f, to, alen r, alen r).
Proof.
  intros Hwf Hrec Hr Hc Hto. pose proof (alen_nonneg r). pose proof (alen_nonneg rest).
  pose proof (content_len f Hwf) as HL. rewrite Hc, !alen_app, hdr_len in HL by done.
  pose proof (kf_len_range f Hwf). pose proof (kf_size_bounds f Hwf).
  unfold __kfifo_out_rec. assert (Hctr : ctrue recsize = true) by (apply ctrue_true; lia).
  rewrite Hctr. cbn [negb]. rewrite (peek_spec f recsize (alen r) (r ++ rest)) by (done || lia).
  cbn [mbind option_bind]. case_decide.
  - destruct (Z.ltb_spec n (alen r)); [lia|]. unfold __kfifo_out_n.
    rewrite uwrap_small by (unfold urange; lia).
    destruct (Z.ltb_spec (kfifo_len f) (alen r + recsize)); [lia|].
    rewrite out_data_content by (done || lia). cbn [mbind option_bind].
    destruct (add_out_rec f recsize r rest Hwf Hrec Hc) as [Hwf' Hc'].
    eexists. split; [|done]. do 3 f_equal. f_equal. f_equal.
    + rewrite Hc, drop_app_alen by (by rewrite hdr_len). by apply take_app_alen.
    + unfold alen. by rewrite Nat2Z.id.
  - destruct (Z.ltb_spec n (alen r)); [done|lia].
Qed.

Lemma skip_rec_spec f recsize r rest :
  kfifo_wf f → recsize = 1 ∨ recsize = 2 → alen r < 2 ^ (8 * recsize) →
  content f = hdr recsize (alen r) ++ r ++ rest →
  ∃ f', __kfifo_skip_rec f recsize = Some f' ∧ kfifo_wf f' ∧ size f' = size f ∧ content f' = rest.
Proof.
  intros Hwf Hrec Hr Hc. pose proof (alen_nonneg r). pose proof (alen_nonneg rest).
  pose proof (content_len f Hwf) as HL. rewrite Hc, !alen_app, hdr_len in HL by done.
  pose proof (kf_len_range f Hwf). pose proof (kf_size_bounds f Hwf).
  unfold __kfifo_skip_rec. assert (Hctr : ctrue recsize = true) by (apply ctrue_true; lia).
  rewrite Hctr, (peek_spec f recsize (alen r) (r ++ rest)) by (done || lia).
  cbn [mbind option_bind]. rewrite uwrap_small by (unfold urange; lia).
  destruct (Z.leb_spec (alen r + recsize) (kfifo_len f)); [|lia].
  destruct (add_out_rec f recsize r rest Hwf Hrec Hc). by eexists.
Qed.

(** ** User space *)

(** What the callers of the user-copy primitives rely on: they fill the [n]
    bytes of the kernel object, report how many bytes were not copied, and copy
    the rest faithfully. *)
Class UserAccessLaws `{UserAccess} := {
  cfu_range u off n : 0 ≤ off → 0 ≤ n →
    alen (copy_from_user u off n).1 = n ∧ 0 ≤ (copy_from_user u off n).2 ≤ n;
  cfu_ok u off n : 0 ≤ off ≤ alen u → 0 ≤ n → (copy_from_user u off n).2 = 0 →
    arr_read u off n = Some (copy_from_user u off n).1;
  ctu_range u off d : 0 ≤ off →
    0 ≤ (copy_to_user u off d).2 ≤ alen d;
  ctu_ok u off d : 0 ≤ off ≤ alen u →
    arr_write u off (take (Z.to_nat (alen d - (copy_to_user u off d).2)) d) =
      Some (copy_to_user u off d).1 }.

Lemma ring_store b s d :
  0 < alen b → alen d ≤ alen b - s mod alen b →
  ∃ b', arr_write b (s mod alen b) d = Some b' ∧ alen b' = alen b ∧
    ∀ j, cell b' j = if decide ((j - s) mod alen b < alen d)
                     then default 0 d.[(j - s) mod alen b] else cell b j.
Proof.
  intros Hb Hd. pose proof (Z.mod_pos_bound s (alen b) Hb) as Ho.
  destruct (arr_write_spec b (s mod alen b) d) as (b' & E & L & G); [lia..|].
  exists b'. split; [done|]. split; [done|]. intros j. unfold cell. rewrite L, G.
  pose proof (Z.mod_pos_bound j (alen b) Hb). pose proof (alen_nonneg d).
  rewrite mod_sub_cases by lia. repeat case_decide; try lia; done.
Qed.

(** A store into the free part of the ring. *)
Lemma store_free f b s d :
  kfifo_wf f → alen b = size f → 0 ≤ s → s + alen d ≤ size f - kfifo_len f →
  alen d ≤ size f - (in_ f + s) mod size f →
  ∃ b', arr_write b ((in_ f + s) mod size f) d = Some b' ∧ alen b' = size f ∧
    (∀ i, 0 ≤ i < kfifo_len f → cell b' (out f + i) = cell b (out f + i)) ∧
    (∀ i, 0 ≤ i < alen d → Some (cell b' (in_ f + s + i)) = d.[i]) ∧
    (∀ i, 0 ≤ i < s → cell b' (in_ f + i) = cell b (in_ f + i)).
Proof.
  intros Hwf Hb Hs Hfit Hd. pose proof (kf_size_bounds f Hwf). pose proof (kf_len_range f Hwf).
  pose proof (alen_nonneg d).
  destruct (ring_store b (in_ f + s) d) as (b' & E & L & G); [lia|by rewrite Hb|].
  rewrite Hb in E, G. exists b'. split; [done|]. split; [lia|].
  split; [|split]; intros i Hi; rewrite G.
  - rewrite decide_False; [done|]. pose proof (free_cell f s (alen d) i Hwf Hs ltac:(lia) Hfit Hi). lia.
  - replace (in_ f + s + i - (in_ f + s)) with i by lia. rewrite Z.mod_small by lia.
    rewrite decide_True by lia. destruct (arr_get_lt d i) as [x ->]; [lia|done].
  - rewrite decide_False; [done|]. replace (in_ f + i - (in_ f + s)) with (i - s) by lia.
    rewrite <- (Z_mod_plus_full _ 1 (size f)), Z.mod_small by lia. lia.
Qed.

Lemma arr_read_app {A} (u : list A) l n d1 d2 :
  0 ≤ l ≤ n → arr_read u 0 l = Some d1 → arr_read u l (n - l) = Some d2 →
  arr_read u 0 n = Some (d1 ++ d2).
Proof.
  intros Hl E1 E2. pose proof (arr_read_Some _ _ _ _ E1). pose proof (arr_read_Some _ _ _ _ E2).
  destruct (arr_read_spec u 0 l) as (x1 & Ex1 & L1 & G1); [lia..|].
  destruct (arr_read_spec u l (n - l)) as (x2 & Ex2 & L2 & G2); [lia..|].
  destruct (arr_read_spec u 0 n) as (x & Ex & L & G); [lia..|]. simplify_eq. rewrite Ex. f_equal.
  apply arr_ext; [rewrite alen_app; lia|]. intros i Hi. rewrite arr_get_app, G by lia. case_decide.
  - by rewrite G1 by lia.
  - rewrite G2 by lia. f_equal. lia.
Qed.

Lemma arr_write_nil {A} (l : list A) : arr_write l 0 [] = Some l.
Proof.
  unfold arr_write. change (Z.of_nat (length [])) with 0. simpl.
  destruct (Z.leb_spec (0 + 0) (Z.of_nat (length l))); [by rewrite drop_0|lia].
Qed.

Lemma content_with_buf f b :
  kfifo_wf f → (∀ i, 0 ≤ i < kfifo_len f → cell b (out f + i) = cell (buf f) (out f + i)) →
  content (with_buf f b) = content f.
Proof.
  intros Hwf Hold. unfold content. rewrite buf_with by done.
  change (kfifo_len (with_buf f b)) with (kfifo_len f). change (out (with_buf f b)) with (out f).
  apply list_fmap_ext. intros i x Hx. apply lookup_seqZ in Hx. apply Hold. lia.
Qed.

Lemma arr_write_Some {A} (l : list A) off d l' :
  arr_write l off d = Some l' → 0 ≤ off ∧ off + alen d ≤ alen l.
Proof.
  unfold arr_write, alen. destruct (Z.leb_spec 0 off),
    (Z.leb_spec (off + Z.of_nat (length d)) (Z.of_nat (length l))); simpl; done || lia.
Qed.

Lemma arr_write_app {A} (u u1 u2 : list A) d1 d2 :
  arr_write u 0 d1 = Some u1 → arr_write u1 (alen d1) d2 = Some u2 →
  arr_write u 0 (d1 ++ d2) = Some u2.
Proof.
  intros E1 E2. pose proof (arr_write_Some _ _ _ _ E1). pose proof (arr_write_Some _ _ _ _ E2).
  pose proof (alen_nonneg d1). pose proof (alen_nonneg d2).
  destruct (arr_write_spec u 0 d1) as (x1 & Ex1 & L1 & G1); [lia..|].
  rewrite E1 in Ex1. injection Ex1 as <-.
  destruct (arr_write_spec u1 (alen d1) d2) as (x2 & Ex2 & L2 & G2); [lia..|].
  rewrite E2 in Ex2. injection Ex2 as <-.
  destruct (arr_write_spec u 0 (d1 ++ d2)) as (x & Ex & L & G); [lia|rewrite alen_app; lia|].
  rewrite Ex. f_equal. apply arr_ext; [lia|]. intros i Hi. rewrite G, G2, G1, alen_app.
  repeat case_decide; try lia; try done; rewrite arr_get_app by lia; case_decide; try lia; f_equal; lia.
Qed.

(** A segment of the ring read without wrapping is a segment of the queue. *)
Lemma read_content f off m n :
  kfifo_wf f → 0 ≤ off → 0 ≤ m → 0 ≤ n → off + m + n ≤ kfifo_len f →
  n ≤ size f - (out f + off + m) mod size f →
  arr_read (buf f) ((out f + off + m) mod size f) n =
    Some (take (Z.to_nat n) (drop (Z.to_nat (off + m)) (content f))).
Proof.
  intros Hwf Hoff Hm Hn Hin Hno. destruct (kf_buf f Hwf) as (b & Eb & Eb' & Hb).
  pose proof (kf_size_bounds f Hwf). pose proof (kf_len_range f Hwf). pose proof (content_len f Hwf) as HL.
  pose proof (Z.mod_pos_bound (out f + off + m) (size f) ltac:(lia)). rewrite Eb'.
  destruct (arr_read_spec b ((out f + off + m) mod size f) n) as (d & Ed & Ld & Gd); [lia..|].
  rewrite Ed. f_equal. apply arr_ext; [rewrite alen_take by (rewrite ?alen_drop; lia); done|].
  intros i Hi. rewrite Gd, arr_get_take, arr_get_drop, content_get, Eb', <- cell_get by lia.
  f_equal. rewrite Hb, <- Z.add_assoc. rewrite (Z.add_assoc (out f)), <- (Z.add_assoc (out f)).
  rewrite (Z.add_assoc (out f) (off + m)).
  rewrite (mod_add_cases (out f + (off + m))) by lia. rewrite Z.add_assoc, decide_True by lia. done.
Qed.

Section UserFacts.
Context `{UserAccessLaws}.

(** The copy from user space: on success the bytes are in the ring after [in],
    on a fault only free cells have changed. *)
Lemma from_user_data_spec f from len off :
  kfifo_wf f → 0 ≤ len → 0 ≤ off → off + len ≤ size f - kfifo_len f →
  ∃ b ret total, __kfifo_from_user_data f from len off = Some (with_buf f b, ret, total) ∧
    alen b = size f ∧
    (∀ i, 0 ≤ i < kfifo_len f → cell b (out f + i) = cell (buf f) (out f + i)) ∧
    (ret = - EFAULT ∧ (∃ o k, 0 ≤ o ∧ 0 ≤ k ∧ o + k ≤ len ∧ (copy_from_user from o k).2 ≠ 0) ∨
     ret = 0 ∧ total = len ∧ ∃ d, arr_read from 0 len = Some d ∧ alen d = len ∧
      ∀ i, 0 ≤ i < len → Some (cell b (in_ f + off + i)) = d.[i]).
Proof.
  intros Hwf Hlen Hoff Hfit. destruct (kf_buf f Hwf) as (b0 & Eb & Eb' & Hb).
  pose proof (kf_size_bounds f Hwf). pose proof (kf_len_range f Hwf).
  unfold __kfifo_from_user_data. rewrite kf_off, size_sub_off, Eb' by done.
  set (o := (in_ f + off) mod size f). set (l := Z.min len (size f - o)).
  assert (Ho : 0 ≤ o < size f) by (apply Z.mod_pos_bound; lia).
  destruct (copy_from_user from 0 l) as [d1 r1] eqn:E1.
  destruct (cfu_range from 0 l) as [L1 R1]; [lia..|]. rewrite E1 in L1, R1. simpl in L1, R1.
  destruct (store_free f b0 off d1) as (b1 & S1 & Lb1 & Old1 & New1 & _); [done|done|lia..|].
  fold o in S1. rewrite S1. cbn [mbind option_bind].
  destruct (ctrue r1) eqn:Er1.
  { exists b1, (- EFAULT), r1. ands; [done|done|done|left]. split; [done|].
    exists 0, l. rewrite E1. ands; [lia..|]. by apply ctrue_true. }
  apply ctrue_false in Er1. subst r1.
  pose proof (alen_nonneg from).
  pose proof (cfu_ok from 0 l ltac:(lia) ltac:(lia)) as K1. rewrite E1 in K1. specialize (K1 eq_refl).
  simpl in K1. rewrite buf_with by done.
  destruct (copy_from_user from l (len - l)) as [d2 r2] eqn:E2.
  destruct (cfu_range from l (len - l)) as [L2 R2]; [lia..|]. rewrite E2 in L2, R2. simpl in L2, R2.
  assert (Hw2 : ∃ b2, arr_write b1 0 d2 = Some b2 ∧ alen b2 = size f ∧
    (∀ i, 0 ≤ i < kfifo_len f → cell b2 (out f + i) = cell b1 (out f + i)) ∧
    (∀ i, 0 ≤ i < alen d2 → Some (cell b2 (in_ f + (off + l) + i)) = d2.[i]) ∧
    (∀ i, 0 ≤ i < off + l → cell b2 (in_ f + i) = cell b1 (in_ f + i))).
  { destruct (decide (len ≤ size f - o)).
    - destruct d2; [|unfold alen in L2; simpl in L2; lia]. exists b1.
      ands; [apply arr_write_nil|done|done| |done].
      intros i Hi; unfold alen in Hi; simpl in Hi; lia.
    - assert (Ez : (in_ f + (off + l)) mod size f = 0).
      { rewrite Z.add_assoc, <- Zplus_mod_idemp_l. fold o. replace (o + l) with (size f) by lia.
        apply Z_mod_same_full. }
      destruct (store_free f b1 (off + l) d2) as (b2 & S2 & R); [done|done|lia..|].
      rewrite Ez in S2. by exists b2. }
  destruct Hw2 as (b2 & -> & Lb2 & Old2 & New2 & Keep2). cbn [mbind option_bind].
  assert (Ew : with_buf (with_buf f b1) b2 = with_buf f b2).
  { unfold with_buf. simpl. by destruct (buffer f). }
  rewrite Ew. exists b2. eexists _, _. split; [done|]. split; [done|].
  split. { intros i Hi. rewrite Old2, Old1 by done. done. }
  destruct (ctrue r2) eqn:Er2; [left|right].
  { split; [done|]. exists l, (len - l). rewrite E2. ands; [lia..|]. by apply ctrue_true. }
  apply ctrue_false in Er2. subst r2. apply arr_read_Some in K1 as K1'.
  pose proof (cfu_ok from l (len - l) ltac:(lia) ltac:(lia)) as K2. rewrite E2 in K2.
  specialize (K2 eq_refl). simpl in K2.
  split; [done|]. split; [rewrite uwrap_small by (unfold urange; lia); lia|].
  exists (d1 ++ d2). split; [by apply (arr_read_app _ l); [lia|..]|].
  split; [rewrite alen_app; lia|]. intros i Hi. rewrite arr_get_app by lia. case_decide.
  - rewrite <- New1, <- Z.add_assoc, Keep2 by lia. by rewrite Z.add_assoc.
  - rewrite <- New2 by lia. do 2 f_equal. lia.
Qed.

(** A copy from user space that succeeds appends the bytes read; one that
    faults leaves the queue as it was. *)
Lemma from_user_spec f from len :
  kfifo_wf f → 0 ≤ len →
  let n := Z.min (size f - kfifo_len f) len in
  ∃ f' ret total, kfifo_from_user f from len = Some (f', ret, total) ∧ kfifo_wf f' ∧
    size f' = size f ∧
    (ret = - EFAULT ∧ content f' = content f ∨
     ret = 0 ∧ total = n ∧ ∃ d, arr_read from 0 n = Some d ∧ content f' = content f ++ d).
Proof.
  intros Hwf Hlen n. pose proof (kf_len_range f Hwf). unfold kfifo_from_user.
  rewrite kf_avail by done. fold n.
  destruct (from_user_data_spec f from n 0) as (b & ret & total & E & Lb & Old & Hr); [done|lia..|].
  rewrite E. cbn [mbind option_bind]. destruct Hr as [[-> _] | (-> & -> & d & Ed & Ld & New)].
  - change (ctrue (- EFAULT)) with true. cbv iota. eexists _, _, _. split; [done|].
    split; [by apply with_buf_wf|]. split; [done|]. left. split; [done|]. by apply content_with_buf.
  - change (ctrue 0) with false. cbv iota. eexists _, _, _. split; [done|].
    split; [by apply add_in_wf; [|done|lia]|]. split; [done|]. right. split; [done|]. split; [done|].
    exists d. split; [done|]. rewrite <- Ld at 1. apply content_add_in; [done|done|lia|done|].
    intros i Hi. rewrite <- New by lia. do 2 f_equal. lia.
Qed.

(** A copy to user space removes exactly the bytes the user has received. *)
Lemma to_user_data_spec f to len off :
  kfifo_wf f → 0 ≤ len → 0 ≤ off → off + len ≤ kfifo_len f →
  ∃ to' ret lenout, __kfifo_to_user_data f to len off = Some (to', ret, lenout) ∧
    0 ≤ lenout ≤ len ∧ (ret = 0 ∧ lenout = len ∨ ret = - EFAULT ∧ lenout < len) ∧
    arr_write to 0 (take (Z.to_nat lenout) (drop (Z.to_nat off) (content f))) = Some to'.
Proof.
  intros Hwf Hlen Hoff Hfit. pose proof (kf_size_bounds f Hwf). pose proof (kf_len_range f Hwf).
  pose proof (content_len f Hwf) as HL.
  unfold __kfifo_to_user_data. rewrite kf_off, size_sub_off by done.
  set (o := (out f + off) mod size f). set (l := Z.min len (size f - o)).
  assert (Ho : 0 ≤ o < size f) by (apply Z.mod_pos_bound; lia).
  pose proof (read_content f off 0 l Hwf) as R1. rewrite !Z.add_0_r in R1. fold o in R1.
  rewrite R1 by lia. cbn [mbind option_bind]. set (d1 := take _ _).
  assert (L1 : alen d1 = l) by (apply alen_take; rewrite alen_drop; lia).
  destruct (copy_to_user to 0 d1) as [to1 r1] eqn:E1.
  pose proof (ctu_range to 0 d1 ltac:(lia)) as V1. pose proof (alen_nonneg to).
  pose proof (ctu_ok to 0 d1 ltac:(lia)) as K1.
  rewrite E1, L1 in *. simpl in V1, K1.
  destruct (ctrue r1) eqn:Er1.
  { apply ctrue_true in Er1. eexists _, _, _. split; [done|].
    rewrite uwrap_small by (unfold urange; lia). split; [lia|]. split; [right; split; [done|lia]|].
    rewrite <- K1. unfold d1. rewrite take_take. do 2 f_equal. lia. }
  apply ctrue_false in Er1. subst r1. rewrite Z.sub_0_r, take_ge in K1 by (unfold alen in L1; lia).
  set (d2 := take (Z.to_nat (len - l)) (drop (Z.to_nat (off + l)) (content f))).
  assert (R2 : arr_read (buf f) 0 (len - l) = Some d2).
  { destruct (decide (len ≤ size f - o)).
    - unfold d2. replace (len - l) with 0 by lia. unfold arr_read. simpl.
      destruct (Z.leb_spec (0 + 0) (Z.of_nat (length (buf f)))); [done|lia].
    - pose proof (read_content f off l (len - l) Hwf) as R2.
      assert (Ez : (out f + off + l) mod size f = 0).
      { rewrite <- Zplus_mod_idemp_l. fold o. replace (o + l) with (size f) by lia. apply Z_mod_same_full. }
      rewrite Ez in R2. apply R2; lia. }
  rewrite R2. cbn [mbind option_bind].
  assert (L2 : alen d2 = len - l) by (apply alen_take; rewrite alen_drop; lia).
  assert (D12 : ∀ m, 0 ≤ m ≤ len - l → d1 ++ take (Z.to_nat m) d2 =
    take (Z.to_nat (l + m)) (drop (Z.to_nat off) (content f))).
  { intros m Hm. unfold d1, d2. rewrite take_take, Nat.min_l by lia.
    rewrite (Z2Nat.inj_add off l), <- drop_drop by lia.
    rewrite Z2Nat.inj_add by lia. apply take_take_drop. }
  destruct (copy_to_user to1 l d2) as [to2 r2] eqn:E2.
  pose proof (arr_write_Some _ _ _ _ K1) as [_ Hl1].
  assert (alen to1 = alen to) by (destruct (arr_write_spec to 0 d1) as (x & Ex & Lx & _); [lia..|congruence]).
  pose proof (ctu_range to1 l d2 ltac:(lia)) as V2. pose proof (ctu_ok to1 l d2 ltac:(lia)) as K2.
  rewrite E2, L2 in *. simpl in V2, K2. rewrite <- L1 in K2.
  pose proof (arr_write_app _ _ _ _ _ K1 K2) as K. rewrite L1, D12 in K by lia.
  destruct (ctrue r2) eqn:Er2.
  - apply ctrue_true in Er2. eexists _, _, _. split; [done|].
    rewrite uwrap_small by (unfold urange; lia). split; [lia|]. split; [right; split; [done|lia]|done].
  - apply ctrue_false in Er2. subst r2. eexists _, _, _. split; [done|].
    rewrite uwrap_small by (unfold urange; lia). split; [lia|]. split; [left; split; [done|lia]|].
    by rewrite Z.sub_0_r in K.
Qed.

Lemma to_user_spec f to len :
  kfifo_wf f → 0 ≤ len →
  let n := Z.min (kfifo_len f) len in
  ∃ f' to' ret lenout, kfifo_to_user f to len = Some (f', to', ret, lenout) ∧
    kfifo_wf f' ∧ size f' = size f ∧ 0 ≤ lenout ≤ n ∧
    (ret = 0 ∧ lenout = n ∨ ret = - EFAULT ∧ lenout < n) ∧
    arr_write to 0 (take (Z.to_nat lenout) (content f)) = Some to' ∧
    content f' = drop (Z.to_nat lenout) (content f).
Proof.
  intros Hwf Hlen n. pose proof (kf_len_range f Hwf). unfold kfifo_to_user. fold n.
  destruct (to_user_data_spec f to n 0) as (to' & ret & lenout & E & Hl & Hr & Hw); [done|lia..|].
  rewrite E. cbn [mbind option_bind]. eexists _, _, _, _. split; [done|].
  split; [by apply add_out_wf; [|lia]|]. split; [done|]. split; [done|]. split; [done|].
  split; [done|]. by apply content_add_out; [|lia].
Qed.
End UserFacts.

(** ** The FIFO as an abstract queue *)

(** Calls of the byte interface, and what they answer. [OpPeek] is [kfifo_out_peek] at
    offset 0; at another offset the code copies more than it is asked for
    ([kfifo_out_peek_overruns]). *)
Inductive fifo_op :=
| OpIn (from : list Z) (len : Z)
| OpOut (to : list Z) (len : Z)
| OpPeek (to : list Z) (len : Z)
| OpSkip (len : Z)
| OpReset | OpResetOut
| OpSize | OpLen | OpAvail | OpIsEmpty | OpIsFull.

Inductive fifo_res := RNone | RVal (v : Z) | RBytes (d : list Z) (v : Z) | RBool (b : bool).

Definition op_valid (o : fifo_op) : Prop :=
  match o with
  | OpIn d len | OpOut d len => 0 ≤ len ≤ alen d
  | OpPeek d len => 0 ≤ len ≤ alen d ∧ len < 2 ^ 32
  | OpSkip len => 0 ≤ len
  | _ => True
  end.

Definition run_op (f : kfifo) (o : fifo_op) : option (kfifo * fifo_res) :=
  match o with
  | OpIn from len => '(f', n) ← kfifo_in f from len; Some (f', RVal n)
  | OpOut to len => '(f', to', n) ← kfifo_out f to len; Some (f', RBytes to' n)
  | OpPeek to len => '(to', n) ← kfifo_out_peek f to len 0; Some (f, RBytes to' n)
  | OpSkip len => Some (kfifo_skip f len, RNone)
  | OpReset => Some (kfifo_reset f, RNone)
  | OpResetOut => Some (kfifo_reset_out f, RNone)
  | OpSize => Some (f, RVal (kfifo_size f))
  | OpLen => Some (f, RVal (kfifo_len f))
  | OpAvail => Some (f, RVal (kfifo_avail f))
  | OpIsEmpty => Some (f, RBool (kfifo_is_empty f))
  | OpIsFull => Some (f, RBool (kfifo_is_full f))
  end.

(** The same calls on a queue [q] of capacity [cap]. *)
Definition spec_op (cap : Z) (q : list Z) (o : fifo_op) : list Z * fifo_res :=
  match o with
  | OpIn from len =>
      let n := Z.min (cap - alen q) len in (q ++ take (Z.to_nat n) from, RVal n)
  | OpOut to len =>
      let n := Z.min (alen q) len in
      (drop (Z.to_nat n) q, RBytes (take (Z.to_nat n) q ++ drop (Z.to_nat n) to) n)
  | OpPeek to len =>
      let n := Z.min (alen q) len in
      (q, RBytes (take (Z.to_nat n) q ++ drop (Z.to_nat n) to) n)
  | OpSkip len => (drop (Z.to_nat len) q, RNone)
  | OpReset | OpResetOut => ([], RNone)
  | OpSize => (q, RVal cap)
  | OpLen => (q, RVal (alen q))
  | OpAvail => (q, RVal (cap - alen q))
  | OpIsEmpty => (q, RBool (bool_decide (q = [])))
  | OpIsFull => (q, RBool (alen q =? cap))
  end.

Fixpoint run_ops (f : kfifo) (os : list fifo_op) : option (kfifo * list fifo_res) :=
  match os with
  | [] => Some (f, [])
  | o :: os => '(f, r) ← run_op f o; '(f, rs) ← run_ops f os; Some (f, r :: rs)
  end.

Fixpoint spec_ops (cap : Z) (q : list Z) (os : list fifo_op) : list Z * list fifo_res :=
  match os with
  | [] => (q, [])
  | o :: os => let '(q, r) := spec_op cap q o in let '(q, rs) := spec_ops cap q os in (q, r :: rs)
  end.

Lemma is_empty_content f : kfifo_wf f → kfifo_is_empty f = bool_decide (content f = []).
Proof.
  intros Hwf. pose proof (content_len f Hwf) as HL. unfold kfifo_is_empty.
  assert (Hz : kfifo_len f = 0 ↔ in_ f = out f).
  { destruct (wf_in f Hwf), (wf_out f Hwf). unfold kfifo_len, uwrap. split; [|intros ->; by rewrite Z.sub_diag].
    intros E. destruct (decide (out f ≤ in_ f)); [rewrite Z.mod_small in E; lia|].
    rewrite <- (Z_mod_plus_full _ 1), Z.mod_small in E; lia. }
  destruct (Z.eqb_spec (in_ f) (out f)) as [E|E].
  - symmetry. apply bool_decide_eq_true. apply Hz in E. rewrite E in HL.
    apply length_zero_iff_nil. unfold alen in HL. lia.
  - symmetry. apply bool_decide_eq_false. intros Ec. apply E, Hz. rewrite Ec in HL. by rewrite <- HL.
Qed.

Lemma kfifo_reset_spec f : kfifo_wf f → kfifo_wf (kfifo_reset f) ∧ content (kfifo_reset f) = [].
Proof.
  intros Hwf. pose proof (kf_size_bounds f Hwf). destruct Hwf as [Hs Hb _ _ _].
  split; [|done]. split; [done|done|done|done|]. change (0 ≤ size f). lia.
Qed.

Lemma kfifo_peek_spec f to len :
  kfifo_wf f → 0 ≤ len ≤ alen to → len < 2 ^ 32 →
  let n := Z.min (kfifo_len f) len in
  kfifo_out_peek f to len 0 = Some (take (Z.to_nat n) (content f) ++ drop (Z.to_nat n) to, n).
Proof.
  intros Hwf Hlen Hl n. pose proof (kf_len_range f Hwf). unfold kfifo_out_peek.
  rewrite Z.add_0_r, (uwrap_small 32 len) by (unfold urange; lia). fold n.
  by rewrite out_data_content by (done || lia).
Qed.

Lemma run_op_spec f o :
  kfifo_wf f → op_valid o →
  ∃ f' r, run_op f o = Some (f', r) ∧ kfifo_wf f' ∧ size f' = size f ∧
    spec_op (size f) (content f) o = (content f', r).
Proof.
  intros Hwf Ho. pose proof (content_len f Hwf) as HL. destruct o as [d len|d len|d len|len| | | | | | |]; simpl in *.
  - destruct (kfifo_in_spec f d len Hwf Ho) as (f' & E & Hwf' & Hsz & Hc). rewrite E. simpl.
    eexists _, _. rewrite HL. split; [done|]. split; [done|]. split; [done|]. by rewrite Hc.
  - destruct (kfifo_out_spec f d len Hwf Ho) as (f' & E & Hwf' & Hsz & Hc). rewrite E. simpl.
    eexists _, _. rewrite HL. split; [done|]. split; [done|]. split; [done|]. by rewrite Hc.
  - rewrite kfifo_peek_spec by tauto. simpl. eexists _, _. rewrite HL. by ands.
  - destruct (kfifo_skip_spec f len Hwf Ho) as [Hwf' Hc]. eexists _, _. split; [done|].
    split; [done|]. rewrite Hc. split; [|done]. unfold kfifo_skip. by destruct (len <? kfifo_len f).
  - destruct (kfifo_reset_spec f Hwf) as [Hwf' Hc]. eexists _, _. rewrite Hc. by ands.
  - destruct (kfifo_reset_out_spec f Hwf) as [Hwf' Hc]. eexists _, _. rewrite Hc. by ands.
  - eexists _, _. by ands.
  - eexists _, _. rewrite HL. by ands.
  - eexists _, _. rewrite HL, kf_avail by done. by ands.
  - eexists _, _. rewrite is_empty_content by done. by ands.
  - eexists _, _. rewrite HL. by ands.
Qed.

Lemma run_ops_spec f os :
  kfifo_wf f → Forall op_valid os →
  ∃ f' rs, run_ops f os = Some (f', rs) ∧ kfifo_wf f' ∧ size f' = size f ∧
    spec_ops (size f) (content f) os = (content f', rs).
Proof.
  intros Hwf Hos. revert f Hwf. induction Hos as [|o os Ho _ IH]; intros f Hwf; simpl.
  - eexists _, _. by ands.
  - destruct (run_op_spec f o Hwf Ho) as (f1 & r & E & Hwf1 & Hsz1 & Es). rewrite E, Es. simpl.
    destruct (IH f1 Hwf1) as (f2 & rs & E2 & Hwf2 & Hsz2 & Es2). rewrite E2. simpl.
    rewrite <- Hsz1, Es2. eexists _, _. ands; done || congruence.
Qed.

(** ** Main theorems *)

(** C3: Any sequence of calls of [kfifo_in], [kfifo_out], [kfifo_out_peek] at offset
    0, [kfifo_skip], [kfifo_reset], [kfifo_reset_out] and the queries of size, length, free
    space, emptiness and fullness on a well-formed FIFO runs without an access outside
    the buffer, keeps the invariant, and answers exactly what a bounded queue of bytes
    answers, wherever the free-running 32-bit indices stand (their wrap-around included). A
    peek at another offset is left out because the code copies too many bytes there. *)
Theorem kfifo_refines_queue f os :
  kfifo_wf f → Forall op_valid os →
  ∃ f' rs, run_ops f os = Some (f', rs) ∧ kfifo_wf f' ∧ size f' = size f ∧
    spec_ops (size f) (content f) os = (content f', rs).
Proof. apply run_ops_spec. Qed.

(** [kfifo_alloc] of [1 <= size <= 2^31] bytes never hits its [BUG_ON]: when
    memory is available it makes an empty well-formed FIFO whose size is the least
    power of two not below the request, and otherwise it returns [-ENOMEM] with a FIFO
    that is not initialised. *)
Theorem kfifo_alloc_correct (kmalloc : Z → option (list Z)) sz :
  (∀ n b, kmalloc n = Some b → alen b = n) → 1 ≤ sz ≤ 2 ^ 31 →
  (∃ f, kfifo_alloc kmalloc sz = Some (f, 0) ∧ kfifo_wf f ∧ content f = [] ∧
     sz ≤ size f < 2 * sz) ∨
  (∃ f, kfifo_alloc kmalloc sz = Some (f, - ENOMEM) ∧ kfifo_initialized f = false).
Proof.
  intros Hk Hsz.
  assert (Hr : ∃ k, 0 ≤ k ≤ 31 ∧ sz ≤ 2 ^ k < 2 * sz ∧
    (if negb (is_power_of_2 sz)
     then if 0x80000000 <? sz then None else Some (roundup_pow_of_two sz)
     else Some sz) = Some (2 ^ k)).
  { pose proof (is_power_of_2_spec sz ltac:(unfold urange; lia)) as Hp.
    destruct (is_power_of_2 sz); simpl.
    - destruct Hp as [Hp _]. destruct Hp as (k & Hk' & ->); [done|]. exists k. pose proof (Z.pow_pos_nonneg 2 k). ands; done || lia.
    - destruct (Z.ltb_spec 0x80000000 sz); [lia|].
      destruct (roundup_pow_of_two_spec sz) as (k & ? & ? & ?).
      { split; [|lia]. destruct (decide (sz = 1)) as [->|]; [|lia].
        destruct Hp as [_ Hp]. discriminate Hp. by exists 0. }
      exists k. ands; try lia. congruence. }
  destruct Hr as (k & Hk' & Hb & E). unfold kfifo_alloc. rewrite E. simpl.
  destruct (kmalloc (2 ^ k)) as [b|] eqn:Em.
  - left. destruct (init_wf b k Hk') as [Hwf Hc]; [by apply Hk|].
    eexists. split; [done|]. split; [done|]. split; [done|]. simpl. lia.
  - right. by eexists.
Qed.

(** The record interface is a FIFO of records: when [n + recsize] bytes are
    free, [kfifo_in_rec] appends one record (and returns 0), otherwise it returns
    [n + 1] and changes nothing. *)
Theorem kfifo_in_rec_appends f rs r n recsize :
  kfifo_wf f → recsize = 1 ∨ recsize = 2 → content f = enc recsize rs →
  n = alen r → n < 2 ^ (8 * recsize) →
  if decide (n + recsize ≤ size f - kfifo_len f) then
    ∃ f', __kfifo_in_rec f r n recsize = Some (f', 0) ∧ kfifo_wf f' ∧
      content f' = enc recsize (rs ++ [r])
  else __kfifo_in_rec f r n recsize = Some (f, n + 1).
Proof.
  intros Hwf Hrec Hc -> Hn. pose proof (alen_nonneg r).
  pose proof (in_rec_spec f r (alen r) recsize Hwf Hrec ltac:(lia) ltac:(lia)) as Hs.
  case_decide; [|done]. destruct Hs as (f' & E & Hwf' & _ & Hc'). exists f'. split; [done|].
  split; [done|]. rewrite Hc', Hc, enc_app. simpl. rewrite app_nil_r. do 2 f_equal.
  unfold alen. rewrite Nat2Z.id. by rewrite firstn_all.
Qed.

(** [kfifo_out_rec] on a FIFO whose front record is [r] removes that record and
    stores it at the start of the caller's buffer when it fits, and otherwise reports
    its length and changes nothing; [kfifo_peek_rec] gives its length and
    [kfifo_skip_rec] drops it. *)
Theorem kfifo_rec_front f to n recsize r rs :
  kfifo_wf f → recsize = 1 ∨ recsize = 2 → alen r < 2 ^ (8 * recsize) →
  content f = enc recsize (r :: rs) → n ≤ alen to →
  (if decide (alen r ≤ n) then
    ∃ f', __kfifo_out_rec f to n recsize = Some (f', r ++ drop (length r) to, 0, alen r) ∧
      kfifo_wf f' ∧ content f' = enc recsize rs
   else __kfifo_out_rec f to n recsize = Some (f, to, alen r, alen r)) ∧
  (∀ constant, kfifo_peek_rec constant f recsize = Some (alen r)) ∧
  ∃ f', __kfifo_skip_rec f recsize = Some f' ∧ kfifo_wf f' ∧ content f' = enc recsize rs.
Proof.
  intros Hwf Hrec Hr Hc Hto. pose proof (alen_nonneg r). split; [|split].
  - pose proof (out_rec_spec f to n recsize r _ Hwf Hrec Hr Hc Hto) as Hs. case_decide; [|done].
    destruct Hs as (f' & ? & ? & ? & ?). by exists f'.
  - intros constant.
    pose proof (peek_spec f recsize (alen r) (r ++ enc recsize rs) Hwf Hrec ltac:(lia) Hc) as Hp.
    unfold kfifo_peek_rec, __kfifo_peek_generic. rewrite Hp.
    destruct constant, Hrec as [-> | ->]; done.
  - destruct (skip_rec_spec f recsize r _ Hwf Hrec Hr Hc) as (f' & ? & ? & ? & ?). by exists f'.
Qed.

(** [kfifo_from_user] appends the bytes it read when the copy succeeds and leaves
    the queue unchanged when the copy faults, for every behaviour of
    [copy_from_user]. *)
Theorem kfifo_from_user_atomic `{UserAccessLaws} f from len :
  kfifo_wf f → 0 ≤ len →
  let n := Z.min (size f - kfifo_len f) len in
  ∃ f' ret total, kfifo_from_user f from len = Some (f', ret, total) ∧ kfifo_wf f' ∧
    (ret = - EFAULT ∧ content f' = content f ∨
     ret = 0 ∧ total = n ∧ ∃ d, arr_read from 0 n = Some d ∧ content f' = content f ++ d).
Proof.
  intros Hwf Hlen. destruct (from_user_spec f from len Hwf Hlen) as (f' & ret & tot & ? & ? & _ & ?).
  by exists f', ret, tot.
Qed.

(** [kfifo_to_user] removes from the queue exactly the [*lenout] bytes that have
    arrived in the user's buffer, also when the copy faults half way. *)
Theorem kfifo_to_user_exact `{UserAccessLaws} f to len :
  kfifo_wf f → 0 ≤ len →
  let n := Z.min (kfifo_len f) len in
  ∃ f' to' ret lenout, kfifo_to_user f to len = Some (f', to', ret, lenout) ∧
    kfifo_wf f' ∧ 0 ≤ lenout ≤ n ∧
    (ret = 0 ∧ lenout = n ∨ ret = - EFAULT ∧ lenout < n) ∧
    arr_write to 0 (take (Z.to_nat lenout) (content f)) = Some to' ∧
    content f' = drop (Z.to_nat lenout) (content f).
Proof.
  intros Hwf Hlen. destruct (to_user_spec f to len Hwf Hlen) as (f' & to' & ret & lo & ? & ? & _ & R).
  by exists f', to', ret, lo.
Qed.

(** ** Behaviour that departs from the intent of the code *)

(** A FIFO with four bytes queued, its indices about to wrap. *)
Definition wit_fifo : kfifo :=
  Kfifo (Some [13; 14; 0; 0; 0; 0; 11; 12]) 8 2 (2 ^ 32 - 2).

Lemma wit_fifo_wf : kfifo_wf wit_fifo.
Proof. split; [by exists 3|by eexists|done|done|done]. Qed.

(** User memory that is fully accessible. *)
#[local] Instance wit_access : UserAccess := {|
  copy_from_user u off n :=
    match arr_read u off n with Some d => (d, 0) | None => (replicate (Z.to_nat n) 0, n) end;
  copy_to_user u off d :=
    match arr_write u off d with Some u' => (u', 0) | None => (u, alen d) end |}.

#[local] Instance wit_access_laws : UserAccessLaws.
Proof.
  split; simpl.
  - intros u off n Ho Hn. destruct (arr_read u off n) as [d|] eqn:E; simpl.
    + destruct (arr_read_Some _ _ _ _ E) as (? & ? & ?).
      destruct (arr_read_spec u off n) as (x & Ex & Lx & _); [lia..|]. simplify_eq. lia.
    + unfold alen. rewrite length_replicate. lia.
  - intros u off n Ho Hn. destruct (arr_read u off n) as [d|] eqn:E; simpl; [done|]. intros ->.
    destruct (arr_read_spec u off 0) as (x & Ex & _); [lia..|]. congruence.
  - intros u off d Ho. pose proof (alen_nonneg d). destruct (arr_write u off d); simpl; lia.
  - intros u off d Ho. destruct (arr_write u off d) as [u'|] eqn:E; simpl.
    + rewrite Z.sub_0_r, take_ge by (unfold alen; lia). done.
    + rewrite Z.sub_diag. change (take (Z.to_nat 0) d) with (@nil Z).
      destruct (arr_write_spec u off []) as (x & Ex & Lx & Gx); [lia|unfold alen in *; simpl; lia|].
      rewrite Ex. f_equal. apply arr_ext; [done|]. intros i Hi. rewrite Gx, decide_False; [done|].
      unfold alen. simpl. lia.
Qed.

(** [kfifo_out_peek] with an offset copies [min(kfifo_len, len + offset)] bytes
    instead of at most [len]: asked for two bytes at offset one of a queue of four, it
    returns three and stores three bytes into the caller's two-byte object, and into a
    larger object it stores one byte that is not at that place of the request. *)
Theorem kfifo_out_peek_overruns :
  content wit_fifo = [11; 12; 13; 14] ∧
  kfifo_out_peek wit_fifo [0; 0] 2 1 = None ∧
  kfifo_out_peek wit_fifo [0; 0; 0; 0] 2 1 = Some ([12; 13; 14; 0], 3).
Proof. by vm_compute. Qed.

(** With a record size of zero the two versions of [kfifo_peek_rec] disagree: the
    out-of-line one returns the free space, the inline one the number of queued
    bytes. *)
Theorem kfifo_peek_rec_zero f :
  kfifo_peek_rec false f 0 = Some (kfifo_avail f) ∧ kfifo_peek_rec true f 0 = Some (kfifo_len f).
Proof. done. Qed.

(** [kfifo_from_user_rec] never queues a record that has bytes: a copy that
    succeeds makes [__kfifo_from_user_n] return the byte count instead of zero, so
    [__kfifo_from_user_rec] takes it for a failure, and the queue stays as it was. *)
Theorem kfifo_from_user_rec_drops `{UserAccessLaws} f from n recsize :
  kfifo_wf f → recsize = 1 ∨ recsize = 2 → 0 < n < 2 ^ (8 * recsize) →
  n + recsize ≤ size f - kfifo_len f →
  (∀ off k, 0 ≤ off → 0 ≤ k → off + k ≤ n → (copy_from_user from off k).2 = 0) →
  ∃ f', __kfifo_from_user_rec f from n recsize = Some (f', n) ∧ content f' = content f.
Proof.
  intros Hwf Hrec Hn Hfit Hok. pose proof (kf_size_bounds f Hwf). pose proof (kf_len_range f Hwf).
  unfold __kfifo_from_user_rec, __kfifo_from_user_n. rewrite kf_avail by done.
  rewrite (uwrap_small 32 (n + recsize)) by (unfold urange; lia).
  destruct (Z.ltb_spec (size f - kfifo_len f) (n + recsize)); [lia|].
  destruct (from_user_data_spec f from n recsize) as (b & ret & tot & E & Lb & Old & Hr); [done|lia..|].
  rewrite E. cbn [mbind option_bind].
  assert (tot = n) as ->.
  { destruct Hr as [[_ (o & k & ? & ? & ? & Hne)] | (_ & Et & _)]; [|done].
    by destruct (Hne (Hok o k ltac:(lia) ltac:(lia) ltac:(lia))). }
  destruct (Z.eqb_spec n 0); [lia|]. eexists. split; [done|]. by apply content_with_buf.
Qed.

(** ** Witnesses *)

Definition wit_ops : list fifo_op :=
  [OpIn [1; 2; 3; 4; 5] 5; OpOut [0; 0; 0] 3; OpPeek [0; 0] 2; OpLen; OpResetOut; OpIsEmpty;
   OpIn [6; 7; 8] 3; OpReset; OpLen; OpIn [9; 10] 2; OpSize].

Lemma kfifo_refines_queue_witness :
  ∃ f' rs, run_ops wit_fifo wit_ops = Some (f', rs) ∧ kfifo_wf f' ∧ size f' = 8 ∧
    ([9; 10], [RVal 4; RBytes [11; 12; 13] 3; RBytes [14; 1] 2; RVal 5; RNone; RBool true;
               RVal 3; RNone; RVal 0; RVal 2; RVal 8]) = (content f', rs).
Proof.
  apply (kfifo_refines_queue wit_fifo wit_ops).
  - exact wit_fifo_wf.
  - repeat constructor; unfold alen; simpl; lia.
Defined.

Definition wit_kmalloc (n : Z) : option (list Z) :=
  if 0 <=? n then Some (replicate (Z.to_nat n) 0) else None.

Lemma kfifo_alloc_correct_witness :
  (∃ f, kfifo_alloc wit_kmalloc 100 = Some (f, 0) ∧ kfifo_wf f ∧ content f = [] ∧
     100 ≤ size f < 2 * 100) ∨
  (∃ f, kfifo_alloc wit_kmalloc 100 = Some (f, - ENOMEM) ∧ kfifo_initialized f = false).
Proof.
  apply (kfifo_alloc_correct wit_kmalloc 100); [|lia].
  intros n b. unfold wit_kmalloc. destruct (Z.leb_spec 0 n); [|done]. intros E. injection E as <-.
  unfold alen. rewrite length_replicate. lia.
Defined.

(** A FIFO that holds the records [[7]] and [[8; 9]]. *)
Definition wit_recs : kfifo := Kfifo (Some [1; 7; 2; 8; 9; 0; 0; 0]) 8 5 0.

Lemma wit_recs_wf : kfifo_wf wit_recs.
Proof. split; [by exists 3|by eexists|done|done|done]. Qed.

Lemma kfifo_in_rec_appends_witness :
  ∃ f', __kfifo_in_rec wit_recs [5; 6] 2 1 = Some (f', 0) ∧ kfifo_wf f' ∧
    content f' = enc 1 ([[7]; [8; 9]] ++ [[5; 6]]).
Proof.
  exact (kfifo_in_rec_appends wit_recs [[7]; [8; 9]] [5; 6] 2 1 wit_recs_wf (or_introl eq_refl)
    eq_refl eq_refl eq_refl).
Defined.

Lemma kfifo_rec_front_witness :
  (∃ f', __kfifo_out_rec wit_recs [0; 0; 0] 3 1 = Some (f', [7; 0; 0], 0, 1) ∧
      kfifo_wf f' ∧ content f' = enc 1 [[8; 9]]) ∧
  (∀ constant, kfifo_peek_rec constant wit_recs 1 = Some 1) ∧
  ∃ f', __kfifo_skip_rec wit_recs 1 = Some f' ∧ kfifo_wf f' ∧ content f' = enc 1 [[8; 9]].
Proof.
  refine (kfifo_rec_front wit_recs [0; 0; 0] 3 1 [7] [[8; 9]] wit_recs_wf (or_introl eq_refl)
    eq_refl eq_refl _). unfold alen; simpl; lia.
Defined.

Lemma kfifo_from_user_atomic_witness :
  ∃ f' ret total, kfifo_from_user wit_fifo [1; 2; 3] 3 = Some (f', ret, total) ∧ kfifo_wf f' ∧
    (ret = - EFAULT ∧ content f' = content wit_fifo ∨
     ret = 0 ∧ total = 3 ∧ ∃ d, arr_read [1; 2; 3] 0 3 = Some d ∧ content f' = content wit_fifo ++ d).
Proof. apply (kfifo_from_user_atomic wit_fifo [1; 2; 3] 3 wit_fifo_wf). lia. Defined.

Lemma kfifo_to_user_exact_witness :
  ∃ f' to' ret lenout, kfifo_to_user wit_fifo [0; 0; 0] 3 = Some (f', to', ret, lenout) ∧
    kfifo_wf f' ∧ 0 ≤ lenout ≤ 3 ∧
    (ret = 0 ∧ lenout = 3 ∨ ret = - EFAULT ∧ lenout < 3) ∧
    arr_write [0; 0; 0] 0 (take (Z.to_nat lenout) (content wit_fifo)) = Some to' ∧
    content f' = drop (Z.to_nat lenout) (content wit_fifo).
Proof. apply (kfifo_to_user_exact wit_fifo [0; 0; 0] 3 wit_fifo_wf). lia. Defined.

Lemma kfifo_from_user_rec_drops_witness :
  ∃ f', __kfifo_from_user_rec wit_fifo [1; 2] 2 1 = Some (f', 2) ∧ content f' = content wit_fifo.
Proof.
  apply (kfifo_from_user_rec_drops wit_fifo [1; 2] 2 1 wit_fifo_wf (or_introl eq_refl)).
  - simpl. lia.
  - vm_compute. discriminate.
  - intros off k Ho Hk Hok. simpl.
    destruct (arr_read_spec [1; 2] off k Ho Hk Hok) as (d & Ed & _). by rewrite Ed.
Defined.
