(* ===== verification/Words.v ===== *)
(** * Thirty-two-bit words and their bytes

    Loads and stores of a word from four bytes in either byte order, and the byte
    swap of [include/linux/swab.h]; shared by the checksums and the ciphers. *)
From S2P Require Import Prelude.
#[local] Open Scope Z_scope.
#[local] Open Scope kernel_scope.

Abbreviation byte := (urange 8).

(** A 32-bit load from four bytes (little endian). *)
Definition le32 (b0 b1 b2 b3 : Z) : Z := b0 + 256 * b1 + 65536 * b2 + 16777216 * b3.

Definition le32_bytes (x : Z) : list Z :=
  [u8 x; u8 (Z.shiftr x 8); u8 (Z.shiftr x 16); u8 (Z.shiftr x 24)].


(** [___constant_swab32]: what [cpu_to_be32] is on this processor. *)
Definition swab32 (x : Z) : Z :=
  Z.lor (Z.lor (Z.shiftl (Z.land x 0x000000ff) 24) (Z.shiftl (Z.land x 0x0000ff00) 8))
        (Z.lor (Z.shiftr (Z.land x 0x00ff0000) 8) (Z.shiftr (Z.land x 0xff000000) 24)).

Lemma uwrap_lxor w x y : 0 ≤ w → uwrap w (Z.lxor x y) = Z.lxor (uwrap w x) (uwrap w y).
Proof.
  intros Hw. apply Z.bits_inj'. intros i Hi. rewrite Z.lxor_spec, !testbit_uwrap, Z.lxor_spec by lia.
  by destruct (i <? w).
Qed.

Lemma land255_range x : 0 ≤ Z.land x 255 < 256.
Proof. change 255 with (Z.ones 8). rewrite Z.land_ones by lia. apply Z.mod_pos_bound. lia. Qed.

Lemma add_shiftl_lxor x y k : 0 ≤ k → 0 ≤ x < 2 ^ k → x + 2 ^ k * y = Z.lxor x (Z.shiftl y k).
Proof.
  intros Hk Hx. rewrite Z.shiftl_mul_pow2, (Z.mul_comm y) by lia. apply Z.add_nocarry_lxor.
  apply Z.bits_inj'. intros i Hi. rewrite Z.land_spec, Z.bits_0. destruct (decide (i < k)).
  - rewrite (Z.mul_comm _ y), Z.mul_pow2_bits_low by lia. apply andb_false_r.
  - rewrite (urange_testbit_high k x i) by (done || lia). done.
Qed.

Lemma le32_lxor b0 b1 b2 b3 : byte b0 → byte b1 → byte b2 →
  le32 b0 b1 b2 b3 =
    Z.lxor (Z.lxor (Z.lxor b0 (Z.shiftl b1 8)) (Z.shiftl b2 16)) (Z.shiftl b3 24).
Proof.
  unfold le32, urange. intros H0 H1 H2. change (2 ^ 8) with 256 in *.
  change 16777216 with (2 ^ 24). rewrite <- (add_shiftl_lxor _ b3 24).
  - f_equal. change 65536 with (2 ^ 16). rewrite <- (add_shiftl_lxor _ b2 16).
    + f_equal. change 256 with (2 ^ 8). by rewrite <- (add_shiftl_lxor _ b1 8).
    + lia.
    + rewrite <- (add_shiftl_lxor _ b1 8) by lia. lia.
  - lia.
  - rewrite <- (add_shiftl_lxor _ b1 8) by lia. rewrite <- (add_shiftl_lxor _ b2 16) by lia. lia.
Qed.

(** The byte of a word that holds bit [i]. *)
Lemma le32_testbit b0 b1 b2 b3 i : byte b0 → byte b1 → byte b2 → byte b3 → 0 ≤ i →
  Z.testbit (le32 b0 b1 b2 b3) i =
    if i <? 8 then Z.testbit b0 i else if i <? 16 then Z.testbit b1 (i - 8)
    else if i <? 24 then Z.testbit b2 (i - 16) else if i <? 32 then Z.testbit b3 (i - 24) else false.
Proof.
  intros H0 H1 H2 H3 Hi. rewrite le32_lxor, !Z.lxor_spec, !Z.shiftl_spec by done.
  assert (Hh : ∀ b j, byte b → 8 ≤ j → Z.testbit b j = false) by (intros; by eapply urange_testbit_high).
  destruct (Z.ltb_spec i 8), (Z.ltb_spec i 16), (Z.ltb_spec i 24), (Z.ltb_spec i 32); try lia;
    rewrite ?(Z.testbit_neg_r _ (i - 8)), ?(Z.testbit_neg_r _ (i - 16)), ?(Z.testbit_neg_r _ (i - 24)) by lia;
    rewrite ?(Hh b0 i), ?(Hh b1 (i - 8)), ?(Hh b2 (i - 16)), ?(Hh b3 (i - 24)) by (done || lia);
    rewrite ?xorb_false_r, ?xorb_false_l; done.
Qed.

Lemma byte_of x k : byte (Z.land (Z.shiftr x k) 255).
Proof. exact (land255_range _). Qed.
Lemma byte_lxor a b : byte a → byte b → byte (Z.lxor a b).
Proof. by apply urange_lxor. Qed.
#[export] Hint Resolve byte_of byte_lxor : word.

Lemma land255_testbit x k i : 0 ≤ k → 0 ≤ i →
  Z.testbit (Z.land (Z.shiftr x k) 255) i = (i <? 8) && Z.testbit x (i + k).
Proof.
  intros Hk Hi. rewrite Z.land_spec, Z.shiftr_spec by lia. change 255 with (Z.ones 8).
  destruct (Z.ltb_spec i 8); simpl; [rewrite Z.ones_spec_low by lia; apply andb_true_r|].
  rewrite Z.ones_spec_high by lia. apply andb_false_r.
Qed.

(** A word is made of its four bytes. *)
Abbreviation byte_at x k := (Z.land (Z.shiftr x k) 255).

Lemma word_bytes x : urange 32 x → x = le32 (byte_at x 0) (byte_at x 8) (byte_at x 16) (byte_at x 24).
Proof.
  intros Hx. apply Z.bits_inj'. intros i Hi. rewrite le32_testbit by (solve [auto with word] || lia).
  destruct (Z.ltb_spec i 8); [|destruct (Z.ltb_spec i 16); [|destruct (Z.ltb_spec i 24); [|
    destruct (Z.ltb_spec i 32); [|by eapply urange_testbit_high]]]];
    rewrite land255_testbit by lia; (destruct (Z.ltb_spec (i - 8) 8), (Z.ltb_spec (i - 16) 8),
    (Z.ltb_spec (i - 24) 8), (Z.ltb_spec i 8); try lia); cbn [andb]; f_equal; lia.
Qed.

Lemma le32_bytes_at b0 b1 b2 b3 : byte b0 → byte b1 → byte b2 → byte b3 →
  byte_at (le32 b0 b1 b2 b3) 0 = b0 ∧ byte_at (le32 b0 b1 b2 b3) 8 = b1 ∧
  byte_at (le32 b0 b1 b2 b3) 16 = b2 ∧ byte_at (le32 b0 b1 b2 b3) 24 = b3.
Proof.
  intros H0 H1 H2 H3. unfold le32, urange in *. change (2 ^ 8) with 256 in *.
  change 255 with (Z.ones 8). rewrite !Z.land_ones, !Z.shiftr_div_pow2 by lia.
  change (2 ^ 8) with 256. change (2 ^ 16) with 65536. change (2 ^ 24) with 16777216.
  change (2 ^ 0) with 1. Z.to_euclidean_division_equations. lia.
Qed.

Lemma lxor_le32 a0 a1 a2 a3 b0 b1 b2 b3 :
  byte a0 → byte a1 → byte a2 → byte a3 → byte b0 → byte b1 → byte b2 → byte b3 →
  Z.lxor (le32 a0 a1 a2 a3) (le32 b0 b1 b2 b3) =
  le32 (Z.lxor a0 b0) (Z.lxor a1 b1) (Z.lxor a2 b2) (Z.lxor a3 b3).
Proof.
  intros. apply Z.bits_inj'. intros i Hi. rewrite Z.lxor_spec, !le32_testbit by (auto with word).
  repeat case_match; by rewrite ?Z.lxor_spec.
Qed.

Lemma le32_range b0 b1 b2 b3 : byte b0 → byte b1 → byte b2 → byte b3 → urange 32 (le32 b0 b1 b2 b3).
Proof. unfold urange, le32. intros. lia. Qed.

Lemma land_mask_shift x k : 0 ≤ k → Z.land x (Z.shiftl 255 k) = Z.shiftl (byte_at x k) k.
Proof.
  intros Hk. apply Z.bits_inj'. intros i Hi.
  rewrite Z.land_spec, !Z.shiftl_spec by lia. destruct (decide (i < k)).
  - rewrite !(Z.testbit_neg_r _ (i - k)) by lia. apply andb_false_r.
  - rewrite Z.land_spec, Z.shiftr_spec by lia. do 2 f_equal. lia.
Qed.

Lemma swab32_bytes x : urange 32 x →
  swab32 x = le32 (byte_at x 24) (byte_at x 16) (byte_at x 8) (byte_at x 0).
Proof.
  intros Hx. unfold swab32.
  change (Z.land x 0xff) with (Z.land x (Z.shiftl 255 0)). change 0xff00 with (Z.shiftl 255 8).
  change 0xff0000 with (Z.shiftl 255 16). change 0xff000000 with (Z.shiftl 255 24).
  rewrite (land_mask_shift x 0), (land_mask_shift x 8), (land_mask_shift x 16),
    (land_mask_shift x 24) by lia.
  rewrite Z.shiftl_0_r, Z.shiftl_shiftl, !Z.shiftr_shiftl_l by lia.
  change (8 + 8) with 16. change (16 - 8) with 8. change (24 - 24) with 0. rewrite Z.shiftl_0_r.
  rewrite le32_lxor by (auto with word). apply Z.bits_inj'. intros i Hi.
  rewrite !Z.lor_spec, !Z.lxor_spec, !Z.shiftl_spec by lia.
  assert (Hh : ∀ k j, 8 ≤ j → Z.testbit (byte_at x k) j = false).
  { intros k j Hj. eapply urange_testbit_high; [apply byte_of|done]. }
  destruct (decide (i < 8)); [|destruct (decide (i < 16)); [|destruct (decide (i < 24))]];
    rewrite ?(Z.testbit_neg_r _ (i - 8)), ?(Z.testbit_neg_r _ (i - 16)), ?(Z.testbit_neg_r _ (i - 24)) by lia;
    rewrite ?(Hh 24 i), ?(Hh 16 (i - 8)), ?(Hh 8 (i - 16)) by lia;
    rewrite ?xorb_false_r, ?xorb_false_l, ?orb_false_r, ?orb_false_l; done.
Qed.

Lemma swab32_le32 a b c d : byte a → byte b → byte c → byte d →
  swab32 (le32 a b c d) = le32 d c b a.
Proof.
  intros. rewrite swab32_bytes by (by apply le32_range).
  destruct (le32_bytes_at a b c d) as (-> & -> & -> & ->); done.
Qed.

Lemma swab32_range x : urange 32 x → urange 32 (swab32 x).
Proof. intros Hx. rewrite swab32_bytes by done. apply le32_range; auto with word. Qed.

Lemma swab32_involutive x : urange 32 x → swab32 (swab32 x) = x.
Proof.
  intros Hx. rewrite (swab32_bytes x Hx), swab32_le32 by (auto with word). symmetry. by apply word_bytes.
Qed.

Lemma swab32_lxor x y : urange 32 x → urange 32 y → swab32 (Z.lxor x y) = Z.lxor (swab32 x) (swab32 y).
Proof.
  intros Hx Hy. rewrite (word_bytes x Hx), (word_bytes y Hy), lxor_le32 by (auto with word).
  rewrite !swab32_le32, lxor_le32 by (auto with word). done.
Qed.

Lemma shiftl24_range b : byte b → urange 32 (Z.shiftl b 24).
Proof. intros Hb. rewrite Z.shiftl_mul_pow2 by lia. unfold urange in *. lia. Qed.

Lemma le32_shiftl8 a b c d : byte a → byte b → byte c → byte d →
  u32 (Z.shiftl (le32 a b c d) 8) = le32 0 a b c.
Proof.
  intros. unfold uwrap, le32. rewrite Z.shiftl_mul_pow2 by lia. unfold urange in *.
  change (2 ^ 8) with 256 in *. change (2 ^ 32) with 4294967296.
  Z.to_euclidean_division_equations. lia.
Qed.

Lemma le32_shiftr8 a b c d : byte a → byte b → byte c → byte d →
  Z.shiftr (le32 a b c d) 8 = le32 b c d 0.
Proof.
  intros. unfold le32. rewrite Z.shiftr_div_pow2 by lia. unfold urange in *.
  change (2 ^ 8) with 256 in *. Z.to_euclidean_division_equations. lia.
Qed.

Lemma byte0 : byte 0.
Proof. done. Qed.
Lemma shiftl_byte_range b k : byte b → 0 ≤ k ≤ 24 → urange 32 (Z.shiftl b k).
Proof.
  intros Hb Hk. rewrite Z.shiftl_mul_pow2 by lia. unfold urange in *.
  assert (2 ^ k ≤ 2 ^ 24) by (apply Z.pow_le_mono_r; lia). pose proof (Z.pow_pos_nonneg 2 k). nia.
Qed.
Lemma byte_word b : byte b → urange 32 b.
Proof. unfold urange. lia. Qed.
Lemma word_lxor x y : urange 32 x → urange 32 y → urange 32 (Z.lxor x y).
Proof. by apply urange_lxor. Qed.
#[export] Hint Resolve byte0 word_lxor byte_word le32_range shiftl24_range : word.
#[export] Hint Extern 1 (urange 32 (Z.shiftl _ _)) => apply shiftl_byte_range; [|lia] : word.

Lemma le32_of_byte b : le32 b 0 0 0 = b.
Proof. unfold le32. lia. Qed.
Lemma le32_of_top b : le32 0 0 0 b = Z.shiftl b 24.
Proof. unfold le32. rewrite Z.shiftl_mul_pow2 by lia. lia. Qed.
Lemma le32_shiftr24 a b c d : byte a → byte b → byte c → byte d → Z.shiftr (le32 a b c d) 24 = d.
Proof.
  intros. unfold le32. rewrite Z.shiftr_div_pow2 by lia. unfold urange in *.
  change (2 ^ 8) with 256 in *. change (2 ^ 24) with 16777216. Z.to_euclidean_division_equations. lia.
Qed.
Lemma le32_low a b c d : byte a → byte b → byte c → byte d → Z.land (le32 a b c d) 255 = a.
Proof. intros. destruct (le32_bytes_at a b c d) as [E _]; [done..|]. by rewrite Z.shiftr_0_r in E. Qed.

(** Every 32-bit word is given by four bytes. *)
Lemma word_cases s : urange 32 s → ∃ a b c d, byte a ∧ byte b ∧ byte c ∧ byte d ∧ s = le32 a b c d.
Proof. intros Hs. eexists _, _, _, _. ands; [..|by apply word_bytes]; auto with word. Qed.

Lemma le32_bytes_ok x : urange 32 x →
  Forall byte (le32_bytes x) ∧ le32_bytes x = [byte_at x 0; byte_at x 8; byte_at x 16; byte_at x 24].
Proof.
  intros Hx. assert (E : ∀ k, u8 (Z.shiftr x k) = byte_at x k).
  { intros k. change 255 with (Z.ones 8). by rewrite Z.land_ones by lia. }
  unfold le32_bytes. rewrite !E. replace (u8 x) with (byte_at x 0) by (by rewrite <- E, Z.shiftr_0_r).
  split; [|done]. repeat constructor; apply land255_range.
Qed.

