(* ===== verification/Cipher.v ===== *)
(** * Block ciphers

    The interface between the ciphers of [crypto/] and the modes that use them
    ([cia_encrypt] and [cia_decrypt] of [struct cipher_alg]), and the loads and
    stores of 64-bit blocks the ciphers share. *)
From S2P Require Import Prelude Words.
#[local] Open Scope Z_scope.
#[local] Open Scope kernel_scope.

(** ** Interface *)

(** A block of [n] bytes. *)
Definition block (n : Z) (b : list Z) : Prop := alen b = n ∧ Forall byte b.

Class BlockCipher := {
  bsize : Z;
  cia_encrypt : list Z → option (list Z);
  cia_decrypt : list Z → option (list Z) }.

(** What a cipher with a key set promises: it stays inside its tables and
    buffers, maps blocks to blocks, and decryption undoes encryption. *)
Class BlockCipherLaws `{BlockCipher} := {
  bsize_pow2 : ∃ k, 0 ≤ k < 16 ∧ bsize = 2 ^ k;
  encrypt_ok b : block bsize b →
    ∃ c, cia_encrypt b = Some c ∧ block bsize c ∧ cia_decrypt c = Some b;
  decrypt_ok c : block bsize c → ∃ b, cia_decrypt c = Some b ∧ block bsize b }.

(** ** Words of a block *)

(** [le32_to_cpu(((__le32 * )p)[i])] and [be32_to_cpu(((__be32 * )p)[i])]. *)
Definition get_le32 (p : list Z) (i : Z) : option Z :=
  b0 ← p.[4 * i]; b1 ← p.[4 * i + 1]; b2 ← p.[4 * i + 2]; b3 ← p.[4 * i + 3];
  Some (le32 b0 b1 b2 b3).
Definition get_be32 (p : list Z) (i : Z) : option Z := x ← get_le32 p i; Some (swab32 x).

(** The bytes of a word stored with [cpu_to_le32] and [cpu_to_be32]. *)
Definition put_le32 (x : Z) : list Z := le32_bytes x.
Definition put_be32 (x : Z) : list Z := le32_bytes (swab32 x).

(** [rol32] of [include/linux/bitops.h]. *)
Definition rol32 (word shift : Z) : Z := Z.lor (ushl 32 word shift) (Z.shiftr word (32 - shift)).

Lemma get_le32_lit a0 a1 a2 a3 a4 a5 a6 a7 :
  get_le32 [a0; a1; a2; a3; a4; a5; a6; a7] 0 = Some (le32 a0 a1 a2 a3) ∧
  get_le32 [a0; a1; a2; a3; a4; a5; a6; a7] 1 = Some (le32 a4 a5 a6 a7).
Proof. done. Qed.

Lemma get_le32_put y z :
  urange 32 y → urange 32 z →
  get_le32 (put_le32 y ++ put_le32 z) 0 = Some y ∧ get_le32 (put_le32 y ++ put_le32 z) 1 = Some z.
Proof.
  intros Hy Hz. unfold put_le32. destruct (le32_bytes_ok y Hy) as [_ ->].
  destruct (le32_bytes_ok z Hz) as [_ ->]. cbn [app].
  rewrite (proj1 (get_le32_lit _ _ _ _ _ _ _ _)), (proj2 (get_le32_lit _ _ _ _ _ _ _ _)).
  by rewrite <- !word_bytes.
Qed.

Lemma get_be32_put y z :
  urange 32 y → urange 32 z →
  get_be32 (put_be32 y ++ put_be32 z) 0 = Some y ∧ get_be32 (put_be32 y ++ put_be32 z) 1 = Some z.
Proof.
  intros Hy Hz. unfold get_be32, put_be32.
  destruct (get_le32_put (swab32 y) (swab32 z)) as [E0 E1]; [by apply swab32_range..|].
  unfold put_le32 in *. rewrite E0, E1. cbn [mbind option_bind]. by rewrite !swab32_involutive.
Qed.

Lemma put_le32_block y z : urange 32 y → urange 32 z → block 8 (put_le32 y ++ put_le32 z).
Proof.
  intros Hy Hz. destruct (le32_bytes_ok y Hy) as [Hy' _]. destruct (le32_bytes_ok z Hz) as [Hz' _].
  split; [done|]. by apply Forall_app.
Qed.

Lemma put_be32_block y z : urange 32 y → urange 32 z → block 8 (put_be32 y ++ put_be32 z).
Proof. intros. apply put_le32_block; by apply swab32_range. Qed.

(** A block of eight bytes is two words. *)
Lemma le_block_cases b : block 8 b → ∃ y z, urange 32 y ∧ urange 32 z ∧ b = put_le32 y ++ put_le32 z.
Proof.
  intros [Hl Hb]. unfold alen in Hl.
  destruct b as [|b0 [|b1 [|b2 [|b3 [|b4 [|b5 [|b6 [|b7 [|]]]]]]]]]; simpl in Hl; try lia.
  rewrite !list.Forall_cons in Hb. destruct Hb as (H0 & H1 & H2 & H3 & H4 & H5 & H6 & H7 & _).
  exists (le32 b0 b1 b2 b3), (le32 b4 b5 b6 b7).
  assert (R1 : urange 32 (le32 b0 b1 b2 b3)) by (by apply le32_range).
  assert (R2 : urange 32 (le32 b4 b5 b6 b7)) by (by apply le32_range).
  split; [done|]. split; [done|]. unfold put_le32.
  destruct (le32_bytes_ok _ R1) as [_ ->], (le32_bytes_ok _ R2) as [_ ->].
  destruct (le32_bytes_at b0 b1 b2 b3) as (-> & -> & -> & ->); [done..|].
  by destruct (le32_bytes_at b4 b5 b6 b7) as (-> & -> & -> & ->).
Qed.

Lemma be_block_cases b : block 8 b → ∃ y z, urange 32 y ∧ urange 32 z ∧ b = put_be32 y ++ put_be32 z.
Proof.
  intros (y & z & Hy & Hz & ->)%le_block_cases. exists (swab32 y), (swab32 z).
  split; [by apply swab32_range|]. split; [by apply swab32_range|].
  unfold put_be32. by rewrite !swab32_involutive.
Qed.

(** ** Ciphers on two words

    A permutation of pairs of words with its inverse gives a cipher on blocks,
    in either byte order. *)
Definition on_le_block (f : Z → Z → option (Z * Z)) (src : list Z) : option (list Z) :=
  y ← get_le32 src 0; z ← get_le32 src 1;
  '(y, z) ← f y z; Some (put_le32 y ++ put_le32 z).
Definition on_be_block (f : Z → Z → option (Z * Z)) (src : list Z) : option (list Z) :=
  y ← get_be32 src 0; z ← get_be32 src 1;
  '(y, z) ← f y z; Some (put_be32 y ++ put_be32 z).

Record word_cipher (enc dec : Z → Z → option (Z * Z)) : Prop := {
  wc_enc y z : urange 32 y → urange 32 z →
    ∃ y' z', enc y z = Some (y', z') ∧ urange 32 y' ∧ urange 32 z' ∧ dec y' z' = Some (y, z);
  wc_dec y z : urange 32 y → urange 32 z →
    ∃ y' z', dec y z = Some (y', z') ∧ urange 32 y' ∧ urange 32 z' }.

Section WordCipher.
Context (enc dec : Z → Z → option (Z * Z)) (Hwc : word_cipher enc dec).

Lemma le_block_cipher b : block 8 b →
  (∃ c, on_le_block enc b = Some c ∧ block 8 c ∧ on_le_block dec c = Some b) ∧
  (∃ c, on_le_block dec b = Some c ∧ block 8 c).
Proof.
  intros (y & z & Hy & Hz & ->)%le_block_cases. unfold on_le_block.
  destruct (get_le32_put y z Hy Hz) as [-> ->]. cbn [mbind option_bind].
  destruct (wc_enc _ _ Hwc y z Hy Hz) as (y' & z' & -> & Hy' & Hz' & E).
  destruct (wc_dec _ _ Hwc y z Hy Hz) as (y2 & z2 & -> & Hy2 & Hz2). cbn [mbind option_bind].
  split; eexists; (split; [done|]); [|by apply put_le32_block].
  split; [by apply put_le32_block|]. destruct (get_le32_put y' z' Hy' Hz') as [-> ->].
  cbn [mbind option_bind]. by rewrite E.
Qed.

Lemma be_block_cipher b : block 8 b →
  (∃ c, on_be_block enc b = Some c ∧ block 8 c ∧ on_be_block dec c = Some b) ∧
  (∃ c, on_be_block dec b = Some c ∧ block 8 c).
Proof.
  intros (y & z & Hy & Hz & ->)%be_block_cases. unfold on_be_block.
  destruct (get_be32_put y z Hy Hz) as [-> ->]. cbn [mbind option_bind].
  destruct (wc_enc _ _ Hwc y z Hy Hz) as (y' & z' & -> & Hy' & Hz' & E).
  destruct (wc_dec _ _ Hwc y z Hy Hz) as (y2 & z2 & -> & Hy2 & Hz2). cbn [mbind option_bind].
  split; eexists; (split; [done|]); [|by apply put_be32_block].
  split; [by apply put_be32_block|]. destruct (get_be32_put y' z' Hy' Hz') as [-> ->].
  cbn [mbind option_bind]. by rewrite E.
Qed.
End WordCipher.

Lemma le_cipher_laws enc dec : word_cipher enc dec →
  @BlockCipherLaws {| bsize := 8; cia_encrypt := on_le_block enc; cia_decrypt := on_le_block dec |}.
Proof.
  intros Hwc. split.
  - by exists 3.
  - intros b Hb. apply (le_block_cipher enc dec Hwc b Hb).
  - intros b Hb. apply (le_block_cipher enc dec Hwc b Hb).
Qed.

Lemma be_cipher_laws enc dec : word_cipher enc dec →
  @BlockCipherLaws {| bsize := 8; cia_encrypt := on_be_block enc; cia_decrypt := on_be_block dec |}.
Proof.
  intros Hwc. split.
  - by exists 3.
  - intros b Hb. apply (be_block_cipher enc dec Hwc b Hb).
  - intros b Hb. apply (be_block_cipher enc dec Hwc b Hb).
Qed.

(** ** Arrays of words *)

Definition words (n : Z) (l : list Z) : Prop := alen l = n ∧ Forall (urange 32) l.
Lemma words_get n l i : words n l → 0 ≤ i < n → ∃ x, l.[i] = Some x ∧ urange 32 x.
Proof.
  intros [Hl HF] Hi. destruct (arr_get_lt l i) as [x Hx]; [lia|]. exists x. split; [done|].
  by eapply Forall_arr_get.
Qed.

Lemma words_set n l i x : words n l → 0 ≤ i < n → urange 32 x → ∃ l', l.[i <- x] = Some l' ∧ words n l'.
Proof.
  intros [Hl HF] Hi Hx. eexists. split; [apply arr_set_lt; lia|]. split; [by rewrite alen_insert|].
  by apply Forall_insert.
Qed.

Lemma words_forallb n l :
  (alen l =? n) && forallb (λ x, (0 <=? x) && (x <? 4294967296)) l = true → words n l.
Proof.
  intros [Hl HF]%andb_true_iff. split; [by apply Z.eqb_eq|].
  rewrite forallb_forall in HF. apply List.Forall_forall. intros x [H1 H2]%HF%andb_true_iff.
  unfold urange. lia.
Qed.

(** ** Modular addition *)

Lemma lxor_cancel x y : Z.lxor (Z.lxor x y) y = x.
Proof. by rewrite Z.lxor_assoc, Z.lxor_nilpotent, Z.lxor_0_r. Qed.

Lemma uadd_usub x f : urange 32 x → u32 (u32 (x + f) - f) = x.
Proof.
  intros Hx. unfold uwrap. rewrite Zminus_mod_idemp_l. replace (x + f - f) with x by lia.
  by apply Z.mod_small.
Qed.
