(* ===== verification/Tea.v ===== *)
(** * TEA, XTEA and XETA

    Models [crypto/tea.c]: the three ciphers of the family on 64-bit blocks with
    128-bit keys, with 32-bit wrap-around written out, and proves that decryption
    undoes encryption and that the loops on the running sum terminate. *)
From S2P Require Import Prelude Words Cipher.
#[local] Open Scope Z_scope.
#[local] Open Scope kernel_scope.

(** ** Definitions *)

Definition TEA_ROUNDS : Z := 32.
Definition TEA_DELTA : Z := 0x9e3779b9.
Definition XTEA_ROUNDS : Z := 32.
Definition XTEA_DELTA : Z := 0x9e3779b9.

(** [struct tea_ctx]: the four key words. *)
Definition tea_setkey (in_key : list Z) : option (list Z) :=
  k0 ← get_le32 in_key 0; k1 ← get_le32 in_key 1;
  k2 ← get_le32 in_key 2; k3 ← get_le32 in_key 3;
  Some [k0; k1; k2; k3].
Definition xtea_setkey : list Z → option (list Z) := tea_setkey.

(** [((v << 4) + ka) ^ (v + sum) ^ ((v >> 5) + kb)] *)
Definition tea_mix (v sum ka kb : Z) : Z :=
  Z.lxor (Z.lxor (u32 (ushl 32 v 4 + ka)) (u32 (v + sum))) (u32 (Z.shiftr v 5 + kb)).

Definition tea_enc_round (k0 k1 k2 k3 : Z) (s : Z * Z * Z) : Z * Z * Z :=
  let '(sum, y, z) := s in
  let sum := u32 (sum + TEA_DELTA) in
  let y := u32 (y + tea_mix z sum k0 k1) in
  let z := u32 (z + tea_mix y sum k2 k3) in
  (sum, y, z).

Definition tea_dec_round (k0 k1 k2 k3 : Z) (s : Z * Z * Z) : Z * Z * Z :=
  let '(sum, y, z) := s in
  let z := u32 (z - tea_mix y sum k2 k3) in
  let y := u32 (y - tea_mix z sum k0 k1) in
  let sum := u32 (sum - TEA_DELTA) in
  (sum, y, z).

Definition tea_words (KEY : list Z) (round : Z → Z → Z → Z → Z * Z * Z → Z * Z * Z) (sum y z : Z) :
    option (Z * Z) :=
  k0 ← KEY.[0]; k1 ← KEY.[1]; k2 ← KEY.[2]; k3 ← KEY.[3];
  '(_, y, z) ← for_up 0 TEA_ROUNDS (λ _ s, Some (round k0 k1 k2 k3 s)) (sum, y, z);
  Some (y, z).

Definition tea_encrypt (KEY : list Z) : list Z → option (list Z) :=
  on_le_block (tea_words KEY tea_enc_round 0).
Definition tea_decrypt (KEY : list Z) : list Z → option (list Z) :=
  on_le_block (tea_words KEY tea_dec_round (ushl 32 TEA_DELTA 5)).

(** [((v << 4 ^ v >> 5) + v) ^ (sum + k)] and [(v << 4 ^ v >> 5) + (v ^ sum) + k]. *)
Definition xtea_mix (v sum k : Z) : Z :=
  Z.lxor (u32 (Z.lxor (ushl 32 v 4) (Z.shiftr v 5) + v)) (u32 (sum + k)).
Definition xeta_mix (v sum k : Z) : Z :=
  u32 (Z.lxor (ushl 32 v 4) (Z.shiftr v 5) + Z.lxor v sum + k).

Definition limit : Z := u32 (XTEA_DELTA * XTEA_ROUNDS).

(** The loops [while (sum != limit)] and [while (sum)]; the fuel exceeds the
    number of rounds, and [xtea_loops_terminate] shows that it is enough. *)
Definition xtea_enc_loop (mix : Z → Z → Z → Z) (KEY : list Z) (y z : Z) : option (Z * Z) :=
  loop 40 (λ '(sum, y, z),
    if sum =? limit then Some (inr (y, z)) else
    k ← KEY.[Z.land sum 3];
    let y := u32 (y + mix z sum k) in
    let sum := u32 (sum + XTEA_DELTA) in
    k ← KEY.[Z.land (Z.shiftr sum 11) 3];
    let z := u32 (z + mix y sum k) in
    Some (inl (sum, y, z))) (0, y, z).

Definition xtea_dec_loop (mix : Z → Z → Z → Z) (KEY : list Z) (y z : Z) : option (Z * Z) :=
  loop 40 (λ '(sum, y, z),
    if sum =? 0 then Some (inr (y, z)) else
    k ← KEY.[Z.land (Z.shiftr sum 11) 3];
    let z := u32 (z - mix y sum k) in
    let sum := u32 (sum - XTEA_DELTA) in
    k ← KEY.[Z.land sum 3];
    let y := u32 (y - mix z sum k) in
    Some (inl (sum, y, z))) (limit, y, z).

Definition xtea_encrypt (KEY : list Z) : list Z → option (list Z) :=
  on_le_block (xtea_enc_loop xtea_mix KEY).
Definition xtea_decrypt (KEY : list Z) : list Z → option (list Z) :=
  on_le_block (xtea_dec_loop xtea_mix KEY).
Definition xeta_encrypt (KEY : list Z) : list Z → option (list Z) :=
  on_le_block (xtea_enc_loop xeta_mix KEY).
Definition xeta_decrypt (KEY : list Z) : list Z → option (list Z) :=
  on_le_block (xtea_dec_loop xeta_mix KEY).

(** ** Iterated rounds *)

Lemma iter_undo {A} (P : A → Prop) (f g : A → A) n x :
  P x → (∀ x, P x → P (f x) ∧ g (f x) = x) → P (Nat.iter n f x) ∧ Nat.iter n g (Nat.iter n f x) = x.
Proof.
  intros Hx Hf. induction n as [|n [IHP IHE]]; [done|].
  change (Nat.iter (S n) f x) with (f (Nat.iter n f x)). rewrite Nat.iter_succ_r.
  destruct (Hf _ IHP) as [HP ->]. done.
Qed.

Lemma iter_S {A} (f : A → A) n x : Nat.iter (S n) f x = f (Nat.iter n f x).
Proof. done. Qed.

Lemma iter_last {A} (P : A → Prop) f n x : n ≠ 0%nat → (∀ x, P (f x)) → P (Nat.iter n f x).
Proof. intros Hn Hf. destruct n as [|n]; [done|]. rewrite iter_S. apply Hf. Qed.

Lemma for_up_iter {A} (g : A → A) n (x : A) :
  for_up 0 (Z.of_nat n) (λ _ s, Some (g s)) x = Some (Nat.iter n g x).
Proof.
  unfold for_up. rewrite Z.sub_0_r, Nat2Z.id. generalize 0. revert x.
  induction n as [|n IH]; intros x k; [done|]. cbn [for_nat mbind option_bind].
  by rewrite IH, Nat.iter_succ_r.
Qed.

Lemma loop_iter {S R} (step : S → option (S + R)) (g : S → S) (out : S → R) n fuel x :
  (n < fuel)%nat → (∀ i, (i < n)%nat → step (Nat.iter i g x) = Some (inl (g (Nat.iter i g x)))) →
  step (Nat.iter n g x) = Some (inr (out (Nat.iter n g x))) →
  loop fuel step x = Some (out (Nat.iter n g x)).
Proof.
  revert fuel x. induction n as [|n IH]; intros fuel x Hf Hs Hn; (destruct fuel as [|fuel]; [lia|]).
  - cbn [loop]. simpl in Hn. by rewrite Hn.
  - cbn [loop]. pose proof (Hs 0%nat ltac:(lia)) as H0. change (Nat.iter 0 g x) with x in H0. rewrite H0.
    cbn [mbind option_bind]. rewrite Nat.iter_succ_r in *. apply IH; [lia| |done].
    intros i Hi. rewrite <- Nat.iter_succ_r. apply Hs. lia.
Qed.

Definition words3 (s : Z * Z * Z) : Prop := let '(a, b, c) := s in urange 32 a ∧ urange 32 b ∧ urange 32 c.
Definition out2 (s : Z * Z * Z) : Z * Z := let '(_, y, z) := s in (y, z).

Lemma u32_range x : urange 32 (u32 x).
Proof. by apply urange_uwrap. Qed.

(** Rounds on a running sum and two words, undone one by one, make a cipher. *)
Section Rounds.
Context (n : nat) (enc dec : Z * Z * Z → Z * Z * Z) (s0 s1 : Z) (f g : Z → Z → option (Z * Z)).
Context (Hn : n ≠ 0%nat) (Hs0 : urange 32 s0)
  (Hundo : ∀ s, words3 s → words3 (enc s) ∧ dec (enc s) = s) (Hdec : ∀ s, words3 (dec s))
  (Hsum : ∀ y z, (Nat.iter n enc (s0, y, z)).1.1 = s1)
  (Hf : ∀ y z, f y z = Some (out2 (Nat.iter n enc (s0, y, z))))
  (Hg : ∀ y z, g y z = Some (out2 (Nat.iter n dec (s1, y, z)))).

Lemma rounds_word_cipher : word_cipher f g.
Proof.
  split; intros y z Hy Hz.
  - rewrite Hf. pose proof (Hsum y z) as Hs. assert (H0 : words3 (s0, y, z)) by done.
    destruct (iter_undo words3 enc dec n (s0, y, z) H0 Hundo) as [HP HE].
    destruct (Nat.iter n enc (s0, y, z)) as [[sum y'] z']. destruct HP as (_ & Hy' & Hz').
    exists y', z'. split; [done|]. split; [done|]. split; [done|].
    cbn [fst] in Hs. by rewrite Hg, <- Hs, HE.
  - rewrite Hg. pose proof (iter_last words3 dec n (s1, y, z) Hn Hdec) as Hl.
    destruct (Nat.iter n dec (s1, y, z)) as [[? y'] z']. destruct Hl as (_ & ? & ?). by exists y', z'.
Qed.
End Rounds.

(** ** TEA *)
Section Tea.
Context (k0 k1 k2 k3 : Z).

Lemma tea_round_undo s : words3 s →
  words3 (tea_enc_round k0 k1 k2 k3 s) ∧ tea_dec_round k0 k1 k2 k3 (tea_enc_round k0 k1 k2 k3 s) = s.
Proof.
  destruct s as [[sum y] z]. intros (Hs & Hy & Hz). cbn [tea_enc_round tea_dec_round].
  split; [by split; [|split]; apply u32_range|]. by rewrite !uadd_usub.
Qed.

Lemma tea_dec_words3 s : words3 (tea_dec_round k0 k1 k2 k3 s).
Proof. destruct s as [[sum y] z]. split; [|split]; apply u32_range. Qed.

Lemma tea_sum n y z : (Nat.iter n (tea_enc_round k0 k1 k2 k3) (0, y, z)).1.1 = u32 (Z.of_nat n * TEA_DELTA).
Proof.
  induction n as [|n IH]; [done|]. rewrite iter_S.
  destruct (Nat.iter n (tea_enc_round k0 k1 k2 k3) (0, y, z)) as [[sum y'] z']. simpl in IH. subst sum.
  cbn [tea_enc_round fst]. unfold uwrap. rewrite Zplus_mod_idemp_l. f_equal. lia.
Qed.
End Tea.

Lemma tea_words_iter k0 k1 k2 k3 round n sum y z : TEA_ROUNDS = Z.of_nat n →
  tea_words [k0; k1; k2; k3] round sum y z =
  Some (out2 (Nat.iter n (round k0 k1 k2 k3) (sum, y, z))).
Proof.
  intros Hn. unfold tea_words. rewrite Hn.
  change ([k0; k1; k2; k3].[0]) with (Some k0). change ([k0; k1; k2; k3].[1]) with (Some k1).
  change ([k0; k1; k2; k3].[2]) with (Some k2). change ([k0; k1; k2; k3].[3]) with (Some k3).
  cbn [mbind option_bind]. rewrite for_up_iter. cbn [mbind option_bind].
  by destruct (Nat.iter n (round k0 k1 k2 k3) (sum, y, z)) as [[? ?] ?].
Qed.

Lemma tea_word_cipher k0 k1 k2 k3 :
  word_cipher (tea_words [k0; k1; k2; k3] tea_enc_round 0)
              (tea_words [k0; k1; k2; k3] tea_dec_round (ushl 32 TEA_DELTA 5)).
Proof.
  assert (∃ n, n = 32%nat) as [n Hn] by eauto.
  apply (rounds_word_cipher n (tea_enc_round k0 k1 k2 k3) (tea_dec_round k0 k1 k2 k3)
    0 (ushl 32 TEA_DELTA 5)).
  - lia.
  - done.
  - apply tea_round_undo.
  - apply tea_dec_words3.
  - intros y z. rewrite tea_sum, Hn. reflexivity.
  - intros. apply tea_words_iter. by rewrite Hn.
  - intros. apply tea_words_iter. by rewrite Hn.
Qed.

(** ** XTEA and XETA *)

Lemma sum_bound i : (i < 32)%nat → u32 (Z.of_nat i * XTEA_DELTA) ≠ limit.
Proof.
  assert (H : forallb (λ i, negb (u32 (Z.of_nat i * XTEA_DELTA) =? limit)) (seq 0 32) = true)
    by (vm_compute; reflexivity).
  rewrite forallb_forall in H. intros Hi E. specialize (H i). rewrite E, Z.eqb_refl in H.
  discriminate H. apply in_seq. lia.
Qed.

Lemma sum_nonzero i : (0 < i ≤ 32)%nat → u32 (Z.of_nat i * XTEA_DELTA) ≠ 0.
Proof.
  assert (H : forallb (λ i, negb (u32 (Z.of_nat i * XTEA_DELTA) =? 0)) (seq 1 32) = true)
    by (vm_compute; reflexivity).
  rewrite forallb_forall in H. intros Hi E. specialize (H i). rewrite E, Z.eqb_refl in H.
  discriminate H. apply in_seq. lia.
Qed.

Section Xtea.
Context (mix : Z → Z → Z → Z) (KEY : list Z) (HK : alen KEY = 4).

Definition key_at (i : Z) : Z := default 0 KEY.[Z.land i 3].

Lemma key_get i : KEY.[Z.land i 3] = Some (key_at i).
Proof.
  unfold key_at. destruct (arr_get_lt KEY (Z.land i 3)) as [x ->]; [|done]. rewrite HK.
  change 3 with (Z.ones 2). rewrite Z.land_ones by lia. apply Z.mod_pos_bound. lia.
Qed.

Definition xenc (s : Z * Z * Z) : Z * Z * Z :=
  let '(sum, y, z) := s in
  let y := u32 (y + mix z sum (key_at sum)) in
  let sum := u32 (sum + XTEA_DELTA) in
  (sum, y, u32 (z + mix y sum (key_at (Z.shiftr sum 11)))).

Definition xdec (s : Z * Z * Z) : Z * Z * Z :=
  let '(sum, y, z) := s in
  let z := u32 (z - mix y sum (key_at (Z.shiftr sum 11))) in
  let sum := u32 (sum - XTEA_DELTA) in
  (sum, u32 (y - mix z sum (key_at sum)), z).

Lemma xtea_round_undo s : words3 s → words3 (xenc s) ∧ xdec (xenc s) = s.
Proof.
  destruct s as [[sum y] z]. intros (Hs & Hy & Hz). cbn [xenc xdec].
  split; [by split; [|split]; apply u32_range|]. by rewrite !uadd_usub.
Qed.

Lemma xenc_sum n y z : (Nat.iter n xenc (0, y, z)).1.1 = u32 (Z.of_nat n * XTEA_DELTA).
Proof.
  induction n as [|n IH]; [done|]. rewrite iter_S.
  destruct (Nat.iter n xenc (0, y, z)) as [[sum y'] z']. simpl in IH. subst sum.
  cbn [xenc fst]. unfold uwrap. rewrite Zplus_mod_idemp_l. f_equal. lia.
Qed.

Lemma xdec_sum n y z : (n ≤ 32)%nat →
  (Nat.iter n xdec (limit, y, z)).1.1 = u32 (Z.of_nat (32 - n) * XTEA_DELTA).
Proof.
  induction n as [|n IH]; intros Hn; [done|]. rewrite iter_S. specialize (IH ltac:(lia)).
  destruct (Nat.iter n xdec (limit, y, z)) as [[sum y'] z']. simpl in IH. subst sum.
  cbn [xdec fst]. unfold uwrap. rewrite Zminus_mod_idemp_l. f_equal.
  replace (32 - n)%nat with (S (32 - S n)) by lia. lia.
Qed.

Lemma xdec_words3 s : words3 (xdec s).
Proof. destruct s as [[? ?] ?]. split; [|split]; apply u32_range. Qed.

Lemma xtea_enc_iter n y z : n = 32%nat →
  xtea_enc_loop mix KEY y z = Some (out2 (Nat.iter n xenc (0, y, z))).
Proof.
  intros Hn. unfold xtea_enc_loop. apply loop_iter; [lia| |].
  - intros i Hi. pose proof (xenc_sum i y z) as Hs.
    destruct (Nat.iter i xenc (0, y, z)) as [[sum y'] z']. cbn [fst] in Hs. subst sum.
    destruct (Z.eqb_spec (u32 (Z.of_nat i * XTEA_DELTA)) limit) as [E|_]; [by destruct (sum_bound i ltac:(lia) E)|].
    by rewrite !key_get.
  - pose proof (xenc_sum n y z) as Hs. destruct (Nat.iter n xenc (0, y, z)) as [[sum y'] z'].
    cbn [fst] in Hs. rewrite Hn in Hs. change (u32 (Z.of_nat 32 * XTEA_DELTA)) with limit in Hs.
    by rewrite Hs, Z.eqb_refl.
Qed.

Lemma xtea_dec_iter n y z : n = 32%nat →
  xtea_dec_loop mix KEY y z = Some (out2 (Nat.iter n xdec (limit, y, z))).
Proof.
  intros Hn. unfold xtea_dec_loop. apply loop_iter; [lia| |].
  - intros i Hi. pose proof (xdec_sum i y z ltac:(lia)) as Hs.
    destruct (Nat.iter i xdec (limit, y, z)) as [[sum y'] z']. cbn [fst] in Hs. subst sum.
    destruct (Z.eqb_spec (u32 (Z.of_nat (32 - i) * XTEA_DELTA)) 0) as [E|_].
    + by destruct (sum_nonzero (32 - i) ltac:(lia) E).
    + by rewrite !key_get.
  - pose proof (xdec_sum n y z ltac:(lia)) as Hs.
    destruct (Nat.iter n xdec (limit, y, z)) as [[sum y'] z']. cbn [fst] in Hs. rewrite Hn in Hs.
    rewrite Hs. reflexivity.
Qed.

Lemma xtea_word_cipher : word_cipher (xtea_enc_loop mix KEY) (xtea_dec_loop mix KEY).
Proof.
  assert (∃ n, n = 32%nat) as [n Hn] by eauto.
  apply (rounds_word_cipher n xenc xdec 0 limit).
  - lia.
  - done.
  - apply xtea_round_undo.
  - apply xdec_words3.
  - intros y z. rewrite xenc_sum, Hn. reflexivity.
  - intros. by apply xtea_enc_iter.
  - intros. by apply xtea_dec_iter.
Qed.
End Xtea.

(** ** The three algorithms *)

Lemma tea_setkey_ok key : block 16 key →
  ∃ k0 k1 k2 k3, tea_setkey key = Some [k0; k1; k2; k3].
Proof.
  intros [Hl _]. unfold alen in Hl.
  do 16 (destruct key as [|? key]; [simpl in Hl; lia|]). by eexists _, _, _, _.
Qed.

(** What [crypto_register_alg] is given for each of the three. *)
Definition tea_alg (KEY : list Z) : BlockCipher :=
  {| bsize := 8; cia_encrypt := tea_encrypt KEY; cia_decrypt := tea_decrypt KEY |}.
Definition xtea_alg (KEY : list Z) : BlockCipher :=
  {| bsize := 8; cia_encrypt := xtea_encrypt KEY; cia_decrypt := xtea_decrypt KEY |}.
Definition xeta_alg (KEY : list Z) : BlockCipher :=
  {| bsize := 8; cia_encrypt := xeta_encrypt KEY; cia_decrypt := xeta_decrypt KEY |}.

Lemma tea_laws k0 k1 k2 k3 : @BlockCipherLaws (tea_alg [k0; k1; k2; k3]).
Proof. apply le_cipher_laws, tea_word_cipher. Qed.
Lemma xtea_laws KEY : alen KEY = 4 → @BlockCipherLaws (xtea_alg KEY).
Proof. intros. by apply le_cipher_laws, xtea_word_cipher. Qed.
Lemma xeta_laws KEY : alen KEY = 4 → @BlockCipherLaws (xeta_alg KEY).
Proof. intros. by apply le_cipher_laws, xtea_word_cipher. Qed.

(** TEA, XTEA and XETA: every 16-byte key is accepted, the loops on the
    running sum end, no access leaves the key or the block, and with the key set
    every 8-byte block is encrypted to a block that decrypts to it. *)
Theorem tea_family_roundtrip key : block 16 key →
  ∃ KEY, tea_setkey key = Some KEY ∧ xtea_setkey key = Some KEY ∧
    @BlockCipherLaws (tea_alg KEY) ∧ @BlockCipherLaws (xtea_alg KEY) ∧ @BlockCipherLaws (xeta_alg KEY).
Proof.
  intros (k0 & k1 & k2 & k3 & E)%tea_setkey_ok. exists [k0; k1; k2; k3].
  split; [done|]. split; [done|]. split; [apply tea_laws|].
  split; [by apply xtea_laws|by apply xeta_laws].
Qed.

(** The vectors of [crypto/testmgr.h] for the second key. *)
Definition tv_key : list Z :=
  [0x2b; 0x02; 0x05; 0x68; 0x06; 0x14; 0x49; 0x76; 0x77; 0x5d; 0x0e; 0x26; 0x6c; 0x28; 0x78; 0x43].
Definition tv_input : list Z := [0x74; 0x65; 0x73; 0x74; 0x20; 0x6d; 0x65; 0x2e].

Lemma tea_family_roundtrip_witness :
  block 16 tv_key ∧ ∃ KEY, tea_setkey tv_key = Some KEY ∧ @BlockCipherLaws (tea_alg KEY).
Proof.
  assert (Hk : block 16 tv_key).
  { split; [reflexivity|]. repeat (constructor; [unfold urange; lia|]). constructor. }
  split; [exact Hk|]. destruct (tea_family_roundtrip tv_key Hk) as (KEY & E & _ & H & _).
  exists KEY. split; [exact E|exact H].
Defined.

(** The ciphers compute the ciphertexts that the kernel's own test
    vectors ([tea_enc_tv_template], [xtea_enc_tv_template] and
    [xeta_enc_tv_template] of [crypto/testmgr.h]) list for this key. *)
Theorem tea_family_vectors :
  (KEY ← tea_setkey tv_key; tea_encrypt KEY tv_input) =
    Some [0x77; 0x5d; 0x2a; 0x6a; 0xf6; 0xce; 0x92; 0x09] ∧
  (KEY ← xtea_setkey tv_key; xtea_encrypt KEY tv_input) =
    Some [0x94; 0xeb; 0xc8; 0x96; 0x84; 0x6a; 0x49; 0xa8] ∧
  (KEY ← xtea_setkey tv_key; xeta_encrypt KEY tv_input) =
    Some [0x82; 0x3e; 0xeb; 0x35; 0xdc; 0xdd; 0xd9; 0xc3].
Proof. split; [|split]; vm_compute; reflexivity. Qed.
