(* ===== verification/CipherModes.v ===== *)
(** * Block cipher modes

    Models the block loops of [crypto/cbc.c], [crypto/pcbc.c], [crypto/ecb.c] and
    [crypto/ctr.c] and the helpers [crypto_xor] and [crypto_inc] of
    [crypto/algapi.c], on one flat memory with pointers, so that the in-place
    variants and their aliasing are as in the source. The theorems are proved
    against the interface [BlockCipherLaws], which the ciphers discharge. *)
From S2P Require Import Prelude Words Cipher.
#[local] Open Scope Z_scope.
#[local] Open Scope kernel_scope.

(** ** Memory helpers *)

(** A [u32] access at an address. *)
Definition ld32 (m : list Z) (p : Z) : option Z := d ← arr_read m p 4; get_le32 d 0.
Definition st32 (m : list Z) (p x : Z) : option (list Z) := arr_write m p (put_le32 x).

Definition crypto_xor_byte (m : list Z) (a b size : Z) : option (list Z) :=
  for_up 0 size (λ i m, x ← m.[a + i]; y ← m.[b + i]; m.[a + i <- Z.lxor x y]) m.

(** Word by word while four bytes are left, then byte by byte. *)
Definition crypto_xor (m : list Z) (a b size : Z) : option (list Z) :=
  let n := size / 4 in
  m ← for_up 0 n (λ i m,
    x ← ld32 m (a + 4 * i); y ← ld32 m (b + 4 * i); st32 m (a + 4 * i) (Z.lxor x y)) m;
  crypto_xor_byte m (a + 4 * n) (b + 4 * n) (size - 4 * n).

(** The loop from the last word down, left at the first word that does not wrap;
    then the bytes in front. *)
Definition crypto_inc_byte (m : list Z) (a size : Z) : option (list Z) :=
  loop (S (Z.to_nat size)) (λ '(m, size),
    if size =? 0 then Some (inr m) else
    x ← m.[a + size - 1];
    let c := u8 (x + 1) in
    m ← m.[a + size - 1 <- c];
    Some (if ctrue c then inr m else inl (m, size - 1))) (m, size).

Definition crypto_inc (m : list Z) (a size : Z) : option (list Z) :=
  r ← loop (S (Z.to_nat size)) (λ '(m, b, size),
    if size <? 4 then Some (inr (inl (m, size))) else
    x ← ld32 m (b - 4);
    let c := u32 (swab32 x + 1) in
    m ← st32 m (b - 4) (swab32 c);
    Some (if ctrue c then inr (inr m) else inl (m, b - 4, size - 4))) (m, a + size, size);
  match r with
  | inl (m, size) => crypto_inc_byte m a size
  | inr m => Some m
  end.

Section Modes.
Context `{BlockCipher}.

(** [fn(tfm, dst, src)], and [memcpy] between two places of the memory. *)
Definition call (fn : list Z → option (list Z)) (m : list Z) (dst src : Z) : option (list Z) :=
  b ← arr_read m src bsize; c ← fn b; arr_write m dst c.
Definition copy (m : list Z) (dst src n : Z) : option (list Z) := memcpy m dst m src n.

(** [do body while ((nbytes -= bsize) >= bsize)]; the number of bytes left is the result. *)
Definition do_blocks {S} (body : S → option S) (s : S) (nbytes : Z) : option (S * Z) :=
  loop (Datatypes.S (Z.to_nat nbytes)) (λ '(s, nbytes),
    s ← body s;
    let nbytes := u32 (nbytes - bsize) in
    Some (if bsize <=? nbytes then inl (s, nbytes) else inr (s, nbytes))) (s, nbytes).

(** *** CBC *)

Definition crypto_cbc_encrypt_segment (m : list Z) (src dst walk_iv nbytes : Z) : option (list Z * Z) :=
  let iv := walk_iv in
  '(m, _, _, nbytes) ← do_blocks (λ '(m, src, dst),
    m ← crypto_xor m iv src bsize;
    m ← call cia_encrypt m dst iv;
    m ← copy m iv dst bsize;
    Some (m, src + bsize, dst + bsize)) (m, src, dst) nbytes;
  Some (m, nbytes).

Definition crypto_cbc_encrypt_inplace (m : list Z) (src walk_iv nbytes : Z) : option (list Z * Z) :=
  '(m, _, iv, nbytes) ← do_blocks (λ '(m, src, iv),
    m ← crypto_xor m src iv bsize;
    m ← call cia_encrypt m src src;
    let iv := src in
    Some (m, src + bsize, iv)) (m, src, walk_iv) nbytes;
  m ← copy m walk_iv iv bsize;
  Some (m, nbytes).

Definition crypto_cbc_decrypt_segment (m : list Z) (src dst walk_iv nbytes : Z) : option (list Z * Z) :=
  '(m, _, _, iv, nbytes) ← do_blocks (λ '(m, src, dst, iv),
    m ← call cia_decrypt m dst src;
    m ← crypto_xor m dst iv bsize;
    let iv := src in
    Some (m, src + bsize, dst + bsize, iv)) (m, src, dst, walk_iv) nbytes;
  m ← copy m walk_iv iv bsize;
  Some (m, nbytes).

Definition crypto_cbc_decrypt_inplace (m : list Z) (src walk_iv nbytes : Z) : option (list Z * Z) :=
  let src := src + (nbytes - Z.land nbytes (bsize - 1) - bsize) in
  last_iv ← arr_read m src bsize;
  '(m, src, nbytes) ← loop (S (Z.to_nat nbytes)) (λ '(m, src, nbytes),
    m ← call cia_decrypt m src src;
    let nbytes := u32 (nbytes - bsize) in
    if nbytes <? bsize then Some (inr (m, src, nbytes)) else
    m ← crypto_xor m src (src - bsize) bsize;
    Some (inl (m, src - bsize, nbytes))) (m, src, nbytes);
  m ← crypto_xor m src walk_iv bsize;
  m ← arr_write m walk_iv last_iv;
  Some (m, nbytes).

(** *** PCBC *)

Definition crypto_pcbc_encrypt_segment (m : list Z) (src dst walk_iv nbytes : Z) : option (list Z * Z) :=
  let iv := walk_iv in
  '(m, _, _, nbytes) ← do_blocks (λ '(m, src, dst),
    m ← crypto_xor m iv src bsize;
    m ← call cia_encrypt m dst iv;
    m ← copy m iv dst bsize;
    m ← crypto_xor m iv src bsize;
    Some (m, src + bsize, dst + bsize)) (m, src, dst) nbytes;
  Some (m, nbytes).

Definition crypto_pcbc_encrypt_inplace (m : list Z) (src walk_iv nbytes : Z) : option (list Z * Z) :=
  let iv := walk_iv in
  '(m, _, nbytes) ← do_blocks (λ '(m, src),
    tmpbuf ← arr_read m src bsize;
    m ← crypto_xor m iv src bsize;
    m ← call cia_encrypt m src iv;
    m ← arr_write m iv tmpbuf;
    m ← crypto_xor m iv src bsize;
    Some (m, src + bsize)) (m, src) nbytes;
  m ← copy m walk_iv iv bsize;
  Some (m, nbytes).

Definition crypto_pcbc_decrypt_segment (m : list Z) (src dst walk_iv nbytes : Z) : option (list Z * Z) :=
  let iv := walk_iv in
  '(m, _, _, nbytes) ← do_blocks (λ '(m, src, dst),
    m ← call cia_decrypt m dst src;
    m ← crypto_xor m dst iv bsize;
    m ← copy m iv src bsize;
    m ← crypto_xor m iv dst bsize;
    Some (m, src + bsize, dst + bsize)) (m, src, dst) nbytes;
  m ← copy m walk_iv iv bsize;
  Some (m, nbytes).

Definition crypto_pcbc_decrypt_inplace (m : list Z) (src walk_iv nbytes : Z) : option (list Z * Z) :=
  let iv := walk_iv in
  '(m, _, nbytes) ← do_blocks (λ '(m, src),
    tmpbuf ← arr_read m src bsize;
    m ← call cia_decrypt m src src;
    m ← crypto_xor m src iv bsize;
    m ← arr_write m iv tmpbuf;
    m ← crypto_xor m iv src bsize;
    Some (m, src + bsize)) (m, src) nbytes;
  m ← copy m walk_iv iv bsize;
  Some (m, nbytes).

(** *** ECB and CTR *)

(** The inner loop of [crypto_ecb_crypt] on one step of the walk. *)
Definition crypto_ecb_crypt (fn : list Z → option (list Z)) (m : list Z) (wsrc wdst nbytes : Z) :
    option (list Z * Z) :=
  '(m, _, _, nbytes) ← do_blocks (λ '(m, wsrc, wdst),
    m ← call fn m wdst wsrc;
    Some (m, wsrc + bsize, wdst + bsize)) (m, wsrc, wdst) nbytes;
  Some (m, nbytes).

Definition crypto_ctr_crypt_segment (m : list Z) (src dst ctrblk nbytes : Z) : option (list Z * Z) :=
  '(m, _, _, nbytes) ← do_blocks (λ '(m, src, dst),
    m ← call cia_encrypt m dst ctrblk;
    m ← crypto_xor m dst src bsize;
    m ← crypto_inc m ctrblk bsize;
    Some (m, src + bsize, dst + bsize)) (m, src, dst) nbytes;
  Some (m, nbytes).

(** [keystream] is the buffer on the stack. *)
Definition crypto_ctr_crypt_inplace (m : list Z) (src ctrblk keystream nbytes : Z) : option (list Z * Z) :=
  '(m, _, nbytes) ← do_blocks (λ '(m, src),
    m ← call cia_encrypt m keystream ctrblk;
    m ← crypto_xor m src keystream bsize;
    m ← crypto_inc m ctrblk bsize;
    Some (m, src + bsize)) (m, src) nbytes;
  Some (m, nbytes).

Definition crypto_ctr_crypt_final (m : list Z) (src dst ctrblk keystream nbytes : Z) : option (list Z) :=
  m ← call cia_encrypt m keystream ctrblk;
  m ← crypto_xor m keystream src nbytes;
  m ← copy m dst keystream nbytes;
  crypto_inc m ctrblk bsize.
End Modes.

(** ** Reads and writes of the memory *)

Lemma arr_read_frame (m m' : list Z) p n : alen m' = alen m → (∀ i, p ≤ i < p + n → m'.[i] = m.[i]) →
  arr_read m' p n = arr_read m p n.
Proof.
  intros Hl Hf. unfold arr_read. fold (alen m) (alen m'). rewrite Hl.
  destruct (Z.leb_spec 0 p), (Z.leb_spec 0 n), (Z.leb_spec (p + n) (alen m)); try done.
  cbn [andb]. f_equal. apply arr_ext.
  - rewrite !alen_take; rewrite ?alen_drop; lia.
  - rewrite alen_take by (rewrite alen_drop; lia). intros i Hi.
    rewrite !arr_get_take, !arr_get_drop by lia. apply Hf. lia.
Qed.

(** [arr_read] as the elements it delivers. *)
Lemma arr_read_iff (m : list Z) p n d : 0 ≤ n →
  arr_read m p n = Some d ↔
  0 ≤ p ∧ p + n ≤ alen m ∧ alen d = n ∧ ∀ i, 0 ≤ i < n → d.[i] = m.[p + i].
Proof.
  intros Hn. split.
  - intros E. destruct (arr_read_Some _ _ _ _ E) as (Hp & _ & Hb).
    destruct (arr_read_spec m p n) as (d' & E' & Hl & Hd); [done..|]. rewrite E in E'. by simplify_eq.
  - intros (Hp & Hb & Hl & Hd). destruct (arr_read_spec m p n) as (d' & -> & Hl' & Hd'); [done..|].
    f_equal. apply arr_ext; [lia|]. rewrite Hl'. intros i Hi. by rewrite Hd', Hd.
Qed.

(** ** [crypto_xor] *)

(** The bytes of a range exist. *)
Definition bytes_at (m : list Z) (p n : Z) : Prop := ∀ i, p ≤ i < p + n → ∃ x, m.[i] = Some x ∧ byte x.

(** [m'] is [m] with the [n] bytes at [b] xored into those at [a]. *)
Definition xored (m : list Z) (a b n : Z) (m' : list Z) : Prop :=
  alen m' = alen m ∧ ∀ i, m'.[i] =
    if decide (a ≤ i < a + n) then x ← m.[i]; y ← m.[b + (i - a)]; Some (Z.lxor x y) else m.[i].

(** The two ranges do not overlap, or are the same. *)
Definition apart (a b n : Z) : Prop := a + n ≤ b ∨ b + n ≤ a ∨ a = b.

Lemma xored_0 m a b : xored m a b 0 m.
Proof. split; [done|]. intros i. by rewrite decide_False by lia. Qed.

Lemma xored_trans m a b k j m1 m2 : 0 ≤ k → 0 ≤ j → apart a b (k + j) →
  xored m a b k m1 → xored m1 (a + k) (b + k) j m2 → xored m a b (k + j) m2.
Proof.
  intros Hk Hj Hap [Hl1 H1] [Hl2 H2]. split; [congruence|]. intros i. rewrite H2.
  destruct (decide (a ≤ i < a + k)) as [Hi|Hi].
  - rewrite (decide_False (P := a + k ≤ i < a + k + j)), (decide_True (P := a ≤ i < a + (k + j))) by lia.
    by rewrite H1, decide_True.
  - destruct (decide (a + k ≤ i < a + k + j)) as [Hi'|Hi'].
    + rewrite (decide_True (P := a ≤ i < a + (k + j))) by lia. rewrite !H1.
      rewrite (decide_False (P := a ≤ i < a + k)) by lia.
      rewrite decide_False by (unfold apart in Hap; lia).
      by replace (b + k + (i - (a + k))) with (b + (i - a)) by lia.
    + rewrite H1, (decide_False (P := a ≤ i < a + k)), (decide_False (P := a ≤ i < a + (k + j))) by lia. done.
Qed.

Lemma bytes_at_xored m a b k m1 p n : 0 ≤ k → bytes_at m p n → bytes_at m a k → bytes_at m b k →
  xored m a b k m1 → bytes_at m1 p n.
Proof.
  intros Hk Hp Ha Hb [_ H1] i Hi. rewrite H1. case_decide as Hd; [|by apply Hp].
  destruct (Ha i Hd) as (x & -> & Hx). destruct (Hb (b + (i - a))) as (y & -> & Hy); [lia|].
  eexists. split; [done|]. by apply byte_lxor.
Qed.

Lemma bytes_at_sub m p n q k : bytes_at m p n → p ≤ q → q + k ≤ p + n → bytes_at m q k.
Proof. intros Hb Hq Hk i Hi. apply Hb. lia. Qed.

Lemma arr_get_eq_lt (m : list Z) i x : m.[i] = Some x → 0 ≤ i < alen m.
Proof. apply arr_get_Some_lt. Qed.

Lemma xor1 m p q : bytes_at m p 1 → bytes_at m q 1 →
  ∃ m', (x ← m.[p]; y ← m.[q]; m.[p <- Z.lxor x y]) = Some m' ∧ xored m p q 1 m'.
Proof.
  intros Hp Hq. destruct (Hp p) as (x & Ex & _); [lia|]. destruct (Hq q) as (y & Ey & _); [lia|].
  rewrite Ex, Ey. cbn [mbind option_bind]. pose proof (arr_get_Some_lt _ _ _ Ex) as Hr.
  rewrite (arr_set_lt m p) by lia. eexists. split; [done|]. split; [apply alen_insert|].
  intros i. destruct (decide (p ≤ i < p + 1)) as [Hi|Hi].
  - replace i with p by lia. rewrite arr_get_insert, decide_True by lia.
    replace (q + (p - p)) with q by lia. by rewrite Ex, Ey.
  - destruct (decide (0 ≤ i)); [by rewrite arr_get_insert, decide_False by lia|].
    rewrite !arr_get_None by lia. done.
Qed.

Lemma ld32_ok m p : bytes_at m p 4 → ∃ b0 b1 b2 b3,
  m.[p] = Some b0 ∧ m.[p + 1] = Some b1 ∧ m.[p + 2] = Some b2 ∧ m.[p + 3] = Some b3 ∧
  byte b0 ∧ byte b1 ∧ byte b2 ∧ byte b3 ∧ ld32 m p = Some (le32 b0 b1 b2 b3).
Proof.
  intros Hp. destruct (Hp p) as (b0 & E0 & ?); [lia|]. destruct (Hp (p + 1)) as (b1 & E1 & ?); [lia|].
  destruct (Hp (p + 2)) as (b2 & E2 & ?); [lia|]. destruct (Hp (p + 3)) as (b3 & E3 & ?); [lia|].
  exists b0, b1, b2, b3. do 8 (split; [done|]).
  pose proof (arr_get_Some_lt _ _ _ E0). pose proof (arr_get_Some_lt _ _ _ E3).
  unfold ld32. replace (arr_read m p 4) with (Some [b0; b1; b2; b3]); [done|]. symmetry.
  apply arr_read_iff; [lia|]. split; [lia|]. split; [lia|]. split; [done|]. intros i Hi.
  assert (i = 0 ∨ i = 1 ∨ i = 2 ∨ i = 3) as [->|[->|[->| ->]]] by lia; by rewrite ?Z.add_0_r.
Qed.

Lemma put_le32_le32 b0 b1 b2 b3 : byte b0 → byte b1 → byte b2 → byte b3 →
  put_le32 (le32 b0 b1 b2 b3) = [b0; b1; b2; b3].
Proof.
  intros. unfold put_le32. destruct (le32_bytes_ok (le32 b0 b1 b2 b3)) as [_ ->]; [by apply le32_range|].
  by destruct (le32_bytes_at b0 b1 b2 b3) as (-> & -> & -> & ->).
Qed.

Lemma xor4 m p q : bytes_at m p 4 → bytes_at m q 4 →
  ∃ m', (x ← ld32 m p; y ← ld32 m q; st32 m p (Z.lxor x y)) = Some m' ∧ xored m p q 4 m'.
Proof.
  intros Hp Hq. destruct (ld32_ok m p Hp) as (a0 & a1 & a2 & a3 & A0 & A1 & A2 & A3 & ? & ? & ? & ? & ->).
  destruct (ld32_ok m q Hq) as (b0 & b1 & b2 & b3 & B0 & B1 & B2 & B3 & ? & ? & ? & ? & ->).
  cbn [mbind option_bind]. unfold st32. rewrite lxor_le32, put_le32_le32 by auto with word.
  pose proof (arr_get_Some_lt _ _ _ A0). pose proof (arr_get_Some_lt _ _ _ A3).
  destruct (arr_write_spec m p [Z.lxor a0 b0; Z.lxor a1 b1; Z.lxor a2 b2; Z.lxor a3 b3])
    as (m' & -> & Hl & Hm'); [lia|change (alen _) with 4 at 1; lia|].
  exists m'. split; [done|]. split; [done|]. intros i. rewrite Hm'. change (alen _) with 4.
  case_decide as Hi; [|done].
  assert (i = p ∨ i = p + 1 ∨ i = p + 2 ∨ i = p + 3) as [->|[->|[->| ->]]] by lia.
  - replace (p - p) with 0 by lia. replace (q + 0) with q by lia. by rewrite A0, B0.
  - replace (p + 1 - p) with 1 by lia. by rewrite A1, B1.
  - replace (p + 2 - p) with 2 by lia. by rewrite A2, B2.
  - replace (p + 3 - p) with 3 by lia. by rewrite A3, B3.
Qed.

(** A loop of xor steps of [w] bytes each. *)
Lemma xor_loop (w : Z) step m a b k : 0 < w → 0 ≤ k → apart a b (w * k) →
  bytes_at m a (w * k) → bytes_at m b (w * k) →
  (∀ m p q, bytes_at m p w → bytes_at m q w → ∃ m', step p q m = Some m' ∧ xored m p q w m') →
  ∃ m', for_up 0 k (λ i m, step (a + w * i) (b + w * i) m) m = Some m' ∧ xored m a b (w * k) m'.
Proof.
  intros Hw Hk Hap Ha Hb Hstep.
  apply (for_up_rule (λ i m', xored m a b (w * i) m')); [lia|rewrite Z.mul_0_r; apply xored_0|].
  intros i m1 Hi Hx. assert (w * i + w ≤ w * k) by nia. assert (0 ≤ w * i) by nia.
  assert (Hs : ∀ p, bytes_at m p (w * k) → bytes_at m1 (p + w * i) w).
  { intros p Hp. apply (bytes_at_sub m1 p (w * k)); [|lia|lia].
    apply (bytes_at_xored m a b (w * i) m1); [lia|done| | |done];
      [apply (bytes_at_sub m a (w * k))|apply (bytes_at_sub m b (w * k))]; (done || lia). }
  destruct (Hstep m1 (a + w * i) (b + w * i)) as (m2 & E & Hx2); [by apply Hs..|].
  exists m2. split; [done|]. replace (w * (i + 1)) with (w * i + w) by lia.
  apply (xored_trans m a b _ _ m1); [lia|lia| |done|done]. unfold apart in *. lia.
Qed.

Lemma crypto_xor_xored m a b n : 0 ≤ n → apart a b n → bytes_at m a n → bytes_at m b n →
  ∃ m', crypto_xor m a b n = Some m' ∧ xored m a b n m'.
Proof.
  intros Hn Hap Ha Hb. unfold crypto_xor, crypto_xor_byte.
  pose proof (Z.div_mod n 4 ltac:(lia)) as Hdiv. pose proof (Z.mod_pos_bound n 4 ltac:(lia)).
  assert (0 ≤ n / 4) by (apply Z.div_pos; lia). set (k := n / 4) in *.
  destruct (xor_loop 4 (λ p q m, x ← ld32 m p; y ← ld32 m q; st32 m p (Z.lxor x y)) m a b k)
    as (m1 & E1 & Hx1); [lia|lia|unfold apart in *; lia| | |by intros; apply xor4|].
  1: apply (bytes_at_sub m a n); (done || lia).
  1: apply (bytes_at_sub m b n); (done || lia).
  cbn beta in E1. rewrite E1. cbn [mbind option_bind].
  assert (Hs : ∀ p, bytes_at m p n → bytes_at m1 (p + 4 * k) (n - 4 * k)).
  { intros p Hp. apply (bytes_at_sub m1 p n); [|lia|lia].
    apply (bytes_at_xored m a b (4 * k) m1); [lia|done| | |done];
      [apply (bytes_at_sub m a n)|apply (bytes_at_sub m b n)]; (done || lia). }
  destruct (xor_loop 1 (λ p q m, x ← m.[p]; y ← m.[q]; m.[p <- Z.lxor x y]) m1 (a + 4 * k) (b + 4 * k) (n - 4 * k))
    as (m2 & E2 & Hx2); [lia|lia|unfold apart in *; lia|rewrite Z.mul_1_l; by apply Hs..|by intros; apply xor1|].
  exists m2. split; [|replace n with (4 * k + (n - 4 * k)) by lia; apply (xored_trans m a b _ _ m1); auto; try lia;
    [replace (4 * k + (n - 4 * k)) with n by lia; done|by rewrite Z.mul_1_l in Hx2]].
  rewrite <- E2. apply for_up_ext. intros i s _. by rewrite Z.mul_1_l.
Qed.

(** ** Blocks of the memory *)

Definition xorl (x y : list Z) : list Z := zip_with Z.lxor x y.

Section Blocks.
Context `{HC : BlockCipher} `{HL : !BlockCipherLaws}.
Implicit Types (m : list Z) (p q : Z) (b x y : list Z) (bl : list (list Z)).

Definition blk m p : option (list Z) := arr_read m p bsize.
Definition inb m p : Prop := 0 ≤ p ∧ p + bsize ≤ alen m.

(** [m'] is [m] with the block [d] at [p]. *)
Record stored m p d m' : Prop := {
  stored_len : alen m' = alen m;
  stored_blk : blk m' p = Some d;
  stored_frame i : ¬ (p ≤ i < p + bsize) → m'.[i] = m.[i] }.

Lemma bsize_pos : 0 < bsize.
Proof. destruct bsize_pow2 as (k & Hk & ->). apply Z.pow_pos_nonneg; lia. Qed.

Lemma blk_inb m p b : blk m p = Some b → inb m p ∧ alen b = bsize.
Proof.
  pose proof bsize_pos. unfold blk. rewrite arr_read_iff by lia. intros (? & ? & ? & _). by repeat split.
Qed.

Lemma blk_bytes m p b : blk m p = Some b → block bsize b → bytes_at m p bsize.
Proof.
  pose proof bsize_pos. unfold blk. rewrite arr_read_iff by lia. intros (_ & _ & Hl & Hb) [_ HF] i Hi.
  destruct (arr_get_lt b (i - p)) as [x Hx]; [lia|]. exists x. split.
  - rewrite <- Hx, Hb by lia. f_equal. lia.
  - by eapply Forall_arr_get.
Qed.

Lemma xorl_get x y i : (xorl x y).[i] = a ← x.[i]; c ← y.[i]; Some (Z.lxor a c).
Proof.
  unfold arr_get, xorl. destruct (0 <=? i); [|done]. rewrite lookup_zip_with.
  destruct (x !! Z.to_nat i); [|done]. cbn [mbind option_bind]. by destruct (y !! Z.to_nat i).
Qed.

Lemma block_get b i : block bsize b → 0 ≤ i < bsize → ∃ c, b.[i] = Some c ∧ byte c.
Proof.
  intros [Hl HF] Hi. destruct (arr_get_lt b i) as [x Hx]; [lia|]. exists x. split; [done|].
  by eapply Forall_arr_get.
Qed.

Lemma xorl_block x y : block bsize x → block bsize y → block bsize (xorl x y).
Proof.
  intros [Hl HF] [Hl' HF']. unfold alen in *. split.
  - unfold alen, xorl. rewrite length_zip_with. lia.
  - apply Forall_lookup_2. intros i z (a & c & -> & Ha & Hc)%lookup_zip_with_Some.
    apply byte_lxor; [exact (Forall_lookup_1 _ _ _ _ HF Ha)|exact (Forall_lookup_1 _ _ _ _ HF' Hc)].
Qed.

Lemma xorl_comm x y : xorl x y = xorl y x.
Proof.
  revert y. induction x as [|a x IH]; intros [|c y]; try done.
  unfold xorl in *. cbn [zip_with]. by rewrite IH, Z.lxor_comm.
Qed.

Lemma xorl_cancel x y : alen x = alen y → xorl (xorl x y) y = x.
Proof.
  unfold alen. revert y. induction x as [|a x IH]; intros [|c y] Hl; simpl in Hl; try lia; [done|].
  unfold xorl in *. cbn [zip_with]. rewrite lxor_cancel, IH by lia. done.
Qed.

Lemma xor_stored m p q x y : apart p q bsize →
  blk m p = Some x → block bsize x → blk m q = Some y → block bsize y →
  ∃ m', crypto_xor m p q bsize = Some m' ∧ stored m p (xorl x y) m'.
Proof.
  intros Hap Hx Hbx Hy Hby. pose proof bsize_pos.
  destruct (crypto_xor_xored m p q bsize) as (m' & E & Hl & Hm'); [lia|done|by eapply blk_bytes..|].
  exists m'. split; [done|]. destruct (xorl_block x y Hbx Hby) as [Hxl _].
  unfold blk in *. rewrite arr_read_iff in Hx, Hy by lia.
  destruct Hx as (? & ? & ? & Hx), Hy as (? & ? & ? & Hy). split; [done| |].
  - apply arr_read_iff; [lia|]. rewrite Hl. split; [lia|]. split; [lia|]. split; [done|].
    intros i Hi. rewrite Hm', decide_True, xorl_get, Hx, Hy by lia. by replace (p + i - p) with i by lia.
  - intros i Hi. by rewrite Hm', decide_False.
Qed.

Lemma write_stored m p d : inb m p → alen d = bsize → ∃ m', arr_write m p d = Some m' ∧ stored m p d m'.
Proof.
  intros [Hp Hb] Hl. pose proof bsize_pos.
  destruct (arr_write_spec m p d) as (m' & E & Hl' & Hm'); [lia|lia|]. exists m'. split; [done|].
  rewrite Hl in Hm'. split; [done| |].
  - apply arr_read_iff; [lia|]. rewrite Hl'. split; [lia|]. split; [lia|]. split; [done|].
    intros i Hi. rewrite Hm', decide_True by lia. f_equal. lia.
  - intros i Hi. by rewrite Hm', decide_False.
Qed.

Lemma call_stored fn m dst src x c : blk m src = Some x → fn x = Some c → block bsize c → inb m dst →
  ∃ m', call fn m dst src = Some m' ∧ stored m dst c m'.
Proof.
  intros Hx Hf [Hc _] Hd. unfold call. unfold blk in Hx. rewrite Hx. cbn [mbind option_bind].
  rewrite Hf. by apply write_stored.
Qed.

Lemma copy_stored m dst src x : blk m src = Some x → inb m dst →
  ∃ m', copy m dst src bsize = Some m' ∧ stored m dst x m'.
Proof.
  intros Hx Hd. destruct (blk_inb _ _ _ Hx) as [_ Hl]. unfold copy, memcpy. unfold blk in Hx. rewrite Hx.
  by apply write_stored.
Qed.

Lemma blk_frame m m' p : alen m' = alen m → (∀ i, p ≤ i < p + bsize → m'.[i] = m.[i]) → blk m' p = blk m p.
Proof. apply arr_read_frame. Qed.

(** ** Rows of blocks *)

Definition span bl : Z := alen bl * bsize.

Lemma span_cons b bl : span (b :: bl) = bsize + span bl.
Proof. unfold span, alen. cbn [length]. lia. Qed.
Lemma span_nonneg bl : 0 ≤ span bl.
Proof. pose proof bsize_pos. unfold span, alen. lia. Qed.

Fixpoint laid m p bl : Prop :=
  match bl with
  | [] => True
  | b :: bl => blk m p = Some b ∧ block bsize b ∧ laid m (p + bsize) bl
  end.

Lemma laid_frame m m' p bl : alen m' = alen m → (∀ i, p ≤ i < p + span bl → m'.[i] = m.[i]) →
  laid m p bl → laid m' p bl.
Proof.
  intros Hl. revert p. induction bl as [|b bl IH]; intros p Hf; [done|]. intros (Hb & Hbb & Hr).
  rewrite span_cons in Hf. pose proof (span_nonneg bl). pose proof bsize_pos. cbn [laid].
  split; [|split; [done|]].
  - rewrite (blk_frame m m'); [done|done|]. intros i Hi. apply Hf. lia.
  - apply IH; [|done]. intros i Hi. apply Hf. lia.
Qed.

(** The rule for [do ... while ((nbytes -= bsize) >= bsize)] over a row of blocks:
    one iteration turns the postcondition of the rest into that of the row. *)
Lemma do_blocks_rule {S} (Pre : list (list Z) → S → Prop) (Post : list (list Z) → S → S → Prop) body :
  (∀ s, Post [] s s) →
  (∀ b bl s, Pre (b :: bl) s → ∃ s1, body s = Some s1 ∧ Pre bl s1 ∧
     ∀ s', Post bl s1 s' → Post (b :: bl) s s') →
  ∀ bl s nbytes rem, bl ≠ [] → Pre bl s → nbytes = span bl + rem → 0 ≤ rem < bsize → nbytes < 2 ^ 32 →
  ∃ s', do_blocks body s nbytes = Some (s', rem) ∧ Post bl s s'.
Proof.
  intros H0 Hbody bl s nbytes rem Hne HP Hn Hr Hw. pose proof bsize_pos as Hbs. unfold do_blocks.
  assert (Hf : (length bl < Datatypes.S (Z.to_nat nbytes))%nat).
  { unfold span, alen in Hn. nia. }
  revert Hf. generalize (Datatypes.S (Z.to_nat nbytes)) as fuel.
  revert s nbytes Hne HP Hn Hw. induction bl as [|b bl IH]; intros s nbytes Hne HP Hn Hw fuel Hf; [done|].
  destruct fuel as [|fuel]; [simpl in Hf; lia|]. cbn [loop].
  destruct (Hbody b bl s HP) as (s1 & -> & HP1 & HQ). cbn [mbind option_bind].
  rewrite span_cons in Hn. pose proof (span_nonneg bl).
  replace (u32 (nbytes - bsize)) with (nbytes - bsize) by (symmetry; apply Z.mod_small; lia).
  destruct bl as [|b2 bl].
  - unfold span, alen in Hn. cbn [length] in Hn. destruct (Z.leb_spec bsize (nbytes - bsize)); [lia|].
    exists s1. replace (nbytes - bsize) with rem by lia. split; [done|]. by apply HQ.
  - rewrite span_cons in Hn. pose proof (span_nonneg bl).
    destruct (Z.leb_spec bsize (nbytes - bsize)); [|lia].
    destruct (IH s1 (nbytes - bsize)) with (fuel := fuel) as (s' & E & HQ'); [done|done|rewrite span_cons; lia|lia|simpl in Hf |- *; lia|].
    exists s'. split; [done|]. by apply HQ.
Qed.
End Blocks.

(** ** Reference definitions of the modes *)

(** Separate ranges. *)
Definition sep (p n q k : Z) : Prop := p + n ≤ q ∨ q + k ≤ p.

(** Automation: what a store leaves unchanged. *)
Ltac lens := repeat match goal with
  | S : stored ?m ?p ?d ?m' |- _ =>
      lazymatch goal with
      | E : alen m' = alen m |- _ => fail
      | _ => pose proof (stored_len _ _ _ _ S)
      end
  end.
Ltac frames := unfold sep, apart in *; repeat match goal with
  | S : stored ?m ?p ?d ?m' |- context [arr_get ?m' _] =>
      rewrite (stored_frame _ _ _ _ S) by lia
  end.
(** [blk m' p = Some b] from the last store there, or from an older memory. *)
Ltac at_blk := first
  [ eassumption
  | eapply stored_blk; eassumption
  | match goal with
    | B : blk ?m ?p = Some _ |- blk ?m' ?p = Some _ =>
        rewrite (blk_frame m m'); [exact B|lens; lia|intros ? ?; frames; done]
    | S : stored _ ?p _ ?m |- blk ?m' ?p = Some _ =>
        rewrite (blk_frame m m'); [exact (stored_blk _ _ _ _ S)|lens; lia|intros ? ?; frames; done]
    end ].
Ltac in_bounds := unfold inb in *; lens; lia.

Section Specs.
Context `{HC : BlockCipher} `{HL : !BlockCipherLaws}.

Definition E (x : list Z) : list Z := default [] (cia_encrypt x).
Definition D (x : list Z) : list Z := default [] (cia_decrypt x).

Lemma E_ok x : block bsize x → cia_encrypt x = Some (E x) ∧ block bsize (E x) ∧ D (E x) = x.
Proof. intros Hx. destruct (encrypt_ok x Hx) as (c & Ec & Hc & Ed). unfold E, D. rewrite Ec. cbn. by rewrite Ed. Qed.
Lemma D_ok x : block bsize x → cia_decrypt x = Some (D x) ∧ block bsize (D x).
Proof. intros Hx. destruct (decrypt_ok x Hx) as (c & Ec & Hc). unfold D. by rewrite Ec. Qed.

(** A mode is given by the output block and the next chaining value. *)
Fixpoint mode (out next : list Z → list Z → list Z) (V : list Z) (bl : list (list Z)) : list (list Z) :=
  match bl with
  | [] => []
  | b :: bl => out V b :: mode out next (next V b) bl
  end.
Definition chain (next : list Z → list Z → list Z) (V : list Z) (bl : list (list Z)) : list Z :=
  fold_left next bl V.

Definition cbc_e (V p : list Z) : list Z := E (xorl V p).
Definition cbc_d (V c : list Z) : list Z := xorl (D c) V.
Definition cbc_enc : list Z → list (list Z) → list (list Z) := mode cbc_e cbc_e.
Definition cbc_dec : list Z → list (list Z) → list (list Z) := mode cbc_d (λ _ c, c).

Definition pcbc_enc : list Z → list (list Z) → list (list Z) := mode cbc_e (λ V p, xorl (cbc_e V p) p).
Definition pcbc_dec : list Z → list (list Z) → list (list Z) := mode cbc_d (λ V c, xorl c (cbc_d V c)).

(** Decryption with the chaining value that encryption used undoes a block. *)
Lemma cbc_d_e V p : block bsize V → block bsize p → cbc_d V (cbc_e V p) = p.
Proof.
  intros HV Hp. unfold cbc_d, cbc_e. destruct (E_ok _ (xorl_block V p HV Hp)) as (_ & _ & ->).
  rewrite (xorl_comm V). apply xorl_cancel. destruct HV, Hp. congruence.
Qed.

Lemma cbc_e_block V p : block bsize V → block bsize p → block bsize (cbc_e V p).
Proof. intros HV Hp. by destruct (E_ok _ (xorl_block V p HV Hp)) as (_ & ? & _). Qed.
Lemma cbc_d_block V c : block bsize V → block bsize c → block bsize (cbc_d V c).
Proof. intros HV Hc. destruct (D_ok _ Hc) as [_ ?]. by apply xorl_block. Qed.

Lemma mode_roundtrip oute nexte outd nextd V ps : block bsize V → Forall (block bsize) ps →
  (∀ V p, block bsize V → block bsize p → outd V (oute V p) = p ∧
     nextd V (oute V p) = nexte V p ∧ block bsize (nexte V p)) →
  mode outd nextd V (mode oute nexte V ps) = ps ∧ chain nextd V (mode oute nexte V ps) = chain nexte V ps.
Proof.
  intros HV HF Hstep. revert V HV. induction HF as [|p ps Hp _ IH]; intros V HV; [done|].
  cbn [mode chain fold_left]. destruct (Hstep V p HV Hp) as (-> & -> & Hb).
  destruct (IH _ Hb) as [-> E2]. split; [done|exact E2].
Qed.
End Specs.

(** ** One pass over a row of blocks *)
Section Pass.
Context `{HC : BlockCipher} `{HL : !BlockCipherLaws}.
(** [view] gives the memory and the pointers [src], [dst] and [iv] of a loop's
    state; [X] is the scratch memory the loop may change besides its output and [sz]
    the size of the memory. *)
Context {S : Type} (inplace : bool) (body : S → option S) (view : S → list Z * Z * Z * Z) (X : Z → Prop) (sz : Z).
Context (out next : list Z → list Z → list Z).

Record ready (m : list Z) (src dst iv n : Z) : Prop := {
  ready_dst : 0 ≤ dst ∧ dst + n ≤ alen m ∧ alen m = sz;
  ready_apart : if inplace then src = dst else sep src n dst n;
  ready_iv : sep iv bsize src n ∧ sep iv bsize dst n;
  ready_src_X i : src ≤ i < src + n → ¬ X i;
  ready_dst_X i : dst ≤ i < dst + n → ¬ X i }.

(** One iteration. *)
Definition block_step : Prop := ∀ s m src dst iv b V,
  view s = (m, src, dst, iv) → blk m src = Some b → block bsize b → blk m iv = Some V → block bsize V →
  ready m src dst iv bsize →
  ∃ s' m' iv', body s = Some s' ∧ view s' = (m', src + bsize, dst + bsize, iv') ∧ alen m' = alen m ∧
    blk m' dst = Some (out V b) ∧ blk m' iv' = Some (next V b) ∧ (iv' = iv ∨ iv' = src) ∧
    ∀ i, ¬ (dst ≤ i < dst + bsize) → ¬ X i → m'.[i] = m.[i].

Definition pass_pre (bl : list (list Z)) (s : S) : Prop :=
  let '(m, src, dst, iv) := view s in
  laid m src bl ∧ (∃ V, blk m iv = Some V ∧ block bsize V) ∧ ready m src dst iv (span bl).
Definition pass_post (bl : list (list Z)) (s s' : S) : Prop :=
  let '(m, src, dst, iv) := view s in let '(m', _, _, iv') := view s' in
  ∀ V, blk m iv = Some V → block bsize V →
    alen m' = alen m ∧ laid m' dst (mode out next V bl) ∧ blk m' iv' = Some (chain next V bl) ∧
    ∀ i, ¬ (dst ≤ i < dst + span bl) → ¬ X i → m'.[i] = m.[i].

Context (Hout : ∀ V b, block bsize V → block bsize b → block bsize (out V b) ∧ block bsize (next V b)).
Context (Hbody : block_step).

Lemma pass_step b bl s : pass_pre (b :: bl) s →
  ∃ s1, body s = Some s1 ∧ pass_pre bl s1 ∧ ∀ s', pass_post bl s1 s' → pass_post (b :: bl) s s'.
Proof.
  unfold pass_pre, pass_post. destruct (view s) as [[[m src] dst] iv] eqn:Ev.
  intros ((Hb & Hbb & Hl) & (V & HV & HVb) & [Hd Ha [Hi1 Hi2] HsX HdX]).
  rewrite span_cons in *. pose proof (span_nonneg bl). pose proof bsize_pos.
  assert (Hr : ready m src dst iv bsize).
  { unfold apart, sep in *. split; [lia|destruct inplace; unfold sep; lia|unfold sep; lia| |];
      intros i Hi; [apply HsX; lia|apply HdX; lia]. }
  destruct (Hbody s m src dst iv b V Ev Hb Hbb HV HVb Hr) as (s1 & m1 & iv1 & Es & Ev1 & Hl1 & Hd1 & Hiv1 & Hp1 & Hf1).
  destruct (Hout V b HVb Hbb) as [Hob Hnb].
  exists s1. split; [done|]. rewrite Ev1. unfold apart, sep in *. split.
  - split; [|split; [by eauto|]].
    + apply (laid_frame m); [done| |done]. intros i Hi. apply Hf1; [destruct inplace; lia|]. apply HsX. lia.
    + split; [lia|destruct inplace; unfold sep; lia|unfold sep; destruct inplace; lia| |];
        intros i Hi; [apply HsX; lia|apply HdX; lia].
  - intros s'. destruct (view s') as [[[m' src'] dst'] iv']. intros HQ V' HV' _.
    replace V' with V in * by congruence. destruct (HQ _ Hiv1 Hnb) as (Hl' & Hd' & Hiv' & Hf').
    split; [lia|]. split; [|split; [exact Hiv'|]].
    + cbn [mode laid]. split; [|split; [exact Hob|exact Hd']]. rewrite <- Hd1. apply blk_frame; [done|].
      intros i Hi. apply Hf'; [lia|]. apply HdX. lia.
    + intros i Hi1' HX. rewrite Hf', Hf1; [done|lia|done|lia|done].
Qed.

Lemma pass_ok s m src dst iv bl V nbytes rem :
  view s = (m, src, dst, iv) → bl ≠ [] → laid m src bl → blk m iv = Some V → block bsize V →
  ready m src dst iv (span bl) → nbytes = span bl + rem → 0 ≤ rem < bsize → nbytes < 2 ^ 32 →
  ∃ s' m' src' dst' iv', do_blocks body s nbytes = Some (s', rem) ∧ view s' = (m', src', dst', iv') ∧
    alen m' = alen m ∧ laid m' dst (mode out next V bl) ∧ blk m' iv' = Some (chain next V bl) ∧
    ∀ i, ¬ (dst ≤ i < dst + span bl) → ¬ X i → m'.[i] = m.[i].
Proof.
  intros Ev Hne Hl HV HVb Hr Hn Hrem Hw.
  destruct (do_blocks_rule pass_pre pass_post body) with (bl := bl) (s := s) (nbytes := nbytes) (rem := rem)
    as (s' & E & HQ); [|by intros; apply pass_step|done| |done|done|done|].
  - intros s1. unfold pass_post. by destruct (view s1) as [[[? ?] ?] ?].
  - unfold pass_pre. rewrite Ev. by eauto.
  - unfold pass_post in HQ. rewrite Ev in HQ. destruct (view s') as [[[m' src'] dst'] iv'] eqn:Ev'.
    eexists s', m', src', dst', iv'. split; [done|]. split; [done|]. by apply HQ.
Qed.
End Pass.

(** ** Results of a pass *)
Section Results.
Context `{HC : BlockCipher} `{HL : !BlockCipherLaws}.

(** The IV is the scratch memory of these modes. *)
Definition iv_mem (iv i : Z) : Prop := iv ≤ i < iv + bsize.

(** What a pass leaves: its output at [dst], the chaining value in the IV, and
    everything else as it was. *)
Definition mode_result (out next : list Z → list Z → list Z) (m : list Z) (dst iv : Z) (V : list Z)
    (bl : list (list Z)) (m' : list Z) : Prop :=
  alen m' = alen m ∧ laid m' dst (mode out next V bl) ∧ blk m' iv = Some (chain next V bl) ∧
  ∀ i, ¬ (dst ≤ i < dst + span bl) → ¬ iv_mem iv i → m'.[i] = m.[i].

Lemma mode_span out next V bl : span (mode out next V bl) = span bl.
Proof. revert V. induction bl as [|b bl IH]; intros V; [done|]. cbn [mode]. by rewrite !span_cons, IH. Qed.

(** The final [memcpy(walk->iv, iv, bsize)]. *)
Lemma finish_copy out next m m1 dst iv iv' V bl :
  0 ≤ iv → iv + bsize ≤ alen m → sep iv bsize dst (span bl) →
  alen m1 = alen m → laid m1 dst (mode out next V bl) → blk m1 iv' = Some (chain next V bl) →
  (∀ i, ¬ (dst ≤ i < dst + span bl) → ¬ iv_mem iv i → m1.[i] = m.[i]) →
  ∃ m', copy m1 iv iv' bsize = Some m' ∧ mode_result out next m dst iv V bl m'.
Proof.
  intros H0 H1 Hs Hl Hd Hiv Hf. destruct (copy_stored m1 iv iv' _ Hiv) as (m' & -> & S); [split; lia|].
  exists m'. split; [done|]. split; [lens; lia|]. split; [|split; [by apply stored_blk in S|]].
  - apply (laid_frame m1); [lens; lia| |done]. rewrite mode_span. intros i Hi. frames. done.
  - intros i Hi Hi'. unfold iv_mem in *. rewrite <- Hf by lia. by apply (stored_frame _ _ _ _ S).
Qed.

End Results.

(** Automation for one iteration: the stores one after the other, then the
    blocks they leave. *)
Ltac step_start :=
  let E := fresh in
  intros s m src dst iv' b V E Hb Hbb HV HVb [Hd Ha [Hi1 Hi2] HsX HdX]; pose proof bsize_pos;
  repeat (match goal with p : _ * _ |- _ => destruct p end); simplify_eq; try (cbn iota in Ha);
  destruct (blk_inb _ _ _ HV) as [Hinv _]; destruct (blk_inb _ _ _ Hb) as [Hinb _].
Ltac step_end :=
  eexists _, _, _; split; [done|]; split; [done|]; split; [lens; lia|];
  split; [at_blk|]; split; [at_blk|]; split; [by (left + right)|];
  intros i Hi Hi'; unfold iv_mem in *; frames; done.
Ltac bnd := unfold inb, apart, sep in *; lens; lia.

Ltac blocks := solve [repeat first
  [ eassumption | apply xorl_block | apply cbc_e_block | apply cbc_d_block | apply E_ok | apply D_ok ]].
Ltac do_store := match goal with
  | |- context [crypto_xor ?m ?p ?q bsize] =>
      edestruct (xor_stored m p q) as (? & -> & ?); [bnd|at_blk|blocks|at_blk|blocks|]
  | |- context [call cia_encrypt ?m ?p ?q] =>
      edestruct (call_stored cia_encrypt m p q) as (? & -> & ?); [at_blk|apply E_ok; blocks|blocks|bnd|]
  | |- context [call cia_decrypt ?m ?p ?q] =>
      edestruct (call_stored cia_decrypt m p q) as (? & -> & ?); [at_blk|apply D_ok; blocks|blocks|bnd|]
  | |- context [copy ?m ?p ?q bsize] =>
      edestruct (copy_stored m p q) as (? & -> & ?); [at_blk|bnd|]
  | |- context [arr_write ?m ?p ?d] =>
      edestruct (write_stored m p d) as (? & -> & ?); [bnd|by eapply blk_inb|]
  | B : blk ?m ?p = Some _ |- context [arr_read ?m ?p bsize] =>
      change (arr_read m p bsize) with (blk m p); rewrite B
  end; cbn [mbind option_bind].

(** ** CBC and PCBC *)
Section Chaining.
Context `{HC : BlockCipher} `{HL : !BlockCipherLaws}.

Lemma cbc_enc_segment_step sz iv : block_step false (λ '(m, src, dst),
    m ← crypto_xor m iv src bsize; m ← call cia_encrypt m dst iv; m ← copy m iv dst bsize;
    Some (m, src + bsize, dst + bsize)) (λ '(m, src, dst), (m, src, dst, iv)) (iv_mem iv) sz cbc_e cbc_e.
Proof. step_start. repeat do_store. step_end. Qed.

Lemma cbc_enc_inplace_step sz W : block_step true (λ '(m, src, iv),
    m ← crypto_xor m src iv bsize; m ← call cia_encrypt m src src;
    Some (m, src + bsize, src)) (λ '(m, src, iv), (m, src, src, iv)) (iv_mem W) sz
  (λ V p, cbc_e p V) (λ V p, cbc_e p V).
Proof. step_start. repeat do_store. step_end. Qed.

Lemma cbc_dec_segment_step sz W : block_step false (λ '(m, src, dst, iv),
    m ← call cia_decrypt m dst src; m ← crypto_xor m dst iv bsize;
    Some (m, src + bsize, dst + bsize, src)) (λ s, s) (iv_mem W) sz cbc_d (λ _ c, c).
Proof. step_start. repeat do_store. step_end. Qed.

Lemma pcbc_enc_segment_step sz iv : block_step false (λ '(m, src, dst),
    m ← crypto_xor m iv src bsize; m ← call cia_encrypt m dst iv; m ← copy m iv dst bsize;
    m ← crypto_xor m iv src bsize;
    Some (m, src + bsize, dst + bsize)) (λ '(m, src, dst), (m, src, dst, iv)) (iv_mem iv) sz
  cbc_e (λ V p, xorl (cbc_e V p) p).
Proof. step_start. repeat do_store. step_end. Qed.

Lemma pcbc_enc_inplace_step sz iv : block_step true (λ '(m, src),
    tmpbuf ← arr_read m src bsize; m ← crypto_xor m iv src bsize; m ← call cia_encrypt m src iv;
    m ← arr_write m iv tmpbuf; m ← crypto_xor m iv src bsize;
    Some (m, src + bsize)) (λ '(m, src), (m, src, src, iv)) (iv_mem iv) sz
  cbc_e (λ V p, xorl p (cbc_e V p)).
Proof. step_start. repeat do_store. step_end. Qed.

Lemma pcbc_dec_segment_step sz iv : block_step false (λ '(m, src, dst),
    m ← call cia_decrypt m dst src; m ← crypto_xor m dst iv bsize; m ← copy m iv src bsize;
    m ← crypto_xor m iv dst bsize;
    Some (m, src + bsize, dst + bsize)) (λ '(m, src, dst), (m, src, dst, iv)) (iv_mem iv) sz
  cbc_d (λ V c, xorl c (cbc_d V c)).
Proof. step_start. repeat do_store. step_end. Qed.

Lemma pcbc_dec_inplace_step sz iv : block_step true (λ '(m, src),
    tmpbuf ← arr_read m src bsize; m ← call cia_decrypt m src src; m ← crypto_xor m src iv bsize;
    m ← arr_write m iv tmpbuf; m ← crypto_xor m iv src bsize;
    Some (m, src + bsize)) (λ '(m, src), (m, src, src, iv)) (iv_mem iv) sz
  cbc_d (λ V c, xorl c (cbc_d V c)).
Proof. step_start. repeat do_store. step_end. Qed.

(** The buffers a pass is given: a row of blocks [bl] at [src], the IV [V] at
    [iv], and room for the output at [dst]. *)
Record buffers (inplace : bool) (m : list Z) (src dst iv nbytes : Z) (V : list Z) (bl : list (list Z))
    (rem : Z) : Prop := {
  buf_ne : bl ≠ [];
  buf_src : laid m src bl;
  buf_iv : blk m iv = Some V ∧ block bsize V;
  buf_dst : 0 ≤ dst ∧ dst + span bl ≤ alen m;
  buf_sep : if inplace then src = dst else sep src (span bl) dst (span bl);
  buf_sep_iv : sep iv bsize src (span bl) ∧ sep iv bsize dst (span bl);
  buf_n : nbytes = span bl + rem ∧ 0 ≤ rem < bsize ∧ nbytes < 2 ^ 32 }.

Lemma buffers_ready ip m src dst iv nbytes V bl rem : buffers ip m src dst iv nbytes V bl rem →
  ready ip (iv_mem iv) (alen m) m src dst iv (span bl).
Proof.
  intros [_ _ _ Hd Hs [H1 H2] _]. split; [lia|done|done| |]; intros i Hi; unfold iv_mem, sep in *; lia.
Qed.

(** A pass over given buffers, from what one iteration does. *)
Lemma pass_result {S} ip body view out next (s : S) m src dst iv nbytes V bl rem :
  block_step ip body view (iv_mem iv) (alen m) out next →
  (∀ V b, block bsize V → block bsize b → block bsize (out V b) ∧ block bsize (next V b)) →
  view s = (m, src, dst, iv) → buffers ip m src dst iv nbytes V bl rem →
  ∃ s' m' src' dst' iv', do_blocks body s nbytes = Some (s', rem) ∧ view s' = (m', src', dst', iv') ∧
    alen m' = alen m ∧ laid m' dst (mode out next V bl) ∧ blk m' iv' = Some (chain next V bl) ∧
    ∀ i, ¬ (dst ≤ i < dst + span bl) → ¬ iv_mem iv i → m'.[i] = m.[i].
Proof.
  intros Hstep Hout Ev HB. pose proof (buffers_ready _ _ _ _ _ _ _ _ _ HB) as Hr.
  destruct HB as [Hne Hs [HV HVb] _ _ _ (Hn & Hrem & Hw)].
  by apply (pass_ok ip body view (iv_mem iv) (alen m) out next Hout Hstep s m src dst iv bl V).
Qed.

Lemma cbc_e_swap V p : cbc_e p V = cbc_e V p.
Proof. unfold cbc_e. by rewrite xorl_comm. Qed.

Lemma mode_ext out next out' next' V bl :
  (∀ V b, out V b = out' V b ∧ next V b = next' V b) →
  mode out next V bl = mode out' next' V bl ∧ chain next V bl = chain next' V bl.
Proof.
  intros He. revert V. induction bl as [|b bl IH]; intros V; [done|]. cbn [mode chain fold_left].
  destruct (He V b) as [-> ->]. destruct (IH (next' V b)) as [-> E2]. split; [done|exact E2].
Qed.

Ltac side := intros; split; blocks.

Lemma cbc_encrypt_segment_ok m src dst iv nbytes V bl rem : buffers false m src dst iv nbytes V bl rem →
  ∃ m', crypto_cbc_encrypt_segment m src dst iv nbytes = Some (m', rem) ∧ mode_result cbc_e cbc_e m dst iv V bl m'.
Proof.
  intros HB. unfold crypto_cbc_encrypt_segment.
  destruct (pass_result _ _ _ _ _ (m, src, dst) _ _ _ _ _ _ _ _ (cbc_enc_segment_step (alen m) iv) ltac:(side) eq_refl HB)
    as ([[m' src'] dst'] & m1 & ? & ? & iv' & -> & Ev & HR). simplify_eq. cbn [mbind option_bind]. by exists m1.
Qed.

Lemma cbc_encrypt_inplace_ok m src iv nbytes V bl rem : buffers true m src src iv nbytes V bl rem →
  ∃ m', crypto_cbc_encrypt_inplace m src iv nbytes = Some (m', rem) ∧ mode_result cbc_e cbc_e m src iv V bl m'.
Proof.
  intros HB. unfold crypto_cbc_encrypt_inplace. cbv zeta.
  destruct (pass_result _ _ _ _ _ (m, src, iv) _ _ _ _ _ _ _ _ (cbc_enc_inplace_step (alen m) iv) ltac:(side) eq_refl HB)
    as ([[m' src'] ivp] & m1 & ? & ? & iv' & -> & Ev & HL1 & HD & HI & HF). simplify_eq. cbn [mbind option_bind].
  destruct HB as [_ _ [[[? ?] _]%blk_inb _] _ _ [_ ?] _].
  edestruct (finish_copy (λ V p, cbc_e p V) (λ V p, cbc_e p V) m m1 src iv) as (m2 & -> & HR); [done..|].
  cbn [mbind option_bind]. exists m2. split; [done|]. unfold mode_result in *.
  destruct (mode_ext (λ V p, cbc_e p V) (λ V p, cbc_e p V) cbc_e cbc_e V bl) as [<- <-]; [|done].
  intros; by rewrite cbc_e_swap.
Qed.

Lemma cbc_decrypt_segment_ok m src dst iv nbytes V bl rem : buffers false m src dst iv nbytes V bl rem →
  ∃ m', crypto_cbc_decrypt_segment m src dst iv nbytes = Some (m', rem) ∧
    mode_result cbc_d (λ _ c, c) m dst iv V bl m'.
Proof.
  intros HB. unfold crypto_cbc_decrypt_segment. cbv zeta.
  destruct (pass_result _ _ _ _ _ (m, src, dst, iv) _ _ _ _ _ _ _ _ (cbc_dec_segment_step (alen m) iv) ltac:(side) eq_refl HB)
    as ([[[m' src'] dst'] ivp] & m1 & ? & ? & iv' & -> & Ev & HL1 & HD & HI & HF). simplify_eq. cbn [mbind option_bind].
  destruct HB as [_ _ [[[? ?] _]%blk_inb _] _ _ [_ ?] _].
  edestruct (finish_copy cbc_d (λ _ c, c) m m1 dst iv) as (m2 & -> & HR); [done..|].
  cbn [mbind option_bind]. by exists m2.
Qed.

(** *** In-place CBC decryption, from the last block to the first *)

Lemma span_app bl bl' : span (bl ++ bl') = span bl + span bl'.
Proof. unfold span. rewrite alen_app. lia. Qed.

Lemma laid_app m p bl bl' : laid m p (bl ++ bl') ↔ laid m p bl ∧ laid m (p + span bl) bl'.
Proof.
  revert p. induction bl as [|b bl IH]; intros p; cbn [app laid].
  - change (span []) with 0. rewrite Z.add_0_r. naive_solver.
  - rewrite IH, span_cons, Z.add_assoc. naive_solver.
Qed.

(** The row when only the first block still lacks its xor. *)
Definition dec0 (cs : list (list Z)) : list (list Z) :=
  match cs with [] => [] | c :: cs => D c :: mode cbc_d (λ _ c, c) c cs end.

Lemma mode_snoc out next V bl b :
  mode out next V (bl ++ [b]) = mode out next V bl ++ [out (chain next V bl) b].
Proof. revert V. induction bl as [|b' bl IH]; intros V; [done|]. cbn [app mode chain fold_left]. by rewrite IH. Qed.

Lemma chain_last V cs : chain (λ _ c : list Z, c) V cs = List.last cs V.
Proof.
  revert V. induction cs as [|c cs IH]; intros V; [done|]. cbn [chain fold_left].
  fold (chain (λ _ c : list Z, c) c cs). rewrite IH. clear IH. revert c.
  induction cs as [|c' cs IH]; intros c; [done|]. cbn [List.last] in *. destruct cs; [done|]. apply IH.
Qed.

Lemma dec0_snoc cs c' c : dec0 (cs ++ [c'] ++ [c]) = dec0 (cs ++ [c']) ++ [xorl (D c) c'].
Proof.
  destruct cs as [|c0 cs]; [done|]. cbn [app dec0]. change [c'; c] with ([c'] ++ [c]).
  rewrite app_assoc, mode_snoc, chain_last, List.last_last. done.
Qed.

Definition dec_inplace_step (s : list Z * Z * Z) : option (list Z * Z * Z + list Z * Z * Z) :=
  let '(m, src, nbytes) := s in
  m ← call cia_decrypt m src src;
  let nbytes := u32 (nbytes - bsize) in
  if nbytes <? bsize then Some (inr (m, src, nbytes)) else
  m ← crypto_xor m src (src - bsize) bsize;
  Some (inl (m, src - bsize, nbytes)).

Lemma span_one b : span [b] = bsize.
Proof. unfold span, alen. cbn [length]. lia. Qed.

(** The last iteration and the ones before it. *)
Lemma dec_inplace_last m p c nbytes rem : blk m p = Some c → block bsize c →
  nbytes = bsize + rem → 0 ≤ rem < bsize → nbytes < 2 ^ 32 →
  ∃ m', dec_inplace_step (m, p, nbytes) = Some (inr (m', p, rem)) ∧ stored m p (D c) m'.
Proof.
  intros Hb Hbb Hn Hr Hw. unfold dec_inplace_step. cbn beta iota. pose proof bsize_pos.
  destruct (blk_inb _ _ _ Hb) as [Hin _]. do_store.
  replace (u32 (nbytes - bsize)) with rem by (symmetry; unfold uwrap; rewrite Z.mod_small; lia).
  destruct (Z.ltb_spec rem bsize); [|lia]. eauto.
Qed.

Lemma dec_inplace_more m q c' c nbytes : blk m (q - bsize) = Some c' → block bsize c' →
  blk m q = Some c → block bsize c → 2 * bsize ≤ nbytes < 2 ^ 32 →
  ∃ m1 m', dec_inplace_step (m, q, nbytes) = Some (inl (m', q - bsize, nbytes - bsize)) ∧
    stored m q (D c) m1 ∧ stored m1 q (xorl (D c) c') m'.
Proof.
  intros Hb' Hbb' Hb Hbb Hn. unfold dec_inplace_step. cbn beta iota. pose proof bsize_pos.
  destruct (D_ok c Hbb) as [HD HDb]. destruct (blk_inb _ _ _ Hb) as [Hin _].
  destruct (call_stored cia_decrypt m q q _ _ Hb HD HDb Hin) as (m1 & -> & S1). cbn [mbind option_bind].
  replace (u32 (nbytes - bsize)) with (nbytes - bsize) by (symmetry; unfold uwrap; rewrite Z.mod_small; lia).
  destruct (Z.ltb_spec (nbytes - bsize) bsize); [lia|].
  destruct (xor_stored m1 q (q - bsize) (D c) c') as (m2 & -> & S2); [unfold apart; lia|at_blk|done|at_blk|done|].
  cbn [mbind option_bind]. by exists m1, m2.
Qed.

Lemma dec0_span cs : span (dec0 cs) = span cs.
Proof. destruct cs as [|c cs]; [done|]. cbn [dec0]. by rewrite !span_cons, mode_span. Qed.

Lemma cbc_dec_inplace_loop cs c m p nbytes rem fuel :
  laid m p (cs ++ [c]) → nbytes = span (cs ++ [c]) + rem → 0 ≤ rem < bsize → nbytes < 2 ^ 32 →
  (length cs < fuel)%nat →
  ∃ m', loop fuel dec_inplace_step (m, p + span cs, nbytes) = Some (m', p, rem) ∧
    alen m' = alen m ∧ laid m' p (dec0 (cs ++ [c])) ∧
    ∀ i, ¬ (p ≤ i < p + span (cs ++ [c])) → m'.[i] = m.[i].
Proof.
  pose proof bsize_pos as Hbs.
  revert c m nbytes fuel. induction cs as [|c' cs IH] using rev_ind; intros c m nbytes fuel Hl Hn Hr Hw Hf;
    (destruct fuel as [|fuel]; [lia|]); cbn [loop].
  - change (span []) with 0. rewrite Z.add_0_r, app_nil_l, span_one in *. destruct Hl as (Hb & Hbb & _).
    destruct (dec_inplace_last m p c nbytes rem) as (m1 & -> & S1); [done..|]. exists m1. split; [done|].
    split; [lens; lia|]. split; [|intros i Hi; frames; done]. destruct (D_ok c Hbb). split; [at_blk|done].
  - pose proof (proj1 (laid_app _ _ _ _) Hl) as [Hlc (Hb & Hbb & _)].
    pose proof (proj1 (laid_app _ _ _ _) Hlc) as [_ (Hb' & Hbb' & _)].
    rewrite !span_app, !span_one in *. pose proof (span_nonneg cs).
    destruct (dec_inplace_more m (p + (span cs + bsize)) c' c nbytes) as (m1 & m2 & -> & S1 & S2); [|done..|lia|].
    { rewrite <- Hb'. f_equal. lia. }
    cbn [mbind option_bind]. replace (p + (span cs + bsize) - bsize) with (p + span cs) by lia.
    destruct (IH c' m2 (nbytes - bsize) fuel) as (m' & -> & Hl' & Hd' & Hf');
      [|rewrite span_app, span_one; lia|done|lia|rewrite length_app in Hf; simpl in Hf; lia|].
    { apply (laid_frame m); [lens; lia| |done]. rewrite span_app, span_one. intros i Hi. frames. done. }
    rewrite span_app, span_one in Hf'. exists m'. split; [done|]. split; [lens; lia|]. split.
    + rewrite <- app_assoc, dec0_snoc. apply laid_app. rewrite dec0_span, span_app, span_one.
      split; [done|]. destruct (D_ok c Hbb). split; [|split; [by apply xorl_block|done]].
      rewrite (blk_frame m2); [at_blk|done|]. intros i Hi. apply Hf'. lia.
    + intros i Hi. rewrite Hf' by lia. frames. done.
Qed.

(** The end of the function: the IV into the first block, the last ciphertext
    block into the IV. *)
Lemma dec_inplace_finish m m1 src iv V c cs lc : block bsize c →
  blk m iv = Some V → block bsize V → sep iv bsize src (span (c :: cs)) → alen m1 = alen m →
  laid m1 src (dec0 (c :: cs)) → (∀ i, ¬ (src ≤ i < src + span (c :: cs)) → m1.[i] = m.[i]) →
  alen lc = bsize → lc = chain (λ _ c, c) V (c :: cs) →
  ∃ m2 m', crypto_xor m1 src iv bsize = Some m2 ∧ arr_write m2 iv lc = Some m' ∧
    mode_result cbc_d (λ _ c, c) m src iv V (c :: cs) m'.
Proof.
  intros Hc HV HVb Hs Hl1 (Hb & HDb & Hd) Hf Hlc Hlc'. pose proof bsize_pos. pose proof (span_nonneg cs).
  rewrite span_cons in *. destruct (blk_inb _ _ _ HV) as [Hin _].
  assert (HV1 : blk m1 iv = Some V).
  { rewrite (blk_frame m); [done|done|]. intros i Hi. apply Hf. unfold sep in *. lia. }
  destruct (xor_stored m1 src iv (D c) V) as (m2 & -> & S2); [unfold apart, sep in *; lia|done..|].
  destruct (write_stored m2 iv lc) as (m' & E' & S3); [bnd|done|]. exists m2, m'. split; [done|]. split; [done|].
  split; [lens; lia|]. split; [|split].
  - cbn [mode]. split; [at_blk|]. split; [by apply cbc_d_block|].
    apply (laid_frame m1); [lens; lia| |done]. rewrite mode_span. intros i Hi. frames. done.
  - rewrite <- Hlc'. at_blk.
  - rewrite span_cons. intros i Hi Hi'. unfold iv_mem in *. rewrite <- Hf by lia. frames. done.
Qed.

Lemma cbc_decrypt_inplace_ok m src iv nbytes V bl rem : buffers true m src src iv nbytes V bl rem →
  ∃ m', crypto_cbc_decrypt_inplace m src iv nbytes = Some (m', rem) ∧
    mode_result cbc_d (λ _ c, c) m src iv V bl m'.
Proof.
  intros [Hne Hl [HV HVb] Hd _ [Hs _] (Hn & Hr & Hw)]. pose proof bsize_pos as Hbs. pose proof (span_nonneg bl).
  unfold crypto_cbc_decrypt_inplace. destruct bl as [|c bl _] using rev_ind; [done|].
  replace (Z.land nbytes (bsize - 1)) with rem; last first.
  { destruct bsize_pow2 as (k & Hk & E2). replace (bsize - 1) with (Z.ones k) by (rewrite Z.ones_equiv; lia).
    rewrite Z.land_ones, <- E2, Hn by lia. unfold span. rewrite Z.add_comm, Z_mod_plus_full. symmetry. by apply Z.mod_small. }
  pose proof (proj1 (laid_app _ _ _ _) Hl) as [_ (Hb & Hbb & _)].
  rewrite span_app, span_one in Hn. replace (src + (nbytes - rem - bsize)) with (src + span bl) by lia.
  unfold blk in Hb. rewrite Hb. cbn [mbind option_bind].
  destruct (cbc_dec_inplace_loop bl c m src nbytes rem (S (Z.to_nat nbytes))) as (m1 & E1 & Hl1 & Hd1 & Hf1);
    [done|rewrite span_app, span_one; lia|done|done| |].
  { unfold span, alen in Hn. nia. }
  match goal with |- context [loop ?f ?g ?s] => change (loop f g s) with (loop f dec_inplace_step s) end.
  rewrite E1. cbn [mbind option_bind].
  assert (Hlc : c = chain (λ _ c, c) V (bl ++ [c])) by (rewrite chain_last, List.last_last; done).
  destruct (bl ++ [c]) as [|c0 cs] eqn:Ebl; [done|]. destruct Hl as (_ & Hc0 & _).
  destruct (dec_inplace_finish m m1 src iv V c0 cs c) as (m2 & m' & -> & E' & HR);
    [done..|by destruct Hbb|exact Hlc|].
  cbn [mbind option_bind]. rewrite E'. cbn [mbind option_bind]. by exists m'.
Qed.

Lemma pcbc_encrypt_segment_ok m src dst iv nbytes V bl rem : buffers false m src dst iv nbytes V bl rem →
  ∃ m', crypto_pcbc_encrypt_segment m src dst iv nbytes = Some (m', rem) ∧
    mode_result cbc_e (λ V p, xorl (cbc_e V p) p) m dst iv V bl m'.
Proof.
  intros HB. unfold crypto_pcbc_encrypt_segment.
  destruct (pass_result _ _ _ _ _ (m, src, dst) _ _ _ _ _ _ _ _ (pcbc_enc_segment_step (alen m) iv) ltac:(side) eq_refl HB)
    as ([[m' src'] dst'] & m1 & ? & ? & iv' & -> & Ev & HR). simplify_eq. cbn [mbind option_bind]. by exists m1.
Qed.

Lemma pcbc_encrypt_inplace_ok m src iv nbytes V bl rem : buffers true m src src iv nbytes V bl rem →
  ∃ m', crypto_pcbc_encrypt_inplace m src iv nbytes = Some (m', rem) ∧
    mode_result cbc_e (λ V p, xorl (cbc_e V p) p) m src iv V bl m'.
Proof.
  intros HB. unfold crypto_pcbc_encrypt_inplace.
  destruct (pass_result _ _ _ _ _ (m, src) _ _ _ _ _ _ _ _ (pcbc_enc_inplace_step (alen m) iv) ltac:(side) eq_refl HB)
    as ([m' src'] & m1 & ? & ? & iv' & -> & Ev & HL1 & HD & HI & HF). simplify_eq. cbn [mbind option_bind].
  destruct HB as [_ _ [[[? ?] _]%blk_inb _] _ _ [_ ?] _].
  edestruct (finish_copy cbc_e (λ V p, xorl p (cbc_e V p)) m m1 src iv') as (m2 & -> & HR); [done..|].
  cbn [mbind option_bind]. exists m2. split; [done|]. unfold mode_result in *.
  destruct (mode_ext cbc_e (λ V p, xorl p (cbc_e V p)) cbc_e (λ V p, xorl (cbc_e V p) p) V bl) as [<- <-]; [|done].
  intros V' b. split; [done|apply xorl_comm].
Qed.

Lemma pcbc_decrypt_segment_ok m src dst iv nbytes V bl rem : buffers false m src dst iv nbytes V bl rem →
  ∃ m', crypto_pcbc_decrypt_segment m src dst iv nbytes = Some (m', rem) ∧
    mode_result cbc_d (λ V c, xorl c (cbc_d V c)) m dst iv V bl m'.
Proof.
  intros HB. unfold crypto_pcbc_decrypt_segment.
  destruct (pass_result _ _ _ _ _ (m, src, dst) _ _ _ _ _ _ _ _ (pcbc_dec_segment_step (alen m) iv) ltac:(side) eq_refl HB)
    as ([[m' src'] dst'] & m1 & ? & ? & iv' & -> & Ev & HL1 & HD & HI & HF). simplify_eq. cbn [mbind option_bind].
  destruct HB as [_ _ [[[? ?] _]%blk_inb _] _ _ [_ ?] _].
  edestruct (finish_copy cbc_d (λ V c, xorl c (cbc_d V c)) m m1 dst iv') as (m2 & -> & HR); [done..|].
  cbn [mbind option_bind]. by exists m2.
Qed.

Lemma pcbc_decrypt_inplace_ok m src iv nbytes V bl rem : buffers true m src src iv nbytes V bl rem →
  ∃ m', crypto_pcbc_decrypt_inplace m src iv nbytes = Some (m', rem) ∧
    mode_result cbc_d (λ V c, xorl c (cbc_d V c)) m src iv V bl m'.
Proof.
  intros HB. unfold crypto_pcbc_decrypt_inplace.
  destruct (pass_result _ _ _ _ _ (m, src) _ _ _ _ _ _ _ _ (pcbc_dec_inplace_step (alen m) iv) ltac:(side) eq_refl HB)
    as ([m' src'] & m1 & ? & ? & iv' & -> & Ev & HL1 & HD & HI & HF). simplify_eq. cbn [mbind option_bind].
  destruct HB as [_ _ [[[? ?] _]%blk_inb _] _ _ [_ ?] _].
  edestruct (finish_copy cbc_d (λ V c, xorl c (cbc_d V c)) m m1 src iv') as (m2 & -> & HR); [done..|].
  cbn [mbind option_bind]. by exists m2.
Qed.
End Chaining.

(** ** [crypto_inc] *)

(** The successor of a big-endian number, on its bytes: [inc_rev] counts from the
    least significant byte. *)
Fixpoint inc_rev (l : list Z) : list Z :=
  match l with
  | [] => []
  | x :: l => if x =? 255 then 0 :: inc_rev l else x + 1 :: l
  end.
Definition inc (b : list Z) : list Z := rev (inc_rev (rev b)).
Definition be_val (b : list Z) : Z := fold_left (λ a x, 256 * a + x) b 0.

Lemma be_val_snoc b x : be_val (b ++ [x]) = 256 * be_val b + x.
Proof. unfold be_val. by rewrite fold_left_app. Qed.

Lemma inc_snoc b x : inc (b ++ [x]) = if x =? 255 then inc b ++ [0] else b ++ [x + 1].
Proof.
  unfold inc. rewrite rev_app_distr. cbn [rev app inc_rev]. destruct (x =? 255); cbn [rev]; [done|].
  by rewrite rev_involutive.
Qed.

Lemma inc_alen b : alen (inc b) = alen b.
Proof.
  induction b as [|x b IH] using rev_ind; [done|]. rewrite inc_snoc. destruct (x =? 255); rewrite !alen_app; [|done].
  by rewrite IH.
Qed.

Lemma inc_bytes b : Forall byte b → Forall byte (inc b).
Proof.
  induction b as [|x b IH] using rev_ind; [done|]. rewrite inc_snoc, Forall_app, list.Forall_cons.
  intros (Hb & Hx & _). destruct (Z.eqb_spec x 255); apply Forall_app; (split; [by auto|]);
    (constructor; [|constructor]); unfold urange in *; lia.
Qed.

Lemma be_val_range b : Forall byte b → 0 ≤ be_val b < 256 ^ alen b.
Proof.
  induction b as [|x b IH] using rev_ind; [done|]. rewrite Forall_app, list.Forall_cons. intros (Hb & Hx & _).
  rewrite be_val_snoc, alen_app. change (alen [x]) with 1. rewrite Z.pow_add_r by (pose proof (alen_nonneg b); lia).
  specialize (IH Hb). unfold urange in Hx. lia.
Qed.

Lemma be_val_inc b : Forall byte b → be_val (inc b) = (be_val b + 1) mod 256 ^ alen b.
Proof.
  induction b as [|x b IH] using rev_ind; [done|]. intros HF.
  pose proof (be_val_range _ HF) as Hr. apply Forall_app in HF as [Hb Hx%list.Forall_cons]. destruct Hx as [Hx _].
  rewrite inc_snoc. rewrite be_val_snoc, alen_app in *. change (alen [x]) with 1 in *.
  rewrite Z.pow_add_r in * by (pose proof (alen_nonneg b); lia). change (256 ^ 1) with 256 in *.
  pose proof (be_val_range _ Hb). destruct (Z.eqb_spec x 255) as [->|Hne]; rewrite be_val_snoc.
  - rewrite IH by done. replace (256 * be_val b + 255 + 1) with ((be_val b + 1) * 256) by lia.
    rewrite Zmult_mod_distr_r. lia.
  - unfold urange in Hx. rewrite Z.mod_small; lia.
Qed.

(** Bytes that all wrap carry into those in front; otherwise these stay. *)
Lemma inc_app h b :
  inc (h ++ b) = if forallb (Z.eqb 255) b then inc h ++ replicate (length b) 0 else h ++ inc b.
Proof.
  induction b as [|x b IH] using rev_ind; [by rewrite !app_nil_r|].
  rewrite app_assoc, !inc_snoc, forallb_app, length_app, Nat.add_comm, replicate_add. cbn [forallb length replicate].
  rewrite Z.eqb_sym, andb_true_r. destruct (255 =? x); [|by rewrite andb_false_r, app_assoc].
  rewrite andb_true_r, IH. destruct (forallb (Z.eqb 255) b); [|by rewrite app_assoc].
  change ([0] ++ replicate (length b) 0) with (replicate (S (length b)) 0).
  by rewrite replicate_S_end, app_assoc.
Qed.

(** The increment of a big-endian word, on its bytes. *)
Lemma inc_word w0 w1 w2 w3 : byte w0 → byte w1 → byte w2 → byte w3 →
  let c := u32 (swab32 (le32 w0 w1 w2 w3) + 1) in
  urange 32 c ∧ put_le32 (swab32 c) = inc [w0; w1; w2; w3] ∧
  ctrue c = negb (forallb (Z.eqb 255) [w0; w1; w2; w3]).
Proof.
  intros H0 H1 H2 H3 c. split; [by apply urange_uwrap|].
  assert (Hc : ∀ a0 a1 a2 a3, byte a0 → byte a1 → byte a2 → byte a3 → c = le32 a3 a2 a1 a0 →
    put_le32 (swab32 c) = [a0; a1; a2; a3]).
  { intros a0 a1 a2 a3 ? ? ? ? ->. rewrite swab32_le32, put_le32_le32 by done. done. }
  assert (Hs : swab32 (le32 w0 w1 w2 w3) = le32 w3 w2 w1 w0) by by apply swab32_le32.
  subst c. rewrite Hs in *. unfold inc. cbn [rev app inc_rev forallb]. unfold ctrue, uwrap, le32, urange in *.
  change (2 ^ 8) with 256 in *. change (2 ^ 32) with 4294967296 in *.
  rewrite !(Z.eqb_sym 255).
  destruct (Z.eqb_spec w3 255) as [->|]; cbn [rev app inc_rev andb];
    [destruct (Z.eqb_spec w2 255) as [->|]; cbn [rev app inc_rev andb];
      [destruct (Z.eqb_spec w1 255) as [->|]; cbn [rev app inc_rev andb];
        [destruct (Z.eqb_spec w0 255) as [->|]; cbn [rev app inc_rev andb]|]|]|].
  1: split; [by apply Hc|done].
  all: rewrite Z.mod_small in * by lia; rewrite ?andb_false_r; cbn [negb];
    (split; [apply Hc; lia|]); destruct (Z.eqb_spec 0 0); try done;
    match goal with |- negb (?x =? 0) = true => destruct (Z.eqb_spec x 0); [lia|done] end.
Qed.

(** Memory as the part in front of a buffer, the buffer and the rest. *)
Lemma arr_write_mid (l d d' r : list Z) : alen d = alen d' →
  arr_write (l ++ d ++ r) (alen l) d' = Some (l ++ d' ++ r).
Proof.
  intros Hd. pose proof (alen_nonneg r). destruct (arr_write_spec (l ++ d ++ r) (alen l) d') as (m & -> & Hl & Hm).
  - apply alen_nonneg.
  - rewrite !alen_app. lia.
  - f_equal. apply arr_ext; [rewrite Hl, !alen_app; lia|]. rewrite Hl, !alen_app. intros i Hi. rewrite Hm.
    rewrite (arr_get_app l (d ++ r)), (arr_get_app l (d' ++ r)) by lia.
    destruct (decide (i < alen l)); [by rewrite decide_False by lia|].
    rewrite (arr_get_app d), (arr_get_app d') by lia. rewrite Hd. destruct (decide (i - alen l < alen d')).
    + by rewrite decide_True by lia.
    + rewrite decide_False by lia. done.
Qed.

Lemma arr_get_mid (l r : list Z) x : (l ++ x :: r).[alen l] = Some x.
Proof.
  rewrite arr_get_app by apply alen_nonneg. rewrite decide_False by lia. by rewrite Z.sub_diag.
Qed.

Lemma arr_read_mid (l d r : list Z) : arr_read (l ++ d ++ r) (alen l) (alen d) = Some d.
Proof.
  pose proof (alen_nonneg l). pose proof (alen_nonneg d). pose proof (alen_nonneg r).
  apply arr_read_iff; [done|]. rewrite !alen_app. split; [lia|]. split; [lia|]. split; [done|].
  intros i Hi. rewrite (arr_get_app l), decide_False by lia. replace (alen l + i - alen l) with i by lia.
  by rewrite (arr_get_app d), decide_True by lia.
Qed.

Lemma arr_set_mid (l r : list Z) x y : (l ++ x :: r).[alen l <- y] = Some (l ++ y :: r).
Proof.
  rewrite arr_set_lt.
  - f_equal. unfold alen. rewrite Nat2Z.id, insert_app_r_alt, Nat.sub_diag by lia. done.
  - rewrite alen_app. pose proof (alen_nonneg l). unfold alen. cbn [length]. lia.
Qed.

Lemma crypto_inc_byte_ok pre h z : Forall byte h →
  crypto_inc_byte (pre ++ h ++ z) (alen pre) (alen h) = Some (pre ++ inc h ++ z).
Proof.
  unfold crypto_inc_byte. intros HF. assert (Hfuel : (length h < S (Z.to_nat (alen h)))%nat) by (unfold alen; lia).
  revert Hfuel. generalize (S (Z.to_nat (alen h))) as fuel. revert z.
  induction h as [|x h IH] using rev_ind; intros z fuel Hf; (destruct fuel as [|fuel]; [lia|]); cbn [loop].
  { done. }
  apply Forall_app in HF as [HF Hx%list.Forall_cons]. destruct Hx as [Hx _]. rewrite alen_app. change (alen [x]) with 1.
  pose proof (alen_nonneg h). destruct (Z.eqb_spec (alen h + 1) 0); [lia|].
  replace (alen pre + (alen h + 1) - 1) with (alen (pre ++ h)) by (rewrite alen_app; lia).
  replace (pre ++ (h ++ [x]) ++ z) with ((pre ++ h) ++ x :: z) by by rewrite <- !app_assoc.
  rewrite arr_get_mid. cbn [mbind option_bind]. rewrite arr_set_mid. cbn [mbind option_bind].
  rewrite inc_snoc. unfold ctrue, uwrap, urange in *. destruct (Z.eqb_spec x 255) as [->|].
  - change ((255 + 1) mod 2 ^ 8) with 0. change (negb (0 =? 0)) with false. cbn iota.
    replace (alen h + 1 - 1) with (alen h) by lia. rewrite <- app_assoc.
    rewrite IH; [by rewrite <- app_assoc|done|]. rewrite length_app in Hf. simpl in Hf. lia.
  - rewrite Z.mod_small by lia. destruct (Z.eqb_spec (x + 1) 0); [lia|]. cbn iota. by rewrite <- !app_assoc.
Qed.

(** The last word of a buffer of at least four bytes. *)
Lemma last_word (h : list Z) : 4 ≤ alen h → ∃ h' w0 w1 w2 w3, h = h' ++ [w0; w1; w2; w3].
Proof.
  unfold alen. intros Hl. exists (take (length h - 4) h).
  assert (Hd : length (drop (length h - 4) h) = 4%nat) by (rewrite length_drop; lia).
  destruct (drop (length h - 4) h) as [|w0 [|w1 [|w2 [|w3 [|]]]]] eqn:E; simpl in Hd; try lia.
  exists w0, w1, w2, w3. by rewrite <- E, take_drop.
Qed.

Lemma crypto_inc_ok pre h z : Forall byte h →
  crypto_inc (pre ++ h ++ z) (alen pre) (alen h) = Some (pre ++ inc h ++ z).
Proof.
  intros HF. unfold crypto_inc.
  assert (Hfuel : (length h < S (Z.to_nat (alen h)))%nat) by (unfold alen; lia).
  revert Hfuel. generalize (S (Z.to_nat (alen h))) as fuel. intros fuel. revert h z HF.
  induction fuel as [|fuel IH]; intros h z HF Hf; [lia|]. cbn [loop].
  destruct (Z.ltb_spec (alen h) 4) as [Hlt|Hge]; [by apply crypto_inc_byte_ok|].
  destruct (last_word h Hge) as (h' & w0 & w1 & w2 & w3 & ->).
  apply Forall_app in HF as [HF HW]. pose proof HW as HW'. rewrite !list.Forall_cons in HW'.
  destruct HW' as (H0 & H1 & H2 & H3 & _). destruct (inc_word w0 w1 w2 w3 H0 H1 H2 H3) as (Hc & Hput & Hct).
  rewrite alen_app. change (alen [w0; w1; w2; w3]) with 4. pose proof (alen_nonneg h').
  replace (alen pre + (alen h' + 4) - 4) with (alen (pre ++ h')) by (rewrite alen_app; lia).
  replace (pre ++ (h' ++ [w0; w1; w2; w3]) ++ z) with ((pre ++ h') ++ [w0; w1; w2; w3] ++ z) by by rewrite <- !app_assoc.
  pose proof (arr_read_mid (pre ++ h') [w0; w1; w2; w3] z) as ER. change (alen [w0; w1; w2; w3]) with 4 in ER.
  unfold ld32. rewrite ER. cbn [mbind option_bind].
  change (get_le32 [w0; w1; w2; w3] 0) with (Some (le32 w0 w1 w2 w3)). cbn [mbind option_bind].
  unfold st32. rewrite Hput, arr_write_mid by by rewrite inc_alen. cbn [mbind option_bind].
  rewrite Hct, inc_app. destruct (forallb (Z.eqb 255) [w0; w1; w2; w3]) eqn:Eall; cbn [negb].
  - pose proof (inc_app [] [w0; w1; w2; w3]) as E4. rewrite Eall in E4. cbn [app] in E4. rewrite E4.
    replace (alen h' + 4 - 4) with (alen h') by lia. rewrite alen_app, <- app_assoc.
    rewrite IH; [by rewrite <- !app_assoc|done|]. rewrite length_app in Hf. simpl in Hf. lia.
  - by rewrite <- !app_assoc.
Qed.

Lemma arr_read_split (m : list Z) p n d : arr_read m p n = Some d →
  ∃ l r, m = l ++ d ++ r ∧ alen l = p ∧ alen d = n.
Proof.
  intros E. destruct (arr_read_Some _ _ _ _ E) as (Hp & Hn & Hb). unfold arr_read in E.
  destruct (Z.leb_spec 0 p), (Z.leb_spec 0 n), (Z.leb_spec (p + n) (Z.of_nat (length m))); try done.
  cbn [andb] in E. injection E as <-. unfold alen in *.
  exists (take (Z.to_nat p) m), (drop (Z.to_nat n) (drop (Z.to_nat p) m)).
  rewrite !take_drop, !length_take, length_drop. split; [done|lia].
Qed.

(** ** CTR *)
Section Ctr.
Context `{HC : BlockCipher} `{HL : !BlockCipherLaws}.

Definition ctr_out (V p : list Z) : list Z := xorl (E V) p.
Definition ctr_next (V p : list Z) : list Z := inc V.

Lemma inc_block b : block bsize b → block bsize (inc b).
Proof. intros [Hl HF]. split; [by rewrite inc_alen|by apply inc_bytes]. Qed.

Lemma inc_stored m p b : blk m p = Some b → block bsize b →
  ∃ m', crypto_inc m p bsize = Some m' ∧ stored m p (inc b) m'.
Proof.
  intros Hb [Hl HF]. destruct (blk_inb _ _ _ Hb) as [Hin _].
  destruct (write_stored m p (inc b)) as (m' & E' & S); [done|by rewrite inc_alen|]. exists m'. split; [|done].
  destruct (arr_read_split _ _ _ _ Hb) as (l & r & -> & <- & _).
  rewrite arr_write_mid in E' by by rewrite inc_alen. rewrite <- E', <- Hl. by apply crypto_inc_ok.
Qed.

Lemma ctr_blocks V p : block bsize V → block bsize p → block bsize (ctr_out V p) ∧ block bsize (ctr_next V p).
Proof. intros HV Hp. destruct (E_ok V HV) as (_ & ? & _). split; [by apply xorl_block|by apply inc_block]. Qed.

Lemma ctr_segment_step sz ctrblk : block_step false (λ '(m, src, dst),
    m ← call cia_encrypt m dst ctrblk; m ← crypto_xor m dst src bsize; m ← crypto_inc m ctrblk bsize;
    Some (m, src + bsize, dst + bsize)) (λ '(m, src, dst), (m, src, dst, ctrblk)) (iv_mem ctrblk) sz ctr_out ctr_next.
Proof.
  step_start. repeat do_store.
  match goal with |- context [crypto_inc ?m ?p bsize] =>
    destruct (inc_stored m p V) as (? & -> & ?); [at_blk|done|] end. cbn [mbind option_bind]. step_end.
Qed.

Definition ctr_scratch (ctrblk keystream i : Z) : Prop := iv_mem ctrblk i ∨ iv_mem keystream i.

Lemma clear_sep p q : (∀ i, p ≤ i < p + bsize → ¬ iv_mem q i) → sep p bsize q bsize.
Proof. pose proof bsize_pos. intros Hc. unfold iv_mem, sep in *. pose proof (Hc p). pose proof (Hc q). lia. Qed.

Lemma ctr_inplace_step sz ctrblk keystream : 0 ≤ keystream → keystream + bsize ≤ sz →
  sep ctrblk bsize keystream bsize →
  block_step true (λ '(m, src),
    m ← call cia_encrypt m keystream ctrblk; m ← crypto_xor m src keystream bsize; m ← crypto_inc m ctrblk bsize;
    Some (m, src + bsize)) (λ '(m, src), (m, src, src, ctrblk)) (ctr_scratch ctrblk keystream) sz
  (λ V p, xorl p (E V)) ctr_next.
Proof.
  intros Hk0 Hk1 Hks. step_start.
  assert (Hsep : sep dst bsize keystream bsize).
  { apply clear_sep. intros i Hi Hi'. apply (HdX i Hi). by right. }
  clear HsX HdX. repeat do_store.
  match goal with |- context [crypto_inc ?m ?p bsize] =>
    destruct (inc_stored m p V) as (? & -> & ?); [at_blk|done|] end. cbn [mbind option_bind].
  eexists _, _, _. split; [done|]. split; [done|]. split; [lens; lia|]. split; [at_blk|]. split; [at_blk|].
  split; [by left|]. intros i Hi Hi'. unfold ctr_scratch, iv_mem in *. frames. done.
Qed.

Lemma ctr_segment_ok m src dst iv nbytes V bl rem : buffers false m src dst iv nbytes V bl rem →
  ∃ m', crypto_ctr_crypt_segment m src dst iv nbytes = Some (m', rem) ∧
    mode_result ctr_out ctr_next m dst iv V bl m'.
Proof.
  intros HB. unfold crypto_ctr_crypt_segment.
  destruct (pass_result _ _ _ _ _ (m, src, dst) _ _ _ _ _ _ _ _ (ctr_segment_step (alen m) iv) ctr_blocks eq_refl HB)
    as ([[m' src'] dst'] & m1 & ? & ? & iv' & -> & Ev & HR). simplify_eq. cbn [mbind option_bind]. by exists m1.
Qed.

Lemma ctr_inplace_ok m src iv keystream nbytes V bl rem : buffers true m src src iv nbytes V bl rem →
  inb m keystream → sep iv bsize keystream bsize → sep keystream bsize src (span bl) →
  ∃ m', crypto_ctr_crypt_inplace m src iv keystream nbytes = Some (m', rem) ∧
    alen m' = alen m ∧ laid m' src (mode ctr_out ctr_next V bl) ∧ blk m' iv = Some (chain ctr_next V bl) ∧
    ∀ i, ¬ (src ≤ i < src + span bl) → ¬ ctr_scratch iv keystream i → m'.[i] = m.[i].
Proof.
  intros [Hne Hl [HV HVb] Hd _ [Hs _] (Hn & Hr & Hw)] [Hk0 Hk1] Hks Hks2. unfold crypto_ctr_crypt_inplace.
  assert (Hb : ∀ V p, block bsize V → block bsize p → block bsize (xorl p (E V)) ∧ block bsize (ctr_next V p)).
  { intros V' p HV' Hp. rewrite xorl_comm. by apply ctr_blocks. }
  destruct (pass_ok _ _ _ _ _ _ _ Hb (ctr_inplace_step (alen m) iv keystream Hk0 Hk1 Hks) (m, src) m src src iv
    bl V nbytes rem) as ([m1 src1] & m' & ? & ? & iv' & E1 & Ev & HR); [done|done|done|done|done| |done|done|done|].
  - split; [lia|done|done| |]; intros i Hi [Hi'|Hi']; unfold sep, iv_mem in *; lia.
  - rewrite E1. simplify_eq. cbn [mbind option_bind]. exists m'. split; [done|].
    destruct (mode_ext (λ V p, xorl p (E V)) ctr_next ctr_out ctr_next V bl) as [<- _]; [|done].
    intros. split; [apply xorl_comm|done].
Qed.
End Ctr.
