(* ===== verification/CipherModesFacts.v ===== *)
(** * The block cipher modes are correct

    The theorems on [CipherModes], for every cipher that keeps the interface
    [BlockCipherLaws]; their witnesses run them over TEA. *)
From S2P Require Import Prelude Words Cipher CipherModes Tea.
#[local] Open Scope Z_scope.
#[local] Open Scope kernel_scope.

Section Walk.
Context `{HC : BlockCipher}.

(** One step of the walks of [crypto_cbc_encrypt], [crypto_cbc_decrypt] and their
    PCBC counterparts: in place exactly when the two addresses are the same. *)
Definition crypto_cbc_encrypt_step (m : list Z) (src dst iv nbytes : Z) : option (list Z * Z) :=
  if src =? dst then crypto_cbc_encrypt_inplace m src iv nbytes
  else crypto_cbc_encrypt_segment m src dst iv nbytes.
Definition crypto_cbc_decrypt_step (m : list Z) (src dst iv nbytes : Z) : option (list Z * Z) :=
  if src =? dst then crypto_cbc_decrypt_inplace m src iv nbytes
  else crypto_cbc_decrypt_segment m src dst iv nbytes.
Definition crypto_pcbc_encrypt_step (m : list Z) (src dst iv nbytes : Z) : option (list Z * Z) :=
  if src =? dst then crypto_pcbc_encrypt_inplace m src iv nbytes
  else crypto_pcbc_encrypt_segment m src dst iv nbytes.
Definition crypto_pcbc_decrypt_step (m : list Z) (src dst iv nbytes : Z) : option (list Z * Z) :=
  if src =? dst then crypto_pcbc_decrypt_inplace m src iv nbytes
  else crypto_pcbc_decrypt_segment m src dst iv nbytes.
End Walk.

(** Concrete buffers for the witnesses: two blocks of plaintext, an IV, and room
    for the output, in one memory. *)
Definition w_b1 : list Z := [1; 2; 3; 4; 5; 6; 7; 8].
Definition w_b2 : list Z := [9; 10; 11; 12; 13; 14; 15; 16].
Definition w_iv : list Z := [255; 254; 253; 252; 251; 250; 255; 255].
Definition w_mem : list Z := w_b1 ++ w_b2 ++ w_iv ++ replicate 24 0.
Definition w_alg : BlockCipher := tea_alg [1; 2; 3; 4].

Lemma w_laws : @BlockCipherLaws w_alg.
Proof. apply tea_laws. Qed.

Lemma block_dec n b : (alen b =? n) && forallb (λ x, (0 <=? x) && (x <? 256)) b = true → block n b.
Proof.
  intros [Hl HF]%andb_true_iff. split; [by apply Z.eqb_eq|].
  rewrite forallb_forall in HF. apply List.Forall_forall. intros x [H1 H2]%HF%andb_true_iff.
  unfold urange. lia.
Qed.

Lemma w_buffers dst ip : ip = (0 =? dst) → dst = 0 ∨ dst = 24 →
  @buffers w_alg ip w_mem 0 dst 16 19 w_iv [w_b1; w_b2] 3.
Proof.
  intros -> Hd. split.
  - done.
  - split; [reflexivity|]. split; [by apply block_dec|]. split; [reflexivity|]. split; [by apply block_dec|done].
  - split; [reflexivity|by apply block_dec].
  - change (span [w_b1; w_b2]) with 16. change (alen w_mem) with 48. lia.
  - change (span [w_b1; w_b2]) with 16. destruct Hd as [->| ->]; [done|]. cbn. unfold sep. lia.
  - change (span [w_b1; w_b2]) with 16. change (@bsize w_alg) with 8. unfold sep. lia.
  - change (span [w_b1; w_b2]) with 16. change (@bsize w_alg) with 8. lia.
Qed.

(** ** CBC *)
Section Cbc.
Context `{HC : BlockCipher} `{HL : !BlockCipherLaws}.

(** CBC encryption, in place or from one buffer to another, never leaves its
    buffers, returns the number of bytes that do not fill a block, writes exactly
    the CBC ciphertext of the blocks under the IV (each block is encrypted after
    the xor with the ciphertext block before it), leaves the last ciphertext block
    in the IV, and changes nothing else. *)
Theorem cbc_encrypt_correct m src dst iv nbytes V bl rem :
  buffers (src =? dst) m src dst iv nbytes V bl rem →
  ∃ m', crypto_cbc_encrypt_step m src dst iv nbytes = Some (m', rem) ∧
    alen m' = alen m ∧ laid m' dst (cbc_enc V bl) ∧ blk m' iv = Some (chain cbc_e V bl) ∧
    ∀ i, ¬ (dst ≤ i < dst + span bl) → ¬ (iv ≤ i < iv + bsize) → m'.[i] = m.[i].
Proof.
  unfold crypto_cbc_encrypt_step. destruct (Z.eqb_spec src dst) as [->|_].
  - apply cbc_encrypt_inplace_ok.
  - apply cbc_encrypt_segment_ok.
Qed.

(** CBC decryption, in place (from the last block to the first) or from one
    buffer to another, writes the CBC plaintext of the blocks under the IV, leaves
    the last ciphertext block in the IV although the in-place variant overwrites
    it, and changes nothing else. *)
Theorem cbc_decrypt_correct m src dst iv nbytes V bl rem :
  buffers (src =? dst) m src dst iv nbytes V bl rem →
  ∃ m', crypto_cbc_decrypt_step m src dst iv nbytes = Some (m', rem) ∧
    alen m' = alen m ∧ laid m' dst (cbc_dec V bl) ∧ blk m' iv = Some (List.last bl V) ∧
    ∀ i, ¬ (dst ≤ i < dst + span bl) → ¬ (iv ≤ i < iv + bsize) → m'.[i] = m.[i].
Proof.
  rewrite <- chain_last. unfold crypto_cbc_decrypt_step. destruct (Z.eqb_spec src dst) as [->|_].
  - apply cbc_decrypt_inplace_ok.
  - apply cbc_decrypt_segment_ok.
Qed.
End Cbc.

Lemma cbc_encrypt_correct_witness :
  @buffers w_alg (0 =? 24) w_mem 0 24 16 19 w_iv [w_b1; w_b2] 3 ∧
  ∃ m', @crypto_cbc_encrypt_step w_alg w_mem 0 24 16 19 = Some (m', 3).
Proof.
  assert (HB : @buffers w_alg (0 =? 24) w_mem 0 24 16 19 w_iv [w_b1; w_b2] 3)
    by (apply w_buffers; [reflexivity|by right]).
  split; [exact HB|].
  destruct (@cbc_encrypt_correct w_alg w_laws w_mem 0 24 16 19 w_iv [w_b1; w_b2] 3 HB) as (m' & E & _).
  exists m'. exact E.
Defined.

Lemma cbc_decrypt_correct_witness :
  @buffers w_alg (0 =? 0) w_mem 0 0 16 19 w_iv [w_b1; w_b2] 3 ∧
  ∃ m', @crypto_cbc_decrypt_step w_alg w_mem 0 0 16 19 = Some (m', 3).
Proof.
  assert (HB : @buffers w_alg (0 =? 0) w_mem 0 0 16 19 w_iv [w_b1; w_b2] 3)
    by (apply w_buffers; [reflexivity|by left]).
  split; [exact HB|].
  destruct (@cbc_decrypt_correct w_alg w_laws w_mem 0 0 16 19 w_iv [w_b1; w_b2] 3 HB) as (m' & E & _).
  exists m'. exact E.
Defined.

(** ** Round trips of the in-place variants *)
Section Roundtrip.
Context `{HC : BlockCipher} `{HL : !BlockCipherLaws}.

Lemma laid_blocks m p bl : laid m p bl → Forall (block bsize) bl.
Proof. revert p. induction bl as [|b bl IH]; intros p Hl; [constructor|]. destruct Hl as (_ & ? & ?). constructor; eauto. Qed.

Lemma laid_same m m' p bl : laid m p bl → laid m' p bl → ∀ i, p ≤ i < p + span bl → m'.[i] = m.[i].
Proof.
  pose proof bsize_pos. revert p. induction bl as [|b bl IH]; intros p Hl Hl' i Hi.
  - change (span []) with 0 in Hi. lia.
  - rewrite span_cons in Hi. destruct Hl as (Hb & _ & Hl), Hl' as (Hb' & _ & Hl').
    destruct (decide (i < p + bsize)); [|apply (IH (p + bsize)); (done || lia)].
    unfold blk in *. rewrite arr_read_iff in Hb, Hb' by lia. destruct Hb as (_ & _ & _ & Hb), Hb' as (_ & _ & _ & Hb').
    replace i with (p + (i - p)) by lia. rewrite <- Hb, <- Hb' by lia. done.
Qed.

(** Encrypt in place, restore the IV, decrypt in place. *)
Lemma inplace_roundtrip (fe fd : list Z → Z → Z → Z → option (list Z * Z)) oute nexte outd nextd :
  (∀ m src iv nbytes V bl rem, buffers true m src src iv nbytes V bl rem →
     ∃ m', fe m src iv nbytes = Some (m', rem) ∧ mode_result oute nexte m src iv V bl m') →
  (∀ m src iv nbytes V bl rem, buffers true m src src iv nbytes V bl rem →
     ∃ m', fd m src iv nbytes = Some (m', rem) ∧ mode_result outd nextd m src iv V bl m') →
  (∀ V p, block bsize V → block bsize p → outd V (oute V p) = p ∧
     nextd V (oute V p) = nexte V p ∧ block bsize (nexte V p)) →
  ∀ m src iv nbytes V bl rem, buffers true m src src iv nbytes V bl rem →
  ∃ m1 m2 m3, fe m src iv nbytes = Some (m1, rem) ∧ arr_write m1 iv V = Some m2 ∧
    fd m2 src iv nbytes = Some (m3, rem) ∧ blk m3 iv = blk m1 iv ∧
    ∀ i, ¬ (iv ≤ i < iv + bsize) → m3.[i] = m.[i].
Proof.
  intros Hfe Hfd Hstep m src iv nbytes V bl rem HB. pose proof bsize_pos.
  destruct (Hfe _ _ _ _ _ _ _ HB) as (m1 & E1 & Hl1 & Hd1 & Hv1 & Hf1).
  destruct HB as [Hne Hs [HV HVb] Hd Heq [Hsep Hsep'] Hn]. destruct (blk_inb _ _ _ HV) as [[Hv0 Hv2] HVl].
  destruct (write_stored m1 iv V) as (m2 & E2 & S2); [split; lia|done|]. pose proof (stored_len _ _ _ _ S2) as Hl2.
  destruct (mode_roundtrip oute nexte outd nextd V bl HVb (laid_blocks _ _ _ Hs) Hstep) as [Hrt Hch].
  destruct (Hfd m2 src iv nbytes V (mode oute nexte V bl) rem) as (m3 & E3 & Hl3 & Hd3 & Hv3 & Hf3).
  { split; rewrite ?mode_span; [by destruct bl| | |lia|done|done|done].
    - apply (laid_frame m1); [lia| |done]. rewrite mode_span. intros i Hi. apply (stored_frame _ _ _ _ S2).
      unfold sep in *. lia.
    - split; [by apply stored_blk in S2|done]. }
  rewrite Hrt in Hd3. rewrite Hch in Hv3. rewrite mode_span in Hf3. exists m1, m2, m3.
  split; [done|]. split; [done|]. split; [done|]. split; [congruence|]. intros i Hi.
  destruct (decide (src ≤ i < src + span bl)) as [Hin|Hin].
  - by apply (laid_same m m3 src bl).
  - rewrite Hf3, (stored_frame _ _ _ _ S2), Hf1; done.
Qed.

(** C4: Encrypting a buffer with CBC in place, restoring the IV and decrypting in
    place gives back the whole memory outside the IV, and both directions leave the
    same chaining value. *)
Theorem cbc_inplace_roundtrip m src iv nbytes V bl rem :
  buffers true m src src iv nbytes V bl rem →
  ∃ m1 m2 m3, crypto_cbc_encrypt_inplace m src iv nbytes = Some (m1, rem) ∧ arr_write m1 iv V = Some m2 ∧
    crypto_cbc_decrypt_inplace m2 src iv nbytes = Some (m3, rem) ∧ blk m3 iv = blk m1 iv ∧
    ∀ i, ¬ (iv ≤ i < iv + bsize) → m3.[i] = m.[i].
Proof.
  apply (inplace_roundtrip _ _ cbc_e cbc_e cbc_d (λ _ c, c)).
  - exact cbc_encrypt_inplace_ok.
  - exact cbc_decrypt_inplace_ok.
  - intros V' p HV Hp. split; [by apply cbc_d_e|]. split; [done|by apply cbc_e_block].
Qed.

(** The same for PCBC, whose chaining value is the xor of the plaintext and
    the ciphertext block: encryption in place followed by decryption in place under
    the same IV is the identity outside the IV. *)
Theorem pcbc_inplace_roundtrip m src iv nbytes V bl rem :
  buffers true m src src iv nbytes V bl rem →
  ∃ m1 m2 m3, crypto_pcbc_encrypt_inplace m src iv nbytes = Some (m1, rem) ∧ arr_write m1 iv V = Some m2 ∧
    crypto_pcbc_decrypt_inplace m2 src iv nbytes = Some (m3, rem) ∧ blk m3 iv = blk m1 iv ∧
    ∀ i, ¬ (iv ≤ i < iv + bsize) → m3.[i] = m.[i].
Proof.
  apply (inplace_roundtrip _ _ cbc_e (λ V p, xorl (cbc_e V p) p) cbc_d (λ V c, xorl c (cbc_d V c))).
  - exact pcbc_encrypt_inplace_ok.
  - exact pcbc_decrypt_inplace_ok.
  - intros V' p HV Hp. rewrite cbc_d_e by done. split; [done|]. split; [done|].
    apply xorl_block; [by apply cbc_e_block|done].
Qed.

(** PCBC in place and from buffer to buffer compute the same mode: both
    variants of each direction leave exactly the PCBC text at [dst], the chaining
    value in the IV and the rest of the memory as it was. *)
Theorem pcbc_correct m src dst iv nbytes V bl rem :
  buffers (src =? dst) m src dst iv nbytes V bl rem →
  (∃ m', crypto_pcbc_encrypt_step m src dst iv nbytes = Some (m', rem) ∧
     mode_result cbc_e (λ V p, xorl (cbc_e V p) p) m dst iv V bl m') ∧
  (∃ m', crypto_pcbc_decrypt_step m src dst iv nbytes = Some (m', rem) ∧
     mode_result cbc_d (λ V c, xorl c (cbc_d V c)) m dst iv V bl m').
Proof.
  unfold crypto_pcbc_encrypt_step, crypto_pcbc_decrypt_step. destruct (Z.eqb_spec src dst) as [->|_]; intros HB.
  - split; [by apply pcbc_encrypt_inplace_ok|by apply pcbc_decrypt_inplace_ok].
  - split; [by apply pcbc_encrypt_segment_ok|by apply pcbc_decrypt_segment_ok].
Qed.
End Roundtrip.

Lemma cbc_inplace_roundtrip_witness :
  @buffers w_alg true w_mem 0 0 16 19 w_iv [w_b1; w_b2] 3 ∧
  ∃ m1 m2 m3, @crypto_cbc_encrypt_inplace w_alg w_mem 0 16 19 = Some (m1, 3) ∧ arr_write m1 16 w_iv = Some m2 ∧
    @crypto_cbc_decrypt_inplace w_alg m2 0 16 19 = Some (m3, 3).
Proof.
  assert (HB : @buffers w_alg true w_mem 0 0 16 19 w_iv [w_b1; w_b2] 3) by (apply w_buffers; [reflexivity|by left]).
  split; [exact HB|].
  destruct (@cbc_inplace_roundtrip w_alg w_laws w_mem 0 16 19 w_iv [w_b1; w_b2] 3 HB) as (m1 & m2 & m3 & E1 & E2 & E3 & _).
  exists m1, m2, m3. split; [exact E1|]. split; [exact E2|exact E3].
Defined.

Lemma pcbc_inplace_roundtrip_witness :
  @buffers w_alg true w_mem 0 0 16 19 w_iv [w_b1; w_b2] 3 ∧
  ∃ m1 m2 m3, @crypto_pcbc_encrypt_inplace w_alg w_mem 0 16 19 = Some (m1, 3) ∧ arr_write m1 16 w_iv = Some m2 ∧
    @crypto_pcbc_decrypt_inplace w_alg m2 0 16 19 = Some (m3, 3).
Proof.
  assert (HB : @buffers w_alg true w_mem 0 0 16 19 w_iv [w_b1; w_b2] 3) by (apply w_buffers; [reflexivity|by left]).
  split; [exact HB|].
  destruct (@pcbc_inplace_roundtrip w_alg w_laws w_mem 0 16 19 w_iv [w_b1; w_b2] 3 HB) as (m1 & m2 & m3 & E1 & E2 & E3 & _).
  exists m1, m2, m3. split; [exact E1|]. split; [exact E2|exact E3].
Defined.

Lemma pcbc_correct_witness :
  @buffers w_alg (0 =? 24) w_mem 0 24 16 19 w_iv [w_b1; w_b2] 3 ∧
  (∃ m', @crypto_pcbc_encrypt_step w_alg w_mem 0 24 16 19 = Some (m', 3)) ∧
  (∃ m', @crypto_pcbc_decrypt_step w_alg w_mem 0 24 16 19 = Some (m', 3)).
Proof.
  assert (HB : @buffers w_alg (0 =? 24) w_mem 0 24 16 19 w_iv [w_b1; w_b2] 3)
    by (apply w_buffers; [reflexivity|by right]).
  split; [exact HB|].
  destruct (@pcbc_correct w_alg w_laws w_mem 0 24 16 19 w_iv [w_b1; w_b2] 3 HB) as [(m1 & E1 & _) (m2 & E2 & _)].
  split; [exists m1; exact E1|exists m2; exact E2].
Defined.

(** ** CTR *)
Section CtrMode.
Context `{HC : BlockCipher} `{HL : !BlockCipherLaws}.

Lemma be_val_chain V bl : block bsize V →
  block bsize (chain ctr_next V bl) ∧
  be_val (chain ctr_next V bl) = (be_val V + alen bl) mod 256 ^ bsize.
Proof.
  intros HV. revert V HV. induction bl as [|b bl IH]; intros V HV; cbn [chain fold_left].
  - split; [done|]. change (alen []) with 0. rewrite Z.add_0_r, Z.mod_small; [done|].
    destruct HV as [<- HF]. by apply be_val_range.
  - destruct (IH (ctr_next V b)) as [Hb E]; [by apply inc_block|]. split; [exact Hb|].
    unfold chain in E. rewrite E. unfold ctr_next. destruct HV as [Hl HF]. rewrite be_val_inc, Hl by done.
    rewrite Zplus_mod_idemp_l. f_equal. unfold alen. cbn [length]. lia.
Qed.

Lemma ctr_mode_involutive V bl : block bsize V → Forall (block bsize) bl →
  mode ctr_out ctr_next V (mode ctr_out ctr_next V bl) = bl.
Proof.
  intros HV HF. apply (mode_roundtrip ctr_out ctr_next ctr_out ctr_next V bl HV HF).
  intros V' p HV' Hp. split; [|split; [done|by apply inc_block]]. unfold ctr_out.
  rewrite (xorl_comm _ p), xorl_comm. apply xorl_cancel.
  destruct (E_ok V' HV') as (_ & [HE _] & _). destruct Hp. congruence.
Qed.

(** CTR mode from buffer to buffer: the output is the keystream of the
    encrypted counter blocks xored with the input, the counter block is left with
    the counter advanced by the number of blocks (as a big-endian number modulo its
    width), nothing else changes, and running the mode on the output from the same
    counter gives the input back. *)
Theorem ctr_segment_correct m src dst iv nbytes V bl rem :
  buffers false m src dst iv nbytes V bl rem →
  ∃ m' C, crypto_ctr_crypt_segment m src dst iv nbytes = Some (m', rem) ∧
    alen m' = alen m ∧ laid m' dst (mode ctr_out ctr_next V bl) ∧ blk m' iv = Some C ∧
    be_val C = (be_val V + alen bl) mod 256 ^ bsize ∧
    (∀ i, ¬ (dst ≤ i < dst + span bl) → ¬ (iv ≤ i < iv + bsize) → m'.[i] = m.[i]) ∧
    mode ctr_out ctr_next V (mode ctr_out ctr_next V bl) = bl.
Proof.
  intros HB. destruct (ctr_segment_ok m src dst iv nbytes V bl rem HB) as (m' & E1 & Hl & Hd & Hv & Hf).
  destruct HB as [_ Hs [_ HVb] _ _ _ _]. exists m', (chain ctr_next V bl).
  split; [done|]. split; [done|]. split; [done|]. split; [done|].
  split; [by apply be_val_chain|]. split; [done|]. by eapply ctr_mode_involutive, laid_blocks.
Qed.

(** The last, partial block: [nbytes] bytes of keystream. *)
Lemma ctr_final_ok m src dst iv keystream nbytes V d :
  blk m iv = Some V → block bsize V → 0 < nbytes < bsize →
  arr_read m src nbytes = Some d → Forall byte d → 0 ≤ dst → dst + nbytes ≤ alen m → inb m keystream →
  sep iv bsize keystream bsize → sep keystream bsize src nbytes → sep keystream bsize dst nbytes →
  sep iv bsize dst nbytes →
  ∃ m', crypto_ctr_crypt_final m src dst iv keystream nbytes = Some m' ∧
    arr_read m' dst nbytes = Some (xorl (take (Z.to_nat nbytes) (E V)) d) ∧ blk m' iv = Some (inc V).
Proof.
  intros HV HVb Hn Hd HdF Hd0 Hd1 Hk Hs1 Hs2 Hs3 Hs4. unfold crypto_ctr_crypt_final. pose proof bsize_pos.
  destruct (E_ok V HVb) as (HE & HEb & _). pose proof (proj1 (arr_read_iff m src nbytes d ltac:(lia)) Hd) as (? & ? & Hdl & Hdg).
  destruct (call_stored cia_encrypt m keystream iv _ _ HV HE HEb Hk) as (m1 & -> & S1). cbn [mbind option_bind].
  assert (Hb1 : bytes_at m1 keystream nbytes).
  { apply (bytes_at_sub m1 keystream bsize); [|lia|lia]. eapply blk_bytes; [by apply stored_blk in S1|done]. }
  assert (Hb2 : bytes_at m1 src nbytes).
  { intros i Hi. destruct (arr_get_lt d (i - src)) as [x Hx]; [lia|]. exists x.
    rewrite (stored_frame _ _ _ _ S1) by (unfold sep in *; lia). replace i with (src + (i - src)) by lia.
    rewrite <- Hdg by lia. split; [done|]. by eapply Forall_arr_get. }
  destruct (crypto_xor_xored m1 keystream src nbytes) as (m2 & -> & Hl2 & Hm2);
    [lia|unfold apart, sep in *; lia|done|done|]. cbn [mbind option_bind].
  pose proof (stored_len _ _ _ _ S1) as Hl1. destruct Hk as [Hk0 Hk1]. unfold copy, memcpy.
  destruct (arr_read_spec m2 keystream nbytes) as (k & -> & Hkl & Hkg); [lia|lia|lia|]. cbn [mbind option_bind].
  destruct (arr_write_spec m2 dst k) as (m3 & -> & Hl3 & Hm3); [lia|lia|]. cbn [mbind option_bind]. rewrite Hkl in Hm3.
  assert (HV3 : blk m3 iv = Some V).
  { rewrite (blk_frame m); [done|lia|]. intros i Hi. unfold sep in *.
    rewrite Hm3, decide_False, Hm2, decide_False by lia. apply (stored_frame _ _ _ _ S1). lia. }
  destruct (inc_stored m3 iv V HV3 HVb) as (m4 & -> & S4). exists m4. split; [done|].
  split; [|by apply stored_blk in S4]. pose proof (stored_len _ _ _ _ S4) as Hl4.
  pose proof (proj1 (arr_read_iff m1 keystream bsize (E V) (Z.lt_le_incl _ _ bsize_pos)) (stored_blk _ _ _ _ S1)) as (_ & _ & HEl & HEg).
  apply arr_read_iff; [lia|]. split; [lia|]. split; [lia|]. split.
  - unfold alen, xorl in *. rewrite length_zip_with, length_take. lia.
  - intros i Hi. rewrite (stored_frame _ _ _ _ S4) by (unfold sep in *; lia).
    rewrite Hm3, decide_True by lia. replace (dst + i - dst) with i by lia.
    rewrite Hkg, Hm2, decide_True by lia. rewrite <- HEg by lia.
    rewrite (stored_frame _ _ _ _ S1) by (unfold sep in *; lia).
    replace (src + (keystream + i - keystream)) with (src + i) by lia.
    by rewrite <- Hdg, xorl_get, arr_get_take by lia.
Qed.

(** CTR mode in place, with the keystream in a buffer on the stack, leaves
    the same output and counter as the variant from buffer to buffer. *)
Theorem ctr_inplace_correct m src iv keystream nbytes V bl rem :
  buffers true m src src iv nbytes V bl rem →
  inb m keystream → sep iv bsize keystream bsize → sep keystream bsize src (span bl) →
  ∃ m', crypto_ctr_crypt_inplace m src iv keystream nbytes = Some (m', rem) ∧
    laid m' src (mode ctr_out ctr_next V bl) ∧ blk m' iv = Some (chain ctr_next V bl) ∧
    ∀ i, ¬ (src ≤ i < src + span bl) → ¬ ctr_scratch iv keystream i → m'.[i] = m.[i].
Proof.
  intros HB Hk Hks Hks2. destruct (ctr_inplace_ok m src iv keystream nbytes V bl rem HB Hk Hks Hks2)
    as (m' & E1 & _ & HR). by exists m'.
Qed.
End CtrMode.

Lemma ctr_segment_correct_witness :
  @buffers w_alg false w_mem 0 24 16 19 w_iv [w_b1; w_b2] 3 ∧
  ∃ m', @crypto_ctr_crypt_segment w_alg w_mem 0 24 16 19 = Some (m', 3).
Proof.
  assert (HB : @buffers w_alg false w_mem 0 24 16 19 w_iv [w_b1; w_b2] 3) by (apply w_buffers; [reflexivity|by right]).
  split; [exact HB|].
  destruct (@ctr_segment_correct w_alg w_laws w_mem 0 24 16 19 w_iv [w_b1; w_b2] 3 HB) as (m' & C & E1 & _).
  exists m'. exact E1.
Defined.

Lemma ctr_inplace_correct_witness :
  @buffers w_alg true w_mem 0 0 16 19 w_iv [w_b1; w_b2] 3 ∧
  ∃ m', @crypto_ctr_crypt_inplace w_alg w_mem 0 16 30 19 = Some (m', 3).
Proof.
  assert (HB : @buffers w_alg true w_mem 0 0 16 19 w_iv [w_b1; w_b2] 3) by (apply w_buffers; [reflexivity|by left]).
  split; [exact HB|].
  destruct (@ctr_inplace_correct w_alg w_laws w_mem 0 16 30 19 w_iv [w_b1; w_b2] 3 HB) as (m' & E1 & _).
  - split; [lia|]. change (@bsize w_alg) with 8. change (alen w_mem) with 48. lia.
  - left. change (@bsize w_alg) with 8. lia.
  - right. change (@span w_alg [w_b1; w_b2]) with 16. lia.
  - exists m'. exact E1.
Defined.

(** ** The helpers *)

(** [crypto_xor], which works word by word and then byte by byte, is the
    byte-wise xor: for ranges of bytes that are disjoint or equal it stays inside
    them and xors exactly the [n] bytes at [b] into those at [a]. *)
Theorem crypto_xor_correct m a b n :
  0 ≤ n → apart a b n → bytes_at m a n → bytes_at m b n →
  ∃ m', crypto_xor m a b n = Some m' ∧ alen m' = alen m ∧
    ∀ i, m'.[i] = if decide (a ≤ i < a + n)
                  then x ← m.[i]; y ← m.[b + (i - a)]; Some (Z.lxor x y) else m.[i].
Proof. apply crypto_xor_xored. Qed.

Lemma bytes_at_all m p n : Forall byte m → 0 ≤ p → p + n ≤ alen m → bytes_at m p n.
Proof.
  intros HF Hp Hn i Hi. destruct (arr_get_lt m i) as [x Hx]; [lia|]. exists x. split; [done|].
  by eapply Forall_arr_get.
Qed.

Lemma crypto_xor_correct_witness :
  apart 1 8 7 ∧ ∃ m', crypto_xor w_mem 1 8 7 = Some m' ∧ m'.[4] = Some (Z.lxor 5 12).
Proof.
  assert (HF : Forall byte w_mem) by (apply (block_dec 48 w_mem); reflexivity).
  assert (Ha : apart 1 8 7) by (unfold apart; lia). split; [exact Ha|].
  destruct (crypto_xor_correct w_mem 1 8 7) as (m' & E1 & _ & Hm).
  - lia.
  - exact Ha.
  - apply bytes_at_all; [exact HF|lia|change (alen w_mem) with 48; lia].
  - apply bytes_at_all; [exact HF|lia|change (alen w_mem) with 48; lia].
  - exists m'. split; [exact E1|]. rewrite Hm. reflexivity.
Defined.

(** [crypto_inc] adds one to the big-endian number in a buffer of any size,
    modulo its width, by words from the end with an early return and then by
    bytes, and touches nothing else. *)
Theorem crypto_inc_correct pre b post : Forall byte b →
  ∃ b', crypto_inc (pre ++ b ++ post) (alen pre) (alen b) = Some (pre ++ b' ++ post) ∧
    alen b' = alen b ∧ Forall byte b' ∧ be_val b' = (be_val b + 1) mod 256 ^ alen b.
Proof.
  intros HF. exists (inc b). split; [by apply crypto_inc_ok|]. split; [apply inc_alen|].
  split; [by apply inc_bytes|by apply be_val_inc].
Qed.

Lemma crypto_inc_correct_witness :
  ∃ b', crypto_inc ([7] ++ [0; 255; 255; 255; 255; 255] ++ [9]) 1 6 = Some ([7] ++ b' ++ [9]) ∧
    be_val b' = 2 ^ 40.
Proof.
  assert (HF : Forall byte [0; 255; 255; 255; 255; 255]) by (apply (block_dec 6); reflexivity).
  destruct (crypto_inc_correct [7] [0; 255; 255; 255; 255; 255] [9] HF) as (b' & E1 & _ & _ & E2).
  exists b'. split; [exact E1|]. rewrite E2. reflexivity.
Defined.

(** ** ECB *)
Section Ecb.
Context `{HC : BlockCipher} `{HL : !BlockCipherLaws}.
Context (fn : list Z → option (list Z)) (g : list Z → list Z).
Context (Hfn : ∀ b, block bsize b → fn b = Some (g b) ∧ block bsize (g b)).

Definition ecb_pre (bl : list (list Z)) (s : list Z * Z * Z) : Prop :=
  let '(m, src, dst) := s in
  laid m src bl ∧ 0 ≤ dst ∧ dst + span bl ≤ alen m ∧ (src = dst ∨ sep src (span bl) dst (span bl)).
Definition ecb_post (bl : list (list Z)) (s s' : list Z * Z * Z) : Prop :=
  let '(m, _, dst) := s in let '(m', _, _) := s' in
  alen m' = alen m ∧ laid m' dst (g <$> bl) ∧ ∀ i, ¬ (dst ≤ i < dst + span bl) → m'.[i] = m.[i].

Lemma ecb_step b bl m src dst : ecb_pre (b :: bl) (m, src, dst) →
  ∃ m1, call fn m dst src = Some m1 ∧ ecb_pre bl (m1, src + bsize, dst + bsize) ∧
    ∀ s', ecb_post bl (m1, src + bsize, dst + bsize) s' → ecb_post (b :: bl) (m, src, dst) s'.
Proof.
  intros ((Hb & Hbb & Hl) & Hd0 & Hd1 & Hs). rewrite span_cons in *. pose proof (span_nonneg bl). pose proof bsize_pos.
  destruct (Hfn b Hbb) as [Hg Hgb].
  destruct (call_stored fn m dst src b (g b) Hb Hg Hgb) as (m1 & -> & S1); [split; lia|].
  exists m1. split; [done|]. unfold ecb_pre, sep in *. split.
  - split; [|lens; lia]. apply (laid_frame m); [lens; lia| |done]. intros i Hi. frames. done.
  - intros [[m' ?] ?] (Hl' & Hd' & Hf'). unfold ecb_post. rewrite span_cons. split; [lens; lia|]. split.
    + split; [|split; [done|exact Hd']]. rewrite (blk_frame m1); [at_blk|done|]. intros i Hi. apply Hf'. lia.
    + intros i Hi. rewrite Hf' by lia. frames. done.
Qed.

Lemma ecb_ok bl m src dst nbytes rem : bl ≠ [] → ecb_pre bl (m, src, dst) → nbytes = span bl + rem →
  0 ≤ rem < bsize → nbytes < 2 ^ 32 →
  ∃ m', crypto_ecb_crypt fn m src dst nbytes = Some (m', rem) ∧ alen m' = alen m ∧ laid m' dst (g <$> bl) ∧
    ∀ i, ¬ (dst ≤ i < dst + span bl) → m'.[i] = m.[i].
Proof.
  intros Hne HP Hn Hr Hw. unfold crypto_ecb_crypt.
  edestruct (do_blocks_rule ecb_pre ecb_post) with (s := (m, src, dst)) as ([[m' ?] ?] & E1 & HQ);
    [| |exact Hne|exact HP|exact Hn|exact Hr|exact Hw|rewrite E1; cbn [mbind option_bind]; by exists m'].
  - intros [[m1 ?] ?]. unfold ecb_post. done.
  - intros b bl' [[m1 src1] dst1] HP1. destruct (ecb_step b bl' m1 src1 dst1 HP1) as (m2 & -> & HP2 & HQ).
    cbn [mbind option_bind]. eauto.
Qed.
End Ecb.

Section EcbMode.
Context `{HC : BlockCipher} `{HL : !BlockCipherLaws}.

Lemma D_E_map bl : Forall (block bsize) bl → D <$> (E <$> bl) = bl.
Proof.
  induction 1 as [|b bl Hb _ IH]; [done|]. rewrite !fmap_cons, IH. by destruct (E_ok b Hb) as (_ & _ & ->).
Qed.

(** ECB mode, in place or from buffer to buffer: every block is replaced by
    its encryption, the rest of the memory is unchanged, and decrypting the output
    in place gives the input blocks back. *)
Theorem ecb_roundtrip bl m src dst nbytes rem :
  bl ≠ [] → ecb_pre bl (m, src, dst) → nbytes = span bl + rem → 0 ≤ rem < bsize → nbytes < 2 ^ 32 →
  ∃ m1 m2, crypto_ecb_crypt cia_encrypt m src dst nbytes = Some (m1, rem) ∧ laid m1 dst (E <$> bl) ∧
    (∀ i, ¬ (dst ≤ i < dst + span bl) → m1.[i] = m.[i]) ∧
    crypto_ecb_crypt cia_decrypt m1 dst dst nbytes = Some (m2, rem) ∧ laid m2 dst bl ∧
    ∀ i, ¬ (dst ≤ i < dst + span bl) → m2.[i] = m.[i].
Proof.
  intros Hne HP Hn Hr Hw. destruct HP as (Hl & Hd0 & Hd1 & Hs).
  assert (HE : ∀ b, block bsize b → cia_encrypt b = Some (E b) ∧ block bsize (E b)).
  { intros b Hb. by destruct (E_ok b Hb) as (? & ? & _). }
  destruct (ecb_ok cia_encrypt E HE bl m src dst nbytes rem) as (m1 & E1 & Hl1 & Hd & Hf); [done|done|done..|].
  assert (Hsp : span (E <$> bl) = span bl) by (unfold span, alen; by rewrite length_fmap).
  destruct (ecb_ok cia_decrypt D D_ok (E <$> bl) m1 dst dst nbytes rem) as (m2 & E2 & Hl2 & Hd2 & Hf2).
  { by destruct bl. }
  { unfold ecb_pre. rewrite Hsp. split; [done|]. split; [done|]. split; [lia|by left]. }
  { by rewrite Hsp. }
  { done. }
  { done. }
  exists m1, m2. split; [done|]. split; [done|]. split; [done|]. split; [done|]. rewrite Hsp in Hf2. split.
  - rewrite D_E_map in Hd2; [done|]. by eapply laid_blocks.
  - intros i Hi. rewrite Hf2, Hf; done.
Qed.
End EcbMode.

Lemma ecb_roundtrip_witness :
  ∃ m1 m2, @crypto_ecb_crypt w_alg (@cia_encrypt w_alg) w_mem 0 24 17 = Some (m1, 1) ∧
    @crypto_ecb_crypt w_alg (@cia_decrypt w_alg) m1 24 24 17 = Some (m2, 1).
Proof.
  destruct (@ecb_roundtrip w_alg w_laws [w_b1; w_b2] w_mem 0 24 17 1) as (m1 & m2 & E1 & _ & _ & E2 & _).
  - discriminate.
  - split; [exact (buf_src _ _ _ _ _ _ _ _ _ (w_buffers 24 false eq_refl (or_intror eq_refl)))|].
    change (@span w_alg [w_b1; w_b2]) with 16. change (alen w_mem) with 48. unfold sep. lia.
  - reflexivity.
  - change (@bsize w_alg) with 8. lia.
  - lia.
  - exists m1, m2. split; [exact E1|exact E2].
Defined.
