(* ===== verification/Crc.v ===== *)
(** * Cyclic redundancy checks

    Models the table-driven checksums of [lib/crc16.c], [lib/crc-ccitt.c],
    [lib/crc-itu-t.c], [lib/crc-t10dif.c], [lib/crc7.c], [lib/crc32.c] with the
    table generator [lib/gen_crc32table.c], and [crypto/crc32c.c].  The tables are
    the ones of the sources; the configuration is the one of the tree (ARM, little
    endian, [CRC_LE_BITS = CRC_BE_BITS = 8]). *)
From S2P Require Import Prelude Words.
#[local] Open Scope Z_scope.
#[local] Open Scope kernel_scope.

(** [while (len--) crc = step(crc, *buffer++);] *)
Fixpoint crc_buffer (step : Z → Z → option Z) (crc : Z) (buffer : list Z) : option Z :=
  match buffer with
  | [] => Some crc
  | b :: bs => crc ← step crc b; crc_buffer step crc bs
  end.

(** ** Tables *)

Definition crc16_table : list Z := [
  0x0000; 0xc0c1; 0xc181; 0x0140; 0xc301; 0x03c0; 0x0280; 0xc241;
  0xc601; 0x06c0; 0x0780; 0xc741; 0x0500; 0xc5c1; 0xc481; 0x0440;
  0xcc01; 0x0cc0; 0x0d80; 0xcd41; 0x0f00; 0xcfc1; 0xce81; 0x0e40;
  0x0a00; 0xcac1; 0xcb81; 0x0b40; 0xc901; 0x09c0; 0x0880; 0xc841;
  0xd801; 0x18c0; 0x1980; 0xd941; 0x1b00; 0xdbc1; 0xda81; 0x1a40;
  0x1e00; 0xdec1; 0xdf81; 0x1f40; 0xdd01; 0x1dc0; 0x1c80; 0xdc41;
  0x1400; 0xd4c1; 0xd581; 0x1540; 0xd701; 0x17c0; 0x1680; 0xd641;
  0xd201; 0x12c0; 0x1380; 0xd341; 0x1100; 0xd1c1; 0xd081; 0x1040;
  0xf001; 0x30c0; 0x3180; 0xf141; 0x3300; 0xf3c1; 0xf281; 0x3240;
  0x3600; 0xf6c1; 0xf781; 0x3740; 0xf501; 0x35c0; 0x3480; 0xf441;
  0x3c00; 0xfcc1; 0xfd81; 0x3d40; 0xff01; 0x3fc0; 0x3e80; 0xfe41;
  0xfa01; 0x3ac0; 0x3b80; 0xfb41; 0x3900; 0xf9c1; 0xf881; 0x3840;
  0x2800; 0xe8c1; 0xe981; 0x2940; 0xeb01; 0x2bc0; 0x2a80; 0xea41;
  0xee01; 0x2ec0; 0x2f80; 0xef41; 0x2d00; 0xedc1; 0xec81; 0x2c40;
  0xe401; 0x24c0; 0x2580; 0xe541; 0x2700; 0xe7c1; 0xe681; 0x2640;
  0x2200; 0xe2c1; 0xe381; 0x2340; 0xe101; 0x21c0; 0x2080; 0xe041;
  0xa001; 0x60c0; 0x6180; 0xa141; 0x6300; 0xa3c1; 0xa281; 0x6240;
  0x6600; 0xa6c1; 0xa781; 0x6740; 0xa501; 0x65c0; 0x6480; 0xa441;
  0x6c00; 0xacc1; 0xad81; 0x6d40; 0xaf01; 0x6fc0; 0x6e80; 0xae41;
  0xaa01; 0x6ac0; 0x6b80; 0xab41; 0x6900; 0xa9c1; 0xa881; 0x6840;
  0x7800; 0xb8c1; 0xb981; 0x7940; 0xbb01; 0x7bc0; 0x7a80; 0xba41;
  0xbe01; 0x7ec0; 0x7f80; 0xbf41; 0x7d00; 0xbdc1; 0xbc81; 0x7c40;
  0xb401; 0x74c0; 0x7580; 0xb541; 0x7700; 0xb7c1; 0xb681; 0x7640;
  0x7200; 0xb2c1; 0xb381; 0x7340; 0xb101; 0x71c0; 0x7080; 0xb041;
  0x5000; 0x90c1; 0x9181; 0x5140; 0x9301; 0x53c0; 0x5280; 0x9241;
  0x9601; 0x56c0; 0x5780; 0x9741; 0x5500; 0x95c1; 0x9481; 0x5440;
  0x9c01; 0x5cc0; 0x5d80; 0x9d41; 0x5f00; 0x9fc1; 0x9e81; 0x5e40;
  0x5a00; 0x9ac1; 0x9b81; 0x5b40; 0x9901; 0x59c0; 0x5880; 0x9841;
  0x8801; 0x48c0; 0x4980; 0x8941; 0x4b00; 0x8bc1; 0x8a81; 0x4a40;
  0x4e00; 0x8ec1; 0x8f81; 0x4f40; 0x8d01; 0x4dc0; 0x4c80; 0x8c41;
  0x4400; 0x84c1; 0x8581; 0x4540; 0x8701; 0x47c0; 0x4680; 0x8641;
  0x8201; 0x42c0; 0x4380; 0x8341; 0x4100; 0x81c1; 0x8081; 0x4040].

Definition crc_ccitt_table : list Z := [
  0x0000; 0x1189; 0x2312; 0x329b; 0x4624; 0x57ad; 0x6536; 0x74bf;
  0x8c48; 0x9dc1; 0xaf5a; 0xbed3; 0xca6c; 0xdbe5; 0xe97e; 0xf8f7;
  0x1081; 0x0108; 0x3393; 0x221a; 0x56a5; 0x472c; 0x75b7; 0x643e;
  0x9cc9; 0x8d40; 0xbfdb; 0xae52; 0xdaed; 0xcb64; 0xf9ff; 0xe876;
  0x2102; 0x308b; 0x0210; 0x1399; 0x6726; 0x76af; 0x4434; 0x55bd;
  0xad4a; 0xbcc3; 0x8e58; 0x9fd1; 0xeb6e; 0xfae7; 0xc87c; 0xd9f5;
  0x3183; 0x200a; 0x1291; 0x0318; 0x77a7; 0x662e; 0x54b5; 0x453c;
  0xbdcb; 0xac42; 0x9ed9; 0x8f50; 0xfbef; 0xea66; 0xd8fd; 0xc974;
  0x4204; 0x538d; 0x6116; 0x709f; 0x0420; 0x15a9; 0x2732; 0x36bb;
  0xce4c; 0xdfc5; 0xed5e; 0xfcd7; 0x8868; 0x99e1; 0xab7a; 0xbaf3;
  0x5285; 0x430c; 0x7197; 0x601e; 0x14a1; 0x0528; 0x37b3; 0x263a;
  0xdecd; 0xcf44; 0xfddf; 0xec56; 0x98e9; 0x8960; 0xbbfb; 0xaa72;
  0x6306; 0x728f; 0x4014; 0x519d; 0x2522; 0x34ab; 0x0630; 0x17b9;
  0xef4e; 0xfec7; 0xcc5c; 0xddd5; 0xa96a; 0xb8e3; 0x8a78; 0x9bf1;
  0x7387; 0x620e; 0x5095; 0x411c; 0x35a3; 0x242a; 0x16b1; 0x0738;
  0xffcf; 0xee46; 0xdcdd; 0xcd54; 0xb9eb; 0xa862; 0x9af9; 0x8b70;
  0x8408; 0x9581; 0xa71a; 0xb693; 0xc22c; 0xd3a5; 0xe13e; 0xf0b7;
  0x0840; 0x19c9; 0x2b52; 0x3adb; 0x4e64; 0x5fed; 0x6d76; 0x7cff;
  0x9489; 0x8500; 0xb79b; 0xa612; 0xd2ad; 0xc324; 0xf1bf; 0xe036;
  0x18c1; 0x0948; 0x3bd3; 0x2a5a; 0x5ee5; 0x4f6c; 0x7df7; 0x6c7e;
  0xa50a; 0xb483; 0x8618; 0x9791; 0xe32e; 0xf2a7; 0xc03c; 0xd1b5;
  0x2942; 0x38cb; 0x0a50; 0x1bd9; 0x6f66; 0x7eef; 0x4c74; 0x5dfd;
  0xb58b; 0xa402; 0x9699; 0x8710; 0xf3af; 0xe226; 0xd0bd; 0xc134;
  0x39c3; 0x284a; 0x1ad1; 0x0b58; 0x7fe7; 0x6e6e; 0x5cf5; 0x4d7c;
  0xc60c; 0xd785; 0xe51e; 0xf497; 0x8028; 0x91a1; 0xa33a; 0xb2b3;
  0x4a44; 0x5bcd; 0x6956; 0x78df; 0x0c60; 0x1de9; 0x2f72; 0x3efb;
  0xd68d; 0xc704; 0xf59f; 0xe416; 0x90a9; 0x8120; 0xb3bb; 0xa232;
  0x5ac5; 0x4b4c; 0x79d7; 0x685e; 0x1ce1; 0x0d68; 0x3ff3; 0x2e7a;
  0xe70e; 0xf687; 0xc41c; 0xd595; 0xa12a; 0xb0a3; 0x8238; 0x93b1;
  0x6b46; 0x7acf; 0x4854; 0x59dd; 0x2d62; 0x3ceb; 0x0e70; 0x1ff9;
  0xf78f; 0xe606; 0xd49d; 0xc514; 0xb1ab; 0xa022; 0x92b9; 0x8330;
  0x7bc7; 0x6a4e; 0x58d5; 0x495c; 0x3de3; 0x2c6a; 0x1ef1; 0x0f78].

Definition crc_itu_t_table : list Z := [
  0x0000; 0x1021; 0x2042; 0x3063; 0x4084; 0x50a5; 0x60c6; 0x70e7;
  0x8108; 0x9129; 0xa14a; 0xb16b; 0xc18c; 0xd1ad; 0xe1ce; 0xf1ef;
  0x1231; 0x0210; 0x3273; 0x2252; 0x52b5; 0x4294; 0x72f7; 0x62d6;
  0x9339; 0x8318; 0xb37b; 0xa35a; 0xd3bd; 0xc39c; 0xf3ff; 0xe3de;
  0x2462; 0x3443; 0x0420; 0x1401; 0x64e6; 0x74c7; 0x44a4; 0x5485;
  0xa56a; 0xb54b; 0x8528; 0x9509; 0xe5ee; 0xf5cf; 0xc5ac; 0xd58d;
  0x3653; 0x2672; 0x1611; 0x0630; 0x76d7; 0x66f6; 0x5695; 0x46b4;
  0xb75b; 0xa77a; 0x9719; 0x8738; 0xf7df; 0xe7fe; 0xd79d; 0xc7bc;
  0x48c4; 0x58e5; 0x6886; 0x78a7; 0x0840; 0x1861; 0x2802; 0x3823;
  0xc9cc; 0xd9ed; 0xe98e; 0xf9af; 0x8948; 0x9969; 0xa90a; 0xb92b;
  0x5af5; 0x4ad4; 0x7ab7; 0x6a96; 0x1a71; 0x0a50; 0x3a33; 0x2a12;
  0xdbfd; 0xcbdc; 0xfbbf; 0xeb9e; 0x9b79; 0x8b58; 0xbb3b; 0xab1a;
  0x6ca6; 0x7c87; 0x4ce4; 0x5cc5; 0x2c22; 0x3c03; 0x0c60; 0x1c41;
  0xedae; 0xfd8f; 0xcdec; 0xddcd; 0xad2a; 0xbd0b; 0x8d68; 0x9d49;
  0x7e97; 0x6eb6; 0x5ed5; 0x4ef4; 0x3e13; 0x2e32; 0x1e51; 0x0e70;
  0xff9f; 0xefbe; 0xdfdd; 0xcffc; 0xbf1b; 0xaf3a; 0x9f59; 0x8f78;
  0x9188; 0x81a9; 0xb1ca; 0xa1eb; 0xd10c; 0xc12d; 0xf14e; 0xe16f;
  0x1080; 0x00a1; 0x30c2; 0x20e3; 0x5004; 0x4025; 0x7046; 0x6067;
  0x83b9; 0x9398; 0xa3fb; 0xb3da; 0xc33d; 0xd31c; 0xe37f; 0xf35e;
  0x02b1; 0x1290; 0x22f3; 0x32d2; 0x4235; 0x5214; 0x6277; 0x7256;
  0xb5ea; 0xa5cb; 0x95a8; 0x8589; 0xf56e; 0xe54f; 0xd52c; 0xc50d;
  0x34e2; 0x24c3; 0x14a0; 0x0481; 0x7466; 0x6447; 0x5424; 0x4405;
  0xa7db; 0xb7fa; 0x8799; 0x97b8; 0xe75f; 0xf77e; 0xc71d; 0xd73c;
  0x26d3; 0x36f2; 0x0691; 0x16b0; 0x6657; 0x7676; 0x4615; 0x5634;
  0xd94c; 0xc96d; 0xf90e; 0xe92f; 0x99c8; 0x89e9; 0xb98a; 0xa9ab;
  0x5844; 0x4865; 0x7806; 0x6827; 0x18c0; 0x08e1; 0x3882; 0x28a3;
  0xcb7d; 0xdb5c; 0xeb3f; 0xfb1e; 0x8bf9; 0x9bd8; 0xabbb; 0xbb9a;
  0x4a75; 0x5a54; 0x6a37; 0x7a16; 0x0af1; 0x1ad0; 0x2ab3; 0x3a92;
  0xfd2e; 0xed0f; 0xdd6c; 0xcd4d; 0xbdaa; 0xad8b; 0x9de8; 0x8dc9;
  0x7c26; 0x6c07; 0x5c64; 0x4c45; 0x3ca2; 0x2c83; 0x1ce0; 0x0cc1;
  0xef1f; 0xff3e; 0xcf5d; 0xdf7c; 0xaf9b; 0xbfba; 0x8fd9; 0x9ff8;
  0x6e17; 0x7e36; 0x4e55; 0x5e74; 0x2e93; 0x3eb2; 0x0ed1; 0x1ef0].

Definition t10_dif_crc_table : list Z := [
  0x0000; 0x8bb7; 0x9cd9; 0x176e; 0xb205; 0x39b2; 0x2edc; 0xa56b;
  0xefbd; 0x640a; 0x7364; 0xf8d3; 0x5db8; 0xd60f; 0xc161; 0x4ad6;
  0x54cd; 0xdf7a; 0xc814; 0x43a3; 0xe6c8; 0x6d7f; 0x7a11; 0xf1a6;
  0xbb70; 0x30c7; 0x27a9; 0xac1e; 0x0975; 0x82c2; 0x95ac; 0x1e1b;
  0xa99a; 0x222d; 0x3543; 0xbef4; 0x1b9f; 0x9028; 0x8746; 0x0cf1;
  0x4627; 0xcd90; 0xdafe; 0x5149; 0xf422; 0x7f95; 0x68fb; 0xe34c;
  0xfd57; 0x76e0; 0x618e; 0xea39; 0x4f52; 0xc4e5; 0xd38b; 0x583c;
  0x12ea; 0x995d; 0x8e33; 0x0584; 0xa0ef; 0x2b58; 0x3c36; 0xb781;
  0xd883; 0x5334; 0x445a; 0xcfed; 0x6a86; 0xe131; 0xf65f; 0x7de8;
  0x373e; 0xbc89; 0xabe7; 0x2050; 0x853b; 0x0e8c; 0x19e2; 0x9255;
  0x8c4e; 0x07f9; 0x1097; 0x9b20; 0x3e4b; 0xb5fc; 0xa292; 0x2925;
  0x63f3; 0xe844; 0xff2a; 0x749d; 0xd1f6; 0x5a41; 0x4d2f; 0xc698;
  0x7119; 0xfaae; 0xedc0; 0x6677; 0xc31c; 0x48ab; 0x5fc5; 0xd472;
  0x9ea4; 0x1513; 0x027d; 0x89ca; 0x2ca1; 0xa716; 0xb078; 0x3bcf;
  0x25d4; 0xae63; 0xb90d; 0x32ba; 0x97d1; 0x1c66; 0x0b08; 0x80bf;
  0xca69; 0x41de; 0x56b0; 0xdd07; 0x786c; 0xf3db; 0xe4b5; 0x6f02;
  0x3ab1; 0xb106; 0xa668; 0x2ddf; 0x88b4; 0x0303; 0x146d; 0x9fda;
  0xd50c; 0x5ebb; 0x49d5; 0xc262; 0x6709; 0xecbe; 0xfbd0; 0x7067;
  0x6e7c; 0xe5cb; 0xf2a5; 0x7912; 0xdc79; 0x57ce; 0x40a0; 0xcb17;
  0x81c1; 0x0a76; 0x1d18; 0x96af; 0x33c4; 0xb873; 0xaf1d; 0x24aa;
  0x932b; 0x189c; 0x0ff2; 0x8445; 0x212e; 0xaa99; 0xbdf7; 0x3640;
  0x7c96; 0xf721; 0xe04f; 0x6bf8; 0xce93; 0x4524; 0x524a; 0xd9fd;
  0xc7e6; 0x4c51; 0x5b3f; 0xd088; 0x75e3; 0xfe54; 0xe93a; 0x628d;
  0x285b; 0xa3ec; 0xb482; 0x3f35; 0x9a5e; 0x11e9; 0x0687; 0x8d30;
  0xe232; 0x6985; 0x7eeb; 0xf55c; 0x5037; 0xdb80; 0xccee; 0x4759;
  0x0d8f; 0x8638; 0x9156; 0x1ae1; 0xbf8a; 0x343d; 0x2353; 0xa8e4;
  0xb6ff; 0x3d48; 0x2a26; 0xa191; 0x04fa; 0x8f4d; 0x9823; 0x1394;
  0x5942; 0xd2f5; 0xc59b; 0x4e2c; 0xeb47; 0x60f0; 0x779e; 0xfc29;
  0x4ba8; 0xc01f; 0xd771; 0x5cc6; 0xf9ad; 0x721a; 0x6574; 0xeec3;
  0xa415; 0x2fa2; 0x38cc; 0xb37b; 0x1610; 0x9da7; 0x8ac9; 0x017e;
  0x1f65; 0x94d2; 0x83bc; 0x080b; 0xad60; 0x26d7; 0x31b9; 0xba0e;
  0xf0d8; 0x7b6f; 0x6c01; 0xe7b6; 0x42dd; 0xc96a; 0xde04; 0x55b3].

Definition crc7_syndrome_table : list Z := [
  0x00; 0x09; 0x12; 0x1b; 0x24; 0x2d; 0x36; 0x3f; 0x48; 0x41; 0x5a; 0x53; 0x6c; 0x65; 0x7e; 0x77;
  0x19; 0x10; 0x0b; 0x02; 0x3d; 0x34; 0x2f; 0x26; 0x51; 0x58; 0x43; 0x4a; 0x75; 0x7c; 0x67; 0x6e;
  0x32; 0x3b; 0x20; 0x29; 0x16; 0x1f; 0x04; 0x0d; 0x7a; 0x73; 0x68; 0x61; 0x5e; 0x57; 0x4c; 0x45;
  0x2b; 0x22; 0x39; 0x30; 0x0f; 0x06; 0x1d; 0x14; 0x63; 0x6a; 0x71; 0x78; 0x47; 0x4e; 0x55; 0x5c;
  0x64; 0x6d; 0x76; 0x7f; 0x40; 0x49; 0x52; 0x5b; 0x2c; 0x25; 0x3e; 0x37; 0x08; 0x01; 0x1a; 0x13;
  0x7d; 0x74; 0x6f; 0x66; 0x59; 0x50; 0x4b; 0x42; 0x35; 0x3c; 0x27; 0x2e; 0x11; 0x18; 0x03; 0x0a;
  0x56; 0x5f; 0x44; 0x4d; 0x72; 0x7b; 0x60; 0x69; 0x1e; 0x17; 0x0c; 0x05; 0x3a; 0x33; 0x28; 0x21;
  0x4f; 0x46; 0x5d; 0x54; 0x6b; 0x62; 0x79; 0x70; 0x07; 0x0e; 0x15; 0x1c; 0x23; 0x2a; 0x31; 0x38;
  0x41; 0x48; 0x53; 0x5a; 0x65; 0x6c; 0x77; 0x7e; 0x09; 0x00; 0x1b; 0x12; 0x2d; 0x24; 0x3f; 0x36;
  0x58; 0x51; 0x4a; 0x43; 0x7c; 0x75; 0x6e; 0x67; 0x10; 0x19; 0x02; 0x0b; 0x34; 0x3d; 0x26; 0x2f;
  0x73; 0x7a; 0x61; 0x68; 0x57; 0x5e; 0x45; 0x4c; 0x3b; 0x32; 0x29; 0x20; 0x1f; 0x16; 0x0d; 0x04;
  0x6a; 0x63; 0x78; 0x71; 0x4e; 0x47; 0x5c; 0x55; 0x22; 0x2b; 0x30; 0x39; 0x06; 0x0f; 0x14; 0x1d;
  0x25; 0x2c; 0x37; 0x3e; 0x01; 0x08; 0x13; 0x1a; 0x6d; 0x64; 0x7f; 0x76; 0x49; 0x40; 0x5b; 0x52;
  0x3c; 0x35; 0x2e; 0x27; 0x18; 0x11; 0x0a; 0x03; 0x74; 0x7d; 0x66; 0x6f; 0x50; 0x59; 0x42; 0x4b;
  0x17; 0x1e; 0x05; 0x0c; 0x33; 0x3a; 0x21; 0x28; 0x5f; 0x56; 0x4d; 0x44; 0x7b; 0x72; 0x69; 0x60;
  0x0e; 0x07; 0x1c; 0x15; 0x2a; 0x23; 0x38; 0x31; 0x46; 0x4f; 0x54; 0x5d; 0x62; 0x6b; 0x70; 0x79].

Definition crc32c_table : list Z := [
  0x00000000; 0xf26b8303; 0xe13b70f7; 0x1350f3f4; 0xc79a971f; 0x35f1141c; 0x26a1e7e8; 0xd4ca64eb;
  0x8ad958cf; 0x78b2dbcc; 0x6be22838; 0x9989ab3b; 0x4d43cfd0; 0xbf284cd3; 0xac78bf27; 0x5e133c24;
  0x105ec76f; 0xe235446c; 0xf165b798; 0x030e349b; 0xd7c45070; 0x25afd373; 0x36ff2087; 0xc494a384;
  0x9a879fa0; 0x68ec1ca3; 0x7bbcef57; 0x89d76c54; 0x5d1d08bf; 0xaf768bbc; 0xbc267848; 0x4e4dfb4b;
  0x20bd8ede; 0xd2d60ddd; 0xc186fe29; 0x33ed7d2a; 0xe72719c1; 0x154c9ac2; 0x061c6936; 0xf477ea35;
  0xaa64d611; 0x580f5512; 0x4b5fa6e6; 0xb93425e5; 0x6dfe410e; 0x9f95c20d; 0x8cc531f9; 0x7eaeb2fa;
  0x30e349b1; 0xc288cab2; 0xd1d83946; 0x23b3ba45; 0xf779deae; 0x05125dad; 0x1642ae59; 0xe4292d5a;
  0xba3a117e; 0x4851927d; 0x5b016189; 0xa96ae28a; 0x7da08661; 0x8fcb0562; 0x9c9bf696; 0x6ef07595;
  0x417b1dbc; 0xb3109ebf; 0xa0406d4b; 0x522bee48; 0x86e18aa3; 0x748a09a0; 0x67dafa54; 0x95b17957;
  0xcba24573; 0x39c9c670; 0x2a993584; 0xd8f2b687; 0x0c38d26c; 0xfe53516f; 0xed03a29b; 0x1f682198;
  0x5125dad3; 0xa34e59d0; 0xb01eaa24; 0x42752927; 0x96bf4dcc; 0x64d4cecf; 0x77843d3b; 0x85efbe38;
  0xdbfc821c; 0x2997011f; 0x3ac7f2eb; 0xc8ac71e8; 0x1c661503; 0xee0d9600; 0xfd5d65f4; 0x0f36e6f7;
  0x61c69362; 0x93ad1061; 0x80fde395; 0x72966096; 0xa65c047d; 0x5437877e; 0x4767748a; 0xb50cf789;
  0xeb1fcbad; 0x197448ae; 0x0a24bb5a; 0xf84f3859; 0x2c855cb2; 0xdeeedfb1; 0xcdbe2c45; 0x3fd5af46;
  0x7198540d; 0x83f3d70e; 0x90a324fa; 0x62c8a7f9; 0xb602c312; 0x44694011; 0x5739b3e5; 0xa55230e6;
  0xfb410cc2; 0x092a8fc1; 0x1a7a7c35; 0xe811ff36; 0x3cdb9bdd; 0xceb018de; 0xdde0eb2a; 0x2f8b6829;
  0x82f63b78; 0x709db87b; 0x63cd4b8f; 0x91a6c88c; 0x456cac67; 0xb7072f64; 0xa457dc90; 0x563c5f93;
  0x082f63b7; 0xfa44e0b4; 0xe9141340; 0x1b7f9043; 0xcfb5f4a8; 0x3dde77ab; 0x2e8e845f; 0xdce5075c;
  0x92a8fc17; 0x60c37f14; 0x73938ce0; 0x81f80fe3; 0x55326b08; 0xa759e80b; 0xb4091bff; 0x466298fc;
  0x1871a4d8; 0xea1a27db; 0xf94ad42f; 0x0b21572c; 0xdfeb33c7; 0x2d80b0c4; 0x3ed04330; 0xccbbc033;
  0xa24bb5a6; 0x502036a5; 0x4370c551; 0xb11b4652; 0x65d122b9; 0x97baa1ba; 0x84ea524e; 0x7681d14d;
  0x2892ed69; 0xdaf96e6a; 0xc9a99d9e; 0x3bc21e9d; 0xef087a76; 0x1d63f975; 0x0e330a81; 0xfc588982;
  0xb21572c9; 0x407ef1ca; 0x532e023e; 0xa145813d; 0x758fe5d6; 0x87e466d5; 0x94b49521; 0x66df1622;
  0x38cc2a06; 0xcaa7a905; 0xd9f75af1; 0x2b9cd9f2; 0xff56bd19; 0x0d3d3e1a; 0x1e6dcdee; 0xec064eed;
  0xc38d26c4; 0x31e6a5c7; 0x22b65633; 0xd0ddd530; 0x0417b1db; 0xf67c32d8; 0xe52cc12c; 0x1747422f;
  0x49547e0b; 0xbb3ffd08; 0xa86f0efc; 0x5a048dff; 0x8ecee914; 0x7ca56a17; 0x6ff599e3; 0x9d9e1ae0;
  0xd3d3e1ab; 0x21b862a8; 0x32e8915c; 0xc083125f; 0x144976b4; 0xe622f5b7; 0xf5720643; 0x07198540;
  0x590ab964; 0xab613a67; 0xb831c993; 0x4a5a4a90; 0x9e902e7b; 0x6cfbad78; 0x7fab5e8c; 0x8dc0dd8f;
  0xe330a81a; 0x115b2b19; 0x020bd8ed; 0xf0605bee; 0x24aa3f05; 0xd6c1bc06; 0xc5914ff2; 0x37faccf1;
  0x69e9f0d5; 0x9b8273d6; 0x88d28022; 0x7ab90321; 0xae7367ca; 0x5c18e4c9; 0x4f48173d; 0xbd23943e;
  0xf36e6f75; 0x0105ec76; 0x12551f82; 0xe03e9c81; 0x34f4f86a; 0xc69f7b69; 0xd5cf889d; 0x27a40b9e;
  0x79b737ba; 0x8bdcb4b9; 0x988c474d; 0x6ae7c44e; 0xbe2da0a5; 0x4c4623a6; 0x5f16d052; 0xad7d5351].

(** ** Sixteen-bit and seven-bit checksums *)

Definition crc16_byte (crc data : Z) : option Z :=
  t ← crc16_table.[Z.land (Z.lxor crc data) 0xff]; Some (Z.lxor (Z.shiftr crc 8) t).
Definition crc16 : Z → list Z → option Z := crc_buffer crc16_byte.

Definition crc_ccitt_byte (crc c : Z) : option Z :=
  t ← crc_ccitt_table.[Z.land (Z.lxor crc c) 0xff]; Some (Z.lxor (Z.shiftr crc 8) t).
Definition crc_ccitt : Z → list Z → option Z := crc_buffer crc_ccitt_byte.

Definition crc_itu_t_byte (crc data : Z) : option Z :=
  t ← crc_itu_t_table.[Z.land (Z.lxor (Z.shiftr crc 8) data) 0xff];
  Some (u16 (Z.lxor (Z.shiftl crc 8) t)).
Definition crc_itu_t : Z → list Z → option Z := crc_buffer crc_itu_t_byte.

Definition crc_t10dif_step (crc b : Z) : option Z :=
  t ← t10_dif_crc_table.[Z.land (Z.lxor (Z.shiftr crc 8) b) 0xff];
  Some (u16 (Z.lxor (Z.shiftl crc 8) t)).
Definition crc_t10dif (buffer : list Z) : option Z := crc_buffer crc_t10dif_step 0 buffer.

Definition crc7_byte (crc data : Z) : option Z :=
  crc7_syndrome_table.[Z.lxor (Z.shiftl crc 1) data].
Definition crc7 : Z → list Z → option Z := crc_buffer crc7_byte.

(** ** [lib/gen_crc32table.c] *)

Definition CRCPOLY_LE : Z := 0xedb88320.
Definition CRCPOLY_BE : Z := 0x04c11db7.

(** [for (j = k; j < n; j += st) s = body j s;] with a bound on the iterations. *)
Definition for_step {S} (k n st : Z) (body : Z → S → option S) (s : S) : option S :=
  loop (Z.to_nat n + 1) (λ '(j, s),
    if j <? n then s ← body j s; Some (inl (j + st, s)) else Some (inr s)) (k, s).

Definition crc32init_le : option (list (list Z)) :=
  let t0 := replicate 256 0 in
  t0 ← t0.[0 <- 0];
  t0 ← loop 16 (λ '(i, crc, t0),
    if i =? 0 then Some (inr t0) else
    let crc := Z.lxor (Z.shiftr crc 1) (if ctrue (Z.land crc 1) then CRCPOLY_LE else 0) in
    t0 ← for_step 0 256 (2 * i) (λ j t0, e ← t0.[j]; t0.[i + j <- Z.lxor crc e]) t0;
    Some (inl (Z.shiftr i 1, crc, t0))) (Z.shiftl 1 (8 - 1), 1, t0);
  for_up 0 256 (λ i tab,
    crc ← t0.[i];
    r ← for_up 1 4 (λ j '(crc, tab),
      e ← t0.[Z.land crc 0xff];
      let crc := Z.lxor e (Z.shiftr crc 8) in
      row ← tab.[j]; row ← row.[i <- crc]; tab ← tab.[j <- row]; Some (crc, tab)) (crc, tab);
    Some r.2) [t0; replicate 256 0; replicate 256 0; replicate 256 0].

Definition crc32init_be : option (list (list Z)) :=
  let t0 := replicate 256 0 in
  t0 ← t0.[0 <- 0];
  t0 ← loop 16 (λ '(i, crc, t0),
    if negb (i <? 256) then Some (inr t0) else
    let crc := Z.lxor (u32 (Z.shiftl crc 1)) (if ctrue (Z.land crc 0x80000000) then CRCPOLY_BE else 0) in
    t0 ← for_up 0 i (λ j t0, e ← t0.[j]; t0.[i + j <- Z.lxor crc e]) t0;
    Some (inl (Z.shiftl i 1, crc, t0))) (1, 0x80000000, t0);
  for_up 0 256 (λ i tab,
    crc ← t0.[i];
    r ← for_up 1 4 (λ j '(crc, tab),
      e ← t0.[Z.land (Z.shiftr crc 24) 0xff];
      let crc := Z.lxor e (u32 (Z.shiftl crc 8)) in
      row ← tab.[j]; row ← row.[i <- crc]; tab ← tab.[j <- row]; Some (crc, tab)) (crc, tab);
    Some r.2) [t0; replicate 256 0; replicate 256 0; replicate 256 0].

(** ** [lib/crc32.c] *)

(** The generated header: the rows of the tables, through [tole] and [tobe]. *)
Definition crc32table_le : list (list Z) := Eval vm_compute in default [] crc32init_le.
Definition crc32table_be : list (list Z) :=
  Eval vm_compute in (λ row : list Z, swab32 <$> row) <$> default [] crc32init_be.

Definition tab_get (tab : list (list Z)) (j i : Z) : option Z := row ← tab.[j]; row.[i].

Definition DO_CRC (tab : list (list Z)) (crc x : Z) : option Z :=
  t ← tab_get tab 0 (Z.land (Z.lxor crc x) 255); Some (Z.lxor t (Z.shiftr crc 8)).

Definition DO_CRC4 (tab : list (list Z)) (crc : Z) : option Z :=
  t3 ← tab_get tab 3 (Z.land crc 255);
  t2 ← tab_get tab 2 (Z.land (Z.shiftr crc 8) 255);
  t1 ← tab_get tab 1 (Z.land (Z.shiftr crc 16) 255);
  t0 ← tab_get tab 0 (Z.land (Z.shiftr crc 24) 255);
  Some (Z.lxor (Z.lxor (Z.lxor t3 t2) t1) t0).

(** The loop that aligns [buf], which stands at address [addr]. *)
Fixpoint crc32_align (tab : list (list Z)) (addr crc : Z) (buf : list Z) : option (Z * list Z) :=
  match buf with
  | b :: bs =>
      if ctrue (Z.land addr 3) then crc ← DO_CRC tab crc b; crc32_align tab (addr + 1) crc bs
      else Some (crc, buf)
  | [] => Some (crc, [])
  end.

(** [for (--b; len; --len)] over the words. *)
Fixpoint crc32_words (tab : list (list Z)) (len : nat) (crc : Z) (buf : list Z) : option (Z * list Z) :=
  match len with
  | O => Some (crc, buf)
  | Datatypes.S len =>
      match buf with
      | b0 :: b1 :: b2 :: b3 :: bs =>
          crc ← DO_CRC4 tab (Z.lxor crc (le32 b0 b1 b2 b3)); crc32_words tab len crc bs
      | _ => None
      end
  end.

Fixpoint crc32_bytes (tab : list (list Z)) (len : nat) (crc : Z) (buf : list Z) : option Z :=
  match len with
  | O => Some crc
  | Datatypes.S len =>
      match buf with b :: bs => crc ← DO_CRC tab crc b; crc32_bytes tab len crc bs | [] => None end
  end.

Definition crc32_body (tab : list (list Z)) (addr crc : Z) (buf : list Z) : option Z :=
  '(crc, buf) ← crc32_align tab addr crc buf;
  let len := alen buf in
  '(crc, buf) ← crc32_words tab (Z.to_nat (Z.shiftr len 2)) crc buf;
  crc32_bytes tab (Z.to_nat (Z.land len 3)) crc buf.

Definition crc32_le (addr crc : Z) (p : list Z) : option Z := crc32_body crc32table_le addr crc p.

Definition crc32_be (addr crc : Z) (p : list Z) : option Z :=
  crc ← crc32_body crc32table_be addr (swab32 crc) p; Some (swab32 crc).

(** The versions for [CRC_LE_BITS == 1] and [CRC_BE_BITS == 1]: one bit at a time. *)
Definition le_bit (poly crc : Z) : Z :=
  Z.lxor (Z.shiftr crc 1) (if ctrue (Z.land crc 1) then poly else 0).
Definition be_bit (poly crc : Z) : Z :=
  Z.lxor (u32 (Z.shiftl crc 1)) (if ctrue (Z.land crc 0x80000000) then poly else 0).

Definition crc32_le_bitwise (crc : Z) (p : list Z) : Z :=
  foldl (λ crc b, Nat.iter 8 (le_bit CRCPOLY_LE) (Z.lxor crc b)) crc p.
Definition crc32_be_bitwise (crc : Z) (p : list Z) : Z :=
  foldl (λ crc b, Nat.iter 8 (be_bit CRCPOLY_BE) (Z.lxor crc (Z.shiftl b 24))) crc p.

(** ** [crypto/crc32c.c] *)

Definition crc32c_byte (crc data : Z) : option Z :=
  t ← crc32c_table.[Z.land (Z.lxor crc data) 0xff]; Some (Z.lxor t (Z.shiftr crc 8)).
Definition crc32c : Z → list Z → option Z := crc_buffer crc32c_byte.

(** The hash: [key] is the context of the transform, [crc] of the descriptor. *)
Definition EINVAL : Z := 22.
Definition chksum_init (key : Z) : Z := key.
Definition chksum_setkey (mctx : Z) (key : list Z) : Z * Z :=
  match key with
  | [b0; b1; b2; b3] => (le32 b0 b1 b2 b3, 0)
  | _ => (mctx, - EINVAL)
  end.
Definition chksum_update (crc : Z) (data : list Z) : option Z := crc32c crc data.
Definition chksum_final (crc : Z) : list Z := le32_bytes (unot 32 crc).
Definition __chksum_finup (crc : Z) (data : list Z) : option (list Z) :=
  crc ← crc32c crc data; Some (le32_bytes (unot 32 crc)).
Definition chksum_finup : Z → list Z → option (list Z) := __chksum_finup.
Definition chksum_digest (key : Z) (data : list Z) : option (list Z) := __chksum_finup key data.
Definition crc32c_cra_init : Z := unot 32 0.
