(* ===== verification/CrcFacts.v ===== *)
(** * The table-driven checksums compute their polynomials

    Division by a polynomial one bit at a time is linear over exclusive or; this
    gives the table look-ups for one byte and for four bytes from the bitwise
    definitions, and the tables themselves are checked by evaluation. *)
From S2P Require Import Prelude Words Crc.
#[local] Open Scope Z_scope.
#[local] Open Scope kernel_scope.

(** ** Linear maps iterated *)

Definition linear (f : Z → Z) : Prop := ∀ x y, f (Z.lxor x y) = Z.lxor (f x) (f y).

Lemma iter_linear f n : linear f → linear (Nat.iter n f).
Proof. intros Hf x y. induction n as [|n IH]; simpl; [done|]. by rewrite IH, Hf. Qed.

Lemma iter_add {A} (f : A → A) n m x : Nat.iter (n + m) f x = Nat.iter n f (Nat.iter m f x).
Proof. induction n as [|n IH]; simpl; [done|]. by rewrite IH. Qed.

Lemma lxor_if_linear (b c : bool) p :
  (if xorb b c then p else 0) = Z.lxor (if b then p else 0) (if c then p else 0).
Proof. destruct b, c; simpl; by rewrite ?Z.lxor_nilpotent, ?Z.lxor_0_r, ?Z.lxor_0_l. Qed.

(** Four-way exchange of exclusive ors. *)
Lemma lxor_swap a b c d : Z.lxor (Z.lxor a b) (Z.lxor c d) = Z.lxor (Z.lxor a c) (Z.lxor b d).
Proof. apply Z.bits_inj'. intros i Hi. rewrite !Z.lxor_spec. by destruct (Z.testbit a i), (Z.testbit b i), (Z.testbit c i), (Z.testbit d i). Qed.

(** ** Least significant bit first *)
Section Reflected.
Context (poly : Z).

Lemma le_bit_testbit x :
  le_bit poly x = Z.lxor (Z.shiftr x 1) (if Z.testbit x 0 then poly else 0).
Proof.
  unfold le_bit. do 2 f_equal. change 1 with (Z.ones 1). rewrite Z.land_ones by lia.
  change (2 ^ 1) with 2. rewrite <- Z.bit0_mod. by destruct (Z.testbit x 0).
Qed.

Lemma le_bit_linear : linear (le_bit poly).
Proof.
  intros x y. rewrite !le_bit_testbit, Z.shiftr_lxor, Z.lxor_spec, lxor_if_linear. apply lxor_swap.
Qed.

Lemma le_bit_shiftl x : le_bit poly (Z.shiftl x 1) = x.
Proof.
  rewrite le_bit_testbit, Z.shiftr_shiftl_l by lia. rewrite Z.shiftl_spec_low by lia.
  by rewrite Z.lxor_0_r.
Qed.

Lemma le_iter_shiftl n k x :
  Nat.iter (n + k) (le_bit poly) (Z.shiftl x (Z.of_nat k)) = Nat.iter n (le_bit poly) x.
Proof.
  rewrite iter_add. f_equal. induction k as [|k IH]; [apply Z.shiftl_0_r|].
  rewrite Nat.iter_succ_r. replace (Z.of_nat (S k)) with (Z.of_nat k + 1) by lia.
  by rewrite <- Z.shiftl_shiftl, le_bit_shiftl by lia.
Qed.

(** A word is its low byte and the rest shifted. *)
Lemma split_low x : x = Z.lxor (Z.land x 255) (Z.shiftl (Z.shiftr x 8) 8).
Proof.
  apply Z.bits_inj'. intros i Hi. rewrite Z.lxor_spec, Z.land_spec, Z.shiftl_spec by lia.
  change 255 with (Z.ones 8). destruct (decide (i < 8)).
  - rewrite Z.ones_spec_low, (Z.testbit_neg_r _ (i - 8)) by lia. by rewrite andb_true_r, xorb_false_r.
  - rewrite Z.ones_spec_high, Z.shiftr_spec by lia. rewrite andb_false_r, xorb_false_l. f_equal. lia.
Qed.

(** Eight steps are one table look-up. *)
Lemma le_byte_step x :
  Nat.iter 8 (le_bit poly) x = Z.lxor (Z.shiftr x 8) (Nat.iter 8 (le_bit poly) (Z.land x 255)).
Proof.
  rewrite (split_low x) at 1. rewrite (iter_linear _ 8 le_bit_linear), Z.lxor_comm.
  by rewrite (le_iter_shiftl 0 8).
Qed.

(** Feeding one more byte after [n] steps. *)
Lemma le_feed n x b :
  Nat.iter 8 (le_bit poly) (Z.lxor (Nat.iter n (le_bit poly) x) b) =
  Nat.iter (8 + n) (le_bit poly) (Z.lxor x (Z.shiftl b (Z.of_nat n))).
Proof.
  rewrite (iter_linear _ (8 + n) le_bit_linear), (iter_linear _ 8 le_bit_linear).
  by rewrite le_iter_shiftl, iter_add.
Qed.
End Reflected.

(** ** Most significant bit first, in a register of [w] bits *)
Section Forward.
Context (w poly : Z) (Hw : 8 ≤ w).

Definition fwd_bit (x : Z) : Z :=
  Z.lxor (uwrap w (Z.shiftl x 1)) (if Z.testbit x (w - 1) then poly else 0).

Lemma fwd_bit_linear : linear fwd_bit.
Proof.
  intros x y. unfold fwd_bit. rewrite Z.shiftl_lxor, uwrap_lxor, Z.lxor_spec, lxor_if_linear by lia.
  apply lxor_swap.
Qed.

(** Below the top bit a step is a shift. *)
Lemma fwd_iter_low n k x :
  0 ≤ x < 2 ^ (w - Z.of_nat k) → Z.of_nat k ≤ w →
  Nat.iter (n + k) fwd_bit x = Nat.iter n fwd_bit (Z.shiftl x (Z.of_nat k)).
Proof.
  intros Hx Hk. rewrite iter_add. f_equal. clear n. revert x Hx Hk.
  induction k as [|k IH]; intros x Hx Hk; [by rewrite Z.shiftl_0_r|]. rewrite Nat.iter_succ_r.
  assert (Hx1 : Z.shiftl x 1 = 2 * x) by (rewrite Z.shiftl_mul_pow2 by lia; lia).
  assert (Hp : 2 ^ (w - Z.of_nat k) = 2 * 2 ^ (w - Z.of_nat (S k))).
  { rewrite <- Z.pow_succ_r by lia. f_equal. lia. }
  assert (Hb : fwd_bit x = Z.shiftl x 1).
  { unfold fwd_bit. rewrite (urange_testbit_high (w - 1) x), Z.lxor_0_r.
    - apply uwrap_small. rewrite Hx1. split; [lia|]. assert (2 ^ (w - Z.of_nat k) ≤ 2 ^ w) by (apply Z.pow_le_mono_r; lia). lia.
    - split; [lia|]. assert (2 ^ (w - Z.of_nat (S k)) ≤ 2 ^ (w - 1)) by (apply Z.pow_le_mono_r; lia). lia.
    - lia. }
  rewrite Hb, IH by lia. rewrite Z.shiftl_shiftl by lia. f_equal. lia.
Qed.

(** The top byte and the rest of the register. *)
Lemma split_high x : urange w x →
  x = Z.lxor (Z.shiftl (Z.shiftr x (w - 8)) (w - 8)) (Z.land x (Z.ones (w - 8))).
Proof.
  intros Hx. apply Z.bits_inj'. intros i Hi.
  rewrite Z.lxor_spec, Z.land_spec, Z.shiftl_spec by lia. destruct (decide (i < w - 8)).
  - rewrite Z.ones_spec_low, (Z.testbit_neg_r _ (i - (w - 8))) by lia. by rewrite andb_true_r.
  - rewrite Z.ones_spec_high, Z.shiftr_spec by lia. rewrite andb_false_r, xorb_false_r. f_equal. lia.
Qed.

Lemma fwd_byte_step x : urange w x →
  Nat.iter 8 fwd_bit x =
    Z.lxor (uwrap w (Z.shiftl x 8)) (Nat.iter 8 fwd_bit (Z.shiftl (Z.shiftr x (w - 8)) (w - 8))).
Proof.
  intros Hx. rewrite (split_high x Hx) at 1. rewrite (iter_linear _ 8 fwd_bit_linear), Z.lxor_comm. f_equal.
  assert (Hl : 0 ≤ Z.land x (Z.ones (w - 8)) < 2 ^ (w - 8)).
  { rewrite Z.land_ones by lia. apply Z.mod_pos_bound. lia. }
  rewrite (fwd_iter_low 0 8) by (done || lia). simpl Nat.iter.
  apply Z.bits_inj'. intros i Hi. rewrite testbit_uwrap, !Z.shiftl_spec, Z.land_spec by lia.
  destruct (Z.ltb_spec i w); simpl.
  - destruct (decide (i < 8)); [by rewrite !Z.testbit_neg_r by lia|].
    rewrite Z.ones_spec_low by lia. by rewrite andb_true_r.
  - rewrite Z.ones_spec_high by lia. by rewrite andb_false_r.
Qed.

Lemma fwd_bit_range x : urange w poly → urange w (fwd_bit x).
Proof.
  intros Hp. apply urange_lxor; [lia|apply urange_uwrap; lia|].
  destruct (Z.testbit x (w - 1)); [done|]. split; lia.
Qed.

Lemma fwd_iter_range n x : urange w poly → urange w x → urange w (Nat.iter n fwd_bit x).
Proof. intros Hp Hx. destruct n as [|n]; [done|]. simpl. by apply fwd_bit_range. Qed.

(** Feeding one more byte after [n] steps. *)
Lemma fwd_feed n x b : byte b → 8 + Z.of_nat n ≤ w →
  Nat.iter 8 fwd_bit (Z.lxor (Nat.iter n fwd_bit x) (Z.shiftl b (w - 8))) =
  Nat.iter (8 + n) fwd_bit (Z.lxor x (Z.shiftl b (w - 8 - Z.of_nat n))).
Proof.
  intros Hb Hn. rewrite (iter_linear _ (8 + n) fwd_bit_linear), (iter_linear _ 8 fwd_bit_linear).
  rewrite iter_add. f_equal. rewrite fwd_iter_low.
  - rewrite Z.shiftl_shiftl by lia. do 2 f_equal. lia.
  - rewrite Z.shiftl_mul_pow2 by lia. unfold urange in Hb. split; [lia|].
    replace (w - Z.of_nat n) with (8 + (w - 8 - Z.of_nat n)) by lia. rewrite Z.pow_add_r by lia.
    apply Z.mul_lt_mono_pos_r; lia.
  - lia.
Qed.
End Forward.

(** ** The tables *)

Lemma table_get (f : Z → Z) tab i : tab = f <$> seqZ 0 256 → 0 ≤ i < 256 → tab.[i] = Some (f i).
Proof. intros -> Hi. by apply arr_get_fmap_seqZ. Qed.

Abbreviation le_table poly := ((λ i, Nat.iter 8 (le_bit poly) i) <$> seqZ 0 256).
Abbreviation fwd_table w poly :=
  ((λ i, Nat.iter 8 (fwd_bit w poly) (Z.shiftl i (w - 8))) <$> seqZ 0 256).

Lemma crc16_table_ok : crc16_table = le_table 0xa001.
Proof. vm_compute. reflexivity. Qed.
Lemma crc_ccitt_table_ok : crc_ccitt_table = le_table 0x8408.
Proof. vm_compute. reflexivity. Qed.
Lemma crc32c_table_ok : crc32c_table = le_table 0x82f63b78.
Proof. vm_compute. reflexivity. Qed.
Lemma crc_itu_t_table_ok : crc_itu_t_table = fwd_table 16 0x1021.
Proof. vm_compute. reflexivity. Qed.
Lemma t10_dif_crc_table_ok : t10_dif_crc_table = fwd_table 16 0x8bb7.
Proof. vm_compute. reflexivity. Qed.

(** Row [j] of the generated table: [j] zero bytes after the index byte. *)
Abbreviation le_row j := ((λ i, Nat.iter (8 * (j + 1)) (le_bit CRCPOLY_LE) i) <$> seqZ 0 256).
Abbreviation be_row j :=
  ((λ i, swab32 (Nat.iter (8 * (j + 1)) (fwd_bit 32 CRCPOLY_BE) (Z.shiftl i 24))) <$> seqZ 0 256).

Lemma crc32table_le_ok : crc32table_le = [le_row 0; le_row 1; le_row 2; le_row 3]%nat.
Proof. vm_compute. reflexivity. Qed.
Lemma crc32table_be_ok : crc32table_be = [be_row 0; be_row 1; be_row 2; be_row 3]%nat.
Proof. vm_compute. reflexivity. Qed.

(** ** Sixteen-bit checksums *)

Lemma crc_buffer_foldl (step : Z → Z → option Z) (g : Z → Z → Z) (P : Z → Prop) crc buf :
  P crc → Forall byte buf →
  (∀ c b, P c → byte b → step c b = Some (g c b) ∧ P (g c b)) →
  crc_buffer step crc buf = Some (foldl g crc buf) ∧ P (foldl g crc buf).
Proof.
  intros Hc Hb Hs. revert crc Hc. induction Hb as [|b bs Hb _ IH]; intros crc Hc; simpl; [done|].
  destruct (Hs crc b Hc Hb) as [-> Hg]. simpl. by apply IH.
Qed.

Definition le_update (poly crc b : Z) : Z := Nat.iter 8 (le_bit poly) (Z.lxor crc b).
Definition fwd_update (w poly crc b : Z) : Z :=
  Nat.iter 8 (fwd_bit w poly) (Z.lxor crc (Z.shiftl b (w - 8))).

Lemma le_lookup poly crc b : byte b →
  Z.lxor (Z.shiftr crc 8) (Nat.iter 8 (le_bit poly) (Z.land (Z.lxor crc b) 255)) = le_update poly crc b.
Proof.
  intros Hb. unfold le_update. rewrite (le_byte_step poly (Z.lxor crc b)). f_equal.
  rewrite Z.shiftr_lxor. replace (Z.shiftr b 8) with 0; [by rewrite Z.lxor_0_r|].
  rewrite Z.shiftr_div_pow2 by lia. symmetry. apply Z.div_small. exact Hb.
Qed.

(** The byte step with a correct table, least significant bit first. *)
Lemma le_step_ok poly tab crc b :
  tab = le_table poly → byte b →
  ∃ t, tab.[Z.land (Z.lxor crc b) 0xff] = Some t ∧ Z.lxor (Z.shiftr crc 8) t = le_update poly crc b.
Proof.
  intros Ht Hb. eexists.
  split; [exact (table_get (λ i, Nat.iter 8 (le_bit poly) i) tab _ Ht (land255_range _))|].
  by apply le_lookup.
Qed.

Lemma le_update_range poly w crc b :
  8 ≤ w → urange w poly → urange w crc → byte b → urange w (le_update poly crc b).
Proof.
  intros Hw Hp Hc Hb. unfold le_update. assert (H : urange w (Z.lxor crc b)).
  { apply urange_lxor; [lia|done|]. unfold urange in *. assert (2 ^ 8 ≤ 2 ^ w) by (apply Z.pow_le_mono_r; lia). lia. }
  revert H. generalize (Z.lxor crc b). intros x Hx.
  assert (Hstep : ∀ y, urange w y → urange w (le_bit poly y)).
  { intros y Hy. apply urange_lxor; [lia|apply urange_shiftr; done || lia|].
    destruct (ctrue _); [done|]. split; lia. }
  simpl. by repeat apply Hstep.
Qed.

(** The byte step with a correct table, most significant bit first. *)
Lemma fwd_step_ok poly tab crc b :
  tab = fwd_table 16 poly → byte b → urange 16 crc → urange 16 poly →
  ∃ t, tab.[Z.land (Z.lxor (Z.shiftr crc 8) b) 0xff] = Some t ∧
    u16 (Z.lxor (Z.shiftl crc 8) t) = fwd_update 16 poly crc b.
Proof.
  intros Ht Hb Hc Hp. eexists. split; [exact (table_get _ tab _ Ht (land255_range _))|].
  assert (Hs : urange 8 (Z.lxor (Z.shiftr crc 8) b)).
  { apply urange_lxor; [lia| |done]. rewrite Z.shiftr_div_pow2 by lia. unfold urange in *.
    split; [apply Z.div_pos; lia|apply Z.div_lt_upper_bound; lia]. }
  assert (Hx : urange 16 (Z.lxor crc (Z.shiftl b 8))).
  { apply urange_lxor; [lia|done|]. rewrite Z.shiftl_mul_pow2 by lia. unfold urange in *. lia. }
  unfold fwd_update. change (16 - 8) with 8. rewrite (fwd_byte_step 16 poly ltac:(lia) _ Hx).
  change (16 - 8) with 8. rewrite uwrap_lxor by lia. f_equal.
  - rewrite Z.shiftl_lxor, uwrap_lxor by lia. rewrite Z.shiftl_shiftl by lia.
    replace (u16 (Z.shiftl b (8 + 8))) with 0; [by rewrite Z.lxor_0_r|].
    unfold uwrap. rewrite Z.shiftl_mul_pow2 by lia. symmetry. apply Z_mod_mult.
  - rewrite Z.shiftr_lxor. rewrite Z.shiftr_shiftl_l by lia. rewrite Z.sub_diag, Z.shiftl_0_r.
    change 255 with (Z.ones 8). rewrite Z.land_ones, (Z.mod_small _ (2 ^ 8)) by (done || lia).
    apply uwrap_small. apply fwd_iter_range; [lia|done|]. rewrite Z.shiftl_mul_pow2 by lia.
    unfold urange in *. lia.
Qed.

(** ** Thirty-two-bit checksums *)

(** ** The body of [crc32_le] and [crc32_be]

    [g] is the update with one byte; the alignment loop, the four-byte loop and
    the tail together are a fold of [g]. *)
Section Body.
Context (tab : list (list Z)) (g : Z → Z → Z) (P : Z → Prop).
Context (Hdo : ∀ c b, P c → byte b → DO_CRC tab c b = Some (g c b) ∧ P (g c b)).
Context (Hdo4 : ∀ c b0 b1 b2 b3, P c → byte b0 → byte b1 → byte b2 → byte b3 →
  DO_CRC4 tab (Z.lxor c (le32 b0 b1 b2 b3)) = Some (g (g (g (g c b0) b1) b2) b3)).

Lemma foldl_P c buf : P c → Forall byte buf → P (foldl g c buf).
Proof.
  intros Hc Hb. revert c Hc. induction Hb as [|b bs Hb _ IH]; intros c Hc; simpl; [done|].
  apply IH. by apply Hdo.
Qed.

Lemma align_spec addr c buf : P c → Forall byte buf →
  ∃ l r, buf = l ++ r ∧ crc32_align tab addr c buf = Some (foldl g c l, r).
Proof.
  intros Hc Hb. revert addr c Hc. induction Hb as [|b bs Hb HF IH]; intros addr c Hc; simpl.
  - by exists [], [].
  - destruct (ctrue (Z.land addr 3)).
    + destruct (Hdo c b Hc Hb) as [-> Hg]. simpl. destruct (IH (addr + 1) _ Hg) as (l & r & -> & E).
      exists (b :: l), r. by rewrite E.
    + by exists [], (b :: bs).
Qed.

Lemma words_spec n c buf : P c → Forall byte buf → (4 * n ≤ length buf)%nat →
  crc32_words tab n c buf = Some (foldl g c (take (4 * n) buf), drop (4 * n) buf).
Proof.
  revert c buf. induction n as [|n IH]; intros c buf Hc Hb Hlen; [done|].
  destruct buf as [|b0 [|b1 [|b2 [|b3 bs]]]]; simpl in Hlen; try lia.
  rewrite !list.Forall_cons in Hb. destruct Hb as (H0 & H1 & H2 & H3 & Hb).
  cbn [crc32_words]. rewrite (Hdo4 c b0 b1 b2 b3) by done. cbn [mbind option_bind].
  rewrite IH; [|by repeat (apply Hdo; [|done])|done|lia].
  replace (4 * S n)%nat with (S (S (S (S (4 * n))))) by lia. done.
Qed.

Lemma bytes_spec c buf : P c → Forall byte buf →
  crc32_bytes tab (length buf) c buf = Some (foldl g c buf).
Proof.
  intros Hc Hb. revert c Hc. induction Hb as [|b bs Hb HF IH]; intros c Hc; simpl; [done|].
  destruct (Hdo c b Hc Hb) as [-> Hg]. simpl. by apply IH.
Qed.

Lemma body_spec addr c buf : P c → Forall byte buf →
  crc32_body tab addr c buf = Some (foldl g c buf).
Proof.
  intros Hc Hb. unfold crc32_body. destruct (align_spec addr c buf Hc Hb) as (l & r & -> & E).
  rewrite E. cbn [mbind option_bind]. apply Forall_app in Hb as [Hl Hr].
  assert (Hw : Z.shiftr (alen r) 2 = Z.of_nat (length r / 4)).
  { unfold alen. rewrite Z.shiftr_div_pow2 by lia. change (2 ^ 2) with (Z.of_nat 4). by rewrite Nat2Z.inj_div. }
  assert (Ht : Z.land (alen r) 3 = Z.of_nat (length r mod 4)).
  { unfold alen. change 3 with (Z.ones 2). rewrite Z.land_ones by lia. change (2 ^ 2) with (Z.of_nat 4).
    by rewrite Nat2Z.inj_mod. }
  rewrite Hw, Ht, !Nat2Z.id. set (n := (length r / 4)%nat).
  pose proof (Nat.div_mod (length r) 4 ltac:(lia)) as Hd. fold n in Hd.
  rewrite words_spec; [|by apply foldl_P|done|lia]. cbn [mbind option_bind].
  replace (length r mod 4)%nat with (length (drop (4 * n) r)) by (rewrite length_drop; lia).
  assert (Forall byte (take (4 * n) r) ∧ Forall byte (drop (4 * n) r)) as [H1 H2].
  { rewrite <- Forall_app, take_drop. done. }
  rewrite bytes_spec by (done || by repeat apply foldl_P).
  by rewrite <- foldl_app, take_drop, <- foldl_app.
Qed.
End Body.

(** ** Little endian *)

Lemma tab_get_row (j : nat) (rows : nat → list Z) i : (j < 4)%nat →
  tab_get [rows 0; rows 1; rows 2; rows 3]%nat (Z.of_nat j) i = (rows j).[i].
Proof. intros Hj. do 4 (destruct j as [|j]; [done|]). lia. Qed.

Lemma le_tab_get (j : nat) i : (j < 4)%nat → 0 ≤ i < 256 →
  tab_get crc32table_le (Z.of_nat j) i = Some (Nat.iter (8 * (j + 1)) (le_bit CRCPOLY_LE) i).
Proof.
  intros Hj Hi. rewrite crc32table_le_ok, (tab_get_row j (λ j, le_row j)) by done.
  by rewrite (arr_get_fmap_seqZ (λ i, Nat.iter (8 * (j + 1)) (le_bit CRCPOLY_LE) i)).
Qed.

Lemma be_tab_get (j : nat) i : (j < 4)%nat → 0 ≤ i < 256 →
  tab_get crc32table_be (Z.of_nat j) i =
    Some (swab32 (Nat.iter (8 * (j + 1)) (fwd_bit 32 CRCPOLY_BE) (Z.shiftl i 24))).
Proof.
  intros Hj Hi. rewrite crc32table_be_ok, (tab_get_row j (λ j, be_row j)) by done.
  by rewrite (arr_get_fmap_seqZ (λ i, swab32 (Nat.iter (8 * (j + 1)) (fwd_bit 32 CRCPOLY_BE) (Z.shiftl i 24)))).
Qed.

Lemma le_do_crc c b : urange 32 c → byte b →
  DO_CRC crc32table_le c b = Some (le_update CRCPOLY_LE c b) ∧ urange 32 (le_update CRCPOLY_LE c b).
Proof.
  intros Hc Hb. split; [|by apply le_update_range]. unfold DO_CRC.
  rewrite (le_tab_get 0) by (lia || apply land255_range). cbn [mbind option_bind]. f_equal.
  rewrite Z.lxor_comm. by apply (le_lookup CRCPOLY_LE).
Qed.

Lemma le_do_crc4 c b0 b1 b2 b3 : urange 32 c → byte b0 → byte b1 → byte b2 → byte b3 →
  let g := le_update CRCPOLY_LE in
  DO_CRC4 crc32table_le (Z.lxor c (le32 b0 b1 b2 b3)) = Some (g (g (g (g c b0) b1) b2) b3).
Proof.
  intros Hc H0 H1 H2 H3 g. unfold g, le_update.
  rewrite (le_feed _ 8 (Z.lxor c b0)), (le_feed _ (8 + 8) (Z.lxor (Z.lxor c b0) _)).
  rewrite (le_feed _ (8 + (8 + 8))).
  replace (Z.lxor (Z.lxor (Z.lxor (Z.lxor c b0) (Z.shiftl b1 (Z.of_nat 8)))
    (Z.shiftl b2 (Z.of_nat (8 + 8)))) (Z.shiftl b3 (Z.of_nat (8 + (8 + 8))))) with (Z.lxor c (le32 b0 b1 b2 b3))
    by (rewrite le32_lxor, <- !Z.lxor_assoc by done; done).
  assert (Hx : urange 32 (Z.lxor c (le32 b0 b1 b2 b3))).
  { apply urange_lxor; [lia|done|]. by apply le32_range. }
  generalize dependent (Z.lxor c (le32 b0 b1 b2 b3)). intros x Hx. unfold DO_CRC4.
  rewrite (le_tab_get 3), (le_tab_get 2), (le_tab_get 1), (le_tab_get 0) by (lia || apply land255_range).
  cbn [mbind option_bind]. f_equal.
  rewrite (word_bytes x Hx) at 5. rewrite le32_lxor by (auto with word).
  rewrite !(iter_linear _ _ (le_bit_linear CRCPOLY_LE)). rewrite Z.shiftr_0_r. 
  f_equal; [f_equal; [f_equal|]|].
  - symmetry. apply (le_iter_shiftl CRCPOLY_LE 24 8).
  - symmetry. apply (le_iter_shiftl CRCPOLY_LE 16 16).
  - symmetry. apply (le_iter_shiftl CRCPOLY_LE 8 24).
Qed.

(** ** Big endian *)

Abbreviation fb := (fwd_bit 32 CRCPOLY_BE).
Abbreviation fupd := (fwd_update 32 CRCPOLY_BE).

Lemma be_bit_fwd x : be_bit CRCPOLY_BE x = fb x.
Proof.
  unfold be_bit, fwd_bit. f_equal. change (32 - 1) with 31.
  replace (ctrue (Z.land x 0x80000000)) with (Z.testbit x 31); [done|].
  destruct (Z.testbit x 31) eqn:E; symmetry.
  - apply ctrue_true. intros Hz. apply (f_equal (λ z, Z.testbit z 31)) in Hz.
    rewrite Z.land_spec, E in Hz. done.
  - apply ctrue_false. apply Z.bits_inj'. intros i Hi. rewrite Z.land_spec, Z.bits_0.
    change 0x80000000 with (2 ^ 31). rewrite Z.pow2_bits_eqb by lia.
    destruct (Z.eqb_spec 31 i) as [<-|]; [by rewrite E|apply andb_false_r].
Qed.

Lemma poly_be_range : urange 32 CRCPOLY_BE.
Proof. done. Qed.

Lemma fupd_range c b : urange 32 c → byte b → urange 32 (fupd c b).
Proof.
  intros Hc Hb. apply fwd_iter_range; [lia|done|]. apply urange_lxor; [lia|done|]. by apply shiftl24_range.
Qed.

Lemma fiter_range n x : urange 32 x → urange 32 (Nat.iter n fb x).
Proof. intros. by apply fwd_iter_range. Qed.

(** The update of the byte-swapped register. *)
Definition be_upd (s b : Z) : Z := swab32 (fupd (swab32 s) b).

#[local] Hint Resolve fiter_range : core.

Lemma be_do_crc s b : urange 32 s → byte b →
  DO_CRC crc32table_be s b = Some (be_upd s b) ∧ urange 32 (be_upd s b).
Proof.
  intros Hs Hb. split; [|by apply swab32_range, fupd_range; [apply swab32_range|]].
  unfold DO_CRC. rewrite (be_tab_get 0) by (lia || apply land255_range).
  cbn [mbind option_bind]. f_equal. unfold be_upd, fwd_update. change (32 - 8) with 24.
  destruct (word_cases s Hs) as (s0 & s1 & s2 & s3 & H0 & H1 & H2 & H3 & ->).
  rewrite swab32_le32 by done. rewrite <- (le32_of_byte b) at 1.
  rewrite lxor_le32 by (auto with word). rewrite le32_low by (auto with word).
  rewrite <- (le32_of_top b), lxor_le32 by (auto with word). rewrite !Z.lxor_0_r.
  rewrite (fwd_byte_step 32 CRCPOLY_BE ltac:(lia) (le32 s3 s2 s1 _)) by (apply le32_range; auto with word).
  change (32 - 8) with 24. rewrite le32_shiftr24, le32_shiftl8 by (auto with word).
  rewrite swab32_lxor, swab32_le32, le32_shiftr8 by (auto with word).
  rewrite Z.lxor_comm. done.
Qed.

Lemma fiter_top n k b : byte b → Z.of_nat k ≤ 24 →
  Nat.iter (n + k) fb (Z.shiftl b (24 - Z.of_nat k)) = Nat.iter n fb (Z.shiftl b 24).
Proof.
  intros Hb Hk. rewrite fwd_iter_low.
  - rewrite Z.shiftl_shiftl by lia. do 2 f_equal. lia.
  - lia.
  - rewrite Z.shiftl_mul_pow2 by lia. unfold urange in Hb. split; [lia|].
    replace (32 - Z.of_nat k) with (8 + (24 - Z.of_nat k)) by lia. rewrite Z.pow_add_r by lia.
    apply Z.mul_lt_mono_pos_r; lia.
  - lia.
Qed.

Lemma be_do_crc4 s b0 b1 b2 b3 : urange 32 s → byte b0 → byte b1 → byte b2 → byte b3 →
  DO_CRC4 crc32table_be (Z.lxor s (le32 b0 b1 b2 b3)) =
    Some (be_upd (be_upd (be_upd (be_upd s b0) b1) b2) b3).
Proof.
  intros Hs B0 B1 B2 B3. unfold be_upd.
  assert (Hc : urange 32 (swab32 s)) by (by apply swab32_range).
  rewrite !(swab32_involutive (fwd_update _ _ _ _)) by (auto 12 using swab32_range, fupd_range with word).
  unfold fwd_update. change (32 - 8) with 24.
  rewrite (fwd_feed 32 CRCPOLY_BE ltac:(lia) 8 (Z.lxor (swab32 s) _)) by (done || lia).
  rewrite (fwd_feed 32 CRCPOLY_BE ltac:(lia) (8 + 8) (Z.lxor (Z.lxor (swab32 s) _) _)) by (done || lia).
  rewrite (fwd_feed 32 CRCPOLY_BE ltac:(lia) (8 + (8 + 8))) by (done || lia).
  destruct (word_cases s Hs) as (s0 & s1 & s2 & s3 & H0 & H1 & H2 & H3 & ->).
  rewrite swab32_le32, lxor_le32 by done.
  assert (HX : Z.lxor (Z.lxor (Z.lxor (Z.lxor (le32 s3 s2 s1 s0) (Z.shiftl b0 24))
    (Z.shiftl b1 (32 - 8 - Z.of_nat 8))) (Z.shiftl b2 (32 - 8 - Z.of_nat (8 + 8))))
    (Z.shiftl b3 (32 - 8 - Z.of_nat (8 + (8 + 8)))) =
    le32 (Z.lxor s3 b3) (Z.lxor s2 b2) (Z.lxor s1 b1) (Z.lxor s0 b0)).
  { rewrite <- lxor_le32 by done. rewrite (le32_lxor b3 b2 b1 b0) by done.
    change (32 - 8 - Z.of_nat 8) with 16. change (32 - 8 - Z.of_nat (8 + 8)) with 8.
    change (32 - 8 - Z.of_nat (8 + (8 + 8))) with 0. rewrite Z.shiftl_0_r.
    generalize (le32 s3 s2 s1 s0), (Z.shiftl b0 24), (Z.shiftl b1 16), (Z.shiftl b2 8), b3.
    intros u v x y z. apply Z.bits_inj'. intros i Hi. rewrite !Z.lxor_spec.
    by destruct (Z.testbit u i), (Z.testbit v i), (Z.testbit x i), (Z.testbit y i), (Z.testbit z i). }
  rewrite HX. clear HX. unfold DO_CRC4.
  set (x0 := Z.lxor s0 b0). set (x1 := Z.lxor s1 b1). set (x2 := Z.lxor s2 b2). set (x3 := Z.lxor s3 b3).
  assert (byte x0 ∧ byte x1 ∧ byte x2 ∧ byte x3) as (X0 & X1 & X2 & X3) by (unfold x0, x1, x2, x3; auto with word).
  destruct (le32_bytes_at x0 x1 x2 x3) as (E0 & E1 & E2 & E3); [done..|].
  rewrite Z.shiftr_0_r in E0. rewrite E0, E1, E2, E3.
  rewrite (be_tab_get 3), (be_tab_get 2), (be_tab_get 1), (be_tab_get 0) by (lia || done).
  cbn [mbind option_bind]. f_equal.
  rewrite (le32_lxor x3 x2 x1 x0) by done. rewrite !(iter_linear _ _ (fwd_bit_linear 32 CRCPOLY_BE ltac:(lia))).
  rewrite !swab32_lxor by (auto 8 with word).
  pose proof (fiter_top 8 24 x3 X3 ltac:(lia)) as T3. pose proof (fiter_top 16 16 x2 X2 ltac:(lia)) as T2.
  pose proof (fiter_top 24 8 x1 X1 ltac:(lia)) as T1.
  change (24 - Z.of_nat 24) with 0 in T3. change (24 - Z.of_nat 16) with 8 in T2.
  change (24 - Z.of_nat 8) with 16 in T1. rewrite Z.shiftl_0_r in T3.
  change (8 + (8 + (8 + 8)))%nat with (8 + 24)%nat. rewrite T3.
  change (8 + 24)%nat with (16 + 16)%nat. rewrite T2.
  change (16 + 16)%nat with (24 + 8)%nat. rewrite T1.
  change (8 * (3 + 1))%nat with (24 + 8)%nat. change (8 * (2 + 1))%nat with 24%nat.
  change (8 * (1 + 1))%nat with 16%nat. change (8 * (0 + 1))%nat with 8%nat.
  generalize (swab32 (Nat.iter (24 + 8) fb (Z.shiftl x0 24))), (swab32 (Nat.iter 24 fb (Z.shiftl x1 24))),
    (swab32 (Nat.iter 16 fb (Z.shiftl x2 24))), (swab32 (Nat.iter 8 fb (Z.shiftl x3 24))).
  intros u v x y. apply Z.bits_inj'. intros i Hi. rewrite !Z.lxor_spec.
  by destruct (Z.testbit u i), (Z.testbit v i), (Z.testbit x i), (Z.testbit y i).
Qed.

(** ** Properties of the checksums *)

Lemma foldl_ext_byte (g h : Z → Z → Z) c p : (∀ c b, g c b = h c b) → foldl g c p = foldl h c p.
Proof. intros E. revert c. induction p as [|b p IH]; intros c; simpl; [done|]. by rewrite E, IH. Qed.

Lemma iter_ext {A} (f g : A → A) n x : (∀ y, f y = g y) → Nat.iter n f x = Nat.iter n g x.
Proof. intros E. induction n as [|n IH]; simpl; [done|]. by rewrite IH, E. Qed.

Lemma crc32_le_body addr crc p : urange 32 crc → Forall byte p →
  crc32_le addr crc p = Some (foldl (le_update CRCPOLY_LE) crc p).
Proof.
  intros Hc Hp. unfold crc32_le. eapply (body_spec _ _ (urange 32)); [apply le_do_crc| |done|done].
  intros. by apply le_do_crc4.
Qed.

Lemma crc32_be_body addr crc p : urange 32 crc → Forall byte p →
  crc32_be addr crc p = Some (foldl fupd crc p).
Proof.
  intros Hc Hp. unfold crc32_be.
  rewrite (body_spec crc32table_be be_upd (urange 32) be_do_crc be_do_crc4 addr (swab32 crc) p
    (swab32_range _ Hc) Hp).
  cbn [mbind option_bind]. f_equal. revert crc Hc. induction Hp as [|b p Hb _ IH]; intros crc Hc; cbn [foldl].
  - by apply swab32_involutive.
  - unfold be_upd at 2. rewrite swab32_involutive by done. apply IH. by apply fupd_range.
Qed.

(** The checksum of the exclusive or of two equally long messages. *)
Lemma foldl_linear (g : Z → Z → Z) c c' p p' :
  (∀ x x' b b', g (Z.lxor x x') (Z.lxor b b') = Z.lxor (g x b) (g x' b')) → length p = length p' →
  foldl g (Z.lxor c c') (zip_with Z.lxor p p') = Z.lxor (foldl g c p) (foldl g c' p').
Proof.
  intros Hg. revert c c' p'. induction p as [|b p IH]; intros c c' [|b' p'] Hlen; try done.
  simpl. rewrite Hg. apply IH. by injection Hlen.
Qed.

Lemma le_update_linear poly x x' b b' :
  le_update poly (Z.lxor x x') (Z.lxor b b') = Z.lxor (le_update poly x b) (le_update poly x' b').
Proof.
  unfold le_update. rewrite <- (iter_linear _ 8 (le_bit_linear poly)). f_equal. apply lxor_swap.
Qed.

Lemma fwd_update_linear w poly x x' b b' : 8 ≤ w →
  fwd_update w poly (Z.lxor x x') (Z.lxor b b') = Z.lxor (fwd_update w poly x b) (fwd_update w poly x' b').
Proof.
  intros Hw. unfold fwd_update. rewrite <- (iter_linear _ 8 (fwd_bit_linear w poly Hw)). f_equal.
  rewrite Z.shiftl_lxor. apply lxor_swap.
Qed.

Lemma zip_bytes p p' : Forall byte p → Forall byte p' → Forall byte (zip_with Z.lxor p p').
Proof.
  intros H. revert p'. induction H as [|b p Hb _ IH]; intros p' H'; [done|].
  destruct H' as [|b' p' Hb' H']; [done|]. simpl. constructor; auto with word.
Qed.

Lemma iter_zero f n : linear f → Nat.iter n f 0 = 0.
Proof.
  intros Hf. assert (H0 : f 0 = 0) by (rewrite <- (Z.lxor_nilpotent 0) at 1; by rewrite Hf, Z.lxor_nilpotent).
  induction n as [|n IH]; simpl; [done|]. by rewrite IH, H0.
Qed.

Lemma le_residue c : urange 32 c → foldl (le_update CRCPOLY_LE) c (le32_bytes c) = 0.
Proof.
  intros Hc. destruct (le32_bytes_ok c Hc) as [_ ->]. cbn [foldl].
  set (b0 := byte_at c 0). set (b1 := byte_at c 8). set (b2 := byte_at c 16). set (b3 := byte_at c 24).
  unfold le_update. rewrite (le_feed _ 8 (Z.lxor c b0)), (le_feed _ (8 + 8) (Z.lxor (Z.lxor c b0) _)).
  rewrite (le_feed _ (8 + (8 + 8))).
  enough (E : ∀ x, x = 0 → Nat.iter (8 + (8 + (8 + 8))) (le_bit CRCPOLY_LE) x = 0); [apply E; clear E|
    intros x ->; apply iter_zero, le_bit_linear].
  replace (Z.lxor (Z.lxor (Z.lxor (Z.lxor c b0) _) _) _) with (Z.lxor c (le32 b0 b1 b2 b3))
    by (rewrite le32_lxor, <- !Z.lxor_assoc by (apply byte_of); done).
  unfold b0, b1, b2, b3. rewrite <- word_bytes by done. by rewrite Z.lxor_nilpotent.
Qed.

Lemma be_residue c : urange 32 c → foldl fupd c (rev (le32_bytes c)) = 0.
Proof.
  intros Hc. destruct (le32_bytes_ok c Hc) as [_ ->]. cbn [rev app foldl].
  set (b0 := byte_at c 0). set (b1 := byte_at c 8). set (b2 := byte_at c 16). set (b3 := byte_at c 24).
  assert (byte b0 ∧ byte b1 ∧ byte b2 ∧ byte b3) as (B0 & B1 & B2 & B3) by (unfold b0, b1, b2, b3; auto with word).
  unfold fwd_update. change (32 - 8) with 24.
  rewrite (fwd_feed 32 CRCPOLY_BE ltac:(lia) 8 (Z.lxor c _)) by (done || lia).
  rewrite (fwd_feed 32 CRCPOLY_BE ltac:(lia) (8 + 8) (Z.lxor (Z.lxor c _) _)) by (done || lia).
  rewrite (fwd_feed 32 CRCPOLY_BE ltac:(lia) (8 + (8 + 8))) by (done || lia).
  change (32 - 8 - Z.of_nat 8) with 16. change (32 - 8 - Z.of_nat (8 + 8)) with 8.
  change (32 - 8 - Z.of_nat (8 + (8 + 8))) with 0. rewrite Z.shiftl_0_r.
  replace (Z.lxor (Z.lxor (Z.lxor (Z.lxor c _) _) _) b0) with (Z.lxor c (le32 b0 b1 b2 b3)).
  - unfold b0, b1, b2, b3. rewrite <- word_bytes, Z.lxor_nilpotent by done.
    apply iter_zero, fwd_bit_linear. lia.
  - rewrite le32_lxor by done. generalize (Z.shiftl b3 24), (Z.shiftl b2 16), (Z.shiftl b1 8), b0.
    intros u v x y. apply Z.bits_inj'. intros i Hi. rewrite !Z.lxor_spec.
    by destruct (Z.testbit c i), (Z.testbit u i), (Z.testbit v i), (Z.testbit x i), (Z.testbit y i).
Qed.

(** ** CRC-7 *)

(** One message bit, most significant first: [x^7 + x^3 + 1]. *)
Definition crc7_bit (crc : Z) (bit : bool) : Z :=
  Z.lxor (uwrap 7 (Z.shiftl crc 1)) (if xorb (Z.testbit crc 6) bit then 0x09 else 0).
Definition crc7_bits (crc b : Z) : Z :=
  foldl (λ c i, crc7_bit c (Z.testbit b i)) crc [7; 6; 5; 4; 3; 2; 1; 0].

Lemma crc7_bits_linear c c' d d' :
  crc7_bits (Z.lxor c c') (Z.lxor d d') = Z.lxor (crc7_bits c d) (crc7_bits c' d').
Proof.
  assert (H : ∀ x y b b', crc7_bit (Z.lxor x y) (xorb b b') = Z.lxor (crc7_bit x b) (crc7_bit y b')).
  { intros x y b b'. unfold crc7_bit. rewrite Z.shiftl_lxor, uwrap_lxor, Z.lxor_spec by lia.
    replace (xorb (xorb (Z.testbit x 6) (Z.testbit y 6)) (xorb b b')) with
      (xorb (xorb (Z.testbit x 6) b) (xorb (Z.testbit y 6) b'))
      by (by destruct (Z.testbit x 6), (Z.testbit y 6), b, b').
    rewrite lxor_if_linear. apply lxor_swap. }
  unfold crc7_bits. cbn [foldl]. by rewrite !Z.lxor_spec, !H.
Qed.

Lemma crc7_bit_range c b : urange 7 (crc7_bit c b).
Proof. apply urange_lxor; [lia|apply urange_uwrap; lia|]. by destruct (xorb _ _). Qed.

Lemma crc7_table_ok : crc7_syndrome_table = (λ i, crc7_bits 0 i) <$> seqZ 0 256.
Proof. vm_compute. reflexivity. Qed.

(** Feeding the register to itself clears it. *)
Lemma crc7_cancel c : urange 7 c → crc7_bits c (Z.shiftl c 1) = 0.
Proof.
  assert (Hall : forallb (λ c, crc7_bits c (Z.shiftl c 1) =? 0) (seqZ 0 128) = true)
    by (vm_compute; reflexivity).
  intros Hc. rewrite forallb_forall in Hall. apply Z.eqb_eq, Hall.
  rewrite <- list_elem_of_In, elem_of_seqZ. exact Hc.
Qed.

Lemma crc7_byte_ok crc b : urange 7 crc → byte b →
  crc7_byte crc b = Some (crc7_bits crc b) ∧ urange 7 (crc7_bits crc b).
Proof.
  intros Hc Hb. split; [|unfold crc7_bits; cbn [foldl]; apply crc7_bit_range].
  assert (Hi : byte (Z.lxor (Z.shiftl crc 1) b)).
  { apply byte_lxor; [|done]. rewrite Z.shiftl_mul_pow2 by lia. unfold urange in *. lia. }
  unfold crc7_byte. rewrite (table_get (λ i, crc7_bits 0 i) _ _ crc7_table_ok Hi).
  apply (f_equal Some). rewrite <- (Z.lxor_nilpotent crc) at 1.
  by rewrite crc7_bits_linear, crc7_cancel, Z.lxor_0_l.
Qed.

(** ** Main theorems *)

(** C33: [crc32_le] with its generated slicing tables, its alignment loop and its
    four-byte loop computes, for every address, length and start value, the same value
    as the bit-at-a-time version the source has for [CRC_LE_BITS == 1], and every table
    access is in bounds. *)
Theorem crc32_le_is_bitwise addr crc p : urange 32 crc → Forall byte p →
  crc32_le addr crc p = Some (crc32_le_bitwise crc p).
Proof.
  intros Hc Hp. rewrite crc32_le_body by done. unfold crc32_le_bitwise, le_update. reflexivity.
Qed.

(** [crc32_be], which runs the same little-endian loops on byte-swapped tables and
    a byte-swapped register, computes the same value as the bit-at-a-time version for
    [CRC_BE_BITS == 1]. *)
Theorem crc32_be_is_bitwise addr crc p : urange 32 crc → Forall byte p →
  crc32_be addr crc p = Some (crc32_be_bitwise crc p).
Proof.
  intros Hc Hp. rewrite crc32_be_body by done. f_equal. apply foldl_ext_byte. intros c b.
  unfold fwd_update. change (32 - 8) with 24. apply iter_ext. intros y. symmetry. apply be_bit_fwd.
Qed.

(** The self-test of [lib/crc32.c] holds for all messages: appending the checksum
    makes the checksum zero (low byte first for [crc32_le], high byte first for
    [crc32_be]), and the checksum of the exclusive or of two messages of the same length
    is the exclusive or of their checksums. *)
Theorem crc32_selftest addr addr' addr'' crc crc' p p' :
  urange 32 crc → urange 32 crc' → Forall byte p → Forall byte p' → length p = length p' →
  (∃ c, crc32_le addr crc p = Some c ∧ crc32_le addr' crc (p ++ le32_bytes c) = Some 0) ∧
  (∃ c, crc32_be addr crc p = Some c ∧ crc32_be addr' crc (p ++ rev (le32_bytes c)) = Some 0) ∧
  (∃ c c', crc32_be addr crc p = Some c ∧ crc32_be addr' crc' p' = Some c' ∧
     crc32_be addr'' (Z.lxor crc crc') (zip_with Z.lxor p p') = Some (Z.lxor c c')).
Proof.
  intros Hc Hc' Hp Hp' Hlen.
  assert (HL : urange 32 (foldl (le_update CRCPOLY_LE) crc p)).
  { apply foldl_P with (tab := crc32table_le); [apply le_do_crc|done|done]. }
  assert (HB : urange 32 (foldl fupd crc p)).
  { clear -Hc Hp. revert crc Hc. induction Hp as [|b p Hb _ IH]; intros crc Hc; [done|].
    cbn [foldl]. apply IH. by apply fupd_range. }
  split; [|split].
  - eexists. split; [by apply crc32_le_body|]. destruct (le32_bytes_ok _ HL) as [Hb _].
    rewrite crc32_le_body, foldl_app, le_residue by (done || by apply Forall_app). done.
  - eexists. split; [by apply crc32_be_body|]. destruct (le32_bytes_ok _ HB) as [Hb _].
    rewrite crc32_be_body, foldl_app, be_residue; [done|done|done|].
    apply Forall_app. split; [done|]. by apply Forall_rev.
  - eexists _, _. split; [by apply crc32_be_body|]. split; [by apply crc32_be_body|].
    rewrite crc32_be_body by (auto using zip_bytes with word). f_equal. apply foldl_linear; [|done].
    intros. apply fwd_update_linear. lia.
Qed.

(** The 16-bit checksums divide by the polynomials their tables are meant for:
    [crc16] by 0xA001 and [crc_ccitt] by 0x8408 (low bit first), [crc_itu_t] by 0x1021
    and [crc_t10dif] by 0x8BB7 (high bit first), for every message and start value. *)
Theorem crc16_family crc p : urange 16 crc → Forall byte p →
  crc16 crc p = Some (foldl (le_update 0xa001) crc p) ∧
  crc_ccitt crc p = Some (foldl (le_update 0x8408) crc p) ∧
  crc_itu_t crc p = Some (foldl (fwd_update 16 0x1021) crc p) ∧
  crc_t10dif p = Some (foldl (fwd_update 16 0x8bb7) 0 p).
Proof.
  intros Hc Hp.
  assert (HL : ∀ poly tab, urange 16 poly → tab = le_table poly →
    crc_buffer (λ crc data, t ← tab.[Z.land (Z.lxor crc data) 0xff]; Some (Z.lxor (Z.shiftr crc 8) t)) crc p =
      Some (foldl (le_update poly) crc p)).
  { intros poly tab Hpoly Htab. apply (crc_buffer_foldl _ _ (urange 16)); [done|done|].
    intros c b Hcc Hb. destruct (le_step_ok poly tab c b Htab Hb) as (t & -> & E).
    cbn [mbind option_bind]. rewrite E. split; [done|]. by apply le_update_range. }
  assert (HF : ∀ poly tab c0, urange 16 poly → urange 16 c0 → tab = fwd_table 16 poly →
    crc_buffer (λ crc data, t ← tab.[Z.land (Z.lxor (Z.shiftr crc 8) data) 0xff];
      Some (u16 (Z.lxor (Z.shiftl crc 8) t))) c0 p = Some (foldl (fwd_update 16 poly) c0 p)).
  { intros poly tab c0 Hpoly Hc0 Htab. apply (crc_buffer_foldl _ _ (urange 16)); [done|done|].
    intros c b Hcc Hb. destruct (fwd_step_ok poly tab c b Htab Hb Hcc Hpoly) as (t & -> & E).
    cbn [mbind option_bind]. rewrite E. split; [done|]. rewrite <- E. apply urange_uwrap. lia. }
  split; [by apply HL, crc16_table_ok|]. split; [by apply HL, crc_ccitt_table_ok|].
  split; [by apply HF, crc_itu_t_table_ok|by apply HF, t10_dif_crc_table_ok].
Qed.

(** [crc7] keeps the register below 128, so that its table index is in bounds, and
    divides the message by [x^7 + x^3 + 1]. *)
Theorem crc7_correct crc p : urange 7 crc → Forall byte p →
  crc7 crc p = Some (foldl crc7_bits crc p) ∧ urange 7 (foldl crc7_bits crc p).
Proof.
  intros Hc Hp. apply (crc_buffer_foldl _ _ (urange 7)); [done|done|]. intros. by apply crc7_byte_ok.
Qed.

(** The [crc32c] hash is the Castagnoli polynomial 0x82F63B78 and its incremental
    and one-shot forms agree: [init], any two [update]s and [final] give what [digest]
    gives for the whole message; [setkey] accepts exactly four bytes. *)
Theorem crc32c_hash key p q : urange 32 key → Forall byte p → Forall byte q →
  (∃ c1 c2, chksum_update (chksum_init key) p = Some c1 ∧ chksum_update c1 q = Some c2 ∧
     c2 = foldl (le_update 0x82f63b78) key (p ++ q) ∧
     chksum_digest key (p ++ q) = Some (chksum_final c2) ∧
     chksum_finup c1 q = Some (chksum_final c2)) ∧
  ∀ mctx k, (chksum_setkey mctx k).2 = 0 ↔ length k = 4%nat.
Proof.
  intros Hk Hp Hq. split.
  - assert (HC : ∀ c r, urange 32 c → Forall byte r →
      crc32c c r = Some (foldl (le_update 0x82f63b78) c r) ∧ urange 32 (foldl (le_update 0x82f63b78) c r)).
    { intros c r Hc Hr. apply (crc_buffer_foldl _ _ (urange 32)); [done|done|]. intros c' b Hc' Hb.
      unfold crc32c_byte. destruct (le_step_ok _ _ c' b crc32c_table_ok Hb) as (t & -> & E).
      cbn [mbind option_bind]. rewrite Z.lxor_comm, E. split; [done|]. by apply le_update_range. }
    unfold chksum_update, chksum_init, chksum_digest, chksum_finup, __chksum_finup.
    destruct (HC key p Hk Hp) as [E1 R1]. destruct (HC _ q R1 Hq) as [E2 _].
    destruct (HC key (p ++ q) Hk) as [E3 _]; [by apply Forall_app|]. rewrite E1, E3.
    eexists _, _. split; [done|]. split; [exact E2|]. rewrite E2, foldl_app. done.
  - intros mctx k. destruct k as [|? [|? [|? [|? [|? k]]]]]; simpl; split; intros; try done; lia.
Qed.

(** ** Witnesses *)

Lemma wit_msg : Forall byte [0x31; 0x32; 0x33; 0x34; 0x35; 0x36; 0x37; 0x38; 0x39].
Proof. apply (bool_decide_unpack _). vm_compute. exact I. Qed.

Lemma crc32_le_is_bitwise_witness :
  crc32_le 1 0xffffffff [0x31; 0x32; 0x33; 0x34; 0x35; 0x36; 0x37; 0x38; 0x39] =
    Some (crc32_le_bitwise 0xffffffff [0x31; 0x32; 0x33; 0x34; 0x35; 0x36; 0x37; 0x38; 0x39]).
Proof. apply crc32_le_is_bitwise; [vm_compute; split; [discriminate|reflexivity]|exact wit_msg]. Defined.

Lemma crc32_be_is_bitwise_witness :
  crc32_be 2 0xffffffff [0x31; 0x32; 0x33; 0x34; 0x35; 0x36; 0x37; 0x38; 0x39] =
    Some (crc32_be_bitwise 0xffffffff [0x31; 0x32; 0x33; 0x34; 0x35; 0x36; 0x37; 0x38; 0x39]).
Proof. apply crc32_be_is_bitwise; [vm_compute; split; [discriminate|reflexivity]|exact wit_msg]. Defined.

Lemma crc32_selftest_witness :
  (∃ c, crc32_le 0 5 [1; 2; 3] = Some c ∧ crc32_le 1 5 ([1; 2; 3] ++ le32_bytes c) = Some 0) ∧
  (∃ c, crc32_be 0 5 [1; 2; 3] = Some c ∧ crc32_be 1 5 ([1; 2; 3] ++ rev (le32_bytes c)) = Some 0) ∧
  (∃ c c', crc32_be 0 5 [1; 2; 3] = Some c ∧ crc32_be 1 7 [4; 5; 6] = Some c' ∧
     crc32_be 2 (Z.lxor 5 7) (zip_with Z.lxor [1; 2; 3] [4; 5; 6]) = Some (Z.lxor c c')).
Proof.
  apply (crc32_selftest 0 1 2 5 7 [1; 2; 3] [4; 5; 6]);
    [by vm_compute|by vm_compute|by repeat constructor|by repeat constructor|reflexivity].
Defined.

Lemma crc16_family_witness :
  crc16 0 [0x31; 0x32] = Some (foldl (le_update 0xa001) 0 [0x31; 0x32]) ∧
  crc_ccitt 0 [0x31; 0x32] = Some (foldl (le_update 0x8408) 0 [0x31; 0x32]) ∧
  crc_itu_t 0 [0x31; 0x32] = Some (foldl (fwd_update 16 0x1021) 0 [0x31; 0x32]) ∧
  crc_t10dif [0x31; 0x32] = Some (foldl (fwd_update 16 0x8bb7) 0 [0x31; 0x32]).
Proof. apply (crc16_family 0 [0x31; 0x32]); [by vm_compute|by repeat constructor]. Defined.

Lemma crc7_correct_witness :
  crc7 0 [0x40; 0; 0; 0; 0] = Some (foldl crc7_bits 0 [0x40; 0; 0; 0; 0]) ∧
  urange 7 (foldl crc7_bits 0 [0x40; 0; 0; 0; 0]).
Proof. apply (crc7_correct 0 [0x40; 0; 0; 0; 0]); [by vm_compute|by repeat constructor]. Defined.

Lemma crc32c_hash_witness :
  (∃ c1 c2, chksum_update (chksum_init 7) [1; 2] = Some c1 ∧ chksum_update c1 [3] = Some c2 ∧
     c2 = foldl (le_update 0x82f63b78) 7 ([1; 2] ++ [3]) ∧
     chksum_digest 7 ([1; 2] ++ [3]) = Some (chksum_final c2) ∧
     chksum_finup c1 [3] = Some (chksum_final c2)) ∧
  ∀ mctx k, (chksum_setkey mctx k).2 = 0 ↔ length k = 4%nat.
Proof.
  apply (crc32c_hash 7 [1; 2] [3]); [by vm_compute|by repeat constructor|by repeat constructor].
Defined.
