(* ===== verification/RbTree.v ===== *)
(** * Red-black trees

    Models [lib/rbtree.c] and [include/linux/rbtree.h] on an explicit heap of
    nodes: parent pointer and colour are packed in [rb_parent_color] as in the C
    structure, pointers are addresses ([0] is [NULL]), and every function is a
    state transformer that fails ([None]) on a dereference of an address that
    holds no node.  The loops carry the number of nodes of the heap as fuel, an
    upper bound of the length of any path of a tree in it. *)
From stdpp Require Import gmap.
From S2P Require Import Prelude.
#[local] Open Scope Z_scope.

(** ** Nodes and the heap *)

Record rb_node := RbNode { rb_parent_color : Z; rb_right : Z; rb_left : Z }.

Definition RB_RED : Z := 0.
Definition RB_BLACK : Z := 1.

(** The root pointer ([struct rb_root]) and the nodes in memory. *)
Record rb_state := RbState { rb_root : Z; rb_nodes : gmap Z rb_node }.

(** State transformers that may fail. *)
Definition M (A : Type) : Type := rb_state → option (A * rb_state).
#[export] Instance M_ret : MRet M := λ A x s, Some (x, s).
#[export] Instance M_bind : MBind M := λ A B f m s, '(x, s') ← m s; f x s'.

Definition load (f : rb_node → Z) (p : Z) : M Z := λ s,
  n ← rb_nodes s !! p; Some (f n, s).
Definition modify (p : Z) (f : rb_node → rb_node) : M unit := λ s,
  n ← rb_nodes s !! p; Some (tt, RbState (rb_root s) (<[p := f n]> (rb_nodes s))).
Definition load_node (p : Z) : M rb_node := λ s, n ← rb_nodes s !! p; Some (n, s).
Definition get_root : M Z := λ s, Some (rb_root s, s).
Definition set_root (p : Z) : M unit := λ s, Some (tt, RbState p (rb_nodes s)).
Definition heap_size : M nat := λ s, Some (size (rb_nodes s), s).
Definition crash {A} : M A := λ _, None.

Definition skip : M unit := mret tt.
Definition when (b : bool) (m : M unit) : M unit := if b then m else skip.

Fixpoint loopM {S R} (fuel : nat) (step : S → M (S + R)) (s : S) : M R :=
  match fuel with
  | O => crash
  | Datatypes.S f => o ← step s; match o with inl s' => loopM f step s' | inr r => mret r end
  end.

(** ** [rbtree.h] *)

Definition pc_parent (pc : Z) : Z := Z.land pc (Z.lnot 3).
Definition pc_color (pc : Z) : Z := Z.land pc 1.

Definition rb_parent (r : Z) : M Z := load (λ n, pc_parent (rb_parent_color n)) r.
Definition rb_color (r : Z) : M Z := load (λ n, pc_color (rb_parent_color n)) r.
Definition rb_is_red (r : Z) : M bool := c ← rb_color r; mret (negb (ctrue c)).
Definition rb_is_black (r : Z) : M bool := c ← rb_color r; mret (ctrue c).

Definition set_pc (f : Z → Z) (n : rb_node) : rb_node :=
  RbNode (f (rb_parent_color n)) (rb_right n) (rb_left n).

Definition rb_set_red (r : Z) : M unit := modify r (set_pc (λ pc, Z.land pc (Z.lnot 1))).
Definition rb_set_black (r : Z) : M unit := modify r (set_pc (λ pc, Z.lor pc 1)).
Definition rb_set_parent (rb p : Z) : M unit :=
  modify rb (set_pc (λ pc, Z.lor (Z.land pc 3) p)).
Definition rb_set_color (rb color : Z) : M unit :=
  modify rb (set_pc (λ pc, Z.lor (Z.land pc (Z.lnot 1)) color)).

Definition get_left : Z → M Z := load rb_left.
Definition get_right : Z → M Z := load rb_right.
Definition set_left (p v : Z) : M unit :=
  modify p (λ n, RbNode (rb_parent_color n) (rb_right n) v).
Definition set_right (p v : Z) : M unit :=
  modify p (λ n, RbNode (rb_parent_color n) v (rb_left n)).

(** The slot a [struct rb_node **] points to. *)
Inductive rb_link := LinkRoot | LinkLeft (p : Z) | LinkRight (p : Z).

Definition set_link (l : rb_link) (v : Z) : M unit :=
  match l with
  | LinkRoot => set_root v | LinkLeft p => set_left p v | LinkRight p => set_right p v
  end.

Definition rb_link_node (node parent : Z) (link : rb_link) : M unit :=
  modify node (λ n, RbNode parent (rb_right n) (rb_left n));;
  set_right node 0;; set_left node 0;;
  set_link link node.

(** ** [rbtree.c] *)

Definition __rb_rotate_left (node : Z) : M unit :=
  right ← get_right node;
  parent ← rb_parent node;
  rl ← get_left right;
  set_right node rl;;
  when (ctrue rl) (rl ← get_left right; rb_set_parent rl node);;
  set_left right node;;
  rb_set_parent right parent;;
  (if ctrue parent then
     pl ← get_left parent;
     if node =? pl then set_left parent right else set_right parent right
   else set_root right);;
  rb_set_parent node right.

Definition __rb_rotate_right (node : Z) : M unit :=
  left ← get_left node;
  parent ← rb_parent node;
  lr ← get_right left;
  set_left node lr;;
  when (ctrue lr) (lr ← get_right left; rb_set_parent lr node);;
  set_right left node;;
  rb_set_parent left parent;;
  (if ctrue parent then
     pr ← get_right parent;
     if node =? pr then set_right parent left else set_left parent left
   else set_root left);;
  rb_set_parent node left.

(** [node && rb_is_red(node)] and [!node || rb_is_black(node)]. *)
Definition is_red_node (node : Z) : M bool :=
  if ctrue node then rb_is_red node else mret false.
Definition is_black_or_null (node : Z) : M bool :=
  if ctrue node then rb_is_black node else mret true.

(** One iteration of the [while] loop; [inr] when its condition fails. *)
Definition insert_step (node : Z) : M (Z + unit) :=
  parent ← rb_parent node;
  red ← is_red_node parent;
  if negb red then mret (inr tt) else
  gparent ← rb_parent parent;
  gl ← get_left gparent;
  if parent =? gl then
    uncle ← get_right gparent;
    ured ← is_red_node uncle;
    if (ured : bool) then
      rb_set_black uncle;; rb_set_black parent;; rb_set_red gparent;; mret (inl gparent)
    else
      pr ← get_right parent;
      '(parent, node) ← (if pr =? node then __rb_rotate_left parent;; mret (node, parent)
                         else mret (parent, node));
      rb_set_black parent;; rb_set_red gparent;; __rb_rotate_right gparent;; mret (inl node)
  else
    uncle ← get_left gparent;
    ured ← is_red_node uncle;
    if (ured : bool) then
      rb_set_black uncle;; rb_set_black parent;; rb_set_red gparent;; mret (inl gparent)
    else
      pl ← get_left parent;
      '(parent, node) ← (if pl =? node then __rb_rotate_right parent;; mret (node, parent)
                         else mret (parent, node));
      rb_set_black parent;; rb_set_red gparent;; __rb_rotate_left gparent;; mret (inl node).

Definition rb_insert_color (node : Z) : M unit :=
  fuel ← heap_size;
  loopM (S fuel) insert_step node;;
  r ← get_root; rb_set_black r.

(** One iteration of the loop of [__rb_erase_color] on [(node, parent)]. *)
Definition erase_step (np : Z * Z) : M (Z * Z + Z) :=
  let '(node, parent) := np in
  black ← is_black_or_null node;
  root ← get_root;
  if negb (black && negb (node =? root)) then mret (inr node) else
  pl ← get_left parent;
  if pl =? node then
    other ← get_right parent;
    ored ← rb_is_red other;
    other ← (if (ored : bool) then
        rb_set_black other;; rb_set_red parent;; __rb_rotate_left parent;; get_right parent
      else mret other);
    ol ← get_left other; olb ← is_black_or_null ol;
    orr ← get_right other; orb ← is_black_or_null orr;
    if olb && orb then
      rb_set_red other;; parent' ← rb_parent parent; mret (inl (parent, parent'))
    else
      other ← (if (orb : bool) then
          ol ← get_left other;
          rb_set_black ol;; rb_set_red other;; __rb_rotate_right other;; get_right parent
        else mret other);
      c ← rb_color parent;
      rb_set_color other c;; rb_set_black parent;;
      orr ← get_right other; rb_set_black orr;;
      __rb_rotate_left parent;;
      r ← get_root; mret (inr r)
  else
    other ← get_left parent;
    ored ← rb_is_red other;
    other ← (if (ored : bool) then
        rb_set_black other;; rb_set_red parent;; __rb_rotate_right parent;; get_left parent
      else mret other);
    ol ← get_left other; olb ← is_black_or_null ol;
    orr ← get_right other; orb ← is_black_or_null orr;
    if olb && orb then
      rb_set_red other;; parent' ← rb_parent parent; mret (inl (parent, parent'))
    else
      other ← (if (olb : bool) then
          orr ← get_right other;
          rb_set_black orr;; rb_set_red other;; __rb_rotate_left other;; get_left parent
        else mret other);
      c ← rb_color parent;
      rb_set_color other c;; rb_set_black parent;;
      ol ← get_left other; rb_set_black ol;;
      __rb_rotate_right parent;;
      r ← get_root; mret (inr r).

Definition __rb_erase_color (node parent : Z) : M unit :=
  fuel ← heap_size;
  node ← loopM (S fuel) erase_step (node, parent);
  when (ctrue node) (rb_set_black node).

(** [while ((left = node->rb_left) != NULL) node = left;] *)
Definition leftmost (node : Z) : M Z :=
  fuel ← heap_size;
  loopM (S fuel) (λ n, l ← get_left n; if ctrue l then mret (inl l) else mret (inr n)) node.
Definition rightmost (node : Z) : M Z :=
  fuel ← heap_size;
  loopM (S fuel) (λ n, r ← get_right n; if ctrue r then mret (inl r) else mret (inr n)) node.

(** Unlinking a node with two children: the successor takes its place.  Returns
    [child], [parent] and [color] for the recolouring. *)
Definition erase_two (old : Z) : M (Z * Z * Z) :=
  node ← get_right old;
  node ← leftmost node;
  op ← rb_parent old;
  (if ctrue op then
     opl ← get_left op;
     if opl =? old then set_left op node else set_right op node
   else set_root node);;
  child ← get_right node;
  parent ← rb_parent node;
  color ← rb_color node;
  parent ← (if parent =? old then mret node else
    when (ctrue child) (rb_set_parent child parent);;
    set_left parent child;;
    oldr ← get_right old; set_right node oldr;;
    oldr ← get_right old; rb_set_parent oldr node;;
    mret parent);
  opc ← load rb_parent_color old;
  modify node (set_pc (λ _, opc));;
  oldl ← get_left old; set_left node oldl;;
  oldl ← get_left old; rb_set_parent oldl node;;
  mret (child, parent, color).

(** Unlinking a node with at most one child [child]. *)
Definition erase_one (node child : Z) : M (Z * Z * Z) :=
  parent ← rb_parent node;
  color ← rb_color node;
  when (ctrue child) (rb_set_parent child parent);;
  (if ctrue parent then
     pl ← get_left parent;
     if pl =? node then set_left parent child else set_right parent child
   else set_root child);;
  mret (child, parent, color).

Definition rb_erase (node : Z) : M unit :=
  l ← get_left node;
  '(child, parent, color) ←
    (if negb (ctrue l) then r ← get_right node; erase_one node r
     else r ← get_right node;
          if negb (ctrue r) then l ← get_left node; erase_one node l else erase_two node);
  when (color =? RB_BLACK) (__rb_erase_color child parent).

Definition rb_first : M Z :=
  n ← get_root; if negb (ctrue n) then mret 0 else leftmost n.

Definition rb_last : M Z :=
  n ← get_root; if negb (ctrue n) then mret 0 else rightmost n.

Definition rb_next (node : Z) : M Z :=
  p ← rb_parent node;
  if p =? node then mret 0 else
  r ← get_right node;
  if ctrue r then leftmost r else
  fuel ← heap_size;
  loopM (S fuel) (λ node,
    parent ← rb_parent node;
    if ctrue parent then
      pr ← get_right parent;
      if node =? pr then mret (inl parent) else mret (inr parent)
    else mret (inr parent)) node.

Definition rb_prev (node : Z) : M Z :=
  p ← rb_parent node;
  if p =? node then mret 0 else
  l ← get_left node;
  if ctrue l then rightmost l else
  fuel ← heap_size;
  loopM (S fuel) (λ node,
    parent ← rb_parent node;
    if ctrue parent then
      pl ← get_left parent;
      if node =? pl then mret (inl parent) else mret (inr parent)
    else mret (inr parent)) node.

Definition rb_replace_node (victim new : Z) : M unit :=
  parent ← rb_parent victim;
  (if ctrue parent then
     pl ← get_left parent;
     if victim =? pl then set_left parent new else set_right parent new
   else set_root new);;
  vl ← get_left victim; when (ctrue vl) (vl ← get_left victim; rb_set_parent vl new);;
  vr ← get_right victim; when (ctrue vr) (vr ← get_right victim; rb_set_parent vr new);;
  v ← load_node victim; modify new (λ _, v).

(** [func] is the caller's callback, with its [data] argument applied. *)
Definition rb_augment_path (func : Z → M unit) (node : Z) : M unit :=
  fuel ← heap_size;
  loopM (S fuel) (λ node,
    func node;;
    parent ← rb_parent node;
    if negb (ctrue parent) then mret (inr tt) else
    pl ← get_left parent; pr ← get_right parent;
    (if (node =? pl) && ctrue pr then func pr else when (ctrue pl) (func pl));;
    mret (inl parent)) node.

Definition rb_augment_insert (func : Z → M unit) (node : Z) : M unit :=
  l ← get_left node; r ← get_right node;
  rb_augment_path func (if ctrue l then l else if ctrue r then r else node).

Definition rb_augment_erase_begin (node : Z) : M Z :=
  r ← get_right node; l ← get_left node;
  if negb (ctrue r) && negb (ctrue l) then rb_parent node
  else if negb (ctrue r) then mret l
  else if negb (ctrue l) then mret r
  else
    deepest ← rb_next node;
    dr ← get_right deepest;
    if ctrue dr then mret dr else
    dp ← rb_parent deepest;
    if negb (dp =? node) then mret dp else mret deepest.

Definition rb_augment_erase_end (func : Z → M unit) (node : Z) : M unit :=
  when (ctrue node) (rb_augment_path func node).
