(* ===== verification/RbTreeHeap.v ===== *)
(** * Red-black trees in memory

    A heap represents a functional tree; a zipper of frames focuses on a
    subtree, and each pointer operation of [RbTree] is shown to act on the
    focused tree ([wp_*] lemmas), the rotations included.  Operations that take
    the tree apart are reasoned about on disjoint pieces of the heap ([sep]). *)
From stdpp Require Import gmap.
From S2P Require Import Prelude RbTree.
#[local] Open Scope Z_scope.

(** ** Functional trees and zippers *)

Inductive color := Red | Black.

(** A node carries the address where it lives. *)
Inductive tree := Leaf | Node (c : color) (l : tree) (a : Z) (r : tree).

Inductive dir := L | R.
Record frame := Fr { fdir : dir; fcol : color; fad : Z; fsib : tree }.

Definition fill (f : frame) (t : tree) : tree :=
  match fdir f with
  | L => Node (fcol f) t (fad f) (fsib f)
  | R => Node (fcol f) (fsib f) (fad f) t
  end.

Fixpoint plug (fs : list frame) (t : tree) : tree :=
  match fs with [] => t | f :: fs => plug fs (fill f t) end.

Definition ptr (t : tree) : Z := match t with Leaf => 0 | Node _ _ a _ => a end.
Definition cpar (fs : list frame) : Z := match fs with [] => 0 | f :: _ => fad f end.

(** In-order sequence of the nodes. *)
Fixpoint inorder (t : tree) : list Z :=
  match t with Leaf => [] | Node _ l a r => inorder l ++ a :: inorder r end.

(** ** Trees in memory *)

Definition colZ (c : color) : Z := match c with Red => RB_RED | Black => RB_BLACK end.
Definition mkn (par : Z) (c : color) (l r : Z) : rb_node := RbNode (par + colZ c) r l.

Fixpoint repr (h : gmap Z rb_node) (par : Z) (t : tree) : Prop :=
  match t with
  | Leaf => True
  | Node c l a r =>
      h !! a = Some (mkn par c (ptr l) (ptr r)) ∧ repr h a l ∧ repr h a r
  end.

Fixpoint repr_ctx (s : rb_state) (fs : list frame) (hole : Z) : Prop :=
  match fs with
  | [] => rb_root s = hole
  | Fr d c a sib :: fs =>
      rb_nodes s !! a = Some (match d with
        | L => mkn (cpar fs) c hole (ptr sib) | R => mkn (cpar fs) c (ptr sib) hole end) ∧
      repr (rb_nodes s) a sib ∧ repr_ctx s fs a
  end.

Fixpoint caddrs (fs : list frame) : list Z :=
  match fs with [] => [] | f :: fs => fad f :: inorder (fsib f) ++ caddrs fs end.

(** A node address: [rb_node] is aligned to [sizeof(long)]. *)
Definition valid (a : Z) : Prop := 0 < a ∧ (4 | a).

(** The heap of [s] holds the tree [plug fs t], focused on [t], and agrees with
    [h0] elsewhere. *)
Record tstate (h0 : gmap Z rb_node) (s : rb_state) (fs : list frame) (t : tree) : Prop := {
  ts_ctx : repr_ctx s fs (ptr t);
  ts_tree : repr (rb_nodes s) (cpar fs) t;
  ts_nodup : NoDup (caddrs fs ++ inorder t);
  ts_valid : Forall valid (caddrs fs ++ inorder t);
  ts_out : ∀ p, p ∉ caddrs fs ++ inorder t → rb_nodes s !! p = h0 !! p }.

(** ** The packed parent word *)

Lemma pc_parent_pack p c : 0 ≤ p → (4 | p) → pc_parent (p + colZ c) = p.
Proof.
  intros Hp [k ->]. unfold pc_parent. rewrite <- Z.ldiff_land. change 3 with (Z.ones 2).
  rewrite Z.ldiff_ones_r, Z.shiftl_mul_pow2, Z.shiftr_div_pow2 by lia. change (2 ^ 2) with 4.
  destruct c; unfold colZ, RB_RED, RB_BLACK; Z.to_euclidean_division_equations; lia.
Qed.

Lemma pc_color_pack p c : 0 ≤ p → (4 | p) → pc_color (p + colZ c) = colZ c.
Proof.
  intros Hp [k ->]. unfold pc_color. change 1 with (Z.ones 1). rewrite Z.land_ones by lia.
  change (2 ^ 1) with 2. destruct c; unfold colZ, RB_RED, RB_BLACK;
    Z.to_euclidean_division_equations; lia.
Qed.

Lemma lor_pack c q : 0 ≤ q → (4 | q) → Z.lor (colZ c) q = q + colZ c.
Proof.
  intros Hq [k ->]. assert (0 ≤ k) by lia. destruct c; simpl; unfold RB_RED, RB_BLACK.
  - by rewrite Z.lor_0_l, Z.add_0_r.
  - destruct k as [|p|p]; [done| |lia]. rewrite Z.mul_comm. done.
Qed.

Lemma land3_pack p c : 0 ≤ p → (4 | p) → Z.land (p + colZ c) 3 = colZ c.
Proof.
  intros Hp [k ->]. change 3 with (Z.ones 2). rewrite Z.land_ones by lia.
  change (2 ^ 2) with 4. destruct c; unfold colZ, RB_RED, RB_BLACK;
    Z.to_euclidean_division_equations; lia.
Qed.

Lemma clear1_pack p c : 0 ≤ p → (4 | p) → Z.land (p + colZ c) (Z.lnot 1) = p.
Proof.
  intros Hp [k ->]. rewrite <- Z.ldiff_land. change 1 with (Z.ones 1).
  rewrite Z.ldiff_ones_r, Z.shiftl_mul_pow2, Z.shiftr_div_pow2 by lia. change (2 ^ 1) with 2.
  destruct c; unfold colZ, RB_RED, RB_BLACK; Z.to_euclidean_division_equations; lia.
Qed.

Lemma set1_pack p c : 0 ≤ p → (4 | p) → Z.lor (p + colZ c) 1 = p + RB_BLACK.
Proof.
  intros Hp [k ->]. assert (0 ≤ k) by lia. destruct k as [|q|q]; [by destruct c| |lia].
  rewrite (Z.mul_comm _ 4). by destruct c.
Qed.

(** ** Weakest preconditions *)

Definition wp {A} (m : M A) (Q : A → rb_state → Prop) (s : rb_state) : Prop :=
  ∃ x s', m s = Some (x, s') ∧ Q x s'.

Lemma wp_ret {A} (x : A) Q s : Q x s → wp (mret x) Q s.
Proof. intros H. by exists x, s. Qed.

Lemma wp_bind {A B} (m : M A) (k : A → M B) Q s :
  wp m (λ x s', wp (k x) Q s') s → wp (x ← m; k x) Q s.
Proof.
  intros (x & s' & Hm & y & s'' & Hk & HQ). exists y, s''. split; [|done].
  unfold mbind, M_bind. by rewrite Hm.
Qed.

Lemma wp_mono {A} (m : M A) (Q Q' : A → rb_state → Prop) s :
  wp m Q s → (∀ x s', Q x s' → Q' x s') → wp m Q' s.
Proof. intros (x & s' & Hm & HQ) H. exists x, s'. auto. Qed.

Lemma wp_load f p n Q s : rb_nodes s !! p = Some n → Q (f n) s → wp (load f p) Q s.
Proof. intros Hn HQ. exists (f n), s. unfold load. by rewrite Hn. Qed.

Lemma wp_load_node p n Q s : rb_nodes s !! p = Some n → Q n s → wp (load_node p) Q s.
Proof. intros Hn HQ. exists n, s. unfold load_node. by rewrite Hn. Qed.

Lemma wp_modify p f n Q s :
  rb_nodes s !! p = Some n →
  Q tt (RbState (rb_root s) (<[p := f n]> (rb_nodes s))) → wp (modify p f) Q s.
Proof. intros Hn HQ. eexists _, _. split; [|exact HQ]. unfold modify. by rewrite Hn. Qed.

Lemma wp_get_root Q s : Q (rb_root s) s → wp get_root Q s.
Proof. intros HQ. by eexists _, _. Qed.

Lemma wp_set_root p Q s : Q tt (RbState p (rb_nodes s)) → wp (set_root p) Q s.
Proof. intros HQ. by eexists _, _. Qed.

Lemma wp_heap_size Q s : Q (size (rb_nodes s)) s → wp heap_size Q s.
Proof. intros HQ. by eexists _, _. Qed.

Lemma wp_loop {S R} (I : nat → S → rb_state → Prop) (Q : R → rb_state → Prop) step fuel n x s :
  I n x s → (n < fuel)%nat →
  (∀ n x s, I n x s → wp (step x) (λ o s', match o with
     | inl x' => ∃ n', (n' < n)%nat ∧ I n' x' s' | inr r => Q r s' end) s) →
  wp (loopM fuel step x) Q s.
Proof.
  intros HI Hf Hstep. revert n x s HI Hf. induction fuel as [|f IH]; intros n x s HI Hf; [lia|].
  simpl. apply wp_bind. eapply wp_mono; [by apply Hstep|].
  intros [x'|r] s'; [|by apply wp_ret]. intros (n' & Hn' & HI'). by apply (IH n'); [|lia].
Qed.

(** ** Frame properties *)

Lemma repr_frame h h' par t :
  (∀ p, p ∈ inorder t → h' !! p = h !! p) → repr h par t → repr h' par t.
Proof.
  revert par. induction t as [|c l IHl a r IHr]; intros par Hp; simpl; [done|].
  intros (Ha & Hl & Hr). split; [rewrite Hp; [done|set_solver]|].
  split; [apply IHl|apply IHr]; try done; intros p Hin; apply Hp; set_solver.
Qed.

Lemma repr_ctx_frame s s' fs hole :
  rb_root s' = rb_root s → (∀ p, p ∈ caddrs fs → rb_nodes s' !! p = rb_nodes s !! p) →
  repr_ctx s fs hole → repr_ctx s' fs hole.
Proof.
  intros Hroot. revert hole. induction fs as [|[d c a sib] fs IH]; intros hole Hp; simpl; [congruence|].
  intros (Ha & Hs & Hc). simpl in Hp. split; [rewrite Hp; [done|set_solver]|].
  split; [eapply repr_frame; [|done]|apply IH; [|done]]; intros p Hin; apply Hp; set_solver.
Qed.

(** Changing the parent pointer at the root of a tree. *)
Lemma repr_reparent h par par' c l a r :
  NoDup (inorder (Node c l a r)) → repr h par (Node c l a r) →
  repr (<[a := mkn par' c (ptr l) (ptr r)]> h) par' (Node c l a r).
Proof.
  simpl. intros Hnd (Ha & Hl & Hr). apply list.NoDup_app in Hnd as (H1 & H2 & H3).
  apply list.NoDup_cons in H3 as [H3 H4].
  split; [by rewrite lookup_insert_eq|].
  split; [eapply repr_frame; [|exact Hl]|eapply repr_frame; [|exact Hr]];
    intros p Hin; apply lookup_insert_ne; intros ->; set_solver.
Qed.

Lemma caddrs_fill f fs t :
  caddrs (f :: fs) ++ inorder t ≡ₚ caddrs fs ++ inorder (fill f t).
Proof.
  destruct f as [[] c a sib]; simpl; rewrite ?app_comm_cons, <- ?app_assoc; solve_Permutation.
Qed.

(** ** Moving the focus *)

Lemma tstate_perm h0 s fs t (l : list Z) :
  caddrs fs ++ inorder t ≡ₚ l → tstate h0 s fs t →
  NoDup l ∧ Forall valid l ∧ ∀ p, p ∉ l → rb_nodes s !! p = h0 !! p.
Proof.
  intros Hp [_ _ Hn Hv Ho]. split; [by rewrite <- Hp|]. split; [by rewrite <- Hp|].
  intros p Hin. apply Ho. by rewrite Hp.
Qed.

Lemma tstate_up h0 s f fs t : tstate h0 s (f :: fs) t → tstate h0 s fs (fill f t).
Proof.
  intros H. destruct (tstate_perm _ _ _ _ _ (caddrs_fill f fs t) H) as (Hn & Hv & Ho).
  destruct H as [Hc Ht _ _ _]. destruct f as [[] c a sib]; simpl in *;
    destruct Hc as (Ha & Hs & Hc); by split.
Qed.

Lemma tstate_down h0 s f fs t : tstate h0 s fs (fill f t) → tstate h0 s (f :: fs) t.
Proof.
  intros H. destruct (tstate_perm _ _ _ _ _ (symmetry (caddrs_fill f fs t)) H) as (Hn & Hv & Ho).
  destruct H as [Hc Ht _ _ _]. destruct f as [[] c a sib]; simpl in *;
    destruct Ht as (Ha & Hl & Hr); by split.
Qed.

Lemma tstate_plug h0 s fs t : tstate h0 s fs t ↔ tstate h0 s [] (plug fs t).
Proof.
  revert t. induction fs as [|f fs IH]; intros t; simpl; [done|]. rewrite <- IH.
  split; [apply tstate_up|apply tstate_down].
Qed.

(** ** Facts read off a focused node *)

Lemma cpar_ok h0 s fs t : tstate h0 s fs t → 0 ≤ cpar fs ∧ (4 | cpar fs).
Proof.
  intros [_ _ _ Hv _]. destruct fs as [|f fs]; simpl in *.
  - split; [lia|]. apply Z.divide_0_r.
  - apply list.Forall_cons in Hv as [[H1 H2] _]. split; [lia|done].
Qed.

Lemma tstate_valid h0 s fs c l a r : tstate h0 s fs (Node c l a r) → valid a.
Proof.
  intros [_ _ _ Hv _]. rewrite list.Forall_forall in Hv. apply Hv. simpl. set_solver.
Qed.

Lemma tstate_lookup h0 s fs c l a r :
  tstate h0 s fs (Node c l a r) → rb_nodes s !! a = Some (mkn (cpar fs) c (ptr l) (ptr r)).
Proof. by intros [_ [Ha _] _ _ _]. Qed.

Lemma ptr_nonzero h0 s fs t : tstate h0 s fs t → ctrue (ptr t) = match t with Leaf => false | _ => true end.
Proof.
  intros H. destruct t as [|c l a r]; [done|]. apply tstate_valid in H as [H _].
  apply ctrue_true. simpl. lia.
Qed.

Section Focus.
Context {h0 : gmap Z rb_node} {s : rb_state} {fs : list frame} {c : color} {l r : tree} {a : Z}.
Context (H : tstate h0 s fs (Node c l a r)).

Lemma wp_get_left Q : Q (ptr l) s → wp (get_left a) Q s.
Proof. intros HQ. by eapply wp_load; [by eapply tstate_lookup|]. Qed.

Lemma wp_get_right Q : Q (ptr r) s → wp (get_right a) Q s.
Proof. intros HQ. by eapply wp_load; [by eapply tstate_lookup|]. Qed.

Lemma wp_rb_parent Q : Q (cpar fs) s → wp (rb_parent a) Q s.
Proof.
  intros HQ. eapply wp_load; [by eapply tstate_lookup|]. simpl.
  destruct (cpar_ok _ _ _ _ H). by rewrite pc_parent_pack.
Qed.

Lemma wp_rb_color Q : Q (colZ c) s → wp (rb_color a) Q s.
Proof.
  intros HQ. eapply wp_load; [by eapply tstate_lookup|]. simpl.
  destruct (cpar_ok _ _ _ _ H). by rewrite pc_color_pack.
Qed.

Lemma wp_rb_is_red Q : Q (match c with Red => true | Black => false end) s → wp (rb_is_red a) Q s.
Proof. intros HQ. apply wp_bind, wp_rb_color, wp_ret. by destruct c. Qed.

Lemma wp_rb_is_black Q : Q (match c with Red => false | Black => true end) s → wp (rb_is_black a) Q s.
Proof. intros HQ. apply wp_bind, wp_rb_color, wp_ret. by destruct c. Qed.

(** Rewriting the packed word of the focused node to colour [c']. *)
Lemma wp_recolor f c' Q :
  f (cpar fs + colZ c) = cpar fs + colZ c' →
  (∀ s', rb_root s' = rb_root s → dom (rb_nodes s') = dom (rb_nodes s) →
     tstate h0 s' fs (Node c' l a r) → Q tt s') → wp (modify a (set_pc f)) Q s.
Proof.
  intros Hf HQ. eapply wp_modify; [by eapply tstate_lookup|].
  unfold set_pc, mkn; simpl. rewrite Hf. apply HQ; [done| |]; simpl.
  - rewrite dom_insert_lookup_L; [done|]. eexists. by eapply tstate_lookup.
  - destruct H as [Hc (Ha & Hl & Hr) Hn Hv Ho]. simpl in *.
    apply list.NoDup_app in Hn as Hn'. destruct Hn' as (N1 & N2 & N3).
    apply list.NoDup_app in N3 as (N3 & N4 & N5). apply list.NoDup_cons in N5 as [N5 N6].
    assert (Hne : ∀ p, p ≠ a → <[a:=RbNode (cpar fs + colZ c') (ptr r) (ptr l)]> (rb_nodes s) !! p
      = rb_nodes s !! p) by (intros p Hp; by apply lookup_insert_ne).
    split; simpl; try done.
    + eapply repr_ctx_frame; [| |exact Hc]; [done|]. intros p Hp. apply Hne. intros ->. set_solver.
    + split; [by rewrite lookup_insert_eq|].
      split; [eapply repr_frame; [|exact Hl]|eapply repr_frame; [|exact Hr]];
        intros p Hp; apply Hne; intros ->; set_solver.
    + intros p Hp. rewrite Hne; [by apply Ho|]. intros ->. set_solver.
Qed.

Lemma wp_rb_set_black Q :
  (∀ s', rb_root s' = rb_root s → dom (rb_nodes s') = dom (rb_nodes s) →
     tstate h0 s' fs (Node Black l a r) → Q tt s') → wp (rb_set_black a) Q s.
Proof. apply wp_recolor. destruct (cpar_ok _ _ _ _ H). by apply set1_pack. Qed.

Lemma wp_rb_set_red Q :
  (∀ s', rb_root s' = rb_root s → dom (rb_nodes s') = dom (rb_nodes s) →
     tstate h0 s' fs (Node Red l a r) → Q tt s') → wp (rb_set_red a) Q s.
Proof.
  apply wp_recolor. destruct (cpar_ok _ _ _ _ H). rewrite clear1_pack by done. simpl.
  unfold RB_RED. lia.
Qed.

Lemma wp_rb_set_color c' Q :
  (∀ s', rb_root s' = rb_root s → dom (rb_nodes s') = dom (rb_nodes s) →
     tstate h0 s' fs (Node c' l a r) → Q tt s') → wp (rb_set_color a (colZ c')) Q s.
Proof.
  apply wp_recolor. destruct (cpar_ok _ _ _ _ H). rewrite clear1_pack by done.
  rewrite Z.lor_comm. by apply lor_pack.
Qed.
End Focus.

(** ** Redirecting the pointer to the focused tree *)

Lemma relink_ctx s d c x sib fs p q :
  repr_ctx s (Fr d c x sib :: fs) p → NoDup (caddrs (Fr d c x sib :: fs)) →
  repr_ctx (RbState (rb_root s) (<[x := match d with
     | L => mkn (cpar fs) c q (ptr sib) | R => mkn (cpar fs) c (ptr sib) q end]> (rb_nodes s)))
    (Fr d c x sib :: fs) q.
Proof.
  simpl. intros (Hx & Hs & Hc) Hn. apply list.NoDup_cons in Hn as [Hn _].
  split; [by rewrite lookup_insert_eq|].
  split; [eapply repr_frame; [|exact Hs]|eapply repr_ctx_frame; [| |exact Hc]; [done|]];
    intros y Hy; apply lookup_insert_ne; intros ->; set_solver.
Qed.

(** The code that makes the parent of [p] (or the root) point to [q] instead. *)
Record relinkable (s : rb_state) (fs : list frame) (p : Z) : Prop := {
  rl_ctx : repr_ctx s fs p;
  rl_nodup : NoDup (caddrs fs);
  rl_valid : Forall valid (caddrs fs);
  rl_out : p ∉ caddrs fs;
  rl_nonnull : p ≠ 0 }.

Definition relinked (s : rb_state) (fs : list frame) (q : Z) (s' : rb_state) : Prop :=
  dom (rb_nodes s') = dom (rb_nodes s) ∧ repr_ctx s' fs q ∧
  ∀ x, x ∉ caddrs fs → rb_nodes s' !! x = rb_nodes s !! x.

Lemma sib_ne s d c x sib fs p : relinkable s (Fr d c x sib :: fs) p → p ≠ ptr sib.
Proof.
  intros [_ _ _ Hp Hp0] ->. destruct sib as [|cs ls as_ rs]; [done|].
  apply Hp. simpl. set_solver.
Qed.

Lemma relinked_at s d c x sib fs p q :
  repr_ctx s (Fr d c x sib :: fs) p → NoDup (caddrs (Fr d c x sib :: fs)) →
  relinked s (Fr d c x sib :: fs) q (RbState (rb_root s) (<[x := match d with
     | L => mkn (cpar fs) c q (ptr sib) | R => mkn (cpar fs) c (ptr sib) q end]> (rb_nodes s))).
Proof.
  intros Hc Hn. pose proof Hc as [Hx _]. split; simpl.
  - rewrite dom_insert_lookup_L; [done|]. by eexists.
  - split; [by apply (relink_ctx s d c x sib fs p q)|].
    intros y Hy. apply lookup_insert_ne. intros ->. apply Hy. simpl. set_solver.
Qed.

Lemma relink_frame_true s d c x sib fs p :
  relinkable s (Fr d c x sib :: fs) p → ctrue x = true.
Proof.
  intros [_ _ Hv _ _]. apply list.Forall_cons in Hv as [[Hx _] _]. apply ctrue_true.
  simpl in Hx. lia.
Qed.

Lemma wp_relink_l s fs p q Q :
  relinkable s fs p → (∀ s', relinked s fs q s' → Q tt s') →
  wp (if ctrue (cpar fs) then
        pl ← get_left (cpar fs);
        if p =? pl then set_left (cpar fs) q else set_right (cpar fs) q
      else set_root q) Q s.
Proof.
  intros HL HQ. destruct fs as [|[d c x sib] fs]; simpl.
  - apply wp_set_root, HQ. by split.
  - rewrite (relink_frame_true _ _ _ _ _ _ _ HL). pose proof (rl_ctx _ _ _ HL) as [Hx _].
    pose proof (sib_ne _ _ _ _ _ _ _ HL). pose proof (relinked_at _ _ _ _ _ _ _ q (rl_ctx _ _ _ HL) (rl_nodup _ _ _ HL)).
    apply wp_bind. eapply wp_load; [exact Hx|]. destruct d; simpl in *.
    + rewrite Z.eqb_refl. eapply wp_modify; [exact Hx|]. by apply HQ.
    + destruct (Z.eqb_spec p (ptr sib)); [congruence|].
      eapply wp_modify; [exact Hx|]. by apply HQ.
Qed.

Lemma wp_relink_l' s fs p q Q :
  relinkable s fs p → (∀ s', relinked s fs q s' → Q tt s') →
  wp (if ctrue (cpar fs) then
        pl ← get_left (cpar fs);
        if pl =? p then set_left (cpar fs) q else set_right (cpar fs) q
      else set_root q) Q s.
Proof.
  intros HL HQ. destruct (wp_relink_l s fs p q Q HL HQ) as (u & s' & E & H).
  exists u, s'. split; [|done]. rewrite <- E. destruct (ctrue (cpar fs)); [|done].
  unfold mbind, M_bind. destruct (get_left (cpar fs) s) as [[pl s1]|]; [|done]. simpl.
  by rewrite Z.eqb_sym.
Qed.

Lemma wp_relink_r s fs p q Q :
  relinkable s fs p → (∀ s', relinked s fs q s' → Q tt s') →
  wp (if ctrue (cpar fs) then
        pr ← get_right (cpar fs);
        if p =? pr then set_right (cpar fs) q else set_left (cpar fs) q
      else set_root q) Q s.
Proof.
  intros HL HQ. destruct fs as [|[d c x sib] fs]; simpl.
  - apply wp_set_root, HQ. by split.
  - rewrite (relink_frame_true _ _ _ _ _ _ _ HL). pose proof (rl_ctx _ _ _ HL) as [Hx _].
    pose proof (sib_ne _ _ _ _ _ _ _ HL). pose proof (relinked_at _ _ _ _ _ _ _ q (rl_ctx _ _ _ HL) (rl_nodup _ _ _ HL)).
    apply wp_bind. eapply wp_load; [exact Hx|]. destruct d; simpl in *.
    + destruct (Z.eqb_spec p (ptr sib)); [congruence|].
      eapply wp_modify; [exact Hx|]. by apply HQ.
    + rewrite Z.eqb_refl. eapply wp_modify; [exact Hx|]. by apply HQ.
Qed.

(** [if (child) rb_set_parent(child, p)] on the root of a represented tree. *)
Lemma wp_set_parent_opt s t par p Q :
  repr (rb_nodes s) par t → NoDup (inorder t) → Forall valid (inorder t) →
  0 ≤ par → (4 | par) → 0 ≤ p → (4 | p) →
  (∀ h', dom h' = dom (rb_nodes s) → repr h' p t →
     (∀ x, x ≠ ptr t ∨ t = Leaf → h' !! x = rb_nodes s !! x) → Q tt (RbState (rb_root s) h')) →
  wp (when (ctrue (ptr t)) (rb_set_parent (ptr t) p)) Q s.
Proof.
  intros Hr Hn Hv Hpar Hpar4 Hp Hp4 HQ. destruct t as [|c l a r]; simpl.
  - apply wp_ret. destruct s as [rt h]. by apply HQ.
  - assert (Ha : ctrue a = true).
    { rewrite list.Forall_forall in Hv. destruct (Hv a) as [? _]; [simpl; set_solver|].
      apply ctrue_true. lia. }
    rewrite Ha. simpl. pose proof Hr as [Hx _]. eapply wp_modify; [exact Hx|].
    unfold set_pc; simpl. rewrite land3_pack, lor_pack by done.
    apply HQ.
    + rewrite dom_insert_lookup_L; [done|]. by eexists.
    + by apply (repr_reparent _ par).
    + intros x [Hne|?]; [|done]. by apply lookup_insert_ne.
Qed.

(** ** Disjoint pieces of the heap

    While an operation rewires pointers the focused subtree is in pieces: single
    nodes with arbitrary fields, detached subtrees with the parent pointer their
    root still holds, and paths from the root of such a subtree to a hole in it.  [sep h0 s fs hole ps] says that the heap consists
    of the context [fs], whose hole points to [hole], of the disjoint pieces
    [ps], and of what [h0] has elsewhere. *)

Inductive piece :=
| PNode (a : Z) (n : rb_node)
| PTree (par : Z) (t : tree)
| PPath (par : Z) (ls : list frame) (hole : Z).

Definition path_par (par : Z) (ls : list frame) : Z :=
  match ls with [] => par | f :: _ => fad f end.

Fixpoint repr_path (h : gmap Z rb_node) (par : Z) (ls : list frame) (hole : Z) : Prop :=
  match ls with
  | [] => True
  | Fr d c a sib :: ls =>
      h !! a = Some (match d with
        | L => mkn (path_par par ls) c hole (ptr sib)
        | R => mkn (path_par par ls) c (ptr sib) hole end) ∧
      repr h a sib ∧ repr_path h par ls a
  end.

Definition paddrs (p : piece) : list Z :=
  match p with PNode a _ => [a] | PTree _ t => inorder t | PPath _ ls _ => caddrs ls end.
Definition pholds (h : gmap Z rb_node) (p : piece) : Prop :=
  match p with
  | PNode a n => h !! a = Some n
  | PTree par t => repr h par t
  | PPath par ls hole => repr_path h par ls hole
  end.
Definition addrs (ps : list piece) : list Z := ps ≫= paddrs.

Lemma repr_path_frame h h' par ls hole :
  (∀ p, p ∈ caddrs ls → h' !! p = h !! p) → repr_path h par ls hole → repr_path h' par ls hole.
Proof.
  revert hole. induction ls as [|[d c a sib] ls IH]; intros hole Hp; simpl; [done|].
  intros (Ha & Hs & Hc). simpl in Hp. split; [rewrite Hp; [done|set_solver]|].
  split; [eapply repr_frame; [|done]|apply IH; [|done]]; intros p Hin; apply Hp; set_solver.
Qed.

Lemma pholds_frame h h' p : (∀ x, x ∈ paddrs p → h' !! x = h !! x) → pholds h p → pholds h' p.
Proof.
  destruct p as [a n|par t|par ls hole]; simpl; intros Hx.
  - rewrite Hx; [done|set_solver].
  - by apply repr_frame.
  - by apply repr_path_frame.
Qed.

Lemma repr_plug h par ls t :
  repr h par (plug ls t) ↔ repr_path h par ls (ptr t) ∧ repr h (path_par par ls) t.
Proof.
  revert t. induction ls as [|[[] c a sib] ls IH]; intros t; simpl; [tauto|..];
    rewrite IH; simpl; tauto.
Qed.

Lemma caddrs_plug ls t : caddrs ls ++ inorder t ≡ₚ inorder (plug ls t).
Proof.
  revert t. induction ls as [|f ls IH]; intros t; [done|]. rewrite caddrs_fill. apply IH.
Qed.

Record sep (h0 : gmap Z rb_node) (s : rb_state) (fs : list frame) (hole : Z)
    (ps : list piece) : Prop := {
  sp_ctx : repr_ctx s fs hole;
  sp_all : Forall (pholds (rb_nodes s)) ps;
  sp_nodup : NoDup (caddrs fs ++ addrs ps);
  sp_valid : Forall valid (caddrs fs ++ addrs ps);
  sp_out : ∀ p, p ∉ caddrs fs ++ addrs ps → rb_nodes s !! p = h0 !! p }.

#[export] Instance addrs_perm : Proper ((≡ₚ) ==> (≡ₚ)) addrs.
Proof. intros ps ps' Hp. unfold addrs. by apply bind_Permutation. Qed.

Lemma sep_perm h0 s fs hole ps ps' : ps ≡ₚ ps' → sep h0 s fs hole ps → sep h0 s fs hole ps'.
Proof.
  intros Hp [Hc Ha Hn Hv Ho]. split; [done|by rewrite <- Hp|by rewrite <- Hp|by rewrite <- Hp|].
  intros x Hx. apply Ho. by rewrite Hp.
Qed.

Lemma sep_addrs h0 s fs hole ps ps' :
  addrs ps ≡ₚ addrs ps' → Forall (pholds (rb_nodes s)) ps' →
  sep h0 s fs hole ps → sep h0 s fs hole ps'.
Proof.
  intros Hp Hh [Hc Ha Hn Hv Ho]. split; [done|done|by rewrite <- Hp|by rewrite <- Hp|].
  intros x Hx. apply Ho. by rewrite Hp.
Qed.

Lemma addrs_cons p ps : addrs (p :: ps) = paddrs p ++ addrs ps.
Proof. done. Qed.

Lemma sep_unpack h0 s fs hole par c l a r ps :
  sep h0 s fs hole (PTree par (Node c l a r) :: ps) ↔
  sep h0 s fs hole (PNode a (mkn par c (ptr l) (ptr r)) :: PTree a l :: PTree a r :: ps).
Proof.
  assert (HP : addrs (PTree par (Node c l a r) :: ps) ≡ₚ
    addrs (PNode a (mkn par c (ptr l) (ptr r)) :: PTree a l :: PTree a r :: ps)).
  { rewrite !addrs_cons. simpl. rewrite <- !app_assoc. simpl. solve_Permutation. }
  split; intros H; (eapply sep_addrs; [| |exact H]); try done;
    pose proof (sp_all _ _ _ _ _ H) as HA; rewrite !list.Forall_cons in *; simpl in *; tauto.
Qed.

Lemma sep_leaf h0 s fs hole par ps :
  sep h0 s fs hole (PTree par Leaf :: ps) ↔ sep h0 s fs hole ps.
Proof.
  split; intros H; (eapply sep_addrs; [| |exact H]); try done;
    pose proof (sp_all _ _ _ _ _ H) as HA; rewrite ?list.Forall_cons in *; simpl in *; tauto.
Qed.

Lemma sep_plug h0 s fs hole par ls t ps :
  sep h0 s fs hole (PTree par (plug ls t) :: ps) ↔
  sep h0 s fs hole (PPath par ls (ptr t) :: PTree (path_par par ls) t :: ps).
Proof.
  assert (HP : addrs (PTree par (plug ls t) :: ps) ≡ₚ
    addrs (PPath par ls (ptr t) :: PTree (path_par par ls) t :: ps)).
  { rewrite !addrs_cons. simpl. by rewrite app_assoc, caddrs_plug. }
  split; intros H; (eapply sep_addrs; [| |exact H]); try done;
    pose proof (sp_all _ _ _ _ _ H) as HA; rewrite !list.Forall_cons in *;
    cbn [pholds] in *; rewrite repr_plug in *; tauto.
Qed.

Lemma sep_tstate h0 s fs t : tstate h0 s fs t ↔ sep h0 s fs (ptr t) [PTree (cpar fs) t].
Proof.
  split.
  - intros [Hc Ht Hn Hv Ho]. split; unfold addrs; simpl; rewrite ?app_nil_r; auto.
  - intros [Hc Ha Hn Hv Ho]. unfold addrs in *. simpl in *. rewrite ?app_nil_r in *.
    rewrite list.Forall_cons in Ha. destruct Ha as [Ha _]. by split.
Qed.

(** Taking a node of the rest of the heap as a piece, and giving it back. *)
Lemma sep_take h0 s fs hole ps a n :
  h0 !! a = Some n → valid a → a ∉ caddrs fs ++ addrs ps →
  sep h0 s fs hole ps → sep h0 s fs hole (PNode a n :: ps).
Proof.
  intros Ha Hva Hin [Hc Hh Hn Hv Ho].
  assert (HP : caddrs fs ++ addrs (PNode a n :: ps) ≡ₚ a :: caddrs fs ++ addrs ps).
  { rewrite addrs_cons. simpl. solve_Permutation. }
  split; [done| | | |].
  - constructor; [|done]. simpl. by rewrite Ho.
  - rewrite HP. by apply list.NoDup_cons.
  - rewrite HP. by apply list.Forall_cons.
  - intros x Hx. apply Ho. rewrite HP in Hx. set_solver.
Qed.

Lemma sep_drop h0 s fs hole ps a n :
  sep h0 s fs hole (PNode a n :: ps) → sep (<[a := n]> h0) s fs hole ps.
Proof.
  intros [Hc Hh Hn Hv Ho].
  assert (HP : caddrs fs ++ addrs (PNode a n :: ps) ≡ₚ a :: caddrs fs ++ addrs ps).
  { rewrite addrs_cons. simpl. solve_Permutation. }
  rewrite HP in Hn, Hv. apply list.NoDup_cons in Hn as [Hna Hn].
  apply list.Forall_cons in Hv as [_ Hv]. apply list.Forall_cons in Hh as [Ha Hh].
  split; try done. intros x Hx. destruct (decide (x = a)) as [->|Hne].
  - rewrite lookup_insert_eq. done.
  - rewrite lookup_insert_ne by done. apply Ho. rewrite HP. set_solver.
Qed.

(** A write inside one piece leaves the context and the other pieces alone. *)
Lemma sep_write h0 s fs hole p p' ps h' :
  sep h0 s fs hole (p :: ps) → paddrs p' = paddrs p → pholds h' p' →
  (∀ x, x ∉ paddrs p → h' !! x = rb_nodes s !! x) →
  sep h0 (RbState (rb_root s) h') fs hole (p' :: ps).
Proof.
  intros [Hc Hh Hn Hv Ho] HP Hp' Hx.
  assert (HE : addrs (p' :: ps) = addrs (p :: ps)) by (by rewrite !addrs_cons, HP).
  apply list.NoDup_app in Hn as Hn'. destruct Hn' as (_ & Hd & Hn2).
  rewrite addrs_cons in Hd, Hn2. apply list.NoDup_app in Hn2 as (_ & Hd2 & _).
  apply list.Forall_cons in Hh as [_ Hh].
  split; rewrite ?HE; simpl; try done.
  - eapply repr_ctx_frame; [| |exact Hc]; [done|]. intros x Hin. apply Hx. intros Hin'.
    apply (Hd x Hin). set_solver.
  - constructor; [done|]. rewrite list.Forall_forall in *. intros q Hq. specialize (Hh q Hq).
    assert (Hsub : ∀ x, x ∈ paddrs q → h' !! x = rb_nodes s !! x).
    { intros x Hin. apply Hx. intros Hin'. apply (Hd2 x Hin'). unfold addrs.
      apply list_elem_of_bind. by exists q. }
    by eapply pholds_frame.
  - intros x Hin. rewrite Hx; [by apply Ho|]. set_solver.
Qed.

Section Pieces.
Context {h0 : gmap Z rb_node} {s : rb_state} {fs : list frame} {hole : Z} {ps : list piece}.

Lemma wp_pload f a n Q :
  sep h0 s fs hole (PNode a n :: ps) → Q (f n) s → wp (load f a) Q s.
Proof.
  intros [_ Hh _ _ _] HQ. apply list.Forall_cons in Hh as [Ha _]. by eapply wp_load.
Qed.

Lemma wp_pmodify f a n Q :
  sep h0 s fs hole (PNode a n :: ps) →
  (∀ s', sep h0 s' fs hole (PNode a (f n) :: ps) → Q tt s') → wp (modify a f) Q s.
Proof.
  intros H HQ. pose proof (sp_all _ _ _ _ _ H) as Hh. apply list.Forall_cons in Hh as [Ha _].
  eapply wp_modify; [exact Ha|]. apply HQ. eapply sep_write; [exact H|done| |].
  - simpl. by rewrite lookup_insert_eq.
  - intros x Hx. apply lookup_insert_ne. intros ->. set_solver.
Qed.

Definition aligned (p : Z) : Prop := 0 ≤ p ∧ (4 | p).

(** Writing the parent field of a node piece. *)
Lemma wp_pset_parent a par c l r p Q :
  sep h0 s fs hole (PNode a (mkn par c l r) :: ps) → aligned par → aligned p →
  (∀ s', sep h0 s' fs hole (PNode a (mkn p c l r) :: ps) → Q tt s') →
  wp (rb_set_parent a p) Q s.
Proof.
  intros H [] [] HQ. eapply wp_pmodify; [exact H|]. unfold set_pc, mkn; simpl.
  rewrite land3_pack, lor_pack by done. exact HQ.
Qed.

Lemma sep_piece p : sep h0 s fs hole (p :: ps) → NoDup (paddrs p) ∧ Forall valid (paddrs p).
Proof.
  intros [_ _ Hn Hv _]. rewrite addrs_cons in *.
  apply list.NoDup_app in Hn as (_ & _ & Hn). apply list.NoDup_app in Hn as (Hn & _ & _).
  rewrite !Forall_app in Hv. tauto.
Qed.

(** [if (child) rb_set_parent(child, p)] on a detached subtree. *)
Lemma wp_preparent par t p Q :
  sep h0 s fs hole (PTree par t :: ps) → aligned par → aligned p →
  (∀ s', sep h0 s' fs hole (PTree p t :: ps) → Q tt s') →
  wp (when (ctrue (ptr t)) (rb_set_parent (ptr t) p)) Q s.
Proof.
  intros H [] [] HQ. destruct (sep_piece _ H) as [Hn Hv].
  pose proof (sp_all _ _ _ _ _ H) as Hh. apply list.Forall_cons in Hh as [Ht _].
  eapply wp_set_parent_opt; [exact Ht|done..|].
  intros h' _ Hr Hx. apply HQ. eapply sep_write; [exact H|done|done|].
  intros x Hin. apply Hx. destruct t as [|c l a r]; [by right|left]. intros ->.
  apply Hin. simpl. set_solver.
Qed.

(** Writing the pointer at the hole of a path that ends in a left edge. *)
Lemma wp_pset_left par c p sib ls hl q Q :
  sep h0 s fs hole (PPath par (Fr L c p sib :: ls) hl :: ps) →
  (∀ s', sep h0 s' fs hole (PPath par (Fr L c p sib :: ls) q :: ps) → Q tt s') →
  wp (set_left p q) Q s.
Proof.
  intros H HQ. pose proof (sp_all _ _ _ _ _ H) as Hh.
  apply list.Forall_cons in Hh as [(Hp & Hs & Hl) _]. destruct (sep_piece _ H) as [Hn _].
  apply list.NoDup_cons in Hn as [Hn _].
  eapply wp_modify; [exact Hp|]. apply HQ. eapply sep_write; [exact H|done| |].
  - simpl in *. split; [by rewrite lookup_insert_eq|].
    split; [eapply repr_frame; [|exact Hs]|eapply repr_path_frame; [|exact Hl]];
      intros x Hx; apply lookup_insert_ne; intros ->; set_solver.
  - intros x Hx. apply lookup_insert_ne. intros ->. simpl in Hx. set_solver.
Qed.

Lemma sep_relinkable n : sep h0 s fs hole (PNode hole n :: ps) → relinkable s fs hole.
Proof.
  intros H. destruct (sep_piece _ H) as [_ Hvp]. apply list.Forall_cons in Hvp as [[Hp _] _].
  simpl in Hp. destruct H as [Hc _ Hn Hv _]. rewrite Forall_app in Hv. apply list.NoDup_app in Hn as (Hn & Hd & _).
  split; [done|done|by destruct Hv| |lia].
  intros Hin. apply (Hd hole Hin). rewrite addrs_cons. simpl. set_solver.
Qed.

Lemma sep_relinked q s' :
  sep h0 s fs hole ps → relinked s fs q s' → sep h0 s' fs q ps.
Proof.
  intros [Hc Hh Hn Hv Ho] (_ & Hc' & Hx). apply list.NoDup_app in Hn as Hn'.
  destruct Hn' as (_ & Hd & _). split; try done.
  - rewrite list.Forall_forall in *. intros p Hp. specialize (Hh p Hp).
    assert (Hsub : ∀ x, x ∈ paddrs p → rb_nodes s' !! x = rb_nodes s !! x).
    { intros x Hin. apply Hx. intros Hin'. apply (Hd x Hin'). unfold addrs.
      apply list_elem_of_bind. by exists p. }
    by eapply pholds_frame.
  - intros x Hin. rewrite Hx; [by apply Ho|]. set_solver.
Qed.

Lemma sep_valid p n : sep h0 s fs hole (PNode p n :: ps) → valid p.
Proof. intros H. destruct (sep_piece _ H) as [_ Hv]. by apply list.Forall_cons in Hv as [? _]. Qed.

Lemma sep_cpar : sep h0 s fs hole ps → aligned (cpar fs).
Proof.
  intros [_ _ _ Hv _]. destruct fs as [|f fs']; simpl in *.
  - split; [lia|]. apply Z.divide_0_r.
  - apply list.Forall_cons in Hv as [[H1 H2] _]. split; [lia|done].
Qed.
End Pieces.

Lemma valid_aligned a : valid a → aligned a.
Proof. intros [? ?]. split; [lia|done]. Qed.

(** Reorder the pieces of the state in [H] to [l]. *)
Ltac arrange H l :=
  let H' := fresh in rename H into H';
  match type of H' with sep ?h ?s ?fs ?hole ?ps =>
    assert (H : sep h s fs hole l) by (eapply sep_perm; [|exact H']; simpl; solve_Permutation);
    clear H'
  end.

(** Bring piece number [k] of the state in [H] to the front. *)
Ltac front H k :=
  match type of H with sep _ _ _ _ ?ps =>
    let x := eval cbv [nth] in (nth k ps (PTree 0 Leaf)) in
    let rec rem n l := lazymatch n with
      | O => lazymatch l with _ :: ?l' => l' end
      | Datatypes.S ?n' => lazymatch l with ?y :: ?l' => let r := rem n' l' in constr:(y :: r) end
      end in
    let rest := rem k ps in arrange H (x :: rest)
  end.

(** Run the writes of the code on the piece at the front. *)
Ltac pload H := apply wp_bind, (wp_pload _ _ _ _ H).
Ltac pwrite H :=
  let s' := fresh "s" in
  (eapply wp_pmodify; [exact H|clear H; intros s' H; simpl in H]).
Ltac psetpar H :=
  let s' := fresh "s" in
  (first [eapply wp_pset_parent; [exact H|done..|clear H; intros s' H]
         |eapply wp_preparent; [exact H|done..|clear H; intros s' H]]).

Lemma wp_when_reload {h0 s fs hole ps} b n f c k Q :
  sep h0 s fs hole (PNode b n :: ps) → wp (when c (k (f n))) Q s →
  wp (when c (x ← load f b; k x)) Q s.
Proof.
  intros H HQ. destruct c; [|done]. simpl in *. apply wp_bind. by eapply wp_pload.
Qed.

Lemma sep_ne_hole {h0 s fs hole ps} p n : sep h0 s fs hole (PNode p n :: ps) → p ≠ 0.
Proof. intros H. apply sep_valid in H as [? _]. lia. Qed.

(** ** Rotations *)

Lemma wp_rotate_left h0 s fs ca A a cb B b C Q :
  tstate h0 s fs (Node ca A a (Node cb B b C)) →
  (∀ s', tstate h0 s' fs (Node cb (Node ca A a B) b C) → Q tt s') →
  wp (__rb_rotate_left a) Q s.
Proof.
  intros H HQ. unfold __rb_rotate_left.
  apply wp_bind, (wp_get_right H), wp_bind, (wp_rb_parent H).
  apply sep_tstate in H. pose proof (sep_cpar H) as Vp.
  apply sep_unpack in H. front H 2%nat. apply sep_unpack in H. simpl in H |- *.
  front H 3%nat. pose proof (valid_aligned _ (sep_valid _ _ H)) as Va.
  front H 1%nat. pose proof (valid_aligned _ (sep_valid _ _ H)) as Vb.
  pload H. front H 1%nat. apply wp_bind. pwrite H. front H 1%nat.
  apply wp_bind, (wp_when_reload _ _ _ _ _ _ H). front H 2%nat. psetpar H.
  apply wp_bind. front H 1%nat. pwrite H. apply wp_bind. psetpar H.
  apply wp_bind. front H 2%nat. eapply wp_relink_l; [exact (sep_relinkable _ H)|intros s5 HR].
  apply (sep_relinked b s5) in H; [clear HR|done]. psetpar H.
  arrange H [PNode a (mkn b ca (ptr A) (ptr B)); PTree a A; PTree a B;
             PNode b (mkn (cpar fs) cb a (ptr C)); PTree b C].
  apply <- sep_unpack in H. front H 1%nat. by apply HQ, sep_tstate, sep_unpack.
Qed.

Lemma wp_rotate_right h0 s fs ca A a cb B b C Q :
  tstate h0 s fs (Node cb (Node ca A a B) b C) →
  (∀ s', tstate h0 s' fs (Node ca A a (Node cb B b C)) → Q tt s') →
  wp (__rb_rotate_right b) Q s.
Proof.
  intros H HQ. unfold __rb_rotate_right.
  apply wp_bind, (wp_get_left H), wp_bind, (wp_rb_parent H).
  apply sep_tstate in H. pose proof (sep_cpar H) as Vp.
  apply sep_unpack in H. front H 1%nat. apply sep_unpack in H. simpl in H |- *.
  front H 3%nat. pose proof (valid_aligned _ (sep_valid _ _ H)) as Vb.
  front H 1%nat. pose proof (valid_aligned _ (sep_valid _ _ H)) as Va.
  pload H. front H 1%nat. apply wp_bind. pwrite H. front H 1%nat.
  apply wp_bind, (wp_when_reload _ _ _ _ _ _ H). front H 3%nat. psetpar H.
  apply wp_bind. front H 1%nat. pwrite H. apply wp_bind. psetpar H.
  apply wp_bind. front H 2%nat. eapply wp_relink_r; [exact (sep_relinkable _ H)|intros s5 HR].
  apply (sep_relinked a s5) in H; [clear HR|done]. psetpar H.
  arrange H [PNode b (mkn a cb (ptr B) (ptr C)); PTree b B; PTree b C;
             PNode a (mkn (cpar fs) ca (ptr A) b); PTree a A].
  apply <- sep_unpack in H.
  arrange H [PNode a (mkn (cpar fs) ca (ptr A) b); PTree a A; PTree a (Node cb B b C)].
  by apply HQ, sep_tstate, sep_unpack.
Qed.
