(* ===== verification/RbTreeFacts.v ===== *)
(** * Correctness of the red-black tree operations

    The colour and balance invariants, and the effect of insertion, deletion,
    traversal and replacement on the represented tree, proved with the rules of
    [RbTreeHeap]. *)
From stdpp Require Import gmap.
From S2P Require Import Prelude RbTree RbTreeHeap.
#[local] Open Scope Z_scope.

(** ** Red-black invariants *)

(** [rbt c n t]: [t] has root colour [c] and black height [n], and no red node of
    it has a red child. *)
Inductive rbt : color → nat → tree → Prop :=
| rbt_leaf : rbt Black 0 Leaf
| rbt_red n l a r : rbt Black n l → rbt Black n r → rbt Red n (Node Red l a r)
| rbt_black c1 c2 n l a r : rbt c1 n l → rbt c2 n r → rbt Black (S n) (Node Black l a r).

(** [rbc fs c n]: plugging a tree of colour [c] and height [n] into [fs] gives a
    red-black tree with a black root. *)
Inductive rbc : list frame → color → nat → Prop :=
| rbc_nil n : rbc [] Black n
| rbc_red d a sib fs n : rbt Black n sib → rbc fs Red n → rbc (Fr d Red a sib :: fs) Black n
| rbc_black d a sib fs n c c' :
    rbt c' n sib → rbc fs Black (S n) → rbc (Fr d Black a sib :: fs) c n.

(** The invariant of the library: black root, no red-red edge, balanced. *)
Definition rb_tree (t : tree) : Prop := ∃ n, rbt Black n t.

#[local] Hint Constructors rbt rbc : core.

Lemma plug_rbt fs c n t : rbc fs c n → rbt c n t → rb_tree (plug fs t).
Proof.
  intros Hc. revert t. induction Hc as [n|[] a sib fs n Hs Hc IH|[] a sib fs n c c' Hs Hc IH];
    intros t Ht; simpl; [by exists n|apply IH; cbn; eauto..].
Qed.

Lemma rbt_blacken c n l a r : rbt c n (Node c l a r) → rb_tree (Node Black l a r).
Proof. intros H. inversion H; subst; eexists; eauto. Qed.

Lemma rbt_color c n c' l a r : rbt c n (Node c' l a r) → c' = c.
Proof. by inversion 1. Qed.

Lemma plug_inorder fs t t' : inorder t = inorder t' → inorder (plug fs t) = inorder (plug fs t').
Proof.
  revert t t'. induction fs as [|[[] c a sib] fs IH]; intros t t' E; simpl; [done|..];
    apply IH; cbn; congruence.
Qed.

(** A red focus under a red parent has a black grandparent. *)
Lemma rbc_red_inv d p sib fs n :
  rbc (Fr d Red p sib :: fs) Black n →
  rbt Black n sib ∧ ∃ d' g u fs' cu, fs = Fr d' Black g u :: fs' ∧ rbt cu n u ∧ rbc fs' Black (S n).
Proof.
  inversion 1 as [|? ? ? ? ? Hs Hc|]; subst. split; [done|].
  inversion Hc as [|?|d' g u fs' n' c' cu Hu Hc']; subst. by eexists _, _, _, _, _.
Qed.

Definition tcolor (t : tree) : color := match t with Leaf => Black | Node c _ _ _ => c end.

Lemma rbt_tcolor c n t : rbt c n t → c = tcolor t.
Proof. by inversion 1. Qed.

Lemma wp_is_red_node {h0 s fs t} Q :
  tstate h0 s fs t → Q (match tcolor t with Red => true | Black => false end) s →
  wp (is_red_node (ptr t)) Q s.
Proof.
  intros H HQ. unfold is_red_node. rewrite (ptr_nonzero _ _ _ _ H). destruct t as [|c l a r].
  - by apply wp_ret.
  - by apply (wp_rb_is_red H).
Qed.

Lemma wp_is_black_or_null {h0 s fs t} Q :
  tstate h0 s fs t → Q (match tcolor t with Red => false | Black => true end) s →
  wp (is_black_or_null (ptr t)) Q s.
Proof.
  intros H HQ. unfold is_black_or_null. rewrite (ptr_nonzero _ _ _ _ H). destruct t as [|c l a r].
  - by apply wp_ret.
  - by apply (wp_rb_is_black H).
Qed.

(** The height of the context is bounded by the number of nodes of the heap. *)
Lemma caddrs_length fs : (length fs ≤ length (caddrs fs))%nat.
Proof. induction fs as [|f fs IH]; simpl; [lia|]. rewrite length_app. lia. Qed.

Lemma repr_dom h par t x : repr h par t → x ∈ inorder t → x ∈ dom h.
Proof.
  revert par. induction t as [|c l IHl a r IHr]; intros par; simpl; [set_solver|].
  intros (Ha & Hl & Hr) Hin. apply elem_of_app in Hin as [Hin|Hin]; [by eapply IHl|].
  apply elem_of_cons in Hin as [->|Hin]; [by eapply elem_of_dom_2|by eapply IHr].
Qed.

Lemma repr_ctx_dom s fs hole x : repr_ctx s fs hole → x ∈ caddrs fs → x ∈ dom (rb_nodes s).
Proof.
  revert hole. induction fs as [|[d c a sib] fs IH]; intros hole; simpl; [set_solver|].
  intros (Ha & Hl & Hr) Hin. apply elem_of_cons in Hin as [->|Hin]; [by eapply elem_of_dom_2|].
  apply elem_of_app in Hin as [Hin|Hin]; [by eapply repr_dom|by eapply IH].
Qed.

Lemma tstate_size h0 s fs t :
  tstate h0 s fs t → (length fs + length (inorder t) ≤ size (rb_nodes s))%nat.
Proof.
  intros [Hc Ht Hn Hv Ho]. rewrite <- size_dom.
  pose proof (caddrs_length fs). transitivity (length (caddrs fs ++ inorder t)).
  - rewrite length_app. lia.
  - rewrite <- (size_list_to_set (C := gset Z) _ Hn). apply subseteq_size.
    intros x Hx. apply elem_of_list_to_set, elem_of_app in Hx as [Hx|Hx];
      [by eapply repr_ctx_dom|by eapply repr_dom].
Qed.

(** ** Insertion *)

Definition ins_inv (h0 : gmap Z rb_node) (seq : list Z) (n : nat) (x : Z) (s : rb_state) : Prop :=
  ∃ fs l r k, n = length fs ∧ tstate h0 s fs (Node Red l x r) ∧
    rbt Red k (Node Red l x r) ∧ rbc fs Black k ∧ inorder (plug fs (Node Red l x r)) = seq.

Definition ins_done (h0 : gmap Z rb_node) (seq : list Z) (_ : unit) (s : rb_state) : Prop :=
  ∃ c k l a r, tstate h0 s [] (Node c l a r) ∧ rbt c k (Node c l a r) ∧ inorder (Node c l a r) = seq.

Lemma plug_node fs c l a r : ∃ c' l' a' r', plug fs (Node c l a r) = Node c' l' a' r'.
Proof.
  revert c l a r. induction fs as [|[[] c' a' sib] fs IH]; intros c l a r; simpl; [by eexists _, _, _, _|..];
    apply IH.
Qed.

Lemma ins_done_black h0 seq s d p sib fs l a r k :
  tstate h0 s (Fr d Black p sib :: fs) (Node Red l a r) →
  rbt Red k (Node Red l a r) → rbc (Fr d Black p sib :: fs) Black k →
  inorder (plug (Fr d Black p sib :: fs) (Node Red l a r)) = seq → ins_done h0 seq tt s.
Proof.
  intros H Ht Hc Hs. inversion Hc as [| |? ? ? ? ? ? c' Hsib Hc']; subst.
  destruct (plug_rbt (Fr d Black p sib :: fs) Red k (Node Red l a r)) as [m Hm]; [eauto|done|].
  apply tstate_plug in H. destruct (plug_node (Fr d Black p sib :: fs) Red l a r) as (c & l' & a' & r' & E).
  rewrite E in *. pose proof (rbt_color _ _ _ _ _ _ Hm) as ->. by exists Black, m, l', a', r'.
Qed.

Abbreviation ins_post h0 seq n :=
  (λ o s', match o with
     | inl x' => ∃ n', (n' < n)%nat ∧ ins_inv h0 seq n' x' s'
     | inr r => ins_done h0 seq r s' end).

Lemma ptr_ne h0 s fs c l a r : tstate h0 s fs (Node c l a r) → l ≠ Leaf ∨ r ≠ Leaf → ptr l ≠ ptr r.
Proof.
  intros [_ _ Hn Hv _] Hl E. apply list.NoDup_app in Hn as (_ & _ & Hn). simpl in Hn.
  apply list.NoDup_app in Hn as (_ & Hd & _). rewrite list.Forall_forall in Hv. simpl in Hv.
  destruct l as [|cl ll al rl], r as [|cr lr ar rr]; simpl in E.
  - naive_solver.
  - destruct (Hv ar) as [? _]; [simpl; set_solver|lia].
  - destruct (Hv al) as [? _]; [simpl; set_solver|lia].
  - apply (Hd al); simpl; set_solver.
Qed.

(** Move the focus to the parent, or down with a given frame. *)
Ltac up H := apply tstate_up in H; cbn [fill fdir fcol fad fsib] in H.
Ltac down H f := apply (tstate_down _ _ f) in H.
Ltac inord := simpl; repeat (rewrite <- app_assoc; simpl); done.
Ltac setb H := let s' := fresh "s" in
  apply (wp_rb_set_black H); clear H; intros s' _ _ H.
Ltac setr H := let s' := fresh "s" in
  apply (wp_rb_set_red H); clear H; intros s' _ _ H.
Ltac rotl H := let s' := fresh "s" in
  eapply wp_rotate_left; [exact H|clear H; intros s' H].
Ltac rotr H := let s' := fresh "s" in
  eapply wp_rotate_right; [exact H|clear H; intros s' H].

(** The final rotation at a black grandparent. *)
Lemma wp_insert_left_end h0 seq s x y z q w g u fs k :
  tstate h0 s (Fr L Black g u :: fs) (Node Red (Node Red x y z) q w) →
  rbt Red k (Node Red x y z) → rbt Black k w → rbt Black k u → rbc fs Black (S k) →
  inorder (plug fs (Node Black (Node Red (Node Red x y z) q w) g u)) = seq →
  wp (rb_set_black q;; rb_set_red g;; __rb_rotate_right g;; mret (inl y))
    (ins_post h0 seq (S (S (length fs)))) s.
Proof.
  intros H Ht Hw Hu Hc Hs. apply wp_bind. setb H. up H. apply wp_bind. setr H.
  apply wp_bind. rotr H. apply wp_ret. exists (S (length fs)). split; [lia|].
  down H (Fr L Black q (Node Red w g u)).
  eexists (Fr L Black q (Node Red w g u) :: fs), _, _, k. split; [done|]. split; [exact H|].
  split; [done|]. split; [eauto|]. rewrite <- Hs. simpl. apply plug_inorder. inord.
Qed.

Lemma wp_insert_left h0 seq s p g pl pr u fs a k cu cl cr :
  tstate h0 s (Fr L Black g u :: fs) (Node Red pl p pr) →
  (∀ Q, Q p s → wp (rb_parent a) Q s) →
  rbt cl k pl → rbt cr k pr → rbt cu k u → rbc fs Black (S k) →
  ((∃ l r, pl = Node Red l a r) ∧ cr = Black ∨ (∃ l r, pr = Node Red l a r) ∧ cl = Black) →
  inorder (plug fs (Node Black (Node Red pl p pr) g u)) = seq →
  wp (insert_step a) (ins_post h0 seq (S (S (length fs)))) s.
Proof.
  intros H Hpar Hl Hr Hu Hc Ha Hs. unfold insert_step.
  apply wp_bind, Hpar, wp_bind, (wp_is_red_node _ H), wp_bind, (wp_rb_parent H).
  up H. apply wp_bind, (wp_get_left H). cbn [cpar fad ptr]. rewrite Z.eqb_refl.
  apply wp_bind, (wp_get_right H). down H (Fr R Black g (Node Red pl p pr)).
  apply wp_bind, (wp_is_red_node _ H). rewrite <- (rbt_tcolor _ _ _ Hu).
  destruct cu.
  - inversion Hu as [|? ul b ur Hul Hur|]; subst. apply wp_bind. setb H. up H.
    down H (Fr L Black g (Node Black ul b ur)). apply wp_bind. setb H. up H.
    apply wp_bind. setr H. apply wp_ret. exists (length fs). split; [lia|].
    eexists fs, _, _, (S k). split; [done|]. split; [exact H|].
    split; [eauto 10|]. split; [done|]. by apply plug_inorder.
  - up H. down H (Fr L Black g u). apply wp_bind, (wp_get_right H).
    destruct Ha as [[(l & r & ->) ->]|[(l & r & ->) ->]].
    + pose proof (ptr_ne _ _ _ _ _ _ _ H ltac:(by left)) as Hne. simpl in Hne.
      destruct (Z.eqb_spec (ptr pr) a); [congruence|]. apply wp_bind, wp_ret.
      pose proof (rbt_color _ _ _ _ _ _ Hl) as <-. by eapply wp_insert_left_end.
    + cbn [ptr]. rewrite Z.eqb_refl. apply wp_bind, wp_bind. rotl H. apply wp_ret.
      inversion Hr; subst. eapply wp_insert_left_end; eauto. apply plug_inorder. inord.
Qed.

(** The mirror images. *)
Lemma wp_insert_right_end h0 seq s x y z q w g u fs k :
  tstate h0 s (Fr R Black g u :: fs) (Node Red w q (Node Red x y z)) →
  rbt Red k (Node Red x y z) → rbt Black k w → rbt Black k u → rbc fs Black (S k) →
  inorder (plug fs (Node Black u g (Node Red w q (Node Red x y z)))) = seq →
  wp (rb_set_black q;; rb_set_red g;; __rb_rotate_left g;; mret (inl y))
    (ins_post h0 seq (S (S (length fs)))) s.
Proof.
  intros H Ht Hw Hu Hc Hs. apply wp_bind. setb H. up H. apply wp_bind. setr H.
  apply wp_bind. rotl H. apply wp_ret. exists (S (length fs)). split; [lia|].
  down H (Fr R Black q (Node Red u g w)).
  eexists (Fr R Black q (Node Red u g w) :: fs), _, _, k. split; [done|]. split; [exact H|].
  split; [done|]. split; [eauto|]. rewrite <- Hs. simpl. apply plug_inorder. inord.
Qed.

Lemma wp_insert_right h0 seq s p g pl pr u fs a k cu cl cr :
  tstate h0 s (Fr R Black g u :: fs) (Node Red pl p pr) →
  (∀ Q, Q p s → wp (rb_parent a) Q s) →
  rbt cl k pl → rbt cr k pr → rbt cu k u → rbc fs Black (S k) →
  ((∃ l r, pl = Node Red l a r) ∧ cr = Black ∨ (∃ l r, pr = Node Red l a r) ∧ cl = Black) →
  inorder (plug fs (Node Black u g (Node Red pl p pr))) = seq →
  wp (insert_step a) (ins_post h0 seq (S (S (length fs)))) s.
Proof.
  intros H Hpar Hl Hr Hu Hc Ha Hs. unfold insert_step.
  apply wp_bind, Hpar, wp_bind, (wp_is_red_node _ H), wp_bind, (wp_rb_parent H).
  up H. apply wp_bind, (wp_get_left H). cbn [cpar fad ptr].
  pose proof (ptr_ne _ _ _ _ _ _ _ H ltac:(by right)) as Hug. simpl in Hug.
  destruct (Z.eqb_spec p (ptr u)); [congruence|].
  apply wp_bind, (wp_get_left H). down H (Fr L Black g (Node Red pl p pr)).
  apply wp_bind, (wp_is_red_node _ H). rewrite <- (rbt_tcolor _ _ _ Hu).
  destruct cu.
  - inversion Hu as [|? ul b ur Hul Hur|]; subst. apply wp_bind. setb H. up H.
    down H (Fr R Black g (Node Black ul b ur)). apply wp_bind. setb H. up H.
    apply wp_bind. setr H. apply wp_ret. exists (length fs). split; [lia|].
    eexists fs, _, _, (S k). split; [done|]. split; [exact H|].
    split; [eauto 10|]. split; [done|]. by apply plug_inorder.
  - up H. down H (Fr R Black g u). apply wp_bind, (wp_get_left H).
    destruct Ha as [[(l & r & ->) ->]|[(l & r & ->) ->]].
    + cbn [ptr]. rewrite Z.eqb_refl. apply wp_bind, wp_bind. rotr H. apply wp_ret.
      inversion Hl; subst. eapply wp_insert_right_end; eauto. apply plug_inorder. inord.
    + pose proof (ptr_ne _ _ _ _ _ _ _ H ltac:(by right)) as Hne. simpl in Hne.
      destruct (Z.eqb_spec (ptr pl) a); [congruence|]. apply wp_bind, wp_ret.
      pose proof (rbt_color _ _ _ _ _ _ Hr) as <-. by eapply wp_insert_right_end.
Qed.

Lemma wp_insert_step h0 seq n x s :
  ins_inv h0 seq n x s → wp (insert_step x) (ins_post h0 seq n) s.
Proof.
  intros (fs & l & r & k & -> & H & Ht & Hc & Hs).
  destruct fs as [|[d [] p sib] fs].
  - unfold insert_step. apply wp_bind, (wp_rb_parent H), wp_bind, wp_ret, wp_ret.
    by exists Red, k, l, x, r.
  - apply rbc_red_inv in Hc as (Hsib & d' & g & u & fs' & cu & -> & Hu & Hc).
    assert (Hpar : ∀ Q, Q p s → wp (rb_parent x) Q s) by (intros Q; apply (wp_rb_parent H)).
    up H. simpl in Hs |- *.
    destruct d, d'; cbn in H, Hs; [eapply wp_insert_left|eapply wp_insert_right
      |eapply wp_insert_left|eapply wp_insert_right]; eauto 10.
  - unfold insert_step. apply wp_bind, (wp_rb_parent H). apply tstate_up in H as H'.
    assert (Hp : p = ptr (fill (Fr d Black p sib) (Node Red l x r))) by (by destruct d).
    cbn [cpar fad]. rewrite Hp at 1. apply wp_bind, (wp_is_red_node _ H').
    destruct d; apply wp_ret; by eapply ins_done_black.
Qed.

Lemma wp_rb_insert_color h0 s fs l a r k Q :
  tstate h0 s fs (Node Red l a r) → rbt Red k (Node Red l a r) → rbc fs Black k →
  (∀ s' t, tstate h0 s' [] t → rb_tree t → inorder t = inorder (plug fs (Node Red l a r)) → Q tt s') →
  wp (rb_insert_color a) Q s.
Proof.
  intros H Ht Hc HQ. unfold rb_insert_color. apply wp_bind, wp_heap_size, wp_bind.
  eapply wp_loop with (n := length fs) (I := ins_inv h0 (inorder (plug fs (Node Red l a r))))
    (Q := λ _ s', wp (r ← get_root; rb_set_black r) Q s').
  - by exists fs, l, r, k.
  - pose proof (tstate_size _ _ _ _ H). lia.
  - intros n x s' HI. eapply wp_mono; [by apply wp_insert_step|].
    intros [x'|[]] s''; [done|]. intros (c & m & l' & b & r' & H' & Hm & Hs).
    apply wp_bind, wp_get_root. rewrite (ts_ctx _ _ _ _ H').
    setb H'. eapply HQ; [exact H'|by eapply rbt_blacken|done].
Qed.

(** ** Linking a new node *)

(** The slot that points to the focused tree. *)
Definition link_of (fs : list frame) : rb_link :=
  match fs with
  | [] => LinkRoot
  | Fr L _ p _ :: _ => LinkLeft p
  | Fr R _ p _ :: _ => LinkRight p
  end.

Lemma wp_set_link h0 s fs hole ps q Q :
  sep h0 s fs hole ps → (∀ s', sep h0 s' fs q ps → Q tt s') → wp (set_link (link_of fs) q) Q s.
Proof.
  intros H HQ. pose proof H as [Hc _ Hn _ _].
  apply list.NoDup_app in Hn as Hn'. destruct Hn' as [Hn' _].
  assert (HR : ∀ s', relinked s fs q s' → Q tt s').
  { intros s' HR. apply HQ. by eapply sep_relinked. }
  destruct fs as [|[d c p sib] fs]; simpl.
  - apply wp_set_root, HR. by split.
  - pose proof (relinked_at _ _ _ _ _ _ _ q Hc Hn'). pose proof Hc as [Hp _].
    destruct d; simpl; (eapply wp_modify; [exact Hp|]); by apply HR.
Qed.

Lemma wp_rb_link_node h0 s fs a n Q :
  tstate h0 s fs Leaf → h0 !! a = Some n → valid a → a ∉ caddrs fs →
  (∀ s', tstate h0 s' fs (Node Red Leaf a Leaf) → Q tt s') →
  wp (rb_link_node a (cpar fs) (link_of fs)) Q s.
Proof.
  intros H Ha Hva Hin HQ. apply sep_tstate in H. apply -> sep_leaf in H.
  apply (sep_take _ _ _ _ _ a n) in H; [|done|done|by rewrite app_nil_r].
  unfold rb_link_node. apply wp_bind. pwrite H. apply wp_bind. pwrite H. apply wp_bind. pwrite H.
  eapply wp_set_link; [exact H|]. clear H. intros s' H. apply HQ, sep_tstate, sep_unpack.
  change (ptr (Node Red Leaf a Leaf)) with a. change (ptr Leaf) with 0.
  replace (mkn (cpar fs) Red 0 0) with (RbNode (cpar fs) 0 0)
    by (unfold mkn, colZ, RB_RED; by rewrite Z.add_0_r).
  arrange H [PNode a (RbNode (cpar fs) 0 0)].
  eapply sep_addrs; [| |exact H]; [done|]. destruct H as [_ H _ _ _].
  rewrite !list.Forall_cons in *. simpl. tauto.
Qed.

(** ** The ends of a subtree *)

Lemma wp_leftmost {h0 s fs t} Q :
  tstate h0 s fs t → t ≠ Leaf →
  (∀ ls c y yr, t = plug ls (Node c Leaf y yr) → Forall (λ f, fdir f = L) ls → Q y s) →
  wp (leftmost (ptr t)) Q s.
Proof.
  intros H Ht HQ. unfold leftmost. apply wp_bind, wp_heap_size.
  eapply wp_loop with (n := length (inorder t)) (I := λ n x s', s' = s ∧ ∃ ls t',
    n = length (inorder t') ∧ x = ptr t' ∧ t' ≠ Leaf ∧ tstate h0 s (ls ++ fs) t' ∧
    t = plug ls t' ∧ Forall (λ f, fdir f = L) ls).
  - split; [done|]. by exists [], t.
  - pose proof (tstate_size _ _ _ _ H). lia.
  - clear H. intros n x s' (-> & ls & t' & -> & -> & Ht' & H & E & HL).
    destruct t' as [|c l y r]; [done|]. apply wp_bind, (wp_get_left H).
    down H (Fr L c y r). rewrite (ptr_nonzero _ _ _ _ H).
    destruct l as [|c' l' b r']; apply wp_ret; [by eapply HQ|].
    exists (length (inorder (Node c' l' b r'))). split; [simpl; rewrite ?length_app; simpl; rewrite ?length_app; simpl; lia|].
    split; [done|]. by exists (Fr L c y r :: ls), (Node c' l' b r'); auto 10.
Qed.

Lemma wp_rightmost {h0 s fs t} Q :
  tstate h0 s fs t → t ≠ Leaf →
  (∀ ls c y yl, t = plug ls (Node c yl y Leaf) → Forall (λ f, fdir f = R) ls → Q y s) →
  wp (rightmost (ptr t)) Q s.
Proof.
  intros H Ht HQ. unfold rightmost. apply wp_bind, wp_heap_size.
  eapply wp_loop with (n := length (inorder t)) (I := λ n x s', s' = s ∧ ∃ ls t',
    n = length (inorder t') ∧ x = ptr t' ∧ t' ≠ Leaf ∧ tstate h0 s (ls ++ fs) t' ∧
    t = plug ls t' ∧ Forall (λ f, fdir f = R) ls).
  - split; [done|]. by exists [], t.
  - pose proof (tstate_size _ _ _ _ H). lia.
  - clear H. intros n x s' (-> & ls & t' & -> & -> & Ht' & H & E & HL).
    destruct t' as [|c l y r]; [done|]. apply wp_bind, (wp_get_right H).
    down H (Fr R c y l). rewrite (ptr_nonzero _ _ _ _ H).
    destruct r as [|c' l' b r']; apply wp_ret; [by eapply HQ|].
    exists (length (inorder (Node c' l' b r'))). split; [simpl; rewrite ?length_app; simpl; rewrite ?length_app; simpl; lia|].
    split; [done|]. by exists (Fr R c y l :: ls), (Node c' l' b r'); auto 10.
Qed.

(** ** Unlinking a node *)

Lemma wp_erase_one h0 s fs c l a r t Q :
  tstate h0 s fs (Node c l a r) → (l = Leaf ∧ t = r ∨ r = Leaf ∧ t = l) →
  (∀ s', tstate (<[a := mkn (cpar fs) c (ptr l) (ptr r)]> h0) s' fs t →
     Q (ptr t, cpar fs, colZ c) s') →
  wp (erase_one a (ptr t)) Q s.
Proof.
  intros H Hlr HQ. unfold erase_one.
  apply wp_bind, (wp_rb_parent H), wp_bind, (wp_rb_color H).
  apply sep_tstate in H. pose proof (sep_cpar H) as Vp. apply sep_unpack in H.
  pose proof (valid_aligned _ (sep_valid _ _ H)) as Va.
  assert (H' : sep h0 s fs a [PTree a t; PNode a (mkn (cpar fs) c (ptr l) (ptr r))]).
  { destruct Hlr as [[-> ->]|[-> ->]].
    - front H 1%nat. apply -> sep_leaf in H. by front H 1%nat.
    - front H 2%nat. apply -> sep_leaf in H. by front H 1%nat. }
  clear H. rename H' into H.
  apply wp_bind. psetpar H. front H 1%nat.
  apply wp_bind. eapply wp_relink_l'; [exact (sep_relinkable _ H)|intros s2 HR].
  apply (sep_relinked (ptr t) s2) in H; [clear HR|done]. apply wp_ret, HQ.
  apply sep_tstate. by apply sep_drop in H.
Qed.

Section Pieces2.
Context {h0 : gmap Z rb_node} {s : rb_state} {fs : list frame} {hole : Z} {ps : list piece}.

Lemma wp_preparent' par t p Q :
  t ≠ Leaf → sep h0 s fs hole (PTree par t :: ps) → aligned par → aligned p →
  (∀ s', sep h0 s' fs hole (PTree p t :: ps) → Q tt s') → wp (rb_set_parent (ptr t) p) Q s.
Proof.
  intros Ht H Hpar Hp HQ. pose proof (wp_preparent _ _ _ Q H Hpar Hp HQ) as HW.
  destruct t as [|c l a r]; [done|]. apply sep_unpack in H.
  assert (ctrue a = true) as E by (apply ctrue_true; apply sep_valid in H as [? _]; lia).
  cbn [ptr] in HW. by rewrite E in HW.
Qed.

Lemma wp_pparent a par c l r Q :
  sep h0 s fs hole (PNode a (mkn par c l r) :: ps) → aligned par → Q par s → wp (rb_parent a) Q s.
Proof. intros H [] HQ. eapply wp_pload; [exact H|]. simpl. by rewrite pc_parent_pack. Qed.

Lemma wp_pcolor a par c l r Q :
  sep h0 s fs hole (PNode a (mkn par c l r) :: ps) → aligned par → Q (colZ c) s → wp (rb_color a) Q s.
Proof. intros H [] HQ. eapply wp_pload; [exact H|]. simpl. by rewrite pc_color_pack. Qed.

Lemma sep_path_aligned par c p sib ls d hl :
  sep h0 s fs hole (PPath par (Fr d c p sib :: ls) hl :: ps) → aligned p.
Proof.
  intros H. destruct (sep_piece _ H) as [_ Hv]. apply list.Forall_cons in Hv as [Hv _].
  by apply valid_aligned.
Qed.

Lemma sep_ne a n p q :
  sep h0 s fs hole (PNode a n :: p :: ps) → q ∈ paddrs p → q ≠ a.
Proof.
  intros [_ _ Hn _ _] Hin ->. rewrite !addrs_cons in Hn. apply list.NoDup_app in Hn as (_ & _ & Hn).
  simpl in Hn. apply list.NoDup_cons in Hn as [Hn _]. set_solver.
Qed.
End Pieces2.

Lemma plug_app fs fs' t : plug (fs ++ fs') t = plug fs' (plug fs t).
Proof. revert t. induction fs as [|f fs IH]; intros t; simpl; [done|]. apply IH. Qed.

Lemma tstate_app h0 s ls fs t : tstate h0 s (ls ++ fs) t ↔ tstate h0 s fs (plug ls t).
Proof. rewrite tstate_plug, plug_app, <- tstate_plug. done. Qed.

Lemma ptr_plug f ls t t' : ptr (plug (f :: ls) t) = ptr (plug (f :: ls) t').
Proof.
  revert f t t'. induction ls as [|g ls IH]; intros [[] c a sib] t t'; simpl; try done; apply IH.
Qed.

Lemma sep_path_nil h0 s fs hole par hl ps :
  sep h0 s fs hole (PPath par [] hl :: ps) ↔ sep h0 s fs hole ps.
Proof.
  split; intros H; (eapply sep_addrs; [| |exact H]); try done;
    pose proof (sp_all _ _ _ _ _ H) as HA; rewrite ?list.Forall_cons in *; simpl in *; tauto.
Qed.

Lemma plug_cons_node f ls t : plug (f :: ls) t ≠ Leaf.
Proof.
  revert f t. induction ls as [|g ls IH]; intros [[] c a sib] t; simpl; try done; apply IH.
Qed.

(** The end of the unlinking: the successor [y] takes over the fields of [a]. *)
Definition take_over {A} (a y : Z) (x : A) : M A :=
  opc ← load rb_parent_color a;
  modify y (set_pc (λ _, opc));;
  oldl ← get_left a; set_left y oldl;;
  oldl ← get_left a; rb_set_parent oldl y;;
  mret x.

Lemma wp_take_over {A} h0 s fs c l a rp y ypc yl t (x : A) Q :
  sep h0 s fs y [PNode y (RbNode ypc (ptr t) yl); PNode a (mkn (cpar fs) c (ptr l) rp);
                 PTree a l; PTree y t] →
  l ≠ Leaf →
  (∀ s', tstate (<[a := mkn (cpar fs) c (ptr l) rp]> h0) s' fs (Node c l y t) → Q x s') →
  wp (take_over a y x) Q s.
Proof.
  intros H Hl HQ. unfold take_over. pose proof (valid_aligned _ (sep_valid _ _ H)) as Vy.
  front H 1%nat. pose proof (valid_aligned _ (sep_valid _ _ H)) as Va.
  pload H. front H 1%nat. apply wp_bind. pwrite H. front H 1%nat. pload H. front H 1%nat.
  apply wp_bind. pwrite H. front H 1%nat. pload H. front H 2%nat. apply wp_bind.
  eapply wp_preparent'; [done|exact H|done|done|]. clear H. intros s' H.
  apply wp_ret, HQ, sep_tstate.
  arrange H [PNode a (mkn (cpar fs) c (ptr l) rp); PNode y (mkn (cpar fs) c (ptr l) (ptr t));
    PTree y l; PTree y t]. by apply sep_drop, sep_unpack in H.
Qed.

Lemma wp_erase_two h0 s fs c l a r Q :
  tstate h0 s fs (Node c l a r) → l ≠ Leaf → r ≠ Leaf →
  (∀ ls cy y yr s', r = plug ls (Node cy Leaf y yr) → Forall (λ f, fdir f = L) ls →
     tstate (<[a := mkn (cpar fs) c (ptr l) (ptr r)]> h0) s' (ls ++ Fr R c y l :: fs) yr →
     Q (ptr yr, cpar (ls ++ Fr R c y l :: fs), colZ cy) s') →
  wp (erase_two a) Q s.
Proof.
  intros H Hl Hr HQ. unfold erase_two. apply wp_bind, (wp_get_right H), wp_bind.
  down H (Fr R c a l). apply (wp_leftmost _ H); [done|]. up H.
  intros ls cy y yr Er HL. specialize (HQ ls cy y yr). 
  apply wp_bind, (wp_rb_parent H), wp_bind.
  apply sep_tstate in H. pose proof (sep_cpar H) as Vp. apply sep_unpack in H.
  pose proof (valid_aligned _ (sep_valid _ _ H)) as Va.
  eapply wp_relink_l'; [exact (sep_relinkable _ H)|intros s1 HR].
  apply (sep_relinked y s1) in H; [clear HR|done].
  front H 2%nat. rewrite Er in H at 1. apply sep_plug in H. front H 1%nat.
  apply sep_unpack in H. front H 1%nat. apply -> sep_leaf in H.
  pose proof (valid_aligned _ (sep_valid _ _ H)) as Vy.
  assert (Vpp : aligned (path_par a ls)).
  { destruct ls as [|[d cp p sib] ls]; [done|]. front H 2%nat. by apply sep_path_aligned in H. }
  pload H. apply wp_bind. eapply wp_pparent; [exact H|done|].
  apply wp_bind. eapply wp_pcolor; [exact H|done|]. 
  destruct ls as [|[d cp p sib] ls].
  - simpl path_par. rewrite Z.eqb_refl. apply wp_bind, wp_ret.
    front H 2%nat. apply -> sep_path_nil in H.
    arrange H [PNode y (mkn a cy 0 (ptr yr)); PNode a (mkn (cpar fs) c (ptr l) (ptr r));
      PTree a l; PTree y yr].
    eapply wp_take_over; [exact H|done|]. clear H. intros s2 H. apply HQ; [done|done|].
    by apply (tstate_down _ _ (Fr R c y l)).
  - pose proof HL as HL'. apply list.Forall_cons in HL' as [Hd _]. simpl in Hd. subst d. simpl path_par in *.
    arrange H [PNode a (mkn (cpar fs) c (ptr l) (ptr r)); PPath a (Fr L cp p sib :: ls) y;
      PNode y (mkn p cy 0 (ptr yr)); PTree y yr; PTree a l].
    assert (p ≠ a) as Hpa by (eapply sep_ne; [exact H|]; simpl; set_solver).
    destruct (Z.eqb_spec p a) as [|_]; [done|]. front H 3%nat. apply wp_bind, wp_bind.
    eapply wp_preparent; [exact H|done..|]. clear H. intros s2 H. front H 2%nat.
    apply wp_bind. eapply wp_pset_left; [exact H|]. clear H. intros s3 H.
    front H 2%nat. pload H. front H 3%nat. apply wp_bind. pwrite H. front H 1%nat. pload H.
    arrange H [PPath a (Fr L cp p sib :: ls) (ptr yr); PTree p yr;
      PNode y (mkn p cy 0 (ptr r)); PNode a (mkn (cpar fs) c (ptr l) (ptr r)); PTree a l].
    apply (sep_plug _ _ _ _ a (Fr L cp p sib :: ls) yr) in H.
    assert (Ep : ptr r = ptr (plug (Fr L cp p sib :: ls) yr)) by (rewrite Er; apply ptr_plug).
    simpl rb_right. rewrite Ep at 1. apply wp_bind.
    eapply wp_preparent'; [apply plug_cons_node|exact H|done|done|].
    clear H. intros s5 H. apply wp_ret.
    arrange H [PNode y (mkn p cy 0 (ptr r)); PNode a (mkn (cpar fs) c (ptr l) (ptr r));
      PTree a l; PTree y (plug (Fr L cp p sib :: ls) yr)]. rewrite Ep in H at 1.
    eapply wp_take_over; [exact H|done|]. clear H. intros s6 H. apply HQ; [done|done|].
    by apply tstate_app, (tstate_down _ _ (Fr R c y l)).
Qed.

(** ** Rebalancing after a deletion *)

(** The focused tree is one black node short: a red root is to be coloured black,
    a black one has height [k] where the context expects [S k]. *)
Definition deficit (k : nat) (t : tree) : Prop :=
  match t with
  | Node Red l a r => rbt Black (S k) (Node Black l a r)
  | _ => rbt Black k t
  end.

Definition er_inv (h0 : gmap Z rb_node) (seq : list Z) (n : nat) (x : Z * Z) (s : rb_state) : Prop :=
  ∃ fs t k, n = match tcolor t with Red => 0%nat | Black => length fs end ∧
    x = (ptr t, cpar fs) ∧ tstate h0 s fs t ∧ deficit k t ∧ rbc fs Black (S k) ∧
    inorder (plug fs t) = seq.

(** After the loop, colouring the returned node black gives the tree. *)
Definition er_done (h0 : gmap Z rb_node) (seq : list Z) (x : Z) (s : rb_state) : Prop :=
  wp (when (ctrue x) (rb_set_black x))
    (λ _ s', ∃ t, tstate h0 s' [] t ∧ rb_tree t ∧ inorder t = seq) s.

Abbreviation er_post h0 seq n :=
  (λ o s', match o with
     | inl x' => ∃ n', (n' < n)%nat ∧ er_inv h0 seq n' x' s'
     | inr r => er_done h0 seq r s' end).

Lemma er_done_root h0 seq s fs c k t :
  tstate h0 s fs t → rbt c k t → rbc fs c k → inorder (plug fs t) = seq →
  er_done h0 seq (rb_root s) s.
Proof.
  intros H Ht Hc Hs. apply tstate_plug in H. destruct (plug_rbt _ _ _ _ Hc Ht) as [m Hm].
  unfold er_done. rewrite (ts_ctx _ _ _ _ H). rewrite (ptr_nonzero _ _ _ _ H).
  destruct (plug fs t) as [|c' l a r] eqn:E; cbn [when ptr].
  - apply wp_ret. exists Leaf. split; [done|]. split; [by exists m|done].
  - setb H. exists (Node Black l a r). pose proof (rbt_color _ _ _ _ _ _ Hm) as ->.
    split; [done|]. split; [by exists m|done].
Qed.

(** What the context of a parent of colour [cp] accepts after the repair. *)
Definition par_ctx (fs : list frame) (cp : color) (k : nat) : Prop :=
  match cp with Red => rbc fs Red (S k) | Black => rbc fs Black (S (S k)) end.

Lemma rbc_red_black fs n : rbc fs Red n → rbc fs Black n.
Proof. inversion 1; subst; eauto. Qed.

(** Last rotation: the sibling has a red outer child. *)
Lemma wp_erase_end_left h0 seq s fs cp p A o B q C t k cA n :
  tstate h0 s (Fr L cp p (Node Black A o (Node Red B q C)) :: fs) t →
  rbt Black k t → rbt cA k A → rbt Black k B → rbt Black k C → par_ctx fs cp k →
  inorder (plug fs (Node cp t p (Node Black A o (Node Red B q C)))) = seq →
  wp (c ← rb_color p; rb_set_color o c;; rb_set_black p;;
      orr ← get_right o; rb_set_black orr;;
      __rb_rotate_left p;; r ← get_root; mret (inr r)) (er_post h0 seq n) s.
Proof.
  intros H Ht HA HB HC Hc Hs. up H. apply wp_bind, (wp_rb_color H), wp_bind.
  down H (Fr R cp p t). apply (wp_rb_set_color H). clear H. intros s1 _ _ H. up H.
  apply wp_bind. setb H. down H (Fr R Black p t). apply wp_bind, (wp_get_right H).
  down H (Fr R cp o A). apply wp_bind. setb H. up H. up H. apply wp_bind. rotl H.
  apply wp_bind, wp_get_root, wp_ret.
  eapply (er_done_root _ _ _ _ cp (match cp with Red => S k | Black => S (S k) end)); [exact H| | |].
  - destruct cp; eauto.
  - by destruct cp.
  - rewrite <- Hs. apply plug_inorder. inord.
Qed.

Lemma wp_erase_black_left h0 seq s fs cp p ol o orr t k c1 c2 n :
  tstate h0 s (Fr L cp p (Node Black ol o orr) :: fs) t →
  rbt Black k t → rbt c1 k ol → rbt c2 k orr → par_ctx fs cp k →
  inorder (plug fs (Node cp t p (Node Black ol o orr))) = seq →
  (match cp with Red => 0%nat | Black => length fs end < n)%nat →
  wp (ol ← get_left o; olb ← is_black_or_null ol;
      orr ← get_right o; orb ← is_black_or_null orr;
      if olb && orb then
        rb_set_red o;; parent' ← rb_parent p; mret (inl (p, parent'))
      else
        other ← (if (orb : bool) then
            ol ← get_left o;
            rb_set_black ol;; rb_set_red o;; __rb_rotate_right o;; get_right p
          else mret o);
        c ← rb_color p;
        rb_set_color other c;; rb_set_black p;;
        orr ← get_right other; rb_set_black orr;;
        __rb_rotate_left p;; r ← get_root; mret (inr r)) (er_post h0 seq n) s.
Proof.
  intros H Ht H1 H2 Hc Hs Hn. up H. down H (Fr R cp p t).
  apply wp_bind, (wp_get_left H). down H (Fr L Black o orr).
  apply wp_bind, (wp_is_black_or_null _ H). up H. 
  apply wp_bind, (wp_get_right H). down H (Fr R Black o ol).
  apply wp_bind, (wp_is_black_or_null _ H). up H. 
  rewrite <- (rbt_tcolor _ _ _ H1), <- (rbt_tcolor _ _ _ H2).
  destruct c1, c2; cbn [andb].
  - apply wp_bind, wp_ret. inversion H2 as [|? B q C HB HC|]; subst. up H.
    down H (Fr L cp p (Node Black ol o (Node Red B q C))). by eapply wp_erase_end_left.
  - inversion H1 as [|? B q C HB HC|]; subst. apply wp_bind, wp_bind, (wp_get_left H).
    down H (Fr L Black o orr). apply wp_bind. setb H. up H. apply wp_bind. setr H.
    apply wp_bind. rotr H. up H. apply (wp_get_right H).
    down H (Fr L cp p (Node Black B q (Node Red C o orr))).
    eapply wp_erase_end_left; [exact H|eauto..]. apply plug_inorder. inord.
  - apply wp_bind, wp_ret. inversion H2 as [|? B q C HB HC|]; subst. up H.
    down H (Fr L cp p (Node Black ol o (Node Red B q C))). by eapply wp_erase_end_left.
  - apply wp_bind. setr H. up H. apply wp_bind, (wp_rb_parent H), wp_ret.
    eexists. split; [exact Hn|].
    eexists fs, _, (match cp with Red => k | Black => S k end). split; [|split; [|split; [exact H|]]].
    + by destruct cp.
    + done.
    + destruct cp; simpl; ands; eauto 6 using rbc_red_black; rewrite <- Hs; by apply plug_inorder.
Qed.

Lemma deficit_black k t : deficit k t → tcolor t = Black → rbt Black k t.
Proof. by destruct t as [|[] l a r]. Qed.

(** The focus is not the root of the tree when its context is not empty. *)
Lemma root_ne h0 s f fs t : tstate h0 s (f :: fs) t → ptr t ≠ rb_root s.
Proof.
  intros H. pose proof H as H'. apply tstate_plug in H'. rewrite (ts_ctx _ _ _ _ H').
  destruct H as [_ _ Hn Hv _].
  assert (Hin : ptr (plug (f :: fs) t) ∈ caddrs (f :: fs)).
  { clear. revert f t. induction fs as [|g fs IH]; intros [d c a sib] t; [destruct d; simpl; set_solver|].
    change (plug ({| fdir := d; fcol := c; fad := a; fsib := sib |} :: g :: fs) t)
      with (plug (g :: fs) (fill (Fr d c a sib) t)).
    specialize (IH g (fill (Fr d c a sib) t)). simpl in *. set_solver. }
  intros E. rewrite <- E in Hin. destruct t as [|c l a r].
  - rewrite list.Forall_forall in Hv. destruct (Hv 0) as [? _]; [set_solver|lia].
  - apply list.NoDup_app in Hn as (_ & Hd & _). apply (Hd _ Hin). simpl. set_solver.
Qed.

Lemma wp_erase_left h0 seq s fs cp p sib t k cs n Q :
  tstate h0 s (Fr L cp p sib :: fs) t → rbt Black k t → rbt cs (S k) sib →
  (cp = Red → cs = Black) → par_ctx fs cp k →
  inorder (plug fs (Node cp t p sib)) = seq → n = S (length fs) →
  (∀ o s', er_post h0 seq n o s' → Q o s') →
  wp (other ← get_right p;
    ored ← rb_is_red other;
    other ← (if (ored : bool) then
        rb_set_black other;; rb_set_red p;; __rb_rotate_left p;; get_right p
      else mret other);
    ol ← get_left other; olb ← is_black_or_null ol;
    orr ← get_right other; orb ← is_black_or_null orr;
    if olb && orb then
      rb_set_red other;; parent' ← rb_parent p; mret (inl (p, parent'))
    else
      other ← (if (orb : bool) then
          ol ← get_left other;
          rb_set_black ol;; rb_set_red other;; __rb_rotate_right other;; get_right p
        else mret other);
      c ← rb_color p;
      rb_set_color other c;; rb_set_black p;;
      orr ← get_right other; rb_set_black orr;;
      __rb_rotate_left p;;
      r ← get_root; mret (inr r)) Q s.
Proof.
  intros H Ht Hsib Hcp Hc Hs -> HQ. up H. apply wp_bind, (wp_get_right H).
  inversion Hsib as [|? sl o sr Hl Hr|c1 c2 ? sl o sr Hl Hr]; subst.
  - destruct cp; [naive_solver|]. down H (Fr R Black p t).
    apply wp_bind, (wp_rb_is_red H), wp_bind, wp_bind. setb H. up H. apply wp_bind. setr H.
    apply wp_bind. rotl H. down H (Fr L Black o sr). apply (wp_get_right H).
    down H (Fr L Red p sl). inversion Hl as [| |c1 c2 ? ol o' orr Hol Hor]; subst.
    eapply wp_mono; [|exact HQ].
    eapply wp_erase_black_left; [exact H|done|done|done| | |simpl; lia].
    + simpl. simpl in Hc. eauto.
    + apply (plug_inorder fs). inord.
  - down H (Fr R cp p t). apply wp_bind, (wp_rb_is_red H), wp_bind, wp_ret. up H.
    down H (Fr L cp p (Node Black sl o sr)). eapply wp_mono; [|exact HQ].
    eapply wp_erase_black_left; [exact H|done|done|done|done|done|destruct cp; lia].
Qed.

(** The mirror images. *)
Lemma wp_erase_end_right h0 seq s fs cp p A o B q C t k cA n :
  tstate h0 s (Fr R cp p (Node Black (Node Red B q C) o A) :: fs) t →
  rbt Black k t → rbt cA k A → rbt Black k B → rbt Black k C → par_ctx fs cp k →
  inorder (plug fs (Node cp (Node Black (Node Red B q C) o A) p t)) = seq →
  wp (c ← rb_color p; rb_set_color o c;; rb_set_black p;;
      ol ← get_left o; rb_set_black ol;;
      __rb_rotate_right p;; r ← get_root; mret (inr r)) (er_post h0 seq n) s.
Proof.
  intros H Ht HA HB HC Hc Hs. up H. apply wp_bind, (wp_rb_color H), wp_bind.
  down H (Fr L cp p t). apply (wp_rb_set_color H). clear H. intros s1 _ _ H. up H.
  apply wp_bind. setb H. down H (Fr L Black p t). apply wp_bind, (wp_get_left H).
  down H (Fr L cp o A). apply wp_bind. setb H. up H. up H. apply wp_bind. rotr H.
  apply wp_bind, wp_get_root, wp_ret.
  eapply (er_done_root _ _ _ _ cp (match cp with Red => S k | Black => S (S k) end)); [exact H| | |].
  - destruct cp; eauto.
  - by destruct cp.
  - rewrite <- Hs. apply plug_inorder. inord.
Qed.

Lemma wp_erase_black_right h0 seq s fs cp p ol o orr t k c1 c2 n :
  tstate h0 s (Fr R cp p (Node Black ol o orr) :: fs) t →
  rbt Black k t → rbt c1 k ol → rbt c2 k orr → par_ctx fs cp k →
  inorder (plug fs (Node cp (Node Black ol o orr) p t)) = seq →
  (match cp with Red => 0%nat | Black => length fs end < n)%nat →
  wp (ol ← get_left o; olb ← is_black_or_null ol;
      orr ← get_right o; orb ← is_black_or_null orr;
      if olb && orb then
        rb_set_red o;; parent' ← rb_parent p; mret (inl (p, parent'))
      else
        other ← (if (olb : bool) then
            orr ← get_right o;
            rb_set_black orr;; rb_set_red o;; __rb_rotate_left o;; get_left p
          else mret o);
        c ← rb_color p;
        rb_set_color other c;; rb_set_black p;;
        ol ← get_left other; rb_set_black ol;;
        __rb_rotate_right p;; r ← get_root; mret (inr r)) (er_post h0 seq n) s.
Proof.
  intros H Ht H1 H2 Hc Hs Hn. up H. down H (Fr L cp p t).
  apply wp_bind, (wp_get_left H). down H (Fr L Black o orr).
  apply wp_bind, (wp_is_black_or_null _ H). up H. 
  apply wp_bind, (wp_get_right H). down H (Fr R Black o ol).
  apply wp_bind, (wp_is_black_or_null _ H). up H. 
  rewrite <- (rbt_tcolor _ _ _ H1), <- (rbt_tcolor _ _ _ H2).
  destruct c1, c2; cbn [andb].
  - apply wp_bind, wp_ret. inversion H1 as [|? B q C HB HC|]; subst. up H.
    down H (Fr R cp p (Node Black (Node Red B q C) o orr)). by eapply wp_erase_end_right.
  - apply wp_bind, wp_ret. inversion H1 as [|? B q C HB HC|]; subst. up H.
    down H (Fr R cp p (Node Black (Node Red B q C) o orr)). by eapply wp_erase_end_right.
  - inversion H2 as [|? B q C HB HC|]; subst. apply wp_bind, wp_bind, (wp_get_right H).
    down H (Fr R Black o ol). apply wp_bind. setb H. up H. apply wp_bind. setr H.
    apply wp_bind. rotl H. up H. apply (wp_get_left H).
    down H (Fr R cp p (Node Black (Node Red ol o B) q C)).
    eapply wp_erase_end_right; [exact H|eauto..]. apply plug_inorder. inord.
  - apply wp_bind. setr H. up H. apply wp_bind, (wp_rb_parent H), wp_ret.
    eexists. split; [exact Hn|].
    eexists fs, _, (match cp with Red => k | Black => S k end). split; [|split; [|split; [exact H|]]].
    + by destruct cp.
    + done.
    + destruct cp; simpl; ands; eauto 6 using rbc_red_black; rewrite <- Hs; by apply plug_inorder.
Qed.

Lemma wp_erase_right h0 seq s fs cp p sib t k cs n Q :
  tstate h0 s (Fr R cp p sib :: fs) t → rbt Black k t → rbt cs (S k) sib →
  (cp = Red → cs = Black) → par_ctx fs cp k →
  inorder (plug fs (Node cp sib p t)) = seq → n = S (length fs) →
  (∀ o s', er_post h0 seq n o s' → Q o s') →
  wp (other ← get_left p;
    ored ← rb_is_red other;
    other ← (if (ored : bool) then
        rb_set_black other;; rb_set_red p;; __rb_rotate_right p;; get_left p
      else mret other);
    ol ← get_left other; olb ← is_black_or_null ol;
    orr ← get_right other; orb ← is_black_or_null orr;
    if olb && orb then
      rb_set_red other;; parent' ← rb_parent p; mret (inl (p, parent'))
    else
      other ← (if (olb : bool) then
          orr ← get_right other;
          rb_set_black orr;; rb_set_red other;; __rb_rotate_left other;; get_left p
        else mret other);
      c ← rb_color p;
      rb_set_color other c;; rb_set_black p;;
      ol ← get_left other; rb_set_black ol;;
      __rb_rotate_right p;;
      r ← get_root; mret (inr r)) Q s.
Proof.
  intros H Ht Hsib Hcp Hc Hs -> HQ. up H. apply wp_bind, (wp_get_left H).
  inversion Hsib as [|? sl o sr Hl Hr|c1 c2 ? sl o sr Hl Hr]; subst.
  - destruct cp; [naive_solver|]. down H (Fr L Black p t).
    apply wp_bind, (wp_rb_is_red H), wp_bind, wp_bind. setb H. up H. apply wp_bind. setr H.
    apply wp_bind. rotr H. down H (Fr R Black o sl). apply (wp_get_left H).
    down H (Fr R Red p sr). inversion Hr as [| |c1 c2 ? ol o' orr Hol Hor]; subst.
    eapply wp_mono; [|exact HQ].
    eapply wp_erase_black_right; [exact H|done|done|done| | |simpl; lia].
    + simpl. simpl in Hc. eauto.
    + apply (plug_inorder fs). inord.
  - down H (Fr L cp p t). apply wp_bind, (wp_rb_is_red H), wp_bind, wp_ret. up H.
    down H (Fr R cp p (Node Black sl o sr)). eapply wp_mono; [|exact HQ].
    eapply wp_erase_black_right; [exact H|done|done|done|done|done|destruct cp; lia].
Qed.

Lemma rbc_cons_inv d cp p sib fs k :
  rbc (Fr d cp p sib :: fs) Black (S k) →
  ∃ cs, rbt cs (S k) sib ∧ (cp = Red → cs = Black) ∧ par_ctx fs cp k.
Proof. by inversion 1; subst; eexists; ands. Qed.

Lemma wp_erase_step h0 seq n x s :
  er_inv h0 seq n x s → wp (erase_step x) (er_post h0 seq n) s.
Proof.
  intros (fs & t & k & -> & -> & H & Hd & Hc & Hs). unfold erase_step.
  apply wp_bind, (wp_is_black_or_null _ H), wp_bind, wp_get_root.
  destruct (tcolor t) eqn:Ec.
  - (* red: to be coloured black *)
    destruct t as [|[] l a r]; try done. cbn [andb negb]. apply wp_ret.
    unfold er_done. rewrite (ptr_nonzero _ _ _ _ H). cbn [when ptr]. setb H.
    exists (plug fs (Node Black l a r)). split; [by rewrite <- tstate_plug|].
    split; [by eapply plug_rbt|]. rewrite <- Hs. by apply plug_inorder.
  - pose proof (deficit_black _ _ Hd Ec) as Ht. destruct fs as [|[d cp p sib] fs].
    + pose proof (ts_ctx _ _ _ _ H) as Hroot. simpl in Hroot. rewrite <- Hroot, Z.eqb_refl.
      apply wp_ret. by eapply (er_done_root _ _ _ [] Black k).
    + pose proof (root_ne _ _ _ _ _ H). destruct (Z.eqb_spec (ptr t) (rb_root s)); [done|].
      cbn [andb negb cpar fad]. destruct (rbc_cons_inv _ _ _ _ _ _ Hc) as (cs & Hsib & Hcs & Hpar).
      destruct d; simpl in Hs.
      * up H. apply wp_bind, (wp_get_left H). rewrite Z.eqb_refl. down H (Fr L cp p sib).
        by eapply wp_erase_left.
      * up H. apply wp_bind, (wp_get_left H).
        assert (sib ≠ Leaf) by (inversion Hsib; naive_solver).
        pose proof (ptr_ne _ _ _ _ _ _ _ H ltac:(by left)).
        destruct (Z.eqb_spec (ptr sib) (ptr t)); [done|]. down H (Fr R cp p sib).
        by eapply wp_erase_right.
Qed.

Lemma wp_rb_erase_color h0 s fs t k Q :
  tstate h0 s fs t → deficit k t → rbc fs Black (S k) →
  (∀ s' t', tstate h0 s' [] t' → rb_tree t' → inorder t' = inorder (plug fs t) → Q tt s') →
  wp (__rb_erase_color (ptr t) (cpar fs)) Q s.
Proof.
  intros H Hd Hc HQ. unfold __rb_erase_color. apply wp_bind, wp_heap_size, wp_bind.
  eapply wp_loop with (I := er_inv h0 (inorder (plug fs t))).
  - by exists fs, t, k.
  - pose proof (tstate_size _ _ _ _ H). destruct (tcolor t); lia.
  - intros n x s' HI. eapply wp_mono; [by apply wp_erase_step|].
    intros [x'|r] s''; [done|]. intros Hr. eapply wp_mono; [exact Hr|].
    intros [] s3 (t' & H' & Ht' & E). by eapply HQ.
Qed.

(** ** Deletion *)

(** The nodes before and after the focus. *)
Fixpoint lctx (fs : list frame) : list Z :=
  match fs with
  | [] => []
  | Fr L _ _ _ :: fs => lctx fs
  | Fr R _ a sib :: fs => lctx fs ++ inorder sib ++ [a]
  end.
Fixpoint rctx (fs : list frame) : list Z :=
  match fs with
  | [] => []
  | Fr L _ a sib :: fs => a :: inorder sib ++ rctx fs
  | Fr R _ _ _ :: fs => rctx fs
  end.

Lemma inorder_plug fs t : inorder (plug fs t) = lctx fs ++ inorder t ++ rctx fs.
Proof.
  revert t. induction fs as [|[[] c a sib] fs IH]; intros t; simpl; [by rewrite app_nil_r|..];
    rewrite IH; inord.
Qed.

Lemma lctx_left ls : Forall (λ f, fdir f = L) ls → lctx ls = [].
Proof. induction 1 as [|[[] c a sib] ls Hd _ IH]; simpl; done. Qed.
Lemma rctx_right ls : Forall (λ f, fdir f = R) ls → rctx ls = [].
Proof. induction 1 as [|[[] c a sib] ls Hd _ IH]; simpl; done. Qed.

Lemma plug_rbt_inv fs t : rb_tree (plug fs t) → ∃ c n, rbt c n t ∧ rbc fs c n.
Proof.
  revert t. induction fs as [|[d cf a sib] fs IH]; intros t; simpl.
  - intros [n Hn]. eauto.
  - intros (c & n & Ht & Hc)%IH. destruct d, cf; cbn in Ht; inversion Ht; subst; eauto.
Qed.

Lemma rbc_rename ls d c a b l fs c' n :
  rbc (ls ++ Fr d c a l :: fs) c' n → rbc (ls ++ Fr d c b l :: fs) c' n.
Proof.
  revert c' n. induction ls as [|f ls IH]; intros c' n; simpl; inversion 1; subst; eauto.
Qed.

Lemma rbt_deficit c k t : rbt c k t → deficit k t.
Proof. inversion 1; subst; simpl; eauto. Qed.

(** Rebalancing after unlinking [y], whose place its only child [t] has taken. *)
Lemma wp_erase_fix h0 s fs t cy l y r n Q :
  tstate h0 s fs t → rbt cy n (Node cy l y r) → rbc fs cy n → t = l ∨ t = r →
  (∀ s' t', tstate h0 s' [] t' → rb_tree t' → inorder t' = inorder (plug fs t) → Q tt s') →
  wp (when (colZ cy =? RB_BLACK) (__rb_erase_color (ptr t) (cpar fs))) Q s.
Proof.
  intros H Hy Hc Ht HQ. inversion Hy as [|? ? ? ? Hl Hr|c1 c2 ? ? ? ? Hl Hr]; subst; cbn.
  - apply wp_ret. apply tstate_plug in H. eapply HQ; [exact H| |done].
    eapply plug_rbt; [by apply rbc_red_black|]. by destruct Ht as [->| ->].
  - eapply wp_rb_erase_color; [exact H| |exact Hc|exact HQ].
    destruct Ht as [->| ->]; by eapply rbt_deficit.
Qed.

Lemma wp_rb_erase h0 s fs c l a r Q :
  tstate h0 s fs (Node c l a r) → rb_tree (plug fs (Node c l a r)) →
  (∀ s' t', tstate (<[a := mkn (cpar fs) c (ptr l) (ptr r)]> h0) s' [] t' → rb_tree t' →
     inorder t' = lctx fs ++ inorder l ++ inorder r ++ rctx fs → Q tt s') →
  wp (rb_erase a) Q s.
Proof.
  intros H Hrb HQ. unfold rb_erase. apply wp_bind, (wp_get_left H).
  pose proof H as Hl. down Hl (Fr L c a r). rewrite (ptr_nonzero _ _ _ _ Hl). clear Hl.
  destruct (plug_rbt_inv _ _ Hrb) as (c' & n & Ht & Hc). pose proof (rbt_color _ _ _ _ _ _ Ht) as <-.
  apply wp_bind. destruct l as [|cl ll al lr]; cbn [negb].
  - apply wp_bind, (wp_get_right H). eapply wp_erase_one; [exact H|by left|].
    clear H. intros s1 H. eapply wp_erase_fix; [exact H|exact Ht|exact Hc|by right|].
    intros s2 t' H2 Ht' E. eapply HQ; [done|done|]. by rewrite E, inorder_plug.
  - apply wp_bind, (wp_get_right H). pose proof H as Hr. down Hr (Fr R c a (Node cl ll al lr)).
    rewrite (ptr_nonzero _ _ _ _ Hr). clear Hr. destruct r as [|cr rl ar rr]; cbn [negb].
    + apply wp_bind, (wp_get_left H). eapply wp_erase_one; [exact H|by right|].
      clear H. intros s1 H. eapply wp_erase_fix; [exact H|exact Ht|exact Hc|by left|].
      intros s2 t' H2 Ht' E. eapply HQ; [done|done|]. rewrite E, inorder_plug. inord.
    + eapply wp_erase_two; [exact H|done|done|]. clear H. intros ls cy y yr s1 Er HL H.
      set (l := Node cl ll al lr) in *. rewrite Er in Hrb.
      change (plug fs (Node c l a (plug ls (Node cy Leaf y yr)))) with
        (plug (Fr R c a l :: fs) (plug ls (Node cy Leaf y yr))) in Hrb. rewrite <- plug_app in Hrb.
      destruct (plug_rbt_inv _ _ Hrb) as (c' & m & Hy & Hcy).
      pose proof (rbt_color _ _ _ _ _ _ Hy) as <-. apply rbc_rename with (b := y) in Hcy.
      eapply wp_erase_fix; [exact H|exact Hy|exact Hcy|by right|].
      intros s2 t' H2 Ht' E. eapply HQ; [done|done|]. rewrite E, Er, plug_app, inorder_plug.
      simpl. rewrite !inorder_plug, (lctx_left ls) by done. inord.
Qed.

(** ** Traversal *)

Lemma wp_rb_first h0 s t Q :
  tstate h0 s [] t → Q (default 0 (list.head (inorder t))) s → wp rb_first Q s.
Proof.
  intros H HQ. unfold rb_first. apply wp_bind, wp_get_root.
  pose proof (ts_ctx _ _ _ _ H) as Hroot. simpl in Hroot. rewrite Hroot, (ptr_nonzero _ _ _ _ H). destruct t as [|c l a r]; [by apply wp_ret|]. cbn [negb].
  apply (wp_leftmost _ H); [done|]. intros ls c' y yr E HL. revert HQ.
  rewrite E, inorder_plug, lctx_left by done. done.
Qed.

Lemma wp_rb_last h0 s t Q :
  tstate h0 s [] t → Q (default 0 (list.last (inorder t))) s → wp rb_last Q s.
Proof.
  intros H HQ. unfold rb_last. apply wp_bind, wp_get_root.
  pose proof (ts_ctx _ _ _ _ H) as Hroot. simpl in Hroot. rewrite Hroot, (ptr_nonzero _ _ _ _ H). destruct t as [|c l a r]; [by apply wp_ret|]. cbn [negb].
  apply (wp_rightmost _ H); [done|]. intros ls c' y yl E HL. revert HQ.
  rewrite E, inorder_plug, rctx_right by done. simpl. rewrite app_nil_r, app_assoc, last_snoc. done.
Qed.

Lemma cpar_ne h0 s fs c l a r : tstate h0 s fs (Node c l a r) → cpar fs ≠ a.
Proof.
  intros H E. pose proof (tstate_valid _ _ _ _ _ _ _ H) as [Ha _]. destruct H as [_ _ Hn _ _].
  destruct fs as [|f fs]; simpl in *; [lia|]. apply list.NoDup_cons in Hn as [Hn _].
  apply Hn. simpl. set_solver.
Qed.

Lemma wp_rb_next h0 s fs c l a r Q :
  tstate h0 s fs (Node c l a r) → Q (default 0 (list.head (inorder r ++ rctx fs))) s →
  wp (rb_next a) Q s.
Proof.
  intros H HQ. unfold rb_next. apply wp_bind, (wp_rb_parent H).
  pose proof (cpar_ne _ _ _ _ _ _ _ H). destruct (Z.eqb_spec (cpar fs) a); [done|].
  apply wp_bind, (wp_get_right H). pose proof H as Hr. down Hr (Fr R c a l).
  rewrite (ptr_nonzero _ _ _ _ Hr). destruct r as [|cr rl ar rr].
  - clear Hr. simpl in HQ. apply wp_bind, wp_heap_size.
    eapply wp_loop with (n := length fs) (I := λ n x s', s' = s ∧ ∃ fs' c' l' r',
      n = length fs' ∧ tstate h0 s fs' (Node c' l' x r') ∧ rctx fs' = rctx fs).
    + split; [done|]. by exists fs, c, l, Leaf.
    + pose proof (tstate_size _ _ _ _ H). lia.
    + clear H. intros n' x s' (-> & fs' & c' & l' & r' & -> & H & E).
      apply wp_bind, (wp_rb_parent H). destruct fs' as [|[d cp p sib] fs']; simpl.
      * apply wp_ret. by rewrite <- E in HQ.
      * apply tstate_up in H as Hp. destruct d; cbn in Hp;
          (assert (Ep : ctrue p = true) by exact (ptr_nonzero _ _ _ _ Hp)); rewrite Ep;
          apply wp_bind, (wp_get_right Hp).
        -- pose proof (ptr_ne _ _ _ _ _ _ _ Hp ltac:(by left)) as Hne. simpl in Hne.
           destruct (Z.eqb_spec x (ptr sib)); [done|]. apply wp_ret. by rewrite <- E in HQ.
        -- cbn [ptr]. rewrite Z.eqb_refl. apply wp_ret. exists (length fs'). split; [lia|].
           split; [done|]. by eexists fs', _, _, _.
  - apply (wp_leftmost _ Hr); [done|]. intros ls c' y yr E HL. revert HQ.
    rewrite E, inorder_plug, (lctx_left ls) by done. done.
Qed.

Lemma wp_rb_prev h0 s fs c l a r Q :
  tstate h0 s fs (Node c l a r) → Q (default 0 (list.last (lctx fs ++ inorder l))) s →
  wp (rb_prev a) Q s.
Proof.
  intros H HQ. unfold rb_prev. apply wp_bind, (wp_rb_parent H).
  pose proof (cpar_ne _ _ _ _ _ _ _ H). destruct (Z.eqb_spec (cpar fs) a); [done|].
  apply wp_bind, (wp_get_left H). pose proof H as Hl. down Hl (Fr L c a r).
  rewrite (ptr_nonzero _ _ _ _ Hl). destruct l as [|cr rl ar rr].
  - clear Hl. simpl in HQ. rewrite app_nil_r in HQ. apply wp_bind, wp_heap_size.
    eapply wp_loop with (n := length fs) (I := λ n x s', s' = s ∧ ∃ fs' c' l' r',
      n = length fs' ∧ tstate h0 s fs' (Node c' l' x r') ∧ lctx fs' = lctx fs).
    + split; [done|]. by exists fs, c, Leaf, r.
    + pose proof (tstate_size _ _ _ _ H). lia.
    + clear H. intros n' x s' (-> & fs' & c' & l' & r' & -> & H & E).
      apply wp_bind, (wp_rb_parent H). destruct fs' as [|[d cp p sib] fs']; simpl.
      * apply wp_ret. by rewrite <- E in HQ.
      * apply tstate_up in H as Hp. destruct d; cbn in Hp;
          (assert (Ep : ctrue p = true) by exact (ptr_nonzero _ _ _ _ Hp)); rewrite Ep;
          apply wp_bind, (wp_get_left Hp).
        -- cbn [ptr]. rewrite Z.eqb_refl. apply wp_ret. exists (length fs'). split; [lia|].
           split; [done|]. by eexists fs', _, _, _.
        -- pose proof (ptr_ne _ _ _ _ _ _ _ Hp ltac:(by right)) as Hne. simpl in Hne.
           destruct (Z.eqb_spec x (ptr sib)); [congruence|]. apply wp_ret. revert HQ.
           rewrite <- E. simpl. by rewrite app_assoc, last_snoc.
  - apply (wp_rightmost _ Hl); [done|]. intros ls c' y yl E HL. revert HQ.
    rewrite E, inorder_plug, (rctx_right ls) by done. simpl.
    by rewrite app_nil_r, !app_assoc, last_snoc.
Qed.

(** ** Replacement *)

Lemma wp_rb_replace_node h0 s fs c l a r b n Q :
  tstate h0 s fs (Node c l a r) → h0 !! b = Some n → valid b →
  b ∉ caddrs fs ++ inorder (Node c l a r) →
  (∀ s', tstate (<[a := mkn (cpar fs) c (ptr l) (ptr r)]> h0) s' fs (Node c l b r) → Q tt s') →
  wp (rb_replace_node a b) Q s.
Proof.
  intros H Hb Vb Hin HQ. unfold rb_replace_node. apply wp_bind, (wp_rb_parent H).
  apply sep_tstate in H. pose proof (sep_cpar H) as Vp.
  apply (sep_take _ _ _ _ _ b n) in H; [|done|done|by rewrite addrs_cons, app_nil_r].
  front H 1%nat. apply sep_unpack in H. pose proof (valid_aligned _ (sep_valid _ _ H)) as Va.
  apply valid_aligned in Vb.
  apply wp_bind. eapply wp_relink_l; [exact (sep_relinkable _ H)|intros s1 HR].
  apply (sep_relinked b s1) in H; [clear HR|done].
  pload H. apply wp_bind, (wp_when_reload _ _ _ _ _ _ H). front H 1%nat. psetpar H.
  front H 1%nat. pload H. apply wp_bind, (wp_when_reload _ _ _ _ _ _ H). front H 2%nat. psetpar H.
  front H 1%nat. apply wp_bind.
  eapply wp_load_node; [pose proof (sp_all _ _ _ _ _ H) as Hh; by apply list.Forall_cons in Hh as [Hh _]|].
  front H 3%nat. pwrite H.
  arrange H [PNode a (mkn (cpar fs) c (ptr l) (ptr r)); PNode b (mkn (cpar fs) c (ptr l) (ptr r));
    PTree b l; PTree b r].
  apply sep_drop, sep_unpack in H. by apply HQ, sep_tstate.
Qed.

(** ** The library as its callers see it *)

(** The heap of [s] holds the tree [t], rooted at [rb_root s]. *)
Definition rb_holds (s : rb_state) (t : tree) : Prop := tstate (rb_nodes s) s [] t.

Lemma tstate_holds h0 s t : tstate h0 s [] t → rb_holds s t.
Proof. intros [? ? ? ? _]. by split. Qed.

Lemma locate a t : a ∈ inorder t → ∃ fs c l r, t = plug fs (Node c l a r).
Proof.
  induction t as [|c l IHl b r IHr]; simpl; [set_solver|]. intros Hin.
  apply elem_of_app in Hin as [Hin|Hin]; [|apply elem_of_cons in Hin as [->|Hin]].
  - destruct (IHl Hin) as (fs & c' & l' & r' & ->). exists (fs ++ [Fr L c b r]), c', l', r'.
    by rewrite plug_app.
  - by exists [], c, l, r.
  - destruct (IHr Hin) as (fs & c' & l' & r' & ->). exists (fs ++ [Fr R c b l]), c', l', r'.
    by rewrite plug_app.
Qed.

(** A node of the tree splits the sequence in one way only. *)
Lemma NoDup_split (X Y X' Y' : list Z) a :
  NoDup (X ++ a :: Y) → X ++ a :: Y = X' ++ a :: Y' → X = X' ∧ Y = Y'.
Proof.
  revert X'. induction X as [|x X IH]; intros [|x' X'] Hn E; simplify_list_eq.
  - done.
  - apply list.NoDup_cons in Hn as [Hn _]. set_solver.
  - apply list.NoDup_cons in Hn as [Hn _]. set_solver.
  - apply list.NoDup_cons in Hn as [_ Hn]. destruct (IH X' Hn) as [-> ->]; done.
Qed.

Lemma focus_at s t X a Y :
  rb_holds s t → inorder t = X ++ a :: Y →
  ∃ fs c l r, t = plug fs (Node c l a r) ∧ tstate (rb_nodes s) s fs (Node c l a r) ∧
    X = lctx fs ++ inorder l ∧ Y = inorder r ++ rctx fs.
Proof.
  intros H E. destruct (locate a t) as (fs & c & l & r & ->); [rewrite E; set_solver|].
  exists fs, c, l, r. pose proof (ts_nodup _ _ _ _ H) as Hn. simpl in Hn.
  split; [done|]. split; [by apply tstate_plug|]. rewrite E in Hn. rewrite inorder_plug in E.
  simpl in E. rewrite <- app_assoc, app_assoc in E. simpl in E. symmetry in E.
  by apply NoDup_split in E.
Qed.

Lemma holds_same s s' a t n :
  rb_nodes s !! a = Some n → tstate (<[a := n]> (rb_nodes s)) s' [] t →
  rb_holds s' t ∧ ∀ p, p ∉ inorder t → rb_nodes s' !! p = rb_nodes s !! p.
Proof.
  intros Ha H. split; [by eapply tstate_holds|]. intros p Hp. rewrite (ts_out _ _ _ _ H) by done.
  destruct (decide (p = a)) as [->|]; [by rewrite lookup_insert_eq|by rewrite lookup_insert_ne].
Qed.

(** What [rb_link_node] followed by [rb_insert_color] promises. *)
Lemma insert_spec s fs a n :
  rb_holds s (plug fs Leaf) → rb_tree (plug fs Leaf) →
  rb_nodes s !! a = Some n → valid a → a ∉ inorder (plug fs Leaf) →
  ∃ s' t', (rb_link_node a (cpar fs) (link_of fs);; rb_insert_color a) s = Some (tt, s') ∧
    rb_holds s' t' ∧ rb_tree t' ∧ inorder t' = lctx fs ++ a :: rctx fs ∧
    ∀ p, p ∉ inorder t' → rb_nodes s' !! p = rb_nodes s !! p.
Proof.
  intros H Ht Ha Hv Hin. apply tstate_plug in H. destruct (plug_rbt_inv _ _ Ht) as (c & k & Hl & Hc).
  inversion Hl; subst.
  assert (Hin' : a ∉ caddrs fs).
  { rewrite <- caddrs_plug, app_nil_r in Hin. done. }
  enough (HW : wp (rb_link_node a (cpar fs) (link_of fs);; rb_insert_color a) (λ _ s', ∃ t',
    tstate (rb_nodes s) s' [] t' ∧ rb_tree t' ∧ inorder t' = lctx fs ++ a :: rctx fs) s).
  { destruct HW as ([] & s' & E & t' & H' & Ht' & Ei). exists s', t'.
    split; [done|]. split; [by eapply tstate_holds|]. split; [done|]. split; [done|].
    by apply (ts_out _ _ _ _ H'). }
  apply wp_bind. eapply wp_rb_link_node; [exact H|done..|]. intros s1 H1.
  eapply wp_rb_insert_color; [exact H1|eauto..|]. intros s2 t' H2 Ht' Ei. exists t'.
  split; [done|]. split; [done|]. rewrite Ei, inorder_plug. done.
Qed.

Lemma erase_spec s t X a Y :
  rb_holds s t → rb_tree t → inorder t = X ++ a :: Y →
  ∃ s' t', rb_erase a s = Some (tt, s') ∧ rb_holds s' t' ∧ rb_tree t' ∧ inorder t' = X ++ Y ∧
    ∀ p, p ∉ inorder t' → rb_nodes s' !! p = rb_nodes s !! p.
Proof.
  intros H Ht E. destruct (focus_at _ _ _ _ _ H E) as (fs & c & l & r & -> & H' & -> & ->).
  enough (HW : wp (rb_erase a) (λ _ s', ∃ t',
    tstate (<[a := mkn (cpar fs) c (ptr l) (ptr r)]> (rb_nodes s)) s' [] t' ∧ rb_tree t' ∧
    inorder t' = lctx fs ++ inorder l ++ inorder r ++ rctx fs) s).
  { destruct HW as ([] & s' & Es & t' & Hs & Ht' & Ei). exists s', t'.
    apply holds_same in Hs as [? ?]; [|by eapply tstate_lookup].
    split; [done|]. split; [done|]. split; [done|]. split; [|done]. rewrite Ei. inord. }
  eapply wp_rb_erase; [exact H'|done|]. eauto.
Qed.

(** ** Height *)

Fixpoint height (t : tree) : nat :=
  match t with Leaf => 0 | Node _ l _ r => S (Nat.max (height l) (height r)) end.

Lemma rbt_height c n t : rbt c n t → (height t ≤ 2 * n + match c with Red => 1 | Black => 0 end)%nat.
Proof. induction 1; simpl; [lia|lia|]. destruct c1, c2; lia. Qed.

Lemma rbt_size c n t : rbt c n t → (2 ^ n ≤ S (length (inorder t)))%nat.
Proof.
  induction 1 as [|n l a r _ IHl _ IHr|c1 c2 n l a r _ IHl _ IHr]; [done|..];
    cbn [inorder]; rewrite length_app, ?Nat.pow_succ_r'; cbn [length]; lia.
Qed.

Lemma rb_tree_height t : rb_tree t → (height t ≤ 2 * Nat.log2 (S (length (inorder t))))%nat.
Proof.
  intros [n Hn]. pose proof (rbt_height _ _ _ Hn) as Hh. cbn in Hh. pose proof (rbt_size _ _ _ Hn) as Hs.
  apply Nat.log2_le_mono in Hs. rewrite Nat.log2_pow2 in Hs by lia. lia.
Qed.

(** ** Main theorems *)

(** C1: Inserting a fresh node [a] at a free slot of a red-black tree with
    [rb_link_node] and [rb_insert_color] returns, without a dereference of a null or
    wild pointer; the new heap holds a red-black tree again (black root, no red node
    with a red child, equal black height on all paths), whose in-order sequence is
    the old one with [a] at the chosen place; memory outside the tree is untouched. *)
Theorem rb_insert_correct s fs a n :
  rb_holds s (plug fs Leaf) → rb_tree (plug fs Leaf) →
  rb_nodes s !! a = Some n → valid a → a ∉ inorder (plug fs Leaf) →
  ∃ s' t', (rb_link_node a (cpar fs) (link_of fs);; rb_insert_color a) s = Some (tt, s') ∧
    rb_holds s' t' ∧ rb_tree t' ∧ inorder t' = lctx fs ++ a :: rctx fs ∧
    ∀ p, p ∉ inorder t' → rb_nodes s' !! p = rb_nodes s !! p.
Proof. apply insert_spec. Qed.

(** C2: [rb_erase] of any node [a] of a red-black tree returns; the new heap
    holds a red-black tree whose in-order sequence is the old one without [a], and
    every node outside the new tree, [a] included, keeps its fields. *)
Theorem rb_erase_correct s t X a Y :
  rb_holds s t → rb_tree t → inorder t = X ++ a :: Y →
  ∃ s' t', rb_erase a s = Some (tt, s') ∧ rb_holds s' t' ∧ rb_tree t' ∧ inorder t' = X ++ Y ∧
    ∀ p, p ∉ inorder t' → rb_nodes s' !! p = rb_nodes s !! p.
Proof. apply erase_spec. Qed.

(** The traversal functions follow the in-order sequence: [rb_first] and
    [rb_last] return its ends ([NULL] for the empty tree), [rb_next] and [rb_prev]
    of a node return its neighbours ([NULL] at the ends), and none of them changes
    the heap. *)
Theorem rb_traversal s t :
  rb_holds s t →
  rb_first s = Some (default 0 (list.head (inorder t)), s) ∧
  rb_last s = Some (default 0 (list.last (inorder t)), s) ∧
  ∀ X a Y, inorder t = X ++ a :: Y →
    rb_next a s = Some (default 0 (list.head Y), s) ∧
    rb_prev a s = Some (default 0 (list.last X), s).
Proof.
  intros H.
  assert (HW : ∀ (m : M Z) v, (∀ Q : Z → rb_state → Prop, Q v s → wp m Q s) → m s = Some (v, s)).
  { intros m v Hm. destruct (Hm (λ x s', x = v ∧ s' = s)) as (x & s' & E & -> & ->); done. }
  split; [apply HW; intros Q; by apply wp_rb_first with (1 := H)|].
  split; [apply HW; intros Q; by apply wp_rb_last with (1 := H)|].
  intros X a Y E. destruct (focus_at _ _ _ _ _ H E) as (fs & c & l & r & -> & H' & -> & ->).
  split; apply HW; intros Q; [by apply wp_rb_next with (1 := H')|by apply wp_rb_prev with (1 := H')].
Qed.

(** [rb_replace_node victim new] puts the fresh node [new] at the place of
    [victim]: the in-order sequence changes at that place only, the red-black
    invariants hold again, and [victim] keeps its fields. *)
Theorem rb_replace_node_correct s t X a Y b n :
  rb_holds s t → rb_tree t → inorder t = X ++ a :: Y →
  rb_nodes s !! b = Some n → valid b → b ∉ inorder t →
  ∃ s' t', rb_replace_node a b s = Some (tt, s') ∧ rb_holds s' t' ∧ rb_tree t' ∧
    inorder t' = X ++ b :: Y ∧ ∀ p, p ∉ inorder t' → rb_nodes s' !! p = rb_nodes s !! p.
Proof.
  intros H Ht E Hb Vb Hin. destruct (focus_at _ _ _ _ _ H E) as (fs & c & l & r & -> & H' & -> & ->).
  assert (Hin' : b ∉ caddrs fs ++ inorder (Node c l a r)) by (by rewrite caddrs_plug).
  destruct (wp_rb_replace_node _ _ _ _ _ _ _ _ _ (λ _ s', tstate
    (<[a := mkn (cpar fs) c (ptr l) (ptr r)]> (rb_nodes s)) s' fs (Node c l b r)) H' Hb Vb Hin')
    as ([] & s' & Es & Hs); [auto|].
  apply tstate_plug, holds_same in Hs as [Hs Ho]; [|by eapply tstate_lookup].
  exists s', (plug fs (Node c l b r)). split; [done|]. split; [done|]. split; [|split; [|done]].
  - destruct (plug_rbt_inv _ _ Ht) as (c' & k & Hn & Hc). eapply plug_rbt; [exact Hc|].
    inversion Hn; subst; eauto.
  - rewrite inorder_plug. inord.
Qed.

(** Witnesses on a heap of four nodes. *)
Definition wit_heap : gmap Z rb_node :=
  list_to_map [(8, mkn 0 Black 4 12); (4, mkn 8 Black 0 0); (12, mkn 8 Black 0 0); (16, RbNode 7 7 7)].
Definition wit_tree : tree := Node Black (Node Black Leaf 4 Leaf) 8 (Node Black Leaf 12 Leaf).

Definition wit_state : rb_state := RbState 8 wit_heap.

#[local] Instance valid_dec a : Decision (valid a).
Proof.
  refine (cast_if (decide (0 < a ∧ a mod 4 = 0))); unfold valid; rewrite <- Z.mod_divide by lia; done.
Defined.

Ltac by_compute := apply (bool_decide_unpack _); vm_compute; exact I.

Lemma wit_holds : rb_holds wit_state wit_tree.
Proof. split; [reflexivity|repeat split|by_compute|by_compute|reflexivity]. Qed.
Lemma wit_rb : rb_tree wit_tree.
Proof. exists 2%nat. repeat econstructor. Qed.

Lemma rb_insert_correct_witness :
  ∃ s' t', (rb_link_node 16 12 (LinkRight 12);; rb_insert_color 16) wit_state = Some (tt, s') ∧
    rb_holds s' t' ∧ rb_tree t' ∧ inorder t' = [4; 8; 12; 16] ∧
    ∀ p, p ∉ inorder t' → rb_nodes s' !! p = rb_nodes wit_state !! p.
Proof.
  apply (rb_insert_correct wit_state [Fr R Black 12 Leaf; Fr R Black 8 (Node Black Leaf 4 Leaf)]
    16 (RbNode 7 7 7)).
  - exact wit_holds.
  - exact wit_rb.
  - vm_compute; reflexivity.
  - by_compute.
  - by_compute.
Defined.

Lemma rb_erase_correct_witness :
  ∃ s' t', rb_erase 8 wit_state = Some (tt, s') ∧ rb_holds s' t' ∧ rb_tree t' ∧
    inorder t' = [4; 12] ∧ ∀ p, p ∉ inorder t' → rb_nodes s' !! p = rb_nodes wit_state !! p.
Proof.
  apply (rb_erase_correct wit_state wit_tree [4] 8 [12]); [exact wit_holds|exact wit_rb|reflexivity].
Defined.

Lemma rb_traversal_witness :
  rb_first wit_state = Some (4, wit_state) ∧ rb_last wit_state = Some (12, wit_state) ∧
  rb_next 8 wit_state = Some (12, wit_state) ∧ rb_prev 4 wit_state = Some (0, wit_state).
Proof.
  destruct (rb_traversal wit_state wit_tree wit_holds) as (Hf & Hl & Hn).
  split; [exact Hf|]. split; [exact Hl|].
  split; [exact (proj1 (Hn [4] 8 [12] eq_refl))|exact (proj2 (Hn [] 4 [8; 12] eq_refl))].
Defined.

Lemma rb_replace_node_correct_witness :
  ∃ s' t', rb_replace_node 8 16 wit_state = Some (tt, s') ∧ rb_holds s' t' ∧ rb_tree t' ∧
    inorder t' = [4; 16; 12] ∧ ∀ p, p ∉ inorder t' → rb_nodes s' !! p = rb_nodes wit_state !! p.
Proof.
  apply (rb_replace_node_correct wit_state wit_tree [4] 8 [12] 16 (RbNode 7 7 7)).
  - exact wit_holds.
  - exact wit_rb.
  - reflexivity.
  - vm_compute; reflexivity.
  - by_compute.
  - by_compute.
Defined.
