(* ===== verification/RbTreeClient.v ===== *)
(** * An ordered set on the red-black tree

    The use that [include/linux/rbtree.h] describes: the caller searches the slot for a new
    node itself, by comparing keys on the way down, and then calls [rb_link_node] and
    [rb_insert_color]; it removes nodes with [rb_erase] and walks them with [rb_first] and
    [rb_next].  Any sequence of these calls runs to its end and is the same sequence on a list
    sorted by key. *)

From stdpp Require Import gmap sorting.
From S2P Require Import Prelude RbTree RbTreeHeap RbTreeFacts.
#[local] Open Scope Z_scope.

Definition get_link (l : rb_link) : M Z :=
  match l with LinkRoot => get_root | LinkLeft p => get_left p | LinkRight p => get_right p end.

Inductive set_op := Add (a : Z) | Del (a : Z) | Walk.

Section Client.
Context (key : Z → Z).

(** The way down to a free slot; nodes with the same key stay in the order of insertion. *)
Definition slot_step (k : Z) (st : Z * rb_link) : M (Z * rb_link + Z * rb_link) :=
  let '(parent, link) := st in
  cur ← get_link link;
  if cur =? 0 then mret (inr (parent, link))
  else mret (inl (cur, if k <? key cur then LinkLeft cur else LinkRight cur)).

Definition find_slot (k : Z) : M (Z * rb_link) :=
  n ← heap_size; loopM (S n) (slot_step k) (0, LinkRoot).

Definition walk_step (st : Z * list Z) : M (Z * list Z + list Z) :=
  let '(a, l) := st in
  if a =? 0 then mret (inr l) else b ← rb_next a; mret (inl (b, l ++ [a])).

Definition do_set_op (op : set_op) : M (list Z) :=
  match op with
  | Add a => '(parent, link) ← find_slot (key a); rb_link_node a parent link;; rb_insert_color a;; mret []
  | Del a => rb_erase a;; mret []
  | Walk => n ← heap_size; a ← rb_first; loopM (S n) walk_step (a, [])
  end.

Fixpoint do_set_ops (ops : list set_op) : M (list (list Z)) :=
  match ops with
  | [] => mret []
  | op :: ops => r ← do_set_op op; rs ← do_set_ops ops; mret (r :: rs)
  end.

(** The same on a sorted list. *)
Fixpoint place (a : Z) (l : list Z) : list Z :=
  match l with [] => [a] | b :: l' => if key a <? key b then a :: l else b :: place a l' end.

Definition spec_set_op (l : list Z) (op : set_op) : list Z * list Z :=
  match op with
  | Add a => (place a l, [])
  | Del a => (filter (λ b, b ≠ a) l, [])
  | Walk => (l, l)
  end.

Fixpoint spec_set_ops (l : list Z) (ops : list set_op) : list Z * list (list Z) :=
  match ops with
  | [] => (l, [])
  | op :: ops => let '(l, r) := spec_set_op l op in let '(l, rs) := spec_set_ops l ops in (l, r :: rs)
  end.

(** A caller adds nodes of its own that are not in the tree and deletes those that are. *)
Fixpoint set_ops_ok (D : gset Z) (l : list Z) (ops : list set_op) : Prop :=
  match ops with
  | [] => True
  | op :: ops =>
      match op with Add a => a ∈ D ∧ valid a ∧ a ∉ l | Del a => a ∈ l | Walk => True end ∧
      set_ops_ok D (spec_set_op l op).1 ops
  end.

(** ** The search *)

Abbreviation sorted := (StronglySorted (λ a b, key a ≤ key b)).

Lemma wp_get_link h0 s fs t Q : tstate h0 s fs t → Q (ptr t) s → wp (get_link (link_of fs)) Q s.
Proof.
  intros H HQ. pose proof (ts_ctx _ _ _ _ H) as Hc. destruct fs as [|[[] c p sib] fs]; cbn in *.
  - apply wp_get_root. by rewrite Hc.
  - destruct Hc as [Hp _]. by eapply wp_load.
  - destruct Hc as [Hp _]. by eapply wp_load.
Qed.

Lemma sorted_app l a r : sorted (l ++ a :: r) → Forall (λ b, key b ≤ key a) l ∧ Forall (λ b, key a ≤ key b) r.
Proof.
  intros H. split.
  - induction l as [|b l IH]; [constructor|]. cbn in H. apply StronglySorted_inv in H as [H Hb].
    apply Forall_app in Hb as [_ Hb]. apply list.Forall_cons in Hb as [Hb _]. constructor; auto.
  - induction l as [|b l IH]; cbn in H; apply StronglySorted_inv in H as [H Hb]; auto.
Qed.

Lemma wp_find_slot s t k Q :
  rb_holds s t → sorted (inorder t) →
  (∀ fs, t = plug fs Leaf → Forall (λ b, key b ≤ k) (lctx fs) → Forall (λ b, k < key b) (rctx fs) → Q (cpar fs, link_of fs) s) →
  wp (find_slot k) Q s.
Proof.
  intros H Hs HQ. unfold find_slot. apply wp_bind, wp_heap_size.
  apply (wp_loop (λ n st s', s' = s ∧ ∃ fs sub, t = plug fs sub ∧ n = length (inorder sub) ∧ st = (cpar fs, link_of fs) ∧
    tstate (rb_nodes s) s fs sub ∧ Forall (λ b, key b ≤ k) (lctx fs) ∧ Forall (λ b, k < key b) (rctx fs)) _ _ _ (length (inorder t))).
  - split; [done|]. exists [], t. ands; try done; constructor.
  - pose proof (tstate_size _ _ _ _ H). cbn in *. lia.
  - intros n st s' (-> & fs & sub & E & -> & -> & Hsub & Hl & Hr). cbn [slot_step]. apply wp_bind.
    eapply wp_get_link; [exact Hsub|]. pose proof (ptr_nonzero _ _ _ _ Hsub) as Hp.
    destruct sub as [|c l a r]; cbn [ptr].
    { apply wp_ret. by apply HQ. }
    apply ctrue_true in Hp. cbn [ptr] in Hp. destruct (Z.eqb_spec a 0); [done|]. apply wp_ret.
    assert (Hsa : sorted ((lctx fs ++ inorder l) ++ a :: inorder r ++ rctx fs)).
    { rewrite E, inorder_plug in Hs. cbn [inorder] in Hs. by rewrite <- !app_assoc in *. }
    apply sorted_app in Hsa as [Hla Hra]. apply Forall_app in Hla as [_ Hla]. apply Forall_app in Hra as [Hra _].
    destruct (Z.ltb_spec k (key a)).
    + exists (length (inorder l)). split; [cbn [inorder]; rewrite length_app; cbn [length]; lia|]. split; [done|].
      exists (Fr L c a r :: fs), l. ands; try done; [by apply (tstate_down _ _ (Fr L c a r))|].
      cbn [rctx]. constructor; [done|]. apply Forall_app. split; [|done].
      eapply List.Forall_impl; [|exact Hra]. cbn. lia.
    + exists (length (inorder r)). split; [cbn [inorder]; rewrite length_app; cbn [length]; lia|]. split; [done|].
      exists (Fr R c a l :: fs), r. ands; try done; [by apply (tstate_down _ _ (Fr R c a l))|].
      cbn [lctx]. apply Forall_app. split; [done|]. apply Forall_app. split; [|by repeat constructor].
      eapply List.Forall_impl; [|exact Hla]. cbn. lia.
Qed.

(** ** The operations *)

Lemma place_app a l r :
  Forall (λ b, key b ≤ key a) l → Forall (λ b, key a < key b) r → place a (l ++ r) = l ++ a :: r.
Proof.
  intros Hl Hr. induction Hl as [|b l Hb Hl IH]; cbn.
  - destruct Hr as [|b r Hb _]; [done|]. cbn. by destruct (Z.ltb_spec (key a) (key b)); [|lia].
  - destruct (Z.ltb_spec (key a) (key b)); [lia|]. by rewrite IH.
Qed.

Lemma place_sorted a l : sorted l → sorted (place a l).
Proof.
  induction 1 as [|b l Hl IH Hb]; cbn; [by repeat constructor|]. destruct (Z.ltb_spec (key a) (key b)).
  - constructor; [by constructor|]. constructor; [lia|]. eapply List.Forall_impl; [|exact Hb]. cbn. lia.
  - constructor; [done|]. clear -Hb H. induction Hb as [|c l Hc Hb IH]; cbn; [by repeat constructor|].
    destruct (key a <? key c); repeat constructor; try done; lia.
Qed.

Lemma filter_sorted a l : sorted l → sorted (filter (λ b, b ≠ a) l).
Proof.
  induction 1 as [|b l Hl IH Hb]; [constructor|]. rewrite filter_cons. case_decide; [|done].
  constructor; [done|]. rewrite list.Forall_forall in Hb |- *. intros c [_ Hc]%list_elem_of_filter. auto.
Qed.

Lemma filter_split (a : Z) X Y : NoDup (X ++ a :: Y) → filter (λ b, b ≠ a) (X ++ a :: Y) = X ++ Y.
Proof.
  intros (HX & Ha & HY)%list.NoDup_app. apply list.NoDup_cons in HY as [HaY _].
  assert (Hk : ∀ l : list Z, a ∉ l → filter (λ b, b ≠ a) l = l).
  { intros l. induction l as [|b l IH]; intros Hl; [done|]. rewrite filter_cons, decide_True by set_solver.
    f_equal. apply IH. set_solver. }
  rewrite list.filter_app, filter_cons, decide_False by naive_solver. rewrite !Hk; [done|done|]. set_solver.
Qed.

Lemma wp_walk s t Q : rb_holds s t → Q (inorder t) s → wp (do_set_op Walk) Q s.
Proof.
  intros H HQ. destruct (rb_traversal s t H) as (Hf & _ & Hn). cbn [do_set_op]. apply wp_bind, wp_heap_size, wp_bind.
  exists (default 0 (list.head (inorder t))), s. split; [done|].
  assert (Hv : Forall valid (inorder t)) by apply (ts_valid _ _ _ _ H).
  apply (wp_loop (λ n st s', s' = s ∧ ∃ X Y, inorder t = X ++ Y ∧ st = (default 0 (list.head Y), X) ∧ n = length Y)
    _ _ _ (length (inorder t))).
  - split; [done|]. by exists [], (inorder t).
  - pose proof (tstate_size _ _ _ _ H). cbn in *. lia.
  - intros n st s' (-> & X & Y & E & -> & ->). cbn [walk_step]. destruct Y as [|a Y]; cbn.
    { apply wp_ret. by rewrite E, app_nil_r in HQ. }
    destruct (Z.eqb_spec a 0) as [->|Hne].
    { rewrite E, Forall_app, list.Forall_cons in Hv. destruct Hv as (_ & [? _] & _). lia. }
    apply wp_bind. destruct (Hn X a Y E) as [En _]. exists (default 0 (list.head Y)), s. split; [done|]. apply wp_ret.
    exists (length Y). split; [lia|]. split; [done|]. exists (X ++ [a]), Y. by rewrite <- app_assoc.
Qed.

Lemma node_present s t p : rb_holds s t → p ∈ inorder t → is_Some (rb_nodes s !! p).
Proof.
  intros H (X & Y & E)%list_elem_of_split. destruct (focus_at s t X p Y H E) as (fs & c & l & r & _ & H' & _).
  rewrite (tstate_lookup _ _ _ _ _ _ _ H'). by eexists.
Qed.

(** What holds between the calls: the tree has the nodes [l] in the order of their keys. *)
Definition keeps (D : gset Z) (l : list Z) s : Prop :=
  ∃ t, rb_holds s t ∧ rb_tree t ∧ inorder t = l ∧ sorted l ∧ ∀ p, p ∈ D → is_Some (rb_nodes s !! p).

Lemma kept_after (D : gset Z) s s' t t' :
  rb_holds s t → (∀ p, p ∈ D → is_Some (rb_nodes s !! p)) → rb_holds s' t' →
  (∀ p, p ∉ inorder t' → rb_nodes s' !! p = rb_nodes s !! p) → ∀ p, p ∈ D → is_Some (rb_nodes s' !! p).
Proof.
  intros H HD H' Ho p Hp. destruct (decide (p ∈ inorder t')); [by eapply node_present|]. rewrite Ho by done. auto.
Qed.

Lemma set_op_ok D l op s :
  keeps D l s → match op with Add a => a ∈ D ∧ valid a ∧ a ∉ l | Del a => a ∈ l | Walk => True end →
  ∃ s', do_set_op op s = Some ((spec_set_op l op).2, s') ∧ keeps D (spec_set_op l op).1 s'.
Proof.
  intros (t & H & Ht & <- & Hs & HD) Hop. destruct op as [a|a|]; cbn [spec_set_op fst snd].
  - destruct Hop as (HaD & Hv & Hin). destruct (HD a HaD) as [n Hn].
    enough (HW : wp (do_set_op (Add a)) (λ r s', r = [] ∧ keeps D (place a (inorder t)) s') s)
      by (destruct HW as (r & s' & E & -> & HK); by exists s').
    cbn [do_set_op]. apply wp_bind. eapply wp_find_slot; [exact H|exact Hs|]. intros fs E Hl Hr. cbv beta iota.
    rewrite E in H, Ht, Hin. destruct (insert_spec s fs a n H Ht Hn Hv Hin) as (s' & t' & Es & H' & Ht' & Ei & Ho).
    assert (Ep : place a (inorder t) = lctx fs ++ a :: rctx fs).
    { rewrite E, inorder_plug. cbn [inorder app]. by apply place_app. }
    assert (HQ : keeps D (place a (inorder t)) s').
    { exists t'. ands; [done|done|congruence|by apply place_sorted|]. by apply (kept_after D s s' (plug fs Leaf) t'). }
    destruct (rb_link_node a (cpar fs) (link_of fs) s) as [[[] s1]|] eqn:E1; [|unfold mbind, M_bind in Es; by rewrite E1 in Es].
    assert (E2 : rb_insert_color a s1 = Some (tt, s')) by (unfold mbind, M_bind in Es; by rewrite E1 in Es).
    apply wp_bind. exists tt, s1. split; [done|]. apply wp_bind. exists tt, s'. split; [done|]. by apply wp_ret.
  - apply list_elem_of_split in Hop as (X & Y & E). destruct (erase_spec s t X a Y H Ht E) as (s' & t' & Es & H' & Ht' & Ei & Ho).
    exists s'. split; [cbn [do_set_op]; unfold mbind, M_bind; by rewrite Es|].
    assert (Hnd : NoDup (inorder t)) by apply (ts_nodup _ _ _ _ H).
    exists t'. ands; [done|done| |by apply filter_sorted|by apply (kept_after D s s' t t')].
    rewrite Ei, E, filter_split; [done|]. by rewrite <- E.
  - destruct (wp_walk s t (λ r s', r = inorder t ∧ s' = s) H) as (r & s' & E & -> & ->); [done|].
    exists s. split; [done|]. by exists t.
Qed.

Lemma set_ops_run D ops : ∀ l s, keeps D l s → set_ops_ok D l ops →
  ∃ s', do_set_ops ops s = Some ((spec_set_ops l ops).2, s') ∧ keeps D (spec_set_ops l ops).1 s'.
Proof.
  induction ops as [|op ops IH]; intros l s HK Hok; cbn [do_set_ops spec_set_ops set_ops_ok] in *; [by exists s|].
  destruct Hok as [Hop Hok]. destruct (set_op_ok D l op s HK Hop) as (s1 & E1 & HK1).
  destruct (IH _ _ HK1 Hok) as (s2 & E2 & HK2). destruct (spec_set_op l op) as [l1 r1]. cbn [fst snd] in *.
  destruct (spec_set_ops l1 ops) as [l2 rs]. exists s2. split; [|done].
  unfold mbind, M_bind. rewrite E1. cbn. unfold mbind, M_bind. rewrite E2. done.
Qed.

(** Any sequence of additions, deletions and walks that starts with an empty tree on a heap
    with the nodes [D] runs to its end and answers what a list sorted by key answers; the
    heap then holds a red-black tree with these nodes in order, and no path in it is longer
    than twice the binary logarithm of their number plus one. *)
Theorem rb_ordered_set (D : gset Z) h ops :
  (∀ p, p ∈ D → is_Some (h !! p)) → set_ops_ok D [] ops →
  ∃ s t, do_set_ops ops (RbState 0 h) = Some ((spec_set_ops [] ops).2, s) ∧ rb_holds s t ∧ rb_tree t ∧
    inorder t = (spec_set_ops [] ops).1 ∧ sorted (inorder t) ∧
    (height t ≤ 2 * Nat.log2 (S (length (inorder t))))%nat.
Proof.
  intros HD Hok. destruct (set_ops_run D ops [] (RbState 0 h)) as (s & E & t & H & Ht & Ei & Hs & _); [|done|].
  - exists Leaf. split; [split; cbn; try done; apply NoDup_nil_2|]. split; [exists 0%nat; constructor|]. split; [done|]. split; [constructor|done].
  - exists s, t. rewrite Ei. ands; try done. rewrite <- Ei. by apply rb_tree_height.
Qed.
End Client.

(** Seven nodes in and three out, the keys in an order that needs rotations. *)
Definition set_heap : gmap Z rb_node := list_to_map ((λ i, (4 * i, RbNode 7 7 7)) <$> seqZ 1 7).
Definition set_keys (a : Z) : Z := (5 * a) mod 29.
Definition set_calls : list set_op :=
  [Add 4; Add 8; Add 12; Add 16; Add 20; Walk; Add 24; Add 28; Walk; Del 12; Del 4; Walk; Add 4; Del 20; Walk].

Lemma rb_ordered_set_witness :
  ∃ s t, do_set_ops set_keys set_calls (RbState 0 set_heap) = Some ((spec_set_ops set_keys [] set_calls).2, s) ∧
    rb_tree t ∧ inorder t = [24; 8; 4; 16; 28] ∧ (height t ≤ 2 * Nat.log2 6)%nat.
Proof.
  destruct (rb_ordered_set set_keys (list_to_set ((λ i, 4 * i) <$> seqZ 1 7)) set_heap set_calls)
    as (s & t & E & _ & Ht & Ei & _ & Hh).
  - intros p [i [-> Hi%elem_of_seqZ]]%elem_of_list_to_set%list_elem_of_fmap. change (is_Some (set_heap !! (4 * i))).
    assert (Hall : forallb (λ i, bool_decide (is_Some (set_heap !! (4 * i)))) (seqZ 1 7) = true) by (vm_compute; reflexivity).
    rewrite forallb_forall in Hall. specialize (Hall i). rewrite <- list_elem_of_In, elem_of_seqZ, bool_decide_eq_true in Hall. auto.
  - cbn. repeat split; (by_compute || (apply Z.mod_divide; [lia|reflexivity])).
  - exists s, t. rewrite Ei in Hh. split; [exact E|]. split; [exact Ht|]. split; [exact Ei|exact Hh].
Defined.
