(* ===== verification/Order.v ===== *)
(** * Comparison callbacks and heap order

    The contract of the comparison functions that the sorts and heaps of [lib/]
    take as arguments, and the order of a binary heap kept in an array: repairing it
    downwards from one node, and the maximum at its root. *)

From S2P Require Import Prelude.
From Stdlib Require Import Sorted.
#[local] Open Scope Z_scope.
#[local] Open Scope kernel_scope.

(** A callback [int cmp(a, b)] whose sign is a total preorder on the objects. *)
Class Comparator {A} (cmp : A → A → Z) : Prop := {
  cmp_flip x y : 0 ≤ cmp x y ↔ cmp y x ≤ 0;
  cmp_trans x y z : cmp x y ≤ 0 → cmp y z ≤ 0 → cmp x z ≤ 0
}.

Definition cmp_le {A} (cmp : A → A → Z) (x y : A) : Prop := cmp x y ≤ 0.

(** Comparison of two integers by their difference, as the callers write it. *)
#[export] Instance comparator_sub : Comparator Z.sub.
Proof. split; lia. Qed.

Section HeapOrder.
Context {A : Type} (ge : A → A → Prop) `{!PreOrder ge}.
Implicit Types (E : list A) (p c r n lo : Z).

(** [c] is a child of [p] in the array of a binary heap. *)
Definition child p c : Prop := c = 2 * p + 1 ∨ c = 2 * p + 2.

(** The parent dominates its child when both are in the array. *)
Definition dominates E p c : Prop := ∀ x y, E.[p] = Some x → E.[c] = Some y → ge x y.

(** Heap order between every node from [lo] on and its children. *)
Definition heap_from lo E : Prop := ∀ p c, lo ≤ p → child p c → dominates E p c.

(** Heap order except below [r], whose parent dominates the children of [r]. *)
Definition heap_but lo r E : Prop :=
  (∀ p c, lo ≤ p → p ≠ r → child p c → dominates E p c) ∧
  (∀ p c, lo ≤ p → child p r → child r c → dominates E p c).

Lemma heap_but_start lo E : 0 ≤ lo → heap_from (lo + 1) E → heap_but lo lo E.
Proof.
  intros Hlo HE. split.
  - intros p c Hp Hne. apply HE. lia.
  - unfold child. lia.
Qed.

Lemma heap_but_done lo r E : heap_but lo r E → (∀ c, child r c → dominates E r c) → heap_from lo E.
Proof.
  intros [H _] Hr p c Hp Hc. destruct (decide (p = r)) as [->|Hne]; [by apply Hr|by apply H].
Qed.

(** Two cells of an array exchanged. *)
Definition exchange (i j : Z) (x y : A) E : list A := <[Z.to_nat i := y]> (<[Z.to_nat j := x]> E).

Lemma exchange_get i j x y E k :
  E.[i] = Some x → E.[j] = Some y →
  (exchange i j x y E).[k] = if decide (k = i) then Some y else if decide (k = j) then Some x else E.[k].
Proof.
  intros Hi%arr_get_Some_lt Hj%arr_get_Some_lt. unfold exchange. destruct (decide (0 ≤ k)).
  - rewrite arr_get_insert by (rewrite ?alen_insert; lia). case_decide; [done|].
    by rewrite arr_get_insert by lia.
  - rewrite decide_False, decide_False by lia. rewrite !arr_get_None; [done|lia|rewrite !alen_insert; lia].
Qed.

Lemma exchange_perm i j x y E : E.[i] = Some x → E.[j] = Some y → exchange i j x y E ≡ₚ E.
Proof.
  unfold arr_get, exchange. destruct (0 <=? i), (0 <=? j); try done.
  intros Hi Hj. by apply Permutation_insert_swap.
Qed.

Lemma alen_exchange i j x y E : alen (exchange i j x y E) = alen E.
Proof. unfold exchange. by rewrite !alen_insert. Qed.

(** One step of the repair: the larger child moves up and the hole moves down. *)
Lemma heap_but_step lo r c x y E :
  0 ≤ lo ≤ r → heap_but lo r E → child r c → E.[r] = Some x → E.[c] = Some y → ge y x →
  (∀ d z, child r d → E.[d] = Some z → ge y z) →
  heap_but lo c (exchange r c x y E).
Proof.
  unfold child. intros Hlo [H1 H2] Hc Hr Hcy Hyx Hsib.
  assert (Hg := λ k, exchange_get r c x y E k Hr Hcy). split.
  - intros p d Hp Hne Hd a b. rewrite !Hg. unfold child in Hd.
    destruct (decide (p = r)) as [->|Hpr].
    + intros [= <-]. rewrite (decide_False (P := d = r)) by lia.
      case_decide as Hdc; [by intros [= <-]|]. intros Hb. by eapply Hsib.
    + rewrite (decide_False (P := p = c)) by done. intros Ha.
      destruct (decide (d = r)) as [->|Hdr].
      * intros [= <-]. by eapply (H2 p c).
      * rewrite (decide_False (P := d = c)) by lia. intros Hb. by eapply (H1 p d).
  - intros p d Hp Hpc Hd a b. rewrite !Hg. unfold child in Hpc, Hd.
    rewrite (decide_True (P := p = r)), (decide_False (P := d = r)), (decide_False (P := d = c)) by lia.
    intros [= <-] Hb. eapply (H1 c d); eauto; unfold child; lia.
Qed.

(** Heap order except above [r], as long as its parent dominates its children. *)
Definition heap_up_but r E : Prop :=
  (∀ p c, 0 ≤ p → c ≠ r → child p c → dominates E p c) ∧
  (∀ p c, 0 ≤ p → child p r → child r c → dominates E p c).

Lemma heap_up_start E x : heap_from 0 E → heap_up_but (alen E) (E ++ [x]).
Proof.
  intros HE. pose proof (alen_nonneg E). split.
  - intros p c Hp Hne Hc a b Ha Hb. pose proof (arr_get_Some_lt _ _ _ Hb) as Hl.
    rewrite alen_app in Hl. change (alen [x]) with 1 in Hl. unfold child in Hc.
    rewrite arr_get_app, decide_True in Ha by lia. rewrite arr_get_app, decide_True in Hb by lia. by eapply (HE p c).
  - intros p c Hp Hpr Hc a b _ Hb%arr_get_Some_lt. unfold child in Hc.
    rewrite alen_app in Hb. change (alen [x]) with 1 in Hb. lia.
Qed.

Lemma heap_up_done r E : heap_up_but r E → (∀ p, 0 ≤ p → child p r → dominates E p r) → heap_from 0 E.
Proof.
  intros [H _] Hr p c Hp Hc. destruct (decide (c = r)) as [->|]; [by apply Hr|by apply H].
Qed.

(** One step upwards: the parent moves down and the new element takes its place. *)
Lemma heap_up_step r q x y E : 0 ≤ q → heap_up_but r E → child q r → E.[r] = Some x → E.[q] = Some y → ge x y →
  heap_up_but q (exchange r q x y E).
Proof.
  unfold child. intros Hq [H1 H2] Hqr Hr Hqy Hxy.
  assert (Hg := λ k, exchange_get r q x y E k Hr Hqy).
  assert (Hsib : ∀ d z, child q d → d ≠ r → E.[d] = Some z → ge x z).
  { intros d z Hd Hne Hz. transitivity y; [done|]. by eapply (H1 q d). }
  split.
  - intros p d Hp Hne Hd a b. rewrite !Hg. unfold child in *.
    destruct (decide (p = r)) as [->|Hpr].
    + intros [= <-]. rewrite (decide_False (P := d = r)), (decide_False (P := d = q)) by lia.
      intros Hb. by eapply (H2 q d).
    + destruct (decide (p = q)) as [->|Hpq].
      * intros [= <-]. destruct (decide (d = r)) as [->|Hdr]; [by intros [= <-]|].
        rewrite (decide_False (P := d = q)) by lia. intros Hb. by eapply Hsib.
      * intros Ha. rewrite (decide_False (P := d = r)), (decide_False (P := d = q)) by lia.
        intros Hb. eapply (H1 p d); eauto; lia.
  - intros p d Hp Hpq Hd a b. unfold child in *.
    rewrite !Hg, (decide_False (P := p = r)), (decide_False (P := p = q)) by lia. intros Ha.
    assert (Hay : ge a y) by (eapply (H1 p q); eauto; lia).
    destruct (decide (d = r)) as [->|Hdr]; [by intros [= <-]|].
    rewrite (decide_False (P := d = q)) by lia. intros Hb. transitivity y; [done|]. by eapply (H1 q d).
Qed.

(** The root of a heap dominates every element. *)
Lemma heap_root E x : heap_from 0 E → E.[0] = Some x → Forall (ge x) E.
Proof.
  intros HE H0. apply Forall_lookup_2. intros k z. rewrite <- arr_get_lookup. revert z.
  induction k as [k IH] using lt_wf_ind. intros z Hz. destruct (decide (k = 0%nat)) as [->|Hk].
  { change (Z.of_nat 0) with 0 in Hz. by simplify_eq. }
  set (p := ((k - 1) / 2)%nat) in *. assert (Hp : (p < k)%nat) by (apply Nat.Div0.div_lt_upper_bound; lia).
  assert (Hc : child (Z.of_nat p) (Z.of_nat k)). { unfold child, p. pose proof (Nat.div_mod (k - 1) 2). pose proof (Nat.mod_upper_bound (k - 1) 2). lia. }
  pose proof (arr_get_Some_lt _ _ _ Hz). destruct (arr_get_lt E (Z.of_nat p)) as [y Hy]; [lia|].
  transitivity y; [by eapply IH|]. by eapply (HE (Z.of_nat p) (Z.of_nat k)); [lia|..].
Qed.

Lemma heap_from_take lo (n : nat) E : heap_from lo E → heap_from lo (take n E).
Proof.
  intros HE p c Hp Hc x y Hx Hy. eapply (HE p c Hp Hc).
  - revert Hx. unfold arr_get. destruct (0 <=? p); [|done]. intros Hx.
    rewrite lookup_take in Hx. by destruct (decide _).
  - revert Hy. unfold arr_get. destruct (0 <=? c); [|done]. intros Hy.
    rewrite lookup_take in Hy. by destruct (decide _).
Qed.
End HeapOrder.
