(* ===== verification/Sort.v ===== *)
(** * Heap sort

    Models [lib/sort.c]: an array of [num] elements of [size] bytes at [base] in an
    object of bytes, sorted in place with a comparison callback that sees the bytes
    of two elements and a swap callback that exchanges them in memory.  The counters
    are [int]s scaled by the element size and mixed with [size_t] as in the source. *)

From S2P Require Import Prelude Words Order.
From Stdlib Require Import Sorted.
#[local] Open Scope Z_scope.
#[local] Open Scope kernel_scope.

(** ** The swaps of the library *)

(** [*(u32 * )p] as a value, on a little-endian machine. *)
Definition load_u32 (m : list Z) (p : Z) : option Z :=
  b0 ← m.[p]; b1 ← m.[p + 1]; b2 ← m.[p + 2]; b3 ← m.[p + 3]; Some (le32 b0 b1 b2 b3).

Definition u32_swap (m : list Z) (a b size : Z) : option (list Z) :=
  t ← load_u32 m a;
  x ← load_u32 m b;
  m ← arr_write m a (le32_bytes x);
  arr_write m b (le32_bytes t).

Definition generic_swap (m : list Z) (a b size : Z) : option (list Z) :=
  loop (S (Z.to_nat size)) (λ '(m, a, b, size),
    t ← m.[a];
    x ← m.[b];
    m ← m.[a <- x];
    m ← m.[b <- t];
    let size := size - 1 in
    if size >? 0 then Some (inl (m, a + 1, b + 1, size)) else Some (inr m)) (m, a, b, size).

Section Sort.
Context (cmp_func : list Z → list Z → Z).

(** [cmp_func(base + a, base + b)]: the callback reads the two elements. *)
Definition cmp_at (m : list Z) (size a b : Z) : option Z :=
  x ← arr_read m a size; y ← arr_read m b size; Some (cmp_func x y).

(** The inner loop of both phases: the element at offset [r] sinks below [lim]. *)
Definition sift_down (swap : list Z → Z → Z → Z → option (list Z)) (m : list Z) (base size r lim : Z) :
    option (list Z) :=
  loop (S (Z.to_nat lim)) (λ '(m, r),
    if negb (u32 (r * 2 + size) <? u32 lim) then Some (inr m) else
    let c := s32 (r * 2 + size) in
    c ← (if u32 c <? u32 (lim - size) then
           d ← cmp_at m size (base + c) (base + c + size);
           Some (if d <? 0 then s32 (c + size) else c)
         else Some c);
    d ← cmp_at m size (base + r) (base + c);
    if d >=? 0 then Some (inr m) else
    m ← swap m (base + r) (base + c) size;
    Some (inl (m, c))) (m, r).

Definition sort (m : list Z) (base num size : Z)
    (swap_func : option (list Z → Z → Z → Z → option (list Z))) : option (list Z) :=
  let i := s32 ((num / 2 - 1) * size) in
  let n := s32 (num * size) in
  let swap := match swap_func with
              | Some f => f
              | None => if size =? 4 then u32_swap else generic_swap
              end in
  m ← loop (S (Z.to_nat num)) (λ '(m, i),
    if i >=? 0 then m ← sift_down swap m base size i n; Some (inl (m, s32 (i - size)))
    else Some (inr m)) (m, i);
  loop (S (Z.to_nat num)) (λ '(m, i),
    if i >? 0 then
      m ← swap m base (base + i) size;
      m ← sift_down swap m base size 0 i;
      Some (inl (m, s32 (i - size)))
    else Some (inr m)) (m, s32 (n - size)).
End Sort.

(** ** What a swap does *)

(** The bytes of [m'] are those of [m] with the two areas of [size] bytes exchanged. *)
Definition swapped (m : list Z) (a b size : Z) (m' : list Z) : Prop :=
  alen m' = alen m ∧
  ∀ i, m'.[i] = if decide (a ≤ i < a + size) then m.[b + (i - a)]
                else if decide (b ≤ i < b + size) then m.[a + (i - b)] else m.[i].

(** The contract of a swap callback on disjoint areas of an object. *)
Definition swap_ok (size : Z) (swap : list Z → Z → Z → Z → option (list Z)) : Prop :=
  ∀ m a b, Forall byte m → 0 ≤ a → a + size ≤ alen m → 0 ≤ b → b + size ≤ alen m →
    a + size ≤ b ∨ b + size ≤ a → ∃ m', swap m a b size = Some m' ∧ swapped m a b size m'.

Lemma swapped_bytes m a b size m' : swapped m a b size m' → Forall byte m → Forall byte m'.
Proof.
  intros [_ Hm] Hb. apply Forall_lookup_2. intros k x. rewrite <- arr_get_lookup, Hm. intros Hx.
  repeat case_decide; by eapply Forall_arr_get.
Qed.

Lemma generic_swap_ok size : 0 < size → swap_ok size generic_swap.
Proof.
  intros Hs m a b _ Ha Ha' Hb Hb' Hd. unfold generic_swap.
  apply (loop_rule (λ '(m1, a1, b1, s1), ∃ k, a1 = a + k ∧ b1 = b + k ∧ s1 = size - k ∧
      0 ≤ k < size ∧ swapped m a b k m1) (λ '(_, _, _, s1), Z.to_nat s1)).
  - intros [[[m1 a1] b1] s1] (k & -> & -> & -> & Hk & Hl & Hm).
    destruct (arr_get_lt m1 (a + k)) as [t Ht]; [lia|]. destruct (arr_get_lt m1 (b + k)) as [x Hx]; [lia|].
    rewrite Ht, Hx. cbn [mbind option_bind]. rewrite (arr_set_lt m1) by lia. cbn [mbind option_bind].
    rewrite arr_set_lt by (rewrite alen_insert; lia). cbn [mbind option_bind].
    set (m2 := <[_ := t]> _). assert (swapped m a b (k + 1) m2).
    { subst m2. split; [by rewrite !alen_insert|]. intros i. rewrite Hm in Ht, Hx.
      rewrite !decide_False in Ht by lia. rewrite !decide_False in Hx by lia.
      destruct (decide (0 ≤ i)); [|rewrite !arr_get_None by (rewrite ?alen_insert; lia);
        rewrite !decide_False, arr_get_None by lia; done].
      rewrite arr_get_insert, arr_get_insert, Hm by (rewrite ?alen_insert; lia).
      destruct (decide (i = b + k)) as [->|]; [rewrite decide_False, decide_True by lia|].
      { rewrite <- Ht. f_equal. lia. }
      destruct (decide (i = a + k)) as [->|]; [rewrite (decide_True (P := a ≤ a + k < a + (k + 1))) by lia|].
      { rewrite <- Hx. f_equal. lia. }
      repeat (case_decide; try lia); done. }
    destruct (Z.gtb_spec (size - k - 1) 0); eexists; (split; [done|]).
    + split; [|lia]. exists (k + 1). ands; try lia. done.
    + by replace size with (k + 1) by lia.
  - exists 0. ands; try lia. split; [done|]. intros i. by rewrite !decide_False by lia.
  - lia.
Qed.

Lemma load_u32_ok m p : Forall byte m → 0 ≤ p → p + 4 ≤ alen m →
  ∃ x, load_u32 m p = Some x ∧ alen (le32_bytes x) = 4 ∧ ∀ i, 0 ≤ i < 4 → (le32_bytes x).[i] = m.[p + i].
Proof.
  intros Hb Hp Hl. unfold load_u32.
  destruct (arr_get_lt m p) as [b0 H0]; [lia|]. destruct (arr_get_lt m (p + 1)) as [b1 H1]; [lia|].
  destruct (arr_get_lt m (p + 2)) as [b2 H2]; [lia|]. destruct (arr_get_lt m (p + 3)) as [b3 H3]; [lia|].
  rewrite H0, H1, H2, H3. cbn [mbind option_bind].
  assert (byte b0 ∧ byte b1 ∧ byte b2 ∧ byte b3) as (B0 & B1 & B2 & B3)
    by (ands; by eapply Forall_arr_get).
  eexists; split; [done|]. rewrite (proj2 (le32_bytes_ok _ (le32_range _ _ _ _ B0 B1 B2 B3))).
  destruct (le32_bytes_at b0 b1 b2 b3) as (-> & -> & -> & ->); try done. split; [done|].
  intros i Hi. assert (i = 0 ∨ i = 1 ∨ i = 2 ∨ i = 3) as [-> | [-> | [-> | ->]]] by lia;
    rewrite ?Z.add_0_r, ?H0, ?H1, ?H2, ?H3; done.
Qed.

Lemma u32_swap_ok : swap_ok 4 u32_swap.
Proof.
  intros m a b Hby Ha Ha' Hb Hb' Hd. unfold u32_swap.
  destruct (load_u32_ok m a) as (t & -> & Lt & Ht); [done..|].
  destruct (load_u32_ok m b) as (x & -> & Lx & Hx); [done..|]. cbn [mbind option_bind].
  destruct (arr_write_spec m a (le32_bytes x)) as (m1 & -> & L1 & H1); [lia..|]. cbn [mbind option_bind].
  destruct (arr_write_spec m1 b (le32_bytes t)) as (m2 & -> & L2 & H2); [lia..|].
  exists m2. split; [done|]. split; [lia|]. intros i. rewrite H2, H1, Lt, Lx.
  repeat (case_decide; try lia); rewrite ?Ht, ?Hx by lia; done.
Qed.

(** ** The array of elements *)

(** The [num] elements of [size] bytes at [base]. *)
Definition elements (m : list Z) (base num size : Z) : list (list Z) :=
  (λ i, take (Z.to_nat size) (drop (Z.to_nat (base + i * size)) m)) <$> seqZ 0 num.

Section Elements.
Context (cmp : list Z → list Z → Z) `{!Comparator cmp}.
Context (size : Z) (Hsize : 0 < size).
Implicit Types (E H T : list (list Z)) (m : list Z).

Lemma arr_read_ext m m' o o' n :
  alen m = alen m' → 0 ≤ o → 0 ≤ n → o + n ≤ alen m → 0 ≤ o' → o' + n ≤ alen m →
  (∀ i, 0 ≤ i < n → m'.[o' + i] = m.[o + i]) → arr_read m' o' n = arr_read m o n.
Proof.
  intros Hl ? ? ? ? ? Hi. destruct (arr_read_spec m o n) as (d & -> & Ld & Hd); [done..|].
  destruct (arr_read_spec m' o' n) as (d' & -> & Ld' & Hd'); [lia..|].
  f_equal. apply arr_ext; [lia|]. intros i Hr. rewrite Hd, Hd', Hi by lia. done.
Qed.

(** The bytes at [base] are the elements [E], and the rest of the object is as in [m0]. *)
Record array_at (m0 : list Z) (base : Z) (E : list (list Z)) (m : list Z) : Prop := {
  at_len : alen m = alen m0;
  at_fits : 0 ≤ base ∧ base + alen E * size ≤ alen m0;
  at_byte : Forall byte m;
  at_elem i x : E.[i] = Some x → arr_read m (base + i * size) size = Some x;
  at_frame i : ¬ (base ≤ i < base + alen E * size) → m.[i] = m0.[i] }.

Lemma cmp_at_ok m0 base E m i j x y : array_at m0 base E m → E.[i] = Some x → E.[j] = Some y →
  cmp_at cmp m size (base + i * size) (base + j * size) = Some (cmp x y).
Proof. intros HE Hx Hy. unfold cmp_at. by erewrite !at_elem by done. Qed.

Lemma swap_at_ok swap m0 base E m i j x y : swap_ok size swap → array_at m0 base E m →
  E.[i] = Some x → E.[j] = Some y → i ≠ j →
  ∃ m', swap m (base + i * size) (base + j * size) size = Some m' ∧ array_at m0 base (exchange i j x y E) m'.
Proof.
  intros Hswap HE Hx Hy Hne. pose proof (arr_get_Some_lt _ _ _ Hx) as Hi. pose proof (arr_get_Some_lt _ _ _ Hy) as Hj.
  destruct HE as [Hl [Hb Hf] Hby Hel Hfr].
  destruct (Hswap m (base + i * size) (base + j * size)) as (m' & E' & Hsw); [done|nia..|].
  exists m'. split; [done|]. pose proof Hsw as [Hl' Hm'].
  assert (Hk : ∀ k l z, E.[l] = Some z → 0 ≤ k < alen E →
    (∀ o, 0 ≤ o < size → m'.[base + k * size + o] = m.[base + l * size + o]) →
    arr_read m' (base + k * size) size = Some z).
  { intros k l z Hz Hk Ho. pose proof (arr_get_Some_lt _ _ _ Hz). rewrite <- (Hel l z Hz).
    apply arr_read_ext; [done|nia..|done]. }
  split.
  - lia.
  - rewrite alen_exchange. lia.
  - by eapply swapped_bytes.
  - intros k z. rewrite (exchange_get i j x y E k Hx Hy). case_decide as D1; [|case_decide as D2].
    + intros [= <-]. subst k. apply (Hk i j y); [done|done|]. intros o Ho. rewrite Hm', decide_True by lia. f_equal. lia.
    + intros [= <-]. subst k. apply (Hk j i x); [done|done|]. intros o Ho.
      rewrite Hm', decide_False, decide_True by nia. f_equal. lia.
    + intros Hz. apply (Hk k k z); [done|by eapply arr_get_Some_lt|]. intros o Ho.
      rewrite Hm', !decide_False by nia. done.
  - intros p. rewrite alen_exchange. intros Hp. rewrite Hm', !decide_False by nia. by apply Hfr.
Qed.

Definition cmp_ge (x y : list Z) : Prop := 0 ≤ cmp x y.

#[local] Instance cmp_ge_preorder : PreOrder cmp_ge.
Proof.
  unfold cmp_ge. split.
  - intros x. destruct (decide (cmp x x ≤ 0)) as [H|H]; [by apply cmp_flip|lia].
  - intros x y z H1%cmp_flip H2%cmp_flip. apply cmp_flip. by eapply cmp_trans.
Qed.

Lemma cmp_ge_total x y : cmp x y < 0 → cmp_ge y x.
Proof. intros H. apply cmp_flip. lia. Qed.

Lemma exchange_app_l i j x y H T : 0 ≤ i < alen H → 0 ≤ j < alen H →
  exchange i j x y (H ++ T) = exchange i j x y H ++ T.
Proof. unfold exchange, alen. intros. rewrite !insert_app_l; rewrite ?length_insert; [done|lia..]. Qed.

(** The choice of the larger child in the inner loop. *)
Lemma larger_child m0 base H T m r x : array_at m0 base (H ++ T) m → alen H * size < 2 ^ 31 →
  0 ≤ r → 2 * r + 1 < alen H → H.[r] = Some x →
  ∃ c y, (if u32 ((2 * r + 1) * size) <? u32 (alen H * size - size) then
            d ← cmp_at cmp m size (base + (2 * r + 1) * size) (base + (2 * r + 1) * size + size);
            Some (if d <? 0 then s32 ((2 * r + 1) * size + size) else (2 * r + 1) * size)
          else Some ((2 * r + 1) * size)) = Some (c * size) ∧
    child r c ∧ H.[c] = Some y ∧ ∀ d z, child r d → H.[d] = Some z → cmp_ge y z.
Proof.
  intros HE Hlim Hr Hc Hx.
  assert (Hin : ∀ k z, H.[k] = Some z → (H ++ T).[k] = Some z).
  { intros k z Hz. pose proof (arr_get_Some_lt _ _ _ Hz). by rewrite arr_get_app, decide_True by lia. }
  destruct (arr_get_lt H (2 * r + 1)) as [y1 Hy1]; [lia|].
  rewrite !uwrap_small by (unfold urange; nia).
  destruct (Z.ltb_spec ((2 * r + 1) * size) (alen H * size - size)) as [Hlt|Hge].
  - destruct (arr_get_lt H (2 * r + 2)) as [y2 Hy2]; [nia|].
    replace (base + (2 * r + 1) * size + size) with (base + (2 * r + 2) * size) by lia.
    rewrite (cmp_at_ok m0 base (H ++ T) m _ _ y1 y2) by auto. cbn [mbind option_bind].
    destruct (Z.ltb_spec (cmp y1 y2) 0) as [Hd|Hd].
    + exists (2 * r + 2), y2. rewrite s32_small by nia. ands.
      * f_equal. lia.
      * by right.
      * done.
      * intros d z [-> | ->] Hz; simplify_eq; [by apply cmp_ge_total|reflexivity].
    + exists (2 * r + 1), y1. ands; [done|by left|done|].
      intros d z [-> | ->] Hz; simplify_eq; [reflexivity|done].
  - exists (2 * r + 1), y1. ands; [done|by left|done|].
    intros d z [-> | ->] Hz; simplify_eq; [reflexivity|].
    apply arr_get_Some_lt in Hz. nia.
Qed.

Lemma sift_down_ok swap m0 base H T m lo r : swap_ok size swap → array_at m0 base (H ++ T) m →
  alen H * size < 2 ^ 31 → 0 ≤ lo ≤ r → r < alen H → heap_but cmp_ge lo r H →
  ∃ m', sift_down cmp swap m base size (r * size) (alen H * size) = Some m' ∧
    ∃ H', array_at m0 base (H' ++ T) m' ∧ H' ≡ₚ H ∧ heap_from cmp_ge lo H'.
Proof.
  intros Hsw HE Hlim Hlo Hr HB. unfold sift_down.
  apply (loop_rule (λ '(m1, r1), ∃ H1 i, r1 = i * size ∧ lo ≤ i < alen H ∧ array_at m0 base (H1 ++ T) m1 ∧
      H1 ≡ₚ H ∧ alen H1 = alen H ∧ heap_but cmp_ge lo i H1) (λ '(_, r1), Z.to_nat (alen H * size - r1))).
  - intros [m1 r1] (H1 & i & -> & Hi & HE1 & HP & HL & HB1). rewrite <- HL in *.
    rewrite (uwrap_small 32 (i * size * 2 + size)), (uwrap_small 32 (alen H1 * size)) by (unfold urange; nia).
    destruct (Z.ltb_spec (i * size * 2 + size) (alen H1 * size)) as [Hlt|Hge]; cbn [negb].
    2:{ eexists; split; [done|]. exists H1. ands; [done|done|]. eapply heap_but_done; [done|].
        intros c Hc x y _ Hy%arr_get_Some_lt. destruct Hc; nia. }
    destruct (arr_get_lt H1 i) as [x Hx]; [lia|].
    rewrite s32_small by nia. replace (i * size * 2 + size) with ((2 * i + 1) * size) by lia.
    destruct (larger_child m0 base H1 T m1 i x) as (c & y & -> & Hc & Hy & Hsib); [done|lia..|nia|done|].
    cbn [mbind option_bind].
    assert (Hin : ∀ k z, H1.[k] = Some z → (H1 ++ T).[k] = Some z).
    { intros k z Hz. pose proof (arr_get_Some_lt _ _ _ Hz). by rewrite arr_get_app, decide_True by lia. }
    rewrite (cmp_at_ok m0 base (H1 ++ T) m1 i c x y) by auto. cbn [mbind option_bind].
    destruct (Z.geb_spec (cmp x y) 0) as [Hd|Hd].
    { eexists; split; [done|]. exists H1. ands; [done|done|]. eapply heap_but_done; [done|].
      intros d Hd' a b Ha Hb. simplify_eq. transitivity y; [done|]. by eapply Hsib. }
    assert (Hci : i < c) by (destruct Hc; lia). pose proof (arr_get_Some_lt _ _ _ Hy).
    destruct (swap_at_ok swap m0 base (H1 ++ T) m1 i c x y) as (m2 & -> & HE2); [by auto..|lia|].
    cbn [mbind option_bind]. eexists; split; [done|]. split; [|nia].
    rewrite exchange_app_l in HE2 by lia. exists (exchange i c x y H1), c. rewrite alen_exchange.
    ands; [done|lia|lia|done|by rewrite exchange_perm|done|].
    apply heap_but_step; [lia|done..|by apply cmp_ge_total|done].
  - exists H, r. ands; [done|lia|lia|done..].
  - nia.
Qed.

Lemma heapify_ok swap m0 base m num E : swap_ok size swap → array_at m0 base E m → alen E = num →
  size < 2 ^ 31 → num * size < 2 ^ 31 →
  ∃ m', loop (S (Z.to_nat num)) (λ '(m, i),
      if i >=? 0 then m ← sift_down cmp swap m base size i (num * size); Some (inl (m, s32 (i - size)))
      else Some (inr m)) (m, s32 ((num / 2 - 1) * size)) = Some m' ∧
    ∃ E', array_at m0 base E' m' ∧ E' ≡ₚ E ∧ heap_from cmp_ge 0 E'.
Proof.
  intros Hsw HE <- Hs Hn. pose proof (alen_nonneg E).
  assert (Hhalf : 0 ≤ alen E / 2 ∧ 2 * (alen E / 2) ≤ alen E ≤ 2 * (alen E / 2) + 1)
    by (Z.to_euclidean_division_equations; lia).
  apply (loop_rule (λ '(m1, i), ∃ E1 k, i = k * size ∧ -1 ≤ k < alen E / 2 ∧ array_at m0 base E1 m1 ∧
      E1 ≡ₚ E ∧ alen E1 = alen E ∧ heap_from cmp_ge (k + 1) E1) (λ '(_, i), Z.to_nat (i / size + 1))).
  - intros [m1 i] (E1 & k & -> & Hk & HE1 & HP & HL & HH).
    destruct (Z.geb_spec (k * size) 0) as [Hge|Hlt].
    2:{ eexists; split; [done|]. exists E1. ands; [done|done|]. assert (k + 1 = 0) as <- by nia. done. }
    assert (0 ≤ k) by nia. rewrite <- (app_nil_r E1) in HE1. rewrite <- HL.
    destruct (sift_down_ok swap m0 base E1 [] m1 k k) as (m2 & -> & E2 & HE2 & HP2 & HH2);
      [done|done|lia|lia|lia|by apply heap_but_start|].
    cbn [mbind option_bind]. eexists; split; [done|]. rewrite s32_small by nia.
    replace (k * size - size) with ((k - 1) * size) by lia. rewrite !Z.div_mul by lia. split; [|lia].
    exists E2, (k - 1). rewrite app_nil_r in HE2. replace (k - 1 + 1) with k by lia. rewrite HL.
    ands; [done|lia|lia|done|by rewrite HP2| |done]. unfold alen in *. rewrite HP2. lia.
  - exists E, (alen E / 2 - 1). rewrite s32_small by nia. ands; [done|lia|lia|done..|].
    intros p c Hp Hc x y _ Hy%arr_get_Some_lt. destruct Hc; lia.
  - rewrite s32_small, Z.div_mul by nia. lia.
Qed.

Lemma cmp_ge_le x y : cmp_ge x y → cmp_le cmp y x.
Proof. apply cmp_flip. Qed.

(** Taking the root of the heap to the front of the sorted tail. *)
Lemma pop_root H T h : StronglySorted (cmp_le cmp) T → heap_from cmp_ge 0 H → H.[0] = Some h →
  (∀ x y, x ∈ H → y ∈ T → cmp_le cmp x y) →
  StronglySorted (cmp_le cmp) (h :: T) ∧ ∀ x y, x ∈ H → y ∈ h :: T → cmp_le cmp x y.
Proof.
  intros HS HH Hh HHT. pose proof (heap_root _ _ _ HH Hh) as Hmax. split.
  - constructor; [done|]. apply list.Forall_forall. intros y Hy. apply HHT; [|done].
    apply list_elem_of_lookup_2 with 0%nat. by rewrite <- arr_get_lookup.
  - intros x y Hx [-> | Hy]%elem_of_cons; [|by apply HHT].
    apply cmp_ge_le. by eapply list.Forall_forall in Hmax.
Qed.

(** Exchanging the first and the last element of a heap. *)
Lemma exchange_ends H x y : 0 < alen H - 1 → H.[0] = Some x → H.[alen H - 1] = Some y →
  ∃ M, H = x :: M ++ [y] ∧ exchange 0 (alen H - 1) x y H = (y :: M) ++ [x].
Proof.
  intros Hl Hx Hy. destruct H as [|x' M']; [done|]. assert (x' = x) as -> by (by injection Hx).
  destruct M' as [|y' M _] using rev_ind; [unfold alen in *; simpl in *; lia|].
  exists M. assert (El : alen (x :: M ++ [y']) - 1 = 1 + alen M)
    by (unfold alen; rewrite length_cons, length_app; simpl; lia).
  rewrite El in *. assert (y' = y) as ->.
  { revert Hy. rewrite (arr_get_app [x] (M ++ [y'])), decide_False by (unfold alen; simpl; lia).
    change (alen [x]) with 1. rewrite Z.add_simpl_l, arr_get_app, decide_False by lia.
    rewrite Z.sub_diag. by intros [= ->]. }
  split; [done|]. unfold exchange, alen. replace (Z.to_nat (1 + Z.of_nat (length M))) with (S (length M)) by lia.
  change (y :: <[length M := x]> (M ++ [y]) = y :: M ++ [x]).
  by rewrite insert_app_r_alt, Nat.sub_diag by done.
Qed.

Lemma heap_tail x y z M : heap_from cmp_ge 0 (x :: M ++ [z]) → heap_but cmp_ge 0 0 (y :: M).
Proof.
  intros HH. apply heap_but_start; [lia|]. intros p c Hp Hc.
  assert (Hk : ∀ k a, 1 ≤ k → (y :: M).[k] = Some a → (x :: M ++ [z]).[k] = Some a).
  { intros k a Hk. unfold arr_get. destruct (Z.leb_spec 0 k); [|done].
    destruct (Z.to_nat k) as [|k'] eqn:Ek; [lia|]. exact (lookup_app_l_Some M [z] k' a). }
  intros a b Ha Hb. eapply (HH p c); [lia|done|apply Hk; [lia|done]|apply Hk; [destruct Hc; lia|done]].
Qed.

Lemma sort_phase_ok swap m0 base m num E : swap_ok size swap → array_at m0 base E m → alen E = num →
  size < 2 ^ 31 → num * size < 2 ^ 31 → heap_from cmp_ge 0 E →
  ∃ m', loop (S (Z.to_nat num)) (λ '(m, i),
      if i >? 0 then
        m ← swap m base (base + i) size;
        m ← sift_down cmp swap m base size 0 i;
        Some (inl (m, s32 (i - size)))
      else Some (inr m)) (m, s32 (num * size - size)) = Some m' ∧
    ∃ E', array_at m0 base E' m' ∧ E' ≡ₚ E ∧ StronglySorted (cmp_le cmp) E'.
Proof.
  intros Hsw HE <- Hs Hn HH. pose proof (alen_nonneg E).
  apply (loop_rule (λ '(m1, i), ∃ H T, i = (alen H - 1) * size ∧ array_at m0 base (H ++ T) m1 ∧ H ++ T ≡ₚ E ∧
      heap_from cmp_ge 0 H ∧ StronglySorted (cmp_le cmp) T ∧ ∀ x y, x ∈ H → y ∈ T → cmp_le cmp x y)
      (λ '(_, i), Z.to_nat (i / size + 1))).
  - intros [m1 i] (H1 & T & -> & HE1 & HP & HH1 & HS & HHT). pose proof (alen_nonneg H1).
    assert (HL : alen H1 + alen T = alen E) by (rewrite <- alen_app; unfold alen; by rewrite HP).
    pose proof (alen_nonneg T).
    destruct (Z.gtb_spec ((alen H1 - 1) * size) 0) as [Hgt|Hle].
    2:{ eexists; split; [done|]. exists (H1 ++ T). ands; [done|done|]. assert (alen H1 ≤ 1) by nia.
        destruct H1 as [|x [|]]; [done| |unfold alen in *; simpl in *; lia].
        constructor; [done|]. apply list.Forall_forall. intros y Hy. apply HHT; [by left|done]. }
    assert (1 < alen H1) by nia.
    destruct (arr_get_lt H1 0) as [x Hx]; [lia|]. destruct (arr_get_lt H1 (alen H1 - 1)) as [y Hy]; [lia|].
    destruct (swap_at_ok swap m0 base (H1 ++ T) m1 0 (alen H1 - 1) x y) as (m2 & E2 & HE2);
      [done|done|rewrite arr_get_app, decide_True by lia; done..|lia|].
    rewrite Z.mul_0_l, Z.add_0_r in E2. rewrite E2. cbn [mbind option_bind].
    destruct (pop_root H1 T x) as [HS' HHT']; [done..|].
    rewrite exchange_app_l in HE2 by lia.
    destruct (exchange_ends H1 x y) as (M & HM & Hex); [lia|done..|]. rewrite Hex, <- app_assoc in HE2.
    assert (HLM : alen (y :: M) = alen H1 - 1)
      by (rewrite HM; unfold alen; rewrite !length_cons, length_app; simpl; lia).
    rewrite HM in HH1. apply (heap_tail x y) in HH1.
    destruct (sift_down_ok swap m0 base (y :: M) ([x] ++ T) m2 0 0) as (m3 & E3 & H' & HE3 & HP3 & HH3);
      [done|done|nia|lia|lia|done|].
    rewrite Z.mul_0_l, HLM in E3. rewrite E3. cbn [mbind option_bind]. eexists; split; [done|].
    rewrite s32_small by nia. replace ((alen H1 - 1) * size - size) with ((alen H1 - 1 - 1) * size) by lia.
    rewrite !Z.div_mul by lia. split; [|lia]. exists H', (x :: T).
    assert (HH1M : y :: M ++ [x] ≡ₚ H1) by (rewrite HM, (Permutation_app_comm M [x]), (Permutation_app_comm M [y]); constructor).
    ands; [|done| |done|done|].
    + rewrite <- HLM. unfold alen. by rewrite HP3.
    + rewrite HP3, <- HP, <- HH1M. cbn [app]. by rewrite <- app_assoc.
    + intros a b Ha. apply HHT'. rewrite <- HH1M. rewrite HP3 in Ha. rewrite app_comm_cons. apply elem_of_app. by left.
  - exists E, []. rewrite s32_small, app_nil_r by nia. ands; [lia|done..|constructor|].
    intros x y _ Hy%not_elem_of_nil. done.
  - rewrite s32_small by nia. replace (alen E * size - size) with ((alen E - 1) * size) by lia.
    rewrite Z.div_mul by lia. lia.
Qed.

Lemma array_at_elements m base num : 0 ≤ base → 0 ≤ num → base + num * size ≤ alen m → Forall byte m →
  array_at m base (elements m base num size) m.
Proof.
  intros Hb Hn Hf Hby. assert (HL : alen (elements m base num size) = num) by by apply alen_fmap_seqZ.
  split; rewrite ?HL; try done. intros i x Hx. pose proof (arr_get_Some_lt _ _ _ Hx) as Hi. rewrite HL in Hi.
  unfold elements in Hx. rewrite arr_get_fmap_seqZ in Hx by done. unfold arr_read.
  destruct (Z.leb_spec 0 (base + i * size)), (Z.leb_spec 0 size),
    (Z.leb_spec (base + i * size + size) (Z.of_nat (length m))); try (unfold alen in *; nia). done.
Qed.

Lemma elements_array_at m0 base E m : array_at m0 base E m → elements m base (alen E) size = E.
Proof.
  intros HE. pose proof (alen_nonneg E). apply arr_ext; [by apply alen_fmap_seqZ|].
  intros i. unfold elements at 1. rewrite alen_fmap_seqZ by done. intros Hi.
  unfold elements. rewrite arr_get_fmap_seqZ by done. destruct (arr_get_lt E i) as [x Hx]; [done|]. rewrite Hx.
  pose proof (at_elem _ _ _ _ HE i x Hx) as Hr. unfold arr_read in Hr. by case_match.
Qed.
End Elements.

(** C32: [sort] returns for every array of elements of at most [2^31 - 1] bytes in
    all and every comparison callback that is a total preorder: the elements are a
    permutation of the old ones in ascending order, and no byte outside the array is
    changed; with the swaps of the library or any swap callback that exchanges two
    elements. *)
Theorem sort_correct cmp m base num size swap_func :
  Comparator cmp → Forall byte m → 0 < size < 2 ^ 31 → 0 ≤ base → 0 ≤ num → num * size < 2 ^ 31 →
  base + num * size ≤ alen m → match swap_func with Some f => swap_ok size f | None => True end →
  ∃ m', sort cmp m base num size swap_func = Some m' ∧
    elements m' base num size ≡ₚ elements m base num size ∧
    StronglySorted (cmp_le cmp) (elements m' base num size) ∧
    alen m' = alen m ∧ ∀ i, ¬ (base ≤ i < base + num * size) → m'.[i] = m.[i].
Proof.
  intros HC Hby Hs Hb Hn Hl Hf Hswap. unfold sort.
  set (swap := match swap_func with Some f => f | None => _ end).
  assert (Hsw : swap_ok size swap).
  { subst swap. destruct swap_func as [f|]; [done|]. destruct (Z.eqb_spec size 4) as [->|].
    - apply u32_swap_ok.
    - apply generic_swap_ok. lia. }
  pose proof (array_at_elements size (proj1 Hs) m base num Hb Hn Hf Hby) as HE.
  assert (HL : alen (elements m base num size) = num) by by apply alen_fmap_seqZ.
  rewrite (s32_small (num * size)) by nia.
  destruct (heapify_ok cmp size (proj1 Hs) swap m base m num _ Hsw HE HL) as (m1 & -> & E1 & HE1 & HP1 & HH1); [lia..|].
  cbn [mbind option_bind].
  assert (HL1 : alen E1 = num) by (rewrite <- HL; unfold alen; by rewrite HP1).
  destruct (sort_phase_ok cmp size (proj1 Hs) swap m base m1 num _ Hsw HE1 HL1) as (m2 & -> & E2 & HE2 & HP2 & HS2); [lia..|done|].
  assert (HL2 : alen E2 = num) by (rewrite <- HL1; unfold alen; by rewrite HP2).
  exists m2. pose proof (elements_array_at _ _ _ _ _ HE2) as Hel. rewrite HL2 in Hel. rewrite Hel.
  destruct HE2 as [Ha _ _ _ Hfr]. rewrite HL2 in Hfr. ands; [done|by rewrite HP2|done|done|done].
Qed.

(** Three words in descending order, compared as little-endian numbers. *)
Definition cmpword (x y : list Z) : Z := default 0 (load_u32 x 0) - default 0 (load_u32 y 0).

#[local] Instance comparator_cmpword : Comparator cmpword.
Proof. split; unfold cmpword; lia. Qed.

Lemma sort_correct_witness :
  (∃ m', sort cmpword [9; 3; 0; 0; 0; 2; 1; 0; 0; 1; 0; 0; 0; 7] 1 3 4 None = Some m' ∧
    elements m' 1 3 4 ≡ₚ [[3; 0; 0; 0]; [2; 1; 0; 0]; [1; 0; 0; 0]] ∧
    StronglySorted (cmp_le cmpword) (elements m' 1 3 4) ∧ alen m' = 14 ∧
    ∀ i, ¬ (1 ≤ i < 1 + 3 * 4) → m'.[i] = [9; 3; 0; 0; 0; 2; 1; 0; 0; 1; 0; 0; 0; 7].[i]) ∧
  sort cmpword [9; 3; 0; 0; 0; 2; 1; 0; 0; 1; 0; 0; 0; 7] 1 3 4 None =
    Some [9; 1; 0; 0; 0; 3; 0; 0; 0; 2; 1; 0; 0; 7].
Proof.
  split; [|vm_compute; reflexivity].
  apply (sort_correct cmpword [9; 3; 0; 0; 0; 2; 1; 0; 0; 1; 0; 0; 0; 7] 1 3 4 None); try (done || lia).
  - apply comparator_cmpword.
  - repeat constructor; done.
Defined.
