(* ===== verification/PrioHeap.v ===== *)
(** * The bounded priority heap

    Models [lib/prio_heap.c] and [include/linux/prio_heap.h]: a heap of pointers of
    bounded size that, once full, drops the greatest of its elements and the new one.
    [gt] is the comparison callback; the null pointer is [0]. *)

From S2P Require Import Prelude Order.
#[local] Open Scope Z_scope.
#[local] Open Scope kernel_scope.

Record ptr_heap := PtrHeap { ptrs : list Z; hmax : Z; hsize : Z }.

Definition ENOMEM : Z := 12.

(** [sizeof(void * )] on this processor. *)
Definition sizeof_ptr : Z := 4.

(** [kmalloc] gives the cells of the new object, or [None] for a null pointer. *)
Definition heap_init (kmalloc : Z → option (list Z)) (size : Z) : option ptr_heap * Z :=
  match kmalloc size with
  | None => (None, - ENOMEM)
  | Some p => (Some (PtrHeap p (s32 (size / sizeof_ptr)) 0), 0)
  end.

Section PrioHeap.
Context (gt : Z → Z → Z).

(** The first loop: parents smaller than [p] move down. *)
Definition insert_up (p : Z) (ptrs : list Z) (pos : Z) : option (list Z * Z) :=
  loop (S (Z.to_nat pos)) (λ '(ptrs, pos),
    if pos >? 0 then
      x ← ptrs.[Z.quot (pos - 1) 2];
      if ctrue (gt p x) then
        x ← ptrs.[Z.quot (pos - 1) 2];
        ptrs ← ptrs.[pos <- x];
        Some (inl (ptrs, Z.quot (pos - 1) 2))
      else Some (inr (ptrs, pos))
    else Some (inr (ptrs, pos))) (ptrs, pos).

(** The second loop: [p] sinks from the root. *)
Definition insert_down (p size : Z) (ptrs : list Z) : option (list Z) :=
  loop (S (Z.to_nat size)) (λ '(ptrs, pos),
    let left := s32 (2 * pos + 1) in
    let right := s32 (2 * pos + 2) in
    let largest := pos in
    largest ← (if left <? size then x ← ptrs.[left]; Some (if ctrue (gt x p) then left else largest)
               else Some largest);
    largest ← (if right <? size then
                 x ← ptrs.[right]; y ← ptrs.[largest]; Some (if ctrue (gt x y) then right else largest)
               else Some largest);
    if largest =? pos then Some (inr ptrs) else
    x ← ptrs.[largest];
    ptrs ← ptrs.[pos <- x];
    ptrs ← ptrs.[largest <- p];
    Some (inl (ptrs, largest))) (ptrs, 0).

Definition heap_insert (heap : ptr_heap) (p : Z) : option (ptr_heap * Z) :=
  let 'PtrHeap ptrs max size := heap in
  if size <? max then
    '(ptrs, pos) ← insert_up p ptrs size;
    ptrs ← ptrs.[pos <- p];
    Some (PtrHeap ptrs max (s32 (size + 1)), 0)
  else
    x ← ptrs.[0];
    if ctrue (gt p x) then Some (heap, p) else
    ptrs ← ptrs.[0 <- p];
    ptrs ← insert_down p size ptrs;
    Some (PtrHeap ptrs max size, x).

(** A sequence of insertions with the pointers they return. *)
Fixpoint heap_insert_all (heap : ptr_heap) (ps : list Z) : option (ptr_heap * list Z) :=
  match ps with
  | [] => Some (heap, [])
  | p :: ps => '(heap, r) ← heap_insert heap p; '(heap, rs) ← heap_insert_all heap ps; Some (heap, r :: rs)
  end.
End PrioHeap.

(** ** Contract of the callback and invariant *)

(** [gt] is a strict weak order: not being less is a total preorder. *)
Class Greater (gt : Z → Z → Z) : Prop := {
  gt_asym x y : gt x y ≠ 0 → gt y x = 0;
  ge_trans x y z : gt y x = 0 → gt z y = 0 → gt z x = 0 }.

(** [x] is at least [y]. *)
Definition no_less (gt : Z → Z → Z) (x y : Z) : Prop := gt y x = 0.

(** The elements a heap holds. *)
Definition contents (h : ptr_heap) : list Z := take (Z.to_nat (hsize h)) (ptrs h).

Record heap_wf (gt : Z → Z → Z) (h : ptr_heap) : Prop := {
  wf_max : 1 ≤ hmax h < 2 ^ 30;
  wf_size : 0 ≤ hsize h ≤ hmax h;
  wf_room : hmax h ≤ alen (ptrs h);
  wf_order : heap_from (no_less gt) 0 (contents h) }.

Section Facts.
Context (gt : Z → Z → Z) `{!Greater gt}.
#[local] Abbreviation ge := (no_less gt).

#[local] Instance no_less_preorder : PreOrder ge.
Proof.
  unfold no_less. split.
  - intros x. destruct (decide (gt x x = 0)) as [|H]; [done|]. by apply gt_asym.
  - intros x y z. apply ge_trans.
Qed.

Lemma ctrue_gt x y : if ctrue (gt x y) then ge x y else ge y x.
Proof.
  destruct (ctrue (gt x y)) eqn:E; [|by apply ctrue_false].
  apply ctrue_true in E. by apply gt_asym.
Qed.

Lemma quot_parent pos : 0 < pos → 0 ≤ Z.quot (pos - 1) 2 < pos ∧ child (Z.quot (pos - 1) 2) pos.
Proof. unfold child. intros. rewrite Z.quot_div_nonneg by lia. Z.to_euclidean_division_equations. lia. Qed.

Lemma exchange_l i j x y (V T : list Z) : 0 ≤ i < alen V → 0 ≤ j < alen V →
  exchange i j x y (V ++ T) = exchange i j x y V ++ T.
Proof. unfold exchange, alen. intros. rewrite !insert_app_l; rewrite ?length_insert; [done|lia..]. Qed.

Lemma insert_up_ok p V T t pos : V.[pos] = Some p → heap_up_but ge pos V →
  ∃ o, insert_up gt p (<[Z.to_nat pos := t]> V ++ T) pos = Some o ∧
    ∃ ps q V' t', o = (ps, q) ∧ ps = <[Z.to_nat q := t']> V' ++ T ∧ 0 ≤ q < alen V' ∧ alen V' = alen V ∧
      V'.[q] = Some p ∧ V' ≡ₚ V ∧ heap_from ge 0 V'.
Proof.
  intros Hp HV. pose proof (arr_get_Some_lt _ _ _ Hp) as Hpos. unfold insert_up.
  apply (loop_rule (λ '(ps, q), ∃ V' t', ps = <[Z.to_nat q := t']> V' ++ T ∧ 0 ≤ q < alen V' ∧ alen V' = alen V ∧
      V'.[q] = Some p ∧ V' ≡ₚ V ∧ heap_up_but ge q V') (λ '(_, q), Z.to_nat q)).
  2:{ exists V, t. ands; [done|lia|lia|done..]. }
  2:{ lia. }
  intros [ps q] (V' & t' & -> & Hq & HL & Hp' & HP & HB).
  destruct (Z.gtb_spec q 0) as [Hgt|Hle].
  2:{ eexists; split; [done|]. eexists _, q, V', t'. ands; [done|done|lia|lia|done|done|done|].
      eapply heap_up_done; [done|]. unfold child. lia. }
  destruct (quot_parent q) as [Hb Hc]; [done|]. set (par := Z.quot (q - 1) 2) in *.
  destruct (arr_get_lt V' par) as [x Hx]; [lia|].
  assert (Hx' : (<[Z.to_nat q := t']> V' ++ T).[par] = Some x).
  { rewrite arr_get_app, decide_True, arr_get_insert, decide_False by (rewrite ?alen_insert; lia). done. }
  rewrite Hx'. cbn [mbind option_bind]. pose proof (ctrue_gt p x) as Hgt'. destruct (ctrue (gt p x)).
  - rewrite arr_set_lt by (rewrite alen_app, alen_insert; pose proof (alen_nonneg T); lia).
    cbn [mbind option_bind]. eexists; split; [done|]. split; [|lia].
    exists (exchange q par p x V'), x.
    rewrite alen_exchange, (exchange_get q par p x V' par Hp' Hx), decide_False, decide_True by lia.
    ands; [|lia|lia|lia|done|by rewrite exchange_perm|apply heap_up_step; [apply _|lia|done..]].
    rewrite insert_app_l by (rewrite length_insert; unfold alen in *; lia). f_equal. unfold exchange.
    apply arr_ext; [by rewrite !alen_insert|]. rewrite !alen_insert. intros i Hi.
    rewrite !arr_get_insert by (rewrite ?alen_insert; lia). repeat case_decide; try done; try lia. by subst.
  - eexists; split; [done|]. eexists _, q, V', t'. ands; [done|done|lia|lia|done|done|done|].
    eapply heap_up_done; [done|]. intros p' Hp'0 Hc' a b Ha Hb'. assert (p' = par) as -> by (destruct Hc, Hc'; lia).
    by simplify_eq.
Qed.

(** The child that the second loop compares greatest, or the node itself. *)
Lemma largest_ok p size ps pos V T : ps = V ++ T → alen V = size → size < 2 ^ 30 → V.[pos] = Some p →
  ∃ l y, (largest ← (if s32 (2 * pos + 1) <? size then
             x ← ps.[s32 (2 * pos + 1)]; Some (if ctrue (gt x p) then s32 (2 * pos + 1) else pos)
           else Some pos);
         if s32 (2 * pos + 2) <? size then
           x ← ps.[s32 (2 * pos + 2)]; y ← ps.[largest];
           Some (if ctrue (gt x y) then s32 (2 * pos + 2) else largest)
         else Some largest) = Some l ∧
    (l = pos ∨ child pos l) ∧ V.[l] = Some y ∧ ge y p ∧ ∀ c z, child pos c → V.[c] = Some z → ge y z.
Proof.
  intros -> <- Hs Hp. pose proof (arr_get_Some_lt _ _ _ Hp) as Hpos. rewrite !s32_small by lia.
  assert (Hin : ∀ k z, V.[k] = Some z → (V ++ T).[k] = Some z).
  { intros k z Hz. pose proof (arr_get_Some_lt _ _ _ Hz). by rewrite arr_get_app, decide_True by lia. }
  assert (∃ l y, (if 2 * pos + 1 <? alen V then
             x ← (V ++ T).[2 * pos + 1]; Some (if ctrue (gt x p) then 2 * pos + 1 else pos)
           else Some pos) = Some l ∧ (l = pos ∨ l = 2 * pos + 1) ∧ V.[l] = Some y ∧ ge y p ∧
           ∀ z, V.[2 * pos + 1] = Some z → ge y z) as (l & y & -> & Hl & Hy & Hyp & Hyl).
  { destruct (Z.ltb_spec (2 * pos + 1) (alen V)) as [Hlt|Hge].
    - destruct (arr_get_lt V (2 * pos + 1)) as [x Hx]; [lia|]. rewrite (Hin _ _ Hx). cbn [mbind option_bind].
      pose proof (ctrue_gt x p) as Hg. destruct (ctrue (gt x p)).
      + exists (2 * pos + 1), x. ands; [done|by right|done|done|]. intros z Hz. by simplify_eq.
      + exists pos, p. ands; [done|by left|done|reflexivity|]. intros z Hz. by simplify_eq.
    - exists pos, p. ands; [done|by left|done|reflexivity|]. intros z Hz%arr_get_Some_lt. lia. }
  cbn [mbind option_bind]. destruct (Z.ltb_spec (2 * pos + 2) (alen V)) as [Hlt|Hge].
  - destruct (arr_get_lt V (2 * pos + 2)) as [x Hx]; [lia|]. rewrite (Hin _ _ Hx), (Hin _ _ Hy). cbn [mbind option_bind].
    pose proof (ctrue_gt x y) as Hg. destruct (ctrue (gt x y)).
    + exists (2 * pos + 2), x. ands; [done|right; by right|done|by transitivity y|].
      intros c z [-> | ->] Hz; simplify_eq; [transitivity y; [done|by apply Hyl]|reflexivity].
    + exists l, y. ands; [done|destruct Hl as [-> | ->]; [by left|right; by left]|done|done|].
      intros c z [-> | ->] Hz; simplify_eq; [by apply Hyl|done].
  - exists l, y. ands; [done|destruct Hl as [-> | ->]; [by left|right; by left]|done|done|].
    intros c z [-> | ->] Hz; [by apply Hyl|]. apply arr_get_Some_lt in Hz. lia.
Qed.

Lemma insert_down_ok p size V T : alen V = size → size < 2 ^ 30 → V.[0] = Some p → heap_but ge 0 0 V →
  ∃ ps, insert_down gt p size (V ++ T) = Some ps ∧
    ∃ V', ps = V' ++ T ∧ alen V' = size ∧ V' ≡ₚ V ∧ heap_from ge 0 V'.
Proof.
  intros HL Hs H0 HB. unfold insert_down.
  apply (loop_rule (λ '(ps, pos), ∃ V', ps = V' ++ T ∧ alen V' = size ∧ V' ≡ₚ V ∧ V'.[pos] = Some p ∧
      heap_but ge 0 pos V') (λ '(_, pos), Z.to_nat (size - pos))).
  - intros [ps pos] (V1 & E1 & HL1 & HP1 & Hp & HB1). pose proof (arr_get_Some_lt _ _ _ Hp) as Hpos.
    destruct (largest_ok p size ps pos V1 T) as (l & y & El & Hl & Hy & Hyp & Hch); [done..|]. subst ps.
    cbv zeta. destruct (if s32 (2 * pos + 1) <? size then _ else _) as [l1|]; [|done].
    cbn [mbind option_bind] in El |- *. rewrite El. cbn [mbind option_bind].
    destruct (Z.eqb_spec l pos) as [->|Hne].
    { simplify_eq. eexists; split; [done|]. exists V1. ands; [done..|].
      eapply heap_but_done; [done|]. intros c Hc a b Ha Hb. simplify_eq. by eapply Hch. }
    destruct Hl as [->|Hl]; [done|]. pose proof (arr_get_Some_lt _ _ _ Hy) as Hll.
    pose proof (alen_nonneg T).
    rewrite arr_get_app, decide_True, Hy by lia. cbn [mbind option_bind].
    rewrite arr_set_lt by (rewrite alen_app; lia). cbn [mbind option_bind].
    rewrite arr_set_lt by (rewrite alen_insert, alen_app; lia). cbn [mbind option_bind].
    eexists; split; [done|]. split; [|destruct Hl; lia].
    exists (exchange pos l p y V1). rewrite alen_exchange, (exchange_get pos l p y V1 l Hp Hy).
    rewrite decide_False, decide_True by (destruct Hl; lia).
    ands; [|done|by rewrite exchange_perm|done|apply heap_but_step; try done; lia].
    rewrite <- exchange_l by lia. unfold exchange. destruct Hl; apply list_insert_insert_ne; lia.
  - exists V. by ands.
  - lia.
Qed.

Lemma take_front (V T : list Z) n : alen V = n → take (Z.to_nat n) (V ++ T) = V.
Proof. unfold alen. intros <-. by rewrite Nat2Z.id, take_app_length. Qed.

(** The array split at the elements of the heap. *)
Lemma heap_split h : heap_wf gt h → ∃ T, ptrs h = contents h ++ T ∧ alen (contents h) = hsize h.
Proof.
  intros [? ? ? _]. exists (drop (Z.to_nat (hsize h)) (ptrs h)). unfold contents.
  split; [by rewrite take_drop|]. apply alen_take. lia.
Qed.

(** Insertion in a heap with room adds the element. *)
Lemma heap_insert_room h p : heap_wf gt h → hsize h < hmax h →
  ∃ h', heap_insert gt h p = Some (h', 0) ∧ heap_wf gt h' ∧ hmax h' = hmax h ∧ contents h' ≡ₚ p :: contents h.
Proof.
  intros Hwf Hlt. destruct (heap_split h Hwf) as (T & ET & LT). destruct Hwf as [Hm Hsz Hroom Hord].
  unfold heap_insert. set (C := contents h) in *. clearbody C. destruct h as [ps mx sz]. cbn [ptrs hmax hsize] in *. subst ps.
  destruct (Z.ltb_spec sz mx); [|lia]. destruct T as [|t T]; [rewrite app_nil_r in Hroom; lia|].
  destruct (insert_up_ok p (C ++ [p]) T t sz) as (o & E & ps' & q & V & t' & -> & -> & Hq & LV & Hp & HP & HH).
  { rewrite arr_get_app, decide_False by lia. by rewrite LT, Z.sub_diag. }
  { rewrite <- LT. by apply heap_up_start. }
  replace (<[Z.to_nat sz := t]> (C ++ [p]) ++ T) with (C ++ t :: T) in E; last first.
  { rewrite <- LT. unfold alen. rewrite Nat2Z.id, insert_app_r_alt, Nat.sub_diag by done. by rewrite <- app_assoc. }
  rewrite E. cbn [mbind option_bind].
  rewrite alen_app in LV. change (alen [p]) with 1 in LV.
  rewrite arr_set_lt by (rewrite alen_app, alen_insert; pose proof (alen_nonneg T); lia). cbn [mbind option_bind].
  rewrite s32_small, insert_app_l, list_insert_insert_eq by (rewrite ?length_insert; unfold alen in *; lia).
  rewrite list_insert_id by (revert Hp; unfold arr_get; by destruct (Z.leb_spec 0 q); [|lia]).
  eexists; split; [done|]. ands.
  - split; cbn; [done|lia| |].
    + rewrite alen_app in *. change (alen (t :: T)) with (Z.of_nat (S (length T))) in Hroom. unfold alen in *. lia.
    + unfold contents. cbn. by rewrite take_front by lia.
  - done.
  - unfold contents. cbn. rewrite take_front by lia. rewrite HP. by rewrite Permutation_app_comm.
Qed.

(** Insertion in a full heap drops a greatest element. *)
Lemma heap_insert_full h p : heap_wf gt h → hsize h = hmax h →
  ∃ h' r, heap_insert gt h p = Some (h', r) ∧ heap_wf gt h' ∧ hmax h' = hmax h ∧ hsize h' = hsize h ∧
    r :: contents h' ≡ₚ p :: contents h ∧ Forall (ge r) (p :: contents h).
Proof.
  intros Hwf Heq. pose proof Hwf as [Hm Hsz Hroom Hord]. destruct (heap_split h Hwf) as (T & ET & LT).
  destruct (arr_get_lt (contents h) 0) as [x Hx]; [lia|].
  pose proof (heap_root _ _ _ Hord Hx) as Hmax.
  unfold heap_insert. destruct h as [ps mx sz]. cbn [ptrs hmax hsize] in *.
  destruct (Z.ltb_spec sz mx); [lia|]. remember (contents (PtrHeap ps mx sz)) as C eqn:HC.
  assert (Hx' : ps.[0] = Some x) by (by rewrite ET, arr_get_app, decide_True by lia).
  rewrite Hx'. cbn [mbind option_bind]. pose proof (ctrue_gt p x) as Hg. destruct (ctrue (gt p x)).
  - exists (PtrHeap ps mx sz), p. rewrite <- HC. ands; [done..|]. constructor; [reflexivity|].
    revert Hmax. apply List.Forall_impl. intros y Hy. by transitivity x.
  - pose proof (alen_nonneg T). rewrite ET, arr_set_lt by (rewrite alen_app; lia). cbn [mbind option_bind].
    rewrite insert_app_l by (unfold alen in *; lia).
    destruct (insert_down_ok p sz (<[Z.to_nat 0 := p]> C) T) as (ps' & -> & V & -> & LV & HP & HH);
      [by rewrite alen_insert|lia|rewrite arr_get_insert, decide_True by lia; done| |].
    { apply heap_but_start; [lia|]. intros a b Ha Hb u v. unfold child in Hb.
      rewrite !arr_get_insert, !decide_False by lia. apply Hord; [lia|done]. }
    cbn [mbind option_bind]. eexists _, x. ands; [done| |done|done| |].
    + split; cbn [ptrs hmax hsize]; [done|done|rewrite ET, alen_app in Hroom; rewrite alen_app; lia|].
      unfold contents. cbn [ptrs hsize]. by rewrite take_front.
    + unfold contents at 1. cbn [ptrs hsize]. rewrite take_front, HP by done.
      clear -Hx. destruct C as [|x' C]; [done|]. injection Hx as ->. constructor.
    + by constructor.
Qed.
End Facts.

(** The pointers that a sequence of insertions dropped: the non-null results. *)
Definition dropped (rs : list Z) : list Z := filter (λ r, r ≠ 0) rs.

(** After drops the heap is full and what was dropped is no less than what is kept. *)
Record keeps (gt : Z → Z → Z) (h : ptr_heap) (D : list Z) : Prop := {
  keep_wf : heap_wf gt h;
  keep_null : Forall (λ p, p ≠ 0) (contents h);
  keep_full : D ≠ [] → hsize h = hmax h;
  keep_small x y : x ∈ contents h → y ∈ D → no_less gt y x }.

Lemma contents_size gt h : heap_wf gt h → hsize h = alen (contents h).
Proof. intros Hwf. by destruct (heap_split gt h Hwf) as (T & _ & ->). Qed.

Lemma heap_insert_keeps gt h D p : Greater gt → keeps gt h D → p ≠ 0 →
  ∃ h' r, heap_insert gt h p = Some (h', r) ∧ keeps gt h' (D ++ dropped [r]) ∧ hmax h' = hmax h ∧
    contents h' ++ dropped [r] ≡ₚ p :: contents h ∧ hsize h' = Z.min (hmax h) (hsize h + 1).
Proof.
  intros HG [Hwf Hnn Hfull Hsm] Hp. pose proof (wf_size _ _ Hwf) as Hsz.
  destruct (decide (hsize h < hmax h)) as [Hlt|Hge].
  - destruct (heap_insert_room gt h p) as (h' & -> & Hwf' & Hm & HP); [done..|].
    assert (D = []) as -> by (destruct D; [done|]; specialize (Hfull ltac:(done)); lia).
    assert (Hsz' : hsize h' = hsize h + 1).
    { rewrite !(contents_size gt) by done. unfold alen. rewrite HP. simpl. lia. }
    exists h', 0. ands; [done| |done|by rewrite app_nil_r|lia]. split; [done| |done|].
    + rewrite HP. by constructor.
    + intros x y _ Hy%not_elem_of_nil. done.
  - destruct (heap_insert_full gt h p) as (h' & r & -> & Hwf' & Hm & Hs & HP & Hr); [done..|lia|].
    assert (Hr0 : r ≠ 0 ∧ (r = p ∨ r ∈ contents h)).
    { assert (r ∈ p :: contents h) as [-> |Hin]%elem_of_cons by (rewrite <- HP; by left); [by auto|].
      split; [|by right]. by eapply list.Forall_forall in Hnn. }
    destruct Hr0 as [Hr0 Hrin]. assert (Hd : dropped [r] = [r]) by (unfold dropped; by rewrite filter_cons_True).
    assert (Hsub : ∀ x, x ∈ contents h' → x ∈ p :: contents h) by (intros x Hx; rewrite <- HP; by right).
    exists h', r. rewrite Hd. ands; [done| |done|by rewrite Permutation_app_comm|lia]. split; [done| |lia|].
    + apply list.Forall_forall. intros x [-> |Hx]%Hsub%elem_of_cons; [done|]. by eapply list.Forall_forall in Hnn.
    + intros x y Hx [Hy|Hy%list_elem_of_singleton]%elem_of_app.
      2:{ subst. eapply list.Forall_forall in Hr; [done|]. by apply Hsub. }
      destruct (proj1 (elem_of_cons _ _ _) (Hsub x Hx)) as [-> |Hx']; [|by apply Hsm].
      destruct Hrin as [-> |Hrc].
      * apply Hsm; [|done]. apply (Permutation_cons_inv (l := contents h') (l' := contents h) (a := p)) in HP.
        by rewrite <- HP.
      * pose proof (Hsm r y Hrc Hy) as H1. apply list.Forall_cons in Hr as [H2 _]. unfold no_less in *.
        by eapply ge_trans.
Qed.

Lemma heap_insert_all_ok gt ps h D : Greater gt → Forall (λ p, p ≠ 0) ps → keeps gt h D →
  ∃ h' rs, heap_insert_all gt h ps = Some (h', rs) ∧ keeps gt h' (D ++ dropped rs) ∧
    contents h' ++ dropped rs ≡ₚ contents h ++ ps ∧ hsize h' = Z.min (hmax h) (hsize h + alen ps).
Proof.
  intros HG. revert h D. induction ps as [|p ps IH]; intros h D Hps HK.
  - exists h, []. pose proof (wf_size _ _ (keep_wf _ _ _ HK)). rewrite !app_nil_r. unfold alen. simpl. ands; [done..|lia].
  - apply list.Forall_cons in Hps as [Hp Hps]. cbn [heap_insert_all].
    destruct (heap_insert_keeps gt h D p) as (h1 & r & -> & HK1 & Hm1 & HP1 & Hs1); [done..|]. cbn [mbind option_bind].
    destruct (IH h1 (D ++ dropped [r])) as (h2 & rs & -> & HK2 & HP2 & Hs2); [done..|]. cbn [mbind option_bind].
    assert (Hd : dropped (r :: rs) = dropped [r] ++ dropped rs).
    { unfold dropped. rewrite !filter_cons. by case_decide. }
    exists h2, (r :: rs). rewrite Hd, app_assoc. ands; [done|done| |].
    + rewrite (Permutation_app_comm (dropped [r])), app_assoc, HP2, <- app_assoc, (Permutation_app_comm ps),
        app_assoc, HP1. apply Permutation_middle.
    + rewrite Hs2, Hs1, Hm1. unfold alen. simpl. lia.
Qed.

(** C39: A heap made by [heap_init] for [n] pointers, after any sequence of insertions of
    non-null pointers: the pointers kept and the ones returned are together the
    inserted ones, the heap keeps as many as it has room for, and every pointer
    that was dropped is no less than every one that is kept: the heap holds the
    [n] smallest.  Without memory the initialisation reports [-ENOMEM]. *)
Theorem prio_heap_keeps_smallest gt kmalloc size ps :
  Greater gt → Forall (λ p, p ≠ 0) ps → 4 ≤ size < 2 ^ 31 →
  (∀ l, kmalloc size = Some l → size / 4 ≤ alen l) →
  match heap_init kmalloc size with
  | (None, err) => kmalloc size = None ∧ err = - ENOMEM
  | (Some h, err) => err = 0 ∧
      ∃ h' rs, heap_insert_all gt h ps = Some (h', rs) ∧ heap_wf gt h' ∧
        contents h' ++ dropped rs ≡ₚ ps ∧ alen (contents h') = Z.min (size / 4) (alen ps) ∧
        ∀ x y, x ∈ contents h' → y ∈ dropped rs → no_less gt y x
  end.
Proof.
  intros HG Hps Hsize Hk. unfold heap_init. destruct (kmalloc size) as [l|]; [|done].
  specialize (Hk l eq_refl). assert (1 ≤ size / 4 < 2 ^ 30) by (Z.to_euclidean_division_equations; lia).
  change sizeof_ptr with 4. rewrite s32_small by lia. split; [done|].
  assert (HK : keeps gt (PtrHeap l (size / 4) 0) []).
  { split; [|by constructor|done|by intros x y Hx%not_elem_of_nil].
    split; cbn [ptrs hmax hsize]; [done|lia|done|]. intros a b Ha Hb x y Hx%arr_get_Some_lt. unfold contents, alen in Hx. simpl in Hx. lia. }
  destruct (heap_insert_all_ok gt ps _ [] HG Hps HK) as (h' & rs & -> & [Hwf _ _ Hsm] & HP & Hs).
  exists h', rs. ands; [done..| |done]. rewrite <- (contents_size gt) by done. rewrite Hs. cbn. lia.
Qed.

(** A heap for two pointers ordered by address keeps the two smallest of five. *)
#[local] Instance greater_gtb : Greater (λ x y, cbool (x >? y)).
Proof.
  split; intros x y; unfold cbool.
  - destruct (Z.gtb_spec x y), (Z.gtb_spec y x); lia.
  - intros z. destruct (Z.gtb_spec y x), (Z.gtb_spec z y), (Z.gtb_spec z x); lia.
Qed.

Lemma prio_heap_keeps_smallest_witness :
  (∃ h' rs, heap_insert_all (λ x y, cbool (x >? y)) (PtrHeap [0; 0] 2 0) [30; 10; 40; 20; 50] = Some (h', rs) ∧
    heap_wf (λ x y, cbool (x >? y)) h' ∧ contents h' ++ dropped rs ≡ₚ [30; 10; 40; 20; 50] ∧
    alen (contents h') = 2 ∧
    ∀ x y, x ∈ contents h' → y ∈ dropped rs → no_less (λ x y, cbool (x >? y)) y x) ∧
  heap_insert_all (λ x y, cbool (x >? y)) (PtrHeap [0; 0] 2 0) [30; 10; 40; 20; 50] =
    Some (PtrHeap [20; 10] 2 2, [0; 0; 40; 30; 50]).
Proof.
  split; [|vm_compute; reflexivity].
  apply (prio_heap_keeps_smallest (λ x y, cbool (x >? y)) (λ _, Some [0; 0]) 8 [30; 10; 40; 20; 50]).
  - apply greater_gtb.
  - repeat constructor; done.
  - lia.
  - intros l [= <-]. done.
Defined.
