(* ===== verification/ListSort.v ===== *)
(** * Merge sort of linked lists

    Models [lib/list_sort.c] on a memory of [struct list_head] nodes: the bottom-up
    merge sort that keeps sorted sublists of doubling length in [part], and the last
    merge, which restores the back links of the circular list.  The comparison
    callback is partial: it is defined on the elements of the list only. *)

From S2P Require Import Prelude Order.
From Stdlib Require Import Sorted.
From stdpp Require Import gmap sorting.
#[local] Open Scope Z_scope.
#[local] Open Scope kernel_scope.

Record list_head := ListHead { next : Z; prev : Z }.
Abbreviation mem := (gmap Z list_head).

Definition get_next (m : mem) (p : Z) : option Z := n ← m !! p; Some (next n).
Definition get_prev (m : mem) (p : Z) : option Z := n ← m !! p; Some (prev n).
Definition set_next (m : mem) (p v : Z) : option mem := n ← m !! p; Some (<[p := ListHead v (prev n)]> m).
Definition set_prev (m : mem) (p v : Z) : option mem := n ← m !! p; Some (<[p := ListHead (next n) v]> m).

Definition MAX_LIST_LENGTH_BITS : Z := 20.

Section ListSort.
Context (cmp : Z → Z → option Z).

(** [tail] of [merge] points to the local variable [head] ([None]) or to an element;
    [h] is [head.next]. *)
Definition tail_set (m : mem) (h : Z) (tail : option Z) (v : Z) : option (mem * Z) :=
  match tail with None => Some (m, v) | Some t => m ← set_next m t v; Some (m, h) end.
Definition tail_next (m : mem) (h : Z) (tail : option Z) : option Z :=
  match tail with None => Some h | Some t => get_next m t end.

Definition merge (m : mem) (a b : Z) : option (mem * Z) :=
  '(m, h, tail, a, b) ← loop (S (size m)) (λ '(m, h, tail, a, b),
    if ctrue a && ctrue b then
      d ← cmp a b;
      if d <=? 0 then
        '(m, h) ← tail_set m h tail a;
        a ← get_next m a;
        t ← tail_next m h tail;
        Some (inl (m, h, Some t, a, b))
      else
        '(m, h) ← tail_set m h tail b;
        b ← get_next m b;
        t ← tail_next m h tail;
        Some (inl (m, h, Some t, a, b))
    else Some (inr (m, h, tail, a, b))) (m, 0, None, a, b);
  tail_set m h tail (if ctrue a then a else b).

(** The end of [merge_and_restore_back_links]: the back links of what is left. *)
Definition restore_back (m : mem) (head tail : Z) : option mem :=
  '(m, tail) ← loop (S (size m)) (λ '(m, tail),
    _ ← cmp tail tail;
    n ← get_next m tail;
    m ← set_prev m n tail;
    tail ← get_next m tail;
    n ← get_next m tail;
    if ctrue n then Some (inl (m, tail)) else Some (inr (m, tail))) (m, tail);
  m ← set_next m tail head;
  set_prev m head tail.

Definition merge_and_restore_back_links (m : mem) (head a b : Z) : option mem :=
  '(m, tail, a, b) ← loop (S (size m)) (λ '(m, tail, a, b),
    if ctrue a && ctrue b then
      d ← cmp a b;
      if d <=? 0 then
        m ← set_next m tail a;
        m ← set_prev m a tail;
        a ← get_next m a;
        tail ← get_next m tail;
        Some (inl (m, tail, a, b))
      else
        m ← set_next m tail b;
        m ← set_prev m b tail;
        b ← get_next m b;
        tail ← get_next m tail;
        Some (inl (m, tail, a, b))
    else Some (inr (m, tail, a, b))) (m, head, a, b);
  m ← set_next m tail (if ctrue a then a else b);
  restore_back m head tail.

(** The carry of the binary counter: [for (lev = 0; part[lev]; lev++)]. *)
Definition carry (m : mem) (part : list Z) (cur : Z) : option (mem * list Z * Z * Z) :=
  loop (S (length part)) (λ '(m, part, cur, lev),
    p ← part.[lev];
    if ctrue p then
      '(m, cur) ← merge m p cur;
      part ← part.[lev <- 0];
      Some (inl (m, part, cur, lev + 1))
    else Some (inr (m, part, cur, lev))) (m, part, cur, 0).

Definition list_sort (m : mem) (head : Z) : option mem :=
  n ← get_next m head;
  if n =? head then Some m else
  let part := replicate (Z.to_nat (MAX_LIST_LENGTH_BITS + 1)) 0 in
  p ← get_prev m head;
  m ← set_next m p 0;
  list ← get_next m head;
  '(m, part, max_lev, list) ← loop (S (size m)) (λ '(m, part, max_lev, list),
    if ctrue list then
      let cur := list in
      list ← get_next m list;
      m ← set_next m cur 0;
      '(m, part, cur, lev) ← carry m part cur;
      let lev' := if lev >? max_lev then
                    if lev >=? MAX_LIST_LENGTH_BITS + 1 - 1 then lev - 1 else lev
                  else lev in
      let max_lev := if lev >? max_lev then lev' else max_lev in
      part ← part.[lev' <- cur];
      Some (inl (m, part, max_lev, list))
    else Some (inr (m, part, max_lev, list))) (m, part, 0, list);
  '(m, list) ← for_up 0 max_lev (λ lev '(m, list),
    p ← part.[lev];
    if ctrue p then merge m p list else Some (m, list)) (m, list);
  p ← part.[max_lev];
  merge_and_restore_back_links m head p list.
End ListSort.

(** ** Lists in memory *)

(** The next links lead from [p] through the nodes [l] to [q]. *)
Fixpoint seg (m : mem) (p : Z) (l : list Z) (q : Z) : Prop :=
  match l with
  | [] => p = q
  | x :: l => p = x ∧ x ≠ 0 ∧ ∃ n, m !! x = Some n ∧ seg m (next n) l q
  end.

(** A null-terminated list. *)
Definition chain (m : mem) (p : Z) (l : list Z) : Prop := seg m p l 0.

(** Forward and backward links from [p] through [l]. *)
Fixpoint links (m : mem) (p : Z) (l : list Z) : Prop :=
  match l with
  | [] => True
  | x :: l => get_next m p = Some x ∧ get_prev m x = Some p ∧ links m x l
  end.

(** The circular doubly linked list with elements [l] at [head]. *)
Definition circular (m : mem) (head : Z) (l : list Z) : Prop :=
  links m head (l ++ [head]) ∧ NoDup (head :: l) ∧ 0 ∉ head :: l.

(** ** Stable reordering *)
Section Stable.
Context (c : Z → Z → Z) `{!Comparator c}.

(** The elements of a list equivalent to [x], in order. *)
Definition like (x : Z) (l : list Z) : list Z := filter (λ y, c x y = 0) l.

(** A permutation that keeps the order of equivalent elements. *)
Definition stable (l l' : list Z) : Prop := l' ≡ₚ l ∧ ∀ x, like x l' = like x l.

#[global] Instance cmp_le_dec x y : Decision (cmp_le c x y).
Proof. unfold cmp_le. apply _. Defined.

#[global] Instance stable_equiv : Equivalence stable.
Proof.
  split.
  - done.
  - intros l l' [HP Hx]. split; [done|]. intros x. by rewrite Hx.
  - intros l l' l'' [HP Hx] [HP' Hx']. split; [by rewrite HP'|]. intros x. by rewrite Hx'.
Qed.

#[global] Instance stable_app : Proper (stable ==> stable ==> stable) app.
Proof.
  intros l l' [HP Hx] k k' [HP' Hx']. split; [by rewrite HP, HP'|].
  intros x. unfold like in *. by rewrite !filter_app, Hx, Hx'.
Qed.

Abbreviation fmerge := (list_merge (cmp_le c)).
Abbreviation sorted := (StronglySorted (cmp_le c)).

#[global] Instance cmp_le_trans : Transitive (cmp_le c).
Proof. intros x y z. apply cmp_trans. Qed.
#[global] Instance cmp_le_total : Total (cmp_le c).
Proof. intros x y. unfold cmp_le. destruct (decide (c x y ≤ 0)); [by left|]. right. apply cmp_flip. lia. Qed.

Lemma cmp_eq_sym x y : c x y = 0 → c y x = 0.
Proof.
  intros H. assert (c y x ≤ 0) by (apply cmp_flip; lia). assert (0 ≤ c y x) by (apply cmp_flip; lia). lia.
Qed.

Lemma cmp_gt_le x y z : 0 < c x y → c x z ≤ 0 → 0 < c z y.
Proof.
  intros Hxy Hxz. destruct (decide (c z y ≤ 0)) as [H|]; [|lia].
  pose proof (cmp_trans x z y Hxz H). lia.
Qed.

(** Two elements equivalent to the same one are equivalent. *)
Lemma cmp_eq_trans x y z : c x y = 0 → c x z = 0 → c y z = 0.
Proof.
  intros Hy Hz. apply cmp_eq_sym in Hy as Hy'. apply cmp_eq_sym in Hz as Hz'.
  assert (c y z ≤ 0) by (apply (cmp_trans y x z); lia).
  assert (c z y ≤ 0) by (apply (cmp_trans z x y); lia). assert (0 ≤ c y z) by (apply cmp_flip; lia). lia.
Qed.

Lemma fmerge_sorted la lb : sorted la → sorted lb → sorted (fmerge la lb).
Proof.
  intros Ha Hb. apply Sorted_StronglySorted; [apply _|]. apply Sorted_list_merge; [apply _|..]; by apply StronglySorted_Sorted.
Qed.

(** Merging sorted lists keeps the order of equivalent elements. *)
Lemma fmerge_stable la lb : sorted la → sorted lb → stable (la ++ lb) (fmerge la lb).
Proof.
  intros Ha Hb. split; [apply merge_Permutation|]. intros x. revert lb Hb.
  induction la as [|a la IHa]; intros lb Hb; [by destruct lb|].
  induction lb as [|b lb IHb]; [by rewrite app_nil_r|].
  inversion Ha as [|? ? Ha' Fa]; subst. inversion Hb as [|? ? Hb' Fb]; subst.
  rewrite list_merge_cons. case_decide as Hd.
  - unfold like in *. cbn [app]. rewrite !filter_cons, IHa by done. done.
  - assert (Hlb : like x (fmerge (a :: la) lb) = like x ((a :: la) ++ lb)) by by apply IHb.
    unfold like in *. rewrite filter_app in *. rewrite !(filter_cons _ b), Hlb.
    destruct (decide (c x b = 0)) as [Hxb|Hxb]; [|done].
    replace (filter (λ y, c x y = 0) (a :: la)) with ([] : list Z); [done|].
    symmetry. apply elem_of_nil_inv. intros y [Hxy Hy]%list_elem_of_filter. pose proof (cmp_eq_trans x y b Hxy Hxb).
    assert (Hay : y = a ∨ c a y ≤ 0).
    { apply elem_of_cons in Hy as [-> |Hy]; [by left|right]. by eapply list.Forall_forall in Fa. }
    unfold cmp_le in Hd. destruct Hay as [-> |Hay]; [lia|]. pose proof (cmp_gt_le a b y). lia.
Qed.
End Stable.

(** ** The merges *)

(** Nodes outside [l] are untouched and no node appears or disappears. *)
Definition frame (l : list Z) (m m' : mem) : Prop :=
  (∀ q, q ∉ l → m' !! q = m !! q) ∧ size m' = size m ∧ ∀ q, is_Some (m' !! q) ↔ is_Some (m !! q).

Lemma frame_refl l m : frame l m m.
Proof. done. Qed.

Lemma frame_trans l m m' m'' : frame l m m' → frame l m' m'' → frame l m m''.
Proof.
  intros (H1 & S1 & D1) (H2 & S2 & D2). split; [|split].
  - intros q Hq. by rewrite H2, H1.
  - congruence.
  - intros q. by rewrite D2, D1.
Qed.

Lemma frame_mono l l' m m' : (∀ q, q ∈ l → q ∈ l') → frame l m m' → frame l' m m'.
Proof. intros Hsub (H1 & S1 & D1). split; [|done]. intros q Hq. apply H1. auto. Qed.

Lemma frame_insert p (n n' : list_head) m l : m !! p = Some n → p ∈ l → frame l m (<[p := n']> m).
Proof.
  intros Hp Hin. split; [|split].
  - intros q Hq. apply lookup_insert_ne. by intros ->.
  - rewrite map_size_insert_Some by (by rewrite Hp). done.
  - intros q. destruct (decide (q = p)) as [-> |Hne].
    + rewrite lookup_insert_eq, Hp. split; intros _; by eexists.
    + by rewrite lookup_insert_ne.
Qed.

Lemma seg_frame m m' p l q : (∀ x, x ∈ l → m' !! x = m !! x) → seg m p l q → seg m' p l q.
Proof.
  revert p. induction l as [|x l IH]; intros p Hf; [done|]. intros (-> & Hx & n & Hn & Hs).
  split; [done|]. split; [done|]. exists n. split; [rewrite Hf; [done|by left]|].
  apply IH; [|done]. intros y Hy. apply Hf. by right.
Qed.

Lemma chain_frame m m' p l k : frame k m m' → (∀ x, x ∈ l → x ∉ k) → chain m p l → chain m' p l.
Proof. intros (Hf & _) Hd. apply seg_frame. auto. Qed.

Lemma seg_app m p l l' q : seg m p (l ++ l') q ↔ ∃ r, seg m p l r ∧ seg m r l' q.
Proof.
  revert p. induction l as [|x l IH]; intros p; simpl; [naive_solver|].
  split.
  - intros (-> & Hx & n & Hn & (r & H1 & H2)%IH). exists r. split; [|done]. eauto 10.
  - intros (r & (-> & Hx & n & Hn & H1) & H2). split; [done|]. split; [done|]. exists n. split; [done|].
    apply IH. eauto.
Qed.

Lemma seg_dom m p l q : seg m p l q → ∀ x, x ∈ l → is_Some (m !! x).
Proof.
  revert p. induction l as [|y l IH]; intros p; [by intros _ x Hx%not_elem_of_nil|].
  intros (_ & _ & n & Hn & Hs) x [-> |Hx]%elem_of_cons; [by eexists|by eapply IH].
Qed.

Lemma dom_length (m : mem) l : NoDup l → (∀ x, x ∈ l → is_Some (m !! x)) → (length l ≤ size m)%nat.
Proof.
  intros Hnd Hd. rewrite <- (size_list_to_set (C := gset Z) l) by done. rewrite <- size_dom.
  apply subseteq_size. intros x Hx%elem_of_list_to_set. apply elem_of_dom. by apply Hd.
Qed.

Lemma chain_null m p l : chain m p l → ctrue p = match l with [] => false | _ => true end.
Proof. destruct l as [|x l]; [by intros ->|]. intros (-> & Hx & _). by apply ctrue_true. Qed.

Lemma chain_cons m p x l : chain m p (x :: l) →
  p = x ∧ x ≠ 0 ∧ ∃ n, m !! x = Some n ∧ chain m (next n) l.
Proof. done. Qed.

(** [tail] is the last node of the list [D] that starts at [h]. *)
Definition tail_at (m : mem) (h : Z) (tail : option Z) (D : list Z) : Prop :=
  match tail with
  | None => D = []
  | Some t => ∃ D', D = D' ++ [t] ∧ seg m h D' t ∧ t ≠ 0 ∧ is_Some (m !! t)
  end.

Lemma tail_set_ok m h tail D v : tail_at m h tail D → NoDup D →
  ∃ m' h', tail_set m h tail v = Some (m', h') ∧ seg m' h' D v ∧ frame D m m' ∧ tail_next m' h' tail = Some v.
Proof.
  destruct tail as [t|]; simpl.
  - intros (D' & -> & Hs & Ht & [n Hn]) Hnd. unfold set_next. rewrite Hn. cbn [mbind option_bind].
    eexists _, h. split; [done|]. apply list.NoDup_app in Hnd as (_ & Hd & _). ands.
    + apply seg_app. exists t. split.
      * eapply seg_frame; [|done]. intros x Hx. apply lookup_insert_ne. intros ->. apply (Hd x Hx). by left.
      * simpl. split; [done|]. split; [done|]. eexists. split; [by rewrite lookup_insert_eq|done].
    + eapply frame_insert; [done|]. apply elem_of_app. right. by left.
    + unfold get_next. by rewrite lookup_insert_eq.
  - intros -> _. eexists m, v. ands; [done..|apply frame_refl|done].
Qed.

(** ** Single link updates *)

Lemma set_next_ok m p v : is_Some (m !! p) → ∃ m', set_next m p v = Some m' ∧ frame [p] m m' ∧
  get_next m' p = Some v ∧ (∀ q, q ≠ p → get_next m' q = get_next m q) ∧ ∀ q, get_prev m' q = get_prev m q.
Proof.
  intros [n Hn]. unfold set_next, get_next, get_prev. rewrite Hn. eexists; split; [done|].
  split; [eapply frame_insert; [done|by left]|]. rewrite lookup_insert_eq. split; [done|]. split.
  - intros q Hq. by rewrite lookup_insert_ne.
  - intros q. destruct (decide (q = p)) as [-> |]; [by rewrite lookup_insert_eq, Hn|by rewrite lookup_insert_ne].
Qed.

Lemma set_prev_ok m p v : is_Some (m !! p) → ∃ m', set_prev m p v = Some m' ∧ frame [p] m m' ∧
  get_prev m' p = Some v ∧ (∀ q, q ≠ p → get_prev m' q = get_prev m q) ∧ ∀ q, get_next m' q = get_next m q.
Proof.
  intros [n Hn]. unfold set_prev, get_next, get_prev. rewrite Hn. eexists; split; [done|].
  split; [eapply frame_insert; [done|by left]|]. rewrite lookup_insert_eq. split; [done|]. split.
  - intros q Hq. by rewrite lookup_insert_ne.
  - intros q. destruct (decide (q = p)) as [-> |]; [by rewrite lookup_insert_eq, Hn|by rewrite lookup_insert_ne].
Qed.

Lemma seg_cons_next m p x l q : seg m p (x :: l) q ↔ p = x ∧ x ≠ 0 ∧ ∃ y, get_next m x = Some y ∧ seg m y l q.
Proof.
  simpl. unfold get_next. split; intros (-> & Hx & n & Hn & Hs); (split; [done|]; split; [done|]).
  - exists (next n). by rewrite Hn.
  - destruct (m !! x) as [n'|]; [|done]. exists n'. by simplify_eq/=.
Qed.

Lemma seg_ext m m' p l q : (∀ x, x ∈ l → get_next m' x = get_next m x) → seg m p l q → seg m' p l q.
Proof.
  revert p. induction l as [|x l IH]; intros p Hf; [done|]. rewrite !seg_cons_next.
  intros (-> & Hx & y & Hy & Hs). split; [done|]. split; [done|]. exists y. rewrite Hf by (by left).
  split; [done|]. apply IH; [|done]. intros z Hz. apply Hf. by right.
Qed.

(** The last node of a doubly linked list. *)
Definition last_node (p : Z) (l : list Z) : Z := default p (last l).

Lemma last_node_snoc p l x : last_node p (l ++ [x]) = x.
Proof. unfold last_node. by rewrite last_snoc. Qed.

Lemma last_node_in p l : last_node p l ∈ p :: l.
Proof.
  unfold last_node. destruct l as [|x l _] using rev_ind; [by left|]. rewrite last_snoc. simpl. set_solver.
Qed.

Lemma links_snoc m p l x : links m p (l ++ [x]) ↔
  links m p l ∧ get_next m (last_node p l) = Some x ∧ get_prev m x = Some (last_node p l).
Proof.
  revert p. induction l as [|y l IH]; intros p; simpl; [by naive_solver|].
  rewrite IH. replace (last_node p (y :: l)) with (last_node y l); [naive_solver|].
  unfold last_node. destruct l as [|z l]; [done|]. simpl. destruct (last (z :: l)) eqn:E; [done|].
  by apply last_None in E.
Qed.

(** The links of a list do not involve the next link of its last node. *)
Lemma links_ext m m' p l : NoDup (p :: l) → (∀ q, q ∈ p :: l → q ≠ last_node p l → get_next m' q = get_next m q) →
  (∀ q, q ∈ l → get_prev m' q = get_prev m q) → links m p l → links m' p l.
Proof.
  induction l as [|x l IH] using rev_ind; [done|]. intros Hnd Hn Hp. rewrite !links_snoc.
  intros (Hl & H1 & H2). rewrite last_node_snoc in Hn.
  assert (HNx : (x ∉ p :: l) ∧ NoDup (p :: l)).
  { rewrite app_comm_cons in Hnd. apply list.NoDup_app in Hnd as (? & Hd & _). split; [|done].
    intros Hin. apply (Hd x Hin). by left. }
  destruct HNx as [Hx HN]. split; [|split].
  - apply IH; [done| | |done].
    + intros q Hq _. apply Hn; [set_solver|]. by intros ->.
    + intros q Hq. apply Hp. set_solver.
  - rewrite Hn; [done| |]; pose proof (last_node_in p l); [set_solver|]. by intros <-.
  - rewrite Hp; [done|set_solver].
Qed.

(** Appending a node [x] after the last one. *)
Lemma append_ok m p l x : NoDup (p :: l ++ [x]) ∨ (x = p ∧ NoDup (p :: l)) → links m p l →
  is_Some (m !! last_node p l) → is_Some (m !! x) →
  ∃ m1 m2, set_next m (last_node p l) x = Some m1 ∧ set_prev m1 x (last_node p l) = Some m2 ∧
    links m2 p (l ++ [x]) ∧ frame [last_node p l; x] m m2 ∧
    ∀ q, q ≠ last_node p l → get_next m2 q = get_next m q.
Proof.
  intros Hnd Hl Ht Hx. set (t := last_node p l) in *.
  destruct (set_next_ok m t x Ht) as (m1 & -> & Hf1 & Hn1 & Hne1 & Hp1).
  assert (Hx1 : is_Some (m1 !! x)) by (by apply Hf1).
  destruct (set_prev_ok m1 x t Hx1) as (m2 & E2 & Hf2 & Hp2 & Hpe2 & Hn2).
  exists m1, m2. ands; [done|done| | |].
  - apply links_snoc. fold t. split; [|by rewrite Hn2]. eapply links_ext; [| | |exact Hl].
    + destruct Hnd as [Hnd|[_ ?]]; [|done]. rewrite app_comm_cons in Hnd. by apply list.NoDup_app in Hnd as (? & _).
    + intros q Hq Hqt. by rewrite Hn2, Hne1.
    + intros q Hq. rewrite Hpe2, Hp1; [done|]. intros ->. destruct Hnd as [Hnd|[-> Hnd]].
      * rewrite app_comm_cons in Hnd. apply list.NoDup_app in Hnd as (_ & Hd & _). apply (Hd x); set_solver.
      * by apply NoDup_cons in Hnd as [? _].
  - eapply frame_trans; (eapply frame_mono; [|done]); set_solver.
  - intros q Hq. by rewrite Hn2, Hne1.
Qed.

Section MergeFacts.
Context (c : Z → Z → Z) `{!Comparator c} (cmp : Z → Z → option Z).
#[local] Abbreviation fmerge := (list_merge (cmp_le c)).

(** The callback answers on the elements [l]. *)
Definition compares (l : list Z) : Prop := ∀ x y, x ∈ l → y ∈ l → cmp x y = Some (c x y).

Lemma compares_mono l l' : (∀ x, x ∈ l → x ∈ l') → compares l' → compares l.
Proof. intros Hs Hc x y Hx Hy. apply Hc; auto. Qed.

(** One turn of the loop of [merge]: the node [x] at the front of one list is appended. *)
Lemma merge_take m h tail D x la : tail_at m h tail D → chain m x (x :: la) → NoDup (D ++ x :: la) →
  ∃ m' h' x', tail_set m h tail x = Some (m', h') ∧ get_next m' x = Some x' ∧ tail_next m' h' tail = Some x ∧
    tail_at m' h' (Some x) (D ++ [x]) ∧ chain m' x' la ∧ frame D m m'.
Proof.
  intros Ht Hc Hnd. pose proof (proj1 (list.NoDup_app _ _) Hnd) as (HD & Hdis & _).
  destruct (tail_set_ok m h tail D x) as (m' & h' & -> & Hs & Hf & Hn); [done..|].
  assert (Hc' : chain m' x (x :: la)).
  { eapply chain_frame; [done| |done]. intros y Hy HyD. by apply (Hdis y). }
  destruct (chain_cons _ _ _ _ Hc') as (_ & Hx & n & Hnn & Hl).
  exists m', h', (next n). ands; [done| |done| |done|done].
  - unfold get_next. by rewrite Hnn.
  - exists D. split; [done|]. split; [done|]. split; [done|]. by eexists.
Qed.

Lemma merge_ok m a b la lb : chain m a la → chain m b lb → NoDup (la ++ lb) → compares (la ++ lb) →
  ∃ m' p, merge cmp m a b = Some (m', p) ∧ chain m' p (fmerge la lb) ∧ frame (la ++ lb) m m'.
Proof.
  intros Ha Hb Hnd Hcmp. unfold merge.
  run_loop (λ n '(m1, h, tail, a1, b1), ∃ D la1 lb1, tail_at m1 h tail D ∧ chain m1 a1 la1 ∧ chain m1 b1 lb1 ∧
       la ++ lb ≡ₚ D ++ la1 ++ lb1 ∧ fmerge la lb = D ++ fmerge la1 lb1 ∧ frame (la ++ lb) m m1 ∧
       n = length (la1 ++ lb1)) (length (la ++ lb))
    (λ '(m1, h, tail, a1, b1), ∃ D l, tail_at m1 h tail D ∧ chain m1 (if ctrue a1 then a1 else b1) l ∧
       NoDup (D ++ l) ∧ fmerge la lb = D ++ l ∧ frame (la ++ lb) m m1) r HQ.
  2:{ exists [], la, lb. by ands. }
  2:{ pose proof (dom_length m (la ++ lb) Hnd) as Hdl. apply Nat.lt_succ_r, Hdl.
      intros x [Hx|Hx]%elem_of_app; [by apply (seg_dom _ _ _ _ Ha)|by apply (seg_dom _ _ _ _ Hb)]. }
  2:{ destruct r as [[[[m1 h] tail] a1] b1], HQ as (D & l & Ht & Hl & HD & Hm & Hf).
      destruct (tail_set_ok m1 h tail D (if ctrue a1 then a1 else b1)) as (m2 & h2 & -> & Hs & Hf2 & _); [done| |].
      { by apply list.NoDup_app in HD as (? & _). }
      exists m2, h2. ands; [done| |].
      - rewrite Hm. apply seg_app. eexists. split; [done|]. eapply chain_frame; [done| |done].
        apply list.NoDup_app in HD as (_ & Hd & _). intros x Hx HxD. by apply (Hd x).
      - eapply frame_trans; [done|]. eapply frame_mono; [|done]. intros q Hq.
        rewrite <- (merge_Permutation (cmp_le c) la lb), Hm. apply elem_of_app. by left. }
  intros n [[[[m1 h] tail] a1] b1] (D & la1 & lb1 & Ht & Ha1 & Hb1 & HP & Hm & Hf & ->).
    rewrite (chain_null _ _ _ Ha1), (chain_null _ _ _ Hb1).
    assert (Hnd1 : NoDup (D ++ la1 ++ lb1)) by by rewrite <- HP.
    destruct la1 as [|x la1]; [|destruct lb1 as [|y lb1]]; cbn [andb].
    + eexists; split; [done|]. exists D, lb1. rewrite (chain_null _ _ _ Ha1). rewrite list_merge_nil_l in Hm. by ands.
    + eexists; split; [done|]. exists D, (x :: la1). rewrite (chain_null _ _ _ Ha1).
      rewrite list_merge_nil_r in Hm. rewrite app_nil_r in Hnd1. by ands.
    + assert (a1 = x ∧ b1 = y) as [-> ->] by (by destruct Ha1, Hb1).
      assert (Hkeep : ∀ m2 p l, frame D m1 m2 → (∀ z, z ∈ l → z ∈ (x :: la1) ++ y :: lb1) → chain m1 p l → chain m2 p l).
      { intros m2 p l Hf2 Hl. apply (chain_frame _ _ _ _ D); [done|]. intros z Hz HzD.
        apply list.NoDup_app in Hnd1 as (_ & Hd & _). by apply (Hd z); [|apply Hl]. }
      assert (Hfr : ∀ m2, frame D m1 m2 → frame (la ++ lb) m m2).
      { intros m2 Hf2. eapply frame_trans; [done|]. eapply frame_mono; [|done]. intros q Hq. rewrite HP. set_solver. }
      rewrite Hcmp by (rewrite HP; set_solver). cbn [mbind option_bind].
      rewrite list_merge_cons in Hm.
      destruct (Z.leb_spec (c x y) 0) as [Hle|Hgt].
      * destruct (merge_take m1 h tail D x la1) as (m2 & h2 & x' & -> & E2 & E3 & Ht2 & Hl2 & Hf2); [done..| |].
        { rewrite app_assoc in Hnd1. by apply list.NoDup_app in Hnd1 as (? & _). }
        cbn [mbind option_bind]. rewrite E2. cbn [mbind option_bind]. rewrite E3. cbn [mbind option_bind].
        eexists; split; [done|]. exists (length (la1 ++ y :: lb1)). split; [simpl; lia|].
        exists (D ++ [x]), la1, (y :: lb1). rewrite <- !app_assoc. ands; [done|done|apply (Hkeep m2); [done|set_solver|done]|done| |by apply Hfr|done].
        by rewrite Hm, decide_True.
      * destruct (merge_take m1 h tail D y lb1) as (m2 & h2 & y' & -> & E2 & E3 & Ht2 & Hl2 & Hf2); [done..| |].
        { rewrite (Permutation_app_comm (x :: la1)), app_assoc in Hnd1. by apply list.NoDup_app in Hnd1 as (? & _). }
        cbn [mbind option_bind]. rewrite E2. cbn [mbind option_bind]. rewrite E3. cbn [mbind option_bind].
        eexists; split; [done|]. exists (length ((x :: la1) ++ lb1)). split; [rewrite !length_app; simpl; lia|].
        exists (D ++ [y]), (x :: la1), lb1. rewrite <- !app_assoc. ands; [done|apply (Hkeep m2); [done|set_solver|done]|done| | |by apply Hfr|done].
        -- rewrite HP. by rewrite <- Permutation_middle.
        -- rewrite Hm, decide_False by (unfold cmp_le; lia). done.
Qed.

(** ** The last merge *)

(** One turn of its loop: the node [x] at the front of one list is linked after the last. *)
Lemma restore_take m head D x la : links m head D → chain m x (x :: la) → NoDup (head :: D ++ x :: la) →
  is_Some (m !! head) → (∀ q, q ∈ D → is_Some (m !! q)) →
  ∃ m1 m2 x', set_next m (last_node head D) x = Some m1 ∧ set_prev m1 x (last_node head D) = Some m2 ∧
    get_next m2 x = Some x' ∧ get_next m2 (last_node head D) = Some (last_node head (D ++ [x])) ∧
    links m2 head (D ++ [x]) ∧ chain m2 x' la ∧ frame (head :: D ++ [x]) m m2 ∧
    ∀ p l, (∀ q, q ∈ l → q ∉ head :: D) → chain m p l → chain m2 p l.
Proof.
  intros Hl Hc Hnd Hh HD.
  assert (Hlast : is_Some (m !! last_node head D)).
  { pose proof (last_node_in head D) as [-> |Hin]%elem_of_cons; auto. }
  destruct (append_ok m head D x) as (m1 & m2 & E1 & E2 & Hl2 & Hf & Hn); [|done..| |].
  { left. rewrite cons_middle, !app_assoc, app_comm_cons in Hnd. by apply list.NoDup_app in Hnd as (? & _). }
  { apply (seg_dom _ _ _ _ Hc). by left. }
  assert (Hkeep : ∀ p l, (∀ q, q ∈ l → q ∉ head :: D) → chain m p l → chain m2 p l).
  { intros p l Hd. apply seg_ext. intros q Hq. apply Hn. intros ->. by apply (Hd _ Hq), last_node_in. }
  rewrite app_comm_cons in Hnd. apply list.NoDup_app in Hnd as (_ & Hd & _).
  assert (Hc2 : chain m2 x (x :: la)) by (apply Hkeep; [|done]; intros q Hq HqD; by apply (Hd q)).
  apply seg_cons_next in Hc2 as (_ & Hx & x' & Hx' & Hla).
  exists m1, m2, x'. rewrite last_node_snoc. apply links_snoc in Hl2 as Hl2'. destruct Hl2' as (_ & Hnx & _).
  ands; [done..| |done]. eapply frame_mono; [|done]. pose proof (last_node_in head D). set_solver.
Qed.

Lemma restore_back_ok m head tail D p l : tail = last_node head D → links m head D →
  get_next m tail = Some p → chain m p l → l ≠ [] → NoDup (head :: D ++ l) →
  (∀ q, q ∈ head :: D ++ l → is_Some (m !! q)) → compares (D ++ l) → is_Some (cmp head head) →
  ∃ m', restore_back cmp m head tail = Some m' ∧ links m' head (D ++ l ++ [head]) ∧ frame (head :: D ++ l) m m'.
Proof.
  intros Ht Hl Hp Hc Hne Hnd Hdom Hcmp [h Hcmph]. unfold restore_back.
  assert (Hcc : ∀ q, q ∈ head :: D ++ l → is_Some (cmp q q)).
  { intros q [-> |Hq]%elem_of_cons; [by eexists|]. rewrite Hcmp by done. by eexists. }
  assert (Hlen : (length l ≤ size m)%nat).
  { pose proof (dom_length m _ Hnd Hdom) as H. simpl in H. rewrite length_app in H. lia. }
  run_loop (λ n '(m1, tail), ∃ D1 l1 p1, tail = last_node head D1 ∧ links m1 head D1 ∧
       get_next m1 tail = Some p1 ∧ chain m1 p1 l1 ∧ D ++ l = D1 ++ l1 ∧ l1 ≠ [] ∧
       frame (head :: D ++ l) m m1 ∧ n = length l1) (length l)
    (λ '(m1, tail), tail = last_node head (D ++ l) ∧ links m1 head (D ++ l) ∧ frame (head :: D ++ l) m m1) r HQ.
  2:{ exists D, l, p. by ands. }
  2:{ lia. }
  - intros n [m1 t] (D1 & l1 & p1 & -> & Hl1 & Hp1 & Hc1 & HDl & Hne1 & Hf1 & ->). rewrite HDl in *.
    destruct l1 as [|x l1]; [done|]. apply seg_cons_next in Hc1 as (-> & Hx & y & Hy & Hc1).
    destruct (Hcc (last_node head D1)) as [d ->]; [pose proof (last_node_in head D1); set_solver|].
    cbn [mbind option_bind]. rewrite Hp1. cbn [mbind option_bind].
    destruct (set_prev_ok m1 x (last_node head D1)) as (m2 & -> & Hf2 & Hpx & Hpe & Hn2).
    { apply Hf1, Hdom. set_solver. }
    cbn [mbind option_bind]. rewrite Hn2, Hp1. cbn [mbind option_bind]. rewrite Hn2, Hy. cbn [mbind option_bind].
    assert (HndD : NoDup (head :: D1) ∧ x ∉ D1).
    { rewrite app_comm_cons in Hnd. apply list.NoDup_app in Hnd as (? & Hd & _). split; [done|].
      intros Hin. apply (Hd x); set_solver. }
    assert (Hl2 : links m2 head (D1 ++ [x])).
    { apply links_snoc. rewrite Hn2, Hpx. ands; [|done..]. apply (links_ext m1); [apply HndD|by intros; rewrite Hn2| |done].
      intros q Hq. apply Hpe. intros ->. by apply HndD. }
    assert (Hf : frame (head :: D1 ++ x :: l1) m m2) by (eapply frame_trans; [done|]; eapply frame_mono; [|done]; set_solver).
    rewrite (chain_null _ _ _ Hc1). destruct l1 as [|z l1].
    + eexists; split; [done|]. by rewrite last_node_snoc.
    + eexists; split; [done|]. exists (length (z :: l1)). split; [simpl; lia|]. exists (D1 ++ [x]), (z :: l1), y.
      rewrite last_node_snoc, <- app_assoc, Hn2. ands; try done. eapply seg_ext; [|done]. intros; apply Hn2.
  - destruct r as [m1 t], HQ as (-> & Hl1 & Hf1).
    destruct (append_ok m1 head (D ++ l) head) as (m2 & m3 & -> & E3 & Hl3 & Hf3 & _); [by right|done| | |].
    { apply Hf1, Hdom. apply last_node_in. }
    { apply Hf1, Hdom. by left. }
    cbn [mbind option_bind]. rewrite E3. exists m3. rewrite <- app_assoc in Hl3. ands; [done..|].
    eapply frame_trans; [done|]. eapply frame_mono; [|done]. pose proof (last_node_in head (D ++ l)). set_solver.
Qed.

Lemma restore_ok m head a b la lb :
  chain m a la → chain m b lb → NoDup (head :: la ++ lb) → head ≠ 0 → is_Some (m !! head) → la ++ lb ≠ [] →
  compares (la ++ lb) → is_Some (cmp head head) →
  ∃ m', merge_and_restore_back_links cmp m head a b = Some m' ∧ links m' head (fmerge la lb ++ [head]) ∧
    frame (head :: la ++ lb) m m'.
Proof.
  intros Ha Hb Hnd Hh0 Hh Hne Hcmp Hcmph. unfold merge_and_restore_back_links.
  assert (Hdom : ∀ q, q ∈ head :: la ++ lb → is_Some (m !! q)).
  { intros q [-> |[Hq|Hq]%elem_of_app]%elem_of_cons; [done|by apply (seg_dom _ _ _ _ Ha)|by apply (seg_dom _ _ _ _ Hb)]. }
  assert (Hlen : (length (la ++ lb) < size m)%nat) by (by apply (dom_length m (head :: la ++ lb))).
  run_loop (λ n '(m1, tail, a1, b1), ∃ D la1 lb1, tail = last_node head D ∧ links m1 head D ∧
       chain m1 a1 la1 ∧ chain m1 b1 lb1 ∧ la ++ lb ≡ₚ D ++ la1 ++ lb1 ∧ fmerge la lb = D ++ fmerge la1 lb1 ∧
       la1 ++ lb1 ≠ [] ∧ frame (head :: la ++ lb) m m1 ∧ n = length (la1 ++ lb1)) (length (la ++ lb))
    (λ '(m1, tail, a1, b1), ∃ D l, tail = last_node head D ∧ links m1 head D ∧
       chain m1 (if ctrue a1 then a1 else b1) l ∧ fmerge la lb = D ++ l ∧ l ≠ [] ∧
       frame (head :: la ++ lb) m m1) r HQ.
  2:{ exists [], la, lb. by ands. }
  2:{ lia. }
  - intros n [[[m1 t] a1] b1] (D & la1 & lb1 & -> & Hl & Ha1 & Hb1 & HP & Hm & Hne1 & Hf & ->).
    rewrite (chain_null _ _ _ Ha1), (chain_null _ _ _ Hb1).
    assert (Hnd1 : NoDup (head :: D ++ la1 ++ lb1)) by by rewrite <- HP.
    destruct la1 as [|x la1]; [|destruct lb1 as [|y lb1]]; cbn [andb].
    + eexists; split; [done|]. exists D, lb1. rewrite (chain_null _ _ _ Ha1). rewrite list_merge_nil_l in Hm. by ands.
    + eexists; split; [done|]. exists D, (x :: la1). rewrite (chain_null _ _ _ Ha1).
      rewrite list_merge_nil_r in Hm. by ands.
    + assert (a1 = x ∧ b1 = y) as [-> ->] by (by destruct Ha1, Hb1).
      rewrite Hcmp by (rewrite HP; set_solver). cbn [mbind option_bind].
      rewrite list_merge_cons in Hm.
      assert (Hh1 : is_Some (m1 !! head)) by by apply Hf.
      assert (HD1 : ∀ q, q ∈ D → is_Some (m1 !! q)) by (intros q Hq; apply Hf, Hdom; rewrite HP; set_solver).
      assert (Hdis : ∀ q, q ∈ (x :: la1) ++ y :: lb1 → q ∉ head :: D).
      { rewrite app_comm_cons in Hnd1. apply list.NoDup_app in Hnd1 as (_ & Hd & _). intros q Hq HqD. by apply (Hd q). }
      assert (Hfr : ∀ m3 z, z ∈ (x :: la1) ++ y :: lb1 → frame (head :: D ++ [z]) m1 m3 → frame (head :: la ++ lb) m m3).
      { intros m3 z Hz Hf3. eapply frame_trans; [done|]. eapply frame_mono; [|done]. intros q. rewrite HP. set_solver. }
      destruct (Z.leb_spec (c x y) 0) as [Hle|Hgt].
      * destruct (restore_take m1 head D x la1) as (m2 & m3 & x' & -> & E2 & E3 & E4 & Hl3 & Hc3 & Hf3 & Hk); [done..| |done|done|].
        { rewrite app_assoc, app_comm_cons in Hnd1. by apply list.NoDup_app in Hnd1 as (? & _). }
        cbn [mbind option_bind]. rewrite E2. cbn [mbind option_bind]. rewrite E3. cbn [mbind option_bind].
        rewrite E4. cbn [mbind option_bind]. eexists; split; [done|].
        exists (length (la1 ++ y :: lb1)). split; [simpl; lia|]. exists (D ++ [x]), la1, (y :: lb1).
        rewrite <- !app_assoc. ands; [done|done|done|by apply Hk; [|done]; intros q Hq; apply Hdis; set_solver|done| | | |done].
        -- by rewrite Hm, decide_True.
        -- by destruct la1.
        -- apply (Hfr m3 x); [set_solver|done].
      * destruct (restore_take m1 head D y lb1) as (m2 & m3 & y' & -> & E2 & E3 & E4 & Hl3 & Hc3 & Hf3 & Hk); [done..| |done|done|].
        { rewrite (Permutation_app_comm (x :: la1)), app_assoc, app_comm_cons in Hnd1. by apply list.NoDup_app in Hnd1 as (? & _). }
        cbn [mbind option_bind]. rewrite E2. cbn [mbind option_bind]. rewrite E3. cbn [mbind option_bind].
        rewrite E4. cbn [mbind option_bind]. eexists; split; [done|].
        exists (length ((x :: la1) ++ lb1)). split; [rewrite !length_app; simpl; lia|]. exists (D ++ [y]), (x :: la1), lb1.
        rewrite <- !app_assoc. ands; [done|done|by apply Hk; [|done]; intros q Hq; apply Hdis; set_solver|done| | |done| |done].
        -- rewrite HP. by rewrite <- Permutation_middle.
        -- rewrite Hm, decide_False by (unfold cmp_le; lia). done.
        -- apply (Hfr m3 y); [set_solver|done].
  - destruct r as [[[m1 t] a1] b1], HQ as (D & l & -> & Hl & Hc & Hm & Hne1 & Hf).
    assert (HP : la ++ lb ≡ₚ D ++ l) by (by rewrite <- Hm, merge_Permutation). rewrite HP in Hnd.
    assert (Hdom1 : ∀ q, q ∈ head :: D ++ l → is_Some (m1 !! q)) by (intros q Hq; apply Hf, Hdom; by rewrite HP).
    destruct (set_next_ok m1 (last_node head D) (if ctrue a1 then a1 else b1)) as (m2 & -> & Hf2 & Hn2 & Hne2 & Hp2).
    { apply Hdom1. pose proof (last_node_in head D). set_solver. }
    cbn [mbind option_bind]. pose proof Hnd as Hnd'. rewrite app_comm_cons in Hnd'. apply list.NoDup_app in Hnd' as (HndD & Hdis & _).
    destruct (restore_back_ok m2 head (last_node head D) D (if ctrue a1 then a1 else b1) l) as (m3 & -> & Hl3 & Hf3);
      [done| |done| |done|done| | |done|].
    + eapply links_ext; [done| |by intros; rewrite Hp2|done]. intros q _ Hq. by apply Hne2.
    + eapply seg_ext; [|done]. intros q Hq. apply Hne2. intros ->. by apply (Hdis _ (last_node_in head D)).
    + intros q Hq. apply Hf2. by apply Hdom1.
    + eapply compares_mono; [|done]. intros q. by rewrite HP.
    + exists m3. rewrite Hm, <- app_assoc. ands; [done..|].
      eapply frame_trans; [done|]. eapply frame_trans; (eapply frame_mono; [|done]); intros q; rewrite HP; [|done].
      pose proof (last_node_in head D). set_solver.
Qed.

(** ** The sorted sublists *)

(** The elements of the sublists in the order they came from the list: the sublists at
    higher levels hold earlier elements. *)
Definition runs (parts : list (list Z)) : list Z := concat (reverse parts).

Lemma runs_app P Q : runs (P ++ Q) = runs Q ++ runs P.
Proof. unfold runs. by rewrite reverse_app, concat_app. Qed.

Lemma runs_cons l P : runs (l :: P) = runs P ++ l.
Proof. unfold runs. rewrite reverse_cons, concat_app. simpl. by rewrite app_nil_r. Qed.

Lemma runs_replicate n : runs (replicate n []) = [].
Proof. induction n as [|n IH]; [done|]. simpl. by rewrite runs_cons, IH. Qed.

Lemma runs_insert Q (i : nat) l : (∀ j, (j ≤ i)%nat → Q !! j = Some []) → runs (<[i := l]> Q) = runs Q ++ l.
Proof.
  intros HQ. assert (Hi : (i < length Q)%nat) by (by eapply lookup_lt_Some, HQ).
  rewrite <- (take_drop_middle Q i []) at 2 by (by apply HQ). rewrite insert_take_drop by done.
  rewrite !runs_app, !runs_cons. replace (runs (take i Q)) with ([] : list Z); [by rewrite !app_nil_r|].
  clear l. induction i as [|i IH]; [done|]. rewrite (take_S_r Q i []) by (apply HQ; lia). rewrite runs_app.
  rewrite <- IH; [done|intros j Hj; apply HQ; lia|lia].
Qed.

Lemma elem_of_runs x P : x ∈ runs P ↔ ∃ l, l ∈ P ∧ x ∈ l.
Proof.
  unfold runs. rewrite list_elem_of_In, in_concat. split.
  - intros (l & Hl%list_elem_of_In & Hx%list_elem_of_In). exists l. split; [|done]. by rewrite <- elem_of_reverse.
  - intros (l & Hl & Hx). exists l. rewrite <- !list_elem_of_In. split; [by rewrite elem_of_reverse|done].
Qed.

Abbreviation sorted := (StronglySorted (cmp_le c)).

Lemma chains_frame m m' part parts k : frame k m m' → (∀ x, x ∈ runs parts → x ∉ k) →
  Forall2 (chain m) part parts → Forall2 (chain m') part parts.
Proof.
  intros Hf Hd HF. induction HF as [|p P part parts Hp HF IH]; [constructor|].
  assert (Hin : ∀ x, x ∈ runs parts ∨ x ∈ P → x ∉ k) by (intros x Hx; apply Hd; rewrite runs_cons; by apply elem_of_app).
  constructor; [eapply chain_frame; [done| |done]; auto|apply IH; auto].
Qed.

Lemma carry_ok m part parts cur lc : Forall2 (chain m) part parts → chain m cur lc → NoDup (runs parts ++ lc) →
  compares (runs parts ++ lc) → Forall sorted parts → sorted lc → [] ∈ parts →
  ∃ r, carry cmp m part cur = Some r ∧
    let '(m', part', cur', lev) := r in
    ∃ (k : nat) lc', lev = Z.of_nat k ∧ part' = replicate k 0 ++ drop k part ∧ parts !! k = Some [] ∧
      (∀ j P, (j < k)%nat → parts !! j = Some P → P ≠ []) ∧
      chain m' cur' lc' ∧ sorted lc' ∧ stable c (runs (take k parts) ++ lc) lc' ∧
      frame (runs (take k parts) ++ lc) m m'.
Proof.
  intros HF Hcur Hnd Hcmp HS Hsc Hnil. unfold carry. apply list_elem_of_lookup in Hnil as (k0 & Hk0).
  pose proof (Forall2_length _ _ _ HF) as Hlen.
  apply (loop_rule_idx (λ n '(m1, part1, cur1, lev), ∃ (k : nat) lc1, lev = Z.of_nat k ∧ (k ≤ k0)%nat ∧
      part1 = replicate k 0 ++ drop k part ∧ (∀ j P, (j < k)%nat → parts !! j = Some P → P ≠ []) ∧
      chain m1 cur1 lc1 ∧ sorted lc1 ∧ stable c (runs (take k parts) ++ lc) lc1 ∧
      frame (runs (take k parts) ++ lc) m m1 ∧ n = (k0 - k)%nat) _ _ k0).
  2:{ exists 0%nat, lc. ands; [done|lia|done|lia|done|done|done|done|lia]. }
  2:{ apply lookup_lt_Some in Hk0. lia. }
  intros n [[[m1 part1] cur1] lev] (k & lc1 & -> & Hk & -> & Hbelow & Hc1 & Hs1 & Hst & Hf & ->).
  pose proof (lookup_lt_Some _ _ _ Hk0) as Hk0'.
  destruct (lookup_lt_is_Some_2 parts k) as [P HP]; [lia|].
  destruct (Forall2_lookup_r _ _ _ _ _ HF HP) as (p & Hp & HcP).
  rewrite arr_get_lookup, lookup_app_r, length_replicate, Nat.sub_diag, lookup_drop, Nat.add_0_r, Hp
    by (rewrite length_replicate; lia). cbn [mbind option_bind].
  rewrite (chain_null _ _ _ HcP). destruct P as [|x P].
  { eexists; split; [done|]. exists k, lc1. by ands. }
  assert (Hsplit : runs parts = runs (drop (S k) parts) ++ (x :: P) ++ runs (take k parts)).
  { rewrite <- (take_drop_middle parts k _ HP) at 1. by rewrite runs_app, runs_cons, <- app_assoc. }
  assert (HPk : runs (take (S k) parts) = (x :: P) ++ runs (take k parts)).
  { by rewrite (take_S_r _ _ _ HP), runs_app, runs_cons. }
  assert (Hperm : runs parts ++ lc ≡ₚ runs (drop (S k) parts) ++ (x :: P) ++ lc1).
  { rewrite Hsplit, <- !app_assoc. f_equiv. f_equiv. by destruct Hst as [-> _]. }
  rewrite Hperm in Hnd.
  assert (Hcmp1 : compares ((x :: P) ++ lc1)) by (eapply compares_mono; [|exact Hcmp]; intros q Hq; rewrite Hperm; set_solver).
  apply list.NoDup_app in Hnd as (_ & _ & Hnd).
  destruct (merge_ok m1 p cur1 (x :: P) lc1) as (m2 & q & -> & Hc2 & Hf2); [|done..|].
  { eapply chain_frame; [done| |done]. intros z Hz Hz'. destruct Hst as [Hpm _]. rewrite <- Hpm in Hz'.
    apply list.NoDup_app in Hnd as (_ & Hd & _). by apply (Hd z). }
  cbn [mbind option_bind]. rewrite arr_set_lt.
  2:{ unfold alen. rewrite length_app, length_replicate, length_drop. lia. }
  cbn [mbind option_bind]. eexists; split; [done|]. exists (k0 - S k)%nat.
  assert (k ≠ k0) by (intros ->; congruence). split; [lia|].
  exists (S k), (fmerge (x :: P) lc1). rewrite HPk, <- app_assoc.
  assert (HsP : sorted (x :: P)) by (eapply Forall_lookup_1; [exact HS|exact HP]).
  ands; [lia|lia| | |done|by apply fmerge_sorted| | |done].
  - rewrite Nat2Z.id, insert_app_r_alt, length_replicate, Nat.sub_diag by (rewrite length_replicate; lia).
    rewrite (drop_S _ _ _ Hp), replicate_S_end, <- app_assoc. done.
  - intros j Q Hj HQ. destruct (decide (j = k)) as [-> |]; [by simplify_eq|]. eapply (Hbelow j); [lia|done].
  - rewrite <- fmerge_stable by done. by rewrite Hst.
  - eapply frame_trans; [eapply frame_mono; [|exact Hf]|eapply frame_mono; [|exact Hf2]]; [set_solver|].
    intros z. destruct Hst as [Hpm _]. rewrite Hpm. done.
Qed.

(** The array [part] after the elements [D] were taken from the list: sublists at the
    levels up to [mx], the topmost one not empty. *)
Record levels (m : mem) (part : list Z) (parts : list (list Z)) (mx : nat) (D : list Z) : Prop := {
  lv_len : length parts = 21%nat;
  lv_chain : Forall2 (chain m) part parts;
  lv_sorted : Forall sorted parts;
  lv_stable : stable c D (runs parts);
  lv_max : (mx ≤ 19)%nat;
  lv_above j : (mx < j)%nat → (j < 21)%nat → parts !! j = Some [];
  lv_top : D ≠ [] → ∃ P, parts !! mx = Some P ∧ P ≠ [];
  lv_zero : D = [] → mx = 0%nat }.

(** The new sublist goes to the slot [k'], below which all slots are empty. *)
Lemma levels_put m m' part parts mx D x (k k' : nat) cur lc :
  levels m part parts mx D → frame (runs (take k parts) ++ [x]) m m' → NoDup (D ++ [x]) →
  (k' ≤ k)%nat → (k ≤ S k')%nat → (k' ≤ 19)%nat → (k < length parts)%nat → parts !! k = Some [] →
  chain m' cur lc → sorted lc → stable c (runs (take k parts) ++ [x]) lc →
  (k' = k ∧ (k ≤ mx)%nat ∨ (k = S mx)%nat) →
  levels m' (<[k' := cur]> (replicate k 0 ++ drop k part)) (<[k' := lc]> (replicate k [] ++ drop k parts))
    (if decide (k ≤ mx)%nat then mx else k') (D ++ [x]).
Proof.
  intros [Hlen HF HS Hst Hmax Habove Htop Hzero] Hf Hnd Hk' Hk1 H19 Hkl Hnil Hc Hs Hlc Hcase.
  assert (Hlc0 : lc ≠ []) by (intros ->; destruct Hlc as [Hp%Permutation_nil_l _]; by destruct (runs (take k parts))).
  assert (Hsp : runs parts = runs (drop k parts) ++ runs (take k parts)) by (by rewrite <- runs_app, take_drop).
  assert (HPm : D ++ [x] ≡ₚ runs (drop k parts) ++ runs (take k parts) ++ [x]).
  { destruct Hst as [Hp _]. by rewrite <- Hp, Hsp, <- app_assoc. }
  rewrite HPm in Hnd. apply list.NoDup_app in Hnd as (_ & Hdis & _).
  assert (HQ : ∀ j, (j ≤ k)%nat → (replicate k [] ++ drop k parts) !! j = Some []).
  { intros j Hj. destruct (decide (j < k)%nat).
    - rewrite lookup_app_l, lookup_replicate_2 by (rewrite ?length_replicate; lia). done.
    - replace j with k by lia. by rewrite lookup_app_r, length_replicate, Nat.sub_diag, lookup_drop, Nat.add_0_r
        by (rewrite length_replicate; lia). }
  assert (Hhigh : ∀ j, (k ≤ j)%nat → (replicate k [] ++ drop k parts) !! j = parts !! j).
  { intros j Hj. rewrite lookup_app_r, length_replicate, lookup_drop by (rewrite length_replicate; lia). f_equal. lia. }
  assert (HL : length (replicate k ([] : list Z) ++ drop k parts) = 21%nat) by (rewrite length_app, length_replicate, length_drop; lia).
  split.
  - by rewrite length_insert.
  - apply Forall2_insert; [|done]. apply Forall2_app.
    + apply Forall2_replicate. done.
    + eapply chains_frame; [done| |by apply Forall2_drop]. intros z Hz Hz'. by apply (Hdis z).
  - apply Forall_insert; [|done]. apply Forall_app. split; [apply Forall_replicate; constructor|by apply Forall_drop].
  - rewrite runs_insert by (intros j Hj; apply HQ; lia). rewrite runs_app, runs_replicate, app_nil_r, <- Hlc, app_assoc, <- Hsp.
    by rewrite <- Hst.
  - case_decide; lia.
  - intros j Hj Hj21. rewrite list_lookup_insert_ne by (case_decide; lia).
    destruct (decide (j ≤ k)%nat); [by apply HQ|]. rewrite Hhigh by lia. apply Habove; [case_decide; lia|lia].
  - intros _. destruct (decide ((if decide (k ≤ mx)%nat then mx else k') = k')) as [-> |Hne].
    + exists lc. split; [|done]. apply list_lookup_insert_eq. lia.
    + case_decide; [|done]. assert (k < mx)%nat by lia. rewrite list_lookup_insert_ne, Hhigh by lia.
      apply Htop. intros ->. specialize (Hzero eq_refl). lia.
  - by destruct D.
Qed.

(** One turn of the main loop. *)
Lemma level_step m part parts mx D x : levels m part parts mx D → chain m x [x] → NoDup (D ++ [x]) →
  compares (D ++ [x]) →
  ∃ m' part' cur lev, carry cmp m part x = Some (m', part', cur, lev) ∧
    let lev' := if lev >? Z.of_nat mx then if lev >=? MAX_LIST_LENGTH_BITS + 1 - 1 then lev - 1 else lev else lev in
    ∃ part'' parts' mx', part'.[lev' <- cur] = Some part'' ∧
      (if lev >? Z.of_nat mx then lev' else Z.of_nat mx) = Z.of_nat mx' ∧
      levels m' part'' parts' mx' (D ++ [x]) ∧ frame (D ++ [x]) m m'.
Proof.
  intros HL Hx Hnd Hcmp. pose proof HL as [Hlen HF HS Hst Hmax Habove Htop Hzero].
  assert (HP : D ++ [x] ≡ₚ runs parts ++ [x]) by (destruct Hst as [Hp _]; by rewrite Hp).
  destruct (carry_ok m part parts x [x]) as ([[[m' part'] cur] lev] & E & k & lc & -> & -> & Hk & Hbelow & Hc & Hs & Hlc & Hf);
    [done|done|by rewrite <- HP|eapply compares_mono; [|done]; intros q; by rewrite HP|done|by repeat constructor| |].
  { apply list_elem_of_lookup. exists 20%nat. apply Habove; lia. }
  assert (Hkm : (k ≤ S mx)%nat).
  { destruct (decide (k ≤ S mx)%nat); [done|]. exfalso. by apply (Hbelow (S mx) []); [lia|apply Habove; lia|]. }
  eexists _, _, _, _. split; [done|]. cbv zeta. unfold MAX_LIST_LENGTH_BITS.
  set (k' := if decide (k ≤ mx)%nat then k else if decide (20 ≤ k)%nat then (k - 1)%nat else k).
  assert (El : (if Z.of_nat k >? Z.of_nat mx then if Z.of_nat k >=? 20 + 1 - 1 then Z.of_nat k - 1 else Z.of_nat k
                else Z.of_nat k) = Z.of_nat k').
  { subst k'. destruct (Z.gtb_spec (Z.of_nat k) (Z.of_nat mx)), (decide (k ≤ mx)%nat); try lia.
    destruct (Z.geb_spec (Z.of_nat k) (20 + 1 - 1)), (decide (20 ≤ k)%nat); lia. }
  rewrite El. pose proof (lookup_lt_Some _ _ _ Hk) as Hkl. pose proof (Forall2_length _ _ _ HF) as Hlp.
  exists (<[k' := cur]> (replicate k 0 ++ drop k part)), (<[k' := lc]> (replicate k [] ++ drop k parts)),
    (if decide (k ≤ mx)%nat then mx else k').
  assert (Hk'k : (k' ≤ k ∧ k ≤ S k' ∧ k' ≤ 19 ∧ (k' = k ∧ k ≤ mx ∨ k = S mx))%nat)
    by (subst k'; destruct (decide (k ≤ mx)%nat), (decide (20 ≤ k)%nat); lia).
  destruct Hk'k as (H1 & H2 & H3 & H4). ands.
  - rewrite arr_set_lt, Nat2Z.id; [done|]. unfold alen. rewrite length_app, length_replicate, length_drop. lia.
  - destruct (Z.gtb_spec (Z.of_nat k) (Z.of_nat mx)), (decide (k ≤ mx)%nat); lia.
  - by apply (levels_put m).
  - eapply frame_mono; [|done]. intros q. pose proof (runs_app (take k parts) (drop k parts)) as Hr. rewrite take_drop in Hr.
    rewrite HP, Hr. set_solver.
Qed.

Lemma main_loop_ok m l list0 : chain m list0 l → NoDup l → compares l →
  ∃ r, loop (S (size m)) (λ '(m, part, max_lev, list),
    if ctrue list then
      let cur := list in
      list ← get_next m list;
      m ← set_next m cur 0;
      '(m, part, cur, lev) ← carry cmp m part cur;
      let lev' := if lev >? max_lev then
                    if lev >=? MAX_LIST_LENGTH_BITS + 1 - 1 then lev - 1 else lev
                  else lev in
      let max_lev := if lev >? max_lev then lev' else max_lev in
      part ← part.[lev' <- cur];
      Some (inl (m, part, max_lev, list))
    else Some (inr (m, part, max_lev, list)))
    (m, replicate (Z.to_nat (MAX_LIST_LENGTH_BITS + 1)) 0, 0, list0) = Some r ∧
    let '(m', part, max_lev, list) := r in
    ∃ parts mx, max_lev = Z.of_nat mx ∧ list = 0 ∧ levels m' part parts mx l ∧ frame l m m'.
Proof.
  intros Hl Hnd Hcmp.
  apply (loop_rule_idx (λ n '(m1, part, max_lev, list), ∃ D rest parts mx, l = D ++ rest ∧ max_lev = Z.of_nat mx ∧
    chain m1 list rest ∧ levels m1 part parts mx D ∧ frame l m m1 ∧ n = length rest) _ _ (length l)).
  - intros n [[[m1 part] max_lev] list] (D & rest & parts & mx & -> & -> & Hc & HL & Hf & ->).
    rewrite (chain_null _ _ _ Hc). destruct rest as [|x rest].
    { eexists; split; [done|]. exists parts, mx. rewrite app_nil_r in *. by ands. }
    apply seg_cons_next in Hc as (-> & Hx & y & Hy & Hc). rewrite Hy. cbn [mbind option_bind].
    destruct (set_next_ok m1 x 0) as (m2 & -> & Hf2 & Hn2 & Hne2 & _).
    { unfold get_next in Hy. destruct (m1 !! x); by eauto. }
    cbn [mbind option_bind]. assert (Heq : D ++ x :: rest = (D ++ [x]) ++ rest) by (by rewrite <- app_assoc). rewrite Heq in *.
    pose proof (proj1 (list.NoDup_app _ _) Hnd) as (HndD & Hdis & _).
    destruct (level_step m2 part parts mx D x) as (m3 & part' & cur & lev & -> & part2 & parts2 & mx2 & E2 & Emx & HL2 & Hf3).
    + destruct HL as [Hlen HF HS Hst Hmax Habove Htop Hzero]. split; try done. eapply chains_frame; [done| |done].
      intros z Hz. destruct Hst as [Hp _]. rewrite Hp in Hz. apply list.NoDup_app in HndD as (_ & Hd & _).
      intros Hzx. by apply (Hd z).
    + apply seg_cons_next. ands; [done..|]. exists 0. by rewrite Hn2.
    + done.
    + eapply compares_mono; [|done]. set_solver.
    + cbn [mbind option_bind]. cbv zeta in E2. rewrite E2. cbn [mbind option_bind]. eexists; split; [done|].
      exists (length rest). split; [simpl; lia|]. exists (D ++ [x]), rest, parts2, mx2.
      ands; [done|done| |done| |done].
      * eapply chain_frame; [exact Hf3|intros z Hz HzD; by apply (Hdis z)|]. eapply seg_ext; [|exact Hc].
        intros z Hz. apply Hne2. intros ->. apply (Hdis x); [|done]. set_solver.
      * eapply frame_trans; [done|]. eapply frame_trans; (eapply frame_mono; [|done]); set_solver.
  - exists [], l, (replicate 21 []), 0%nat. ands; [done|done|done| |done|done]. split; try done; try lia.
    + by apply Forall2_replicate.
    + apply Forall_replicate. constructor.
    + intros j _ Hj. by apply lookup_replicate_2.
  - apply Nat.lt_succ_r, dom_length; [done|]. apply (seg_dom _ _ _ _ Hl).
Qed.

(** The sublists below the topmost one are merged from the lowest level up. *)
Lemma collect_ok m part parts mx l : levels m part parts mx l → NoDup l → compares l →
  ∃ r, for_up 0 (Z.of_nat mx) (λ lev '(m, list),
      p ← part.[lev]; if ctrue p then merge cmp m p list else Some (m, list)) (m, 0) = Some r ∧
    let '(m', list) := r in
    ∃ lb, chain m' list lb ∧ sorted lb ∧ stable c (runs (take mx parts)) lb ∧ frame (runs (take mx parts)) m m'.
Proof.
  intros [Hlen HF HS Hst Hmax _ _ _] Hnd Hcmp.
  destruct (for_up_rule (St := mem * Z) (λ lev '(m1, list), ∃ (k : nat) lb, lev = Z.of_nat k ∧ chain m1 list lb ∧ sorted lb ∧
      stable c (runs (take k parts)) lb ∧ frame (runs (take k parts)) m m1) 0 (Z.of_nat mx) (λ lev '(m, list),
      p ← part.[lev]; if ctrue p then merge cmp m p list else Some (m, list)) (m, 0)) as (r & E & HI).
  - lia.
  - exists 0%nat, []. ands; [done|done|constructor|done|done].
  - intros i [m1 list] Hi (k & lb & -> & Hc & Hs & Hlb & Hf).
    destruct (lookup_lt_is_Some_2 parts k) as [P HP]; [lia|].
    destruct (Forall2_lookup_r _ _ _ _ _ HF HP) as (p & Hp & HcP).
    rewrite arr_get_lookup, Hp. cbn [mbind option_bind]. rewrite (chain_null _ _ _ HcP).
    assert (HPk : runs (take (S k) parts) = P ++ runs (take k parts)) by (by rewrite (take_S_r _ _ _ HP), runs_app, runs_cons).
    assert (Hsub : runs parts ≡ₚ runs (drop (S k) parts) ++ P ++ lb).
    { rewrite <- (take_drop (S k) parts) at 1. rewrite runs_app, HPk. by destruct Hlb as [-> _]. }
    assert (HndP : NoDup (P ++ lb)).
    { destruct Hst as [Hp' _]. rewrite <- Hp', Hsub in Hnd. by apply list.NoDup_app in Hnd as (_ & _ & ?). }
    destruct P as [|x P].
    { eexists; split; [done|]. exists (S k), lb. rewrite HPk. ands; [lia|done..]. }
    destruct (merge_ok m1 p list (x :: P) lb) as (m2 & q & -> & Hc2 & Hf2); [|done|done| |].
    { eapply chain_frame; [done| |done]. intros z Hz Hz'. destruct Hlb as [Hpm _]. rewrite <- Hpm in Hz'.
      apply list.NoDup_app in HndP as (_ & Hd & _). by apply (Hd z). }
    { eapply compares_mono; [|done]. intros z Hz. destruct Hst as [Hp' _]. rewrite <- Hp', Hsub. set_solver. }
    eexists; split; [done|]. exists (S k), (fmerge (x :: P) lb). rewrite HPk.
    assert (HsP : sorted (x :: P)) by (eapply Forall_lookup_1; [exact HS|exact HP]).
    ands; [lia|done|by apply fmerge_sorted| |].
    + rewrite <- fmerge_stable by done. by rewrite Hlb.
    + eapply frame_trans; [eapply frame_mono; [|exact Hf]|eapply frame_mono; [|exact Hf2]]; [set_solver|].
      intros z. destruct Hlb as [Hpm _]. by rewrite Hpm.
  - exists r. split; [done|]. destruct r as [m' list], HI as (k & lb & Hk & HI). assert (k = mx) as -> by lia. by exists lb.
Qed.
End MergeFacts.

(** ** The sort *)

Lemma links_seg m p l v : links m p l → 0 ∉ l → get_next m (last_node p l) = Some v →
  ∃ q, get_next m p = Some q ∧ seg m q l v.
Proof.
  revert p. induction l as [|x l IH]; intros p; simpl; [intros; by exists v|].
  intros (Hp & _ & Hl) H0 Hv. replace (last_node p (x :: l)) with (last_node x l) in Hv.
  2:{ unfold last_node. destruct l as [|z l]; [done|]. simpl. destruct (last (z :: l)) eqn:E; [done|]. by apply last_None in E. }
  destruct (IH x) as (q & Hq & Hs); [done|set_solver|done|].
  exists x. split; [done|]. change (seg m x (x :: l) v). apply seg_cons_next. ands; [done|set_solver|]. by exists q.
Qed.

Lemma links_dom m p l : links m p l → ∀ q, q ∈ l → is_Some (m !! q).
Proof.
  revert p. induction l as [|x l IH]; intros p; [by intros _ q Hq%not_elem_of_nil|].
  intros (_ & Hx & Hl) q [-> |Hq]%elem_of_cons; [|by eapply IH].
  unfold get_prev in Hx. destruct (m !! x); by eauto.
Qed.

(** The circular list becomes a null-terminated one. *)
Lemma open_list m head l : circular m head l → l ≠ [] →
  ∃ p m1 q, get_next m head = Some q ∧ q ≠ head ∧ get_prev m head = Some p ∧ set_next m p 0 = Some m1 ∧
    get_next m1 head = Some q ∧ chain m1 q l ∧ frame (head :: l) m m1 ∧ is_Some (m1 !! head).
Proof.
  intros (Hl & Hnd & H0) Hne. apply links_snoc in Hl as Hl'. destruct Hl' as (Hl1 & Hn & Hp).
  pose proof (links_dom _ _ _ Hl) as Hdom.
  destruct (set_next_ok m (last_node head l) 0) as (m1 & E1 & Hf1 & Hn1 & Hne1 & Hp1).
  { apply Hdom. pose proof (last_node_in head l). set_solver. }
  assert (Hlast : last_node head l ∈ l).
  { destruct l as [|x l _] using rev_ind; [done|]. rewrite last_node_snoc. set_solver. }
  apply NoDup_cons in Hnd as Hnd'. destruct Hnd' as [Hh _].
  destruct (links_seg m1 head l 0) as (q & Hq & Hs); [|set_solver|done|].
  { eapply links_ext; [done| |by intros; rewrite Hp1|done]. intros z _ Hz. by apply Hne1. }
  assert (Hqm : get_next m head = Some q) by (rewrite <- Hne1; [done|]; intros Heq; apply Hh; by rewrite <- Heq in Hlast).
  exists (last_node head l), m1, q. ands; try done.
  - destruct l as [|x l]; [done|]. destruct Hs as (-> & _). set_solver.
  - eapply frame_mono; [|done]. set_solver.
  - apply Hf1, Hdom. set_solver.
Qed.

(** C31: [list_sort] of a circular list with any number of elements returns: the list
    is again circular with both links intact, has the same elements in ascending
    order, keeps the order of elements that compare equal, and no other node is
    touched; for every callback that compares the elements as a total preorder and
    can be called on the list head. *)
Theorem list_sort_correct c cmp m head l :
  Comparator c → (∀ x y, x ∈ l → y ∈ l → cmp x y = Some (c x y)) → is_Some (cmp head head) →
  circular m head l →
  ∃ m' l', list_sort cmp m head = Some m' ∧ circular m' head l' ∧ StronglySorted (cmp_le c) l' ∧
    l' ≡ₚ l ∧ (∀ x, like c x l' = like c x l) ∧ frame (head :: l) m m'.
Proof.
  intros HC Hcmp Hcmph Hcirc. pose proof Hcirc as (Hl & Hnd & H0). unfold list_sort.
  destruct (decide (l = [])) as [-> |Hne].
  { destruct Hl as (Hn & _). rewrite Hn. cbn [mbind option_bind]. rewrite Z.eqb_refl. exists m, [].
    ands; [done|done|constructor|done|done|done]. }
  destruct (open_list m head l Hcirc Hne) as (p & m1 & q & -> & Hqh & -> & E1 & Hq1 & Hc1 & Hf1 & Hh1).
  cbn [mbind option_bind]. destruct (Z.eqb_spec q head); [done|]. rewrite E1. cbn [mbind option_bind].
  rewrite Hq1. cbn [mbind option_bind]. apply NoDup_cons in Hnd as [Hhl Hndl].
  destruct (main_loop_ok c cmp m1 l q Hc1 Hndl Hcmp) as ([[[m2 part] max_lev] ls] & E2 & parts & mx & -> & -> & HL & Hf2).
  cbv zeta in E2. cbv zeta. rewrite E2. cbn [mbind option_bind].
  destruct (collect_ok c cmp m2 part parts mx l HL Hndl Hcmp) as ([m3 ls] & -> & lb & Hlb & Hsb & Hstb & Hf3).
  cbn [mbind option_bind]. destruct HL as [Hlen HF HS Hst Hmax Habove Htop _].
  destruct (Htop Hne) as (la & Hla & Hla0). destruct (Forall2_lookup_r _ _ _ _ _ HF Hla) as (pa & Hpa & Hca).
  rewrite arr_get_lookup, Hpa. cbn [mbind option_bind].
  assert (Hruns : runs parts = la ++ runs (take mx parts)).
  { rewrite <- (take_drop_middle parts mx la Hla) at 1. rewrite runs_app, runs_cons, <- app_assoc.
    replace (runs (drop (S mx) parts)) with ([] : list Z); [done|]. symmetry. apply elem_of_nil_inv.
    intros z (P & (j & HP)%list_elem_of_lookup & Hz)%elem_of_runs. rewrite lookup_drop in HP.
    pose proof (lookup_lt_Some _ _ _ HP). rewrite Habove in HP by lia. simplify_eq. by apply not_elem_of_nil in Hz. }
  assert (Hstab : stable c l (la ++ lb)) by (rewrite Hst, Hruns; by rewrite Hstb).
  assert (HP : la ++ lb ≡ₚ l) by apply Hstab.
  destruct (restore_ok c cmp m3 head pa ls la lb) as (m4 & -> & Hl4 & Hf4).
  - eapply chain_frame; [exact Hf3| |exact Hca]. intros z Hz Hz'. destruct Hst as [Hp _]. rewrite <- Hp, Hruns in Hndl.
    apply list.NoDup_app in Hndl as (_ & Hd & _). by apply (Hd z).
  - done.
  - rewrite HP. by constructor.
  - set_solver.
  - apply Hf3, Hf2. done.
  - destruct la; [done|]. done.
  - intros x y. rewrite HP. apply Hcmp.
  - done.
  - assert (Hsa : StronglySorted (cmp_le c) la) by (eapply Forall_lookup_1; [exact HS|exact Hla]).
    pose proof (fmerge_stable c la lb Hsa Hsb) as Hm. rewrite <- Hstab in Hm. destruct Hm as [Hmp Hml].
    exists m4, (list_merge (cmp_le c) la lb). ands; [done| |by apply fmerge_sorted|done|done|].
    + unfold circular. ands; [done|rewrite Hmp; by constructor|by rewrite Hmp].
    + eapply frame_trans; [exact Hf1|]. eapply frame_trans; [eapply frame_mono; [|exact Hf2]; set_solver|].
      eapply frame_trans; [eapply frame_mono; [|exact Hf3]|eapply frame_mono; [|exact Hf4]]; intros z Hz.
      * right. destruct Hst as [Hp _]. rewrite <- Hp, Hruns. set_solver.
      * by rewrite HP in Hz.
Qed.

(** A list of three elements at 100, 200 and 300 with keys 2, 1 and 2. *)
Definition wit_list : mem :=
  list_to_map [(50, ListHead 100 300); (100, ListHead 200 50); (200, ListHead 300 100); (300, ListHead 50 200)].
Definition wit_key (x : Z) : Z := if x =? 200 then 1 else 2.

#[local] Instance wit_cmp : Comparator (λ x y, wit_key x - wit_key y).
Proof. split; lia. Qed.

Lemma list_sort_correct_witness :
  (∃ m' l', list_sort (λ x y, Some (wit_key x - wit_key y)) wit_list 50 = Some m' ∧ circular m' 50 l' ∧
    StronglySorted (cmp_le (λ x y, wit_key x - wit_key y)) l' ∧ l' ≡ₚ [100; 200; 300] ∧
    (∀ x, like (λ x y, wit_key x - wit_key y) x l' = like (λ x y, wit_key x - wit_key y) x [100; 200; 300]) ∧
    frame [50; 100; 200; 300] wit_list m') ∧
  list_sort (λ x y, Some (wit_key x - wit_key y)) wit_list 50 =
    Some (list_to_map [(50, ListHead 200 300); (100, ListHead 300 200); (200, ListHead 100 50); (300, ListHead 50 100)]).
Proof.
  split; [|vm_compute; reflexivity].
  apply (list_sort_correct (λ x y, wit_key x - wit_key y) (λ x y, Some (wit_key x - wit_key y)) wit_list 50 [100; 200; 300]).
  - apply wit_cmp.
  - done.
  - by eexists.
  - split; [done|]. split; [|set_solver]. repeat (constructor; [set_solver|]). constructor.
Defined.

(** The callback is called on the list head, which is no element: a callback that is
    only defined on the elements fails on a list of one element. *)
Example list_sort_compares_head :
  let m : mem := list_to_map [(50, ListHead 100 100); (100, ListHead 50 50)] in
  circular m 50 [100] ∧ list_sort (λ x y, if (x =? 50) || (y =? 50) then None else Some 0) m 50 = None.
Proof.
  split; [|vm_compute; reflexivity].
  split; [done|]. split; [|set_solver]. repeat (constructor; [set_solver|]). constructor.
Qed.
