(* ===== verification/Nls.v ===== *)
(** * Unicode conversions

    Models the conversions of [fs/nls/nls_base.c]: one character between UTF-8 and
    UTF-32, and strings between UTF-8 and UTF-16.  A buffer is a list of cells and a
    pointer an index in it; [unsigned long] has 32 bits. *)

From S2P Require Import Prelude.
#[local] Open Scope Z_scope.
#[local] Open Scope kernel_scope.

Record utf8_table := Utf8Table { cmask : Z; cval : Z; shift : Z; lmask : Z; lval : Z }.

(** The entries before the end of the table. *)
Definition utf8_table_entries : list utf8_table := [
  Utf8Table 0x80 0x00 (0 * 6) 0x7F 0;
  Utf8Table 0xE0 0xC0 (1 * 6) 0x7FF 0x80;
  Utf8Table 0xF0 0xE0 (2 * 6) 0xFFFF 0x800;
  Utf8Table 0xF8 0xF0 (3 * 6) 0x1FFFFF 0x10000;
  Utf8Table 0xFC 0xF8 (4 * 6) 0x3FFFFFF 0x200000;
  Utf8Table 0xFE 0xFC (5 * 6) 0x7FFFFFFF 0x4000000].

Definition UNICODE_MAX : Z := 0x0010ffff.
Definition PLANE_SIZE : Z := 0x00010000.
Definition SURROGATE_MASK : Z := 0xfffff800.
Definition SURROGATE_PAIR : Z := 0x0000d800.
Definition SURROGATE_LOW : Z := 0x00000400.
Definition SURROGATE_BITS : Z := 0x000003ff.
Definition EINVAL : Z := 22.

(** ** One character *)

(** The loop of [utf8_to_utf32] over the table: [c0] is the first byte, [l] the
    bits so far, [nc] the bytes read.  Returns the result and the value stored. *)
Fixpoint utf8_scan (ts : list utf8_table) (s : list Z) (p len c0 l nc : Z) : option (Z * option Z) :=
  match ts with
  | [] => Some (-1, None)
  | t :: ts =>
      let nc := nc + 1 in
      if Z.land c0 (cmask t) =? cval t then
        let l := Z.land l (lmask t) in
        if (l <? lval t) || (l >? UNICODE_MAX) || (Z.land l SURROGATE_MASK =? SURROGATE_PAIR) then Some (-1, None)
        else Some (nc, Some l)
      else if len <=? nc then Some (-1, None)
      else
        let p := p + 1 in
        b ← s.[p];
        let c := Z.land (Z.lxor b 0x80) 0xFF in
        if ctrue (Z.land c 0xC0) then Some (-1, None)
        else utf8_scan ts s p len c0 (Z.lor (ushl 32 l 6) c) nc
  end.

Definition utf8_to_utf32 (s : list Z) (p len : Z) : option (Z * option Z) :=
  c0 ← s.[p]; utf8_scan utf8_table_entries s p len c0 c0 0.

(** The loop that stores the continuation bytes. *)
Definition put_continuation (l : Z) (s : list Z) (p c : Z) : option (list Z) :=
  '(s, _) ← loop (S (Z.to_nat c)) (λ '(s, p, c),
    if c >? 0 then
      let c := c - 6 in
      let p := p + 1 in
      s ← s.[p <- u8 (Z.lor 0x80 (Z.land (Z.shiftr l c) 0x3F))];
      Some (inl (s, p, c))
    else Some (inr (s, p))) (s, p, c);
  Some s.

Fixpoint utf32_scan (ts : list utf8_table) (l : Z) (s : list Z) (p maxlen nc : Z) : option (list Z * Z) :=
  match ts with
  | [] => Some (s, -1)
  | t :: ts =>
      if negb (ctrue maxlen) then Some (s, -1) else
      let nc := nc + 1 in
      if l <=? lmask t then
        s ← s.[p <- u8 (Z.lor (cval t) (Z.shiftr l (shift t)))];
        s ← put_continuation l s p (shift t);
        Some (s, nc)
      else utf32_scan ts l s p (maxlen - 1) nc
  end.

(** A null buffer is [None]. *)
Definition utf32_to_utf8 (u : Z) (s : option (list Z)) (p maxlen : Z) : option (option (list Z) * Z) :=
  match s with
  | None => Some (None, 0)
  | Some s =>
      if (u >? UNICODE_MAX) || (Z.land u SURROGATE_MASK =? SURROGATE_PAIR) then Some (Some s, -1) else
      '(s, r) ← utf32_scan utf8_table_entries u s p maxlen 0;
      Some (Some s, r)
  end.

(** ** Strings *)

(** A character stored as one unit or as a surrogate pair. *)
Definition utf16_put (pwcs : list Z) (op u : Z) : option (list Z * Z) :=
  if u >=? PLANE_SIZE then
    let u := u - PLANE_SIZE in
    pwcs ← pwcs.[op <- u16 (Z.lor SURROGATE_PAIR (Z.land (Z.shiftr u 10) SURROGATE_BITS))];
    pwcs ← pwcs.[op + 1 <- u16 (Z.lor (Z.lor SURROGATE_PAIR SURROGATE_LOW) (Z.land u SURROGATE_BITS))];
    Some (pwcs, op + 2)
  else
    pwcs ← pwcs.[op <- u16 u];
    Some (pwcs, op + 1).

Definition utf8s_to_utf16s (s : list Z) (len : Z) (pwcs : list Z) : option (list Z * Z) :=
  loop (S (length s)) (λ '(p, len, pwcs, op),
    b ← s.[p];
    if ctrue b && (len >? 0) then
      if ctrue (Z.land b 0x80) then
        '(size, r) ← utf8_to_utf32 s p len;
        if size <? 0 then Some (inr (pwcs, - EINVAL)) else
        u ← r;
        '(pwcs, op) ← utf16_put pwcs op u;
        Some (inl (p + size, len - size, pwcs, op))
      else
        pwcs ← pwcs.[op <- b];
        Some (inl (p + 1, len - 1, pwcs, op + 1))
    else Some (inr (pwcs, op))) (0, len, pwcs, 0).

Inductive utf16_endian := UTF16_HOST_ENDIAN | UTF16_LITTLE_ENDIAN | UTF16_BIG_ENDIAN.

(** [__swab16] of [include/linux/swab.h]. *)
Definition swab16 (x : Z) : Z :=
  u16 (Z.lor (ushl 16 (Z.land x 0x00ff) 8) (Z.shiftr (Z.land x 0xff00) 8)).

Definition get_utf16 (c : Z) (endian : utf16_endian) : Z :=
  match endian with
  | UTF16_HOST_ENDIAN => c
  | UTF16_LITTLE_ENDIAN => c
  | UTF16_BIG_ENDIAN => swab16 c
  end.

Definition utf16s_to_utf8s (pwcs : list Z) (len : Z) (endian : utf16_endian) (s : list Z) (maxlen : Z) :
    option (list Z * Z) :=
  loop (S (Z.to_nat len)) (λ '(p, len, s, op, maxlen),
    if (len >? 0) && (maxlen >? 0) then
      c ← pwcs.[p];
      let u := get_utf16 c endian in
      if negb (ctrue u) then Some (inr (s, op)) else
      let p := p + 1 in
      let len := len - 1 in
      if u >? 0x7f then
        let put '(p, len, u) :=
          '(s, size) ← utf32_to_utf8 u (Some s) op maxlen;
          s ← s;
          Some (inl (if size =? -1 then (p, len, s, op, maxlen) else (p, len, s, op + size, maxlen - size))) in
        if Z.land u SURROGATE_MASK =? SURROGATE_PAIR then
          if ctrue (Z.land u SURROGATE_LOW) then Some (inl (p, len, s, op, maxlen)) else
          if len <=? 0 then Some (inr (s, op)) else
          c ← pwcs.[p];
          let v := get_utf16 c endian in
          if negb (Z.land v SURROGATE_MASK =? SURROGATE_PAIR) || negb (ctrue (Z.land v SURROGATE_LOW))
          then Some (inl (p, len, s, op, maxlen)) else
          put (p + 1, len - 1, u32 (PLANE_SIZE + ushl 32 (Z.land u SURROGATE_BITS) 10 + Z.land v SURROGATE_BITS))
        else put (p, len, u)
      else
        s ← s.[op <- u8 u];
        Some (inl (p, len, s, op + 1, maxlen - 1))
    else Some (inr (s, op))) (0, len, s, 0, maxlen).
