(* ===== verification/NlsFacts.v ===== *)
(** * The Unicode conversions are correct

    UTF-8 as a function of code points, and the conversions of [Nls] shown to encode
    and decode it: one character first, then strings. *)

From S2P Require Import Prelude Words Nls.
#[local] Open Scope Z_scope.
#[local] Open Scope kernel_scope.

(** ** Reference encodings *)

(** A Unicode scalar value. *)
Definition scalar (u : Z) : Prop := 0 ≤ u ≤ 0x10ffff ∧ ¬ (0xd800 ≤ u < 0xe000).
#[export] Instance scalar_dec u : Decision (scalar u).
Proof. unfold scalar. apply _. Defined.

Definition utf8_enc (u : Z) : list Z :=
  if u <? 0x80 then [u]
  else if u <? 0x800 then [0xc0 + u / 64; 0x80 + u mod 64]
  else if u <? 0x10000 then [0xe0 + u / 4096; 0x80 + u / 64 mod 64; 0x80 + u mod 64]
  else [0xf0 + u / 262144; 0x80 + u / 4096 mod 64; 0x80 + u / 64 mod 64; 0x80 + u mod 64].

Definition utf16_enc (u : Z) : list Z :=
  if u <? 0x10000 then [u]
  else [0xd800 + (u - 0x10000) / 1024; 0xdc00 + (u - 0x10000) mod 1024].

(** ** Bit patterns of bytes *)

Lemma byte_check (P : Z → bool) : forallb P (seqZ 0 256) = true → ∀ b, byte b → P b = true.
Proof.
  intros H b Hb. rewrite forallb_forall in H. apply H. apply list_elem_of_In, elem_of_seqZ.
  unfold urange in Hb. lia.
Qed.

(** The first bytes of the sequences of each length. *)
Definition in_range (lo hi b : Z) : bool := (lo <=? b) && (b <? hi).

Lemma lead_byte c0 : byte c0 →
  (Z.land c0 0x80 =? 0x00) = in_range 0 0x80 c0 ∧ (Z.land c0 0xE0 =? 0xC0) = in_range 0xC0 0xE0 c0 ∧
  (Z.land c0 0xF0 =? 0xE0) = in_range 0xE0 0xF0 c0 ∧ (Z.land c0 0xF8 =? 0xF0) = in_range 0xF0 0xF8 c0.
Proof.
  assert (H : forallb (λ b, bool_decide ((Z.land b 0x80 =? 0x00) = in_range 0 0x80 b ∧
    (Z.land b 0xE0 =? 0xC0) = in_range 0xC0 0xE0 b ∧ (Z.land b 0xF0 =? 0xE0) = in_range 0xE0 0xF0 b ∧
    (Z.land b 0xF8 =? 0xF0) = in_range 0xF0 0xF8 b)) (seqZ 0 256) = true) by (vm_compute; reflexivity).
  intros Hb. exact (bool_decide_eq_true_1 _ (byte_check _ H c0 Hb)).
Qed.

(** Continuation bytes and their six bits. *)
Lemma cont_byte b : byte b →
  ctrue (Z.land (Z.land (Z.lxor b 0x80) 0xFF) 0xC0) = negb (in_range 0x80 0xC0 b) ∧
  (in_range 0x80 0xC0 b = true → Z.land (Z.lxor b 0x80) 0xFF = b - 0x80).
Proof.
  assert (H : forallb (λ b, bool_decide (
    ctrue (Z.land (Z.land (Z.lxor b 0x80) 0xFF) 0xC0) = negb (in_range 0x80 0xC0 b) ∧
    (in_range 0x80 0xC0 b = true → Z.land (Z.lxor b 0x80) 0xFF = b - 0x80))) (seqZ 0 256) = true) by (vm_compute; reflexivity).
  intros Hb. exact (bool_decide_eq_true_1 _ (byte_check _ H b Hb)).
Qed.

Lemma in_range_spec lo hi b : BoolSpec (lo ≤ b < hi) (¬ (lo ≤ b < hi)) (in_range lo hi b).
Proof.
  unfold in_range. destruct (Z.leb_spec lo b), (Z.ltb_spec b hi); constructor; lia.
Qed.

Lemma lor_low x c k : 0 ≤ k → 0 ≤ c < 2 ^ k → Z.lor (Z.shiftl x k) c = x * 2 ^ k + c.
Proof.
  intros Hk Hc. rewrite Z.lor_comm, <- Z.lxor_lor.
  - rewrite <- add_shiftl_lxor by done. lia.
  - apply Z.bits_inj'. intros i Hi. rewrite Z.land_spec, Z.bits_0, Z.shiftl_spec by done.
    destruct (decide (i < k)); [by rewrite (Z.testbit_neg_r x), andb_false_r by lia|].
    by rewrite (urange_testbit_high k c) by (done || lia).
Qed.

Lemma surrogate_test l : urange 32 l →
  (Z.land l SURROGATE_MASK =? SURROGATE_PAIR) = in_range 0xd800 0xe000 l.
Proof.
  intros Hl. unfold SURROGATE_MASK, SURROGATE_PAIR. replace (Z.land l 0xfffff800) with (l / 2048 * 2048).
  - destruct (in_range_spec 0xd800 0xe000 l), (Z.eqb_spec (l / 2048 * 2048) 0xd800); try done;
      (Z.to_euclidean_division_equations; lia).
  - change 2048 with (2 ^ 11) at 1. rewrite <- Z.shiftr_div_pow2 by lia.
    change 2048 with (2 ^ 11). rewrite <- Z.shiftl_mul_pow2, <- Z.ldiff_ones_r by lia.
    apply Z.bits_inj'. intros i Hi. rewrite Z.ldiff_spec, Z.land_spec.
    destruct (decide (32 ≤ i)); [by rewrite (urange_testbit_high 32 l i) by done|]. f_equal.
    change 0xfffff800 with (Z.shiftl (Z.ones 21) 11). rewrite Z.shiftl_spec, !Z.testbit_ones by lia.
    destruct (Z.leb_spec 0 i), (Z.ltb_spec i 11), (Z.leb_spec 0 (i - 11)), (Z.ltb_spec (i - 11) 21); done || lia.
Qed.

(** ** Decoding one character *)

(** A table entry that does not match the first byte reads a continuation byte. *)
Lemma scan_next t ts s p len c0 l nc b :
  (Z.land c0 (cmask t) =? cval t) = false → s.[p + 1] = Some b → byte b → 0 ≤ l →
  utf8_scan (t :: ts) s p len c0 l nc =
    if len <=? nc + 1 then Some (-1, None)
    else if in_range 0x80 0xC0 b then utf8_scan ts s (p + 1) len c0 (u32 (l * 64) + (b - 0x80)) (nc + 1)
    else Some (-1, None).
Proof.
  intros Ht Hb Hby Hl. cbn [utf8_scan]. rewrite Ht, Hb. cbn [mbind option_bind].
  destruct (len <=? nc + 1); [done|]. destruct (cont_byte b Hby) as [-> Hc].
  destruct (in_range_spec 0x80 0xC0 b) as [Hr|Hr]; [|done]. cbn [negb]. rewrite Hc by done. f_equal.
  unfold ushl. rewrite Z.shiftl_mul_pow2 by lia. change (2 ^ 6) with 64.
  assert (E : u32 (l * 64) = Z.shiftl (uwrap 26 l) 6).
  { rewrite Z.shiftl_mul_pow2 by lia. unfold uwrap. change (2 ^ 32) with (2 ^ 26 * 64).
    by rewrite Z.mul_mod_distr_r by lia. }
  rewrite E, lor_low by lia. f_equal. by rewrite Z.shiftl_mul_pow2 by lia.
Qed.

(** The bytes [bs] are in the buffer at [p]. *)
Definition bytes_at (s : list Z) (p : Z) (bs : list Z) : Prop :=
  ∀ i b, bs.[i] = Some b → s.[p + i] = Some b.

Lemma lead_match t ts s p len c0 l nc : (Z.land c0 (cmask t) =? cval t) = true →
  utf8_scan (t :: ts) s p len c0 l nc =
    if (Z.land l (lmask t) <? lval t) || (Z.land l (lmask t) >? UNICODE_MAX) ||
       (Z.land (Z.land l (lmask t)) SURROGATE_MASK =? SURROGATE_PAIR) then Some (-1, None)
    else Some (nc + 1, Some (Z.land l (lmask t))).
Proof. intros Ht. cbn [utf8_scan]. by rewrite Ht. Qed.

Lemma land_mask l n k : n = 2 ^ k - 1 → 0 ≤ k → Z.land l n = l mod 2 ^ k.
Proof. intros -> Hk. rewrite <- Z.land_ones by done. f_equal. rewrite Z.ones_equiv. lia. Qed.

(** The checks at a matching entry pass for a scalar value in the range of its length. *)
Lemma lead_ok k t ts s p len c0 l nc u n : (Z.land c0 (cmask t) =? cval t) = true → lmask t = 2 ^ k - 1 → 0 ≤ k →
  l mod 2 ^ k = u → scalar u → lval t ≤ u → nc + 1 = n →
  utf8_scan (t :: ts) s p len c0 l nc = Some (n, Some u).
Proof.
  intros Ht Hm Hk Hl [Hu1 Hu2] Hlv <-. rewrite lead_match by done. rewrite (land_mask l _ k), Hl by done.
  destruct (Z.ltb_spec u (lval t)); [lia|]. unfold UNICODE_MAX. destruct (Z.gtb_spec u 0x10ffff); [lia|].
  rewrite surrogate_test by (unfold urange; lia). destruct (in_range_spec 0xd800 0xe000 u); [done|]. done.
Qed.

Lemma in_range_true lo hi b : lo ≤ b < hi → in_range lo hi b = true.
Proof. destruct (in_range_spec lo hi b); lia. Qed.
Lemma in_range_false lo hi b : ¬ (lo ≤ b < hi) → in_range lo hi b = false.
Proof. destruct (in_range_spec lo hi b); lia. Qed.

(** Going past a table entry: [L] says which first bytes the entry matches, [H]
    gives the continuation byte that is read next. *)
Ltac scan_skip L H :=
  rewrite in_range_false in L by lia; erewrite scan_next; [|exact L|exact H|eauto|lia];
  rewrite (proj2 (Z.leb_gt _ _)) by lia; rewrite (in_range_true 0x80 0xC0) by lia.

Lemma decode_enc s p len u : scalar u → Forall byte s → bytes_at s p (utf8_enc u) → alen (utf8_enc u) ≤ len →
  utf8_to_utf32 s p len = Some (alen (utf8_enc u), Some u).
Proof.
  intros Hu Hby. pose proof Hu as [Hu1 _]. unfold utf8_enc, utf8_to_utf32, utf8_table_entries, bytes_at.
  assert (Hb : ∀ i b, s.[i] = Some b → byte b) by (intros i b; by apply Forall_arr_get).
  pose proof (Z.mod_pos_bound u 64 ltac:(lia)) as M1. pose proof (Z.mod_pos_bound (u / 64) 64 ltac:(lia)) as M2.
  pose proof (Z.mod_pos_bound (u / 4096) 64 ltac:(lia)) as M3.
  destruct (Z.ltb_spec u 0x80); [|destruct (Z.ltb_spec u 0x800); [|destruct (Z.ltb_spec u 0x10000)]];
    intros Hs Hlen; pose proof (Hs 0 _ eq_refl) as B0; rewrite Z.add_0_r in B0; rewrite B0; cbn [mbind option_bind];
    destruct (lead_byte _ (Hb _ _ B0)) as (L1 & L2 & L3 & L4).
  - change (alen _) with 1 in *.
    apply (lead_ok 7); [rewrite <- (in_range_true 0 0x80 u) by lia; exact L1|done|done| |done|cbn; lia|done].
    apply Z.mod_small; lia.
  - assert (0xc0 ≤ 0xc0 + u / 64 < 0xe0) by (Z.to_euclidean_division_equations; lia).
    pose proof (Hs 1 _ eq_refl) as B1. change (alen _) with 2 in *. scan_skip L1 B1.
    apply (lead_ok 11); [rewrite <- (in_range_true 0xC0 0xE0 (0xc0 + u / 64)) by lia; exact L2|done|done| |done|cbn; lia|done].
    unfold uwrap. Z.to_euclidean_division_equations; lia.
  - assert (0xe0 ≤ 0xe0 + u / 4096 < 0xf0) by (Z.to_euclidean_division_equations; lia).
    pose proof (Hs 1 _ eq_refl) as B1. pose proof (Hs 2 _ eq_refl) as B2. replace (p + 2) with (p + 1 + 1) in B2 by lia.
    change (alen _) with 3 in *. scan_skip L1 B1.
    pose proof (urange_uwrap 32 ((0xe0 + u / 4096) * 64) ltac:(lia)) as [R1 _]. scan_skip L2 B2.
    apply (lead_ok 16); [rewrite <- (in_range_true 0xE0 0xF0 (0xe0 + u / 4096)) by lia; exact L3|done|done| |done|cbn; lia|done].
    unfold uwrap. Z.to_euclidean_division_equations; lia.
  - assert (0xf0 ≤ 0xf0 + u / 262144 < 0xf8) by (Z.to_euclidean_division_equations; lia).
    pose proof (Hs 1 _ eq_refl) as B1. pose proof (Hs 2 _ eq_refl) as B2. replace (p + 2) with (p + 1 + 1) in B2 by lia.
    pose proof (Hs 3 _ eq_refl) as B3. replace (p + 3) with (p + 1 + 1 + 1) in B3 by lia.
    change (alen _) with 4 in *. scan_skip L1 B1.
    pose proof (urange_uwrap 32 ((0xf0 + u / 262144) * 64) ltac:(lia)) as [R1 _]. scan_skip L2 B2.
    match goal with |- context [u32 ((u32 ?x + ?y) * 64)] =>
      pose proof (urange_uwrap 32 ((u32 x + y) * 64) ltac:(lia)) as [R2 _] end. scan_skip L3 B3.
    apply (lead_ok 21); [rewrite <- (in_range_true 0xF0 0xF8 (0xf0 + u / 262144)) by lia; exact L4|done|done| |done|cbn; lia|done].
    unfold uwrap. Z.to_euclidean_division_equations; lia.
Qed.

Lemma lead_cases k t ts s p len c0 l nc : (Z.land c0 (cmask t) =? cval t) = true → lmask t = 2 ^ k - 1 → 0 ≤ k ≤ 21 →
  utf8_scan (t :: ts) s p len c0 l nc =
    if decide (scalar (l mod 2 ^ k) ∧ lval t ≤ l mod 2 ^ k) then Some (nc + 1, Some (l mod 2 ^ k)) else Some (-1, None).
Proof.
  intros Ht Hm Hk. rewrite lead_match by done. rewrite (land_mask l _ k) by (done || lia).
  assert (Hr : 0 ≤ l mod 2 ^ k < 2 ^ 21).
  { pose proof (Z.mod_pos_bound l (2 ^ k) ltac:(lia)). pose proof (Z.pow_le_mono_r 2 k 21). lia. }
  set (u := l mod 2 ^ k) in *. rewrite surrogate_test by (unfold urange; lia). unfold UNICODE_MAX, scalar.
  destruct (Z.ltb_spec u (lval t)), (Z.gtb_spec u 0x10ffff), (in_range_spec 0xd800 0xe000 u); cbn [orb];
    case_decide; done || lia.
Qed.

(** No sequence of five or six bytes is accepted. *)
Lemma scan_long ts s p len c0 l nc : Forall (λ t, UNICODE_MAX < lval t) ts → Forall byte s → 0 ≤ p → 0 ≤ l →
  p + (len - nc) ≤ alen s → utf8_scan ts s p len c0 l nc = Some (-1, None).
Proof.
  intros Hts Hby. revert p l nc. induction Hts as [|t ts Ht Hts IH]; intros p l nc Hp Hl Hlen; [done|].
  destruct (Z.land c0 (cmask t) =? cval t) eqn:E.
  { rewrite lead_match by done. destruct (Z.ltb_spec (Z.land l (lmask t)) (lval t)); [done|].
    destruct (Z.gtb_spec (Z.land l (lmask t)) UNICODE_MAX); [done|lia]. }
  destruct (decide (len ≤ nc + 1)) as [Hl1|Hl1].
  { cbn [utf8_scan]. rewrite E. by rewrite (proj2 (Z.leb_le _ _)). }
  destruct (arr_get_lt s (p + 1)) as [b Hb]; [lia|].
  pose proof (Forall_arr_get _ _ _ _ Hby Hb) as Hbb. unfold urange in Hbb.
  erewrite scan_next; [|done..]. destruct (len <=? nc + 1); [done|].
  destruct (in_range_spec 0x80 0xC0 b); [|done]. apply IH; [lia| |lia].
  pose proof (urange_uwrap 32 (l * 64) ltac:(lia)) as [? _]. lia.
Qed.

Lemma bytes_at_cons s p b bs : s.[p] = Some b → bytes_at s (p + 1) bs → bytes_at s p (b :: bs).
Proof.
  intros Hb Hbs i x Hx. pose proof (arr_get_Some_lt _ _ _ Hx) as Hi. destruct (decide (i = 0)) as [->|].
  - rewrite Z.add_0_r. rewrite Hb. exact Hx.
  - replace (p + i) with (p + 1 + (i - 1)) by lia. apply Hbs. revert Hx. unfold arr_get.
    destruct (Z.leb_spec 0 i), (Z.leb_spec 0 (i - 1)); try lia. by replace (Z.to_nat i) with (S (Z.to_nat (i - 1))) by lia.
Qed.

Lemma bytes_at_nil s p : bytes_at s p [].
Proof. intros i x Hx%arr_get_Some_lt. unfold alen in Hx. simpl in Hx. lia. Qed.

(** The result of decoding at [p]: a scalar value whose encoding is there, or an error. *)
Definition decoded (s : list Z) (p len : Z) (r : option (Z * option Z)) : Prop :=
  (∃ u, scalar u ∧ bytes_at s p (utf8_enc u) ∧ alen (utf8_enc u) ≤ len ∧ r = Some (alen (utf8_enc u), Some u)) ∨
  r = Some (-1, None).

Lemma decoded_lead s p len bs u lv n :
  (scalar u → lv ≤ u → utf8_enc u = bs) → bytes_at s p bs → alen bs = n → n ≤ len →
  decoded s p len (if decide (scalar u ∧ lv ≤ u) then Some (n, Some u) else Some (-1, None)).
Proof.
  intros He Hb Hn Hl. case_decide as Hd; [|by right]. destruct Hd as [Hu Hlv]. left. exists u.
  rewrite (He Hu Hlv). ands; [done|done|lia|by rewrite Hn].
Qed.

Lemma decode_sound s p len : Forall byte s → 0 ≤ p → 1 ≤ len → p + len ≤ alen s →
  decoded s p len (utf8_to_utf32 s p len).
Proof.
  intros Hby Hp Hlen Hs. unfold utf8_to_utf32, utf8_table_entries. destruct (arr_get_lt s p) as [c0 B0]; [lia|].
  assert (Hb : ∀ i b, s.[i] = Some b → 0 ≤ b < 256) by (intros i b; exact (Forall_arr_get _ _ _ _ Hby)).
  rewrite B0. cbn [mbind option_bind]. pose proof (Hb _ _ B0) as R0.
  destruct (lead_byte c0 R0) as (L1 & L2 & L3 & L4).
  destruct (in_range_spec 0 0x80 c0) as [I1|I1].
  { erewrite (lead_cases 7); [|exact L1|done|lia]. change (2 ^ 7) with 128. rewrite (Z.mod_small c0) by lia.
    apply (decoded_lead _ _ _ [c0]); [|by apply bytes_at_cons, bytes_at_nil|done|lia].
    intros _ _. unfold utf8_enc. by rewrite (proj2 (Z.ltb_lt _ _)) by lia. }
  destruct (decide (len ≤ 1)). { right. cbn [utf8_scan cmask cval]. rewrite L1. by rewrite (proj2 (Z.leb_le _ _)). }
  destruct (arr_get_lt s (p + 1)) as [b1 B1]; [lia|]. pose proof (Hb _ _ B1) as R1.
  erewrite scan_next; [|exact L1|exact B1|exact R1|lia]. rewrite (proj2 (Z.leb_gt _ _)) by lia.
  destruct (in_range_spec 0x80 0xC0 b1) as [C1|C1]; [|by right].
  rewrite uwrap_small by (unfold urange; lia).
  destruct (in_range_spec 0xC0 0xE0 c0) as [I2|I2].
  { erewrite (lead_cases 11); [|exact L2|done|lia]. change (2 ^ 11) with 2048. cbn [lval].
    replace ((c0 * 64 + (b1 - 128)) mod 2048) with ((c0 - 192) * 64 + (b1 - 128)) by (Z.to_euclidean_division_equations; lia).
    apply (decoded_lead _ _ _ [c0; b1]); [|by apply bytes_at_cons, bytes_at_cons, bytes_at_nil|done|lia].
    intros _ Hlv. unfold utf8_enc. rewrite (proj2 (Z.ltb_ge _ 128)), (proj2 (Z.ltb_lt _ 2048)) by lia.
    do 2 f_equal; [|f_equal]; Z.to_euclidean_division_equations; lia. }
  destruct (decide (len ≤ 2)). { right. cbn [utf8_scan cmask cval]. rewrite L2. by rewrite (proj2 (Z.leb_le _ _)). }
  destruct (arr_get_lt s (p + 1 + 1)) as [b2 B2]; [lia|]. pose proof (Hb _ _ B2) as R2.
  erewrite scan_next; [|exact L2|exact B2|exact R2|lia]. rewrite (proj2 (Z.leb_gt _ _)) by lia.
  destruct (in_range_spec 0x80 0xC0 b2) as [C2|C2]; [|by right].
  rewrite uwrap_small by (unfold urange; lia).
  destruct (in_range_spec 0xE0 0xF0 c0) as [I3|I3].
  { erewrite (lead_cases 16); [|exact L3|done|lia]. change (2 ^ 16) with 65536. cbn [lval].
    replace (((c0 * 64 + (b1 - 128)) * 64 + (b2 - 128)) mod 65536) with (((c0 - 224) * 64 + (b1 - 128)) * 64 + (b2 - 128))
      by (Z.to_euclidean_division_equations; lia).
    apply (decoded_lead _ _ _ [c0; b1; b2]); [|by do 3 (apply bytes_at_cons; [done|]); apply bytes_at_nil|done|lia].
    intros _ Hlv. unfold utf8_enc. rewrite (proj2 (Z.ltb_ge _ 128)), (proj2 (Z.ltb_ge _ 2048)), (proj2 (Z.ltb_lt _ 65536)) by lia.
    repeat f_equal; Z.to_euclidean_division_equations; lia. }
  destruct (decide (len ≤ 3)). { right. cbn [utf8_scan cmask cval]. rewrite L3. by rewrite (proj2 (Z.leb_le _ _)). }
  destruct (arr_get_lt s (p + 1 + 1 + 1)) as [b3 B3]; [lia|]. pose proof (Hb _ _ B3) as R3.
  erewrite scan_next; [|exact L3|exact B3|exact R3|lia]. rewrite (proj2 (Z.leb_gt _ _)) by lia.
  destruct (in_range_spec 0x80 0xC0 b3) as [C3|C3]; [|by right].
  rewrite uwrap_small by (unfold urange; lia).
  destruct (in_range_spec 0xF0 0xF8 c0) as [I4|I4].
  { erewrite (lead_cases 21); [|exact L4|done|lia]. change (2 ^ 21) with 2097152. cbn [lval].
    replace ((((c0 * 64 + (b1 - 128)) * 64 + (b2 - 128)) * 64 + (b3 - 128)) mod 2097152)
      with ((((c0 - 240) * 64 + (b1 - 128)) * 64 + (b2 - 128)) * 64 + (b3 - 128)) by (Z.to_euclidean_division_equations; lia).
    apply (decoded_lead _ _ _ [c0; b1; b2; b3]); [|by do 4 (apply bytes_at_cons; [done|]); apply bytes_at_nil|done|lia].
    intros _ Hlv. unfold utf8_enc. rewrite (proj2 (Z.ltb_ge _ 128)), (proj2 (Z.ltb_ge _ 2048)), (proj2 (Z.ltb_ge _ 65536)) by lia.
    repeat f_equal; Z.to_euclidean_division_equations; lia. }
  right. destruct (decide (len ≤ 4)). { cbn [utf8_scan cmask cval]. rewrite L4. by rewrite (proj2 (Z.leb_le _ _)). }
  destruct (arr_get_lt s (p + 1 + 1 + 1 + 1)) as [b4 B4]; [lia|]. pose proof (Hb _ _ B4) as R4.
  erewrite scan_next; [|exact L4|exact B4|exact R4|lia]. rewrite (proj2 (Z.leb_gt _ _)) by lia.
  destruct (in_range_spec 0x80 0xC0 b4) as [C4|C4]; [|done].
  apply scan_long; [by repeat constructor|done|lia| |lia].
  pose proof (urange_uwrap 32 ((((c0 * 64 + (b1 - 128)) * 64 + (b2 - 128)) * 64 + (b3 - 128)) * 64) ltac:(lia)) as [? _]. lia.
Qed.

(** ** Encoding one character *)

Lemma cont_value l c : 0 ≤ c → 0 ≤ l → u8 (Z.lor 0x80 (Z.land (Z.shiftr l c) 0x3F)) = 0x80 + l / 2 ^ c mod 64.
Proof.
  intros Hc Hl. rewrite (land_mask _ _ 6), Z.shiftr_div_pow2 by (done || lia). change (2 ^ 6) with 64.
  pose proof (Z.mod_pos_bound (l / 2 ^ c) 64 ltac:(lia)). change 0x80 with (Z.shiftl 2 6) at 1.
  rewrite lor_low by lia. rewrite uwrap_small by (unfold urange; lia). lia.
Qed.

Lemma put_continuation_ok l s p n : 0 ≤ n → 0 ≤ p → p + n < alen s → 0 ≤ l →
  ∃ s', put_continuation l s p (6 * n) = Some s' ∧ alen s' = alen s ∧
    ∀ i, s'.[i] = if decide (p < i ≤ p + n) then Some (0x80 + l / 2 ^ (6 * (n - (i - p))) mod 64) else s.[i].
Proof.
  intros Hn Hp Hs Hl. unfold put_continuation.
  run_loop (λ j '(s1, p1, c1), ∃ k, 0 ≤ k ≤ n ∧ j = Z.to_nat (n - k) ∧ p1 = p + k ∧ c1 = 6 * (n - k) ∧ alen s1 = alen s ∧
      ∀ i, s1.[i] = if decide (p < i ≤ p + k) then Some (0x80 + l / 2 ^ (6 * (n - (i - p))) mod 64) else s.[i])
    (Z.to_nat n) (λ r : list Z * Z, alen r.1 = alen s ∧
      ∀ i, (r.1).[i] = if decide (p < i ≤ p + n) then Some (0x80 + l / 2 ^ (6 * (n - (i - p))) mod 64) else s.[i]) r HQ.
  - intros j [[s1 p1] c1] (k & Hk & -> & -> & -> & Hs1 & Hg). destruct (Z.gtb_spec (6 * (n - k)) 0).
    + rewrite arr_set_lt by lia. cbn [mbind option_bind]. eexists; split; [done|].
      exists (Z.to_nat (n - (k + 1))). split; [lia|]. exists (k + 1).
      ands; [lia|lia|done|lia|lia|by rewrite alen_insert|]. intros i. destruct (decide (0 ≤ i)) as [Hi|Hi].
      2:{ rewrite decide_False, !arr_get_None by (rewrite ?alen_insert; lia). done. }
      rewrite arr_get_insert by lia. destruct (decide (i = p + k + 1)) as [->|Hne].
      * rewrite (decide_True (P := p < p + k + 1 ≤ p + (k + 1))) by lia. rewrite cont_value by lia.
        do 5 f_equal. lia.
      * rewrite Hg. repeat case_decide; done || lia.
    + eexists; split; [done|]. assert (k = n) as -> by lia. done.
  - exists 0. ands; [lia|lia|f_equal; lia|lia|lia|done|]. intros i. by rewrite decide_False by lia.
  - lia.
  - destruct r as [s' q], HQ as [H1 H2]. cbn [mbind option_bind]. by exists s'.
Qed.

(** [bs] has been stored at [p] in a buffer that was [s]. *)
Definition stored (s : list Z) (p : Z) (bs : list Z) (s' : list Z) : Prop :=
  alen s' = alen s ∧ ∀ i, s'.[i] = if decide (p ≤ i < p + alen bs) then bs.[i - p] else s.[i].

Lemma put_char_ok l s p n b0 : 0 ≤ n → 0 ≤ p → p + n < alen s → 0 ≤ l →
  ∃ s', (s ← s.[p <- b0]; put_continuation l s p (6 * n)) = Some s' ∧
    stored s p ([b0] ++ ((λ j, 0x80 + l / 2 ^ (6 * (n - 1 - j)) mod 64) <$> seqZ 0 n)) s'.
Proof.
  intros Hn Hp Hs Hl. rewrite arr_set_lt by lia. cbn [mbind option_bind].
  destruct (put_continuation_ok l (<[Z.to_nat p := b0]> s) p n) as (s' & -> & HL & Hg); try done; [by rewrite alen_insert|].
  exists s'. split; [done|]. rewrite alen_insert in HL. split; [done|]. intros i.
  assert (Ha : alen ([b0] ++ ((λ j, 0x80 + l / 2 ^ (6 * (n - 1 - j)) mod 64) <$> seqZ 0 n)) = n + 1)
    by (rewrite (alen_app [b0]), alen_fmap_seqZ by done; change (alen [b0]) with 1; lia).
  rewrite Ha, Hg. destruct (decide (0 ≤ i)) as [Hi|Hi].
  2:{ rewrite !decide_False, !arr_get_None by (rewrite ?alen_insert; lia). done. }
  rewrite arr_get_insert by lia. destruct (decide (i = p)) as [->|Hne].
  - rewrite !decide_False, decide_True, Z.sub_diag by lia. done.
  - destruct (decide (p < i ≤ p + n)) as [Hin|Hout].
    + rewrite decide_True by lia. rewrite (arr_get_app [b0]), decide_False by (change (alen [b0]) with 1; lia).
      change (alen [b0]) with 1. rewrite arr_get_fmap_seqZ by lia. do 5 f_equal. lia.
    + by rewrite decide_False by lia.
Qed.

Lemma enc_skip t ts l s p maxlen nc : lmask t < l → maxlen ≠ 0 →
  utf32_scan (t :: ts) l s p maxlen nc = utf32_scan ts l s p (maxlen - 1) (nc + 1).
Proof.
  intros Hl Hm. cbn [utf32_scan]. rewrite (proj2 (ctrue_true maxlen)), (proj2 (Z.leb_gt _ _)) by done. done.
Qed.

Lemma enc_match n b0 t ts l s p maxlen nc : 0 ≤ l ≤ lmask t → maxlen ≠ 0 → shift t = 6 * n → 0 ≤ n → 0 ≤ p → p + n < alen s →
  u8 (Z.lor (cval t) (Z.shiftr l (shift t))) = b0 →
  ∃ s', utf32_scan (t :: ts) l s p maxlen nc = Some (s', nc + 1) ∧
    stored s p ([b0] ++ ((λ j, 0x80 + l / 2 ^ (6 * (n - 1 - j)) mod 64) <$> seqZ 0 n)) s'.
Proof.
  intros Hl Hm Hn ? ? ? Hb. cbn [utf32_scan]. rewrite (proj2 (ctrue_true maxlen)), (proj2 (Z.leb_le _ _)) by (done || lia).
  cbn [negb]. rewrite Hb, Hn. destruct (put_char_ok l s p n b0) as (s' & E & Hs); [lia..|]. exists s'. split; [|done].
  destruct (s.[p <- b0]); [|done]. cbn [mbind option_bind] in *. rewrite E. done.
Qed.

(** The first byte of a sequence: the tag and the high bits. *)
Lemma lead_value c k cv l sh : cv = c * 2 ^ k → 0 ≤ k → 0 ≤ sh → 0 ≤ l / 2 ^ sh < 2 ^ k → cv + 2 ^ k ≤ 256 → 0 ≤ c →
  u8 (Z.lor cv (Z.shiftr l sh)) = cv + l / 2 ^ sh.
Proof.
  intros -> Hk Hsh Hl Hc Hc0. rewrite <- (Z.shiftl_mul_pow2 c), Z.shiftr_div_pow2, lor_low by lia.
  rewrite Z.shiftl_mul_pow2 by lia. apply uwrap_small. unfold urange. lia.
Qed.

Lemma scalar_accepted u : scalar u → (u >? UNICODE_MAX) || (Z.land u SURROGATE_MASK =? SURROGATE_PAIR) = false.
Proof.
  intros [H1 H2]. rewrite surrogate_test by (unfold urange; lia). unfold UNICODE_MAX.
  destruct (Z.gtb_spec u 0x10ffff), (in_range_spec 0xd800 0xe000 u); done || lia.
Qed.

Lemma encode_ok u s p maxlen : scalar u → 0 ≤ p → alen (utf8_enc u) ≤ maxlen → p + alen (utf8_enc u) ≤ alen s →
  ∃ s', utf32_to_utf8 u (Some s) p maxlen = Some (Some s', alen (utf8_enc u)) ∧ stored s p (utf8_enc u) s'.
Proof.
  intros Hu Hp Hm Hs. unfold utf32_to_utf8. rewrite (scalar_accepted u Hu). destruct Hu as [Hu _].
  unfold utf8_table_entries. revert Hm Hs. unfold utf8_enc.
  destruct (Z.ltb_spec u 0x80); [|destruct (Z.ltb_spec u 0x800); [|destruct (Z.ltb_spec u 0x10000)]];
    (match goal with |- context [alen ?l] => change (alen l) with (Z.of_nat (length l)) end; cbn [length]; intros Hm Hs);
    repeat (rewrite enc_skip by (cbn [lmask]; lia)).
  - match goal with |- context [utf32_scan (?t :: ?ts) _ _ _ ?ml ?nc] =>
      destruct (enc_match 0 u t ts u s p ml nc) as (s' & -> & HR) end; try (cbn; lia).
    { cbn [cval shift]. rewrite (lead_value 0 7) by (cbn; Z.to_euclidean_division_equations; lia). cbn. by rewrite Z.div_1_r. }
    by exists s'.
  - match goal with |- context [utf32_scan (?t :: ?ts) _ _ _ ?ml ?nc] =>
      destruct (enc_match 1 (0xc0 + u / 64) t ts u s p ml nc) as (s' & -> & HR) end; try (cbn; lia).
    { cbn [cval shift]. rewrite (lead_value 6 5) by (cbn; Z.to_euclidean_division_equations; lia). done. }
    exists s'. split; [done|]. replace (u mod 64) with (u / 2 ^ 0 mod 64) by (by rewrite Z.div_1_r). exact HR.
  - match goal with |- context [utf32_scan (?t :: ?ts) _ _ _ ?ml ?nc] =>
      destruct (enc_match 2 (0xe0 + u / 4096) t ts u s p ml nc) as (s' & -> & HR) end; try (cbn; lia).
    { cbn [cval shift]. rewrite (lead_value 14 4) by (cbn; Z.to_euclidean_division_equations; lia). done. }
    exists s'. split; [done|]. replace (u mod 64) with (u / 2 ^ 0 mod 64) by (by rewrite Z.div_1_r). exact HR.
  - match goal with |- context [utf32_scan (?t :: ?ts) _ _ _ ?ml ?nc] =>
      destruct (enc_match 3 (0xf0 + u / 262144) t ts u s p ml nc) as (s' & -> & HR) end; try (cbn; lia).
    { cbn [cval shift]. rewrite (lead_value 30 3) by (cbn; Z.to_euclidean_division_equations; lia). done. }
    exists s'. split; [done|]. replace (u mod 64) with (u / 2 ^ 0 mod 64) by (by rewrite Z.div_1_r). exact HR.
Qed.

(** Too little room for the character: nothing is stored. *)
Lemma encode_short u s p maxlen : scalar u → 0 ≤ maxlen < alen (utf8_enc u) →
  utf32_to_utf8 u (Some s) p maxlen = Some (Some s, -1).
Proof.
  intros Hu. unfold utf32_to_utf8. rewrite (scalar_accepted u Hu). destruct Hu as [Hu _].
  unfold utf8_table_entries, utf8_enc.
  assert (Hz : ∀ t ts nc, utf32_scan (t :: ts) u s p 0 nc = Some (s, -1)) by done.
  destruct (Z.ltb_spec u 0x80); [|destruct (Z.ltb_spec u 0x800); [|destruct (Z.ltb_spec u 0x10000)]];
    (match goal with |- context [alen ?l] => change (alen l) with (Z.of_nat (length l)) end; cbn [length]; intros Hm).
  all: repeat (match goal with |- context [utf32_scan (?t :: ?ts) _ _ _ ?ml ?nc] =>
    destruct (decide (ml = 0)) as [E0|]; [rewrite E0, Hz; done|rewrite enc_skip by (cbn [lmask]; lia)] end); lia.
Qed.

Lemma encode_reject u s p maxlen : urange 32 u → ¬ scalar u → utf32_to_utf8 u (Some s) p maxlen = Some (Some s, -1).
Proof.
  intros Hu Hn. unfold utf32_to_utf8. rewrite surrogate_test by done. unfold UNICODE_MAX, scalar, urange in *.
  destruct (Z.gtb_spec u 0x10ffff); [done|]. destruct (in_range_spec 0xd800 0xe000 u); [done|]. lia.
Qed.

Lemma utf8_enc_bytes u : scalar u → Forall byte (utf8_enc u).
Proof.
  intros [Hu _]. unfold utf8_enc. repeat case_match; repeat (constructor; [unfold urange; Z.to_euclidean_division_equations; lia|]); constructor.
Qed.

Lemma utf8_enc_length u : 1 ≤ alen (utf8_enc u) ≤ 4.
Proof. unfold utf8_enc. repeat case_match; done. Qed.

Lemma stored_at s p bs s' : 0 ≤ p → stored s p bs s' → bytes_at s' p bs.
Proof.
  intros Hp [_ Hg] i b Hb. pose proof (arr_get_Some_lt _ _ _ Hb). rewrite Hg, decide_True by lia.
  by replace (p + i - p) with i by lia.
Qed.

Lemma stored_app s p A s1 B s2 : stored s p A s1 → stored s1 (p + alen A) B s2 → stored s p (A ++ B) s2.
Proof.
  intros [L1 G1] [L2 G2]. split; [lia|]. intros i. rewrite G2, G1, alen_app.
  pose proof (alen_nonneg A). pose proof (alen_nonneg B).
  destruct (decide (p ≤ i < p + (alen A + alen B))) as [Hin|Hout].
  - rewrite arr_get_app by lia. repeat case_decide; try lia; [f_equal; lia|done].
  - rewrite !decide_False by lia. done.
Qed.

Lemma stored_nil s p : stored s p [] s.
Proof. split; [done|]. intros i. by rewrite decide_False by (change (alen []) with 0; lia). Qed.

Lemma bytes_at_app s p A B : bytes_at s p (A ++ B) ↔ bytes_at s p A ∧ bytes_at s (p + alen A) B.
Proof.
  pose proof (alen_nonneg A). split.
  - intros HAB. split; intros i b Hb; pose proof (arr_get_Some_lt _ _ _ Hb).
    + apply HAB. by rewrite arr_get_app, decide_True by lia.
    + rewrite <- Z.add_assoc. apply HAB. rewrite arr_get_app, decide_False by lia.
      by replace (alen A + i - alen A) with i by lia.
  - intros [HA HB] i b Hb. pose proof (arr_get_Some_lt _ _ _ Hb). rewrite arr_get_app in Hb by lia.
    case_decide; [by apply HA|]. replace (p + i) with (p + alen A + (i - alen A)) by lia. by apply HB.
Qed.

Lemma bytes_at_self (A : list Z) : bytes_at A 0 A.
Proof. by intros i b Hb. Qed.

(** No encoding is a prefix of another. *)
Lemma utf8_prefix_free u v A B : scalar u → scalar v → Forall byte A → utf8_enc u ++ A = utf8_enc v ++ B →
  u = v ∧ A = B.
Proof.
  intros Hu Hv HA E. pose proof (alen_nonneg A). pose proof (alen_nonneg B).
  assert (Hby : Forall byte (utf8_enc u ++ A)) by (apply Forall_app; split; [by apply utf8_enc_bytes|done]).
  assert (D1 : utf8_to_utf32 (utf8_enc u ++ A) 0 (alen (utf8_enc u ++ A)) = Some (alen (utf8_enc u), Some u)).
  { apply decode_enc; [done|done| |rewrite alen_app; lia]. apply (bytes_at_app _ 0 _ A), bytes_at_self. }
  assert (D2 : utf8_to_utf32 (utf8_enc u ++ A) 0 (alen (utf8_enc u ++ A)) = Some (alen (utf8_enc v), Some v)).
  { rewrite E in Hby |- *. apply decode_enc; [done|done| |rewrite alen_app; lia]. apply (bytes_at_app _ 0 _ B), bytes_at_self. }
  assert (u = v) as -> by congruence. split; [done|]. by apply app_inv_head in E.
Qed.

(** ** Strings *)

Definition utf8_string (us : list Z) : list Z := concat (utf8_enc <$> us).
Definition utf16_string (us : list Z) : list Z := concat (utf16_enc <$> us).

Lemma utf8_string_app us vs : utf8_string (us ++ vs) = utf8_string us ++ utf8_string vs.
Proof. unfold utf8_string. by rewrite fmap_app, concat_app. Qed.
Lemma utf16_string_app us vs : utf16_string (us ++ vs) = utf16_string us ++ utf16_string vs.
Proof. unfold utf16_string. by rewrite fmap_app, concat_app. Qed.
Lemma utf8_string_one u : utf8_string [u] = utf8_enc u.
Proof. apply app_nil_r. Qed.
Lemma utf16_string_one u : utf16_string [u] = utf16_enc u.
Proof. apply app_nil_r. Qed.

(** The bytes of the string: up to [len] bytes, up to the first null byte. *)
Fixpoint until_null (s : list Z) : list Z :=
  match s with [] => [] | b :: s => if b =? 0 then [] else b :: until_null s end.
Definition text (s : list Z) (len : Z) : list Z := until_null (take (Z.to_nat len) s).

Lemma text_drop s p len : 0 ≤ p → ∀ b, s.[p] = Some b →
  text (drop (Z.to_nat p) s) len = if (b =? 0) || (len <=? 0) then [] else b :: text (drop (Z.to_nat (p + 1)) s) (len - 1).
Proof.
  intros Hp b Hb. unfold arr_get in Hb. destruct (Z.leb_spec 0 p); [|lia]. rewrite (drop_S s b) by done. unfold text.
  destruct (Z.leb_spec len 0) as [Hl|Hl].
  - rewrite orb_true_r. by replace (Z.to_nat len) with 0%nat by lia.
  - rewrite orb_false_r. replace (Z.to_nat len) with (S (Z.to_nat (len - 1))) by lia.
    replace (Z.to_nat (p + 1)) with (S (Z.to_nat p)) by lia. cbn [take until_null]. done.
Qed.

Lemma text_bytes s p len bs : 0 ≤ p → bytes_at s p bs → Forall (λ b, b ≠ 0) bs → alen bs ≤ len →
  text (drop (Z.to_nat p) s) len = bs ++ text (drop (Z.to_nat (p + alen bs)) s) (len - alen bs).
Proof.
  revert p len. induction bs as [|b bs IH]; intros p len Hp Hb Hnz Hlen.
  { change (alen []) with 0. by rewrite Z.add_0_r, Z.sub_0_r. }
  apply list.Forall_cons in Hnz as [Hnz0 Hnz]. pose proof (Hb 0 b eq_refl) as H0. rewrite Z.add_0_r in H0.
  change (b :: bs) with ([b] ++ bs) in Hb, Hlen |- *. rewrite alen_app in Hlen |- *. change (alen [b]) with 1 in *.
  apply bytes_at_app in Hb as [_ Hb]. pose proof (alen_nonneg bs).
  rewrite (text_drop s p len Hp b H0). rewrite (proj2 (Z.eqb_neq b 0) Hnz0), (proj2 (Z.leb_gt len 0)) by lia. cbn [orb app].
  rewrite IH by (done || lia). replace (p + (1 + alen bs)) with (p + 1 + alen bs) by lia.
  by replace (len - (1 + alen bs)) with (len - 1 - alen bs) by lia.
Qed.

Lemma utf8_enc_high u b : utf8_enc u !! 0%nat = Some b → 0x80 ≤ b → scalar u → 0x80 ≤ u ∧ Forall (λ b, b ≠ 0) (utf8_enc u).
Proof.
  intros Hb Hhi [Hu _]. unfold utf8_enc in *. destruct (Z.ltb_spec u 0x80); [simplify_eq/=; lia|]. split; [done|].
  repeat case_match; repeat (constructor; [Z.to_euclidean_division_equations; lia|]); constructor.
Qed.

Lemma utf8_string_bytes us : Forall scalar us → Forall byte (utf8_string us).
Proof.
  induction 1 as [|u us Hu Hus IH]; [constructor|]. apply Forall_app. split; [by apply utf8_enc_bytes|done].
Qed.

(** A string that is an encoding decodes character by character. *)
Lemma utf8_string_split us vs A : Forall scalar us → Forall scalar vs → Forall byte A →
  utf8_string us ++ A = utf8_string vs → ∃ ws, vs = us ++ ws ∧ A = utf8_string ws.
Proof.
  intros Hus. revert vs. induction Hus as [|u us Hu Hus IH]; intros vs Hvs HA E; [by exists vs|].
  change (u :: us) with ([u] ++ us) in E. rewrite utf8_string_app, utf8_string_one, <- app_assoc in E.
  pose proof (utf8_enc_length u) as Hl. destruct vs as [|v vs].
  { apply (f_equal alen) in E. rewrite alen_app in E. change (alen (utf8_string [])) with 0 in E.
    pose proof (alen_nonneg (utf8_string us ++ A)). lia. }
  apply list.Forall_cons in Hvs as [Hv Hvs].
  change (v :: vs) with ([v] ++ vs) in E. rewrite utf8_string_app, utf8_string_one in E.
  apply utf8_prefix_free in E as [-> E]; [|done|done|].
  - destruct (IH vs Hvs HA E) as (ws & -> & ->). by exists ws.
  - apply Forall_app. split; [by apply utf8_string_bytes|done].
Qed.

Lemma utf16_pair u : scalar u → PLANE_SIZE ≤ u →
  [u16 (Z.lor SURROGATE_PAIR (Z.land (Z.shiftr (u - PLANE_SIZE) 10) SURROGATE_BITS));
   u16 (Z.lor (Z.lor SURROGATE_PAIR SURROGATE_LOW) (Z.land (u - PLANE_SIZE) SURROGATE_BITS))] = utf16_enc u.
Proof.
  unfold PLANE_SIZE, SURROGATE_PAIR, SURROGATE_LOW, SURROGATE_BITS. intros [Hu _] Hp. unfold utf16_enc.
  rewrite (proj2 (Z.ltb_ge _ _)) by lia. rewrite !(land_mask _ 0x3ff 10), Z.shiftr_div_pow2 by (done || lia).
  change (2 ^ 10) with 1024. rewrite (Z.mod_small (_ / 1024)) by (Z.to_euclidean_division_equations; lia).
  pose proof (Z.mod_pos_bound (u - 65536) 1024 ltac:(lia)).
  assert (0 ≤ (u - 65536) / 1024 < 1024) by (Z.to_euclidean_division_equations; lia).
  change (Z.lor 0xd800 0x400) with (Z.shiftl 55 10). change 0xd800 with (Z.shiftl 54 10).
  rewrite !lor_low by lia. rewrite !uwrap_small by (unfold urange; lia). done.
Qed.

Lemma utf16_enc_small u : u < PLANE_SIZE → utf16_enc u = [u].
Proof. intros Hu. unfold utf16_enc. by rewrite (proj2 (Z.ltb_lt _ _)). Qed.

Lemma store_one s p b : 0 ≤ p < alen s → ∃ s', s.[p <- b] = Some s' ∧ stored s p [b] s'.
Proof.
  intros Hp. rewrite arr_set_lt by done. eexists; split; [done|]. split; [by rewrite alen_insert|]. intros i.
  change (alen [b]) with 1. destruct (decide (0 ≤ i)).
  - rewrite arr_get_insert by lia. destruct (decide (i = p)) as [->|].
    + by rewrite decide_True, Z.sub_diag by lia.
    + by rewrite decide_False by lia.
  - rewrite decide_False, !arr_get_None by (rewrite ?alen_insert; lia). done.
Qed.

(** What the UTF-16 side of the loop does with a decoded character. *)
Lemma put_utf16 u pw op : scalar u → 0 ≤ op → op + alen (utf16_enc u) ≤ alen pw →
  ∃ pw', utf16_put pw op u = Some (pw', op + alen (utf16_enc u)) ∧
    stored pw op (utf16_enc u) pw'.
Proof.
  intros Hu Hop Hroom. unfold utf16_put. destruct (Z.geb_spec u PLANE_SIZE) as [Hge|Hlt].
  - rewrite <- utf16_pair in * by done. cbv zeta. change (alen [_; _]) with 2 in *.
    match goal with |- context [pw.[op <- ?x]] => destruct (store_one pw op x) as (pw1 & -> & S1); [lia|] end.
    cbn [mbind option_bind]. pose proof S1 as [L1 _].
    match goal with |- context [pw1.[op + 1 <- ?x]] => destruct (store_one pw1 (op + 1) x) as (pw2 & -> & S2); [lia|] end.
    cbn [mbind option_bind]. exists pw2. split; [done|]. by apply (stored_app _ _ [_] pw1 [_]).
  - rewrite utf16_enc_small in * by done. change (alen [u]) with 1 in *.
    rewrite uwrap_small by (destruct Hu as [? _]; unfold urange, PLANE_SIZE in *; lia).
    destruct (store_one pw op u) as (pw1 & -> & S1); [lia|]. cbn [mbind option_bind]. by exists pw1.
Qed.

Lemma utf16_enc_shorter u : 0 ≤ u → 1 ≤ alen (utf16_enc u) ≤ alen (utf8_enc u).
Proof.
  intros Hu. unfold utf16_enc, utf8_enc. destruct (Z.ltb_spec u 0x10000).
  - repeat case_match; done.
  - repeat case_match; try lia; done.
Qed.

Lemma high_byte b : byte b → ctrue (Z.land b 0x80) = (0x80 <=? b).
Proof.
  intros Hb. destruct (lead_byte b Hb) as [L1 _]. unfold ctrue. rewrite L1. unfold urange in Hb.
  destruct (in_range_spec 0 0x80 b), (Z.leb_spec 0x80 b); done || lia.
Qed.

Lemma text_prefix s len : ∃ r, take (Z.to_nat len) s = text s len ++ r.
Proof.
  unfold text. induction (take (Z.to_nat len) s) as [|b l [r IH]]; [by exists []|]. simpl.
  destruct (b =? 0); [by exists (b :: l)|]. exists r. by rewrite IH at 1.
Qed.

Lemma text_at s p len : 0 ≤ p → 0 ≤ len →
  bytes_at s p (text (drop (Z.to_nat p) s) len) ∧ alen (text (drop (Z.to_nat p) s) len) ≤ len ∧
  ∀ P, Forall P s → Forall P (text (drop (Z.to_nat p) s) len).
Proof.
  intros Hp Hlen. destruct (text_prefix (drop (Z.to_nat p) s) len) as [r Hr].
  set (t := text _ _) in *. clearbody t. ands.
  - intros i b Hb. pose proof (arr_get_Some_lt _ _ _ Hb).
    assert (Ht : (take (Z.to_nat len) (drop (Z.to_nat p) s)).[i] = Some b) by (by rewrite Hr, arr_get_app, decide_True by lia).
    assert (Hi : i < len).
    { apply arr_get_Some_lt in Ht. unfold alen in Ht. rewrite length_take in Ht. lia. }
    by rewrite arr_get_take, arr_get_drop in Ht by lia.
  - apply (f_equal length) in Hr. rewrite length_take, length_app in Hr. unfold alen. lia.
  - intros P HP. assert (HF : Forall P (t ++ r)) by (rewrite <- Hr; by apply Forall_take, Forall_drop).
    by apply Forall_app in HF as [? _].
Qed.

(** The outcome of converting the string: the characters it encodes, or an error when
    it encodes none. *)
Definition utf16_outcome (t pwcs : list Z) (r : list Z * Z) : Prop :=
  (∃ us, Forall scalar us ∧ t = utf8_string us ∧ stored pwcs 0 (utf16_string us) r.1 ∧ r.2 = alen (utf16_string us)) ∨
  (r.2 = - EINVAL ∧ ¬ ∃ us, Forall scalar us ∧ t = utf8_string us).

Lemma utf8s_to_utf16s_ok s len pwcs : Forall byte s → 0 ≤ len < alen s → len ≤ alen pwcs →
  ∃ r, utf8s_to_utf16s s len pwcs = Some r ∧ utf16_outcome (text s len) pwcs r.
Proof.
  intros Hby Hlen Hroom. unfold utf8s_to_utf16s.
  apply (loop_rule_idx (λ n '(p, len1, pw, op), ∃ us, Forall scalar us ∧ p = alen (utf8_string us) ∧ len1 = len - p ∧
      op = alen (utf16_string us) ∧ op ≤ p ≤ len ∧ stored pwcs 0 (utf16_string us) pw ∧
      text s len = utf8_string us ++ text (drop (Z.to_nat p) s) len1 ∧ n = Z.to_nat len1) _ _ (Z.to_nat len)).
  2:{ exists []. change (alen _) with 0. ands; try done; try lia. apply stored_nil. }
  2:{ unfold alen in *. lia. }
  intros n [[[p len1] pw] op] (us & Hus & Hp & -> & Hop & Hle & Hst & Htx & ->).
  pose proof (alen_nonneg (utf8_string us)). pose proof (alen_nonneg (utf16_string us)). pose proof Hst as [Lpw _].
  destruct (arr_get_lt s p) as [b Hb]; [lia|]. rewrite Hb. cbn [mbind option_bind].
  pose proof (Forall_arr_get _ _ _ _ Hby Hb) as Hbb. pose proof (text_drop s p (len - p) ltac:(lia) b Hb) as Htd.
  (* one more character [u] *)
  assert (Hone : ∀ u pw' op', scalar u → bytes_at s p (utf8_enc u) → Forall (λ b, b ≠ 0) (utf8_enc u) →
    alen (utf8_enc u) ≤ len - p → stored pw op (utf16_enc u) pw' → op' = op + alen (utf16_enc u) →
    ∃ n', (n' < Z.to_nat (len - p))%nat ∧ ∃ us, Forall scalar us ∧ p + alen (utf8_enc u) = alen (utf8_string us) ∧
      len - p - alen (utf8_enc u) = len - (p + alen (utf8_enc u)) ∧
      op' = alen (utf16_string us) ∧ op' ≤ p + alen (utf8_enc u) ≤ len ∧ stored pwcs 0 (utf16_string us) pw' ∧
      text s len = utf8_string us ++ text (drop (Z.to_nat (p + alen (utf8_enc u))) s) (len - p - alen (utf8_enc u)) ∧
      n' = Z.to_nat (len - p - alen (utf8_enc u))).
  { intros u pw' op' Hu Hat Hnz Hl Hst' ->. pose proof (utf8_enc_length u).
    assert (0 ≤ u) by apply Hu. pose proof (utf16_enc_shorter u).
    eexists; split; cycle 1.
    - exists (us ++ [u]). rewrite utf8_string_app, utf16_string_app, utf8_string_one, utf16_string_one, !alen_app.
      ands; [by apply Forall_app_2; [|constructor]|lia|lia|lia|lia|lia| | |done].
      + apply (stored_app _ _ _ pw); [done|]. by rewrite Hop in Hst'.
      + rewrite Htx, (text_bytes s p (len - p) (utf8_enc u)) by (done || lia). by rewrite app_assoc.
    - lia. }
  destruct (ctrue b && (len - p >? 0)) eqn:Ec.
  - apply andb_true_iff in Ec as [Hb0%ctrue_true Hl0%Z.gtb_lt]. rewrite high_byte by done.
    destruct (Z.leb_spec 0x80 b) as [Hhi|Hlo].
    + destruct (decode_sound s p (len - p)) as [(u & Hu & Hat & Hl & ->)|Efail]; [done|lia|lia|lia| |].
      * cbn [mbind option_bind]. pose proof (utf8_enc_length u). rewrite (proj2 (Z.ltb_ge _ _)) by lia.
        cbn [mbind option_bind]. assert (0 ≤ u) by apply Hu. pose proof (utf16_enc_shorter u).
        destruct (put_utf16 u pw op) as (pw' & -> & Hst'); [done|lia|lia|]. cbn [mbind option_bind].
        eexists; split; [done|]. apply (Hone u); try done.
        destruct (utf8_enc u) as [|b0 bs] eqn:Eu; [unfold alen in *; simpl in *; lia|]. rewrite <- Eu.
        assert (b0 = b) as -> by (pose proof (Hat 0 b0 eq_refl) as E0; rewrite Z.add_0_r in E0; congruence).
        apply (utf8_enc_high u b); [by rewrite Eu|done|done].
      * rewrite Efail. cbn [mbind option_bind]. eexists; split; [done|]. right. split; [done|].
        intros (vs & Hvs & Hv). rewrite Htx in Hv.
        destruct (text_at s p (len - p)) as (Hat & Hal & HF); [lia..|].
        destruct (utf8_string_split us vs _ Hus Hvs (HF _ Hby) Hv) as (ws & -> & Hws). rewrite Hws in Hat, Hal.
        rewrite Hws in Htd. destruct ws as [|w ws].
        { rewrite (proj2 (Z.eqb_neq b 0)), (proj2 (Z.leb_gt _ _)) in Htd by (done || lia). done. }
        apply Forall_app in Hvs as [_ [Hw _]%list.Forall_cons].
        change (w :: ws) with ([w] ++ ws) in Hat, Hal. rewrite utf8_string_app, utf8_string_one in Hat, Hal.
        apply bytes_at_app in Hat as [Hat _]. rewrite alen_app in Hal. pose proof (alen_nonneg (utf8_string ws)).
        rewrite (decode_enc s p (len - p) w) in Efail by (done || lia). simplify_eq.
    + destruct (store_one pw op b) as (pw' & -> & Hst'); [lia|]. cbn [mbind option_bind]. eexists; split; [done|].
      unfold urange in Hbb.
      assert (Eb : utf8_enc b = [b]) by (unfold utf8_enc; by rewrite (proj2 (Z.ltb_lt _ _)) by lia).
      specialize (Hone b pw' (op + 1)). rewrite Eb in Hone. change (alen [b]) with 1 in Hone.
      rewrite utf16_enc_small in Hone by (unfold PLANE_SIZE; lia). change (alen [b]) with 1 in Hone.
      apply Hone; [unfold scalar; lia|by apply bytes_at_cons, bytes_at_nil|by constructor; [|constructor]|lia|done|done].
  - eexists; split; [done|]. left. exists us. ands; [done| |done|done]. rewrite Htx, Htd.
    apply andb_false_iff in Ec as [->%ctrue_false|Hl]; [by rewrite app_nil_r|].
    replace (len - p <=? 0) with true; [by rewrite orb_true_r, app_nil_r|].
    destruct (Z.gtb_spec (len - p) 0), (Z.leb_spec (len - p) 0); done || lia.
Qed.

(** ** From UTF-16 to UTF-8 *)

(** The characters of a sequence of 16-bit units up to a null unit; unpaired
    surrogates are left out. *)
Fixpoint utf16_dec (l : list Z) : list Z :=
  match l with
  | [] => []
  | u :: l1 =>
      if u =? 0 then []
      else if in_range 0xd800 0xe000 u then
        if 0xdc00 <=? u then utf16_dec l1
        else match l1 with
             | [] => []
             | v :: l2 => if in_range 0xdc00 0xe000 v then (0x10000 + (u - 0xd800) * 1024 + (v - 0xdc00)) :: utf16_dec l2
                          else utf16_dec l1
             end
      else u :: utf16_dec l1
  end.

Lemma surrogate_low u : urange 16 u →
  Z.land u SURROGATE_BITS = u mod 1024 ∧
  (in_range 0xd800 0xe000 u = true → ctrue (Z.land u SURROGATE_LOW) = (0xdc00 <=? u)).
Proof.
  intros Hu. split; [by apply (land_mask u 0x3ff 10)|]. intros Hr.
  assert (H : forallb (λ b, Bool.eqb (ctrue (Z.land b SURROGATE_LOW)) (0xdc00 <=? b)) (seqZ 0xd800 0x800) = true)
    by (vm_compute; reflexivity).
  rewrite forallb_forall in H. apply Bool.eqb_prop, H, list_elem_of_In, elem_of_seqZ.
  destruct (in_range_spec 0xd800 0xe000 u); [lia|done].
Qed.

Lemma utf16_pair_value u v : 0xd800 ≤ u < 0xdc00 → 0xdc00 ≤ v < 0xe000 →
  u32 (PLANE_SIZE + ushl 32 (u mod 1024) 10 + v mod 1024) = 0x10000 + (u - 0xd800) * 1024 + (v - 0xdc00).
Proof.
  intros Hu Hv. unfold PLANE_SIZE, ushl. rewrite Z.shiftl_mul_pow2 by lia. change (2 ^ 10) with 1024.
  replace (u mod 1024) with (u - 0xd800) by (Z.to_euclidean_division_equations; lia).
  replace (v mod 1024) with (v - 0xdc00) by (Z.to_euclidean_division_equations; lia).
  rewrite (uwrap_small 32 ((u - 0xd800) * 1024)), uwrap_small by (unfold urange; lia). done.
Qed.

Lemma utf16_dec_enc us : Forall scalar us → Forall (λ u, u ≠ 0) us → utf16_dec (utf16_string us) = us.
Proof.
  intros Hus. induction Hus as [|u us Hu Hus IH]; intros Hnz; [done|].
  apply list.Forall_cons in Hnz as [Hnz Hnzs]. change (u :: us) with ([u] ++ us). rewrite utf16_string_app, utf16_string_one.
  destruct Hu as [Hu1 Hu2]. unfold utf16_enc. destruct (Z.ltb_spec u 0x10000); cbn [app utf16_dec].
  - rewrite (proj2 (Z.eqb_neq u 0)), (in_range_false 0xd800 0xe000 u), IH by done. done.
  - pose proof (Z.mod_pos_bound (u - 65536) 1024 ltac:(lia)).
    assert (0 ≤ (u - 65536) / 1024 < 1024) by (Z.to_euclidean_division_equations; lia).
    rewrite (proj2 (Z.eqb_neq _ 0)), (in_range_true 0xd800 0xe000), (proj2 (Z.leb_gt _ _)), (in_range_true 0xdc00 0xe000), IH
      by (done || lia). f_equal. Z.to_euclidean_division_equations; lia.
Qed.

Lemma utf16_dec_scalar l : Forall (urange 16) l → Forall scalar (utf16_dec l).
Proof.
  induction l as [l IH] using (induction_ltof1 _ length). destruct l as [|u l]; [constructor|].
  intros [Hu Hl]%list.Forall_cons. cbn [utf16_dec]. unfold urange in Hu.
  assert (IHl : Forall scalar (utf16_dec l)) by (apply IH; [unfold ltof; simpl; lia|done]).
  destruct (Z.eqb_spec u 0); [constructor|]. destruct (in_range_spec 0xd800 0xe000 u).
  - destruct (Z.leb_spec 0xdc00 u); [done|]. destruct l as [|v l]; [constructor|].
    apply list.Forall_cons in Hl as [_ Hl]. destruct (in_range_spec 0xdc00 0xe000 v); [|done].
    constructor; [unfold scalar; lia|]. apply IH; [unfold ltof; simpl; lia|done].
  - constructor; [unfold scalar; lia|done].
Qed.

Lemma utf8_string_nil us : alen (utf8_string us) ≤ 0 → us = [].
Proof.
  destruct us as [|u us]; [done|]. change (u :: us) with ([u] ++ us). rewrite utf8_string_app, utf8_string_one, alen_app.
  pose proof (utf8_enc_length u). pose proof (alen_nonneg (utf8_string us)). lia.
Qed.

(** The units the conversion reads. *)
Definition units (pwcs : list Z) (len : Z) (endian : utf16_endian) : list Z :=
  (λ c, get_utf16 c endian) <$> take (Z.to_nat len) pwcs.

Lemma units_get pwcs len endian p : 0 ≤ p < len → len ≤ alen pwcs →
  ∃ c, pwcs.[p] = Some c ∧
    drop (Z.to_nat p) (units pwcs len endian) = get_utf16 c endian :: drop (Z.to_nat (p + 1)) (units pwcs len endian).
Proof.
  intros Hp Hl. destruct (arr_get_lt pwcs p) as [c Hc]; [lia|]. exists c. split; [done|].
  replace (Z.to_nat (p + 1)) with (S (Z.to_nat p)) by lia. apply drop_S. unfold units.
  unfold arr_get in Hc. destruct (Z.leb_spec 0 p); [|lia]. rewrite list_lookup_fmap, lookup_take_lt, Hc by lia. done.
Qed.

Lemma utf16s_to_utf8s_ok pwcs len endian s maxlen : 0 ≤ len ≤ alen pwcs →
  Forall (urange 16) (units pwcs len endian) →
  let out := utf8_string (utf16_dec (units pwcs len endian)) in
  alen out ≤ maxlen → maxlen ≤ alen s →
  ∃ r, utf16s_to_utf8s pwcs len endian s maxlen = Some r ∧ r.2 = alen out ∧ stored s 0 out r.1.
Proof.
  intros Hlen HU out Hm Hs. unfold utf16s_to_utf8s. set (U := units pwcs len endian) in *.
  assert (HLU : alen U = len) by (unfold U, units, alen in *; rewrite length_fmap, length_take; lia).
  apply (loop_rule_idx (λ n '(p, len1, s1, op, m1), ∃ us, utf16_dec U = us ++ utf16_dec (drop (Z.to_nat p) U) ∧
      0 ≤ p ≤ len ∧ len1 = len - p ∧ op = alen (utf8_string us) ∧ m1 = maxlen - op ∧
      stored s 0 (utf8_string us) s1 ∧ n = Z.to_nat len1) _ _ (Z.to_nat len)).
  2:{ exists []. change (alen (utf8_string [])) with 0. ands; try (done || lia). apply stored_nil. }
  2:{ lia. }
  intros n [[[[p len1] s1] op] m1] (us & Hdec & Hp & -> & Hop & -> & Hst & ->).
  pose proof (alen_nonneg (utf8_string us)) as Hop0. rewrite <- Hop in Hop0.
  assert (Hout : ∀ r, utf16_dec (drop (Z.to_nat p) U) = r → out = utf8_string us ++ utf8_string r).
  { intros r <-. unfold out. by rewrite Hdec, utf8_string_app. }
  (* leaving the loop when no character is left *)
  assert (Hend : utf16_dec (drop (Z.to_nat p) U) = [] → op = alen out ∧ stored s 0 out s1).
  { intros Hr. rewrite (Hout _ Hr), app_nil_r. done. }
  destruct ((len - p >? 0) && (maxlen - op >? 0)) eqn:Ec.
  2:{ eexists; split; [done|]. apply Hend. apply andb_false_iff in Ec as [Ec|Ec].
      - destruct (Z.gtb_spec (len - p) 0); [done|]. rewrite drop_ge; [done|]. unfold alen in *. lia.
      - destruct (Z.gtb_spec (maxlen - op) 0); [done|]. pose proof (Hout _ eq_refl) as Ho. rewrite Ho, alen_app in Hm.
        apply utf8_string_nil. lia. }
  apply andb_true_iff in Ec as [Hl%Z.gtb_lt Hm0%Z.gtb_lt].
  destruct (units_get pwcs len endian p) as (c & -> & Hd); [lia..|]. fold U in Hd. cbn [mbind option_bind].
  set (u := get_utf16 c endian) in *.
  assert (Hu : urange 16 u) by (pose proof (Forall_drop _ (Z.to_nat p) _ HU) as HF; rewrite Hd in HF; by apply list.Forall_cons in HF as [? _]).
  unfold ctrue at 1. rewrite Hd in Hdec, Hout, Hend. cbn [utf16_dec] in Hdec, Hout, Hend.
  destruct (Z.eqb_spec u 0) as [Hu0|Hu0]; cbn [negb].
  { eexists; split; [done|]. by apply Hend. }
  set (J := λ q len1 s2 op1 m1, ∃ n', (n' < Z.to_nat (len - p))%nat ∧ ∃ us, utf16_dec U = us ++ utf16_dec (drop (Z.to_nat q) U) ∧
      0 ≤ q ≤ len ∧ len1 = len - q ∧ op1 = alen (utf8_string us) ∧ m1 = maxlen - op1 ∧
      stored s 0 (utf8_string us) s2 ∧ n' = Z.to_nat len1).
  assert (Hskip : utf16_dec U = us ++ utf16_dec (drop (Z.to_nat (p + 1)) U) → J (p + 1) (len - p - 1) s1 op (maxlen - op)).
  { intros Hds. eexists; split; cycle 1; [exists us; ands; [done|lia|lia|lia|done|done|done|done]|lia]. }
  assert (Hroom : ∀ w q, utf16_dec U = (us ++ [w]) ++ utf16_dec (drop (Z.to_nat q) U) → op + alen (utf8_enc w) ≤ maxlen).
  { intros w q Hdw. unfold out in Hm. rewrite Hdw, !utf8_string_app, utf8_string_one, !alen_app in Hm.
    pose proof (alen_nonneg (utf8_string (utf16_dec (drop (Z.to_nat q) U)))). lia. }
  assert (Hnext : ∀ w q s2, p < q ≤ len → utf16_dec U = (us ++ [w]) ++ utf16_dec (drop (Z.to_nat q) U) →
    stored s1 op (utf8_enc w) s2 → J q (len - q) s2 (op + alen (utf8_enc w)) (maxlen - op - alen (utf8_enc w))).
  { intros w q s2 Hq Hdw Hs2. eexists; split; cycle 1; [|apply (Z2Nat.inj_lt (len - q) (len - p)); lia].
    exists (us ++ [w]). rewrite utf8_string_app, utf8_string_one, alen_app.
    ands; [done|lia|lia|done|lia|lia| |done]. apply (stored_app _ _ _ s1); [done|]. by rewrite Hop in Hs2. }
  pose proof Hst as [Ls _].
  (* a character [w] that takes the units up to [q] *)
  assert (Hput : ∀ w q, scalar w → p < q ≤ len → utf16_dec U = (us ++ [w]) ++ utf16_dec (drop (Z.to_nat q) U) →
    ∃ o, ('(s, size) ← utf32_to_utf8 w (Some s1) op (maxlen - op); s ← s;
          Some (inl (if size =? -1 then (q, len - q, s, op, maxlen - op) else (q, len - q, s, op + size, maxlen - op - size))))
         = Some (inl o : _ + (list Z * Z)) ∧ let '(q, len1, s2, op1, m1) := o in J q len1 s2 op1 m1).
  { intros w q Hw Hq Hdw. pose proof (Hroom w q Hdw). pose proof (utf8_enc_length w).
    destruct (encode_ok w s1 op (maxlen - op)) as (s2 & -> & Hs2); [done|lia|lia|lia|]. cbn [mbind option_bind].
    rewrite (proj2 (Z.eqb_neq _ _)) by lia. eexists; split; [done|]. by apply (Hnext w). }
  assert (Hus : scalar u ∨ in_range 0xd800 0xe000 u = true).
  { destruct (in_range_spec 0xd800 0xe000 u); [by right|left]. unfold scalar, urange in *. lia. }
  destruct (Z.gtb_spec u 0x7f) as [Hgt|Hle].
  - cbv zeta beta iota. assert (Hu32 : urange 32 u) by (unfold urange in *; lia).
    rewrite surrogate_test by done. destruct (surrogate_low u Hu) as [Hbits Hlow].
    destruct (in_range 0xd800 0xe000 u) eqn:Er.
    + rewrite Hlow by done. destruct (Z.leb_spec 0xdc00 u) as [Hlo|Hhi]; [eexists; split; [done|]; by apply Hskip|].
      destruct (Z.leb_spec (len - p - 1) 0) as [Hl1|Hl1].
      { eexists; split; [done|]. apply Hend. by rewrite drop_ge by (unfold alen in *; lia). }
      destruct (units_get pwcs len endian (p + 1)) as (c' & -> & Hd'); [lia..|]. fold U in Hd'. cbn [mbind option_bind].
      set (v := get_utf16 c' endian) in *. rewrite Hd' in Hdec.
      assert (Hv : urange 16 v) by (pose proof (Forall_drop _ (Z.to_nat (p + 1)) _ HU) as HF; rewrite Hd' in HF; by apply list.Forall_cons in HF as [? _]).
      rewrite surrogate_test by (unfold urange in *; lia). destruct (surrogate_low v Hv) as [Hvbits Hvlow].
      destruct (in_range_spec 0xdc00 0xe000 v) as [Hvr|Hvr].
      * rewrite (in_range_true 0xd800 0xe000 v), Hvlow, (proj2 (Z.leb_le _ _)) by (rewrite ?in_range_true; lia || done).
        cbn [negb orb]. rewrite Hbits, Hvbits.
        assert (0xd800 ≤ u < 0xdc00) by (destruct (in_range_spec 0xd800 0xe000 u); [lia|done]).
        rewrite utf16_pair_value by done.
        destruct (Hput (0x10000 + (u - 0xd800) * 1024 + (v - 0xdc00)) (p + 1 + 1)) as (o & E & HJ); [unfold scalar; lia|lia| |].
        { rewrite Hdec, <- app_assoc. done. }
        replace (len - p - 1 - 1) with (len - (p + 1 + 1)) by lia. rewrite E. eexists; split; [done|]. by destruct o as [[[[? ?] ?] ?] ?].
      * assert (Ev : negb (in_range 0xd800 0xe000 v) || negb (ctrue (Z.land v SURROGATE_LOW)) = true).
        { destruct (in_range 0xd800 0xe000 v) eqn:Erv; [|done]. rewrite Hvlow by done.
          destruct (in_range_spec 0xd800 0xe000 v); [|done]. destruct (Z.leb_spec 0xdc00 v); [lia|done]. }
        rewrite Ev. eexists; split; [done|]. apply Hskip. by rewrite Hdec, Hd'.
    + destruct Hus as [Hus|]; [|done]. destruct (Hput u (p + 1) Hus) as (o & E & HJ); [lia| |].
      { rewrite Hdec, <- app_assoc. done. }
      replace (len - p - 1) with (len - (p + 1)) by lia. rewrite E. eexists; split; [done|]. by destruct o as [[[[? ?] ?] ?] ?].
  - destruct (store_one s1 op (u8 u)) as (s2 & -> & Hs2); [lia|]. cbn [mbind option_bind]. eexists; split; [done|].
    unfold urange in Hu. rewrite uwrap_small in Hs2 by (unfold urange; lia).
    assert (Eu : utf8_enc u = [u]) by (unfold utf8_enc; by rewrite (proj2 (Z.ltb_lt _ _)) by lia).
    specialize (Hnext u (p + 1) s2). rewrite Eu in Hnext. change (alen [u]) with 1 in Hnext.
    replace (len - p - 1) with (len - (p + 1)) by lia. apply Hnext; [lia| |done].
    rewrite Hdec, (in_range_false 0xd800 0xe000 u), <- app_assoc by lia. done.
Qed.

(** ** The theorems *)

(** C37: [utf32_to_utf8] and [utf8_to_utf32] are inverse to each other.  A scalar value is
    encoded and decoded back from the bytes stored, without room nothing is stored and
    [-1] is returned, and a value that is no scalar is rejected.  Decoding any bytes
    gives a scalar value whose encoding they are, or [-1]; overlong forms,
    surrogates and sequences of more than four bytes are never accepted. *)
Theorem utf8_char_correct s p len : Forall byte s → 0 ≤ p → 1 ≤ len → p + len ≤ alen s →
  (∀ u, scalar u →
     (alen (utf8_enc u) ≤ len → ∃ s', utf32_to_utf8 u (Some s) p len = Some (Some s', alen (utf8_enc u)) ∧
        stored s p (utf8_enc u) s' ∧ utf8_to_utf32 s' p len = Some (alen (utf8_enc u), Some u)) ∧
     (len < alen (utf8_enc u) → utf32_to_utf8 u (Some s) p len = Some (Some s, -1))) ∧
  (∀ u, urange 32 u → ¬ scalar u → utf32_to_utf8 u (Some s) p len = Some (Some s, -1)) ∧
  (utf8_to_utf32 s p len = Some (-1, None) ∨
   ∃ u, utf8_to_utf32 s p len = Some (alen (utf8_enc u), Some u) ∧ scalar u ∧
     alen (utf8_enc u) ≤ len ∧ bytes_at s p (utf8_enc u)).
Proof.
  intros Hby Hp Hlen Hs. ands.
  - intros u Hu. split.
    + intros Hl. destruct (encode_ok u s p len) as (s' & -> & Hst); [done|lia..|]. exists s'. ands; [done..|].
      apply decode_enc; [done| |by eapply stored_at|done]. destruct Hst as [_ Hg]. apply Forall_lookup_2. intros k b.
      rewrite <- arr_get_lookup, Hg. case_decide; intros Hb; [|by eapply Forall_arr_get].
      eapply Forall_arr_get; [by apply utf8_enc_bytes|done].
    + intros Hl. apply encode_short; [done|lia].
  - intros u Hu Hn. by apply encode_reject.
  - destruct (decode_sound s p len) as [(u & Hu & Hat & Hl & E)|E]; [done..| |by left]. right. by exists u.
Qed.

Lemma utf8_char_correct_witness :
  (∃ s', utf32_to_utf8 0x20ac (Some [1; 2; 3; 4; 5]) 1 4 = Some (Some s', 3) ∧
     stored [1; 2; 3; 4; 5] 1 (utf8_enc 0x20ac) s' ∧ utf8_to_utf32 s' 1 4 = Some (3, Some 0x20ac)) ∧
  utf32_to_utf8 0x20ac (Some [1; 2; 3; 4; 5]) 1 4 = Some (Some [1; 0xe2; 0x82; 0xac; 5], 3).
Proof.
  split; [|reflexivity]. refine (proj1 (proj1 (utf8_char_correct [1; 2; 3; 4; 5] 1 4 _ _ _ _) 0x20ac _) _);
    try (done || lia); [repeat constructor; done|unfold scalar; lia].
Defined.

(** [utf8s_to_utf16s] accepts exactly the strings that are UTF-8: it stores the UTF-16
    units of the characters and returns their number, or returns [-EINVAL] when the
    bytes up to the first null byte or the length encode no sequence of characters. *)
Theorem utf8s_to_utf16s_correct s len pwcs : Forall byte s → 0 ≤ len < alen s → len ≤ alen pwcs →
  ∃ pw n, utf8s_to_utf16s s len pwcs = Some (pw, n) ∧
    ((∃ us, Forall scalar us ∧ text s len = utf8_string us ∧ stored pwcs 0 (utf16_string us) pw ∧
        n = alen (utf16_string us)) ∨
     (n = - EINVAL ∧ ¬ ∃ us, Forall scalar us ∧ text s len = utf8_string us)).
Proof. intros Hby Hl Hp. destruct (utf8s_to_utf16s_ok s len pwcs Hby Hl Hp) as ([pw n] & -> & H). by exists pw, n. Qed.

Lemma utf8s_to_utf16s_correct_witness :
  (∃ pw n, utf8s_to_utf16s [0x41; 0xc3; 0xa9; 0] 3 [0; 0; 0] = Some (pw, n) ∧
    ((∃ us, Forall scalar us ∧ text [0x41; 0xc3; 0xa9; 0] 3 = utf8_string us ∧
        stored [0; 0; 0] 0 (utf16_string us) pw ∧ n = alen (utf16_string us)) ∨
     (n = - EINVAL ∧ ¬ ∃ us, Forall scalar us ∧ text [0x41; 0xc3; 0xa9; 0] 3 = utf8_string us))) ∧
  utf8s_to_utf16s [0x41; 0xc3; 0xa9; 0] 3 [0; 0; 0] = Some ([0x41; 0xe9; 0], 2) ∧
  utf8s_to_utf16s [0x41; 0xc3; 0x28; 0] 3 [0; 0; 0] = Some ([0x41; 0; 0], -22).
Proof.
  split; [|by vm_compute]. apply (utf8s_to_utf16s_correct [0x41; 0xc3; 0xa9; 0] 3 [0; 0; 0]); try (done || lia).
  repeat constructor; done.
Defined.

Lemma utf8_string_nonzero us : Forall (λ b, b ≠ 0) (utf8_string us) → Forall (λ u, u ≠ 0) us.
Proof.
  induction us as [|u us IH]; [constructor|]. change (u :: us) with ([u] ++ us) at 1.
  rewrite utf8_string_app, utf8_string_one. intros [H1 H2]%Forall_app. constructor; [|by apply IH].
  intros ->. by apply list.Forall_cons in H1 as [? _].
Qed.

Lemma text_nonzero s len : Forall (λ b, b ≠ 0) (text s len).
Proof.
  unfold text. induction (take (Z.to_nat len) s) as [|b l IH]; [constructor|]. simpl.
  destruct (Z.eqb_spec b 0); constructor; done.
Qed.

Lemma utf16_string_units us : Forall scalar us → Forall (urange 16) (utf16_string us).
Proof.
  induction 1 as [|u us Hu Hus IH]; [constructor|]. apply Forall_app. split; [|done].
  destruct Hu as [Hu _]. unfold utf16_enc.
  case_match; repeat (constructor; [unfold urange; Z.to_euclidean_division_equations; lia|]); constructor.
Qed.

Lemma stored_front s bs s' : stored s 0 bs s' → alen bs ≤ alen s' ∧ take (Z.to_nat (alen bs)) s' = bs.
Proof.
  intros Hst. assert (Hat : bytes_at s' 0 bs) by (by eapply stored_at; [|done]).
  assert (Hl : alen bs ≤ alen s').
  { pose proof (alen_nonneg bs). pose proof (alen_nonneg s'). destruct (decide (alen bs = 0)); [lia|].
    destruct (arr_get_lt bs (alen bs - 1)) as [b Hb]; [lia|]. pose proof (arr_get_Some_lt _ _ _ (Hat _ _ Hb)). lia. }
  split; [done|]. pose proof (alen_nonneg bs). apply arr_ext; [by apply alen_take|]. rewrite alen_take by lia.
  intros i Hi. rewrite arr_get_take by lia. destruct (arr_get_lt bs i) as [b Hb]; [lia|]. rewrite Hb. by apply Hat.
Qed.

(** A string that [utf8s_to_utf16s] accepts comes back from [utf16s_to_utf8s]: the
    bytes stored are the bytes of the string. *)
Theorem utf_string_roundtrip s len pwcs pw n out maxlen :
  Forall byte s → 0 ≤ len < alen s → len ≤ alen pwcs → len ≤ maxlen → maxlen ≤ alen out →
  utf8s_to_utf16s s len pwcs = Some (pw, n) → 0 ≤ n →
  ∃ out', utf16s_to_utf8s pw n UTF16_HOST_ENDIAN out maxlen = Some (out', alen (text s len)) ∧
    stored out 0 (text s len) out'.
Proof.
  intros Hby Hlen Hpw Hm Ho E Hn. destruct (utf8s_to_utf16s_ok s len pwcs Hby Hlen Hpw) as ([pw' n'] & E' & H).
  rewrite E in E'. simplify_eq. destruct H as [(us & Hus & Ht & Hst & Hn')|[Hn' _]]; cbn in *; [|unfold EINVAL in *; lia].
  assert (Hnz : Forall (λ u, u ≠ 0) us) by (apply utf8_string_nonzero; rewrite <- Ht; apply text_nonzero).
  destruct (stored_front _ _ _ Hst) as [Hal Htk].
  assert (HU : units pw' (alen (utf16_string us)) UTF16_HOST_ENDIAN = utf16_string us)
    by (unfold units; rewrite Htk; apply list_fmap_id).
  destruct (utf16s_to_utf8s_ok pw' (alen (utf16_string us)) UTF16_HOST_ENDIAN out maxlen) as ([out' k] & E1 & E2 & E3).
  - lia.
  - rewrite HU. by apply utf16_string_units.
  - rewrite HU, utf16_dec_enc, <- Ht by done. pose proof (text_at s 0 len) as (_ & Hl & _); [lia..|]. by etrans.
  - done.
  - cbn in *. rewrite HU, utf16_dec_enc, <- Ht in * by done. subst. by exists out'.
Qed.

Lemma utf_string_roundtrip_witness :
  ∃ out', utf16s_to_utf8s [0x41; 0xd83d; 0xde00; 0; 0; 0] 3 UTF16_HOST_ENDIAN [0; 0; 0; 0; 0; 0] 6 =
      Some (out', alen (text [0x41; 0xf0; 0x9f; 0x98; 0x80; 0] 5)) ∧
    stored [0; 0; 0; 0; 0; 0] 0 (text [0x41; 0xf0; 0x9f; 0x98; 0x80; 0] 5) out'.
Proof.
  apply (utf_string_roundtrip [0x41; 0xf0; 0x9f; 0x98; 0x80; 0] 5 [0; 0; 0; 0; 0; 0]); try (done || lia).
  repeat constructor; done.
Defined.

(** The loop condition reads the byte at the current position before it looks at the
    length: a string that fills its buffer without a null byte is read past its end. *)
Example utf8s_to_utf16s_reads_past_end : utf8s_to_utf16s [0x41] 1 [0] = None.
Proof. reflexivity. Qed.
