(* ===== verification/TimeConv.v ===== *)
(** * Calendar time

    Models [kernel/time/timeconv.c] ([time_to_tm]) and [mktime],
    [set_normalized_timespec], [ns_to_timespec], [ns_to_timeval] and
    [timespec_add_safe] of [kernel/time.c], with [long] and [time_t] of 32 bits.
    The values stay inside the signed range, which the theorems show; C's division and
    remainder truncate ([Z.quot], [Z.rem]). *)

From S2P Require Import Prelude.
#[local] Open Scope Z_scope.
#[local] Open Scope kernel_scope.

Definition __isleap (year : Z) : bool :=
  (Z.rem year 4 =? 0) && (negb (Z.rem year 100 =? 0) || (Z.rem year 400 =? 0)).

Definition math_div (a b : Z) : Z := Z.quot a b - cbool (Z.rem a b <? 0).

Definition leaps_between (y1 y2 : Z) : Z :=
  let leaps1 := math_div (y1 - 1) 4 - math_div (y1 - 1) 100 + math_div (y1 - 1) 400 in
  let leaps2 := math_div (y2 - 1) 4 - math_div (y2 - 1) 100 + math_div (y2 - 1) 400 in
  leaps2 - leaps1.

(** Days before each month, in normal and in leap years. *)
Definition __mon_yday (leap : bool) : list Z :=
  if leap then [0; 31; 60; 91; 121; 152; 182; 213; 244; 274; 305; 335; 366]
  else [0; 31; 59; 90; 120; 151; 181; 212; 243; 273; 304; 334; 365].

Definition SECS_PER_HOUR : Z := 60 * 60.
Definition SECS_PER_DAY : Z := SECS_PER_HOUR * 24.

Record tm := Tm { tm_sec : Z; tm_min : Z; tm_hour : Z; tm_mday : Z; tm_mon : Z; tm_year : Z; tm_wday : Z; tm_yday : Z }.

(** Carries between the days and the seconds of the day. *)
Definition day_carry (days rem : Z) : option (Z * Z) :=
  let fuel := S (Z.to_nat (Z.abs rem / SECS_PER_DAY + 1)) in
  '(days, rem) ← loop fuel (λ '(days, rem),
    if rem <? 0 then Some (inl (s32 (days - 1), s32 (rem + SECS_PER_DAY))) else Some (inr (days, rem))) (days, rem);
  loop fuel (λ '(days, rem),
    if rem >=? SECS_PER_DAY then Some (inl (s32 (days + 1), s32 (rem - SECS_PER_DAY))) else Some (inr (days, rem))) (days, rem).

(** The loop that guesses the year; three guesses are enough for any [time_t]. *)
Definition year_of_days (days : Z) : option (Z * Z) :=
  loop 4 (λ '(days, y),
    if (days <? 0) || (days >=? (if __isleap y then 366 else 365)) then
      let yg := s32 (y + math_div days 365) in
      Some (inl (s32 (days - ((yg - y) * 365 + leaps_between y yg)), yg))
    else Some (inr (days, y))) (days, 1970).

Definition month_of_days (ip : list Z) (days : Z) : option Z :=
  loop 12 (λ y, d ← ip.[y]; if days <? d then Some (inl (y - 1)) else Some (inr y)) 11.

Definition time_to_tm (totalsecs offset : Z) : option tm :=
  let days := Z.quot totalsecs SECS_PER_DAY in
  let rem := Z.rem totalsecs SECS_PER_DAY in
  let rem := s32 (rem + offset) in
  '(days, rem) ← day_carry days rem;
  let hour := Z.quot rem SECS_PER_HOUR in
  let rem := Z.rem rem SECS_PER_HOUR in
  let min := Z.quot rem 60 in
  let sec := Z.rem rem 60 in
  let wday := Z.rem (4 + days) 7 in
  let wday := if wday <? 0 then wday + 7 else wday in
  '(days, y) ← year_of_days days;
  let year := y - 1900 in
  let yday := days in
  let ip := __mon_yday (__isleap y) in
  y ← month_of_days ip days;
  d ← ip.[y];
  let days := days - d in
  Some (Tm sec min hour (days + 1) y year wday yday).

(** [mktime] of [kernel/time.c]; the arithmetic is on [unsigned int] and [unsigned long]. *)
Definition mktime (year0 mon0 day hour min sec : Z) : Z :=
  let mon := u32 (mon0 - 2) in
  let '(mon, year) := if 0 >=? s32 mon then (u32 (mon + 12), u32 (year0 - 1)) else (mon, year0) in
  let days := u32 (u32 (year / 4 - year / 100 + year / 400 + u32 (367 * mon) / 12 + day) + u32 (year * 365) - 719499) in
  u32 (u32 (u32 (days * 24 + hour) * 60 + min) * 60 + sec).

(** ** Seconds and nanoseconds *)

Record timespec := Timespec { tv_sec : Z; tv_nsec : Z }.
Record timeval := Timeval { tvl_sec : Z; tv_usec : Z }.

Definition NSEC_PER_SEC : Z := 1000000000.
Definition TIME_T_MAX : Z := 2 ^ 31 - 1.

Definition set_normalized_timespec (sec nsec : Z) : option timespec :=
  let fuel := S (Z.to_nat (Z.abs nsec / NSEC_PER_SEC + 1)) in
  '(sec, nsec) ← loop fuel (λ '(sec, nsec),
    if nsec >=? NSEC_PER_SEC then Some (inl (s32 (sec + 1), nsec - NSEC_PER_SEC)) else Some (inr (sec, nsec))) (sec, nsec);
  '(sec, nsec) ← loop fuel (λ '(sec, nsec),
    if nsec <? 0 then Some (inl (s32 (sec - 1), nsec + NSEC_PER_SEC)) else Some (inr (sec, nsec))) (sec, nsec);
  Some (Timespec sec nsec).

(** [div_s64_rem] is the truncating division with remainder. *)
Definition ns_to_timespec (nsec : Z) : timespec :=
  if nsec =? 0 then Timespec 0 0 else
  let sec := s32 (Z.quot nsec NSEC_PER_SEC) in
  let rem := Z.rem nsec NSEC_PER_SEC in
  if rem <? 0 then Timespec (s32 (sec - 1)) (rem + NSEC_PER_SEC) else Timespec sec rem.

Definition ns_to_timeval (nsec : Z) : timeval :=
  let ts := ns_to_timespec nsec in Timeval (tv_sec ts) (Z.quot (tv_nsec ts) 1000).

Definition timespec_add_safe (lhs rhs : timespec) : option timespec :=
  res ← set_normalized_timespec (s32 (tv_sec lhs + tv_sec rhs)) (s32 (tv_nsec lhs + tv_nsec rhs));
  Some (if (tv_sec res <? tv_sec lhs) || (tv_sec res <? tv_sec rhs) then Timespec TIME_T_MAX (tv_nsec res) else res).

(** ** The calendar *)

(** Leap years before year [y]. *)
Definition leaps (y : Z) : Z := (y - 1) / 4 - (y - 1) / 100 + (y - 1) / 400.

(** Days since 1 January 1970 of day [yday] of year [y]. *)
Definition day_number (y yday : Z) : Z := 365 * (y - 1970) + (leaps y - leaps 1970) + yday.

Definition year_days (y : Z) : Z := if __isleap y then 366 else 365.

Lemma math_div_floor a b : 0 < b → math_div a b = a / b.
Proof.
  intros Hb. unfold math_div, cbool. destruct (Z.ltb_spec (Z.rem a b) 0); Z.to_euclidean_division_equations; nia.
Qed.

Lemma leaps_between_eq y1 y2 : leaps_between y1 y2 = leaps y2 - leaps y1.
Proof. unfold leaps_between, leaps. by rewrite !math_div_floor by lia. Qed.

Lemma isleap_step y : 0 < y → leaps (y + 1) = leaps y + (year_days y - 365).
Proof.
  intros Hy. unfold leaps, year_days, __isleap. rewrite !Z.rem_mod_nonneg by lia. replace (y + 1 - 1) with y by lia.
  destruct (Z.eqb_spec (y mod 4) 0), (Z.eqb_spec (y mod 100) 0), (Z.eqb_spec (y mod 400) 0); cbn [negb andb orb];
    Z.to_euclidean_division_equations; lia.
Qed.

Lemma day_number_next y d : 0 < y → day_number y (d + year_days y) = day_number (y + 1) d.
Proof. intros Hy. unfold day_number. rewrite isleap_step by done. lia. Qed.

Lemma year_days_cases y : year_days y = 365 ∨ year_days y = 366.
Proof. unfold year_days. destruct (__isleap y); auto. Qed.

(** ** Days and seconds *)

Lemma day_carry_ok days rem : - 2 ^ 31 + 90000 ≤ rem < 2 ^ 31 - 90000 → -30000 ≤ days ≤ 30000 →
  day_carry days rem = Some (days + rem / SECS_PER_DAY, rem mod SECS_PER_DAY).
Proof.
  intros Hr Hd. unfold day_carry. change SECS_PER_DAY with 86400. set (fuel := S _).
  assert (Hf : (Z.to_nat (Z.abs rem / 86400 + 1) < fuel)%nat) by (subst fuel; lia). clearbody fuel.
  run_loop (λ n '(d, r), ∃ k, d = days - k ∧ r = rem + k * 86400 ∧ 0 ≤ k ∧ - 2 ^ 31 + 90000 ≤ r ∧ (0 < k → r < 86400) ∧
      n = Z.to_nat (Z.max 0 ((86399 - r) / 86400))) (Z.to_nat (Z.max 0 ((86399 - rem) / 86400)))
    (λ '(d, r), ∃ k, d = days - k ∧ r = rem + k * 86400 ∧ 0 ≤ k ∧ (0 < k → r < 86400) ∧ 0 ≤ r) r1 HQ.
  - intros n [d r] (k & -> & -> & Hk & Hlo & Hhi & ->). destruct (Z.ltb_spec (rem + k * 86400) 0) as [Hneg|Hpos].
    + eexists; split; [done|]. eexists. split; cycle 1.
      * exists (k + 1). rewrite !s32_small by (Z.to_euclidean_division_equations; lia).
        ands; [lia|lia|lia|lia|lia|done].
      * Z.to_euclidean_division_equations; lia.
    + eexists; split; [done|]. exists k. ands; try lia.
  - exists 0. ands; [lia|lia|lia|lia|lia|done].
  - Z.to_euclidean_division_equations; lia.
  - destruct r1 as [d r], HQ as (k & -> & -> & Hk & Hhi & Hpos).
    run_loop (λ n '(d, r), ∃ j, d = days - k + j ∧ r = rem + k * 86400 - j * 86400 ∧ 0 ≤ j ∧ 0 ≤ r < 2 ^ 31 - 90000 + 86400 ∧
        n = Z.to_nat (r / 86400)) (Z.to_nat ((rem + k * 86400) / 86400))
      (λ r, r = (days + rem / 86400, rem mod 86400)) r2 HQ2.
    + intros n [d r] (j & -> & -> & Hj & Hr' & ->). destruct (Z.geb_spec (rem + k * 86400 - j * 86400) 86400) as [Hge|Hlt].
      * eexists; split; [done|]. eexists. split; cycle 1.
        -- exists (j + 1). rewrite !s32_small by (Z.to_euclidean_division_equations; lia). ands; [lia|lia|lia|lia|lia|done].
        -- Z.to_euclidean_division_equations; lia.
      * eexists; split; [done|]. f_equal; Z.to_euclidean_division_equations; lia.
    + exists 0. ands; [lia|lia|lia|lia| |f_equal; f_equal; lia]. destruct (decide (0 < k)); [specialize (Hhi ltac:(done))|]; lia.
    + destruct (decide (0 < k)); [specialize (Hhi ltac:(done))|]; Z.to_euclidean_division_equations; lia.
    + by subst.
Qed.

(** ** The year *)

Lemma leaps_bound y1 y2 : y1 ≤ y2 → 0 ≤ leaps y2 - leaps y1 ≤ (y2 - y1) / 4 + 1.
Proof. intros H. unfold leaps. Z.to_euclidean_division_equations; lia. Qed.

Lemma leaps_1970 : leaps 1970 = 477.
Proof. reflexivity. Qed.

(** One guess keeps the day. *)
Lemma year_guess days y : let yg := y + days / 365 in
  day_number yg (days - ((yg - y) * 365 + leaps_between y yg)) = day_number y days.
Proof. intros yg. rewrite leaps_between_eq. unfold day_number. lia. Qed.

Lemma year_of_days_ok days : -60000 ≤ days ≤ 60000 →
  ∃ d y, year_of_days days = Some (d, y) ∧ 0 ≤ d < year_days y ∧ day_number y d = days ∧ 1800 ≤ y ≤ 2140.
Proof.
  intros Hd. unfold year_of_days.
  run_loop (λ n '(d, y), day_number y d = days ∧
      ((n = 2%nat ∧ y = 1970 ∧ d = days) ∨
       (n = 1%nat ∧ 1804 ≤ y ≤ 2136 ∧ -44 ≤ d ≤ 408) ∨ (n = 0%nat ∧ 1800 ≤ y ≤ 2140 ∧ 0 ≤ d < year_days y))) 2%nat
    (λ '(d, y), 0 ≤ d < year_days y ∧ day_number y d = days ∧ 1800 ≤ y ≤ 2140) r HQ.
  - intros n [d y] [Hday Hn]. fold (year_days y). pose proof (year_days_cases y) as Hyd.
    assert (Hy : 1800 ≤ y ≤ 2140) by lia. assert (Hdb : -60000 ≤ d ≤ 60000) by lia.
    destruct ((d <? 0) || (d >=? year_days y)) eqn:Ec.
    2:{ eexists; split; [done|]. apply orb_false_iff in Ec as [E1%Z.ltb_ge E2].
        destruct (Z.geb_spec d (year_days y)); [done|]. ands; done || lia. }
    rewrite math_div_floor by lia. rewrite (s32_small (y + d / 365)) by (Z.to_euclidean_division_equations; lia).
    rewrite <- (year_guess d y) in Hday. cbv zeta in Hday. rewrite leaps_between_eq in Hday |- *.
    assert (Hlb : d < 0 ∧ 0 ≤ leaps y - leaps (y + d / 365) ≤ (- (d / 365)) / 4 + 1 ∨
                  0 ≤ d ∧ 0 ≤ leaps (y + d / 365) - leaps y ≤ (d / 365) / 4 + 1).
    { destruct (decide (d < 0)).
      - left. split; [done|]. pose proof (leaps_bound (y + d / 365) y) as H.
        replace (y - (y + d / 365)) with (- (d / 365)) in H by lia. apply H. Z.to_euclidean_division_equations; lia.
      - right. split; [lia|]. pose proof (leaps_bound y (y + d / 365)) as H.
        replace (y + d / 365 - y) with (d / 365) in H by lia. apply H. Z.to_euclidean_division_equations; lia. }
    rewrite s32_small by (Z.to_euclidean_division_equations; lia).
    eexists; split; [done|]. destruct Hn as [(-> & -> & ->)|[(-> & Hy1 & Hd1)|(-> & Hy1 & Hd1)]].
    + exists 1%nat. split; [lia|]. split; [done|]. right. left. split; [done|].
      Z.to_euclidean_division_equations; lia.
    + exists 0%nat. split; [lia|]. split; [done|]. right. right. split; [done|].
      assert (Hc : d / 365 = -1 ∧ d < 0 ∨ d / 365 = 1 ∧ year_days y ≤ d).
      { apply orb_true_iff in Ec as [E1%Z.ltb_lt|E1]; [left|right].
        - Z.to_euclidean_division_equations; lia.
        - destruct (Z.geb_spec d (year_days y)); [|done]. Z.to_euclidean_division_equations; lia. }
      destruct Hc as [[Eq Hneg]|[Eq Hge]]; rewrite Eq.
      * pose proof (isleap_step (y - 1) ltac:(lia)) as Hs. replace (y - 1 + 1) with y in Hs by lia.
        replace (y + -1) with (y - 1) by lia. pose proof (year_days_cases (y - 1)). lia.
      * pose proof (isleap_step y ltac:(lia)) as Hs. pose proof (year_days_cases (y + 1)). lia.
    + exfalso. apply orb_true_iff in Ec as [E1%Z.ltb_lt|E1]; [lia|]. destruct (Z.geb_spec d (year_days y)); [lia|done].
  - split; [unfold day_number; rewrite leaps_1970; lia|]. by left.
  - lia.
  - destruct r as [d y]. by exists d, y.
Qed.

(** ** The month *)

Definition month_ok (leap : bool) (d : Z) : bool :=
  match month_of_days (__mon_yday leap) d with
  | Some mon => match (__mon_yday leap).[mon], (__mon_yday leap).[mon + 1] with
                | Some a, Some b => (0 <=? mon) && (mon <=? 11) && (a <=? d) && (d <? b)
                | _, _ => false
                end
  | None => false
  end.

Lemma month_of_days_ok (leap : bool) d : 0 ≤ d < (if leap then 366 else 365) →
  ∃ mon a b, month_of_days (__mon_yday leap) d = Some mon ∧ 0 ≤ mon ≤ 11 ∧
    (__mon_yday leap).[mon] = Some a ∧ (__mon_yday leap).[mon + 1] = Some b ∧ a ≤ d < b.
Proof.
  intros Hd. assert (H : month_ok leap d = true).
  { assert (forallb (month_ok leap) (seqZ 0 (if leap then 366 else 365)) = true) as Hall
      by (destruct leap; vm_compute; reflexivity).
    rewrite forallb_forall in Hall. apply Hall, list_elem_of_In, elem_of_seqZ. lia. }
  unfold month_ok in H. destruct (month_of_days (__mon_yday leap) d) as [mon|]; [|done].
  destruct ((__mon_yday leap).[mon]) as [a|] eqn:Ea; [|done].
  destruct ((__mon_yday leap).[mon + 1]) as [b|] eqn:Eb; [|done].
  exists mon, a, b. rewrite !andb_true_iff, !Z.leb_le, Z.ltb_lt in H. ands; done || lia.
Qed.

(** ** From the calendar back to seconds *)

Lemma u32_add_l x y : u32 (u32 x + y) = u32 (x + y).
Proof. apply Zplus_mod_idemp_l. Qed.
Lemma u32_add_r x y : u32 (x + u32 y) = u32 (x + y).
Proof. apply Zplus_mod_idemp_r. Qed.
Lemma u32_mul_l x y : u32 (u32 x * y) = u32 (x * y).
Proof. apply Zmult_mod_idemp_l. Qed.

Lemma u32_axpy x k y : u32 (u32 x * k + y) = u32 (x * k + y).
Proof. by rewrite <- u32_add_l, u32_mul_l, u32_add_l. Qed.

Lemma mktime_secs D h m s : u32 (u32 (u32 (u32 D * 24 + h) * 60 + m) * 60 + s) = u32 ((D * 24 + h) * 3600 + m * 60 + s).
Proof. rewrite (u32_axpy D), (u32_axpy (D * 24 + h)), u32_axpy. f_equal. lia. Qed.

Lemma mktime_day A B C : u32 (u32 A + u32 B - C) = u32 (A + B - C).
Proof. unfold Z.sub. rewrite <- !Z.add_assoc, u32_add_l, <- (u32_add_r A), u32_add_l, u32_add_r. f_equal. Qed.

(** The day count inside [mktime]. *)
Lemma mktime_days y mon d a b : 1800 ≤ y ≤ 2140 → 0 ≤ mon ≤ 11 → (__mon_yday (__isleap y)).[mon] = Some a →
  (__mon_yday (__isleap y)).[mon + 1] = Some b → a ≤ d < b →
  ∀ h m s, mktime y (mon + 1) (d - a + 1) h m s = u32 ((day_number y d * 24 + h) * 3600 + m * 60 + s).
Proof.
  intros Hy Hmon Ha Hb Hd h m s. unfold mktime, day_number. pose proof (isleap_step y ltac:(lia)) as Hs.
  unfold year_days in Hs. rewrite leaps_1970.
  assert (Hl : leaps y = (y - 1) / 4 - (y - 1) / 100 + (y - 1) / 400) by done.
  assert (Hl1 : leaps (y + 1) = y / 4 - y / 100 + y / 400) by (unfold leaps; by replace (y + 1 - 1) with y by lia).
  assert (Hcase : mon = 0 ∨ mon = 1 ∨ mon = 2 ∨ mon = 3 ∨ mon = 4 ∨ mon = 5 ∨ mon = 6 ∨ mon = 7 ∨ mon = 8 ∨
    mon = 9 ∨ mon = 10 ∨ mon = 11) by lia.
  assert (Hy1 : u32 (y - 1) = y - 1) by (apply uwrap_small; unfold urange; lia).
  repeat destruct Hcase as [->|Hcase]; try subst mon; destruct (__isleap y); cbn in Ha; injection Ha as <-; cbn in Hb; injection Hb as <-.
  all: match goal with |- context [u32 (?k + 1 - 2)] => let v := eval vm_compute in (u32 (k + 1 - 2)) in change (u32 (k + 1 - 2)) with v end.
  all: match goal with |- context [0 >=? s32 ?v] => let b := eval vm_compute in (0 >=? s32 v) in change (0 >=? s32 v) with b end.
  all: cbv beta iota; rewrite ?Hy1, mktime_day, mktime_secs.
  all: match goal with |- context [u32 (367 * ?k) / 12] =>
         let v := eval vm_compute in (u32 (367 * k) / 12) in change (u32 (367 * k) / 12) with v end.
  all: unfold uwrap; f_equal; lia.
Qed.

(** ** The theorems *)

(** The fields of a calendar date that belongs to second [t] of the epoch. *)
Record tm_valid (t : Z) (r : tm) : Prop := {
  tm_sec_ok : 0 ≤ tm_sec r < 60;
  tm_min_ok : 0 ≤ tm_min r < 60;
  tm_hour_ok : 0 ≤ tm_hour r < 24;
  tm_time_ok : tm_hour r * 3600 + tm_min r * 60 + tm_sec r = t mod SECS_PER_DAY;
  tm_wday_ok : tm_wday r = (4 + t / SECS_PER_DAY) mod 7;
  tm_yday_ok : 0 ≤ tm_yday r < year_days (1900 + tm_year r);
  tm_day_ok : day_number (1900 + tm_year r) (tm_yday r) = t / SECS_PER_DAY;
  tm_mon_ok : 0 ≤ tm_mon r ≤ 11;
  tm_mday_ok : ∃ a b, (__mon_yday (__isleap (1900 + tm_year r))).[tm_mon r] = Some a ∧
    (__mon_yday (__isleap (1900 + tm_year r))).[tm_mon r + 1] = Some b ∧
    tm_mday r = tm_yday r - a + 1 ∧ 1 ≤ tm_mday r ≤ b - a }.

Lemma time_of_day rem : 0 ≤ rem < 86400 →
  0 ≤ Z.rem (Z.rem rem 3600) 60 < 60 ∧ 0 ≤ Z.quot (Z.rem rem 3600) 60 < 60 ∧ 0 ≤ Z.quot rem 3600 < 24 ∧
  Z.quot rem 3600 * 3600 + Z.quot (Z.rem rem 3600) 60 * 60 + Z.rem (Z.rem rem 3600) 60 = rem.
Proof. intros. Z.to_euclidean_division_equations; lia. Qed.

(** C38: [time_to_tm] returns for every 32-bit time and every offset below [2^31] minus two
    days: its loops end, all fields are in their ranges and denote the right day and
    time of day, and [mktime] of the fields gives the time back. *)
Theorem time_to_tm_mktime totalsecs offset :
  - 2 ^ 31 ≤ totalsecs < 2 ^ 31 → - 2 ^ 31 + 180000 ≤ offset < 2 ^ 31 - 180000 →
  ∃ r, time_to_tm totalsecs offset = Some r ∧ tm_valid (totalsecs + offset) r ∧
    mktime (1900 + tm_year r) (tm_mon r + 1) (tm_mday r) (tm_hour r) (tm_min r) (tm_sec r) = u32 (totalsecs + offset).
Proof.
  intros Ht Ho. unfold time_to_tm. change SECS_PER_DAY with 86400. change SECS_PER_HOUR with 3600.
  assert (Hq : -24856 ≤ Z.quot totalsecs 86400 ≤ 24856 ∧ -86400 < Z.rem totalsecs 86400 < 86400 ∧
    totalsecs = 86400 * Z.quot totalsecs 86400 + Z.rem totalsecs 86400) by (Z.to_euclidean_division_equations; lia).
  destruct Hq as (Hq1 & Hq2 & Hq3). set (dy := Z.quot totalsecs 86400) in *. set (rm := Z.rem totalsecs 86400) in *.
  rewrite s32_small by lia. rewrite day_carry_ok by lia. cbn [mbind option_bind]. change SECS_PER_DAY with 86400.
  assert (Hdiv : dy + (rm + offset) / 86400 = (totalsecs + offset) / 86400 ∧
    (rm + offset) mod 86400 = (totalsecs + offset) mod 86400) by (Z.to_euclidean_division_equations; lia).
  destruct Hdiv as [-> ->]. set (t := totalsecs + offset) in *. assert (Hdb : -60000 ≤ t / 86400 ≤ 60000)
    by (subst t; Z.to_euclidean_division_equations; lia).
  destruct (time_of_day (t mod 86400)) as (T1 & T2 & T3 & T4); [apply Z.mod_pos_bound; lia|].
  destruct (year_of_days_ok (t / 86400) Hdb) as (d & y & -> & Hd & Hday & Hy). cbn [mbind option_bind].
  destruct (month_of_days_ok (__isleap y) d Hd) as (mon & a & b & -> & Hmon & Ha & Hb & Hab). cbn [mbind option_bind].
  rewrite Ha. cbn [mbind option_bind]. eexists; split; [done|].
  split; [split|]; cbn [tm_sec tm_min tm_hour tm_mday tm_mon tm_year tm_wday tm_yday];
    replace (1900 + (y - 1900)) with y by lia; try done.
  - change SECS_PER_DAY with 86400. generalize (t / 86400). clear. intros q.
    destruct (Z.ltb_spec (Z.rem (4 + q) 7) 0); Z.to_euclidean_division_equations; lia.
  - exists a, b. ands; [done..|lia|lia].
  - rewrite (mktime_days y mon d a b) by done. rewrite Hday. f_equal.
    pose proof (Z.div_mod t 86400). lia.
Qed.

Lemma time_to_tm_mktime_witness :
  (∃ r, time_to_tm 951782400 3600 = Some r ∧ tm_valid (951782400 + 3600) r ∧
    mktime (1900 + tm_year r) (tm_mon r + 1) (tm_mday r) (tm_hour r) (tm_min r) (tm_sec r) = u32 (951782400 + 3600)) ∧
  time_to_tm 951782400 3600 = Some (Tm 0 0 1 29 1 100 2 59).
Proof. split; [apply (time_to_tm_mktime 951782400 3600); lia|vm_compute; reflexivity]. Defined.

(** The value of a time in nanoseconds. *)
Definition ns_of (ts : timespec) : Z := tv_sec ts * NSEC_PER_SEC + tv_nsec ts.
Definition ts_normal (ts : timespec) : Prop := 0 ≤ tv_nsec ts < NSEC_PER_SEC.

Lemma s32_range x : - 2 ^ 31 ≤ s32 x < 2 ^ 31.
Proof. unfold s32, uwrap. pose proof (Z.mod_pos_bound x (2 ^ 32)). destruct (Z.ltb_spec (x mod 2 ^ 32) (2 ^ 31)); lia. Qed.

(** The seconds wrap around as [time_t] does. *)
Lemma set_normalized_ok sec nsec : - 2 ^ 31 ≤ sec < 2 ^ 31 →
  set_normalized_timespec sec nsec = Some (Timespec (s32 (sec + nsec / NSEC_PER_SEC)) (nsec mod NSEC_PER_SEC)).
Proof.
  unfold set_normalized_timespec, NSEC_PER_SEC. intros Hs. set (fuel := S _).
  assert (Hf : (Z.to_nat (Z.abs nsec / 1000000000 + 1) < fuel)%nat) by (subst fuel; lia). clearbody fuel.
  run_loop (λ n '(s, ns), ∃ k, s = s32 (sec + k) ∧ ns = nsec - k * 1000000000 ∧ 0 ≤ k ∧ (0 < k → 0 ≤ ns) ∧
      n = Z.to_nat (Z.max 0 (ns / 1000000000))) (Z.to_nat (Z.max 0 (nsec / 1000000000)))
    (λ '(s, ns), ∃ k, s = s32 (sec + k) ∧ ns = nsec - k * 1000000000 ∧ 0 ≤ k ∧ (0 < k → 0 ≤ ns) ∧ ns < 1000000000) r1 HQ.
  - intros n [s ns] (k & -> & -> & Hk & Hpos & ->). destruct (Z.geb_spec (nsec - k * 1000000000) 1000000000).
    + eexists; split; [done|]. eexists; split; cycle 1.
      * exists (k + 1). rewrite s32_add_l. ands; [f_equal; lia|lia|lia|lia|done].
      * Z.to_euclidean_division_equations; lia.
    + eexists; split; [done|]. exists k. ands; try lia.
  - exists 0. ands; [by rewrite Z.add_0_r, s32_small|lia|lia|lia|done].
  - Z.to_euclidean_division_equations; lia.
  - destruct r1 as [s ns], HQ as (k & -> & -> & Hk & Hpos & Hlt).
    run_loop (λ n '(s, ns), ∃ j, s = s32 (sec + k - j) ∧ ns = nsec - k * 1000000000 + j * 1000000000 ∧ 0 ≤ j ∧
        (0 < j → k = 0) ∧ ns < 1000000000 ∧ n = Z.to_nat (- (ns / 1000000000))) (Z.to_nat (- ((nsec - k * 1000000000) / 1000000000)))
      (λ '(s, ns), s = s32 (sec + nsec / 1000000000) ∧ ns = nsec mod 1000000000) r2 HQ2.
    + intros n [s ns] (j & -> & -> & Hj & Hjk & Hhi & ->).
      destruct (Z.ltb_spec (nsec - k * 1000000000 + j * 1000000000) 0).
      * assert (k = 0) as -> by (destruct (decide (0 < k)); [specialize (Hpos ltac:(done))|]; lia).
        eexists; split; [done|]. eexists; split; cycle 1.
        -- exists (j + 1). unfold Z.sub at 1. rewrite s32_add_l. ands; [f_equal; lia|lia|lia|done|lia|done].
        -- Z.to_euclidean_division_equations; lia.
      * eexists; split; [done|]. split; [f_equal|]; Z.to_euclidean_division_equations; lia.
    + exists 0. ands; [f_equal; lia|lia|lia|lia|lia|f_equal; f_equal; f_equal; lia].
    + destruct (decide (0 < k)); [specialize (Hpos ltac:(done))|]; Z.to_euclidean_division_equations; lia.
    + destruct r2 as [s ns], HQ2 as [-> ->]. done.
Qed.

(** The conversions to seconds and nanoseconds give a normal form with the value of
    their argument, and [timespec_add_safe] of two valid times is their sum, or the
    greatest time when the sum does not fit in [time_t]. *)
Theorem timespec_correct :
  (∀ sec nsec, - 2 ^ 31 ≤ sec + nsec / NSEC_PER_SEC < 2 ^ 31 → - 2 ^ 31 ≤ sec < 2 ^ 31 →
     ∃ ts, set_normalized_timespec sec nsec = Some ts ∧ ts_normal ts ∧ ns_of ts = sec * NSEC_PER_SEC + nsec) ∧
  (∀ nsec, - 2 ^ 31 * NSEC_PER_SEC ≤ nsec < 2 ^ 31 * NSEC_PER_SEC →
     ts_normal (ns_to_timespec nsec) ∧ ns_of (ns_to_timespec nsec) = nsec ∧
     tvl_sec (ns_to_timeval nsec) * 1000000 + tv_usec (ns_to_timeval nsec) = nsec / 1000 ∧
     0 ≤ tv_usec (ns_to_timeval nsec) < 1000000) ∧
  (∀ a b, ts_normal a → ts_normal b → 0 ≤ tv_sec a < 2 ^ 31 → 0 ≤ tv_sec b < 2 ^ 31 →
     ∃ c, timespec_add_safe a b = Some c ∧ ts_normal c ∧
       if decide (ns_of a + ns_of b < 2 ^ 31 * NSEC_PER_SEC) then ns_of c = ns_of a + ns_of b
       else tv_sec c = TIME_T_MAX).
Proof.
  ands.
  - intros sec nsec H1 H2. rewrite set_normalized_ok, s32_small by done. eexists; split; [done|]. unfold ts_normal, ns_of. cbn [tv_sec tv_nsec].
    unfold NSEC_PER_SEC. Z.to_euclidean_division_equations; lia.
  - intros nsec Hn. unfold ns_to_timeval, ns_to_timespec, ts_normal, ns_of, NSEC_PER_SEC in *.
    destruct (Z.eqb_spec nsec 0) as [->|]; [done|].
    destruct (Z.ltb_spec (Z.rem nsec 1000000000) 0); cbn [tv_sec tv_nsec tvl_sec tv_usec];
      rewrite !s32_small by (rewrite ?s32_small; Z.to_euclidean_division_equations; lia); Z.to_euclidean_division_equations; lia.
  - intros [s1 n1] [s2 n2]. unfold timespec_add_safe, ts_normal, ns_of, TIME_T_MAX. cbn [tv_sec tv_nsec]. intros N1 N2 S1 S2.
    unfold NSEC_PER_SEC in *. rewrite (s32_small (n1 + n2)), set_normalized_ok by (try apply s32_range; lia).
    cbn [mbind option_bind tv_sec tv_nsec]. rewrite s32_add_l. change NSEC_PER_SEC with 1000000000.
    eexists; split; [done|]. set (q := (n1 + n2) / 1000000000).
    assert (Hq : 0 ≤ q ≤ 1 ∧ n1 + n2 = q * 1000000000 + (n1 + n2) mod 1000000000 ∧ 0 ≤ (n1 + n2) mod 1000000000 < 1000000000)
      by (subst q; Z.to_euclidean_division_equations; lia).
    destruct (decide (s1 + s2 + q < 2 ^ 31)) as [Hin|Hout].
    + rewrite s32_small, (proj2 (Z.ltb_ge _ s1)), (proj2 (Z.ltb_ge _ s2)) by lia. cbn [orb tv_sec tv_nsec].
      rewrite decide_True by lia. lia.
    + assert (E : s32 (s1 + s2 + q) = s1 + s2 + q - 2 ^ 32).
      { unfold s32, uwrap. rewrite Z.mod_small by lia. destruct (Z.ltb_spec (s1 + s2 + q) (2 ^ 31)); lia. }
      rewrite E, (proj2 (Z.ltb_lt _ s1)) by lia. cbn [orb tv_sec tv_nsec]. rewrite decide_False by lia. lia.
Qed.

Lemma timespec_correct_witness :
  ∃ c, timespec_add_safe (Timespec 5 600000000) (Timespec 2 700000000) = Some c ∧ ts_normal c ∧
    if decide (ns_of (Timespec 5 600000000) + ns_of (Timespec 2 700000000) < 2 ^ 31 * NSEC_PER_SEC)
    then ns_of c = ns_of (Timespec 5 600000000) + ns_of (Timespec 2 700000000) else tv_sec c = TIME_T_MAX.
Proof. apply (proj2 (proj2 timespec_correct)); unfold ts_normal, NSEC_PER_SEC; cbn; lia. Defined.
