(* ===== verification/RadixTree.v ===== *)
(** * The radix tree

    Models [lib/radix-tree.c] and [include/linux/radix-tree.h] on a heap of nodes, in
    the configuration of the tree ([CONFIG_BASE_SMALL=0]: 64 slots per node, heights up
    to 6, two tags).  The slab cache is a parameter: [kmem_cache_alloc] picks a free node
    or fails.  A node keeps its content in the heap while it is free, as slab objects do,
    so that allocation relies on nodes being zeroed when they are freed.  RCU only
    delays the freeing and has no counterpart in the sequential model; [BUG_ON] is a
    failure of the model. *)

From S2P Require Import Prelude Bitops.
From stdpp Require Import gmap.
#[local] Open Scope Z_scope.
#[local] Open Scope kernel_scope.

Definition RADIX_TREE_MAP_SHIFT : Z := 6.
Definition RADIX_TREE_MAP_SIZE : Z := 64.
Definition RADIX_TREE_MAP_MASK : Z := RADIX_TREE_MAP_SIZE - 1.
Definition RADIX_TREE_TAG_LONGS : Z := 2.
Definition RADIX_TREE_MAX_TAGS : Z := 2.
Definition RADIX_TREE_INDEX_BITS : Z := 32.
Definition RADIX_TREE_MAX_PATH : Z := 6.
Definition RADIX_TREE_INDIRECT_PTR : Z := 1.
Definition RADIX_TREE_RETRY : Z := ULONG_MAX.
Definition __GFP_WAIT : Z := 0x10.
Definition __GFP_BITS_SHIFT : Z := 22.
Definition __GFP_BITS_MASK : Z := 2 ^ __GFP_BITS_SHIFT - 1.
Definition ENOMEM : Z := 12.
Definition EEXIST : Z := 17.

Record radix_tree_node := RNode { height : Z; count : Z; slots : list Z; tags : list (list Z) }.
Record radix_tree_root := RRoot { rheight : Z; gfp_mask : Z; rnode : Z }.

Definition radix_tree_node_ctor : radix_tree_node :=
  RNode 0 0 (replicate (Z.to_nat RADIX_TREE_MAP_SIZE) 0)
    (replicate (Z.to_nat RADIX_TREE_MAX_TAGS) (replicate (Z.to_nat RADIX_TREE_TAG_LONGS) 0)).
Definition RADIX_TREE_INIT (mask : Z) : radix_tree_root := RRoot 0 mask 0.

(** The root, the nodes, the free objects of the slab cache and the nodes preloaded on
    this CPU. *)
Record rt_state := RState {
  root : radix_tree_root;
  nodes : gmap Z radix_tree_node;
  free : gset Z;
  preloads : list Z }.

Definition set_root (f : radix_tree_root → radix_tree_root) (s : rt_state) : rt_state :=
  RState (f (root s)) (nodes s) (free s) (preloads s).
Definition set_rnode (v : Z) : rt_state → rt_state := set_root (λ r, RRoot (rheight r) (gfp_mask r) v).
Definition set_rheight (h : Z) : rt_state → rt_state := set_root (λ r, RRoot h (gfp_mask r) (rnode r)).
Definition set_gfp (g : Z) : rt_state → rt_state := set_root (λ r, RRoot (rheight r) g (rnode r)).
Definition set_node (p : Z) (n : radix_tree_node) (s : rt_state) : rt_state :=
  RState (root s) (<[p := n]> (nodes s)) (free s) (preloads s).

(** Reading and updating the node at [p]. *)
Definition get_node (s : rt_state) (p : Z) : option radix_tree_node := nodes s !! p.
Definition upd_node (s : rt_state) (p : Z) (f : radix_tree_node → option radix_tree_node) : option rt_state :=
  n ← nodes s !! p; n' ← f n; Some (set_node p n' s).

Definition with_height (h : Z) (n : radix_tree_node) : radix_tree_node := RNode h (count n) (slots n) (tags n).
Definition with_count (c : Z) (n : radix_tree_node) : radix_tree_node := RNode (height n) c (slots n) (tags n).
Definition set_slot (off v : Z) (n : radix_tree_node) : option radix_tree_node :=
  sl ← (slots n).[off <- v]; Some (RNode (height n) (count n) sl (tags n)).
Definition get_slot (s : rt_state) (p off : Z) : option Z := n ← nodes s !! p; (slots n).[off].

(** ** Tagged pointers and tags *)

Definition radix_tree_ptr_to_indirect (p : Z) : Z := Z.lor p RADIX_TREE_INDIRECT_PTR.
Definition radix_tree_indirect_to_ptr (p : Z) : Z := Z.land p (Z.lnot RADIX_TREE_INDIRECT_PTR).
Definition radix_tree_is_indirect_ptr (p : Z) : bool := ctrue (Z.land p RADIX_TREE_INDIRECT_PTR).

Definition node_tag_set (tag off : Z) (n : radix_tree_node) : option radix_tree_node :=
  ws ← (tags n).[tag]; ws ← __set_bit off ws; ts ← (tags n).[tag <- ws];
  Some (RNode (height n) (count n) (slots n) ts).
Definition node_tag_clear (tag off : Z) (n : radix_tree_node) : option radix_tree_node :=
  ws ← (tags n).[tag]; ws ← __clear_bit off ws; ts ← (tags n).[tag <- ws];
  Some (RNode (height n) (count n) (slots n) ts).

Definition tag_set (s : rt_state) (p tag off : Z) : option rt_state := upd_node s p (node_tag_set tag off).
Definition tag_clear (s : rt_state) (p tag off : Z) : option rt_state := upd_node s p (node_tag_clear tag off).
Definition tag_get (s : rt_state) (p tag off : Z) : option bool :=
  n ← nodes s !! p; ws ← (tags n).[tag]; test_bit off ws.

Definition any_tag_set (s : rt_state) (p tag : Z) : option bool :=
  n ← nodes s !! p; ws ← (tags n).[tag];
  r ← scan_up 0 RADIX_TREE_TAG_LONGS (λ idx, w ← ws.[idx]; Some (if ctrue w then Some true else None));
  Some (default false r).

Definition root_gfp_mask (s : rt_state) : Z := Z.land (gfp_mask (root s)) __GFP_BITS_MASK.
Definition root_tag_set (s : rt_state) (tag : Z) : rt_state :=
  set_gfp (Z.lor (gfp_mask (root s)) (ushl 32 1 (tag + __GFP_BITS_SHIFT))) s.
Definition root_tag_clear (s : rt_state) (tag : Z) : rt_state :=
  set_gfp (Z.land (gfp_mask (root s)) (unot 32 (ushl 32 1 (tag + __GFP_BITS_SHIFT)))) s.
Definition root_tag_clear_all (s : rt_state) : rt_state :=
  set_gfp (Z.land (gfp_mask (root s)) __GFP_BITS_MASK) s.
Definition root_tag_get (s : rt_state) (tag : Z) : bool :=
  ctrue (Z.land (gfp_mask (root s)) (ushl 32 1 (tag + __GFP_BITS_SHIFT))).

(** ** Heights *)

Definition __maxindex (height : Z) : Z :=
  let width := height * RADIX_TREE_MAP_SHIFT in
  let shift := RADIX_TREE_INDEX_BITS - width in
  if shift <? 0 then 2 ^ 32 - 1 else if shift >=? 32 then 0 else Z.shiftr (2 ^ 32 - 1) shift.

Definition height_to_maxindex : list Z := __maxindex <$> seqZ 0 (RADIX_TREE_MAX_PATH + 1).
Definition radix_tree_maxindex (height : Z) : option Z := height_to_maxindex.[height].

(** [(index >> shift) & RADIX_TREE_MAP_MASK]. *)
Definition slot_offset (index shift : Z) : Z := Z.land (Z.shiftr index shift) RADIX_TREE_MAP_MASK.

Section RadixTree.
Context (kmem_cache_alloc : rt_state → option Z).

(** ** Allocation *)

Definition take_free (s : rt_state) (p : Z) : rt_state :=
  RState (root s) (nodes s) (free s ∖ {[p]}) (preloads s).

(** The preloaded nodes are a stack; its top is the last of the list. *)
Definition radix_tree_node_alloc (s : rt_state) : option (rt_state * Z) :=
  let gfp_mask := root_gfp_mask s in
  '(s, ret) ←
    (if negb (ctrue (Z.land gfp_mask __GFP_WAIT)) then
       match last (preloads s) with
       | Some p => Some (RState (root s) (nodes s) (free s) (removelast (preloads s)), p)
       | None => Some (s, 0)
       end
     else Some (s, 0));
  '(s, ret) ← (if ret =? 0 then
                 match kmem_cache_alloc s with Some p => Some (take_free s p, p) | None => Some (s, 0) end
               else Some (s, ret));
  if radix_tree_is_indirect_ptr ret then None else Some (s, ret).

(** [radix_tree_node_rcu_free], run when the node is freed. *)
Definition radix_tree_node_free (s : rt_state) (p : Z) : option rt_state :=
  s ← tag_clear s p 0 0;
  s ← tag_clear s p 1 0;
  s ← upd_node s p (set_slot 0 0);
  s ← upd_node s p (λ n, Some (with_count 0 n));
  Some (RState (root s) (nodes s) ({[p]} ∪ free s) (preloads s)).

Definition radix_tree_preload (s : rt_state) : option (rt_state * Z) :=
  loop (S (Z.to_nat RADIX_TREE_MAX_PATH)) (λ s,
    if alen (preloads s) <? RADIX_TREE_MAX_PATH then
      match kmem_cache_alloc s with
      | None => Some (inr (s, - ENOMEM))
      | Some p => let s := take_free s p in
                  Some (inl (RState (root s) (nodes s) (free s) (preloads s ++ [p])))
      end
    else Some (inr (s, 0))) s.

(** [radix_tree_callback] when the CPU is dead: its preloaded nodes go back to the slab. *)
Definition radix_tree_callback (s : rt_state) : rt_state :=
  RState (root s) (nodes s) (list_to_set (preloads s) ∪ free s) [].

(** ** Growing the tree *)

Definition extend_height (index h : Z) : option Z :=
  loop 8 (λ h, m ← radix_tree_maxindex h; if index >? m then Some (inl (h + 1)) else Some (inr h)) h.

(** One turn of the loop of [radix_tree_extend]; [inr] is an error. *)
Definition extend_step (s : rt_state) : option (rt_state * Z) :=
  '(s, node) ← radix_tree_node_alloc s;
  if node =? 0 then Some (s, - ENOMEM) else
  s ← upd_node s node (set_slot 0 (radix_tree_indirect_to_ptr (rnode (root s))));
  s ← for_up 0 RADIX_TREE_MAX_TAGS (λ tag s, if root_tag_get s tag then tag_set s node tag 0 else Some s) s;
  let newheight := rheight (root s) + 1 in
  s ← upd_node s node (λ n, Some (with_count 1 (with_height newheight n)));
  Some (set_rheight newheight (set_rnode (radix_tree_ptr_to_indirect node) s), 0).

Definition radix_tree_extend (s : rt_state) (index : Z) : option (rt_state * Z) :=
  height ← extend_height index (rheight (root s) + 1);
  if rnode (root s) =? 0 then Some (set_rheight height s, 0) else
  loop (S (Z.to_nat RADIX_TREE_MAX_PATH)) (λ s,
    '(s, err) ← extend_step s;
    if ctrue err then Some (inr (s, err)) else
    if height >? rheight (root s) then Some (inl s) else Some (inr (s, 0))) s.

(** ** Insertion *)

Record cursor := Cursor { c_node : Z; c_slot : Z; c_offset : Z; c_shift : Z; c_height : Z }.

(** A missing child is added: under [node], or as the root when [node] is null. *)
Definition add_child (s : rt_state) (node offset h : Z) : option (rt_state * Z) :=
  '(s, slot) ← radix_tree_node_alloc s;
  if slot =? 0 then Some (s, 0) else
  s ← upd_node s slot (λ n, Some (with_height h n));
  s ← (if ctrue node then
         s ← upd_node s node (set_slot offset slot);
         upd_node s node (λ n, Some (with_count (count n + 1) n))
       else Some (set_rnode (radix_tree_ptr_to_indirect slot) s));
  Some (s, slot).

Definition insert_descend (s : rt_state) (index : Z) (c : cursor) : option (rt_state * option cursor) :=
  loop (S (Z.to_nat (c_height c))) (λ '(s, c),
    if c_height c >? 0 then
      '(s, slot) ← (if c_slot c =? 0 then add_child s (c_node c) (c_offset c) (c_height c) else Some (s, c_slot c));
      if slot =? 0 then Some (inr (s, None)) else
      let offset := slot_offset index (c_shift c) in
      next ← get_slot s slot offset;
      Some (inl (s, Cursor slot next offset (c_shift c - RADIX_TREE_MAP_SHIFT) (c_height c - 1)))
    else Some (inr (s, Some c))) (s, c).

Definition radix_tree_insert (s : rt_state) (index item : Z) : option (rt_state * Z) :=
  if radix_tree_is_indirect_ptr item then None else
  m ← radix_tree_maxindex (rheight (root s));
  '(s, error) ← (if index >? m then radix_tree_extend s index else Some (s, 0));
  if ctrue error then Some (s, error) else
  let slot := radix_tree_indirect_to_ptr (rnode (root s)) in
  let h := rheight (root s) in
  '(s, c) ← insert_descend s index (Cursor 0 slot 0 ((h - 1) * RADIX_TREE_MAP_SHIFT) h);
  match c with
  | None => Some (s, - ENOMEM)
  | Some c =>
      if ctrue (c_slot c) then Some (s, - EEXIST) else
      if ctrue (c_node c) then
        s ← upd_node s (c_node c) (λ n, Some (with_count (count n + 1) n));
        s ← upd_node s (c_node c) (set_slot (c_offset c) item);
        t0 ← tag_get s (c_node c) 0 (c_offset c);
        t1 ← tag_get s (c_node c) 1 (c_offset c);
        if t0 || t1 then None else Some (s, 0)
      else
        let s := set_rnode item s in
        if root_tag_get s 0 || root_tag_get s 1 then None else Some (s, 0)
  end.

(** ** Lookup *)

(** The address of a slot: the pointer in the root, or a slot of a node. *)
Inductive slot_ref := RootSlot | NodeSlot (p off : Z).

(** The slot of [index] and the item in it; [None] is the null pointer. *)
Definition radix_tree_lookup_element (s : rt_state) (index : Z) : option (option (slot_ref * Z)) :=
  let node := rnode (root s) in
  if node =? 0 then Some None else
  if negb (radix_tree_is_indirect_ptr node) then
    if index >? 0 then Some None else Some (Some (RootSlot, node))
  else
    let node := radix_tree_indirect_to_ptr node in
    n ← nodes s !! node;
    m ← radix_tree_maxindex (height n);
    if index >? m then Some None else
    loop (S (Z.to_nat (height n))) (λ '(node, shift, h),
      let off := slot_offset index shift in
      v ← get_slot s node off;
      if v =? 0 then Some (inr None) else
      if h - 1 >? 0 then Some (inl (v, shift - RADIX_TREE_MAP_SHIFT, h - 1))
      else Some (inr (Some (NodeSlot node off, v)))) (node, (height n - 1) * RADIX_TREE_MAP_SHIFT, height n).

Definition radix_tree_lookup_slot (s : rt_state) (index : Z) : option (option slot_ref) :=
  r ← radix_tree_lookup_element s index;
  Some (match r with Some (l, _) => Some l | None => None end).
Definition radix_tree_lookup (s : rt_state) (index : Z) : option Z :=
  r ← radix_tree_lookup_element s index;
  Some (match r with Some (_, v) => v | None => 0 end).

Definition deref (s : rt_state) (l : slot_ref) : option Z :=
  match l with RootSlot => Some (rnode (root s)) | NodeSlot p off => get_slot s p off end.
Definition radix_tree_deref_slot (s : rt_state) (pslot : slot_ref) : option Z :=
  ret ← deref s pslot;
  Some (if radix_tree_is_indirect_ptr ret then RADIX_TREE_RETRY else ret).
Definition radix_tree_replace_slot (s : rt_state) (pslot : slot_ref) (item : Z) : option rt_state :=
  if radix_tree_is_indirect_ptr item then None else
  match pslot with
  | RootSlot => Some (set_rnode item s)
  | NodeSlot p off => upd_node s p (set_slot off item)
  end.

Definition radix_tree_next_hole (s : rt_state) (index max_scan : Z) : option Z :=
  loop (S (Z.to_nat max_scan)) (λ '(i, index),
    if i <? max_scan then
      v ← radix_tree_lookup s index;
      if negb (ctrue v) then Some (inr index) else
      let index := u32 (index + 1) in
      if index =? 0 then Some (inr index) else Some (inl (i + 1, index))
    else Some (inr index)) (0, index).

Definition radix_tree_prev_hole (s : rt_state) (index max_scan : Z) : option Z :=
  loop (S (Z.to_nat max_scan)) (λ '(i, index),
    if i <? max_scan then
      v ← radix_tree_lookup s index;
      if negb (ctrue v) then Some (inr index) else
      let index := u32 (index - 1) in
      if index =? ULONG_MAX then Some (inr index) else Some (inl (i + 1, index))
    else Some (inr index)) (0, index).

(** ** Tags of an index *)

Definition radix_tree_tag_set (s : rt_state) (index tag : Z) : option (rt_state * Z) :=
  let h := rheight (root s) in
  m ← radix_tree_maxindex h;
  if index >? m then None else
  '(s, slot) ← loop (S (Z.to_nat h)) (λ '(s, slot, shift, h),
      if h >? 0 then
        let offset := slot_offset index shift in
        t ← tag_get s slot tag offset;
        s ← (if negb t then tag_set s slot tag offset else Some s);
        slot ← get_slot s slot offset;
        if slot =? 0 then None else Some (inl (s, slot, shift - RADIX_TREE_MAP_SHIFT, h - 1))
      else Some (inr (s, slot)))
    (s, radix_tree_indirect_to_ptr (rnode (root s)), (h - 1) * RADIX_TREE_MAP_SHIFT, h);
  Some (if ctrue slot && negb (root_tag_get s tag) then root_tag_set s tag else s, slot).

(** The array [path] as a stack of nodes and offsets, [pathp] its top; the null node that
    ends it is the end of the list.  [inl] is the slot when the walk met a null node. *)
Abbreviation path := (list (Z * Z)).

Definition walk_path (s : rt_state) (index h : Z) : option (Z * option path) :=
  loop (S (Z.to_nat h)) (λ '(slot, shift, h, pathp),
    if h >? 0 then
      if slot =? 0 then Some (inr (slot, None)) else
      let offset := slot_offset index shift in
      next ← get_slot s slot offset;
      Some (inl (next, shift - RADIX_TREE_MAP_SHIFT, h - 1, (slot, offset) :: pathp))
    else Some (inr (slot, Some pathp)))
  (radix_tree_indirect_to_ptr (rnode (root s)), (h - 1) * RADIX_TREE_MAP_SHIFT, h, []).

(** The loop up the path; [true] is the exit at its end, [false] the [goto out]. *)
Fixpoint tag_clear_up (s : rt_state) (tag : Z) (pathp : path) : option (rt_state * bool) :=
  match pathp with
  | [] => Some (s, true)
  | (node, offset) :: pathp =>
      t ← tag_get s node tag offset;
      if negb t then Some (s, false) else
      s ← tag_clear s node tag offset;
      a ← any_tag_set s node tag;
      if (a : bool) then Some (s, false) else tag_clear_up s tag pathp
  end.

Definition radix_tree_tag_clear (s : rt_state) (index tag : Z) : option (rt_state * Z) :=
  let h := rheight (root s) in
  m ← radix_tree_maxindex h;
  if index >? m then Some (s, 0) else
  '(slot, p) ← walk_path s index h;
  match p with
  | None => Some (s, slot)
  | Some pathp =>
      if slot =? 0 then Some (s, slot) else
      '(s, up) ← tag_clear_up s tag pathp;
      Some (if up && root_tag_get s tag then root_tag_clear s tag else s, slot)
  end.

Definition radix_tree_tag_get (s : rt_state) (index tag : Z) : option bool :=
  if negb (root_tag_get s tag) then Some false else
  let node := rnode (root s) in
  if node =? 0 then Some false else
  if negb (radix_tree_is_indirect_ptr node) then Some (index =? 0) else
  let node := radix_tree_indirect_to_ptr node in
  n ← nodes s !! node;
  m ← radix_tree_maxindex (height n);
  if index >? m then Some false else
  loop (S (Z.to_nat (height n))) (λ '(node, shift, h),
    if node =? 0 then Some (inr false) else
    let offset := slot_offset index shift in
    t ← tag_get s node tag offset;
    if h =? 1 then Some (inr t) else
    next ← get_slot s node offset;
    Some (inl (next, shift - RADIX_TREE_MAP_SHIFT, h - 1)))
  (node, (height n - 1) * RADIX_TREE_MAP_SHIFT, height n).

Definition radix_tree_tagged (s : rt_state) (tag : Z) : bool := root_tag_get s tag.

(** ** Deletion *)

Definition radix_tree_shrink (s : rt_state) : option rt_state :=
  loop (S (Z.to_nat (rheight (root s)))) (λ s,
    if rheight (root s) >? 0 then
      let to_free := rnode (root s) in
      if negb (radix_tree_is_indirect_ptr to_free) then None else
      let to_free := radix_tree_indirect_to_ptr to_free in
      n ← nodes s !! to_free;
      if negb (count n =? 1) then Some (inr s) else
      newptr ← (slots n).[0];
      if newptr =? 0 then Some (inr s) else
      let newptr := if rheight (root s) >? 1 then radix_tree_ptr_to_indirect newptr else newptr in
      let s := set_rheight (rheight (root s) - 1) (set_rnode newptr s) in
      s ← radix_tree_node_free s to_free;
      Some (inl s)
    else Some (inr s)) s.

(** [if (to_free) radix_tree_node_free(to_free)]. *)
Definition free_opt (s : rt_state) (to_free : Z) : option rt_state :=
  if ctrue to_free then radix_tree_node_free s to_free else Some s.

(** The loop that frees the nodes that become empty, and what follows it. *)
Fixpoint delete_up (s : rt_state) (to_free : Z) (pathp : path) : option rt_state :=
  match pathp with
  | [] =>
      let s := set_rnode 0 (set_rheight 0 (root_tag_clear_all s)) in
      free_opt s to_free
  | (node, offset) :: pathp =>
      s ← upd_node s node (set_slot offset 0);
      s ← upd_node s node (λ n, Some (with_count (u32 (count n - 1)) n));
      s ← free_opt s to_free;
      n ← nodes s !! node;
      if ctrue (count n) then
        if node =? radix_tree_indirect_to_ptr (rnode (root s)) then radix_tree_shrink s else Some s
      else delete_up s node pathp
  end.

Definition radix_tree_delete (s : rt_state) (index : Z) : option (rt_state * Z) :=
  let h := rheight (root s) in
  m ← radix_tree_maxindex h;
  if index >? m then Some (s, 0) else
  if h =? 0 then Some (set_rnode 0 (root_tag_clear_all s), rnode (root s)) else
  '(slot, p) ← walk_path s index h;
  match p with
  | Some ((node, offset) :: up) =>
      if slot =? 0 then Some (s, slot) else
      s ← for_up 0 RADIX_TREE_MAX_TAGS (λ tag s,
            t ← tag_get s node tag offset;
            if (t : bool) then '(s, _) ← radix_tree_tag_clear s index tag; Some s else Some s) s;
      s ← delete_up s 0 ((node, offset) :: up);
      Some (s, slot)
  | _ => Some (s, slot)
  end.

(** ** Gang lookup *)

(** The inner loop of the searches: from slot [i], the first slot that [test] accepts,
    with [index] moved to the first index below it; [None] is the [goto out]. *)
Definition skip_slots (test : Z → option bool) (shift index i : Z) : option (Z * option Z) :=
  loop (Z.to_nat RADIX_TREE_MAP_SIZE) (λ '(index, i),
    t ← test i;
    if (t : bool) then Some (inr (index, Some i)) else
    let index := Z.land index (unot 32 (ushl 32 1 shift - 1)) in
    let index := u32 (index + ushl 32 1 shift) in
    if index =? 0 then Some (inr (index, None)) else
    let i := i + 1 in
    if i =? RADIX_TREE_MAP_SIZE then Some (inr (index, None)) else Some (inl (index, i))) (index, i).

(** The items of a bottom node from [index] on, at most [max_items] of those accepted. *)
Definition grab_items (test : Z → option bool) (slot index max_items : Z) : option (Z * list slot_ref) :=
  loop (S (Z.to_nat RADIX_TREE_MAP_SIZE)) (λ '(index, i, results),
    if i <? RADIX_TREE_MAP_SIZE then
      let index := u32 (index + 1) in
      t ← test i;
      if (t : bool) then
        let results := results ++ [NodeSlot slot i] in
        if alen results =? max_items then Some (inr (index, results)) else Some (inl (index, i + 1, results))
      else Some (inl (index, i + 1, results))
    else Some (inr (index, results))) (index, Z.land index RADIX_TREE_MAP_MASK, []).

Definition slot_used (s : rt_state) (slot i : Z) : option bool := v ← get_slot s slot i; Some (ctrue v).

(** [__lookup] returns [*next_index] and the slots found. *)
Definition __lookup (s : rt_state) (slot index max_items : Z) : option (Z * list slot_ref) :=
  n ← nodes s !! slot;
  if height n =? 0 then Some (index, []) else
  loop (S (Z.to_nat (height n))) (λ '(slot, index, shift, h),
    if h >? 1 then
      '(index, i) ← skip_slots (slot_used s slot) shift index (slot_offset index shift);
      match i with
      | None => Some (inr (index, []))
      | Some i =>
          slot ← get_slot s slot i;
          if slot =? 0 then Some (inr (index, []))
          else Some (inl (slot, index, shift - RADIX_TREE_MAP_SHIFT, h - 1))
      end
    else r ← grab_items (slot_used s slot) slot index max_items; Some (inr r))
  (slot, index, (height n - 1) * RADIX_TREE_MAP_SHIFT, height n).

(** [tag_get(slot, tag, j)] and, if it is set, the recheck that [slot->slots[j]] is there. *)
Definition slot_tagged (s : rt_state) (tag slot i : Z) : option bool :=
  t ← tag_get s slot tag i; if negb t then Some false else slot_used s slot i.

Definition __lookup_tag (s : rt_state) (slot index max_items tag : Z) : option (Z * list slot_ref) :=
  n ← nodes s !! slot;
  if height n =? 0 then Some (index, []) else
  loop (S (Z.to_nat (height n))) (λ '(slot, index, shift, h),
    if h >? 0 then
      '(index, i) ← skip_slots (tag_get s slot tag) shift index (slot_offset index shift);
      match i with
      | None => Some (inr (index, []))
      | Some i =>
          if h - 1 =? 0 then r ← grab_items (slot_tagged s tag slot) slot index max_items; Some (inr r) else
          slot ← get_slot s slot i;
          if slot =? 0 then Some (inr (index, []))
          else Some (inl (slot, index, shift - RADIX_TREE_MAP_SHIFT, h - 1))
      end
    else Some (inr (index, []))) (slot, index, (height n - 1) * RADIX_TREE_MAP_SHIFT, height n).

(** The loop of the four gang lookups over one of the searches. *)
Definition gang_loop {A} (search : Z → Z → option (Z * list A)) (max_index max_items first_index : Z)
    : option (list A) :=
  bloop 33 (λ '(results, cur_index),
    if alen results <? max_items then
      if cur_index >? max_index then Some (inr results) else
      '(next_index, found) ← search cur_index (max_items - alen results);
      let results := results ++ found in
      if next_index =? 0 then Some (inr results) else Some (inl (results, next_index))
    else Some (inr results)) ([], first_index).

(** The items in the slots found, without those that are null by now. *)
Definition slot_items (s : rt_state) (r : Z * list slot_ref) : option (Z * list Z) :=
  let '(next_index, found) := r in
  items ← mapM (deref s) found; Some (next_index, filter (λ v, ctrue v) items).

Definition radix_tree_gang_lookup (s : rt_state) (first_index max_items : Z) : option (list Z) :=
  let node := rnode (root s) in
  if node =? 0 then Some [] else
  if negb (radix_tree_is_indirect_ptr node) then
    if first_index >? 0 then Some [] else Some [node]
  else
    let node := radix_tree_indirect_to_ptr node in
    n ← nodes s !! node;
    max_index ← radix_tree_maxindex (height n);
    gang_loop (λ index max, __lookup s node index max ≫= slot_items s) max_index max_items first_index.

Definition radix_tree_gang_lookup_tag (s : rt_state) (first_index max_items tag : Z) : option (list Z) :=
  if negb (root_tag_get s tag) then Some [] else
  let node := rnode (root s) in
  if node =? 0 then Some [] else
  if negb (radix_tree_is_indirect_ptr node) then
    if first_index >? 0 then Some [] else Some [node]
  else
    let node := radix_tree_indirect_to_ptr node in
    n ← nodes s !! node;
    max_index ← radix_tree_maxindex (height n);
    gang_loop (λ index max, __lookup_tag s node index max tag ≫= slot_items s)
      max_index max_items first_index.

Definition radix_tree_gang_lookup_slot (s : rt_state) (first_index max_items : Z) : option (list slot_ref) :=
  let node := rnode (root s) in
  if node =? 0 then Some [] else
  if negb (radix_tree_is_indirect_ptr node) then
    if first_index >? 0 then Some [] else Some [RootSlot]
  else
    let node := radix_tree_indirect_to_ptr node in
    n ← nodes s !! node;
    max_index ← radix_tree_maxindex (height n);
    gang_loop (__lookup s node) max_index max_items first_index.

Definition radix_tree_gang_lookup_tag_slot (s : rt_state) (first_index max_items tag : Z)
    : option (list slot_ref) :=
  if negb (root_tag_get s tag) then Some [] else
  let node := rnode (root s) in
  if node =? 0 then Some [] else
  if negb (radix_tree_is_indirect_ptr node) then
    if first_index >? 0 then Some [] else Some [RootSlot]
  else
    let node := radix_tree_indirect_to_ptr node in
    n ← nodes s !! node;
    max_index ← radix_tree_maxindex (height n);
    gang_loop (λ index max, __lookup_tag s node index max tag) max_index max_items first_index.
End RadixTree.
