(* ===== verification/RadixTreeInv.v ===== *)
(** * The invariant of the radix tree

    The abstract state of a tree is the item [m i] at every index (null when there is
    none) and the tags [g tag i].  A ghost map [T] names the node that stands at each
    height and index prefix; [rt_inv T m g s] says that the heap represents [m] and [g],
    that nodes in use, free nodes and preloaded nodes are disjoint, and that the nodes
    not in use are zeroed. *)

From stdpp Require Import gmap.
From S2P Require Import Prelude Bitops RadixTree.
#[local] Open Scope Z_scope.
#[local] Open Scope kernel_scope.

(** ** Nodes *)

Definition slot_at (n : radix_tree_node) (off : Z) : Z := default 0 (slots n).[off].
Definition node_bit (n : radix_tree_node) (tag off : Z) : bool :=
  match (tags n).[tag] with Some ws => bit ws off | None => false end.
Definition used (l : list Z) : Z := alen (filter (λ v, v ≠ 0) l).

Definition tags_wf (n : radix_tree_node) : Prop :=
  alen (tags n) = 2 ∧ Forall (λ ws, alen ws = 2 ∧ words ws) (tags n).

Record node_wf (n : radix_tree_node) : Prop := {
  nwf_slots : alen (slots n) = 64;
  nwf_count : count n = used (slots n);
  nwf_tags : tags_wf n }.

(** A node as the slab cache hands it out. *)
Record zeroed (n : radix_tree_node) : Prop := {
  z_wf : node_wf n;
  z_slots : ∀ off, slot_at n off = 0;
  z_bits : ∀ tag off, 0 ≤ off → node_bit n tag off = false }.

Lemma tags_get n tag : tags_wf n → 0 ≤ tag < 2 → ∃ ws, (tags n).[tag] = Some ws ∧ alen ws = 2 ∧ words ws.
Proof.
  intros [Hl Hf] Ht. destruct (arr_get_lt (tags n) tag) as [ws Hws]; [lia|].
  exists ws. split; [done|]. by apply (Forall_arr_get _ _ _ _ Hf Hws).
Qed.

Lemma slot_at_get n off : alen (slots n) = 64 → 0 ≤ off < 64 → (slots n).[off] = Some (slot_at n off).
Proof.
  intros Hl Ho. unfold slot_at. destruct (arr_get_lt (slots n) off) as [v ->]; [lia|done].
Qed.

Lemma slot_at_out n off : alen (slots n) = 64 → ¬ (0 ≤ off < 64) → slot_at n off = 0.
Proof. intros Hl Ho. unfold slot_at. by rewrite arr_get_None by lia. Qed.

(** The nodes a change of slot or tag leaves. *)
Definition put_slot (off v : Z) (n : radix_tree_node) : radix_tree_node :=
  RNode (height n) (count n) (<[Z.to_nat off := v]> (slots n)) (tags n).

Lemma set_slot_put off v n :
  alen (slots n) = 64 → 0 ≤ off < 64 → set_slot off v n = Some (put_slot off v n).
Proof. intros Hl Ho. unfold set_slot. by rewrite arr_set_lt by lia. Qed.

Lemma slot_at_put off v n o :
  alen (slots n) = 64 → 0 ≤ off < 64 →
  slot_at (put_slot off v n) o = if decide (o = off) then v else slot_at n o.
Proof.
  intros Hl Ho. destruct (decide (0 ≤ o)).
  - unfold slot_at, put_slot. cbn [slots]. rewrite arr_get_insert by lia. by case_decide.
  - rewrite !slot_at_out by (unfold put_slot; cbn [slots]; rewrite ?alen_insert; lia).
    rewrite decide_False by lia. done.
Qed.

Lemma used_cons v l : used (v :: l) = used l + if decide (v = 0) then 0 else 1.
Proof.
  unfold used, alen. rewrite filter_cons. destruct (decide (v = 0)).
  - rewrite decide_False by naive_solver. lia.
  - rewrite decide_True by naive_solver. simpl. lia.
Qed.

Lemma used_insert l (i : nat) w v :
  l !! i = Some w →
  used (<[i := v]> l) = used l - (if decide (w = 0) then 0 else 1) + (if decide (v = 0) then 0 else 1).
Proof.
  revert i. induction l as [|x l IH]; intros i Hi; [done|].
  destruct i as [|i]; simpl in Hi |- *.
  - simplify_eq. change (<[0%nat:=v]> (w :: l)) with (v :: l). rewrite !used_cons. lia.
  - change (<[S i:=v]> (x :: l)) with (x :: <[i:=v]> l). rewrite !used_cons, IH by done. lia.
Qed.

Lemma used_put off v n :
  alen (slots n) = 64 → 0 ≤ off < 64 →
  used (slots (put_slot off v n)) =
  used (slots n) - (if decide (slot_at n off = 0) then 0 else 1) + (if decide (v = 0) then 0 else 1).
Proof.
  intros Hl Ho. apply used_insert. rewrite <- arr_get_lookup, Z2Nat.id by lia. by apply slot_at_get.
Qed.

Lemma used_range n : alen (slots n) = 64 → 0 ≤ used (slots n) ≤ 64.
Proof. unfold used, alen. intros Hl. pose proof (length_filter (λ v, v ≠ 0) (slots n)). lia. Qed.

Lemma used_zero_iff n : alen (slots n) = 64 → used (slots n) = 0 ↔ ∀ off, slot_at n off = 0.
Proof.
  intros Hl. split.
  - intros Hu off. unfold slot_at. destruct ((slots n).[off]) as [v|] eqn:E; [|done]. simpl.
    destruct (decide (v = 0)); [done|]. exfalso.
    assert (Hin : v ∈ filter (λ v, v ≠ 0) (slots n)).
    { apply list_elem_of_filter. split; [done|]. unfold arr_get in E.
      destruct (0 <=? off); [|done]. by eapply list_elem_of_lookup_2. }
    unfold used, alen in Hu. destruct (filter _ _); [set_solver|simpl in Hu; lia].
  - intros H. unfold used, alen. destruct (filter (λ v, v ≠ 0) (slots n)) as [|v l] eqn:E; [done|].
    exfalso. assert (Hin : v ∈ filter (λ v, v ≠ 0) (slots n)) by (rewrite E; set_solver).
    apply list_elem_of_filter in Hin as [Hv [i Hi]%list_elem_of_lookup_1].
    apply Hv. specialize (H (Z.of_nat i)). unfold slot_at in H. by rewrite arr_get_lookup, Hi in H.
Qed.

(** One slot in use: the others are null. *)
Lemma used_one n off o :
  alen (slots n) = 64 → used (slots n) = 1 → 0 ≤ off < 64 → slot_at n off ≠ 0 → o ≠ off → slot_at n o = 0.
Proof.
  intros Hl Hu Ho Hv Hne. assert (Hz : used (slots (put_slot off 0 n)) = 0).
  { rewrite used_put, Hu by done. by destruct (decide (slot_at n off = 0)). }
  apply used_zero_iff with (off := o) in Hz; [|unfold put_slot; cbn [slots]; by rewrite alen_insert].
  by rewrite slot_at_put, decide_False in Hz by done.
Qed.

(** ** Tags of a node *)

Record retagged (n n' : radix_tree_node) (f : Z → Z → bool) : Prop := {
  rtg_height : height n' = height n;
  rtg_count : count n' = count n;
  rtg_slots : slots n' = slots n;
  rtg_wf : tags_wf n';
  rtg_bits : ∀ t o, 0 ≤ o → node_bit n' t o = f t o }.

Lemma node_tag_upd n n' tag ws ws' f :
  tags_wf n → (tags n).[tag] = Some ws → alen ws' = 2 → words ws' →
  (∀ o, 0 ≤ o → bit ws' o = f o (bit ws o)) →
  (ts ← (tags n).[tag <- ws']; Some (RNode (height n) (count n) (slots n) ts)) = Some n' →
  retagged n n' (λ t o, if decide (t = tag) then f o (node_bit n t o) else node_bit n t o).
Proof.
  intros [Hl Hf] Hws Hl' Hw' Hb H. destruct ((tags n).[tag <- ws']) as [ts|] eqn:Ets; [|done].
  cbn [mbind option_bind] in H. simplify_eq. split; try done.
  - split; cbn [tags]; [by rewrite (alen_set _ _ _ _ Ets)|].
    eapply Forall_arr_set; [done| |done]. done.
  - intros t o Ho. unfold node_bit. cbn [tags]. rewrite (arr_get_set _ t _ _ _ Ets).
    case_decide; [subst; rewrite Hws; auto|done].
Qed.

Lemma node_tag_set_ok n tag off :
  tags_wf n → 0 ≤ tag < 2 → 0 ≤ off < 64 →
  ∃ n', node_tag_set tag off n = Some n' ∧
    retagged n n' (λ t o, if decide (t = tag) then (o =? off) || node_bit n t o else node_bit n t o).
Proof.
  intros Hwf Ht Ho. destruct (tags_get n tag Hwf Ht) as (ws & Hws & Hl & Hw).
  destruct (__set_bit_spec off ws) as (ws' & Es & Hl' & Hw' & Hb); [done|lia|].
  destruct ((tags n).[tag <- ws']) as [ts|] eqn:Ets.
  2:{ destruct Hwf. by rewrite arr_set_lt in Ets by lia. }
  unfold node_tag_set. rewrite Hws. cbn [mbind option_bind]. rewrite Es. cbn [mbind option_bind].
  rewrite Ets. eexists; split; [done|].
  apply (node_tag_upd n _ tag ws ws' (λ o b, (o =? off) || b)); try done; [lia|]. by rewrite Ets.
Qed.

Lemma node_tag_clear_ok n tag off :
  tags_wf n → 0 ≤ tag < 2 → 0 ≤ off < 64 →
  ∃ n', node_tag_clear tag off n = Some n' ∧
    retagged n n' (λ t o, if decide (t = tag) then negb (o =? off) && node_bit n t o else node_bit n t o).
Proof.
  intros Hwf Ht Ho. destruct (tags_get n tag Hwf Ht) as (ws & Hws & Hl & Hw).
  destruct (__clear_bit_spec off ws) as (ws' & Es & Hl' & Hw' & Hb); [done|lia|].
  destruct ((tags n).[tag <- ws']) as [ts|] eqn:Ets.
  2:{ destruct Hwf. by rewrite arr_set_lt in Ets by lia. }
  unfold node_tag_clear. rewrite Hws. cbn [mbind option_bind]. rewrite Es. cbn [mbind option_bind].
  rewrite Ets. eexists; split; [done|].
  apply (node_tag_upd n _ tag ws ws' (λ o b, negb (o =? off) && b)); try done; [lia|]. by rewrite Ets.
Qed.

Lemma slot_at_retag n n' f o : retagged n n' f → slot_at n' o = slot_at n o.
Proof. intros []. unfold slot_at. congruence. Qed.

Lemma node_wf_retag n n' f : node_wf n → retagged n n' f → node_wf n'.
Proof. intros [] []. split; congruence || done. Qed.

Lemma tag_get_ok s p n tag off :
  nodes s !! p = Some n → tags_wf n → 0 ≤ tag < 2 → 0 ≤ off < 64 →
  tag_get s p tag off = Some (node_bit n tag off).
Proof.
  intros Hn Hwf Ht Ho. destruct (tags_get n tag Hwf Ht) as (ws & Hws & Hl & Hw).
  unfold tag_get, node_bit. rewrite Hn. cbn [mbind option_bind]. rewrite Hws. cbn [mbind option_bind].
  apply test_bit_spec. lia.
Qed.

Lemma get_slot_ok s p n off :
  nodes s !! p = Some n → alen (slots n) = 64 → 0 ≤ off < 64 → get_slot s p off = Some (slot_at n off).
Proof.
  intros Hn Hl Ho. unfold get_slot. rewrite Hn. cbn [mbind option_bind]. by apply slot_at_get.
Qed.

Lemma word_bits_zero w k ws :
  words ws → ws.[k] = Some w → 0 ≤ k → w = 0 ↔ ∀ o, k * 32 ≤ o < k * 32 + 32 → bit ws o = false.
Proof.
  intros Hw Hk Hk0. rewrite (word_zero_bits 32) by (by apply (Forall_arr_get _ _ _ _ Hw Hk)).
  split; intros H.
  - intros o Ho. replace o with (k * 32 + (o - k * 32)) by lia.
    rewrite (bit_word ws _ w).
    + rewrite Z.add_comm, Z_mod_plus_full, Z.mod_small by lia. apply H. lia.
    + rewrite Z.add_comm, Z_div_plus_full, Z.div_small by lia. done.
  - intros j Hj. specialize (H (k * 32 + j)). rewrite (bit_word ws _ w) in H.
    + rewrite Z.add_comm, Z_mod_plus_full, Z.mod_small in H by lia. apply H. lia.
    + rewrite Z.add_comm, Z_div_plus_full, Z.div_small by lia. done.
Qed.

Lemma any_tag_set_ok s p n tag :
  nodes s !! p = Some n → tags_wf n → 0 ≤ tag < 2 →
  ∃ b : bool, any_tag_set s p tag = Some b ∧
    (b = true ↔ ∃ off, 0 ≤ off < 64 ∧ node_bit n tag off = true).
Proof.
  intros Hn Hwf Ht. destruct (tags_get n tag Hwf Ht) as (ws & Hws & Hl & Hw).
  unfold any_tag_set, node_bit. rewrite Hn. cbn [mbind option_bind]. rewrite Hws. cbn [mbind option_bind].
  assert (Hget : ∀ k, 0 ≤ k < 2 → ∃ w, ws.[k] = Some w) by (intros; apply arr_get_lt; lia).
  destruct (scan_up_rule 0 RADIX_TREE_TAG_LONGS
    (λ idx, w ← ws.[idx]; Some (if ctrue w then Some true else None))) as [(r & i & -> & Hi & Hb & _)|(-> & Hb)].
  - intros i Hi. destruct (Hget i) as [w ->]; [done|]. by eexists.
  - destruct (Hget i) as [w E]; [done|]. rewrite E in Hb. cbn [mbind option_bind] in Hb.
    destruct (ctrue w) eqn:Ew; simplify_eq. cbn. exists true. split; [done|]. split; [intros _|done].
    apply ctrue_true in Ew. assert (Hr : ulong w) by exact (Forall_arr_get _ _ _ _ Hw E).
    destruct (__ffs_spec w Hr Ew) as [(H0 & Hbit & _) H32]. exists (i * 32 + __ffs w).
    unfold RADIX_TREE_TAG_LONGS in *. split; [lia|]. rewrite (bit_word ws _ w).
    + by rewrite Z.add_comm, Z_mod_plus_full, Z.mod_small by lia.
    + by rewrite Z.add_comm, Z_div_plus_full, Z.div_small by lia.
  - cbn. exists false. split; [done|]. split; [done|]. intros (off & Ho & Hbit).
    destruct (Hget (off / 32)) as [w E].
    { split; [apply Z.div_pos; lia|]. apply Z.div_lt_upper_bound; lia. }
    specialize (Hb (off / 32)). rewrite E in Hb. cbn [mbind option_bind] in Hb.
    pose proof (Z.div_mod off 32 ltac:(lia)). pose proof (Z.mod_pos_bound off 32 ltac:(lia)).
    assert (Hz : w = 0).
    { apply ctrue_false. destruct (ctrue w); [|done]. unfold RADIX_TREE_TAG_LONGS in Hb.
      discriminate Hb. lia. }
    rewrite (word_bits_zero w (off / 32) ws Hw E) in Hz by lia.
    rewrite Hz in Hbit by lia. done.
Qed.

(** ** Pointers, heights and prefixes *)

Lemma indirect_even p : Z.even p = true → radix_tree_is_indirect_ptr p = false.
Proof.
  intros Hp. unfold radix_tree_is_indirect_ptr. apply ctrue_false.
  apply Z.even_spec in Hp as [q ->]. change RADIX_TREE_INDIRECT_PTR with (Z.ones 1).
  rewrite Z.land_ones by lia. rewrite Z.mul_comm. apply Z.mod_mul. lia.
Qed.

Lemma ptr_to_indirect_even p : Z.even p = true → radix_tree_ptr_to_indirect p = p + 1.
Proof.
  intros Hp. apply Z.even_spec in Hp as [q ->]. unfold radix_tree_ptr_to_indirect, RADIX_TREE_INDIRECT_PTR.
  apply Z.bits_inj'. intros i Hi. rewrite Z.lor_spec.
  destruct (decide (i = 0)) as [->|].
  - rewrite Z.testbit_odd_0, Z.testbit_even_0. done.
  - replace i with (Z.succ (i - 1)) by lia. rewrite Z.testbit_odd_succ, Z.testbit_even_succ by lia.
    change 1 with (2 * 0 + 1) at 2. rewrite Z.testbit_odd_succ, Z.bits_0 by lia. apply orb_false_r.
Qed.

Lemma indirect_to_ptr_bits p i :
  0 ≤ i → Z.testbit (radix_tree_indirect_to_ptr p) i = Z.testbit p i && negb (i =? 0).
Proof.
  intros Hi. unfold radix_tree_indirect_to_ptr, RADIX_TREE_INDIRECT_PTR.
  rewrite Z.land_spec, Z.lnot_spec by done. do 2 f_equal.
Qed.

Lemma indirect_to_ptr_even p : Z.even p = true → radix_tree_indirect_to_ptr p = p.
Proof.
  intros Hp. apply Z.even_spec in Hp as [q ->]. apply Z.bits_inj'. intros i Hi.
  rewrite indirect_to_ptr_bits by done. destruct (Z.eqb_spec i 0) as [->|]; [by rewrite Z.testbit_even_0|].
  apply andb_true_r.
Qed.

Lemma indirect_to_ptr_odd p : Z.even p = true → radix_tree_indirect_to_ptr (p + 1) = p.
Proof.
  intros Hp. apply Z.even_spec in Hp as [q ->]. apply Z.bits_inj'. intros i Hi.
  rewrite indirect_to_ptr_bits by done. destruct (Z.eqb_spec i 0) as [->|].
  - by rewrite Z.testbit_even_0, andb_false_r.
  - replace i with (Z.succ (i - 1)) by lia. rewrite Z.testbit_odd_succ, Z.testbit_even_succ by lia.
    apply andb_true_r.
Qed.

Lemma indirect_odd p : Z.even p = true → radix_tree_is_indirect_ptr (p + 1) = true.
Proof.
  intros Hp. unfold radix_tree_is_indirect_ptr. apply ctrue_true.
  apply Z.even_spec in Hp as [q ->]. change RADIX_TREE_INDIRECT_PTR with (Z.ones 1).
  rewrite Z.land_ones, Z.mul_comm, Z.add_comm by lia. change (2 ^ 1) with 2.
  rewrite Z_mod_plus_full. done.
Qed.

(** The prefix of [i] that names its subtree at height [h]. *)
Definition pre (h i : Z) : Z := i / 64 ^ h.

Lemma pow64_pos h : 0 < 64 ^ h ∨ h < 0.
Proof. destruct (decide (h < 0)); [by right|]. left. apply Z.pow_pos_nonneg; lia. Qed.

Lemma pre_0 i : pre 0 i = i.
Proof. apply Z.div_1_r. Qed.

Lemma pre_nonneg h i : 0 ≤ i → 0 ≤ pre h i.
Proof.
  intros Hi. unfold pre. destruct (pow64_pos h); [apply Z.div_pos; lia|].
  rewrite Z.pow_neg_r, Z.div_0_r by lia. done.
Qed.

Lemma pre_succ h i : 0 ≤ h → pre (h + 1) i = pre h i / 64.
Proof.
  intros Hh. unfold pre. rewrite Z.pow_add_r by lia. change (64 ^ 1) with 64.
  rewrite Z.div_div; [done| |lia]. destruct (pow64_pos h); lia.
Qed.

Definition off (h i : Z) : Z := pre (h - 1) i mod 64.

Lemma off_range h i : 0 ≤ off h i < 64.
Proof. apply Z.mod_pos_bound. lia. Qed.

Lemma pre_step h i : 1 ≤ h → pre (h - 1) i = pre h i * 64 + off h i.
Proof.
  intros Hh. replace h with (h - 1 + 1) at 2 by lia. rewrite pre_succ by lia. unfold off.
  rewrite (Z.div_mod (pre (h - 1) i) 64) at 1 by lia. lia.
Qed.

Lemma pre_off_inj h i k o :
  1 ≤ h → 0 ≤ o < 64 → pre (h - 1) i = k * 64 + o ↔ pre h i = k ∧ off h i = o.
Proof.
  intros Hh Ho. pose proof (off_range h i). rewrite pre_step by done. split; [|intros []; lia].
  intros H1. assert (pre h i = k) by nia. lia.
Qed.

Lemma slot_offset_off h i : 1 ≤ h → 0 ≤ i → slot_offset i ((h - 1) * RADIX_TREE_MAP_SHIFT) = off h i.
Proof.
  intros Hh Hi. unfold slot_offset, off, pre, RADIX_TREE_MAP_SHIFT.
  change RADIX_TREE_MAP_MASK with (Z.ones 6). rewrite Z.land_ones, Z.shiftr_div_pow2 by lia.
  rewrite Z.mul_comm, Z.pow_mul_r by lia. done.
Qed.

Definition index_ok (i : Z) : Prop := 0 ≤ i < 2 ^ 32.

(** The largest index of a tree of height [h]. *)
Lemma radix_tree_maxindex_ok h i :
  0 ≤ h ≤ 6 → index_ok i →
  ∃ m, radix_tree_maxindex h = Some m ∧ ((i >? m) = false ↔ pre h i = 0) ∧ (h = 6 → m = 2 ^ 32 - 1).
Proof.
  intros Hh Hi. unfold radix_tree_maxindex, height_to_maxindex.
  rewrite arr_get_fmap_seqZ by (unfold RADIX_TREE_MAX_PATH; lia). exists (__maxindex h). split; [done|].
  unfold pre, index_ok in *.
  assert (Hd : ∀ b, 0 < b → i / b = 0 ↔ i < b).
  { intros b Hb. rewrite Z.div_small_iff by lia. lia. }
  assert (Hcases : h = 0 ∨ h = 1 ∨ h = 2 ∨ h = 3 ∨ h = 4 ∨ h = 5 ∨ h = 6) by lia.
  split; [|intros ->; done].
  destruct Hcases as [->|[->|[->|[->|[->|[->| ->]]]]]]; rewrite Hd by lia;
    match goal with |- (i >? ?x) = false ↔ i < ?y =>
      let x' := eval vm_compute in x in change x with x'; let y' := eval vm_compute in y in change y with y' end;
    rewrite Z.gtb_ltb, Z.ltb_ge; lia.
Qed.

Lemma pre_6 i : index_ok i → pre 6 i = 0.
Proof. intros Hi. unfold pre, index_ok in *. apply Z.div_small. change (64 ^ 6) with (2 ^ 36). lia. Qed.

Lemma pre_zero_le h h' i : 0 ≤ h ≤ h' → 0 ≤ i → pre h i = 0 → pre h' i = 0.
Proof.
  intros Hh Hi. unfold pre. rewrite !Z.div_small_iff by (destruct (pow64_pos h), (pow64_pos h'); lia).
  intros H. left. pose proof (Z.pow_le_mono_r 64 h h'). destruct (pow64_pos h); lia.
Qed.

(** ** The invariant *)

Abbreviation ghost := (gmap (Z * Z) Z).
Implicit Types (T : ghost) (m : Z → Z) (g : Z → Z → bool) (s : rt_state).

(** What the slot for the prefix [j], in a node of height [h], points to. *)
Definition child_at T m (h j : Z) : Z := if decide (h = 1) then m j else default 0 (T !! (h - 1, j)).

(** Some index under the prefix [j] has the tag. *)
Definition tagged_under g (tag h j : Z) : Prop := ∃ i, 0 ≤ i ∧ pre h i = j ∧ g tag i = true.

Record node_ok T m g (h k : Z) (n : radix_tree_node) : Prop := {
  nk_height : height n = h;
  nk_wf : node_wf n;
  nk_slots : ∀ o, 0 ≤ o < 64 → slot_at n o = child_at T m h (k * 64 + o);
  nk_bits : ∀ tag o, 0 ≤ tag < 2 → 0 ≤ o < 64 →
    node_bit n tag o = true ↔ tagged_under g tag (h - 1) (k * 64 + o) }.

Definition good_addr (p : Z) : Prop := 0 < p ∧ Z.even p = true.
Definition pooled s (p : Z) : Prop := p ∈ free s ∨ p ∈ preloads s.
Definition root_ptr T m (H : Z) : Z :=
  if decide (H = 0) then m 0 else match T !! (H, 0) with Some p => p + 1 | None => 0 end.

Record rt_inv T m g s : Prop := {
  inv_H : 0 ≤ rheight (root s) ≤ 6;
  inv_gfp : urange 32 (gfp_mask (root s));
  inv_root : rnode (root s) = root_ptr T m (rheight (root s));
  inv_dom : ∀ h k p, T !! (h, k) = Some p → 1 ≤ h ≤ rheight (root s) ∧ 0 ≤ k ∧ good_addr p ∧ ¬ pooled s p;
  inv_up : ∀ h k p, T !! (h, k) = Some p →
    if decide (h = rheight (root s)) then k = 0 else is_Some (T !! (h + 1, k / 64));
  inv_inj : ∀ hk hk' p, T !! hk = Some p → T !! hk' = Some p → hk = hk';
  inv_node : ∀ h k p, T !! (h, k) = Some p → ∃ n, nodes s !! p = Some n ∧ node_ok T m g h k n;
  inv_items : ∀ i, m i ≠ 0 → index_ok i ∧ Z.even (m i) = true ∧
    if decide (rheight (root s) = 0) then i = 0 else is_Some (T !! (1, pre 1 i));
  inv_tags : ∀ tag i, 0 ≤ tag < 2 → g tag i = true → m i ≠ 0;
  inv_rtags : ∀ tag, 0 ≤ tag < 2 → root_tag_get s tag = true ↔ ∃ i, g tag i = true;
  inv_pool : ∀ p, pooled s p → good_addr p ∧ ∃ n, nodes s !! p = Some n ∧ zeroed n;
  inv_preloads : NoDup (preloads s) ∧ alen (preloads s) ≤ RADIX_TREE_MAX_PATH ∧
    ∀ p, p ∈ free s → p ∉ preloads s }.

(** The heap represents the items [m] and the tags [g]. *)
Definition rt_holds s m g : Prop := ∃ T, rt_inv T m g s.

Section Path.
Context T m g s (HI : rt_inv T m g s).
Abbreviation top := (rheight (root s)).

(** A tree without a root node has no nodes. *)
Lemma no_root hk : T !! (top, 0) = None → T !! hk = None.
Proof.
  intros HN. destruct hk as [h k]. destruct (T !! (h, k)) as [p|] eqn:HT; [|done]. exfalso.
  destruct (inv_dom _ _ _ _ HI _ _ _ HT) as [Hh _].
  remember (Z.to_nat (top - h)) as d eqn:Hd. revert h k p Hh Hd HT.
  induction d as [|d IH]; intros h k p Hh Hd HT; pose proof (inv_up _ _ _ _ HI _ _ _ HT) as Hu; case_decide.
  - subst. congruence.
  - lia.
  - lia.
  - destruct Hu as [q Hq]. apply (IH (h + 1) (k / 64) q); [lia|lia|done].
Qed.

(** An item has a node at every height of its path. *)
Lemma path_some h i : m i ≠ 0 → 1 ≤ h ≤ top → is_Some (T !! (h, pre h i)).
Proof.
  intros Hm Hh. replace h with (1 + Z.of_nat (Z.to_nat (h - 1))) by lia.
  assert (Hb : 1 + Z.of_nat (Z.to_nat (h - 1)) ≤ top) by lia. revert Hb.
  generalize (Z.to_nat (h - 1)) as d. induction d as [|d IH]; intros Hb.
  - destruct (inv_items _ _ _ _ HI i Hm) as (_ & _ & Ht). rewrite decide_False in Ht by lia.
    by rewrite Z.add_0_r.
  - destruct IH as [p Hp]; [lia|]. pose proof (inv_up _ _ _ _ HI _ _ _ Hp) as Hu.
    rewrite decide_False in Hu by lia. rewrite <- pre_succ in Hu by lia.
    by replace (1 + Z.of_nat (S d)) with (1 + Z.of_nat d + 1) by lia.
Qed.

Lemma path_none h i : T !! (h, pre h i) = None → 1 ≤ h ≤ top → m i = 0.
Proof.
  intros HT Hh. destruct (decide (m i = 0)) as [|Hm]; [done|].
  destruct (path_some h i Hm Hh) as [p Hp]. congruence.
Qed.

(** Items lie below the height of the tree. *)
Lemma item_pre i : m i ≠ 0 → pre top i = 0.
Proof.
  intros Hm. destruct (inv_items _ _ _ _ HI i Hm) as (Hi & _ & Ht). case_decide as HH.
  - subst i. unfold pre. apply Z.div_0_l. destruct (pow64_pos top); lia.
  - pose proof (inv_H _ _ _ _ HI). destruct (path_some top i Hm) as [p Hp]; [lia|].
    pose proof (inv_up _ _ _ _ HI _ _ _ Hp) as Hu. by rewrite decide_True in Hu by done.
Qed.

(** The node at a step of the path of [i] and the child it leads to. *)
Lemma path_node h i p :
  index_ok i → T !! (h, pre h i) = Some p →
  ∃ n, nodes s !! p = Some n ∧ node_ok T m g h (pre h i) n ∧ 1 ≤ h ≤ top ∧ good_addr p ∧
    slot_offset i ((h - 1) * RADIX_TREE_MAP_SHIFT) = off h i ∧
    get_slot s p (off h i) = Some (child_at T m h (pre (h - 1) i)) ∧
    ∀ tag, 0 ≤ tag < 2 → tag_get s p tag (off h i) = Some (node_bit n tag (off h i)).
Proof.
  intros Hi HT. destruct (inv_dom _ _ _ _ HI _ _ _ HT) as (Hh & Hk & Hp & _).
  destruct (inv_node _ _ _ _ HI _ _ _ HT) as (n & Hn & Hok). pose proof (off_range h i).
  unfold index_ok in Hi. exists n. ands; try done; try lia.
  - apply slot_offset_off; lia.
  - rewrite (get_slot_ok s p n) by (done || apply Hok). f_equal.
    rewrite (nk_slots _ _ _ _ _ _ Hok) by done. by rewrite <- pre_step by lia.
  - intros tag Ht. apply tag_get_ok; try done. apply Hok.
Qed.

Lemma child_none h i : 1 ≤ h ≤ top → child_at T m h (pre (h - 1) i) = 0 → m i = 0.
Proof.
  unfold child_at. intros Hh. case_decide as H1.
  - subst. by rewrite pre_0.
  - intros Hc. destruct (T !! (h - 1, pre (h - 1) i)) as [p|] eqn:E.
    + destruct (inv_dom _ _ _ _ HI _ _ _ E) as (_ & _ & [Hp _] & _). simpl in Hc. lia.
    + apply (path_none (h - 1)); [done|lia].
Qed.

Lemma child_some h i p : 1 < h → child_at T m h (pre (h - 1) i) = p → p ≠ 0 → T !! (h - 1, pre (h - 1) i) = Some p.
Proof.
  unfold child_at. intros Hh. rewrite decide_False by lia.
  destruct (T !! _) eqn:E; simpl; intros; simplify_eq; done.
Qed.

(** The three states of the root. *)
Lemma root_cases :
  (top = 0 ∧ rnode (root s) = m 0 ∧ Z.even (m 0) = true) ∨
  (0 < top ∧ rnode (root s) = 0 ∧ T !! (top, 0) = None ∧ ∀ i, m i = 0) ∨
  (0 < top ∧ ∃ p n, rnode (root s) = p + 1 ∧ T !! (top, 0) = Some p ∧ good_addr p ∧ nodes s !! p = Some n ∧
     node_ok T m g top 0 n).
Proof.
  pose proof (inv_root _ _ _ _ HI) as Hr. pose proof (inv_H _ _ _ _ HI). unfold root_ptr in Hr.
  case_decide as HH.
  - left. ands; try done. destruct (decide (m 0 = 0)) as [->|Hm]; [done|].
    by destruct (inv_items _ _ _ _ HI 0 Hm) as (_ & ? & _).
  - right. destruct (T !! (top, 0)) as [p|] eqn:E.
    + right. split; [lia|]. destruct (inv_node _ _ _ _ HI _ _ _ E) as (n & Hn & Hok).
      exists p, n. ands; try done. by destruct (inv_dom _ _ _ _ HI _ _ _ E) as (_ & _ & ? & _).
    + left. ands; [lia|done|done|]. intros i. destruct (decide (m i = 0)) as [|Hm]; [done|].
      destruct (path_some top i Hm) as [p Hp]; [lia|]. rewrite item_pre in Hp by done. congruence.
Qed.
End Path.

(** ** Changing the heap *)

Definition fresh T s (p : Z) : Prop := good_addr p ∧ (∀ hk, T !! hk ≠ Some p) ∧ ¬ pooled s p.

Lemma nodes_set_eq s p n : nodes (set_node p n s) !! p = Some n.
Proof. apply lookup_insert_eq. Qed.
Lemma nodes_set_ne s p q n : p ≠ q → nodes (set_node p n s) !! q = nodes s !! q.
Proof. apply lookup_insert_ne. Qed.
Lemma set_node_set s p n n' : set_node p n' (set_node p n s) = set_node p n' s.
Proof. unfold set_node. cbn. by rewrite insert_insert_eq. Qed.
Lemma upd_node_ok s p f n n' :
  nodes s !! p = Some n → f n = Some n' → upd_node s p f = Some (set_node p n' s).
Proof. intros Hn Hf. unfold upd_node. rewrite Hn. cbn [mbind option_bind]. by rewrite Hf. Qed.
Lemma upd_node_again s p f n n' :
  f n = Some n' → upd_node (set_node p n s) p f = Some (set_node p n' s).
Proof. intros Hf. rewrite (upd_node_ok _ _ _ n n') by (done || apply nodes_set_eq). by rewrite set_node_set. Qed.

Lemma zeroed_height n h : zeroed n → zeroed (with_height h n).
Proof. intros [[] Hs Hb]. split; [split; done|done|done]. Qed.

(** A node may change freely while it is neither in the tree nor in a pool. *)
Lemma inv_set_fresh T m g s p n : rt_inv T m g s → fresh T s p → rt_inv T m g (set_node p n s).
Proof.
  intros HI (_ & HT & Hp). destruct HI. split; try done.
  - intros h k q Hq. rewrite nodes_set_ne by (intros ->; by apply (HT (h, k))). eauto.
  - intros q Hq. rewrite nodes_set_ne by (by intros ->). eauto.
Qed.

Lemma node_ok_ext T T' m m' g g' h k n :
  node_ok T m g h k n →
  (∀ o, 0 ≤ o < 64 → child_at T' m' h (k * 64 + o) = child_at T m h (k * 64 + o)) →
  (∀ tag o, 0 ≤ tag < 2 → 0 ≤ o < 64 →
     tagged_under g' tag (h - 1) (k * 64 + o) ↔ tagged_under g tag (h - 1) (k * 64 + o)) →
  node_ok T' m' g' h k n.
Proof.
  intros [] Hc Hg. split; try done.
  - intros o Ho. rewrite Hc by done. auto.
  - intros tag o Ht Ho. rewrite Hg by done. auto.
Qed.

(** Below a missing node there is nothing. *)
Lemma nothing_below T m g s h k :
  rt_inv T m g s → 1 ≤ h ≤ rheight (root s) → T !! (h, k) = None →
  (∀ o, 0 ≤ o < 64 → child_at T m h (k * 64 + o) = 0) ∧
  (∀ tag o, 0 ≤ tag < 2 → 0 ≤ o < 64 → ¬ tagged_under g tag (h - 1) (k * 64 + o)).
Proof.
  intros HI Hh HT.
  assert (Hm : ∀ i, pre h i = k → m i = 0) by (intros i <-; by eapply path_none).
  split.
  - intros o Ho. unfold child_at. case_decide as H1.
    + subst h. apply Hm. unfold pre. change (64 ^ 1) with 64. rewrite Z.div_add_l, Z.div_small by lia. lia.
    + destruct (T !! (h - 1, k * 64 + o)) as [q|] eqn:E; [|done].
      pose proof (inv_up _ _ _ _ HI _ _ _ E) as Hu. rewrite decide_False in Hu by lia.
      rewrite Z.div_add_l, Z.div_small, Z.add_0_r in Hu by lia.
      replace (h - 1 + 1) with h in Hu by lia. rewrite HT in Hu. by destruct Hu.
  - intros tag o Ht Ho (i & Hi & Hp & Hg). apply (inv_tags _ _ _ _ HI) in Hg; [|done]. apply Hg, Hm.
    apply pre_off_inj in Hp as [Hp _]; [done|lia|lia].
Qed.

(** ** Trees without waste *)

(** Every node of the tree has an item below it, the tree is no higher than its items
    need, and every node of the heap is in the tree or in a pool. *)
Record compact T m s : Prop := {
  cp_full : ∀ h k p, T !! (h, k) = Some p → ∃ i, m i ≠ 0 ∧ pre h i = k;
  cp_low : 0 < rheight (root s) → ∃ i, m i ≠ 0 ∧ pre (rheight (root s) - 1) i ≠ 0;
  cp_owned : ∀ p, is_Some (nodes s !! p) → pooled s p ∨ ∃ hk, T !! hk = Some p }.

Definition rt_compact s m g : Prop := ∃ T, rt_inv T m g s ∧ compact T m s.

(** The same from the slots: the nodes but the one at [hk] have a child, and the root has
    one in a slot that is not its first. *)
Definition has_child T m (h k : Z) : Prop := ∃ o, 0 ≤ o < 64 ∧ child_at T m h (k * 64 + o) ≠ 0.
Definition full_but T m (hk : Z * Z) : Prop := ∀ h k p, T !! (h, k) = Some p → (h, k) ≠ hk → has_child T m h k.
Definition high T m (H : Z) : Prop := 0 < H → ∃ o, 0 < o < 64 ∧ child_at T m H o ≠ 0.
Definition owned T s : Prop := ∀ p, is_Some (nodes s !! p) → pooled s p ∨ ∃ hk, T !! hk = Some p.

Section Compact.
Context T m g s (HI : rt_inv T m g s).

(** An item below every child. *)
Lemma child_item h j : 1 ≤ h → full_but T m (0, 0) → child_at T m h j ≠ 0 → ∃ i, m i ≠ 0 ∧ pre (h - 1) i = j.
Proof.
  intros Hh Hf. replace h with (1 + Z.of_nat (Z.to_nat (h - 1))) by lia. generalize (Z.to_nat (h - 1)) as d.
  intros d. revert j. induction d as [|d IH]; intros j; unfold child_at; case_decide as Hd; try lia.
  - intros Hm. exists j. by rewrite pre_0.
  - intros Hc. set (h1 := 1 + Z.of_nat d) in *. replace (1 + Z.of_nat (S d) - 1) with h1 in * by lia.
    destruct (T !! (h1, j)) as [p|] eqn:HT; [|done].
    destruct (Hf _ _ _ HT) as (o & Ho & Hco); [intros [=]; lia|]. destruct (IH _ Hco) as (i & Hi & Hp).
    exists i. split; [done|]. apply pre_off_inj in Hp as [Hp _]; [done|lia|done].
Qed.

Lemma item_child h i : 1 ≤ h ≤ rheight (root s) → m i ≠ 0 → child_at T m h (pre (h - 1) i) ≠ 0.
Proof. intros Hh Hm Hc. apply Hm. by apply (child_none T m g s HI h). Qed.

Lemma compact_slots : compact T m s ↔ full_but T m (0, 0) ∧ high T m (rheight (root s)) ∧ owned T s.
Proof.
  pose proof (inv_H _ _ _ _ HI) as HH. split.
  - intros [Hf Hl Ho]. ands; [| |done].
    + intros h k p HT _. destruct (inv_dom _ _ _ _ HI _ _ _ HT) as (Hh & _). destruct (Hf _ _ _ HT) as (i & Hm & Hp).
      exists (off h i). split; [apply off_range|]. rewrite <- Hp, <- pre_step by lia. by apply item_child.
    + intros H0. destruct (Hl H0) as (i & Hm & Hp). exists (off (rheight (root s)) i).
      pose proof (off_range (rheight (root s)) i). pose proof (pre_step (rheight (root s)) i ltac:(lia)) as Hst.
      rewrite (item_pre _ _ _ _ HI i Hm) in Hst. split; [lia|]. replace (off _ _) with (pre (rheight (root s) - 1) i) by lia.
      by apply item_child; [lia|].
  - intros (Hf & Hl & Ho). split; [| |done].
    + intros h k p HT. destruct (inv_dom _ _ _ _ HI _ _ _ HT) as (Hh & Hk & _).
      destruct (Hf h k p HT) as (o & Ho' & Hc); [intros [=]; lia|].
      destruct (child_item h (k * 64 + o)) as (i & Hm & Hp); [lia|done|done|]. exists i. split; [done|].
      by apply pre_off_inj in Hp as [Hp _]; [|lia|].
    + intros H0. destruct (Hl H0) as (o & Ho' & Hc). destruct (child_item (rheight (root s)) o) as (i & Hm & Hp); [lia|done|done|].
      exists i. split; [done|]. lia.
Qed.
End Compact.

Lemma owned_ext T s s' :
  (∀ p, is_Some (nodes s' !! p) → is_Some (nodes s !! p)) → (∀ p, pooled s p → pooled s' p) → owned T s → owned T s'.
Proof. intros Hn Hp Ho p Hs. destruct (Ho p (Hn p Hs)); auto. Qed.

Lemma set_node_dom p n s q : is_Some (nodes s !! p) → is_Some (nodes (set_node p n s) !! q) → is_Some (nodes s !! q).
Proof. intros Hp. destruct (decide (q = p)) as [->|Hne]; [done|]. by rewrite nodes_set_ne by done. Qed.

Lemma compact_ext T m m' s s' :
  (∀ i, m' i = m i) → rheight (root s') = rheight (root s) →
  (∀ p, is_Some (nodes s' !! p) → is_Some (nodes s !! p)) → (∀ p, pooled s p → pooled s' p) →
  compact T m s → compact T m' s'.
Proof.
  intros Hm Hh Hn Hp [Hf Hl Ho]. split.
  - intros h k p HT. destruct (Hf _ _ _ HT) as (i & ? & ?). exists i. by rewrite Hm.
  - rewrite Hh. intros H0. destruct (Hl H0) as (i & ? & ?). exists i. by rewrite Hm.
  - by apply (owned_ext T s).
Qed.
