(* ===== verification/RadixTreeLookup.v ===== *)
(** * Lookup in the radix tree

    [radix_tree_lookup], the slots it finds, the search for holes and the tag of an index
    read the abstract state of [RadixTreeInv.v]. *)

From stdpp Require Import gmap.
From S2P Require Import Prelude Bitops RadixTree RadixTreeInv.
#[local] Open Scope Z_scope.
#[local] Open Scope kernel_scope.
Implicit Types (T : ghost) (m : Z → Z) (g : Z → Z → bool) (s : rt_state).

(** The slot of index [i]. *)
Definition slot_for T s (i : Z) (l : slot_ref) : Prop :=
  match l with
  | RootSlot => rheight (root s) = 0 ∧ i = 0
  | NodeSlot p o => T !! (1, pre 1 i) = Some p ∧ o = off 1 i
  end.

Lemma lookup_element_ok T m g s i :
  rt_inv T m g s → index_ok i →
  ∃ r, radix_tree_lookup_element s i = Some r ∧
    match r with None => m i = 0 | Some (l, v) => v = m i ∧ m i ≠ 0 ∧ slot_for T s i l end.
Proof.
  intros HI Hi. pose proof (inv_H _ _ _ _ HI) as HH. unfold radix_tree_lookup_element.
  destruct (root_cases _ _ _ _ HI) as [(H0 & -> & Hev)|[(H0 & -> & _ & Hm)|(H0 & p & n & -> & HT & [Hp Hev] & Hn & Hok)]].
  - destruct (Z.eqb_spec (m 0) 0) as [E0|E0]; [|rewrite indirect_even by done; cbn [negb]];
      [|destruct (Z.gtb_spec i 0)]; (eexists; split; [done|]).
    1,2: destruct (decide (m i = 0)) as [|Hm]; [done|];
      destruct (inv_items _ _ _ _ HI i Hm) as (_ & _ & Ht); rewrite decide_True in Ht by done; subst; done || lia.
    assert (i = 0) as -> by (unfold index_ok in Hi; lia). done.
  - exists None. split; [done|apply Hm].
  - destruct (Z.eqb_spec (p + 1) 0); [lia|]. rewrite indirect_odd, indirect_to_ptr_odd, Hn by done.
    cbn [negb mbind option_bind]. rewrite (nk_height _ _ _ _ _ _ Hok).
    destruct (radix_tree_maxindex_ok (rheight (root s)) i HH Hi) as (mx & -> & Hmx & _). cbn [mbind option_bind].
    destruct (i >? mx) eqn:Emx.
    { exists None. split; [done|]. destruct (decide (m i = 0)) as [|Hm]; [done|].
      apply (item_pre _ _ _ _ HI) in Hm. rewrite <- Hmx in Hm. done. }
    assert (Hpre : pre (rheight (root s)) i = 0) by (by apply Hmx).
    apply (loop_rule_idx (λ k '(node, shift, h), k = Z.to_nat h ∧ T !! (h, pre h i) = Some node ∧
        shift = (h - 1) * RADIX_TREE_MAP_SHIFT) _ _ (Z.to_nat (rheight (root s)))); [| |lia].
    2:{ by rewrite Hpre. }
    intros k [[q shift] h] (-> & HTq & ->).
    destruct (path_node _ _ _ _ HI h i q Hi HTq) as (n' & Hn' & Hok' & Hh & _ & -> & -> & _).
    cbn [mbind option_bind]. destruct (Z.eqb_spec (child_at T m h (pre (h - 1) i)) 0) as [E|E].
    { eexists; split; [done|]. cbn. by apply (child_none _ _ _ _ HI h). }
    destruct (Z.gtb_spec (h - 1) 0).
    + eexists; split; [done|]. cbn. exists (Z.to_nat (h - 1)). split; [lia|]. ands; [done| |unfold RADIX_TREE_MAP_SHIFT; lia].
      apply (child_some T m); done || lia.
    + assert (h = 1) as -> by lia. eexists; split; [done|]. cbn. unfold child_at in *.
      rewrite decide_True, pre_0 in * by done. done.
Qed.

Lemma deref_slot_for T m g s i l :
  rt_inv T m g s → index_ok i → slot_for T s i l → deref s l = Some (m i).
Proof.
  intros HI Hi Hl. destruct l as [|p o]; cbn in *.
  - destruct Hl as [H0 ->]. rewrite (inv_root _ _ _ _ HI). unfold root_ptr. by rewrite decide_True.
  - destruct Hl as [HT ->].
    destruct (path_node _ _ _ _ HI 1 i p Hi HT) as (n & _ & _ & _ & _ & _ & -> & _).
    by rewrite pre_0.
Qed.

Lemma lookup_ok T m g s i : rt_inv T m g s → index_ok i → radix_tree_lookup s i = Some (m i).
Proof.
  intros HI Hi. unfold radix_tree_lookup.
  destruct (lookup_element_ok T m g s i HI Hi) as (r & -> & Hr). cbn [mbind option_bind].
  destruct r as [[l v]|]; [by destruct Hr as [-> _]|by rewrite Hr].
Qed.

Lemma lookup_slot_ok T m g s i :
  rt_inv T m g s → index_ok i →
  ∃ r, radix_tree_lookup_slot s i = Some r ∧
    match r with None => m i = 0 | Some l => m i ≠ 0 ∧ slot_for T s i l end.
Proof.
  intros HI Hi. unfold radix_tree_lookup_slot.
  destruct (lookup_element_ok T m g s i HI Hi) as (r & -> & Hr). cbn [mbind option_bind].
  destruct r as [[l v]|]; (eexists; split; [done|]); naive_solver.
Qed.

(** ** Holes *)

Lemma next_hole_ok T m g s i max :
  rt_inv T m g s → index_ok i → 0 ≤ max →
  ∃ r, radix_tree_next_hole s i max = Some (u32 r) ∧ i ≤ r ≤ i + max ∧ r ≤ 2 ^ 32 ∧
    (∀ j, i ≤ j < r → m j ≠ 0) ∧ (r < i + max → r < 2 ^ 32 → m r = 0).
Proof.
  intros HI Hi Hmax. unfold radix_tree_next_hole, index_ok in *.
  set (Q r := i ≤ r ≤ i + max ∧ r ≤ 2 ^ 32 ∧ (∀ j, i ≤ j < r → m j ≠ 0) ∧ (r < i + max → r < 2 ^ 32 → m r = 0)).
  match goal with |- ∃ r, loop ?n ?f ?x = _ ∧ _ =>
    assert (∃ v, loop n f x = Some v ∧ ∃ r, v = u32 r ∧ Q r) as (v & -> & r & -> & Hr) end; [|by exists r].
  apply (loop_rule_idx (λ k '(c, j), 0 ≤ c ≤ max ∧ k = Z.to_nat (max - c) ∧ j = i + c ∧ 0 ≤ j < 2 ^ 32 ∧
    ∀ l, i ≤ l < j → m l ≠ 0) _ _ (Z.to_nat max)).
  3: lia.
  2: { ands; try lia. }
  intros k [c j] (Hc & -> & -> & Hj & Hall).
  destruct (Z.ltb_spec c max).
  2:{ eexists; split; [done|]. cbn. exists (i + c). rewrite uwrap_small by done. split; [done|].
      unfold Q. ands; try lia. done. }
  rewrite (lookup_ok T m g) by done. cbn [mbind option_bind].
  destruct (ctrue (m (i + c))) eqn:Em; cbn [negb].
  2:{ apply ctrue_false in Em. eexists; split; [done|]. cbn. exists (i + c). rewrite uwrap_small by done.
      split; [done|]. unfold Q. ands; try lia; done. }
  apply ctrue_true in Em.
  assert (Hall' : ∀ l, i ≤ l < i + c + 1 → m l ≠ 0).
  { intros l Hl. destruct (decide (l = i + c)) as [->|]; [done|]. apply Hall. lia. }
  destruct (Z.eqb_spec (u32 (i + c + 1)) 0) as [E|E]; (eexists; split; [done|]); cbn.
  - exists (i + c + 1). split; [done|].
    assert (i + c + 1 = 2 ^ 32).
    { destruct (decide (i + c + 1 = 2 ^ 32)); [done|]. rewrite uwrap_small in E by (unfold urange; lia). lia. }
    unfold Q. ands; try lia; done.
  - exists (Z.to_nat (max - (c + 1))). split; [lia|].
    assert (i + c + 1 ≠ 2 ^ 32) by (intros Ee; rewrite Ee in E; done).
    rewrite uwrap_small by (unfold urange; lia). ands; try lia. intros l Hl. apply Hall'. lia.
Qed.

Lemma prev_hole_ok T m g s i max :
  rt_inv T m g s → index_ok i → 0 ≤ max →
  ∃ r, radix_tree_prev_hole s i max = Some (u32 r) ∧ i - max ≤ r ≤ i ∧ -1 ≤ r ∧
    (∀ j, r < j ≤ i → m j ≠ 0) ∧ (i - max < r → 0 ≤ r → m r = 0).
Proof.
  intros HI Hi Hmax. unfold radix_tree_prev_hole, index_ok in *.
  set (Q r := i - max ≤ r ≤ i ∧ -1 ≤ r ∧ (∀ j, r < j ≤ i → m j ≠ 0) ∧ (i - max < r → 0 ≤ r → m r = 0)).
  match goal with |- ∃ r, loop ?n ?f ?x = _ ∧ _ =>
    assert (∃ v, loop n f x = Some v ∧ ∃ r, v = u32 r ∧ Q r) as (v & -> & r & -> & Hr) end; [|by exists r].
  apply (loop_rule_idx (λ k '(c, j), 0 ≤ c ≤ max ∧ k = Z.to_nat (max - c) ∧ j = i - c ∧ 0 ≤ j < 2 ^ 32 ∧
    ∀ l, j < l ≤ i → m l ≠ 0) _ _ (Z.to_nat max)).
  3: lia.
  2: { ands; try lia. }
  intros k [c j] (Hc & -> & -> & Hj & Hall).
  destruct (Z.ltb_spec c max).
  2:{ eexists; split; [done|]. cbn. exists (i - c). rewrite uwrap_small by done. split; [done|].
      unfold Q. ands; try lia. done. }
  rewrite (lookup_ok T m g) by done. cbn [mbind option_bind].
  destruct (ctrue (m (i - c))) eqn:Em; cbn [negb].
  2:{ apply ctrue_false in Em. eexists; split; [done|]. cbn. exists (i - c). rewrite uwrap_small by done.
      split; [done|]. unfold Q. ands; try lia; done. }
  apply ctrue_true in Em.
  assert (Hall' : ∀ l, i - c - 1 < l ≤ i → m l ≠ 0).
  { intros l Hl. destruct (decide (l = i - c)) as [->|]; [done|]. apply Hall. lia. }
  change ULONG_MAX with (2 ^ 32 - 1).
  destruct (Z.eqb_spec (u32 (i - c - 1)) (2 ^ 32 - 1)) as [E|E]; (eexists; split; [done|]); cbn.
  - exists (i - c - 1). split; [done|].
    assert (i - c - 1 = -1).
    { destruct (decide (i - c - 1 = -1)); [done|]. rewrite uwrap_small in E by (unfold urange; lia). lia. }
    unfold Q. ands; try lia; done.
  - exists (Z.to_nat (max - (c + 1))). split; [lia|].
    assert (i - c - 1 ≠ -1) by (intros Ee; rewrite Ee in E; done).
    rewrite uwrap_small by (unfold urange; lia). ands; try lia. intros l Hl. apply Hall'. lia.
Qed.

(** ** Tags *)

Lemma no_item_no_tag T m g s tag i : rt_inv T m g s → 0 ≤ tag < 2 → m i = 0 → g tag i = false.
Proof.
  intros HI Ht Hm. destruct (g tag i) eqn:E; [|done]. by apply (inv_tags _ _ _ _ HI) in E.
Qed.

Lemma bottom_bit T m g i k n tag :
  node_ok T m g 1 k n → index_ok i → k = pre 1 i → 0 ≤ tag < 2 → node_bit n tag (off 1 i) = g tag i.
Proof.
  intros Hok Hi -> Ht. pose proof (off_range 1 i). unfold index_ok in Hi.
  pose proof (nk_bits _ _ _ _ _ _ Hok tag (off 1 i) Ht ltac:(done)) as Hb.
  rewrite <- pre_step, Z.sub_diag, pre_0 in Hb by lia. unfold tagged_under in Hb.
  apply eq_bool_prop_intro. rewrite !Is_true_true, Hb. split.
  - intros (j & _ & Hj & Hg). rewrite pre_0 in Hj. by subst.
  - intros Hg. exists i. rewrite pre_0. split_and!; [lia|done|done].
Qed.

Lemma rt_tag_get_ok T m g s i tag :
  rt_inv T m g s → index_ok i → 0 ≤ tag < 2 → radix_tree_tag_get s i tag = Some (g tag i).
Proof.
  intros HI Hi Ht. pose proof (inv_H _ _ _ _ HI) as HH. pose proof (inv_rtags _ _ _ _ HI tag Ht) as Hrt.
  unfold radix_tree_tag_get. destruct (root_tag_get s tag) eqn:Er; cbn [negb].
  2:{ destruct (g tag i) eqn:E; [|done]. destruct Hrt as [_ Hrt]. by discriminate Hrt; eauto. }
  destruct (root_cases _ _ _ _ HI) as [(H0 & -> & Hev)|[(H0 & -> & _ & Hm)|(H0 & p & n & -> & HT & [Hp Hev] & Hn & Hok)]].
  - destruct Hrt as [[j Hj] _]; [done|].
    assert (j = 0) as ->.
    { destruct (inv_items _ _ _ _ HI j) as (_ & _ & H1); [by eapply inv_tags|]. by rewrite decide_True in H1. }
    destruct (Z.eqb_spec (m 0) 0) as [E|_]; [by apply (inv_tags _ _ _ _ HI) in Hj|].
    rewrite indirect_even by done. cbn [negb]. f_equal. destruct (Z.eqb_spec i 0) as [->|]; [done|].
    destruct (g tag i) eqn:E; [|done]. exfalso.
    destruct (inv_items _ _ _ _ HI i) as (_ & _ & H1); [by eapply inv_tags|]. by rewrite decide_True in H1.
  - by rewrite (no_item_no_tag T m g s) by done.
  - destruct (Z.eqb_spec (p + 1) 0); [lia|]. rewrite indirect_odd, indirect_to_ptr_odd, Hn by done.
    cbn [negb mbind option_bind]. rewrite (nk_height _ _ _ _ _ _ Hok).
    destruct (radix_tree_maxindex_ok (rheight (root s)) i HH Hi) as (mx & -> & Hmx & _). cbn [mbind option_bind].
    destruct (i >? mx) eqn:Emx.
    { rewrite (no_item_no_tag T m g s); try done. destruct (decide (m i = 0)) as [|Hm]; [done|].
      apply (item_pre _ _ _ _ HI) in Hm. rewrite <- Hmx in Hm. done. }
    assert (Hpre : pre (rheight (root s)) i = 0) by (by apply Hmx).
    match goal with |- loop ?f ?st ?x = _ =>
      assert (∃ r, loop f st x = Some r ∧ r = g tag i) as (r & -> & ->); [|done] end.
    apply (loop_rule_idx (λ k '(node, shift, h), k = Z.to_nat h ∧ 1 ≤ h ≤ rheight (root s) ∧
        node = default 0 (T !! (h, pre h i)) ∧
        shift = (h - 1) * RADIX_TREE_MAP_SHIFT) _ _ (Z.to_nat (rheight (root s)))); [| |lia].
    2:{ ands; try done; try lia. by rewrite Hpre, HT. }
    intros k [[q shift] h] (-> & Hh & -> & ->).
    destruct (T !! (h, pre h i)) as [q|] eqn:HTq; cbn [from_option id].
    2:{ eexists; split; [done|]. cbn. rewrite (no_item_no_tag T m g s); try done.
        by apply (path_none _ _ _ _ HI h). }
    destruct (path_node _ _ _ _ HI h i q Hi HTq) as (n' & Hn' & Hok' & _ & [Hq _] & -> & Hslot & Htag).
    cbn [from_option id]. destruct (Z.eqb_spec q 0); [lia|]. rewrite Htag by done. cbn [mbind option_bind].
    destruct (Z.eqb_spec h 1) as [->|]; [|rewrite Hslot; cbn [mbind option_bind]]; (eexists; split; [done|]); cbn.
    + by apply (bottom_bit T m g i (pre 1 i)).
    + exists (Z.to_nat (h - 1)). split; [lia|]. ands; try lia.
      unfold child_at. by rewrite decide_False by done.
Qed.
