(* ===== verification/RadixTreeInsert.v ===== *)
(** * Insertion into the radix tree

    How the invariant changes when a node is linked below another one, as the root or
    above the root, when an item is written, and what [radix_tree_insert],
    [radix_tree_preload] and [radix_tree_replace_slot] do to the abstract state. *)

From stdpp Require Import gmap.
From S2P Require Import Prelude Bitops RadixTree RadixTreeInv RadixTreeLookup.
#[local] Open Scope Z_scope.
#[local] Open Scope kernel_scope.
Implicit Types (T : ghost) (m : Z → Z) (g : Z → Z → bool) (s : rt_state).

(** ** Linking a new node *)

Lemma zeroed_ok T m g h k n :
  zeroed n → height n = h →
  (∀ o, 0 ≤ o < 64 → child_at T m h (k * 64 + o) = 0) →
  (∀ tag o, 0 ≤ tag < 2 → 0 ≤ o < 64 → ¬ tagged_under g tag (h - 1) (k * 64 + o)) →
  node_ok T m g h k n.
Proof.
  intros Hz Hh Hc Ht. split; [done|apply Hz| |].
  - intros o Ho. rewrite Hc by done. apply Hz.
  - intros tag o Htag Ho. rewrite (z_bits _ Hz) by lia. split; [done|]. intros H. by apply Ht in H.
Qed.

Lemma child_at_insert_ne T m h k p h' j :
  (h' - 1, j) ≠ (h, k) → child_at (<[(h, k) := p]> T) m h' j = child_at T m h' j.
Proof. intros Hne. unfold child_at. case_decide; [done|]. by rewrite lookup_insert_ne by congruence. Qed.

(** A node after a write to one of its slots, with the count kept in step. *)
Definition null_cost (v : Z) : Z := if decide (v = 0) then 0 else 1.

Lemma node_ok_put T T' m m' g h k n o v c :
  node_ok T m g h k n → 0 ≤ o < 64 → child_at T' m' h (k * 64 + o) = v →
  c = count n - null_cost (slot_at n o) + null_cost v →
  (∀ o', 0 ≤ o' < 64 → o' ≠ o → child_at T' m' h (k * 64 + o') = child_at T m h (k * 64 + o')) →
  node_ok T' m' g h k (with_count c (put_slot o v n)).
Proof.
  intros Hok Ho Hv -> Hc. assert (Hl : alen (slots n) = 64) by apply Hok.
  destruct (nk_wf _ _ _ _ _ _ Hok) as [_ Hcnt Htags]. split; [apply Hok| | |apply Hok].
  - split; [unfold put_slot; cbn; by rewrite alen_insert| |done]. cbn [with_count count slots].
    by rewrite used_put, Hcnt by done.
  - intros o' Ho'. change (slot_at _ o') with (slot_at (put_slot o v n) o'). rewrite slot_at_put by done.
    case_decide as Hd; [by subst|]. rewrite Hc by done. by apply Hok.
Qed.

(** Under the node [q], in the slot of the prefix [k]. *)
Lemma link_child T m g s h k p q np nq :
  rt_inv T m g s → fresh T s p → nodes s !! p = Some np → zeroed np → height np = h →
  T !! (h + 1, k / 64) = Some q → nodes s !! q = Some nq → T !! (h, k) = None → 1 ≤ h → 0 ≤ k →
  rt_inv (<[(h, k) := p]> T) m g
    (set_node q (with_count (count nq + 1) (put_slot (k mod 64) p nq)) s).
Proof.
  intros HI (Hp & HTp & Hfp) Hnp Hz Hhp HTq Hnq HTk Hh Hk.
  destruct (inv_dom _ _ _ _ HI _ _ _ HTq) as (Hhq & _ & Hgq & Hfq).
  destruct (inv_node _ _ _ _ HI _ _ _ HTq) as (nq' & Hnq' & Hokq). simplify_eq.
  assert (Hpq : p ≠ q) by (intros ->; by eapply HTp).
  pose proof (Z.mod_pos_bound k 64 ltac:(lia)) as Hmod. pose proof (Z.div_mod k 64 ltac:(lia)) as Hdiv.
  destruct (nothing_below _ _ _ _ (height np) k HI) as [Hc Ht]; [lia|done|].
  assert (Hkk : k / 64 * 64 + k mod 64 = k) by lia.
  assert (Hnull : slot_at nq (k mod 64) = 0).
  { rewrite (nk_slots _ _ _ _ _ _ Hokq), Hkk by done. unfold child_at. rewrite decide_False by lia.
    by rewrite Z.add_simpl_r, HTk. }
  split; cbn [root set_node]; try apply HI.
  - rewrite (inv_root _ _ _ _ HI). unfold root_ptr. case_decide; [done|].
    rewrite lookup_insert_ne; [done|]. intros [=]. lia.
  - intros h' k' p' HT'. apply lookup_insert_Some in HT' as [([= <- <-] & <-)|[_ HT']].
    + ands; try lia; done.
    + by apply (inv_dom _ _ _ _ HI).
  - intros h' k' p' HT'. apply lookup_insert_Some in HT' as [([= <- <-] & <-)|[_ HT']].
    + rewrite decide_False by lia. rewrite lookup_insert_ne by (intros [=]; lia). by eexists.
    + pose proof (inv_up _ _ _ _ HI _ _ _ HT') as Hu. case_decide; [done|].
      apply lookup_insert_is_Some. destruct (decide ((height np, k) = (h' + 1, k' / 64))); auto.
  - intros hk hk' r H1 H2. apply lookup_insert_Some in H1 as [(<- & <-)|[_ H1]];
      apply lookup_insert_Some in H2 as [(<- & H2)|[_ H2]]; simplify_eq; try done.
    + by apply HTp in H2.
    + by apply HTp in H1.
    + by apply (inv_inj _ _ _ _ HI hk hk' r).
  - intros h' k' p' HT'. apply lookup_insert_Some in HT' as [([= <- <-] & <-)|[Hne HT']].
    + rewrite nodes_set_ne by done. exists np. split; [done|]. apply zeroed_ok; try done.
      intros o Ho. rewrite child_at_insert_ne by (intros [=]; lia). auto.
    + destruct (decide (p' = q)) as [->|Hne'].
      * pose proof (inv_inj _ _ _ _ HI _ _ _ HT' HTq) as [= -> ->]. rewrite nodes_set_eq.
        eexists; split; [done|]. apply (node_ok_put T _ m m); try done.
        -- rewrite Hkk. unfold child_at. by rewrite decide_False, Z.add_simpl_r, lookup_insert_eq by lia.
        -- rewrite Hnull. unfold null_cost. rewrite decide_True, decide_False by (destruct Hp; lia). lia.
        -- intros o Ho Hne'. apply child_at_insert_ne. intros [=]. lia.
      * rewrite nodes_set_ne by done. destruct (inv_node _ _ _ _ HI _ _ _ HT') as (n' & Hn' & Hok').
        exists n'. split; [done|]. apply (node_ok_ext T _ m m g g); try done.
        intros o Ho. apply child_at_insert_ne. intros [= H1 H2]. apply Hne'.
        replace h' with (height np + 1) in HT' by lia. replace k' with (k / 64) in HT' by lia. congruence.
  - intros i Hi. destruct (inv_items _ _ _ _ HI i Hi) as (? & ? & Hr). ands; try done.
    case_decide; [done|]. apply lookup_insert_is_Some. destruct (decide ((height np, k) = (1, pre 1 i))); auto.
  - intros r Hr. rewrite nodes_set_ne by (by intros ->). by apply (inv_pool _ _ _ _ HI).
Qed.

(** As the root of a tree that has a height but no nodes. *)
Lemma link_root T m g s p np :
  rt_inv T m g s → fresh T s p → nodes s !! p = Some np → zeroed np → height np = rheight (root s) →
  0 < rheight (root s) → T !! (rheight (root s), 0) = None →
  rt_inv (<[(rheight (root s), 0) := p]> T) m g (set_rnode (p + 1) s).
Proof.
  intros HI (Hp & HTp & Hfp) Hnp Hz Hhp H0 HTk. set (H := rheight (root s)) in *.
  assert (Hno : ∀ hk, T !! hk = None) by (intros hk; by apply (no_root _ _ _ _ HI)).
  pose proof (inv_H _ _ _ _ HI) as HH.
  destruct (nothing_below _ _ _ _ H 0 HI) as [Hc Ht]; [fold H; lia|done|].
  assert (Hm : ∀ i, m i = 0).
  { destruct (root_cases _ _ _ _ HI) as [(Hz0 & _)|[(_ & _ & _ & Hm)|(_ & q & n & _ & HT & _)]]; [fold H in Hz0; lia|done|].
    fold H in HT. congruence. }
  split; cbn [root set_rnode set_root rheight gfp_mask rnode]; try fold H; try apply HI.
  - unfold root_ptr. rewrite decide_False by lia. by rewrite lookup_insert_eq.
  - intros h' k' p' HT'. apply lookup_insert_Some in HT' as [([= <- <-] & <-)|[_ HT']]; [|by rewrite Hno in HT'].
    ands; try lia; done.
  - intros h' k' p' HT'. apply lookup_insert_Some in HT' as [([= <- <-] & <-)|[_ HT']]; [|by rewrite Hno in HT'].
    by rewrite decide_True.
  - intros hk hk' r H1 H2. apply lookup_insert_Some in H1 as [(<- & <-)|[_ H1]]; [|by rewrite Hno in H1].
    apply lookup_insert_Some in H2 as [(<- & H2)|[_ H2]]; [done|]. by rewrite Hno in H2.
  - intros h' k' p' HT'. apply lookup_insert_Some in HT' as [([= <- <-] & <-)|[_ HT']]; [|by rewrite Hno in HT'].
    exists np. split; [done|]. apply zeroed_ok; try done.
    intros o Ho. rewrite child_at_insert_ne by (intros [=]; lia). auto.
  - intros i Hi. by rewrite Hm in Hi.
Qed.

(** ** Writing an item *)

Definition mset m (i v : Z) : Z → Z := λ j, if decide (j = i) then v else m j.

Lemma mset_eq m i v : mset m i v i = v.
Proof. unfold mset. by rewrite decide_True. Qed.
Lemma mset_ne m i v j : j ≠ i → mset m i v j = m j.
Proof. intros. unfold mset. by rewrite decide_False. Qed.

(** In the slot of a bottom node. *)
Lemma set_item T m g s i p n v c :
  rt_inv T m g s → index_ok i → T !! (1, pre 1 i) = Some p → nodes s !! p = Some n →
  Z.even v = true → (v = 0 → ∀ tag, 0 ≤ tag < 2 → g tag i = false) →
  c = count n - null_cost (m i) + null_cost v →
  rt_inv T (mset m i v) g (set_node p (with_count c (put_slot (off 1 i) v n)) s).
Proof.
  intros HI Hi HT Hn Hv Hg Hc. destruct (inv_dom _ _ _ _ HI _ _ _ HT) as (Hh & _ & _ & Hfp).
  destruct (inv_node _ _ _ _ HI _ _ _ HT) as (n' & Hn' & Hok). simplify_eq.
  pose proof (off_range 1 i) as Ho. pose proof (pre_step 1 i ltac:(lia)) as Hst. rewrite pre_0 in Hst.
  split; cbn [root set_node]; try apply HI.
  - rewrite (inv_root _ _ _ _ HI). unfold root_ptr. rewrite !decide_False by lia. done.
  - intros h k q HTq. destruct (decide (q = p)) as [->|Hne].
    + pose proof (inv_inj _ _ _ _ HI _ _ _ HTq HT) as [= -> ->]. rewrite nodes_set_eq.
      eexists; split; [done|]. apply (node_ok_put T _ m); try done.
      * rewrite <- Hst. unfold child_at. by rewrite decide_True, mset_eq by done.
      * rewrite (nk_slots _ _ _ _ _ _ Hok), <- Hst by done. unfold child_at. by rewrite decide_True.
      * intros o' Ho' Hne. unfold child_at. rewrite !decide_True by done. apply mset_ne. lia.
    + rewrite nodes_set_ne by done. destruct (inv_node _ _ _ _ HI _ _ _ HTq) as (n' & Hn' & Hok').
      exists n'. split; [done|]. apply (node_ok_ext T T m _ g g); try done.
      intros o Ho'. unfold child_at. case_decide; [|done]. subst h. apply mset_ne. intros Heq.
      apply Hne. replace (pre 1 i) with k in HT by lia. congruence.
  - intros j Hj. destruct (decide (j = i)) as [->|Hne].
    + rewrite mset_eq. ands; try done. rewrite decide_False by lia. by eexists.
    + rewrite mset_ne in * by done. by apply (inv_items _ _ _ _ HI).
  - intros tag j Ht Htag. destruct (decide (j = i)) as [->|Hne].
    + rewrite mset_eq. intros Hz. rewrite Hg in Htag; done.
    + rewrite mset_ne by done. by eapply inv_tags.
  - intros r Hr. rewrite nodes_set_ne by (by intros ->). by apply (inv_pool _ _ _ _ HI).
Qed.

(** In the root of a tree of height 0. *)
Lemma set_root_item T m g s v :
  rt_inv T m g s → rheight (root s) = 0 → Z.even v = true →
  (v = 0 → ∀ tag, 0 ≤ tag < 2 → g tag 0 = false) →
  rt_inv T (mset m 0 v) g (set_rnode v s).
Proof.
  intros HI H0 Hv Hg.
  assert (Hno : ∀ hk p, T !! hk ≠ Some p).
  { intros [h k] p HT. destruct (inv_dom _ _ _ _ HI _ _ _ HT) as (Hh & _). lia. }
  split; cbn [root set_rnode set_root rheight gfp_mask rnode]; try apply HI.
  - unfold root_ptr. by rewrite decide_True, mset_eq.
  - intros h k p HT. by apply Hno in HT.
  - intros j Hj. rewrite decide_True by done. destruct (decide (j = 0)) as [->|Hne].
    + rewrite mset_eq. done.
    + rewrite mset_ne in * by done. destruct (inv_items _ _ _ _ HI j Hj) as (? & ? & Hz).
      by rewrite decide_True in Hz.
  - intros tag j Ht Htag. destruct (decide (j = 0)) as [->|Hne].
    + rewrite mset_eq. intros Hz. by rewrite Hg in Htag.
    + rewrite mset_ne by done. by eapply inv_tags.
Qed.

(** ** Growing the tree *)

Lemma set_rheight_empty T m g s h :
  rt_inv T m g s → rnode (root s) = 0 → 0 ≤ h ≤ 6 →
  rt_inv T m g (set_rheight h s) ∧ ∀ i, m i = 0.
Proof.
  intros HI Hr Hh.
  assert ((∀ hk p, T !! hk ≠ Some p) ∧ ∀ i, m i = 0) as [Hno Hm].
  { destruct (root_cases _ _ _ _ HI) as [(H0 & Hrm & _)|[(_ & _ & HT & Hm)|(_ & p & n & Hp & _ & [? _] & _)]]; [| |lia].
    - split.
      + intros [h' k] p HT. destruct (inv_dom _ _ _ _ HI _ _ _ HT) as (? & _). lia.
      + intros i. destruct (decide (m i = 0)) as [|Hi]; [done|].
        destruct (inv_items _ _ _ _ HI i Hi) as (_ & _ & Hz). rewrite decide_True in Hz by done. congruence.
    - split; [|done]. intros hk p Hp. rewrite (no_root _ _ _ _ HI hk HT) in Hp. done. }
  split; [|done]. split; cbn [root set_rheight set_root rheight gfp_mask rnode]; try apply HI; try done.
  - unfold root_ptr. case_decide; [by rewrite Hm|].
    destruct (T !! (h, 0)) eqn:E; [by apply Hno in E|done].
  - intros h' k p HT. by apply Hno in HT.
  - intros h' k p HT. by apply Hno in HT.
  - intros i Hi. by rewrite Hm in Hi.
Qed.

(** The node put above the root: its first slot is the old root, its first tags those of
    the root. *)
Record above_root s (n : radix_tree_node) : Prop := {
  ab_height : height n = rheight (root s) + 1;
  ab_count : count n = 1;
  ab_len : alen (slots n) = 64;
  ab_tags : tags_wf n;
  ab_slots : ∀ o, slot_at n o = if decide (o = 0) then radix_tree_indirect_to_ptr (rnode (root s)) else 0;
  ab_bits : ∀ tag o, 0 ≤ tag < 2 → 0 ≤ o → node_bit n tag o = (o =? 0) && root_tag_get s tag }.

Lemma root_child T m g s :
  rt_inv T m g s → rnode (root s) ≠ 0 →
  radix_tree_indirect_to_ptr (rnode (root s)) ≠ 0 ∧
  ∀ o, 0 ≤ o → child_at T m (rheight (root s) + 1) o =
    if decide (o = 0) then radix_tree_indirect_to_ptr (rnode (root s)) else 0.
Proof.
  intros HI Hr. pose proof (inv_H _ _ _ _ HI) as HH. unfold child_at.
  destruct (root_cases _ _ _ _ HI) as [(H0 & Hrm & Hev)|[(_ & ? & _)|(H0 & p & n & -> & HT & [Hp Hev] & _)]]; [|done|].
  - rewrite Hrm, indirect_to_ptr_even by done. split; [congruence|]. intros o Ho. rewrite decide_True by lia.
    case_decide as Hd; [by subst|]. destruct (decide (m o = 0)) as [|Hm]; [done|].
    destruct (inv_items _ _ _ _ HI o Hm) as (_ & _ & Hz). rewrite decide_True in Hz by done. done.
  - rewrite indirect_to_ptr_odd by done. split; [lia|]. intros o Ho.
    rewrite decide_False, Z.add_simpl_r by lia. case_decide as Hd; [by subst; rewrite HT|].
    destruct (T !! (rheight (root s), o)) as [q|] eqn:E; [|done].
    pose proof (inv_up _ _ _ _ HI _ _ _ E) as Hu. rewrite decide_True in Hu by done. done.
Qed.

Lemma link_above T m g s p n :
  rt_inv T m g s → fresh T s p → nodes s !! p = Some n → above_root s n →
  rnode (root s) ≠ 0 → rheight (root s) < 6 →
  rt_inv (<[(rheight (root s) + 1, 0) := p]> T) m g
    (set_rheight (rheight (root s) + 1) (set_rnode (p + 1) s)).
Proof.
  intros HI (Hp & HTp & Hfp) Hn Hab Hr H6. pose proof (inv_H _ _ _ _ HI) as HH.
  destruct (root_child _ _ _ _ HI Hr) as [Hptr Hc]. set (H := rheight (root s)) in *.
  assert (Hlt : ∀ h k q, T !! (h, k) = Some q → h ≤ H) by (intros h k q HT; apply (inv_dom _ _ _ _ HI) in HT as (? & _); lia).
  assert (Hne : ∀ h k q, T !! (h, k) = Some q → (H + 1, 0) ≠ (h, k)).
  { intros h k q HT [=]. apply Hlt in HT. lia. }
  split; cbn [root set_rheight set_rnode set_root rheight gfp_mask rnode]; try apply HI.
  - lia.
  - unfold root_ptr. rewrite decide_False by lia. by rewrite lookup_insert_eq.
  - intros h k q HT. apply lookup_insert_Some in HT as [([= <- <-] & <-)|[_ HT]]; [ands; try lia; done|].
    destruct (inv_dom _ _ _ _ HI _ _ _ HT) as (? & ? & ? & ?). ands; try lia; done.
  - intros h k q HT. apply lookup_insert_Some in HT as [([= <- <-] & <-)|[_ HT]]; [by rewrite decide_True|].
    pose proof (Hlt _ _ _ HT). rewrite decide_False by lia.
    pose proof (inv_up _ _ _ _ HI _ _ _ HT) as Hu. fold H in Hu. case_decide.
    + subst. rewrite Z.div_0_l, lookup_insert_eq by lia. by eexists.
    + destruct Hu as [r Hu]. rewrite lookup_insert_ne by (by eapply Hne). by eexists.
  - intros hk hk' r H1 H2. apply lookup_insert_Some in H1 as [(<- & <-)|[_ H1]];
      apply lookup_insert_Some in H2 as [(<- & H2)|[_ H2]]; simplify_eq; try done.
    + by apply HTp in H2.
    + by apply HTp in H1.
    + by apply (inv_inj _ _ _ _ HI hk hk' r).
  - intros h k q HT. apply lookup_insert_Some in HT as [([= <- <-] & <-)|[_ HT]].
    + exists n. split; [done|]. split; [apply Hab| | |].
      * split; [apply Hab| |apply Hab]. rewrite (ab_count _ _ Hab).
        assert (Hz : used (slots (put_slot 0 0 n)) = 0).
        { apply used_zero_iff; [unfold put_slot; cbn; rewrite alen_insert; apply Hab|]. intros o.
          rewrite slot_at_put, (ab_slots _ _ Hab) by (apply Hab || lia). by repeat case_decide. }
        rewrite used_put in Hz by (apply Hab || lia).
        rewrite (ab_slots _ _ Hab), (decide_True (P := 0 = 0)) in Hz by done.
        rewrite (decide_True (P := 0 = 0)), decide_False in Hz by congruence. lia.
      * intros o Ho. rewrite child_at_insert_ne, (ab_slots _ _ Hab) by (intros [=]; lia).
        rewrite Hc by lia. done.
      * intros tag o Ht Ho. rewrite (ab_bits _ _ Hab), Z.add_simpl_r by lia.
        rewrite andb_true_iff, Z.eqb_eq, (inv_rtags _ _ _ _ HI) by done. split.
        -- intros [-> [i Hi]]. pose proof (inv_tags _ _ _ _ HI _ _ Ht Hi) as Hm. exists i.
           destruct (inv_items _ _ _ _ HI i Hm) as ([? _] & _). ands; try done. by apply (item_pre _ _ _ _ HI).
        -- intros (i & Hi & Hpre & Hg). split; [|by exists i].
           transitivity (pre H i); [lia|]. apply (item_pre _ _ _ _ HI). by eapply inv_tags.
    + destruct (inv_node _ _ _ _ HI _ _ _ HT) as (n' & Hn' & Hok'). exists n'. split; [done|].
      apply (node_ok_ext T _ m m g g); try done. intros o Ho. apply child_at_insert_ne.
      intros [=]. apply Hlt in HT. lia.
  - intros i Hi. rewrite decide_False by lia. destruct (inv_items _ _ _ _ HI i Hi) as (Hix & Hev & Hz).
    ands; try done. fold H in Hz. case_decide as Hd.
    + subst i. rewrite Hd. by rewrite lookup_insert_eq.
    + destruct Hz as [r Hz]. rewrite lookup_insert_ne by (by eapply Hne). by eexists.
Qed.

(** ** Allocation *)

(** Preloaded nodes for [k] allocations that do not sleep. *)
Definition enough (k : Z) s : Prop :=
  k ≤ alen (preloads s) ∧ ctrue (Z.land (root_gfp_mask s) __GFP_WAIT) = false.

Definition zeroed_fresh T s (p : Z) : Prop := fresh T s p ∧ ∃ n, nodes s !! p = Some n ∧ zeroed n.

(** Taking a node out of the pools. *)
Lemma inv_take T m g s s' p :
  rt_inv T m g s → pooled s p → root s' = root s → nodes s' = nodes s →
  (∀ q, pooled s' q ↔ pooled s q ∧ q ≠ p) →
  NoDup (preloads s') → alen (preloads s') ≤ RADIX_TREE_MAX_PATH → (∀ q, q ∈ free s' → q ∉ preloads s') →
  rt_inv T m g s' ∧ zeroed_fresh T s' p.
Proof.
  intros HI Hp Hr Hn Hq Hnd Hlen Hdis. destruct (inv_pool _ _ _ _ HI p Hp) as (Hg & n & Hnp & Hz). split.
  - split; rewrite ?Hr, ?Hn; try apply HI; try done.
    + intros h k q HT. destruct (inv_dom _ _ _ _ HI h k q HT) as (? & ? & ? & Hnp'). ands; try done; try lia. rewrite Hq. tauto.
    + intros tag Ht. pose proof (inv_rtags _ _ _ _ HI tag Ht) as Hrt. unfold root_tag_get in *. by rewrite Hr.
    + intros q Hpq. apply Hq in Hpq as [Hpq _]. by apply (inv_pool _ _ _ _ HI).
  - split; [|rewrite Hn; eauto]. split; [done|]. split; [|rewrite Hq; tauto].
    intros [h k] HT. by apply (inv_dom _ _ _ _ HI) in HT as (_ & _ & _ & []).
Qed.

Lemma last_split {A} (l : list A) p : list.last l = Some p → l = removelast l ++ [p].
Proof.
  intros Hl. destruct l as [|x l] using rev_ind; [done|]. rewrite last_snoc in Hl. simplify_eq.
  by rewrite removelast_last.
Qed.

(** ** Nodes on the way to an index *)

(** Every node of the tree has an item below it or is on the path of [i], and every node of
    the heap is in the tree or in a pool. *)
Definition growing T m (i : Z) s : Prop :=
  owned T s ∧ ∀ h k p, T !! (h, k) = Some p → (∃ j, m j ≠ 0 ∧ pre h j = k) ∨ pre h i = k.

(** The height is needed for an item or for [i]. *)
Definition tall_for m (i H : Z) : Prop := 0 < H → ∃ j, (m j ≠ 0 ∨ j = i) ∧ pre (H - 1) j ≠ 0.

Lemma compact_growing T m i s : compact T m s → growing T m i s ∧ tall_for m i (rheight (root s)).
Proof.
  intros [Hf Hl Ho]. split; [split; [done|]|].
  - intros h k p HT. left. by eapply Hf.
  - intros H0. destruct (Hl H0) as (j & ? & ?). exists j. auto.
Qed.

Lemma growing_compact T m m' i s s' :
  growing T m i s → tall_for m i (rheight (root s)) → (∀ j, m j ≠ 0 → m' j ≠ 0) → m' i ≠ 0 →
  rheight (root s') = rheight (root s) → (owned T s → owned T s') → compact T m' s'.
Proof.
  intros [Ho Hg] Ht Hm Hi Hh Ho'. split.
  - intros h k p HT. destruct (Hg _ _ _ HT) as [(j & ? & ?)|?]; [exists j; split; [by apply Hm|done]|by exists i].
  - rewrite Hh. intros H0. destruct (Ht H0) as (j & [?| ->] & ?); [exists j; split; [by apply Hm|done]|by exists i].
  - exact (Ho' Ho).
Qed.

(** A node from the pools is linked. *)
Lemma growing_link T m i s s1 s' h k p :
  growing T m i s → (∀ q, pooled s q → q = p ∨ pooled s1 q) → (∀ q, pooled s1 q → pooled s' q) →
  (∀ q, is_Some (nodes s' !! q) → is_Some (nodes s !! q)) → T !! (h, k) = None →
  (∃ j, m j ≠ 0 ∧ pre h j = k) ∨ pre h i = k → growing (<[(h, k) := p]> T) m i s'.
Proof.
  intros [Ho Hg] Hp Hp1 Hn HT Hk. split.
  - intros q Hq. destruct (Ho q (Hn q Hq)) as [[->|?]%Hp|[hk Hhk]]; [right|left; auto|right].
    + exists (h, k). apply lookup_insert_eq.
    + exists hk. rewrite lookup_insert_ne; [done|]. by intros <-; rewrite HT in Hhk.
  - intros h' k' q HT'. apply lookup_insert_Some in HT' as [([= <- <-] & _)|[_ HT']]; [done|]. by eapply Hg.
Qed.

(** What the tree relies on from the slab cache: an allocation is a free object. *)
Class Slab (kmem_cache_alloc : rt_state → option Z) : Prop :=
  slab_free : ∀ s p, kmem_cache_alloc s = Some p → p ∈ free s.

Section Insert.
Context (kmem_cache_alloc : rt_state → option Z) `{Hslab : !Slab kmem_cache_alloc}.

Lemma take_free_ok T m g s p :
  rt_inv T m g s → p ∈ free s → rt_inv T m g (take_free s p) ∧ zeroed_fresh T (take_free s p) p.
Proof.
  intros HI Hp. destruct (inv_preloads _ _ _ _ HI) as (Hnd & Hlen & Hdis).
  apply (inv_take T m g s); try done; [by left| |].
  - intros q. unfold pooled. cbn. rewrite elem_of_difference, elem_of_singleton.
    split; [|naive_solver]. intros [[Hq Hne]|Hq]; [by auto|]. split; [by right|].
    intros ->. by apply (Hdis p).
  - cbn. set_solver.
Qed.

Lemma alloc_ok T m g s :
  rt_inv T m g s →
  ∃ s' p, radix_tree_node_alloc kmem_cache_alloc s = Some (s', p) ∧ root s' = root s ∧ nodes s' = nodes s ∧
    rt_inv T m g s' ∧ (p = 0 ∨ zeroed_fresh T s' p) ∧ (∀ q, pooled s q → q = p ∨ pooled s' q) ∧
    (∀ k, 0 < k → enough k s → p ≠ 0 ∧ enough (k - 1) s').
Proof.
  intros HI. unfold radix_tree_node_alloc.
  assert (Hsl : ∃ s' p, match kmem_cache_alloc s with Some p => Some (take_free s p, p) | None => Some (s, 0) end
      = Some (s', p) ∧ root s' = root s ∧ nodes s' = nodes s ∧ rt_inv T m g s' ∧ (p = 0 ∨ zeroed_fresh T s' p) ∧
      ∀ q, pooled s q → q = p ∨ pooled s' q).
  { destruct (kmem_cache_alloc s) as [p|] eqn:Ek.
    - destruct (take_free_ok T m g s p HI (slab_free _ _ Ek)) as [HI' Hf].
      exists (take_free s p), p. ands; auto. intros q. unfold pooled. cbn. set_unfold. destruct (decide (q = p)); naive_solver.
    - exists s, 0. ands; auto. }
  assert (Hbug : ∀ s' p, p = 0 ∨ zeroed_fresh T s' p → radix_tree_is_indirect_ptr p = false).
  { intros s' p [->|(((_ & Hev) & _) & _)]; [done|]. by apply indirect_even. }
  destruct (ctrue (Z.land (root_gfp_mask s) __GFP_WAIT)) eqn:Ew; cbn [negb].
  2: destruct (list.last (preloads s)) as [p|] eqn:El.
  1,3: cbn [mbind option_bind]; destruct Hsl as (s' & p & E & Hr & Hn & HI' & Hp & Hpl); cbn [Z.eqb]; rewrite E;
    cbn [mbind option_bind]; rewrite (Hbug s' p Hp); exists s', p; ands; try done; intros k Hk [Hlen Hw].
  - congruence.
  - apply last_None in El. rewrite El in Hlen. unfold alen in Hlen. simpl in Hlen. lia.
  - cbn [mbind option_bind]. pose proof (last_split _ _ El) as Hsnoc.
    destruct (inv_preloads _ _ _ _ HI) as (Hnd & Hlen & Hdis).
    assert (Hin : p ∈ preloads s) by (rewrite Hsnoc; set_solver).
    rewrite Hsnoc in Hnd. apply list.NoDup_app in Hnd as (Hnd & Hout & _).
    destruct (inv_take T m g s (RState (root s) (nodes s) (free s) (removelast (preloads s))) p HI)
      as [HI' Hf]; try done.
    + by right.
    + intros q. unfold pooled. cbn. rewrite Hsnoc at 2. rewrite elem_of_app, list_elem_of_singleton.
      split; [|naive_solver]. intros [Hq|Hq]; split; auto; intros ->; [by apply (Hdis p)|].
      apply (Hout p); [done|set_solver].
    + cbn. rewrite Hsnoc, alen_app in Hlen. unfold alen in *. simpl in *. lia.
    + intros q Hq. specialize (Hdis q Hq). rewrite Hsnoc in Hdis. cbn. set_solver.
    + assert (Hp0 : p ≠ 0) by (destruct Hf as (((? & _) & _) & _); lia).
      destruct (Z.eqb_spec p 0); [done|]. cbn [mbind option_bind]. rewrite (Hbug _ _ (or_intror Hf)).
      eexists _, p. split; [done|]. ands; try done; [by right| |].
      { intros q. unfold pooled. cbn. rewrite Hsnoc at 1. rewrite elem_of_app, list_elem_of_singleton. tauto. }
      intros k Hk [Hl Hw]. split; [done|]. split; [|done]. cbn.
      rewrite Hsnoc, alen_app in Hl. change (alen [p]) with 1 in Hl. lia.
Qed.
(** *** Extending *)

Lemma extend_tags_ok s p n :
  tags_wf n → (∀ tag o, 0 ≤ o → node_bit n tag o = false) →
  ∃ n', for_up 0 RADIX_TREE_MAX_TAGS (λ tag s, if root_tag_get s tag then tag_set s p tag 0 else Some s)
      (set_node p n s) = Some (set_node p n' s) ∧
    retagged n n' (λ tag o, bool_decide (0 ≤ tag < 2) && ((o =? 0) && root_tag_get s tag)).
Proof.
  intros Hwf Hb.
  destruct (for_up_rule (λ t s', ∃ n', s' = set_node p n' s ∧
      retagged n n' (λ tag o, bool_decide (0 ≤ tag < t) && ((o =? 0) && root_tag_get s tag)))
    0 RADIX_TREE_MAX_TAGS (λ tag s, if root_tag_get s tag then tag_set s p tag 0 else Some s) (set_node p n s))
    as (s' & -> & n' & -> & Hn').
  - done.
  - exists n. split; [done|]. split; try done. intros t o Ho. rewrite Hb by done.
    rewrite bool_decide_eq_false_2 by lia. done.
  - intros tag s' Ht (n' & -> & Hn'). unfold RADIX_TREE_MAX_TAGS in Ht.
    change (root_tag_get (set_node p n' s) tag) with (root_tag_get s tag).
    destruct (root_tag_get s tag) eqn:Er.
    + destruct (node_tag_set_ok n' tag 0) as (n'' & E & Hn''); [apply Hn'|lia|lia|].
      exists (set_node p n'' s). split; [by apply upd_node_again|]. exists n''. split; [done|].
      destruct Hn' as [? ? ? ? Hb1], Hn'' as [? ? ? ? Hb2]. split; [congruence..|done|].
      intros t o Ho. rewrite Hb2 by done. case_decide; [subst t|]; rewrite Hb1 by done.
      * rewrite Er, (bool_decide_eq_true_2 (0 ≤ tag < tag + 1)) by lia.
        rewrite bool_decide_eq_false_2 by lia. destruct (o =? 0); done.
      * f_equal. apply bool_decide_ext. lia.
    + eexists; split; [done|]. exists n'. split; [done|]. destruct Hn' as [? ? ? ? Hb1]. split; try done.
      intros t o Ho. rewrite Hb1 by done. destruct (decide (t = tag)) as [->|].
      * rewrite Er, andb_false_r, !andb_false_r. done.
      * f_equal. apply bool_decide_ext. lia.
  - exists n'. done.
Qed.

Lemma extend_step_ok T m g s :
  rt_inv T m g s → rnode (root s) ≠ 0 → rheight (root s) < 6 →
  ∃ T' s' e, extend_step kmem_cache_alloc s = Some (s', e) ∧ rt_inv T' m g s' ∧
    gfp_mask (root s') = gfp_mask (root s) ∧
    (e = - ENOMEM ∧ root s' = root s ∨ e = 0 ∧ rheight (root s') = rheight (root s) + 1 ∧ rnode (root s') ≠ 0 ∧
      ∀ i, (∃ j, m j ≠ 0) → growing T m i s → growing T' m i s') ∧
    (∀ k, 0 < k → enough k s → e = 0 ∧ enough (k - 1) s').
Proof.
  intros HI Hr H6. unfold extend_step.
  destruct (alloc_ok T m g s HI) as (s1 & p & -> & Hr1 & Hn1 & HI1 & Hp & Hpl & Hen). cbn [mbind option_bind].
  destruct (Z.eqb_spec p 0) as [->|Hp0].
  { exists T, s1, (- ENOMEM). ands; try done; [congruence|by left|]. intros k Hk Hek.
    by destruct (Hen k Hk Hek). }
  destruct Hp as [?|[Hf (n & Hn & Hz)]]; [done|]. assert (Hl : alen (slots n) = 64) by apply Hz.
  rewrite (upd_node_ok s1 p _ n _ Hn (set_slot_put 0 _ n Hl ltac:(lia))). cbn [mbind option_bind].
  destruct (extend_tags_ok s1 p (put_slot 0 (radix_tree_indirect_to_ptr (rnode (root s1))) n))
    as (n' & -> & [Hh' Hc' Hs' Hw' Hb']); [apply Hz|apply Hz|].
  cbn [mbind option_bind]. erewrite upd_node_again by done. cbn [mbind option_bind set_node root]. rewrite ptr_to_indirect_even by apply Hf. rewrite Hr1.
  set (n2 := with_count 1 _). set (s2 := set_node p n2 s1).
  assert (HI2 : rt_inv T m g s2) by by apply inv_set_fresh.
  exists (<[(rheight (root s2) + 1, 0) := p]> T), (set_rheight (rheight (root s2) + 1) (set_rnode (p + 1) s2)), 0.
  rewrite <- Hr1 in Hr, H6 |- *. split; [done|]. split; [|ands; try done].
  - apply (link_above T m g s2 p n2); try done; [apply nodes_set_eq|]. split; try done.
    + subst n2 s2. cbn. by rewrite Hr1.
    + subst n2. cbn [with_count with_height slots]. rewrite Hs'. unfold put_slot. cbn. by rewrite alen_insert.
    + intros o. subst n2. unfold slot_at. cbn [with_count with_height slots]. rewrite Hs'.
      change (slot_at (put_slot 0 (radix_tree_indirect_to_ptr (rnode (root s1))) n) o =
        if decide (o = 0) then radix_tree_indirect_to_ptr (rnode (root s1)) else 0).
      rewrite slot_at_put by (done || lia). case_decide; [done|apply Hz].
    + intros tag o Ht Ho. change (node_bit n2 tag o) with (node_bit n' tag o). rewrite Hb' by done.
      by rewrite bool_decide_eq_true_2 by done.
  - right. ands; try done; [cbn; destruct Hf as ((? & _) & _); lia|]. intros i [j Hj] Hg.
    apply (growing_link T m i s s1); try done.
    + intros q Hq. rewrite <- Hn1. eapply (set_node_dom p n2); [by eexists|done].
    + destruct (T !! (rheight (root s2) + 1, 0)) as [q|] eqn:E; [|done].
      destruct (inv_dom _ _ _ _ HI2 _ _ _ E) as (? & _). lia.
    + left. exists j. split; [done|]. destruct (inv_items _ _ _ _ HI j Hj) as ([? _] & _). pose proof (inv_H _ _ _ _ HI).
      apply (pre_zero_le (rheight (root s))); [subst s2; cbn; rewrite Hr1; lia|done|by apply (item_pre _ _ _ _ HI)].
  - intros k Hk Hek. split; [done|]. destruct (Hen k Hk Hek) as [_ [He1 He2]]. by split.
Qed.
Lemma extend_height_ok i h :
  0 ≤ h ≤ 6 → index_ok i → pre (h - 1) i ≠ 0 →
  ∃ h', extend_height i h = Some h' ∧ h ≤ h' ≤ 6 ∧ pre h' i = 0 ∧ pre (h' - 1) i ≠ 0.
Proof.
  intros Hh Hi Hne. unfold extend_height.
  apply (loop_rule_idx (λ k h1, k = Z.to_nat (6 - h1) ∧ h ≤ h1 ≤ 6 ∧ pre (h1 - 1) i ≠ 0) _ _ (Z.to_nat (6 - h))); [|split; [done|]; split; [lia|done]|lia].
  intros k h1 (-> & Hh1 & Hne1). destruct (radix_tree_maxindex_ok h1 i) as (mx & -> & Hmx & _); [lia|done|].
  cbn [mbind option_bind]. destruct (i >? mx) eqn:E; (eexists; split; [done|]); cbn.
  - assert (h1 ≠ 6). { intros ->. destruct Hmx as [_ Hmx]. by specialize (Hmx (pre_6 _ Hi)). }
    exists (Z.to_nat (6 - (h1 + 1))). rewrite Z.add_simpl_r. ands; lia.
  - ands; lia.
Qed.

(** A compact tree that is not empty has an item. *)
Lemma compact_item T m g s : rt_inv T m g s → rnode (root s) ≠ 0 → compact T m s → ∃ j, m j ≠ 0.
Proof.
  intros HI Hr Hc. destruct (root_cases _ _ _ _ HI) as [(_ & E & _)|[(_ & ? & _)|(_ & p & n & _ & HT & _)]].
  - exists 0. congruence.
  - done.
  - destruct (cp_full _ _ _ Hc _ _ _ HT) as (j & ? & _). by exists j.
Qed.

Lemma extend_ok T m g s i :
  rt_inv T m g s → index_ok i → pre (rheight (root s)) i ≠ 0 →
  ∃ T' s' e, radix_tree_extend kmem_cache_alloc s i = Some (s', e) ∧ rt_inv T' m g s' ∧
    (e = - ENOMEM ∨ e = 0 ∧ pre (rheight (root s')) i = 0 ∧
      (compact T m s → growing T' m i s' ∧ tall_for m i (rheight (root s')))) ∧
    (rnode (root s) = 0 → e = 0 ∧ ∀ k, enough k s → enough k s').
Proof.
  intros HI Hi Hpre. pose proof (inv_H _ _ _ _ HI) as HH. unfold radix_tree_extend.
  assert (rheight (root s) < 6).
  { destruct (decide (rheight (root s) = 6)) as [E|]; [|lia]. by rewrite E, pre_6 in Hpre. }
  destruct (extend_height_ok i (rheight (root s) + 1)) as (h & -> & Hh & Hp0 & Hne); [lia|done|by rewrite Z.add_simpl_r|]. cbn [mbind option_bind].
  assert (Htall : tall_for m i h) by (intros _; exists i; auto).
  destruct (Z.eqb_spec (rnode (root s)) 0) as [Er|Er].
  { destruct (set_rheight_empty T m g s h HI Er ltac:(lia)) as [HI' _].
    exists T, (set_rheight h s), 0. ands; try done. right. ands; try done. intros Hc. split; [|done].
    by destruct (compact_growing T m i s Hc) as [[? ?] _]. }
  match goal with |- ∃ T' s' e, loop ?f ?st ?x = _ ∧ _ =>
    assert (∃ r, loop f st x = Some r ∧ ∃ T', rt_inv T' m g r.1 ∧
      (r.2 = - ENOMEM ∨ r.2 = 0 ∧ pre (rheight (root r.1)) i = 0 ∧
        (compact T m s → growing T' m i r.1 ∧ tall_for m i (rheight (root r.1))))) as ([s' e] & -> & T' & HI' & He) end.
  2:{ exists T', s', e. done. }
  apply (loop_rule_idx (λ k s1, ∃ T1, rt_inv T1 m g s1 ∧ rnode (root s1) ≠ 0 ∧
    rheight (root s1) < h ∧ (compact T m s → growing T1 m i s1) ∧ k = Z.to_nat (h - rheight (root s1)))
    _ _ (Z.to_nat (h - rheight (root s)))).
  - intros k s1 (T1 & HI1 & Hr1 & Hh1 & Hg1 & ->).
    destruct (extend_step_ok T1 m g s1 HI1 Hr1 ltac:(lia)) as (T2 & s2 & e & -> & HI2 & _ & He & _).
    cbn [mbind option_bind]. destruct He as [[-> Hr2]|(-> & Hh2 & Hr2 & Hg2)].
    + eexists; split; [done|]. cbn. exists T2. split; [done|]. by left.
    + assert (Hg : compact T m s → growing T2 m i s2).
      { intros Hc. apply Hg2; [|auto]. by apply (compact_item T m g s). }
      cbn [ctrue Z.eqb negb]. destruct (Z.gtb_spec h (rheight (root s2))); (eexists; split; [done|]); cbn.
      * exists (Z.to_nat (h - rheight (root s2))). split; [lia|]. exists T2. by ands.
      * exists T2. split; [done|]. right. replace (rheight (root s2)) with h by lia. ands; auto.
  - exists T. ands; try done; [lia|]. intros Hc. by apply (compact_growing T m i s).
  - change (Z.to_nat RADIX_TREE_MAX_PATH) with 6%nat. lia.
Qed.

(** *** The way down *)

Definition at_cursor T m s (i : Z) (c : cursor) : Prop :=
  0 ≤ c_height c ≤ rheight (root s) ∧ c_shift c = (c_height c - 1) * RADIX_TREE_MAP_SHIFT ∧
  c_slot c = child_at T m (c_height c + 1) (pre (c_height c) i) ∧
  (c_height c = rheight (root s) ∧ c_node c = 0 ∨
   c_height c < rheight (root s) ∧ c_offset c = off (c_height c + 1) i ∧
   T !! (c_height c + 1, pre (c_height c + 1) i) = Some (c_node c)).

Lemma add_child_ok T m g s i c :
  rt_inv T m g s → index_ok i → at_cursor T m s i c → c_slot c = 0 → 0 < c_height c →
  pre (rheight (root s)) i = 0 →
  ∃ T' s' p, add_child kmem_cache_alloc s (c_node c) (c_offset c) (c_height c) = Some (s', p) ∧
    rt_inv T' m g s' ∧ rheight (root s') = rheight (root s) ∧
    (p ≠ 0 → T' !! (c_height c, pre (c_height c) i) = Some p ∧ (growing T m i s → growing T' m i s')) ∧
    (∀ k, 0 < k → enough k s → p ≠ 0 ∧ enough (k - 1) s').
Proof.
  intros HI Hi (Hh & _ & Hslot & Hnode) H0 Hpos Hpre. unfold add_child. destruct c as [node slot offset shift h].
  cbn [c_node c_slot c_offset c_shift c_height] in *. subst slot.
  assert (HT0 : T !! (h, pre h i) = None).
  { unfold child_at in H0. rewrite decide_False, Z.add_simpl_r in H0 by lia.
    destruct (T !! (h, pre h i)) as [q|] eqn:E; [|done]. destruct (inv_dom _ _ _ _ HI _ _ _ E) as (_ & _ & [? _] & _).
    cbn in H0. lia. }
  destruct (alloc_ok T m g s HI) as (s1 & p & -> & Hr1 & Hn1 & HI1 & Hp & Hpl & Hen). cbn [mbind option_bind].
  destruct (Z.eqb_spec p 0) as [->|Hp0].
  { exists T, s1, 0. ands; try done. congruence. }
  destruct Hp as [?|[Hf (n & Hn & Hz)]]; [done|].
  erewrite (upd_node_ok s1 p _ n) by done. cbn [mbind option_bind].
  set (n1 := with_height h n). set (s2 := set_node p n1 s1).
  assert (HI2 : rt_inv T m g s2) by by apply inv_set_fresh.
  assert (Hz1 : zeroed n1) by by apply zeroed_height.
  destruct Hnode as [[-> ->]|(Hlt & -> & HTn)].
  - rewrite Hpre in *. cbn [ctrue Z.eqb negb mbind option_bind]. rewrite ptr_to_indirect_even by apply Hf.
    exists (<[(rheight (root s2), 0) := p]> T), (set_rnode (p + 1) s2), p. split; [done|].
    assert (HrH : rheight (root s2) = rheight (root s)) by (cbn; by rewrite Hr1). split; [|ands].
    + apply (link_root T m g s2 p n1); rewrite ?HrH; try done. apply nodes_set_eq.
    + done.
    + intros _. rewrite HrH, lookup_insert_eq. split; [done|]. intros Hg.
      apply (growing_link T m i s s1); try done; [|by right].
      intros q Hq. rewrite <- Hn1. eapply (set_node_dom p n1); [by eexists|done].
    + intros k Hk Hek. destruct (Hen k Hk Hek) as [? []]. by split.
  - destruct (inv_dom _ _ _ _ HI _ _ _ HTn) as (_ & _ & [Hq _] & _).
    destruct (inv_node _ _ _ _ HI2 _ _ _ HTn) as (nq & Hnq & Hokq).
    assert (ctrue node = true) as -> by (apply ctrue_true; lia).
    pose proof (off_range (h + 1) i) as Ho.
    rewrite (upd_node_ok s2 node _ nq _ Hnq (set_slot_put _ _ nq ltac:(apply Hokq) Ho)). cbn [mbind option_bind].
    erewrite upd_node_again by done. cbn [mbind option_bind].
    pose proof (pre_nonneg h i ltac:(unfold index_ok in Hi; lia)) as Hk.
    eexists (<[(h, pre h i) := p]> T), _, p. split; [done|]. split; [|ands].
    + unfold off. rewrite Z.add_simpl_r. change (count (put_slot (pre h i mod 64) p nq)) with (count nq).
      apply (link_child T m g s2 h (pre h i) p node n1 nq); try done; [apply nodes_set_eq|by rewrite <- pre_succ by lia|lia].
    + cbn. by rewrite Hr1.
    + intros _. rewrite lookup_insert_eq. split; [done|]. intros Hg.
      apply (growing_link T m i s s1); try done; [|by right].
      intros r Hnr. rewrite <- Hn1. eapply (set_node_dom p n1); [by eexists|]. fold s2.
      eapply set_node_dom; [|done]. by eexists.
    + intros k Hkk Hek. destruct (Hen k Hkk Hek) as [? []]. by split.
Qed.
Lemma cursor_slot_none T m g s i c :
  rt_inv T m g s → at_cursor T m s i c → c_slot c = 0 → pre (rheight (root s)) i = 0 →
  m i = 0.
Proof.
  intros HI (Hh & _ & Hslot & Hnode) H0 Hpre. rewrite H0 in Hslot. symmetry in Hslot.
  destruct (decide (c_height c = 0)) as [E|E].
  - rewrite E in Hslot. unfold child_at in Hslot. rewrite decide_True, pre_0 in Hslot by done. done.
  - unfold child_at in Hslot. rewrite decide_False, Z.add_simpl_r in Hslot by lia.
    destruct (T !! _) as [q|] eqn:Eq; [|apply (path_none _ _ _ _ HI _ _ Eq); lia].
    destruct (inv_dom _ _ _ _ HI _ _ _ Eq) as (_ & _ & [? _] & _). cbn in Hslot. lia.
Qed.

Lemma descend_ok T m g s i c :
  rt_inv T m g s → index_ok i → at_cursor T m s i c → pre (rheight (root s)) i = 0 →
  ∃ T' s' r, insert_descend kmem_cache_alloc s i c = Some (s', r) ∧ rt_inv T' m g s' ∧
    rheight (root s') = rheight (root s) ∧
    match r with
    | None => m i = 0
    | Some c' => at_cursor T' m s' i c' ∧ c_height c' = 0 ∧ (growing T m i s → growing T' m i s')
    end ∧
    (enough (c_height c) s → r ≠ None).
Proof.
  intros HI Hi Hc Hpre. unfold insert_descend.
  match goal with |- ∃ T' s' r, loop ?f ?st ?x = _ ∧ _ =>
    assert (∃ r, loop f st x = Some r ∧ ∃ T', rt_inv T' m g r.1 ∧ rheight (root r.1) = rheight (root s) ∧
      match r.2 with
      | None => m i = 0
      | Some c' => at_cursor T' m r.1 i c' ∧ c_height c' = 0 ∧ (growing T m i s → growing T' m i r.1)
      end ∧
      (enough (c_height c) s → r.2 ≠ None)) as ([s' r] & -> & T' & ?) end.
  2:{ by exists T', s', r. }
  apply (loop_rule_idx (λ k '(s1, c1), k = Z.to_nat (c_height c1) ∧ ∃ T1, rt_inv T1 m g s1 ∧
    rheight (root s1) = rheight (root s) ∧ at_cursor T1 m s1 i c1 ∧ (growing T m i s → growing T1 m i s1) ∧
    (enough (c_height c) s → enough (c_height c1) s1)) _ _ (Z.to_nat (c_height c))); [| |lia].
  2:{ split; [done|]. by exists T. }
  intros k [s1 c1] (-> & T1 & HI1 & Hh1 & Hc1 & Hg1 & Hen). pose proof Hc1 as (Hh & Hshift & Hslot & _).
  rewrite <- Hh1 in Hpre. destruct (Z.gtb_spec (c_height c1) 0).
  2:{ eexists; split; [done|]. cbn. exists T1. ands; try done. lia. }
  assert (∃ T2 s2 p,
    (if c_slot c1 =? 0 then add_child kmem_cache_alloc s1 (c_node c1) (c_offset c1) (c_height c1)
     else Some (s1, c_slot c1)) = Some (s2, p) ∧
    rt_inv T2 m g s2 ∧ rheight (root s2) = rheight (root s1) ∧
    (p = 0 → m i = 0) ∧
    (p ≠ 0 → T2 !! (c_height c1, pre (c_height c1) i) = Some p ∧ (growing T m i s → growing T2 m i s2)) ∧
    (enough (c_height c) s → p ≠ 0 ∧ enough (c_height c1 - 1) s2)) as (T2 & s2 & p & -> & HI2 & Hh2 & Hm & HT2 & Hen2).
  { destruct (Z.eqb_spec (c_slot c1) 0) as [E0|E0].
    - destruct (add_child_ok T1 m g s1 i c1) as (T2 & s2 & p & ? & ? & ? & Hgp & Hen2); try done.
      exists T2, s2, p. ands; try done; [| |intros He; apply Hen2; auto].
      + intros _. by apply (cursor_slot_none T1 m g s1 i c1).
      + intros Hp. destruct (Hgp Hp). auto.
    - exists T1, s1, (c_slot c1). ands; try done.
      + intros _. split; [|done]. rewrite Hslot. unfold child_at. rewrite decide_False, Z.add_simpl_r by lia.
        unfold child_at in Hslot. rewrite decide_False, Z.add_simpl_r in Hslot by lia.
        destruct (T1 !! _) as [q|]; [done|]. cbn in Hslot. lia.
      + intros He. split; [done|]. destruct (Hen He). split; [lia|done]. }
  cbn [mbind option_bind]. destruct (Z.eqb_spec p 0) as [->|Hp].
  { eexists; split; [done|]. cbn. exists T2. ands; [done|lia|auto|]. intros He. by destruct (Hen2 He). }
  destruct (HT2 Hp) as [HT2' Hg2]. clear HT2. rename HT2' into HT2. rewrite Hshift.
  destruct (path_node _ _ _ _ HI2 _ i p Hi HT2) as (n & Hn & Hok & Hr & _ & -> & -> & _). cbn [mbind option_bind].
  eexists; split; [done|]. cbn. exists (Z.to_nat (c_height c1 - 1)). split; [lia|]. split; [done|].
  exists T2. split; [done|]. split; [lia|]. split; [|split; [done|intros He; by apply Hen2]].
  unfold at_cursor. cbn. rewrite Z.sub_add. ands; try lia. right. ands; [lia|done|done].
Qed.

(** The tree is made high enough for the index. *)
Lemma grow_ok T m g s i mx :
  rt_inv T m g s → index_ok i → ((i >? mx) = false ↔ pre (rheight (root s)) i = 0) →
  ∃ T1 s1 e, (if i >? mx then radix_tree_extend kmem_cache_alloc s i else Some (s, 0)) = Some (s1, e) ∧
    rt_inv T1 m g s1 ∧
    (e = - ENOMEM ∧ m i = 0 ∨ e = 0 ∧ pre (rheight (root s1)) i = 0 ∧
      (compact T m s → growing T1 m i s1 ∧ tall_for m i (rheight (root s1)))) ∧
    (enough RADIX_TREE_MAX_PATH s → pre (rheight (root s)) i = 0 ∨ rnode (root s) = 0 →
       e = 0 ∧ enough RADIX_TREE_MAX_PATH s1).
Proof.
  intros HI Hi Hmx. destruct (i >? mx) eqn:E.
  - assert (Hp : pre (rheight (root s)) i ≠ 0) by (intros Hp; by apply Hmx in Hp).
    destruct (extend_ok T m g s i HI Hi Hp) as (T1 & s1 & e & -> & HI1 & He & Hen).
    exists T1, s1, e. ands; try done.
    + destruct He as [->|(-> & ? & ?)]; [left|by right]. split; [done|].
      destruct (decide (m i = 0)) as [|Hm]; [done|]. by apply (item_pre _ _ _ _ HI) in Hm.
    + intros Hek [?|Hr]; [done|]. destruct (Hen Hr). auto.
  - exists T, s, 0. ands; try done. right. ands; [done|by apply Hmx|by apply compact_growing].
Qed.

(** Where the way down starts. *)
Lemma cursor_top T m g s i :
  rt_inv T m g s → pre (rheight (root s)) i = 0 →
  at_cursor T m s i (Cursor 0 (radix_tree_indirect_to_ptr (rnode (root s))) 0
    ((rheight (root s) - 1) * RADIX_TREE_MAP_SHIFT) (rheight (root s))).
Proof.
  intros HI Hpre. pose proof (inv_H _ _ _ _ HI) as HH. unfold at_cursor. cbn. ands; try done; try lia; try by left.
  rewrite Hpre. destruct (decide (rnode (root s) = 0)) as [E|E].
  - destruct (set_rheight_empty T m g s 0 HI E ltac:(lia)) as [_ Hm]. rewrite E. unfold child_at.
    case_decide; [by rewrite Hm|]. rewrite Z.add_simpl_r.
    destruct (root_cases _ _ _ _ HI) as [(? & _)|[(_ & _ & -> & _)|(_ & p & n & Hp & _ & [? _] & _)]]; [lia|done|lia].
  - destruct (root_child _ _ _ _ HI E) as [_ Hc]. rewrite Hc by lia. by rewrite decide_True.
Qed.

(** The item is written to the slot at the end of the way down. *)
Lemma put_item_ok T m g s i c item :
  rt_inv T m g s → index_ok i → pre (rheight (root s)) i = 0 → at_cursor T m s i c → c_height c = 0 → m i = 0 →
  Z.even item = true → item ≠ 0 →
  ∃ s', (if ctrue (c_node c) then
      s ← upd_node s (c_node c) (λ n, Some (with_count (count n + 1) n));
      s ← upd_node s (c_node c) (set_slot (c_offset c) item);
      t0 ← tag_get s (c_node c) 0 (c_offset c);
      t1 ← tag_get s (c_node c) 1 (c_offset c);
      if t0 || t1 then None else Some (s, 0)
    else
      let s := set_rnode item s in
      if root_tag_get s 0 || root_tag_get s 1 then None else Some (s, 0)) = Some (s', 0) ∧
    rt_inv T (mset m i item) g s' ∧ rheight (root s') = rheight (root s) ∧ (owned T s → owned T s').
Proof.
  intros HI Hi Hpre (Hh & _ & _ & Hnode) Hc0 Em Hev H0. rewrite Hc0 in *. destruct Hnode as [(Hroot & ->)|(Hlt & -> & HTn)].
  - cbn [ctrue Z.eqb negb]. assert (i = 0) as -> by (rewrite <- Hroot, pre_0 in Hpre; done).
    change (root_tag_get (set_rnode item s)) with (root_tag_get s).
    assert (Hrt : ∀ tag, 0 ≤ tag < 2 → root_tag_get s tag = false).
    { intros tag Ht. destruct (root_tag_get s tag) eqn:Er; [|done].
      apply (inv_rtags _ _ _ _ HI) in Er as [j Hj]; [|done]. apply (inv_tags _ _ _ _ HI) in Hj; [|done].
      destruct (inv_items _ _ _ _ HI j Hj) as (_ & _ & Hz). rewrite decide_True in Hz by done. subst. done. }
    cbv zeta. rewrite !Hrt by lia. cbn [orb]. exists (set_rnode item s). ands; try done. by apply set_root_item.
  - change (0 + 1) with 1 in *. destruct (path_node _ _ _ _ HI 1 i (c_node c) Hi HTn) as (n & Hn & Hok & _ & [? _] & _).
    assert (ctrue (c_node c) = true) as -> by (apply ctrue_true; lia).
    pose proof (off_range 1 i) as Ho. assert (Hl : alen (slots n) = 64) by apply Hok.
    erewrite (upd_node_ok s (c_node c) _ n) by done. cbn [mbind option_bind].
    erewrite upd_node_again by (apply set_slot_put; done). cbn [mbind option_bind].
    rewrite !(tag_get_ok _ _ _ _ _ (nodes_set_eq _ _ _)) by (lia || apply Hok). cbn [mbind option_bind].
    assert (Hb : ∀ tag, 0 ≤ tag < 2 → node_bit n tag (off 1 i) = false).
    { intros tag Ht. rewrite (bottom_bit T m g i (pre 1 i)) by done. by apply (no_item_no_tag T m g s). }
    match goal with |- context [node_bit ?x 0 (off 1 i)] => change (node_bit x) with (node_bit n) end.
    rewrite !Hb by lia. cbn [orb]. eexists; split; [done|]. split; [|split; [done|]].
    2:{ apply owned_ext; [|done]. intros q Hq. eapply set_node_dom; [|done]. by eexists. }
    apply (set_item T m g s i (c_node c) n); try done. rewrite Em. unfold null_cost.
    rewrite (decide_True (P := 0 = 0)), decide_False by done. cbn. lia.
Qed.

Lemma insert_ok T m g s i item :
  rt_inv T m g s → index_ok i → Z.even item = true → item ≠ 0 →
  ∃ T' s' e, radix_tree_insert kmem_cache_alloc s i item = Some (s', e) ∧
    (e = 0 ∧ m i = 0 ∧ rt_inv T' (mset m i item) g s' ∨
     e = - EEXIST ∧ m i ≠ 0 ∧ rt_inv T' m g s' ∨
     e = - ENOMEM ∧ m i = 0 ∧ rt_inv T' m g s') ∧
    (enough RADIX_TREE_MAX_PATH s → pre (rheight (root s)) i = 0 ∨ rnode (root s) = 0 → e ≠ - ENOMEM) ∧
    (compact T m s → (e = 0 → compact T' (mset m i item) s') ∧ (e = - EEXIST → compact T' m s')).
Proof.
  intros HI Hi Hev H0. unfold radix_tree_insert. rewrite indirect_even by done.
  destruct (radix_tree_maxindex_ok (rheight (root s)) i (inv_H _ _ _ _ HI) Hi) as (mx & -> & Hmx & _).
  cbn [mbind option_bind]. destruct (grow_ok T m g s i mx HI Hi Hmx) as (T1 & s1 & e & -> & HI1 & He & Hen).
  cbn [mbind option_bind]. destruct He as [[-> Hm]|(-> & Hpre & Hg1)].
  { exists T1, s1, (- ENOMEM). split; [done|]. split; [auto|]. split; [|done]. intros Hek Hc. by destruct (Hen Hek Hc). }
  cbn [ctrue Z.eqb negb]. pose proof (inv_H _ _ _ _ HI1) as HH1.
  destruct (descend_ok T1 m g s1 i _ HI1 Hi (cursor_top _ _ _ _ _ HI1 Hpre) Hpre)
    as (T2 & s2 & r & -> & HI2 & Hh2 & Hr & Hen2).
  cbn [mbind option_bind c_height] in *. destruct r as [c|].
  2:{ exists T2, s2, (- ENOMEM). split; [done|]. split; [auto|]. split; [|done]. intros Hek Hc. exfalso. apply Hen2; [|done].
      destruct (Hen Hek Hc) as (_ & [? ?]). split; [unfold RADIX_TREE_MAX_PATH in *; lia|done]. }
  destruct Hr as (Hat & Hc0 & Hg2). pose proof Hat as (_ & _ & Hslot & _). rewrite Hc0 in Hslot. unfold child_at in Hslot.
  rewrite decide_True, pre_0 in Hslot by done. rewrite Hslot.
  destruct (ctrue (m i)) eqn:Em; [apply ctrue_true in Em|apply ctrue_false in Em].
  { exists T2, s2, (- EEXIST). split; [done|]. split; [auto|]. split; [done|]. intros Hc. split; [done|]. intros _.
    destruct (Hg1 Hc) as [Hg Ht]. rewrite <- Hh2 in Ht. by apply (growing_compact T2 m m i s2 s2); auto. }
  rewrite <- Hh2 in Hpre. destruct (put_item_ok T2 m g s2 i c item) as (s3 & E3 & HI3 & Hh3 & Ho3); try done.
  exists T2, s3, 0. split; [exact E3|]. split; [left; done|]. split; [done|]. intros Hc. split; [|done]. intros _.
  destruct (Hg1 Hc) as [Hg Ht]. rewrite <- Hh2 in Ht. apply (growing_compact T2 m _ i s2 s3); auto.
  - intros j Hj. rewrite mset_ne; [done|]. by intros ->.
  - by rewrite mset_eq.
Qed.

(** *** Preloading *)

Lemma preload_step T m g s p :
  rt_inv T m g s → p ∈ free s → alen (preloads s) < RADIX_TREE_MAX_PATH →
  rt_inv T m g (RState (root s) (nodes s) (free s ∖ {[p]}) (preloads s ++ [p])).
Proof.
  intros HI Hp Hlen. destruct (inv_preloads _ _ _ _ HI) as (Hnd & _ & Hdis).
  assert (Hpool : ∀ q, pooled (RState (root s) (nodes s) (free s ∖ {[p]}) (preloads s ++ [p])) q → pooled s q).
  { intros q. unfold pooled. cbn. rewrite elem_of_difference, elem_of_app, list_elem_of_singleton.
    intros [[? _]|[?| ->]]; auto. }
  split; cbn [root nodes]; try apply HI.
  - intros h k q HT. destruct (inv_dom _ _ _ _ HI h k q HT) as (? & ? & ? & Hnp). ands; try done; try lia. auto.
  - intros q Hq. by apply (inv_pool _ _ _ _ HI), Hpool.
  - cbn. ands.
    + apply list.NoDup_app. ands; try done; [|apply NoDup_singleton].
      intros q Hq ->%list_elem_of_singleton. by apply (Hdis p).
    + rewrite alen_app. change (alen [p]) with 1. lia.
    + intros q Hq. specialize (Hdis q). rewrite elem_of_app, list_elem_of_singleton. set_solver.
Qed.

Lemma preload_ok T m g s :
  rt_inv T m g s →
  ∃ s' e, radix_tree_preload kmem_cache_alloc s = Some (s', e) ∧ rt_inv T m g s' ∧ root s' = root s ∧
    (e = 0 ∧ alen (preloads s') = RADIX_TREE_MAX_PATH ∨ e = - ENOMEM) ∧ (compact T m s → compact T m s').
Proof.
  intros HI. unfold radix_tree_preload.
  match goal with |- ∃ s' e, loop ?f ?st ?x = _ ∧ _ =>
    assert (∃ r, loop f st x = Some r ∧ rt_inv T m g r.1 ∧ root r.1 = root s ∧
      (r.2 = 0 ∧ alen (preloads r.1) = RADIX_TREE_MAX_PATH ∨ r.2 = - ENOMEM) ∧ (compact T m s → compact T m r.1)) as ([s' e] & -> & ?) end; [|by exists s', e].
  apply (loop_rule_idx (λ k s1, rt_inv T m g s1 ∧ root s1 = root s ∧ (compact T m s → compact T m s1) ∧ k = Z.to_nat (RADIX_TREE_MAX_PATH - alen (preloads s1)))
    _ _ (Z.to_nat (RADIX_TREE_MAX_PATH - alen (preloads s)))).
  2: done.
  2:{ pose proof (alen_nonneg (preloads s)). lia. }
  intros k s1 (HI1 & Hr1 & Hc1 & ->). pose proof (inv_preloads _ _ _ _ HI1) as (_ & Hlen & _).
  destruct (Z.ltb_spec (alen (preloads s1)) RADIX_TREE_MAX_PATH).
  2:{ eexists; split; [done|]. cbn. ands; try done. left. split; [done|]. lia. }
  destruct (kmem_cache_alloc s1) as [p|] eqn:E; (eexists; split; [done|]); cbn; [|ands; auto].
  eexists; split; [|split; [by apply preload_step; eauto|split; [done|split; [|done]]]].
  - cbn. rewrite alen_app. change (alen [p]) with 1. lia.
  - intros Hc. apply (compact_ext T m m s1); auto. intros q. unfold pooled. cbn. set_unfold. destruct (decide (q = p)); naive_solver.
Qed.

(** *** Replacing an item through its slot *)

Lemma replace_slot_ok T m g s i l item :
  rt_inv T m g s → index_ok i → m i ≠ 0 → slot_for T s i l → Z.even item = true → item ≠ 0 →
  ∃ s', radix_tree_replace_slot s l item = Some s' ∧ rt_inv T (mset m i item) g s' ∧
    (compact T m s → compact T (mset m i item) s').
Proof.
  intros HI Hi Hm Hl Hev H0.
  assert (Hcp : ∀ s', rheight (root s') = rheight (root s) → (owned T s → owned T s') →
    compact T m s → compact T (mset m i item) s').
  { intros s' Hh Ho Hc. destruct (compact_growing T m i s Hc) as [Hg Ht]. apply (growing_compact T m _ i s s'); auto.
    - intros j Hj. unfold mset. by case_decide.
    - by rewrite mset_eq. } unfold radix_tree_replace_slot. rewrite indirect_even by done.
  destruct l as [|p o]; cbn in Hl.
  - destruct Hl as [Hz ->]. eexists; split; [done|]. split; [by apply set_root_item|]. by apply Hcp.
  - destruct Hl as [HT ->]. destruct (path_node _ _ _ _ HI 1 i p Hi HT) as (n & Hn & Hok & _).
    erewrite upd_node_ok by (try apply set_slot_put; try apply Hok; try done; apply off_range).
    eexists; split; [done|]. split.
    2:{ apply Hcp; [done|]. apply owned_ext; [|done]. intros q Hq. eapply set_node_dom; [|done]. by eexists. }
    replace (put_slot (off 1 i) item n) with (with_count (count n) (put_slot (off 1 i) item n)) by done.
    apply (set_item T m g s i p n); try done. unfold null_cost. rewrite !decide_False by done. lia.
Qed.
End Insert.
