(* ===== verification/RadixTreeTags.v ===== *)
(** * Tags of the radix tree

    [radix_tree_tag_set] and [radix_tree_tag_clear] change the tag of one index in the
    abstract state and keep the summary bits of the nodes above it and of the root. *)

From stdpp Require Import gmap.
From S2P Require Import Prelude Bitops RadixTree RadixTreeInv RadixTreeLookup.
#[local] Open Scope Z_scope.
#[local] Open Scope kernel_scope.
Implicit Types (T : ghost) (m : Z → Z) (g : Z → Z → bool) (s : rt_state).

(** ** Tags of the root *)

Lemma root_mask tag : 0 ≤ tag < 2 → ushl 32 1 (tag + __GFP_BITS_SHIFT) = BIT_MASK (tag + 22).
Proof. intros Ht. assert (tag = 0 ∨ tag = 1) as [-> | ->] by lia; done. Qed.

Lemma root_tag_bit s tag : 0 ≤ tag < 2 → root_tag_get s tag = Z.testbit (gfp_mask (root s)) (tag + 22).
Proof.
  intros Ht. unfold root_tag_get. rewrite root_mask, land_BIT_MASK_ctrue by done. by rewrite Z.mod_small by lia.
Qed.

Lemma root_tag_set_get s tag t :
  0 ≤ tag < 2 → 0 ≤ t < 2 → root_tag_get (root_tag_set s tag) t = (t =? tag) || root_tag_get s t.
Proof.
  intros Ht Ht'. rewrite !root_tag_bit by done. unfold root_tag_set. cbn [set_gfp set_root root gfp_mask].
  rewrite root_mask, Z.lor_spec, BIT_MASK_testbit, Z.mod_small by lia. rewrite orb_comm. f_equal.
  destruct (Z.eqb_spec (t + 22) (tag + 22)), (Z.eqb_spec t tag); done || lia.
Qed.

Lemma root_tag_clear_get s tag t :
  0 ≤ tag < 2 → 0 ≤ t < 2 → root_tag_get (root_tag_clear s tag) t = negb (t =? tag) && root_tag_get s t.
Proof.
  intros Ht Ht'. rewrite !root_tag_bit by done. unfold root_tag_clear. cbn [set_gfp set_root root gfp_mask].
  rewrite root_mask, Z.land_spec, testbit_unot, BIT_MASK_testbit, Z.mod_small by lia. rewrite andb_comm. f_equal.
  destruct (Z.ltb_spec (t + 22) 32); [|lia].
  destruct (Z.eqb_spec (t + 22) (tag + 22)), (Z.eqb_spec t tag); done || lia.
Qed.

Lemma root_tag_clear_all_get s t : 0 ≤ t < 2 → root_tag_get (root_tag_clear_all s) t = false.
Proof.
  intros Ht. rewrite root_tag_bit by done. cbn. rewrite Z.land_spec.
  assert (t = 0 ∨ t = 1) as [-> | ->] by lia; apply andb_false_r.
Qed.

Lemma gfp_tag_set s tag : 0 ≤ tag < 2 → urange 32 (gfp_mask (root s)) → urange 32 (gfp_mask (root (root_tag_set s tag))).
Proof. intros Ht Hg. cbn. apply urange_lor; [lia|done|]. apply urange_ushl. lia. Qed.
Lemma gfp_tag_clear s tag : urange 32 (gfp_mask (root s)) → urange 32 (gfp_mask (root (root_tag_clear s tag))).
Proof. intros Hg. cbn. apply urange_land; [lia|done|]. apply urange_unot. lia. Qed.
Lemma gfp_tag_clear_all s : urange 32 (gfp_mask (root s)) → urange 32 (gfp_mask (root (root_tag_clear_all s))).
Proof. intros Hg. cbn. apply urange_land_l; [lia|done|]. done. Qed.

(** ** Changing bits of the nodes *)

Record shape_kept (n n' : radix_tree_node) : Prop := {
  sk_height : height n' = height n;
  sk_count : count n' = count n;
  sk_slots : slots n' = slots n;
  sk_tags : tags_wf n' }.

(** [s'] is [s] but for the tags of the nodes, which are [P] now. *)
Record bits_are T s s' (P : Z → Z → Z → Z → Prop) : Prop := {
  ba_root : root s' = root s;
  ba_free : free s' = free s;
  ba_preloads : preloads s' = preloads s;
  ba_dom : ∀ p, is_Some (nodes s' !! p) → is_Some (nodes s !! p);
  ba_pool : ∀ p, pooled s p → nodes s' !! p = nodes s !! p;
  ba_nodes : ∀ h k p, T !! (h, k) = Some p → ∃ n n', nodes s !! p = Some n ∧ nodes s' !! p = Some n' ∧
    shape_kept n n' ∧ ∀ t o, 0 ≤ t < 2 → 0 ≤ o < 64 → node_bit n' t o = true ↔ P h k t o }.

(** The root, the pools and the nodes of the heap are those of [s]. *)
Definition same_nodes s s' : Prop :=
  rheight (root s') = rheight (root s) ∧ rnode (root s') = rnode (root s) ∧
  free s' = free s ∧ preloads s' = preloads s ∧ ∀ p, is_Some (nodes s' !! p) → is_Some (nodes s !! p).

Lemma same_nodes_trans s s' s'' : same_nodes s s' → same_nodes s' s'' → same_nodes s s''.
Proof. intros (? & ? & ? & ? & Ha) (? & ? & ? & ? & Hb). unfold same_nodes. ands; try congruence. auto. Qed.

Lemma same_nodes_owned T s s' : same_nodes s s' → owned T s → owned T s'.
Proof. intros (_ & _ & Hf & Hp & Hn). apply owned_ext; [done|]. intros p. unfold pooled. by rewrite Hf, Hp. Qed.

Lemma same_nodes_compact T m s s' : same_nodes s s' → compact T m s → compact T m s'.
Proof. intros (Hh & _ & Hf & Hp & Hn). apply compact_ext; try done. intros p. unfold pooled. by rewrite Hf, Hp. Qed.

Lemma bits_are_same T s s' P gfp : bits_are T s s' P → same_nodes s (set_gfp gfp s').
Proof. intros [Hr Hf Hp Hd _ _]. unfold same_nodes. cbn. rewrite Hr. by ands. Qed.

Lemma same_nodes_gfp T s s' P (b : bool) gfp : bits_are T s s' P → same_nodes s (if b then set_gfp gfp s' else s').
Proof.
  intros Hba. destruct b; [by eapply bits_are_same|].
  replace s' with (set_gfp (gfp_mask (root s')) s') by (by destruct s' as [[]]). by eapply bits_are_same.
Qed.

Lemma bits_are_init T m g s :
  rt_inv T m g s → bits_are T s s (λ h k t o, tagged_under g t (h - 1) (k * 64 + o)).
Proof.
  intros HI. split; try done. intros h k p HT. destruct (inv_node _ _ _ _ HI h k p HT) as (n & Hn & Hok).
  exists n, n. ands; try done; [split; try done; apply Hok|apply Hok].
Qed.

Lemma bits_are_ext T m g s s' P P' :
  rt_inv T m g s → bits_are T s s' P →
  (∀ h k t o, 1 ≤ h ≤ rheight (root s) → 0 ≤ t < 2 → 0 ≤ o < 64 → P h k t o ↔ P' h k t o) →
  bits_are T s s' P'.
Proof.
  intros HI [? ? ? ? ? Hn] HP. split; try done. intros h k p HT. destruct (Hn h k p HT) as (n & n' & ? & ? & ? & Hb).
  destruct (inv_dom _ _ _ _ HI _ _ _ HT) as (? & _).
  exists n, n'. ands; try done. intros t o Ht Ho. by rewrite Hb, HP.
Qed.

(** One bit of one node changes. *)
Lemma bits_are_upd T m g s s' P P' h k p tag o f (b : bool) :
  rt_inv T m g s → bits_are T s s' P → T !! (h, k) = Some p →
  (∀ n, tags_wf n → ∃ n', f n = Some n' ∧
    retagged n n' (λ t o', if decide (t = tag) then (if o' =? o then b else node_bit n t o') else node_bit n t o')) →
  (∀ h' k' t o', 0 ≤ t < 2 → 0 ≤ o' < 64 →
     (h', k', t, o') ≠ (h, k, tag, o) → P' h' k' t o' ↔ P h' k' t o') →
  (P' h k tag o ↔ b = true) →
  ∃ s'', upd_node s' p f = Some s'' ∧ bits_are T s s'' P'.
Proof.
  intros HI [Hr Hfr Hpr Hdom Hpool Hn] HT Hf HP HP'. destruct (Hn h k p HT) as (n & n' & Hs & Hs' & [] & Hb).
  destruct (Hf n') as (n2 & Hf2 & [? ? ? ? Hb2]); [done|].
  exists (set_node p n2 s'). split; [by eapply upd_node_ok|]. split; try done.
  - intros q Hq. apply Hdom. eapply set_node_dom; [|done]. by eexists.
  - intros q Hq. rewrite nodes_set_ne; [by apply Hpool|]. intros ->.
    by apply (inv_dom _ _ _ _ HI) in HT as (_ & _ & _ & []).
  - intros h' k' q HTq. destruct (decide (p = q)) as [<-|Hne].
    + pose proof (inv_inj _ _ _ _ HI _ _ _ HTq HT) as [= -> ->]. exists n, n2. rewrite nodes_set_eq.
      ands; try done; [split; congruence|]. intros t o' Ht Ho'. rewrite Hb2 by lia.
      case_decide as Hd; [subst t; destruct (Z.eqb_spec o' o) as [->|]|].
      * by rewrite HP'.
      * rewrite Hb, HP by (done || congruence). done.
      * rewrite Hb, HP by (done || congruence). done.
    + rewrite nodes_set_ne by done. destruct (Hn h' k' q HTq) as (n3 & n4 & ? & ? & ? & Hb4).
      exists n3, n4. ands; try done. intros t o' Ht Ho'. rewrite Hb4 by done. symmetry. apply HP; try done.
      intros [= -> -> _ _]. congruence.
Qed.

Lemma bits_are_set T m g s s' P P' h k p tag o :
  rt_inv T m g s → bits_are T s s' P → T !! (h, k) = Some p → 0 ≤ tag < 2 → 0 ≤ o < 64 →
  (∀ h' k' t o', 0 ≤ t < 2 → 0 ≤ o' < 64 →
     (h', k', t, o') ≠ (h, k, tag, o) → P' h' k' t o' ↔ P h' k' t o') → P' h k tag o →
  ∃ s'', tag_set s' p tag o = Some s'' ∧ bits_are T s s'' P'.
Proof.
  intros HI Hba HT Ht Ho HP HP'. apply (bits_are_upd T m g s s' P P' h k p tag o _ true); try done.
  intros n Hwf. destruct (node_tag_set_ok n tag o Hwf Ht Ho) as (n' & E & [? ? ? ? Hb]). exists n'. split; [done|].
  by split.
Qed.

Lemma bits_are_clear T m g s s' P P' h k p tag o :
  rt_inv T m g s → bits_are T s s' P → T !! (h, k) = Some p → 0 ≤ tag < 2 → 0 ≤ o < 64 →
  (∀ h' k' t o', 0 ≤ t < 2 → 0 ≤ o' < 64 →
     (h', k', t, o') ≠ (h, k, tag, o) → P' h' k' t o' ↔ P h' k' t o') → ¬ P' h k tag o →
  ∃ s'', tag_clear s' p tag o = Some s'' ∧ bits_are T s s'' P'.
Proof.
  intros HI Hba HT Ht Ho HP HP'. apply (bits_are_upd T m g s s' P P' h k p tag o _ false); try done.
  intros n Hwf. destruct (node_tag_clear_ok n tag o Hwf Ht Ho) as (n' & E & [? ? ? ? Hb]). exists n'. split; [done|].
  split; try done. intros t o' Ho'. rewrite Hb by done. case_decide; [|done]. by destruct (o' =? o).
Qed.

(** The invariant with other tags, once nodes and root agree with them. *)
Lemma inv_retag T m g g' s s' gfp :
  rt_inv T m g s → bits_are T s s' (λ h k t o, tagged_under g' t (h - 1) (k * 64 + o)) →
  (∀ tag i, 0 ≤ tag < 2 → g' tag i = true → m i ≠ 0) → urange 32 gfp →
  (∀ tag, 0 ≤ tag < 2 → root_tag_get (set_gfp gfp s') tag = true ↔ ∃ i, g' tag i = true) →
  rt_inv T m g' (set_gfp gfp s').
Proof.
  intros HI [Hr Hfr Hpr _ Hpool Hn] Hg' Hgfp Hrt.
  assert (Hp : ∀ p, pooled (set_gfp gfp s') p ↔ pooled s p) by (intros p; unfold pooled; cbn; by rewrite Hfr, Hpr).
  split; try done; cbn [set_gfp set_root root rheight rnode nodes]; rewrite ?Hr; try apply HI.
  - intros h k p HT. rewrite Hp. by apply (inv_dom _ _ _ _ HI).
  - intros h k p HT. destruct (Hn h k p HT) as (n & n' & Hs & Hs' & [] & Hb). exists n'. split; [done|].
    destruct (inv_node _ _ _ _ HI h k p HT) as (n1 & Hn1 & [? [] Hsl _]). simplify_eq. split; try done.
    + split; congruence || done.
    + intros o Ho. rewrite <- Hsl by done. unfold slot_at. congruence.
  - intros p Hpp. rewrite Hp in Hpp. rewrite Hpool by done. by apply (inv_pool _ _ _ _ HI).
  - cbn. rewrite Hfr, Hpr. apply HI.
Qed.

(** ** Setting a tag *)

Definition gput g (tag i : Z) (b : bool) : Z → Z → bool :=
  λ t j, if decide (t = tag ∧ j = i) then b else g t j.

Lemma gput_eq g tag i b : gput g tag i b tag i = b.
Proof. unfold gput. by rewrite decide_True. Qed.
Lemma gput_ne g tag i b t j : t ≠ tag ∨ j ≠ i → gput g tag i b t j = g t j.
Proof. intros. unfold gput. rewrite decide_False; [done|naive_solver]. Qed.

Lemma tagged_under_set g tag i t h j :
  0 ≤ i → tagged_under (gput g tag i true) t h j ↔ tagged_under g t h j ∨ t = tag ∧ pre h i = j.
Proof.
  intros Hi. unfold tagged_under. split.
  - intros (x & Hx & Hp & Hg). destruct (decide (t = tag ∧ x = i)) as [[-> ->]|Hne]; [by right|].
    left. exists x. rewrite gput_ne in Hg by (by apply not_and_l_alt in Hne; naive_solver). done.
  - intros [(x & Hx & Hp & Hg)|[-> Hp]].
    + exists x. ands; try done. unfold gput. by case_decide.
    + exists i. ands; try done. apply gput_eq.
Qed.

Lemma bits_are_read T s s' P h k p t o :
  bits_are T s s' P → T !! (h, k) = Some p → 0 ≤ t < 2 → 0 ≤ o < 64 →
  ∃ b : bool, tag_get s' p t o = Some b ∧ (b = true ↔ P h k t o).
Proof.
  intros Hba HT Ht Ho. destruct (ba_nodes _ _ _ _ Hba h k p HT) as (n & n' & _ & Hn' & [] & Hb).
  exists (node_bit n' t o). split; [by apply tag_get_ok|auto].
Qed.

Lemma bits_are_slot T m g s s' P h i p :
  rt_inv T m g s → bits_are T s s' P → index_ok i → T !! (h, pre h i) = Some p →
  get_slot s' p (off h i) = Some (child_at T m h (pre (h - 1) i)).
Proof.
  intros HI Hba Hi HT. destruct (path_node _ _ _ _ HI h i p Hi HT) as (n & Hn & Hok & _ & _ & _ & <- & _).
  destruct (ba_nodes _ _ _ _ Hba h _ p HT) as (n1 & n' & Hn1 & Hn' & [] & _). simplify_eq.
  unfold get_slot. rewrite Hn, Hn'. cbn [mbind option_bind]. congruence.
Qed.

(** The bit in which the tag of [i] is summarised at height [h]. *)
Definition on_path (i h k o : Z) : Prop := pre (h - 1) i = k * 64 + o.

Lemma root_slot T m g s i :
  rt_inv T m g s → pre (rheight (root s)) i = 0 →
  radix_tree_indirect_to_ptr (rnode (root s)) = child_at T m (rheight (root s) + 1) (pre (rheight (root s)) i).
Proof.
  intros HI Hpre. rewrite Hpre. unfold child_at. rewrite Z.add_simpl_r.
  destruct (root_cases _ _ _ _ HI) as [(H0 & -> & Hev)|[(H0 & -> & -> & Hm)|(H0 & p & n & -> & -> & [Hp Hev] & _)]].
  - rewrite decide_True, indirect_to_ptr_even by (done || lia). done.
  - by rewrite decide_False by lia.
  - rewrite decide_False, indirect_to_ptr_odd by (done || lia). done.
Qed.

Lemma path_child T m g s i h :
  rt_inv T m g s → m i ≠ 0 → 0 ≤ h ≤ rheight (root s) → child_at T m (h + 1) (pre h i) ≠ 0.
Proof.
  intros HI Hm Hh. unfold child_at. rewrite Z.add_simpl_r. case_decide as Hd.
  - replace h with 0 by lia. by rewrite pre_0.
  - destruct (path_some _ _ _ _ HI h i Hm) as [p Hp]; [lia|]. rewrite Hp. cbn.
    destruct (inv_dom _ _ _ _ HI _ _ _ Hp) as (_ & _ & [? _] & _). lia.
Qed.

(** On the way down: the bits of the path above height [h] are set. *)
Definition set_above g tag i (h : Z) : Z → Z → Z → Z → Prop := λ h' k t o,
  tagged_under g t (h' - 1) (k * 64 + o) ∨ (t = tag ∧ h < h' ∧ on_path i h' k o).

Lemma set_above_other g tag i h h' k t o :
  1 ≤ h → 0 ≤ o < 64 → (h', k, t, o) ≠ (h, pre h i, tag, off h i) →
  set_above g tag i (h - 1) h' k t o ↔ set_above g tag i h h' k t o.
Proof.
  intros Hh Ho Hne. unfold set_above. split; (intros [?|(-> & Hlt & Hon)]; [by left|right; ands; try done]); [|lia].
  destruct (decide (h' = h)) as [->|]; [|lia]. exfalso. apply Hne.
  apply pre_off_inj in Hon as [-> ->]; [done|lia|done].
Qed.

(** One turn of the loop of [radix_tree_tag_set]. *)
Lemma tag_set_level T m g s s1 i tag h p :
  rt_inv T m g s → index_ok i → 0 ≤ tag < 2 → T !! (h, pre h i) = Some p →
  bits_are T s s1 (set_above g tag i h) →
  ∃ b s2, tag_get s1 p tag (off h i) = Some b ∧
    (if negb b then tag_set s1 p tag (off h i) else Some s1) = Some s2 ∧
    bits_are T s s2 (set_above g tag i (h - 1)).
Proof.
  intros HI Hi Ht HT Hba. pose proof (off_range h i) as Ho. destruct (inv_dom _ _ _ _ HI _ _ _ HT) as (Hh & _).
  destruct (bits_are_read _ _ _ _ _ _ _ tag (off h i) Hba HT Ht Ho) as (b & Hb & Hiff). exists b.
  assert (Hset : set_above g tag i (h - 1) h (pre h i) tag (off h i)).
  { right. ands; [done|lia|]. apply pre_step. lia. }
  destruct b; cbn [negb].
  - exists s1. ands; try done. eapply (bits_are_ext T m g); [done..|]. intros h' k' t o' Hh' Ht' Ho'.
    destruct (decide ((h', k', t, o') = (h, pre h i, tag, off h i))) as [[= -> -> -> ->]|Hne].
    + split; [done|]. intros _. by apply Hiff.
    + symmetry. apply set_above_other; done || lia.
  - destruct (bits_are_set T m g s s1 _ (set_above g tag i (h - 1)) h (pre h i) p tag (off h i) HI Hba HT Ht Ho)
      as (s2 & E & Hba2); [|done|by exists s2].
    intros h' k' t o' Ht' Ho' Hne. apply set_above_other; done || lia.
Qed.

(** The end of [radix_tree_tag_set]: the tag of the root. *)
Lemma tag_set_root T m g s s1 i tag :
  rt_inv T m g s → index_ok i → 0 ≤ tag < 2 → m i ≠ 0 → bits_are T s s1 (set_above g tag i 0) →
  rt_inv T m (gput g tag i true) (if negb (root_tag_get s1 tag) then root_tag_set s1 tag else s1).
Proof.
  intros HI Hi Ht Hm Hba. pose proof (ba_root _ _ _ _ Hba) as Hr.
  assert (Hba' : bits_are T s s1 (λ h k t o, tagged_under (gput g tag i true) t (h - 1) (k * 64 + o))).
  { eapply (bits_are_ext T m g); [done..|]. intros h k t o Hh _ _. unfold set_above. unfold index_ok in Hi.
    rewrite tagged_under_set by lia. unfold on_path. naive_solver lia. }
  assert (Hg : ∀ t j, 0 ≤ t < 2 → gput g tag i true t j = true → m j ≠ 0).
  { intros t j Ht' Hg. unfold gput in Hg. case_decide as Hd; [by destruct Hd as [_ ->]|]. by eapply inv_tags. }
  assert (Hex : ∀ t, (∃ j, gput g tag i true t j = true) ↔ t = tag ∨ ∃ j, g t j = true).
  { intros t. split.
    - intros [j Hj]. unfold gput in Hj. case_decide as Hd; [left; tauto|eauto].
    - intros [->|[j Hj]]; [exists i; apply gput_eq|]. exists j. unfold gput. by case_decide. }
  assert (Hrt : ∀ t, 0 ≤ t < 2 → root_tag_get s1 t = true ↔ ∃ j, g t j = true).
  { intros t Ht'. rewrite <- (inv_rtags _ _ _ _ HI t Ht'). unfold root_tag_get. by rewrite Hr. }
  destruct (root_tag_get s1 tag) eqn:Er; cbn [negb].
  - replace s1 with (set_gfp (gfp_mask (root s1)) s1) by (by destruct s1 as [[]]).
    apply (inv_retag T m g _ s); try done; [rewrite Hr; apply HI|]. intros t Ht'.
    change (root_tag_get (set_gfp _ s1) t) with (root_tag_get s1 t). rewrite Hex, Hrt by done.
    split; [auto|]. intros [->|?]; [by apply Hrt|done].
  - apply (inv_retag T m g _ s); try done; [by apply gfp_tag_set; [|rewrite Hr; apply HI]|]. intros t Ht'.
    change (set_gfp _ s1) with (root_tag_set s1 tag).
    by rewrite root_tag_set_get, Hex, orb_true_iff, Hrt, Z.eqb_eq by done.
Qed.

Lemma tag_set_ok T m g s i tag :
  rt_inv T m g s → index_ok i → 0 ≤ tag < 2 → m i ≠ 0 →
  ∃ s', radix_tree_tag_set s i tag = Some (s', m i) ∧ rt_inv T m (gput g tag i true) s' ∧ same_nodes s s'.
Proof.
  intros HI Hi Ht Hm. pose proof (inv_H _ _ _ _ HI) as HH. pose proof (item_pre _ _ _ _ HI i Hm) as Hpre.
  unfold radix_tree_tag_set.
  destruct (radix_tree_maxindex_ok (rheight (root s)) i HH Hi) as (mx & -> & Hmx & _). cbn [mbind option_bind].
  rewrite (proj2 Hmx Hpre).
  run_loop (λ k '(s1, slot, shift, h), k = Z.to_nat h ∧ 0 ≤ h ≤ rheight (root s) ∧
      slot = child_at T m (h + 1) (pre h i) ∧ shift = (h - 1) * RADIX_TREE_MAP_SHIFT ∧
      bits_are T s s1 (set_above g tag i h))
    (Z.to_nat (rheight (root s)))
    (λ r : rt_state * Z, r.2 = m i ∧ bits_are T s r.1 (set_above g tag i 0)) r HQ.
  - intros k [[[s1 slot] shift] h] (-> & Hh & -> & -> & Hba). destruct (Z.gtb_spec h 0) as [Hpos|Hz].
    2:{ assert (h = 0) as -> by lia. eexists; split; [done|]. cbn. unfold child_at. by rewrite decide_True, pre_0. }
    destruct (path_some _ _ _ _ HI h i Hm) as [p HT]; [lia|].
    assert (child_at T m (h + 1) (pre h i) = p) as ->.
    { unfold child_at. by rewrite decide_False, Z.add_simpl_r, HT by lia. }
    rewrite slot_offset_off by (unfold index_ok in Hi; lia).
    destruct (tag_set_level T m g s s1 i tag h p HI Hi Ht HT Hba) as (b & s2 & -> & E2 & Hba2). cbn [mbind option_bind].
    rewrite E2. cbn [mbind option_bind]. rewrite (bits_are_slot T m g s s2 _ h i p HI Hba2 Hi HT). cbn [mbind option_bind].
    pose proof (path_child _ _ _ _ i (h - 1) HI Hm ltac:(lia)) as Hc. rewrite Z.sub_add in Hc.
    destruct (Z.eqb_spec (child_at T m h (pre (h - 1) i)) 0); [done|].
    eexists; split; [done|]. cbn. exists (Z.to_nat (h - 1)). split; [lia|]. rewrite Z.sub_add. ands; try done; lia.
  - ands; try done; [lia|by apply (root_slot T m g)|]. eapply (bits_are_ext T m g); [done|by apply (bits_are_init T m g)|].
    intros h' k' t o Hh' _ _. unfold set_above. naive_solver lia.
  - lia.
  - destruct r as [s1 slot]. cbn in HQ. destruct HQ as [-> Hba]. cbn [mbind option_bind].
    assert (ctrue (m i) = true) as -> by by apply ctrue_true. cbn [andb]. eexists; split; [done|].
    split; [by apply (tag_set_root T m g s)|]. apply (same_nodes_gfp T s s1 _ _ _ Hba).
Qed.

(** ** The path of an index *)

(** [l] holds the nodes and offsets of the path of [i] from height [h] up to the root. *)
Fixpoint path_ok T (H i h : Z) (l : list (Z * Z)) : Prop :=
  match l with
  | [] => h = H + 1
  | (p, o) :: l => 1 ≤ h ≤ H ∧ T !! (h, pre h i) = Some p ∧ o = off h i ∧ path_ok T H i (h + 1) l
  end.

Lemma walk_path_ok T m g s i :
  rt_inv T m g s → index_ok i → pre (rheight (root s)) i = 0 →
  ∃ r, walk_path s i (rheight (root s)) = Some (m i, r) ∧
    match r with Some l => path_ok T (rheight (root s)) i 1 l | None => m i = 0 end.
Proof.
  intros HI Hi Hpre. pose proof (inv_H _ _ _ _ HI) as HH. assert (Hi0 : 0 ≤ i) by (unfold index_ok in Hi; lia).
  unfold walk_path.
  match goal with |- ∃ r, loop ?f ?st ?x = _ ∧ _ =>
    assert (∃ v, loop f st x = Some v ∧ v.1 = m i ∧
      match v.2 with Some l => path_ok T (rheight (root s)) i 1 l | None => m i = 0 end) as ([v r] & -> & Hv & Hr) end.
  2:{ cbn in *. subst v. by exists r. }
  apply (loop_rule_idx (λ k '(slot, shift, h, l), k = Z.to_nat h ∧ 0 ≤ h ≤ rheight (root s) ∧
    slot = child_at T m (h + 1) (pre h i) ∧ shift = (h - 1) * RADIX_TREE_MAP_SHIFT ∧
    path_ok T (rheight (root s)) i (h + 1) l) _ _ (Z.to_nat (rheight (root s)))); [| |lia].
  2:{ ands; try done; [lia|by apply (root_slot T m g)]. }
  intros k [[[slot shift] h] l] (-> & Hh & -> & -> & Hl). destruct (Z.gtb_spec h 0).
  2:{ assert (h = 0) as -> by lia. eexists; split; [done|]. cbn. unfold child_at. by rewrite decide_True, pre_0. }
  destruct (Z.eqb_spec (child_at T m (h + 1) (pre h i)) 0) as [E|E].
  { assert (Hm : m i = 0).
    { destruct (decide (m i = 0)) as [|Hm]; [done|]. by apply (path_child T m g s i h) in E. }
    eexists; split; [done|]. cbn. by rewrite E. }
  assert (HT : T !! (h, pre h i) = Some (child_at T m (h + 1) (pre h i))).
  { unfold child_at in E |- *. rewrite decide_False, Z.add_simpl_r in E |- * by lia. by destruct (T !! (h, pre h i)). }
  destruct (path_node _ _ _ _ HI h i _ Hi HT) as (n & Hn & Hok & Hr & _ & -> & -> & _). cbn [mbind option_bind].
  eexists; split; [done|]. cbn. exists (Z.to_nat (h - 1)). split; [lia|]. rewrite Z.sub_add. ands; try done; lia.
Qed.

(** ** Clearing a tag *)

Lemma tagged_under_clear g tag i t h j :
  t ≠ tag ∨ pre h i ≠ j → tagged_under (gput g tag i false) t h j ↔ tagged_under g t h j.
Proof.
  intros Hne. unfold tagged_under. split; intros (x & Hx & Hp & Hg); exists x; ands; try done.
  - unfold gput in Hg. by case_decide.
  - rewrite gput_ne; [done|]. destruct Hne; [by left|]. right. congruence.
Qed.

Lemma tagged_under_same g tag i t h j :
  g tag i = false → tagged_under (gput g tag i false) t h j ↔ tagged_under g t h j.
Proof.
  intros Hf. unfold tagged_under. split; intros (x & Hx & Hp & Hg); exists x; ands; try done.
  - unfold gput in Hg. by case_decide.
  - unfold gput. case_decide as Hd; [destruct Hd; congruence|done].
Qed.

(** Going up, the summaries below height [h] are those without the tag of [i]. *)
Definition clear_upto g tag i (h : Z) : Z → Z → Z → Z → Prop := λ h' k t o,
  tagged_under (if decide (h' < h) then gput g tag i false else g) t (h' - 1) (k * 64 + o).

(** A tag left under the node at height [h] keeps the summaries above. *)
Lemma clear_stop g tag i h j h' k o t :
  0 ≤ i → 0 ≤ h → h < h' → gput g tag i false tag j = true → 0 ≤ j → pre h j = pre h i → 0 ≤ o < 64 →
  tagged_under (gput g tag i false) t (h' - 1) (k * 64 + o) ↔ tagged_under g t (h' - 1) (k * 64 + o).
Proof.
  intros Hi Hh Hlt Hg Hj Hpre Ho. destruct (decide (t = tag ∧ pre (h' - 1) i = k * 64 + o)) as [[-> Hon]|Hne].
  - assert (Hp : pre (h' - 1) j = pre (h' - 1) i).
    { replace (h' - 1) with (h + (h' - 1 - h)) by lia. unfold pre in *.
      rewrite !Z.pow_add_r by lia. rewrite <- !Z.div_div; [|destruct (pow64_pos h), (pow64_pos (h' - 1 - h)); lia..].
      by rewrite Hpre. }
    split; intros _; exists j; ands; try done; try congruence. unfold gput in Hg. by case_decide.
  - apply tagged_under_clear. destruct (decide (t = tag)); naive_solver.
Qed.

Lemma gput_false_le g tag i t j : gput g tag i false t j = true → g t j = true.
Proof. unfold gput. by case_decide. Qed.

Lemma bits_are_any T s s' P h k p tag :
  bits_are T s s' P → T !! (h, k) = Some p → 0 ≤ tag < 2 →
  ∃ b : bool, any_tag_set s' p tag = Some b ∧ (b = true ↔ ∃ o, 0 ≤ o < 64 ∧ P h k tag o).
Proof.
  intros Hba HT Ht. destruct (ba_nodes _ _ _ _ Hba h k p HT) as (n & n' & _ & Hn' & [] & Hb).
  destruct (any_tag_set_ok s' p n' tag Hn') as (b & E & Hiff); [done|done|]. exists b. split; [done|].
  rewrite Hiff. split; intros (o & Ho & H); exists o; (split; [done|]); by apply Hb.
Qed.

Section ClearUp.
Context T m g s i tag (HI : rt_inv T m g s) (Hi : index_ok i) (Ht : 0 ≤ tag < 2).
Abbreviation g' := (gput g tag i false).
Abbreviation without := (λ h k t o, tagged_under g' t (h - 1) (k * 64 + o)).

(** What the loop up the path leaves: the bits without the tag of [i]; the root keeps its
    tag if the loop was left early. *)
Definition cleared s' (up : bool) : Prop :=
  bits_are T s s' without ∧
  if up then ∀ j, g' tag j = false else (∃ j, g' tag j = true) ↔ ∃ j, g tag j = true.

(** At height [h] the bit of [i] goes, and with it level [h] is done. *)
Lemma clear_level h s' p :
  bits_are T s s' (clear_upto g tag i h) → T !! (h, pre h i) = Some p → 1 ≤ h →
  ¬ tagged_under g' tag (h - 1) (pre (h - 1) i) →
  ∃ s'', tag_clear s' p tag (off h i) = Some s'' ∧ bits_are T s s'' (clear_upto g tag i (h + 1)).
Proof.
  intros Hba HT Hh Hno. pose proof (off_range h i) as Ho.
  apply (bits_are_clear T m g s s' (clear_upto g tag i h) _ h (pre h i)); try done; unfold clear_upto.
  - intros h' k t o Ht' Ho' Hne. destruct (decide (h' < h)).
    + by rewrite decide_True by lia.
    + case_decide; [|done]. replace h' with h by lia. apply tagged_under_clear.
      destruct (decide (t = tag)) as [->|]; [right|by left]. intros Hon%pre_off_inj; [|lia|done].
      destruct Hon. apply Hne. f_equal; [f_equal; f_equal|]; done || lia.
  - rewrite decide_True by lia. by rewrite <- pre_step.
Qed.

Lemma tag_clear_up_ok l h s' :
  path_ok T (rheight (root s)) i h l → 1 ≤ h → bits_are T s s' (clear_upto g tag i h) →
  ¬ tagged_under g' tag (h - 1) (pre (h - 1) i) → pre (rheight (root s)) i = 0 →
  ∃ s'' up, tag_clear_up s' tag l = Some (s'', up) ∧ cleared s'' up.
Proof.
  assert (Hi0 : 0 ≤ i) by (unfold index_ok in Hi; lia).
  revert h s'. induction l as [|[p o] l IH]; intros h s' Hl Hh Hba Hno Hpre; cbn [path_ok tag_clear_up] in *.
  - subst h. exists s', true. split; [done|]. split.
    + eapply (bits_are_ext T m g); [done..|]. intros h k t o Hh' _ _. unfold clear_upto.
      by rewrite decide_True by lia.
    + intros j. destruct (g' tag j) eqn:E; [|done]. exfalso. apply Hno. rewrite Z.add_simpl_r. exists j.
      pose proof (inv_tags _ _ _ _ HI _ _ Ht (gput_false_le _ _ _ _ _ E)) as Hm.
      destruct (inv_items _ _ _ _ HI j Hm) as ([? _] & _). ands; try done.
      rewrite Hpre. by apply (item_pre _ _ _ _ HI).
  - destruct Hl as (Hh' & HT & -> & Hl). pose proof (off_range h i) as Ho.
    destruct (bits_are_read _ _ _ _ _ _ _ tag (off h i) Hba HT Ht Ho) as (b & -> & Hb). cbn [mbind option_bind].
    destruct b; cbn [negb].
    2:{ exists s', false. split; [done|].
        assert (Hg : g tag i = false).
        { destruct (g tag i) eqn:E; [|done]. destruct Hb as [_ Hb]. discriminate Hb.
          unfold clear_upto. rewrite decide_False, <- pre_step by lia. by exists i. }
        split.
        - eapply (bits_are_ext T m g); [done..|]. intros h' k t o _ _ _. unfold clear_upto.
          case_decide; [done|]. by rewrite tagged_under_same.
        - split; intros [j Hj]; exists j; [by eapply gput_false_le|]. unfold gput. case_decide as Hd; [|done].
          destruct Hd; congruence. }
    destruct (clear_level h s' p) as (s2 & -> & Hba2); try done. cbn [mbind option_bind].
    destruct (bits_are_any _ _ _ _ _ _ _ tag Hba2 HT Ht) as (a & -> & Ha). cbn [mbind option_bind].
    assert (Hun : ∀ o j, 0 ≤ o < 64 → pre (h - 1) j = pre h i * 64 + o → pre h j = pre h i).
    { intros o j Ho' Hp. apply pre_off_inj in Hp as [? _]; [done|lia|done]. }
    unfold clear_upto in Ha. rewrite decide_True in Ha by lia. destruct a.
    + exists s2, false. split; [done|]. destruct (proj1 Ha eq_refl) as (o & Ho' & j & Hj & Hp & Hg).
      apply Hun in Hp; [|done]. split.
      * eapply (bits_are_ext T m g); [done..|]. intros h' k t o' _ _ Ho2. unfold clear_upto.
        case_decide; [done|]. symmetry. apply (clear_stop g tag i h j); done || lia.
      * split; intros [x Hx]; [exists x; by eapply gput_false_le|by exists j].
    + apply (IH (h + 1)); try done; [lia|]. rewrite Z.add_simpl_r. intros (j & Hj & Hp & Hg).
      destruct Ha as [_ Ha]. discriminate Ha. exists (off h j). split; [apply off_range|]. exists j.
      ands; try done. rewrite <- Hp. apply pre_step. lia.
Qed.
End ClearUp.

Lemma inv_ext T m m' g g' s :
  rt_inv T m g s → (∀ i, m' i = m i) → (∀ tag i, 0 ≤ tag < 2 → g' tag i = g tag i) → rt_inv T m' g' s.
Proof.
  intros HI Hm Hg.
  assert (Hu : ∀ tag h j, 0 ≤ tag < 2 → tagged_under g' tag h j ↔ tagged_under g tag h j).
  { intros tag h j Ht. unfold tagged_under. by setoid_rewrite (Hg tag _ Ht). }
  split; try apply HI.
  - rewrite (inv_root _ _ _ _ HI). unfold root_ptr. by rewrite Hm.
  - intros h k p HT. destruct (inv_node _ _ _ _ HI h k p HT) as (n & Hn & Hok). exists n. split; [done|].
    apply (node_ok_ext T T m m' g g'); try done; [|intros; by apply Hu].
    intros o Ho. unfold child_at. by rewrite Hm.
  - intros i. rewrite Hm. apply HI.
  - intros tag i Ht. rewrite Hm, Hg by done. by apply HI.
  - intros tag Ht. rewrite (inv_rtags _ _ _ _ HI) by done. by setoid_rewrite (Hg tag _ Ht).
Qed.

Lemma inv_gclear T m g s tag i : rt_inv T m g s → 0 ≤ tag < 2 → m i = 0 → rt_inv T m (gput g tag i false) s.
Proof.
  intros HI Ht Hm. apply (inv_ext T m _ g); try done. intros t j Ht'. unfold gput. case_decide as Hd; [|done].
  destruct Hd as [-> ->]. symmetry. by apply (no_item_no_tag T m g s).
Qed.

Lemma cleared_inv T m g s i tag s' up :
  rt_inv T m g s → 0 ≤ tag < 2 → cleared T g s i tag s' up →
  rt_inv T m (gput g tag i false) (if up && root_tag_get s' tag then root_tag_clear s' tag else s').
Proof.
  intros HI Ht [Hba Hup]. pose proof (ba_root _ _ _ _ Hba) as Hr.
  assert (Hg : ∀ t j, 0 ≤ t < 2 → gput g tag i false t j = true → m j ≠ 0).
  { intros t j Ht' Hg%gput_false_le. by eapply inv_tags. }
  assert (Hrt : ∀ t, 0 ≤ t < 2 → root_tag_get s' t = true ↔ ∃ j, g t j = true).
  { intros t Ht'. rewrite <- (inv_rtags _ _ _ _ HI t Ht'). unfold root_tag_get. by rewrite Hr. }
  assert (Hne : ∀ t, t ≠ tag → (∃ j, gput g tag i false t j = true) ↔ ∃ j, g t j = true).
  { intros t Hne. split; intros [j Hj]; exists j; [by eapply gput_false_le|]. rewrite gput_ne; auto. }
  assert (Hkeep : (∃ j, gput g tag i false tag j = true) ↔ (∃ j, g tag j = true) → rt_inv T m (gput g tag i false) s').
  { intros Hk. replace s' with (set_gfp (gfp_mask (root s')) s') by (by destruct s' as [[]]).
    apply (inv_retag T m g _ s); try done; [rewrite Hr; apply HI|]. intros t Ht'.
    change (root_tag_get (set_gfp _ s') t) with (root_tag_get s' t). rewrite Hrt by done.
    destruct (decide (t = tag)) as [->|]; [by rewrite Hk|by rewrite Hne]. }
  destruct up; cbn [andb]; [|by apply Hkeep].
  destruct (root_tag_get s' tag) eqn:Er.
  - apply (inv_retag T m g _ s); try done; [apply gfp_tag_clear; rewrite Hr; apply HI|]. intros t Ht'.
    change (set_gfp _ s') with (root_tag_clear s' tag). rewrite root_tag_clear_get by done.
    destruct (Z.eqb_spec t tag) as [->|]; cbn [negb andb].
    + split; [done|]. intros [j Hj]. by rewrite Hup in Hj.
    + by rewrite Hrt, Hne.
  - apply Hkeep. rewrite <- Hrt, Er by done. split; [|done]. intros [j Hj]. by rewrite Hup in Hj.
Qed.

Lemma tag_clear_ok T m g s i tag :
  rt_inv T m g s → index_ok i → 0 ≤ tag < 2 →
  ∃ s', radix_tree_tag_clear s i tag = Some (s', m i) ∧ rt_inv T m (gput g tag i false) s' ∧ same_nodes s s'.
Proof.
  intros HI Hi Ht. unfold radix_tree_tag_clear.
  destruct (radix_tree_maxindex_ok (rheight (root s)) i (inv_H _ _ _ _ HI) Hi) as (mx & -> & Hmx & _).
  cbn [mbind option_bind]. destruct (i >? mx) eqn:E.
  { assert (Hm : m i = 0).
    { destruct (decide (m i = 0)) as [|Hm]; [done|]. apply (item_pre _ _ _ _ HI) in Hm. by apply Hmx in Hm. }
    exists s. rewrite Hm. ands; try done. by apply inv_gclear. }
  assert (Hpre : pre (rheight (root s)) i = 0) by by apply Hmx.
  destruct (walk_path_ok T m g s i HI Hi Hpre) as (r & -> & Hr). cbn [mbind option_bind].
  destruct r as [l|].
  2:{ exists s. ands; try done. by apply inv_gclear. }
  destruct (Z.eqb_spec (m i) 0) as [Hm|Hm].
  { exists s. ands; try done. by apply inv_gclear. }
  destruct (tag_clear_up_ok T m g s i tag HI Hi Ht l 1 s) as (s1 & up & -> & Hc); try done.
  - eapply (bits_are_ext T m g); [done|by apply (bits_are_init T m g)|]. intros h k t o Hh _ _. unfold clear_upto.
    by rewrite decide_False by lia.
  - intros (j & _ & Hj & Hg). rewrite !pre_0 in Hj. subst. by rewrite gput_eq in Hg.
  - cbn [mbind option_bind]. eexists; split; [done|]. split; [by apply (cleared_inv T m g s)|].
    destruct Hc as [Hba _]. apply (same_nodes_gfp T s s1 _ _ _ Hba).
Qed.
