(* ===== verification/RadixTreeDelete.v ===== *)
(** * Deletion from the radix tree

    [radix_tree_delete] removes the item and its tags, unlinks and frees the nodes that
    become empty, and lowers the tree while its root has only its first slot. *)

From stdpp Require Import gmap.
From S2P Require Import Prelude Bitops RadixTree RadixTreeInv RadixTreeLookup RadixTreeInsert RadixTreeTags.
#[local] Open Scope Z_scope.
#[local] Open Scope kernel_scope.
Implicit Types (T : ghost) (m : Z → Z) (g : Z → Z → bool) (s : rt_state).

(** ** Freeing a node *)

Lemma node_bit_out n tag o : tags_wf n → 0 ≤ o → ¬ (0 ≤ tag < 2 ∧ 0 ≤ o < 64) → node_bit n tag o = false.
Proof.
  intros Hwf Ho Hout. unfold node_bit. destruct ((tags n).[tag]) as [ws|] eqn:E; [|done].
  pose proof (arr_get_Some_lt _ _ _ E) as Ht. destruct Hwf as [Hl Hf].
  destruct (Forall_arr_get _ _ _ _ Hf E) as [Hl2 _]. unfold bit. change BITS_PER_LONG with 32.
  rewrite arr_get_None; [done|]. intros [_ Hlt]. assert (64 ≤ o) by lia.
  pose proof (Z.div_le_mono 64 o 32 ltac:(lia) ltac:(lia)). change (64 / 32) with 2 in *. lia.
Qed.

(** All that is left in the node is in its first slot. *)
Record first_only (n : radix_tree_node) : Prop := {
  fo_len : alen (slots n) = 64;
  fo_tags : tags_wf n;
  fo_slots : ∀ o, o ≠ 0 → slot_at n o = 0;
  fo_bits : ∀ tag o, 0 ≤ tag < 2 → 0 < o < 64 → node_bit n tag o = false }.

Lemma node_free_ok T m g s p n :
  rt_inv T m g s → fresh T s p → nodes s !! p = Some n → first_only n →
  ∃ s', radix_tree_node_free s p = Some s' ∧ rt_inv T m g s' ∧ root s' = root s ∧
    (∀ q, q ≠ p → nodes s' !! q = nodes s !! q) ∧ (∀ q, pooled s' q ↔ q = p ∨ pooled s q).
Proof.
  intros HI Hf Hn [Hl Hwf Hs Hb]. unfold radix_tree_node_free, tag_clear.
  destruct (node_tag_clear_ok n 0 0 Hwf) as (n1 & E1 & [Hh1 Hc1 Hs1 Hw1 Hb1]); [lia|lia|].
  destruct (node_tag_clear_ok n1 1 0 Hw1) as (n2 & E2 & [Hh2 Hc2 Hs2 Hw2 Hb2]); [lia|lia|].
  assert (Hl2 : alen (slots n2) = 64) by congruence.
  rewrite (upd_node_ok s p _ n n1 Hn E1). cbn [mbind option_bind].
  rewrite (upd_node_again s p _ n1 n2 E2). cbn [mbind option_bind].
  rewrite (upd_node_again s p _ n2 _ (set_slot_put 0 0 n2 Hl2 ltac:(lia))). cbn [mbind option_bind].
  erewrite upd_node_again by done. cbn [mbind option_bind].
  set (n3 := with_count 0 (put_slot 0 0 n2)).
  assert (Hsl : ∀ o, slot_at n3 o = 0).
  { intros o. change (slot_at n3 o) with (slot_at (put_slot 0 0 n2) o). rewrite slot_at_put by (done || lia).
    case_decide; [done|]. unfold slot_at. rewrite Hs2, Hs1. by apply Hs. }
  assert (Hz : zeroed n3).
  { assert (Hl3 : alen (slots n3) = 64) by (unfold n3, put_slot; cbn; by rewrite alen_insert).
    split; [split; [done| |done]|done|].
    - symmetry. by apply used_zero_iff.
    - intros tag o Ho. destruct (decide (0 ≤ tag < 2 ∧ 0 ≤ o < 64)) as [[Ht Ho']|]; [|by apply node_bit_out].
      change (node_bit n3 tag o) with (node_bit n2 tag o). rewrite Hb2, Hb1 by done.
      destruct (Z.eqb_spec o 0) as [->|]; cbn.
      + assert (tag = 0 ∨ tag = 1) as [-> | ->] by lia; done.
      + rewrite Hb by lia. by repeat case_decide. }
  eexists; split; [done|]. destruct Hf as (Hga & HTp & Hfp).
  destruct (inv_preloads _ _ _ _ HI) as (Hnd & Hlen & Hdis).
  assert (HI3 : rt_inv T m g (set_node p n3 s)) by (by apply inv_set_fresh).
  assert (Hpool : ∀ q, pooled (RState (root s) (<[p:=n3]> (nodes s)) ({[p]} ∪ free s) (preloads s)) q ↔ q = p ∨ pooled s q).
  { intros q. unfold pooled. cbn. set_solver. }
  split; [|split; [done|split; [intros q Hq; by apply nodes_set_ne|exact Hpool]]].
  split; cbn [root set_node nodes free preloads]; try apply HI3.
  - intros h k q HT. rewrite Hpool. destruct (inv_dom _ _ _ _ HI h k q HT) as (? & ? & ? & ?).
    ands; try done; try lia. intros [->|?]; [by eapply HTp|done].
  - intros q [->|Hq]%Hpool.
    + split; [done|]. exists n3. split; [apply lookup_insert_eq|done].
    + rewrite lookup_insert_ne by (by intros ->). by apply (inv_pool _ _ _ _ HI).
  - cbn. ands; try done. intros q [->%elem_of_singleton|Hq]%elem_of_union; [|auto]. intros Hin. apply Hfp. by right.
Qed.

(** The freed node was the only one of the heap that was nowhere. *)
Lemma free_owned T T' s s1 s' p :
  (∀ q, q ≠ p → nodes s' !! q = nodes s1 !! q) → (∀ q, pooled s' q ↔ q = p ∨ pooled s1 q) →
  (∀ q, is_Some (nodes s1 !! q) → is_Some (nodes s !! q)) → (∀ q, pooled s1 q ↔ pooled s q) →
  (∀ hk q, T !! hk = Some q → T' !! hk = Some q ∨ q = p) → owned T s → owned T' s'.
Proof.
  intros Hn Hp Hn1 Hp1 HT Ho q Hq. rewrite Hp. destruct (decide (q = p)) as [->|Hne]; [by left; left|].
  rewrite Hn in Hq by done. destruct (Ho q (Hn1 q Hq)) as [Hpq|[hk Hhk]]; [left; right; by apply Hp1|].
  destruct (HT _ _ Hhk); [right; by exists hk|done].
Qed.

(** ** Unlinking an empty node *)

Lemma empty_below T m g s h k p n :
  rt_inv T m g s → T !! (h, k) = Some p → nodes s !! p = Some n → (∀ o, slot_at n o = 0) →
  (∀ h' k' q, T !! (h', k') = Some q → (h' + 1, k' / 64) ≠ (h, k)) ∧ (∀ i, m i ≠ 0 → (1, pre 1 i) ≠ (h, k)) ∧
  first_only n.
Proof.
  intros HI HT Hn Hz. destruct (inv_node _ _ _ _ HI h k p HT) as (n' & Hn' & Hok). simplify_eq.
  destruct (inv_dom _ _ _ _ HI _ _ _ HT) as (Hh & Hk & _).
  assert (Hc : ∀ o, 0 ≤ o < 64 → child_at T m h (k * 64 + o) = 0).
  { intros o Ho. by rewrite <- (nk_slots _ _ _ _ _ _ Hok). }
  split; [|split].
  - intros h' k' q HTq [= <- <-]. destruct (inv_dom _ _ _ _ HI _ _ _ HTq) as (Hh' & _ & [? _] & _).
    specialize (Hc (k' mod 64) (Z.mod_pos_bound k' 64 ltac:(lia))).
    replace (k' / 64 * 64 + k' mod 64) with k' in Hc by (pose proof (Z.div_mod k' 64); lia).
    unfold child_at in Hc. rewrite decide_False, Z.add_simpl_r, HTq in Hc by lia. cbn in Hc. lia.
  - intros i Hm [= <- <-]. specialize (Hc (off 1 i) (off_range 1 i)).
    rewrite <- pre_step, pre_0 in Hc by lia. done.
  - split; try done; [apply Hok..|]. intros tag o Ht Ho. destruct (node_bit n tag o) eqn:E; [|done].
    apply (nk_bits _ _ _ _ _ _ Hok) in E as (i & Hi & Hp & Hg); [|done|lia].
    apply (inv_tags _ _ _ _ HI) in Hg; [|done]. exfalso. apply Hg.
    apply (child_none _ _ _ _ HI h i Hh). rewrite Hp. apply Hc. lia.
Qed.

Lemma count_pred T m g h k n o :
  node_ok T m g h k n → 0 ≤ o < 64 → slot_at n o ≠ 0 → u32 (count n - 1) = count n - 1.
Proof.
  intros Hok Ho Hs. destruct (nk_wf _ _ _ _ _ _ Hok) as [Hl Hc _]. pose proof (used_range n Hl).
  assert (used (slots n) ≠ 0). { intros Hu. rewrite used_zero_iff in Hu by done. by apply Hs. }
  rewrite Hc. apply uwrap_small. unfold urange. lia.
Qed.

Lemma child_delete_ne T m h k h' j : (h' - 1, j) ≠ (h, k) → child_at (delete (h, k) T) m h' j = child_at T m h' j.
Proof. intros Hne. unfold child_at. case_decide; [done|]. by rewrite lookup_delete_ne by congruence. Qed.

(** After a node is taken away only its parent may have lost its children. *)
Lemma full_but_delete T m h k h1 :
  full_but T m (h, k) → h1 = h + 1 → full_but (delete (h, k) T) m (h1, k / 64).
Proof.
  intros Hf -> h' k' p HT Hne. apply lookup_delete_Some in HT as [Hne' HT].
  destruct (Hf _ _ _ HT) as (o & Ho & Hc); [congruence|]. exists o. split; [done|].
  rewrite child_delete_ne; [done|]. intros [= H1 H2]. apply Hne. f_equal; [lia|].
  rewrite <- H2, Z.div_add_l, Z.div_small by lia. lia.
Qed.

Lemma full_but_full T m h k : full_but T m (h, k) → has_child T m h k → ∀ hk, full_but T m hk.
Proof. intros Hf Hc hk h' k' p HT _. destruct (decide ((h', k') = (h, k))) as [[= -> ->]|]; [done|]. by eapply Hf. Qed.

Lemma unlink T m g s h k p q np nq :
  rt_inv T m g s → T !! (h, k) = Some p → nodes s !! p = Some np → (∀ o, slot_at np o = 0) →
  T !! (h + 1, k / 64) = Some q → nodes s !! q = Some nq →
  let s' := set_node q (with_count (u32 (count nq - 1)) (put_slot (k mod 64) 0 nq)) s in
  rt_inv (delete (h, k) T) m g s' ∧ fresh (delete (h, k) T) s' p ∧ nodes s' !! p = Some np.
Proof.
  cbv zeta. intros HI HT Hnp Hz HTq Hnq. destruct (empty_below _ _ _ _ _ _ _ _ HI HT Hnp Hz) as (Hsub & Hit & _).
  destruct (inv_dom _ _ _ _ HI _ _ _ HT) as (Hh & Hk & Hgp & Hfp).
  destruct (inv_dom _ _ _ _ HI _ _ _ HTq) as (Hhq & _ & Hgq & Hfq).
  destruct (inv_node _ _ _ _ HI _ _ _ HTq) as (nq' & Hnq' & Hokq). simplify_eq.
  assert (Hpq : p ≠ q). { intros ->. pose proof (inv_inj _ _ _ _ HI _ _ _ HT HTq) as [=]. lia. }
  pose proof (Z.mod_pos_bound k 64 ltac:(lia)) as Hmod. pose proof (Z.div_mod k 64 ltac:(lia)) as Hdiv.
  assert (Hkk : k / 64 * 64 + k mod 64 = k) by lia.
  assert (Hsl : slot_at nq (k mod 64) = p).
  { rewrite (nk_slots _ _ _ _ _ _ Hokq), Hkk by done. unfold child_at. by rewrite decide_False, Z.add_simpl_r, HT by lia. }
  assert (Hp0 : slot_at nq (k mod 64) ≠ 0) by (rewrite Hsl; destruct Hgp; lia).
  assert (Hcn := child_delete_ne T m h k).
  split; [|split].
  - split; cbn [root set_node]; try apply HI.
    + rewrite (inv_root _ _ _ _ HI). unfold root_ptr. case_decide; [done|].
      rewrite lookup_delete_ne; [done|]. intros [=]. lia.
    + intros h' k' p' HT'. apply lookup_delete_Some in HT' as [_ HT']. by apply (inv_dom _ _ _ _ HI).
    + intros h' k' p' HT'. apply lookup_delete_Some in HT' as [_ HT'].
      pose proof (inv_up _ _ _ _ HI _ _ _ HT') as Hu. case_decide; [done|].
      rewrite lookup_delete_ne; [done|]. intros Heq. by eapply Hsub.
    + intros hk hk' r H1 H2. apply lookup_delete_Some in H1 as [_ H1]. apply lookup_delete_Some in H2 as [_ H2].
      by apply (inv_inj _ _ _ _ HI hk hk' r).
    + intros h' k' p' HT'. apply lookup_delete_Some in HT' as [Hne HT']. destruct (decide (p' = q)) as [->|Hne'].
      * pose proof (inv_inj _ _ _ _ HI _ _ _ HT' HTq) as [= -> ->]. rewrite nodes_set_eq. eexists; split; [done|].
        apply (node_ok_put T _ m m); try done.
        -- rewrite Hkk. unfold child_at. by rewrite decide_False, Z.add_simpl_r, lookup_delete_eq by lia.
        -- rewrite (count_pred _ _ _ _ _ _ _ Hokq Hmod Hp0). unfold null_cost.
           rewrite (decide_False (P := slot_at nq (k mod 64) = 0)), (decide_True (P := 0 = 0)) by done. lia.
        -- intros o Ho Hne'. apply Hcn. intros [=]. lia.
      * rewrite nodes_set_ne by done. destruct (inv_node _ _ _ _ HI _ _ _ HT') as (n' & Hn' & Hok').
        exists n'. split; [done|]. apply (node_ok_ext T _ m m g g); try done. intros o Ho. apply Hcn.
        intros [= H1 H2]. apply Hne'. replace h' with (h + 1) in HT' by lia. replace k' with (k / 64) in HT' by lia. congruence.
    + intros i Hi. destruct (inv_items _ _ _ _ HI i Hi) as (? & ? & Hr). ands; try done. case_decide; [done|].
      rewrite lookup_delete_ne; [done|]. intros Heq. by eapply Hit.
    + intros r Hr. rewrite nodes_set_ne by (by intros ->). by apply (inv_pool _ _ _ _ HI).
  - split; [done|]. split; [|done]. intros hk Hhk. apply lookup_delete_Some in Hhk as [Hne Hhk].
    by apply Hne, (inv_inj _ _ _ _ HI _ _ p).
  - rewrite nodes_set_ne by done. done.
Qed.

(** ** Lowering the tree *)

Lemma root_only_child T m g s p n :
  rt_inv T m g s → T !! (rheight (root s), 0) = Some p → nodes s !! p = Some n →
  count n = 1 → slot_at n 0 ≠ 0 →
  (∀ j, 0 ≤ j → child_at T m (rheight (root s)) j ≠ 0 → j = 0) ∧ first_only n.
Proof.
  intros HI HT Hn Hc1 Hs0. destruct (inv_node _ _ _ _ HI _ _ _ HT) as (n' & Hn' & Hok). simplify_eq.
  destruct (nk_wf _ _ _ _ _ _ Hok) as [Hl Hc Htw].
  destruct (inv_dom _ _ _ _ HI _ _ _ HT) as (Hh & _).
  assert (Hone : ∀ o, o ≠ 0 → slot_at n o = 0).
  { intros o Ho. apply (used_one n 0); done || congruence || lia. }
  split.
  - intros j Hj Hch. destruct (decide (j = 0)) as [|Hj0]; [done|]. exfalso.
    assert (Hlt : 64 ≤ j).
    { destruct (decide (64 ≤ j)); [done|]. exfalso. apply Hch.
      pose proof (nk_slots _ _ _ _ _ _ Hok j ltac:(lia)) as Hsj. rewrite Hone in Hsj by done. by rewrite Z.mul_0_l in Hsj. }
    unfold child_at in Hch. case_decide as Hd.
    + pose proof (item_pre _ _ _ _ HI j Hch) as Hp. rewrite Hd in Hp. unfold pre in Hp.
      rewrite Z.div_small_iff in Hp; lia.
    + destruct (T !! (rheight (root s) - 1, j)) as [q|] eqn:E; [|done].
      pose proof (inv_up _ _ _ _ HI _ _ _ E) as Hu. rewrite decide_False, Z.sub_add in Hu by lia. destruct Hu as [r Hr].
      pose proof (inv_up _ _ _ _ HI _ _ _ Hr) as Hz. rewrite decide_True in Hz by done.
      rewrite Z.div_small_iff in Hz; lia.
  - split; try done. intros tag o Ht Ho. destruct (node_bit n tag o) eqn:E; [|done].
    apply (nk_bits _ _ _ _ _ _ Hok) in E as (i & Hi & Hp & Hg); [|done|lia].
    apply (inv_tags _ _ _ _ HI) in Hg; [|done]. exfalso. apply Hg.
    apply (child_none _ _ _ _ HI (rheight (root s)) i Hh). rewrite Hp, <- (nk_slots _ _ _ _ _ _ Hok) by lia. apply Hone. lia.
Qed.

Lemma shrink_root T m g s p n :
  rt_inv T m g s → T !! (rheight (root s), 0) = Some p → nodes s !! p = Some n →
  count n = 1 → slot_at n 0 ≠ 0 →
  let newptr := if rheight (root s) >? 1 then radix_tree_ptr_to_indirect (slot_at n 0) else slot_at n 0 in
  let s' := set_rheight (rheight (root s) - 1) (set_rnode newptr s) in
  let T' := delete (rheight (root s), 0) T in
  rt_inv T' m g s' ∧ fresh T' s' p ∧ (0 < rheight (root s) - 1 → T' !! (rheight (root s) - 1, 0) ≠ None).
Proof.
  intros HI HT Hn Hc1 Hs0 newptr s' T'. destruct (root_only_child _ _ _ _ _ _ HI HT Hn Hc1 Hs0) as [Hch _].
  destruct (inv_dom _ _ _ _ HI _ _ _ HT) as (Hh & _ & Hgp & Hfp).
  destruct (inv_node _ _ _ _ HI _ _ _ HT) as (n' & Hn' & Hok). simplify_eq.
  pose proof (nk_slots _ _ _ _ _ _ Hok 0 ltac:(lia)) as Hs. rewrite Z.mul_0_l, Z.add_0_l in Hs.
  set (H := rheight (root s)) in *. pose proof (inv_H _ _ _ _ HI) as HH. fold H in HH.
  assert (Htop : ∀ k q, T !! (H, k) = Some q → k = 0).
  { intros k q Hq. pose proof (inv_up _ _ _ _ HI _ _ _ Hq) as Hu. by rewrite decide_True in Hu. }
  assert (Hdel : ∀ h k, h ≠ H → T' !! (h, k) = T !! (h, k)) by (intros h k Hne; apply lookup_delete_ne; congruence).
  assert (Hin : ∀ h k q, T' !! (h, k) = Some q → T !! (h, k) = Some q ∧ h < H).
  { intros h k q Hq. apply lookup_delete_Some in Hq as [Hne Hq]. split; [done|].
    destruct (inv_dom _ _ _ _ HI _ _ _ Hq) as (Hh' & _). fold H in Hh'.
    destruct (decide (h = H)) as [->|]; [|lia]. by rewrite (Htop _ _ Hq) in Hne. }
  assert (Hc0 : 1 < H → ∃ q, T !! (H - 1, 0) = Some q ∧ slot_at n 0 = q ∧ good_addr q).
  { intros H1. unfold child_at in Hs. rewrite decide_False in Hs by lia.
    destruct (T !! (H - 1, 0)) as [q|] eqn:E; [|by rewrite Hs in Hs0]. exists q. ands; try done.
    by destruct (inv_dom _ _ _ _ HI _ _ _ E) as (_ & _ & ? & _). }
  split; [|split].
  - split; cbn [s' root set_rheight set_rnode set_root rheight gfp_mask rnode]; try apply HI.
    + lia.
    + unfold root_ptr, newptr. destruct (Z.gtb_spec H 1).
      * destruct Hc0 as (q & Hq & -> & [_ Hev]); [lia|].
        rewrite decide_False, Hdel, Hq, ptr_to_indirect_even by (done || lia). done.
      * rewrite decide_True by lia. rewrite Hs. unfold child_at. by rewrite decide_True by lia.
    + intros h k q Hq. apply Hin in Hq as [Hq Hlt]. destruct (inv_dom _ _ _ _ HI _ _ _ Hq) as (? & ? & ? & ?).
      ands; done || lia.
    + intros h k q Hq. apply Hin in Hq as [Hq Hlt]. pose proof (inv_up _ _ _ _ HI _ _ _ Hq) as Hu.
      fold H in Hu. rewrite decide_False in Hu by lia. case_decide as Hd.
      * destruct (inv_dom _ _ _ _ HI _ _ _ Hq) as (? & ? & [? _] & _). apply Hch; [done|].
        unfold child_at. rewrite decide_False by lia. subst h. rewrite Hq. cbn. lia.
      * by rewrite Hdel by lia.
    + intros [h k] [h' k'] q Hq Hq'. apply Hin in Hq as [Hq _]. apply Hin in Hq' as [Hq' _].
      by apply (inv_inj _ _ _ _ HI _ _ q).
    + intros h k q Hq. apply Hin in Hq as [Hq Hlt]. destruct (inv_node _ _ _ _ HI _ _ _ Hq) as (n' & Hn' & Hok').
      exists n'. split; [done|]. apply (node_ok_ext T _ m m g g); try done. intros o Ho. unfold child_at.
      case_decide; [done|]. by rewrite Hdel by lia.
    + intros i Hi. destruct (inv_items _ _ _ _ HI i Hi) as (Hix & Hev & Hr). ands; try done.
      fold H in Hr. rewrite decide_False in Hr by lia. case_decide as Hd; [|by rewrite Hdel by lia].
      apply Hch; [apply Hix|]. unfold child_at. by rewrite decide_True by lia.
  - split; [done|]. split; [|done]. intros [h k] Hq. pose proof Hq as Hq'. apply Hin in Hq as [Hq Hlt].
    pose proof (inv_inj _ _ _ _ HI _ _ _ Hq HT) as [=]. lia.
  - intros H1. destruct Hc0 as (q & Hq & _); [lia|]. rewrite Hdel by lia. congruence.
Qed.

(** A used slot. *)
Lemma used_slot n : alen (slots n) = 64 → used (slots n) ≠ 0 → ∃ o, 0 ≤ o < 64 ∧ slot_at n o ≠ 0.
Proof.
  intros Hl Hu. unfold used, alen in Hu. destruct (filter (λ v, v ≠ 0) (slots n)) as [|v l] eqn:E; [done|].
  assert (Hin : v ∈ filter (λ v, v ≠ 0) (slots n)) by (rewrite E; set_solver).
  apply list_elem_of_filter in Hin as [Hv [i Hi]%list_elem_of_lookup_1]. exists (Z.of_nat i).
  pose proof (lookup_lt_Some _ _ _ Hi). unfold alen in Hl. split; [lia|]. unfold slot_at. by rewrite arr_get_lookup, Hi.
Qed.

Lemma count_child T m g h k n : node_ok T m g h k n → count n ≠ 0 → has_child T m h k.
Proof.
  intros Hok Hc. destruct (nk_wf _ _ _ _ _ _ Hok) as [Hl Hu _]. destruct (used_slot n Hl) as (o & Ho & Hs); [congruence|].
  exists o. split; [done|]. by rewrite <- (nk_slots _ _ _ _ _ _ Hok).
Qed.

(** A root that the loop does not take away needs its height. *)
Lemma keep_root T m g H n :
  node_ok T m g H 0 n → has_child T m H 0 → count n ≠ 1 ∨ slot_at n 0 = 0 → high T m H.
Proof.
  intros Hok (o & Ho & Hc) Hd _. destruct (nk_wf _ _ _ _ _ _ Hok) as [Hl Hu _].
  rewrite <- (nk_slots _ _ _ _ _ _ Hok) in Hc by done.
  assert (used (slots n) ≠ 0) by (intros Hz; rewrite used_zero_iff in Hz by done; by apply Hc).
  destruct (decide (slot_at n 0 = 0)) as [E|E].
  - exists o. split; [destruct (decide (o = 0)); [by subst|lia]|]. by rewrite (nk_slots _ _ _ _ _ _ Hok) in Hc.
  - assert (Hput := used_put 0 0 n Hl ltac:(lia)). rewrite decide_False, decide_True in Hput by done.
    destruct (used_slot (put_slot 0 0 n)) as (o' & Ho' & Hs); [unfold put_slot; cbn; by rewrite alen_insert|destruct Hd; [lia|done]|].
    rewrite slot_at_put in Hs by (done || lia). case_decide as Hd'; [done|]. exists o'. split; [lia|].
    by rewrite (nk_slots _ _ _ _ _ _ Hok) in Hs.
Qed.

(** The tree as a caller wants it back. *)
Definition lean T m s : Prop := (∀ hk, full_but T m hk) ∧ owned T s.

Lemma shrink_ok T m g s :
  rt_inv T m g s → (0 < rheight (root s) → T !! (rheight (root s), 0) ≠ None) →
  ∃ T' s', radix_tree_shrink s = Some s' ∧ rt_inv T' m g s' ∧
    (lean T m s → lean T' m s' ∧ high T' m (rheight (root s'))).
Proof.
  intros HI HT. pose proof (inv_H _ _ _ _ HI) as HH. unfold radix_tree_shrink.
  match goal with |- ∃ T' s', loop ?f ?st ?x = _ ∧ _ =>
    assert (∃ s', loop f st x = Some s' ∧ ∃ T', rt_inv T' m g s' ∧
      (lean T m s → lean T' m s' ∧ high T' m (rheight (root s')))) as (s' & -> & T' & ?); [|by exists T', s'] end.
  apply (loop_rule_idx (λ k s1, k = Z.to_nat (rheight (root s1)) ∧ ∃ T1, rt_inv T1 m g s1 ∧
    (0 < rheight (root s1) → T1 !! (rheight (root s1), 0) ≠ None) ∧ (lean T m s → lean T1 m s1)) _ _ (Z.to_nat (rheight (root s)))); [| |lia].
  2:{ split; [done|]. by exists T. }
  intros k s1 (-> & T1 & HI1 & HT1 & Hlean).
  destruct (Z.gtb_spec (rheight (root s1)) 0) as [Hpos|].
  2:{ eexists; split; [done|]. exists T1. ands; [done|]. intros HL. split; [auto|]. intros ?. lia. }
  destruct (root_cases _ _ _ _ HI1) as [(? & _)|[(_ & _ & ? & _)|(_ & p & n & Hr & HTp & [Hp0 Hev] & Hn & Hok)]]; [lia|by apply HT1 in Hpos|].
  assert (Hstop : count n ≠ 1 ∨ slot_at n 0 = 0 → lean T m s → lean T1 m s1 ∧ high T1 m (rheight (root s1))).
  { intros Hd HL. specialize (Hlean HL). split; [done|]. apply (keep_root T1 m g _ n Hok); [|done].
    by apply (proj1 Hlean (0, 0) _ _ _ HTp); intros [=]; lia. }
  rewrite Hr, indirect_odd, indirect_to_ptr_odd, Hn by done. cbn [negb mbind option_bind].
  destruct (Z.eqb_spec (count n) 1) as [Hc|]; cbn [negb]; [|eexists; split; [done|]; exists T1; auto].
  rewrite slot_at_get by (apply Hok || lia). cbn [mbind option_bind].
  destruct (Z.eqb_spec (slot_at n 0) 0) as [|Hs0]; [eexists; split; [done|]; exists T1; auto|].
  destruct (shrink_root T1 m g s1 p n HI1 HTp Hn Hc Hs0) as (HI2 & Hf & HT2).
  destruct (root_only_child T1 m g s1 p n HI1 HTp Hn Hc Hs0) as [_ Hfo].
  destruct (node_free_ok _ m g _ p n HI2 Hf Hn Hfo) as (s3 & -> & HI3 & Hr3 & Hn3 & Hp3). cbn [mbind option_bind].
  eexists; split; [done|]. cbn. exists (Z.to_nat (rheight (root s3))). rewrite Hr3. cbn. split; [lia|]. split; [done|].
  eexists. split; [done|]. split; [done|]. intros HL. destruct (Hlean HL) as [Hfull Hown]. split.
  - intros hk h' k' q HTq Hne. apply lookup_delete_Some in HTq as [Hneq HTq].
    destruct (Hfull hk _ _ _ HTq Hne) as (o & Ho & Hco). exists o. split; [done|]. rewrite child_delete_ne; [done|].
    destruct (inv_dom _ _ _ _ HI1 _ _ _ HTq) as (? & _). intros [=]. lia.
  - apply (free_owned T1 _ s1 _ s3 p Hn3 Hp3); try done. intros hk q HTq.
    destruct (decide (hk = (rheight (root s1), 0))) as [->|]; [right; congruence|left; by rewrite lookup_delete_ne].
Qed.

(** ** Deleting *)

(** An empty root is dropped. *)
Lemma drop_root T m g s p n :
  rt_inv T m g s → T !! (rheight (root s), 0) = Some p → nodes s !! p = Some n → (∀ o, slot_at n o = 0) →
  let s' := set_rnode 0 (set_rheight 0 (root_tag_clear_all s)) in
  rt_inv ∅ m g s' ∧ fresh ∅ s' p ∧ first_only n ∧ ∀ hk q, T !! hk = Some q → q = p.
Proof.
  intros HI HT Hn Hz s'. destruct (empty_below _ _ _ _ _ _ _ _ HI HT Hn Hz) as (Hsub & Hit & Hfo).
  destruct (inv_dom _ _ _ _ HI _ _ _ HT) as (Hh & _ & Hgp & Hfp).
  assert (Hone : ∀ hk q, T !! hk = Some q → q = p).
  { intros [h k] q HTq. destruct (decide (h = rheight (root s))) as [->|Hne].
    - pose proof (inv_up _ _ _ _ HI _ _ _ HTq) as Hu. rewrite decide_True in Hu by done. subst k. congruence.
    - exfalso. destruct (inv_dom _ _ _ _ HI _ _ _ HTq) as (Hhq & _).
      remember (Z.to_nat (rheight (root s) - h)) as d eqn:Hd. revert h k q Hhq Hne Hd HTq.
      induction d as [|d IH]; intros h k q Hhq Hne Hd HTq; [lia|].
      pose proof (inv_up _ _ _ _ HI _ _ _ HTq) as Hu. rewrite decide_False in Hu by done. destruct Hu as [q' Hq'].
      destruct (decide (h + 1 = rheight (root s))) as [E|E]; [|apply (IH (h + 1) (k / 64) q' ltac:(lia) E ltac:(lia) Hq')].
      pose proof (inv_up _ _ _ _ HI _ _ _ Hq') as Hu. rewrite decide_True in Hu by done. apply (Hsub _ _ _ HTq). by rewrite E, Hu. }
  assert (Hm : ∀ i, m i = 0).
  { intros i. destruct (decide (m i = 0)) as [|Hm]; [done|]. exfalso.
    destruct (decide (rheight (root s) = 1)) as [H1|H1].
    - apply (Hit i Hm). pose proof (item_pre _ _ _ _ HI i Hm) as Hp. rewrite H1 in *. by rewrite Hp.
    - destruct (path_some _ _ _ _ HI (rheight (root s) - 1) i Hm) as [q Hq]; [lia|].
      apply (Hsub _ _ _ Hq). rewrite <- pre_succ, Z.sub_add by lia. by rewrite (item_pre _ _ _ _ HI i Hm). }
  split; [|split; [done|split; done]]. split; try (intros *; rewrite lookup_empty; done); cbn [s' root set_rnode set_rheight set_root
    root_tag_clear_all set_gfp rheight gfp_mask rnode]; try solve [apply HI]; try done.
  - apply (gfp_tag_clear_all s), (inv_gfp _ _ _ _ HI).
  - unfold root_ptr. rewrite decide_True by done. by rewrite Hm.
  - intros i Hi. by rewrite Hm in Hi.
  - intros tag Ht. change (root_tag_get _ tag) with (root_tag_get (root_tag_clear_all s) tag).
    rewrite root_tag_clear_all_get by done. split; [done|]. intros [i Hi].
    apply (inv_tags _ _ _ _ HI) in Hi; [|done]. by rewrite Hm in Hi.
Qed.

Lemma path_ok_delete T H i h l h0 k0 : path_ok T H i h l → h0 < h → path_ok (delete (h0, k0) T) H i h l.
Proof.
  revert h. induction l as [|[p o] l IH]; intros h Hl Hlt; cbn in *; [done|].
  destruct Hl as (? & ? & ? & ?). ands; try done; try lia; [|apply IH; done || lia].
  rewrite lookup_delete_ne; [done|]. intros [=]. lia.
Qed.

(** What follows the update of a node of the path: it stays, or it is empty and the loop
    goes on with it. *)
Lemma delete_stop T m g s h k p n :
  rt_inv T m g s → T !! (h, k) = Some p → nodes s !! p = Some n →
  ∃ T' s', (if p =? radix_tree_indirect_to_ptr (rnode (root s)) then radix_tree_shrink s else Some s) = Some s' ∧
    rt_inv T' m g s' ∧
    (lean T m s → (h < rheight (root s) → high T m (rheight (root s))) → lean T' m s' ∧ high T' m (rheight (root s'))).
Proof.
  intros HI HT Hn. destruct (Z.eqb_spec p (radix_tree_indirect_to_ptr (rnode (root s)))) as [Hp|Hp].
  - destruct (shrink_ok T m g s HI) as (T' & s' & E & HI' & HL); [|exists T', s'; auto].
    intros _ Hnone. by rewrite (no_root _ _ _ _ HI (h, k) Hnone) in HT.
  - exists T, s. ands; try done. intros HL Hh. split; [done|]. apply Hh.
    destruct (inv_dom _ _ _ _ HI _ _ _ HT) as (Hr & _ & [_ Hev] & _).
    destruct (decide (h = rheight (root s))) as [->|]; [|lia]. exfalso. apply Hp.
    pose proof (inv_up _ _ _ _ HI _ _ _ HT) as Hu. rewrite decide_True in Hu by done. subst k.
    rewrite (inv_root _ _ _ _ HI). unfold root_ptr. rewrite decide_False, HT by lia. symmetry. by apply indirect_to_ptr_odd.
Qed.

Lemma count_zero T m g h k n : node_ok T m g h k n → ctrue (count n) = false → ∀ o, slot_at n o = 0.
Proof.
  intros Hok Hc. apply ctrue_false in Hc. destruct (nk_wf _ _ _ _ _ _ Hok) as [Hl Hu _].
  apply used_zero_iff; [done|]. congruence.
Qed.

Lemma delete_up_ok m g i l : ∀ h T s p n,
  rt_inv T m g s → path_ok T (rheight (root s)) i h l → 2 ≤ h →
  T !! (h - 1, pre (h - 1) i) = Some p → nodes s !! p = Some n → (∀ o, slot_at n o = 0) →
  pre (rheight (root s)) i = 0 →
  ∃ T' s', delete_up s p l = Some s' ∧ rt_inv T' m g s' ∧
    (full_but T m (h - 1, pre (h - 1) i) → owned T s → (h ≤ rheight (root s) → high T m (rheight (root s))) →
     lean T' m s' ∧ high T' m (rheight (root s'))).
Proof.
  induction l as [|[q o] l IH]; intros h T s p n HI Hl Hh HT Hn Hz Hpre; cbn [path_ok delete_up] in *;
    destruct (inv_dom _ _ _ _ HI _ _ _ HT) as (_ & Hk & [Hp0 _] & _);
    assert (Hct : ctrue p = true) by (apply ctrue_true; lia); unfold free_opt; rewrite Hct.
  - rewrite Hl, Z.add_simpl_r, Hpre in HT. destruct (drop_root T m g s p n HI HT Hn Hz) as (HI1 & Hf & Hfo & Hone).
    destruct (node_free_ok _ m g _ p n HI1 Hf Hn Hfo) as (s2 & -> & HI2 & Hr2 & Hn2 & Hp2). exists ∅, s2. ands; try done.
    intros _ Hown _. split; [split; [by intros hk h' k' q|]|rewrite Hr2; by intros ?].
    apply (free_owned T _ s _ s2 p Hn2 Hp2); try done. intros hk q HTq. right. by eapply Hone.
  - destruct Hl as (Hh' & HTq & -> & Hl).
    destruct (inv_node _ _ _ _ HI _ _ _ HTq) as (nq & Hnq & Hokq).
    rewrite (upd_node_ok s q _ nq _ Hnq (set_slot_put _ _ nq ltac:(apply Hokq) (off_range h i))).
    cbn [mbind option_bind]. erewrite upd_node_again by done. cbn [mbind option_bind].
    assert (HTq' : T !! (h - 1 + 1, pre (h - 1) i / 64) = Some q).
    { rewrite <- pre_succ, Z.sub_add by lia. done. }
    destruct (unlink T m g s (h - 1) (pre (h - 1) i) p q n nq HI HT Hn Hz HTq' Hnq) as (HI1 & Hf & Hn1).
    destruct (empty_below _ _ _ _ _ _ _ _ HI HT Hn Hz) as (_ & _ & Hfo).
    destruct (node_free_ok _ m g _ p n HI1 Hf Hn1 Hfo) as (s2 & E2 & HI2 & Hr2 & Hn2 & Hp2).
    change (count (put_slot (off h i) 0 nq)) with (count nq). unfold off. rewrite E2. cbn [mbind option_bind].
    assert (HTq2 : delete (h - 1, pre (h - 1) i) T !! (h, pre h i) = Some q).
    { rewrite lookup_delete_ne; [done|]. intros [=]. lia. }
    destruct (inv_node _ _ _ _ HI2 _ _ _ HTq2) as (n2 & Hnq2 & Hok2). rewrite Hnq2. cbn [mbind option_bind].
    set (T1 := delete (h - 1, pre (h - 1) i) T) in *.
    assert (Hfull : full_but T m (h - 1, pre (h - 1) i) → full_but T1 m (h, pre h i)).
    { intros Hfb. replace (pre h i) with (pre (h - 1) i / 64) by (rewrite <- pre_succ by lia; f_equal; lia).
      apply full_but_delete; [done|lia]. }
    assert (Hown : owned T s → owned T1 s2).
    { intros Ho. apply (free_owned T _ s _ s2 p Hn2 Hp2); [|done| |done].
      - intros r Hr. eapply set_node_dom; [|done]. by eexists.
      - intros hk r HTr. destruct (decide (hk = (h - 1, pre (h - 1) i))) as [->|]; [right; congruence|left].
        unfold T1. by rewrite lookup_delete_ne. }
    assert (Hhigh : (h ≤ rheight (root s) → high T m (rheight (root s))) →
      h + 1 ≤ rheight (root s2) → high T1 m (rheight (root s2))).
    { rewrite Hr2. intros Hhi Hlt Hpos. destruct (Hhi ltac:(lia) Hpos) as (o & Ho & Hc). exists o. split; [done|].
      unfold T1. rewrite child_delete_ne; [done|]. cbn in Hlt. intros [=]. lia. }
    destruct (ctrue (count n2)) eqn:Ec.
    + destruct (delete_stop T1 m g s2 _ _ q n2 HI2 HTq2 Hnq2) as (T' & s' & E & HI' & HL). exists T', s'. ands; try done.
      intros Hfb Ho Hhi. apply HL; [|intros ?; apply Hhigh; [done|lia]]. split; [|auto].
      apply (full_but_full T1 m h (pre h i)); [auto|]. apply (count_child T1 m g _ _ n2 Hok2). by apply ctrue_true.
    + destruct (IH (h + 1) T1 s2 q n2) as (T' & s' & E & HI' & HL); rewrite ?Hr2, ?Z.add_simpl_r; try done; [|lia| |].
      * apply path_ok_delete; [done|lia].
      * by apply (count_zero _ _ _ _ _ _ Hok2).
      * exists T', s'. ands; try done. intros Hfb Ho Hhi. rewrite Z.add_simpl_r in HL. auto.
Qed.

(** The tags of [i] removed. *)
Definition gdel g (i : Z) : Z → Z → bool := λ t j, if decide (j = i) then false else g t j.

Lemma delete_tags_ok T m g s i p :
  rt_inv T m g s → index_ok i → T !! (1, pre 1 i) = Some p →
  ∃ s', for_up 0 RADIX_TREE_MAX_TAGS (λ tag s,
          t ← tag_get s p tag (off 1 i);
          if (t : bool) then '(s, _) ← radix_tree_tag_clear s i tag; Some s else Some s) s = Some s' ∧
    rt_inv T m (gdel g i) s' ∧ same_nodes s s'.
Proof.
  intros HI Hi HT.
  match goal with |- context [for_up ?a ?b ?f ?x] => destruct (for_up_rule (λ t s', same_nodes s s' ∧
      rt_inv T m (λ tag j, if decide (j = i ∧ tag < t) then false else g tag j) s') a b f x) as (s' & -> & Hh & HI') end.
  - done.
  - split; [done|]. apply (inv_ext T m _ g); try done. intros tag j Ht. by rewrite decide_False by lia.
  - intros tag s1 Ht (Hh1 & HI1). unfold RADIX_TREE_MAX_TAGS in Ht.
    destruct (path_node _ _ _ _ HI1 1 i p Hi HT) as (n & Hn & Hok & _ & _ & _ & _ & Htag).
    rewrite Htag, (bottom_bit _ _ _ i (pre 1 i) n tag Hok) by done. cbn [mbind option_bind].
    rewrite decide_False by lia. destruct (g tag i) eqn:Eg.
    + destruct (tag_clear_ok T m _ s1 i tag HI1 Hi Ht) as (s2 & -> & HI2 & Hh2). cbn [mbind option_bind].
      eexists; split; [done|]. split; [by eapply same_nodes_trans|]. eapply inv_ext; [done..|]. intros t j Ht'. unfold gput.
      repeat case_decide; done || lia.
    + eexists; split; [done|]. split; [done|]. eapply inv_ext; [done..|]. intros t j Ht'. cbn.
      destruct (decide (t = tag ∧ j = i)) as [[-> ->]|]; [rewrite Eg; by repeat case_decide|].
      repeat case_decide; done || lia.
  - exists s'. ands; try done. eapply inv_ext; [done..|]. intros t j Ht. unfold gdel, RADIX_TREE_MAX_TAGS.
    repeat case_decide; done || lia.
Qed.

Lemma gdel_off g i tag : gdel g i tag i = false.
Proof. unfold gdel. by rewrite decide_True. Qed.

(** Without the item of [i] only its bottom node may have no child. *)
Lemma full_but_mset T m g s i : rt_inv T m g s → full_but T m (0, 0) → full_but T (mset m i 0) (1, pre 1 i).
Proof.
  intros HI Hf h k p HT Hne. destruct (inv_dom _ _ _ _ HI _ _ _ HT) as (Hh & _).
  destruct (Hf h k p HT) as (o & Ho & Hc); [intros [=]; lia|]. exists o. split; [done|].
  unfold child_at in *. case_decide as H1; [|done]. rewrite mset_ne; [done|]. intros E. apply Hne. subst h. f_equal.
  rewrite <- E. unfold pre. change (64 ^ 1) with 64. rewrite Z.div_add_l, Z.div_small by lia. lia.
Qed.

(** The first turn of the loop, on the bottom node, removes the item. *)
Lemma delete_first T m g s i p l :
  rt_inv T m g s → index_ok i → m i ≠ 0 → (∀ tag, g tag i = false) →
  path_ok T (rheight (root s)) i 1 ((p, off 1 i) :: l) →
  ∃ T' s', delete_up s 0 ((p, off 1 i) :: l) = Some s' ∧ rt_inv T' (mset m i 0) g s' ∧
    (compact T m s → lean T' (mset m i 0) s' ∧ high T' (mset m i 0) (rheight (root s'))).
Proof.
  intros HI Hi Hm Hg Hl. pose proof (item_pre _ _ _ _ HI i Hm) as Hpre. cbn [path_ok delete_up] in *.
  destruct Hl as (_ & HT & _ & Hl). destruct (path_node _ _ _ _ HI 1 i p Hi HT) as (n & Hn & Hok & _).
  pose proof (off_range 1 i) as Ho.
  assert (Hsl : slot_at n (off 1 i) = m i).
  { rewrite (nk_slots _ _ _ _ _ _ Hok), <- pre_step, pre_0 by (done || lia). unfold child_at. by rewrite decide_True. }
  rewrite (upd_node_ok s p _ n _ Hn (set_slot_put _ _ n ltac:(apply Hok) Ho)). cbn [mbind option_bind].
  erewrite upd_node_again by done. cbn [mbind option_bind free_opt ctrue Z.eqb negb].
  change (count (put_slot (off 1 i) 0 n)) with (count n).
  assert (HI1 : rt_inv T (mset m i 0) g (set_node p (with_count (u32 (count n - 1)) (put_slot (off 1 i) 0 n)) s)).
  { apply set_item; try done. rewrite (count_pred _ _ _ _ _ _ (off 1 i) Hok) by (done || congruence).
    unfold null_cost. rewrite decide_False, (decide_True (P := 0 = 0)) by done. lia. }
  destruct (inv_node _ _ _ _ HI1 _ _ _ HT) as (n1 & Hn1 & Hok1). rewrite Hn1. cbn [mbind option_bind].
  set (s1 := set_node p _ s) in *.
  assert (Hcp : compact T m s → full_but T (mset m i 0) (1, pre 1 i) ∧ owned T s1 ∧
    (2 ≤ rheight (root s1) → high T (mset m i 0) (rheight (root s1)))).
  { intros (Hf & Hhi & Hown)%(compact_slots T m g s HI). ands.
    - by apply (full_but_mset T m g s).
    - apply (owned_ext T s); [|done|done]. intros q Hq. eapply set_node_dom; [|done]. by eexists.
    - intros H2 Hpos. destruct (Hhi Hpos) as (o & Ho' & Hc). exists o. split; [done|].
      change (rheight (root s1)) with (rheight (root s)) in *. unfold child_at in *. by rewrite decide_False in * by lia. }
  destruct (ctrue (count n1)) eqn:Ec.
  - destruct (delete_stop T _ g s1 _ _ p n1 HI1 HT Hn1) as (T' & s' & E & HI' & HL). exists T', s'. ands; try done.
    intros Hc. destruct (Hcp Hc) as (Hf & Hown & Hhi). apply HL; [|intros ?; apply Hhi; lia]. split; [|done].
    apply (full_but_full _ _ 1 (pre 1 i)); [done|]. apply (count_child _ _ g _ _ n1 Hok1). by apply ctrue_true.
  - destruct (delete_up_ok (mset m i 0) g i l 2 T s1 p n1) as (T' & s' & E & HI' & HL); try done; [by apply (count_zero _ _ _ _ _ _ Hok1)|].
    exists T', s'. ands; try done. intros Hc. destruct (Hcp Hc) as (Hf & Hown & Hhi). by apply HL.
Qed.

Lemma delete_ok T m g s i :
  rt_inv T m g s → index_ok i →
  ∃ T' s', radix_tree_delete s i = Some (s', m i) ∧ rt_inv T' (mset m i 0) (gdel g i) s' ∧
    (compact T m s → compact T' (mset m i 0) s').
Proof.
  intros HI Hi. pose proof (inv_H _ _ _ _ HI) as HH. unfold radix_tree_delete.
  destruct (radix_tree_maxindex_ok (rheight (root s)) i HH Hi) as (mx & -> & Hmx & _). cbn [mbind option_bind].
  assert (Hsame : m i = 0 → rt_inv T (mset m i 0) (gdel g i) s ∧ (compact T m s → compact T (mset m i 0) s)).
  { intros Hm. assert (Hext : ∀ j, mset m i 0 j = m j) by (intros j; unfold mset; case_decide; congruence).
    split; [|by apply compact_ext]. apply (inv_ext T m _ g); try done.
    intros t j Ht. unfold gdel. case_decide; [subst|done]. symmetry. by apply (no_item_no_tag T m g s). }
  destruct (i >? mx) eqn:E.
  { assert (Hm : m i = 0).
    { destruct (decide (m i = 0)) as [|Hm]; [done|]. apply (item_pre _ _ _ _ HI) in Hm. by apply Hmx in Hm. }
    exists T, s. rewrite Hm. auto. }
  assert (Hpre : pre (rheight (root s)) i = 0) by by apply Hmx.
  destruct (Z.eqb_spec (rheight (root s)) 0) as [H0|H0].
  { rewrite H0, pre_0 in Hpre. subst i. eexists T, _. split; [|split].
    - by rewrite (inv_root _ _ _ _ HI), H0.
    - assert (HI' : rt_inv T m (gdel g 0) (root_tag_clear_all s)).
      { apply (inv_retag T m g _ s s).
        - done.
        - split; try done. intros h k p HT. destruct (inv_dom _ _ _ _ HI _ _ _ HT) as (Hh & _). lia.
        - intros tag j Ht Hj. unfold gdel in Hj. case_decide; [done|]. by eapply inv_tags.
        - apply (gfp_tag_clear_all s), (inv_gfp _ _ _ _ HI).
        - intros tag Ht. change (set_gfp _ s) with (root_tag_clear_all s). rewrite root_tag_clear_all_get by done.
          split; [done|]. intros [j Hj]. unfold gdel in Hj. case_decide; [done|].
          pose proof (inv_tags _ _ _ _ HI _ _ Ht Hj) as Hmj. destruct (inv_items _ _ _ _ HI j Hmj) as (_ & _ & Hz).
          by rewrite decide_True in Hz. }
      apply set_root_item; done.
    - intros [Hf Hl Ho]. split; [| |done].
      + intros h k p HT. destruct (inv_dom _ _ _ _ HI _ _ _ HT) as (Hh & _). lia.
      + cbn. lia. }
  destruct (walk_path_ok T m g s i HI Hi Hpre) as (r & -> & Hr). cbn [mbind option_bind].
  destruct r as [[|[p o] l]|].
  - cbn in Hr. lia.
  - pose proof Hr as (_ & HT & -> & _). destruct (Z.eqb_spec (m i) 0) as [Hm|Hm]; [exists T, s; auto|].
    destruct (delete_tags_ok T m g s i p HI Hi HT) as (s1 & E1 & HI1 & Hs1).
    rewrite E1. cbn [mbind option_bind]. rewrite <- (proj1 Hs1) in Hr.
    destruct (delete_first T m (gdel g i) s1 i p l) as (T2 & s2 & -> & HI2 & HL); try done; [intros; apply gdel_off|].
    cbn [mbind option_bind]. exists T2, s2. ands; try done. intros Hc. apply (compact_slots T2 _ _ _ HI2).
    destruct HL as [[Hf Ho] Hhi]; [by apply (same_nodes_compact T m s)|]. ands; auto.
  - exists T, s. auto.
Qed.
