(* ===== verification/RadixTreeGang.v ===== *)
(** * Gang lookups of the radix tree

    The four gang lookups return the items, or the slots, of the first indices at or
    after [first_index] that have an item, or a tag. *)

From stdpp Require Import gmap.
From S2P Require Import Prelude Bitops RadixTree RadixTreeInv RadixTreeLookup.
#[local] Open Scope Z_scope.
#[local] Open Scope kernel_scope.
Implicit Types (T : ghost) (m : Z → Z) (g : Z → Z → bool) (s : rt_state).

(** ** Hits in a range of indices *)

Definition hits (ok : Z → bool) (a b : Z) : list Z := filter (λ j, ok j = true) (seqZ a (b - a)).

Lemma hits_app ok a b c : a ≤ b ≤ c → hits ok a c = hits ok a b ++ hits ok b c.
Proof.
  intros Hb. unfold hits. rewrite <- list.filter_app. f_equal.
  replace (c - a) with ((b - a) + (c - b)) by lia. rewrite seqZ_app by lia. do 2 f_equal. lia.
Qed.

Lemma hits_none ok a b : (∀ j, a ≤ j < b → ok j = false) → hits ok a b = [].
Proof.
  intros Hn. unfold hits. destruct (filter _ _) as [|j l] eqn:E; [done|].
  assert (Hj : j ∈ filter (λ j, ok j = true) (seqZ a (b - a))) by (rewrite E; set_solver).
  apply list_elem_of_filter in Hj as [Hok Hj%elem_of_seqZ]. rewrite Hn in Hok by lia. done.
Qed.

Lemma hits_step ok a b : a ≤ b → hits ok a (b + 1) = hits ok a b ++ if ok b then [b] else [].
Proof.
  intros Hb. rewrite (hits_app ok a b (b + 1)) by lia. f_equal. unfold hits.
  replace (b + 1 - b) with 1 by lia. rewrite seqZ_cons by lia. change (seqZ _ (Z.pred 1)) with (@nil Z).
  rewrite filter_cons, filter_nil.
  by destruct (ok b).
Qed.

Lemma elem_of_hits ok a b j : j ∈ hits ok a b ↔ ok j = true ∧ a ≤ j < b.
Proof. unfold hits. rewrite list_elem_of_filter, elem_of_seqZ. naive_solver lia. Qed.

(** The first [k] hits are found when [k] were found or nothing is left. *)
Lemma hits_take ok a b c (k : nat) :
  a ≤ b ≤ c → (length (hits ok a b) ≤ k)%nat →
  (length (hits ok a b) = k ∨ ∀ j, b ≤ j < c → ok j = false) → take k (hits ok a c) = hits ok a b.
Proof.
  intros Hb Hk Hd. rewrite (hits_app ok a b c) by done. destruct Hd as [Hd|Hd].
  - rewrite take_app_le, <- Hd by lia. apply take_ge. done.
  - rewrite (hits_none ok b c) by done. rewrite app_nil_r. by apply take_ge.
Qed.

(** ** Moving to the next subtree *)

Lemma align_down x sh : index_ok x → 0 ≤ sh < 32 →
  Z.land x (unot 32 (ushl 32 1 sh - 1)) = x / 2 ^ sh * 2 ^ sh.
Proof.
  intros Hx Hs. assert (ushl 32 1 sh = 2 ^ sh) as ->.
  { unfold ushl. rewrite Z.shiftl_1_l. apply uwrap_small. split; [lia|]. apply Z.pow_lt_mono_r; lia. }
  rewrite <- Z.shiftr_div_pow2, <- Z.shiftl_mul_pow2 by lia. replace (2 ^ sh - 1) with (Z.ones sh) by (rewrite Z.ones_equiv; lia).
  apply Z.bits_inj'. intros i Hi. rewrite Z.land_spec, Z.shiftl_spec, testbit_unot by lia.
  destruct (decide (i < sh)).
  - rewrite Z.ones_spec_low, (Z.testbit_neg_r _ (i - sh)) by lia. by rewrite !andb_false_r.
  - rewrite Z.ones_spec_high, Z.shiftr_spec, Z.sub_add by lia. cbn. destruct (Z.ltb_spec i 32); [apply andb_true_r|].
    rewrite (urange_testbit_high 32 x) by (done || lia). done.
Qed.

(** The first index after the subtree of [x] at height [h]. *)
Definition next_sub (h x : Z) : Z := (pre h x + 1) * 64 ^ h.

Lemma next_sub_code h x :
  index_ok x → 0 ≤ h < 6 →
  u32 (Z.land x (unot 32 (ushl 32 1 (h * RADIX_TREE_MAP_SHIFT) - 1)) + ushl 32 1 (h * RADIX_TREE_MAP_SHIFT)) =
    u32 (next_sub h x) ∧ x < next_sub h x ≤ 2 ^ 32 ∧ pre h (next_sub h x) = pre h x + 1 ∧
  ∀ j, x ≤ j < next_sub h x → pre h j = pre h x.
Proof.
  intros Hx Hh. unfold index_ok in Hx. set (B := 64 ^ h). set (sh := h * RADIX_TREE_MAP_SHIFT).
  assert (Hsh : 0 ≤ sh < 32) by (unfold sh, RADIX_TREE_MAP_SHIFT; lia).
  assert (HB : B = 2 ^ sh) by (unfold sh, B, RADIX_TREE_MAP_SHIFT; rewrite Z.mul_comm, Z.pow_mul_r by lia; done).
  assert (HB0 : 0 < B) by (rewrite HB; lia).
  assert (ushl 32 1 sh = B) as Hu.
  { unfold ushl. rewrite Z.shiftl_1_l, HB. apply uwrap_small. split; [lia|]. apply Z.pow_lt_mono_r; lia. }
  pose proof (Z.div_mod x B ltac:(lia)) as Hdm. pose proof (Z.mod_pos_bound x B HB0) as Hmod.
  unfold next_sub, pre. fold B. ands.
  - rewrite align_down by done. rewrite Hu, <- HB. f_equal. lia.
  - nia.
  - assert (H32 : 2 ^ 32 = 2 ^ (32 - sh) * B) by (rewrite HB, <- Z.pow_add_r by lia; f_equal; lia).
    assert (x / B < 2 ^ (32 - sh)) by (apply Z.div_lt_upper_bound; lia). nia.
  - by rewrite Z.div_mul by lia.
  - intros j Hj. apply Z.le_antisymm.
    + assert (j / B < x / B + 1) by (apply Z.div_lt_upper_bound; lia). lia.
    + apply Z.div_le_mono; lia.
Qed.

Section Search.
Context T m g s (HI : rt_inv T m g s) (ok : Z → bool) (test : Z → Z → option bool).
Hypothesis ok_item : ∀ j, ok j = true → m j ≠ 0.
Hypothesis test_total : ∀ h k p o, T !! (h, k) = Some p → 0 ≤ o < 64 → is_Some (test p o).
Hypothesis test_false : ∀ h k p o j, T !! (h, k) = Some p → 0 ≤ o < 64 → test p o = Some false →
  0 ≤ j → pre (h - 1) j = k * 64 + o → ok j = false.
Hypothesis test_true : ∀ h k p o, T !! (h, k) = Some p → 0 ≤ o < 64 → test p o = Some true → 1 < h →
  T !! (h - 1, k * 64 + o) ≠ None.

Lemma skip_ok h p idx :
  index_ok idx → T !! (h, pre h idx) = Some p →
  ∃ r, skip_slots (test p) ((h - 1) * RADIX_TREE_MAP_SHIFT) idx (off h idx) = Some r ∧
    match r with
    | (idx', Some o) => index_ok idx' ∧ idx ≤ idx' ∧ pre (h - 1) idx' = pre h idx * 64 + o ∧ 0 ≤ o < 64 ∧
        test p o = Some true ∧ ∀ j, idx ≤ j < idx' → ok j = false
    | (x, None) => ∃ nx, x = u32 nx ∧ idx < nx ≤ 2 ^ 32 ∧ ∀ j, idx ≤ j < nx → ok j = false
    end.
Proof.
  intros Hidx HT. destruct (inv_dom _ _ _ _ HI _ _ _ HT) as (Hh & Hk & _). pose proof (inv_H _ _ _ _ HI) as HH.
  pose proof (off_range h idx) as Ho. unfold skip_slots.
  apply (loop_rule_idx (λ n '(x, i), n = Z.to_nat (63 - i) ∧ 0 ≤ i < 64 ∧ index_ok x ∧ idx ≤ x ∧
    pre (h - 1) x = pre h idx * 64 + i ∧ ∀ j, idx ≤ j < x → ok j = false) _ _ (Z.to_nat (63 - off h idx))).
  - intros n [x i] (-> & Hi & Hx & Hle & Hpx & Hno).
    destruct (test_total h _ p i HT Hi) as [b Hb]. rewrite Hb. cbn [mbind option_bind]. destruct b.
    { eexists; split; [done|]. cbn. ands; try done; lia. }
    destruct (next_sub_code (h - 1) x Hx ltac:(lia)) as (-> & Hn & Hpn & Hsub).
    assert (Hno' : ∀ j, idx ≤ j < next_sub (h - 1) x → ok j = false).
    { unfold index_ok in *. intros j Hj. destruct (decide (j < x)); [apply Hno; lia|].
      apply (test_false h (pre h idx) p i j); try done; [lia|]. rewrite Hsub by lia. done. }
    destruct (Z.eqb_spec (u32 (next_sub (h - 1) x)) 0) as [E|E].
    { eexists; split; [done|]. cbn. exists (next_sub (h - 1) x). ands; done || lia. }
    assert (next_sub (h - 1) x ≠ 2 ^ 32) by (intros Eq; by rewrite Eq in E).
    unfold RADIX_TREE_MAP_SIZE. destruct (Z.eqb_spec (i + 1) 64); (eexists; split; [done|]); cbn.
    + exists (next_sub (h - 1) x). ands; done || lia.
    + exists (Z.to_nat (63 - (i + 1))). split; [lia|].
      rewrite uwrap_small by (unfold urange, index_ok in *; lia). unfold index_ok in *. ands; try done; lia.
  - ands; try done; try lia. apply pre_step. lia.
  - change (Z.to_nat RADIX_TREE_MAP_SIZE) with 64%nat. lia.
Qed.

(** *** The bottom node *)

Definition ref_of (j : Z) : slot_ref := NodeSlot (default 0 (T !! (1, pre 1 j))) (off 1 j).

Definition searched (idx max : Z) (r : Z * list slot_ref) : Prop :=
  ∃ nx, r.1 = u32 nx ∧ idx < nx ≤ 2 ^ 32 ∧ r.2 = ref_of <$> hits ok idx nx ∧ alen r.2 ≤ max.

Lemma grab_ok btest p idx max :
  index_ok idx → T !! (1, pre 1 idx) = Some p → 0 < max →
  (∀ o, 0 ≤ o < 64 → btest o = Some (ok (pre 1 idx * 64 + o))) →
  ∃ r, grab_items btest p idx max = Some r ∧ searched idx max r.
Proof.
  intros Hidx HT Hmax Hbt. unfold grab_items.
  assert (Hoff : Z.land idx RADIX_TREE_MAP_MASK = off 1 idx).
  { unfold off. rewrite pre_0. change RADIX_TREE_MAP_MASK with (Z.ones 6). by rewrite Z.land_ones by lia. }
  rewrite Hoff. pose proof (off_range 1 idx) as Ho. pose proof (pre_step 1 idx ltac:(lia)) as Hst. rewrite pre_0 in Hst.
  set (k := pre 1 idx) in *. unfold index_ok in Hidx.
  assert (Hk : k * 64 + 64 ≤ 2 ^ 32). { assert (k < 2 ^ 26) by (apply Z.div_lt_upper_bound; lia). lia. }
  apply (loop_rule_idx (λ n '(x, i, res), n = Z.to_nat (64 - i) ∧ off 1 idx ≤ i ≤ 64 ∧ x = u32 (k * 64 + i) ∧
    (i = 64 → idx < k * 64 + i) ∧ res = ref_of <$> hits ok idx (k * 64 + i) ∧ alen res < max) _ _ (Z.to_nat (64 - off 1 idx))).
  - intros n [[x i] res] (-> & Hi & -> & Hlt & -> & Hlen). unfold RADIX_TREE_MAP_SIZE.
    destruct (Z.ltb_spec i 64) as [Hi64|].
    2:{ eexists; split; [done|]. exists (k * 64 + i). cbn. ands; try done; lia. }
    rewrite Hbt by lia. cbn [mbind option_bind].
    assert (Hu : u32 (u32 (k * 64 + i) + 1) = u32 (k * 64 + (i + 1))).
    { unfold uwrap. rewrite Zplus_mod_idemp_l. f_equal. lia. }
    rewrite Hu. pose proof (hits_step ok idx (k * 64 + i) ltac:(lia)) as Hs.
    assert (Href : ok (k * 64 + i) = true → ref_of <$> hits ok idx (k * 64 + (i + 1)) =
      (ref_of <$> hits ok idx (k * 64 + i)) ++ [NodeSlot p i]).
    { intros Hok. rewrite Z.add_assoc, Hs, Hok, fmap_app. do 2 f_equal. cbn. unfold ref_of. f_equal.
      assert (Hpk : pre 1 (k * 64 + i) = k).
      { unfold pre. change (64 ^ 1) with 64. rewrite Z.div_add_l, Z.div_small by lia. lia. }
      rewrite Hpk, HT. cbn. f_equal. unfold off. rewrite pre_0, Z.add_comm, Z_mod_plus_full, Z.mod_small by lia. done. }
    destruct (ok (k * 64 + i)) eqn:Eok.
    + rewrite <- Href by done. assert (Hl2 : alen (ref_of <$> hits ok idx (k * 64 + (i + 1))) = alen (ref_of <$> hits ok idx (k * 64 + i)) + 1).
      { rewrite Href, alen_app by done. done. }
      destruct (Z.eqb_spec (alen (ref_of <$> hits ok idx (k * 64 + (i + 1)))) max); (eexists; split; [done|]).
      * exists (k * 64 + (i + 1)). cbn. ands; try done; lia.
      * cbn. exists (Z.to_nat (64 - (i + 1))). split; [lia|]. ands; try done; lia.
    + eexists; split; [done|]. cbn. exists (Z.to_nat (64 - (i + 1))). split; [lia|].
      rewrite app_nil_r, <- Z.add_assoc in Hs. rewrite Hs. ands; try done; lia.
  - ands; try done; try lia.
    + rewrite <- Hst. symmetry. by apply uwrap_small.
    + rewrite <- Hst. rewrite hits_none by lia. done.
  - change (Z.to_nat RADIX_TREE_MAP_SIZE) with 64%nat. lia.
Qed.

(** *** One search from the root *)

Lemma searched_later idx idx' max r :
  idx ≤ idx' → (∀ j, idx ≤ j < idx' → ok j = false) → searched idx' max r → searched idx max r.
Proof.
  intros Hle Hno (nx & ? & Hnx & Hr & ?). exists nx. ands; try done; try lia.
  rewrite (hits_app ok idx idx' nx), hits_none by (done || lia). done.
Qed.

Lemma searched_none idx nx max : 0 < max → idx < nx ≤ 2 ^ 32 → (∀ j, idx ≤ j < nx → ok j = false) →
  searched idx max (u32 nx, []).
Proof. intros Hmax Hnx Hno. exists nx. cbn. rewrite hits_none by done. ands; try done; unfold alen; cbn; lia. Qed.

(** From a slot found by [skip_slots] down to the child. *)
Lemma search_down h p idx idx' o :
  T !! (h, pre h idx) = Some p → index_ok idx' → pre (h - 1) idx' = pre h idx * 64 + o → 0 ≤ o < 64 →
  test p o = Some true → 1 < h →
  ∃ q, get_slot s p o = Some q ∧ q ≠ 0 ∧ T !! (h - 1, pre (h - 1) idx') = Some q ∧
    pre h idx' = pre h idx.
Proof.
  intros HT Hidx Hp Ho Ht Hh. pose proof (test_true h _ p o HT Ho Ht Hh) as HTc.
  destruct (inv_node _ _ _ _ HI _ _ _ HT) as (n & Hn & Hok).
  destruct (T !! (h - 1, pre h idx * 64 + o)) as [q|] eqn:Eq; [|done].
  destruct (inv_dom _ _ _ _ HI _ _ _ Eq) as (_ & _ & [Hq _] & _). exists q.
  rewrite (get_slot_ok s p n) by (done || apply Hok). rewrite (nk_slots _ _ _ _ _ _ Hok) by done.
  unfold child_at. rewrite decide_False, Eq by lia. ands; try done; [lia|by rewrite Hp|].
  apply pre_off_inj in Hp as [? _]; [done|lia|done].
Qed.
End Search.

(** ** Searching for items *)

Section Items.
Context T m g s (HI : rt_inv T m g s).
Abbreviation has := (λ j, ctrue (m j)).

Lemma slot_used_ok h k p o :
  T !! (h, k) = Some p → 0 ≤ o < 64 → slot_used s p o = Some (ctrue (child_at T m h (k * 64 + o))).
Proof.
  intros HT Ho. destruct (inv_node _ _ _ _ HI _ _ _ HT) as (n & Hn & Hok). unfold slot_used.
  rewrite (get_slot_ok s p n) by (done || apply Hok). cbn [mbind option_bind]. by rewrite (nk_slots _ _ _ _ _ _ Hok).
Qed.

Lemma used_total h k p o : T !! (h, k) = Some p → 0 ≤ o < 64 → is_Some (slot_used s p o).
Proof. intros HT Ho. by rewrite (slot_used_ok h k) by done. Qed.

Lemma used_false h k p o j :
  T !! (h, k) = Some p → 0 ≤ o < 64 → slot_used s p o = Some false → 0 ≤ j → pre (h - 1) j = k * 64 + o → has j = false.
Proof.
  intros HT Ho Hs Hj Hp. rewrite (slot_used_ok h k) in Hs by done. injection Hs as Hs. apply ctrue_false in Hs. apply ctrue_false.
  destruct (inv_dom _ _ _ _ HI _ _ _ HT) as (Hh & _). apply (child_none _ _ _ _ HI h j Hh). by rewrite Hp.
Qed.

Lemma used_true h k p o :
  T !! (h, k) = Some p → 0 ≤ o < 64 → slot_used s p o = Some true → 1 < h → T !! (h - 1, k * 64 + o) ≠ None.
Proof.
  intros HT Ho Hs Hh. rewrite (slot_used_ok h k) in Hs by done. injection Hs as Hs. apply ctrue_true in Hs.
  unfold child_at in Hs. rewrite decide_False in Hs by lia. by destruct (T !! (h - 1, _)).
Qed.

Lemma __lookup_ok p n idx max :
  T !! (rheight (root s), 0) = Some p → nodes s !! p = Some n → pre (rheight (root s)) idx = 0 →
  index_ok idx → 0 < max →
  ∃ r, __lookup s p idx max = Some r ∧ searched T has idx max r.
Proof.
  intros HT Hn Hpre Hidx Hmax. unfold __lookup. rewrite Hn. cbn [mbind option_bind].
  destruct (inv_node _ _ _ _ HI _ _ _ HT) as (n' & Hn' & Hok). simplify_eq. rewrite (nk_height _ _ _ _ _ _ Hok).
  destruct (inv_dom _ _ _ _ HI _ _ _ HT) as (Hh & _). destruct (Z.eqb_spec (rheight (root s)) 0); [lia|].
  apply (loop_rule_idx (λ k '(q, x, shift, h), k = Z.to_nat h ∧ T !! (h, pre h x) = Some q ∧ index_ok x ∧ idx ≤ x ∧
    shift = (h - 1) * RADIX_TREE_MAP_SHIFT ∧ ∀ j, idx ≤ j < x → has j = false) _ _ (Z.to_nat (rheight (root s)))); [| |lia].
  2:{ rewrite Hpre. ands; try done; lia. }
  intros k [[[q x] shift] h] (-> & HTq & Hx & Hle & -> & Hno).
  destruct (inv_dom _ _ _ _ HI _ _ _ HTq) as (Hh' & _). destruct (Z.gtb_spec h 1).
  - rewrite slot_offset_off by (unfold index_ok in Hx; lia).
    destruct (skip_ok T m g s HI has (slot_used s) used_total used_false h q x Hx HTq) as ([x' [o|]] & -> & Hr);
      cbn [mbind option_bind].
    + destruct Hr as (Hx' & Hle' & Hp' & Ho & Ht & Hno').
      destruct (search_down T m g s HI (slot_used s) used_true h q x x' o) as (c & -> & Hc & HTc & _); try done.
      cbn [mbind option_bind]. destruct (Z.eqb_spec c 0); [done|]. eexists; split; [done|]. cbn.
      exists (Z.to_nat (h - 1)). split; [lia|]. ands; try done; try lia. intros j Hj.
      destruct (decide (j < x)); [apply Hno; lia|apply Hno'; lia].
    + destruct Hr as (nx & -> & Hnx & Hno'). eexists; split; [done|]. cbn.
      apply (searched_later T has idx x); try done. by apply searched_none.
  - assert (h = 1) as -> by lia.
    destruct (grab_ok T has (slot_used s q) q x max Hx HTq Hmax) as (r & -> & Hr).
    { intros o Ho. by rewrite (slot_used_ok 1 (pre 1 x)) by done. }
    cbn [mbind option_bind]. eexists; split; [done|]. cbn. by apply (searched_later T has idx x).
Qed.
End Items.

(** ** Searching for tags *)

Section Tags.
Context T m g s tag (HI : rt_inv T m g s) (Htag : 0 ≤ tag < 2).

Lemma tag_bit h k p o :
  T !! (h, k) = Some p → 0 ≤ o < 64 →
  ∃ b : bool, tag_get s p tag o = Some b ∧ (b = true ↔ tagged_under g tag (h - 1) (k * 64 + o)).
Proof.
  intros HT Ho. destruct (inv_node _ _ _ _ HI _ _ _ HT) as (n & Hn & Hok). exists (node_bit n tag o).
  split; [apply tag_get_ok; done || apply Hok|]. by apply Hok.
Qed.

Lemma tag_total h k p o : T !! (h, k) = Some p → 0 ≤ o < 64 → is_Some (tag_get s p tag o).
Proof. intros HT Ho. destruct (tag_bit h k p o HT Ho) as (b & -> & _). by eexists. Qed.

Lemma tag_false h k p o j :
  T !! (h, k) = Some p → 0 ≤ o < 64 → tag_get s p tag o = Some false → 0 ≤ j → pre (h - 1) j = k * 64 + o →
  g tag j = false.
Proof.
  intros HT Ho Hs Hj Hp. destruct (tag_bit h k p o HT Ho) as (b & Hb & Hiff). simplify_eq.
  destruct (g tag j) eqn:E; [|done]. destruct Hiff as [_ Hiff]. symmetry. apply Hiff. by exists j.
Qed.

Lemma tag_true h k p o :
  T !! (h, k) = Some p → 0 ≤ o < 64 → tag_get s p tag o = Some true → 1 < h → T !! (h - 1, k * 64 + o) ≠ None.
Proof.
  intros HT Ho Hs Hh. destruct (tag_bit h k p o HT Ho) as (b & Hb & Hiff). simplify_eq.
  destruct (proj1 Hiff eq_refl) as (j & Hj & <- & Hg). destruct (inv_dom _ _ _ _ HI _ _ _ HT) as (Hh' & _).
  destruct (path_some _ _ _ _ HI (h - 1) j) as [q Hq]; [by eapply inv_tags|lia|]. congruence.
Qed.

Lemma slot_tagged_ok k p o :
  T !! (1, k) = Some p → 0 ≤ o < 64 → slot_tagged s tag p o = Some (g tag (k * 64 + o)).
Proof.
  intros HT Ho. destruct (inv_dom _ _ _ _ HI _ _ _ HT) as (_ & Hk & _).
  destruct (tag_bit 1 k p o HT Ho) as (b & Hb & Hiff).
  assert (Hbg : b = g tag (k * 64 + o)).
  { apply eq_bool_prop_intro. rewrite !Is_true_true, Hiff. unfold tagged_under. split.
    - intros (j & _ & Hp & Hg). rewrite pre_0 in Hp. by subst.
    - intros Hg. exists (k * 64 + o). rewrite pre_0. ands; try done. lia. }
  unfold slot_tagged. rewrite Hb. cbn [mbind option_bind]. rewrite Hbg. destruct (g tag (k * 64 + o)) eqn:Eg; [|done].
  cbn [negb]. rewrite (slot_used_ok T m g s HI 1 k) by done. unfold child_at. rewrite decide_True by done.
  f_equal. apply ctrue_true. by eapply inv_tags.
Qed.

Lemma __lookup_tag_ok p n idx max :
  T !! (rheight (root s), 0) = Some p → nodes s !! p = Some n → pre (rheight (root s)) idx = 0 →
  index_ok idx → 0 < max →
  ∃ r, __lookup_tag s p idx max tag = Some r ∧ searched T (g tag) idx max r.
Proof.
  intros HT Hn Hpre Hidx Hmax. unfold __lookup_tag. rewrite Hn. cbn [mbind option_bind].
  destruct (inv_node _ _ _ _ HI _ _ _ HT) as (n' & Hn' & Hok). simplify_eq. rewrite (nk_height _ _ _ _ _ _ Hok).
  destruct (inv_dom _ _ _ _ HI _ _ _ HT) as (Hh & _). destruct (Z.eqb_spec (rheight (root s)) 0); [lia|].
  apply (loop_rule_idx (λ k '(q, x, shift, h), k = Z.to_nat h ∧ T !! (h, pre h x) = Some q ∧ index_ok x ∧ idx ≤ x ∧
    shift = (h - 1) * RADIX_TREE_MAP_SHIFT ∧ ∀ j, idx ≤ j < x → g tag j = false) _ _ (Z.to_nat (rheight (root s)))); [| |lia].
  2:{ rewrite Hpre. ands; try done; lia. }
  intros k [[[q x] shift] h] (-> & HTq & Hx & Hle & -> & Hno).
  destruct (inv_dom _ _ _ _ HI _ _ _ HTq) as (Hh' & _). destruct (Z.gtb_spec h 0); [|lia].
  rewrite slot_offset_off by (unfold index_ok in Hx; lia).
  destruct (skip_ok T m g s HI (g tag) (λ p o, tag_get s p tag o) tag_total tag_false h q x Hx HTq) as ([x' [o|]] & E & Hr);
    change (λ o, tag_get s q tag o) with (tag_get s q tag) in E; rewrite E; cbn [mbind option_bind].
  2:{ destruct Hr as (nx & -> & Hnx & Hno'). eexists; split; [done|]. cbn.
      apply (searched_later T (g tag) idx x); try done. by apply searched_none. }
  destruct Hr as (Hx' & Hle' & Hp' & Ho & Ht & Hno').
  assert (Hnox : ∀ j, idx ≤ j < x' → g tag j = false).
  { intros j Hj. destruct (decide (j < x)); [apply Hno; lia|apply Hno'; lia]. }
  destruct (Z.eqb_spec (h - 1) 0).
  - assert (h = 1) as -> by lia. assert (Hpx : pre 1 x' = pre 1 x) by (by apply pre_off_inj in Hp' as [? _]; [|lia|]).
    destruct (grab_ok T (g tag) (slot_tagged s tag q) q x' max Hx') as (r & -> & Hr); [by rewrite Hpx|done| |].
    { intros o' Ho'. apply slot_tagged_ok; [by rewrite Hpx|done]. }
    cbn [mbind option_bind]. eexists; split; [done|]. cbn. apply (searched_later T (g tag) idx x'); try done; lia.
  - destruct (search_down T m g s HI (λ p o, tag_get s p tag o) tag_true h q x x' o) as (c & -> & Hc & HTc & _);
      try done; [lia|]. cbn [mbind option_bind]. destruct (Z.eqb_spec c 0); [done|]. eexists; split; [done|]. cbn.
    exists (Z.to_nat (h - 1)). split; [lia|]. ands; try done; lia.
Qed.
End Tags.

(** ** The gang loop *)

Section Gang.
Context {A : Type} (f : Z → A) (ok : Z → bool) (search : Z → Z → option (Z * list A)) (H max_index : Z).
Hypothesis height_ok : ∀ i, index_ok i → (i >? max_index) = false ↔ pre H i = 0.
Hypothesis ok_pre : ∀ j, ok j = true → pre H j = 0.
Hypothesis search_ok : ∀ idx max, index_ok idx → pre H idx = 0 → 0 < max →
  ∃ nx, search idx max = Some (u32 nx, f <$> hits ok idx nx) ∧ idx < nx ≤ 2 ^ 32 ∧ alen (hits ok idx nx) ≤ max.

Lemma gang_loop_ok first max :
  index_ok first → 0 ≤ max →
  gang_loop search max_index max first = Some (f <$> take (Z.to_nat max) (hits ok first (2 ^ 32))).
Proof.
  intros Hf Hmax. unfold gang_loop.
  match goal with |- bloop ?d ?st ?x = _ => assert (∃ r, bloop d st x = Some r ∧ ∃ e, r = f <$> hits ok first e ∧
      first ≤ e ≤ 2 ^ 32 ∧ alen (hits ok first e) ≤ max ∧
      (alen (hits ok first e) = max ∨ ∀ j, e ≤ j < 2 ^ 32 → ok j = false)) as (r & -> & e & -> & He & Hl & Hd) end.
  2:{ do 2 f_equal. symmetry. unfold alen in *. apply hits_take; [done|lia|].
      destruct Hd; [left; lia|by right]. }
  apply (bloop_rule (λ k '(res, cur), k = 2 ^ 32 - cur ∧ index_ok cur ∧ first ≤ cur ∧ res = f <$> hits ok first cur ∧
    alen (hits ok first cur) ≤ max) _ _ _ (2 ^ 32 - first)).
  - intros k [res cur] (-> & Hc & Hle & -> & Hl). assert (Hal : alen (f <$> hits ok first cur) = alen (hits ok first cur)).
    { unfold alen. by rewrite length_fmap. }
    rewrite Hal. unfold index_ok in *. destruct (Z.ltb_spec (alen (hits ok first cur)) max).
    2:{ eexists; split; [done|]. cbn. exists cur. ands; try done; try lia. }
    destruct (cur >? max_index) eqn:Ec.
    { eexists; split; [done|]. cbn. exists cur. ands; try done; try lia. right. intros j Hj.
      destruct (ok j) eqn:Eo; [|done]. apply ok_pre in Eo. apply height_ok in Eo; [|unfold index_ok; lia].
      rewrite Z.gtb_ltb in Ec, Eo. apply Z.ltb_lt in Ec. apply Z.ltb_ge in Eo. lia. }
    assert (Hp : pre H cur = 0) by (by apply height_ok).
    destruct (search_ok cur (max - alen (hits ok first cur))) as (nx & -> & Hnx & Hal2); try done; [lia|].
    cbn [mbind option_bind]. rewrite <- fmap_app, <- hits_app by lia.
    assert (Hl2 : alen (hits ok first nx) ≤ max). { rewrite (hits_app ok first cur nx), alen_app by lia. lia. }
    destruct (Z.eqb_spec (u32 nx) 0) as [E|E]; (eexists; split; [done|]); cbn.
    + exists nx. ands; try done; try lia. right. intros j Hj.
      destruct (decide (nx = 2 ^ 32)); [lia|]. rewrite uwrap_small in E by (unfold urange; lia). lia.
    + assert (nx ≠ 2 ^ 32) by (intros Eq; by rewrite Eq in E). rewrite uwrap_small by (unfold urange; lia).
      exists (2 ^ 32 - nx). split; [lia|]. ands; try done; lia.
  - unfold index_ok in *. ands; try done; try lia; rewrite hits_none by lia; done.
  - unfold index_ok in Hf. change (2 ^ Z.of_nat 33) with 8589934592. lia.
Qed.
End Gang.
