(* ===== verification/RadixTreeFacts.v ===== *)
(** * The radix tree implements an array of items with tags

    The theorems on the operations of [lib/radix-tree.c], stated on the abstract state of
    [RadixTreeInv.v]: a sparse array [m] of items and the tags [g]. *)

From stdpp Require Import gmap.
From S2P Require Import Prelude Bitops RadixTree RadixTreeInv RadixTreeLookup.
From S2P Require Import RadixTreeInsert RadixTreeTags RadixTreeDelete RadixTreeGang.
#[local] Open Scope Z_scope.
#[local] Open Scope kernel_scope.
Implicit Types (T : ghost) (m : Z → Z) (g : Z → Z → bool) (s : rt_state).

(** ** Gang lookups from the root *)

(** In a tree of height 0 the only hit is index 0. *)
Lemma hits_root ok first :
  index_ok first → (∀ j, ok j = true → j = 0) →
  hits ok first (2 ^ 32) = if (first >? 0) || negb (ok 0) then [] else [0].
Proof.
  intros Hf Hok. assert (Hj : ∀ j, j ≠ 0 → ok j = false).
  { intros j Hj. destruct (ok j) eqn:E; [|done]. by apply Hok in E. }
  unfold index_ok in Hf. destruct (Z.gtb_spec first 0); cbn [orb].
  - apply hits_none. intros j Hj'. apply Hj. lia.
  - replace first with 0 by lia. rewrite (hits_app ok 0 1), (hits_none ok 1) by (lia || (intros; apply Hj; lia)).
    rewrite app_nil_r. change (hits ok 0 1) with (hits ok 0 (0 + 1)). rewrite hits_step by lia.
    rewrite hits_none by lia. by destruct (ok 0).
Qed.

Lemma take_root {A} (l : list A) max : 0 < max → (length l ≤ 1)%nat → take (Z.to_nat max) l = l.
Proof. intros Hm Hl. apply take_ge. lia. Qed.

Lemma hits_empty ok first : (∀ j, ok j = false) → hits ok first (2 ^ 32) = [].
Proof. intros Hn. by apply hits_none. Qed.

(** The items in the slots that a search found. *)
Lemma slot_items_ok T m g s l nx :
  rt_inv T m g s → (∀ j, j ∈ l → m j ≠ 0 ∧ index_ok j) → 0 < rheight (root s) →
  slot_items s (nx, ref_of T <$> l) = Some (nx, m <$> l).
Proof.
  intros HI Hl HH. unfold slot_items.
  assert (mapM (deref s) (ref_of T <$> l) = Some (m <$> l)) as ->.
  { rewrite mapM_Some. clear nx. induction l as [|j l IH]; cbn; [done|apply List.Forall2_cons; [|apply IH; intros; apply Hl; set_solver]].
    destruct (Hl j) as [Hm Hj]; [set_solver|]. apply (deref_slot_for T m g); try done. cbn. split; [|done].
    destruct (inv_items _ _ _ _ HI j Hm) as (_ & _ & Ht). rewrite decide_False in Ht by lia. by destruct Ht as [p ->]. }
  cbn [mbind option_bind]. do 2 f_equal. clear -Hl. induction l as [|j l IH]; [done|]. cbn [fmap list_fmap].
  rewrite filter_cons, decide_True; [f_equal; apply IH; intros; apply Hl; set_solver|].
  destruct (Hl j) as [Hm _]; [set_solver|]. by apply Is_true_true, ctrue_true.
Qed.

Section GangRoot.
Context T m g s (HI : rt_inv T m g s) (ok : Z → bool) (Hok : ∀ j, ok j = true → m j ≠ 0).

Lemma ok_index j : ok j = true → index_ok j.
Proof. intros Hj. by apply (inv_items _ _ _ _ HI), Hok. Qed.

Lemma gang_slots_ok search first max :
  0 < rheight (root s) → index_ok first → 0 ≤ max →
  (∀ idx max, pre (rheight (root s)) idx = 0 → index_ok idx → 0 < max →
     ∃ r, search idx max = Some r ∧ searched T ok idx max r) →
  ∃ mx, radix_tree_maxindex (rheight (root s)) = Some mx ∧
  gang_loop search mx max first = Some (ref_of T <$> take (Z.to_nat max) (hits ok first (2 ^ 32))) ∧
  gang_loop (λ idx max, search idx max ≫= slot_items s) mx max first =
    Some (m <$> take (Z.to_nat max) (hits ok first (2 ^ 32))).
Proof.
  intros HH Hf Hmax Hs. destruct (radix_tree_maxindex_ok (rheight (root s)) first (inv_H _ _ _ _ HI) Hf) as (mx & Emx & _).
  assert (Hpre : ∀ i, index_ok i → (i >? mx) = false ↔ pre (rheight (root s)) i = 0).
  { intros i Hi. destruct (radix_tree_maxindex_ok (rheight (root s)) i (inv_H _ _ _ _ HI) Hi) as (mx' & E' & H & _). simplify_eq. done. }
  assert (Hokp : ∀ j, ok j = true → pre (rheight (root s)) j = 0).
  { intros j Hj. by apply (item_pre _ _ _ _ HI), Hok. }
  exists mx. split; [done|]. split; apply (gang_loop_ok _ ok _ (rheight (root s))); try done.
  - intros idx mx' Hi Hp Hmx. destruct (Hs idx mx' Hp Hi Hmx) as ([a b] & -> & nx & Ha & Hnx & Hb & Hl). cbn in *. subst.
    exists nx. ands; try done; try lia. unfold alen in *. by rewrite length_fmap in Hl.
  - intros idx mx' Hi Hp Hmx. destruct (Hs idx mx' Hp Hi Hmx) as ([a b] & -> & nx & Ha & Hnx & Hb & Hl). cbn in *. subst.
    exists nx. ands; try lia.
    + apply (slot_items_ok T m g); try done. intros j [Hj _]%elem_of_hits. split; [by apply Hok|by apply ok_index].
    + unfold alen in *. by rewrite length_fmap in Hl.
Qed.

(** The slots returned are those of [radix_tree_lookup_slot]. *)
Lemma refs_ok l : 0 < rheight (root s) → (∀ j, j ∈ l → ok j = true) →
  Forall2 (λ j r, radix_tree_lookup_slot s j = Some (Some r)) l (ref_of T <$> l).
Proof.
  intros HH Hl. induction l as [|j l IH]; cbn; [done|apply List.Forall2_cons; [|apply IH; intros; apply Hl; set_solver]].
  assert (Hj : ok j = true) by (apply Hl; set_solver).
  destruct (lookup_slot_ok T m g s j HI (ok_index j Hj)) as (r & -> & Hr). destruct r as [[|p o]|]; cbn in Hr.
  - lia.
  - destruct Hr as (_ & HT & ->). unfold ref_of. by rewrite HT.
  - by apply Hok in Hj.
Qed.
End GangRoot.

(** ** The operations on the abstract state *)

(** A tree as [RADIX_TREE_INIT] leaves it, over a slab cache of constructed nodes. *)
Definition init_state (mask : Z) (F : gset Z) : rt_state :=
  RState (RADIX_TREE_INIT mask) (gset_to_gmap radix_tree_node_ctor F) F [].

Lemma ctor_zeroed : zeroed radix_tree_node_ctor.
Proof.
  assert (Hb : ∀ tag o, node_bit radix_tree_node_ctor tag o = false).
  { intros tag o. unfold node_bit. destruct (_.[tag]) as [ws|] eqn:E; [|done].
    apply (Forall_arr_get (λ w, w = [0; 0])) in E; [subst|by repeat constructor].
    unfold bit. destruct ([0; 0].[_]) as [w|] eqn:E; [|done].
    apply (Forall_arr_get (λ w, w = 0)) in E; [subst; apply Z.bits_0|by repeat constructor]. }
  split; [split; [done|done|split; [done|]]| |done].
  - assert (words [0; 0]) by (repeat constructor; lia). by repeat constructor.
  - intros o. unfold slot_at. destruct (_.[o]) as [v|] eqn:E; [|done].
    apply (Forall_arr_get (λ w, w = 0)) in E; [done|]. by repeat constructor.
Qed.

Lemma init_inv mask F :
  0 ≤ mask < 2 ^ 22 → (∀ p, p ∈ F → good_addr p) → rt_inv ∅ (λ _, 0) (λ _ _, false) (init_state mask F).
Proof.
  intros Hm HF. split; cbn [root init_state rheight gfp_mask rnode RADIX_TREE_INIT]; try done.
  - unfold urange. lia.
  - intros tag Ht. split; [|by intros []]. unfold root_tag_get. cbn.
    rewrite root_mask by done. rewrite land_BIT_MASK_ctrue, (urange_testbit_high 22); [done|unfold urange; lia|].
    rewrite Z.mod_small; lia.
  - intros p [Hp|Hp%elem_of_nil]; [|done]. cbn in Hp. split; [auto|].
    exists radix_tree_node_ctor. split; [|apply ctor_zeroed]. cbn. by rewrite lookup_gset_to_gmap_Some.
  - cbn. ands; [apply NoDup_nil_2|done|]. by intros p _ Hp%elem_of_nil.
Qed.

Lemma init_holds mask F :
  0 ≤ mask < 2 ^ 22 → (∀ p, p ∈ F → good_addr p) → rt_holds (init_state mask F) (λ _, 0) (λ _ _, false).
Proof. intros Hm HF. exists ∅. by apply init_inv. Qed.

(** C7: [radix_tree_insert] puts the item at a free index, refuses an index in use with
    [-EEXIST], and reports [-ENOMEM] without a change; every other index and every tag
    stays as it is. *)
Theorem radix_tree_insert_correct kmem_cache_alloc `{!Slab kmem_cache_alloc} s m g i item :
  rt_holds s m g → index_ok i → Z.even item = true → item ≠ 0 →
  ∃ s' e, radix_tree_insert kmem_cache_alloc s i item = Some (s', e) ∧
    (e = 0 ∧ m i = 0 ∧ rt_holds s' (mset m i item) g ∨
     e = - EEXIST ∧ m i ≠ 0 ∧ rt_holds s' m g ∨
     e = - ENOMEM ∧ m i = 0 ∧ rt_holds s' m g).
Proof.
  intros [T HI] Hi Hev H0. destruct (insert_ok kmem_cache_alloc T m g s i item) as (T' & s' & e & E & Hc & _); try done.
  exists s', e. split; [done|]. unfold rt_holds. naive_solver.
Qed.

(** C8: [radix_tree_delete] returns the item of the index, or null, and removes it with its
    tags; nothing else changes. In a tree without waste (every node has an item below it, the
    tree is no higher than its items need, and every node of the heap is in the tree, free or
    preloaded) it frees the nodes that become empty and lowers the tree as far as it goes, so
    that the tree has no waste afterwards; the nodes it frees are zeroed. *)
Theorem radix_tree_delete_correct s m g i :
  rt_holds s m g → index_ok i →
  ∃ s', radix_tree_delete s i = Some (s', m i) ∧ rt_holds s' (mset m i 0) (gdel g i) ∧
    (rt_compact s m g → rt_compact s' (mset m i 0) (gdel g i)).
Proof.
  intros [T HI] Hi. destruct (delete_ok T m g s i HI Hi) as (T' & s' & E & HI' & _). exists s'. ands; [done|by exists T'|].
  intros (T1 & HI1 & Hc). destruct (delete_ok T1 m g s i HI1 Hi) as (T2 & s2 & E2 & HI2 & Hc2). simplify_eq.
  exists T2. auto.
Qed.

(** [radix_tree_lookup] returns the item of the index or null; the slot that
    [radix_tree_lookup_slot] finds holds that item, and [radix_tree_replace_slot] on it
    replaces the item at this index only. *)
Theorem radix_tree_lookup_correct s m g i :
  rt_holds s m g → index_ok i →
  radix_tree_lookup s i = Some (m i) ∧
  ∃ r, radix_tree_lookup_slot s i = Some r ∧ (r = None ↔ m i = 0) ∧
    ∀ l, r = Some l → radix_tree_deref_slot s l = Some (m i) ∧
      ∀ item, Z.even item = true → item ≠ 0 →
        ∃ s', radix_tree_replace_slot s l item = Some s' ∧ rt_holds s' (mset m i item) g.
Proof.
  intros [T HI] Hi. split; [by apply (lookup_ok T m g)|].
  destruct (lookup_slot_ok T m g s i HI Hi) as (r & E & Hr). exists r. split; [done|]. split.
  - destruct r; naive_solver.
  - intros l ->. destruct Hr as [Hm Hl]. split.
    + unfold radix_tree_deref_slot. rewrite (deref_slot_for T m g s i l) by done. cbn [mbind option_bind].
      by rewrite indirect_even by by apply (inv_items _ _ _ _ HI).
    + intros item Hev H0. destruct (replace_slot_ok T m g s i l item) as (s' & E' & HI' & _); try done.
      exists s'. split; [done|]. by exists T.
Qed.

(** [radix_tree_next_hole] and [radix_tree_prev_hole] stop at the first index without an
    item, after [max_scan] indices or at the end of the index space, where they wrap. *)
Theorem radix_tree_holes_correct s m g i max :
  rt_holds s m g → index_ok i → 0 ≤ max →
  (∃ r, radix_tree_next_hole s i max = Some (u32 r) ∧ i ≤ r ≤ i + max ∧ r ≤ 2 ^ 32 ∧
    (∀ j, i ≤ j < r → m j ≠ 0) ∧ (r < i + max → r < 2 ^ 32 → m r = 0)) ∧
  (∃ r, radix_tree_prev_hole s i max = Some (u32 r) ∧ i - max ≤ r ≤ i ∧ -1 ≤ r ∧
    (∀ j, r < j ≤ i → m j ≠ 0) ∧ (i - max < r → 0 ≤ r → m r = 0)).
Proof. intros [T HI] Hi Hm. split; [by apply (next_hole_ok T m g)|by apply (prev_hole_ok T m g)]. Qed.

(** [radix_tree_tag_get] reads the tag of the index and [radix_tree_tagged] tells whether
    any index has it; [radix_tree_tag_set] on an item and [radix_tree_tag_clear] change
    this one tag and return the item. *)
Theorem radix_tree_tags_correct s m g i tag :
  rt_holds s m g → index_ok i → 0 ≤ tag < 2 →
  radix_tree_tag_get s i tag = Some (g tag i) ∧
  (radix_tree_tagged s tag = true ↔ ∃ j, g tag j = true) ∧
  (m i ≠ 0 → ∃ s', radix_tree_tag_set s i tag = Some (s', m i) ∧ rt_holds s' m (gput g tag i true)) ∧
  (∃ s', radix_tree_tag_clear s i tag = Some (s', m i) ∧ rt_holds s' m (gput g tag i false)).
Proof.
  intros [T HI] Hi Ht. ands.
  - by apply (rt_tag_get_ok T m).
  - by apply (inv_rtags _ _ _ _ HI).
  - intros Hm. destruct (tag_set_ok T m g s i tag HI Hi Ht Hm) as (s' & E & HI' & _). exists s'. split; [done|]. by exists T.
  - destruct (tag_clear_ok T m g s i tag HI Hi Ht) as (s' & E & HI' & _). exists s'. split; [done|]. by exists T.
Qed.

(** The indices at or after [first] with an item, and those with a tag, in order. *)
Definition present m (first : Z) : list Z := hits (λ j, ctrue (m j)) first (2 ^ 32).
Definition tagged_from g (tag first : Z) : list Z := hits (g tag) first (2 ^ 32).

Lemma gang_items_ok T m g s first max :
  rt_inv T m g s → index_ok first → 0 < max →
  radix_tree_gang_lookup s first max = Some (m <$> take (Z.to_nat max) (present m first)) ∧
  ∃ rs, radix_tree_gang_lookup_slot s first max = Some rs ∧
    Forall2 (λ j r, radix_tree_lookup_slot s j = Some (Some r)) (take (Z.to_nat max) (present m first)) rs.
Proof.
  intros HI Hf Hmax. unfold radix_tree_gang_lookup, radix_tree_gang_lookup_slot, present.
  assert (Hit : ∀ j, ctrue (m j) = true → m j ≠ 0) by (intros j; apply ctrue_true).
  destruct (root_cases _ _ _ _ HI) as [(H0 & Hr & Hev)|[(H0 & -> & _ & Hm)|(H0 & p & n & -> & HT & [Hp Hev] & Hn & Hok)]].
  - rewrite Hr, hits_root; [|done|].
    2:{ intros j Hj%ctrue_true. destruct (inv_items _ _ _ _ HI j Hj) as (_ & _ & Hz). by rewrite decide_True in Hz. }
    unfold ctrue. destruct (Z.eqb_spec (m 0) 0) as [E|E].
    + rewrite orb_true_r, take_nil. split; [done|]. by exists [].
    + rewrite indirect_even by done. cbn [negb]. rewrite orb_false_r. destruct (first >? 0).
      * rewrite take_nil. split; [done|]. by exists [].
      * rewrite take_root by (done || cbn; lia). split; [done|]. exists [RootSlot]. split; [done|].
        repeat constructor. destruct (lookup_slot_ok T m g s 0 HI ltac:(done)) as (r & -> & Hl).
        destruct r as [[|q o]|]; [done| |done]. destruct Hl as (_ & HT & _).
        destruct (inv_dom _ _ _ _ HI _ _ _ HT) as (? & _). lia.
  - rewrite hits_empty by (intros j; by rewrite Hm). rewrite take_nil. split; [done|]. by exists [].
  - destruct (Z.eqb_spec (p + 1) 0); [lia|]. rewrite indirect_odd, indirect_to_ptr_odd, Hn by done.
    cbn [negb mbind option_bind]. rewrite (nk_height _ _ _ _ _ _ Hok).
    destruct (gang_slots_ok T m g s HI (λ j, ctrue (m j)) Hit (__lookup s p) first max) as (mx & -> & E1 & E2); [lia|done|lia| |].
    { intros idx mx Hpre Hi Hmx. by apply (__lookup_ok T m g s HI p n). }
    cbn [mbind option_bind]. split; [done|]. eexists; split; [done|]. apply (refs_ok T m g s HI _ Hit); [lia|].
    intros j Hj%elem_of_take. destruct Hj as (k & Hj & _). apply list_elem_of_lookup_2, elem_of_hits in Hj. by destruct Hj.
Qed.

Lemma gang_tags_ok T m g s tag first max :
  rt_inv T m g s → index_ok first → 0 < max → 0 ≤ tag < 2 →
  radix_tree_gang_lookup_tag s first max tag = Some (m <$> take (Z.to_nat max) (tagged_from g tag first)) ∧
  ∃ rs, radix_tree_gang_lookup_tag_slot s first max tag = Some rs ∧
    Forall2 (λ j r, radix_tree_lookup_slot s j = Some (Some r)) (take (Z.to_nat max) (tagged_from g tag first)) rs.
Proof.
  intros HI Hf Hmax Ht. unfold radix_tree_gang_lookup_tag, radix_tree_gang_lookup_tag_slot, tagged_from.
  assert (Hit : ∀ j, g tag j = true → m j ≠ 0) by (intros j; by eapply inv_tags).
  pose proof (inv_rtags _ _ _ _ HI tag Ht) as Hrt. destruct (root_tag_get s tag); cbn [negb].
  2:{ rewrite hits_empty, take_nil; [split; [done|]; by exists []|]. intros j. destruct (g tag j) eqn:E; [|done].
      destruct Hrt as [_ Hrt]. symmetry. apply Hrt. by exists j. }
  destruct (root_cases _ _ _ _ HI) as [(H0 & Hr & Hev)|[(H0 & -> & _ & Hm)|(H0 & p & n & -> & HT & [Hp Hev] & Hn & Hok)]].
  - assert (Hj0 : ∀ j, g tag j = true → j = 0).
    { intros j Hj%Hit. destruct (inv_items _ _ _ _ HI j Hj) as (_ & _ & Hz). by rewrite decide_True in Hz. }
    destruct (proj1 Hrt eq_refl) as [j Hj]. pose proof (Hj0 j Hj) as ->. pose proof (Hit 0 Hj) as Hm0.
    rewrite Hr, hits_root, Hj by done. destruct (Z.eqb_spec (m 0) 0); [done|].
    rewrite indirect_even by done. cbn [negb]. rewrite orb_false_r. destruct (first >? 0).
    + rewrite take_nil. split; [done|]. by exists [].
    + rewrite take_root by (done || cbn; lia). split; [done|]. exists [RootSlot]. split; [done|].
      repeat constructor. destruct (lookup_slot_ok T m g s 0 HI ltac:(done)) as (r & -> & Hl).
      destruct r as [[|q o]|]; [done| |done]. destruct Hl as (_ & HT & _).
      destruct (inv_dom _ _ _ _ HI _ _ _ HT) as (? & _). lia.
  - rewrite hits_empty, take_nil; [split; [done|]; by exists []|]. intros j. by apply (no_item_no_tag T m g s).
  - destruct (Z.eqb_spec (p + 1) 0); [lia|]. rewrite indirect_odd, indirect_to_ptr_odd, Hn by done.
    cbn [negb mbind option_bind]. rewrite (nk_height _ _ _ _ _ _ Hok).
    destruct (gang_slots_ok T m g s HI (g tag) Hit (λ i mx, __lookup_tag s p i mx tag) first max) as (mx & -> & E1 & E2); [lia|done|lia| |].
    { intros idx mx Hpre Hi Hmx. by apply (__lookup_tag_ok T m g s tag HI Ht p n). }
    cbn [mbind option_bind]. split; [done|]. eexists; split; [done|]. apply (refs_ok T m g s HI _ Hit); [lia|].
    intros j Hj%elem_of_take. destruct Hj as (k & Hj & _). apply list_elem_of_lookup_2, elem_of_hits in Hj. by destruct Hj.
Qed.

(** C9: The gang lookups return, in order, the items and the slots of the first [max_items]
    indices from [first_index] on that have an item, or that have the tag. *)
Theorem radix_tree_gang_correct s m g tag first max :
  rt_holds s m g → index_ok first → 0 < max → 0 ≤ tag < 2 →
  radix_tree_gang_lookup s first max = Some (m <$> take (Z.to_nat max) (present m first)) ∧
  radix_tree_gang_lookup_tag s first max tag = Some (m <$> take (Z.to_nat max) (tagged_from g tag first)) ∧
  (∃ rs, radix_tree_gang_lookup_slot s first max = Some rs ∧
    Forall2 (λ j r, radix_tree_lookup_slot s j = Some (Some r)) (take (Z.to_nat max) (present m first)) rs) ∧
  (∃ rs, radix_tree_gang_lookup_tag_slot s first max tag = Some rs ∧
    Forall2 (λ j r, radix_tree_lookup_slot s j = Some (Some r)) (take (Z.to_nat max) (tagged_from g tag first)) rs).
Proof.
  intros [T HI] Hf Hmax Ht. destruct (gang_items_ok T m g s first max HI Hf Hmax) as [? ?].
  destruct (gang_tags_ok T m g s tag first max HI Hf Hmax Ht) as [? ?]. done.
Qed.

(** C10: After [radix_tree_preload] has succeeded, an insertion that may not sleep does not
    fail for lack of memory, whatever the slab cache does, provided the tree is empty or
    already high enough for the index. *)
Theorem radix_tree_preload_enough kalloc kalloc' `{!Slab kalloc, !Slab kalloc'} s s1 m g i item :
  rt_holds s m g → ctrue (Z.land (root_gfp_mask s) __GFP_WAIT) = false →
  radix_tree_preload kalloc s = Some (s1, 0) →
  index_ok i → Z.even item = true → item ≠ 0 → rnode (root s) = 0 ∨ pre (rheight (root s)) i = 0 →
  ∃ s' e, radix_tree_insert kalloc' s1 i item = Some (s', e) ∧ (e = 0 ∨ e = - EEXIST ∧ m i ≠ 0).
Proof.
  intros [T HI] Hw Hpre Hi Hev H0 Hfit.
  destruct (preload_ok kalloc T m g s HI) as (s2 & e & E & HI2 & Hr & He & _). simplify_eq.
  destruct (insert_ok kalloc' T m g s1 i item) as (T' & s' & e & E' & Hc & Hen & _); try done. exists s', e. split; [done|].
  assert (e ≠ - ENOMEM).
  { apply Hen; [|rewrite Hr; tauto]. destruct He as [[_ He]|He]; [|done]. split; [lia|].
    unfold root_gfp_mask in *. by rewrite Hr. }
  naive_solver.
Qed.

Lemma callback_ok T m g s : rt_inv T m g s → rt_inv T m g (radix_tree_callback s).
Proof.
  intros HI. assert (Hp : ∀ p, pooled (radix_tree_callback s) p ↔ pooled s p).
  { intros p. unfold pooled. cbn. rewrite elem_of_union, elem_of_list_to_set, elem_of_nil. naive_solver. }
  split; cbn [radix_tree_callback root nodes]; try apply HI.
  - intros h k p HT. rewrite Hp. by apply (inv_dom _ _ _ _ HI).
  - intros p. rewrite Hp. apply HI.
  - cbn. ands; [apply NoDup_nil_2|done|]. by intros p _ Hq%elem_of_nil.
Qed.

Lemma callback_compact T m s : compact T m s → compact T m (radix_tree_callback s).
Proof.
  apply compact_ext; try done. intros p. unfold pooled. cbn. rewrite elem_of_union, elem_of_list_to_set. tauto.
Qed.

Lemma init_compact mask F : compact ∅ (λ _, 0) (init_state mask F).
Proof.
  split; cbn; [done|lia|]. intros p [n Hn]. left. left. cbn. by apply lookup_gset_to_gmap_Some in Hn as [? _].
Qed.

(** ** Executions *)

(** The calls of a client. [Replace] looks the slot up, reads it and puts another item
    there; [TagSet] looks the item up first, since the code has a [BUG_ON] for a tag without
    an item; [CpuDead] is the notifier for a dead CPU. *)
Inductive rt_op :=
  | Insert (i item : Z) | Delete (i : Z) | Lookup (i : Z) | Replace (i item : Z)
  | TagSet (i tag : Z) | TagClear (i tag : Z) | TagGet (i tag : Z) | Tagged (tag : Z)
  | Gang (first max : Z) | GangTag (first max tag : Z) | NextHole (i max : Z) | PrevHole (i max : Z)
  | Preload | CpuDead.

(** Indices are 32-bit, items are even and not null, there are two tags, and a gang lookup
    wants at least one item. *)
Definition op_ok (op : rt_op) : Prop :=
  match op with
  | Insert i item | Replace i item => index_ok i ∧ Z.even item = true ∧ item ≠ 0
  | Delete i | Lookup i => index_ok i
  | TagSet i tag | TagClear i tag | TagGet i tag => index_ok i ∧ 0 ≤ tag < 2
  | Tagged tag => 0 ≤ tag < 2
  | Gang first max => index_ok first ∧ 0 < max
  | GangTag first max tag => index_ok first ∧ 0 < max ∧ 0 ≤ tag < 2
  | NextHole i max | PrevHole i max => index_ok i ∧ 0 ≤ max
  | Preload | CpuDead => True
  end.

Section Run.
Context (kmem_cache_alloc : rt_state → option Z).

(** One call: the state after it and what it returns; [None] is a crash, a [BUG_ON] or a
    loop that does not end. *)
Definition do_op s (op : rt_op) : option (rt_state * list Z) :=
  match op with
  | Insert i item => '(s, e) ← radix_tree_insert kmem_cache_alloc s i item; Some (s, [e])
  | Delete i => '(s, v) ← radix_tree_delete s i; Some (s, [v])
  | Lookup i => v ← radix_tree_lookup s i; Some (s, [v])
  | Replace i item =>
      l ← radix_tree_lookup_slot s i;
      match l with
      | None => Some (s, [0])
      | Some l => v ← radix_tree_deref_slot s l; s ← radix_tree_replace_slot s l item; Some (s, [v])
      end
  | TagSet i tag =>
      v ← radix_tree_lookup s i;
      if v =? 0 then Some (s, [0]) else '(s, v) ← radix_tree_tag_set s i tag; Some (s, [v])
  | TagClear i tag => '(s, v) ← radix_tree_tag_clear s i tag; Some (s, [v])
  | TagGet i tag => b ← radix_tree_tag_get s i tag; Some (s, [cbool b])
  | Tagged tag => Some (s, [cbool (radix_tree_tagged s tag)])
  | Gang first max => vs ← radix_tree_gang_lookup s first max; Some (s, vs)
  | GangTag first max tag => vs ← radix_tree_gang_lookup_tag s first max tag; Some (s, vs)
  | NextHole i max => v ← radix_tree_next_hole s i max; Some (s, [v])
  | PrevHole i max => v ← radix_tree_prev_hole s i max; Some (s, [v])
  | Preload => '(s, e) ← radix_tree_preload kmem_cache_alloc s; Some (s, [e])
  | CpuDead => Some (radix_tree_callback s, [])
  end.

Fixpoint do_ops s (ops : list rt_op) : option (rt_state * list (rt_op * list Z)) :=
  match ops with
  | [] => Some (s, [])
  | op :: ops => '(s, r) ← do_op s op; '(s, t) ← do_ops s ops; Some (s, (op, r) :: t)
  end.
End Run.

Abbreviation trace := (list (rt_op * list Z)).

(** The array with tags that a client of the tree sees. *)
Inductive abs_step m g : rt_op → list Z → (Z → Z) → (Z → Z → bool) → Prop :=
  | abs_insert i item : m i = 0 → abs_step m g (Insert i item) [0] (mset m i item) g
  | abs_exists i item : m i ≠ 0 → abs_step m g (Insert i item) [- EEXIST] m g
  | abs_nomem i item : m i = 0 → abs_step m g (Insert i item) [- ENOMEM] m g
  | abs_delete i : abs_step m g (Delete i) [m i] (mset m i 0) (gdel g i)
  | abs_lookup i : abs_step m g (Lookup i) [m i] m g
  | abs_replace i item : abs_step m g (Replace i item) [m i] (if m i =? 0 then m else mset m i item) g
  | abs_tag_set i tag : abs_step m g (TagSet i tag) [m i] m (if m i =? 0 then g else gput g tag i true)
  | abs_tag_clear i tag : abs_step m g (TagClear i tag) [m i] m (gput g tag i false)
  | abs_tag_get i tag : abs_step m g (TagGet i tag) [cbool (g tag i)] m g
  | abs_tagged tag b : (b = true ↔ ∃ i, g tag i = true) → abs_step m g (Tagged tag) [cbool b] m g
  | abs_gang first max : abs_step m g (Gang first max) (m <$> take (Z.to_nat max) (present m first)) m g
  | abs_gang_tag first max tag :
      abs_step m g (GangTag first max tag) (m <$> take (Z.to_nat max) (tagged_from g tag first)) m g
  | abs_next_hole i max r :
      i ≤ r ≤ i + max → r ≤ 2 ^ 32 → (∀ j, i ≤ j < r → m j ≠ 0) → (r < i + max → r < 2 ^ 32 → m r = 0) →
      abs_step m g (NextHole i max) [u32 r] m g
  | abs_prev_hole i max r :
      i - max ≤ r ≤ i → -1 ≤ r → (∀ j, r < j ≤ i → m j ≠ 0) → (i - max < r → 0 ≤ r → m r = 0) →
      abs_step m g (PrevHole i max) [u32 r] m g
  | abs_preload e : e = 0 ∨ e = - ENOMEM → abs_step m g Preload [e] m g
  | abs_cpu_dead : abs_step m g CpuDead [] m g.

Inductive abs_run : (Z → Z) → (Z → Z → bool) → trace → (Z → Z) → (Z → Z → bool) → Prop :=
  | abs_nil m g : abs_run m g [] m g
  | abs_cons m g op r m1 g1 t m2 g2 :
      abs_step m g op r m1 g1 → abs_run m1 g1 t m2 g2 → abs_run m g ((op, r) :: t) m2 g2.

Lemma do_ops_trace alloc ops : ∀ s s' t, do_ops alloc s ops = Some (s', t) → map fst t = ops.
Proof.
  induction ops as [|op ops IH]; intros s s' t; cbn [do_ops]; [by intros [= _ <-]|].
  destruct (do_op alloc s op) as [[s1 r]|]; [|done]. cbn [mbind option_bind].
  destruct (do_ops alloc s1 ops) as [[s2 t2]|] eqn:E; [|done]. intros [= <- <-]. cbn. f_equal. by eapply IH.
Qed.

(** An insertion failed for lack of memory, which may leave nodes without items behind. *)
Definition ran_out (c : rt_op * list Z) : Prop := ∃ i item, c = (Insert i item, [- ENOMEM]).

Section Simulation.
Context kmem_cache_alloc `{Hslab : !Slab kmem_cache_alloc}.

(** One call returns and is a step of the array; a tree without waste stays so. *)
Definition simulated T m g s (op : rt_op) : Prop :=
  ∃ s' r T' m' g', do_op kmem_cache_alloc s op = Some (s', r) ∧ abs_step m g op r m' g' ∧ rt_inv T' m' g' s' ∧
    (¬ ran_out (op, r) → compact T m s → compact T' m' s').

Lemma query_sim T m g s op r :
  rt_inv T m g s → do_op kmem_cache_alloc s op = Some (s, r) → abs_step m g op r m g → simulated T m g s op.
Proof. intros HI E Ha. exists s, r, T, m, g. by ands. Qed.

Lemma insert_sim T m g s i item : rt_inv T m g s → op_ok (Insert i item) → simulated T m g s (Insert i item).
Proof.
  intros HI (Hi & Hev & H0).
  destruct (insert_ok kmem_cache_alloc T m g s i item HI Hi Hev H0) as (T' & s' & e & E & Hc & _ & Hcp).
  exists s', [e], T'. cbn [do_op]. rewrite E.
  destruct Hc as [(-> & ? & ?)|[(-> & ? & ?)|(-> & ? & ?)]]; eexists _, _; (split; [done|]); (split; [by constructor|]); (split; [done|]).
  - intros _ Hc. by apply Hcp.
  - intros _ Hc. by apply Hcp.
  - intros Hr. exfalso. apply Hr. by exists i, item.
Qed.

Lemma replace_sim T m g s i item : rt_inv T m g s → op_ok (Replace i item) → simulated T m g s (Replace i item).
Proof.
  intros HI (Hi & Hev & H0). destruct (lookup_slot_ok T m g s i HI Hi) as (r & E & Hr). destruct r as [l|].
  - destruct Hr as [Hm Hl]. destruct (replace_slot_ok T m g s i l item) as (s' & E' & HI' & Hc'); try done.
    exists s', [m i], T, (mset m i item), g. cbn [do_op]. rewrite E. cbn [mbind option_bind].
    unfold radix_tree_deref_slot. rewrite (deref_slot_for T m g s i l) by done. cbn [mbind option_bind].
    rewrite indirect_even by by apply (inv_items _ _ _ _ HI). rewrite E'. split; [done|]. split; [|auto].
    assert (Ha := abs_replace m g i item). by destruct (Z.eqb_spec (m i) 0).
  - apply (query_sim _ _ _ _ _ [m i]); [done|cbn [do_op]; rewrite E; cbn; by rewrite Hr|].
    assert (Ha := abs_replace m g i item). by destruct (Z.eqb_spec (m i) 0).
Qed.

Lemma tag_set_sim T m g s i tag : rt_inv T m g s → op_ok (TagSet i tag) → simulated T m g s (TagSet i tag).
Proof.
  intros HI [Hi Ht]. assert (Ha := abs_tag_set m g i tag). unfold simulated. cbn [do_op].
  rewrite (lookup_ok T m g s i HI Hi). cbn [mbind option_bind]. destruct (Z.eqb_spec (m i) 0) as [Hm|Hm].
  - exists s, [0], T, m, g. rewrite Hm in Ha. by ands.
  - destruct (tag_set_ok T m g s i tag HI Hi Ht Hm) as (s' & -> & HI' & Hs).
    exists s', [m i], T, m, (gput g tag i true). ands; try done. intros _. by apply same_nodes_compact.
Qed.

Lemma op_sim T m g s op : rt_inv T m g s → op_ok op → simulated T m g s op.
Proof.
  intros HI Ho. destruct op as [i item|i|i|i item|i tag|i tag|i tag|tag|first max|first max tag|i max|i max| |]; cbn [op_ok] in Ho.
  - by apply insert_sim.
  - destruct (delete_ok T m g s i HI Ho) as (T' & s' & E & HI' & Hc). exists s', [m i], T', (mset m i 0), (gdel g i).
    cbn [do_op]. rewrite E. ands; try done. constructor.
  - apply (query_sim _ _ _ _ _ [m i]); [done| |constructor]. cbn [do_op]. by rewrite (lookup_ok T m g s i HI Ho).
  - by apply replace_sim.
  - by apply tag_set_sim.
  - destruct Ho as [Hi Ht]. destruct (tag_clear_ok T m g s i tag HI Hi Ht) as (s' & E & HI' & Hs).
    exists s', [m i], T, m, (gput g tag i false). cbn [do_op]. rewrite E. ands; try done; [constructor|].
    intros _. by apply same_nodes_compact.
  - destruct Ho as [Hi Ht]. apply (query_sim _ _ _ _ _ [cbool (g tag i)]); [done| |constructor].
    cbn [do_op]. by rewrite (rt_tag_get_ok T m g s i tag HI Hi Ht).
  - apply (query_sim _ _ _ _ _ [cbool (radix_tree_tagged s tag)]); [done|done|]. constructor. by apply (inv_rtags _ _ _ _ HI).
  - destruct Ho as [Hf Hm]. destruct (gang_items_ok T m g s first max HI Hf Hm) as [E _].
    eapply query_sim; [done| |constructor]. cbn [do_op]. by rewrite E.
  - destruct Ho as (Hf & Hm & Ht). destruct (gang_tags_ok T m g s tag first max HI Hf Hm Ht) as [E _].
    eapply query_sim; [done| |constructor]. cbn [do_op]. by rewrite E.
  - destruct Ho as [Hi Hm]. destruct (next_hole_ok T m g s i max HI Hi Hm) as (r & E & ? & ? & ? & ?).
    eapply query_sim; [done| |by apply (abs_next_hole m g i max r)]. cbn [do_op]. by rewrite E.
  - destruct Ho as [Hi Hm]. destruct (prev_hole_ok T m g s i max HI Hi Hm) as (r & E & ? & ? & ? & ?).
    eapply query_sim; [done| |by apply (abs_prev_hole m g i max r)]. cbn [do_op]. by rewrite E.
  - destruct (preload_ok kmem_cache_alloc T m g s HI) as (s' & e & E & HI' & _ & He & Hc). exists s', [e], T, m, g.
    cbn [do_op]. rewrite E. split; [done|]. split; [constructor; tauto|]. auto.
  - exists (radix_tree_callback s), [], T, m, g. ands; [done|constructor|by apply callback_ok|].
    intros _. apply callback_compact.
Qed.

Lemma ops_sim ops : ∀ T m g s, rt_inv T m g s → Forall op_ok ops →
  ∃ s' t T' m' g', do_ops kmem_cache_alloc s ops = Some (s', t) ∧ abs_run m g t m' g' ∧ rt_inv T' m' g' s' ∧
    (Forall (λ c, ¬ ran_out c) t → compact T m s → compact T' m' s').
Proof.
  induction ops as [|op ops IH]; intros T m g s HI Ho.
  - exists s, [], T, m, g. ands; [done|constructor|done|done].
  - apply list.Forall_cons in Ho as [Ho Hos]. destruct (op_sim T m g s op HI Ho) as (s1 & r & T1 & m1 & g1 & E1 & Ha1 & HI1 & Hc1).
    destruct (IH T1 m1 g1 s1 HI1 Hos) as (s2 & t & T2 & m2 & g2 & E2 & Ha2 & HI2 & Hc2).
    exists s2, ((op, r) :: t), T2, m2, g2. cbn [do_ops]. rewrite E1. cbn [mbind option_bind]. rewrite E2.
    ands; [done|by econstructor|done|]. intros [Hr Hrs]%list.Forall_cons Hc. auto.
Qed.
End Simulation.

(** C6: Every sequence of calls on an initialised tree, with any slab cache, runs to its end
    (no crash, no [BUG_ON], no endless loop), returns what the array with tags returns, and
    leaves a heap that represents the array; unless an insertion ran out of memory, every
    node then has an item below it, the tree is no higher than needed and no node is lost. *)
Theorem radix_tree_refines_array kmem_cache_alloc `{!Slab kmem_cache_alloc} mask F ops :
  0 ≤ mask < 2 ^ 22 → (∀ p, p ∈ F → good_addr p) → Forall op_ok ops →
  ∃ s t m g, do_ops kmem_cache_alloc (init_state mask F) ops = Some (s, t) ∧ map fst t = ops ∧
    abs_run (λ _, 0) (λ _ _, false) t m g ∧ rt_holds s m g ∧
    (Forall (λ c, ¬ ran_out c) t → rt_compact s m g).
Proof.
  intros Hm HF Ho. pose proof (init_inv mask F Hm HF) as HI.
  destruct (ops_sim kmem_cache_alloc ops _ _ _ _ HI Ho) as (s & t & T & m & g & E & Ha & HI' & Hc).
  exists s, t, m, g. ands; [done|by eapply do_ops_trace|done|by exists T|].
  intros Hr. exists T. split; [done|]. apply Hc; [done|apply init_compact].
Qed.

(** ** Witnesses *)

(** A slab cache that hands out its first free object, and one that is exhausted. *)
Definition first_free s : option Z := head (elements (free s)).
Definition exhausted s : option Z := None.

#[export] Instance first_free_slab : Slab first_free.
Proof.
  intros s p Hp. unfold first_free in Hp. apply elem_of_elements. destruct (elements (free s)); [done|].
  cbn in Hp. simplify_eq. by constructor.
Qed.
#[export] Instance exhausted_slab : Slab exhausted.
Proof. by intros s p Hp. Qed.

Definition wit_pool : gset Z := list_to_set ((λ i, 4096 + 64 * i) <$> seqZ 0 14).
Definition wit0 : rt_state := init_state 0 wit_pool.
Definition wit_do s (op : rt_op) : rt_state :=
  match op with
  | Insert i item => match radix_tree_insert first_free s i item with Some (s, _) => s | None => s end
  | TagSet i tag => match radix_tree_tag_set s i tag with Some (s, _) => s | None => s end
  | _ => s
  end.
Definition wit1 : rt_state := wit_do wit0 (Insert 0 20).
Definition wit2 : rt_state := wit_do wit1 (Insert 70 24).
Definition wit3 : rt_state := wit_do wit2 (TagSet 70 1).

Lemma wit_addrs p : p ∈ wit_pool → good_addr p.
Proof.
  intros Hp. assert (Hall : forallb (λ p, (0 <? p) && Z.even p) (elements wit_pool) = true) by (vm_compute; done).
  rewrite forallb_forall in Hall. specialize (Hall p). rewrite <- list_elem_of_In, elem_of_elements in Hall.
  specialize (Hall Hp). apply andb_true_iff in Hall as [H1%Z.ltb_lt H2]. by split.
Qed.

Lemma wit0_holds : rt_holds wit0 (λ _, 0) (λ _ _, false).
Proof. apply init_holds; [lia|apply wit_addrs]. Qed.

Lemma wit_insert_holds s m g i item :
  rt_holds s m g → index_ok i → Z.even item = true → item ≠ 0 →
  match radix_tree_insert first_free s i item with Some (_, e) => e =? 0 | None => false end = true →
  rt_holds (wit_do s (Insert i item)) (mset m i item) g.
Proof.
  intros [T HI] Hi Hev H0 He. cbn [wit_do].
  destruct (insert_ok first_free T m g s i item HI Hi Hev H0) as (T' & s' & e & E & Hc & _).
  rewrite E in He |- *. apply Z.eqb_eq in He. exists T'. naive_solver.
Qed.

Lemma wit2_holds : rt_holds wit2 (mset (mset (λ _, 0) 0 20) 70 24) (λ _ _, false).
Proof.
  apply wit_insert_holds; [|done|done|done|by vm_compute]. apply wit_insert_holds; [apply wit0_holds|done|done|done|by vm_compute].
Qed.

Lemma wit3_holds : rt_holds wit3 (mset (mset (λ _, 0) 0 20) 70 24) (gput (λ _ _, false) 1 70 true).
Proof.
  destruct wit2_holds as [T HI]. unfold wit3. cbn [wit_do].
  destruct (tag_set_ok T _ _ wit2 70 1 HI ltac:(done) ltac:(lia) ltac:(done)) as (s' & -> & HI' & _). by exists T.
Qed.

Lemma radix_tree_insert_correct_witness :
  ∃ s' e, radix_tree_insert first_free wit2 (2 ^ 32 - 1) 28 = Some (s', e) ∧
    (e = 0 ∧ rt_holds s' (mset (mset (mset (λ _, 0) 0 20) 70 24) (2 ^ 32 - 1) 28) (λ _ _, false) ∨ e < 0).
Proof.
  destruct (radix_tree_insert_correct first_free wit2 _ _ (2 ^ 32 - 1) 28 wit2_holds) as (s' & e & E & Hc);
    [split; lia|reflexivity|lia|].
  exists s', e. split; [exact E|]. destruct Hc as [(-> & _ & ?)|[(-> & _)|(-> & _)]]; [left; auto|right; unfold EEXIST; lia|right; unfold ENOMEM; lia].
Defined.

Lemma wit_insert_compact s m g i item :
  rt_compact s m g → index_ok i → Z.even item = true → item ≠ 0 →
  match radix_tree_insert first_free s i item with Some (_, e) => e =? 0 | None => false end = true →
  rt_compact (wit_do s (Insert i item)) (mset m i item) g.
Proof.
  intros (T & HI & Hc) Hi Hev H0 He. cbn [wit_do].
  destruct (insert_ok first_free T m g s i item HI Hi Hev H0) as (T' & s' & e & E & Hcs & _ & Hcp).
  rewrite E in He |- *. apply Z.eqb_eq in He as ->. exists T'. split; [naive_solver|]. by apply Hcp.
Qed.

Lemma wit2_compact : rt_compact wit2 (mset (mset (λ _, 0) 0 20) 70 24) (λ _ _, false).
Proof.
  apply wit_insert_compact; [|done|done|done|by vm_compute].
  apply wit_insert_compact; [|done|done|done|by vm_compute].
  exists ∅. split; [apply init_inv; [lia|apply wit_addrs]|apply init_compact].
Qed.

(** Two levels of nodes go when the item at 70 is deleted: the tree has height 0 again. *)
Lemma radix_tree_delete_correct_witness :
  rheight (root wit2) = 2 ∧ (r ← radix_tree_delete wit2 70; Some (rheight (root r.1))) = Some 0 ∧ ∃ s', radix_tree_delete wit2 70 = Some (s', 24) ∧
    rt_holds s' (mset (mset (mset (λ _, 0) 0 20) 70 24) 70 0) (gdel (λ _ _, false) 70) ∧
    rt_compact s' (mset (mset (mset (λ _, 0) 0 20) 70 24) 70 0) (gdel (λ _ _, false) 70).
Proof.
  split; [vm_compute; reflexivity|]. split; [vm_compute; reflexivity|].
  destruct (radix_tree_delete_correct wit2 _ _ 70 wit2_holds) as (s' & E & Hh & Hc); [split; lia|].
  exists s'. split; [exact E|]. split; [exact Hh|]. apply Hc, wit2_compact.
Defined.

Lemma radix_tree_lookup_correct_witness : radix_tree_lookup wit3 70 = Some 24.
Proof. apply (radix_tree_lookup_correct wit3 _ _ 70 wit3_holds). split; lia. Defined.

Lemma radix_tree_holes_correct_witness :
  ∃ r, radix_tree_next_hole wit3 0 100 = Some (u32 r) ∧ 0 ≤ r ≤ 100.
Proof.
  destruct (radix_tree_holes_correct wit3 _ _ 0 100 wit3_holds) as [(r & E & Hr & _) _]; [split; lia|lia|].
  exists r. split; [exact E|lia].
Defined.

Lemma radix_tree_tags_correct_witness :
  radix_tree_tag_get wit3 70 1 = Some true ∧ radix_tree_tagged wit3 1 = true.
Proof.
  destruct (radix_tree_tags_correct wit3 _ _ 70 1 wit3_holds) as (E & H & _); [split; lia|lia|].
  split; [exact E|]. apply H. exists 70. reflexivity.
Defined.

Lemma radix_tree_gang_correct_witness :
  radix_tree_gang_lookup wit3 0 10 =
    Some (mset (mset (λ _, 0) 0 20) 70 24 <$> take (Z.to_nat 10) (present (mset (mset (λ _, 0) 0 20) 70 24) 0)).
Proof.
  destruct (radix_tree_gang_correct wit3 _ _ 1 0 10 wit3_holds) as [E _]; [split; lia|lia|lia|]. exact E.
Defined.

Definition wit_preloaded s : rt_state := match radix_tree_preload first_free s with Some (s, _) => s | None => s end.

Lemma radix_tree_preload_enough_witness :
  ∃ s' e, radix_tree_insert exhausted (wit_preloaded wit2) 4000 28 = Some (s', e) ∧ (e = 0 ∨ e = - EEXIST).
Proof.
  destruct (radix_tree_preload_enough first_free exhausted wit2 (wit_preloaded wit2) _ _ 4000 28 wit2_holds)
    as (s' & e & E & Hc); [reflexivity|vm_compute; reflexivity|split; lia|reflexivity|lia|right; vm_compute; reflexivity|].
  exists s', e. split; [exact E|]. destruct Hc as [Hc|[Hc _]]; auto.
Defined.

Definition wit_calls : list rt_op :=
  [Insert 0 20; Insert 70 24; Insert 70 26; TagSet 70 1; TagSet 5 0; GangTag 0 10 1; Replace 70 28; Gang 0 10; TagClear 3 1;
   Preload; Delete 70; TagGet 70 1; NextHole 0 9; CpuDead; Delete 0; Lookup 0].

Lemma radix_tree_refines_array_witness :
  ∃ s t m g, do_ops first_free (init_state 0 wit_pool) wit_calls = Some (s, t) ∧
    map snd t = [[0]; [0]; [- EEXIST]; [24]; [0]; [24]; [24]; [20; 28]; [0]; [0]; [28]; [0]; [1]; []; [20]; [0]] ∧
    abs_run (λ _, 0) (λ _ _, false) t m g ∧ rt_compact s m g.
Proof.
  destruct (radix_tree_refines_array first_free 0 wit_pool wit_calls) as (s & t & m & g & E & _ & Ha & _ & Hc);
    [lia|apply wit_addrs|repeat constructor; unfold index_ok; lia|].
  assert (Et : (r ← do_ops first_free (init_state 0 wit_pool) wit_calls; Some (r.2)) = Some t) by (rewrite E; reflexivity).
  exists s, t, m, g. split; [exact E|]. clear E.
  vm_compute in Et. injection Et as <-. split; [reflexivity|]. split; [exact Ha|]. apply Hc.
  repeat (apply list.Forall_cons; split; [intros (i & item & [=])|]). apply List.Forall_nil.
Defined.

(** The preloaded nodes are not enough when the tree has to grow: with one item at index 0
    and [RADIX_TREE_MAX_PATH] preloaded nodes, the insertion at the last index uses all of
    them to raise the root and then has none for the path down. *)
Example radix_tree_preload_short :
  let s := wit_preloaded wit1 in
  alen (preloads s) = RADIX_TREE_MAX_PATH ∧
  (r ← radix_tree_insert exhausted s (2 ^ 32 - 1) 28; Some r.2) = Some (- ENOMEM).
Proof. vm_compute. done. Qed.

(** A gang lookup stores the item of a tree of height 0 even when no result is wanted. *)
Example radix_tree_gang_lookup_zero : radix_tree_gang_lookup wit1 0 0 = Some [20].
Proof. by vm_compute. Qed.
