(* ===== verification/Strings.v ===== *)
(** * Characters, strings and the parsing of numbers

    Models [lib/ctype.c], [include/linux/ctype.h], the string lengths and the white-space
    skipping of [lib/string.c], and the string-to-number functions of [lib/vsprintf.c].
    A string is an object of bytes and an index in it ([char] is unsigned on ARM); a read
    outside the object fails, so a result includes that the code stops at the null byte. *)

From S2P Require Import Prelude.
#[local] Open Scope Z_scope.
#[local] Open Scope kernel_scope.

(** ** Character classes *)

Definition _U : Z := 0x01.
Definition _L : Z := 0x02.
Definition _D : Z := 0x04.
Definition _C : Z := 0x08.
Definition _P : Z := 0x10.
Definition _S : Z := 0x20.
Definition _X : Z := 0x40.
Definition _SP : Z := 0x80.

Definition _ctype : list Z :=
  [_C; _C; _C; _C; _C; _C; _C; _C;
   _C; Z.lor _C _S; Z.lor _C _S; Z.lor _C _S; Z.lor _C _S; Z.lor _C _S; _C; _C;
   _C; _C; _C; _C; _C; _C; _C; _C;
   _C; _C; _C; _C; _C; _C; _C; _C;
   Z.lor _S _SP; _P; _P; _P; _P; _P; _P; _P;
   _P; _P; _P; _P; _P; _P; _P; _P;
   _D; _D; _D; _D; _D; _D; _D; _D;
   _D; _D; _P; _P; _P; _P; _P; _P;
   _P; Z.lor _U _X; Z.lor _U _X; Z.lor _U _X; Z.lor _U _X; Z.lor _U _X; Z.lor _U _X; _U;
   _U; _U; _U; _U; _U; _U; _U; _U;
   _U; _U; _U; _U; _U; _U; _U; _U;
   _U; _U; _U; _P; _P; _P; _P; _P;
   _P; Z.lor _L _X; Z.lor _L _X; Z.lor _L _X; Z.lor _L _X; Z.lor _L _X; Z.lor _L _X; _L;
   _L; _L; _L; _L; _L; _L; _L; _L;
   _L; _L; _L; _L; _L; _L; _L; _L;
   _L; _L; _L; _P; _P; _P; _P; _C;
   0; 0; 0; 0; 0; 0; 0; 0; 0; 0; 0; 0; 0; 0; 0; 0;
   0; 0; 0; 0; 0; 0; 0; 0; 0; 0; 0; 0; 0; 0; 0; 0;
   Z.lor _S _SP; _P; _P; _P; _P; _P; _P; _P; _P; _P; _P; _P; _P; _P; _P; _P;
   _P; _P; _P; _P; _P; _P; _P; _P; _P; _P; _P; _P; _P; _P; _P; _P;
   _U; _U; _U; _U; _U; _U; _U; _U; _U; _U; _U; _U; _U; _U; _U; _U;
   _U; _U; _U; _U; _U; _U; _U; _P; _U; _U; _U; _U; _U; _U; _U; _L;
   _L; _L; _L; _L; _L; _L; _L; _L; _L; _L; _L; _L; _L; _L; _L; _L;
   _L; _L; _L; _L; _L; _L; _L; _P; _L; _L; _L; _L; _L; _L; _L; _L].

(** The index is an [unsigned char] and the table has 256 entries. *)
Definition __ismask (x : Z) : Z := default 0 _ctype.[u8 x].

Definition isalnum (c : Z) : bool := ctrue (Z.land (__ismask c) (Z.lor _U (Z.lor _L _D))).
Definition isalpha (c : Z) : bool := ctrue (Z.land (__ismask c) (Z.lor _U _L)).
Definition isdigit (c : Z) : bool := ctrue (Z.land (__ismask c) _D).
Definition isspace (c : Z) : bool := ctrue (Z.land (__ismask c) _S).
Definition isupper (c : Z) : bool := ctrue (Z.land (__ismask c) _U).
Definition islower (c : Z) : bool := ctrue (Z.land (__ismask c) _L).
Definition isxdigit (c : Z) : bool := ctrue (Z.land (__ismask c) (Z.lor _D _X)).

Definition __tolower (c : Z) : Z := if isupper c then u8 (c - (65 - 97)) else c.
Definition __toupper (c : Z) : Z := if islower c then u8 (c - (97 - 65)) else c.

(** ** Lengths *)

Definition strlen (b : list Z) (s : Z) : option Z :=
  loop (S (length b)) (λ sc, c ← b.[sc]; if ctrue c then Some (inl (sc + 1)) else Some (inr (sc - s))) s.

(** [count-- && *sc]: the byte is not read when the count is used up. *)
Definition strnlen (b : list Z) (s count : Z) : option Z :=
  loop (S (length b)) (λ '(sc, count),
    if ctrue count then
      c ← b.[sc];
      if ctrue c then Some (inl (sc + 1, u32 (count - 1))) else Some (inr (sc - s))
    else Some (inr (sc - s))) (s, u32 count).

Definition skip_spaces (b : list Z) (str : Z) : option Z :=
  loop (S (length b)) (λ str, c ← b.[str]; if isspace c then Some (inl (str + 1)) else Some (inr str)) str.

(** ** Numbers *)

Definition EINVAL : Z := 22.

Definition TOLOWER (x : Z) : Z := Z.lor x 0x20.

Definition simple_guess_base (b : list Z) (cp : Z) : option Z :=
  c0 ← b.[cp];
  if c0 =? 48 then
    c1 ← b.[cp + 1];
    if TOLOWER c1 =? 120 then c2 ← b.[cp + 2]; Some (if isxdigit c2 then 16 else 8) else Some 8
  else Some 10.

(** The base that is used and the start of the digits. *)
Definition number_start (b : list Z) (cp base : Z) : option (Z * Z) :=
  base ← (if base =? 0 then simple_guess_base b cp else Some base);
  if base =? 16 then
    c0 ← b.[cp];
    if c0 =? 48 then c1 ← b.[cp + 1]; Some (base, if TOLOWER c1 =? 120 then cp + 2 else cp)
    else Some (base, cp)
  else Some (base, cp).

(** The value and [*endp]. *)
Definition simple_strtoull (b : list Z) (cp base : Z) : option (Z * Z) :=
  '(base, cp) ← number_start b cp base;
  loop (S (length b)) (λ '(cp, result),
    c ← b.[cp];
    if isxdigit c then
      let value := if isdigit c then c - 48 else TOLOWER c - 97 + 10 in
      if value >=? base then Some (inr (result, cp))
      else Some (inl (cp + 1, u64 (result * base + value)))
    else Some (inr (result, cp))) (cp, 0).

Definition simple_strtoul (b : list Z) (cp base : Z) : option (Z * Z) :=
  '(r, endp) ← simple_strtoull b cp base; Some (u32 r, endp).

(** A signed 64-bit [long long]. *)
Definition s64 (x : Z) : Z := let y := u64 x in if y <? 2 ^ 63 then y else y - 2 ^ 64.

Definition simple_strtol (b : list Z) (cp base : Z) : option (Z * Z) :=
  c ← b.[cp];
  if c =? 45 then '(r, endp) ← simple_strtoul b (cp + 1) base; Some (s32 (- r), endp)
  else '(r, endp) ← simple_strtoul b cp base; Some (s32 r, endp).

Definition simple_strtoll (b : list Z) (cp base : Z) : option (Z * Z) :=
  c ← b.[cp];
  if c =? 45 then '(r, endp) ← simple_strtoull b (cp + 1) base; Some (s64 (- r), endp)
  else '(r, endp) ← simple_strtoull b cp base; Some (s64 r, endp).

(** [strict_strtoul] and [strict_strtoull] differ in the conversion; the result is the
    return value and [*res]. *)
Definition strict (conv : list Z → Z → Z → option (Z * Z)) (b : list Z) (cp base : Z) : option (Z * Z) :=
  len ← strlen b cp;
  if len =? 0 then Some (- EINVAL, 0) else
  '(val, tail) ← conv b cp base;
  if tail =? cp then Some (- EINVAL, 0) else
  t ← b.[tail];
  if (t =? 0) || ((len =? tail - cp + 1) && (t =? 10)) then Some (0, val) else Some (- EINVAL, 0).

Definition strict_strtoul : list Z → Z → Z → option (Z * Z) := strict simple_strtoul.
Definition strict_strtoull : list Z → Z → Z → option (Z * Z) := strict simple_strtoull.

Definition strict_strtol (b : list Z) (cp base : Z) : option (Z * Z) :=
  c ← b.[cp];
  if c =? 45 then
    '(ret, res) ← strict_strtoul b (cp + 1) base;
    Some (ret, if ret =? 0 then s32 (- res) else s32 res)
  else '(ret, res) ← strict_strtoul b cp base; Some (ret, s32 res).

Definition strict_strtoll (b : list Z) (cp base : Z) : option (Z * Z) :=
  c ← b.[cp];
  if c =? 45 then
    '(ret, res) ← strict_strtoull b (cp + 1) base;
    Some (ret, if ret =? 0 then s64 (- res) else s64 res)
  else '(ret, res) ← strict_strtoull b cp base; Some (ret, s64 res).

(** The value and the updated [*s]; [i] is an [int]. *)
Definition skip_atoi (b : list Z) (s : Z) : option (Z * Z) :=
  loop (S (length b)) (λ '(s, i),
    c ← b.[s];
    if isdigit c then Some (inl (s + 1, s32 (i * 10 + c - 48))) else Some (inr (i, s))) (s, 0).
