(* ===== verification/StringsFacts.v ===== *)
(** * Parsing of numbers against numerals

    The string-to-number functions of [Strings.v] compute the value of the longest run of
    digits, and the strict ones accept exactly the numerals with an optional line feed. *)

From S2P Require Import Prelude Strings.
#[local] Open Scope Z_scope.
#[local] Open Scope kernel_scope.

(** ** Strings in memory *)

Definition char (c : Z) : Prop := 0 < c < 256.

(** The object [b] holds the null-terminated string [t] at [p]. *)
Fixpoint cstr (b : list Z) (p : Z) (t : list Z) : Prop :=
  match t with
  | [] => b.[p] = Some 0
  | c :: t => b.[p] = Some c ∧ char c ∧ cstr b (p + 1) t
  end.

Lemma cstr_app b p t t' : cstr b p (t ++ t') → cstr b (p + alen t) t'.
Proof.
  revert p. induction t as [|c t IH]; intros p H; cbn in *.
  - by rewrite Z.add_0_r.
  - destruct H as (_ & _ & H). apply IH in H. unfold alen in *. cbn [length].
    by replace (p + Z.of_nat (S (length t))) with (p + 1 + Z.of_nat (length t)) by lia.
Qed.

Lemma cstr_end b p t : cstr b p t → b.[p + alen t] = Some 0.
Proof. intros H. rewrite <- (app_nil_r t) in H. by apply cstr_app in H. Qed.

Lemma cstr_bound b p t : cstr b p t → 0 ≤ p ∧ p + alen t < alen b.
Proof.
  intros H. pose proof (cstr_end _ _ _ H) as He%arr_get_Some_lt. split; [|lia].
  destruct t; cbn in H; [apply arr_get_Some_lt in H; lia|]. destruct H as [H _]. apply arr_get_Some_lt in H. lia.
Qed.

Lemma cstr_chars b p t : cstr b p t → Forall char t.
Proof. revert p. induction t as [|c t IH]; intros p H; constructor; [apply H|]. eapply IH, H. Qed.

Lemma cstr_fuel b p t : cstr b p t → (length t < S (length b))%nat.
Proof. intros H%cstr_bound. unfold alen in H. lia. Qed.

Lemma cstr_intro b p t :
  Forall char t → (∀ i, 0 ≤ i < alen t → b.[p + i] = t.[i]) → b.[p + alen t] = Some 0 → cstr b p t.
Proof.
  intros Ht. revert p. induction Ht as [|c t Hc Ht IH]; intros p Hg He.
  { change (alen []) with 0 in He. by rewrite Z.add_0_r in He. }
  assert (Hal : alen (c :: t) = 1 + alen t) by (unfold alen; cbn [length]; lia). rewrite Hal in *. pose proof (alen_nonneg t).
  cbn [cstr]. ands; [|done|].
  - pose proof (Hg 0 ltac:(lia)) as H0. by rewrite Z.add_0_r in H0.
  - apply IH; [|by rewrite <- Z.add_assoc]. intros i Hi. rewrite <- Z.add_assoc, Hg by lia.
    unfold arr_get. destruct (Z.leb_spec 0 (1 + i)), (Z.leb_spec 0 i); try lia.
    by replace (Z.to_nat (1 + i)) with (S (Z.to_nat i)) by lia.
Qed.

Lemma cstr_snoc t : Forall char t → cstr (t ++ [0]) 0 t.
Proof.
  intros Ht. apply cstr_intro; [done| |].
  - intros i Hi. rewrite Z.add_0_l, arr_get_app by lia. by rewrite decide_True by lia.
  - rewrite Z.add_0_l, arr_get_app by apply alen_nonneg. rewrite decide_False by lia. by rewrite Z.sub_diag.
Qed.

(** ** Lengths *)

Lemma strlen_ok b p t : cstr b p t → strlen b p = Some (alen t).
Proof.
  intros H. unfold strlen.
  destruct (loop_rule_idx (λ k sc, ∃ u v, t = u ++ v ∧ sc = p + alen u ∧ k = length v) (λ r, r = alen t)
    (λ sc, c ← b.[sc]; if ctrue c then Some (inl (sc + 1)) else Some (inr (sc - p))) (length t) (S (length b)) p)
    as (r & -> & ->); [|by exists [], t; rewrite Z.add_0_r|by eapply cstr_fuel|done].
  intros k sc (u & v & -> & -> & ->). pose proof (cstr_app _ _ _ _ H) as Hv. destruct v as [|c v]; cbn in Hv.
  - rewrite Hv. eexists; split; [done|]. cbn. rewrite app_nil_r. lia.
  - destruct Hv as (-> & Hc & _). cbn [mbind option_bind]. assert (ctrue c = true) as ->.
    { apply ctrue_true. unfold char in Hc. lia. }
    eexists; split; [done|]. cbn. exists (length v). split; [lia|]. exists (u ++ [c]), v.
    rewrite <- app_assoc, alen_app. ands; try done. change (alen [c]) with 1. lia.
Qed.

Lemma strnlen_ok b p t count :
  cstr b p t → urange 32 count → strnlen b p count = Some (Z.min (alen t) count).
Proof.
  intros H Hc. unfold strnlen. rewrite uwrap_small by done. unfold urange in Hc.
  destruct (loop_rule_idx (λ k '(sc, n), ∃ u v, t = u ++ v ∧ sc = p + alen u ∧ k = length v ∧ n = count - alen u ∧
      alen u ≤ count) (λ r, r = Z.min (alen t) count)
    (λ '(sc, count), if ctrue count then
      c ← b.[sc]; if ctrue c then Some (inl (sc + 1, u32 (count - 1))) else Some (inr (sc - p))
      else Some (inr (sc - p))) (length t) (S (length b)) (p, count))
    as (r & -> & ->); [|exists [], t; unfold alen; cbn; ands; done || lia|by eapply cstr_fuel|done].
  intros k [sc n] (u & v & -> & -> & -> & -> & Hle). pose proof (cstr_app _ _ _ _ H) as Hv.
  rewrite alen_app. pose proof (alen_nonneg v). pose proof (alen_nonneg u).
  destruct (ctrue (count - alen u)) eqn:En; [apply ctrue_true in En|apply ctrue_false in En].
  2:{ eexists; split; [done|]. cbn. lia. }
  destruct v as [|c v]; cbn in Hv.
  - rewrite Hv. eexists; split; [done|]. cbn. change (alen []) with 0. lia.
  - destruct Hv as (-> & Hch & _). cbn [mbind option_bind]. assert (ctrue c = true) as ->.
    { apply ctrue_true. unfold char in Hch. lia. }
    eexists; split; [done|]. cbn. exists (length v). split; [lia|]. exists (u ++ [c]), v.
    rewrite <- app_assoc, alen_app. change (alen [c]) with 1.
    rewrite uwrap_small by (unfold urange; lia). ands; try done; lia.
Qed.

(** ** Digits *)

Lemma byte_all (P : Z → bool) : forallb P (seqZ 0 256) = true → ∀ c, 0 ≤ c < 256 → P c = true.
Proof.
  intros H c Hc. rewrite forallb_forall in H. apply H. apply list_elem_of_In, elem_of_seqZ. lia.
Qed.

Definition dval (c : Z) : Z := if isdigit c then c - 48 else TOLOWER c - 97 + 10.
Definition is_dig (base c : Z) : bool := isxdigit c && (dval c <? base).

(** The value of digits, the most significant first. *)
Definition numval (base : Z) (ds : list Z) : Z := fold_left (λ a c, a * base + dval c) ds 0.

Fixpoint digits_prefix (base : Z) (t : list Z) : list Z :=
  match t with
  | [] => []
  | c :: t => if is_dig base c then c :: digits_prefix base t else []
  end.

Lemma numval_snoc base ds c : numval base (ds ++ [c]) = numval base ds * base + dval c.
Proof. unfold numval. by rewrite fold_left_app. Qed.

Lemma digits_prefix_all base ds : Forall (λ c, is_dig base c = true) (digits_prefix base ds).
Proof. induction ds as [|c ds IH]; cbn; [constructor|]. destruct (is_dig base c) eqn:E; by constructor. Qed.

(** The digits of [ds ++ t] are [ds] when [t] does not start with a digit. *)
Definition no_digit (base : Z) (t : list Z) : Prop :=
  match t with [] => True | c :: _ => is_dig base c = false end.

Lemma digits_prefix_app base ds t :
  Forall (λ c, is_dig base c = true) ds → no_digit base t → digits_prefix base (ds ++ t) = ds.
Proof.
  intros Hd Ht. induction Hd as [|c ds Hc Hd IH]; cbn.
  - destruct t; [done|]. cbn in *. by rewrite Ht.
  - by rewrite Hc, IH.
Qed.

Lemma digits_prefix_split base t :
  ∃ rest, t = digits_prefix base t ++ rest ∧ no_digit base rest.
Proof.
  induction t as [|c t IH]; cbn; [by exists []|]. destruct (is_dig base c) eqn:E; [|by exists (c :: t)].
  destruct IH as (rest & Ht & Hn). exists rest. cbn. by rewrite <- Ht.
Qed.

Lemma is_dig_0 base : is_dig base 0 = false.
Proof. done. Qed.

Lemma u64_step a base v : u64 (u64 a * base + v) = u64 (a * base + v).
Proof. unfold uwrap. rewrite Zplus_mod, Zmult_mod_idemp_l, <- Zplus_mod. done. Qed.

Lemma u32_u64 x : u32 (u64 x) = u32 x.
Proof. unfold uwrap. apply Z.mod_mod_divide. by exists (2 ^ 32). Qed.

(** ** The conversion *)

(** The prefix that is skipped. *)
Definition hex_prefix (base : Z) (t : list Z) : list Z :=
  match t with
  | 48 :: c :: _ => if (base =? 16) && (TOLOWER c =? 120) then [48; c] else []
  | _ => []
  end.

Definition guess_base (t : list Z) : Z :=
  match t with
  | 48 :: c :: d :: _ => if (TOLOWER c =? 120) && isxdigit d then 16 else 8
  | 48 :: _ => 8
  | _ => 10
  end.

Definition base_of (base : Z) (t : list Z) : Z := if base =? 0 then guess_base t else base.

Lemma guess_base_ok b p t : cstr b p t → simple_guess_base b p = Some (guess_base t).
Proof.
  intros H. unfold simple_guess_base. destruct t as [|c0 t]; cbn in H; [by rewrite H|].
  destruct H as (-> & Hc & H). cbn [mbind option_bind]. destruct (Z.eqb_spec c0 48) as [->|Hne].
  2:{ cbn. destruct c0 as [|q|q]; try done. do 6 (destruct q as [q|q|]; try done). }
  destruct t as [|c1 t]; cbn in H; [by rewrite H|]. destruct H as (-> & Hc1 & H). cbn [mbind option_bind].
  destruct (TOLOWER c1 =? 120) eqn:E; [|by destruct t; cbn; rewrite ?E].
  replace (p + 1 + 1) with (p + 2) in H by lia.
  destruct t as [|c2 t]; cbn in H; [by rewrite H|]. destruct H as (-> & _ & _). cbn. rewrite E. done.
Qed.

Lemma number_start_ok b p t base :
  cstr b p t → number_start b p base = Some (base_of base t, p + alen (hex_prefix (base_of base t) t)).
Proof.
  intros H. unfold number_start, base_of.
  assert ((if base =? 0 then simple_guess_base b p else Some base) = Some (if base =? 0 then guess_base t else base)) as ->.
  { destruct (base =? 0); [by apply guess_base_ok|done]. }
  cbn [mbind option_bind]. set (base' := if base =? 0 then _ else _). clearbody base'.
  assert (Hp : ∀ c t, c ≠ 48 → hex_prefix base' (c :: t) = []).
  { intros c t' Hne. cbn. destruct c as [|q|q]; try done. do 6 (destruct q as [q|q|]; try done). }
  destruct t as [|c0 t]; cbn [cstr] in H.
  - rewrite H. cbn. destruct (base' =? 16); cbn; by rewrite Z.add_0_r.
  - destruct H as (-> & _ & H). cbn [mbind option_bind]. destruct (Z.eqb_spec c0 48) as [->|Hne].
    + destruct (base' =? 16) eqn:Eb.
      2:{ cbn. destruct t; cbn; rewrite ?Eb; cbn; by rewrite Z.add_0_r. }
      destruct t as [|c1 t]; cbn [cstr] in H.
      * rewrite H. cbn. by rewrite Z.add_0_r.
      * destruct H as (-> & _). cbn [mbind option_bind]. cbn [hex_prefix]. rewrite Eb. cbn [andb].
        destruct (TOLOWER c1 =? 120); [done|]. cbn. by rewrite Z.add_0_r.
    + rewrite Hp by done. change (alen []) with 0. rewrite Z.add_0_r. by destruct (base' =? 16).
Qed.

Lemma hex_prefix_app base t : ∃ u, t = hex_prefix base t ++ u.
Proof.
  unfold hex_prefix. destruct t as [|c0 [|c1 t]]; [by exists []|by exists [c0]; destruct c0 as [|q|q]; try done;
    do 6 (destruct q as [q|q|]; try done)|].
  destruct (decide (c0 = 48)) as [->|Hne].
  - destruct (_ && _); [by exists t|by eexists].
  - exists (c0 :: c1 :: t). destruct c0 as [|q|q]; try done. do 6 (destruct q as [q|q|]; try done).
Qed.

(** The digits that are converted. *)
Definition number_digits (base : Z) (t : list Z) : list Z :=
  digits_prefix base (drop (length (hex_prefix base t)) t).

Lemma strtoull_ok b p t base :
  cstr b p t →
  simple_strtoull b p base =
    let base' := base_of base t in
    Some (u64 (numval base' (number_digits base' t)),
          p + alen (hex_prefix base' t) + alen (number_digits base' t)).
Proof.
  intros H. unfold simple_strtoull. rewrite (number_start_ok b p t) by done. cbn [mbind option_bind]. cbv zeta.
  set (base' := base_of base t). clearbody base'. unfold number_digits.
  destruct (hex_prefix_app base' t) as [u Hu].
  assert (Hd : drop (length (hex_prefix base' t)) t = u) by (rewrite Hu at 2; apply drop_app_length).
  rewrite Hd. rewrite Hu in H. apply cstr_app in H. set (q := p + alen (hex_prefix base' t)) in *.
  clearbody q. clear Hu Hd p t.
  destruct (digits_prefix_split base' u) as (rest & Hrest & Hno). set (ds := digits_prefix base' u) in *.
  assert (Hall : Forall (λ c, is_dig base' c = true) ds) by apply digits_prefix_all.
  match goal with |- loop ?n ?f ?x = Some ?y => destruct (loop_rule_idx (λ k '(cp, r), ∃ v w, ds = v ++ w ∧ cp = q + alen v ∧
      k = length w ∧ r = u64 (numval base' v)) (λ r, r = y) f (length ds) n x) as (r & -> & ->); [| | |done] end.
  - intros k [cp r] (v & w & Hds & -> & -> & ->). pose proof H as Hc. rewrite Hrest, Hds, <- app_assoc in Hc.
    apply cstr_app in Hc. destruct w as [|c w].
    + rewrite app_nil_r in Hds. subst v. cbn [app] in Hc.
      assert (∃ c, b.[q + alen ds] = Some c ∧ is_dig base' c = false) as (c & -> & Hd).
      { destruct rest as [|c rest]; cbn in Hc; [by exists 0|]. exists c. split; [apply Hc|]. apply Hno. }
      cbn [mbind option_bind]. unfold is_dig in Hd. destruct (isxdigit c); [|by eexists].
      cbn in Hd. change (if isdigit c then c - 48 else TOLOWER c - 97 + 10) with (dval c).
      rewrite Z.geb_leb. apply Z.ltb_ge in Hd. apply Z.leb_le in Hd. rewrite Hd. by eexists.
    + cbn [app cstr] in Hc. destruct Hc as (-> & _ & _). cbn [mbind option_bind].
      rewrite Hds in Hall. apply Forall_app in Hall as [_ Hall]. apply list.Forall_cons in Hall as [Hd _].
      unfold is_dig in Hd. apply andb_true_iff in Hd as [-> Hd%Z.ltb_lt].
      change (if isdigit c then c - 48 else TOLOWER c - 97 + 10) with (dval c).
      destruct (dval c >=? base') eqn:E; [apply Z.geb_le in E; lia|].
      eexists; split; [done|]. cbn. exists (length w). split; [lia|]. exists (v ++ [c]), w.
      rewrite <- app_assoc, alen_app. change (alen [c]) with 1. ands; try done; [lia|].
      by rewrite numval_snoc, u64_step.
  - exists [], ds. ands; try done. by rewrite Z.add_0_r.
  - apply cstr_fuel in H. rewrite Hrest, length_app in H. lia.
Qed.

(** ** The strict conversions *)

(** [t] is a numeral of value [v] in [base]: digits, with the prefix 0x or 0X where the
    base is 16, and an optional line feed. *)
Definition numeral (base : Z) (t : list Z) (v : Z) : Prop :=
  ∃ pfx ds tl, t = pfx ++ ds ++ tl ∧ (pfx = [] ∨ base = 16 ∧ (pfx = [48; 120] ∨ pfx = [48; 88])) ∧
    pfx ++ ds ≠ [] ∧ Forall (λ c, is_dig base c = true) ds ∧ (tl = [] ∨ tl = [10]) ∧ v = numval base ds.

Lemma TOLOWER_x c : char c → (TOLOWER c =? 120) = (c =? 120) || (c =? 88).
Proof.
  intros Hc. apply eqb_prop. revert c Hc.
  assert (H := byte_all (λ c, eqb (TOLOWER c =? 120) ((c =? 120) || (c =? 88))) eq_refl).
  intros c Hc. rewrite H by (unfold char in Hc; lia). done.
Qed.

Lemma no_digit_lf base tl : tl = [] ∨ tl = [10] → no_digit base tl.
Proof. by intros [->| ->]. Qed.

(** The prefix of a string that starts with digits of the base is the empty one. *)
Lemma hex_prefix_digits base ds tl :
  Forall char ds → Forall (λ c, is_dig base c = true) ds → tl = [] ∨ tl = [10] → hex_prefix base (ds ++ tl) = [].
Proof.
  intros Hch Hd Htl. destruct ds as [|c0 ds]; [by destruct Htl as [->| ->]|].
  destruct (decide (c0 = 48)) as [->|Hne].
  2:{ cbn. destruct c0 as [|q|q]; try done. do 6 (destruct q as [q|q|]; try done). }
  apply list.Forall_cons in Hd as [_ Hd]. apply list.Forall_cons in Hch as [_ Hch]. destruct ds as [|c1 ds].
  - destruct Htl as [->| ->]; [done|]. cbn. by rewrite andb_false_r.
  - apply list.Forall_cons in Hd as [Hd _]. apply list.Forall_cons in Hch as [Hch _]. cbn.
    unfold is_dig in Hd. apply andb_true_iff in Hd as [Hx _].
    assert (H := byte_all (λ c, negb (isxdigit c && (TOLOWER c =? 120))) eq_refl c1 ltac:(unfold char in Hch; lia)).
    cbv beta in H. rewrite Hx in H. cbn [andb] in H. apply negb_true_iff in H. by rewrite H, andb_false_r.
Qed.

Lemma hex_prefix_cases base t :
  Forall char t → hex_prefix base t = [] ∨ base = 16 ∧ (hex_prefix base t = [48; 120] ∨ hex_prefix base t = [48; 88]).
Proof.
  intros Hch. destruct t as [|c0 [|c1 t]]; [by left| |].
  - left. cbn. destruct c0 as [|q|q]; try done. do 6 (destruct q as [q|q|]; try done).
  - apply list.Forall_cons in Hch as [_ Hch]. apply list.Forall_cons in Hch as [Hc _].
    destruct (decide (c0 = 48)) as [->|Hne].
    + cbn. rewrite TOLOWER_x by done. destruct (Z.eqb_spec base 16) as [->|]; [|by left].
      destruct (Z.eqb_spec c1 120) as [->|]; [by auto|]. destruct (Z.eqb_spec c1 88) as [->|]; by auto.
    + left. cbn. destruct c0 as [|q|q]; try done. do 6 (destruct q as [q|q|]; try done).
Qed.

(** What is converted of a numeral, and of the strings that are none. *)
Lemma numeral_iff base t v :
  Forall char t →
  numeral base t v ↔
    ∃ tl, t = hex_prefix base t ++ number_digits base t ++ tl ∧ (tl = [] ∨ tl = [10]) ∧
      hex_prefix base t ++ number_digits base t ≠ [] ∧ v = numval base (number_digits base t).
Proof.
  intros Hch. split.
  - intros (pfx & ds & tl & -> & Hpfx & Hne & Hds & Htl & ->).
    apply Forall_app in Hch as [_ Hch]. apply Forall_app in Hch as [Hch _].
    assert (hex_prefix base (pfx ++ ds ++ tl) = pfx) as Hp.
    { destruct Hpfx as [->|[-> [->| ->]]]; [|done|done]. by apply (hex_prefix_digits base ds tl). }
    unfold number_digits. rewrite Hp, drop_app_length.
    rewrite digits_prefix_app by (done || by apply no_digit_lf). by exists tl.
  - intros (tl & Ht & Htl & Hne & ->). exists (hex_prefix base t), (number_digits base t), tl. ands; try done.
    + by apply hex_prefix_cases.
    + apply digits_prefix_all.
Qed.

Section Strict.
Context (w : Z) (conv : list Z → Z → Z → option (Z * Z)).
Hypothesis conv_ok : ∀ b p t base, cstr b p t →
  conv b p base = let base' := base_of base t in
    Some (uwrap w (numval base' (number_digits base' t)),
          p + alen (hex_prefix base' t) + alen (number_digits base' t)).

Lemma strict_ok b p t base :
  cstr b p t →
  (∃ v, numeral (base_of base t) t v ∧ strict conv b p base = Some (0, uwrap w v)) ∨
  ((∀ v, ¬ numeral (base_of base t) t v) ∧ strict conv b p base = Some (- EINVAL, 0)).
Proof.
  intros H. unfold strict. rewrite (strlen_ok b p t) by done. cbn [mbind option_bind].
  pose proof (λ v, numeral_iff (base_of base t) t v (cstr_chars _ _ _ H)) as Hiff.
  destruct (Z.eqb_spec (alen t) 0) as [Hz|Hz].
  { right. split; [|done]. intros v (tl & _ & _ & Hne & _)%Hiff. apply Hne. destruct t; [done|]. unfold alen in Hz. cbn in Hz. lia. }
  rewrite (conv_ok b p t) by done. cbn [mbind option_bind]. set (base' := base_of base t) in *. clearbody base'.
  destruct (hex_prefix_app base' t) as [u Hu]. unfold number_digits in *.
  assert (Hd : drop (length (hex_prefix base' t)) t = u) by (rewrite Hu at 2; apply drop_app_length).
  rewrite Hd in *. destruct (digits_prefix_split base' u) as (rest & Hr & _).
  set (pfx := hex_prefix base' t) in *. set (ds := digits_prefix base' u) in *.
  assert (Ht : t = (pfx ++ ds) ++ rest) by (rewrite <- app_assoc, <- Hr; done).
  assert (Hlen : alen t = alen (pfx ++ ds) + alen rest) by (rewrite Ht at 1; apply alen_app).
  pose proof (alen_nonneg rest). pose proof (alen_nonneg (pfx ++ ds)).
  replace (p + alen pfx + alen ds) with (p + alen (pfx ++ ds)) by (rewrite alen_app; lia).
  destruct (Z.eqb_spec (p + alen (pfx ++ ds)) p) as [E|E].
  { right. split; [|done]. intros v (tl & _ & _ & Hne & _)%Hiff. apply Hne.
    apply nil_length_inv. unfold alen in E. lia. }
  assert (Hne : pfx ++ ds ≠ []) by (intros Hn; rewrite Hn in E; unfold alen in E; cbn in E; lia).
  rewrite Ht in H. apply cstr_app in H.
  assert (Hrest : ∀ tl, t = pfx ++ ds ++ tl → tl = rest).
  { intros tl Htl. rewrite Ht, app_assoc in Htl. by apply app_inv_head in Htl. }
  destruct rest as [|c rest]; cbn [cstr] in H.
  - rewrite H. cbn [mbind option_bind]. left. eexists; split; [|done]. apply Hiff. exists [].
    ands; try done; [|by left]. by rewrite app_assoc.
  - destruct H as (-> & Hc & _). cbn [mbind option_bind]. unfold char in Hc.
    replace (c =? 0) with false by lia. cbn [orb]. rewrite Hlen.
    replace (alen (pfx ++ ds) + alen (c :: rest) =? p + alen (pfx ++ ds) - p + 1) with (alen rest =? 0)
      by (rewrite (alen_app [c] rest : alen (c :: rest) = _); change (alen [c]) with 1;
          destruct (Z.eqb_spec (alen rest) 0); symmetry; [apply Z.eqb_eq|apply Z.eqb_neq]; lia).
    destruct ((alen rest =? 0) && (c =? 10)) eqn:Ec.
    + apply andb_true_iff in Ec as [Er%Z.eqb_eq ->%Z.eqb_eq]. left. eexists; split; [|done]. apply Hiff.
      assert (rest = []) as -> by (apply nil_length_inv; unfold alen in Er; lia).
      exists [10]. ands; try done; [|by right]. by rewrite app_assoc.
    + right. split; [|done]. intros v (tl & Htl & Hor & _)%Hiff. apply Hrest in Htl as ->.
      destruct Hor as [?|?]; simplify_eq.
Qed.
End Strict.

Lemma strtoul_ok b p t base :
  cstr b p t →
  simple_strtoul b p base =
    let base' := base_of base t in
    Some (u32 (numval base' (number_digits base' t)),
          p + alen (hex_prefix base' t) + alen (number_digits base' t)).
Proof.
  intros H. unfold simple_strtoul. rewrite (strtoull_ok b p t) by done. cbn [mbind option_bind]. cbv zeta.
  by rewrite u32_u64.
Qed.

(** C12: [strict_strtoul] and [strict_strtoull] read every null-terminated string inside its
    object; they return 0 and the value, reduced to 32 or 64 bits, exactly when the whole
    string is a numeral of the base (of the base its prefix names, for base 0) with at most a
    line feed behind it, and -EINVAL with the value 0 for every other string. *)
Theorem strict_strtoul_correct (b : list Z) (p : Z) (t : list Z) (base : Z)
  (H : cstr b p t) :
  ((∃ v, numeral (base_of base t) t v ∧
     strict_strtoul b p base = Some (0, u32 v) ∧ strict_strtoull b p base = Some (0, u64 v)) ∨
   (∀ v, ¬ numeral (base_of base t) t v) ∧
     strict_strtoul b p base = Some (- EINVAL, 0) ∧ strict_strtoull b p base = Some (- EINVAL, 0)) ∧
  ∀ v v', numeral (base_of base t) t v → numeral (base_of base t) t v' → v = v'.
Proof.
  pose proof (strict_ok 32 simple_strtoul strtoul_ok b p t base H) as H1.
  pose proof (strict_ok 64 simple_strtoull strtoull_ok b p t base H) as H2.
  pose proof (λ v, numeral_iff (base_of base t) t v (cstr_chars _ _ _ H)) as Hiff.
  assert (Hu : ∀ v v', numeral (base_of base t) t v → numeral (base_of base t) t v' → v = v').
  { intros v v' (? & _ & _ & _ & ->)%Hiff (? & _ & _ & _ & ->)%Hiff. done. }
  split; [|done]. unfold strict_strtoul, strict_strtoull.
  destruct H1 as [(v & Hv & ->)|(Hno & ->)], H2 as [(v' & Hv' & ->)|(Hno' & ->)].
  - left. exists v. by rewrite (Hu v' v) by done.
  - by destruct (Hno' v).
  - by destruct (Hno v').
  - by right.
Qed.

(** The string "0x1F" with a line feed, in base 0 and in base 10. *)
Lemma strict_strtoul_correct_witness :
  ∃ b t, cstr b 0 t ∧ t = [48; 120; 49; 70; 10] ∧ strict_strtoul b 0 0 = Some (0, 31) ∧
    strict_strtoul b 0 10 = Some (- EINVAL, 0) ∧
    ((∃ v, numeral (base_of 0 t) t v ∧
       strict_strtoul b 0 0 = Some (0, u32 v) ∧ strict_strtoull b 0 0 = Some (0, u64 v)) ∨
     (∀ v, ¬ numeral (base_of 0 t) t v) ∧
       strict_strtoul b 0 0 = Some (- EINVAL, 0) ∧ strict_strtoull b 0 0 = Some (- EINVAL, 0)).
Proof.
  exists [48; 120; 49; 70; 10; 0], [48; 120; 49; 70; 10].
  assert (H : cstr [48; 120; 49; 70; 10; 0] 0 [48; 120; 49; 70; 10]) by (cbn; unfold char; ands; done || lia).
  ands; [done|done|reflexivity|reflexivity|].
  exact (proj1 (strict_strtoul_correct [48; 120; 49; 70; 10; 0] 0 [48; 120; 49; 70; 10] 0 H)).
Defined.

(** The prefix 0x with no digit behind it: base 16 reads it as zero, base 0 rejects it, because
    only [simple_guess_base] looks at the character behind the prefix. *)
Theorem strict_strtoul_bare_prefix :
  strict_strtoul [48; 120; 0] 0 16 = Some (0, 0) ∧ strict_strtoul [48; 120; 0] 0 0 = Some (- EINVAL, 0).
Proof. by vm_compute. Qed.

(** A numeral that does not fit is accepted and reduced: 4294967297 is read as 1. *)
Theorem strict_strtoul_overflow :
  strict_strtoul [52; 50; 57; 52; 57; 54; 55; 50; 57; 55; 0] 0 10 = Some (0, 1).
Proof. by vm_compute. Qed.
