(* ===== verification/Vsprintf.v ===== *)
(** * Formatted output

    Models the output half of [lib/vsprintf.c]: decimal conversion, [number], [string], the
    address printers behind [%p], [format_decode], [vsnprintf] and its callers. The caller's
    buffer is the object [m] at the 32-bit address [buf]; [str] and [end] are addresses, so
    that the comparison [str < end], which guards every store, is the one of the code. A
    [va_list] is a list of words, long longs and pointers with the object they point to.
    [symbol_string] and [resource_string] are parameters. *)

From S2P Require Import Prelude Words Strings.
#[local] Open Scope Z_scope.
#[local] Open Scope kernel_scope.

(** A signed 16-bit [s16]. *)
Definition s16 (x : Z) : Z := let y := u16 x in if y <? 2 ^ 15 then y else y - 2 ^ 16.

(** ** Local character arrays

    [*p++ = c] in an array of [cap] bytes of which the list holds those written. *)
Definition tput (cap : Z) (t : list Z) (c : Z) : option (list Z) :=
  if alen t <? cap then Some (t ++ [u8 c]) else None.

(** ** Decimal digits, least significant first *)

Definition put_dec_trunc (cap : Z) (buf : list Z) (q : Z) : option (list Z) :=
  let d1 := Z.land (Z.shiftr q 4) 0xf in
  let d2 := Z.land (Z.shiftr q 8) 0xf in
  let d3 := Z.shiftr q 12 in
  let d0 := u32 (6 * (d3 + d2 + d1) + Z.land q 0xf) in
  let q := Z.shiftr (u32 (d0 * 0xcd)) 11 in
  let d0 := u32 (d0 - 10 * q) in
  buf ← tput cap buf (d0 + 48);
  let d1 := u32 (q + 9 * d3 + 5 * d2 + d1) in
  if ctrue d1 then
    let q := Z.shiftr (u32 (d1 * 0xcd)) 11 in
    let d1 := u32 (d1 - 10 * q) in
    buf ← tput cap buf (d1 + 48);
    let d2 := u32 (q + 2 * d2) in
    if ctrue d2 || ctrue d3 then
      let q := Z.shiftr (u32 (d2 * 0xd)) 7 in
      let d2 := u32 (d2 - 10 * q) in
      buf ← tput cap buf (d2 + 48);
      let d3 := u32 (q + 4 * d3) in
      if ctrue d3 then
        let q := Z.shiftr (u32 (d3 * 0xcd)) 11 in
        let d3 := u32 (d3 - 10 * q) in
        buf ← tput cap buf (d3 + 48);
        if ctrue q then tput cap buf (q + 48) else Some buf
      else Some buf
    else Some buf
  else Some buf.

Definition put_dec_full (cap : Z) (buf : list Z) (q : Z) : option (list Z) :=
  let d1 := Z.land (Z.shiftr q 4) 0xf in
  let d2 := Z.land (Z.shiftr q 8) 0xf in
  let d3 := Z.shiftr q 12 in
  let d0 := u32 (6 * (d3 + d2 + d1) + Z.land q 0xf) in
  let q := Z.shiftr (u32 (d0 * 0xcd)) 11 in
  let d0 := u32 (d0 - 10 * q) in
  buf ← tput cap buf (d0 + 48);
  let d1 := u32 (q + 9 * d3 + 5 * d2 + d1) in
  let q := Z.shiftr (u32 (d1 * 0xcd)) 11 in
  let d1 := u32 (d1 - 10 * q) in
  buf ← tput cap buf (d1 + 48);
  let d2 := u32 (q + 2 * d2) in
  let q := Z.shiftr (u32 (d2 * 0xd)) 7 in
  let d2 := u32 (d2 - 10 * q) in
  buf ← tput cap buf (d2 + 48);
  let d3 := u32 (q + 4 * d3) in
  let q := Z.shiftr (u32 (d3 * 0xcd)) 11 in
  let d3 := u32 (d3 - 10 * q) in
  buf ← tput cap buf (d3 + 48);
  tput cap buf (q + 48).

(** A 64-bit number has at most four groups of five digits: [do_div] runs three times. *)
Definition put_dec (cap : Z) (buf : list Z) (num : Z) : option (list Z) :=
  loop 5 (λ '(buf, num),
    if num <? 100000 then buf ← put_dec_trunc cap buf (u32 num); Some (inr buf)
    else
      let rem := num mod 100000 in
      buf ← put_dec_full cap buf rem;
      Some (inl (buf, num / 100000))) (buf, num).

(** ** The conversion specification *)

Definition ZEROPAD : Z := 1.
Definition SIGN : Z := 2.
Definition PLUS : Z := 4.
Definition SPACE : Z := 8.
Definition LEFT : Z := 16.
Definition SMALL : Z := 32.
Definition SPECIAL : Z := 64.

Inductive format_type :=
| FORMAT_TYPE_NONE | FORMAT_TYPE_WIDTH | FORMAT_TYPE_PRECISION | FORMAT_TYPE_CHAR | FORMAT_TYPE_STR
| FORMAT_TYPE_PTR | FORMAT_TYPE_PERCENT_CHAR | FORMAT_TYPE_INVALID | FORMAT_TYPE_LONG_LONG
| FORMAT_TYPE_ULONG | FORMAT_TYPE_LONG | FORMAT_TYPE_UBYTE | FORMAT_TYPE_BYTE | FORMAT_TYPE_USHORT
| FORMAT_TYPE_SHORT | FORMAT_TYPE_UINT | FORMAT_TYPE_INT | FORMAT_TYPE_NRCHARS | FORMAT_TYPE_SIZE_T
| FORMAT_TYPE_PTRDIFF.

Record printf_spec := PrintfSpec {
  type : format_type;
  flags : Z;
  base : Z;
  qualifier : Z;
  field_width : Z;
  precision : Z }.

(** Assignments to the members, at their widths. *)
Definition set_type (x : format_type) (s : printf_spec) : printf_spec :=
  PrintfSpec x (flags s) (base s) (qualifier s) (field_width s) (precision s).
Definition or_flags (x : Z) (s : printf_spec) : printf_spec :=
  PrintfSpec (type s) (Z.lor (flags s) x) (base s) (qualifier s) (field_width s) (precision s).
Definition set_flags (x : Z) (s : printf_spec) : printf_spec :=
  PrintfSpec (type s) x (base s) (qualifier s) (field_width s) (precision s).
Definition set_base (x : Z) (s : printf_spec) : printf_spec :=
  PrintfSpec (type s) (flags s) (u8 x) (qualifier s) (field_width s) (precision s).
Definition set_qualifier (x : Z) (s : printf_spec) : printf_spec :=
  PrintfSpec (type s) (flags s) (base s) (u8 x) (field_width s) (precision s).
Definition set_field_width (x : Z) (s : printf_spec) : printf_spec :=
  PrintfSpec (type s) (flags s) (base s) (qualifier s) (s16 x) (precision s).
Definition set_precision (x : Z) (s : printf_spec) : printf_spec :=
  PrintfSpec (type s) (flags s) (base s) (qualifier s) (field_width s) (s16 x).

Definition has (f x : Z) : bool := ctrue (Z.land f x).

(** ** Reading a format *)

Definition switch_qualifier (s : printf_spec) : format_type :=
  let q := qualifier s in
  let sign := has (flags s) SIGN in
  if q =? 76 then FORMAT_TYPE_LONG_LONG
  else if q =? 108 then (if sign then FORMAT_TYPE_LONG else FORMAT_TYPE_ULONG)
  else if TOLOWER q =? 122 then FORMAT_TYPE_SIZE_T
  else if q =? 116 then FORMAT_TYPE_PTRDIFF
  else if q =? 72 then (if sign then FORMAT_TYPE_BYTE else FORMAT_TYPE_UBYTE)
  else if q =? 104 then (if sign then FORMAT_TYPE_SHORT else FORMAT_TYPE_USHORT)
  else if sign then FORMAT_TYPE_INT else FORMAT_TYPE_UINT.

(** The characters h, l, L, z, Z and t, the first two also doubled. *)
Definition decode_modifier (b : list Z) (fmt : Z) (s : printf_spec) : option (printf_spec * Z) :=
  c ← b.[fmt];
  if (c =? 104) || (TOLOWER c =? 108) || (TOLOWER c =? 122) || (c =? 116) then
    let s := set_qualifier c s in
    let fmt := fmt + 1 in
    c ← b.[fmt];
    if qualifier s =? c then
      if qualifier s =? 108 then Some (set_qualifier 76 s, fmt + 1)
      else if qualifier s =? 104 then Some (set_qualifier 72 s, fmt + 1)
      else Some (s, fmt)
    else Some (s, fmt)
  else Some (s, fmt).

(** The [switch] on the conversion character and what follows it. *)
Definition decode_conversion (b : list Z) (start fmt : Z) (s : printf_spec) : option (printf_spec * Z) :=
  c ← b.[fmt];
  let integer s := Some (set_type (switch_qualifier s) s, fmt + 1 - start) in
  if c =? 99 then Some (set_type FORMAT_TYPE_CHAR s, fmt + 1 - start)
  else if c =? 115 then Some (set_type FORMAT_TYPE_STR s, fmt + 1 - start)
  else if c =? 112 then Some (set_type FORMAT_TYPE_PTR s, fmt - start)
  else if c =? 110 then Some (set_type FORMAT_TYPE_NRCHARS s, fmt + 1 - start)
  else if c =? 37 then Some (set_type FORMAT_TYPE_PERCENT_CHAR s, fmt + 1 - start)
  else if c =? 111 then integer (set_base 8 s)
  else if c =? 120 then integer (set_base 16 (or_flags SMALL s))
  else if c =? 88 then integer (set_base 16 s)
  else if (c =? 100) || (c =? 105) then integer (or_flags SIGN s)
  else if c =? 117 then integer s
  else Some (set_type FORMAT_TYPE_INVALID s, fmt - start).

(** From the label [qualifier]. *)
Definition decode_qualifier (b : list Z) (start fmt : Z) (s : printf_spec) : option (printf_spec * Z) :=
  '(s, fmt) ← decode_modifier b fmt (set_qualifier (-1) s);
  decode_conversion b start fmt (set_base 10 s).

(** From the label [precision]. *)
Definition decode_precision (b : list Z) (start fmt : Z) (s : printf_spec) : option (printf_spec * Z) :=
  let s := set_precision (-1) s in
  c ← b.[fmt];
  if c =? 46 then
    let fmt := fmt + 1 in
    c ← b.[fmt];
    if isdigit c then
      '(p, fmt) ← skip_atoi b fmt;
      let s := set_precision p s in
      let s := if precision s <? 0 then set_precision 0 s else s in
      decode_qualifier b start fmt s
    else if c =? 42 then Some (set_type FORMAT_TYPE_PRECISION s, fmt + 1 - start)
    else decode_qualifier b start fmt s
  else decode_qualifier b start fmt s.

Definition flag_of (c : Z) : option Z :=
  if c =? 45 then Some LEFT
  else if c =? 43 then Some PLUS
  else if c =? 32 then Some SPACE
  else if c =? 35 then Some SPECIAL
  else if c =? 48 then Some ZEROPAD
  else None.

(** A call that does not continue after a star. *)
Definition decode_start (b : list Z) (fmt : Z) (s : printf_spec) : option (printf_spec * Z) :=
  let start := fmt in
  let s := set_type FORMAT_TYPE_NONE s in
  fmt ← loop (S (length b)) (λ fmt,
    c ← b.[fmt];
    Some (if ctrue c && negb (c =? 37) then inl (fmt + 1) else inr fmt)) fmt;
  c ← b.[fmt];
  if negb (fmt =? start) || negb (ctrue c) then Some (s, fmt - start) else
  let s := set_flags 0 s in
  '(s, fmt) ← loop (S (length b)) (λ '(s, fmt),
    let fmt := fmt + 1 in
    c ← b.[fmt];
    Some (match flag_of c with Some f => inl (or_flags f s, fmt) | None => inr (s, fmt) end)) (s, fmt);
  let s := set_field_width (-1) s in
  c ← b.[fmt];
  if isdigit c then
    '(n, fmt) ← skip_atoi b fmt;
    decode_precision b start fmt (set_field_width n s)
  else if c =? 42 then Some (set_type FORMAT_TYPE_WIDTH s, fmt + 1 - start)
  else decode_precision b start fmt s.

(** The updated [*spec] and the number of characters read. *)
Definition format_decode (b : list Z) (fmt : Z) (s : printf_spec) : option (printf_spec * Z) :=
  match type s with
  | FORMAT_TYPE_WIDTH =>
      let s := if field_width s <? 0 then or_flags LEFT (set_field_width (- field_width s) s) else s in
      decode_precision b fmt fmt (set_type FORMAT_TYPE_NONE s)
  | FORMAT_TYPE_PRECISION =>
      let s := if precision s <? 0 then set_precision 0 s else s in
      decode_qualifier b fmt fmt (set_type FORMAT_TYPE_NONE s)
  | _ => decode_start b fmt s
  end.

(** ** Arguments *)

(** A word ([int], [long], [size_t]), a [long long], or a pointer and what it points to. *)
Inductive va_value :=
| VWord (x : Z)
| VLong (x : Z)
| VPtr (addr : Z) (obj : list Z).

Definition va_word (args : list va_value) : option (Z * list va_value) :=
  match args with VWord x :: args => Some (x, args) | _ => None end.
Definition va_long (args : list va_value) : option (Z * list va_value) :=
  match args with VLong x :: args => Some (x, args) | _ => None end.
Definition va_ptr (args : list va_value) : option (Z * list Z * list va_value) :=
  match args with VPtr a o :: args => Some (a, o, args) | _ => None end.

(** ** Addresses as text *)

Definition hex_asc : list Z := [48; 49; 50; 51; 52; 53; 54; 55; 56; 57; 97; 98; 99; 100; 101; 102].
Definition hex_asc_lo (x : Z) : Z := default 0 hex_asc.[Z.land x 0x0f].
Definition hex_asc_hi (x : Z) : Z := default 0 hex_asc.[Z.shiftr (Z.land x 0xf0) 4].

Definition pack_hex_byte (cap : Z) (buf : list Z) (byte : Z) : option (list Z) :=
  buf ← tput cap buf (hex_asc_hi byte);
  tput cap buf (hex_asc_lo byte).

(** The text that the local array [mac_addr] holds; [b] and [fmt] are the format behind the p. *)
Definition mac_address (b : list Z) (fmt : Z) (addr : list Z) : option (list Z) :=
  let cap := 18 in
  f1 ← b.[fmt + 1];
  let separator := if f1 =? 70 then 45 else 58 in
  f0 ← b.[fmt];
  p ← for_up 0 6 (λ i p,
    a ← addr.[i];
    p ← pack_hex_byte cap p a;
    if (f0 =? 77) && negb (i =? 5) then tput cap p separator else Some p) [];
  tput cap p 0.

(** [ip4_string] on the array of [cap] bytes that holds [p], with the address at [addr + off]
    and the format characters [f0] and [f2]. *)
Definition ip4_string (cap : Z) (p : list Z) (addr : list Z) (off f0 f2 : Z) : option (list Z) :=
  let leading_zeros := f0 =? 105 in
  let '(index, step) := if (f2 =? 104) || (f2 =? 108) then (3, -1) else (0, 1) in
  '(p, _) ← for_up 0 4 (λ i '(p, index),
    a ← addr.[off + index];
    temp ← put_dec_trunc 3 [] a;
    let digits := alen temp in
    p ← (if leading_zeros && (digits <? 3) then tput cap p 48 else Some p);
    p ← (if leading_zeros && (digits <? 2) then tput cap p 48 else Some p);
    p ← for_down (digits - 1) 0 (λ d p, c ← temp.[d]; tput cap p c) p;
    p ← (if i <? 3 then tput cap p 46 else Some p);
    Some (p, index + step)) (p, index);
  tput cap p 0.

Definition htonl (x : Z) : Z := swab32 x.
Definition ntohs (x : Z) : Z := Z.lor (Z.shiftr x 8) (u16 (Z.shiftl x 8)).

Definition s6_addr16 (a : list Z) (i : Z) : option Z :=
  x ← a.[2 * i]; y ← a.[2 * i + 1]; Some (x + 256 * y).
Definition s6_addr32 (a : list Z) (i : Z) : option Z :=
  x ← a.[4 * i]; y ← a.[4 * i + 1]; z ← a.[4 * i + 2]; t ← a.[4 * i + 3]; Some (le32 x y z t).

Definition ipv6_addr_v4mapped (a : list Z) : option bool :=
  x ← s6_addr32 a 0; y ← s6_addr32 a 1; z ← s6_addr32 a 2;
  Some (Z.lor (Z.lor x y) (Z.lxor z (htonl 0xffff)) =? 0).

Definition ipv6_addr_is_isatap (a : list Z) : option bool :=
  z ← s6_addr32 a 2; Some (Z.lor z (htonl 0x02000000) =? htonl 0x02005EFE).

(** The two searches for the longest run of zero words; the state of the second one is
    [longest] and [colonpos]. *)
Definition ip6_zero_run (in6 : list Z) (range : Z) : option (Z * Z) :=
  zerolength ← for_up 0 range (λ i zl,
    loop 9 (λ '(j, zl),
      if j <? range then
        w ← s6_addr16 in6 j;
        if ctrue w then Some (inr zl)
        else z ← zl.[i]; zl ← zl.[i <- u8 (z + 1)]; Some (inl (j + 1, zl))
      else Some (inr zl)) (i, zl)) (replicate 8 0);
  for_up 0 range (λ i '(longest, colonpos),
    z ← zerolength.[i];
    Some (if z >? longest then (z, i) else (longest, colonpos))) (1, -1).

(** A word in hexadecimal without leading zeros. *)
Definition ip6_word (cap : Z) (p : list Z) (word : Z) : option (list Z) :=
  let hi := Z.shiftr word 8 in
  let lo := Z.land word 0xff in
  if ctrue hi then
    p ← (if hi >? 0x0f then pack_hex_byte cap p hi else tput cap p (hex_asc_lo hi));
    pack_hex_byte cap p lo
  else if lo >? 0x0f then pack_hex_byte cap p lo
  else tput cap p (hex_asc_lo lo).

Definition ip6_compressed_string (cap : Z) (addr : list Z) : option (list Z) :=
  in6 ← arr_read addr 0 16;
  v4 ← ipv6_addr_v4mapped in6;
  isatap ← ipv6_addr_is_isatap in6;
  let useIPv4 := v4 || isatap in
  let range := if useIPv4 then 6 else 8 in
  '(longest, colonpos) ← ip6_zero_run in6 range;
  '(p, needcolon) ← loop 9 (λ '(i, p, needcolon),
    if i <? range then
      if i =? colonpos then
        p ← (if needcolon || (i =? 0) then tput cap p 58 else Some p);
        p ← tput cap p 58;
        Some (inl (i + (longest - 1) + 1, p, false))
      else
        p ← (if needcolon : bool then tput cap p 58 else Some p);
        w ← s6_addr16 in6 i;
        p ← ip6_word cap p (ntohs w);
        Some (inl (i + 1, p, true))
    else Some (inr (p, needcolon))) (0, [], false);
  p ← (if useIPv4 then
         p ← (if needcolon : bool then tput cap p 58 else Some p);
         (* the null byte of [ip4_string] is the one that is stored again *)
         p ← ip4_string cap p in6 12 73 0;
         Some (take (length p - 1) p)
       else Some p);
  tput cap p 0.

Definition ip6_string (cap : Z) (addr : list Z) (f0 : Z) : option (list Z) :=
  p ← for_up 0 8 (λ i p,
    x ← addr.[2 * i];
    p ← pack_hex_byte cap p x;
    y ← addr.[2 * i + 1];
    p ← pack_hex_byte cap p y;
    if (f0 =? 73) && negb (i =? 7) then tput cap p 58 else Some p) [];
  tput cap p 0.

Definition uuid_be : list Z := [0; 1; 2; 3; 4; 5; 6; 7; 8; 9; 10; 11; 12; 13; 14; 15].
Definition uuid_le : list Z := [3; 2; 1; 0; 5; 4; 7; 6; 8; 9; 10; 11; 12; 13; 14; 15].

(** The text of the local array [uuid]; [f] is the character behind the U. *)
Definition uuid_text (addr : list Z) (f : Z) : option (list Z) :=
  let cap := 37 in
  let '(uc, index) :=
    if f =? 76 then (true, uuid_le) else if f =? 108 then (false, uuid_le)
    else if f =? 66 then (true, uuid_be) else (false, uuid_be) in
  p ← for_up 0 16 (λ i p,
    k ← index.[i];
    a ← addr.[k];
    p ← pack_hex_byte cap p a;
    if (i =? 3) || (i =? 5) || (i =? 7) || (i =? 9) then tput cap p 45 else Some p) [];
  p ← tput cap p 0;
  if uc : bool then
    loop 37 (λ '(p, i),
      c ← p.[i];
      p ← p.[i <- __toupper c];
      c ← p.[i + 1];
      Some (if ctrue c then inl (p, i + 1) else inr p)) (p, 0)
  else Some p.

(** ** Output *)

(** The caller's buffer and the address of the next character. *)
Abbreviation out := (list Z * Z)%type.

Definition PAGE_SIZE : Z := 4096.
Definition null_text : list Z := [40; 110; 117; 108; 108; 41; 0].
Definition digits : list Z := [48; 49; 50; 51; 52; 53; 54; 55; 56; 57; 65; 66; 67; 68; 69; 70].

Section Output.
Context (buf en : Z).

(** [if (str < end) *str = c; ++str]. *)
Definition put (c : Z) (o : out) : option out :=
  let '(m, str) := o in
  m ← (if str <? en then m.[str - buf <- u8 c] else Some m);
  Some (m, u32 (str + 1)).

(** [while (--field_width >= lim)] with a character for each turn; the width is an [s16]. *)
Definition pad (lim c : Z) (o : out) (fw : Z) : option (out * Z) :=
  bloop 17 (λ '(o, fw),
    let fw := s16 (fw - 1) in
    if fw >=? lim then o ← put c o; Some (inl (o, fw)) else Some (inr (o, fw))) (o, fw).

(** [while (len < field_width--)]. *)
Definition pad_post (len : Z) (o : out) (fw : Z) : option (out * Z) :=
  bloop 17 (λ '(o, fw),
    if len <? fw then o ← put 32 o; Some (inl (o, s16 (fw - 1))) else Some (inr (o, s16 (fw - 1)))) (o, fw).

(** The digits of [num], least significant first, in the array [tmp] of 66 bytes. *)
Definition number_digits_rev (num base locase : Z) : option (list Z) :=
  if num =? 0 then tput 66 [] 48
  else if negb (base =? 10) then
    let mask := base - 1 in
    let shift := if base =? 16 then 4 else 3 in
    loop 64 (λ '(tmp, num),
      d ← digits.[Z.land (u8 num) mask];
      tmp ← tput 66 tmp (Z.lor d locase);
      let num := Z.shiftr num shift in
      Some (if ctrue num then inl (tmp, num) else inr tmp)) ([], num)
  else put_dec 66 [] num.

Definition number (o : out) (num : Z) (spec : printf_spec) : option out :=
  let base := base spec in
  let fw := field_width spec in
  let need_pfx := has (flags spec) SPECIAL && negb (base =? 10) in
  let locase := Z.land (flags spec) SMALL in
  let flags := if has (flags spec) LEFT then Z.land (flags spec) (u8 (Z.lnot ZEROPAD)) else flags spec in
  let '(sign, num, fw) :=
    if has flags SIGN then
      if s64 num <? 0 then (45, u64 (- s64 num), s16 (fw - 1))
      else if has flags PLUS then (43, num, s16 (fw - 1))
      else if has flags SPACE then (32, num, s16 (fw - 1))
      else (0, num, fw)
    else (0, num, fw) in
  let fw := if need_pfx then let fw := s16 (fw - 1) in if base =? 16 then s16 (fw - 1) else fw else fw in
  tmp ← number_digits_rev num base locase;
  let i := alen tmp in
  let prec := if i >? precision spec then s16 i else precision spec in
  let fw := s16 (fw - prec) in
  '(o, fw) ← (if negb (has flags (ZEROPAD + LEFT)) then pad 0 32 o fw else Some (o, fw));
  o ← (if ctrue sign then put sign o else Some o);
  o ← (if need_pfx then
         o ← put 48 o;
         if base =? 16 then put (Z.lor 88 locase) o else Some o
       else Some o);
  '(o, fw) ← (if negb (has flags LEFT) then pad 0 (if has flags ZEROPAD then 48 else 32) o fw else Some (o, fw));
  '(o, _) ← pad i 48 o prec;
  o ← for_down (i - 1) 0 (λ i o, c ← tmp.[i]; put c o) o;
  '(o, _) ← pad 0 32 o fw;
  Some o.

(** [string]: the string is at the start of [obj], whose address is [addr]. *)
Definition string (o : out) (addr : Z) (obj : list Z) (spec : printf_spec) : option out :=
  let obj := if addr <? PAGE_SIZE then null_text else obj in
  len ← strnlen obj 0 (u32 (precision spec));
  let len := s32 len in
  '(o, fw) ← (if negb (has (flags spec) LEFT) then pad_post len o (field_width spec) else Some (o, field_width spec));
  o ← for_up 0 len (λ i o, c ← obj.[i]; put c o) o;
  '(o, _) ← pad_post len o fw;
  Some o.

(** The address of a local array of [symbol_string] and the like, which is not below
    [PAGE_SIZE]. *)
Definition local_addr : Z := 0xc0000000.

(** [%pF], [%pf], [%pS], [%ps] and [%pR], [%pr], given the characters behind the p. *)
Context (symbol_string resource_string : out → Z → list Z → printf_spec → Z → option out).

Definition pointer (b : list Z) (fmt : Z) (o : out) (addr : Z) (obj : list Z) (spec : printf_spec) : option out :=
  if addr =? 0 then string o local_addr null_text spec else
  c ← b.[fmt];
  let plain :=
    let spec := or_flags SMALL spec in
    let spec := if field_width spec =? -1 then or_flags ZEROPAD (set_field_width (2 * 4) spec) else spec in
    number o addr (set_base 16 spec) in
  if (c =? 70) || (c =? 102) || (c =? 83) || (c =? 115) then symbol_string o addr obj spec c
  else if (c =? 82) || (c =? 114) then resource_string o addr obj spec c
  else if (c =? 77) || (c =? 109) then t ← mac_address b fmt obj; string o local_addr t spec
  else if (c =? 73) || (c =? 105) then
    f1 ← b.[fmt + 1];
    if f1 =? 54 then
      f2 ← b.[fmt + 2];
      t ← (if (c =? 73) && (f2 =? 99) then ip6_compressed_string 46 obj else ip6_string 46 obj c);
      string o local_addr t spec
    else if f1 =? 52 then
      f2 ← b.[fmt + 2];
      t ← ip4_string 16 [] obj 0 c f2;
      string o local_addr t spec
    else plain
  else if c =? 85 then f ← b.[fmt + 1]; t ← uuid_text obj f; string o local_addr t spec
  else plain.

(** The argument of an integer conversion, as an [unsigned long long]. *)
Definition va_num (t : format_type) (args : list va_value) : option (Z * list va_value) :=
  match t with
  | FORMAT_TYPE_LONG_LONG => '(x, args) ← va_long args; Some (u64 x, args)
  | _ =>
      '(x, args) ← va_word args;
      let num :=
        match t with
        | FORMAT_TYPE_LONG | FORMAT_TYPE_PTRDIFF | FORMAT_TYPE_INT => u64 (s32 x)
        | FORMAT_TYPE_UBYTE => u8 x
        | FORMAT_TYPE_BYTE => let y := u8 x in u64 (if y <? 2 ^ 7 then y else y - 2 ^ 8)
        | FORMAT_TYPE_USHORT => u16 x
        | FORMAT_TYPE_SHORT => u64 (s16 x)
        | _ => u32 x
        end in
      Some (num, args)
  end.

(** The state of the loop of [vsnprintf]: the format, [spec], the output, the arguments and
    the stores of %n so far, an address and a value each. *)
Abbreviation pstate := (Z * printf_spec * out * list va_value * list (Z * Z))%type.

(** The [switch] on the type of the specification. *)
Definition vsnprintf_switch (b : list Z) (old_fmt read : Z) (st : pstate) : option pstate :=
  let '(fmt, spec, o, args, nr) := st in
  match type spec with
  | FORMAT_TYPE_NONE =>
      let '(m, str) := o in
      m ← (if str <? en then
             let copy := if read >? en - str then en - str else read in
             memcpy m (str - buf) b old_fmt copy
           else Some m);
      Some (fmt, spec, (m, u32 (str + read)), args, nr)
  | FORMAT_TYPE_WIDTH => '(x, args) ← va_word args; Some (fmt, set_field_width (s32 x) spec, o, args, nr)
  | FORMAT_TYPE_PRECISION => '(x, args) ← va_word args; Some (fmt, set_precision (s32 x) spec, o, args, nr)
  | FORMAT_TYPE_CHAR =>
      '(o, fw) ← (if negb (has (flags spec) LEFT) then pad 1 32 o (field_width spec) else Some (o, field_width spec));
      '(c, args) ← va_word args;
      o ← put (u8 c) o;
      '(o, fw) ← pad 1 32 o fw;
      Some (fmt, PrintfSpec (type spec) (flags spec) (base spec) (qualifier spec) fw (precision spec), o, args, nr)
  | FORMAT_TYPE_STR =>
      '(a, obj, args) ← va_ptr args;
      o ← string o a obj spec;
      Some (fmt, spec, o, args, nr)
  | FORMAT_TYPE_PTR =>
      '(a, obj, args) ← va_ptr args;
      o ← pointer b (fmt + 1) o a obj spec;
      fmt ← loop (S (length b)) (λ fmt, c ← b.[fmt]; Some (if isalnum c then inl (fmt + 1) else inr fmt)) fmt;
      Some (fmt, spec, o, args, nr)
  | FORMAT_TYPE_PERCENT_CHAR | FORMAT_TYPE_INVALID => o ← put 37 o; Some (fmt, spec, o, args, nr)
  | FORMAT_TYPE_NRCHARS =>
      '(a, _, args) ← va_ptr args;
      Some (fmt, spec, o, args, nr ++ [(a, u32 (snd o - buf))])
  | t => '(num, args) ← va_num t args; o ← number o num spec; Some (fmt, spec, o, args, nr)
  end.

Definition vsnprintf_step (b : list Z) (st : pstate) : option pstate :=
  let '(fmt, spec, o, args, nr) := st in
  '(spec, read) ← format_decode b fmt spec;
  vsnprintf_switch b fmt read (fmt + read, spec, o, args, nr).

(** Every second turn at most reads nothing of the format. *)
Definition vsnprintf_loop (b : list Z) (fmt : Z) (o : out) (args : list va_value) : option pstate :=
  loop (S (2 * length b)) (λ st : pstate,
    let '(fmt, _, _, _, _) := st in
    c ← b.[fmt];
    if ctrue c then st ← vsnprintf_step b st; Some (inl st) else Some (inr st))
    (fmt, PrintfSpec FORMAT_TYPE_NONE 0 0 0 0 0, o, args, []).
End Output.

(** The buffer, the return value and the stores of %n. *)
Abbreviation printed := (list Z * Z * list (Z * Z))%type.

Section Printf.
Context (symbol_string resource_string : Z → Z → out → Z → list Z → printf_spec → Z → option out).

Definition vsnprintf (m : list Z) (buf size : Z) (b : list Z) (fmt : Z) (args : list va_value) : option printed :=
  if s32 size <? 0 then Some (m, 0, []) else
  let str := buf in
  let en := u32 (buf + size) in
  let '(en, size) := if en <? buf then (2 ^ 32 - 1, 2 ^ 32 - 1 - buf) else (en, size) in
  '(_, _, (m, str), _, nr) ← vsnprintf_loop buf en (symbol_string buf en) (resource_string buf en) b fmt (m, str) args;
  m ← (if size >? 0 then
         if str <? en then m.[str - buf <- 0] else m.[en - 1 - buf <- 0]
       else Some m);
  Some (m, s32 (str - buf), nr).

(** [(i >= size) ? (size - 1) : i]: the comparison is unsigned and the result an [int]. *)
Definition clip (i size : Z) : Z := if u32 i >=? u32 size then s32 (size - 1) else i.

Definition vscnprintf (m : list Z) (buf size : Z) (b : list Z) (fmt : Z) (args : list va_value) : option printed :=
  '(m, i, nr) ← vsnprintf m buf size b fmt args;
  Some (m, clip i size, nr).

Definition snprintf : list Z → Z → Z → list Z → Z → list va_value → option printed := vsnprintf.

Definition scnprintf (m : list Z) (buf size : Z) (b : list Z) (fmt : Z) (args : list va_value) : option printed :=
  '(m, i, nr) ← vsnprintf m buf size b fmt args;
  Some (m, clip i size, nr).

Definition INT_MAX : Z := 0x7fffffff.

Definition vsprintf (m : list Z) (buf : Z) (b : list Z) (fmt : Z) (args : list va_value) : option printed :=
  vsnprintf m buf INT_MAX b fmt args.

Definition sprintf (m : list Z) (buf : Z) (b : list Z) (fmt : Z) (args : list va_value) : option printed :=
  vsnprintf m buf INT_MAX b fmt args.
End Printf.
