(* ===== verification/VsprintfDigits.v ===== *)
(** * The digits of a number

    [put_dec] and the shifting loop of [number] compute the digits of positional notation,
    and the parser of [Strings.v] reads them back. *)

From S2P Require Import Prelude Words Strings StringsFacts Vsprintf.
#[local] Open Scope Z_scope.
#[local] Open Scope kernel_scope.

#[local] Ltac dlia := Z.to_euclidean_division_equations; lia.

Lemma loop_S {S R} f (step : S → option (S + R)) (s : S) :
  loop (Datatypes.S f) step s = (o ← step s; match o with inl s' => loop f step s' | inr r => Some r end).
Proof. done. Qed.

(** ** Positional notation *)

(** The digits of [n] in [base], least significant first. *)
Fixpoint digs (fuel : nat) (base n : Z) : list Z :=
  match fuel with
  | O => []
  | S f => n mod base :: if n <? base then [] else digs f base (n / base)
  end.

(** The character of a digit. *)
Definition dchar (small : bool) (d : Z) : Z := if d <? 10 then 48 + d else (if small then 87 else 55) + d.

(** The numeral of a 64-bit number, least significant digit first. *)
Definition numeral_rev (base : Z) (small : bool) (n : Z) : list Z := dchar small <$> digs 64 base n.
Definition numeral_text (base : Z) (small : bool) (n : Z) : list Z := reverse (numeral_rev base small n).

Lemma digs_step f base n : digs (S f) base n = n mod base :: if n <? base then [] else digs f base (n / base).
Proof. done. Qed.

(** More fuel than digits changes nothing. *)
Lemma digs_fuel f f' base n :
  2 ≤ base → 0 ≤ n < base ^ Z.of_nat f → (f ≤ f')%nat → (0 < f)%nat → digs f' base n = digs f base n.
Proof.
  intros Hb. revert f' n. induction f as [|f IH]; intros f' n Hn Hle Hf; [lia|].
  destruct f' as [|f']; [lia|]. rewrite !digs_step. destruct (Z.ltb_spec n base) as [|Hge]; [done|].
  f_equal. destruct f as [|f]; [change (Z.of_nat 1) with 1 in Hn; lia|].
  apply IH; [|lia|lia]. rewrite Nat2Z.inj_succ, Z.pow_succ_r in Hn by lia. split; [apply Z.div_pos; lia|].
  apply Z.div_lt_upper_bound; [lia|]. nia.
Qed.

(** ** Division by ten with multiplications *)

Lemma range_all (n : Z) (P : Z → bool) : forallb P (seqZ 0 n) = true → ∀ c, 0 ≤ c < n → P c = true.
Proof.
  intros H c Hc. rewrite forallb_forall in H. apply H. apply list_elem_of_In, elem_of_seqZ. lia.
Qed.

Lemma div10_205 x : 0 ≤ x < 400 → Z.shiftr (u32 (x * 0xcd)) 11 = x / 10.
Proof.
  intros Hx. apply Z.eqb_eq. revert x Hx.
  apply (range_all 400 (λ x, Z.shiftr (u32 (x * 0xcd)) 11 =? x / 10)). by vm_compute.
Qed.

Lemma div10_13 x : 0 ≤ x < 68 → Z.shiftr (u32 (x * 0xd)) 7 = x / 10.
Proof.
  intros Hx. apply Z.eqb_eq. revert x Hx.
  apply (range_all 68 (λ x, Z.shiftr (u32 (x * 0xd)) 7 =? x / 10)). by vm_compute.
Qed.

(** The nibbles of a number of five digits, and what the code adds them up to. *)
Lemma nibbles q (d0 := Z.land q 0xf) (d1 := Z.land (Z.shiftr q 4) 0xf) (d2 := Z.land (Z.shiftr q 8) 0xf)
    (d3 := Z.shiftr q 12) :
  0 ≤ q < 100000 →
  q = d0 + 16 * d1 + 256 * d2 + 4096 * d3 ∧ 0 ≤ d0 < 16 ∧ 0 ≤ d1 < 16 ∧ 0 ≤ d2 < 16 ∧ 0 ≤ d3 ≤ 24.
Proof.
  intros Hq. subst d0 d1 d2 d3. change 0xf with (Z.ones 4).
  rewrite !Z.land_ones, !Z.shiftr_div_pow2 by lia. change (2 ^ 4) with 16. change (2 ^ 8) with 256.
  change (2 ^ 12) with 4096.
  replace (q / 4096) with (q / 16 / 16 / 16) by (rewrite !Z.div_div by lia; done).
  replace (q / 256) with (q / 16 / 16) by (rewrite !Z.div_div by lia; done). dlia.
Qed.

Lemma u32_small x : 0 ≤ x < 2 ^ 32 → u32 x = x.
Proof. apply uwrap_small. Qed.

Lemma put_dec_sums q (d0 := Z.land q 0xf) (d1 := Z.land (Z.shiftr q 4) 0xf) (d2 := Z.land (Z.shiftr q 8) 0xf)
    (d3 := Z.shiftr q 12) (D0 := 6 * (d3 + d2 + d1) + d0) (D1 := D0 / 10 + 9 * d3 + 5 * d2 + d1)
    (D2 := D1 / 10 + 2 * d2) (D3 := D2 / 10 + 4 * d3) :
  0 ≤ q < 100000 →
  (0 ≤ D0 < 400 ∧ D0 - 10 * (D0 / 10) = q mod 10) ∧
  (0 ≤ D1 < 400 ∧ D1 - 10 * (D1 / 10) = q / 10 mod 10 ∧ (D1 = 0 ↔ q < 10)) ∧
  (0 ≤ D2 < 68 ∧ D2 - 10 * (D2 / 10) = q / 100 mod 10 ∧ (D2 = 0 ∧ d3 = 0 ↔ q < 100)) ∧
  (0 ≤ D3 < 400 ∧ D3 - 10 * (D3 / 10) = q / 1000 mod 10 ∧ (D3 = 0 ↔ q < 1000)) ∧
  (D3 / 10 = q / 10000 ∧ (D3 / 10 = 0 ↔ q < 10000)).
Proof.
  intros Hq. pose proof (nibbles q Hq) as Hn. cbv zeta in Hn. fold d0 d1 d2 d3 in Hn.
  clearbody d0 d1 d2 d3. destruct Hn as (-> & B0 & B1 & B2 & B3).
  assert (H1 : (d0 + 16 * d1 + 256 * d2 + 4096 * d3) / 10 = D1 + 20 * d2 + 400 * d3) by (subst D1 D0; dlia).
  assert (H2 : (d0 + 16 * d1 + 256 * d2 + 4096 * d3) / 100 = D2 + 40 * d3).
  { change 100 with (10 * 10). rewrite <- Z.div_div, H1 by lia. subst D2. clearbody D1. dlia. }
  assert (H3 : (d0 + 16 * d1 + 256 * d2 + 4096 * d3) / 1000 = D3).
  { change 1000 with (100 * 10). rewrite <- Z.div_div, H2 by lia. subst D3. clearbody D2. dlia. }
  assert (H4 : (d0 + 16 * d1 + 256 * d2 + 4096 * d3) / 10000 = D3 / 10).
  { change 10000 with (1000 * 10). rewrite <- Z.div_div, H3 by lia. done. }
  rewrite H1, H2, H3, H4. clear H1 H2 H3 H4. subst D3 D2 D1 D0. ands; try dlia.
Qed.

(** ** Decimal conversion *)

Lemma tput_ok cap t c : alen t < cap → 0 ≤ c < 256 → tput cap t c = Some (t ++ [c]).
Proof.
  intros Ht Hc. unfold tput. destruct (Z.ltb_spec (alen t) cap); [|lia]. by rewrite uwrap_small.
Qed.

Lemma alen_snoc {A} (t : list A) c : alen (t ++ [c]) = alen t + 1.
Proof. by rewrite alen_app. Qed.

(** Store the next digit. *)
Ltac put_digit :=
  rewrite tput_ok by (rewrite ?alen_snoc; dlia); cbn [mbind option_bind].

Lemma digs_lt f base n : n < base → 0 ≤ n → digs (S f) base n = [n].
Proof. intros H Hn. rewrite digs_step. destruct (Z.ltb_spec n base); [|lia]. by rewrite Z.mod_small by lia. Qed.

Lemma digs_ge f base n : base ≤ n → digs (S f) base n = n mod base :: digs f base (n / base).
Proof. intros H. rewrite digs_step. by destruct (Z.ltb_spec n base); [lia|]. Qed.

Lemma dchar_dec small d : 0 ≤ d < 10 → dchar small d = d + 48.
Proof. intros H. unfold dchar. destruct (Z.ltb_spec d 10); lia. Qed.

(** The five decimal digits of a number, as the divisions compute them. *)
Lemma digs_dec f q :
  0 ≤ q →
  digs (5 + f) 10 q =
    if q <? 10 then [q mod 10] else q mod 10 :: q / 10 mod 10 ::
    if q <? 100 then [] else q / 100 mod 10 ::
    if q <? 1000 then [] else q / 1000 mod 10 ::
    if q <? 10000 then [] else q / 10000 mod 10 ::
    if q <? 100000 then [] else digs f 10 (q / 100000).
Proof.
  intros Hq. cbn [Nat.add digs]. rewrite !Z.div_div by lia.
  change (10 * 10) with 100. change (100 * 10) with 1000. change (1000 * 10) with 10000. change (10000 * 10) with 100000.
  repeat match goal with |- context [q / ?k <? 10] =>
    replace (q / k <? 10) with (q <? 10 * k) by
      (apply eq_bool_prop_intro; rewrite !Is_true_true, !Z.ltb_lt; dlia);
    let r := eval vm_compute in (10 * k) in change (10 * k) with r end.
  repeat case_match; done.
Qed.

Section PutDec.
Context (cap : Z).

(** The common part of the two routines: the sums are those of [put_dec_sums]. *)
Ltac dec_sums q Hq :=
  destruct (put_dec_sums q Hq) as ((R0 & E0) & (R1 & E1 & Z1) & (R2 & E2 & Z2) & (R3 & E3 & Z3) & (E4 & Z4));
  revert R0 E0 R1 E1 Z1 R2 E2 Z2 R3 E3 Z3 E4 Z4; destruct (nibbles q Hq) as (_ & B0 & B1 & B2 & B3);
  revert B0 B1 B2 B3;
  set (d0 := Z.land q 0xf); set (d1 := Z.land (Z.shiftr q 4) 0xf); set (d2 := Z.land (Z.shiftr q 8) 0xf);
  set (d3 := Z.shiftr q 12); clearbody d0 d1 d2 d3; intros B0 B1 B2 B3;
  rewrite (u32_small (6 * (d3 + d2 + d1) + d0)) by lia;
  set (D0 := 6 * (d3 + d2 + d1) + d0); clearbody D0; intros R0 E0; rewrite (div10_205 D0) by lia;
  rewrite (u32_small (D0 - 10 * (D0 / 10))), E0 by dlia;
  rewrite (u32_small (D0 / 10 + 9 * d3 + 5 * d2 + d1)) by dlia;
  set (D1 := D0 / 10 + 9 * d3 + 5 * d2 + d1); clearbody D1; clear E0; intros R1 E1 Z1;
  rewrite (div10_205 D1) by lia; rewrite (u32_small (D1 - 10 * (D1 / 10))), E1 by dlia;
  rewrite (u32_small (D1 / 10 + 2 * d2)) by dlia;
  set (D2 := D1 / 10 + 2 * d2); clearbody D2; clear E1; intros R2 E2 Z2;
  rewrite (div10_13 D2) by lia; rewrite (u32_small (D2 - 10 * (D2 / 10))), E2 by dlia;
  rewrite (u32_small (D2 / 10 + 4 * d3)) by dlia;
  set (D3 := D2 / 10 + 4 * d3); clearbody D3; clear E2; intros R3 E3 Z3 E4 Z4;
  rewrite (div10_205 D3) by lia; rewrite (u32_small (D3 - 10 * (D3 / 10))), E3 by dlia; clear E3.

Lemma put_dec_trunc_ok t q :
  0 ≤ q < 100000 → alen t + alen (digs 5 10 q) ≤ cap →
  put_dec_trunc cap t q = Some (t ++ ((λ d, d + 48) <$> digs 5 10 q)).
Proof.
  intros Hq Hcap. rewrite (digs_dec 0) in * by lia. unfold put_dec_trunc. cbv zeta. dec_sums q Hq.
  unfold ctrue.
  replace (D1 =? 0) with (q <? 10) by lia. replace (D3 =? 0) with (q <? 1000) by lia.
  replace (D3 / 10 =? 0) with (q <? 10000) by lia.
  replace (negb (D2 =? 0) || negb (d3 =? 0)) with (negb (q <? 100)) by lia.
  rewrite E4. clear -Hcap Hq.
  assert (Hm : ∀ k, 0 ≤ q / k mod 10 < 10) by (intros; apply Z.mod_pos_bound; lia).
  pose proof (Z.mod_pos_bound q 10 ltac:(lia)) as Hm0.
  assert (Hm4 : q / 10000 mod 10 = q / 10000) by (apply Z.mod_small; dlia).
  assert (Hk : ∀ t c, alen t < cap → 0 ≤ c < 10 → tput cap t (c + 48) = Some (t ++ [c + 48]))
    by (intros; apply tput_ok; lia).
  assert (Hl : ∀ (c : Z) l, alen (c :: l) = 1 + alen l) by (intros; unfold alen; cbn; lia).
  destruct (q <? 10); rewrite ?Hl in Hcap; [|destruct (q <? 100); rewrite ?Hl in Hcap;
    [|destruct (q <? 1000); rewrite ?Hl in Hcap; [|destruct (q <? 10000); rewrite ?Hl in Hcap]]].
  5: destruct (Z.ltb_spec q 100000); [rewrite Hm4|lia].
  all: change (alen []) with 0 in Hcap; repeat (rewrite Hk by (rewrite ?alen_snoc; try apply Hm; dlia);
    cbn [mbind option_bind negb]); rewrite <- ?app_assoc; done.
Qed.

Lemma put_dec_full_ok t q :
  0 ≤ q < 100000 → alen t + 5 ≤ cap →
  put_dec_full cap t q =
    Some (t ++ ((λ d, d + 48) <$> [q mod 10; q / 10 mod 10; q / 100 mod 10; q / 1000 mod 10; q / 10000 mod 10])).
Proof.
  intros Hq Hcap. unfold put_dec_full. cbv zeta. dec_sums q Hq. rewrite E4. clear -Hcap Hq.
  assert (Hm : ∀ k, 0 ≤ q / k mod 10 < 10) by (intros; apply Z.mod_pos_bound; lia).
  assert (Hm4 : q / 10000 mod 10 = q / 10000) by (apply Z.mod_small; dlia).
  pose proof (Hm 10000) as Hb4. rewrite Hm4 in *.
  pose proof (Z.mod_pos_bound q 10 ltac:(lia)) as Hm0.
  repeat (rewrite tput_ok by (rewrite ?alen_snoc; first [lia | match goal with |- context [q / ?k mod 10] =>
    pose proof (Hm k); lia end]); cbn [mbind option_bind]).
  rewrite <- !app_assoc. done.
Qed.

(** Five digits at a time. *)
Lemma digs_group f n :
  100000 ≤ n → digs (5 + f) 10 n =
    let q := n mod 100000 in
    [q mod 10; q / 10 mod 10; q / 100 mod 10; q / 1000 mod 10; q / 10000 mod 10] ++ digs f 10 (n / 100000).
Proof.
  intros Hn. rewrite digs_dec by lia. cbv zeta. cbn [app].
  assert (Hl : ∀ k, k ≤ 100000 → (n <? k) = false) by lia. rewrite !Hl by lia.
  assert (Hd : ∀ k j, k * 10 * j = 100000 → 0 < k → 0 < j → n mod 100000 / k mod 10 = n / k mod 10).
  { intros k j Hkj Hk Hj. rewrite <- Hkj. rewrite <- Z.mul_assoc, Z.rem_mul_r by lia.
    rewrite Z.add_comm, (Z.mul_comm k), Z.div_add_l by lia. rewrite (Z.div_small (n mod k)) by (apply Z.mod_pos_bound; lia).
    rewrite Z.add_0_r. apply Z.mod_mod_divide. by exists j; lia. }
  pose proof (Hd 1 10000 eq_refl ltac:(lia) ltac:(lia)) as H1. rewrite !Z.div_1_r in H1.
  rewrite H1, (Hd 10 1000), (Hd 100 100), (Hd 1000 10), (Hd 10000 1) by lia. done.
Qed.

Lemma put_dec_ok t n :
  urange 64 n → alen t + alen (digs 64 10 n) ≤ cap →
  put_dec cap t n = Some (t ++ ((λ d, d + 48) <$> digs 64 10 n)).
Proof.
  intros Hn Hcap.
  assert (Hgo : ∀ k f t n, 0 ≤ n < 100000 * 100000 ^ Z.of_nat k → (5 * k + 5 ≤ f)%nat →
    alen t + alen (digs f 10 n) ≤ cap →
    loop (S k) (λ '(buf, num),
      if num <? 100000 then buf ← put_dec_trunc cap buf (u32 num); Some (inr buf)
      else let rem := num mod 100000 in buf ← put_dec_full cap buf rem; Some (inl (buf, num / 100000))) (t, n) =
    Some (t ++ ((λ d, d + 48) <$> digs f 10 n))).
  { clear t n Hn Hcap. intros k. induction k as [|k IH]; intros f t n Hn Hf Hcap.
    all: rewrite loop_S; destruct (Z.ltb_spec n 100000) as [Hlt|Hge]; cbv zeta.
    1, 3: rewrite u32_small by lia; rewrite (digs_fuel 5 f) in * by lia; rewrite put_dec_trunc_ok by lia; done.
    - cbn in Hn. lia.
    - destruct f as [|[|[|[|[|f]]]]]; try lia. change (S (S (S (S (S f))))) with (5 + f)%nat in *.
      rewrite digs_group in * by done. cbv zeta in *.
      set (q := n mod 100000) in *. rewrite alen_app in Hcap. pose proof (alen_nonneg (digs f 10 (n / 100000))).
      assert (0 ≤ q < 100000) by (apply Z.mod_pos_bound; lia). unfold alen in Hcap at 2. cbn [length] in Hcap.
      rewrite put_dec_full_ok by lia. cbn [mbind option_bind]. rewrite (IH f); [by rewrite <- app_assoc, fmap_app| |lia|].
      + rewrite Nat2Z.inj_succ, Z.pow_succ_r in Hn by lia. dlia.
      + rewrite alen_app. unfold alen at 2. rewrite length_fmap. cbn [length]. lia. }
  apply (Hgo 4%nat 64%nat); [|lia|done]. unfold urange in Hn. cbn. lia.
Qed.
End PutDec.

(** ** The conversion of [number] *)

Lemma length_digs f base n : (length (digs f base n) ≤ f)%nat.
Proof.
  revert n. induction f as [|f IH]; intros n; [done|]. rewrite digs_step. cbn [length].
  destruct (n <? base); cbn; [lia|]. specialize (IH (n / base)). lia.
Qed.

Lemma digs_range f base n : 2 ≤ base → 0 ≤ n → Forall (λ d, 0 ≤ d < base) (digs f base n).
Proof.
  intros Hb. revert n. induction f as [|f IH]; intros n Hn; [constructor|]. rewrite digs_step. constructor.
  - apply Z.mod_pos_bound. lia.
  - destruct (n <? base); [constructor|]. apply IH. apply Z.div_pos; lia.
Qed.

Lemma digit_char d locase :
  0 ≤ d < 16 → locase = 0 ∨ locase = 32 →
  ∃ c, digits.[d] = Some c ∧ Z.lor c locase = dchar (ctrue locase) d ∧ 0 ≤ Z.lor c locase < 256.
Proof.
  intros Hd Hl.
  assert (H := range_all 16 (λ d, match digits.[d] with
    | Some c => (Z.lor c 0 =? dchar false d) && (Z.lor c 32 =? dchar true d) && (Z.lor c 0 <? 256) && (Z.lor c 32 <? 256) &&
        (0 <=? Z.lor c 0) && (0 <=? Z.lor c 32)
    | None => false end) eq_refl d Hd).
  cbv beta in H. destruct (digits.[d]) as [c|]; [|done]. exists c. split; [done|].
  rewrite !andb_true_iff, !Z.eqb_eq, !Z.ltb_lt, !Z.leb_le in H. destruct Hl as [->| ->]; cbn [ctrue Z.eqb negb]; lia.
Qed.

Lemma number_digits_rev_ok num base locase :
  urange 64 num → base = 8 ∨ base = 10 ∨ base = 16 → locase = 0 ∨ locase = 32 →
  number_digits_rev num base locase = Some (numeral_rev base (ctrue locase) num).
Proof.
  intros Hn Hb Hl. unfold number_digits_rev, numeral_rev. destruct (Z.eqb_spec num 0) as [->|Hnz].
  { rewrite digs_lt by (unfold urange in *; lia). by destruct Hl as [->| ->]. }
  destruct (Z.eqb_spec base 10) as [->|Hb10]; cbn [negb].
  { rewrite put_dec_ok; [|done|pose proof (length_digs 64 10 num); unfold alen; cbn [length]; lia].
    cbn [app]. f_equal. apply list_fmap_ext. intros i d Hd. symmetry. apply dchar_dec.
    unfold urange in Hn. by apply (Forall_lookup_1 _ _ _ _ (digs_range 64 10 num ltac:(lia) ltac:(lia)) Hd). }
  assert (Hgo : ∀ k t n, 0 < n < base ^ Z.of_nat k → alen t + Z.of_nat k ≤ 66 →
    loop k (λ '(tmp, num), d ← digits.[Z.land (u8 num) (base - 1)]; tmp ← tput 66 tmp (Z.lor d locase);
      let num := Z.shiftr num (if base =? 16 then 4 else 3) in Some (if ctrue num then inl (tmp, num) else inr tmp)) (t, n) =
    Some (t ++ (dchar (ctrue locase) <$> digs k base n))).
  { clear num Hn Hnz. intros k. induction k as [|k IH]; intros t n Hn Hcap; [cbn in Hn; lia|]. rewrite loop_S.
    assert (Hsh : Z.shiftr n (if base =? 16 then 4 else 3) = n / base)
      by (destruct Hb as [->|[->| ->]]; [|lia|]; by rewrite Z.shiftr_div_pow2 by done).
    assert (Hla : Z.land (u8 n) (base - 1) = n mod base).
    { destruct Hb as [->|[->| ->]]; [change (8 - 1) with (Z.ones 3)|lia|change (16 - 1) with (Z.ones 4)];
        rewrite Z.land_ones by lia; unfold uwrap; apply Z.mod_mod_divide; [by exists 32|by exists 16]. }
    rewrite Hsh, Hla. destruct (digit_char (n mod base) locase) as (c & -> & Hc & Hr); [|done|].
    { pose proof (Z.mod_pos_bound n base). lia. }
    cbn [mbind option_bind]. rewrite tput_ok by lia. cbn [mbind option_bind]. cbv zeta. rewrite Hc.
    rewrite digs_step. destruct (Z.ltb_spec n base) as [Hlt|Hge].
    - rewrite Z.div_small by lia. done.
    - assert (0 < n / base) by (apply Z.div_str_pos; lia).
      replace (ctrue (n / base)) with true by (symmetry; apply ctrue_true; lia).
      rewrite IH; [by rewrite <- app_assoc| |rewrite alen_snoc; lia].
      split; [lia|]. rewrite Nat2Z.inj_succ, Z.pow_succ_r in Hn by lia. apply Z.div_lt_upper_bound; lia. }
  apply (Hgo 64%nat []); [|done]. unfold urange in Hn. change (Z.of_nat 64) with 64.
  pose proof (Z.pow_le_mono_l 2 base 64). lia.
Qed.

(** ** The parser reads the digits back *)

Lemma digit_back base small d :
  2 ≤ base ≤ 16 → 0 ≤ d < base →
  dval (dchar small d) = d ∧ is_dig base (dchar small d) = true ∧ char (dchar small d).
Proof.
  intros Hb Hd.
  assert (H := range_all 16 (λ d, (dval (dchar small d) =? d) && isxdigit (dchar small d) &&
    (0 <? dchar small d) && (dchar small d <? 256)) (ltac:(destruct small; reflexivity)) d ltac:(lia)).
  cbv beta in H. rewrite !andb_true_iff, Z.eqb_eq, !Z.ltb_lt in H. destruct H as (((Hv & Hx) & ?) & ?).
  unfold is_dig, char. rewrite Hv, Hx. ands; [done| |lia|lia]. cbn. lia.
Qed.

Lemma numval_text base small n :
  2 ≤ base ≤ 16 → urange 64 n →
  numval base (numeral_text base small n) = n ∧
  Forall (λ c, is_dig base c = true ∧ char c) (numeral_text base small n).
Proof.
  intros Hb Hn. unfold numeral_text, numeral_rev.
  assert (Hlt : 0 ≤ n < base ^ Z.of_nat 64).
  { unfold urange in Hn. change (Z.of_nat 64) with 64. pose proof (Z.pow_le_mono_l 2 base 64). lia. }
  clear Hn. revert n Hlt. generalize 64%nat. intros f. induction f as [|f IH]; intros n Hn.
  { cbn in *. split; [lia|constructor]. }
  rewrite digs_step. cbn [fmap list_fmap]. rewrite reverse_cons, numval_snoc, Forall_app, Forall_singleton.
  destruct (digit_back base small (n mod base)) as (-> & Hd & Hc); [done|apply Z.mod_pos_bound; lia|].
  destruct (Z.ltb_spec n base) as [Hlt|Hge].
  - cbn. split; [rewrite Z.mod_small; lia|]. split; [constructor|by split].
  - destruct (IH (n / base)) as (Hv & HF).
    { rewrite Nat2Z.inj_succ, Z.pow_succ_r in Hn by lia. split; [apply Z.div_pos; lia|]. apply Z.div_lt_upper_bound; lia. }
    change (list_fmap _ _ (dchar small) (digs f base (n / base))) with (dchar small <$> digs f base (n / base)).
    rewrite Hv. split; [|done]. pose proof (Z.div_mod n base). lia.
Qed.
