(* ===== verification/VsprintfOut.v ===== *)
(** * Fields of formatted output

    The padding loops, [number] and [string] of [Vsprintf.v] store the characters of a text
    one after the other; the text is a function of the argument and the conversion
    specification alone. *)

From S2P Require Import Prelude Words Strings StringsFacts Vsprintf VsprintfDigits.
#[local] Open Scope Z_scope.
#[local] Open Scope kernel_scope.

(** ** Bounded loops as plain iteration *)

Fixpoint nturns {S R} (n : nat) (step : S → option (S + R)) (s : S) : option (S + R) :=
  match n with
  | O => Some (inl s)
  | Datatypes.S n => o ← step s; match o with inl s' => nturns n step s' | inr r => Some (inr r) end
  end.

Lemma nturns_add {S R} n n' (step : S → option (S + R)) s :
  nturns (n + n') step s =
    (o ← nturns n step s; match o with inl s' => nturns n' step s' | inr r => Some (inr r) end).
Proof.
  revert s. induction n as [|n IH]; intros s; [done|]. cbn [Nat.add nturns].
  destruct (step s) as [[s'|r]|]; cbn; [|done|done]. apply IH.
Qed.

Lemma bturns_nturns {S R} d (step : S → option (S + R)) s : bturns d step s = nturns (2 ^ d) step s.
Proof.
  revert s. induction d as [|d IH]; intros s; cbn [bturns].
  - cbn. by destruct (step s) as [[|]|].
  - rewrite Nat.pow_succ_r', (ltac:(lia) : (2 * 2 ^ d = 2 ^ d + 2 ^ d)%nat), nturns_add, IH.
    destruct (nturns _ _ s) as [[s'|r]|]; cbn; [apply IH|done|done].
Qed.

(** A loop that leaves after [n] turns of a step without a result. *)
Lemma bloop_turns {S R} d n (step : S → option (S + R)) (s : S) :
  (n < 2 ^ d)%nat →
  bloop d step s =
    (o ← nturns n step s;
     match o with
     | inl s' => o ← nturns (2 ^ d - n) step s'; match o with inl _ => None | inr r => Some r end
     | inr r => Some r
     end).
Proof.
  intros Hn. unfold bloop. rewrite bturns_nturns.
  replace (2 ^ d)%nat with (n + (2 ^ d - n))%nat at 1 by lia. rewrite nturns_add.
  by destruct (nturns n step s) as [[s'|r]|].
Qed.

Lemma pow17 : Z.of_nat (2 ^ 17) = 131072.
Proof. by rewrite Nat2Z.inj_pow. Qed.

Section Text.
Context (buf en : Z).

(** Store the characters of a text. *)
Fixpoint puts (t : list Z) (o : out) : option out :=
  match t with
  | [] => Some o
  | c :: t => o ← put buf en c o; puts t o
  end.

Lemma puts_app t t' o : puts (t ++ t') o = (o ← puts t o; puts t' o).
Proof. revert o. induction t as [|c t IH]; intros o; cbn; [done|]. by destruct (put buf en c o); cbn. Qed.

Lemma puts_1 c o : puts [c] o = put buf en c o.
Proof. cbn. by destruct (put buf en c o). Qed.

Definition rep (c n : Z) : list Z := replicate (Z.to_nat n) c.

Lemma s16_small x : - 2 ^ 15 ≤ x < 2 ^ 15 → s16 x = x.
Proof. intros Hx. unfold s16, uwrap. destruct (Z.ltb_spec (x mod 2 ^ 16) (2 ^ 15)); Z.to_euclidean_division_equations; lia. Qed.

(** A loop that stores [c] and counts down while the width is above the limit. *)
Section Pad.
Context (lim c : Z) (step : out * Z → option ((out * Z) + (out * Z))).
Hypothesis step_above : ∀ o fw, lim < fw < 2 ^ 15 → step (o, fw) = (o ← put buf en c o; Some (inl (o, fw - 1))).
Hypothesis step_below : ∀ o fw, - 2 ^ 15 < fw ≤ lim → fw < 2 ^ 15 → step (o, fw) = Some (inr (o, fw - 1)).

Lemma pad_turns n o fw :
  Z.of_nat n ≤ fw - lim → fw < 2 ^ 15 →
  nturns n step (o, fw) = (o ← puts (replicate n c) o; Some (inl (o, fw - Z.of_nat n))).
Proof.
  revert o fw. induction n as [|n IH]; intros o fw Hn Hf.
  { cbn. by rewrite Z.sub_0_r. }
  cbn [nturns replicate puts]. rewrite step_above by lia.
  destruct (put buf en c o) as [o'|]; [|done]. cbn [mbind option_bind].
  rewrite IH by lia. by replace (fw - 1 - Z.of_nat n) with (fw - Z.of_nat (S n)) by lia.
Qed.

Lemma pad_loop o fw :
  0 ≤ lim → - 2 ^ 15 < fw < 2 ^ 15 →
  bloop 17 step (o, fw) = (o ← puts (rep c (fw - lim)) o; Some (o, Z.min fw lim - 1)).
Proof.
  intros Hl Hf.
  rewrite (bloop_turns 17 (Z.to_nat (fw - lim))) by (apply Nat2Z.inj_lt; rewrite pow17; lia).
  generalize pow17. generalize (2 ^ 17)%nat. intros N HN.
  destruct (N - Z.to_nat (fw - lim))%nat as [|n] eqn:E; [exfalso; lia|]. clear E HN.
  destruct (decide (lim ≤ fw)) as [Hle|Hgt].
  - rewrite pad_turns by lia. fold (rep c (fw - lim)). destruct (puts (rep c (fw - lim)) o) as [o'|]; [|done].
    cbn [mbind option_bind nturns]. rewrite step_below by lia. cbn. do 2 f_equal. lia.
  - unfold rep. replace (Z.to_nat (fw - lim)) with 0%nat by lia. cbn [mbind option_bind replicate puts nturns].
    rewrite step_below by lia. cbn. do 2 f_equal. lia.
Qed.
End Pad.

(** [while (--field_width >= lim)]: one character for each unit above the limit. *)
Lemma pad_ok lim c o fw :
  0 ≤ lim → - 2 ^ 15 < fw < 2 ^ 15 →
  pad buf en lim c o fw = (o ← puts (rep c (fw - lim)) o; Some (o, Z.min fw lim - 1)).
Proof.
  intros Hl Hf. apply pad_loop; [| |done|done]; intros; cbv zeta; rewrite s16_small by lia.
  - by destruct (fw0 - 1 >=? lim) eqn:E; [|lia].
  - by destruct (fw0 - 1 >=? lim) eqn:E; [lia|].
Qed.

(** [while (len < field_width--)]. *)
Lemma pad_post_ok len o fw :
  0 ≤ len → - 2 ^ 15 < fw < 2 ^ 15 →
  pad_post buf en len o fw = (o ← puts (rep 32 (fw - len)) o; Some (o, Z.min fw len - 1)).
Proof.
  intros Hl Hf. apply pad_loop; [| |done|done]; intros; rewrite s16_small by lia.
  - by destruct (Z.ltb_spec len fw0); [|lia].
  - by destruct (Z.ltb_spec len fw0); [lia|].
Qed.

(** ** Numbers *)

(** The sign, the magnitude and the prefix of a number. *)
Definition sign_text (num : Z) (s : printf_spec) : list Z :=
  if has (flags s) SIGN then
    if s64 num <? 0 then [45] else if has (flags s) PLUS then [43] else if has (flags s) SPACE then [32] else []
  else [].

Definition magnitude (num : Z) (s : printf_spec) : Z :=
  if has (flags s) SIGN && (s64 num <? 0) then - s64 num else num.

Definition prefix_text (s : printf_spec) : list Z :=
  if has (flags s) SPECIAL then
    if base s =? 16 then [48; if has (flags s) SMALL then 120 else 88] else if base s =? 8 then [48] else []
  else [].

(** The field of a number: the digits, at least [precision] of them, with sign and prefix,
    padded to the width on the left, on the right or between prefix and digits. *)
Definition number_text (num : Z) (s : printf_spec) : list Z :=
  let sign := sign_text num s in
  let pfx := prefix_text s in
  let ds := numeral_text (base s) (has (flags s) SMALL) (magnitude num s) in
  let zs := rep 48 (precision s - alen ds) in
  let gap := field_width s - alen (sign ++ pfx ++ zs ++ ds) in
  if has (flags s) LEFT then sign ++ pfx ++ zs ++ ds ++ rep 32 gap
  else if has (flags s) ZEROPAD then sign ++ pfx ++ rep 48 gap ++ zs ++ ds
  else rep 32 gap ++ sign ++ pfx ++ zs ++ ds.

(** The specifications that [number] handles without a wrap-around of its [s16] counters. *)
Definition number_spec (s : printf_spec) : Prop :=
  (base s = 8 ∨ base s = 10 ∨ base s = 16) ∧ -1 ≤ field_width s < 2 ^ 15 ∧ -1 ≤ precision s ≤ 32761.

Lemma land_bit f n : 0 ≤ n → Z.land f (2 ^ n) = if Z.testbit f n then 2 ^ n else 0.
Proof.
  intros Hn. apply Z.bits_inj'. intros i Hi. rewrite Z.land_spec, Z.pow2_bits_eqb by done.
  destruct (Z.eqb_spec n i) as [->|Hne].
  - destruct (Z.testbit f i); [by rewrite Z.pow2_bits_true|by rewrite Z.bits_0].
  - rewrite andb_false_r. destruct (Z.testbit f n); [by rewrite Z.pow2_bits_false|by rewrite Z.bits_0].
Qed.

Lemma has_bit f n : 0 ≤ n → has f (2 ^ n) = Z.testbit f n.
Proof.
  intros Hn. unfold has. rewrite land_bit by done. destruct (Z.testbit f n); [|done].
  apply ctrue_true. pose proof (Z.pow_pos_nonneg 2 n). lia.
Qed.

(** Clearing [ZEROPAD] leaves the other flags. *)
Lemma has_clear f x : Z.land 254 x = x → has (Z.land f (u8 (Z.lnot ZEROPAD))) x = has f x.
Proof. intros Hx. unfold has. change (u8 (Z.lnot ZEROPAD)) with 254. by rewrite <- Z.land_assoc, Hx. Qed.

Lemma has_pair f : has f (ZEROPAD + LEFT) = has f ZEROPAD || has f LEFT.
Proof.
  unfold has. change (ZEROPAD + LEFT) with (Z.lor ZEROPAD LEFT). rewrite Z.land_lor_distr_r.
  unfold ctrue. destruct (Z.eqb_spec (Z.lor (Z.land f ZEROPAD) (Z.land f LEFT)) 0) as [E|E].
  - apply Z.lor_eq_0_iff in E as [-> ->]. done.
  - destruct (Z.eqb_spec (Z.land f ZEROPAD) 0) as [E1|]; [|done]. destruct (Z.eqb_spec (Z.land f LEFT) 0) as [E2|]; [|done].
    by rewrite E1, E2 in E.
Qed.

Lemma has_zeropad_cleared f : has (Z.land f (u8 (Z.lnot ZEROPAD))) ZEROPAD = false.
Proof. unfold has. change (u8 (Z.lnot ZEROPAD)) with 254. rewrite <- Z.land_assoc. change (Z.land 254 ZEROPAD) with 0. by rewrite Z.land_0_r. Qed.

(** The digits are stored from the most significant one on. *)
Lemma put_digits_down tmp o :
  for_down (alen tmp - 1) 0 (λ i o, c ← tmp.[i]; put buf en c o) o = puts (reverse tmp) o.
Proof.
  revert o. induction tmp as [|c tmp IH] using rev_ind; intros o; [done|].
  rewrite alen_snoc, reverse_snoc. replace (alen tmp + 1 - 1) with (alen tmp) by lia. unfold for_down.
  replace (Z.to_nat (alen tmp - 0 + 1)) with (S (length tmp)) by (unfold alen; lia). cbn [for_nat_down puts].
  assert ((tmp ++ [c]).[alen tmp] = Some c) as ->.
  { rewrite arr_get_app by apply alen_nonneg. rewrite decide_False by lia. by rewrite Z.sub_diag. }
  cbn [mbind option_bind]. destruct (put buf en c o) as [o'|]; [|done]. cbn [mbind option_bind]. rewrite <- IH.
  unfold for_down. replace (Z.to_nat (alen tmp - 1 - 0 + 1)) with (length tmp) by (unfold alen; lia).
  clear -tmp. assert (Hk : ∀ n k o, k < alen tmp →
    for_nat_down n k (λ i o, c0 ← (tmp ++ [c]).[i]; put buf en c0 o) o = for_nat_down n k (λ i o, c ← tmp.[i]; put buf en c o) o).
  { intros n. induction n as [|n IHn]; intros k o Hk; [done|]. cbn [for_nat_down].
    assert ((tmp ++ [c]).[k] = tmp.[k]) as ->.
    { destruct (decide (0 ≤ k)); [rewrite arr_get_app by done; by rewrite decide_True|]. by rewrite !arr_get_None by lia. }
    destruct (tmp.[k]) as [x|]; [|done]. cbn. destruct (put buf en x o) as [o1|]; [|done]. cbn. apply IHn. lia. }
  apply Hk. lia.
Qed.

Lemma alen_rep c n : 0 ≤ n → alen (rep c n) = n.
Proof. intros Hn. unfold alen, rep. rewrite length_replicate. lia. Qed.

Lemma rep_neg c n : n ≤ 0 → rep c n = [].
Proof. intros Hn. unfold rep. by replace (Z.to_nat n) with 0%nat by lia. Qed.

Lemma alen_numeral b0 sm n : 1 ≤ alen (numeral_rev b0 sm n) ≤ 64.
Proof.
  unfold numeral_rev, alen. rewrite length_fmap. pose proof (length_digs 64 b0 n).
  split; [|lia]. rewrite digs_step. cbn [length]. lia.
Qed.

Lemma alen_reverse {A} (t : list A) : alen (reverse t) = alen t.
Proof. unfold alen. by rewrite length_reverse. Qed.

(** The parts of an output routine, and how their texts make up its text. *)
Lemma puts_bind t t' o k : (∀ o, k o = puts t' o) → (puts t o ≫= k) = puts (t ++ t') o.
Proof. intros Hk. rewrite puts_app. destruct (puts t o) as [o'|]; [|done]. apply Hk. Qed.

Lemma pad_bind lim c o fw t' (k : out * Z → option out) :
  0 ≤ lim → - 2 ^ 15 < fw < 2 ^ 15 →
  (∀ o, k (o, Z.min fw lim - 1) = puts t' o) → (pad buf en lim c o fw ≫= k) = puts (rep c (fw - lim) ++ t') o.
Proof.
  intros Hl Hf Hk. rewrite pad_ok, puts_app by done. destruct (puts _ o) as [o'|]; [|done]. apply Hk.
Qed.

Lemma pad0_bind c o fw t' (k : out * Z → option out) :
  - 2 ^ 15 < fw < 2 ^ 15 →
  (∀ o, k (o, Z.min fw 0 - 1) = puts t' o) → (pad buf en 0 c o fw ≫= k) = puts (rep c fw ++ t') o.
Proof. intros Hf Hk. rewrite <- (Z.sub_0_r fw) at 2. by apply pad_bind. Qed.

Lemma pad_post_bind len o fw t' (k : out * Z → option out) :
  0 ≤ len → - 2 ^ 15 < fw < 2 ^ 15 →
  (∀ o, k (o, Z.min fw len - 1) = puts t' o) → (pad_post buf en len o fw ≫= k) = puts (rep 32 (fw - len) ++ t') o.
Proof.
  intros Hl Hf Hk. rewrite pad_post_ok, puts_app by done. destruct (puts _ o) as [o'|]; [|done]. apply Hk.
Qed.

(** [number] from the leading spaces on. *)
Lemma number_fields o sign pfx (put_sign put_pfx : out → option out) (zp left : bool) fw i tmp prec :
  (∀ o, put_sign o = puts sign o) → (∀ o, put_pfx o = puts pfx o) →
  i = alen tmp → 0 ≤ i ≤ prec → prec < 2 ^ 15 → - 2 ^ 15 + 2 < fw < 2 ^ 15 → left && zp = false →
  ('(o, fw) ← (if negb (zp || left) then pad buf en 0 32 o fw else Some (o, fw));
   o ← put_sign o; o ← put_pfx o;
   '(o, fw) ← (if negb left then pad buf en 0 (if zp then 48 else 32) o fw else Some (o, fw));
   '(o, _) ← pad buf en i 48 o prec;
   o ← for_down (i - 1) 0 (λ i o, c ← tmp.[i]; put buf en c o) o;
   '(o, _) ← pad buf en 0 32 o fw; Some o) =
  puts (if left then sign ++ pfx ++ rep 48 (prec - i) ++ reverse tmp ++ rep 32 fw
        else if zp then sign ++ pfx ++ rep 48 fw ++ rep 48 (prec - i) ++ reverse tmp
        else rep 32 fw ++ sign ++ pfx ++ rep 48 (prec - i) ++ reverse tmp) o.
Proof.
  intros Hs Hx -> Hi Hp Hf Hz.
  assert (Htail : ∀ fw o, - 2 ^ 15 < fw < 2 ^ 15 →
    ('(o, _) ← pad buf en (alen tmp) 48 o prec;
     o ← for_down (alen tmp - 1) 0 (λ i o, c ← tmp.[i]; put buf en c o) o;
     '(o, _) ← pad buf en 0 32 o fw; Some o) = puts (rep 48 (prec - alen tmp) ++ reverse tmp ++ rep 32 fw) o).
  { intros fw' o' Hf'. apply pad_bind; [lia|lia|]. intros o1. rewrite put_digits_down. apply puts_bind. intros o2.
    rewrite <- (app_nil_r (rep 32 fw')). by apply pad0_bind. }
  destruct left, zp; try discriminate Hz; cbn [orb negb].
  - rewrite Some_bind, Hs. apply puts_bind. intros o1. rewrite Hx. apply puts_bind. intros o2. apply Htail; lia.
  - rewrite Some_bind, Hs. apply puts_bind. intros o1. rewrite Hx. apply puts_bind. intros o2. apply pad0_bind; [lia|]. intros o3. rewrite Htail, (rep_neg 32), app_nil_r by lia. done.
  - apply pad0_bind; [lia|]. intros o1.
    rewrite Hs. apply puts_bind. intros o2. rewrite Hx. apply puts_bind. intros o3.
    rewrite <- (app_nil_l (rep 48 _ ++ _)), <- (rep_neg 32 (Z.min fw 0 - 1)) by lia. apply pad0_bind; [lia|]. intros o4.
    rewrite Htail, (rep_neg 32), app_nil_r by lia. done.
Qed.

Lemma s64_range x : - 2 ^ 63 ≤ s64 x < 2 ^ 63.
Proof.
  unfold s64. pose proof (urange_uwrap 64 x ltac:(lia)) as H. unfold urange in H. destruct (Z.ltb_spec (u64 x) (2 ^ 63)); lia.
Qed.

Lemma magnitude_range num s : urange 64 num → urange 64 (magnitude num s).
Proof.
  intros Hn. unfold magnitude. pose proof (s64_range num). unfold urange in *.
  destruct (has (flags s) SIGN); cbn [andb]; [|done]. destruct (Z.ltb_spec (s64 num) 0); [lia|done].
Qed.

(** [number] stores the field of the number. *)
Lemma number_ok o num s :
  number_spec s → urange 64 num → number buf en o num s = puts (number_text num s) o.
Proof.
  intros (Hb & Hw & Hp) Hn. unfold number. cbv zeta.
  set (fl := if has (flags s) LEFT then _ else _).
  assert (Hfl : ∀ x, Z.land 254 x = x → has fl x = has (flags s) x)
    by (intros x Hx; subst fl; destruct (has (flags s) LEFT); [by apply has_clear|done]).
  rewrite has_pair, !(Hfl SIGN), !(Hfl PLUS), !(Hfl SPACE), !(Hfl LEFT) by done.
  assert (Hz : has (flags s) LEFT && has fl ZEROPAD = false)
    by (subst fl; destruct (has (flags s) LEFT) eqn:E; [apply has_zeropad_cleared|done]).
  assert (Hz' : has (flags s) LEFT = false → fl = flags s) by (subst fl; by intros ->). clearbody fl.
  set (sg := (if has (flags s) SIGN then _ else _) : Z * Z * Z).
  assert (∃ c, sg = (c, magnitude num s, field_width s - alen (sign_text num s)) ∧
    (if ctrue c then [c] else []) = sign_text num s) as (c & -> & Hc).
  { subst sg. unfold magnitude, sign_text. pose proof (s64_range num).
    destruct (has (flags s) SIGN); [|exists 0; cbn; by rewrite Z.sub_0_r].
    destruct (Z.ltb_spec (s64 num) 0); [|destruct (has (flags s) PLUS); [|destruct (has (flags s) SPACE)]].
    1: exists 45; rewrite uwrap_small by (unfold urange; lia).
    2: exists 43. 3: exists 32. 4: exists 0; cbn; by rewrite Z.sub_0_r.
    all: rewrite s16_small by lia; done. }
  assert (Hls : alen (sign_text num s) ≤ 1)
    by (unfold sign_text; repeat case_match; change (alen []) with 0; unfold alen; cbn; lia).
  pose proof (magnitude_range num s Hn) as Hm.
  pose proof (alen_nonneg (sign_text num s)) as Hls0. cbv beta iota.
  set (fw := if has (flags s) SPECIAL && _ then _ else _).
  assert (Hfw : fw = field_width s - alen (sign_text num s) - alen (prefix_text s)).
  { subst fw. unfold prefix_text. destruct (has (flags s) SPECIAL); [|cbn; by rewrite Z.sub_0_r].
    destruct Hb as [->|[->| ->]]; cbn [Z.eqb Pos.eqb negb andb]; rewrite ?(s16_small (_ - alen _ - 1)) by lia;
      rewrite ?s16_small by lia; change (alen [48]) with 1; change (alen [48; ?x]) with 2; change (alen []) with 0; lia. }
  assert (Hlp : 0 ≤ alen (prefix_text s) ≤ 2)
    by (unfold prefix_text; repeat case_match; change (alen []) with 0; unfold alen; cbn; lia).
  clearbody fw.
  rewrite number_digits_rev_ok; [|done|done|].
  2:{ change SMALL with (2 ^ 5). rewrite land_bit by done. destruct (Z.testbit _ _); [by right|by left]. }
  rewrite Some_bind. unfold number_text. cbv zeta. fold (has (flags s) SMALL). unfold numeral_text.
  set (tmp := numeral_rev _ _ _). assert (Ht : 1 ≤ alen tmp ≤ 64) by apply alen_numeral. clearbody tmp.
  set (prec := if alen tmp >? precision s then _ else _).
  assert (Hpr : prec = Z.max (precision s) (alen tmp)).
  { subst prec. destruct (alen tmp >? precision s) eqn:E; [rewrite s16_small by lia|]; lia. }
  clearbody prec. rewrite s16_small by lia.
  rewrite (number_fields o (sign_text num s) (prefix_text s)); [|intros|intros|done|lia|lia|lia|done].
  - rewrite alen_reverse, !alen_app, alen_reverse.
    assert (rep 48 (precision s - alen tmp) = rep 48 (prec - alen tmp)) as -> by (unfold rep; f_equal; lia).
    rewrite (alen_rep 48) by lia.
    replace (field_width s - _) with (fw - prec) by lia.
    destruct (has (flags s) LEFT); [done|]. by rewrite Hz'.
  - rewrite <- Hc. destruct (ctrue c); [by rewrite puts_1|done].
  - unfold prefix_text. destruct (has (flags s) SPECIAL); [|done].
    destruct Hb as [->|[->| ->]]; cbn [Z.eqb Pos.eqb negb andb]; [by rewrite puts_1; destruct (put _ _ _ _)|done|].
    cbn [puts]. destruct (put buf en 48 o0) as [o1|]; [|done]. cbn [mbind option_bind].
    replace (Z.lor 88 (Z.land (flags s) SMALL)) with (if has (flags s) SMALL then 120 else 88); [by destruct (put _ _ _ o1)|].
    unfold has. change SMALL with (2 ^ 5). rewrite land_bit by done. by destruct (Z.testbit (flags s) 5).
Qed.

(** ** Strings *)

(** The field of a string: at most [precision] characters of it, padded to the width. *)
Definition string_text (t : list Z) (s : printf_spec) : list Z :=
  let t := if precision s <? 0 then t else take (Z.to_nat (precision s)) t in
  let gap := rep 32 (field_width s - alen t) in
  if has (flags s) LEFT then t ++ gap else gap ++ t.

Definition string_spec (s : printf_spec) : Prop :=
  -1 ≤ field_width s < 2 ^ 15 ∧ -1 ≤ precision s < 2 ^ 15.

Lemma put_chars_up obj k t o :
  (∀ i, 0 ≤ i < alen t → obj.[k + i] = t.[i]) →
  for_up k (k + alen t) (λ i o, c ← obj.[i]; put buf en c o) o = puts t o.
Proof.
  revert k o. induction t as [|c t IH]; intros k o Ht; unfold for_up.
  { change (alen []) with 0. by replace (Z.to_nat (k + 0 - k)) with 0%nat by lia. }
  replace (Z.to_nat (k + alen (c :: t) - k)) with (S (length t)) by (unfold alen; cbn [length]; lia).
  cbn [for_nat puts]. pose proof (Ht 0) as H0. rewrite Z.add_0_r in H0. rewrite H0 by (unfold alen; cbn [length]; lia).
  change ((c :: t).[0]) with (Some c). cbn [mbind option_bind]. destruct (put buf en c o) as [o'|]; [|done]. cbn [mbind option_bind]. rewrite <- (IH (k + 1)).
  - unfold for_up. do 2 f_equal. unfold alen. lia.
  - intros i Hi. rewrite <- Z.add_assoc, (Z.add_comm 1 i), Ht by (unfold alen in *; cbn [length]; lia).
    unfold arr_get. destruct (Z.leb_spec 0 (i + 1)), (Z.leb_spec 0 i); try lia.
    by replace (Z.to_nat (i + 1)) with (S (Z.to_nat i)) by lia.
Qed.

Lemma cstr_get b p t i : cstr b p t → 0 ≤ i < alen t → b.[p + i] = t.[i].
Proof.
  revert p i. induction t as [|c t IH]; intros p i H Hi; [change (alen []) with 0 in Hi; lia|].
  destruct H as (Hc & _ & H). destruct (decide (i = 0)) as [->|Hne]; [by rewrite Z.add_0_r|].
  replace (p + i) with (p + 1 + (i - 1)) by lia. rewrite (IH _ (i - 1)); [|done|unfold alen in *; cbn [length] in *; lia].
  unfold arr_get. destruct (Z.leb_spec 0 (i - 1)), (Z.leb_spec 0 i); try lia.
  by replace (Z.to_nat i) with (S (Z.to_nat (i - 1))) by lia.
Qed.

(** [string] stores the field of the string, of "(null)" for a pointer into the first page. *)
Lemma string_ok o addr obj t s :
  string_spec s → PAGE_SIZE ≤ addr → cstr obj 0 t → alen t < 2 ^ 31 →
  string buf en o addr obj s = puts (string_text t s) o.
Proof.
  intros (Hw & Hp) Ha Ht Hlen. unfold string. destruct (Z.ltb_spec addr PAGE_SIZE); [lia|].
  set (n := Z.min (alen t) (u32 (precision s))).
  assert (Hn : n = alen (if precision s <? 0 then t else take (Z.to_nat (precision s)) t)).
  { subst n. unfold uwrap. pose proof (alen_nonneg t). destruct (Z.ltb_spec (precision s) 0).
    - assert (precision s = -1) as -> by lia. change ((-1) mod 2 ^ 32) with (2 ^ 32 - 1). lia.
    - rewrite Z.mod_small by lia. unfold alen. rewrite length_take. lia. }
  rewrite (strnlen_ok obj 0 t) by (done || by apply urange_uwrap). fold n. rewrite Some_bind. cbv zeta.
  assert (Hn0 : 0 ≤ n < 2 ^ 31).
  { pose proof (alen_nonneg t). pose proof (urange_uwrap 32 (precision s) ltac:(lia)) as Hu. unfold urange in Hu. lia. }
  rewrite s32_small by lia. unfold string_text. cbv zeta.
  set (t' := if precision s <? 0 then t else _) in *.
  assert (Hup : ∀ o, for_up 0 n (λ i o, c ← obj.[i]; put buf en c o) o = puts t' o).
  { intros o'. rewrite Hn, <- (Z.add_0_l (alen t')). apply put_chars_up. intros i Hi. rewrite (cstr_get obj 0 t) by (done || lia).
    subst t'. destruct (precision s <? 0) eqn:E; [done|]. symmetry. apply arr_get_take.
    unfold alen in Hi. rewrite length_take in Hi. lia. }
  rewrite <- Hn. pose proof (alen_nonneg t'). clearbody n t'.
  destruct (has (flags s) LEFT); cbn [negb].
  - rewrite Some_bind, Hup. apply puts_bind. intros o1. rewrite <- (app_nil_r (rep 32 _)).
    apply pad_post_bind; [lia|lia|done].
  - apply pad_post_bind; [lia|lia|]. intros o1. rewrite Hup. rewrite <- (app_nil_r t') at 2. apply puts_bind. intros o2.
    rewrite <- (app_nil_l []), <- (rep_neg 32 (Z.min (field_width s) n - 1 - n)) at 1 by lia.
    apply pad_post_bind; [lia|lia|done].
Qed.

Lemma string_null o addr obj s :
  string_spec s → addr < PAGE_SIZE →
  string buf en o addr obj s = puts (string_text [40; 110; 117; 108; 108; 41] s) o.
Proof.
  intros Hs Ha. rewrite <- (string_ok o PAGE_SIZE null_text) by (done || cbn; unfold char; ands; done || lia).
  unfold string. by destruct (Z.ltb_spec addr PAGE_SIZE); [|lia].
Qed.

(** The field of a character. *)
Definition char_text (c : Z) (s : printf_spec) : list Z :=
  let gap := rep 32 (field_width s - 1) in
  if has (flags s) LEFT then c :: gap else gap ++ [c].

(** ** What the stores leave in the buffer *)

(** There is room for [n] more characters: the buffer reaches up to them or up to [end], and
    the addresses do not wrap around. *)
Definition room (o : out) (n : Z) : Prop :=
  0 ≤ buf ≤ snd o ∧ snd o + n < 2 ^ 32 ∧ Z.min (en - buf) (snd o - buf + n) ≤ alen (fst o).

Lemma puts_spec t m str :
  Forall (urange 8) t → room (m, str) (alen t) →
  ∃ m', puts t (m, str) = Some (m', str + alen t) ∧ alen m' = alen m ∧
    ∀ i, m'.[i] = if decide (str - buf ≤ i < str - buf + alen t ∧ i < en - buf) then t.[i - (str - buf)] else m.[i].
Proof.
  intros Ht. revert m str. induction Ht as [|c t Hc Ht IH]; intros m str (Hb & Hs & Hl); cbn [fst snd] in *.
  { change (alen []) with 0 in *. exists m. rewrite Z.add_0_r. ands; [done..|]. intros i. by rewrite decide_False by lia. }
  assert (Hlen : alen (c :: t) = 1 + alen t) by (unfold alen; cbn [length]; lia). rewrite Hlen in *.
  pose proof (alen_nonneg t). cbn [puts put]. rewrite (uwrap_small 8) by done. rewrite (uwrap_small 32) by (unfold urange; lia).
  assert (Hget : ∀ i, 0 < i → (c :: t).[i] = t.[i - 1]).
  { intros i Hi. unfold arr_get. destruct (Z.leb_spec 0 (i - 1)), (Z.leb_spec 0 i); try lia.
    by replace (Z.to_nat i) with (S (Z.to_nat (i - 1))) by lia. }
  assert (∃ m1, (if str <? en then m.[str - buf <- c] else Some m) = Some m1 ∧ alen m1 = alen m ∧
    ∀ i, m1.[i] = if decide (i = str - buf ∧ i < en - buf) then Some c else m.[i]) as (m1 & -> & Hl1 & Hg1).
  { destruct (Z.ltb_spec str en).
    - rewrite arr_set_lt by lia. eexists; ands; [done|apply alen_insert|]. intros i.
      rewrite (arr_get_set m i (str - buf) c) by (apply arr_set_lt; lia). repeat case_decide; try lia; done.
    - exists m. ands; [done..|]. intros i. by rewrite decide_False by lia. }
  cbn [mbind option_bind]. destruct (IH m1 (str + 1)) as (m' & -> & Hl' & Hg'); [unfold room; cbn; lia|].
  exists m'. ands; [by rewrite Z.add_assoc|lia|]. intros i. rewrite Hg', Hg1.
  destruct (decide (str + 1 - buf ≤ i < str + 1 - buf + alen t ∧ i < en - buf)) as [Hd|Hd].
  - rewrite decide_True by lia. rewrite Hget by lia. f_equal. lia.
  - destruct (decide (i = str - buf ∧ i < en - buf)) as [[-> ?]|Hd'].
    + rewrite decide_True by lia. by rewrite Z.sub_diag.
    + by rewrite decide_False by lia.
Qed.

(** With room for it a text is stored, and the room for what follows is what is left. *)
Lemma puts_room t n o :
  room o (alen t + n) → 0 ≤ n → ∃ o', puts t o = Some o' ∧ room o' n ∧ snd o' = snd o + alen t ∧ alen (fst o') = alen (fst o).
Proof.
  revert o. induction t as [|c t IH]; intros [m str] (Hb & Hs & Hl) Hn; cbn [fst snd] in *.
  { change (alen []) with 0 in *. exists (m, str). unfold room. cbn. ands; try lia; done. }
  assert (Hlen : alen (c :: t) = 1 + alen t) by (unfold alen; cbn [length]; lia). rewrite Hlen in *.
  pose proof (alen_nonneg t). cbn [puts put].
  assert (∃ m1, (if str <? en then m.[str - buf <- u8 c] else Some m) = Some m1 ∧ alen m1 = alen m) as (m1 & -> & Hl1).
  { destruct (Z.ltb_spec str en); [|by exists m]. rewrite arr_set_lt by lia. eexists; split; [done|apply alen_insert]. }
  cbn [mbind option_bind]. rewrite (uwrap_small 32) by (unfold urange; lia).
  destruct (IH (m1, str + 1)) as (o' & -> & Hr & Hs' & Hl'); [unfold room; cbn; lia|done|].
  exists o'. cbn [fst snd] in *. ands; try done; lia.
Qed.

(** The copy of the characters between two conversions. *)
Lemma copy_ok m str b p t :
  Forall (urange 8) t → room (m, str) (alen t) → 0 ≤ p → (∀ i, 0 ≤ i < alen t → b.[p + i] = t.[i]) → p + alen t ≤ alen b →
  (m ← (if str <? en then memcpy m (str - buf) b p (if alen t >? en - str then en - str else alen t) else Some m);
   Some (m, u32 (str + alen t))) = puts t (m, str).
Proof.
  intros Ht Hr Hp Hb Hlen. pose proof Hr as (Hb0 & Hs & Hl). cbn [fst snd] in *. pose proof (alen_nonneg t).
  destruct (puts_spec t m str Ht Hr) as (m' & -> & Hl' & Hg').
  rewrite (uwrap_small 32) by (unfold urange; lia).
  destruct (Z.ltb_spec str en).
  - unfold memcpy. set (n := if alen t >? en - str then en - str else alen t).
    assert (n = Z.min (alen t) (en - str)) as -> by (subst n; destruct (alen t >? en - str) eqn:E; lia).
    destruct (arr_read_spec b p (Z.min (alen t) (en - str))) as (d & -> & Hd & Hgd); [lia..|]. cbn [mbind option_bind].
    destruct (arr_write_spec m (str - buf) d) as (m1 & -> & Hl1 & Hg1); [lia..|]. cbn [mbind option_bind].
    f_equal. f_equal. apply arr_ext; [lia|]. intros i Hi. rewrite Hg1, Hg'.
    rewrite Hd. destruct (decide _) as [H1|H1], (decide _) as [H2|H2]; try lia; [|done].
    rewrite Hgd, Hb by lia. done.
  - cbn. f_equal. f_equal. apply arr_ext; [done|]. intros i Hi. rewrite Hg'. by rewrite decide_False by lia.
Qed.
End Text.
