(* ===== verification/VsprintfFmt.v ===== *)
(** * The syntax of formats

    Conversion directives as data, the text of a directive in a format, and what
    [format_decode] makes of that text. *)

From S2P Require Import Prelude Words Strings StringsFacts Vsprintf VsprintfDigits VsprintfOut.
#[local] Open Scope Z_scope.
#[local] Open Scope kernel_scope.

(** ** Directives *)

Inductive length_mod := QNone | Qhh | Qh | Ql | Qll | QL | Qz | QZ | Qt.
Inductive conv := Cd | Ci | Cu | Co | Cx | CX | Cc | Cs | Cp | Cn | Cpercent.
Inductive count := NoCount | Count (n : Z) | Star.

Record directive := Directive {
  d_flags : list Z;
  d_width : count;
  d_prec : count;
  d_mod : length_mod;
  d_conv : conv }.

Definition mod_text (q : length_mod) : list Z :=
  match q with
  | QNone => [] | Qhh => [104; 104] | Qh => [104] | Ql => [108] | Qll => [108; 108] | QL => [76]
  | Qz => [122] | QZ => [90] | Qt => [116]
  end.

Definition mod_code (q : length_mod) : Z :=
  match q with
  | QNone => 255 | Qhh => 72 | Qh => 104 | Ql => 108 | Qll | QL => 76 | Qz => 122 | QZ => 90 | Qt => 116
  end.

Definition conv_char (c : conv) : Z :=
  match c with
  | Cd => 100 | Ci => 105 | Cu => 117 | Co => 111 | Cx => 120 | CX => 88 | Cc => 99 | Cs => 115 | Cp => 112
  | Cn => 110 | Cpercent => 37
  end.

Definition width_text (w : count) : list Z :=
  match w with NoCount => [] | Count n => numeral_text 10 false n | Star => [42] end.

Definition prec_text (p : count) : list Z :=
  match p with NoCount => [] | Count n => 46 :: numeral_text 10 false n | Star => [46; 42] end.

Definition directive_text (d : directive) : list Z :=
  37 :: d_flags d ++ width_text (d_width d) ++ prec_text (d_prec d) ++ mod_text (d_mod d) ++ [conv_char (d_conv d)].

(** A written width starts with no zero, which would be a flag; the bounds are those of the
    [s16] counters. *)
Definition directive_ok (d : directive) : Prop :=
  Forall (λ c, flag_of c ≠ None) (d_flags d) ∧
  match d_width d with Count n => 1 ≤ n < 2 ^ 15 | _ => True end ∧
  match d_prec d with Count n => 0 ≤ n ≤ 32761 | _ => True end.

(** ** What a directive stands for *)

Definition is_signed (c : conv) : bool := match c with Cd | Ci => true | _ => false end.

Definition int_type (q : length_mod) (signed : bool) : format_type :=
  match q with
  | Qll | QL => FORMAT_TYPE_LONG_LONG
  | Ql => if signed then FORMAT_TYPE_LONG else FORMAT_TYPE_ULONG
  | Qz | QZ => FORMAT_TYPE_SIZE_T
  | Qt => FORMAT_TYPE_PTRDIFF
  | Qhh => if signed then FORMAT_TYPE_BYTE else FORMAT_TYPE_UBYTE
  | Qh => if signed then FORMAT_TYPE_SHORT else FORMAT_TYPE_USHORT
  | QNone => if signed then FORMAT_TYPE_INT else FORMAT_TYPE_UINT
  end.

Definition conv_type (q : length_mod) (c : conv) : format_type :=
  match c with
  | Cc => FORMAT_TYPE_CHAR | Cs => FORMAT_TYPE_STR | Cp => FORMAT_TYPE_PTR | Cn => FORMAT_TYPE_NRCHARS
  | Cpercent => FORMAT_TYPE_PERCENT_CHAR
  | _ => int_type q (is_signed c)
  end.

Definition conv_base (c : conv) : Z := match c with Co => 8 | Cx | CX => 16 | _ => 10 end.
Definition conv_flags (c : conv) : Z := match c with Cd | Ci => SIGN | Cx => SMALL | _ => 0 end.

Definition flags_of (fl : list Z) : Z := fold_left (λ f c, Z.lor f (default 0 (flag_of c))) fl 0.

(** The specification of the conversion [c] with the flags [f], width [w] and precision [p]. *)
Definition conv_spec (q : length_mod) (c : conv) (f w p : Z) : printf_spec :=
  PrintfSpec (conv_type q c) (Z.lor f (conv_flags c)) (conv_base c) (mod_code q) w p.

(** The conversion character, except the p, counts as read. *)
Definition conv_read (c : conv) : Z := match c with Cp => 0 | _ => 1 end.

(** ** Reading the end of a directive *)

(** The first character of the end of a directive is no flag, digit, star or period. *)
Lemma tail_head q c rest :
  ∃ c0 tl, mod_text q ++ conv_char c :: rest = c0 :: tl ∧
    isdigit c0 = false ∧ flag_of c0 = None ∧ (c0 =? 42) = false ∧ (c0 =? 46) = false.
Proof. destruct q; try (by eexists _, _); destruct c; by eexists _, _. Qed.

Lemma has_lor f g x : has (Z.lor f g) x = has f x || has g x.
Proof.
  unfold has. rewrite Z.land_lor_distr_l. unfold ctrue.
  destruct (Z.eqb_spec (Z.lor (Z.land f x) (Z.land g x)) 0) as [E|E].
  - apply Z.lor_eq_0_iff in E as [-> ->]. done.
  - destruct (Z.eqb_spec (Z.land f x) 0) as [E1|]; [|done]. destruct (Z.eqb_spec (Z.land g x) 0) as [E2|]; [|done].
    by rewrite E1, E2 in E.
Qed.

(** Read the next character that [cstr] names. *)
Ltac read_char H :=
  let E := fresh "E" in
  destruct H as (E & _ & H); rewrite E; cbn [mbind option_bind].

Lemma decode_modifier_ok b fmt s q c rest :
  cstr b fmt (mod_text q ++ conv_char c :: rest) →
  decode_modifier b fmt (set_qualifier (-1) s) = Some (set_qualifier (mod_code q) s, fmt + alen (mod_text q)).
Proof.
  intros H. unfold decode_modifier.
  destruct q; destruct c; cbn [mod_text app cstr conv_char] in H; repeat read_char H;
    cbn -[Z.add alen]; rewrite ?E0, ?E1; cbn -[Z.add alen]; do 2 f_equal; unfold alen; cbn; lia.
Qed.

Lemma decode_conversion_ok b start fmt s q c rest :
  cstr b fmt (conv_char c :: rest) → has (flags s) SIGN = false →
  decode_conversion b start fmt (set_base 10 (set_qualifier (mod_code q) s)) =
    Some (conv_spec q c (flags s) (field_width s) (precision s), fmt + conv_read c - start).
Proof.
  intros H Hs. unfold decode_conversion, conv_spec. read_char H.
  assert (Hs2 : has (Z.lor (flags s) SIGN) SIGN = true) by (by rewrite has_lor, orb_true_r).
  assert (Hs3 : has (Z.lor (flags s) SMALL) SIGN = false) by (by rewrite has_lor, Hs).
  destruct c; cbn [conv_char Z.eqb Pos.eqb orb]; unfold switch_qualifier;
    cbn [or_flags set_base set_qualifier set_type flags qualifier field_width precision base];
    rewrite ?Hs, ?Hs2, ?Hs3; destruct q; cbn -[Z.lor Z.add Z.sub]; rewrite ?Z.lor_0_r, ?Z.add_0_r; reflexivity.
Qed.

Lemma decode_qualifier_ok b start fmt s q c rest :
  cstr b fmt (mod_text q ++ conv_char c :: rest) → has (flags s) SIGN = false →
  decode_qualifier b start fmt s =
    Some (conv_spec q c (flags s) (field_width s) (precision s), fmt + alen (mod_text q) + conv_read c - start).
Proof.
  intros H Hs. unfold decode_qualifier. rewrite (decode_modifier_ok _ _ _ q c rest) by done. rewrite Some_bind.
  apply cstr_app in H. by apply (decode_conversion_ok _ _ _ _ _ _ rest).
Qed.

(** ** Reading counts *)

Lemma isdigit_dec c : char c → isdigit c = is_dig 10 c ∧ (isdigit c = true → dval c = c - 48).
Proof.
  intros Hc. split; [|intros E; unfold dval; by rewrite E].
  assert (H := byte_all (λ c, eqb (isdigit c) (is_dig 10 c)) eq_refl c ltac:(unfold char in Hc; lia)).
  by apply eqb_prop in H.
Qed.

Lemma fold_numval_mono ds a : Forall (λ c, 0 ≤ dval c) ds → 0 ≤ a → a ≤ fold_left (λ a c, a * 10 + dval c) ds a.
Proof.
  intros H. revert a. induction H as [|c ds Hc H IH]; intros a Ha; cbn [fold_left]; [lia|].
  specialize (IH (a * 10 + dval c) ltac:(lia)). lia.
Qed.

Lemma dval_nonneg base c : char c → is_dig base c = true → 0 ≤ dval c.
Proof.
  intros Hc Hd. apply andb_true_iff in Hd as [Hx _].
  assert (H := byte_all (λ c, negb (isxdigit c) || (0 <=? dval c)) eq_refl c ltac:(unfold char in Hc; lia)).
  cbv beta in H. rewrite Hx in H. apply Z.leb_le. done.
Qed.

Lemma skip_atoi_loop b p ds rest f a :
  cstr b p (ds ++ rest) → Forall (λ c, is_dig 10 c = true ∧ char c) ds →
  match rest with [] => True | c :: _ => isdigit c = false end →
  (length ds < f)%nat → 0 ≤ a → fold_left (λ a c, a * 10 + dval c) ds a < 2 ^ 31 →
  loop f (λ '(s, i), c ← b.[s];
    if isdigit c then Some (inl (s + 1, s32 (i * 10 + c - 48))) else Some (inr (i, s))) (p, a) =
  Some (fold_left (λ a c, a * 10 + dval c) ds a, p + alen ds).
Proof.
  intros H Hd Hr. revert b p f a H. induction Hd as [|c ds [Hc Hch] Hd IH]; intros b p [|f] a H Hf Ha Hv;
    try (cbn in Hf; lia); rewrite loop_S.
  - cbn [app] in H. change (alen []) with 0. rewrite Z.add_0_r. cbn [fold_left].
    destruct rest as [|c rest]; cbn [cstr] in H; [rewrite H|destruct H as (-> & _)]; cbn [mbind option_bind]; [done|].
    by rewrite Hr.
  - cbn [app cstr] in H. destruct H as (-> & _ & H). cbn [mbind option_bind fold_left] in *.
    destruct (isdigit_dec c Hch) as [Hi Hdv]. pose proof (dval_nonneg _ _ Hch Hc). rewrite <- Hi in Hc. rewrite Hc.
    specialize (Hdv Hc).
    assert (Hdn : Forall (λ c, 0 ≤ dval c) ds).
    { eapply List.Forall_impl; [|apply Hd]. intros c' [Hc' Hch']. by apply (dval_nonneg 10). }
    pose proof (fold_numval_mono ds (a * 10 + dval c) Hdn ltac:(lia)). cbn [length] in Hf.
    replace (a * 10 + c - 48) with (a * 10 + dval c) by lia. rewrite s32_small by lia.
    cbn [mbind option_bind]. rewrite IH; [|done|lia|lia|done]. do 2 f_equal. unfold alen. cbn [length]. lia.
Qed.

Lemma skip_atoi_ok b p n rest :
  cstr b p (numeral_text 10 false n ++ rest) → 0 ≤ n < 2 ^ 31 →
  match rest with [] => True | c :: _ => isdigit c = false end →
  skip_atoi b p = Some (n, p + alen (numeral_text 10 false n)).
Proof.
  intros H Hn Hr. destruct (numval_text 10 false n) as [Hv Hd]; [lia|unfold urange; lia|]. unfold numval in Hv.
  unfold skip_atoi. rewrite (skip_atoi_loop b p (numeral_text 10 false n) rest); rewrite ?Hv; try done; [|lia].
  apply cstr_fuel in H. rewrite length_app in H. lia.
Qed.

(** The most significant digit of a number that is not zero is not zero. *)
Lemma digs_last f n : 1 ≤ n < 10 ^ Z.of_nat f → ∃ l d, digs f 10 n = l ++ [d] ∧ 1 ≤ d < 10.
Proof.
  revert n. induction f as [|f IH]; intros n Hn; [cbn in Hn; lia|]. rewrite digs_step.
  destruct (Z.ltb_spec n 10) as [Hlt|Hge].
  - exists [], n. rewrite Z.mod_small by lia. split; [done|lia].
  - destruct (IH (n / 10)) as (l & d & -> & Hd).
    { rewrite Nat2Z.inj_succ, Z.pow_succ_r in Hn by lia. Z.to_euclidean_division_equations. lia. }
    by exists (n mod 10 :: l), d.
Qed.

(** A numeral starts with a digit, of a number that is not zero with another one than 0. *)
Lemma numeral_head n :
  1 ≤ n < 2 ^ 31 → ∃ c ds, numeral_text 10 false n = c :: ds ∧ isdigit c = true ∧ flag_of c = None.
Proof.
  intros Hn. unfold numeral_text, numeral_rev.
  destruct (digs_last 64%nat n) as (l & d & -> & Hd).
  { change (Z.of_nat 64) with 64. assert (2 ^ 31 < 10 ^ 64) by done. lia. }
  rewrite fmap_app, reverse_app. eexists _, _; split; [reflexivity|].
  assert (Hc := range_all 10 (λ d, (d =? 0) || isdigit (dchar false d) && bool_decide (flag_of (dchar false d) = None)) eq_refl d ltac:(lia)).
  cbv beta in Hc. destruct (Z.eqb_spec d 0); [lia|]. cbn [orb] in Hc.
  apply andb_true_iff in Hc as [Hi Hf%bool_decide_eq_true]. done.
Qed.

(** ** Reading a directive *)

Definition count_val (dflt : Z) (n : count) : Z := match n with Count n => n | _ => dflt end.

(** From the precision on; a star ends the first part of the directive. *)
Lemma decode_precision_ok b start fmt s p q c rest :
  cstr b fmt (prec_text p ++ mod_text q ++ conv_char c :: rest) → has (flags s) SIGN = false →
  match p with Count n => 0 ≤ n ≤ 32761 | _ => True end →
  decode_precision b start fmt s =
    match p with
    | Star => Some (set_type FORMAT_TYPE_PRECISION (set_precision (-1) s), fmt + 2 - start)
    | _ => Some (conv_spec q c (flags s) (field_width s) (count_val (-1) p),
                 fmt + alen (prec_text p) + alen (mod_text q) + conv_read c - start)
    end.
Proof.
  intros H Hs Hp. unfold decode_precision. destruct (tail_head q c rest) as (c0 & tl & Ht & Hd & _ & _ & Hdot).
  destruct p as [|n|]; cbn [prec_text app] in H.
  - pose proof H as H'. rewrite Ht in H'. destruct H' as (-> & _). cbn [mbind option_bind]. rewrite Hdot.
    rewrite (decode_qualifier_ok _ _ _ _ q c rest) by done. cbn [prec_text]. change (alen []) with 0. by rewrite Z.add_0_r.
  - destruct H as (-> & _ & H). cbn [mbind option_bind Z.eqb Pos.eqb].
    destruct (numval_text 10 false n) as [_ HF]; [lia|unfold urange; lia|].
    assert (∃ c1, b.[fmt + 1] = Some c1 ∧ isdigit c1 = true) as (c1 & -> & Hc1).
    { pose proof (alen_numeral 10 false n) as Hal. rewrite <- alen_reverse in Hal. fold (numeral_text 10 false n) in Hal.
      destruct (numeral_text 10 false n) as [|c1 ds]; [change (alen []) with 0 in Hal; lia|].
      exists c1. split; [apply H|]. apply list.Forall_cons in HF as [[Hd1 Hc1] _]. by rewrite (proj1 (isdigit_dec c1 Hc1)). }
    cbn [mbind option_bind]. rewrite Hc1. rewrite (skip_atoi_ok b (fmt + 1) n (mod_text q ++ conv_char c :: rest)); [|done|lia|by rewrite Ht].
    cbn [mbind option_bind]. apply cstr_app in H.
    cbn [set_precision precision]. rewrite !s16_small by lia. destruct (Z.ltb_spec n 0); [lia|].
    rewrite (decode_qualifier_ok _ _ _ _ q c rest) by done. cbn [flags field_width precision count_val prec_text].
    do 2 f_equal; [cbn [set_precision flags field_width precision]; by rewrite s16_small by lia|]. unfold alen. cbn [length]. lia.
  - destruct H as (-> & _ & H). cbn [mbind option_bind Z.eqb Pos.eqb]. destruct H as (-> & _ & H). cbn -[Z.add Z.sub set_type set_precision].
    do 2 f_equal. lia.
Qed.

Lemma flag_of_sign c : has (default 0 (flag_of c)) SIGN = false.
Proof. unfold flag_of. by repeat case_match. Qed.

Lemma flags_of_sign fl : has (flags_of fl) SIGN = false.
Proof.
  unfold flags_of. assert (H : ∀ f, has f SIGN = false → has (fold_left (λ f c, Z.lor f (default 0 (flag_of c))) fl f) SIGN = false).
  { induction fl as [|c fl IH]; intros f Hf; [done|]. apply IH. by rewrite has_lor, Hf, flag_of_sign. }
  by apply H.
Qed.

Definition lit_rest (rest : list Z) : Prop := rest = [] ∨ ∃ r, rest = 37 :: r.

(** The scan for the next percent sign. *)
Lemma lit_loop b fmt t rest f :
  cstr b fmt (t ++ rest) → Forall (λ c, c ≠ 37) t → lit_rest rest → (length t < f)%nat →
  loop f (λ fmt, c ← b.[fmt]; Some (if ctrue c && negb (c =? 37) then inl (fmt + 1) else inr fmt)) fmt = Some (fmt + alen t).
Proof.
  intros H Ht Hr. revert fmt f H. induction Ht as [|c t Hc Ht IH]; intros fmt [|f] H Hf; try (cbn in Hf; lia); rewrite loop_S.
  - change (alen []) with 0. rewrite Z.add_0_r. destruct Hr as [->|(r & ->)]; cbn in H; [by rewrite H|]. by destruct H as (-> & _).
  - cbn [app cstr] in H. destruct H as (-> & Hcc & H). unfold char in Hcc. cbn [mbind option_bind].
    replace (ctrue c) with true by (symmetry; apply ctrue_true; lia). replace (c =? 37) with false by lia. cbn [negb andb].
    rewrite IH; [|done|cbn in Hf; lia]. f_equal. unfold alen. cbn [length]. lia.
Qed.

(** The specification is not one that waits for the argument of a star. *)
Definition fresh (s : printf_spec) : Prop := type s ≠ FORMAT_TYPE_WIDTH ∧ type s ≠ FORMAT_TYPE_PRECISION.

Lemma format_decode_fresh b fmt s : fresh s → format_decode b fmt s = decode_start b fmt s.
Proof. intros [Hw Hp]. unfold format_decode. by destruct (type s). Qed.

Lemma format_decode_lit b fmt s t rest :
  fresh s → cstr b fmt (t ++ rest) → t ≠ [] → Forall (λ c, c ≠ 37) t → lit_rest rest →
  format_decode b fmt s = Some (set_type FORMAT_TYPE_NONE s, alen t).
Proof.
  intros Hs H Hne Ht Hr. rewrite format_decode_fresh by done.
  assert (Hf : (length t < S (length b))%nat) by (apply cstr_fuel in H; rewrite length_app in H; lia).
  assert (Hlen : (fmt + alen t =? fmt) = false) by (destruct t; [done|apply Z.eqb_neq; unfold alen; cbn [length]; lia]).
  assert (Hend : is_Some b.[fmt + alen t]).
  { apply cstr_app in H. destruct Hr as [->|(r & ->)]; cbn in H; [by exists 0|]. exists 37. by destruct H. }
  destruct Hend as [c Hend]. unfold decode_start. cbv zeta. rewrite (lit_loop _ _ t rest), Some_bind, Hend, Some_bind, Hlen by done.
  cbn [negb orb]. do 2 f_equal; lia.
Qed.

(** The flags behind the percent sign, which is at [fmt]. *)
Lemma flag_loop b fmt s fl rest f c :
  cstr b (fmt + 1) (fl ++ rest) → Forall (λ c, flag_of c ≠ None) fl → b.[fmt + 1 + alen fl] = Some c → flag_of c = None →
  (length fl < f)%nat →
  loop f (λ '(s, fmt), let fmt := fmt + 1 in c ← b.[fmt];
    Some (match flag_of c with Some f => inl (or_flags f s, fmt) | None => inr (s, fmt) end)) (s, fmt) =
  Some (set_flags (fold_left (λ f c, Z.lor f (default 0 (flag_of c))) fl (flags s)) s, fmt + 1 + alen fl).
Proof.
  intros H Hfl. revert fmt f s H. induction Hfl as [|c' fl Hc' Hfl IH]; intros fmt [|f] s H Hc Hn Hf; try (cbn in Hf; lia); rewrite loop_S; cbv beta iota zeta.
  - change (alen []) with 0 in *. rewrite Z.add_0_r in *. rewrite Hc. cbn [mbind option_bind]. rewrite Hn. by destruct s.
  - cbn [app cstr] in H. destruct H as (-> & Hcc & H). cbn [mbind option_bind].
    assert (Hal : alen (c' :: fl) = 1 + alen fl) by (unfold alen; cbn [length]; lia).
    rewrite Hal, Z.add_assoc in *. destruct (flag_of c') as [x|] eqn:E; [|done]. cbn [mbind option_bind].
    rewrite IH; [|done|done|done|cbn in Hf; lia]. cbn [fold_left default]. rewrite E. by destruct s.
Qed.

(** The first character behind the flags. *)
Lemma width_head b fmt w p q c rest :
  cstr b fmt (width_text w ++ prec_text p ++ mod_text q ++ conv_char c :: rest) →
  match w with Count n => 1 ≤ n < 2 ^ 15 | _ => True end →
  ∃ c1, b.[fmt] = Some c1 ∧ flag_of c1 = None ∧
    match w with
    | Count _ => isdigit c1 = true
    | Star => c1 = 42
    | NoCount => isdigit c1 = false ∧ (c1 =? 42) = false
    end.
Proof.
  intros H Hw. destruct (tail_head q c rest) as (c0 & tl & Ht & Hd & Hf0 & Hst & _). destruct w as [|n|].
  - destruct p as [|n|]; cbn [width_text prec_text app] in H; [rewrite Ht in H; exists c0|exists 46|exists 46]; by destruct H.
  - destruct (numeral_head n) as (c1 & ds & E & Hd1 & Hf1); [lia|]. cbn [width_text] in H. rewrite E in H.
    exists c1. by destruct H as (-> & _).
  - exists 42. by destruct H as (-> & _).
Qed.

(** The first part of a directive: all of it, or up to a star. *)
Lemma format_decode_dir b fmt s d rest :
  fresh s → cstr b fmt (directive_text d ++ rest) → directive_ok d →
  format_decode b fmt s =
    let s1 := set_type FORMAT_TYPE_NONE (set_flags (flags_of (d_flags d)) s) in
    let n := 1 + alen (d_flags d) + alen (width_text (d_width d)) in
    match d_width d, d_prec d with
    | Star, _ => Some (set_type FORMAT_TYPE_WIDTH (set_field_width (-1) s1), n)
    | w, Star => Some (set_type FORMAT_TYPE_PRECISION (set_precision (-1) (set_field_width (count_val (-1) w) s1)), n + 2)
    | w, p => Some (conv_spec (d_mod d) (d_conv d) (flags_of (d_flags d)) (count_val (-1) w) (count_val (-1) p),
        n + alen (prec_text p) + alen (mod_text (d_mod d)) + conv_read (d_conv d))
    end.
Proof.
  intros Hs H (Hfl & Hwd & Hpr). rewrite format_decode_fresh by done.
  destruct d as [fl w p q c]; cbn [d_flags d_width d_prec d_mod d_conv] in *.
  unfold directive_text in H. cbn [d_flags d_width d_prec d_mod d_conv app] in H. rewrite <- !app_assoc in H. cbn [app] in H.
  destruct H as (H0 & _ & H). pose proof (cstr_fuel _ _ _ H) as Hfu. rewrite length_app in Hfu.
  pose proof (cstr_app _ _ _ _ H) as H1. destruct (width_head _ _ _ _ _ _ _ H1 Hwd) as (c1 & Hc1 & Hf1 & Hk).
  unfold decode_start. cbv zeta. rewrite loop_S, H0. cbn [mbind option_bind ctrue Z.eqb Pos.eqb negb andb].
  rewrite H0. cbn [mbind option_bind]. rewrite Z.eqb_refl. cbn [ctrue Z.eqb negb orb].
  rewrite (flag_loop b fmt _ fl _ _ c1 H) by (done || lia). cbn [mbind option_bind]. rewrite Hc1. cbn [mbind option_bind].
  cbn [set_flags set_type flags]. fold (flags_of fl).
  set (s2 := set_field_width (-1) _).
  assert (Hsg : ∀ n, has (flags (set_field_width n s2)) SIGN = false) by (intros; apply flags_of_sign).
  destruct w as [|n|].
  - destruct Hk as [-> ->]. rewrite (decode_precision_ok _ _ _ _ p q c rest); [|done|apply (Hsg 0)|done].
    destruct p; cbn [width_text]; do 2 f_equal; change (alen []) with 0; lia.
  - rewrite Hk. rewrite (skip_atoi_ok b _ n (prec_text p ++ mod_text q ++ conv_char c :: rest)); [|done|lia|].
    2:{ destruct (tail_head q c rest) as (c0 & tl & -> & Hd & _). by destruct p. }
    cbn [mbind option_bind]. cbn [width_text] in *. apply cstr_app in H1.
    rewrite (decode_precision_ok _ _ _ _ p q c rest); [|done|apply Hsg|done].
    destruct p; do 2 f_equal; try lia; cbn [set_field_width field_width count_val]; by rewrite s16_small by lia.
  - subst c1. cbn [isdigit Z.eqb Pos.eqb]. cbn -[Z.add Z.sub alen set_type s2 set_field_width]. do 2 f_equal.
    change (alen [42]) with 1. lia.
Qed.

(** The width of a star argument: a negative one is a flag and a width. *)
Definition star_width (x : Z) : Z := if x <? 0 then - x else x.
Definition star_flags (f x : Z) : Z := if x <? 0 then Z.lor f LEFT else f.

Lemma star_flags_sign f x : has f SIGN = false → has (star_flags f x) SIGN = false.
Proof. intros Hf. unfold star_flags. destruct (x <? 0); [|done]. by rewrite has_lor, Hf. Qed.

(** The rest of a directive behind the star of its width. *)
Lemma format_decode_width b fmt s p q c rest :
  type s = FORMAT_TYPE_WIDTH → - 2 ^ 15 < field_width s < 2 ^ 15 →
  cstr b fmt (prec_text p ++ mod_text q ++ conv_char c :: rest) → has (flags s) SIGN = false →
  match p with Count n => 0 ≤ n ≤ 32761 | _ => True end →
  ∃ s', format_decode b fmt s =
    Some (s', alen (prec_text p) + match p with Star => 0 | _ => alen (mod_text q) + conv_read c end) ∧
    match p with
    | Star => type s' = FORMAT_TYPE_PRECISION ∧ flags s' = star_flags (flags s) (field_width s) ∧
        field_width s' = star_width (field_width s)
    | _ => s' = conv_spec q c (star_flags (flags s) (field_width s)) (star_width (field_width s)) (count_val (-1) p)
    end.
Proof.
  intros Ht Hw H Hs Hp. unfold format_decode. rewrite Ht. cbv zeta. set (s1 := if field_width s <? 0 then _ else _).
  assert (Hf1 : flags s1 = star_flags (flags s) (field_width s)) by (subst s1; unfold star_flags; by destruct (field_width s <? 0)).
  assert (Hw1 : field_width s1 = star_width (field_width s)).
  { subst s1. unfold star_width. destruct (field_width s <? 0); [|done].
    cbn [or_flags set_field_width field_width]. apply s16_small. lia. }
  clearbody s1. rewrite (decode_precision_ok _ _ _ _ p q c rest); [|done|cbn [set_type flags]; rewrite Hf1; by apply star_flags_sign|done].
  cbn [set_type flags field_width]. rewrite Hf1, Hw1.
  destruct p; eexists; (split; [f_equal; f_equal; cbn [prec_text]; unfold alen; cbn [length]; lia|done]).
Qed.

(** The rest behind the star of the precision. *)
Lemma format_decode_prec b fmt s q c rest :
  type s = FORMAT_TYPE_PRECISION → - 2 ^ 15 ≤ precision s < 2 ^ 15 →
  cstr b fmt (mod_text q ++ conv_char c :: rest) → has (flags s) SIGN = false →
  format_decode b fmt s =
    Some (conv_spec q c (flags s) (field_width s) (Z.max 0 (precision s)), alen (mod_text q) + conv_read c).
Proof.
  intros Ht Hp H Hs. unfold format_decode. rewrite Ht. cbv zeta. set (s1 := if precision s <? 0 then _ else _).
  assert (Hf1 : flags s1 = flags s ∧ field_width s1 = field_width s) by (subst s1; by destruct (precision s <? 0)).
  assert (Hp1 : precision s1 = Z.max 0 (precision s)).
  { subst s1. destruct (Z.ltb_spec (precision s) 0); [change (precision (set_precision 0 s)) with 0|]; lia. }
  clearbody s1. destruct Hf1 as [Hf1 Hw1].
  rewrite (decode_qualifier_ok _ _ _ _ q c rest); [|done|cbn [set_type flags]; by rewrite Hf1].
  cbn [set_type flags field_width precision]. rewrite Hf1, Hw1, Hp1. do 2 f_equal. lia.
Qed.
