(* ===== verification/VsprintfFacts.v ===== *)
(** * Formatted output is the text of the format

    [vsnprintf] on a format made of literal text and directives stores the text that the
    directives stand for, as much of it as the size allows, and returns its length. *)

From S2P Require Import Prelude Words Strings StringsFacts Vsprintf VsprintfDigits VsprintfOut VsprintfFmt.
#[local] Open Scope Z_scope.
#[local] Open Scope kernel_scope.

(** ** The meaning of a format *)

(** The string at the start of an object. *)
Fixpoint cstring (b : list Z) : option (list Z) :=
  match b with
  | [] => None
  | c :: b => if c =? 0 then Some [] else if bool_decide (char c) then cons c <$> cstring b else None
  end.

Definition null_chars : list Z := [40; 110; 117; 108; 108; 41].

(** A pointer as eight hexadecimal digits, or as many as the width asks for. *)
Definition pointer_text (a : Z) (s : printf_spec) : list Z :=
  if a =? 0 then string_text null_chars s
  else
    let f := Z.lor (flags s) SMALL in
    if field_width s =? -1
    then number_text a (PrintfSpec (type s) (Z.lor f ZEROPAD) 16 (qualifier s) 8 (precision s))
    else number_text a (PrintfSpec (type s) f 16 (qualifier s) (field_width s) (precision s)).

(** The text of a conversion, its store through an argument of %n, and the arguments left. *)
Definition render_conv (c : conv) (s : printf_spec) (args : list va_value) (pos : Z) :
    option (list Z * list (Z * Z) * list va_value) :=
  match c with
  | Cc => '(x, args) ← va_word args; Some (char_text (u8 x) s, [], args)
  | Cs =>
      '(a, obj, args) ← va_ptr args;
      t ← (if a <? PAGE_SIZE then Some null_chars else cstring obj);
      if alen t <? 2 ^ 31 then Some (string_text t s, [], args) else None
  | Cp =>
      '(a, _, args) ← va_ptr args;
      if bool_decide (urange 32 a) then Some (pointer_text a s, [], args) else None
  | Cn => '(a, _, args) ← va_ptr args; Some ([], [(a, pos)], args)
  | Cpercent => Some ([37], [], args)
  | _ => '(num, args) ← va_num (type s) args; Some (number_text num s, [], args)
  end.

(** The arguments of stars come before the one of the conversion. *)
Definition render_width (w : count) (f : Z) (args : list va_value) : option (Z * Z * list va_value) :=
  match w with
  | Star =>
      '(x, args) ← va_word args;
      if bool_decide (- 2 ^ 15 < s32 x < 2 ^ 15) then Some (star_width (s32 x), star_flags f (s32 x), args) else None
  | _ => Some (count_val (-1) w, f, args)
  end.

Definition render_prec (p : count) (args : list va_value) : option (Z * list va_value) :=
  match p with
  | Star =>
      '(x, args) ← va_word args;
      if bool_decide (- 2 ^ 15 ≤ s32 x ≤ 32761) then Some (Z.max 0 (s32 x), args) else None
  | _ => Some (count_val (-1) p, args)
  end.

Definition render_dir (d : directive) (args : list va_value) (pos : Z) :
    option (list Z * list (Z * Z) * list va_value) :=
  '(w, f, args) ← render_width (d_width d) (flags_of (d_flags d)) args;
  '(p, args) ← render_prec (d_prec d) args;
  render_conv (d_conv d) (conv_spec (d_mod d) (d_conv d) f w p) args pos.

(** A format: directives with the text before each of them, and the text behind the last. *)
Fixpoint format_text (items : list (list Z * directive)) (tail : list Z) : list Z :=
  match items with
  | [] => tail
  | (t, d) :: items => t ++ directive_text d ++ format_text items tail
  end.

Definition literal (t : list Z) : Prop := Forall (λ c, char c ∧ c ≠ 37) t.

(** No letter or digit follows a %p: [vsnprintf] takes them for a part of it. *)
Definition no_alnum (t : list Z) : Prop := match t with [] => True | c :: _ => isalnum c = false end.

Fixpoint format_ok (items : list (list Z * directive)) (tail : list Z) : Prop :=
  match items with
  | [] => literal tail
  | (t, d) :: items =>
      literal t ∧ directive_ok d ∧ (d_conv d = Cp → no_alnum (format_text items tail)) ∧ format_ok items tail
  end.

(** The text that a format stands for and the stores of its %n. *)
Fixpoint render (items : list (list Z * directive)) (tail : list Z) (args : list va_value) (pos : Z) :
    option (list Z * list (Z * Z)) :=
  match items with
  | [] => Some (tail, [])
  | (t, d) :: items =>
      '(t1, nr1, args) ← render_dir d args (pos + alen t);
      '(t2, nr2) ← render items tail args (pos + alen (t ++ t1));
      Some (t ++ t1 ++ t2, nr1 ++ nr2)
  end.

(** What is left in a buffer of [size] bytes: as much of the text as fits before a null byte. *)
Definition stored (size : Z) (t m : list Z) : list Z :=
  if size =? 0 then m
  else let n := Z.to_nat (Z.min (alen t) (size - 1)) in take n t ++ 0 :: drop (S n) m.

(** ** The texts are bytes *)

Lemma cstring_cstr b t : cstring b = Some t → cstr b 0 t.
Proof.
  assert (H : ∀ b t p b0, cstring b = Some t → (∀ i, 0 ≤ i → b0.[p + i] = b.[i]) → cstr b0 p t).
  { clear. intros b. induction b as [|c b IH]; intros t p b0 H Hb; cbn [cstring] in H; [done|].
    pose proof (Hb 0 ltac:(lia)) as H0. rewrite Z.add_0_r in H0. change ((c :: b).[0]) with (Some c) in H0.
    destruct (Z.eqb_spec c 0) as [->|Hne]; [simplify_eq; done|].
    destruct (bool_decide (char c)) eqn:Ec; [apply bool_decide_eq_true in Ec|done].
    destruct (cstring b) as [t'|] eqn:E; [|done]. cbn in H. simplify_eq. cbn [cstr]. ands; [done|done|].
    apply IH; [done|]. intros i Hi. replace (p + 1 + i) with (p + (i + 1)) by lia. rewrite Hb by lia.
    unfold arr_get. destruct (Z.leb_spec 0 (i + 1)), (Z.leb_spec 0 i); try lia.
    by replace (Z.to_nat (i + 1)) with (S (Z.to_nat i)) by lia. }
  intros Ht. by apply (H b t 0 b).
Qed.

Lemma Forall_rep c n : urange 8 c → Forall (urange 8) (rep c n).
Proof. intros Hc. by apply Forall_replicate. Qed.

Lemma char_byte c : char c → urange 8 c.
Proof. unfold char, urange. lia. Qed.

Lemma number_text_bytes num s : number_spec s → urange 64 num → Forall (urange 8) (number_text num s).
Proof.
  intros (Hb & _ & _) Hn. unfold number_text. cbv zeta.
  assert (Hs : Forall (urange 8) (sign_text num s)) by (unfold sign_text; repeat case_match; by repeat constructor).
  assert (Hp : Forall (urange 8) (prefix_text s)) by (unfold prefix_text; repeat case_match; by repeat constructor).
  pose proof (magnitude_range num s Hn) as Hm.
  destruct (numval_text (base s) (has (flags s) SMALL) (magnitude num s)) as [_ Hd]; [lia|done|].
  eapply List.Forall_impl in Hd; [|intros c [_ Hc]; apply char_byte, Hc].
  repeat case_match; rewrite !Forall_app; ands; try done; by apply Forall_rep.
Qed.

Lemma string_text_bytes t s : Forall char t → Forall (urange 8) (string_text t s).
Proof.
  intros Ht. unfold string_text. cbv zeta.
  assert (H : Forall (urange 8) (if precision s <? 0 then t else take (Z.to_nat (precision s)) t)).
  { eapply (List.Forall_impl _ char_byte) in Ht. case_match; [done|by apply Forall_take]. }
  destruct (has (flags s) LEFT); apply Forall_app; split; try done; by apply Forall_rep.
Qed.

Lemma char_text_bytes c s : urange 8 c → Forall (urange 8) (char_text c s).
Proof.
  intros Hc. unfold char_text. cbv zeta. case_match; [constructor; [done|]|apply Forall_app; split; [|by apply Forall_singleton]];
    by apply Forall_rep.
Qed.

Lemma va_num_range ty args num args' : va_num ty args = Some (num, args') → urange 64 num.
Proof.
  intros H. assert (Hw : ∀ w x, 0 ≤ w ≤ 64 → urange 64 (uwrap w x)).
  { intros w x Hw. pose proof (urange_uwrap w x ltac:(lia)) as Hu. unfold urange in *.
    pose proof (Z.pow_le_mono_r 2 w 64 ltac:(lia) ltac:(lia)). lia. }
  unfold va_num in H. destruct ty.
  all: try (destruct (va_word args) as [[x a]|]; cbn in H; simplify_eq; by apply Hw).
  destruct (va_long args) as [[x a]|]; cbn in H; simplify_eq; by apply Hw.
Qed.

Lemma pointer_text_bytes a s :
  -1 ≤ field_width s < 2 ^ 15 ∧ -1 ≤ precision s ≤ 32761 → urange 32 a → Forall (urange 8) (pointer_text a s).
Proof.
  intros Hs Ha. unfold pointer_text. cbv zeta. destruct (a =? 0); [apply string_text_bytes; by repeat constructor|].
  destruct (Z.eqb_spec (field_width s) (-1)); (apply number_text_bytes; [unfold number_spec; cbn; ands; try lia; tauto|]);
    unfold urange in *; lia.
Qed.

(** ** One conversion *)

(** The specifications that directives give. *)
Definition conv_spec_ok (w p : Z) : Prop := -1 ≤ w < 2 ^ 15 ∧ -1 ≤ p ≤ 32761.

Lemma conv_number_spec q c f w p : conv_spec_ok w p → number_spec (conv_spec q c f w p).
Proof. intros (Hw & Hp). unfold number_spec. cbn. ands; try lia. destruct c; cbn; tauto. Qed.

Section Conversion.
Context (buf en : Z) (symbol_string resource_string : out → Z → list Z → printf_spec → Z → option out).

Abbreviation switch := (vsnprintf_switch buf en symbol_string resource_string).

Lemma char_ok o c s o' :
  -1 ≤ field_width s < 2 ^ 15 → puts buf en (char_text c s) o = Some o' →
  ∃ o1 fw1 o2 fw2,
    (if negb (has (flags s) LEFT) then pad buf en 1 32 o (field_width s) else Some (o, field_width s)) = Some (o1, fw1) ∧
    put buf en c o1 = Some o2 ∧ pad buf en 1 32 o2 fw1 = Some (o', fw2).
Proof.
  intros Hw. unfold char_text. cbv zeta. destruct (has (flags s) LEFT); cbn [negb]; intros H.
  - cbn [puts] in H. destruct (put buf en c o) as [o2|] eqn:E; [|done]. cbn in H.
    exists o, (field_width s), o2. rewrite pad_ok, H by lia. by eexists.
  - rewrite pad_ok by lia. rewrite puts_app in H. destruct (puts buf en _ o) as [o1|]; [|done]. cbn in H.
    destruct (put buf en c o1) as [o2|] eqn:E; [|done]. cbn in H. simplify_eq.
    exists o1, (Z.min (field_width s) 1 - 1), o'. rewrite pad_ok, rep_neg by lia. by eexists.
Qed.

(** The plain form of %p, which no letter or digit follows. *)
Lemma pointer_ok b fmt o a obj s rest :
  conv_spec_ok (field_width s) (precision s) → urange 32 a → cstr b fmt rest → no_alnum rest →
  pointer buf en symbol_string resource_string b fmt o a obj s = puts buf en (pointer_text a s) o.
Proof.
  intros (Hw & Hp) Ha H Hno. unfold pointer, pointer_text. destruct (Z.eqb_spec a 0) as [->|Hne].
  { apply (string_ok _ _ _ _ null_text); [unfold string_spec; lia|done|cbn; unfold char; ands; done || lia|done]. }
  assert (∃ c, b.[fmt] = Some c ∧ isalnum c = false) as (c & -> & Hc).
  { destruct rest as [|c rest]; cbn in H; [by exists 0|]. exists c. split; [apply H|done]. }
  cbn [mbind option_bind].
  assert (Hl : ∀ x, isalnum x = true → (c =? x) = false) by (intros x Hx; apply Z.eqb_neq; congruence).
  rewrite !Hl by done. cbn [orb].
  assert (Hs8 : s16 (2 * 4) = 8) by done. cbv zeta.
  cbn [or_flags field_width]. destruct (Z.eqb_spec (field_width s) (-1)) as [Hf|Hf].
  all: rewrite number_ok; [done|unfold number_spec; cbn; ands; try lia; tauto|unfold urange in *; lia].
Qed.

Lemma skip_alnum b fmt rest :
  cstr b fmt (112 :: rest) → no_alnum rest →
  loop (S (length b)) (λ fmt, c ← b.[fmt]; Some (if isalnum c then inl (fmt + 1) else inr fmt)) fmt = Some (fmt + 1).
Proof.
  intros H Hno. pose proof (cstr_bound _ _ _ H) as Hb. destruct H as (H0 & _ & H).
  assert (∃ c, b.[fmt + 1] = Some c ∧ isalnum c = false) as (c & H1 & Hc).
  { destruct rest as [|c rest]; cbn in H; [by exists 0|]. exists c. split; [apply H|done]. }
  destruct (length b) as [|n] eqn:E; [unfold alen in Hb; cbn [length] in Hb; lia|].
  rewrite loop_S, H0. cbn [mbind option_bind]. change (isalnum 112) with true. cbv iota.
  rewrite loop_S, H1. cbn [mbind option_bind]. by rewrite Hc.
Qed.

Lemma switch_int b old read fmt s q sg o args nr :
  type s = int_type q sg →
  switch b old read (fmt, s, o, args, nr) =
    ('(num, args) ← va_num (type s) args; o ← number buf en o num s; Some (fmt, s, o, args, nr)).
Proof. intros H. unfold vsnprintf_switch. rewrite H. by destruct q, sg. Qed.

Definition is_int (c : conv) : bool :=
  match c with Cd | Ci | Cu | Co | Cx | CX => true | _ => false end.

(** The branch of the [switch] for a conversion stores the text of the conversion. *)
Lemma switch_conv b old read fmt q c f w p o args nr pos t nr1 args1 o' rest :
  let s := conv_spec q c f w p in
  conv_spec_ok w p → render_conv c s args pos = Some (t, nr1, args1) → puts buf en t o = Some o' →
  snd o = buf + pos → 0 ≤ pos < 2 ^ 32 → (c = Cp → cstr b fmt (112 :: rest) ∧ no_alnum rest) →
  ∃ s', switch b old read (fmt, s, o, args, nr) = Some (fmt + (1 - conv_read c), s', o', args1, nr ++ nr1) ∧
    fresh s' ∧ Forall (urange 8) t.
Proof.
  intros s Hs Hr Hp Hpos Hp0 Hcp. assert (Hns : number_spec s) by (by apply conv_number_spec).
  assert (Hw : -1 ≤ field_width s < 2 ^ 15 ∧ -1 ≤ precision s ≤ 32761) by exact Hs.
  assert (Hty : type s = conv_type q c) by done. clearbody s. destruct (is_int c) eqn:Ei.
  { assert (Hty' : type s = int_type q (is_signed c)) by (rewrite Hty; by destruct c).
    assert (Hr' : ('(num, args) ← va_num (type s) args; Some (number_text num s, [], args)) = Some (t, nr1, args1)) by (by destruct c).
    rewrite (switch_int _ _ _ _ _ q (is_signed c)) by done.
    assert (conv_read c = 1) as -> by (by destruct c).
    destruct (va_num (type s) args) as [[num a]|] eqn:Ev; [|done]. cbn in Hr'. simplify_eq.
    cbn [mbind option_bind]. rewrite number_ok by (done || by eapply va_num_range). rewrite Hp. cbn [mbind option_bind].
    exists s. rewrite app_nil_r, Z.add_0_r. ands; [done|split; rewrite Hty'; by destruct q, (is_signed c)|].
    apply number_text_bytes; [done|by eapply va_num_range]. }
  unfold vsnprintf_switch. rewrite Hty.
  assert (Hfr : fresh s) by (split; rewrite Hty; by destruct c).
  destruct c; try done; cbn [render_conv conv_type conv_read] in *; rewrite ?Z.sub_diag, ?Z.add_0_r.
  - (* %c *) destruct (va_word args) as [[x a]|]; [|done]. cbn in Hr. simplify_eq.
    destruct (char_ok o (u8 x) s o' (proj1 Hw) Hp) as (o1 & fw1 & o2 & fw2 & -> & E2 & E3).
    cbn [mbind option_bind]. rewrite E2. cbn [mbind option_bind]. rewrite E3. cbn [mbind option_bind].
    eexists. rewrite app_nil_r. ands; [done|by split|]. by apply char_text_bytes, urange_uwrap.
  - (* %s *) destruct (va_ptr args) as [[[a obj] ar]|]; [|done]. cbn [mbind option_bind] in *.
    assert (Hss : string_spec s) by (unfold string_spec; lia).
    destruct (Z.ltb_spec a PAGE_SIZE) as [Hlt|Hge]; cbn [mbind option_bind] in Hr.
    + change (alen null_chars <? 2 ^ 31) with true in Hr. cbv iota in Hr. simplify_eq.
      rewrite string_null by done. fold null_chars. rewrite Hp. cbn [mbind option_bind].
      eexists. rewrite app_nil_r. ands; [done|done|]. apply string_text_bytes. repeat constructor; done.
    + destruct (cstring obj) as [t0|] eqn:Et; [|done]. cbn [mbind option_bind] in Hr. apply cstring_cstr in Et.
      destruct (Z.ltb_spec (alen t0) (2 ^ 31)); [|done]. simplify_eq.
      rewrite (string_ok _ _ _ _ obj t0) by done. rewrite Hp. cbn [mbind option_bind].
      eexists. rewrite app_nil_r. ands; [done|done|]. by apply string_text_bytes, (cstr_chars obj 0).
  - (* %p *) destruct (va_ptr args) as [[[a obj] ar]|]; [|done]. cbn [mbind option_bind] in *.
    destruct (bool_decide (urange 32 a)) eqn:Ea; [apply bool_decide_eq_true in Ea|done]. simplify_eq.
    destruct (Hcp eq_refl) as [Hc Hno]. rewrite (pointer_ok _ _ _ _ _ s rest) by (done || apply Hc). rewrite Hp. cbn [mbind option_bind].
    rewrite (skip_alnum b fmt rest) by done. cbn [mbind option_bind].
    eexists. rewrite app_nil_r, Z.sub_0_r. ands; [done|done|]. by apply pointer_text_bytes.
  - (* %n *) destruct (va_ptr args) as [[[a obj] ar]|]; [|done]. cbn in Hr. simplify_eq. cbn [mbind option_bind puts] in *. simplify_eq.
    eexists. ands; [|done|constructor]. rewrite Hpos, Z.add_simpl_l, uwrap_small by (unfold urange; lia). done.
  - (* %% *) simplify_eq. rewrite puts_1 in Hp. rewrite Hp. cbn [mbind option_bind].
    eexists. rewrite app_nil_r. ands; [done|done|]. by repeat constructor.
Qed.

(** ** One directive *)

Context (b : list Z).

Definition turn (st : Z * printf_spec * out * list va_value * list (Z * Z)) :=
  let '(fmt, _, _, _, _) := st in
  c ← b.[fmt];
  if ctrue c then st ← vsnprintf_step buf en symbol_string resource_string b st; Some (inl st) else Some (inr st).

Lemma turn_step c t fmt s o args nr s1 read st' :
  cstr b fmt (c :: t) → format_decode b fmt s = Some (s1, read) →
  switch b fmt read (fmt + read, s1, o, args, nr) = Some st' → turn (fmt, s, o, args, nr) = Some (inl st').
Proof.
  intros (H0 & Hc & _) Hd Hs. unfold turn. rewrite H0. cbn [mbind option_bind]. unfold char in Hc.
  replace (ctrue c) with true by (symmetry; apply ctrue_true; lia).
  unfold vsnprintf_step. rewrite Hd. cbn [mbind option_bind]. by rewrite Hs.
Qed.

(** The turn that reads the conversion character. *)
Lemma turn_conv c0 t0 fmt s q c f w p n o args nr pos t nr1 args1 o' rest :
  cstr b fmt (c0 :: t0) → cstr b (fmt + n) (conv_char c :: rest) →
  format_decode b fmt s = Some (conv_spec q c f w p, n + conv_read c) → conv_spec_ok w p →
  render_conv c (conv_spec q c f w p) args pos = Some (t, nr1, args1) → puts buf en t o = Some o' →
  snd o = buf + pos → 0 ≤ pos < 2 ^ 32 → (c = Cp → no_alnum rest) →
  ∃ s', turn (fmt, s, o, args, nr) = Some (inl (fmt + n + 1, s', o', args1, nr ++ nr1)) ∧ fresh s' ∧ Forall (urange 8) t.
Proof.
  intros H0 Hc Hd Hs Hr Hp Hpos Hp0 Hcp.
  destruct (switch_conv b fmt (n + conv_read c) (fmt + (n + conv_read c)) q c f w p o args nr pos t nr1 args1 o' rest)
    as (s' & Hsw & Hf & Ht); try done.
  { intros ->. cbn [conv_read]. rewrite Z.add_0_r. by auto. }
  exists s'. ands; [|done|done]. rewrite (turn_step c0 t0 _ _ _ _ _ _ _ _ H0 Hd Hsw). do 6 f_equal. lia.
Qed.

Definition runs (n : Z) st st' : Prop := ∃ k, nturns k turn st = Some (inl st') ∧ Z.of_nat k ≤ n.

Lemma runs_1 st st' : turn st = Some (inl st') → runs 1 st st'.
Proof. intros H. exists 1%nat. cbn [nturns]. rewrite H. done. Qed.

Lemma runs_trans n n' st st' st'' : runs n st st' → runs n' st' st'' → runs (n + n') st st''.
Proof. intros (k & H & Hk) (k' & H' & Hk'). exists (k + k')%nat. rewrite nturns_add, H. cbn. split; [done|lia]. Qed.

Lemma runs_le n n' st st' : runs n st st' → n ≤ n' → runs n' st st'.
Proof. intros (k & H & Hk) Hn. exists k. split; [done|lia]. Qed.

(** From the point where flags and width are known: [n] characters are read before the
    precision. *)
Lemma run_prec c0 t0 fmt s n q c f w o args nr pos p pv args0 t nr1 args1 o' rest :
  cstr b fmt (c0 :: t0) → cstr b (fmt + n) (prec_text p ++ mod_text q ++ conv_char c :: rest) →
  (∃ s1, format_decode b fmt s =
      Some (s1, n + (alen (prec_text p) + match p with Star => 0 | _ => alen (mod_text q) + conv_read c end)) ∧
    match p with
    | Star => type s1 = FORMAT_TYPE_PRECISION ∧ flags s1 = f ∧ field_width s1 = w
    | _ => s1 = conv_spec q c f w (count_val (-1) p)
    end) →
  has f SIGN = false → -1 ≤ w < 2 ^ 15 → match p with Count n => 0 ≤ n ≤ 32761 | _ => True end →
  render_prec p args = Some (pv, args0) →
  render_conv c (conv_spec q c f w pv) args0 pos = Some (t, nr1, args1) → puts buf en t o = Some o' →
  snd o = buf + pos → 0 ≤ pos < 2 ^ 32 → (c = Cp → no_alnum rest) →
  ∃ s', runs (1 + match p with Star => 1 | _ => 0 end) (fmt, s, o, args, nr)
      (fmt + n + alen (prec_text p) + alen (mod_text q) + 1, s', o', args1, nr ++ nr1) ∧
    fresh s' ∧ Forall (urange 8) t.
Proof.
  intros H0 H (s1 & Hd & Hs1) Hf Hw Hp Hrp Hrc Hpt Hpos Hp0 Hcp.
  pose proof (cstr_app _ _ _ _ H) as Hm. pose proof (cstr_app _ _ _ _ Hm) as Hc.
  assert (Hdone : p ≠ Star → ∃ s', runs 1 (fmt, s, o, args, nr)
      (fmt + n + alen (prec_text p) + alen (mod_text q) + 1, s', o', args1, nr ++ nr1) ∧ fresh s' ∧ Forall (urange 8) t).
  { intros Hns. assert (s1 = conv_spec q c f w pv ∧ args0 = args ∧ -1 ≤ pv ≤ 32761) as (-> & -> & Hpv)
      by (destruct p; cbn in Hrp, Hs1; simplify_eq; ands; try done; cbn; lia).
    destruct (turn_conv c0 t0 fmt s q c f w pv (n + alen (prec_text p) + alen (mod_text q)) o args nr pos t nr1 args1 o' rest)
      as (s' & Ht & Hfr & Hb); try done.
    - by rewrite !Z.add_assoc.
    - rewrite Hd. do 2 f_equal. destruct p; [lia|lia|done].
    - exists s'. ands; [|done|done]. apply runs_1. rewrite Ht. do 6 f_equal. lia. }
  destruct p as [|k|]; [by apply Hdone|by apply Hdone|]. clear Hdone. destruct Hs1 as (Hty & Hf1 & Hw1).
  cbn [render_prec] in Hrp. destruct (va_word args) as [[x a]|] eqn:Ea; [|done]. cbn [mbind option_bind] in Hrp.
  destruct (bool_decide (- 2 ^ 15 ≤ s32 x ≤ 32761)) eqn:Ex; [apply bool_decide_eq_true in Ex|done]. simplify_eq.
  set (s2 := set_precision (s32 x) s1).
  assert (Hp2 : precision s2 = s32 x) by (apply s16_small; lia).
  assert (Hsw : turn (fmt, s, o, args, nr) = Some (inl (fmt + n + alen (prec_text Star), s2, o, args0, nr))).
  { apply (turn_step c0 t0 _ _ _ _ _ _ _ _ H0 Hd). unfold vsnprintf_switch. rewrite Hty, Ea. cbn [mbind option_bind].
    do 5 f_equal. lia. }
  destruct (tail_head q c rest) as (c1 & tl & Eh & _).
  destruct (turn_conv c1 tl (fmt + n + alen (prec_text Star)) s2 q c (flags s1) (field_width s1) (Z.max 0 (s32 x)) (alen (mod_text q)) o args0 nr
    pos t nr1 args1 o' rest) as (s' & Ht & Hfr & Hb); try done.
  - by rewrite Eh in Hm.
  - rewrite <- Hp2. apply (format_decode_prec b _ s2 q c rest); [done|lia|done|done].
  - split; [done|lia].
  - exists s'. ands; [|done|done]. eapply runs_trans; [by apply runs_1|by apply runs_1].
Qed.

(** The turns that a directive takes; they are at most as many as its characters. *)
Lemma run_dir fmt s d o args nr pos t nr1 args1 o' rest :
  fresh s → cstr b fmt (directive_text d ++ rest) → directive_ok d → (d_conv d = Cp → no_alnum rest) →
  render_dir d args pos = Some (t, nr1, args1) → puts buf en t o = Some o' → snd o = buf + pos → 0 ≤ pos < 2 ^ 32 →
  ∃ s', runs (alen (directive_text d)) (fmt, s, o, args, nr) (fmt + alen (directive_text d), s', o', args1, nr ++ nr1) ∧
    fresh s' ∧ Forall (urange 8) t.
Proof.
  intros Hfr H Hok Hcp Hr Hpt Hpos Hp0. pose proof (format_decode_dir _ _ _ _ _ Hfr H Hok) as Hd. cbv zeta in Hd.
  destruct Hok as (_ & Hwd & Hpr).
  destruct d as [fl w p q c]; cbn [d_flags d_width d_prec d_mod d_conv] in *.
  set (dt := directive_text _) in *.
  assert (Hdt : dt = 37 :: fl ++ width_text w ++ prec_text p ++ mod_text q ++ [conv_char c]) by done. clearbody dt.
  assert (Hlen : alen dt = 1 + alen fl + alen (width_text w) + alen (prec_text p) + alen (mod_text q) + 1).
  { rewrite Hdt. unfold alen. cbn [length]. rewrite !length_app. cbn [length]. lia. }
  assert (H1 : cstr b (fmt + (1 + alen fl + alen (width_text w))) (prec_text p ++ mod_text q ++ conv_char c :: rest)).
  { rewrite Hdt in H. cbn [app] in H. rewrite <- !app_assoc in H. destruct H as (_ & _ & H).
    do 2 apply cstr_app in H. by rewrite !Z.add_assoc. }
  rewrite Hdt in H. cbn [app] in H. set (t0 := _ ++ rest) in H. clearbody t0. clear Hdt.
  unfold render_dir in Hr. cbn [d_flags d_width d_prec d_mod d_conv] in Hr.
  pose proof (alen_nonneg fl). pose proof (alen_nonneg (mod_text q)).
  assert (Hpl : match p with Star => alen (prec_text p) = 2 | _ => 0 ≤ alen (prec_text p) end) by (destruct p; [done|apply alen_nonneg|done]).
  destruct (render_width w (flags_of fl) args) as [[[w1 f1] args2]|] eqn:Ew; [|done]. cbn [mbind option_bind] in Hr.
  destruct (render_prec p args2) as [[pv args3]|] eqn:Ep; [|done]. cbn [mbind option_bind] in Hr.
  assert (Hns : w ≠ Star → ∃ s', runs (alen dt) (fmt, s, o, args, nr) (fmt + alen dt, s', o', args1, nr ++ nr1) ∧
    fresh s' ∧ Forall (urange 8) t).
  { intros Hns. assert (w1 = count_val (-1) w ∧ f1 = flags_of fl ∧ args2 = args) as (-> & -> & ->) by (by destruct w; cbn in Ew; simplify_eq).
    destruct (run_prec 37 t0 fmt s (1 + alen fl + alen (width_text w)) q c (flags_of fl) (count_val (-1) w) o args nr pos p pv args3
      t nr1 args1 o' rest) as (s' & Hrun & Hfr' & Hb); try done.
    - destruct w, p; try done; rewrite Hd; eexists; (split; [f_equal; f_equal; cbn [prec_text]; change (alen [46; 42]) with 2; lia|]);
        try done; ands; try done; cbn [set_type set_precision set_field_width field_width count_val]; rewrite s16_small; lia.
    - apply flags_of_sign.
    - destruct w; cbn; lia.
    - exists s'. ands; [|done|done]. apply (runs_le (1 + match p with Star => 1 | _ => 0 end)).
      2:{ pose proof (alen_nonneg (width_text w)). destruct p; lia. }
      replace (fmt + alen dt) with (fmt + (1 + alen fl + alen (width_text w)) + alen (prec_text p) + alen (mod_text q) + 1) by lia. done. }
  destruct w as [|k|]; [by apply Hns|by apply Hns|]. clear Hns.
  cbn [render_width] in Ew. destruct (va_word args) as [[x a]|] eqn:Ea; [|done]. cbn [mbind option_bind] in Ew.
  destruct (bool_decide (- 2 ^ 15 < s32 x < 2 ^ 15)) eqn:Ex; [apply bool_decide_eq_true in Ex|done]. simplify_eq.
  set (s2 := set_field_width (s32 x) (set_type FORMAT_TYPE_WIDTH (set_field_width (-1) (set_type FORMAT_TYPE_NONE (set_flags (flags_of fl) s))))).
  assert (Hw2 : field_width s2 = s32 x) by (apply s16_small; lia).
  set (n := 1 + alen fl + alen (width_text Star)) in *.
  assert (Hsw : turn (fmt, s, o, args, nr) = Some (inl (fmt + n, s2, o, args2, nr))).
  { apply (turn_step 37 t0 _ _ _ _ _ _ _ _ H Hd). unfold vsnprintf_switch. cbn [set_type type]. rewrite Ea. done. }
  destruct (tail_head q c rest) as (c1 & tl & Eh & _).
  assert (Hhd : ∃ c2 t2, prec_text p ++ mod_text q ++ conv_char c :: rest = c2 :: t2) by (rewrite Eh; destruct p; by eexists _, _).
  destruct Hhd as (c2 & t2 & Eh2).
  destruct (run_prec c2 t2 (fmt + n) s2 0 q c (star_flags (flags_of fl) (s32 x)) (star_width (s32 x)) o args2 nr pos p pv args3
    t nr1 args1 o' rest) as (s' & Hrun & Hfr' & Hb); try done.
  - by rewrite Eh2 in H1.
  - by rewrite Z.add_0_r.
  - rewrite <- Hw2. cbn [Z.add]. apply (format_decode_width b _ s2 p q c rest); [done|lia|done|apply flags_of_sign|done].
  - apply star_flags_sign, flags_of_sign.
  - unfold star_width. destruct (Z.ltb_spec (s32 x) 0); lia.
  - exists s'. ands; [|done|done]. eapply runs_le; [|].
    + replace (fmt + alen dt) with (fmt + n + 0 + alen (prec_text p) + alen (mod_text q) + 1) by lia.
      eapply runs_trans; [by apply runs_1|exact Hrun].
    + subst n. change (alen (width_text Star)) with 1 in *. destruct p; lia.
Qed.

(** ** A whole format *)

Lemma runs_refl st : runs 0 st st.
Proof. by exists 0%nat. Qed.

(** The text between two directives. *)
Lemma run_lit fmt s t o args nr o' rest :
  fresh s → cstr b fmt (t ++ rest) → literal t → lit_rest rest → room buf en o (alen t) → puts buf en t o = Some o' →
  ∃ s', runs (alen t) (fmt, s, o, args, nr) (fmt + alen t, s', o', args, nr) ∧ fresh s'.
Proof.
  intros Hfr H Ht Hr Hroom Hp. destruct (decide (t = [])) as [->|Hne].
  { cbn [puts] in Hp. simplify_eq. change (alen []) with 0. rewrite Z.add_0_r. exists s. split; [apply runs_refl|done]. }
  assert (H37 : Forall (λ c, c ≠ 37) t) by (eapply List.Forall_impl; [|exact Ht]; by intros ? []).
  pose proof (format_decode_lit _ _ _ _ _ Hfr H Hne H37 Hr) as Hd.
  assert (Hb : Forall (urange 8) t) by (eapply List.Forall_impl; [|exact Ht]; intros ? [Hc _]; by apply char_byte).
  assert (Hal : 1 ≤ alen t) by (destruct t; [done|unfold alen; cbn; lia]).
  destruct t as [|c t]; [done|]. cbn [app] in H. set (u := c :: t) in *.
  exists (set_type FORMAT_TYPE_NONE s). split; [|by split]. eapply runs_le; [apply runs_1|done].
  eapply turn_step; [exact H|exact Hd|]. unfold vsnprintf_switch. cbn [set_type type]. destruct o as [m str].
  pose proof (copy_ok buf en m str b fmt u Hb Hroom) as Hcp.
  change (c :: t ++ rest) with (u ++ rest) in H. pose proof (cstr_bound _ _ _ H) as Hbd. rewrite alen_app in Hbd.
  pose proof (alen_nonneg rest). rewrite Hp in Hcp.
  specialize (Hcp ltac:(lia)). destruct (if str <? en then _ else Some m) as [m'|]; cbn [mbind option_bind] in *.
  - f_equal. f_equal. f_equal. f_equal. assert (Some (m', u32 (str + alen u)) = Some o') as E; [|by simplify_eq].
    apply Hcp; [|lia]. intros i Hi. rewrite (cstr_get _ _ _ _ H) by (rewrite alen_app; lia).
    rewrite arr_get_app by lia. by rewrite decide_True by lia.
  - exfalso. assert (None = Some o') as E; [|done]. apply Hcp; [|lia]. intros i Hi.
    rewrite (cstr_get _ _ _ _ H) by (rewrite alen_app; lia). rewrite arr_get_app by lia. by rewrite decide_True by lia.
Qed.

Lemma literal_bytes t : literal t → Forall (urange 8) t.
Proof. intros Ht. eapply List.Forall_impl; [|exact Ht]. intros ? [Hc _]. by apply char_byte. Qed.

(** The turns for a format; they are at most as many as its characters. *)
Lemma run_format items tail fmt s o args nr pos t nr1 :
  fresh s → cstr b fmt (format_text items tail) → format_ok items tail → render items tail args pos = Some (t, nr1) →
  room buf en o (alen t) → snd o = buf + pos → 0 ≤ pos →
  ∃ s' o' args', runs (alen (format_text items tail)) (fmt, s, o, args, nr)
      (fmt + alen (format_text items tail), s', o', args', nr ++ nr1) ∧
    puts buf en t o = Some o' ∧ Forall (urange 8) t.
Proof.
  revert fmt s o args nr pos t nr1.
  induction items as [|[lit d] items IH]; intros fmt s o args nr pos t nr1 Hfr H Hok Hr Hroom Hpos Hp0; cbn [format_text format_ok render] in *.
  - simplify_eq. destruct (puts_room buf en t 0 o) as (o' & Hp & _); [by rewrite Z.add_0_r|lia|].
    destruct (run_lit fmt s t o args nr o' []) as (s' & Hrun & _); try done; [by rewrite app_nil_r|by left|].
    exists s', o', args. rewrite app_nil_r. ands; [done|done|by apply literal_bytes].
  - destruct Hok as (Hlit & Hdok & Hcp & Hok).
    destruct (render_dir d args (pos + alen lit)) as [[[t1 nr2] args1]|] eqn:Ed; [|done]. cbn [mbind option_bind] in Hr.
    destruct (render items tail args1 (pos + alen (lit ++ t1))) as [[t2 nr3]|] eqn:Er; [|done]. cbn in Hr. simplify_eq.
    rewrite !alen_app in Hroom. pose proof (alen_nonneg t1). pose proof (alen_nonneg t2). pose proof (alen_nonneg lit).
    destruct (puts_room buf en lit (alen t1 + alen t2) o) as (o1 & Hp1 & Hr1 & Hs1 & _); [done|lia|].
    destruct (puts_room buf en t1 (alen t2) o1) as (o2 & Hp2 & Hr2 & Hs2 & _); [done|lia|].
    destruct (run_lit fmt s lit o args nr o1 (directive_text d ++ format_text items tail)) as (s1 & Hrun1 & Hf1); try done.
    { right. by eexists. }
    { destruct Hroom as (?&?&?). unfold room. lia. }
    apply cstr_app in H.
    destruct (run_dir (fmt + alen lit) s1 d o1 args nr (pos + alen lit) t1 nr2 args1 o2 (format_text items tail)) as (s2 & Hrun2 & Hf2 & Hb1); try done; [lia| |].
    { destruct Hr1 as (?&?&?). lia. }
    apply cstr_app in H.
    destruct (IH (fmt + alen lit + alen (directive_text d)) s2 o2 args1 (nr ++ nr2) (pos + alen (lit ++ t1)) t2 nr3)
      as (s' & o' & args' & Hrun3 & Hp3 & Hb2); try done; [rewrite alen_app; lia|rewrite alen_app; lia|].
    exists s', o', args'. ands.
    + rewrite !alen_app, !Z.add_assoc, app_assoc. eapply runs_trans; [eapply runs_trans; eassumption|done].
    + rewrite puts_app, Hp1, Some_bind, puts_app, Hp2, Some_bind. done.
    + rewrite !Forall_app. ands; [by apply literal_bytes|done|done].
Qed.
End Conversion.

(** ** [vsnprintf] *)

Lemma loop_runs {S R} f k (step : S → option (S + R)) s s' :
  nturns k step s = Some (inl s') → (k ≤ f)%nat → loop f step s = loop (f - k) step s'.
Proof.
  revert f s. induction k as [|k IH]; intros f s H Hf; [cbn in H; simplify_eq; by rewrite Nat.sub_0_r|].
  destruct f as [|f]; [lia|]. rewrite loop_S. cbn [nturns] in H. destruct (step s) as [[s1|]|]; try done.
  cbn [mbind option_bind] in *. apply IH; [done|lia].
Qed.

Section Result.
Context (symbol_string resource_string : Z → Z → out → Z → list Z → printf_spec → Z → option out).

Lemma vsnprintf_loop_ok buf en b fmt items tail m args t nr :
  cstr b fmt (format_text items tail) → format_ok items tail → render items tail args 0 = Some (t, nr) →
  room buf en (m, buf) (alen t) →
  ∃ fmt' s' m' args', vsnprintf_loop buf en (symbol_string buf en) (resource_string buf en) b fmt (m, buf) args =
      Some (fmt', s', (m', buf + alen t), args', nr) ∧ alen m' = alen m ∧
    ∀ i, m'.[i] = if decide (0 ≤ i < alen t ∧ i < en - buf) then t.[i] else m.[i].
Proof.
  intros H Hok Hr Hroom.
  destruct (run_format buf en (symbol_string buf en) (resource_string buf en) b items tail fmt (PrintfSpec FORMAT_TYPE_NONE 0 0 0 0 0)
    (m, buf) args [] 0 t nr) as (s' & o' & args' & (k & Hk & Hle) & Hp & Hb); try done; [cbn; lia|].
  destruct (puts_spec buf en t m buf Hb Hroom) as (m' & Hp' & Hl & Hg). rewrite Hp' in Hp. simplify_eq.
  exists (fmt + alen (format_text items tail)), s', m', args'. ands; [|done|].
  - unfold vsnprintf_loop. pose proof (cstr_fuel _ _ _ H) as Hf. unfold alen in Hle.
    rewrite (loop_runs _ k _ _ _ Hk) by lia.
    destruct (S (2 * length b) - k)%nat as [|f] eqn:E; [lia|]. rewrite loop_S.
    match goal with |- (turn _ _ _ _ _ ?st ≫= _) = _ => assert (turn buf en (symbol_string buf en) (resource_string buf en) b st = Some (inr st)) as -> end; [|done].
    unfold turn. by rewrite (cstr_end _ _ _ H).
  - intros i. rewrite Hg, Z.sub_diag, Z.add_0_l, Z.sub_0_r. done.
Qed.

(** The format at [fmt] with the arguments stands for the text [t] and the stores [nr]. *)
Definition prints (b : list Z) (fmt : Z) (args : list va_value) (t : list Z) (nr : list (Z * Z)) : Prop :=
  ∃ items tail, cstr b fmt (format_text items tail) ∧ format_ok items tail ∧ render items tail args 0 = Some (t, nr).

Lemma vsnprintf_ok m buf size b fmt args t nr :
  prints b fmt args t nr → 0 ≤ size < 2 ^ 31 → 0 ≤ buf ∧ buf + alen t < 2 ^ 32 - 1 → alen t < 2 ^ 31 →
  Z.min size (alen t + 1) ≤ alen m →
  vsnprintf symbol_string resource_string m buf size b fmt args = Some (stored size t m, alen t, nr).
Proof.
  intros (items & tail & Hfmt & Hok & Ht) Hsize Hbuf Hlen Hroom.
  unfold vsnprintf. rewrite s32_small by lia. destruct (Z.ltb_spec size 0); [lia|]. cbv zeta.
  pose proof (alen_nonneg t) as Ht0.
  set (p := if u32 (buf + size) <? buf then _ else _).
  assert (∃ en size', p = (en, size') ∧ size' = en - buf ∧ 0 ≤ size' ≤ size ∧ (size' = size ∨ alen t < size') ∧ en < 2 ^ 32)
    as (en & size' & -> & Hsz & Hs0 & Hs1 & Hen).
  { subst p. destruct (decide (buf + size < 2 ^ 32)).
    - rewrite uwrap_small by (unfold urange; lia). destruct (Z.ltb_spec (buf + size) buf); [lia|]. eexists _, _; split; [done|]. lia.
    - assert (u32 (buf + size) = buf + size - 2 ^ 32) as ->.
      { unfold uwrap. symmetry. apply (Z.mod_unique_pos _ _ 1); lia. }
      destruct (Z.ltb_spec (buf + size - 2 ^ 32) buf); [|lia]. eexists _, _; split; [done|]. lia. }
  destruct (vsnprintf_loop_ok buf en b fmt items tail m args t nr) as (fmt' & s' & m' & args' & -> & Hl & Hg); try done.
  { unfold room. cbn. lia. }
  cbn [mbind option_bind]. rewrite Z.add_simpl_l, s32_small by lia.
  set (r := if size' >? 0 then _ else _).
  assert (r = Some (stored size t m)) as ->; [|done]. subst r. unfold stored.
  destruct (Z.eqb_spec size 0) as [Hz|Hz].
  - destruct (size' >? 0) eqn:E; [lia|]. f_equal. apply arr_ext; [done|]. intros i Hi. rewrite Hg. by rewrite decide_False by lia.
  - destruct (size' >? 0) eqn:E; [|lia]. set (n := Z.min (alen t) (size - 1)).
    assert ((if buf + alen t <? en then m'.[alen t <- 0] else m'.[en - 1 - buf <- 0]) = m'.[n <- 0]) as ->.
    { destruct (Z.ltb_spec (buf + alen t) en); f_equal; lia. }
    rewrite arr_set_lt by lia. f_equal. cbv zeta.
    assert (Hln : alen (take (Z.to_nat n) t) = n) by (apply alen_take; lia).
    assert (Hcons : ∀ l i, 0 ≤ i → (0 :: l).[i] = if decide (i = 0) then Some 0 else l.[i - 1]).
    { intros l i Hi. unfold arr_get. destruct (Z.leb_spec 0 i); [|lia]. case_decide; [by subst|].
      destruct (Z.leb_spec 0 (i - 1)); [|lia]. by replace (Z.to_nat i) with (S (Z.to_nat (i - 1))) by lia. }
    replace (S (Z.to_nat n)) with (Z.to_nat (n + 1)) by lia.
    apply arr_ext.
    + rewrite alen_insert, alen_app, Hln. change (0 :: ?l) with ([0] ++ l). rewrite alen_app, alen_drop by lia.
      change (alen [0]) with 1. lia.
    + intros i Hi. rewrite alen_insert in Hi. rewrite arr_get_insert, Hg, arr_get_app, Hln by lia.
      destruct (decide (i < n)) as [H1|H1].
      * rewrite decide_False by lia. rewrite decide_True, arr_get_take by lia. done.
      * rewrite Hcons by lia. destruct (decide (i = n)) as [->|H2]; [by rewrite decide_True by lia|].
        rewrite !decide_False by lia. rewrite arr_get_drop by lia. f_equal. lia.
Qed.
End Result.
