(* ===== verification/VsprintfRound.v ===== *)
(** * Printing and parsing

    What [vscnprintf] and its kin return, numbers printed by [snprintf] and read back by the
    strict parsers, and the wrap-around of the counters of [number]. *)

From S2P Require Import Prelude Words Strings StringsFacts Vsprintf VsprintfDigits VsprintfOut VsprintfFmt VsprintfFacts.
#[local] Open Scope Z_scope.
#[local] Open Scope kernel_scope.

(** ** The buffer as a string *)

(** A text that fits is in the buffer as a string. *)
Lemma stored_cstr size t m : Forall char t → alen t < size → cstr (stored size t m) 0 t.
Proof.
  intros Ht Hs. pose proof (alen_nonneg t). unfold stored. destruct (Z.eqb_spec size 0); [lia|]. cbv zeta.
  replace (Z.min (alen t) (size - 1)) with (alen t) by lia. rewrite take_ge by (unfold alen; lia).
  apply cstr_intro; [done| |].
  - intros i Hi. rewrite Z.add_0_l, arr_get_app by lia. by rewrite decide_True by lia.
  - rewrite Z.add_0_l, arr_get_app by lia. rewrite decide_False by lia. by rewrite Z.sub_diag.
Qed.

(** ** The printf family *)

Section Family.
Context (symbol_string resource_string : Z → Z → out → Z → list Z → printf_spec → Z → option out).

Lemma clip_ok n size : 0 ≤ size < 2 ^ 31 → 0 ≤ n < 2 ^ 31 - 1 → clip n size = Z.min n (size - 1).
Proof. intros. unfold clip. rewrite !uwrap_small by (unfold urange; lia). destruct (n >=? size) eqn:E; [rewrite s32_small by lia|]; lia. Qed.

Lemma scnprintf_ok m buf size b fmt args t nr :
  prints b fmt args t nr → 0 ≤ size < 2 ^ 31 → 0 ≤ buf ∧ buf + alen t < 2 ^ 32 - 1 → alen t < 2 ^ 31 - 1 →
  Z.min size (alen t + 1) ≤ alen m →
  scnprintf symbol_string resource_string m buf size b fmt args = Some (stored size t m, Z.min (alen t) (size - 1), nr).
Proof.
  intros. pose proof (alen_nonneg t). unfold scnprintf, vscnprintf.
  rewrite (vsnprintf_ok symbol_string resource_string m buf size b fmt args t nr) by (done || lia). cbn [mbind option_bind].
  by rewrite clip_ok by lia.
Qed.

End Family.

(** "%-4d|%#06x%s", of which the buffer of 10 bytes holds the first nine characters. *)
Definition family_fmt : list Z := [37; 45; 52; 100; 124; 37; 35; 48; 54; 120; 37; 115; 0].
Definition family_items : list (list Z * directive) :=
  [([], Directive [45] (Count 4) NoCount QNone Cd);
   ([124], Directive [35; 48] (Count 6) NoCount QNone Cx);
   ([], Directive [] NoCount NoCount QNone Cs)].
Definition family_args : list va_value := [VWord (-7); VWord 0xab; VPtr 0xc0000000 [111; 107; 0]].


(** ** Numbers printed and read back *)

(** The numeral of a 64-bit number in base 8 or above has at most 22 digits. *)
Lemma alen_numeral_22 base small n : 8 ≤ base → urange 64 n → 1 ≤ alen (numeral_text base small n) ≤ 22.
Proof.
  intros Hb Hn. unfold numeral_text, numeral_rev. rewrite alen_reverse. unfold alen. rewrite length_fmap.
  assert (Hlt : 0 ≤ n < base ^ Z.of_nat 22).
  { unfold urange in Hn. change (Z.of_nat 22) with 22. pose proof (Z.pow_le_mono_l 8 base 22).
    assert (2 ^ 64 < 8 ^ 22) by done. lia. }
  rewrite (digs_fuel 22 64) by lia. pose proof (length_digs 22 base n). rewrite digs_step in *. cbn [length] in *. lia.
Qed.

Lemma numval_cons0 base ds : numval base (48 :: ds) = numval base ds.
Proof. done. Qed.

(** The first digit is 0 only for the number zero. *)
Lemma numeral_first n :
  urange 64 n → (n = 0 ∧ numeral_text 10 false n = [48]) ∨ (∃ c ds, numeral_text 10 false n = c :: ds ∧ c ≠ 48).
Proof.
  intros Hn. destruct (decide (n = 0)) as [->|Hz]; [by left|]. right.
  destruct (digs_last 64%nat n) as (l & d & E & Hd).
  { unfold urange in Hn. change (Z.of_nat 64) with 64. assert (2 ^ 64 < 10 ^ 64) by done. lia. }
  unfold numeral_text, numeral_rev. rewrite E, fmap_app, reverse_app. eexists _, _; split; [reflexivity|].
  unfold dchar. destruct (d <? 10); lia.
Qed.

(** The field of an unsigned conversion with the flag #, no width and no precision. *)
Definition plain_text (c : conv) (n : Z) : list Z :=
  match c with
  | Co => 48 :: numeral_text 8 false n
  | Cx => 48 :: 120 :: numeral_text 16 true n
  | CX => 48 :: 88 :: numeral_text 16 false n
  | _ => numeral_text 10 false n
  end.

Lemma plain_number_text c n :
  c = Cu ∨ c = Co ∨ c = Cx ∨ c = CX → number_text n (conv_spec Qll c (flags_of [35]) (-1) (-1)) = plain_text c n.
Proof.
  intros Hc. unfold number_text. cbv zeta. change (precision _) with (-1). change (field_width _) with (-1).
  set (ds := numeral_text _ _ _). pose proof (alen_nonneg ds). rewrite (rep_neg 48 (-1 - alen ds)) by lia.
  match goal with |- context [-1 - alen ?l] => pose proof (alen_nonneg l); rewrite !(rep_neg _ (-1 - alen l)) by lia end. subst ds.
  destruct Hc as [->|[->|[->| ->]]]; cbn -[numeral_text]; by rewrite ?app_nil_r.
Qed.

(** The texts of the numbers are numerals, of the base that a parser guesses too. *)
Lemma plain_numeral c n base :
  c = Cu ∨ c = Co ∨ c = Cx ∨ c = CX → urange 64 n → base = 0 ∨ base = conv_base c →
  Forall char (plain_text c n) ∧ 1 ≤ alen (plain_text c n) ≤ 24 ∧ numeral (base_of base (plain_text c n)) (plain_text c n) n.
Proof.
  intros Hc Hn Hb.
  assert (Hd : ∀ base small, 8 ≤ base ≤ 16 → numval base (numeral_text base small n) = n ∧
    Forall char (numeral_text base small n) ∧ Forall (λ c, is_dig base c = true) (numeral_text base small n) ∧
    1 ≤ alen (numeral_text base small n) ≤ 22 ∧ ∃ c0 ds, numeral_text base small n = c0 :: ds ∧ is_dig base c0 = true ∧ char c0).
  { intros base0 small Hb0. destruct (numval_text base0 small n) as [Hv HF]; [lia|done|].
    pose proof (alen_numeral_22 base0 small n ltac:(lia) Hn) as Hal. ands; try done; try lia.
    - eapply List.Forall_impl; [|exact HF]. by intros ? [].
    - eapply List.Forall_impl; [|exact HF]. by intros ? [].
    - destruct (numeral_text base0 small n) as [|c0 ds]; [change (alen []) with 0 in Hal; lia|].
      apply list.Forall_cons in HF as [[H1 H2] _]. by exists c0, ds. }
  assert (Hcons : ∀ (c : Z) l, alen (c :: l) = 1 + alen l) by (intros; unfold alen; cbn [length]; lia).
  destruct Hc as [->|[->|[->| ->]]]; cbn [plain_text conv_base] in *.
  - destruct (Hd 10 false) as (Hv & Hch & Hdg & Hal & _); [lia|]. ands; [done|lia|lia|].
    destruct Hb as [->| ->]; [|].
    + destruct (numeral_first n Hn) as [[-> E]|(c0 & ds & E & Hne)].
      * rewrite E. exists [], [48], []. ands; try done; [by left|by repeat constructor|by left].
      * assert (base_of 0 (numeral_text 10 false n) = 10) as ->.
        { rewrite E. cbn. destruct c0 as [|x|x]; try done. do 6 (destruct x as [x|x|]; try done). }
        exists [], (numeral_text 10 false n), []. rewrite app_nil_r. ands; try done; [by left|by rewrite E|by left].
    + exists [], (numeral_text 10 false n), []. rewrite app_nil_r.
      destruct (Hd 10 false) as (_ & _ & _ & _ & c0 & ds & E & _); [lia|].
      ands; try done; [by left|by rewrite E|by left].
  - destruct (Hd 8 false) as (Hv & Hch & Hdg & Hal & c0 & ds & E & Hc0 & Hch0); [lia|]. rewrite Hcons. ands; [by constructor|lia|lia|].
    assert (base_of base (48 :: numeral_text 8 false n) = 8) as ->.
    { destruct Hb as [->| ->]; [|done]. rewrite E. cbn. rewrite TOLOWER_x by done.
      assert (Hx := byte_all (λ c, negb (is_dig 8 c) || negb ((c =? 120) || (c =? 88))) eq_refl c0 ltac:(unfold char in Hch0; lia)).
      cbv beta in Hx. rewrite Hc0 in Hx. apply negb_true_iff in Hx. rewrite Hx. by destruct ds. }
    exists [], (48 :: numeral_text 8 false n), []. rewrite app_nil_r. ands; try done; [by left|by constructor|by left].
  - destruct (Hd 16 true) as (Hv & Hch & Hdg & Hal & c0 & ds & E & Hc0 & Hch0); [lia|]. rewrite !Hcons. ands; [by repeat constructor|lia|lia|].
    assert (base_of base (48 :: 120 :: numeral_text 16 true n) = 16) as ->.
    { destruct Hb as [->| ->]; [|done]. rewrite E. cbn. apply andb_true_iff in Hc0 as [-> _]. done. }
    exists [48; 120], (numeral_text 16 true n), []. rewrite app_nil_r. ands; try done; [by right; auto|by left].
  - destruct (Hd 16 false) as (Hv & Hch & Hdg & Hal & c0 & ds & E & Hc0 & Hch0); [lia|]. rewrite !Hcons. ands; [by repeat constructor|lia|lia|].
    assert (base_of base (48 :: 88 :: numeral_text 16 false n) = 16) as ->.
    { destruct Hb as [->| ->]; [|done]. rewrite E. cbn. apply andb_true_iff in Hc0 as [-> _]. done. }
    exists [48; 88], (numeral_text 16 false n), []. rewrite app_nil_r. ands; try done; [by right; auto|by left].
Qed.

(** The strict parser on a numeral. *)
Lemma strict_numeral b p t base n :
  cstr b p t → numeral (base_of base t) t n → urange 64 n → strict_strtoull b p base = Some (0, n).
Proof.
  intros Hc Hn Hr. unfold strict_strtoull.
  destruct (strict_ok 64 simple_strtoull strtoull_ok b p t base Hc) as [(v & Hv & ->)|(Hno & _)]; [|by destruct (Hno n)].
  pose proof (λ v, numeral_iff (base_of base t) t v (cstr_chars _ _ _ Hc)) as Hiff.
  apply Hiff in Hv as (? & _ & _ & _ & ->). apply Hiff in Hn as (? & _ & _ & _ & ->). by rewrite uwrap_small.
Qed.

(** The format of one directive. *)
Definition one_fmt (d : directive) : list Z := directive_text d ++ [0].

Lemma one_fmt_prints d args t nr args' :
  directive_ok d → Forall char (directive_text d) → render_dir d args 0 = Some (t, nr, args') → prints (one_fmt d) 0 args t nr.
Proof.
  intros Hd Hch Hr. exists [([], d)], []. cbn [format_text format_ok render app]. rewrite !app_nil_r. ands.
  - by apply cstr_snoc.
  - constructor.
  - done.
  - done.
  - constructor.
  - change (0 + alen []) with 0. rewrite Hr. cbn. by rewrite !app_nil_r.
Qed.

Lemma render_llong c f w p n pos :
  is_int c = true → urange 64 n →
  render_conv c (conv_spec Qll c f w p) [VLong n] pos = Some (number_text n (conv_spec Qll c f w p), [], []).
Proof. intros Hc Hn. rewrite <- (uwrap_small 64 n) at 2 by done. by destruct c. Qed.

Definition signed_text (n : Z) : list Z :=
  if s64 n <? 0 then 45 :: numeral_text 10 false (- s64 n) else numeral_text 10 false n.

Lemma signed_number_text n : number_text n (conv_spec Qll Cd 0 (-1) (-1)) = signed_text n.
Proof.
  unfold number_text, signed_text. cbv zeta. change (precision _) with (-1). change (field_width _) with (-1).
  set (ds := numeral_text _ _ _). pose proof (alen_nonneg ds). rewrite (rep_neg 48 (-1 - alen ds)) by lia.
  match goal with |- context [-1 - alen ?l] => pose proof (alen_nonneg l); rewrite !(rep_neg _ (-1 - alen l)) by lia end. subst ds.
  unfold sign_text, magnitude. cbn -[numeral_text s64 Z.ltb]. by destruct (s64 n <? 0).
Qed.

Lemma s64_small x : - 2 ^ 63 ≤ x < 2 ^ 63 → s64 x = x.
Proof. intros Hx. unfold s64, uwrap. destruct (Z.ltb_spec (x mod 2 ^ 64) (2 ^ 63)); Z.to_euclidean_division_equations; lia. Qed.

(** The signed text is read back by [strict_strtoll]. *)
Lemma strict_signed b n :
  urange 64 n → cstr b 0 (signed_text n) → strict_strtoll b 0 10 = Some (0, s64 n).
Proof.
  intros Hn H. unfold signed_text in H. pose proof (s64_range n) as Hs.
  set (v := if s64 n <? 0 then - s64 n else n).
  assert (Hv : urange 64 v) by (subst v; unfold urange in *; destruct (Z.ltb_spec (s64 n) 0); lia).
  destruct (plain_numeral Cu v 10) as (_ & _ & Hnum); [by left|done|by right|]. cbn [plain_text] in Hnum.
  unfold strict_strtoll. subst v. destruct (Z.ltb_spec (s64 n) 0).
  - destruct H as (-> & _ & H). cbn [mbind option_bind Z.eqb Pos.eqb]. rewrite Z.add_0_l in *.
    rewrite (strict_numeral _ _ _ _ _ H Hnum Hv). cbn [mbind option_bind Z.eqb]. by rewrite Z.opp_involutive, s64_small.
  - destruct (numval_text 10 false n) as [_ HF]; [lia|done|]. pose proof (alen_numeral_22 10 false n ltac:(lia) Hn) as Hal.
    assert (∃ c, b.[0] = Some c ∧ (c =? 45) = false) as (c & -> & Hc).
    { destruct (numeral_text 10 false n) as [|c ds]; [change (alen []) with 0 in Hal; lia|]. exists c. split; [apply H|].
      apply list.Forall_cons in HF as [[Hd _] _]. apply Z.eqb_neq. by intros ->. }
    cbn [mbind option_bind]. rewrite Hc, (strict_numeral _ _ _ _ _ H Hnum Hv). done.
Qed.

Lemma signed_text_chars n : urange 64 n → Forall char (signed_text n) ∧ alen (signed_text n) ≤ 23.
Proof.
  intros Hn. unfold signed_text. pose proof (s64_range n) as Hs. unfold urange in Hn.
  assert (H : ∀ v, urange 64 v → Forall char (numeral_text 10 false v) ∧ alen (numeral_text 10 false v) ≤ 22).
  { intros v Hv. destruct (numval_text 10 false v) as [_ HF]; [lia|done|]. pose proof (alen_numeral_22 10 false v ltac:(lia) Hv).
    split; [|lia]. eapply List.Forall_impl; [|exact HF]. by intros ? []. }
  destruct (Z.ltb_spec (s64 n) 0).
  - destruct (H (- s64 n)) as [H1 H2]; [unfold urange; lia|]. split; [by constructor|]. unfold alen in *. cbn [length]. lia.
  - destruct (H n) as [H1 H2]; [done|]. split; [done|lia].
Qed.

Section RoundTrip.
Context (symbol_string resource_string : Z → Z → out → Z → list Z → printf_spec → Z → option out).

(** C13: what [snprintf] prints of a 64-bit number with %#llu, %#llo, %#llx or %#llX,
    [strict_strtoull] reads back from the buffer as that number, in the base of the conversion
    and in the base it guesses, and what it prints of one with %lld, [strict_strtoll] reads
    back as the signed number, in every buffer of 25 bytes or more. *)
Theorem print_parse_roundtrip (m : list Z) (buf size n : Z)
  (Hn : urange 64 n) (Hsize : 25 ≤ size < 2 ^ 31) (Hm : size ≤ alen m) (Hbuf : 0 ≤ buf < 2 ^ 32 - 26) :
  (∀ c, c = Cu ∨ c = Co ∨ c = Cx ∨ c = CX →
    ∃ m' r, snprintf symbol_string resource_string m buf size (one_fmt (Directive [35] NoCount NoCount Qll c)) 0 [VLong n] =
        Some (m', r, []) ∧
      strict_strtoull m' 0 (conv_base c) = Some (0, n) ∧ strict_strtoull m' 0 0 = Some (0, n)) ∧
  ∃ m' r, snprintf symbol_string resource_string m buf size (one_fmt (Directive [] NoCount NoCount Qll Cd)) 0 [VLong n] =
      Some (m', r, []) ∧ strict_strtoll m' 0 10 = Some (0, s64 n).
Proof.
  unfold snprintf. split.
  - intros c Hc. destruct (plain_numeral c n 0 Hc Hn) as (Hch & Hal & Hn0); [by left|].
    destruct (plain_numeral c n (conv_base c) Hc Hn) as (_ & _ & Hnb); [by right|].
    exists (stored size (plain_text c n) m), (alen (plain_text c n)).
    assert (Hs : cstr (stored size (plain_text c n) m) 0 (plain_text c n)) by (apply stored_cstr; [done|lia]).
    ands; [|by eapply strict_numeral|by eapply strict_numeral].
    apply vsnprintf_ok; try lia. apply (one_fmt_prints _ _ _ _ []).
    + split; [|done]. by repeat constructor.
    + destruct Hc as [->|[->|[->| ->]]]; by repeat constructor.
    + unfold render_dir. cbn [d_flags d_width d_prec d_mod d_conv render_width render_prec count_val mbind option_bind].
      rewrite render_llong, plain_number_text by (done || by destruct Hc as [->|[->|[->| ->]]]). done.
  - destruct (signed_text_chars n Hn) as [Hch Hal].
    assert (Hs : cstr (stored size (signed_text n) m) 0 (signed_text n)) by (apply stored_cstr; [done|lia]).
    exists (stored size (signed_text n) m), (alen (signed_text n)). split; [|by apply strict_signed].
    apply vsnprintf_ok; try lia. apply (one_fmt_prints _ _ _ _ []); [by repeat constructor|by repeat constructor|].
    unfold render_dir. cbn [d_flags d_width d_prec d_mod d_conv render_width render_prec count_val mbind option_bind].
    by rewrite render_llong, signed_number_text.
Qed.
End RoundTrip.

Lemma print_parse_roundtrip_witness :
  ∃ m' r, snprintf (λ _ _ _ _ _ _ _, None) (λ _ _ _ _ _ _ _, None) (repeat 1 30) 0xc1000000 30
      (one_fmt (Directive [35] NoCount NoCount Qll Cx)) 0 [VLong 0xdeadbeef] = Some (m', r, []) ∧
    strict_strtoull m' 0 0 = Some (0, 0xdeadbeef).
Proof.
  destruct (proj1 (print_parse_roundtrip (λ _ _ _ _ _ _ _, None) (λ _ _ _ _ _ _ _, None) (repeat 1 30) 0xc1000000 30 0xdeadbeef
    ltac:(vm_compute; ands; done) ltac:(vm_compute; ands; done) ltac:(vm_compute; ands; done) ltac:(vm_compute; ands; done)) Cx
    ltac:(tauto)) as (m' & r & E & _ & Hp).
  exists m', r. split; [exact E|exact Hp].
Defined.

(** ** The counters of [number] *)

(** [--field_width] at the least [s16] wraps around: the leading spaces are 32768. *)
Lemma pad_wraps buf en c o :
  pad buf en 0 c o (- 2 ^ 15) = (o ← puts buf en (rep c (2 ^ 15)) o; Some (o, -1)).
Proof.
  unfold pad. set (step := λ '(o, fw), _). set (k := Z.to_nat (2 ^ 15 - 1)).
  assert (Habove : ∀ o fw, 0 < fw < 2 ^ 15 → step (o, fw) = (o ← put buf en c o; Some (inl (o, fw - 1)))).
  { intros o' fw Hf. unfold step. cbv zeta. rewrite s16_small by lia. by destruct (fw - 1 >=? 0) eqn:E; [|lia]. }
  rewrite (bloop_turns 17 (S k)) by (apply Nat2Z.inj_lt; rewrite pow17; lia).
  generalize pow17. generalize (2 ^ 17)%nat. intros N HN.
  destruct (N - S k)%nat as [|n] eqn:E; [exfalso; lia|]. clear E HN.
  assert (Hlast : ∀ o, nturns (S n) step (o, 0) = Some (inr (o, -1))) by done.
  change (nturns (S k) step (o, - 2 ^ 15)) with
    (x ← (o ← put buf en c o; Some (inl (o, 2 ^ 15 - 1))); match x with inl s' => nturns k step s' | inr r => Some (inr r) end).
  unfold rep. replace (Z.to_nat (2 ^ 15)) with (S k) by lia. cbn [replicate puts].
  destruct (put buf en c o) as [o1|]; [|done]. cbn [mbind option_bind].
  rewrite (pad_turns buf en 0 c step Habove) by lia.
  destruct (puts buf en (replicate k c) o1) as [o2|]; [|done]. cbn [mbind option_bind].
  replace (2 ^ 15 - 1 - Z.of_nat k) with 0 by lia. by rewrite Hlast.
Qed.

(** A precision of 32767 and no width: the difference of the two is the least [s16], and the
    field of the number 1 is not the 32767 digits it stands for but has 32768 spaces before
    them. *)
Theorem number_precision_wraps (buf en : Z) (o : out) :
  let s := PrintfSpec FORMAT_TYPE_INT SIGN 10 255 (-1) 32767 in
  number buf en o 1 s = puts buf en (rep 32 32768 ++ rep 48 32766 ++ [49]) o ∧ number_text 1 s = rep 48 32766 ++ [49].
Proof.
  intros s. split.
  - unfold number. cbv zeta. subst s. cbn [flags base field_width precision].
    change (s64 1) with 1. change (1 <? 0) with false. change (has SIGN LEFT) with false. change (has SIGN SPECIAL) with false.
    cbv iota. change (has SIGN SIGN) with true. change (has SIGN PLUS) with false. change (has SIGN SPACE) with false.
    change (has SIGN (ZEROPAD + LEFT)) with false. change (has SIGN ZEROPAD) with false. cbn [andb negb]. cbv iota.
    change (number_digits_rev 1 10 _) with (Some [49]).
    rewrite Some_bind. change (alen [49]) with 1. change (1 >? 32767) with false. cbv iota.
    change (s16 (-1 - 32767)) with (- 2 ^ 15). change (rep 32 32768) with (rep 32 (2 ^ 15)). change (ctrue 0) with false. cbv iota.
    rewrite pad_wraps, puts_app. destruct (puts buf en (rep 32 (2 ^ 15)) o) as [o1|]; [|done]. rewrite !Some_bind. cbv beta iota.
    transitivity (puts buf en (rep 32 (-1) ++ rep 48 32766 ++ [49]) o1); [|reflexivity].
    apply pad0_bind; [lia|]. intros o2. change 32766 with (32767 - 1). apply pad_bind; [lia|lia|]. intros o3.
    rewrite (put_digits_down buf en [49] o3 : for_down (1 - 1) 0 _ _ = _).
    change (reverse [49]) with [49]. rewrite <- (app_nil_r [49]) at 2. apply puts_bind. intros o4.
    transitivity (puts buf en (rep 32 (Z.min (-1) 0 - 1) ++ []) o4); [|reflexivity]. apply pad0_bind; [lia|done].
  - subst s. unfold number_text. cbv zeta. cbn [flags base field_width precision].
    change (numeral_text 10 _ _) with [49]. change (alen [49]) with 1. change (sign_text _ _) with (@nil Z). change (prefix_text _) with (@nil Z).
    change (has SIGN LEFT) with false. change (has SIGN ZEROPAD) with false. cbv iota. cbn [app].
    rewrite (rep_neg 32); [done|]. match goal with |- context [alen ?l] => pose proof (alen_nonneg l) end. lia.
Qed.
