(* ===== verification/VsprintfAddr.v ===== *)
(** * Addresses as text

    The texts that %pM, %pI4, %pI6 and %pU print, as lists of fields with separators, and the
    sizes of the local arrays that hold them. *)

From S2P Require Import Prelude Words Strings StringsFacts Vsprintf VsprintfDigits VsprintfOut VsprintfFmt VsprintfFacts.
#[local] Open Scope Z_scope.
#[local] Open Scope kernel_scope.

(** ** Fields and separators *)

(** A byte as two hexadecimal digits, and as decimal digits, three of them if [pad]. *)
Definition hex2 (x : Z) : list Z := [dchar true (x / 16); dchar true (x mod 16)].
Definition quad (pad : bool) (x : Z) : list Z :=
  (if pad then rep 48 (3 - alen (numeral_text 10 false x)) else []) ++ numeral_text 10 false x.

(** Field [i] of a list, with a separator before all but the first. *)
Fixpoint joined (sep : list Z) (fields : list (list Z)) : list Z :=
  match fields with
  | [] => []
  | [x] => x
  | x :: fields => x ++ sep ++ joined sep fields
  end.

(** ** Stores into a local array *)

Fixpoint tputs (cap : Z) (p t : list Z) : option (list Z) :=
  match t with [] => Some p | c :: t => p ← tput cap p c; tputs cap p t end.

Lemma tputs_ok cap p t : Forall (urange 8) t → alen p + alen t ≤ cap → tputs cap p t = Some (p ++ t).
Proof.
  intros Ht. revert p. induction Ht as [|c t Hc Ht IH]; intros p Hcap; cbn [tputs]; [by rewrite app_nil_r|].
  assert (Hal : alen (c :: t) = 1 + alen t) by (unfold alen; cbn [length]; lia). pose proof (alen_nonneg t).
  rewrite tput_ok by (unfold urange in Hc; lia). cbn [mbind option_bind]. rewrite IH by (rewrite alen_snoc; lia).
  by rewrite <- app_assoc.
Qed.

Lemma hex_asc_ok x : urange 8 x → hex_asc_hi x = dchar true (x / 16) ∧ hex_asc_lo x = dchar true (x mod 16) ∧
  urange 8 (hex_asc_hi x) ∧ urange 8 (hex_asc_lo x).
Proof.
  intros Hx.
  assert (H := byte_all (λ x, (hex_asc_hi x =? dchar true (x / 16)) && (hex_asc_lo x =? dchar true (x mod 16)) &&
    bool_decide (urange 8 (hex_asc_hi x)) && bool_decide (urange 8 (hex_asc_lo x))) ltac:(by vm_compute) x Hx).
  cbv beta in H. rewrite !andb_true_iff, !Z.eqb_eq, !bool_decide_eq_true in H. tauto.
Qed.

Lemma hex2_bytes x : urange 8 x → Forall (urange 8) (hex2 x).
Proof.
  intros Hx. destruct (hex_asc_ok x Hx) as (Hh & Hl & H1 & H2). unfold hex2.
  by rewrite <- Hh, <- Hl, list.Forall_cons, Forall_singleton.
Qed.

Lemma pack_hex_byte_ok cap p x : urange 8 x → alen p + 2 ≤ cap → pack_hex_byte cap p x = Some (p ++ hex2 x).
Proof.
  intros Hx Hcap. destruct (hex_asc_ok x Hx) as (Hh & Hl & H1 & H2). unfold pack_hex_byte, hex2.
  rewrite tput_ok by (unfold urange in *; lia). cbn [mbind option_bind].
  rewrite tput_ok by (rewrite ?alen_snoc; unfold urange in *; lia). by rewrite <- app_assoc, Hh, Hl.
Qed.

(** Digits in reverse order are stored from the last one on. *)
Lemma tput_down cap p temp :
  Forall (urange 8) temp → alen p + alen temp ≤ cap →
  for_down (alen temp - 1) 0 (λ d p, c ← temp.[d]; tput cap p c) p = Some (p ++ reverse temp).
Proof.
  intros Ht Hcap.
  destruct (for_down_rule (λ k q, q = p ++ reverse (drop (Z.to_nat (k + 1)) temp)) (alen temp - 1) 0
    (λ d p, c ← temp.[d]; tput cap p c) p) as (q & -> & ->).
  - pose proof (alen_nonneg temp). lia.
  - rewrite drop_ge; [by rewrite app_nil_r|]. unfold alen. lia.
  - intros i q Hi ->. destruct (arr_get_lt temp i) as [c Hc]; [lia|]. rewrite Hc. cbn [mbind option_bind].
    pose proof (Forall_arr_get _ _ _ _ Ht Hc) as Hcb. unfold urange in Hcb.
    rewrite tput_ok; [|rewrite alen_app, alen_reverse, alen_drop by lia; lia|lia]. eexists; split; [done|].
    replace (i - 1 + 1) with i by lia. unfold arr_get in Hc. destruct (0 <=? i); [|done].
    rewrite (drop_S temp c (Z.to_nat i)) by done. replace (S (Z.to_nat i)) with (Z.to_nat (i + 1)) by lia.
    by rewrite reverse_cons, app_assoc.
  - done.
Qed.

(** ** Texts of addresses *)

(** A loop that stores a piece of text in each turn. *)
Lemma pieces_ok cap (piece : Z → list Z) body p k (n : nat) :
  (∀ i q, k ≤ i < k + Z.of_nat n → alen q + alen (piece i) ≤ cap → body i q = Some (q ++ piece i)) →
  alen p + alen (concat (piece <$> seqZ k (Z.of_nat n))) ≤ cap →
  for_up k (k + Z.of_nat n) body p = Some (p ++ concat (piece <$> seqZ k (Z.of_nat n))).
Proof.
  revert k p. induction n as [|n IH]; intros k p Hb Hcap; unfold for_up.
  { rewrite Z.add_0_r, Z.sub_diag. cbn. by rewrite app_nil_r. }
  rewrite seqZ_cons in * by lia. cbn [fmap list_fmap concat] in *. rewrite alen_app in Hcap.
  replace (Z.to_nat (k + Z.of_nat (S n) - k)) with (S n) by lia. cbn [for_nat].
  match type of Hcap with _ + (_ + alen ?l) ≤ _ => pose proof (alen_nonneg l) end.
  rewrite Hb by lia. cbn [mbind option_bind].
  replace (Z.pred (Z.of_nat (S n))) with (Z.of_nat n) in * by lia. change (Z.succ k) with (k + 1) in *.
  pose proof (IH (k + 1) (p ++ piece k)) as IH'. unfold for_up in IH'.
  replace (Z.to_nat (k + 1 + Z.of_nat n - (k + 1))) with n in IH' by lia. rewrite IH'.
  - by rewrite <- app_assoc.
  - intros i q Hi. apply Hb. lia.
  - rewrite alen_app. lia.
Qed.

(** The piece of a loop over the fields of a list of bytes. *)
Definition piece (field : Z → list Z) (sep : list Z) (n : Z) (a : list Z) (i : Z) : list Z :=
  field (default 0 a.[i]) ++ if i =? n - 1 then [] else sep.

Lemma mac_address_ok b fmt a f0 f1 :
  length a = 6%nat → Forall (urange 8) a → b.[fmt] = Some f0 → b.[fmt + 1] = Some f1 →
  mac_address b fmt a =
    Some (joined (if f0 =? 77 then [if f1 =? 70 then 45 else 58] else []) (hex2 <$> a) ++ [0]).
Proof.
  intros Hl Ha H0 H1. unfold mac_address. rewrite H1. cbn [mbind option_bind]. rewrite H0. cbn [mbind option_bind].
  set (sep := if f0 =? 77 then _ else _).
  assert (Hsep : alen sep ≤ 1 ∧ Forall (urange 8) sep).
  { subst sep. destruct (f0 =? 77); [|split; [done|constructor]]. split; [done|]. apply Forall_singleton. by destruct (f1 =? 70). }
  assert (E : concat (piece hex2 sep 6 a <$> seqZ 0 (Z.of_nat 6)) = joined sep (hex2 <$> a)).
  { do 7 (destruct a as [|? a]; try done). }
  assert (Hal : alen (joined sep (hex2 <$> a)) ≤ 17).
  { do 7 (destruct a as [|? a]; try done). cbn [fmap list_fmap joined]. rewrite !alen_app. 
    repeat match goal with |- context [alen (hex2 ?x)] => change (alen (hex2 x)) with 2 end. lia. }
  change (for_up 0 6 ?f ?p) with (for_up 0 (0 + Z.of_nat 6) f p). rewrite (pieces_ok 18 (piece hex2 sep 6 a)).
  - rewrite E. cbn [mbind option_bind app]. rewrite tput_ok by lia. done.
  - intros i q Hi Hcap. destruct (arr_get_lt a i) as [x Hx]; [unfold alen; lia|]. rewrite Hx. cbn [mbind option_bind].
    unfold piece in *. rewrite Hx in *. change (default 0 (Some x)) with x in *. rewrite alen_app in Hcap. change (alen (hex2 x)) with 2 in Hcap.
    pose proof (Forall_arr_get _ _ _ _ Ha Hx) as Hbx. pose proof (alen_nonneg (if i =? 6 - 1 then [] else sep)).
    rewrite pack_hex_byte_ok by (done || lia). cbn [mbind option_bind]. change (6 - 1) with 5 in *.
    destruct (i =? 5); cbn [negb]; [by rewrite andb_false_r, app_nil_r|]. rewrite andb_true_r. subst sep.
    destruct (f0 =? 77); [|by rewrite app_nil_r]. rewrite tput_ok; [by rewrite <- app_assoc| |destruct (f1 =? 70); lia].
    rewrite alen_app. change (alen (hex2 x)) with 2. change (alen [_]) with 1 in Hcap. lia.
  - rewrite E. change (alen []) with 0. lia.
Qed.

(** ** IPv4 *)

Lemma quad_ok a : urange 8 a →
  ∃ temp, put_dec_trunc 3 [] a = Some temp ∧ reverse temp = numeral_text 10 false a ∧
    1 ≤ alen temp ≤ 3 ∧ Forall (urange 8) temp.
Proof.
  intros Ha. unfold urange in Ha.
  assert (H := byte_all (λ a, match put_dec_trunc 3 [] a with
    | Some t => bool_decide (reverse t = numeral_text 10 false a) && (1 <=? alen t) && (alen t <=? 3) && forallb (λ c, (0 <=? c) && (c <? 256)) t
    | None => false end) ltac:(by vm_compute) a Ha).
  cbv beta in H. destruct (put_dec_trunc 3 [] a) as [t|]; [|done]. exists t. split; [done|].
  rewrite !andb_true_iff, bool_decide_eq_true, !Z.leb_le in H. destruct H as (((Hr & H1) & H2) & Hf). ands; try done.
  apply List.Forall_forall. intros c Hc. rewrite forallb_forall in Hf. apply Hf in Hc.
  rewrite andb_true_iff, Z.leb_le, Z.ltb_lt in Hc. done.
Qed.

Lemma alen_quad z x : urange 8 x → 1 ≤ alen (quad z x) ≤ 3.
Proof.
  intros Hx. destruct (quad_ok x Hx) as (t & _ & E & Hl & _). unfold quad. rewrite <- E, alen_app, alen_reverse.
  destruct z; [|change (alen []) with 0; lia]. rewrite alen_rep by lia. lia.
Qed.

(** One turn of the loop: the digits of a byte and the point. *)
Lemma ip4_quad cap p x z :
  urange 8 x → alen p + 3 ≤ cap →
  (temp ← put_dec_trunc 3 [] x;
   p ← (if z && (alen temp <? 3) then tput cap p 48 else Some p);
   p ← (if z && (alen temp <? 2) then tput cap p 48 else Some p);
   for_down (alen temp - 1) 0 (λ d p, c ← temp.[d]; tput cap p c) p) = Some (p ++ quad z x).
Proof.
  intros Hx Hcap. destruct (quad_ok x Hx) as (t & -> & E & Hl & Hb). cbn [mbind option_bind]. unfold quad. rewrite <- E, alen_reverse.
  destruct z; cbn [andb]; cbn [mbind option_bind].
  - assert (alen t = 1 ∨ alen t = 2 ∨ alen t = 3) as [Ht|[Ht|Ht]] by lia; rewrite Ht; cbn [Z.ltb Z.compare Pos.compare Pos.compare_cont].
    + rewrite tput_ok by lia. cbn [mbind option_bind]. rewrite tput_ok by (rewrite ?alen_snoc; lia). cbn [mbind option_bind].
      rewrite <- Ht at 1. rewrite tput_down by (rewrite ?alen_snoc; done || lia). by rewrite <- !app_assoc.
    + rewrite tput_ok by lia. cbn [mbind option_bind]. rewrite <- Ht at 1.
      rewrite tput_down by (rewrite ?alen_snoc; done || lia). by rewrite <- !app_assoc.
    + cbn [mbind option_bind]. rewrite <- Ht at 1. rewrite tput_down by (done || lia). done.
  - rewrite tput_down by (done || lia). done.
Qed.

(** The address from its first byte on, or from its last one for the formats h and l. *)
Lemma ip4_string_ok cap p a off f0 f2 x0 x1 x2 x3 :
  a.[off] = Some x0 → a.[off + 1] = Some x1 → a.[off + 2] = Some x2 → a.[off + 3] = Some x3 →
  Forall (urange 8) a → alen p + 16 ≤ cap →
  ip4_string cap p a off f0 f2 =
    Some (p ++ joined [46] (quad (f0 =? 105) <$> (if (f2 =? 104) || (f2 =? 108) then [x3; x2; x1; x0] else [x0; x1; x2; x3])) ++ [0]).
Proof.
  intros H0 H1 H2 H3 Ha Hcap. unfold ip4_string. set (z := f0 =? 105).
  assert (Hb : ∀ i x, a.[i] = Some x → urange 8 x) by (intros i x; by apply Forall_arr_get).
  pose proof (Hb _ _ H0) as B0. pose proof (Hb _ _ H1) as B1. pose proof (Hb _ _ H2) as B2. pose proof (Hb _ _ H3) as B3. clear Hb Ha.
  assert (Hq : ∀ x, urange 8 x → 1 ≤ alen (quad z x) ≤ 3) by (intros; by apply alen_quad).
  assert (Hturn : ∀ i p index step x, a.[off + index] = Some x → urange 8 x → alen p + 4 ≤ cap →
    (a ← a.[off + index]; temp ← put_dec_trunc 3 [] a;
     let digits := alen temp in
     p ← (if z && (digits <? 3) then tput cap p 48 else Some p);
     p ← (if z && (digits <? 2) then tput cap p 48 else Some p);
     p ← for_down (digits - 1) 0 (λ d p, c ← temp.[d]; tput cap p c) p;
     p ← (if i <? 3 then tput cap p 46 else Some p);
     Some (p, index + step)) = Some (p ++ quad z x ++ (if i <? 3 then [46] else []), index + step)).
  { intros i q index step x Hx Bx Hq4. rewrite Hx. cbn [mbind option_bind]. pose proof (ip4_quad cap q x z Bx ltac:(lia)) as E.
    destruct (put_dec_trunc 3 [] x) as [temp|]; [|done]. cbn [mbind option_bind] in *. cbv zeta.
    destruct (if z && (alen temp <? 3) then tput cap q 48 else Some q) as [q1|]; [|done]. cbn [mbind option_bind] in *.
    destruct (if z && (alen temp <? 2) then tput cap q1 48 else Some q1) as [q2|]; [|done]. cbn [mbind option_bind] in *.
    rewrite E. cbn [mbind option_bind]. pose proof (Hq x Bx). destruct (i <? 3); cbn [mbind option_bind].
    - rewrite tput_ok by (rewrite ?alen_app; lia). by rewrite <- app_assoc.
    - by rewrite app_nil_r. }
  cbv zeta in Hturn.
  set (fwd := (f2 =? 104) || (f2 =? 108)).
  pose proof (Hq x0 B0). pose proof (Hq x1 B1). pose proof (Hq x2 B2). pose proof (Hq x3 B3).
  assert (Hp : ∀ i, i < 3 → alen (if i <? 3 then [46] else []) = 1) by (intros i Hi; by destruct (Z.ltb_spec i 3); [|lia]).
  destruct fwd; unfold for_up; change (Z.to_nat (4 - 0)) with 4%nat; cbn [for_nat].
  - do 3 (erewrite Hturn; [rewrite Some_bind|first [exact H3|exact H2|exact H1]|done|rewrite ?alen_app, ?Hp by lia; lia]).
    erewrite Hturn; [rewrite !Some_bind|by rewrite <- H0; f_equal; lia|done|rewrite ?alen_app, ?Hp by lia; lia].
    rewrite tput_ok by (rewrite ?alen_app, ?Hp by lia; change (alen (if _ <? 3 then [46] else [])) with 0; lia).
    cbn [fmap list_fmap joined Z.ltb Z.compare]. rewrite <- !app_assoc. done.
  - erewrite Hturn; [rewrite Some_bind|by rewrite <- H0; f_equal; lia|done|rewrite ?alen_app, ?Hp by lia; lia].
    do 3 (erewrite Hturn; [rewrite Some_bind|first [exact H1|exact H2|exact H3]|done|rewrite ?alen_app, ?Hp by lia; lia]).
    rewrite ?Some_bind. rewrite tput_ok by (rewrite ?alen_app, ?Hp by lia; change (alen (if _ <? 3 then [46] else [])) with 0; lia).
    cbn [fmap list_fmap joined Z.ltb Z.compare]. rewrite <- !app_assoc. done.
Qed.

(** ** IPv6 and UUID *)

(** The words of an address, four digits each. *)
Fixpoint hex4s (a : list Z) : list (list Z) :=
  match a with x :: y :: a => (hex2 x ++ hex2 y) :: hex4s a | _ => [] end.

Definition ip6_piece (sep : list Z) (a : list Z) (i : Z) : list Z :=
  (hex2 (default 0 a.[2 * i]) ++ hex2 (default 0 a.[2 * i + 1])) ++ if i =? 7 then [] else sep.

Lemma ip6_string_ok cap a f0 :
  length a = 16%nat → Forall (urange 8) a → 40 ≤ cap →
  ip6_string cap a f0 = Some (joined (if f0 =? 73 then [58] else []) (hex4s a) ++ [0]).
Proof.
  intros Hl Ha Hcap0. unfold ip6_string. set (sep := if f0 =? 73 then [58] else []).
  assert (Hsep : alen sep ≤ 1) by (subst sep; by destruct (f0 =? 73)).
  assert (E : concat (ip6_piece sep a <$> seqZ 0 (Z.of_nat 8)) = joined sep (hex4s a))
    by (do 17 (destruct a as [|? a]; try done)).
  assert (Hal : alen (joined sep (hex4s a)) ≤ 39).
  { clear E Ha. do 17 (destruct a as [|? a]; try done). clear Hl. cbn [hex4s joined]. rewrite !alen_app.
    repeat match goal with |- context [alen (hex2 ?x)] => change (alen (hex2 x)) with 2 end. lia. }
  change (for_up 0 8 ?f ?p) with (for_up 0 (0 + Z.of_nat 8) f p). rewrite (pieces_ok cap (ip6_piece sep a)).
  - rewrite E. cbn [mbind option_bind app]. rewrite tput_ok by lia. done.
  - intros i q Hi Hcap. unfold ip6_piece in *.
    destruct (arr_get_lt a (2 * i)) as [x Hx]; [unfold alen; lia|]. destruct (arr_get_lt a (2 * i + 1)) as [y Hy]; [unfold alen; lia|].
    rewrite Hx, Hy in *. cbn [mbind option_bind]. change (default 0 (Some x)) with x in *. change (default 0 (Some y)) with y in *.
    pose proof (Forall_arr_get _ _ _ _ Ha Hx) as Bx. pose proof (Forall_arr_get _ _ _ _ Ha Hy) as By.
    rewrite !alen_app in Hcap. change (alen (hex2 ?z)) with 2 in Hcap. pose proof (alen_nonneg (if i =? 7 then [] else sep)).
    rewrite pack_hex_byte_ok by (done || lia). cbn [mbind option_bind].
    rewrite pack_hex_byte_ok by (done || rewrite alen_app; change (alen (hex2 ?z)) with 2; lia). cbn [mbind option_bind].
    destruct (i =? 7); cbn [negb]; [by rewrite andb_false_r, app_nil_r, <- app_assoc|]. rewrite andb_true_r. subst sep.
    destruct (f0 =? 73); [|by rewrite app_nil_r, <- app_assoc]. rewrite tput_ok; [by rewrite <- !app_assoc| |lia].
    rewrite !alen_app. change (alen (hex2 ?z)) with 2. change (alen [58]) with 1 in Hcap. lia.
  - rewrite E. change (alen []) with 0. lia.
Qed.

(** The bytes of a UUID in the order in which they are printed, in the groups of the text. *)
Definition uuid_groups (index a : list Z) : list (list Z) :=
  let h l := concat ((λ k, hex2 (default 0 a.[k])) <$> l) in
  [h (take 4 index); h (take 2 (drop 4 index)); h (take 2 (drop 6 index)); h (take 2 (drop 8 index)); h (drop 10 index)].

Definition uuid_index (f : Z) : list Z := if (f =? 76) || (f =? 108) then uuid_le else uuid_be.

Definition uuid_piece (index a : list Z) (i : Z) : list Z :=
  hex2 (default 0 a.[default 0 index.[i]]) ++ if (i =? 3) || (i =? 5) || (i =? 7) || (i =? 9) then [45] else [].

(** The loop that turns the letters of a string to upper case. *)
Lemma toupper_loop t fuel :
  t ≠ [] → Forall char t → (length t ≤ fuel)%nat →
  loop fuel (λ '(p, i), c ← p.[i]; p ← p.[i <- __toupper c]; c ← p.[i + 1];
    Some (if ctrue c then inl (p, i + 1) else inr p)) (t ++ [0], 0) = Some ((__toupper <$> t) ++ [0]).
Proof.
  intros Hne Ht Hf.
  assert (Hgo : ∀ u v fuel, v ≠ [] → Forall char v → (length v ≤ fuel)%nat →
    loop fuel (λ '(p, i), c ← p.[i]; p ← p.[i <- __toupper c]; c ← p.[i + 1];
      Some (if ctrue c then inl (p, i + 1) else inr p)) (u ++ v ++ [0], alen u) = Some (u ++ (__toupper <$> v) ++ [0])).
  { clear. intros u v fuel. revert u v. induction fuel as [|f IH]; intros u v Hne Hv Hf; [destruct v; [done|cbn in Hf; lia]|].
    destruct v as [|c v]; [done|]. rewrite loop_S. cbn [app].
    assert (Hg : ∀ x w, (u ++ x :: w).[alen u] = Some x).
    { intros x w. rewrite arr_get_app by apply alen_nonneg. rewrite decide_False by lia. by rewrite Z.sub_diag. }
    assert (Hs : ∀ x y w, (u ++ x :: w).[alen u <- y] = Some (u ++ y :: w)).
    { intros x y w. rewrite arr_set_lt by (rewrite alen_app; pose proof (alen_nonneg u); unfold alen; cbn [length]; lia).
      f_equal. unfold alen. rewrite Nat2Z.id. by rewrite insert_app_r_alt, Nat.sub_diag by lia. }
    rewrite Hg. cbn [mbind option_bind]. rewrite Hs. cbn [mbind option_bind].
    assert (Hn : (u ++ __toupper c :: v ++ [0]).[alen u + 1] = (v ++ [0]).[0]).
    { rewrite arr_get_app by (pose proof (alen_nonneg u); lia). rewrite decide_False by lia. by replace (alen u + 1 - alen u) with 1 by lia. }
    rewrite Hn. destruct v as [|c1 v]; [done|]. cbn [app]. change ((c1 :: v ++ [0]).[0]) with (Some c1). cbn [mbind option_bind].
    apply list.Forall_cons in Hv as [_ Hv]. pose proof Hv as Hv1. apply list.Forall_cons in Hv1 as [Hc1 _]. unfold char in Hc1.
    replace (ctrue c1) with true by (symmetry; apply ctrue_true; lia).
    specialize (IH (u ++ [__toupper c]) (c1 :: v) ltac:(done) Hv ltac:(cbn in *; lia)).
    rewrite alen_snoc, <- !app_assoc in IH. exact IH. }
  exact (Hgo [] t fuel Hne Ht Hf).
Qed.

Lemma hex2_chars x : urange 8 x → Forall char (hex2 x).
Proof.
  intros Hx. assert (H := byte_all (λ x, bool_decide (Forall char (hex2 x))) ltac:(by vm_compute) x Hx). by apply bool_decide_eq_true in H.
Qed.

Lemma joined_chars sep fields : Forall char sep → Forall (Forall char) fields → Forall char (joined sep fields).
Proof.
  intros Hs HF. induction HF as [|x fields Hx HF IH]; [constructor|]. destruct fields as [|y fields]; [done|].
  cbn [joined] in *. rewrite !Forall_app. done.
Qed.

Lemma hex2s_chars a (l : list Z) : Forall (urange 8) a → Forall char (concat ((λ k, hex2 (default 0 a.[k])) <$> l)).
Proof.
  intros Ha. induction l as [|k l IH]; cbn [fmap list_fmap concat]; [constructor|]. rewrite Forall_app. split; [|done].
  apply hex2_chars. destruct (a.[k]) as [x|] eqn:E; [by apply (Forall_arr_get _ _ _ _ Ha E)|done].
Qed.

Definition uuid_lower (f : Z) (a : list Z) : list Z := joined [45] (uuid_groups (uuid_index f) a).

(** The letters L and B ask for upper case. *)
Definition uuid_chars (f : Z) (a : list Z) : list Z :=
  if (f =? 76) || (f =? 66) then __toupper <$> uuid_lower f a else uuid_lower f a.

Lemma uuid_lower_ok f a :
  length a = 16%nat → Forall (urange 8) a → alen (uuid_lower f a) = 36 ∧ Forall char (uuid_lower f a) ∧
    concat (uuid_piece (uuid_index f) a <$> seqZ 0 (Z.of_nat 16)) = uuid_lower f a.
Proof.
  intros Hl Ha.
  assert (Hch : Forall char (uuid_lower f a)).
  { apply joined_chars; [by repeat constructor|]. unfold uuid_groups. cbv zeta. rewrite !list.Forall_cons.
    ands; try apply hex2s_chars; done. }
  ands; [|done|]; clear Hch Ha; unfold uuid_lower, uuid_index; do 17 (destruct a as [|? a]; try done);
    by destruct ((f =? 76) || (f =? 108)).
Qed.

Lemma uuid_text_ok a f :
  length a = 16%nat → Forall (urange 8) a → uuid_text a f = Some (uuid_chars f a ++ [0]).
Proof.
  intros Hl Ha. destruct (uuid_lower_ok f a Hl Ha) as (Hal & Hch & E). unfold uuid_text, uuid_chars.
  set (ui := if f =? 76 then _ else _).
  assert (ui = ((f =? 76) || (f =? 66), uuid_index f)) as ->.
  { subst ui. unfold uuid_index. destruct (Z.eqb_spec f 76) as [->|]; [done|]. destruct (Z.eqb_spec f 108) as [->|]; [done|].
    by destruct (f =? 66). }
  assert (Hix : ∀ i, 0 ≤ i < 16 → ∃ k, (uuid_index f).[i] = Some k ∧ 0 ≤ k < 16).
  { intros i Hi. unfold uuid_index. assert (H := range_all 16 (λ i, match uuid_le.[i], uuid_be.[i] with
      | Some k, Some k' => (0 <=? k) && (k <? 16) && (0 <=? k') && (k' <? 16) | _, _ => false end) eq_refl i Hi). cbv beta in H.
    destruct (uuid_le.[i]) as [k|] eqn:E1; [|done]. destruct (uuid_be.[i]) as [k'|] eqn:E2; [|done].
    rewrite !andb_true_iff, !Z.leb_le, !Z.ltb_lt in H. destruct (_ || _); [exists k|exists k']; split; done || lia. }
  change (for_up 0 16 ?f ?p) with (for_up 0 (0 + Z.of_nat 16) f p). rewrite (pieces_ok 37 (uuid_piece (uuid_index f) a)).
  - rewrite E. cbn [mbind option_bind app]. rewrite tput_ok by lia. cbn [mbind option_bind].
    destruct ((f =? 76) || (f =? 66)); [|done]. apply toupper_loop; [by intros Hn; rewrite Hn in Hal|done|unfold alen in Hal; lia].
  - intros i q Hi Hcap. unfold uuid_piece in *. destruct (Hix i ltac:(lia)) as (k & Hk & Hkr). rewrite Hk in *. cbn [mbind option_bind].
    change (default 0 (Some k)) with k in *. destruct (arr_get_lt a k) as [x Hx]; [unfold alen; lia|]. rewrite Hx in *. cbn [mbind option_bind].
    change (default 0 (Some x)) with x in *. rewrite alen_app in Hcap. change (alen (hex2 x)) with 2 in Hcap.
    pose proof (Forall_arr_get _ _ _ _ Ha Hx) as Bx.
    destruct ((i =? 3) || (i =? 5) || (i =? 7) || (i =? 9)).
    + change (alen [45]) with 1 in Hcap. rewrite pack_hex_byte_ok by (done || lia). cbn [mbind option_bind].
      rewrite tput_ok by (rewrite ?alen_app; change (alen (hex2 x)) with 2; lia). by rewrite <- app_assoc.
    + change (alen []) with 0 in Hcap. rewrite pack_hex_byte_ok by (done || lia). by rewrite app_nil_r.
  - rewrite E. change (alen []) with 0. lia.
Qed.

(** ** What the extensions of %p print *)

Lemma quad_chars z x : urange 8 x → Forall char (quad z x).
Proof.
  intros Hx. destruct (numval_text 10 false x) as [_ HF]; [lia|unfold urange in *; lia|]. unfold quad. apply Forall_app. split.
  - destruct z; [|constructor]. by apply Forall_replicate.
  - eapply List.Forall_impl; [|exact HF]. by intros ? [].
Qed.

Lemma hex4s_chars a : Forall (urange 8) a → Forall (Forall char) (hex4s a).
Proof.
  induction a as [a IH] using (induction_ltof1 _ (@length Z)); intros Ha. destruct a as [|x [|y a]]; [constructor|constructor|].
  repeat (apply list.Forall_cons in Ha as [? Ha]). cbn [hex4s]. constructor; [apply Forall_app; split; by apply hex2_chars|].
  apply IH; [unfold ltof; cbn; lia|done].
Qed.

Section Extensions.
Context (buf en : Z) (symbol_string resource_string : out → Z → list Z → printf_spec → Z → option out).

Lemma local_string o t s :
  string_spec s → Forall char t → alen t < 2 ^ 31 → string buf en o local_addr (t ++ [0]) s = puts buf en (string_text t s) o.
Proof. intros Hs Ht Hl. apply string_ok; [done|done|by apply cstr_snoc|done]. Qed.

Lemma uuid_chars_ok f a :
  length a = 16%nat → Forall (urange 8) a → Forall char (uuid_chars f a) ∧ alen (uuid_chars f a) = 36.
Proof.
  intros Hl Ha. destruct (uuid_lower_ok f a Hl Ha) as (Hal & Hch & _). unfold uuid_chars. destruct (_ || _); [|done].
  unfold alen in *. rewrite length_fmap. split; [|done]. apply Forall_fmap. eapply List.Forall_impl; [|exact Hch].
  intros c Hc. assert (H := byte_all (λ c, (c =? 0) || bool_decide (char (__toupper c))) ltac:(by vm_compute) c ltac:(unfold char in Hc; lia)).
  cbv beta in H. unfold char in Hc. destruct (Z.eqb_spec c 0); [lia|]. by apply bool_decide_eq_true in H.
Qed.

(** A short list of short fields makes a string. *)
Lemma joined_string sep fields :
  alen sep ≤ 1 → Forall char sep → Forall (λ x, alen x ≤ 4 ∧ Forall char x) fields → alen fields ≤ 16 →
  Forall char (joined sep fields) ∧ alen (joined sep fields) < 2 ^ 31.
Proof.
  intros Hs Hc HF Hl. split; [apply joined_chars; [done|]; eapply List.Forall_impl; [|exact HF]; by intros ? []|].
  enough (alen (joined sep fields) ≤ 5 * alen fields) by lia. clear Hl Hc.
  induction HF as [|x fields [Hx _] HF IH]; [done|]. destruct fields as [|y fields].
  - cbn [joined]. change (alen [x]) with 1. lia.
  - cbn [joined] in *. rewrite !alen_app. assert (alen (x :: y :: fields) = 1 + alen (y :: fields)) as -> by (unfold alen; cbn [length]; lia). lia.
Qed.

(** behind a %p with an address that is not null, M and m print the six bytes of a MAC
    address in hexadecimal (M with colons, MF with hyphens), I4 and i4 the four bytes of an
    IPv4 address in decimal with points (i4 with three digits each; I4h and I4l from the last
    byte on), I6 and i6 the eight words of an IPv6 address (I6 with colons), and U the sixteen
    bytes of a UUID in its five groups (UL and Ul in little-endian order, UL and UB in upper
    case), as a string field; the local arrays are large enough for them. *)
Theorem pointer_addresses_correct (b : list Z) (fmt : Z) (o : out) (addr : Z) (obj : list Z) (s : printf_spec) (f0 f1 f2 : Z)
  (Hs : string_spec s) (Haddr : addr ≠ 0) (Hobj : Forall (urange 8) obj)
  (H0 : b.[fmt] = Some f0) (H1 : b.[fmt + 1] = Some f1) (H2 : b.[fmt + 2] = Some f2) :
  let print t := puts buf en (string_text t s) o in
  let result := pointer buf en symbol_string resource_string b fmt o addr obj s in
  (f0 = 77 ∨ f0 = 109 → length obj = 6%nat →
     result = print (joined (if f0 =? 77 then [if f1 =? 70 then 45 else 58] else []) (hex2 <$> obj))) ∧
  (f0 = 73 ∨ f0 = 105 → f1 = 52 → length obj = 4%nat →
     result = print (joined [46] (quad (f0 =? 105) <$> if (f2 =? 104) || (f2 =? 108) then reverse obj else obj))) ∧
  (f0 = 73 ∨ f0 = 105 → f1 = 54 → f0 = 105 ∨ f2 ≠ 99 → length obj = 16%nat →
     result = print (joined (if f0 =? 73 then [58] else []) (hex4s obj))) ∧
  (f0 = 85 → length obj = 16%nat → result = print (uuid_chars f1 obj)).
Proof.
  intros print result. subst result. unfold pointer. destruct (Z.eqb_spec addr 0); [done|]. rewrite H0. cbn [mbind option_bind].
  ands.
  - intros Hf Hl. rewrite (mac_address_ok b fmt obj f0 f1) by done.
    match goal with |- context [joined ?sep ?l ++ [0]] => destruct (joined_string sep l) as [Hc Hal] end.
    { by destruct (f0 =? 77). }
    { destruct (f0 =? 77); [|constructor]. apply Forall_singleton. by destruct (f1 =? 70). }
    { apply Forall_fmap. eapply List.Forall_impl; [|exact Hobj]. intros x Hx. split; [done|by apply hex2_chars]. }
    { unfold alen. rewrite length_fmap, Hl. lia. }
    destruct Hf as [->| ->]; cbn [Z.eqb Pos.eqb orb mbind option_bind] in *; by rewrite local_string.
  - intros Hf -> Hl. rewrite H1. cbn [mbind option_bind].
    do 5 (destruct obj as [|?x obj]; try done).
    assert (Hq : Forall (urange 8) (if (f2 =? 104) || (f2 =? 108) then [x2; x1; x0; x] else [x; x0; x1; x2])).
    { repeat (apply list.Forall_cons in Hobj as [? Hobj]). destruct (_ || _); by rewrite !list.Forall_cons. }
    pose proof (ip4_string_ok 16 [] [x; x0; x1; x2] 0 f0 f2 x x0 x1 x2) as E.
    rewrite H2. cbn [mbind option_bind].
    assert (Er : (if (f2 =? 104) || (f2 =? 108) then reverse [x; x0; x1; x2] else [x; x0; x1; x2]) =
      if (f2 =? 104) || (f2 =? 108) then [x2; x1; x0; x] else [x; x0; x1; x2]) by done.
    rewrite Er. set (q := if (f2 =? 104) || (f2 =? 108) then [x2; x1; x0; x] else _) in *.
    destruct (joined_string [46] (quad (f0 =? 105) <$> q)) as [Hc Hal]; [done|by repeat constructor| | |].
    { apply Forall_fmap. eapply List.Forall_impl; [|exact Hq]. intros y Hy. split; [pose proof (alen_quad (f0 =? 105) y Hy); lia|by apply quad_chars]. }
    { unfold alen. rewrite length_fmap. subst q. by destruct (_ || _). }
    destruct Hf as [->| ->]; cbn [Z.eqb Pos.eqb orb mbind option_bind] in *; rewrite E by done; rewrite Some_bind; by apply local_string.
  - intros Hf -> Hc Hl. rewrite H1. cbn [mbind option_bind]. rewrite H2. cbn [mbind option_bind].
    pose proof (ip6_string_ok 46 obj f0 Hl Hobj ltac:(lia)) as E.
    destruct (joined_string (if f0 =? 73 then [58] else []) (hex4s obj)) as [Hch Hal].
    { by destruct (f0 =? 73). }
    { destruct (f0 =? 73); by repeat constructor. }
    { pose proof (hex4s_chars obj Hobj) as H4. clear -H4 Hl. do 17 (destruct obj as [|? obj]; try done).
      cbn [hex4s] in *. rewrite !list.Forall_cons in *. ands; tauto || done. }
    { do 17 (destruct obj as [|? obj]; try done). }
    destruct Hf as [->| ->]; cbn [Z.eqb Pos.eqb orb andb] in *.
    + destruct (Z.eqb_spec f2 99) as [->|]; [by destruct Hc|]. rewrite E. cbn [mbind option_bind]. by apply local_string.
    + rewrite E. cbn [mbind option_bind]. by apply local_string.
  - intros -> Hl. cbn [Z.eqb Pos.eqb orb]. rewrite H1. cbn [mbind option_bind]. rewrite uuid_text_ok by done. cbn [mbind option_bind].
    destruct (uuid_chars_ok f1 obj Hl Hobj) as [Hc Hal]. apply local_string; [done|done|lia].
Qed.
End Extensions.

(** The format I4 behind the p, and the address 192.168.0.1. *)
Lemma pointer_addresses_correct_witness :
  pointer 0 20 (λ _ _ _ _ _, None) (λ _ _ _ _ _, None) [73; 52; 0] 0 (repeat 1 20, 0) 1 [192; 168; 0; 1]
    (conv_spec QNone Cp 0 (-1) (-1)) =
  puts 0 20 [49; 57; 50; 46; 49; 54; 56; 46; 48; 46; 49] (repeat 1 20, 0).
Proof.
  refine (proj1 (proj2 (pointer_addresses_correct 0 20 (λ _ _ _ _ _, None) (λ _ _ _ _ _, None) [73; 52; 0] 0 (repeat 1 20, 0) 1
    [192; 168; 0; 1] (conv_spec QNone Cp 0 (-1) (-1)) 73 52 0 _ _ _ eq_refl eq_refl eq_refl)) _ eq_refl eq_refl).
  - by vm_compute.
  - done.
  - by repeat constructor.
  - by left.
Defined.

(** The compressed form: the longest run of zero words, and an embedded IPv4 address. *)
Theorem ip6_compressed_examples :
  ip6_compressed_string 46 [0x20; 1; 0xd; 0xb8; 0; 0; 0; 0; 0; 0; 0; 0; 0; 0; 0; 1] =
    Some [50; 48; 48; 49; 58; 100; 98; 56; 58; 58; 49; 0] ∧
  ip6_compressed_string 46 [0; 0; 0; 0; 0; 0; 0; 0; 0; 0; 255; 255; 192; 168; 0; 1] =
    Some [58; 58; 102; 102; 102; 102; 58; 49; 57; 50; 46; 49; 54; 56; 46; 48; 46; 49; 0] ∧
  ip6_compressed_string 46 (repeat 0 16) = Some [58; 58; 0].
Proof. by vm_compute. Qed.
