(* ===== verification/BitmapText.v ===== *)
(** * Bitmaps as text

    Models the text input and output of [lib/bitmap.c]: hexadecimal masks
    ([bitmap_scnprintf], [__bitmap_parse]) and lists of ranges ([bitmap_scnlistprintf],
    [bitmap_parselist]), on top of [scnprintf] and [simple_strtoul]. *)

From S2P Require Import Prelude Bitops FindBit Bitmap Words Strings Vsprintf.
#[local] Open Scope Z_scope.
#[local] Open Scope kernel_scope.

Definition EFAULT : Z := 14.
Definition ERANGE : Z := 34.
Definition EOVERFLOW : Z := 75.

Definition CHUNKSZ : Z := 32.
Definition nbits_to_hold_value (val : Z) : Z := fls val.
Definition unhex (c : Z) : Z := if isdigit c then c - 48 else __toupper c - 65 + 10.
Definition BASEDEC : Z := 10.

(** ** Output *)

Section Print.
Context (symbol_string resource_string : Z → Z → out → Z → list Z → printf_spec → Z → option out).

(** [scnprintf(buf + len, size, fmt, ...)] on the object [m] at [buf]; a start outside the
    object is undefined. *)
Definition scnprintf_at (m : list Z) (buf len size : Z) (fmt : list Z) (args : list va_value) : option (list Z * Z) :=
  if (0 <=? len) && (len <=? alen m) then
    '(m', r, _) ← scnprintf symbol_string resource_string (drop (Z.to_nat len) m) (buf + len) (u32 size) fmt 0 args;
    Some (take (Z.to_nat len) m ++ m', r)
  else None.

(** "%s%0*lx" and the separators "" and ",". *)
Definition chunk_fmt : list Z := [37; 115; 37; 48; 42; 108; 120; 0].
Definition chunk_sep (first : bool) : va_value := VPtr local_addr (if first then [0] else [44; 0]).

Definition ALIGN (x a : Z) : Z := Z.land (x + (a - 1)) (Z.lnot (a - 1)).

(** A turn of the loop over the chunks: the position, the size of the chunk, whether it is
    the first, the buffer and the length so far. *)
Definition bitmap_scnprintf_step (buf buflen : Z) (maskp : list Z) (st : Z * Z * bool * list Z * Z) :
    option (Z * Z * bool * list Z * Z + list Z * Z) :=
  let '(i, chunksz, first, m, len) := st in
  if i >=? 0 then
    let chunkmask := u32 (u64 (Z.shiftl 1 chunksz) - 1) in
    let word := i / BITS_PER_LONG in
    let bit := i mod BITS_PER_LONG in
    w ← maskp.[word];
    let val := Z.land (Z.shiftr w bit) chunkmask in
    '(m, r) ← scnprintf_at m buf len (buflen - len) chunk_fmt [chunk_sep first; VWord ((chunksz + 3) / 4); VWord val];
    Some (inl (i - CHUNKSZ, CHUNKSZ, false, m, len + r))
  else Some (inr (m, len)).

(** The buffer and the return value. *)
Definition bitmap_scnprintf (m : list Z) (buf buflen : Z) (maskp : list Z) (nmaskbits : Z) : option (list Z * Z) :=
  let chunksz := Z.land nmaskbits (CHUNKSZ - 1) in
  let chunksz := if chunksz =? 0 then CHUNKSZ else chunksz in
  let i := ALIGN nmaskbits CHUNKSZ - CHUNKSZ in
  loop (S (length maskp)) (bitmap_scnprintf_step buf buflen maskp) (i, chunksz, true, m, 0).

(** "," and "%d" and "%d-%d". *)
Definition comma_fmt : list Z := [44; 0].
Definition single_fmt : list Z := [37; 100; 0].
Definition range_fmt : list Z := [37; 100; 45; 37; 100; 0].

Definition bscnl_emit (m : list Z) (buf buflen rbot rtop len : Z) : option (list Z * Z) :=
  '(m, len) ←
    (if len >? 0 then
       '(m, r) ← scnprintf_at m buf len (buflen - len) comma_fmt [];
       Some (m, len + r)
     else Some (m, len));
  '(m, r) ←
    (if rbot =? rtop then scnprintf_at m buf len (buflen - len) single_fmt [VWord rbot]
     else scnprintf_at m buf len (buflen - len) range_fmt [VWord rbot; VWord rtop]);
  Some (m, len + r).

(** A turn of the loop over the set bits: the next bit, the start of the range, the buffer and
    the length so far. *)
Definition scnlist_step (buf buflen : Z) (maskp : list Z) (nmaskbits : Z) (st : Z * Z * list Z * Z) :
    option (Z * Z * list Z * Z + list Z * Z) :=
  let '(cur, rbot, m, len) := st in
  if cur <? nmaskbits then
    let rtop := cur in
    cur ← find_next_bit maskp nmaskbits (cur + 1);
    if (cur >=? nmaskbits) || (cur >? rtop + 1) then
      '(m, len) ← bscnl_emit m buf buflen rbot rtop len;
      Some (inl (cur, cur, m, len))
    else Some (inl (cur, rbot, m, len))
  else Some (inr (m, len)).

Definition bitmap_scnlistprintf (m : list Z) (buf buflen : Z) (maskp : list Z) (nmaskbits : Z) : option (list Z * Z) :=
  if buflen =? 0 then Some (m, 0) else
  m ← m.[0 <- 0];
  cur ← find_first_bit maskp nmaskbits;
  loop (S (Z.to_nat nmaskbits)) (scnlist_step buf buflen maskp nmaskbits) (cur, cur, m, 0).
End Print.

(** ** Input *)

(** Where the text is: an object of the kernel, or user memory whose reads may fault. *)
Inductive text_source :=
| KernelText (b : list Z)
| UserText (get : Z → option Z).

(** The character, or the fault of a read of user memory. *)
Definition fetch (src : text_source) (pos : Z) : option (option Z) :=
  match src with
  | KernelText b => c ← b.[pos]; Some (Some c)
  | UserText get => Some (get pos)
  end.

(** A turn of the loop that gets the next chunk: an error, or the position, the length left,
    the last character, the chunk, and the digits of the chunk and in all. *)
Definition chunk_step (src : text_source) (st : Z * Z * Z * Z * Z * Z) :
    option (Z * Z * Z * Z * Z * Z + (Z + Z * Z * Z * Z * Z * Z)) :=
  let '(pos, buflen, c, chunk, ndigits, totaldigits) := st in
  if ctrue buflen then
    let old_c := c in
    o ← fetch src pos;
    match o with
    | None => Some (inr (inl (- EFAULT)))
    | Some c =>
        let pos := pos + 1 in
        let buflen := buflen - 1 in
        if isspace c then Some (inl (pos, buflen, c, chunk, ndigits, totaldigits))
        else if ctrue totaldigits && ctrue c && isspace old_c then Some (inr (inl (- EINVAL)))
        else if (c =? 0) || (c =? 44) then Some (inr (inr (pos, buflen, c, chunk, ndigits, totaldigits)))
        else if negb (isxdigit c) then Some (inr (inl (- EINVAL)))
        else if ctrue (Z.land chunk (lnot_ul (Z.shiftl 1 (CHUNKSZ - 4) - 1))) then Some (inr (inl (- EOVERFLOW)))
        else Some (inl (pos, buflen, c, Z.lor (u32 (Z.shiftl chunk 4)) (unhex c), s32 (ndigits + 1), s32 (totaldigits + 1)))
    end
  else Some (inr (inr (pos, buflen, c, chunk, ndigits, totaldigits))).

Definition parse_chunk (src : text_source) (pos buflen c totaldigits : Z) : option (Z + Z * Z * Z * Z * Z * Z) :=
  loop (S (Z.to_nat buflen)) (chunk_step src) (pos, buflen, c, 0, 0, totaldigits).

(** A turn of the outer loop: the position, the length left, the last character, the digits
    in all, the chunks, their bits and the map. *)
Definition bitmap_parse_step (src : text_source) (nmaskbits : Z) (st : Z * Z * Z * Z * Z * Z * list Z) :
    option (Z * Z * Z * Z * Z * Z * list Z + list Z * Z) :=
  let '(pos, buflen, c, totaldigits, nchunks, nbits, maskp) := st in
  r ← parse_chunk src pos buflen c totaldigits;
  match r with
  | inl err => Some (inr (maskp, err))
  | inr (pos, buflen, c, chunk, ndigits, totaldigits) =>
      let next nchunks nbits maskp :=
        if ctrue buflen && (c =? 44) then Some (inl (pos, buflen, c, totaldigits, nchunks, nbits, maskp))
        else Some (inr (maskp, 0)) in
      if ndigits =? 0 then Some (inr (maskp, - EINVAL))
      else if (nchunks =? 0) && (chunk =? 0) then next nchunks nbits maskp
      else
        maskp ← __bitmap_shift_left maskp None CHUNKSZ nmaskbits;
        w ← maskp.[0];
        maskp ← maskp.[0 <- Z.lor w chunk];
        let nchunks := s32 (nchunks + 1) in
        let nbits := s32 (nbits + (if nchunks =? 1 then nbits_to_hold_value chunk else CHUNKSZ)) in
        if nbits >? nmaskbits then Some (inr (maskp, - EOVERFLOW))
        else next nchunks nbits maskp
  end.

(** The map and the return value. *)
Definition __bitmap_parse (src : text_source) (buflen : Z) (maskp : list Z) (nmaskbits : Z) : option (list Z * Z) :=
  maskp ← bitmap_zero maskp nmaskbits;
  loop (S (Z.to_nat buflen)) (bitmap_parse_step src nmaskbits) (0, buflen, 0, 0, 0, 0, maskp).

(** [access_ok] is a parameter of the call. *)
Definition bitmap_parse_user (access_ok : bool) (get : Z → option Z) (ulen : Z) (maskp : list Z) (nmaskbits : Z) :
    option (list Z * Z) :=
  if negb access_ok then Some (maskp, - EFAULT) else __bitmap_parse (UserText get) ulen maskp nmaskbits.

Definition bitmap_parse (b : list Z) (buflen : Z) (maskp : list Z) (nmaskbits : Z) : option (list Z * Z) :=
  __bitmap_parse (KernelText b) buflen maskp nmaskbits.

(** [while (a <= b) { set_bit(a, maskp); a++; }] on unsigned counters, [b] below the size. *)
Definition set_range (maskp : list Z) (a b : Z) : option (list Z) :=
  for_up a (b + 1) (λ a maskp, __set_bit a maskp) maskp.

(** A turn of the loop over the ranges. *)
Definition parselist_step (s : list Z) (nmaskbits : Z) (st : Z * list Z) : option (Z * list Z + list Z * Z) :=
  let '(bp, maskp) := st in
  c ← s.[bp];
  if negb (isdigit c) then Some (inr (maskp, - EINVAL)) else
  '(a, bp) ← simple_strtoul s bp BASEDEC;
  c ← s.[bp];
  r ←
    (if c =? 45 then
       let bp := bp + 1 in
       c ← s.[bp];
       if negb (isdigit c) then Some None
       else '(b, bp) ← simple_strtoul s bp BASEDEC; Some (Some (b, bp))
     else Some (Some (a, bp)));
  match r with
  | None => Some (inr (maskp, - EINVAL))
  | Some (b, bp) =>
      if negb (a <=? b) then Some (inr (maskp, - EINVAL))
      else if b >=? nmaskbits then Some (inr (maskp, - ERANGE))
      else
        maskp ← set_range maskp a b;
        c ← s.[bp];
        let bp := if c =? 44 then bp + 1 else bp in
        c ← s.[bp];
        if negb (c =? 0) && negb (c =? 10) then Some (inl (bp, maskp)) else Some (inr (maskp, 0))
  end.

Definition bitmap_parselist (s : list Z) (bp : Z) (maskp : list Z) (nmaskbits : Z) : option (list Z * Z) :=
  maskp ← bitmap_zero maskp nmaskbits;
  loop (S (length s)) (parselist_step s nmaskbits) (bp, maskp).
