(* ===== verification/BitmapParseFacts.v ===== *)
(** * Parsing of bitmap masks

    [__bitmap_parse] on every text of bytes: it accepts exactly the comma-separated
    hexadecimal masks whose value fits the map, and then the map holds the bits of the value;
    every other text is refused with the error of its first fault. *)

From S2P Require Import Prelude Bitops FindBit Bitmap BitmapFacts Words Strings StringsFacts VsprintfDigits BitmapText.
#[local] Open Scope Z_scope.
#[local] Open Scope kernel_scope.

(** ** Texts *)

(** The texts of a list with commas between them. *)
Fixpoint comma_list (l : list (list Z)) : list Z :=
  match l with
  | [] => []
  | [t] => t
  | t :: l => t ++ 44 :: comma_list l
  end.

(** The source yields the characters of [t] from position [p] on. *)
Definition src_has (src : text_source) (p : Z) (t : list Z) : Prop :=
  ∀ i, 0 ≤ i < alen t → fetch src (p + i) = Some t.[i].

Lemma src_has_cons src p c t : src_has src p (c :: t) → fetch src p = Some (Some c) ∧ src_has src (p + 1) t.
Proof.
  intros H. pose proof (alen_nonneg t). split.
  - specialize (H 0). rewrite alen_cons, Z.add_0_r in H. by apply H; lia.
  - intros i Hi. rewrite <- (arr_get_cons c) by lia. rewrite <- H by (rewrite alen_cons; lia). f_equal. lia.
Qed.

Lemma src_has_app src p t t' : src_has src p (t ++ t') → src_has src (p + alen t) t'.
Proof.
  revert p. induction t as [|c t IH]; intros p H.
  - change (alen []) with 0. by rewrite Z.add_0_r.
  - apply src_has_cons in H as [_ H]. apply IH in H. rewrite alen_cons. by replace (p + (1 + alen t)) with (p + 1 + alen t) by lia.
Qed.

(** ** Hexadecimal digits *)

Definition hexdigit (c : Z) : Prop := isxdigit c = true ∧ char c.

(** What the code asks of a digit. *)
Lemma hexdigit_facts c :
  hexdigit c → isspace c = false ∧ ctrue c = true ∧ (c =? 0) = false ∧ (c =? 44) = false ∧ unhex c = dval c ∧ 0 ≤ dval c < 16.
Proof.
  intros [Hx Hc].
  assert (H := byte_all (λ c, negb (isxdigit c) || (negb (isspace c) && ctrue c && negb (c =? 0) && negb (c =? 44) &&
    (unhex c =? dval c) && (0 <=? dval c) && (dval c <? 16))) eq_refl c ltac:(unfold char in Hc; lia)).
  cbv beta in H. rewrite Hx in H. cbn [negb orb] in H. rewrite !andb_true_iff, !negb_true_iff in H.
  destruct H as ((((((? & ?) & ?) & ?) & ?%Z.eqb_eq) & ?%Z.leb_le) & ?%Z.ltb_lt). ands; done.
Qed.

Lemma top_digit chunk :
  urange 32 chunk → ctrue (Z.land chunk (lnot_ul (Z.shiftl 1 (CHUNKSZ - 4) - 1))) = (2 ^ 28 <=? chunk).
Proof.
  intros Hc. change (lnot_ul (Z.shiftl 1 (CHUNKSZ - 4) - 1)) with (Z.shiftl 15 28).
  assert (Z.land chunk (Z.shiftl 15 28) = Z.shiftl (Z.shiftr chunk 28) 28) as ->.
  { apply Z.bits_inj'. intros i Hi. rewrite Z.land_spec, !Z.shiftl_spec by done. destruct (Z.ltb_spec i 28).
    - by rewrite !(Z.testbit_neg_r _ (i - 28)), andb_false_r by lia.
    - rewrite Z.shiftr_spec by lia. replace (i - 28 + 28) with i by lia. change 15 with (Z.ones 4).
      destruct (Z.ltb_spec (i - 28) 4); [by rewrite Z.ones_spec_low, andb_true_r by lia|].
      rewrite Z.ones_spec_high, andb_false_r by lia. symmetry. apply (urange_testbit_high 32); [done|lia]. }
  unfold urange in Hc. rewrite Z.shiftl_mul_pow2, Z.shiftr_div_pow2 by lia.
  destruct (Z.leb_spec (2 ^ 28) chunk).
  - apply ctrue_true. pose proof (Z.div_le_lower_bound chunk (2 ^ 28) 1). lia.
  - by rewrite Z.div_small by lia.
Qed.

Lemma add_digit chunk d : 0 ≤ chunk < 2 ^ 28 → 0 ≤ d < 16 → Z.lor (u32 (Z.shiftl chunk 4)) d = chunk * 16 + d.
Proof.
  intros Hc Hd. rewrite Z.shiftl_mul_pow2 by lia. rewrite uwrap_small by (unfold urange; lia).
  rewrite <- Z.lxor_lor, <- Z.add_nocarry_lxor; [done|..].
  all: apply Z.bits_inj'; intros i Hi; rewrite Z.land_spec, Z.mul_pow2_bits, Z.bits_0 by lia.
  all: destruct (Z.ltb_spec i 4); [by rewrite (Z.testbit_neg_r _ (i - 4)) by lia|].
  all: by rewrite (urange_testbit_high 4 d i), andb_false_r by (done || lia).
Qed.

(** The value of digits behind the number [a]. *)
Definition numacc (a : Z) (ds : list Z) : Z := fold_left (λ a c, a * 16 + dval c) ds a.

Lemma numacc_ge a ds : Forall hexdigit ds → 0 ≤ a → a ≤ numacc a ds.
Proof.
  intros H. revert a. induction H as [|c ds Hc H IH]; intros a Ha; cbn; [lia|].
  apply hexdigit_facts in Hc as (_ & _ & _ & _ & _ & ?). specialize (IH (a * 16 + dval c)). unfold numacc in *. lia.
Qed.

(** ** One chunk *)

Section Chunk.
Context (src : text_source).

Definition chunk_loop (fuel : nat) (pos : Z) (t : list Z) (c chunk nd td : Z) : option (Z + Z * Z * Z * Z * Z * Z) :=
  loop fuel (chunk_step src) (pos, alen t, c, chunk, nd, td).

Lemma ctrue_cons {A} (c : A) t : ctrue (alen (c :: t)) = true.
Proof. apply ctrue_true. rewrite alen_cons. pose proof (alen_nonneg t). lia. Qed.

Lemma last_cons_default (c0 c : Z) l : List.last (c0 :: l) c = List.last l c0.
Proof. revert c0 c. induction l as [|c1 l IH]; intros c0 c; [done|]. change (List.last (c1 :: l) c = List.last (c1 :: l) c0). by rewrite !IH. Qed.

Lemma step_space pos c c0 t chunk nd td :
  fetch src pos = Some (Some c) → isspace c = true →
  chunk_step src (pos, alen (c :: t), c0, chunk, nd, td) = Some (inl (pos + 1, alen t, c, chunk, nd, td)).
Proof.
  intros Hf Hc. unfold chunk_step. rewrite ctrue_cons, Hf. cbn [mbind option_bind]. rewrite Hc, alen_cons.
  by replace (1 + alen t - 1) with (alen t) by lia.
Qed.

Lemma step_digit pos c c0 t chunk nd td :
  fetch src pos = Some (Some c) → hexdigit c → urange 32 chunk → td = 0 ∨ isspace c0 = false →
  0 ≤ nd < 2 ^ 31 - 1 → 0 ≤ td < 2 ^ 31 - 1 →
  chunk_step src (pos, alen (c :: t), c0, chunk, nd, td) =
    Some (if 2 ^ 28 <=? chunk then inr (inl (- EOVERFLOW))
          else inl (pos + 1, alen t, c, chunk * 16 + dval c, nd + 1, td + 1)).
Proof.
  intros Hf Hc Hr Hsp Hnd Htd. unfold chunk_step. rewrite ctrue_cons, Hf, !s32_small by lia. cbn [mbind option_bind].
  destruct (hexdigit_facts c Hc) as (-> & Ht & -> & -> & -> & Hd). rewrite Ht.
  assert (ctrue td && true && isspace c0 = false) as ->.
  { destruct Hsp as [->| ->]; [done|]. by rewrite andb_false_r. }
  cbn [orb]. rewrite (proj1 Hc). cbn [negb]. rewrite top_digit by done. unfold urange in Hr.
  destruct (Z.leb_spec (2 ^ 28) chunk); [done|]. rewrite add_digit, alen_cons by lia.
  by replace (1 + alen t - 1) with (alen t) by lia.
Qed.

(** White space is skipped. *)
Lemma chunk_spaces sp fuel pos t c chunk nd td :
  src_has src pos (sp ++ t) → Forall (λ c, isspace c = true) sp →
  chunk_loop (length sp + fuel) pos (sp ++ t) c chunk nd td =
    chunk_loop fuel (pos + alen sp) t (List.last sp c) chunk nd td.
Proof.
  intros H Hsp. revert pos c H. induction Hsp as [|c0 sp Hc Hsp IH]; intros pos c H.
  { change (alen []) with 0. by rewrite Z.add_0_r. }
  cbn [length plus app] in *. apply src_has_cons in H as [Hf H]. unfold chunk_loop.
  rewrite loop_S, step_space by done. cbn [mbind option_bind].
  fold (chunk_loop (length sp + fuel) (pos + 1) (sp ++ t) c0 chunk nd td). rewrite IH, last_cons_default, alen_cons by done.
  by replace (pos + (1 + alen sp)) with (pos + 1 + alen sp) by lia.
Qed.

(** Digits are added to the chunk until it overflows. *)
Lemma chunk_digits ds fuel pos t c chunk nd td :
  src_has src pos (ds ++ t) → Forall hexdigit ds → urange 32 chunk → td = 0 ∨ isspace c = false →
  0 ≤ nd → nd + alen ds < 2 ^ 31 → 0 ≤ td → td + alen ds < 2 ^ 31 →
  chunk_loop (length ds + fuel) pos (ds ++ t) c chunk nd td =
    if numacc chunk ds <? 2 ^ 32
    then chunk_loop fuel (pos + alen ds) t (List.last ds c) (numacc chunk ds) (nd + alen ds) (td + alen ds)
    else Some (inl (- EOVERFLOW)).
Proof.
  intros H Hds. revert pos c chunk nd td H. induction Hds as [|c0 ds Hc Hds IH]; intros pos c chunk nd td H Hr Hsp Hnd Hnd' Htd Htd'.
  { change (alen []) with 0. cbn. rewrite !Z.add_0_r. unfold urange in Hr. by destruct (Z.ltb_spec chunk (2 ^ 32)); [|lia]. }
  cbn [length plus app] in *. apply src_has_cons in H as [Hf H].
  destruct (hexdigit_facts c0 Hc) as (Hs & _ & _ & _ & _ & Hd).
  change (numacc chunk (c0 :: ds)) with (numacc (chunk * 16 + dval c0) ds).
  assert (Hr' := Hr). unfold urange in Hr'. pose proof (numacc_ge (chunk * 16 + dval c0) ds Hds ltac:(lia)).
  rewrite alen_cons in Hnd', Htd'. pose proof (alen_nonneg ds).
  unfold chunk_loop at 1. rewrite loop_S, step_digit by (done || lia). cbn [mbind option_bind].
  destruct (Z.leb_spec (2 ^ 28) chunk).
  { by destruct (Z.ltb_spec (numacc (chunk * 16 + dval c0) ds) (2 ^ 32)); [lia|]. }
  fold (chunk_loop (length ds + fuel) (pos + 1) (ds ++ t) c0 (chunk * 16 + dval c0) (nd + 1) (td + 1)).
  rewrite IH; [|done|unfold urange; lia|by right|lia..].
  case_match; [|done]. rewrite last_cons_default, alen_cons. f_equal; lia.
Qed.

(** A chunk: white space, digits, and what follows. *)
Lemma parse_chunk_run lead ds pos rest c td :
  src_has src pos (lead ++ ds ++ rest) → Forall (λ c, isspace c = true) lead → Forall hexdigit ds → ds ≠ [] → 0 ≤ td →
  td + alen ds < 2 ^ 31 → td = 0 ∨ lead = [] ∧ isspace c = false →
  parse_chunk src pos (alen (lead ++ ds ++ rest)) c td =
    if numval 16 ds <? 2 ^ 32
    then chunk_loop (S (length rest)) (pos + alen lead + alen ds) rest (List.last ds 0) (numval 16 ds) (alen ds) (td + alen ds)
    else Some (inl (- EOVERFLOW)).
Proof.
  intros H Hl Hd Hne Htd Htd' Hc. unfold parse_chunk.
  replace (S (Z.to_nat (alen (lead ++ ds ++ rest)))) with (length lead + (length ds + S (length rest)))%nat
    by (unfold alen; rewrite !length_app; lia).
  fold (chunk_loop (length lead + (length ds + S (length rest))) pos (lead ++ ds ++ rest) c 0 0 td).
  rewrite chunk_spaces by done. apply src_has_app in H.
  rewrite chunk_digits; [|done|done|by unfold urange| |lia..].
  - unfold numval. fold (numacc 0 ds). rewrite !Z.add_0_l.
    destruct ds as [|c1 ds]; [done|]. by rewrite !last_cons_default.
  - destruct Hc as [?|[-> ?]]; [by left|by right].
Qed.
End Chunk.

(** ** Masks as texts *)

(** The longest part in front whose characters satisfy [p], and what follows it. *)
Fixpoint cut_run (p : Z → bool) (t : list Z) : list Z * list Z :=
  match t with
  | c :: t' => if p c then let '(a, r) := cut_run p t' in (c :: a, r) else ([], t)
  | [] => ([], [])
  end.

(** What may follow the digits of a chunk: white space to the end of the text or to a null
    character ([Some None]), a comma directly behind the digits with more text
    ([Some (Some r)]) or as the last character of the buffer ([Some None]). *)
Definition mask_sep (rest : list Z) : option (option (list Z)) :=
  match rest with
  | [] => Some None
  | c :: r =>
      if c =? 44 then Some (match r with [] => None | _ => Some r end)
      else match (cut_run isspace rest).2 with
           | [] => Some None
           | c :: _ => if c =? 0 then Some None else None
           end
  end.

(** The value of the chunks of [t] behind the value [v], or the error of the first fault. *)
Fixpoint read_mask (fuel : nat) (n v : Z) (t : list Z) : Z + Z :=
  match fuel with
  | O => inl (- EINVAL)
  | S fuel =>
      match cut_run isxdigit t with
      | ([], _) => inl (- EINVAL)
      | (ds, rest) =>
          if numval 16 ds <? 2 ^ 32 then
            match mask_sep rest with
            | None => inl (- EINVAL)
            | Some more =>
                let v := v * 2 ^ 32 + numval 16 ds in
                if v <? 2 ^ n then match more with None => inr v | Some r => read_mask fuel n v r end
                else inl (- EOVERFLOW)
            end
          else inl (- EOVERFLOW)
      end
  end.

(** White space is allowed in front of the first chunk. *)
Definition mask_text (n : Z) (t : list Z) : Z + Z :=
  read_mask (S (length t)) n 0 (cut_run isspace t).2.

(** The text in front of the first null character. *)
Fixpoint before_nul (t : list Z) : list Z :=
  match t with [] => [] | c :: t => if c =? 0 then [] else c :: before_nul t end.

(** White space to the end of the text or to a null character. *)
Definition text_end (t : list Z) : Prop :=
  ∃ sp r, t = sp ++ r ∧ Forall (λ c, isspace c = true) sp ∧ (r = [] ∨ ∃ r', r = 0 :: r').

(** Does [t] start with no character that satisfies [p]? *)
Definition stops (p : Z → bool) (t : list Z) : Prop := match t with [] => True | c :: _ => p c = false end.

Lemma cut_run_spec p t a r : cut_run p t = (a, r) → t = a ++ r ∧ Forall (λ c, p c = true) a ∧ stops p r.
Proof.
  revert a r. induction t as [|c t IH]; intros a r; cbn [cut_run]; [by intros [= <- <-]|].
  destruct (p c) eqn:Ec; [|intros [= <- <-]; by ands].
  destruct (cut_run p t) as [a' r'] eqn:E. intros [= <- <-]. destruct (IH a' r' eq_refl) as (-> & Ha & Hr).
  ands; [done|by constructor|done].
Qed.

Lemma cut_run_app p a r : Forall (λ c, p c = true) a → stops p r → cut_run p (a ++ r) = (a, r).
Proof.
  induction 1 as [|c a Hc Ha IH]; intros Hr.
  - destruct r as [|c r]; [done|]. cbn in *. by rewrite Hr.
  - cbn [app cut_run]. by rewrite Hc, IH.
Qed.

Lemma before_nul_app a r : Forall (λ c, c ≠ 0) a → before_nul (a ++ r) = a ++ before_nul r.
Proof. induction 1 as [|c a Hc Ha IH]; [done|]. cbn. destruct (Z.eqb_spec c 0); [done|]. by rewrite IH. Qed.

Lemma space_facts c : isspace c = true → c ≠ 0 ∧ c ≠ 44 ∧ isxdigit c = false.
Proof.
  intros Hs. ands; [by intros ->|by intros ->|].
  assert (Hr : 0 ≤ u8 c < 256) by (unfold uwrap; apply Z.mod_pos_bound; lia).
  pose proof (byte_all (λ c, negb (isspace c) || negb (isxdigit c)) eq_refl (u8 c) Hr) as H. cbv beta in H.
  assert (E : __ismask (u8 c) = __ismask c) by (unfold __ismask; by rewrite (uwrap_small 8 (u8 c)) by (unfold urange; lia)).
  unfold isspace, isxdigit in *. rewrite E, Hs in H. by apply negb_true_iff in H.
Qed.

Lemma bytes_hex ds : Forall byte ds → Forall (λ c, isxdigit c = true) ds → Forall hexdigit ds.
Proof.
  induction 1 as [|c ds Hc _ IH]; [constructor|]. intros [Hx Hxs]%list.Forall_cons. constructor; [|by apply IH].
  split; [done|]. unfold char, urange in *. assert (c ≠ 0) by (intros ->; done). lia.
Qed.

(** ** A chunk of any text *)

Section AnyChunk.
Context (src : text_source).

(** The loop at the end, or at a character that is neither white space nor a digit that the
    chunk may have at this place. *)
Lemma chunk_stop fuel pos r c0 chunk nd td :
  src_has src pos r → stops isspace r → stops (λ c, isxdigit c && negb (ctrue td && isspace c0)) r →
  chunk_loop src (S fuel) pos r c0 chunk nd td = Some
    (match r with
     | [] => inr (pos, 0, c0, chunk, nd, td)
     | c :: r' =>
         if ctrue td && ctrue c && isspace c0 then inl (- EINVAL)
         else if (c =? 0) || (c =? 44) then inr (pos + 1, alen r', c, chunk, nd, td) else inl (- EINVAL)
     end).
Proof.
  intros H Hs Hx. unfold chunk_loop. rewrite loop_S. destruct r as [|c r]; [done|]. cbn [stops] in Hs, Hx.
  apply src_has_cons in H as [Hf _]. unfold chunk_step. rewrite ctrue_cons, Hf. cbn [mbind option_bind]. rewrite Hs.
  rewrite alen_cons. replace (1 + alen r - 1) with (alen r) by lia.
  destruct (ctrue td && ctrue c && isspace c0) eqn:E; [done|]. destruct ((c =? 0) || (c =? 44)) eqn:E0; [done|].
  assert (ctrue c = true) as Hc by (apply ctrue_true; by destruct (Z.eqb_spec c 0)).
  rewrite Hc, andb_true_r in E. by rewrite E, andb_true_r in Hx; rewrite Hx.
Qed.

Lemma last_space sp c : Forall (λ c, isspace c = true) sp → sp ≠ [] → isspace (List.last sp c) = true.
Proof.
  destruct 1 as [|c1 sp Hc1 Hsp]; [done|]. intros _. rewrite last_cons_default. revert c1 Hc1.
  induction Hsp; intros; [done|]. rewrite last_cons_default. by apply IHHsp.
Qed.

(** White space and then such a place. *)
Lemma chunk_run_out t pos c chunk nd td :
  src_has src pos t → stops (λ c', isxdigit c' && negb (ctrue td && isspace c)) t →
  (ctrue td = false → stops isspace t) →
  chunk_loop src (S (length t)) pos t c chunk nd td = Some
    (let '(sp, r) := cut_run isspace t in let c0 := List.last sp c in
     match r with
     | [] => inr (pos + alen sp, 0, c0, chunk, nd, td)
     | c :: r' =>
         if ctrue td && ctrue c && isspace c0 then inl (- EINVAL)
         else if (c =? 0) || (c =? 44) then inr (pos + alen sp + 1, alen r', c, chunk, nd, td) else inl (- EINVAL)
     end).
Proof.
  intros H Hx Hs. destruct (cut_run isspace t) as [sp r] eqn:E. apply cut_run_spec in E as (-> & Hsp & Hr).
  rewrite length_app, plus_n_Sm, chunk_spaces by done. apply src_has_app in H. rewrite chunk_stop; [done..|].
  destruct Hsp as [|c1 sp Hc1 Hsp]; [done|]. destruct (ctrue td); [|specialize (Hs eq_refl); cbn in Hs; congruence].
  rewrite (last_space (c1 :: sp)) by (done || by constructor).
  destruct r; [done|]. cbn. by rewrite andb_false_r.
Qed.

(** No digit: the chunk is refused. *)
Lemma chunk_empty pos lead t c td :
  src_has src pos (lead ++ t) → Forall (λ c, isspace c = true) lead → stops isxdigit t →
  td = 0 ∧ stops isspace t ∨ td ≠ 0 ∧ lead = [] →
  parse_chunk src pos (alen (lead ++ t)) c td = Some (inl (- EINVAL)) ∨
  ∃ p l c' chunk td', parse_chunk src pos (alen (lead ++ t)) c td = Some (inr (p, l, c', chunk, 0, td')).
Proof.
  intros H Hl Hx Htd. unfold parse_chunk.
  replace (S (Z.to_nat (alen (lead ++ t)))) with (length lead + S (length t))%nat by (unfold alen; rewrite !length_app; lia).
  fold (chunk_loop src (length lead + S (length t)) pos (lead ++ t) c 0 0 td).
  rewrite chunk_spaces by done. apply src_has_app in H. rewrite chunk_run_out; try done.
  - destruct (cut_run isspace t) as [sp [|c1 r]]; [right; by eexists _, _, _, _, _|].
    cbv zeta. repeat case_match; try (by left); right; by eexists _, _, _, _, _.
  - destruct t; [done|]. cbn in *. by rewrite Hx.
  - intros E%ctrue_false. by destruct Htd as [[_ ?]|[? _]].
Qed.

(** The text behind the digits of a chunk. *)
Lemma chunk_rest rest pos c chunk nd td :
  src_has src pos rest → stops isxdigit rest → isspace c = false → c ≠ 44 → 0 < td →
  match mask_sep rest with
  | None => chunk_loop src (S (length rest)) pos rest c chunk nd td = Some (inl (- EINVAL))
  | Some None => ∃ p l c', chunk_loop src (S (length rest)) pos rest c chunk nd td = Some (inr (p, l, c', chunk, nd, td)) ∧
      ctrue l && (c' =? 44) = false
  | Some (Some r) => chunk_loop src (S (length rest)) pos rest c chunk nd td = Some (inr (pos + 1, alen r, 44, chunk, nd, td)) ∧
      rest = 44 :: r ∧ r ≠ []
  end.
Proof.
  intros H Hx Hc Hc44 Htd. assert (ctrue td = true) as Et by (apply ctrue_true; lia).
  rewrite chunk_run_out; [|done| |congruence].
  2:{ destruct rest; [done|]. cbn in *. by rewrite Hx. }
  rewrite Et. unfold mask_sep. destruct rest as [|c1 rest]; [by eexists _, _, _|].
  destruct (Z.eqb_spec c1 44) as [->|Hne].
  { change (cut_run isspace (44 :: rest)) with (@nil Z, 44 :: rest). cbn [List.last]. rewrite Hc.
    change (alen []) with 0. rewrite Z.add_0_r. destruct rest as [|c2 rest]; [by eexists _, _, _|]. by ands. }
  destruct (cut_run isspace (c1 :: rest)) as [sp r] eqn:E. apply cut_run_spec in E as (Er & Hsp & Hr).
  assert (Hl44 : List.last sp c ≠ 44).
  { clear -Hsp Hc44. revert c Hc44. induction Hsp as [|c0 sp H0 Hsp IH]; intros c Hc; [done|]. rewrite last_cons_default.
    apply IH. by intros ->. }
  cbv zeta. cbn [snd]. destruct r as [|c2 r]; [by eexists _, _, _|].
  destruct sp as [|c3 sp].
  - cbn in Er. injection Er as <- <-. cbn [List.last]. rewrite Hc, andb_false_r. change (alen []) with 0.
    destruct (Z.eqb_spec c1 0) as [->|?]; [eexists _, _, _; split; [done|apply andb_false_r]|]. by destruct (Z.eqb_spec c1 44).
  - assert (isspace (List.last (c3 :: sp) c) = true) as Hls by (by apply last_space).
    rewrite Hls. destruct (Z.eqb_spec c2 0) as [->|?].
    + eexists _, _, _; split; [done|apply andb_false_r].
    + assert (ctrue c2 = true) as -> by by apply ctrue_true. done.
Qed.
End AnyChunk.

(** ** The value of a mask *)

Definition mask_value (chunks : list (list Z)) : Z := fold_left (λ v ds, v * 2 ^ 32 + numval 16 ds) chunks 0.

(** The number of bits of a number. *)
Definition bitlen (v : Z) : Z := if v =? 0 then 0 else Z.log2 v + 1.

Lemma bitlen_le v n : 0 ≤ v → 0 ≤ n → (bitlen v >? n) = negb (v <? 2 ^ n).
Proof.
  intros Hv Hn. unfold bitlen. rewrite Z.gtb_ltb. destruct (Z.eqb_spec v 0) as [->|Hz].
  - pose proof (Z.pow_pos_nonneg 2 n ltac:(lia) ltac:(lia)). destruct (Z.ltb_spec n 0), (Z.ltb_spec 0 (2 ^ n)); done || lia.
  - pose proof (Z.log2_lt_pow2 v n ltac:(lia)) as H.
    destruct (Z.ltb_spec n (Z.log2 v + 1)), (Z.ltb_spec v (2 ^ n)); done || lia.
Qed.

Lemma bitlen_shift v c : 0 < v → urange 32 c → bitlen (v * 2 ^ 32 + c) = bitlen v + 32.
Proof.
  intros Hv Hc. unfold urange in Hc. unfold bitlen. destruct (Z.eqb_spec v 0), (Z.eqb_spec (v * 2 ^ 32 + c) 0); try lia.
  assert (Z.log2 (v * 2 ^ 32 + c) = Z.log2 v + 32); [|lia].
  pose proof (Z.log2_nonneg v). destruct (Z.log2_spec v Hv) as [H1 H2]. apply Z.log2_unique; [lia|].
  replace (Z.succ (Z.log2 v + 32)) with (Z.succ (Z.log2 v) + 32) by lia. rewrite !(Z.pow_add_r 2 _ 32) by lia. nia.
Qed.

Lemma fls_bitlen c : urange 32 c → 0 < c → fls c = bitlen c.
Proof.
  intros Hc H0. destruct (fls_spec c) as (H1 & H2 & H3). rewrite uwrap_small in H1, H3 by done. unfold urange in H1.
  unfold bitlen. destruct (Z.eqb_spec c 0); [lia|].
  assert (fls c ≠ 0) by (intros E; rewrite E in H1; lia).
  rewrite (Z.log2_unique c (fls c - 1)); [lia|lia|]. split; [apply H3; lia|]. replace (Z.succ (fls c - 1)) with (fls c) by lia. lia.
Qed.

(** The value behind which a chunk is put. *)
Lemma testbit_chunk v c i : 0 ≤ v → urange 32 c → 0 ≤ i →
  Z.testbit (v * 2 ^ 32 + c) i = if i <? 32 then Z.testbit c i else Z.testbit v (i - 32).
Proof.
  intros Hv Hc Hi. rewrite Z.add_comm, Z.mul_comm, add_shiftl_lxor by (done || lia). rewrite Z.lxor_spec, Z.shiftl_spec by done.
  destruct (Z.ltb_spec i 32); [by rewrite (Z.testbit_neg_r _ (i - 32)), xorb_false_r by lia|].
  by rewrite (urange_testbit_high 32 c i) by (done || lia).
Qed.

(** The map is shifted by a chunk and takes the new one. *)
Lemma mask_step mp n v c :
  bits_in mp n → 0 < n → 0 ≤ v → urange 32 c →
  (∀ i, 0 ≤ i < 32 * BITS_TO_LONGS n → bit mp i = Z.testbit v i) →
  ∃ mp1 w mp2, __bitmap_shift_left mp None CHUNKSZ n = Some mp1 ∧ mp1.[0] = Some w ∧ mp1.[0 <- Z.lor w c] = Some mp2 ∧
    alen mp2 = alen mp ∧ words mp2 ∧ (∀ i, 32 * BITS_TO_LONGS n ≤ i → bit mp2 i = bit mp i) ∧
    (v * 2 ^ 32 + c < 2 ^ n → ∀ i, 0 ≤ i →
       bit mp2 i = if i <? 32 * BITS_TO_LONGS n then Z.testbit (v * 2 ^ 32 + c) i else bit mp i).
Proof.
  intros Hmp Hn Hv Hc Hbits. pose proof (BITS_TO_LONGS_bounds n) as Hlim. pose proof (longs_fit mp n Hmp) as Hfit.
  destruct (__bitmap_shift_left_spec mp None CHUNKSZ n) as (mp1 & E1 & Hl1 & Hw1 & Hb1); [done|done|unfold CHUNKSZ; lia|..].
  { change (CHUNKSZ / 32) with 1. lia. }
  unfold CHUNKSZ in Hb1. cbn [operand] in Hb1.
  destruct (arr_get_lt mp1 0) as [w Hw]; [lia|]. exists mp1, w. rewrite arr_set_lt by lia.
  assert (Hbit : ∀ i, 0 ≤ i → bit (<[Z.to_nat 0:=Z.lor w c]> mp1) i = bit mp1 i || ((i <? 32) && Z.testbit c i)).
  { intros i Hi. unfold bit. change BITS_PER_LONG with 32. pose proof (Z.div_pos i 32 ltac:(lia) ltac:(lia)).
    rewrite arr_get_insert by lia. destruct (Z.ltb_spec i 32).
    - rewrite Z.div_small, Z.mod_small, decide_True, Hw by lia. cbn. by rewrite Z.lor_spec.
    - assert (i / 32 ≠ 0) by (intros E; apply Z.div_small_iff in E; lia). rewrite decide_False by lia. by rewrite orb_false_r. }
  eexists. ands; [done|done|done| | | |].
  - by rewrite alen_insert.
  - apply Forall_insert; [done|]. apply urange_lor; [lia| |done]. by eapply Forall_arr_get.
  - intros i Hi. rewrite Hbit, Hb1 by lia. destruct (Z.ltb_spec i (32 * BITS_TO_LONGS n)), (Z.ltb_spec i 32); try lia.
    by rewrite orb_false_r.
  - intros Hlt i Hi. rewrite Hbit, Hb1, testbit_chunk by done. destruct (Z.ltb_spec i (32 * BITS_TO_LONGS n)).
    + destruct (Z.leb_spec 32 i), (Z.ltb_spec i 32); try lia.
      * rewrite orb_false_r, andb_true_r. rewrite Hbits by lia. destruct (Z.ltb_spec i n); [done|]. cbn. symmetry.
        rewrite <- (urange_testbit_high n (v * 2 ^ 32 + c) i) by (unfold urange in *; lia).
        rewrite testbit_chunk by done. by destruct (Z.ltb_spec i 32); [lia|].
      * by rewrite andb_false_r.
    + destruct (Z.ltb_spec i 32); [lia|]. by rewrite orb_false_r.
Qed.

(** ** All chunks *)

Section Mask.
Context (src : text_source) (n : Z) (mp0 : list Z).
Hypothesis Hn : 0 < n.
Hypothesis Hmp0 : bits_in mp0 n.

(** The map holds the value [v] of the chunks so far. *)
Definition holds (v : Z) (mp : list Z) : Prop :=
  alen mp = alen mp0 ∧ words mp ∧
  ∀ i, 0 ≤ i → bit mp i = if i <? 32 * BITS_TO_LONGS n then Z.testbit v i else bit mp0 i.

(** The words of the object behind the map are those it had. *)
Definition outside_kept (mp : list Z) : Prop :=
  alen mp = alen mp0 ∧ words mp ∧ ∀ i, 32 * BITS_TO_LONGS n ≤ i → bit mp i = bit mp0 i.

Lemma holds_outside v mp : holds v mp → outside_kept mp.
Proof.
  intros (? & ? & Hb). split; [done|]. split; [done|]. intros i Hi. pose proof (BITS_TO_LONGS_bounds n).
  rewrite Hb by lia. by destruct (Z.ltb_spec i (32 * BITS_TO_LONGS n)); [lia|].
Qed.

(** The counters of the loop, [nb] reduced to an [int]. *)
Definition parse_inv (v nch nb : Z) (mp : list Z) : Prop :=
  0 ≤ v < 2 ^ n ∧ nb = s32 (bitlen v) ∧ 0 ≤ nch ∧ 32 * nch ≤ bitlen v + 31 ∧ (nch = 0 ↔ v = 0) ∧ holds v mp.

Lemma bitlen_nonneg v : 0 ≤ bitlen v.
Proof. unfold bitlen. case_match; [lia|]. pose proof (Z.log2_nonneg v). lia. Qed.

(** The counters after another chunk. *)
Lemma bitlen_chunk v nch chunk :
  0 ≤ v → urange 32 chunk → 0 ≤ nch → 32 * nch ≤ bitlen v + 31 → (nch = 0 ↔ v = 0) → (nch =? 0) && (chunk =? 0) = false →
  bitlen v + (if nch + 1 =? 1 then nbits_to_hold_value chunk else CHUNKSZ) = bitlen (v * 2 ^ 32 + chunk) ∧
  32 * (nch + 1) ≤ bitlen (v * 2 ^ 32 + chunk) + 31 ∧ bitlen (v * 2 ^ 32 + chunk) ≤ bitlen v + 32.
Proof.
  intros Hv Hc Hn0 Hle Hnz E. assert (Hc' := Hc). unfold urange in Hc'. destruct (Z.eqb_spec nch 0) as [->|Hne].
  - assert (v = 0) as -> by tauto. cbn in E. apply Z.eqb_neq in E. cbn [Z.eqb Pos.eqb Z.add].
    unfold nbits_to_hold_value. rewrite Z.mul_0_l, !Z.add_0_l, fls_bitlen by (done || lia). change (bitlen 0) with 0 in *.
    pose proof (bitlen_le chunk 32 ltac:(lia) ltac:(lia)) as Hb. unfold bitlen in *.
    destruct (Z.eqb_spec chunk 0); [done|]. pose proof (Z.log2_nonneg chunk).
    destruct (Z.ltb_spec chunk (2 ^ 32)); [|lia]. rewrite Z.gtb_ltb in Hb. apply Z.ltb_ge in Hb. ands; [done|lia..].
  - assert (v ≠ 0) by tauto. rewrite bitlen_shift by (done || lia). destruct (Z.eqb_spec (nch + 1) 1); [lia|]. unfold CHUNKSZ. lia.
Qed.

(** A turn of the loop, where the count of bits does not wrap or the value fits. *)
Lemma parse_step_ok pos l c td nch nb mp v pos' l' c' chunk nd td' :
  parse_chunk src pos l c td = Some (inr (pos', l', c', chunk, nd, td')) → nd ≠ 0 → urange 32 chunk →
  parse_inv v nch nb mp → n + 32 < 2 ^ 31 ∨ v * 2 ^ 32 + chunk < 2 ^ n →
  ∃ mp', if v * 2 ^ 32 + chunk <? 2 ^ n then
      ∃ nch' nb', parse_inv (v * 2 ^ 32 + chunk) nch' nb' mp' ∧
        bitmap_parse_step src n (pos, l, c, td, nch, nb, mp) =
          Some (if ctrue l' && (c' =? 44) then inl (pos', l', c', td', nch', nb', mp') else inr (mp', 0))
    else bitmap_parse_step src n (pos, l, c, td, nch, nb, mp) = Some (inr (mp', - EOVERFLOW)) ∧ outside_kept mp'.
Proof.
  intros Hp Hnd Hc (Hv & -> & Hn0 & Hnb & Hnz & Hh) Hsafe. unfold bitmap_parse_step. rewrite Hp. cbn [mbind option_bind].
  destruct (Z.eqb_spec nd 0); [done|]. assert (Hc' := Hc). unfold urange in Hc'. assert (Hn32 := Hmp0). destruct Hn32 as (_ & Hsz & Hn32).
  assert (Hh' := Hh). destruct Hh' as (Hl & Hw & Hb).
  destruct ((nch =? 0) && (chunk =? 0)) eqn:E.
  - apply andb_true_iff in E as [E1%Z.eqb_eq ->%Z.eqb_eq]. assert (v = 0) as -> by tauto. exists mp.
    rewrite Z.mul_0_l, Z.add_0_r. destruct (Z.ltb_spec 0 (2 ^ n)); [|lia].
    exists nch, (s32 (bitlen 0)). split; [by ands|by case_match].
  - destruct (mask_step mp n v chunk) as (mp1 & w & mp2 & -> & E1 & E2 & Hl2 & Hw2 & Hout & Hb2); try done; try lia.
    { split; [done|]. lia. }
    { intros i Hi. rewrite Hb by lia. by destruct (Z.ltb_spec i (32 * BITS_TO_LONGS n)); [|lia]. }
    cbn [mbind option_bind]. rewrite E1. cbn [mbind option_bind]. rewrite E2. cbn [mbind option_bind]. exists mp2.
    pose proof (bitlen_le v n ltac:(lia) ltac:(lia)) as Hvn. rewrite Z.gtb_ltb in Hvn.
    destruct (Z.ltb_spec v (2 ^ n)) as [_|]; [|lia]. apply Z.ltb_ge in Hvn.
    rewrite (s32_small (nch + 1)), s32_add_l by lia.
    destruct (bitlen_chunk v nch chunk) as (-> & Hnch & Hbl); try done; [lia|].
    pose proof (bitlen_le (v * 2 ^ 32 + chunk) n ltac:(lia) ltac:(lia)) as Hfit. rewrite Z.gtb_ltb in *.
    pose proof (bitlen_nonneg (v * 2 ^ 32 + chunk)). pose proof (s32_le (bitlen (v * 2 ^ 32 + chunk)) ltac:(done)).
    destruct (Z.ltb_spec (v * 2 ^ 32 + chunk) (2 ^ n)); cbn [negb] in Hfit.
    + apply Z.ltb_ge in Hfit. destruct (Z.ltb_spec n (s32 (bitlen (v * 2 ^ 32 + chunk)))); [lia|].
      eexists _, _. split; [|by case_match]. split; [lia|]. split; [done|]. split; [lia|]. split; [done|]. split.
      * split; [lia|]. intros Hz0. assert (v = 0 ∧ chunk = 0) as [-> ->] by lia.
        assert (nch = 0) as -> by tauto. done.
      * split; [lia|]. split; [done|]. intros i Hi. rewrite Hb2 by done. case_match eqn:Ei; [done|]. by rewrite Hb, Ei.
    + apply Z.ltb_lt in Hfit. rewrite s32_small by lia. destruct (Z.ltb_spec n (bitlen (v * 2 ^ 32 + chunk))); [|lia].
      split; [done|]. split; [lia|]. split; [done|]. intros i Hi. rewrite Hout by done. by apply (holds_outside v mp).
Qed.

Definition hex_chunk (ds : list Z) : Prop := Forall hexdigit ds ∧ ds ≠ [].

Lemma numval_hex_nonneg ds : Forall hexdigit ds → 0 ≤ numval 16 ds.
Proof. intros H. by apply (numacc_ge 0 ds). Qed.

Lemma last_digit_not_space ds c : hex_chunk ds → isspace (List.last ds c) = false ∧ List.last ds c ≠ 44.
Proof.
  intros [Hd Hne]. destruct Hd as [|c0 ds H0 Hd]; [done|]. rewrite last_cons_default.
  clear Hne. revert c0 H0. induction Hd as [|c1 ds H1 Hd IH]; intros c0 H0.
  - destruct (hexdigit_facts c0 H0) as (? & _ & _ & ?%Z.eqb_neq & _). done.
  - rewrite last_cons_default. by apply IH.
Qed.

(** The code of a result and what the map holds after it. *)
Definition code (r : Z + Z) : Z := match r with inl e => e | inr _ => 0 end.
Definition parsed (r : Z + Z) (mp : list Z) : Prop :=
  outside_kept mp ∧ match r with inl _ => True | inr v => holds v mp end.

Lemma parse_step_error pos l c td nch nb mp e :
  parse_chunk src pos l c td = Some (inl e) → bitmap_parse_step src n (pos, l, c, td, nch, nb, mp) = Some (inr (mp, e)).
Proof. intros E. unfold bitmap_parse_step. by rewrite E. Qed.

Lemma parse_loop_ok fuel : ∀ lead t pos c td nch nb mp v,
  src_has src pos (lead ++ t) → Forall (λ c, isspace c = true) lead → Forall byte (before_nul t) → (length t < fuel)%nat →
  0 ≤ td → td + alen (before_nul t) < 2 ^ 31 → td = 0 ∧ stops isspace t ∨ td ≠ 0 ∧ lead = [] ∧ isspace c = false →
  parse_inv v nch nb mp → n + 32 < 2 ^ 31 ∨ (∃ v', read_mask fuel n v t = inr v') →
  ∃ mp', loop fuel (bitmap_parse_step src n) (pos, alen (lead ++ t), c, td, nch, nb, mp) =
      Some (mp', code (read_mask fuel n v t)) ∧ parsed (read_mask fuel n v t) mp'.
Proof.
  induction fuel as [|fuel IH]; intros lead t pos c td nch nb mp v Hsrc Hlead Ht Hf Htd Htd' Hsp Hinv Hsafe; [lia|].
  rewrite loop_S. cbn [read_mask] in *. destruct (cut_run isxdigit t) as [ds rest] eqn:E.
  apply cut_run_spec in E as (-> & Hds & Hrest).
  assert (Hnz : Forall (λ c, c ≠ 0) ds) by (eapply List.Forall_impl; [|exact Hds]; by intros c1 Hc1 ->).
  rewrite before_nul_app in Ht, Htd' by done. apply Forall_app in Ht as [Htd1 Htr].
  assert (Hh : outside_kept mp) by (eapply holds_outside, Hinv).
  destruct ds as [|c0 ds0] eqn:Eds; [|rewrite <- Eds in *].
  { exists mp. destruct (chunk_empty src pos lead rest c td) as [E|(p & l & c' & chunk & td2 & E)]; try done; [naive_solver|..].
    - by rewrite (parse_step_error _ _ _ _ _ _ _ _ E).
    - unfold bitmap_parse_step. cbn [app]. by rewrite E. }
  assert (Hne : ds ≠ []) by by subst ds. clear c0 ds0 Eds. pose proof (bytes_hex ds Htd1 Hds) as Hhex.
  rewrite alen_app in Htd'. pose proof (alen_nonneg (before_nul rest)).
  pose proof (parse_chunk_run src lead ds pos rest c td Hsrc Hlead Hhex Hne Htd ltac:(lia) ltac:(naive_solver)) as Hrun.
  pose proof (numval_hex_nonneg ds Hhex) as Hv0.
  destruct (Z.ltb_spec (numval 16 ds) (2 ^ 32)) as [Hsmall|].
  2:{ exists mp. by rewrite (parse_step_error _ _ _ _ _ _ _ _ Hrun). }
  destruct (last_digit_not_space ds 0 (conj Hhex Hne)) as [Hlsp Hl44].
  assert (0 < alen ds) by (destruct ds; [done|]; rewrite alen_cons; pose proof (alen_nonneg ds); lia).
  assert (Hsrc' := Hsrc). apply src_has_app, src_has_app in Hsrc'.
  pose proof (chunk_rest src rest _ (List.last ds 0) (numval 16 ds) (alen ds) (td + alen ds) Hsrc' Hrest Hlsp Hl44 ltac:(lia)) as Hcr.
  destruct (mask_sep rest) as [more|]; [|rewrite Hcr in Hrun; exists mp; by rewrite (parse_step_error _ _ _ _ _ _ _ _ Hrun)].
  cbv zeta in *. set (v1 := v * 2 ^ 32 + numval 16 ds) in *.
  assert (Hs1 : n + 32 < 2 ^ 31 ∨ v1 < 2 ^ n).
  { destruct Hsafe as [?|[v' Hv']]; [by left|right]. by destruct (Z.ltb_spec v1 (2 ^ n)). }
  assert (Hu : urange 32 (numval 16 ds)) by (unfold urange; lia).
  destruct more as [r|].
  - destruct Hcr as (Hcr & -> & Hr). rewrite Hcr in Hrun.
    destruct (parse_step_ok _ _ _ _ nch nb mp v _ _ _ _ _ _ Hrun ltac:(lia) Hu Hinv Hs1) as (mp' & Hstep). fold v1 in Hstep.
    destruct (v1 <? 2 ^ n); [|destruct Hstep as [-> Hk]; by exists mp'].
    destruct Hstep as (nch' & nb' & Hinv' & ->).
    assert (ctrue (alen r) = true) as -> by (by destruct r; [|apply ctrue_cons]).
    cbn [andb Z.eqb Pos.eqb mbind option_bind]. apply src_has_cons in Hsrc' as [_ Hsrc'].
    rewrite length_app in Hf. cbn [length before_nul Z.eqb] in *. rewrite alen_cons in Htd'.
    apply list.Forall_cons in Htr as [_ Htr].
    apply (IH []); try done; [lia|lia|lia|]. right. ands; [lia|done|done].
  - destruct Hcr as (p & l & c' & Hcr & Hstop). rewrite Hcr in Hrun.
    destruct (parse_step_ok _ _ _ _ nch nb mp v _ _ _ _ _ _ Hrun ltac:(lia) Hu Hinv Hs1) as (mp' & Hstep). fold v1 in Hstep.
    destruct (v1 <? 2 ^ n); [|destruct Hstep as [-> Hk]; by exists mp'].
    destruct Hstep as (nch' & nb' & Hinv' & ->). rewrite Hstop. exists mp'. split; [done|].
    split; [|apply Hinv']. eapply holds_outside, Hinv'.
Qed.
End Mask.

(** ** The grammar of the masks *)

(** The chunks fit a word each and the value [v] of the chunks the map. *)
Definition accepted (n v : Z) (chunks : list (list Z)) : bool :=
  forallb (λ ds, numval 16 ds <? 2 ^ 32) chunks && (fold_left (λ v ds, v * 2 ^ 32 + numval 16 ds) chunks v <? 2 ^ n).

(** What may stand behind the last chunk. *)
Definition mask_end (tail : list Z) : Prop := text_end tail ∨ tail = [44].

Lemma value_ge v chunks :
  Forall hex_chunk chunks → 0 ≤ v → v ≤ fold_left (λ v ds, v * 2 ^ 32 + numval 16 ds) chunks v.
Proof.
  intros H. revert v. induction H as [|ds chunks [Hd _] H IH]; intros v Hv; cbn [fold_left]; [lia|].
  pose proof (numval_hex_nonneg ds Hd). specialize (IH (v * 2 ^ 32 + numval 16 ds)). lia.
Qed.

Lemma mask_end_sep tail : mask_end tail ↔ mask_sep tail = Some None.
Proof.
  unfold mask_sep. split.
  - intros [(sp & r & -> & Hsp & Hr)| ->]; [|done].
    rewrite cut_run_app; [|done|by destruct Hr as [->|[r' ->]]]. cbn [snd].
    destruct (sp ++ r) as [|c t] eqn:E; [done|].
    assert (c ≠ 44).
    { destruct Hsp as [|c0 sp H0 _]; [|injection E as <- _; by apply space_facts]. destruct Hr as [->|[r' ->]]; [done|]. by injection E as <- _. }
    destruct (Z.eqb_spec c 44); [done|]. by destruct Hr as [->|[r' ->]].
  - destruct tail as [|c t]; [by intros _; left; exists [], []; ands; [|constructor|left]|].
    destruct (Z.eqb_spec c 44) as [->|_].
    + destruct t; [by right|done].
    + destruct (cut_run isspace (c :: t)) as [sp r] eqn:E. apply cut_run_spec in E as (-> & Hsp & _). cbn [snd].
      intros H. left. exists sp, r. ands; [done|done|]. destruct r as [|c1 r]; [by left|right].
      destruct (Z.eqb_spec c1 0) as [->|]; [by eexists|done].
Qed.

Lemma mask_end_stops tail : mask_end tail → stops isxdigit tail.
Proof.
  intros [(sp & r & -> & Hsp & Hr)| ->]; [|done]. destruct Hsp as [|c sp Hc _].
  - by destruct Hr as [->|[r' ->]].
  - by apply space_facts.
Qed.

(** The text behind the first chunk. *)
Definition behind (chunks : list (list Z)) (tail : list Z) : list Z :=
  match chunks with [] => tail | _ => 44 :: comma_list chunks ++ tail end.

Lemma comma_list_behind ds chunks tail : comma_list (ds :: chunks) ++ tail = ds ++ behind chunks tail.
Proof. destruct chunks; [done|]. cbn [comma_list behind]. by rewrite <- app_assoc. Qed.

Lemma behind_sep chunks tail : Forall hex_chunk chunks → mask_end tail →
  stops isxdigit (behind chunks tail) ∧
  mask_sep (behind chunks tail) = Some (match chunks with [] => None | _ => Some (comma_list chunks ++ tail) end).
Proof.
  intros H He. destruct H as [|ds chunks [Hd Hne] Hch]; [by split; [apply mask_end_stops|apply mask_end_sep]|].
  split; [done|]. cbn [behind mask_sep Z.eqb Pos.eqb]. rewrite comma_list_behind. by destruct ds.
Qed.

Lemma read_mask_chunks chunks tail n : ∀ fuel v,
  Forall hex_chunk chunks → chunks ≠ [] → mask_end tail → 0 ≤ v → (length (comma_list chunks ++ tail) < fuel)%nat →
  accepted n v chunks = true →
  read_mask fuel n v (comma_list chunks ++ tail) = inr (fold_left (λ v ds, v * 2 ^ 32 + numval 16 ds) chunks v).
Proof.
  induction chunks as [|ds chunks IH]; intros fuel v Hch Hne He Hv Hf Hacc; [done|].
  apply list.Forall_cons in Hch as [[Hd Hdne] Hch]. destruct fuel as [|fuel]; [lia|]. cbn [read_mask].
  destruct (behind_sep chunks tail Hch He) as [Hst Hsep]. rewrite comma_list_behind in *. rewrite length_app in Hf.
  rewrite cut_run_app; [|apply (List.Forall_impl _ (λ c (H : hexdigit c), proj1 H)), Hd|done].
  unfold accepted in Hacc. cbn [forallb fold_left] in *. rewrite !andb_true_iff in Hacc. destruct Hacc as [[-> Hall] Hval].
  rewrite Hsep. pose proof (numval_hex_nonneg ds Hd). pose proof (value_ge (v * 2 ^ 32 + numval 16 ds) chunks Hch ltac:(lia)).
  apply Z.ltb_lt in Hval as Hval'. cbv zeta. destruct (Z.ltb_spec (v * 2 ^ 32 + numval 16 ds) (2 ^ n)); [|lia].
  destruct ds as [|c0 ds]; [done|]. destruct chunks as [|ds' chunks]; [done|].
  apply IH; try done; [lia|cbn [behind length] in Hf; cbn [length] in *; lia|]. unfold accepted. by rewrite Hall.
Qed.

Lemma read_mask_inv n : ∀ fuel v t v', Forall byte t → read_mask fuel n v t = inr v' →
  ∃ chunks tail, t = comma_list chunks ++ tail ∧ Forall hex_chunk chunks ∧ chunks ≠ [] ∧ mask_end tail ∧
    accepted n v chunks = true ∧ v' = fold_left (λ v ds, v * 2 ^ 32 + numval 16 ds) chunks v.
Proof.
  induction fuel as [|fuel IH]; intros v t v' Hb; [done|]. cbn [read_mask].
  destruct (cut_run isxdigit t) as [ds rest] eqn:E. apply cut_run_spec in E as (-> & Hds & Hst).
  apply Forall_app in Hb as [Hb1 Hb2]. pose proof (bytes_hex ds Hb1 Hds) as Hhex.
  assert (Hc : ds ≠ [] → hex_chunk ds) by (by split).
  destruct ds as [|c0 ds0]; [done|]. specialize (Hc ltac:(done)). set (ds := c0 :: ds0) in *.
  destruct (numval 16 ds <? 2 ^ 32) eqn:Es; [|done]. destruct (mask_sep rest) as [[r|]|] eqn:Er; [| |done].
  all: cbv zeta; destruct (v * 2 ^ 32 + numval 16 ds <? 2 ^ n) eqn:Ev; [|done]; intros H.
  - destruct rest as [|c rest]; [done|]. cbn [mask_sep] in Er. destruct (Z.eqb_spec c 44) as [->|].
    2:{ destruct (cut_run isspace (c :: rest)) as [sp [|c1 r1]]; [done|]. cbn [snd] in Er. by destruct (c1 =? 0). }
    assert (rest = r) as -> by (destruct rest; [done|]; by injection Er). apply list.Forall_cons in Hb2 as [_ Hb2].
    destruct (IH _ _ _ Hb2 H) as (chunks & tail & -> & Hch & Hne & He & Hacc & ->).
    exists (ds :: chunks), tail. rewrite comma_list_behind. unfold accepted in *. cbn [forallb fold_left]. rewrite Es.
    ands; try done; [by destruct chunks|by constructor].
  - injection H as <-. exists [ds], rest. unfold accepted. cbn [forallb fold_left comma_list]. rewrite Es, Ev.
    ands; try done; [by constructor; [|constructor]|by apply mask_end_sep].
Qed.

(** The masks and their values. *)
Definition mask_parts (t lead : list Z) (chunks : list (list Z)) (tail : list Z) : Prop :=
  t = lead ++ comma_list chunks ++ tail ∧ Forall (λ c, isspace c = true) lead ∧
  Forall hex_chunk chunks ∧ chunks ≠ [] ∧ mask_end tail.

Lemma mask_parts_stops t lead chunks tail : mask_parts t lead chunks tail → stops isspace (comma_list chunks ++ tail).
Proof.
  intros (_ & _ & Hch & Hne & _). destruct Hch as [|ds chunks [Hd Hdne] _]; [done|]. rewrite comma_list_behind.
  destruct Hd as [|c ds Hc _]; [done|]. cbn. by apply hexdigit_facts.
Qed.

Lemma mask_text_mask n t lead chunks tail :
  mask_parts t lead chunks tail → accepted n 0 chunks = true → mask_text n t = inr (mask_value chunks).
Proof.
  intros Hp Hacc. assert (Hs := mask_parts_stops _ _ _ _ Hp). unfold mask_text.
  destruct Hp as (-> & Hl & Hch & Hne & He). rewrite cut_run_app by done. cbn [snd].
  apply read_mask_chunks; try done. rewrite !length_app. lia.
Qed.

Lemma comma_list_chars chunks : Forall hex_chunk chunks → Forall char (comma_list chunks).
Proof.
  induction 1 as [|ds chunks [Hd _] Hch IH]; [constructor|].
  assert (Forall char ds) by (eapply List.Forall_impl; [|exact Hd]; by intros c []).
  destruct chunks; [done|]. apply Forall_app. split; [done|]. by constructor.
Qed.

Lemma mask_text_grammar n t v : Forall byte t →
  mask_text n t = inr v ↔ ∃ lead chunks tail, mask_parts t lead chunks tail ∧ accepted n 0 chunks = true ∧ v = mask_value chunks.
Proof.
  intros Hb. split.
  - unfold mask_text. destruct (cut_run isspace t) as [lead t'] eqn:E. apply cut_run_spec in E as (-> & Hl & _). cbn [snd].
    apply Forall_app in Hb as [_ Hb]. intros (chunks & tail & -> & Hch & Hne & He & Hacc & ->)%read_mask_inv; [|done].
    by exists lead, chunks, tail.
  - intros (lead & chunks & tail & Hp & Hacc & ->). by eapply mask_text_mask.
Qed.

(** The parser on any text. *)
Lemma bitmap_parse_ok src maskp n t :
  bits_in maskp n → 0 < n → src_has src 0 t → Forall byte (before_nul t) → alen (before_nul t) < 2 ^ 31 →
  n + 32 < 2 ^ 31 ∨ (∃ v, mask_text n t = inr v) →
  ∃ maskp', __bitmap_parse src (alen t) maskp n = Some (maskp', code (mask_text n t)) ∧ parsed n maskp (mask_text n t) maskp'.
Proof.
  intros Hmap Hn Hsrc Hb Hlen Hsafe. unfold __bitmap_parse, mask_text in *.
  destruct (bitmap_zero_spec maskp n Hmap) as (mp & -> & Hl & Hw & Hbit). cbn [mbind option_bind].
  destruct (cut_run isspace t) as [lead t'] eqn:E. apply cut_run_spec in E as (-> & Hlead & Hst). cbn [snd] in *.
  rewrite before_nul_app in Hb, Hlen by (eapply List.Forall_impl; [|exact Hlead]; intros c Hc; by apply space_facts).
  apply Forall_app in Hb as [_ Hb]. rewrite alen_app in Hlen. pose proof (alen_nonneg lead).
  replace (Z.to_nat (alen (lead ++ t'))) with (length (lead ++ t')) by (unfold alen; lia).
  apply (parse_loop_ok src n maskp Hn Hmap (S (length (lead ++ t'))) lead t' 0 0 0 0 0 mp 0); try done.
  - rewrite length_app. lia.
  - lia.
  - by left.
  - pose proof (Z.pow_pos_nonneg 2 n ltac:(lia) ltac:(lia)). unfold parse_inv. ands; [lia|lia|done|lia|done|done|].
    split; [done|]. split; [done|]. intros i Hi. rewrite Hbit by done. by rewrite Z.bits_0.
Qed.

(** C14: [__bitmap_parse] on every text of bytes shorter than 2^31, from kernel or from readable
    user memory, for a map of 0 < [nmaskbits] <= 2^31 - 33 bits (so that the [int] count of bits
    does not wrap), stays inside text and map and returns what [mask_text] says: 0 for a mask,
    and for any other text the error of its first fault from the left (-EINVAL for a missing
    digit, a character that is none, white space inside the mask, or text behind the mask;
    -EOVERFLOW for a chunk of 2^32 or more and for a value of 2^nmaskbits or more). A text is
    accepted exactly when it is white space, hexadecimal chunks below 2^32 with commas between
    them whose value is below 2^nmaskbits, and white space to the end or to a null character
    (or one comma as the last character of the buffer); then the words of the map hold the
    bits of the value. The object behind the map is never touched. *)
Theorem bitmap_parse_correct (src : text_source) (maskp : list Z) (nmaskbits : Z) (t : list Z)
  (Hmap : bits_in maskp nmaskbits) (Hbits : 0 < nmaskbits ≤ 2 ^ 31 - 33)
  (Hsrc : src_has src 0 t) (Ht : Forall byte t) (Hlen : alen t < 2 ^ 31) :
  ∃ maskp', __bitmap_parse src (alen t) maskp nmaskbits = Some (maskp', code (mask_text nmaskbits t)) ∧
    alen maskp' = alen maskp ∧ words maskp' ∧
    (∀ i, 32 * BITS_TO_LONGS nmaskbits ≤ i → bit maskp' i = bit maskp i) ∧
    (∀ v, mask_text nmaskbits t = inr v ↔
       ∃ lead chunks tail, mask_parts t lead chunks tail ∧
         forallb (λ ds, numval 16 ds <? 2 ^ 32) chunks && (mask_value chunks <? 2 ^ nmaskbits) = true ∧ v = mask_value chunks) ∧
    (∀ v, mask_text nmaskbits t = inr v →
       ∀ i, 0 ≤ i < 32 * BITS_TO_LONGS nmaskbits → bit maskp' i = Z.testbit v i).
Proof.
  assert (Hnul : alen (before_nul t) ≤ alen t ∧ Forall byte (before_nul t)).
  { clear -Ht. induction Ht as [|c t Hc Ht IH]; [by split|]. cbn [before_nul]. pose proof (alen_nonneg t).
    case_match; rewrite ?alen_cons; change (alen []) with 0; (split; [lia|]); [apply List.Forall_nil|apply list.Forall_cons; by split; [|apply IH]]. }
  destruct (bitmap_parse_ok src maskp nmaskbits t Hmap ltac:(lia) Hsrc (proj2 Hnul) ltac:(lia) ltac:(left; lia)) as (mp' & E & (Hl & Hw & Ho) & Hv).
  exists mp'. ands; try done.
  - intros v. by apply mask_text_grammar.
  - intros v Ev i Hi. rewrite Ev in Hv. destruct Hv as (_ & _ & Hb). rewrite Hb by lia.
    by destruct (Z.ltb_spec i (32 * BITS_TO_LONGS nmaskbits)); [|lia].
Qed.

(** " 3,0000000f" and a line feed into a map of 40 bits and into one of 33 bits, and "3 f". *)
Definition witness_mask : list Z := [32; 51; 44; 48; 48; 48; 48; 48; 48; 48; 102; 10].

Lemma bitmap_parse_correct_witness :
  (∃ mp, bitmap_parse witness_mask 12 [5; 6; 7] 40 = Some (mp, 0) ∧ bit mp 33 = true) ∧
  (∃ mp, bitmap_parse witness_mask 12 [5; 6; 7] 33 = Some (mp, - EOVERFLOW)) ∧
  (∃ mp, bitmap_parse [51; 32; 102] 3 [5; 6; 7] 33 = Some (mp, - EINVAL)).
Proof.
  assert (Hb : ∀ n, 0 ≤ n ≤ 96 → bits_in [5; 6; 7] n).
  { intros n Hn. split; [by repeat constructor|]. change (alen [5; 6; 7]) with 3. lia. }
  assert (Hs : ∀ t, src_has (KernelText t) 0 t).
  { intros t i Hi. unfold fetch. rewrite Z.add_0_l. destruct (arr_get_lt _ i Hi) as [x ->]. done. }
  split; [|split].
  - destruct (bitmap_parse_correct _ [5; 6; 7] 40 witness_mask (Hb 40 ltac:(lia)) ltac:(lia) (Hs _) ltac:(by repeat constructor) ltac:(done))
      as (mp & E & _ & _ & _ & _ & Hbit). exists mp. split; [exact E|].
    rewrite (Hbit (3 * 2 ^ 32 + 15)) by (reflexivity || by split). reflexivity.
  - destruct (bitmap_parse_correct _ [5; 6; 7] 33 witness_mask (Hb 33 ltac:(lia)) ltac:(lia) (Hs _) ltac:(by repeat constructor) ltac:(done))
      as (mp & E & _). exists mp. exact E.
  - destruct (bitmap_parse_correct _ [5; 6; 7] 33 [51; 32; 102] (Hb 33 ltac:(lia)) ltac:(lia) (Hs _) ltac:(by repeat constructor) ltac:(done))
      as (mp & E & _). exists mp. exact E.
Defined.
