(* ===== verification/BitmapPrintFacts.v ===== *)
(** * Printing of bitmap masks

    [bitmap_scnprintf] writes the mask as comma-separated hexadecimal chunks, and
    [bitmap_parse] reads it back. *)

From S2P Require Import Prelude Bitops FindBit Bitmap BitmapFacts Words Strings StringsFacts Vsprintf VsprintfDigits VsprintfOut VsprintfFmt VsprintfFacts VsprintfRound BitmapText BitmapParseFacts.
#[local] Open Scope Z_scope.
#[local] Open Scope kernel_scope.

(** ** A text in pieces *)


(** What [scnprintf] adds behind a text that is cut off at the size of the buffer. *)
Lemma stored_append size T t m :
  0 < size ≤ alen m →
  let L := Z.min (alen T) (size - 1) in
  take (Z.to_nat L) (stored size T m) ++ stored (size - L) t (drop (Z.to_nat L) (stored size T m)) = stored size (T ++ t) m ∧
  alen (stored size T m) = alen m ∧ L + Z.min (alen t) (size - L - 1) = Z.min (alen (T ++ t)) (size - 1).
Proof.
  intros Hs L. pose proof (alen_nonneg T). pose proof (alen_nonneg t).
  assert (Hst : ∀ T, stored size T m = take (Z.to_nat (Z.min (alen T) (size - 1))) T ++ 0 :: drop (S (Z.to_nat (Z.min (alen T) (size - 1)))) m).
  { intros T'. unfold stored. by destruct (Z.eqb_spec size 0); [lia|]. }
  rewrite !Hst. fold L. assert (Hlen : length (take (Z.to_nat L) T) = Z.to_nat L) by (rewrite length_take; unfold alen in *; lia).
  rewrite take_app_length', drop_app_length' by done. ands.
  - unfold stored. destruct (Z.eqb_spec (size - L) 0); [lia|]. cbv zeta. cbn [drop]. rewrite skipn_skipn, alen_app.
    set (n' := Z.min (alen t) (size - L - 1)). rewrite app_assoc.
    assert (Hn : Z.min (alen T + alen t) (size - 1) = L + n') by lia. rewrite Hn.
    assert (take (Z.to_nat (L + n')) (T ++ t) = take (Z.to_nat L) T ++ take (Z.to_nat n') t) as ->.
    { destruct (decide (alen T ≤ size - 1)).
      - rewrite take_app. f_equal; [rewrite !take_ge by (unfold alen in *; lia); done|f_equal; unfold alen in *; lia].
      - replace n' with 0 by lia. rewrite Z.add_0_r, app_nil_r. rewrite take_app_le; [done|]. unfold alen in *; lia. }
    f_equal. f_equal. f_equal. lia.
  - rewrite alen_app. change (0 :: ?l) with ([0] ++ l). rewrite alen_app. unfold alen. rewrite Hlen, length_drop. cbn [length].
    unfold alen in *. lia.
  - rewrite alen_app. lia.
Qed.

Section Print.
Context (symbol_string resource_string : Z → Z → out → Z → list Z → printf_spec → Z → option out).
Context (buf size : Z) (m : list Z).
Hypothesis Hsize : 0 < size ≤ alen m.
Hypothesis Hsize31 : size < 2 ^ 31.
Hypothesis Hbuf : 0 ≤ buf.

Abbreviation scnprintf_at := (scnprintf_at symbol_string resource_string).

(** The buffer and the length behind the text [t]. *)
Definition printed (t : list Z) : list Z * Z := (stored size t m, Z.min (alen t) (size - 1)).

Lemma scnprintf_at_ok T fmt args t :
  prints fmt 0 args t [] → buf + alen (T ++ t) < 2 ^ 32 - 1 → alen t < 2 ^ 31 - 1 →
  ∃ m' r, scnprintf_at (printed T).1 buf (printed T).2 (size - (printed T).2) fmt args = Some (m', r) ∧
    (m', (printed T).2 + r) = printed (T ++ t).
Proof.
  intros Hp Hb Ht. destruct (stored_append size T t m Hsize) as (Hst & Hal & Hlen). unfold printed at 1 2 3. cbn [fst snd].
  set (L := Z.min (alen T) (size - 1)) in *. pose proof (alen_nonneg T). pose proof (alen_nonneg t). rewrite alen_app in Hb.
  unfold BitmapText.scnprintf_at. rewrite Hal. destruct (Z.leb_spec 0 L), (Z.leb_spec L (alen m)); try lia. cbn [andb].
  rewrite uwrap_small by (unfold urange; lia).
  rewrite (scnprintf_ok _ _ _ _ _ _ _ _ t []); [|done|lia|lia|lia|rewrite alen_drop by (rewrite Hal; lia); lia].
  cbn [mbind option_bind]. eexists _, _. split; [done|]. unfold printed. cbn [snd]. fold L. by rewrite Hst, Hlen.
Qed.

Lemma scnprintf_at_start fmt args t :
  prints fmt 0 args t [] → buf + alen t < 2 ^ 32 - 1 → alen t < 2 ^ 31 - 1 →
  ∃ m' r, scnprintf_at m buf 0 (size - 0) fmt args = Some (m', r) ∧ (m', 0 + r) = printed t.
Proof.
  intros Hp Hb Ht. unfold BitmapText.scnprintf_at. destruct (Z.leb_spec 0 (alen m)); [|lia]. cbn [Z.leb Z.compare andb].
  rewrite uwrap_small by (unfold urange; lia). pose proof (alen_nonneg t). change (drop (Z.to_nat 0) m) with m.
  rewrite (scnprintf_ok _ _ _ _ _ _ _ _ t []) by (done || lia). rewrite Some_bind.
  eexists _, _. split; [done|]. unfold printed. by rewrite Z.sub_0_r.
Qed.

(** ** Chunks *)

(** A number as [w] hexadecimal digits, or more where it needs them. *)
Definition hex_field (w v : Z) : list Z :=
  let ds := numeral_text 16 true v in rep 48 (w - alen ds) ++ ds.

Lemma string_text_plain t s : field_width s = -1 → precision s = -1 → string_text t s = t.
Proof.
  intros Hw Hp. unfold string_text. rewrite Hw, Hp. cbn [Z.ltb Z.compare]. pose proof (alen_nonneg t).
  rewrite rep_neg by lia. case_match; [by rewrite app_nil_r|done].
Qed.

Lemma hex_number_text w v : number_text v (conv_spec Ql Cx (flags_of [48]) w (-1)) = hex_field w v.
Proof.
  unfold number_text, hex_field. cbv zeta. change (sign_text _ _) with (@nil Z). change (prefix_text _) with (@nil Z).
  change (precision _) with (-1). change (field_width _) with w. change (magnitude v _) with v.
  change (base _) with 16. change (has _ SMALL) with true. change (has _ LEFT) with false. change (has _ ZEROPAD) with true.
  set (ds := numeral_text 16 true v). pose proof (alen_nonneg ds). by rewrite (rep_neg 48 (-1 - alen ds)) by lia.
Qed.

(** %s without width or precision, %0*lx and %d. *)
Lemma render_plain_string addr obj t args pos :
  PAGE_SIZE ≤ addr → cstring obj = Some t → alen t < 2 ^ 31 →
  render_dir (Directive [] NoCount NoCount QNone Cs) (VPtr addr obj :: args) pos = Some (t, [], args).
Proof.
  intros Ha Ht Hl. unfold render_dir. cbn [d_width d_prec d_flags d_mod d_conv render_width render_prec].
  rewrite !Some_bind. unfold render_conv. cbn [va_ptr]. rewrite Some_bind.
  destruct (Z.ltb_spec addr PAGE_SIZE); [lia|]. rewrite Ht, Some_bind. destruct (Z.ltb_spec (alen t) (2 ^ 31)); [|lia].
  by rewrite string_text_plain.
Qed.

Lemma render_hex_field w v args pos :
  0 ≤ w < 2 ^ 15 → urange 32 v →
  render_dir (Directive [48] Star NoCount Ql Cx) (VWord w :: VWord v :: args) pos = Some (hex_field w v, [], args).
Proof.
  intros Hw Hv. unfold render_dir. cbn [d_width d_prec d_flags d_mod d_conv render_width render_prec va_word].
  rewrite Some_bind, s32_small, bool_decide_true by lia. rewrite !Some_bind. unfold render_conv, va_num.
  change (type _) with FORMAT_TYPE_ULONG. cbn [va_word]. rewrite !Some_bind, uwrap_small by done.
  unfold star_width, star_flags. destruct (Z.ltb_spec w 0); [lia|]. by rewrite hex_number_text.
Qed.

Lemma chunk_prints first w v :
  0 ≤ w < 2 ^ 15 → urange 32 v →
  prints chunk_fmt 0 [chunk_sep first; VWord w; VWord v] ((if first then [] else [44]) ++ hex_field w v) [].
Proof.
  intros Hw Hv. exists [([], Directive [] NoCount NoCount QNone Cs); ([], Directive [48] Star NoCount Ql Cx)], [].
  split; [|split].
  - apply (cstr_snoc [37; 115; 37; 48; 42; 108; 120]). by repeat constructor.
  - cbn. ands; try done; by repeat constructor.
  - cbn [render]. unfold chunk_sep. rewrite (render_plain_string _ _ (if first then [] else [44])) by (by destruct first).
    rewrite Some_bind, render_hex_field, !Some_bind by done. by rewrite !app_nil_r.
Qed.

(** ** The mask *)

(** The chunks of the words below [k], the highest first. *)
Fixpoint low_chunks (maskp : list Z) (k : nat) : list (list Z) :=
  match k with O => [] | S k => hex_field 8 (wd maskp (Z.of_nat k)) :: low_chunks maskp k end.

(** The chunks of a map of [n] bits: the highest holds the bits that do not fill a word. *)
Definition mask_chunks (maskp : list Z) (n : Z) : list (list Z) :=
  let top := (n - 1) / 32 in
  let r := n - 32 * top in
  hex_field ((r + 3) / 4) (Z.land (wd maskp top) (Z.ones r)) :: low_chunks maskp (Z.to_nat top).

Lemma comma_list_cons t l : comma_list (t :: l) = t ++ concat (map (cons 44) l).
Proof.
  revert t. induction l as [|t' l IH]; intros t; [by rewrite app_nil_r|].
  change (comma_list (t :: t' :: l)) with (t ++ 44 :: comma_list (t' :: l)). by rewrite IH.
Qed.

Section Mask.
Context (maskp : list Z).
Hypothesis Hmask : words maskp.

Abbreviation mask_step := (bitmap_scnprintf_step symbol_string resource_string buf size maskp).

Lemma wd_word k : 0 ≤ k < alen maskp → maskp.[k] = Some (wd maskp k) ∧ urange 32 (wd maskp k).
Proof.
  intros Hk. destruct (arr_get_lt maskp k Hk) as [w Hw]. unfold wd. rewrite Hw. split; [done|]. by eapply Forall_arr_get.
Qed.

(** A turn, given what [scnprintf] does with the text of the chunk. *)
Lemma mask_step_ok k sz (first : bool) m0 len0 t' :
  0 ≤ k < alen maskp → 1 ≤ sz ≤ 32 → let v := Z.land (wd maskp k) (Z.ones sz) in
  (∀ fmt args, prints fmt 0 args ((if first then [] else [44]) ++ hex_field ((sz + 3) / 4) v) [] →
     ∃ m' r, scnprintf_at m0 buf len0 (size - len0) fmt args = Some (m', r) ∧ (m', len0 + r) = printed t') →
  mask_step (32 * k, sz, first, m0, len0) = Some (inl (32 * (k - 1), 32, false, (printed t').1, (printed t').2)).
Proof.
  intros Hk Hsz v Hat. unfold bitmap_scnprintf_step. rewrite Z.geb_leb. destruct (Z.leb_spec 0 (32 * k)); [|lia].
  change BITS_PER_LONG with 32. rewrite (Z.mul_comm 32 k), Z.div_mul, Z.mod_mul by lia.
  destruct (wd_word k Hk) as [-> Hw]. rewrite Some_bind, Z.shiftr_0_r.
  assert (u32 (u64 (Z.shiftl 1 sz) - 1) = Z.ones sz) as ->.
  { pose proof (Z.pow_le_mono_r 2 sz 32 ltac:(lia) ltac:(lia)). pose proof (Z.pow_pos_nonneg 2 sz ltac:(lia) ltac:(lia)).
    rewrite Z.shiftl_1_l, (uwrap_small 64) by (unfold urange; lia). rewrite uwrap_small by (unfold urange; lia). rewrite Z.ones_equiv. lia. }
  fold v. assert (Hv : urange 32 v) by (apply urange_land_l; [lia|done|rewrite Z.ones_equiv; pose proof (Z.pow_pos_nonneg 2 sz); lia]).
  assert (0 ≤ (sz + 3) / 4 < 2 ^ 15) by (Z.to_euclidean_division_equations; lia).
  destruct (Hat chunk_fmt [chunk_sep first; VWord ((sz + 3) / 4); VWord v]) as (m' & r & -> & E); [by apply chunk_prints|].
  rewrite Some_bind, <- E. cbn [fst snd]. unfold CHUNKSZ. do 6 f_equal. lia.
Qed.

Lemma low_loop_ok k : ∀ fuel T,
  Z.of_nat k ≤ alen maskp → (k < fuel)%nat →
  let t := T ++ concat (map (cons 44) (low_chunks maskp k)) in
  buf + alen t < 2 ^ 32 - 1 → alen t < 2 ^ 31 - 1 →
  loop fuel mask_step (32 * (Z.of_nat k - 1), 32, false, (printed T).1, (printed T).2) = Some (printed t).
Proof.
  induction k as [|k IH]; intros fuel T Hk Hf t Hb Ht; (destruct fuel as [|fuel]; [lia|]); rewrite loop_S.
  - cbn in t. subst t. rewrite app_nil_r. unfold bitmap_scnprintf_step. by cbn [Z.of_nat Z.sub Z.mul Z.geb Z.compare].
  - destruct (wd_word (Z.of_nat k)) as [_ Hw]; [lia|].
    assert (Hv : Z.land (wd maskp (Z.of_nat k)) (Z.ones 32) = wd maskp (Z.of_nat k)).
    { rewrite Z.land_ones by lia. by apply Z.mod_small. }
    cbn [low_chunks map concat] in t. set (t1 := 44 :: hex_field 8 (wd maskp (Z.of_nat k))).
    assert (Ht' : t = (T ++ t1) ++ concat (map (cons 44) (low_chunks maskp k))) by (unfold t, t1; by rewrite <- app_assoc).
    rewrite Ht' in Hb, Ht. rewrite alen_app in Hb, Ht.
    pose proof (alen_nonneg (concat (map (cons 44) (low_chunks maskp k)))). pose proof (alen_nonneg T).
    replace (Z.of_nat (S k) - 1) with (Z.of_nat k) by lia.
    rewrite (mask_step_ok _ _ _ _ _ (T ++ t1)); [|lia|lia|].
    + rewrite Some_bind, Ht'. apply IH; [lia|lia|rewrite alen_app; lia|rewrite alen_app; lia].
    + intros fmt args Hp. rewrite Hv in Hp. rewrite (alen_app T) in Ht. apply scnprintf_at_ok; [done|lia|].
      change (alen t1 < 2 ^ 31 - 1). lia.
Qed.

Lemma bitmap_scnprintf_ok n :
  0 < n ≤ 32 * alen maskp → let t := comma_list (mask_chunks maskp n) in
  buf + alen t < 2 ^ 32 - 1 → alen t < 2 ^ 31 - 1 →
  bitmap_scnprintf symbol_string resource_string m buf size maskp n = Some (printed t).
Proof.
  intros Hn t Hb Ht. subst t. unfold mask_chunks in *. set (top := (n - 1) / 32) in *. set (r := n - 32 * top) in *.
  assert (Htop : 0 ≤ top ∧ top < alen maskp ∧ 1 ≤ r ≤ 32) by (subst r top; Z.to_euclidean_division_equations; lia).
  unfold bitmap_scnprintf. cbv zeta. unfold CHUNKSZ.
  assert (Hr : (if Z.land n (32 - 1) =? 0 then 32 else Z.land n (32 - 1)) = r).
  { change (32 - 1) with (Z.ones 5). rewrite Z.land_ones by lia. change (2 ^ 5) with 32. subst r top.
    destruct (Z.eqb_spec (n mod 32) 0); Z.to_euclidean_division_equations; lia. }
  assert (Hi : ALIGN n 32 - 32 = 32 * top).
  { unfold ALIGN. change (32 - 1) with (Z.ones 5). rewrite <- Z.ldiff_land, Z.ldiff_ones_r by lia.
    rewrite Z.shiftl_mul_pow2, Z.shiftr_div_pow2 by lia. change (2 ^ 5) with 32. change (Z.ones 5) with 31. subst top.
    Z.to_euclidean_division_equations; lia. }
  rewrite Hr, Hi, comma_list_cons in *. set (t0 := hex_field ((r + 3) / 4) (Z.land (wd maskp top) (Z.ones r))) in *.
  rewrite alen_app in Hb, Ht. pose proof (alen_nonneg (concat (map (cons 44) (low_chunks maskp (Z.to_nat top))))).
  rewrite loop_S, (mask_step_ok _ _ _ _ _ t0); [|lia|lia|].
  - rewrite Some_bind. replace (32 * (top - 1)) with (32 * (Z.of_nat (Z.to_nat top) - 1)) by lia.
    apply low_loop_ok; [lia|unfold alen in *; lia|rewrite alen_app; lia|rewrite alen_app; lia].
  - intros fmt args Hp. apply scnprintf_at_start; [done|lia|lia].
Qed.
End Mask.
End Print.

(** ** The round trip *)

Lemma numval_zeros k ds : numval 16 (replicate k 48 ++ ds) = numval 16 ds.
Proof. induction k as [|k IH]; [done|]. cbn [replicate app]. by rewrite numval_cons0. Qed.

Lemma hex_field_ok w v : urange 32 v → numval 16 (hex_field w v) = v ∧ hex_chunk (hex_field w v).
Proof.
  intros Hv. assert (Hv' : urange 64 v) by (unfold urange in *; lia).
  destruct (numval_text 16 true v ltac:(lia) Hv') as [Hval HF]. unfold hex_field. cbv zeta. unfold rep. split; [by rewrite numval_zeros|].
  split.
  - apply Forall_app. split; [apply Forall_replicate; split; [done|unfold char; lia]|].
    eapply List.Forall_impl; [|exact HF]. intros c [Hd Hc]. split; [|done]. by apply andb_true_iff in Hd as [? _].
  - pose proof (alen_numeral_22 16 true v ltac:(lia) Hv') as Hal. destruct (numeral_text 16 true v); [change (alen []) with 0 in Hal; lia|].
    by destruct (replicate _ _).
Qed.

Section Value.
Context (maskp : list Z).
Hypothesis Hmask : words maskp.

Lemma low_chunks_ok k : Z.of_nat k ≤ alen maskp →
  Forall hex_chunk (low_chunks maskp k) ∧ Forall (λ ds, numval 16 ds < 2 ^ 32) (low_chunks maskp k) ∧
  ∀ v i, 0 ≤ v → 0 ≤ i → Z.testbit (fold_left (λ v ds, v * 2 ^ 32 + numval 16 ds) (low_chunks maskp k) v) i =
    if i <? 32 * Z.of_nat k then bit maskp i else Z.testbit v (i - 32 * Z.of_nat k).
Proof.
  induction k as [|k IH]; intros Hk.
  { cbn [low_chunks fold_left]. ands; [done|done|]. intros v i Hv Hi. destruct (Z.ltb_spec i (32 * Z.of_nat 0)); [lia|]. f_equal. lia. }
  destruct IH as (H1 & H2 & H3); [lia|]. destruct (wd_word maskp Hmask (Z.of_nat k)) as [Hg Hw]; [lia|].
  destruct (hex_field_ok 8 _ Hw) as [Hv Hc]. cbn [low_chunks fold_left]. rewrite Hv. assert (Hw' := Hw). unfold urange in Hw'.
  ands; [by constructor|constructor; [lia|done]|]. intros v i Hv0 Hi. rewrite H3 by lia.
  destruct (Z.ltb_spec i (32 * Z.of_nat k)), (Z.ltb_spec i (32 * Z.of_nat (S k))); try lia; [done| |].
  - rewrite testbit_chunk by (done || lia). destruct (Z.ltb_spec (i - 32 * Z.of_nat k) 32); [|lia].
    unfold bit. change BITS_PER_LONG with 32.
    assert (i / 32 = Z.of_nat k ∧ i mod 32 = i - 32 * Z.of_nat k) as [-> ->] by (Z.to_euclidean_division_equations; lia). by rewrite Hg.
  - rewrite testbit_chunk by (done || lia). destruct (Z.ltb_spec (i - 32 * Z.of_nat k) 32); [lia|]. f_equal. lia.
Qed.

(** The chunks of a map are well formed and their value has the bits of the map. *)
Lemma mask_chunks_ok n : 0 < n ≤ 32 * alen maskp →
  Forall hex_chunk (mask_chunks maskp n) ∧ accepted n 0 (mask_chunks maskp n) = true ∧
  ∀ i, 0 ≤ i → Z.testbit (mask_value (mask_chunks maskp n)) i = (i <? n) && bit maskp i.
Proof.
  intros Hn. unfold mask_chunks. set (top := (n - 1) / 32). set (r := n - 32 * top).
  assert (Htop : 0 ≤ top ∧ top < alen maskp ∧ 1 ≤ r ≤ 32) by (subst r top; Z.to_euclidean_division_equations; lia).
  destruct (wd_word maskp Hmask top) as [Hg Hw]; [lia|]. destruct (low_chunks_ok (Z.to_nat top)) as (H1 & H2 & H3); [lia|].
  set (v := Z.land (wd maskp top) (Z.ones r)).
  assert (Hv : urange 32 v) by (apply urange_land_l; [lia|done|rewrite Z.ones_equiv; pose proof (Z.pow_pos_nonneg 2 r); lia]).
  destruct (hex_field_ok ((r + 3) / 4) v Hv) as [Hval Hc].
  assert (Hbits : ∀ i, 0 ≤ i → Z.testbit (mask_value (hex_field ((r + 3) / 4) v :: low_chunks maskp (Z.to_nat top))) i = (i <? n) && bit maskp i).
  { intros i Hi. unfold mask_value. cbn [fold_left]. rewrite Hval. assert (Hv' := Hv). unfold urange in Hv'. rewrite H3 by lia.
    rewrite Z2Nat.id by lia. destruct (Z.ltb_spec i (32 * top)).
    - destruct (Z.ltb_spec i n); [done|lia].
    - rewrite Z.mul_0_l, Z.add_0_l. unfold v. rewrite Z.land_spec, testbit_ones by lia. unfold bit. change BITS_PER_LONG with 32.
      destruct (Z.ltb_spec (i - 32 * top) r), (Z.ltb_spec i n); try lia; rewrite ?andb_false_r; [|done..].
      assert (i / 32 = top ∧ i mod 32 = i - 32 * top) as [-> ->] by (Z.to_euclidean_division_equations; lia).
      by rewrite Hg, andb_true_r. }
  ands; [by constructor| |done]. unfold accepted. apply andb_true_iff. split.
  - cbn [forallb]. rewrite Hval. unfold urange in Hv. apply andb_true_iff. split; [apply Z.ltb_lt; lia|].
    apply forallb_forall. intros ds Hds. apply Z.ltb_lt. by apply (proj1 (List.Forall_forall _ _) H2).
  - apply Z.ltb_lt. fold (mask_value (hex_field ((r + 3) / 4) v :: low_chunks maskp (Z.to_nat top))).
    apply (urange_of_bits n); [lia| |].
    + apply (value_ge 0); [|done]. by constructor.
    + intros i Hi. rewrite Hbits by lia. by destruct (Z.ltb_spec i n); [lia|].
Qed.
End Value.

(** A string with the rest of its buffer behind it. *)
Lemma stored_split size t m :
  alen t < size ≤ alen m → stored size t m = t ++ 0 :: drop (S (length t)) m.
Proof.
  intros Hs. pose proof (alen_nonneg t). unfold stored. destruct (Z.eqb_spec size 0); [lia|]. cbv zeta.
  replace (Z.min (alen t) (size - 1)) with (alen t) by lia. unfold alen. by rewrite Nat2Z.id, take_ge by lia.
Qed.

Lemma kernel_text b t : (∃ r, b = t ++ r) → src_has (KernelText b) 0 t.
Proof.
  intros [r ->] i Hi. unfold fetch. rewrite Z.add_0_l, arr_get_app, decide_True by lia. by destruct (arr_get_lt t i Hi) as [x ->].
Qed.

(** C15: [bitmap_scnprintf] writes the bits of a map below [n] as comma-separated hexadecimal
    chunks of 32 bits, the highest first and only as wide as its bits need, cut off like the
    text of [scnprintf] where the buffer is short, and returns the number of characters;
    [bitmap_parse] reads a text that is not cut off, from the characters written or from any
    longer part of the buffer, back into the same bits. *)
Theorem bitmap_print_parse_roundtrip
  (symbol_string resource_string : Z → Z → out → Z → list Z → printf_spec → Z → option out)
  (m : list Z) (buf buflen : Z) (maskp : list Z) (n : Z)
  (Hbuflen : 0 < buflen ≤ alen m ∧ buflen < 2 ^ 31) (Hmap : bits_in maskp n) (Hn : 0 < n)
  (Hbuf : 0 ≤ buf ∧ buf + alen (comma_list (mask_chunks maskp n)) < 2 ^ 32 - 1)
  (Hlen : alen (comma_list (mask_chunks maskp n)) < 2 ^ 31 - 1) :
  let t := comma_list (mask_chunks maskp n) in
  let m' := stored buflen t m in
  bitmap_scnprintf symbol_string resource_string m buf buflen maskp n = Some (m', Z.min (alen t) (buflen - 1)) ∧
  (alen t < buflen → ∀ len old, alen t ≤ len ≤ alen m → bits_in old n →
   ∃ new, bitmap_parse m' len old n = Some (new, 0) ∧ ∀ i, 0 ≤ i < n → bit new i = bit maskp i).
Proof.
  intros t m'. destruct Hmap as (Hw & Hsz & _). destruct (mask_chunks_ok maskp Hw n) as (Hch & Hacc & Hval); [lia|].
  split; [apply bitmap_scnprintf_ok; done || lia|]. intros Hfit len old Hle Hold. subst m'. rewrite stored_split by lia.
  set (rest := 0 :: drop (S (length t)) m).
  assert (Hrest : alen rest = alen m - alen t) by (subst rest; unfold alen in *; cbn [length]; rewrite length_drop; lia).
  set (tail := take (Z.to_nat (len - alen t)) rest).
  assert (Htail : alen tail = len - alen t) by (apply alen_take; lia).
  assert (Hend : tail = [] ∨ ∃ r', tail = 0 :: r').
  { subst tail rest. destruct (Z.to_nat (len - alen t)); [by left|right; by eexists]. }
  pose proof (comma_list_chars _ Hch) as Hchars. fold t in Hchars.
  assert (Hnul : before_nul (t ++ tail) = t).
  { rewrite before_nul_app by (eapply List.Forall_impl; [|exact Hchars]; intros c Hc; unfold char in Hc; lia).
    destruct Hend as [->|[r' ->]]; apply app_nil_r. }
  assert (Hmask : mask_text n (t ++ tail) = inr (mask_value (mask_chunks maskp n))).
  { apply (mask_text_mask n _ [] _ tail); [|done]. split; [done|]. split; [constructor|]. split; [done|]. split; [done|].
    left. by exists [], tail. }
  destruct (bitmap_parse_ok (KernelText (t ++ rest)) old n (t ++ tail)) as (new & E & _ & Hb); try done.
  - apply kernel_text. exists (drop (Z.to_nat (len - alen t)) rest). rewrite <- app_assoc. f_equal. symmetry. apply take_drop.
  - rewrite Hnul. eapply List.Forall_impl; [|exact Hchars]. intros c Hc. unfold char, urange in *. lia.
  - rewrite Hnul. subst t. lia.
  - right. by eexists.
  - exists new. rewrite alen_app, Htail, Hmask in E. replace (alen t + (len - alen t)) with len in E by lia.
    split; [exact E|]. rewrite Hmask in Hb. destruct Hb as (_ & _ & Hb). intros i Hi. rewrite Hb, Hval by lia.
    pose proof (BITS_TO_LONGS_bounds n). destruct (Z.ltb_spec i (32 * BITS_TO_LONGS n)), (Z.ltb_spec i n); lia || done.
Qed.

Lemma bitmap_print_parse_roundtrip_witness :
  ∃ m', bitmap_scnprintf (λ _ _ _ _ _ _ _, None) (λ _ _ _ _ _ _ _, None) (repeat 1 16) 0xc1000000 16 [0xbeef; 0x35] 38 = Some (m', 11) ∧
    ∃ new, bitmap_parse m' 16 [1; 2; 3] 38 = Some (new, 0) ∧ bit new 37 = true ∧ bit new 35 = false.
Proof.
  assert (Hb : bits_in [0xbeef; 0x35] 38) by (split; [by repeat constructor|vm_compute; by ands]).
  assert (Ho : bits_in [1; 2; 3] 38) by (split; [by repeat constructor|vm_compute; by ands]).
  destruct (bitmap_print_parse_roundtrip (λ _ _ _ _ _ _ _, None) (λ _ _ _ _ _ _ _, None) (repeat 1 16) 0xc1000000 16 [0xbeef; 0x35] 38
    ltac:(vm_compute; by ands) Hb ltac:(lia) ltac:(vm_compute; by ands) ltac:(vm_compute; done)) as [E Hp].
  eexists. split; [exact E|]. destruct (Hp ltac:(vm_compute; done) 16 [1; 2; 3] ltac:(vm_compute; by ands) Ho) as (new & E' & Hbit).
  exists new. split; [exact E'|]. split; rewrite Hbit by lia; reflexivity.
Defined.

(** With a size of 0 the first [scnprintf] returns -1, and the next chunk is written to
    [buf - 1] with a size of 1: out of the buffer. *)
Theorem bitmap_scnprintf_underrun :
  bitmap_scnprintf (λ _ _ _ _ _ _ _, None) (λ _ _ _ _ _ _ _, None) (repeat 1 16) 0xc1000000 0 [1] 32 = Some (repeat 1 16, -1) ∧
  bitmap_scnprintf (λ _ _ _ _ _ _ _, None) (λ _ _ _ _ _ _ _, None) (repeat 1 16) 0xc1000000 0 [1; 1] 64 = None.
Proof. split; reflexivity. Qed.
