(* ===== verification/BitmapListFacts.v ===== *)
(** * Bitmaps as lists of ranges

    [bitmap_parselist] sets exactly the bits of the ranges of a text, and reads back what
    [bitmap_scnlistprintf] writes for a map that is not empty. *)

From S2P Require Import Prelude Bitops FindBit Bitmap BitmapFacts Words Strings StringsFacts Vsprintf VsprintfDigits VsprintfOut VsprintfFmt VsprintfFacts VsprintfRound BitmapText BitmapParseFacts BitmapPrintFacts.
#[local] Open Scope Z_scope.
#[local] Open Scope kernel_scope.

(** ** Texts of ranges *)

Definition decdigit (c : Z) : Prop := isdigit c = true ∧ char c.
Definition decimal (ds : list Z) : Prop := Forall decdigit ds ∧ ds ≠ [].

(** A number, or two with a hyphen between them. *)
Record item := Item { item_lo : list Z; item_hi : option (list Z) }.

Definition item_text (it : item) : list Z := item_lo it ++ match item_hi it with Some hi => 45 :: hi | None => [] end.
Definition item_ok (it : item) : Prop := decimal (item_lo it) ∧ match item_hi it with Some hi => decimal hi | None => True end.

(** The numbers are reduced to [unsigned int]. *)
Definition item_range (it : item) : Z * Z :=
  (u32 (numval 10 (item_lo it)), u32 (numval 10 (default (item_lo it) (item_hi it)))).

Definition in_ranges (rs : list (Z * Z)) (i : Z) : bool := existsb (λ '(a, b), (a <=? i) && (i <=? b)) rs.

(** The ranges before the first bad one, and the error of that one. *)
Fixpoint scan_ranges (n : Z) (rs : list (Z * Z)) : Z * list (Z * Z) :=
  match rs with
  | [] => (0, [])
  | (a, b) :: rs =>
      if negb (a <=? b) then (- EINVAL, []) else if b >=? n then (- ERANGE, [])
      else let '(err, good) := scan_ranges n rs in (err, (a, b) :: good)
  end.

Lemma decdigit_facts c : decdigit c → is_dig 10 c = true ∧ (c =? 0) = false ∧ (c =? 10) = false ∧ (c =? 44) = false ∧ (c =? 45) = false.
Proof.
  intros [Hd Hc].
  assert (H := byte_all (λ c, negb (isdigit c) || (is_dig 10 c && negb (c =? 0) && negb (c =? 10) && negb (c =? 44) && negb (c =? 45)))
    eq_refl c ltac:(unfold char in Hc; lia)).
  cbv beta in H. rewrite Hd in H. cbn [negb orb] in H. rewrite !andb_true_iff, !negb_true_iff in H.
  destruct H as ((((? & ?) & ?) & ?) & ?). by ands.
Qed.

Lemma decimal_head b p ds rest :
  decimal ds → cstr b p (ds ++ rest) → ∃ c, b.[p] = Some c ∧ decdigit c.
Proof. intros [Hd Hne] H. destruct Hd as [|c ds Hc Hd]; [done|]. exists c. split; [apply H|done]. Qed.

Lemma strtoul_decimal b p ds rest :
  Forall decdigit ds → cstr b p (ds ++ rest) → no_digit 10 rest →
  simple_strtoul b p BASEDEC = Some (u32 (numval 10 ds), p + alen ds).
Proof.
  intros Hd H Hno. rewrite (strtoul_ok b p (ds ++ rest)) by done. change (base_of BASEDEC (ds ++ rest)) with 10. cbv zeta.
  assert (Hh : ∀ t, hex_prefix 10 t = []).
  { intros [|c0 [|c1 t]]; unfold hex_prefix; try done; destruct c0 as [|q|q]; try done; do 6 (destruct q as [q|q|]; try done). }
  unfold number_digits. rewrite Hh. change (drop (length []) (ds ++ rest)) with (ds ++ rest).
  rewrite digits_prefix_app; [|eapply List.Forall_impl; [|exact Hd]; intros c Hc; by apply decdigit_facts|done].
  change (alen []) with 0. by rewrite Z.add_0_r.
Qed.

(** ** One range *)

Lemma set_range_spec mp a b :
  words mp → 0 ≤ a ≤ b → b < 32 * alen mp →
  ∃ mp', set_range mp a b = Some mp' ∧ alen mp' = alen mp ∧ words mp' ∧
    ∀ i, 0 ≤ i → bit mp' i = bit mp i || ((a <=? i) && (i <=? b)).
Proof.
  intros Hw Hab Hb. unfold set_range.
  destruct (for_up_rule (λ k mp', alen mp' = alen mp ∧ words mp' ∧ ∀ i, 0 ≤ i → bit mp' i = bit mp i || ((a <=? i) && (i <? k)))
    a (b + 1) (λ a maskp, __set_bit a maskp) mp) as (mp' & E & Hl & Hw' & Hi); [lia| | |].
  - ands; [done|done|]. intros i Hi. destruct (Z.leb_spec a i), (Z.ltb_spec i a); try lia; by rewrite orb_false_r.
  - intros k mp1 Hk (Hl1 & Hw1 & Hb1). destruct (__set_bit_spec k mp1) as (mp2 & E2 & Hl2 & Hw2 & Hb2); [done|lia|].
    exists mp2. ands; [done|lia|done|]. intros i Hi. rewrite Hb2, Hb1 by done.
    destruct (bit mp i), (Z.eqb_spec i k), (Z.leb_spec a i), (Z.ltb_spec i k), (Z.ltb_spec i (k + 1)); try lia; done.
  - exists mp'. ands; [done|done|done|]. intros i H0. rewrite Hi by done. f_equal. f_equal.
    destruct (Z.ltb_spec i (b + 1)), (Z.leb_spec i b); done || lia.
Qed.

(** The end of the text, a line feed or a comma follows a range. *)
Definition sep_head (t : list Z) : Prop := t = [] ∨ ∃ c r, t = c :: r ∧ (c = 44 ∨ c = 10).
Definition after_comma (t : list Z) : Z := match t with 44 :: _ => 1 | _ => 0 end.

Lemma sep_char s p t : cstr s p t → sep_head t → ∃ c, s.[p] = Some c ∧ (c =? 45) = false ∧ (if c =? 44 then p + 1 else p) = p + after_comma t.
Proof.
  intros H [->|(c & r & -> & Hc)]; cbn in H.
  - exists 0. split; [done|]. split; [done|]. cbn. lia.
  - exists c. destruct H as (-> & _). destruct Hc as [-> | ->]; (split; [done|]); (split; [done|]); cbn; lia.
Qed.

Lemma parselist_step_ok s n p it rest mp :
  cstr s p (item_text it ++ rest) → item_ok it → sep_head rest →
  let '(a, b) := item_range it in let q := p + alen (item_text it) + after_comma rest in
  parselist_step s n (p, mp) =
    if negb (a <=? b) then Some (inr (mp, - EINVAL)) else if b >=? n then Some (inr (mp, - ERANGE))
    else mp' ← set_range mp a b; c ← s.[q]; if negb (c =? 0) && negb (c =? 10) then Some (inl (q, mp')) else Some (inr (mp', 0)).
Proof.
  intros H [Hlo Hhi] Hsep. destruct it as [lo hi]. unfold item_text, item_range in *. cbn [item_lo item_hi] in *.
  assert (Hno : no_digit 10 rest) by (by destruct Hsep as [->|(c & r & -> & [-> | ->])]).
  rewrite <- app_assoc in H. destruct (decimal_head _ _ _ _ Hlo H) as (c0 & Hc0 & [Hdc0 _]).
  unfold parselist_step. rewrite Hc0, Some_bind, Hdc0. cbn [negb].
  rewrite (strtoul_decimal s p lo _ (proj1 Hlo) H) by (by destruct hi). rewrite Some_bind. apply cstr_app in H.
  rewrite alen_app. destruct hi as [hi|]; cbn [default app] in *.
  - destruct H as (-> & _ & H). rewrite Some_bind. cbn [Z.eqb Pos.eqb].
    destruct (decimal_head _ _ _ _ Hhi H) as (c1 & Hc1 & [Hdc1 _]). rewrite Hc1, Some_bind, Hdc1. cbn [negb].
    rewrite (strtoul_decimal s _ hi _ (proj1 Hhi) H Hno), !Some_bind. apply cstr_app in H.
    destruct (sep_char s _ rest H Hsep) as (c & -> & _ & Hq). rewrite alen_cons. change (id hi) with hi.
    destruct (negb _); [done|]. destruct (_ >=? n); [done|]. destruct (set_range mp _ _); [|done]. rewrite !Some_bind, Hq.
    by replace (p + alen lo + 1 + alen hi) with (p + (alen lo + (1 + alen hi))) by lia.
  - destruct (sep_char s _ rest H Hsep) as (c & Hg & Hc & Hq). rewrite Hg, Some_bind, Hc, !Some_bind. change (alen []) with 0. rewrite Z.add_0_r.
    destruct (negb _); [done|]. destruct (_ >=? n); [done|]. destruct (set_range mp _ _); [|done]. by rewrite !Some_bind, Hg, Some_bind, Hq.
Qed.

(** ** All ranges *)

(** The end of the string or a line feed, with a comma before it or not. *)
Definition list_end (t : list Z) : Prop :=
  t = [] ∨ (∃ r, t = 10 :: r) ∨ t = [44] ∨ ∃ r, t = 44 :: 10 :: r.

Lemma list_end_stop s p t : cstr s p t → list_end t →
  sep_head t ∧ ∃ c, s.[p + after_comma t] = Some c ∧ negb (c =? 0) && negb (c =? 10) = false.
Proof.
  intros H [->|[[r ->]|[->|[r ->]]]]; cbn [cstr] in H.
  - split; [by left|]. exists 0. cbn. by rewrite Z.add_0_r.
  - split; [right; by eauto|]. exists 10. cbn. rewrite Z.add_0_r. split; [apply H|done].
  - split; [right; by eauto|]. exists 0. split; [apply H|done].
  - split; [right; by eauto|]. exists 10. split; [apply H|done].
Qed.

Lemma parselist_loop_ok s n tail : ∀ items p mp fuel,
  cstr s p (comma_list (map item_text items) ++ tail) → Forall item_ok items → items ≠ [] → list_end tail →
  words mp → n ≤ 32 * alen mp → (length items < fuel)%nat →
  let '(err, good) := scan_ranges n (map item_range items) in
  ∃ mp', loop fuel (parselist_step s n) (p, mp) = Some (mp', err) ∧ alen mp' = alen mp ∧ words mp' ∧
    ∀ i, 0 ≤ i → bit mp' i = bit mp i || in_ranges good i.
Proof.
  induction items as [|it items IH]; intros p mp fuel H Hok Hne Htail Hw Hn Hf; [done|].
  apply list.Forall_cons in Hok as [Hit Hok]. destruct fuel as [|fuel]; [lia|]. cbn [length] in Hf. rewrite loop_S.
  set (rest := if bool_decide (items = []) then tail else 44 :: comma_list (map item_text items) ++ tail).
  assert (Htext : comma_list (map item_text (it :: items)) ++ tail = item_text it ++ rest).
  { subst rest. destruct items; [done|]. cbn [map comma_list bool_decide]. by rewrite <- app_assoc. }
  rewrite Htext in H. clear Htext Hne. pose proof (cstr_app _ _ _ _ H) as Hrest.
  assert (Hsep : sep_head rest ∧ ∃ c, s.[p + alen (item_text it) + after_comma rest] = Some c ∧
    negb (c =? 0) && negb (c =? 10) = negb (bool_decide (items = []))).
  { subst rest. destruct (bool_decide_reflect (items = [])) as [->|Hmore].
    - by apply list_end_stop.
    - split; [right; by eauto|]. destruct Hrest as (_ & _ & Hrest). cbn [after_comma].
      destruct items as [|it' items]; [done|]. apply list.Forall_cons in Hok as [[Hlo _] _].
      assert (∃ u, comma_list (map item_text (it' :: items)) ++ tail = item_lo it' ++ u) as [u Hu].
      { rewrite map_cons, comma_list_cons. unfold item_text at 1. eexists. by rewrite <- !app_assoc. }
      rewrite Hu in Hrest. destruct (decimal_head _ _ _ _ Hlo Hrest) as (c & Hc & Hd). exists c. split; [done|].
      by destruct (decdigit_facts c Hd) as (_ & -> & -> & _). }
  destruct Hsep as (Hsep & c & Hc & Hmore). pose proof (parselist_step_ok s n p it rest mp H Hit Hsep) as Hstep.
  cbn [map scan_ranges]. destruct (item_range it) as [a b] eqn:Er. cbv zeta in Hstep. rewrite Hstep.
  destruct (Z.leb_spec a b); cbn [negb].
  2:{ exists mp. ands; [done|done|done|]. intros i Hi. by rewrite orb_false_r. }
  destruct (b >=? n) eqn:Eb.
  { exists mp. ands; [done|done|done|]. intros i Hi. by rewrite orb_false_r. }
  assert (0 ≤ a) by (unfold item_range in Er; simplify_eq; apply Z.mod_pos_bound; lia).
  destruct (set_range_spec mp a b) as (mp1 & -> & Hl1 & Hw1 & Hb1); [done|lia|rewrite Z.geb_leb in Eb; apply Z.leb_gt in Eb; lia|].
  rewrite Some_bind, Hc, Some_bind, Hmore. subst rest. destruct (bool_decide_reflect (items = [])) as [->|Hm]; cbn [negb].
  - cbn [map scan_ranges]. exists mp1. ands; [done|done|done|]. intros i Hi. rewrite Hb1 by done. cbn [in_ranges existsb]. by rewrite orb_false_r.
  - cbn [mbind option_bind after_comma]. destruct Hrest as (_ & _ & Hrest).
    specialize (IH _ mp1 fuel Hrest Hok Hm Htail Hw1 ltac:(lia) ltac:(lia)). destruct (scan_ranges n (map item_range items)) as [err good].
    destruct IH as (mp' & E & Hl' & Hw' & Hb'). exists mp'. ands; [done|lia|done|]. intros i Hi. rewrite Hb', Hb1 by done.
    cbn [in_ranges existsb]. by rewrite orb_assoc.
Qed.

Lemma bitmap_parselist_ok s p maskp n items tail :
  cstr s p (comma_list (map item_text items) ++ tail) → Forall item_ok items → items ≠ [] → list_end tail → bits_in maskp n →
  let '(err, good) := scan_ranges n (map item_range items) in
  ∃ maskp', bitmap_parselist s p maskp n = Some (maskp', err) ∧ alen maskp' = alen maskp ∧ words maskp' ∧
    ∀ i, 0 ≤ i → bit maskp' i = if i <? 32 * BITS_TO_LONGS n then in_ranges good i else bit maskp i || in_ranges good i.
Proof.
  intros H Hok Hne Htail Hmap. unfold bitmap_parselist.
  destruct (bitmap_zero_spec maskp n Hmap) as (mp & -> & Hl & Hw & Hb). rewrite Some_bind. unfold bits_in in Hmap.
  assert (Hf : (length items < S (length s))%nat).
  { apply cstr_bound in H as [Hp H]. rewrite alen_app in H. pose proof (alen_nonneg tail).
    assert (length items ≤ length (comma_list (map item_text items)))%nat; [|unfold alen in *; lia].
    clear -Hok. induction Hok as [|it items [[_ Hlo] _] Hok IH]; [done|]. rewrite map_cons, comma_list_cons.
    destruct items; [|rewrite map_cons, comma_list_cons in IH].
    - rewrite length_app. unfold item_text. destruct (item_lo it); [done|]. cbn. lia.
    - rewrite length_app in *. cbn [map concat]. rewrite length_app. unfold item_text at 1. destruct (item_lo it); [done|]. cbn [length app] in *. lia. }
  pose proof (parselist_loop_ok s n tail items p mp (S (length s)) H Hok Hne Htail Hw ltac:(lia) Hf) as Hloop.
  destruct (scan_ranges n (map item_range items)) as [err good]. destruct Hloop as (mp' & E & Hl' & Hw' & Hb').
  exists mp'. ands; [done|lia|done|]. intros i Hi. rewrite Hb', Hb by done. by case_match.
Qed.

Lemma scan_good n rs i : in_ranges (scan_ranges n rs).2 i = true → i < n.
Proof.
  induction rs as [|[a b] rs IH]; cbn [scan_ranges]; [done|]. destruct (negb (a <=? b)); [done|]. destruct (b >=? n) eqn:E; [done|].
  destruct (scan_ranges n rs) as [err good]. cbn [snd in_ranges existsb]. intros H. apply orb_true_iff in H as [H|H]; [|by apply IH].
  apply andb_true_iff in H as [_ H%Z.leb_le]. rewrite Z.geb_leb in E. apply Z.leb_gt in E. lia.
Qed.

(** C16: on a string of comma-separated decimal numbers and ranges, with an optional comma and
    line feed behind them, [bitmap_parselist] stays inside string and map; it returns -EINVAL
    for the first range that runs backwards, -ERANGE for the first that ends outside the map,
    and 0 when there is none; the words of the map hold exactly the bits of the ranges before
    it, with numbers reduced to 32 bits, and the rest of the object is untouched. *)
Theorem bitmap_parselist_correct (s : list Z) (bp : Z) (maskp : list Z) (nmaskbits : Z) (items : list item) (tail : list Z)
  (Hs : cstr s bp (comma_list (map item_text items) ++ tail)) (Hitems : Forall item_ok items ∧ items ≠ [])
  (Htail : list_end tail) (Hmap : bits_in maskp nmaskbits) :
  let '(err, good) := scan_ranges nmaskbits (map item_range items) in
  ∃ maskp', bitmap_parselist s bp maskp nmaskbits = Some (maskp', err) ∧ alen maskp' = alen maskp ∧ words maskp' ∧
    ∀ i, 0 ≤ i → bit maskp' i = if i <? 32 * BITS_TO_LONGS nmaskbits then in_ranges good i else bit maskp i.
Proof.
  destruct Hitems as [Hok Hne]. pose proof (bitmap_parselist_ok s bp maskp nmaskbits items tail Hs Hok Hne Htail Hmap) as H.
  pose proof (scan_good nmaskbits (map item_range items)) as Hg. destruct (scan_ranges nmaskbits (map item_range items)) as [err good].
  destruct H as (mp & E & Hl & Hw & Hb). exists mp. ands; [done|done|done|]. intros i Hi. rewrite Hb by done.
  destruct (Z.ltb_spec i (32 * BITS_TO_LONGS nmaskbits)); [done|]. destruct (in_ranges good i) eqn:Ei; [|by rewrite orb_false_r].
  specialize (Hg i Ei). pose proof (BITS_TO_LONGS_bounds nmaskbits). lia.
Qed.

(** "3-5,9,7-2" into a map of 40 bits: bits 3, 4, 5 and 9, and -EINVAL. *)
Definition witness_items : list item := [Item [51] (Some [53]); Item [57] None; Item [55] (Some [50])].

Lemma bitmap_parselist_correct_witness :
  ∃ mp, bitmap_parselist (comma_list (map item_text witness_items) ++ [10; 0]) 0 [5; 6; 7] 40 = Some (mp, - EINVAL) ∧
    bit mp 4 = true ∧ bit mp 6 = false ∧ bit mp 64 = true.
Proof.
  assert (Hb : bits_in [5; 6; 7] 40) by (split; [by repeat constructor|vm_compute; by ands]).
  assert (Hs : cstr (comma_list (map item_text witness_items) ++ [10; 0]) 0 (comma_list (map item_text witness_items) ++ [10]))
    by (vm_compute; by ands).
  assert (Hd : ∀ c, 48 ≤ c ≤ 57 → decimal [c]).
  { intros c Hc. split; [|done]. constructor; [|constructor]. split; [|unfold char; lia].
    assert (H := byte_all (λ c, negb ((48 <=? c) && (c <=? 57)) || isdigit c) eq_refl c ltac:(lia)). cbv beta in H.
    destruct (Z.leb_spec 48 c), (Z.leb_spec c 57); done || lia. }
  assert (Hi : Forall item_ok witness_items ∧ witness_items ≠ []).
  { split; [|done]. repeat (constructor; [split; [apply Hd; lia|done || (apply Hd; lia)]|]). constructor. }
  destruct (bitmap_parselist_correct _ 0 [5; 6; 7] 40 witness_items [10] Hs Hi ltac:(right; left; by exists []) Hb) as (mp & E & _ & _ & Hbit).
  exists mp. split; [exact E|]. split; [|split]; rewrite Hbit by lia; reflexivity.
Defined.

(** ** The ranges of a map *)

(** The maximal runs of [P] from [lo] up to [hi]. *)
Fixpoint is_runs (P : Z → bool) (hi lo : Z) (l : list (Z * Z)) : Prop :=
  match l with
  | [] => ∀ i, lo ≤ i < hi → P i = false
  | (a, b) :: l =>
      lo ≤ a ≤ b ∧ b < hi ∧ (∀ i, lo ≤ i < a → P i = false) ∧ (∀ i, a ≤ i ≤ b → P i = true) ∧
      (b + 1 < hi → P (b + 1) = false) ∧ is_runs P hi (b + 1) l
  end.

(** The runs of the [k] positions from [i] on. *)
Fixpoint runs_from (P : Z → bool) (k : nat) (i : Z) : list (Z * Z) :=
  match k with
  | O => []
  | S k =>
      let l := runs_from P k (i + 1) in
      if P i then
        match l with
        | (a, b) :: l' => if a =? i + 1 then (i, b) :: l' else (i, i) :: l
        | [] => [(i, i)]
        end
      else l
  end.

Definition ranges_of (maskp : list Z) (n : Z) : list (Z * Z) := runs_from (bit maskp) (Z.to_nat n) 0.

Lemma is_runs_lower P hi lo l : P lo = false → is_runs P hi (lo + 1) l → is_runs P hi lo l.
Proof.
  intros H0 H. assert (Hs : ∀ i x, (∀ i, lo + 1 ≤ i < x → P i = false) → lo ≤ i < x → P i = false).
  { intros i x Hx Hi. destruct (decide (i = lo)) as [->|]; [done|]. apply Hx. lia. }
  destruct l as [|[a b] l]; cbn [is_runs] in *; [intros i; by apply Hs|].
  destruct H as (? & ? & H & ? & ? & ?). ands; try done; try lia. intros i. by apply Hs.
Qed.

Lemma runs_from_ok P k i : is_runs P (i + Z.of_nat k) i (runs_from P k i).
Proof.
  revert i. induction k as [|k IH]; intros i; cbn [runs_from]; [intros j; lia|]. specialize (IH (i + 1)).
  replace (i + 1 + Z.of_nat k) with (i + Z.of_nat (S k)) in IH by lia. cbv zeta.
  destruct (P i) eqn:Ei; [|by apply is_runs_lower]. destruct (runs_from P k (i + 1)) as [|[a b] l].
  - cbn [is_runs] in *. split; [lia|]. split; [lia|]. split; [intros; lia|]. split; [intros j Hj; by replace j with i by lia|].
    split; [intros; apply IH; lia|exact IH].
  - destruct (Z.eqb_spec a (i + 1)) as [->|Hne]; cbn [is_runs] in *; assert (IH' := IH); destruct IH as (H1 & H2 & H3 & H4 & H5 & H6).
    + split; [lia|]. split; [lia|]. split; [intros; lia|]. split; [|done]. intros j Hj.
      destruct (decide (j = i)) as [->|]; [done|]. apply H4. lia.
    + split; [lia|]. split; [lia|]. split; [intros; lia|]. split; [intros j Hj; by replace j with i by lia|].
      split; [intros _; apply H3; lia|exact IH'].
Qed.

(** ** Printing *)

Definition range_item (r : Z * Z) : item :=
  Item (numeral_text 10 false r.1) (if r.1 =? r.2 then None else Some (numeral_text 10 false r.2)).

Definition range_text (r : Z * Z) : list Z := item_text (range_item r).

(** The text behind [T] when the ranges [l] are added to it. *)
Definition emit_all (T : list Z) (l : list (Z * Z)) : list Z :=
  fold_left (λ T r, T ++ (if bool_decide (T = []) then [] else [44]) ++ range_text r) l T.

Lemma render_int n args pos :
  0 ≤ n < 2 ^ 31 →
  render_dir (Directive [] NoCount NoCount QNone Cd) (VWord n :: args) pos = Some (numeral_text 10 false n, [], args).
Proof.
  intros Hn. unfold render_dir. cbn [d_width d_prec d_flags d_mod d_conv render_width render_prec].
  rewrite !Some_bind. unfold render_conv, va_num. change (type _) with FORMAT_TYPE_INT. cbn [va_word]. rewrite !Some_bind.
  rewrite s32_small, uwrap_small by (unfold urange; lia). do 3 f_equal.
  transitivity (signed_text n); [exact (signed_number_text n)|]. unfold signed_text. rewrite s64_small by lia.
  by destruct (Z.ltb_spec n 0); [lia|].
Qed.

Lemma single_prints n : 0 ≤ n < 2 ^ 31 → prints single_fmt 0 [VWord n] (numeral_text 10 false n) [].
Proof.
  intros Hn. apply (one_fmt_prints (Directive [] NoCount NoCount QNone Cd) _ _ _ []); [|by repeat constructor|by apply render_int].
  split; [constructor|done].
Qed.

Lemma range_prints a b :
  0 ≤ a < 2 ^ 31 → 0 ≤ b < 2 ^ 31 →
  prints range_fmt 0 [VWord a; VWord b] (numeral_text 10 false a ++ 45 :: numeral_text 10 false b) [].
Proof.
  intros Ha Hb. exists [([], Directive [] NoCount NoCount QNone Cd); ([45], Directive [] NoCount NoCount QNone Cd)], [].
  split; [|split].
  - apply (cstr_snoc [37; 100; 45; 37; 100]). by repeat constructor.
  - cbn. ands; try done; try constructor; by repeat constructor.
  - cbn [render]. rewrite render_int, Some_bind by done. rewrite render_int, !Some_bind by done. by rewrite !app_nil_r.
Qed.

Lemma comma_prints : prints comma_fmt 0 [] [44] [].
Proof. exists [], [44]. split; [by apply (cstr_snoc [44]); repeat constructor|]. split; [by repeat constructor|done]. Qed.

Section List.
Context (symbol_string resource_string : Z → Z → out → Z → list Z → printf_spec → Z → option out).
Context (buf size : Z) (m : list Z).
Hypothesis Hsize : 0 < size ≤ alen m.
Hypothesis Hsize31 : size < 2 ^ 31.
Hypothesis Hbuf : 0 ≤ buf.

Abbreviation printed := (printed size m).

Lemma printed_1 t t' : size = 1 → printed t = printed t'.
Proof.
  intros H1. unfold BitmapPrintFacts.printed, stored. pose proof (alen_nonneg t). pose proof (alen_nonneg t').
  destruct (Z.eqb_spec size 0); [lia|]. cbv zeta. by replace (Z.min (alen t) (size - 1)) with 0 by lia; replace (Z.min (alen t') (size - 1)) with 0 by lia.
Qed.

Lemma bscnl_emit_ok T a b :
  0 ≤ a < 2 ^ 31 → 0 ≤ b < 2 ^ 31 → let T' := emit_all T [(a, b)] in
  buf + alen T' < 2 ^ 32 - 1 → alen T' < 2 ^ 31 - 1 →
  bscnl_emit symbol_string resource_string (printed T).1 buf size a b (printed T).2 = Some (printed T').
Proof.
  intros Ha Hb T' HB HL. subst T'. cbn [emit_all fold_left] in *. pose proof (alen_nonneg T).
  set (sep := if bool_decide (T = []) then [] else [44]) in *. rewrite !alen_app in *.
  pose proof (alen_nonneg sep). pose proof (alen_nonneg (range_text (a, b))).
  assert (Hrange : ∀ T1, buf + alen T1 + alen (range_text (a, b)) < 2 ^ 32 - 1 →
    ('(m, r) ← (if a =? b then scnprintf_at symbol_string resource_string (printed T1).1 buf (printed T1).2 (size - (printed T1).2) single_fmt [VWord a]
      else scnprintf_at symbol_string resource_string (printed T1).1 buf (printed T1).2 (size - (printed T1).2) range_fmt [VWord a; VWord b]);
      Some (m, (printed T1).2 + r)) = Some (printed (T1 ++ range_text (a, b)))).
  { intros T1 HT1. unfold range_text, range_item, item_text in *. cbn [fst snd item_lo item_hi] in *.
    destruct (Z.eqb_spec a b) as [->|Hne]; cbn [item_hi] in *.
    - rewrite app_nil_r in *. destruct (scnprintf_at_ok symbol_string resource_string buf size m Hsize Hsize31 Hbuf T1 single_fmt [VWord b] (numeral_text 10 false b))
        as (m' & r & -> & E); [by apply single_prints|rewrite alen_app; lia|lia|]. by rewrite Some_bind, E.
    - destruct (scnprintf_at_ok symbol_string resource_string buf size m Hsize Hsize31 Hbuf T1 range_fmt [VWord a; VWord b]
        (numeral_text 10 false a ++ 45 :: numeral_text 10 false b)) as (m' & r & -> & E); [by apply range_prints|rewrite !alen_app in *; lia|lia|].
      by rewrite Some_bind, E. }
  unfold bscnl_emit. destruct ((printed T).2 >? 0) eqn:Egt.
  - assert (sep = [44]) as ->.
    { subst sep. destruct (bool_decide_reflect (T = [])) as [->|]; [|done]. unfold BitmapPrintFacts.printed in Egt. cbn [snd] in Egt. change (alen []) with 0 in Egt. lia. }
    change (alen [44]) with 1 in *.
    destruct (scnprintf_at_ok symbol_string resource_string buf size m Hsize Hsize31 Hbuf T comma_fmt [] [44])
      as (m' & r & -> & E); [exact comma_prints|rewrite alen_app; change (alen [44]) with 1; lia|done|].
    rewrite !Some_bind. assert (m' = (printed (T ++ [44])).1 ∧ (printed T).2 + r = (printed (T ++ [44])).2) as [-> ->] by (by rewrite <- E).
    rewrite Hrange, app_assoc; [done|]. rewrite alen_app. change (alen [44]) with 1. lia.
  - rewrite Some_bind, Hrange by lia. f_equal. unfold BitmapPrintFacts.printed in Egt. cbn [snd] in Egt.
    destruct (decide (size = 1)); [by apply printed_1|]. assert (T = []) as ->; [|done].
    destruct T as [|c T]; [done|]. rewrite alen_cons in Egt. pose proof (alen_nonneg T). lia.
Qed.

Context (maskp : list Z) (n : Z).
Hypothesis Hmap : bits_in maskp n.
Hypothesis Hn : n < 2 ^ 31.

Lemma emit_all_mono T l : alen T ≤ alen (emit_all T l).
Proof.
  revert T. induction l as [|r l IH]; intros T; [cbn; lia|]. cbn [emit_all fold_left]. etrans; [|apply IH].
  rewrite alen_app. pose proof (alen_nonneg ((if bool_decide (T = []) then [] else [44]) ++ range_text r)). lia.
Qed.

(** The next set bit after a run. *)
Definition next_run (l : list (Z * Z)) : Z := match l with [] => n | (a, _) :: _ => a end.

Lemma next_run_ok lo l r : is_runs (bit maskp) n lo l → first_in (bit maskp) lo n r → r = next_run l.
Proof.
  intros Hl (Hr & Hz & Hs). destruct l as [|[a b] l]; cbn [is_runs next_run] in *.
  - destruct (decide (r < n)); [|lia]. specialize (Hs ltac:(lia)). rewrite Hl in Hs by lia. done.
  - destruct Hl as (H1 & H2 & H3 & H4 & _). destruct (Z.lt_trichotomy r a) as [|[|]]; [|done|].
    + specialize (Hs ltac:(lia)). rewrite H3 in Hs by lia. done.
    + specialize (Hz a ltac:(lia)). rewrite H4 in Hz by lia. done.
Qed.

Lemma scnlist_turn cur rbot m0 len0 :
  cur < n → scnlist_step symbol_string resource_string buf size maskp n (cur, rbot, m0, len0) =
    (cur' ← find_next_bit maskp n (cur + 1);
     if (cur' >=? n) || (cur' >? cur + 1)
     then '(m, len) ← bscnl_emit symbol_string resource_string m0 buf size rbot cur len0; Some (inl (cur', cur', m, len))
     else Some (inl (cur', rbot, m0, len0))).
Proof. intros Hc. unfold scnlist_step. by destruct (Z.ltb_spec cur n); [|lia]. Qed.

Lemma scnlist_loop_ok : ∀ fuel cur a b l T,
  is_runs (bit maskp) n a ((a, b) :: l) → 0 ≤ a ≤ cur → cur ≤ b → n - cur < Z.of_nat fuel →
  buf + alen (emit_all T ((a, b) :: l)) < 2 ^ 32 - 1 → alen (emit_all T ((a, b) :: l)) < 2 ^ 31 - 1 →
  loop fuel (scnlist_step symbol_string resource_string buf size maskp n) (cur, a, (printed T).1, (printed T).2) =
    Some (printed (emit_all T ((a, b) :: l))).
Proof.
  induction fuel as [|fuel IH]; intros cur a b l T Hr Ha Hc Hf HB HL.
  { cbn [is_runs] in Hr. lia. }
  assert (Hr' := Hr). cbn [is_runs] in Hr'. destruct Hr' as (H1 & H2 & H3 & H4 & H5 & H6).
  rewrite loop_S, scnlist_turn by lia.
  destruct (find_next_bit_spec maskp n (cur + 1) Hmap ltac:(lia)) as (r & -> & _ & Hfirst). specialize (Hfirst ltac:(lia)). rewrite Some_bind.
  destruct (decide (cur < b)) as [Hlt|Hge].
  - assert (r = cur + 1) as ->.
    { destruct Hfirst as (Hr1 & Hz & _). destruct (decide (r = cur + 1)); [done|]. specialize (Hz (cur + 1) ltac:(lia)).
      rewrite H4 in Hz by lia. done. }
    assert ((cur + 1 >=? n) || (cur + 1 >? cur + 1) = false) as -> by lia. rewrite Some_bind. by apply IH; try done; lia.
  - assert (cur = b) as -> by lia. pose proof (next_run_ok (b + 1) l r H6 Hfirst) as ->.
    assert ((next_run l >=? n) || (next_run l >? b + 1) = true) as ->.
    { destruct l as [|[a' b'] l]; cbn [next_run is_runs] in *; [lia|]. destruct H6 as (? & ? & _ & H7 & _).
      destruct (decide (a' = b + 1)) as [->|]; [|lia]. specialize (H5 ltac:(lia)). rewrite H7 in H5 by lia. done. }
    pose proof (emit_all_mono (emit_all T [(a, b)]) l) as Hmono. change (emit_all (emit_all T [(a, b)]) l) with (emit_all T ((a, b) :: l)) in Hmono.
    rewrite bscnl_emit_ok by lia. rewrite Some_bind.
    change (emit_all T ((a, b) :: l)) with (emit_all (emit_all T [(a, b)]) l) in *.
    set (T1 := emit_all T [(a, b)]) in *. clearbody T1. destruct (printed T1) as [m1 len1] eqn:E1. rewrite Some_bind.
    destruct l as [|[a' b'] l]; cbn [next_run].
    + destruct fuel as [|fuel]; [lia|]. rewrite loop_S. unfold scnlist_step. destruct (Z.ltb_spec n n); [lia|]. rewrite Some_bind. by rewrite <- E1.
    + assert (m1 = (printed T1).1 ∧ len1 = (printed T1).2) as [-> ->] by (by rewrite E1).
      assert (H6' := H6). cbn [is_runs] in H6'. destruct H6' as (G1 & G2 & G3 & G4 & G5 & G6).
      apply IH; [|lia|lia|lia|done|done]. cbn [is_runs]. split; [lia|]. split; [done|]. split; [intros; lia|done].
Qed.

Lemma bitmap_scnlistprintf_ok :
  let t := emit_all [] (ranges_of maskp n) in
  buf + alen t < 2 ^ 32 - 1 → alen t < 2 ^ 31 - 1 →
  bitmap_scnlistprintf symbol_string resource_string m buf size maskp n = Some (printed t).
Proof.
  intros t HB HL. assert (Hr := runs_from_ok (bit maskp) (Z.to_nat n) 0). fold (ranges_of maskp n) in Hr.
  assert (Hn0 : 0 ≤ n) by (unfold bits_in in Hmap; lia). rewrite Z.add_0_l, Z2Nat.id in Hr by done.
  unfold bitmap_scnlistprintf. destruct (Z.eqb_spec size 0); [lia|]. rewrite arr_set_lt by lia. rewrite Some_bind.
  assert (Hm : <[Z.to_nat 0:=0]> m = (printed []).1).
  { unfold BitmapPrintFacts.printed, stored. destruct (Z.eqb_spec size 0); [lia|]. change (alen []) with 0. cbv zeta. cbn [fst].
    replace (Z.min 0 (size - 1)) with 0 by lia. destruct m as [|c m']; [|done]. change (alen []) with 0 in Hsize. lia. }
  assert (Hl : 0 = (printed []).2) by (cbn [BitmapPrintFacts.printed snd]; change (alen []) with 0; lia).
  destruct (find_first_bit_spec maskp n Hmap) as (r & -> & Hfirst). rewrite Some_bind, Hm.
  rewrite Hl at 1. pose proof (next_run_ok 0 _ r Hr Hfirst) as ->. subst t. destruct (ranges_of maskp n) as [|[a b] l]; cbn [next_run].
  - rewrite loop_S. unfold scnlist_step. by destruct (Z.ltb_spec n n); [lia|].
  - assert (Hr' := Hr). cbn [is_runs] in Hr'. destruct Hr' as (G1 & G2 & G3 & G4 & G5 & G6).
    apply scnlist_loop_ok; [|lia|lia|lia|done|done]. cbn [is_runs]. split; [lia|]. split; [done|]. split; [intros; lia|done].
Qed.
End List.

(** ** The round trip *)

Lemma range_item_ok a b :
  0 ≤ a < 2 ^ 31 → 0 ≤ b < 2 ^ 31 → item_ok (range_item (a, b)) ∧ item_range (range_item (a, b)) = (a, b).
Proof.
  assert (Hd : ∀ n, 0 ≤ n < 2 ^ 31 → decimal (numeral_text 10 false n) ∧ u32 (numval 10 (numeral_text 10 false n)) = n).
  { intros n Hn. destruct (numval_text 10 false n) as [Hv HF]; [lia|unfold urange; lia|].
    pose proof (alen_numeral_22 10 false n ltac:(lia) ltac:(unfold urange; lia)) as Hal.
    rewrite Hv, uwrap_small by (unfold urange; lia). split; [|done]. split.
    - eapply List.Forall_impl; [|exact HF]. intros c [Hdig Hc]. split; [|done].
      assert (H := byte_all (λ c, negb (is_dig 10 c) || isdigit c) eq_refl c ltac:(unfold char in Hc; lia)). cbv beta in H. by rewrite Hdig in H.
    - intros E. rewrite E in Hal. change (alen []) with 0 in Hal. lia. }
  intros Ha Hb. destruct (Hd a Ha) as [Ha1 Ha2], (Hd b Hb) as [Hb1 Hb2]. unfold item_ok, item_range, range_item. cbn [item_lo item_hi fst snd].
  destruct (Z.eqb_spec a b) as [->|Hne]; [split; [done|]|split; [done|]].
  - change (default ?x None) with x. by rewrite Hb2.
  - change (default ?x (Some ?y)) with y. by rewrite Ha2, Hb2.
Qed.

Lemma is_runs_bounds P hi lo l : is_runs P hi lo l → 0 ≤ lo → Forall (λ '(a, b), 0 ≤ a ≤ b ∧ b < hi) l.
Proof.
  revert lo. induction l as [|[a b] l IH]; intros lo H Hlo; [done|]. cbn [is_runs] in H. destruct H as (? & ? & _ & _ & _ & H).
  constructor; [lia|]. apply (IH (b + 1)); [done|lia].
Qed.

Lemma is_runs_bits P hi lo l i : is_runs P hi lo l → lo ≤ i < hi → in_ranges l i = P i.
Proof.
  revert lo. induction l as [|[a b] l IH]; intros lo H Hi; cbn [is_runs] in H; [by rewrite H|].
  destruct H as (H1 & H2 & H3 & H4 & H5 & H6). cbn [in_ranges existsb]. fold (in_ranges l i).
  destruct (decide (b < i)).
  - destruct (Z.leb_spec i b); [lia|]. rewrite andb_false_r. apply (IH (b + 1)); [done|lia].
  - assert (in_ranges l i = false) as ->.
    { clear -H6 n. assert (Hb : i < b + 1) by lia. revert H6 Hb. generalize (b + 1). induction l as [|[a' b'] l IH]; intros lo H Hb; [done|].
      cbn [is_runs] in H. destruct H as (? & ? & _ & _ & _ & H). cbn [in_ranges existsb]. fold (in_ranges l i).
      rewrite (IH (b' + 1)) by (done || lia). destruct (Z.leb_spec a' i); [lia|done]. }
    destruct (Z.leb_spec a i), (Z.leb_spec i b); try lia; cbn; [rewrite H4 by lia; done|rewrite H3 by lia; done].
Qed.

Lemma scan_all_good n l :
  Forall (λ '(a, b), 0 ≤ a ≤ b ∧ b < n) l → scan_ranges n l = (0, l).
Proof.
  intros H. induction H as [|[a b] l [? ?] H IH]; [done|]. cbn [scan_ranges]. rewrite IH.
  destruct (Z.leb_spec a b); [|lia]. cbn [negb]. by destruct (b >=? n) eqn:E; [lia|].
Qed.

Lemma range_items_ok n l :
  n < 2 ^ 31 → Forall (λ '(a, b), 0 ≤ a ≤ b ∧ b < n) l →
  Forall item_ok (map range_item l) ∧ map item_range (map range_item l) = l.
Proof.
  intros Hn H. induction H as [|[a b] l [? ?] H [IH1 IH2]]; [done|]. destruct (range_item_ok a b) as [Hok Hr]; [lia|lia|].
  cbn [map]. split; [by constructor|]. by rewrite Hr, IH2.
Qed.

(** The printed text is the list of the ranges with commas between them. *)
Lemma emit_all_text n l :
  n < 2 ^ 31 → Forall (λ '(a, b), 0 ≤ a ≤ b ∧ b < n) l → emit_all [] l = comma_list (map item_text (map range_item l)).
Proof.
  intros Hn H.
  assert (Hne : ∀ l T, T ≠ [] → emit_all T l = T ++ concat (map (cons 44) (map item_text (map range_item l)))).
  { clear. intros l. induction l as [|r l IH]; intros T HT; [by rewrite app_nil_r|]. cbn [emit_all fold_left].
    destruct (bool_decide_reflect (T = [])) as [|_]; [done|]. fold (emit_all (T ++ [44] ++ range_text r) l).
    rewrite IH by (by destruct T). cbn [map concat]. by rewrite <- !app_assoc. }
  destruct H as [|[a b] l [? ?] H]; [done|]. cbn [map]. rewrite comma_list_cons. cbn [emit_all fold_left bool_decide app].
  fold (emit_all (range_text (a, b)) l). apply Hne. destruct (range_item_ok a b) as [[[_ Hlo] _] _]; [lia|lia|].
  unfold range_text, item_text. intros E. apply app_eq_nil in E as [E _]. done.
Qed.

Lemma items_chars items : Forall item_ok items → Forall char (comma_list (map item_text items)).
Proof.
  intros H. assert (Hd : ∀ ds, decimal ds → Forall char ds) by (intros ds [Hds _]; eapply List.Forall_impl; [|exact Hds]; by intros ? []).
  assert (Hi : ∀ it, item_ok it → Forall char (item_text it)).
  { intros it [Hlo Hhi]. unfold item_text. apply Forall_app. split; [by apply Hd|]. destruct (item_hi it); [|done].
    constructor; [unfold char; lia|by apply Hd]. }
  induction H as [|it items Hit H IH]; [done|]. rewrite map_cons. cbn [comma_list]. specialize (Hi it Hit).
  destruct (map item_text items) eqn:E; [done|]. rewrite <- E in *. apply Forall_app. split; [done|].
  constructor; [unfold char; lia|]. by rewrite E in *.
Qed.

(** C17: [bitmap_scnlistprintf] writes the maximal runs of set bits below [n] as decimal numbers
    and ranges with commas between them, cut off like the text of [scnprintf] where the buffer
    is short, and returns the number of characters; [bitmap_parselist] reads a text that is not
    cut off back into the same bits when the map is not empty, and rejects with -EINVAL the
    empty text of the empty map. *)
Theorem bitmap_list_roundtrip
  (symbol_string resource_string : Z → Z → out → Z → list Z → printf_spec → Z → option out)
  (m : list Z) (buf buflen : Z) (maskp : list Z) (n : Z)
  (Hbuflen : 0 < buflen ≤ alen m ∧ buflen < 2 ^ 31) (Hmap : bits_in maskp n) (Hn : n < 2 ^ 31)
  (Hbuf : 0 ≤ buf ∧ buf + alen (comma_list (map range_text (ranges_of maskp n))) < 2 ^ 32 - 1)
  (Hlen : alen (comma_list (map range_text (ranges_of maskp n))) < 2 ^ 31 - 1) :
  let t := comma_list (map range_text (ranges_of maskp n)) in
  let m' := stored buflen t m in
  bitmap_scnlistprintf symbol_string resource_string m buf buflen maskp n = Some (m', Z.min (alen t) (buflen - 1)) ∧
  is_runs (bit maskp) n 0 (ranges_of maskp n) ∧
  (alen t < buflen → ∀ old, bits_in old n →
   ∃ new, bitmap_parselist m' 0 old n = Some (new, if bool_decide (ranges_of maskp n = []) then - EINVAL else 0) ∧
     ∀ i, 0 ≤ i < n → bit new i = bit maskp i).
Proof.
  intros t m'. assert (Hr := runs_from_ok (bit maskp) (Z.to_nat n) 0). fold (ranges_of maskp n) in Hr.
  assert (Hn0 : 0 ≤ n) by (unfold bits_in in Hmap; lia). rewrite Z.add_0_l, Z2Nat.id in Hr by done.
  pose proof (is_runs_bounds _ _ _ _ Hr ltac:(lia)) as Hl. pose proof (emit_all_text n _ Hn Hl) as Htext. rewrite map_map in Htext.
  fold range_text in Htext. change (λ x, item_text (range_item x)) with range_text in Htext. fold t in Htext, Hbuf, Hlen.
  split; [|split; [done|]].
  { subst m'. rewrite <- Htext. apply bitmap_scnlistprintf_ok; try done; try lia; rewrite Htext; lia. }
  intros Hfit old Hold. destruct (range_items_ok n _ Hn Hl) as [Hok Hmapr].
  assert (Ht : t = comma_list (map item_text (map range_item (ranges_of maskp n)))) by (subst t; by rewrite map_map).
  assert (Hc : cstr m' 0 t) by (apply stored_cstr; [rewrite Ht; by apply items_chars|done]).
  destruct (bool_decide_reflect (ranges_of maskp n = [])) as [He|Hne].
  - destruct (bitmap_zero_spec old n Hold) as (mp & Ez & Hlz & _ & Hb). exists mp. unfold bitmap_parselist. rewrite Ez, Some_bind.
    assert (m'.[0] = Some 0) as H0 by (rewrite Ht, He in Hc; exact Hc).
    rewrite loop_S. unfold parselist_step. rewrite H0. split; [done|]. intros i Hi. rewrite Hb by lia.
    rewrite He in Hr. cbn [is_runs] in Hr. rewrite Hr by done. pose proof (BITS_TO_LONGS_bounds n). by destruct (Z.ltb_spec i (32 * BITS_TO_LONGS n)); [|lia].
  - assert (Hc' : cstr m' 0 (comma_list (map item_text (map range_item (ranges_of maskp n))) ++ [])) by (by rewrite app_nil_r, <- Ht).
    pose proof (bitmap_parselist_ok m' 0 old n _ [] Hc' Hok) as Hp. rewrite Hmapr, (scan_all_good n _ Hl) in Hp.
    destruct Hp as (new & E & _ & _ & Hb); [by destruct (ranges_of maskp n)|by left|done|].
    exists new. split; [done|]. intros i Hi. rewrite Hb, (is_runs_bits _ _ _ _ i Hr) by lia.
    pose proof (BITS_TO_LONGS_bounds n). by destruct (Z.ltb_spec i (32 * BITS_TO_LONGS n)); [|lia].
Qed.

Lemma bitmap_list_roundtrip_witness :
  ∃ m', bitmap_scnlistprintf (λ _ _ _ _ _ _ _, None) (λ _ _ _ _ _ _ _, None) (repeat 1 16) 0xc1000000 16 [0xf1; 0x6] 40 = Some (m', 11) ∧
    ∃ new, bitmap_parselist m' 0 [1; 2; 3] 40 = Some (new, 0) ∧ bit new 33 = true ∧ bit new 35 = false.
Proof.
  assert (Hb : bits_in [0xf1; 0x6] 40) by (split; [by repeat constructor|vm_compute; by ands]).
  assert (Ho : bits_in [1; 2; 3] 40) by (split; [by repeat constructor|vm_compute; by ands]).
  destruct (bitmap_list_roundtrip (λ _ _ _ _ _ _ _, None) (λ _ _ _ _ _ _ _, None) (repeat 1 16) 0xc1000000 16 [0xf1; 0x6] 40
    ltac:(vm_compute; by ands) Hb ltac:(lia) ltac:(vm_compute; by ands) ltac:(vm_compute; done)) as (E & _ & Hp).
  eexists. split; [exact E|]. destruct (Hp ltac:(vm_compute; done) [1; 2; 3] Ho) as (new & E' & Hbit).
  exists new. split; [exact E'|]. split; rewrite Hbit by lia; reflexivity.
Defined.

(** "4294967299" is 2^32 + 3 and sets bit 3: the numbers wrap at 32 bits. *)
Theorem bitmap_parselist_wraps :
  bitmap_parselist [52; 50; 57; 52; 57; 54; 55; 50; 57; 57; 0] 0 [0] 32 = Some ([8], 0).
Proof. reflexivity. Qed.
