(* ===== verification/Hash.v ===== *)
(** * Iterated hash functions

    The theory that the hash functions of [crypto/] share: a compression function iterated
    over the blocks of a message, the state of a computation that has taken part of a message,
    and the interface between the update functions and the compression functions. *)

From S2P Require Import Prelude Words.
#[local] Open Scope Z_scope.
#[local] Open Scope kernel_scope.

(** ** Parts of objects *)

Definition slice {A} (l : list A) (off n : Z) : list A := take (Z.to_nat n) (drop (Z.to_nat off) l).

Section Slice.
Context {A : Type}.
Implicit Types l : list A.

Lemma alen_slice l off n : 0 ≤ off → 0 ≤ n → off + n ≤ alen l → alen (slice l off n) = n.
Proof. intros. unfold slice, alen in *. rewrite length_take, length_drop. lia. Qed.

Lemma slice_all l : slice l 0 (alen l) = l.
Proof. unfold slice, alen. rewrite drop_0, Nat2Z.id. by apply take_ge. Qed.

Lemma slice_app l off n n' : 0 ≤ off → 0 ≤ n → 0 ≤ n' → slice l off (n + n') = slice l off n ++ slice l (off + n) n'.
Proof.
  intros. unfold slice. rewrite (Z2Nat.inj_add n n'), (Z2Nat.inj_add off n) by lia.
  rewrite <- skipn_skipn_comm || rewrite <- drop_drop. by rewrite take_take_drop.
Qed.

Lemma slice_nil l off : slice l off 0 = [].
Proof. done. Qed.

Lemma memcpy_ok (dst src : list A) doff soff n :
  0 ≤ doff → 0 ≤ soff → 0 ≤ n → doff + n ≤ alen dst → soff + n ≤ alen src →
  memcpy dst doff src soff n = Some (slice dst 0 doff ++ slice src soff n ++ drop (Z.to_nat (doff + n)) dst).
Proof.
  intros. unfold memcpy, arr_read. fold (alen src). destruct (Z.leb_spec 0 soff), (Z.leb_spec 0 n), (Z.leb_spec (soff + n) (alen src)); try lia.
  cbn [andb mbind option_bind]. fold (slice src soff n). unfold arr_write. fold (alen (slice src soff n)). rewrite alen_slice by lia. fold (alen dst).
  destruct (Z.leb_spec 0 doff), (Z.leb_spec (doff + n) (alen dst)); try lia. cbn [andb]. do 3 f_equal.
  pose proof (alen_slice src soff n). unfold alen in *. rewrite Z2Nat.inj_add by lia. do 2 f_equal. lia.
Qed.
End Slice.

Lemma slice_cons {A} (l : list A) off n x : l.[off] = Some x → 0 < n → slice l off n = x :: slice l (off + 1) (n - 1).
Proof.
  intros Hx Hn. pose proof (arr_get_Some_lt _ _ _ Hx). unfold arr_get in Hx. destruct (Z.leb_spec 0 off); [|lia]. unfold slice.
  rewrite (drop_S _ _ _ Hx). replace (Z.to_nat n) with (S (Z.to_nat (n - 1))) by lia. cbn [take]. do 3 f_equal. lia.
Qed.

Lemma slice_slice {A} (l : list A) off n i k : 0 ≤ off → 0 ≤ i → 0 ≤ k → i + k ≤ n → slice (slice l off n) i k = slice l (off + i) k.
Proof.
  intros. unfold slice. rewrite skipn_firstn_comm, firstn_firstn, skipn_skipn. f_equal; [lia|]. f_equal. lia.
Qed.

Lemma memcpy_bytes dst src doff soff n dst' :
  memcpy dst doff src soff n = Some dst' → Forall byte dst → Forall byte src → Forall byte dst'.
Proof.
  unfold memcpy, arr_read, arr_write. intros H Hd Hs. repeat case_match; try done. cbn in H. case_match; [|done]. simplify_eq.
  rewrite !Forall_app. ands; [by apply Forall_take|by apply Forall_take, Forall_drop|by apply Forall_drop].
Qed.

(** [memset(obj + off, c, n)]. *)
Definition memset (obj : list Z) (off c n : Z) : option (list Z) :=
  if 0 <=? n then arr_write obj off (replicate (Z.to_nat n) c) else None.

Lemma memset_bytes obj off c n obj' : memset obj off c n = Some obj' → byte c → Forall byte obj → Forall byte obj'.
Proof.
  unfold memset, arr_write. intros H Hc Ho. repeat case_match; simplify_eq. rewrite !Forall_app.
  ands; [by apply Forall_take|by apply Forall_replicate|by apply Forall_drop].
Qed.

(** ** Iteration of a compression function *)

Section Iterate.
Context (B : Z) (f : list Z → list Z → list Z) (iv : list Z).
Hypothesis HB : 0 < B.

(** The state after [k] blocks of [m]. *)
Fixpoint absorb (k : nat) (st m : list Z) : list Z :=
  match k with O => st | S k => absorb k (f st (take (Z.to_nat B) m)) (drop (Z.to_nat B) m) end.

(** The state after all blocks of a message of whole blocks. *)
Definition iterate (m : list Z) : list Z := absorb (Z.to_nat (alen m / B)) iv m.

Lemma absorb_app k j st m m' : alen m = Z.of_nat k * B → absorb (k + j) st (m ++ m') = absorb j (absorb k st m) m'.
Proof.
  revert st m. induction k as [|k IH]; intros st m Hm; cbn [absorb plus].
  - unfold alen in Hm. destruct m; [done|cbn in Hm; lia].
  - assert (Z.to_nat B ≤ length m)%nat by (unfold alen in Hm; nia). rewrite take_app_le, drop_app_le by done. apply IH.
    unfold alen in *. rewrite length_drop. nia.
Qed.

(** [st] is the state after the whole blocks [m]. *)
Definition at_block (st m : list Z) : Prop := ∃ k, alen m = Z.of_nat k * B ∧ st = absorb k iv m.

Lemma at_block_nil : at_block iv [].
Proof. by exists O. Qed.

Lemma at_block_step st m b : at_block st m → alen b = B → at_block (f st b) (m ++ b).
Proof.
  intros (k & Hk & ->) Hb. exists (k + 1)%nat. rewrite alen_app, absorb_app by done. split; [lia|]. cbn [absorb].
  rewrite take_ge; [done|]. unfold alen in Hb. lia.
Qed.

Lemma at_block_iterate st m : at_block st m → st = iterate m.
Proof. intros (k & Hk & ->). unfold iterate. rewrite Hk, Z.div_mul by lia. by rewrite Nat2Z.id. Qed.

Lemma at_block_mod st m : at_block st m → alen m mod B = 0.
Proof. intros (k & -> & _). by apply Z.mod_mul; lia. Qed.

(** ** Computations in progress *)

(** The state and the buffer after the message [m]: the whole blocks are in the state, the
    rest is at the start of the buffer. *)
Definition taken (st buf m : list Z) : Prop :=
  ∃ q tail rest, m = q ++ tail ∧ at_block st q ∧ buf = tail ++ rest ∧ alen tail < B ∧ alen buf = B.

Lemma taken_length st buf m : taken st buf m → alen buf = B ∧ ∃ q tail rest, m = q ++ tail ∧ at_block st q ∧ buf = tail ++ rest ∧
  alen tail = alen m mod B.
Proof.
  intros (q & tail & rest & -> & Hq & -> & Ht & Hb). split; [done|]. exists q, tail, rest. ands; try done.
  pose proof (at_block_mod _ _ Hq) as Hmod. rewrite alen_app. pose proof (alen_nonneg tail). pose proof (alen_nonneg q).
  rewrite <- Zplus_mod_idemp_l, Hmod, Z.add_0_l, Z.mod_small; lia.
Qed.

Lemma taken_nil buf : alen buf = B → taken iv buf [].
Proof. intros Hb. exists [], [], buf. ands; [done|apply at_block_nil|done|unfold alen; cbn [length]; lia|done]. Qed.

Lemma app_cut {A} (tail rest : list A) n : n = alen tail → slice (tail ++ rest) 0 n = tail.
Proof. intros ->. unfold slice, alen. rewrite drop_0, Nat2Z.id. apply take_app_length. Qed.

(** Data that does not fill the buffer. *)
Lemma taken_short st buf m data off n p :
  taken st buf m → p = alen m mod B → 0 ≤ off → 0 ≤ n → p + n < B → off + n ≤ alen data →
  ∃ buf', memcpy buf p data off n = Some buf' ∧ taken st buf' (m ++ slice data off n).
Proof.
  intros Ht -> Ho Hn Hp Hd. destruct (taken_length _ _ _ Ht) as (Hb & q & tail & rest & -> & Hq & -> & Hl). rewrite <- Hl in *.
  pose proof (alen_nonneg tail). rewrite memcpy_ok by lia. eexists. split; [done|]. rewrite app_cut by done.
  eexists q, (tail ++ slice data off n), _. ands; [by rewrite app_assoc|done|by rewrite app_assoc|rewrite alen_app, alen_slice by lia; lia|].
  rewrite !alen_app, alen_slice by lia. rewrite alen_drop by lia. lia.
Qed.

(** Data that fills the buffer. *)
Lemma taken_full st buf m data off p :
  taken st buf m → p = alen m mod B → 0 ≤ off → off + (B - p) ≤ alen data →
  ∃ buf', memcpy buf p data off (B - p) = Some buf' ∧ alen buf' = B ∧ at_block (f st buf') (m ++ slice data off (B - p)) ∧
    (Forall byte buf → Forall byte data → Forall byte buf').
Proof.
  intros Ht -> Ho Hd. destruct (taken_length _ _ _ Ht) as (Hb & q & tail & rest & -> & Hq & -> & Hl). rewrite <- Hl in *.
  pose proof (alen_nonneg tail). assert (alen tail < B) by (rewrite Hl; by apply Z.mod_pos_bound).
  rewrite memcpy_ok by lia. eexists. split; [done|]. rewrite app_cut by done.
  replace (alen tail + (B - alen tail)) with (alen (tail ++ rest)) by lia.
  rewrite drop_ge by (unfold alen; lia). rewrite app_nil_r.
  assert (Hlen : alen (tail ++ slice data off (B - alen tail)) = B) by (rewrite alen_app, alen_slice by lia; lia).
  ands; [done|rewrite <- app_assoc; by apply at_block_step|].
  intros Hbuf Hdata. apply Forall_app in Hbuf as [Hbuf _]. apply Forall_app. split; [done|]. by apply Forall_take, Forall_drop.
Qed.

(** The rest of the data behind whole blocks. *)
Lemma taken_rest st buf m data off n :
  at_block st m → alen buf = B → 0 ≤ off → 0 ≤ n < B → off + n ≤ alen data →
  ∃ buf', memcpy buf 0 data off n = Some buf' ∧ taken st buf' (m ++ slice data off n).
Proof.
  intros Hm Hb Ho Hn Hd. rewrite memcpy_ok by lia. eexists. split; [done|]. rewrite slice_nil, app_nil_l.
  eexists m, (slice data off n), _. rewrite Z.add_0_l. ands; [done|done|done|rewrite alen_slice by lia; lia|].
  rewrite alen_app, alen_slice, alen_drop by lia. lia.
Qed.
End Iterate.

(** ** The interface of compression functions *)

(** A compression routine that reads a block of [B] bytes at an offset of an object computes
    the function [f] on the states that satisfy [good]. *)
Class Compresses (B : Z) (f : list Z → list Z → list Z) (good : list Z → Prop)
    (transform : list Z → list Z → Z → option (list Z)) := {
  compresses st obj off : good st → Forall byte obj → 0 ≤ off → off + B ≤ alen obj →
    transform st obj off = Some (f st (slice obj off B)) ∧ good (f st (slice obj off B)) }.
