(* ===== verification/Sha.v ===== *)
(** * SHA-1, SHA-256 and SHA-512

    Models [lib/sha1.c], [crypto/sha1_generic.c], [crypto/sha256_generic.c] and
    [crypto/sha512_generic.c].  A context is a record, the data of an update an object of
    bytes; the transforms read a block at an offset of an object, so that a block may lie in
    the buffer of the context or in the data. *)

From S2P Require Import Prelude Words Cipher Hash.
#[local] Open Scope Z_scope.
#[local] Open Scope kernel_scope.

(** ** Words in memory *)

(** [__be32_to_cpu(((__be32 * )p)[i])] and its 64-bit kin, at the offset [off] of an object. *)
Definition load_be32 (obj : list Z) (off i : Z) : option Z :=
  b0 ← obj.[off + 4 * i]; b1 ← obj.[off + 4 * i + 1]; b2 ← obj.[off + 4 * i + 2]; b3 ← obj.[off + 4 * i + 3];
  Some (swab32 (le32 b0 b1 b2 b3)).

(** A 64-bit load on this processor is two 32-bit ones, and the swap exchanges the halves. *)
Definition load_be64 (obj : list Z) (off i : Z) : option Z :=
  lo ← load_be32 obj off (2 * i); hi ← load_be32 obj off (2 * i + 1); Some (Z.lor (Z.shiftl lo 32) hi).

(** The bytes in memory of [cpu_to_be64(x)]. *)
Definition put_be64 (x : Z) : list Z := put_be32 (Z.shiftr x 32) ++ put_be32 (u32 x).

(** ** The frame of SHA-1 and SHA-256 *)

Record sha_state := ShaState { count : Z; state : list Z; buffer : list Z }.

(** A turn of the loop over the blocks: the state, whether the block is in the buffer, and
    [done]. *)
Definition sha_turn (transform : list Z → list Z → Z → option (list Z)) (buf data : list Z) (len : Z) (s : list Z * bool * Z) :
    option (list Z * bool * Z + list Z * Z) :=
  let '(st, in_buffer, done) := s in
  st ← (if in_buffer : bool then transform st buf 0 else transform st data done);
  let done := u32 (done + 64) in
  if u32 (done + 63) <? len then Some (inl (st, false, done)) else Some (inr (st, done)).

(** [sha1_update] and [sha256_update], which differ in the transform only. *)
Definition sha_update (transform : list Z → list Z → Z → option (list Z)) (sctx : sha_state) (data : list Z) (len : Z) :
    option sha_state :=
  let partial := Z.land (count sctx) 0x3f in
  let cnt := u64 (count sctx + len) in
  if u32 (partial + len) >? 63 then
    '(buf, in_buffer, done) ←
      (if ctrue partial then
         let done := u32 (- partial) in
         buf ← memcpy (buffer sctx) partial data 0 (u32 (done + 64));
         Some (buf, true, done)
       else Some (buffer sctx, false, 0));
    '(st, done) ← loop (S (Z.to_nat len)) (sha_turn transform buf data len) (state sctx, in_buffer, done);
    buf ← memcpy buf 0 data done (u32 (len - done));
    Some (ShaState cnt st buf)
  else
    buf ← memcpy (buffer sctx) partial data 0 len;
    Some (ShaState cnt (state sctx) buf).

Definition padding : list Z := 0x80 :: replicate 63 0.

(** [sha1_final] and [sha256_final]: the wiped context and the digest. *)
Definition sha_final (transform : list Z → list Z → Z → option (list Z)) (sctx : sha_state) : option (sha_state * list Z) :=
  let bits := put_be64 (u64 (Z.shiftl (count sctx) 3)) in
  let index := Z.land (count sctx) 0x3f in
  let padlen := if index <? 56 then 56 - index else 64 + 56 - index in
  sctx ← sha_update transform sctx padding padlen;
  sctx ← sha_update transform sctx bits 8;
  Some (ShaState 0 (replicate (length (state sctx)) 0) (replicate 64 0), concat (map put_be32 (state sctx))).

(** ** SHA-1 *)

Definition f1 (x y z : Z) : Z := Z.lxor z (Z.land x (Z.lxor y z)).
Definition f2 (x y z : Z) : Z := Z.lxor (Z.lxor x y) z.
Definition f3 (x y z : Z) : Z := Z.land x y + Z.land z (Z.lxor x y).
Definition K1 : Z := 0x5A827999.
Definition K2 : Z := 0x6ED9EBA1.
Definition K3 : Z := 0x8F1BBCDC.
Definition K4 : Z := 0xCA62C1D6.

(** One turn of the loops over the rounds. *)
Definition sha1_round (f : Z → Z → Z → Z) (k : Z) (W : list Z) (i : Z) (r : Z * Z * Z * Z * Z) : option (Z * Z * Z * Z * Z) :=
  let '(a, b, c, d, e) := r in
  w ← W.[i];
  let t := u32 (f b c d + k + rol32 a 5 + e + w) in
  Some (t, a, rol32 b 30, c, d).

(** The digest and the workspace. *)
Definition sha_transform (digest obj : list Z) (off : Z) (W : list Z) : option (list Z * list Z) :=
  W ← for_up 0 16 (λ i W, x ← load_be32 obj off i; W.[i <- x]) W;
  W ← for_up 0 64 (λ i W,
    w13 ← W.[i + 13]; w8 ← W.[i + 8]; w2 ← W.[i + 2]; w0 ← W.[i];
    W.[i + 16 <- rol32 (Z.lxor (Z.lxor (Z.lxor w13 w8) w2) w0) 1]) W;
  h0 ← digest.[0]; h1 ← digest.[1]; h2 ← digest.[2]; h3 ← digest.[3]; h4 ← digest.[4];
  r ← for_up 0 20 (sha1_round f1 K1 W) (h0, h1, h2, h3, h4);
  r ← for_up 20 40 (sha1_round f2 K2 W) r;
  r ← for_up 40 60 (sha1_round f3 K3 W) r;
  '(a, b, c, d, e) ← for_up 60 80 (sha1_round f2 K4 W) r;
  Some ([u32 (h0 + a); u32 (h1 + b); u32 (h2 + c); u32 (h3 + d); u32 (h4 + e)], W).

Definition SHA_WORKSPACE_WORDS : nat := 80.

(** The transform in [sha1_update], whose workspace is a local array. *)
Definition sha1_transform (st obj : list Z) (off : Z) : option (list Z) :=
  '(st, _) ← sha_transform st obj off (replicate SHA_WORKSPACE_WORDS 0); Some st.

(** [sha_init] of the library. *)
Definition sha_init : list Z := [0x67452301; 0xefcdab89; 0x98badcfe; 0x10325476; 0xc3d2e1f0].

Definition sha1_init : sha_state := ShaState 0 [0x67452301; 0xefcdab89; 0x98badcfe; 0x10325476; 0xc3d2e1f0] (replicate 64 0).
Definition sha1_update : sha_state → list Z → Z → option sha_state := sha_update sha1_transform.
Definition sha1_final : sha_state → option (sha_state * list Z) := sha_final sha1_transform.

(** The context as a whole leaves and enters. *)
Definition sha1_export (sctx : sha_state) : sha_state := sctx.
Definition sha1_import (sctx from : sha_state) : sha_state := from.

(** ** The rounds of SHA-2 *)

Definition Ch (x y z : Z) : Z := Z.lxor z (Z.land x (Z.lxor y z)).
Definition Maj (x y z : Z) : Z := Z.lor (Z.land x y) (Z.land z (Z.lor x y)).

(** [ror32] and [RORu64]. *)
Definition ror (w x n : Z) : Z := Z.lor (Z.shiftr x n) (ushl w x (w - n)).

(** A pair of statements
    [t1 = h + e1(e) + Ch(e,f,g) + k + W[i]; t2 = e0(a) + Maj(a,b,c); d+=t1; h=t1+t2;]
    names the registers that it uses in these places, a constant and a word. *)
Record sha2_statement := stmt { s_h : Z; s_e : Z; s_f : Z; s_g : Z; s_a : Z; s_b : Z; s_c : Z; s_d : Z; s_k : Z; s_w : Z }.

Definition sha2_stmt (w : Z) (e0 e1 : Z → Z) (W R : list Z) (s : sha2_statement) : option (list Z) :=
  h ← R.[s_h s]; e ← R.[s_e s]; f ← R.[s_f s]; g ← R.[s_g s]; wi ← W.[s_w s];
  let t1 := uwrap w (h + e1 e + Ch e f g + s_k s + wi) in
  a ← R.[s_a s]; b ← R.[s_b s]; c ← R.[s_c s];
  let t2 := uwrap w (e0 a + Maj a b c) in
  d ← R.[s_d s];
  R ← R.[s_d s <- uwrap w (d + t1)];
  R.[s_h s <- uwrap w (t1 + t2)].

(** The registers a to h. *)
Definition ra : Z := 0.
Definition rb : Z := 1.
Definition rc : Z := 2.
Definition rd : Z := 3.
Definition re : Z := 4.
Definition rf : Z := 5.
Definition rg : Z := 6.
Definition rh : Z := 7.

(** [LOAD_OP] and [BLEND_OP]. *)
Definition LOAD_OP (load : list Z → Z → Z → option Z) (obj : list Z) (off I : Z) (W : list Z) : option (list Z) :=
  x ← load obj off I; W.[I <- x].

Definition BLEND_OP (w : Z) (s0 s1 : Z → Z) (I : Z) (W : list Z) : option (list Z) :=
  w2 ← W.[I - 2]; w7 ← W.[I - 7]; w15 ← W.[I - 15]; w16 ← W.[I - 16];
  W.[I <- uwrap w (s1 w2 + w7 + s0 w15 + w16)].

(** [state[0] += a; ... state[7] += h;] *)
Definition add_regs (w : Z) (st R : list Z) : list Z := zip_with (λ x y, uwrap w (x + y)) st R.

(** ** SHA-256 *)

Definition sha256_e0 (x : Z) : Z := Z.lxor (Z.lxor (ror 32 x 2) (ror 32 x 13)) (ror 32 x 22).
Definition sha256_e1 (x : Z) : Z := Z.lxor (Z.lxor (ror 32 x 6) (ror 32 x 11)) (ror 32 x 25).
Definition sha256_s0 (x : Z) : Z := Z.lxor (Z.lxor (ror 32 x 7) (ror 32 x 18)) (Z.shiftr x 3).
Definition sha256_s1 (x : Z) : Z := Z.lxor (Z.lxor (ror 32 x 17) (ror 32 x 19)) (Z.shiftr x 10).

(** The statements of [sha256_transform] in their order. *)
Definition sha256_statements : list sha2_statement :=
  [stmt rh re rf rg ra rb rc rd 0x428a2f98 0;
   stmt rg rd re rf rh ra rb rc 0x71374491 1;
   stmt rf rc rd re rg rh ra rb 0xb5c0fbcf 2;
   stmt re rb rc rd rf rg rh ra 0xe9b5dba5 3;
   stmt rd ra rb rc re rf rg rh 0x3956c25b 4;
   stmt rc rh ra rb rd re rf rg 0x59f111f1 5;
   stmt rb rg rh ra rc rd re rf 0x923f82a4 6;
   stmt ra rf rg rh rb rc rd re 0xab1c5ed5 7;
   stmt rh re rf rg ra rb rc rd 0xd807aa98 8;
   stmt rg rd re rf rh ra rb rc 0x12835b01 9;
   stmt rf rc rd re rg rh ra rb 0x243185be 10;
   stmt re rb rc rd rf rg rh ra 0x550c7dc3 11;
   stmt rd ra rb rc re rf rg rh 0x72be5d74 12;
   stmt rc rh ra rb rd re rf rg 0x80deb1fe 13;
   stmt rb rg rh ra rc rd re rf 0x9bdc06a7 14;
   stmt ra rf rg rh rb rc rd re 0xc19bf174 15;
   stmt rh re rf rg ra rb rc rd 0xe49b69c1 16;
   stmt rg rd re rf rh ra rb rc 0xefbe4786 17;
   stmt rf rc rd re rg rh ra rb 0x0fc19dc6 18;
   stmt re rb rc rd rf rg rh ra 0x240ca1cc 19;
   stmt rd ra rb rc re rf rg rh 0x2de92c6f 20;
   stmt rc rh ra rb rd re rf rg 0x4a7484aa 21;
   stmt rb rg rh ra rc rd re rf 0x5cb0a9dc 22;
   stmt ra rf rg rh rb rc rd re 0x76f988da 23;
   stmt rh re rf rg ra rb rc rd 0x983e5152 24;
   stmt rg rd re rf rh ra rb rc 0xa831c66d 25;
   stmt rf rc rd re rg rh ra rb 0xb00327c8 26;
   stmt re rb rc rd rf rg rh ra 0xbf597fc7 27;
   stmt rd ra rb rc re rf rg rh 0xc6e00bf3 28;
   stmt rc rh ra rb rd re rf rg 0xd5a79147 29;
   stmt rb rg rh ra rc rd re rf 0x06ca6351 30;
   stmt ra rf rg rh rb rc rd re 0x14292967 31;
   stmt rh re rf rg ra rb rc rd 0x27b70a85 32;
   stmt rg rd re rf rh ra rb rc 0x2e1b2138 33;
   stmt rf rc rd re rg rh ra rb 0x4d2c6dfc 34;
   stmt re rb rc rd rf rg rh ra 0x53380d13 35;
   stmt rd ra rb rc re rf rg rh 0x650a7354 36;
   stmt rc rh ra rb rd re rf rg 0x766a0abb 37;
   stmt rb rg rh ra rc rd re rf 0x81c2c92e 38;
   stmt ra rf rg rh rb rc rd re 0x92722c85 39;
   stmt rh re rf rg ra rb rc rd 0xa2bfe8a1 40;
   stmt rg rd re rf rh ra rb rc 0xa81a664b 41;
   stmt rf rc rd re rg rh ra rb 0xc24b8b70 42;
   stmt re rb rc rd rf rg rh ra 0xc76c51a3 43;
   stmt rd ra rb rc re rf rg rh 0xd192e819 44;
   stmt rc rh ra rb rd re rf rg 0xd6990624 45;
   stmt rb rg rh ra rc rd re rf 0xf40e3585 46;
   stmt ra rf rg rh rb rc rd re 0x106aa070 47;
   stmt rh re rf rg ra rb rc rd 0x19a4c116 48;
   stmt rg rd re rf rh ra rb rc 0x1e376c08 49;
   stmt rf rc rd re rg rh ra rb 0x2748774c 50;
   stmt re rb rc rd rf rg rh ra 0x34b0bcb5 51;
   stmt rd ra rb rc re rf rg rh 0x391c0cb3 52;
   stmt rc rh ra rb rd re rf rg 0x4ed8aa4a 53;
   stmt rb rg rh ra rc rd re rf 0x5b9cca4f 54;
   stmt ra rf rg rh rb rc rd re 0x682e6ff3 55;
   stmt rh re rf rg ra rb rc rd 0x748f82ee 56;
   stmt rg rd re rf rh ra rb rc 0x78a5636f 57;
   stmt rf rc rd re rg rh ra rb 0x84c87814 58;
   stmt re rb rc rd rf rg rh ra 0x8cc70208 59;
   stmt rd ra rb rc re rf rg rh 0x90befffa 60;
   stmt rc rh ra rb rd re rf rg 0xa4506ceb 61;
   stmt rb rg rh ra rc rd re rf 0xbef9a3f7 62;
   stmt ra rf rg rh rb rc rd re 0xc67178f2 63].

Fixpoint sha2_run (w : Z) (e0 e1 : Z → Z) (W : list Z) (l : list sha2_statement) (R : list Z) : option (list Z) :=
  match l with [] => Some R | s :: l => R ← sha2_stmt w e0 e1 W R s; sha2_run w e0 e1 W l R end.

(** The state is an array of eight words. *)
Definition load_state (st : list Z) : option (list Z) := if alen st =? 8 then Some st else None.

Definition sha256_transform (st obj : list Z) (off : Z) : option (list Z) :=
  W ← for_up 0 16 (LOAD_OP load_be32 obj off) (replicate 64 0);
  W ← for_up 16 64 (BLEND_OP 32 sha256_s0 sha256_s1) W;
  R ← load_state st;
  R ← sha2_run 32 sha256_e0 sha256_e1 W sha256_statements R;
  Some (add_regs 32 st R).

(** These leave the buffer as it is. *)
Definition sha224_init (sctx : sha_state) : sha_state := ShaState 0 [0xc1059ed8; 0x367cd507; 0x3070dd17; 0xf70e5939; 0xffc00b31; 0x68581511; 0x64f98fa7; 0xbefa4fa4] (buffer sctx).
Definition sha256_init (sctx : sha_state) : sha_state := ShaState 0 [0x6a09e667; 0xbb67ae85; 0x3c6ef372; 0xa54ff53a; 0x510e527f; 0x9b05688c; 0x1f83d9ab; 0x5be0cd19] (buffer sctx).
Definition sha256_update : sha_state → list Z → Z → option sha_state := sha_update sha256_transform.
Definition sha256_final : sha_state → option (sha_state * list Z) := sha_final sha256_transform.

Definition SHA224_DIGEST_SIZE : nat := 28.
Definition sha224_final (sctx : sha_state) : option (sha_state * list Z) :=
  '(sctx, D) ← sha256_final sctx; Some (sctx, take SHA224_DIGEST_SIZE D).

(** ** SHA-512 *)

Definition sha512_K : list Z :=
  [0x428a2f98d728ae22; 0x7137449123ef65cd; 0xb5c0fbcfec4d3b2f; 0xe9b5dba58189dbbc;
   0x3956c25bf348b538; 0x59f111f1b605d019; 0x923f82a4af194f9b; 0xab1c5ed5da6d8118;
   0xd807aa98a3030242; 0x12835b0145706fbe; 0x243185be4ee4b28c; 0x550c7dc3d5ffb4e2;
   0x72be5d74f27b896f; 0x80deb1fe3b1696b1; 0x9bdc06a725c71235; 0xc19bf174cf692694;
   0xe49b69c19ef14ad2; 0xefbe4786384f25e3; 0x0fc19dc68b8cd5b5; 0x240ca1cc77ac9c65;
   0x2de92c6f592b0275; 0x4a7484aa6ea6e483; 0x5cb0a9dcbd41fbd4; 0x76f988da831153b5;
   0x983e5152ee66dfab; 0xa831c66d2db43210; 0xb00327c898fb213f; 0xbf597fc7beef0ee4;
   0xc6e00bf33da88fc2; 0xd5a79147930aa725; 0x06ca6351e003826f; 0x142929670a0e6e70;
   0x27b70a8546d22ffc; 0x2e1b21385c26c926; 0x4d2c6dfc5ac42aed; 0x53380d139d95b3df;
   0x650a73548baf63de; 0x766a0abb3c77b2a8; 0x81c2c92e47edaee6; 0x92722c851482353b;
   0xa2bfe8a14cf10364; 0xa81a664bbc423001; 0xc24b8b70d0f89791; 0xc76c51a30654be30;
   0xd192e819d6ef5218; 0xd69906245565a910; 0xf40e35855771202a; 0x106aa07032bbd1b8;
   0x19a4c116b8d2d0c8; 0x1e376c085141ab53; 0x2748774cdf8eeb99; 0x34b0bcb5e19b48a8;
   0x391c0cb3c5c95a63; 0x4ed8aa4ae3418acb; 0x5b9cca4f7763e373; 0x682e6ff3d6b2b8a3;
   0x748f82ee5defb2fc; 0x78a5636f43172f60; 0x84c87814a1f0ab72; 0x8cc702081a6439ec;
   0x90befffa23631e28; 0xa4506cebde82bde9; 0xbef9a3f7b2c67915; 0xc67178f2e372532b;
   0xca273eceea26619c; 0xd186b8c721c0c207; 0xeada7dd6cde0eb1e; 0xf57d4f7fee6ed178;
   0x06f067aa72176fba; 0x0a637dc5a2c898a6; 0x113f9804bef90dae; 0x1b710b35131c471b;
   0x28db77f523047d84; 0x32caab7b40c72493; 0x3c9ebe0a15c9bebc; 0x431d67c49c100d4c;
   0x4cc5d4becb3e42b6; 0x597f299cfc657e2a; 0x5fcb6fab3ad6faec; 0x6c44198c4a475817].

Definition sha512_e0 (x : Z) : Z := Z.lxor (Z.lxor (ror 64 x 28) (ror 64 x 34)) (ror 64 x 39).
Definition sha512_e1 (x : Z) : Z := Z.lxor (Z.lxor (ror 64 x 14) (ror 64 x 18)) (ror 64 x 41).
Definition sha512_s0 (x : Z) : Z := Z.lxor (Z.lxor (ror 64 x 1) (ror 64 x 8)) (Z.shiftr x 7).
Definition sha512_s1 (x : Z) : Z := Z.lxor (Z.lxor (ror 64 x 19) (ror 64 x 61)) (Z.shiftr x 6).

(** [for (i=0; i<80; i+=8)]: a turn is ten times eight statements. *)
Definition sha512_rounds (W R : list Z) : option (list Z) :=
  for_up 0 10 (λ n R,
    let i := 8 * n in
    k ← sha512_K.[i + 0]; R ← sha2_stmt 64 sha512_e0 sha512_e1 W R (stmt rh re rf rg ra rb rc rd k (i + 0));
    k ← sha512_K.[i + 1]; R ← sha2_stmt 64 sha512_e0 sha512_e1 W R (stmt rg rd re rf rh ra rb rc k (i + 1));
    k ← sha512_K.[i + 2]; R ← sha2_stmt 64 sha512_e0 sha512_e1 W R (stmt rf rc rd re rg rh ra rb k (i + 2));
    k ← sha512_K.[i + 3]; R ← sha2_stmt 64 sha512_e0 sha512_e1 W R (stmt re rb rc rd rf rg rh ra k (i + 3));
    k ← sha512_K.[i + 4]; R ← sha2_stmt 64 sha512_e0 sha512_e1 W R (stmt rd ra rb rc re rf rg rh k (i + 4));
    k ← sha512_K.[i + 5]; R ← sha2_stmt 64 sha512_e0 sha512_e1 W R (stmt rc rh ra rb rd re rf rg k (i + 5));
    k ← sha512_K.[i + 6]; R ← sha2_stmt 64 sha512_e0 sha512_e1 W R (stmt rb rg rh ra rc rd re rf k (i + 6));
    k ← sha512_K.[i + 7]; R ← sha2_stmt 64 sha512_e0 sha512_e1 W R (stmt ra rf rg rh rb rc rd re k (i + 7));
    Some R) R.

(** [msg_schedule] is wiped behind every transform. *)
Definition sha512_transform (st obj : list Z) (off : Z) : option (list Z) :=
  W ← for_up 0 16 (LOAD_OP load_be64 obj off) (replicate 80 0);
  W ← for_up 16 80 (BLEND_OP 64 sha512_s0 sha512_s1) W;
  R ← load_state st;
  R ← sha512_rounds W R;
  Some (add_regs 64 st R).

(** [count[0]] and [count[1]]. *)
Record sha512_state := Sha512State { count0 : Z; count1 : Z; state512 : list Z; buf512 : list Z }.

Definition sha512_init (sctx : sha512_state) : sha512_state := Sha512State 0 0
  [0x6a09e667f3bcc908; 0xbb67ae8584caa73b; 0x3c6ef372fe94f82b; 0xa54ff53a5f1d36f1; 0x510e527fade682d1; 0x9b05688c2b3e6c1f; 0x1f83d9abfb41bd6b; 0x5be0cd19137e2179] (buf512 sctx).
Definition sha384_init (sctx : sha512_state) : sha512_state := Sha512State 0 0
  [0xcbbb9d5dc1059ed8; 0x629a292a367cd507; 0x9159015a3070dd17; 0x152fecd8f70e5939; 0x67332667ffc00b31; 0x8eb44a8768581511; 0xdb0c2e0d64f98fa7; 0x47b5481dbefa4fa4] (buf512 sctx).

(** A turn of the loop over the blocks of the data. *)
Definition sha512_turn (data : list Z) (len : Z) (s : list Z * Z) : option (list Z * Z + list Z * Z) :=
  let '(st, i) := s in
  if u32 (i + 127) <? len then st ← sha512_transform st data i; Some (inl (st, u32 (i + 128)))
  else Some (inr (st, i)).

Definition sha512_update (sctx : sha512_state) (data : list Z) (len : Z) : option sha512_state :=
  let index := Z.land (count0 sctx) 0x7f in
  let c0 := u64 (count0 sctx + len) in
  let c1 := if c0 =? 0 then u64 (count1 sctx + 1) else count1 sctx in
  let part_len := 128 - index in
  '(st, buf, index, i) ←
    (if len >=? part_len then
       buf ← memcpy (buf512 sctx) index data 0 part_len;
       st ← sha512_transform (state512 sctx) buf 0;
       '(st, i) ← loop (S (Z.to_nat len)) (sha512_turn data len) (st, part_len);
       Some (st, buf, 0, i)
     else Some (state512 sctx, buf512 sctx, index, 0));
  buf ← memcpy buf index data i (u32 (len - i));
  Some (Sha512State c0 c1 st buf).

Definition padding512 : list Z := 0x80 :: replicate 127 0.

Definition sha512_final (sctx : sha512_state) : option (sha512_state * list Z) :=
  let bits := put_be64 (Z.lor (u64 (Z.shiftl (count1 sctx) 3)) (Z.shiftr (count0 sctx) 61)) ++
              put_be64 (u64 (Z.shiftl (count0 sctx) 3)) in
  let index := Z.land (count0 sctx) 0x7f in
  let pad_len := if index <? 112 then 112 - index else 128 + 112 - index in
  sctx ← sha512_update sctx padding512 pad_len;
  sctx ← sha512_update sctx bits 16;
  Some (Sha512State 0 0 (replicate 8 0) (replicate 128 0), concat (map put_be64 (state512 sctx))).

Definition sha384_final (sctx : sha512_state) : option (sha512_state * list Z) :=
  '(sctx, D) ← sha512_final sctx; Some (sctx, take 48 D).
