(* ===== verification/ShaSpec.v ===== *)
(** * The Secure Hash Standard

    SHA-1, SHA-224, SHA-256, SHA-384 and SHA-512 as FIPS 180 defines them: padding, message
    schedule, rounds and constants, the latter computed from the roots of the first primes.
    Nothing here refers to the code. *)

From S2P Require Import Prelude Hash.
#[local] Open Scope Z_scope.
#[local] Open Scope kernel_scope.

(** ** Bytes, words and padding *)

(** A number as [n] bytes, the most significant first, and back. *)
Definition be_bytes (n x : Z) : list Z := (λ i, x / 256 ^ (n - 1 - i) mod 256) <$> seqZ 0 n.
Definition be_val (l : list Z) : Z := fold_left (λ a b, a * 256 + b) l 0.

(** The message, the bit 1, zeros up to the length field of [n] bytes, and the length in bits. *)
Definition sha_pad (B n : Z) (m : list Z) : list Z :=
  m ++ [0x80] ++ replicate (Z.to_nat ((B - n - 1 - alen m) mod B)) 0 ++ be_bytes n (8 * alen m).

(** The sixteen words of [n] bytes of a block. *)
Definition block_words (n : Z) (b : list Z) : list Z := (λ i, be_val (slice b (n * i) n)) <$> seqZ 0 16.

(** Rotations of [w]-bit words. *)
Definition rotl (w n x : Z) : Z := x mod 2 ^ (w - n) * 2 ^ n + x / 2 ^ (w - n).
Definition rotr (w n x : Z) : Z := x mod 2 ^ n * 2 ^ (w - n) + x / 2 ^ n.

(** The logical functions. *)
Definition ch (x y z : Z) : Z := Z.lxor (Z.land x y) (Z.land (Z.lnot x) z).
Definition parity (x y z : Z) : Z := Z.lxor (Z.lxor x y) z.
Definition maj (x y z : Z) : Z := Z.lxor (Z.lxor (Z.land x y) (Z.land x z)) (Z.land y z).

(** Words [W_t] from [W_0] to [W_{t-1}], [k] times. *)
Fixpoint extend (k : nat) (next : list Z → Z) (W : list Z) : list Z :=
  match k with O => W | S k => let V := extend k next W in V ++ [next V] end.

(** [W_{t-j}] for the next [t]. *)
Definition back (W : list Z) (j : Z) : Z := default 0 W.[alen W - j].
Definition word (W : list Z) (t : Z) : Z := default 0 W.[t].

(** ** Roots of primes *)

Definition divides (d n : Z) : bool := n mod d =? 0.
Definition prime (n : Z) : bool := (2 <=? n) && forallb (λ d, negb (divides d n)) (seqZ 2 (n - 2)).
Definition primes : list Z := List.filter prime (seqZ 2 408).

(** The integer cube root, one bit after the other. *)
Fixpoint cbrt_bits (k : nat) (n r : Z) : Z :=
  match k with
  | O => r
  | S k => let r' := r + 2 ^ Z.of_nat k in cbrt_bits k n (if r' ^ 3 <=? n then r' else r)
  end.
Definition cbrt (n : Z) : Z := cbrt_bits 80 n 0.

(** The first [w] bits of the fractional part of the square and cube root of [p]. *)
Definition frac_sqrt (w p : Z) : Z := Z.sqrt (p * 2 ^ (2 * w)) mod 2 ^ w.
Definition frac_cbrt (w p : Z) : Z := cbrt (p * 2 ^ (3 * w)) mod 2 ^ w.

(** ** SHA-1 *)

Definition sha1_f (t : Z) : Z → Z → Z → Z :=
  if t <? 20 then ch else if t <? 40 then parity else if t <? 60 then maj else parity.

(** 2^30 times the roots of 2, 3, 5 and 10. *)
Definition sha1_K (t : Z) : Z :=
  Z.sqrt ((if t <? 20 then 2 else if t <? 40 then 3 else if t <? 60 then 5 else 10) * 2 ^ 60).

Definition sha1_next (W : list Z) : Z :=
  rotl 32 1 (Z.lxor (Z.lxor (Z.lxor (back W 3) (back W 8)) (back W 14)) (back W 16)).

Definition sha1_step (W : list Z) (r : list Z) (t : Z) : list Z :=
  match r with
  | [a; b; c; d; e] => [(rotl 32 5 a + sha1_f t b c d + e + sha1_K t + word W t) mod 2 ^ 32; a; rotl 32 30 b; c; d]
  | _ => r
  end.

Definition add_words (w : Z) (st r : list Z) : list Z := zip_with (λ x y, (x + y) mod 2 ^ w) st r.

Definition sha1_compress (st b : list Z) : list Z :=
  add_words 32 st (fold_left (sha1_step (extend 64 sha1_next (block_words 4 b))) (seqZ 0 80) st).

Definition sha1_iv : list Z := [0x67452301; 0xefcdab89; 0x98badcfe; 0x10325476; 0xc3d2e1f0].

Definition sha1 (m : list Z) : list Z :=
  concat (map (be_bytes 4) (iterate 64 sha1_compress sha1_iv (sha_pad 64 8 m))).

(** ** SHA-2 *)

Section Sha2.
Context (w : Z) (Sigma0 Sigma1 sigma0 sigma1 : Z → Z).

Definition sha2_next (W : list Z) : Z := (sigma1 (back W 2) + back W 7 + sigma0 (back W 15) + back W 16) mod 2 ^ w.

Definition sha2_step (W : list Z) (r : list Z) (kt : Z * Z) : list Z :=
  match r with
  | [a; b; c; d; e; f; g; h] =>
      let T1 := (h + Sigma1 e + ch e f g + kt.1 + word W kt.2) mod 2 ^ w in
      let T2 := (Sigma0 a + maj a b c) mod 2 ^ w in
      [(T1 + T2) mod 2 ^ w; a; b; c; (d + T1) mod 2 ^ w; e; f; g]
  | _ => r
  end.

(** As many rounds as there are constants [K]. *)
Definition sha2_compress (K st b : list Z) : list Z :=
  let W := extend (length K - 16) sha2_next (block_words (w / 8) b) in
  add_words w st (fold_left (sha2_step W) (zip K (seqZ 0 (alen K))) st).
End Sha2.

Definition sum3 (f g h : Z → Z) (x : Z) : Z := Z.lxor (Z.lxor (f x) (g x)) (h x).

Definition sha256_consts : list Z := map (frac_cbrt 32) (take 64 primes).
Definition sha256_compress : list Z → list Z → list Z :=
  sha2_compress 32 (sum3 (rotr 32 2) (rotr 32 13) (rotr 32 22)) (sum3 (rotr 32 6) (rotr 32 11) (rotr 32 25))
    (sum3 (rotr 32 7) (rotr 32 18) (λ x, x / 2 ^ 3)) (sum3 (rotr 32 17) (rotr 32 19) (λ x, x / 2 ^ 10)) sha256_consts.
Definition sha256_iv : list Z := map (frac_sqrt 32) (take 8 primes).
Definition sha224_iv : list Z := map (λ p, frac_sqrt 64 p mod 2 ^ 32) (take 8 (drop 8 primes)).

Definition sha256 (m : list Z) : list Z :=
  concat (map (be_bytes 4) (iterate 64 sha256_compress sha256_iv (sha_pad 64 8 m))).
Definition sha224 (m : list Z) : list Z :=
  take 28 (concat (map (be_bytes 4) (iterate 64 sha256_compress sha224_iv (sha_pad 64 8 m)))).

Definition sha512_consts : list Z := map (frac_cbrt 64) (take 80 primes).
Definition sha512_compress : list Z → list Z → list Z :=
  sha2_compress 64 (sum3 (rotr 64 28) (rotr 64 34) (rotr 64 39)) (sum3 (rotr 64 14) (rotr 64 18) (rotr 64 41))
    (sum3 (rotr 64 1) (rotr 64 8) (λ x, x / 2 ^ 7)) (sum3 (rotr 64 19) (rotr 64 61) (λ x, x / 2 ^ 6)) sha512_consts.
Definition sha512_iv : list Z := map (frac_sqrt 64) (take 8 primes).
Definition sha384_iv : list Z := map (frac_sqrt 64) (take 8 (drop 8 primes)).

Definition sha512 (m : list Z) : list Z :=
  concat (map (be_bytes 8) (iterate 128 sha512_compress sha512_iv (sha_pad 128 16 m))).
Definition sha384 (m : list Z) : list Z :=
  take 48 (concat (map (be_bytes 8) (iterate 128 sha512_compress sha384_iv (sha_pad 128 16 m)))).

(** The cube root is the integer below the real one. *)
Lemma cbrt_bits_ok k n r : 0 ≤ r → r ^ 3 ≤ n < (r + 2 ^ Z.of_nat k) ^ 3 → let c := cbrt_bits k n r in 0 ≤ c ∧ c ^ 3 ≤ n < (c + 1) ^ 3.
Proof.
  revert r. induction k as [|k IH]; intros r Hr Hn; cbn [cbrt_bits]; [done|]. cbv zeta.
  rewrite Nat2Z.inj_succ, Z.pow_succ_r in Hn by lia. pose proof (Z.pow_pos_nonneg 2 (Z.of_nat k) ltac:(lia) ltac:(lia)).
  destruct (Z.leb_spec ((r + 2 ^ Z.of_nat k) ^ 3) n); [apply IH; [lia|]|apply IH; [lia|lia]]. split; [lia|].
  replace (r + 2 ^ Z.of_nat k + 2 ^ Z.of_nat k) with (r + 2 * 2 ^ Z.of_nat k) by lia. lia.
Qed.
