(* ===== verification/ShaFacts.v ===== *)
(** * The frame, the words and the schedules of the SHA functions

    The update functions of SHA-1, SHA-256 and SHA-512 take a message in any pieces, for every
    compression routine that satisfies the interface, and the final functions pad it as the
    standard says.  The loads, rotations and logical functions of the code are those of the
    standard, and the loops that fill the array of words compute the message schedule. *)

From S2P Require Import Prelude Words Cipher Hash Sha ShaSpec.
#[local] Open Scope Z_scope.
#[local] Open Scope kernel_scope.

(** ** Lengths and bytes *)

Lemma land_63 x : Z.land x 0x3f = x mod 64.
Proof. change 0x3f with (Z.ones 6). by rewrite Z.land_ones by lia. Qed.

Lemma u64_mod x d : 0 < d → (2 ^ 64) mod d = 0 → u64 x mod d = x mod d.
Proof.
  intros Hd H. unfold uwrap. apply Z.mod_divide in H; [|lia]. rewrite (Z.mod_eq x (2 ^ 64)) by lia.
  destruct H as [q Hq]. rewrite Hq. replace (x - q * d * (x / (q * d))) with (x + (- q * (x / (q * d))) * d) by lia. by rewrite Z.mod_add by lia.
Qed.

Lemma put_be32_bytes x : urange 32 x → put_be32 x = be_bytes 4 x.
Proof.
  intros Hx. destruct (word_cases x Hx) as (a & b & c & d & Ha & Hb & Hc & Hd & ->). unfold put_be32.
  rewrite swab32_le32 by done. destruct (le32_bytes_ok (le32 d c b a) (le32_range _ _ _ _ Hd Hc Hb Ha)) as [_ ->].
  destruct (le32_bytes_at d c b a Hd Hc Hb Ha) as (-> & -> & -> & ->). unfold be_bytes, urange in *.
  change (seqZ 0 4) with [0; 1; 2; 3]. cbn [fmap list_fmap]. unfold le32. change (4 - 1 - 0) with 3. change (4 - 1 - 1) with 2.
  change (4 - 1 - 2) with 1. change (4 - 1 - 3) with 0. change (256 ^ 3) with 16777216. change (256 ^ 2) with 65536.
  change (256 ^ 1) with 256. change (256 ^ 0) with 1. repeat f_equal; Z.to_euclidean_division_equations; lia.
Qed.

Lemma put_be64_bytes x : urange 64 x → put_be64 x = be_bytes 8 x.
Proof.
  intros Hx. unfold urange in Hx. unfold put_be64. rewrite Z.shiftr_div_pow2 by lia.
  assert (urange 32 (x / 2 ^ 32)) by (unfold urange; Z.to_euclidean_division_equations; lia).
  rewrite !put_be32_bytes by (done || (apply urange_uwrap; lia)). unfold be_bytes, uwrap.
  change (seqZ 0 4) with [0; 1; 2; 3]. change (seqZ 0 8) with [0; 1; 2; 3; 4; 5; 6; 7]. cbn [fmap list_fmap app].
  repeat match goal with |- context [256 ^ (?a - 1 - ?b)] => let v := eval vm_compute in (256 ^ (a - 1 - b)) in change (256 ^ (a - 1 - b)) with v end.
  rewrite !Z.div_div by lia. repeat (apply (f_equal2 cons)); [..|done]; Z.to_euclidean_division_equations; lia.
Qed.

(** ** The frame of SHA-1 and SHA-256 *)

Section Frame.
Context {f : list Z → list Z → list Z} {good : list Z → Prop} {transform : list Z → list Z → Z → option (list Z)}.
Context `{HT : !Compresses 64 f good transform}.
Context (iv : list Z).

Definition sha_holds (sctx : sha_state) (m : list Z) : Prop :=
  count sctx = u64 (alen m) ∧ Forall byte (buffer sctx) ∧ good (state sctx) ∧ taken 64 f iv (state sctx) (buffer sctx) m.

Section Update.
Context (m data : list Z) (len : Z).
Hypothesis Hdata : Forall byte data.
Hypothesis Hlen : 0 ≤ len ≤ alen data.
Hypothesis Hlen32 : len ≤ 2 ^ 32 - 64.

(** The input of the next transform is a block [x] that leads to the next [done]. *)
Definition turn_ok (buf st : list Z) (in_buffer : bool) (done : Z) : Prop :=
  ∃ x, (if in_buffer then transform st buf 0 else transform st data done) = Some (f st x) ∧ good (f st x) ∧
    at_block 64 f iv (f st x) (m ++ slice data 0 (u32 (done + 64))) ∧ 0 < u32 (done + 64) ≤ len.

Lemma turn_next buf st d :
  good st → at_block 64 f iv st (m ++ slice data 0 d) → 0 ≤ d → d + 64 ≤ len → turn_ok buf st false d.
Proof.
  intros Hst Hat Hd Hl. assert (Hin : d + 64 ≤ alen data) by lia. destruct (compresses st data d Hst Hdata Hd Hin) as [E Hg]. exists (slice data d 64).
  rewrite uwrap_small by (unfold urange; lia). ands; [done|done| |lia|lia].
  rewrite slice_app, app_assoc by lia. apply at_block_step; [lia|done|]. by rewrite alen_slice by lia.
Qed.

Lemma sha_loop_ok buf st in_buffer done :
  turn_ok buf st in_buffer done →
  ∃ st' d, loop (S (Z.to_nat len)) (sha_turn transform buf data len) (st, in_buffer, done) = Some (st', d) ∧
    0 ≤ d ≤ len ∧ len < d + 64 ∧ good st' ∧ at_block 64 f iv st' (m ++ slice data 0 d).
Proof.
  intros HI.
  destruct (loop_rule (λ '(st, inb, d), turn_ok buf st inb d) (λ '(st, inb, d), Z.to_nat (len - u32 (d + 64)))
      (λ '(st', d), 0 ≤ d ≤ len ∧ len < d + 64 ∧ good st' ∧ at_block 64 f iv st' (m ++ slice data 0 d))
      (sha_turn transform buf data len) (S (Z.to_nat len)) (st, in_buffer, done)) as ([st' d] & -> & HQ).
  - intros [[st1 inb] d] (x & E & Hg & Hat & Hd). unfold sha_turn. rewrite E. cbn [mbind option_bind]. cbv zeta.
    rewrite (uwrap_small 32 (u32 (d + 64) + 63)) by (unfold urange; lia).
    destruct (Z.ltb_spec (u32 (d + 64) + 63) len).
    + eexists. split; [done|]. split; [by apply turn_next; try done; lia|].
      rewrite (uwrap_small 32 (u32 (d + 64) + 64)) by (unfold urange; lia). lia.
    + eexists. split; [done|]. cbv beta iota. ands; try done; lia.
  - done.
  - destruct HI as (x & _ & _ & _ & Hd). lia.
  - eexists _, _. split; [done|]. tauto.
Qed.

Lemma sha_update_ok sctx :
  sha_holds sctx m → ∃ sctx', sha_update transform sctx data len = Some sctx' ∧ sha_holds sctx' (m ++ slice data 0 len).
Proof.
  intros (Hc & Hb & Hg & Ht). unfold sha_update. rewrite Hc, land_63, u64_mod by done. set (p := alen m mod 64).
  assert (Hp : 0 ≤ p < 64) by (by apply Z.mod_pos_bound). cbv zeta. rewrite (uwrap_small 32 (p + len)) by (unfold urange; lia).
  assert (Hcnt : u64 (u64 (alen m) + len) = u64 (alen (m ++ slice data 0 len))).
  { rewrite alen_app, alen_slice by lia. unfold uwrap. by rewrite Zplus_mod_idemp_l. }
  assert (Hdat : ∀ off n, Forall byte (slice data off n)) by (intros; by apply Forall_take, Forall_drop).
  pose proof (proj1 (taken_length 64 f iv ltac:(lia) _ _ _ Ht)) as Hbl.
  destruct (p + len >? 63) eqn:E.
  - assert (Hstart : ∃ buf inb d, (if ctrue p then
         buf ← memcpy (buffer sctx) p data 0 (u32 (u32 (- p) + 64)); Some (buf, true, u32 (- p))
       else Some (buffer sctx, false, 0)) = Some (buf, inb, d) ∧ alen buf = 64 ∧ Forall byte buf ∧ turn_ok buf (state sctx) inb d).
    { destruct (ctrue p) eqn:Ep; [apply ctrue_true in Ep|apply ctrue_false in Ep].
      - assert (u32 (u32 (- p) + 64) = 64 - p) as Hd.
        { unfold uwrap. rewrite Zplus_mod_idemp_l. rewrite Z.mod_small; lia. }
        destruct (taken_full 64 f iv ltac:(lia) _ _ _ data 0 p Ht eq_refl ltac:(lia) ltac:(lia)) as (buf & E1 & Hl & Hat & Hby).
        exists buf, true, (u32 (- p)). rewrite Hd, E1. cbn [mbind option_bind]. ands; [done|done|by apply Hby|].
        assert (Hin : 0 + 64 ≤ alen buf) by lia.
        destruct (compresses (state sctx) buf 0 Hg (Hby Hb Hdata) ltac:(lia) Hin) as [Ec Hgc].
        assert (Hx : slice buf 0 64 = buf) by (rewrite <- Hl; apply slice_all). rewrite Hx in *.
        exists buf. rewrite Hd. ands; [done|done|done|lia|lia].
      - exists (buffer sctx), false, 0. ands; [done|done|done|]. apply turn_next; [done| |lia|lia].
        rewrite slice_nil, app_nil_r. destruct (taken_length 64 f iv ltac:(lia) _ _ _ Ht) as (_ & q & tail & rest & -> & Hq & _ & Hl).
        fold p in Hl. rewrite Ep in Hl. destruct tail; [by rewrite app_nil_r|]. unfold alen in Hl. cbn [length] in Hl. lia. }
    destruct Hstart as (buf & inb & d & -> & Hl & Hby & Hturn). cbn [mbind option_bind].
    destruct (sha_loop_ok buf (state sctx) inb d Hturn) as (st' & d' & -> & Hd1 & Hd2 & Hg' & Hat). cbn [mbind option_bind].
    rewrite (uwrap_small 32 (len - d')) by (unfold urange; lia).
    destruct (taken_rest 64 f iv st' buf _ data d' (len - d') Hat Hl) as (buf' & E2 & Ht'); [lia..|].
    rewrite E2. cbn [mbind option_bind]. eexists. split; [done|]. unfold sha_holds. cbn [count state buffer].
    rewrite <- app_assoc, <- slice_app in Ht' by lia. replace (d' + (len - d')) with len in Ht' by lia. ands; [done| |done|done].
    by eapply memcpy_bytes.
  - destruct (taken_short 64 f iv ltac:(lia) _ _ _ data 0 len p Ht eq_refl) as (buf' & E2 & Ht'); [lia..|].
    rewrite E2. cbn [mbind option_bind]. eexists. split; [done|]. unfold sha_holds. cbn [count state buffer]. ands; [done| |done|done].
    by eapply memcpy_bytes.
Qed.
End Update.

Lemma pad_cut padlen n : 1 ≤ padlen → slice (0x80 :: replicate n 0) 0 padlen = 0x80 :: replicate (Z.to_nat (padlen - 1) `min` n) 0.
Proof.
  intros Hp. unfold slice. rewrite drop_0. replace (Z.to_nat padlen) with (S (Z.to_nat (padlen - 1))) by lia. cbn [take].
  by rewrite take_replicate.
Qed.

Lemma sha_pad_cut m :
  let p := alen m mod 64 in let padlen := if p <? 56 then 56 - p else 64 + 56 - p in
  1 ≤ padlen ≤ 64 ∧ sha_pad 64 8 m = (m ++ slice padding 0 padlen) ++ be_bytes 8 (8 * alen m) ∧
  (alen m + padlen + 8) mod 64 = 0.
Proof.
  intros p padlen. assert (Hp : 0 ≤ p < 64) by (by apply Z.mod_pos_bound).
  assert (Hl : 1 ≤ padlen ≤ 64 ∧ (64 - 8 - 1 - alen m) mod 64 = padlen - 1 ∧ (alen m + padlen + 8) mod 64 = 0).
  { subst padlen p. destruct (Z.ltb_spec (alen m mod 64) 56); Z.to_euclidean_division_equations; lia. }
  destruct Hl as (H1 & H2 & H3). ands; try done; try lia. unfold sha_pad. rewrite H2, <- app_assoc. f_equal. unfold padding. rewrite pad_cut by lia. rewrite Nat.min_l by lia. done.
Qed.

Lemma padding_bytes : Forall byte padding.
Proof. unfold padding. constructor; [by unfold urange|]. by apply Forall_replicate. Qed.

Lemma be_bytes_ok n x : 0 ≤ n → alen (be_bytes n x) = n ∧ Forall byte (be_bytes n x).
Proof.
  intros Hn. split; [by apply alen_fmap_seqZ|]. apply Forall_fmap, Forall_true. intros i. apply Z.mod_pos_bound. lia.
Qed.

Lemma sha_final_ok sctx m :
  sha_holds sctx m → alen m < 2 ^ 61 →
  ∃ wiped, sha_final transform sctx = Some (wiped, concat (map put_be32 (iterate 64 f iv (sha_pad 64 8 m)))).
Proof.
  intros Hm Hlen. assert (Hc : count sctx = alen m).
  { destruct Hm as [-> _]. apply uwrap_small. pose proof (alen_nonneg m). unfold urange. lia. }
  pose proof (alen_nonneg m) as Hm0. unfold sha_final. rewrite Hc, land_63. cbv zeta.
  destruct (sha_pad_cut m) as (Hpl & Hpad & Hmod). set (padlen := if alen m mod 64 <? 56 then _ else _) in *.
  assert (Hp64 : alen padding = 64) by done.
  destruct (sha_update_ok m padding padlen padding_bytes ltac:(lia) ltac:(lia) sctx Hm) as (s1 & -> & H1). cbn [mbind option_bind].
  rewrite Z.shiftl_mul_pow2, (Z.mul_comm (alen m)), uwrap_small by (lia || (unfold urange; lia)). change (2 ^ 3) with 8.
  rewrite put_be64_bytes by (unfold urange; lia). destruct (be_bytes_ok 8 (8 * alen m) ltac:(lia)) as [Hbl Hbb].
  destruct (sha_update_ok _ (be_bytes 8 (8 * alen m)) 8 Hbb ltac:(lia) ltac:(lia) s1 H1) as (s2 & -> & H2). cbn [mbind option_bind].
  assert (Hall : slice (be_bytes 8 (8 * alen m)) 0 8 = be_bytes 8 (8 * alen m)) by (rewrite <- Hbl at 2; apply slice_all).
  rewrite Hall, <- Hpad in H2. destruct H2 as (_ & _ & _ & Ht). eexists. do 4 f_equal.
  destruct (taken_length 64 f iv ltac:(lia) _ _ _ Ht) as (_ & q & tail & rest & E & Hq & _ & Hl).
  assert (alen (sha_pad 64 8 m) mod 64 = 0) as E0.
  { rewrite Hpad, !alen_app, Hbl, alen_slice by lia. exact Hmod. }
  rewrite E0 in Hl. destruct tail; [|unfold alen in Hl; cbn [length] in Hl; lia]. rewrite app_nil_r in E. rewrite E.
  by apply at_block_iterate.
Qed.

(** A message in pieces. *)
Fixpoint sha_updates (sctx : sha_state) (pieces : list (list Z)) : option sha_state :=
  match pieces with
  | [] => Some sctx
  | d :: pieces => sctx ← sha_update transform sctx d (alen d); sha_updates sctx pieces
  end.

Definition piece (d : list Z) : Prop := Forall byte d ∧ alen d ≤ 2 ^ 32 - 64.

Lemma sha_stream_ok sctx m pieces :
  sha_holds sctx m → Forall piece pieces →
  ∃ sctx', sha_updates sctx pieces = Some sctx' ∧ sha_holds sctx' (m ++ concat pieces).
Proof.
  intros Hm Hp. revert sctx m Hm. induction Hp as [|d pieces [Hd Hl] Hp IH]; intros sctx m Hm; cbn [sha_updates concat].
  { exists sctx. by rewrite app_nil_r. }
  pose proof (alen_nonneg d). destruct (sha_update_ok m d (alen d) Hd ltac:(lia) Hl sctx Hm) as (s1 & -> & H1). cbn [mbind option_bind].
  rewrite slice_all in H1. destruct (IH _ _ H1) as (s2 & -> & H2). exists s2. by rewrite app_assoc.
Qed.

Lemma sha_digest_ok buf pieces :
  good iv → alen buf = 64 → Forall byte buf → Forall piece pieces → alen (concat pieces) < 2 ^ 61 →
  ∃ wiped, (sctx ← sha_updates (ShaState 0 iv buf) pieces; sha_final transform sctx) =
    Some (wiped, concat (map put_be32 (iterate 64 f iv (sha_pad 64 8 (concat pieces))))).
Proof.
  intros Hiv Hl Hb Hp Hlen. assert (H0 : sha_holds (ShaState 0 iv buf) []).
  { split; [done|]. split; [done|]. split; [done|]. by apply taken_nil. }
  destruct (sha_stream_ok _ _ _ H0 Hp) as (s & -> & Hs). cbn [mbind option_bind]. by apply sha_final_ok.
Qed.

Lemma iterate_good (B : Z) m :
  Compresses B f good transform → 0 < B → good iv → Forall byte m → alen m mod B = 0 → good (iterate B f iv m).
Proof.
  intros HC HB Hiv Hm Hl. unfold iterate. set (k := Z.to_nat (alen m / B)).
  assert (Hk : alen m = Z.of_nat k * B) by (subst k; pose proof (alen_nonneg m); Z.to_euclidean_division_equations; nia).
  clearbody k. clear Hl. generalize iv Hiv. revert m Hm Hk. induction k as [|k IH]; intros m Hm Hk st Hst; cbn [absorb]; [done|].
  assert (Hin : 0 + B ≤ alen m) by nia. destruct (compresses st m 0 Hst Hm ltac:(lia) Hin) as [_ Hg].
  apply IH; [by apply Forall_drop| |exact Hg]. rewrite alen_drop by lia. lia.
Qed.

Lemma Forall_concat_bytes pieces : Forall piece pieces → Forall byte (concat pieces).
Proof. intros H. induction H as [|d pieces [Hd _] H IH]; cbn; [done|]. by apply Forall_app. Qed.

Lemma sha_pad_ok B n m : 0 < n < B → Forall byte m → Forall byte (sha_pad B n m) ∧ alen (sha_pad B n m) mod B = 0.
Proof.
  intros Hn Hm. unfold sha_pad. destruct (be_bytes_ok n (8 * alen m) ltac:(lia)) as [Hl Hb]. split.
  - rewrite !Forall_app. ands; [done|by apply Forall_singleton|by apply Forall_replicate|done].
  - rewrite !alen_app, Hl. change (alen [128]) with 1. unfold alen at 2. rewrite length_replicate.
    rewrite Z2Nat.id by (apply Z.mod_pos_bound; lia). pose proof (Z.mod_eq (B - n - 1 - alen m) B ltac:(lia)) as E. rewrite E.
    replace (alen m + (1 + (B - n - 1 - alen m - B * ((B - n - 1 - alen m) / B) + n))) with ((1 - (B - n - 1 - alen m) / B) * B) by lia.
    by apply Z.mod_mul; lia.
Qed.

Lemma digest_words st : Forall (urange 32) st → map put_be32 st = map (be_bytes 4) st.
Proof. intros H. induction H as [|x st Hx H IH]; [done|]. cbn. by rewrite put_be32_bytes, IH. Qed.

(** The digest of a message in pieces, with the bytes of the standard. *)
Lemma sha_digest_spec buf pieces :
  good iv → (∀ st, good st → Forall (urange 32) st) → alen buf = 64 → Forall byte buf → Forall piece pieces → alen (concat pieces) < 2 ^ 61 →
  ∃ wiped, (sctx ← sha_updates (ShaState 0 iv buf) pieces; sha_final transform sctx) =
    Some (wiped, concat (map (be_bytes 4) (iterate 64 f iv (sha_pad 64 8 (concat pieces))))).
Proof.
  intros Hiv Hgood Hl Hb Hp Hlen. destruct (sha_digest_ok buf pieces Hiv Hl Hb Hp Hlen) as (wiped & ->).
  exists wiped. do 3 f_equal. apply digest_words, Hgood. pose proof (Forall_concat_bytes _ Hp) as Hm.
  destruct (sha_pad_ok 64 8 _ ltac:(lia) Hm). by apply iterate_good.
Qed.
End Frame.

(** ** Rotations *)

Lemma lor_shiftl x y k : 0 ≤ k → 0 ≤ x < 2 ^ k → Z.lor (Z.shiftl y k) x = y * 2 ^ k + x.
Proof.
  intros Hk Hx. rewrite Z.add_comm, Z.mul_comm, add_shiftl_lxor by done. rewrite Z.lxor_comm, <- Z.lxor_lor; [done|].
  apply Z.bits_inj'. intros i Hi. rewrite Z.land_spec, Z.shiftl_spec, Z.bits_0 by done.
  destruct (Z.ltb_spec i k); [by rewrite Z.testbit_neg_r by lia|]. by rewrite (urange_testbit_high k x i), andb_false_r by (done || lia).
Qed.

Lemma ror_rotr w x n : 0 ≤ n ≤ w → urange w x → ror w x n = rotr w n x.
Proof.
  intros Hn Hx. unfold ror, rotr, ushl. rewrite Z.lor_comm, Z.shiftr_div_pow2 by lia.
  assert (uwrap w (Z.shiftl x (w - n)) = Z.shiftl (x mod 2 ^ n) (w - n)) as ->.
  { rewrite !Z.shiftl_mul_pow2 by lia. unfold uwrap. rewrite <- Z.mul_mod_distr_r by lia. f_equal.
    rewrite <- Z.pow_add_r by lia. f_equal. lia. }
  rewrite lor_shiftl; [done|lia|]. unfold urange in Hx. replace (2 ^ w) with (2 ^ n * 2 ^ (w - n)) in Hx by (rewrite <- Z.pow_add_r by lia; f_equal; lia).
  pose proof (Z.pow_pos_nonneg 2 n ltac:(lia) ltac:(lia)).
  split; [apply Z.div_pos; lia|]. apply Z.div_lt_upper_bound; lia.
Qed.

Lemma rotr_range w x n : 0 ≤ n ≤ w → urange w x → urange w (rotr w n x).
Proof.
  intros Hn Hx. unfold urange, rotr in *. pose proof (Z.mod_pos_bound x (2 ^ n) ltac:(apply Z.pow_pos_nonneg; lia)).
  replace (2 ^ w) with (2 ^ n * 2 ^ (w - n)) in * by (rewrite <- Z.pow_add_r by lia; f_equal; lia).
  pose proof (Z.pow_pos_nonneg 2 n ltac:(lia) ltac:(lia)). pose proof (Z.pow_pos_nonneg 2 (w - n) ltac:(lia) ltac:(lia)).
  assert (0 ≤ x / 2 ^ n < 2 ^ (w - n)) by (split; [apply Z.div_pos; lia|apply Z.div_lt_upper_bound; lia]). nia.
Qed.

Lemma rol32_rotl x n : 0 ≤ n ≤ 32 → urange 32 x → rol32 x n = rotl 32 n x ∧ urange 32 (rotl 32 n x).
Proof.
  intros Hn Hx. assert (Hr : ror 32 x (32 - n) = rol32 x n).
  { unfold ror, rol32. rewrite Z.lor_comm. do 3 f_equal. lia. }
  assert (rotr 32 (32 - n) x = rotl 32 n x) as Hl by (unfold rotr, rotl; by replace (32 - (32 - n)) with n by lia).
  rewrite <- Hr, <- Hl. split; [by apply ror_rotr; [lia|]|by apply rotr_range; [lia|]].
Qed.

(** ** Logical functions *)

(** Equality of words by their bits. *)
Ltac by_bits :=
  apply Z.bits_inj'; intros i Hi; rewrite ?Z.lxor_spec, ?Z.land_spec, ?Z.lor_spec, ?Z.lxor_spec, ?Z.land_spec, ?Z.lor_spec, ?Z.lnot_spec by done;
  repeat match goal with |- context [Z.testbit ?x i] => is_var x; destruct (Z.testbit x i) end; done.

Lemma Ch_ch x y z : Ch x y z = ch x y z.
Proof. unfold Ch, ch. by_bits. Qed.

Lemma Maj_maj x y z : Maj x y z = maj x y z.
Proof. unfold Maj, maj. by_bits. Qed.

Lemma f1_ch x y z : f1 x y z = ch x y z.
Proof. apply Ch_ch. Qed.

Lemma f3_maj x y z : f3 x y z = maj x y z.
Proof.
  unfold f3. rewrite Z.add_nocarry_lxor; [unfold maj; by_bits|].
  apply Z.bits_inj'. intros i Hi. rewrite !Z.land_spec, Z.lxor_spec, Z.bits_0. by destruct (Z.testbit x i), (Z.testbit y i), (Z.testbit z i).
Qed.

(** ** Loads *)



Section Load.
Context (obj : list Z).
Hypothesis Hobj : Forall byte obj.

Lemma load_be32_ok off i :
  0 ≤ off → 0 ≤ i → off + 4 * i + 4 ≤ alen obj →
  load_be32 obj off i = Some (be_val (slice obj (off + 4 * i) 4)) ∧ urange 32 (be_val (slice obj (off + 4 * i) 4)).
Proof.
  intros Ho Hi Hl. set (p := off + 4 * i).
  destruct (arr_get_lt obj p) as [b0 H0]; [lia|]. destruct (arr_get_lt obj (p + 1)) as [b1 H1]; [lia|].
  destruct (arr_get_lt obj (p + 2)) as [b2 H2]; [lia|]. destruct (arr_get_lt obj (p + 3)) as [b3 H3]; [lia|].
  unfold load_be32. fold p. rewrite H0, H1, H2, H3. cbn [mbind option_bind].
  pose proof (Forall_arr_get _ _ _ _ Hobj H0) as B0. pose proof (Forall_arr_get _ _ _ _ Hobj H1) as B1.
  pose proof (Forall_arr_get _ _ _ _ Hobj H2) as B2. pose proof (Forall_arr_get _ _ _ _ Hobj H3) as B3.
  rewrite swab32_le32 by done. rewrite (slice_cons _ _ _ _ H0) by lia. rewrite (slice_cons _ _ _ _ H1) by lia.
  replace (p + 1 + 1) with (p + 2) by lia. rewrite (slice_cons _ _ _ _ H2) by lia. replace (p + 2 + 1) with (p + 3) by lia.
  rewrite (slice_cons _ _ _ _ H3) by lia. change (4 - 1 - 1 - 1 - 1) with 0. rewrite slice_nil.
  unfold be_val. cbn [fold_left]. unfold le32, urange in *. split; [f_equal; lia|lia].
Qed.

Lemma fold_be_val l a : fold_left (λ a b, a * 256 + b) l a = a * 256 ^ alen l + be_val l.
Proof.
  unfold be_val. revert a. induction l as [|b l IH]; intros a; cbn [fold_left]; [change (alen []) with 0; lia|].
  rewrite IH, (IH (0 * 256 + b)). change (b :: l) with ([b] ++ l). rewrite alen_app. change (alen [b]) with 1.
  rewrite Z.pow_add_r by (lia || apply alen_nonneg). lia.
Qed.

Lemma load_be64_ok off i :
  0 ≤ off → 0 ≤ i → off + 8 * i + 8 ≤ alen obj →
  load_be64 obj off i = Some (be_val (slice obj (off + 8 * i) 8)) ∧ urange 64 (be_val (slice obj (off + 8 * i) 8)).
Proof.
  intros Ho Hi Hl. unfold load_be64. destruct (load_be32_ok off (2 * i)) as [-> H1]; [lia..|].
  destruct (load_be32_ok off (2 * i + 1)) as [-> H2]; [lia..|]. cbn [mbind option_bind].
  replace (off + 4 * (2 * i)) with (off + 8 * i) in * by lia. replace (off + 4 * (2 * i + 1)) with (off + 8 * i + 4) in * by lia.
  assert (be_val (slice obj (off + 8 * i) 8) = be_val (slice obj (off + 8 * i) 4) * 2 ^ 32 + be_val (slice obj (off + 8 * i + 4) 4)) as E.
  { change 8 with (4 + 4) at 2. rewrite slice_app by lia. unfold be_val at 1. rewrite fold_left_app, fold_be_val, alen_slice by lia.
    fold (be_val (slice obj (off + 8 * i) 4)). done. }
  rewrite E. unfold urange in *. rewrite lor_shiftl by lia. split; [done|lia].
Qed.
End Load.

(** ** Schedules *)

(** A loop that stores at [i + o] what the words before it determine. *)
Lemma for_up_fill {A} (o k n : Z) (body : Z → list A → option (list A)) (W : list A) (L : Z → list A) :
  0 ≤ k + o → k ≤ n → n + o ≤ alen W → take (Z.to_nat (k + o)) W = L k →
  (∀ i W', k ≤ i < n → alen W' = alen W → take (Z.to_nat (i + o)) W' = L i →
     ∃ x, body i W' = W'.[i + o <- x] ∧ L (i + 1) = L i ++ [x]) →
  ∃ W', for_up k n body W = Some W' ∧ alen W' = alen W ∧ take (Z.to_nat (n + o)) W' = L n.
Proof.
  intros Hk Hkn Hn H0 Hstep.
  destruct (for_up_rule (λ i W', alen W' = alen W ∧ take (Z.to_nat (i + o)) W' = L i) k n body W) as (W' & E & Hl & Ht); [done|done| |eauto].
  intros i W' Hi [Hl HL]. destruct (Hstep i W' Hi Hl HL) as (x & -> & HL'). rewrite arr_set_lt by lia. eexists. split; [done|].
  split; [by rewrite alen_insert|]. replace (Z.to_nat (i + 1 + o)) with (S (Z.to_nat (i + o))) by lia.
  assert (Hlt : (Z.to_nat (i + o) < length W')%nat) by (unfold alen in *; lia).
  rewrite (take_S_r _ _ x) by (by apply list_lookup_insert_eq). rewrite take_insert_ge by lia. by rewrite HL, HL'.
Qed.

Lemma length_extend k next W : length (extend k next W) = (length W + k)%nat.
Proof. induction k as [|k IH]; cbn [extend]; [lia|]. cbv zeta. rewrite length_app, IH. cbn. lia. Qed.

(** A word of an array whose start is the schedule. *)
Lemma back_read (W V : list Z) n j :
  0 < j ≤ n → n ≤ alen W → take (Z.to_nat n) W = V → W.[n - j] = Some (back V j).
Proof.
  intros Hj Hn <-. unfold back. rewrite alen_take, arr_get_take by lia.
  destruct (arr_get_lt W (n - j)) as [x ->]; [lia|]. done.
Qed.

Lemma word_read (W V : list Z) t : take (length V) W = V → 0 ≤ t < alen V → W.[t] = Some (word V t).
Proof.
  intros HV Ht. unfold word. destruct (arr_get_lt V t Ht) as [x Hx]. rewrite Hx. cbn. rewrite <- Hx, <- HV at 1.
  rewrite <- (Nat2Z.id (length V)). fold (alen V). by rewrite arr_get_take by lia.
Qed.
