(* ===== verification/Sha1Facts.v ===== *)
(** * SHA-1 is the standard's

    [sha_transform] computes the compression function of the standard, and [sha1_update] and
    [sha1_final] the digest of a message that comes in any pieces. *)

From S2P Require Import Prelude Words Cipher Hash Sha ShaSpec ShaFacts.
#[local] Open Scope Z_scope.
#[local] Open Scope kernel_scope.

(** ** The schedule *)

Lemma fmap_seqZ_snoc {A} (g : Z → A) i : 0 ≤ i → g <$> seqZ 0 (i + 1) = (g <$> seqZ 0 i) ++ [g i].
Proof. intros Hi. rewrite seqZ_app, fmap_app by lia. by rewrite Z.add_0_l. Qed.

Lemma load_loop n load obj off W (w : Z) :
  0 ≤ off → 0 < n → off + 16 * n ≤ alen obj → 16 ≤ alen W →
  (∀ i, 0 ≤ i < 16 → load obj off i = Some (be_val (slice obj (off + n * i) n)) ∧ urange w (be_val (slice obj (off + n * i) n))) →
  ∃ W', for_up 0 16 (LOAD_OP load obj off) W = Some W' ∧ alen W' = alen W ∧
    take 16 W' = block_words n (slice obj off (16 * n)) ∧ Forall (urange w) (block_words n (slice obj off (16 * n))).
Proof.
  intros Ho Hn Hobj HW Hload. set (b := slice obj off (16 * n)).
  assert (Hb : ∀ i, 0 ≤ i < 16 → slice b (n * i) n = slice obj (off + n * i) n) by (intros; apply slice_slice; nia).
  destruct (for_up_fill 0 0 16 (LOAD_OP load obj off) W (λ i, (λ j, be_val (slice b (n * j) n)) <$> seqZ 0 i)) as (W' & E & Hl & Ht); [lia|lia|lia|done| |].
  - intros i W' Hi _ _. exists (be_val (slice b (n * i) n)). unfold LOAD_OP. destruct (Hload i Hi) as [-> _]. cbn [mbind option_bind].
    rewrite Z.add_0_r, Hb by done. split; [done|]. rewrite fmap_seqZ_snoc by lia. by rewrite Hb.
  - exists W'. ands; [done|done|exact Ht|]. unfold block_words. apply Forall_fmap. apply Forall_forall. intros i Hi%list_elem_of_In%elem_of_seqZ.
    cbn. rewrite Hb by lia. apply Hload. lia.
Qed.

Lemma urange_back W j : Forall (urange 32) W → urange 32 (back W j).
Proof.
  intros H. unfold back. destruct (W.[alen W - j]) as [x|] eqn:E; [by eapply Forall_arr_get|]. by unfold urange.
Qed.

Lemma sha1_next_range W : Forall (urange 32) W → urange 32 (sha1_next W).
Proof. intros H. apply rol32_rotl; [lia|]. repeat apply urange_lxor; try lia; by apply urange_back. Qed.

Lemma sha1_extend_range k M : Forall (urange 32) M → Forall (urange 32) (extend k sha1_next M).
Proof.
  intros H. induction k as [|k IH]; cbn [extend]; [done|]. apply Forall_app. split; [done|]. apply Forall_singleton. by apply sha1_next_range.
Qed.

Lemma sha1_schedule W M :
  alen W = 80 → take 16 W = M → Forall (urange 32) M →
  ∃ W', for_up 0 64 (λ i W,
      w13 ← W.[i + 13]; w8 ← W.[i + 8]; w2 ← W.[i + 2]; w0 ← W.[i];
      W.[i + 16 <- rol32 (Z.lxor (Z.lxor (Z.lxor w13 w8) w2) w0) 1]) W = Some W' ∧ W' = extend 64 sha1_next M.
Proof.
  intros HW HM Hr. assert (HlM : alen M = 16) by (rewrite <- HM; unfold alen in *; rewrite length_take; lia).
  match goal with |- context [for_up 0 64 ?body W] =>
    destruct (for_up_fill 16 0 64 body W (λ i, extend (Z.to_nat i) sha1_next M)) as (W' & -> & Hl & Ht); [lia|lia|lia|done| |] end.
  - intros i W' Hi Hl Ht. set (V := extend (Z.to_nat i) sha1_next M) in *. exists (sha1_next V).
    assert (Hread : ∀ j, 0 < j ≤ 16 → W'.[i + 16 - j] = Some (back V j)) by (intros j Hj; apply back_read; lia || done).
    replace (i + 13) with (i + 16 - 3) by lia. replace (i + 8) with (i + 16 - 8) by lia. replace (i + 2) with (i + 16 - 14) by lia.
    pose proof (Hread 16 ltac:(lia)) as H16. replace (i + 16 - 16) with i in H16 by lia.
    rewrite !Hread, H16 by lia. cbn [mbind option_bind]. split.
    + f_equal. apply rol32_rotl; [lia|]. pose proof (sha1_extend_range (Z.to_nat i) M Hr) as HV.
      repeat apply urange_lxor; try lia; by apply urange_back.
    + replace (Z.to_nat (i + 1)) with (S (Z.to_nat i)) by lia. done.
  - eexists. split; [done|]. rewrite take_ge in Ht; [done|]. unfold alen in *. lia.
Qed.

(** ** The rounds *)

Definition regs5 (r : Z * Z * Z * Z * Z) : list Z := let '(a, b, c, d, e) := r in [a; b; c; d; e].

Lemma sha1_rounds f k V lo hi r :
  0 ≤ lo ≤ hi → hi ≤ alen V → (∀ t x y z, lo ≤ t < hi → f x y z = sha1_f t x y z ∧ k = sha1_K t) →
  Forall (urange 32) (regs5 r) →
  ∃ r', for_up lo hi (sha1_round f k V) r = Some r' ∧ regs5 r' = fold_left (sha1_step V) (seqZ lo (hi - lo)) (regs5 r) ∧
    Forall (urange 32) (regs5 r').
Proof.
  intros Hlo Hhi Hf Hr.
  destruct (for_up_rule (λ i r', regs5 r' = fold_left (sha1_step V) (seqZ lo (i - lo)) (regs5 r) ∧ Forall (urange 32) (regs5 r'))
    lo hi (sha1_round f k V) r) as (r' & E & H1 & H2); [lia| | |eauto].
  - by rewrite Z.sub_diag.
  - intros i [[[[a b] c] d] e] Hi [HI HF]. unfold sha1_round. destruct (arr_get_lt V i) as [x Hx]; [lia|]. rewrite Hx. cbn [mbind option_bind].
    eexists. split; [done|]. replace (i + 1 - lo) with (i - lo + 1) by lia. rewrite seqZ_app, fold_left_app, <- HI by lia.
    replace (lo + (i - lo)) with i by lia. change (seqZ i 1) with [i]. cbn [fold_left regs5].
    cbn [regs5] in HF. rewrite !list.Forall_cons in HF. destruct HF as (Ha & Hb & Hc & Hd & He & _).
    destruct (rol32_rotl a 5 ltac:(lia) Ha) as [-> Ra], (rol32_rotl b 30 ltac:(lia) Hb) as [-> Rb].
    destruct (Hf i b c d Hi) as [-> ->]. split.
    + cbn [sha1_step]. unfold word. rewrite Hx. change (default 0 (Some x)) with x. f_equal. unfold uwrap. f_equal. lia.
    + repeat (constructor; [try done; by apply urange_uwrap|]). constructor.
Qed.

Definition sha1_good (st : list Z) : Prop := alen st = 5 ∧ Forall (urange 32) st.

Lemma alen_5 {A} (l : list A) : alen l = 5 → ∃ a b c d e, l = [a; b; c; d; e].
Proof.
  unfold alen. intros H. destruct l as [|a [|b [|c [|d [|e [|? ?]]]]]]; cbn [length] in H; try lia. by eexists _, _, _, _, _.
Qed.

Lemma sha1_K_values : sha1_K 0 = K1 ∧ sha1_K 20 = K2 ∧ sha1_K 40 = K3 ∧ sha1_K 60 = K4.
Proof. by vm_compute. Qed.

Lemma sha1_const t :
  (t < 20 → sha1_f t = ch ∧ K1 = sha1_K t) ∧ (20 ≤ t < 40 → sha1_f t = parity ∧ K2 = sha1_K t) ∧
  (40 ≤ t < 60 → sha1_f t = maj ∧ K3 = sha1_K t) ∧ (60 ≤ t → sha1_f t = parity ∧ K4 = sha1_K t).
Proof.
  destruct sha1_K_values as (<- & <- & <- & <-). unfold sha1_f, sha1_K.
  destruct (Z.ltb_spec t 20), (Z.ltb_spec t 40), (Z.ltb_spec t 60); ands; intros; (lia || by split).
Qed.

Lemma seqZ_80 : seqZ 0 80 = seqZ 0 20 ++ seqZ 20 20 ++ seqZ 40 20 ++ seqZ 60 20.
Proof. by vm_compute. Qed.

Lemma sha1_all_rounds V r :
  alen V = 80 → Forall (urange 32) (regs5 r) →
  ∃ r', (r ← for_up 0 20 (sha1_round f1 K1 V) r; r ← for_up 20 40 (sha1_round f2 K2 V) r;
         r ← for_up 40 60 (sha1_round f3 K3 V) r; for_up 60 80 (sha1_round f2 K4 V) r) = Some r' ∧
    regs5 r' = fold_left (sha1_step V) (seqZ 0 80) (regs5 r).
Proof.
  intros HV Hr.
  destruct (sha1_rounds f1 K1 V 0 20 r) as (r1 & -> & F1 & G1); [lia|lia| |done|].
  { intros t x y z Ht. rewrite f1_ch. destruct (sha1_const t) as (H & _). destruct H as [-> H]; [lia|done]. }
  destruct (sha1_rounds f2 K2 V 20 40 r1) as (r2 & E2 & F2 & G2); [lia|lia| |done|].
  { intros t x y z Ht. destruct (sha1_const t) as (_ & H & _). destruct H as [-> H]; [lia|done]. }
  destruct (sha1_rounds f3 K3 V 40 60 r2) as (r3 & E3 & F3 & G3); [lia|lia| |done|].
  { intros t x y z Ht. rewrite f3_maj. destruct (sha1_const t) as (_ & _ & H & _). destruct H as [-> H]; [lia|done]. }
  destruct (sha1_rounds f2 K4 V 60 80 r3) as (r4 & E4 & F4 & G4); [lia|lia| |done|].
  { intros t x y z Ht. destruct (sha1_const t) as (_ & _ & _ & H). destruct H as [-> H]; [lia|done]. }
  cbn [mbind option_bind]. rewrite E2. cbn [mbind option_bind]. rewrite E3. cbn [mbind option_bind]. rewrite E4.
  exists r4. split; [done|]. rewrite seqZ_80, !fold_left_app.
  change (20 - 0) with 20 in F1. change (40 - 20) with 20 in F2. change (60 - 40) with 20 in F3. change (80 - 60) with 20 in F4.
  by rewrite <- F1, <- F2, <- F3, <- F4.
Qed.

#[export] Instance sha1_compresses : Compresses 64 sha1_compress sha1_good sha1_transform.
Proof.
  split. intros st obj off [Hl Hst] Hobj Ho Hin. destruct (alen_5 st Hl) as (h0 & h1 & h2 & h3 & h4 & ->).
  unfold sha1_transform, sha_transform.
  assert (HW : alen (replicate SHA_WORKSPACE_WORDS 0) = 80) by (unfold alen; by rewrite length_replicate).
  destruct (load_loop 4 load_be32 obj off (replicate SHA_WORKSPACE_WORDS 0) 32) as (W1 & E1 & Hl1 & HM & HrM); [lia|lia|lia|lia| |].
  { intros i Hi. apply load_be32_ok; [done|lia..]. }
  unfold LOAD_OP in E1. rewrite E1, Some_bind. clear E1. change (16 * 4) with 64 in *. set (b := slice obj off 64) in *. clearbody b.
  destruct (sha1_schedule W1 (block_words 4 b)) as (W & -> & HV); [by rewrite Hl1|done|done|]. rewrite Some_bind.
  assert (HlV : alen W = 80) by (rewrite HV; unfold alen; by rewrite length_extend).
  destruct (sha1_all_rounds W (h0, h1, h2, h3, h4) HlV Hst) as (r & E & HR).
  destruct r as [[[[a' b'] c'] d'] e']. unfold sha1_compress. rewrite <- HV. cbn [regs5] in HR. rewrite <- HR. clear HR HV.
  change ([h0; h1; h2; h3; h4].[0]) with (Some h0). change ([h0; h1; h2; h3; h4].[1]) with (Some h1).
  change ([h0; h1; h2; h3; h4].[2]) with (Some h2). change ([h0; h1; h2; h3; h4].[3]) with (Some h3).
  change ([h0; h1; h2; h3; h4].[4]) with (Some h4). rewrite !Some_bind.
  revert E. destruct (for_up 0 20 _ _) as [r1|]; [|done]. rewrite !Some_bind. destruct (for_up 20 40 _ _) as [r2|]; [|done]. rewrite !Some_bind.
  destruct (for_up 40 60 _ _) as [r3|]; [|done]. rewrite !Some_bind. intros ->. rewrite !Some_bind.
  split; [done|]. split; [done|]. repeat (constructor; [by apply urange_uwrap|]). constructor.
Qed.

(** ** The digest *)

Definition sha1_hash (pieces : list (list Z)) : option (sha_state * list Z) :=
  sctx ← sha_updates (transform := sha1_transform) sha1_init pieces; sha1_final sctx.

(** C27: SHA-1 over any message in any pieces: [sha1_init], [sha1_update] for each piece and
    [sha1_final] stay inside context and data, end, and give the digest that FIPS 180 defines
    for the whole message, whose length in bits fits 64 bits. *)
Theorem sha1_correct (pieces : list (list Z)) (Hp : Forall piece pieces) (Hlen : alen (concat pieces) < 2 ^ 61) :
  ∃ wiped, sha1_hash pieces = Some (wiped, sha1 (concat pieces)).
Proof.
  apply (sha_digest_spec (good := sha1_good)); [split; [done|by repeat constructor]|by intros st []|done|by apply Forall_replicate|done|done].
Qed.

Lemma sha1_correct_witness :
  ∃ wiped, sha1_hash [[97]; []; [98; 99]] = Some (wiped, be_bytes 20 0xa9993e364706816aba3e25717850c26c9cd0d89d).
Proof.
  assert (H : Forall piece [[97]; []; [98; 99]]).
  { repeat (constructor; [split; [repeat (constructor; [by unfold urange|]); constructor|by vm_compute]|]). constructor. }
  destruct (sha1_correct [[97]; []; [98; 99]] H ltac:(by vm_compute)) as (wiped & E). exists wiped. rewrite E. by vm_compute.
Defined.
