(* ===== verification/Sha2Facts.v ===== *)
(** * SHA-2 is the standard's

    The unrolled rounds of [sha256_transform] and the eightfold ones of [sha512_transform]
    compute the compression functions of the standard, with the constants that the standard
    derives from the primes. *)

From S2P Require Import Prelude Words Cipher Hash Sha ShaSpec ShaFacts Sha1Facts.
#[local] Open Scope Z_scope.
#[local] Open Scope kernel_scope.

(** ** The rounds *)

(** The statements keep the values in place and let the registers change their roles. *)
Definition role (r : nat) (k t : Z) : sha2_statement :=
  match r with
  | 0 => stmt rh re rf rg ra rb rc rd k t
  | 1 => stmt rg rd re rf rh ra rb rc k t
  | 2 => stmt rf rc rd re rg rh ra rb k t
  | 3 => stmt re rb rc rd rf rg rh ra k t
  | 4 => stmt rd ra rb rc re rf rg rh k t
  | 5 => stmt rc rh ra rb rd re rf rg k t
  | 6 => stmt rb rg rh ra rc rd re rf k t
  | _ => stmt ra rf rg rh rb rc rd re k t
  end%nat.

(** The values in the order of the standard. *)
Definition view (r : nat) (R : list Z) : list Z := drop (8 - r) R ++ take (8 - r) R.

Definition next_role (r : nat) : nat := if decide (r = 7)%nat then 0%nat else S r.

Fixpoint roles_from (r : nat) (t : Z) (K : list Z) : list sha2_statement :=
  match K with [] => [] | k :: K => role r k t :: roles_from (next_role r) (t + 1) K end.

Lemma alen_8 {A} (l : list A) : alen l = 8 → ∃ a b c d e f g h, l = [a; b; c; d; e; f; g; h].
Proof.
  unfold alen. intros H. destruct l as [|a [|b [|c [|d [|e [|f [|g [|h [|? ?]]]]]]]]]; cbn [length] in H; try lia. by eexists _, _, _, _, _, _, _, _.
Qed.

Section Rounds.
Context (w : Z) (e0 e1 Sigma0 Sigma1 : Z → Z).
Hypothesis Hw : 0 ≤ w.
Hypothesis He0 : ∀ x, urange w x → e0 x = Sigma0 x.
Hypothesis He1 : ∀ x, urange w x → e1 x = Sigma1 x.
Context (V : list Z).

Abbreviation step := (sha2_step w Sigma0 Sigma1 V).

Lemma stmt_eval R s h e f g x a b c d R1 R2 :
  let t1 := uwrap w (h + e1 e + Ch e f g + s_k s + x) in let t2 := uwrap w (e0 a + Maj a b c) in
  R.[s_h s] = Some h → R.[s_e s] = Some e → R.[s_f s] = Some f → R.[s_g s] = Some g → V.[s_w s] = Some x →
  R.[s_a s] = Some a → R.[s_b s] = Some b → R.[s_c s] = Some c → R.[s_d s] = Some d →
  R.[s_d s <- uwrap w (d + t1)] = Some R1 → R1.[s_h s <- uwrap w (t1 + t2)] = Some R2 →
  sha2_stmt w e0 e1 V R s = Some R2.
Proof.
  intros t1 t2 Hh He Hf Hg Hx Ha Hb Hc Hd H1 H2. unfold sha2_stmt. rewrite Hh, He, Hf, Hg, Hx, !Some_bind, Ha, Hb, Hc, Hd, !Some_bind.
  fold t1. fold t2. by rewrite H1, Some_bind, H2.
Qed.

Lemma stmt_role r k t R :
  (r < 8)%nat → alen R = 8 → Forall (urange w) R → 0 ≤ t < alen V →
  ∃ R', sha2_stmt w e0 e1 V R (role r k t) = Some R' ∧ alen R' = 8 ∧ Forall (urange w) R' ∧ view (next_role r) R' = step (view r R) (k, t).
Proof.
  intros Hr Hl HR Ht. destruct (alen_8 R Hl) as (a & b & c & d & e & f & g & h & ->). clear Hl.
  rewrite !list.Forall_cons in HR. destruct HR as (Ha & Hb & Hc & Hd & He & Hf & Hg & Hh & _).
  destruct (arr_get_lt V t Ht) as [x Hx].
  assert (Hword : word V t = x) by (unfold word; by rewrite Hx).
  do 8 (destruct r as [|r]; [eexists; split; [eapply stmt_eval; reflexivity || exact Hx|];
    split; [reflexivity|]; split; [repeat (constructor; [first [done|by apply urange_uwrap]|]); constructor|];
    rewrite ?He0, ?He1, ?Ch_ch, ?Maj_maj, <- Hword by done; reflexivity|]). lia.
Qed.

(** The role after [n] statements. *)
Fixpoint role_after (n r : nat) : nat := match n with O => r | S n => role_after n (next_role r) end.

Lemma next_role_lt r : (r < 8)%nat → (next_role r < 8)%nat.
Proof. unfold next_role. case_decide; lia. Qed.

Lemma run_roles K : ∀ r t R,
  (r < 8)%nat → alen R = 8 → Forall (urange w) R → 0 ≤ t → t + alen K ≤ alen V →
  ∃ R', sha2_run w e0 e1 V (roles_from r t K) R = Some R' ∧ alen R' = 8 ∧ Forall (urange w) R' ∧
    view (role_after (length K) r) R' = fold_left step (zip K (seqZ t (alen K))) (view r R).
Proof.
  induction K as [|k K IH]; intros r t R Hr Hl HR Ht HK; [by exists R|].
  rewrite alen_cons in *. pose proof (alen_nonneg K).
  destruct (stmt_role r k t R Hr Hl HR ltac:(lia)) as (R1 & E1 & Hl1 & HR1 & Hv1).
  destruct (IH (next_role r) (t + 1) R1 (next_role_lt r Hr) Hl1 HR1 ltac:(lia) ltac:(lia)) as (R2 & E2 & Hl2 & HR2 & Hv2).
  exists R2. cbn [roles_from sha2_run]. rewrite E1, Some_bind. ands; [done|done|done|].
  cbn [length role_after]. rewrite Hv2, Hv1. rewrite (seqZ_cons t (1 + alen K)) by lia. cbn [zip zip_with fold_left].
  replace (Z.pred (1 + alen K)) with (alen K) by lia. by rewrite <- Z.add_1_r.
Qed.

Lemma view_0 R : alen R = 8 → view 0 R = R.
Proof. intros H. destruct (alen_8 R H) as (a & b & c & d & e & f & g & h & ->). done. Qed.

Lemma run_all K st :
  role_after (length K) 0 = 0%nat → alen st = 8 → Forall (urange w) st → alen K = alen V →
  ∃ R, sha2_run w e0 e1 V (roles_from 0 0 K) st = Some R ∧ alen R = 8 ∧ R = fold_left step (zip K (seqZ 0 (alen K))) st.
Proof.
  intros Hrole Hl Hst HK. destruct (run_roles K 0 0 st) as (R & E & HlR & _ & Hv); [lia|done|done|lia|lia|].
  rewrite Hrole, !view_0 in Hv by done. by exists R.
Qed.
End Rounds.

(** ** The schedule *)

Section Schedule.
Context (w : Z) (s0 s1 sigma0 sigma1 : Z → Z).
Hypothesis Hw : 0 ≤ w.
Hypothesis Hs0 : ∀ x, urange w x → s0 x = sigma0 x.
Hypothesis Hs1 : ∀ x, urange w x → s1 x = sigma1 x.

Lemma urange_back_w W j : Forall (urange w) W → urange w (back W j).
Proof.
  intros H. unfold back. destruct (W.[alen W - j]) as [x|] eqn:E; [by eapply Forall_arr_get|].
  unfold urange. pose proof (Z.pow_pos_nonneg 2 w ltac:(lia) Hw). cbn. lia.
Qed.

Abbreviation next := (sha2_next w sigma0 sigma1).

Lemma sha2_extend_range k M : Forall (urange w) M → Forall (urange w) (extend k next M).
Proof.
  intros H. induction k as [|k IH]; cbn [extend]; [done|]. apply Forall_app. split; [done|]. apply Forall_singleton. by apply urange_uwrap.
Qed.

Lemma blend_loop (N : nat) W M :
  (16 ≤ N)%nat → alen W = Z.of_nat N → take 16 W = M → Forall (urange w) M →
  for_up 16 (Z.of_nat N) (BLEND_OP w s0 s1) W = Some (extend (N - 16) next M).
Proof.
  intros HN HW HM Hr. assert (HlM : alen M = 16) by (rewrite <- HM; unfold alen in *; rewrite length_take; lia).
  destruct (for_up_fill 0 16 (Z.of_nat N) (BLEND_OP w s0 s1) W (λ i, extend (Z.to_nat (i - 16)) next M)) as (W' & -> & Hl & Ht); [lia|lia|lia|done| |].
  - intros i W' Hi Hl Ht. rewrite Z.add_0_r in *. set (V := extend (Z.to_nat (i - 16)) next M) in *. exists (next V).
    assert (Hread : ∀ j, 0 < j ≤ 16 → W'.[i - j] = Some (back V j)) by (intros j Hj; apply back_read; lia || done).
    unfold BLEND_OP. rewrite !Hread, !Some_bind by lia. pose proof (sha2_extend_range (Z.to_nat (i - 16)) M Hr) as HV.
    rewrite Hs0, Hs1 by (by apply urange_back_w). split; [done|].
    replace (Z.to_nat (i + 1 - 16)) with (S (Z.to_nat (i - 16))) by lia. done.
  - f_equal. rewrite Z.add_0_r, Nat2Z.id in Ht. rewrite take_ge in Ht by (unfold alen in *; lia). rewrite Ht. f_equal. lia.
Qed.
End Schedule.

(** ** SHA-256 *)

Definition sha2_good (w : Z) (st : list Z) : Prop := alen st = 8 ∧ Forall (urange w) st.

Lemma add_words_good w st R : 0 ≤ w → alen st = 8 → alen R = 8 → sha2_good w (add_words w st R).
Proof.
  intros Hw H1 H2. destruct (alen_8 st H1) as (? & ? & ? & ? & ? & ? & ? & ? & ->), (alen_8 R H2) as (? & ? & ? & ? & ? & ? & ? & ? & ->).
  split; [done|]. repeat (constructor; [by apply urange_uwrap|]). constructor.
Qed.

Lemma sum3_rotr w n1 n2 n3 x :
  0 ≤ n1 ≤ w → 0 ≤ n2 ≤ w → 0 ≤ n3 ≤ w → urange w x →
  Z.lxor (Z.lxor (ror w x n1) (ror w x n2)) (ror w x n3) = sum3 (rotr w n1) (rotr w n2) (rotr w n3) x.
Proof. intros. unfold sum3. by rewrite !ror_rotr. Qed.

Lemma sum3_shr w n1 n2 n3 x :
  0 ≤ n1 ≤ w → 0 ≤ n2 ≤ w → 0 ≤ n3 → urange w x →
  Z.lxor (Z.lxor (ror w x n1) (ror w x n2)) (Z.shiftr x n3) = sum3 (rotr w n1) (rotr w n2) (λ x, x / 2 ^ n3) x.
Proof. intros. unfold sum3. by rewrite !ror_rotr, Z.shiftr_div_pow2. Qed.

Lemma sha256_e0_ok x : urange 32 x → sha256_e0 x = sum3 (rotr 32 2) (rotr 32 13) (rotr 32 22) x.
Proof. intros. apply sum3_rotr; [lia..|done]. Qed.
Lemma sha256_e1_ok x : urange 32 x → sha256_e1 x = sum3 (rotr 32 6) (rotr 32 11) (rotr 32 25) x.
Proof. intros. apply sum3_rotr; [lia..|done]. Qed.
Lemma sha256_s0_ok x : urange 32 x → sha256_s0 x = sum3 (rotr 32 7) (rotr 32 18) (λ x, x / 2 ^ 3) x.
Proof. intros. apply sum3_shr; [lia..|done]. Qed.
Lemma sha256_s1_ok x : urange 32 x → sha256_s1 x = sum3 (rotr 32 17) (rotr 32 19) (λ x, x / 2 ^ 10) x.
Proof. intros. apply sum3_shr; [lia..|done]. Qed.

Lemma sha256_statements_roles : sha256_statements = roles_from 0 0 sha256_consts.
Proof. by vm_compute. Qed.

Lemma sha256_consts_length : length sha256_consts = 64%nat.
Proof. by vm_compute. Qed.

#[local] Opaque sha256_consts.

#[export] Instance sha256_compresses : Compresses 64 sha256_compress (sha2_good 32) sha256_transform.
Proof.
  split. intros st obj off [Hl Hst] Hobj Ho Hin. unfold sha256_transform.
  destruct (load_loop 4 load_be32 obj off (replicate 64 0) 32) as (W1 & -> & Hl1 & HM & HrM); [lia|lia|lia|done| |].
  { intros i Hi. apply load_be32_ok; [done|lia..]. }
  rewrite Some_bind. change (16 * 4) with 64 in *. set (b := slice obj off 64) in *. clearbody b.
  pose proof (blend_loop 32 sha256_s0 sha256_s1 (sum3 (rotr 32 7) (rotr 32 18) (λ x, x / 2 ^ 3)) (sum3 (rotr 32 17) (rotr 32 19) (λ x, x / 2 ^ 10)) ltac:(lia)
    sha256_s0_ok sha256_s1_ok 64 W1 (block_words 4 b) ltac:(lia) Hl1 HM HrM) as Hblend.
  change (Z.of_nat 64) with 64 in Hblend. rewrite Hblend.
  rewrite Some_bind. unfold load_state. rewrite Hl, Z.eqb_refl, Some_bind, sha256_statements_roles.
  set (V := extend _ _ _).
  assert (HlV : alen V = 64) by (unfold alen, V; by rewrite length_extend).
  assert (HK : alen sha256_consts = 64) by (unfold alen; by rewrite sha256_consts_length).
  assert (Hrole : role_after (length sha256_consts) 0 = 0%nat) by (by rewrite sha256_consts_length).
  destruct (run_all 32 sha256_e0 sha256_e1 (sum3 (rotr 32 2) (rotr 32 13) (rotr 32 22)) (sum3 (rotr 32 6) (rotr 32 11) (rotr 32 25)) ltac:(lia)
    sha256_e0_ok sha256_e1_ok V sha256_consts st Hrole Hl Hst (eq_trans HK (eq_sym HlV))) as (R & E & HlR & Hv).
  rewrite E, Some_bind.
  assert (sha256_compress st b = add_words 32 st R) as ->.
  { unfold sha256_compress, sha2_compress. rewrite sha256_consts_length. change (64 - 16)%nat with 48%nat in *. change (32 / 8) with 4. fold V. rewrite <- Hv. reflexivity. }
  split; [reflexivity|]. apply add_words_good; [lia|exact Hl|exact HlR].
Qed.

Lemma sha256_ivs sctx : state (sha256_init sctx) = sha256_iv ∧ state (sha224_init sctx) = sha224_iv.
Proof. by vm_compute. Qed.

Lemma iv_good w l : alen l = 8 → forallb (λ x, (0 <=? x) && (x <? 2 ^ w)) l = true → sha2_good w l.
Proof.
  intros Hl H. split; [done|]. rewrite forallb_forall in H. apply Forall_forall. intros x Hx. specialize (H x ltac:(done)).
  apply andb_true_iff in H as [?%Z.leb_le ?%Z.ltb_lt]. done.
Qed.

(** A context in memory: a buffer of 64 bytes and whatever else. *)
Definition sha_context (sctx : sha_state) : Prop := alen (buffer sctx) = 64 ∧ Forall byte (buffer sctx).

Definition sha256_hash (sctx : sha_state) (pieces : list (list Z)) : option (sha_state * list Z) :=
  sctx ← sha_updates (transform := sha256_transform) (sha256_init sctx) pieces; sha256_final sctx.
Definition sha224_hash (sctx : sha_state) (pieces : list (list Z)) : option (sha_state * list Z) :=
  sctx ← sha_updates (transform := sha256_transform) (sha224_init sctx) pieces; sha224_final sctx.

(** C28: SHA-256 and SHA-224 over any message in any pieces, in a context with anything in it:
    initialisation, an update for each piece and the final function stay inside context and
    data, end, and give the digest that FIPS 180 defines for the whole message, with the
    constants and initial values computed from the cube and square roots of the first primes. *)
Theorem sha256_correct (sctx : sha_state) (pieces : list (list Z)) (Hctx : sha_context sctx) (Hp : Forall piece pieces)
    (Hlen : alen (concat pieces) < 2 ^ 61) :
  (∃ wiped, sha256_hash sctx pieces = Some (wiped, sha256 (concat pieces))) ∧
  (∃ wiped, sha224_hash sctx pieces = Some (wiped, sha224 (concat pieces))).
Proof.
  destruct (sha256_ivs sctx) as [E1 E2], Hctx as [Hb1 Hb2]. unfold sha256_hash, sha224_hash, sha256, sha224. rewrite <- E1, <- E2. clear E1 E2. split.
  - apply (sha_digest_spec (f := sha256_compress) (good := sha2_good 32) (transform := sha256_transform) (state (sha256_init sctx)) (buffer sctx) pieces); [apply iv_good; vm_compute; reflexivity|by intros st []|exact Hb1|exact Hb2|exact Hp|exact Hlen].
  - destruct (sha_digest_spec (f := sha256_compress) (good := sha2_good 32) (transform := sha256_transform) (state (sha224_init sctx)) (buffer sctx) pieces)
      as (wiped & E); [apply iv_good; vm_compute; reflexivity|by intros st []|exact Hb1|exact Hb2|exact Hp|exact Hlen|].
    unfold sha224_final, sha256_final. change (sha224_init sctx) with (ShaState 0 (state (sha224_init sctx)) (buffer sctx)) at 1.
    destruct (sha_updates _ _) as [sctx'|]; [|discriminate E]. rewrite Some_bind in *. rewrite E, Some_bind. eexists. reflexivity.
Qed.

(** The test vector of the standard. *)
Lemma sha256_abc : sha256 [97; 98; 99] = be_bytes 32 0xba7816bf8f01cfea414140de5dae2223b00361a396177a9cb410ff61f20015ad.
Proof. vm_compute. reflexivity. Qed.

Lemma sha256_correct_witness :
  ∃ wiped, sha256_hash (ShaState 7 [1; 2; 3] (replicate 64 9)) [[97]; []; [98; 99]] =
    Some (wiped, be_bytes 32 0xba7816bf8f01cfea414140de5dae2223b00361a396177a9cb410ff61f20015ad).
Proof.
  assert (H : Forall piece [[97]; []; [98; 99]]).
  { repeat (constructor; [split; [repeat (constructor; [by unfold urange|]); constructor|by vm_compute]|]). constructor. }
  assert (Hc : sha_context (ShaState 7 [1; 2; 3] (replicate 64 9))) by (split; [done|by apply Forall_replicate]).
  destruct (sha256_correct _ [[97]; []; [98; 99]] Hc H ltac:(by vm_compute)) as [(wiped & E) _]. exists wiped. rewrite E. change (concat [[97]; []; [98; 99]]) with [97; 98; 99]. clear E H. rewrite sha256_abc. reflexivity.
Defined.
