(* ===== verification/Sha512Facts.v ===== *)
(** * SHA-512

    The frame of SHA-512 with its two counters, its compression function, and the digests of
    SHA-512 and SHA-384. *)

From S2P Require Import Prelude Words Cipher Hash Sha ShaSpec ShaFacts Sha1Facts Sha2Facts.
#[local] Open Scope Z_scope.
#[local] Open Scope kernel_scope.

(** ** The compression function *)

Lemma sha512_e0_ok x : urange 64 x → sha512_e0 x = sum3 (rotr 64 28) (rotr 64 34) (rotr 64 39) x.
Proof. intros. apply sum3_rotr; [lia..|done]. Qed.
Lemma sha512_e1_ok x : urange 64 x → sha512_e1 x = sum3 (rotr 64 14) (rotr 64 18) (rotr 64 41) x.
Proof. intros. apply sum3_rotr; [lia..|done]. Qed.
Lemma sha512_s0_ok x : urange 64 x → sha512_s0 x = sum3 (rotr 64 1) (rotr 64 8) (λ x, x / 2 ^ 7) x.
Proof. intros. apply sum3_shr; [lia..|done]. Qed.
Lemma sha512_s1_ok x : urange 64 x → sha512_s1 x = sum3 (rotr 64 19) (rotr 64 61) (λ x, x / 2 ^ 6) x.
Proof. intros. apply sum3_shr; [lia..|done]. Qed.

Lemma sha512_K_consts : sha512_K = sha512_consts.
Proof. by vm_compute. Qed.

Lemma sha512_K_length : alen sha512_K = 80.
Proof. done. Qed.

#[local] Opaque sha512_K sha512_consts.

Section Rounds.
Context (V : list Z).
Hypothesis HV : alen V = 80.

Abbreviation step := (sha2_step 64 (sum3 (rotr 64 28) (rotr 64 34) (rotr 64 39)) (sum3 (rotr 64 14) (rotr 64 18) (rotr 64 41)) V).

(** The constants and the numbers of the first [n] rounds. *)
Definition first_rounds (n : Z) : list (Z * Z) := zip (slice sha512_K 0 n) (seqZ 0 n).

Lemma first_rounds_app n : 0 ≤ n → n + 8 ≤ 80 →
  first_rounds (n + 8) = first_rounds n ++ zip (slice sha512_K n 8) (seqZ n 8).
Proof.
  intros Hn Hl. pose proof sha512_K_length. unfold first_rounds. rewrite slice_app, seqZ_app, !Z.add_0_l by lia. apply zip_with_app.
  pose proof (alen_slice sha512_K 0 n). unfold alen in *. rewrite length_seqZ. lia.
Qed.

Lemma eight_rounds i R :
  0 ≤ i → i + 8 ≤ 80 → alen R = 8 → Forall (urange 64) R →
  ∃ R', sha2_run 64 sha512_e0 sha512_e1 V (roles_from 0 i (slice sha512_K i 8)) R = Some R' ∧ alen R' = 8 ∧ Forall (urange 64) R' ∧
    R' = fold_left step (zip (slice sha512_K i 8) (seqZ i 8)) R.
Proof.
  intros Hi Hl HlR HR. pose proof sha512_K_length as HK. assert (Hs : alen (slice sha512_K i 8) = 8) by (apply alen_slice; lia).
  destruct (run_roles 64 sha512_e0 sha512_e1 _ _ ltac:(lia) sha512_e0_ok sha512_e1_ok V (slice sha512_K i 8) 0 i R) as (R' & E & HlR' & HR' & Hv); [lia|done|done|lia|lia|].
  exists R'. ands; [done|done|done|]. rewrite Hs in Hv.
  assert (Hln : length (slice sha512_K i 8) = 8%nat) by (unfold alen in Hs; lia). rewrite Hln in Hv. change (role_after 8 0) with 0%nat in Hv.
  by rewrite !view_0 in Hv.
Qed.

Lemma slice_8 i : 0 ≤ i → i + 8 ≤ 80 →
  ∃ k0 k1 k2 k3 k4 k5 k6 k7, slice sha512_K i 8 = [k0; k1; k2; k3; k4; k5; k6; k7] ∧
    sha512_K.[i + 0] = Some k0 ∧ sha512_K.[i + 1] = Some k1 ∧ sha512_K.[i + 2] = Some k2 ∧ sha512_K.[i + 3] = Some k3 ∧
    sha512_K.[i + 4] = Some k4 ∧ sha512_K.[i + 5] = Some k5 ∧ sha512_K.[i + 6] = Some k6 ∧ sha512_K.[i + 7] = Some k7.
Proof.
  intros Hi Hl. pose proof sha512_K_length as HK. assert (Hs : alen (slice sha512_K i 8) = 8) by (apply alen_slice; lia).
  destruct (alen_8 _ Hs) as (k0 & k1 & k2 & k3 & k4 & k5 & k6 & k7 & E).
  assert (Hget : ∀ j, 0 ≤ j < 8 → sha512_K.[i + j] = [k0; k1; k2; k3; k4; k5; k6; k7].[j]).
  { intros j Hj. rewrite <- E. unfold slice. rewrite arr_get_take, arr_get_drop by lia. done. }
  exists k0, k1, k2, k3, k4, k5, k6, k7. split; [done|]. rewrite !Hget by lia. by ands.
Qed.

Lemma sha512_rounds_ok st :
  alen st = 8 → Forall (urange 64) st →
  ∃ R, sha512_rounds V st = Some R ∧ alen R = 8 ∧ R = fold_left step (first_rounds 80) st.
Proof.
  intros Hl Hst. unfold sha512_rounds.
  match goal with |- context [for_up 0 10 ?body st] =>
    destruct (for_up_rule (λ n R, alen R = 8 ∧ Forall (urange 64) R ∧ R = fold_left step (first_rounds (8 * n)) st) 0 10 body st)
      as (R & E & HlR & _ & HR); [lia|done| |by exists R] end.
  intros n R Hn (HlR & HR & HE). cbv zeta.
  destruct (slice_8 (8 * n)) as (k0 & k1 & k2 & k3 & k4 & k5 & k6 & k7 & HK & -> & -> & -> & -> & -> & -> & -> & ->); [lia|lia|].
  destruct (eight_rounds (8 * n) R) as (R' & E & HlR' & HR' & Hv); [lia|lia|done|done|].
  exists R'. split.
  - rewrite HK in E. cbn [roles_from] in E. change (next_role 0) with 1%nat in E. change (next_role 1) with 2%nat in E.
    change (next_role 2) with 3%nat in E. change (next_role 3) with 4%nat in E. change (next_role 4) with 5%nat in E.
    change (next_role 5) with 6%nat in E. change (next_role 6) with 7%nat in E. cbn [role sha2_run] in E.
    rewrite !Some_bind. by rewrite <- E, <- !Z.add_assoc, Z.add_0_r.
  - ands; [done|done|]. replace (8 * (n + 1)) with (8 * n + 8) by lia. by rewrite first_rounds_app, fold_left_app, <- HE by lia.
Qed.
End Rounds.

Lemma first_rounds_all : first_rounds 80 = zip sha512_consts (seqZ 0 (alen sha512_consts)).
Proof.
  unfold first_rounds. rewrite <- sha512_K_consts, sha512_K_length. assert (H : slice sha512_K 0 80 = sha512_K); [|by rewrite H].
  rewrite <- sha512_K_length. apply slice_all.
Qed.

Lemma sha512_consts_length : length sha512_consts = 80%nat.
Proof. by vm_compute. Qed.

#[export] Instance sha512_compresses : Compresses 128 sha512_compress (sha2_good 64) sha512_transform.
Proof.
  split. intros st obj off [Hl Hst] Hobj Ho Hin. unfold sha512_transform.
  destruct (load_loop 8 load_be64 obj off (replicate 80 0) 64) as (W1 & -> & Hl1 & HM & HrM); [lia|lia|lia|done| |].
  { intros i Hi. apply load_be64_ok; [done|lia..]. }
  rewrite Some_bind. change (16 * 8) with 128 in *. set (b := slice obj off 128) in *. clearbody b.
  pose proof (blend_loop 64 sha512_s0 sha512_s1 (sum3 (rotr 64 1) (rotr 64 8) (λ x, x / 2 ^ 7)) (sum3 (rotr 64 19) (rotr 64 61) (λ x, x / 2 ^ 6)) ltac:(lia)
    sha512_s0_ok sha512_s1_ok 80 W1 (block_words 8 b) ltac:(lia) Hl1 HM HrM) as Hblend.
  change (Z.of_nat 80) with 80 in Hblend. rewrite Hblend.
  rewrite Some_bind. unfold load_state. rewrite Hl, Z.eqb_refl, Some_bind.
  set (V := extend _ _ _).
  assert (HlV : alen V = 80) by (unfold alen, V; by rewrite length_extend).
  destruct (sha512_rounds_ok V HlV st Hl Hst) as (R & E & HlR & Hv).
  rewrite E, Some_bind.
  assert (sha512_compress st b = add_words 64 st R) as ->.
  { unfold sha512_compress, sha2_compress. rewrite sha512_consts_length, <- first_rounds_all. change (80 - 16)%nat with 64%nat in *. change (64 / 8) with 8. fold V. rewrite <- Hv. reflexivity. }
  split; [reflexivity|]. apply add_words_good; [lia|exact Hl|exact HlR].
Qed.

(** ** The frame *)

Lemma land_127 x : Z.land x 0x7f = x mod 128.
Proof. change 0x7f with (Z.ones 7). by rewrite Z.land_ones by lia. Qed.

Section Frame.
Context (iv : list Z).

Abbreviation at_block := (at_block 128 sha512_compress iv).
Abbreviation taken := (taken 128 sha512_compress iv).

Definition sha512_holds (sctx : sha512_state) (m : list Z) : Prop :=
  count0 sctx = alen m ∧ count1 sctx = 0 ∧ Forall byte (buf512 sctx) ∧ sha2_good 64 (state512 sctx) ∧ taken (state512 sctx) (buf512 sctx) m.

Section Update.
Context (m data : list Z) (len : Z).
Hypothesis Hdata : Forall byte data.
Hypothesis Hlen : 0 ≤ len ≤ alen data.
Hypothesis Hlen32 : len ≤ 2 ^ 32 - 128.

Lemma sha512_loop_ok st i :
  sha2_good 64 st → at_block st (m ++ slice data 0 i) → 0 < i ≤ len →
  ∃ st' i', loop (S (Z.to_nat len)) (sha512_turn data len) (st, i) = Some (st', i') ∧
    0 < i' ≤ len ∧ len < i' + 128 ∧ sha2_good 64 st' ∧ at_block st' (m ++ slice data 0 i').
Proof.
  intros Hg Hat Hi.
  destruct (loop_rule (λ '(st, i), sha2_good 64 st ∧ at_block st (m ++ slice data 0 i) ∧ 0 < i ≤ len) (λ '(st, i), Z.to_nat (len - i))
      (λ '(st', i'), 0 < i' ≤ len ∧ len < i' + 128 ∧ sha2_good 64 st' ∧ at_block st' (m ++ slice data 0 i'))
      (sha512_turn data len) (S (Z.to_nat len)) (st, i)) as ([st' i'] & -> & HQ).
  - intros [st1 i1] (Hg1 & Hat1 & Hi1). unfold sha512_turn. rewrite (uwrap_small 32 (i1 + 127)) by (unfold urange; lia).
    destruct (Z.ltb_spec (i1 + 127) len) as [Hl|Hl].
    + assert (Hin : i1 + 128 ≤ alen data) by lia. destruct (compresses st1 data i1 Hg1 Hdata ltac:(lia) Hin) as [E Hg2]. rewrite E, Some_bind.
      rewrite (uwrap_small 32 (i1 + 128)) by (unfold urange; lia). eexists. split; [reflexivity|]. cbv beta iota. ands; [exact Hg2| |lia|lia|lia].
      rewrite slice_app, app_assoc by lia. apply at_block_step; [lia|exact Hat1|]. by rewrite alen_slice by lia.
    + eexists. split; [reflexivity|]. cbv beta iota. ands; [lia|lia|lia|exact Hg1|exact Hat1].
  - done.
  - lia.
  - eexists _, _. split; [reflexivity|]. exact HQ.
Qed.

Lemma sha512_update_ok sctx :
  sha512_holds sctx m → 0 < alen m + len < 2 ^ 64 →
  ∃ sctx', sha512_update sctx data len = Some sctx' ∧ sha512_holds sctx' (m ++ slice data 0 len).
Proof.
  intros (Hc0 & Hc1 & Hb & Hg & Ht) Hl. unfold sha512_update. rewrite Hc0, Hc1, land_127. cbv zeta.
  rewrite (uwrap_small 64) by (unfold urange; lia). destruct (Z.eqb_spec (alen m + len) 0) as [|_]; [lia|].
  set (p := alen m mod 128). assert (Hp : 0 ≤ p < 128) by (by apply Z.mod_pos_bound).
  pose proof (proj1 (taken_length 128 _ iv ltac:(lia) _ _ _ Ht)) as Hbl.
  assert (Hcnt : alen m + len = alen (m ++ slice data 0 len)) by (rewrite alen_app, alen_slice; lia).
  destruct (Z.geb_spec len (128 - p)).
  - destruct (taken_full 128 _ iv ltac:(lia) _ _ _ data 0 p Ht eq_refl ltac:(lia) ltac:(lia)) as (buf & E1 & Hl1 & Hat & Hby).
    rewrite E1, Some_bind. specialize (Hby Hb Hdata).
    assert (Hin : 0 + 128 ≤ alen buf) by lia. destruct (compresses (state512 sctx) buf 0 Hg Hby ltac:(lia) Hin) as [E2 Hg2].
    assert (Hx : slice buf 0 128 = buf) by (rewrite <- Hl1; apply slice_all). rewrite Hx in *. rewrite E2, Some_bind.
    destruct (sha512_loop_ok _ (128 - p) Hg2 Hat ltac:(lia)) as (st' & i & E3 & Hi & Hi2 & Hg3 & Hat3). rewrite E3, !Some_bind.
    rewrite (uwrap_small 32) by (unfold urange; lia).
    destruct (taken_rest 128 _ iv st' buf _ data i (len - i) Hat3 Hl1) as (buf' & E4 & Ht'); [lia..|].
    rewrite E4, Some_bind. eexists. split; [reflexivity|]. unfold sha512_holds. cbn [count0 count1 state512 buf512].
    rewrite <- app_assoc, <- slice_app in Ht' by lia. replace (i + (len - i)) with len in Ht' by lia.
    ands; [exact Hcnt|reflexivity| |exact Hg3|exact Ht']. by eapply memcpy_bytes.
  - rewrite Some_bind, Z.sub_0_r, (uwrap_small 32) by (unfold urange; lia).
    destruct (taken_short 128 _ iv ltac:(lia) _ _ _ data 0 len p Ht eq_refl) as (buf' & E4 & Ht'); [lia..|].
    rewrite E4, Some_bind. eexists. split; [reflexivity|]. unfold sha512_holds. cbn [count0 count1 state512 buf512].
    ands; [exact Hcnt|reflexivity| |exact Hg|exact Ht']. by eapply memcpy_bytes.
Qed.
End Update.

Lemma be_bytes_app a b x : 0 ≤ a → 0 ≤ b → be_bytes (a + b) x = be_bytes a (x / 256 ^ b) ++ be_bytes b x.
Proof.
  intros Ha Hb. unfold be_bytes. rewrite seqZ_app, fmap_app, Z.add_0_l by lia. f_equal.
  - apply list_fmap_ext. intros k i Hi. apply list_elem_of_lookup_2, elem_of_seqZ in Hi. rewrite Z.div_div by lia.
    rewrite <- Z.pow_add_r by lia. do 3 f_equal. lia.
  - rewrite <- (Z.add_0_r a) at 1. rewrite <- fmap_add_seqZ, <- list_fmap_compose. apply list_fmap_ext. intros k i Hi. cbn. do 3 f_equal. lia.
Qed.

Lemma be_bytes_mod b x : 0 ≤ b → be_bytes b (x mod 256 ^ b) = be_bytes b x.
Proof.
  intros Hb. unfold be_bytes. apply list_fmap_ext. intros k i Hi. apply list_elem_of_lookup_2, elem_of_seqZ in Hi.
  set (q := 256 ^ (b - 1 - i)). assert (0 < q) by (apply Z.pow_pos_nonneg; lia).
  replace (256 ^ b) with (q * (256 ^ i * 256)) by (subst q; rewrite <- (Z.pow_1_r 256) at 3; rewrite <- !Z.pow_add_r by lia; f_equal; lia).
  set (s := 256 ^ i). assert (0 < s) by (apply Z.pow_pos_nonneg; lia).
  rewrite Z.rem_mul_r, Z.add_comm, (Z.mul_comm q), Z.div_add_l, (Z.div_small (x mod q)), Z.add_0_r by (lia || (by apply Z.mod_pos_bound)).
  apply Z.mod_mod_divide. by exists s.
Qed.

Lemma sha512_bits c : 0 ≤ c < 2 ^ 64 →
  put_be64 (Z.lor (u64 (Z.shiftl 0 3)) (Z.shiftr c 61)) ++ put_be64 (u64 (Z.shiftl c 3)) = be_bytes 16 (8 * c).
Proof.
  intros Hc. rewrite Z.shiftl_0_l, Z.lor_0_l, Z.shiftr_div_pow2, Z.shiftl_mul_pow2 by lia.
  rewrite !put_be64_bytes by ((apply urange_uwrap; lia) || (unfold urange; Z.to_euclidean_division_equations; lia)).
  change 16 with (8 + 8). rewrite be_bytes_app by lia. change (256 ^ 8) with (2 ^ 64). rewrite (Z.mul_comm 8).
  f_equal; [f_equal|exact (be_bytes_mod 8 _ ltac:(lia))]. Z.to_euclidean_division_equations. lia.
Qed.

Lemma sha512_pad_cut m :
  let p := alen m mod 128 in let padlen := if p <? 112 then 112 - p else 128 + 112 - p in
  1 ≤ padlen ≤ 128 ∧ sha_pad 128 16 m = (m ++ slice padding512 0 padlen) ++ be_bytes 16 (8 * alen m) ∧
  (alen m + padlen + 16) mod 128 = 0.
Proof.
  intros p padlen. assert (Hp : 0 ≤ p < 128) by (by apply Z.mod_pos_bound).
  assert (Hl : 1 ≤ padlen ≤ 128 ∧ (128 - 16 - 1 - alen m) mod 128 = padlen - 1 ∧ (alen m + padlen + 16) mod 128 = 0).
  { subst padlen p. destruct (Z.ltb_spec (alen m mod 128) 112); Z.to_euclidean_division_equations; lia. }
  destruct Hl as (H1 & H2 & H3). ands; try done; try lia. unfold sha_pad. rewrite H2, <- app_assoc. f_equal. unfold padding512. rewrite pad_cut by lia. rewrite Nat.min_l by lia. done.
Qed.

Lemma padding512_ok : alen padding512 = 128 ∧ Forall byte padding512.
Proof. split; [done|]. unfold padding512. constructor; [by unfold urange|]. by apply Forall_replicate. Qed.

Lemma digest_words64 st : Forall (urange 64) st → map put_be64 st = map (be_bytes 8) st.
Proof. intros H. induction H as [|x st Hx H IH]; [done|]. cbn [map]. by rewrite put_be64_bytes, IH. Qed.

Lemma sha512_final_ok sctx m :
  sha2_good 64 iv → Forall byte m → sha512_holds sctx m → alen m < 2 ^ 63 →
  ∃ wiped, sha512_final sctx = Some (wiped, concat (map (be_bytes 8) (iterate 128 sha512_compress iv (sha_pad 128 16 m)))).
Proof.
  intros Hiv Hby Hm Hlen. pose proof (alen_nonneg m) as Hm0. unfold sha512_final. cbv zeta.
  assert (Hc : count0 sctx = alen m ∧ count1 sctx = 0) by (destruct Hm as (? & ? & _); done). destruct Hc as [-> ->].
  rewrite land_127, sha512_bits by lia.
  destruct (sha512_pad_cut m) as (Hpl & Hpad & Hmod). set (padlen := if alen m mod 128 <? 112 then _ else _) in *.
  destruct padding512_ok as [Hp128 Hpb].
  destruct (sha512_update_ok m padding512 padlen Hpb ltac:(lia) ltac:(lia) sctx Hm ltac:(lia)) as (s1 & -> & H1). rewrite Some_bind.
  destruct (be_bytes_ok 16 (8 * alen m) ltac:(lia)) as [Hbl Hbb].
  assert (Hl1 : alen (m ++ slice padding512 0 padlen) = alen m + padlen) by (rewrite alen_app, alen_slice; lia).
  destruct (sha512_update_ok _ (be_bytes 16 (8 * alen m)) 16 Hbb ltac:(lia) ltac:(lia) s1 H1 ltac:(lia)) as (s2 & -> & H2). rewrite Some_bind.
  assert (Hall : slice (be_bytes 16 (8 * alen m)) 0 16 = be_bytes 16 (8 * alen m)) by (rewrite <- Hbl at 2; apply slice_all).
  rewrite Hall, <- Hpad in H2. destruct H2 as (_ & _ & _ & _ & Ht).
  destruct (sha_pad_ok 128 16 m ltac:(lia) Hby) as [Hpb2 E0].
  destruct (taken_length 128 _ iv ltac:(lia) _ _ _ Ht) as (_ & q & tail & rest & E & Hq & _ & Hl).
  rewrite E0 in Hl. destruct tail; [|unfold alen in Hl; cbn [length] in Hl; lia]. rewrite app_nil_r in E.
  apply at_block_iterate in Hq; [|lia]. rewrite Hq, <- E. eexists. rewrite digest_words64; [reflexivity|].
  apply (iterate_good (good := sha2_good 64) (transform := sha512_transform) iv 128 (sha_pad 128 16 m)); [exact _|lia|exact Hiv|exact Hpb2|exact E0].
Qed.

(** A message in pieces. *)
Fixpoint sha512_updates (sctx : sha512_state) (pieces : list (list Z)) : option sha512_state :=
  match pieces with
  | [] => Some sctx
  | d :: pieces => sctx ← sha512_update sctx d (alen d); sha512_updates sctx pieces
  end.

Definition piece512 (d : list Z) : Prop := Forall byte d ∧ alen d ≤ 2 ^ 32 - 128.

Lemma sha512_stream_ok pieces : ∀ sctx m,
  sha512_holds sctx m → Forall piece512 pieces → (m = [] → head pieces ≠ Some []) → alen (m ++ concat pieces) < 2 ^ 64 →
  ∃ sctx', sha512_updates sctx pieces = Some sctx' ∧ sha512_holds sctx' (m ++ concat pieces).
Proof.
  induction pieces as [|d pieces IH]; intros sctx m Hm Hp Hne Hlen; cbn [sha512_updates concat] in *.
  { exists sctx. by rewrite app_nil_r. }
  apply list.Forall_cons in Hp as [[Hd Hl] Hp]. rewrite !alen_app in Hlen. pose proof (alen_nonneg d). pose proof (alen_nonneg m). pose proof (alen_nonneg (concat pieces)).
  assert (Hmd : 0 < alen m + alen d).
  { destruct m; [|rewrite alen_cons in *; pose proof (alen_nonneg m); lia]. destruct d; [by destruct Hne|]. rewrite alen_cons in *. pose proof (alen_nonneg d). lia. }
  destruct (sha512_update_ok m d (alen d) Hd ltac:(lia) Hl sctx Hm ltac:(lia)) as (s1 & -> & Hs1). rewrite Some_bind.
  rewrite slice_all in Hs1. rewrite app_assoc. apply IH; [done|done| |rewrite !alen_app; lia].
  intros E. apply (f_equal alen) in E. rewrite alen_app in E. change (alen []) with 0 in E. lia.
Qed.

Lemma sha512_digest_ok buf pieces :
  sha2_good 64 iv → alen buf = 128 → Forall byte buf → Forall piece512 pieces → head pieces ≠ Some [] → alen (concat pieces) < 2 ^ 63 →
  ∃ wiped, (sctx ← sha512_updates (Sha512State 0 0 iv buf) pieces; sha512_final sctx) =
    Some (wiped, concat (map (be_bytes 8) (iterate 128 sha512_compress iv (sha_pad 128 16 (concat pieces))))).
Proof.
  intros Hiv Hb1 Hb2 Hp Hne Hlen. assert (H0 : sha512_holds (Sha512State 0 0 iv buf) []).
  { split; [done|]. split; [done|]. split; [done|]. split; [done|]. by apply taken_nil. }
  destruct (sha512_stream_ok pieces _ _ H0 Hp (λ _, Hne) ltac:(rewrite app_nil_l; lia)) as (s & -> & Hs). rewrite Some_bind.
  apply sha512_final_ok; [done| |done|done]. clear -Hp. induction Hp as [|d pieces [Hd _] Hp IH]; [constructor|]. by apply Forall_app.
Qed.
End Frame.

(** ** The digests *)

Lemma sha512_ivs sctx : state512 (sha512_init sctx) = sha512_iv ∧ state512 (sha384_init sctx) = sha384_iv.
Proof. by vm_compute. Qed.

Definition sha512_context (sctx : sha512_state) : Prop := alen (buf512 sctx) = 128 ∧ Forall byte (buf512 sctx).

Definition sha512_hash (sctx : sha512_state) (pieces : list (list Z)) : option (sha512_state * list Z) :=
  sctx ← sha512_updates (sha512_init sctx) pieces; sha512_final sctx.
Definition sha384_hash (sctx : sha512_state) (pieces : list (list Z)) : option (sha512_state * list Z) :=
  sctx ← sha512_updates (sha384_init sctx) pieces; sha384_final sctx.

(** C29: SHA-512 and SHA-384 over any message in pieces of which the first is not empty, in a
    context with anything in it: initialisation, an update for each piece and the final
    function stay inside context and data, end, and give the digest that FIPS 180 defines for
    the whole message, with the constants and initial values computed from the cube and square
    roots of the first primes. *)
Theorem sha512_correct (sctx : sha512_state) (pieces : list (list Z)) (Hctx : sha512_context sctx) (Hp : Forall piece512 pieces)
    (Hne : head pieces ≠ Some []) (Hlen : alen (concat pieces) < 2 ^ 63) :
  (∃ wiped, sha512_hash sctx pieces = Some (wiped, sha512 (concat pieces))) ∧
  (∃ wiped, sha384_hash sctx pieces = Some (wiped, sha384 (concat pieces))).
Proof.
  destruct (sha512_ivs sctx) as [E1 E2], Hctx as [Hb1 Hb2]. unfold sha512_hash, sha384_hash, sha512, sha384. rewrite <- E1, <- E2. clear E1 E2. split.
  - apply (sha512_digest_ok (state512 (sha512_init sctx)) (buf512 sctx) pieces); [apply iv_good; vm_compute; reflexivity|exact Hb1|exact Hb2|exact Hp|exact Hne|exact Hlen].
  - destruct (sha512_digest_ok (state512 (sha384_init sctx)) (buf512 sctx) pieces) as (wiped & E);
      [apply iv_good; vm_compute; reflexivity|exact Hb1|exact Hb2|exact Hp|exact Hne|exact Hlen|].
    unfold sha384_final. change (sha384_init sctx) with (Sha512State 0 0 (state512 (sha384_init sctx)) (buf512 sctx)) at 1.
    destruct (sha512_updates _ _) as [sctx'|]; [|discriminate E]. rewrite Some_bind in *. rewrite E, Some_bind. eexists. reflexivity.
Qed.

(** The test vector of the standard. *)
Lemma sha512_abc : sha512 [97; 98; 99] = be_bytes 64
  0xddaf35a193617abacc417349ae20413112e6fa4e89a97ea20a9eeee64b55d39a2192992a274fc1a836ba3c23a3feebbd454d4423643ce80e2a9ac94fa54ca49f.
Proof. vm_compute. reflexivity. Qed.

(** A context for the examples. *)
Definition used_context : sha512_state := Sha512State 7 8 [1; 2; 3] (replicate 128 9).

Lemma sha512_correct_witness :
  ∃ wiped, sha512_hash used_context [[97]; []; [98; 99]] = Some (wiped, be_bytes 64
    0xddaf35a193617abacc417349ae20413112e6fa4e89a97ea20a9eeee64b55d39a2192992a274fc1a836ba3c23a3feebbd454d4423643ce80e2a9ac94fa54ca49f).
Proof.
  assert (H : Forall piece512 [[97]; []; [98; 99]]).
  { repeat (constructor; [split; [repeat (constructor; [by unfold urange|]); constructor|by vm_compute]|]). constructor. }
  assert (Hc : sha512_context used_context) by (split; [done|by apply Forall_replicate]).
  destruct (sha512_correct used_context [[97]; []; [98; 99]] Hc H ltac:(discriminate) ltac:(by vm_compute)) as [(wiped & E) _]. exists wiped. rewrite E.
  change (concat [[97]; []; [98; 99]]) with [97; 98; 99]. clear E H. rewrite sha512_abc. reflexivity.
Defined.

(** An update with no data on a fresh context of SHA-512 counts as a carry of the length,
    so that the digest of the empty message is not the one of the standard, which the same
    context without that update gives. *)
Theorem sha512_empty_update :
  (∃ wiped, sha512_hash used_context [] = Some (wiped, sha512 [])) ∧
  (∃ wiped digest, sha512_hash used_context [[]] = Some (wiped, digest) ∧ digest ≠ sha512 []).
Proof.
  split; [eexists; vm_compute; reflexivity|]. eexists _, _. split; [vm_compute; reflexivity|]. vm_compute. discriminate.
Qed.
