(* ===== verification/Md.v ===== *)
(** * MD4 and MD5

    Models [crypto/md4.c], [crypto/md5.c] and [lib/halfmd4.c].  The block of a context is an
    object of 64 bytes: the code fills it bytewise and reads it as words, and on this
    little-endian processor [le32_to_cpu_array] and [cpu_to_le32_array] change nothing.  The
    steps of the transforms are tables of statements in the order of the code. *)

From S2P Require Import Prelude Words Cipher Hash.
#[local] Open Scope Z_scope.
#[local] Open Scope kernel_scope.

(** ** Memory *)

Definition load_le32 (obj : list Z) (off i : Z) : option Z :=
  b0 ← obj.[off + 4 * i]; b1 ← obj.[off + 4 * i + 1]; b2 ← obj.[off + 4 * i + 2]; b3 ← obj.[off + 4 * i + 3];
  Some (le32 b0 b1 b2 b3).

(** The words of the block. *)
Fixpoint load_words (obj : list Z) (off : Z) (n : nat) : option (list Z) :=
  match n with O => Some [] | S n => W ← load_words obj off n; x ← load_le32 obj off (Z.of_nat n); Some (W ++ [x]) end.

(** ** Steps *)

(** A statement [f(w, x, y, z, in[i] + k, s)] assigns to the register [w]. *)
Record md_statement := mstmt { m_f : Z → Z → Z → Z → Z → Z → Z; m_w : Z; m_x : Z; m_y : Z; m_z : Z; m_in : Z; m_k : Z; m_s : Z }.

(** The registers a to d. *)
Definition ma : Z := 0.
Definition mb : Z := 1.
Definition mc : Z := 2.
Definition md : Z := 3.

Definition md_exec (W R : list Z) (s : md_statement) : option (list Z) :=
  w ← R.[m_w s]; x ← R.[m_x s]; y ← R.[m_y s]; z ← R.[m_z s]; i ← W.[m_in s];
  R.[m_w s <- m_f s w x y z (u32 (i + m_k s)) (m_s s)].

Fixpoint md_run (W : list Z) (l : list md_statement) (R : list Z) : option (list Z) :=
  match l with [] => Some R | s :: l => R ← md_exec W R s; md_run W l R end.

(** The registers start with the four words of the hash and are added to them. *)
Definition md_transform (l : list md_statement) (st W : list Z) : option (list Z) :=
  if alen st =? 4 then R ← md_run W l st; Some (zip_with (λ x y, u32 (x + y)) st R) else None.

(** ** MD5 *)

Definition md5_F1 (x y z : Z) : Z := Z.lxor z (Z.land x (Z.lxor y z)).
Definition md5_F2 (x y z : Z) : Z := md5_F1 z x y.
Definition md5_F3 (x y z : Z) : Z := Z.lxor (Z.lxor x y) z.
Definition md5_F4 (x y z : Z) : Z := Z.lxor y (Z.lor x (unot 32 z)).

Definition MD5STEP (f : Z → Z → Z → Z) (w x y z arg s : Z) : Z :=
  let w := u32 (w + f x y z + arg) in
  u32 (Z.lor (ushl 32 w s) (Z.shiftr w (32 - s)) + x).

Definition md5_statements : list md_statement :=
  [mstmt (MD5STEP md5_F1) ma mb mc md 0 0xd76aa478 7;
   mstmt (MD5STEP md5_F1) md ma mb mc 1 0xe8c7b756 12;
   mstmt (MD5STEP md5_F1) mc md ma mb 2 0x242070db 17;
   mstmt (MD5STEP md5_F1) mb mc md ma 3 0xc1bdceee 22;
   mstmt (MD5STEP md5_F1) ma mb mc md 4 0xf57c0faf 7;
   mstmt (MD5STEP md5_F1) md ma mb mc 5 0x4787c62a 12;
   mstmt (MD5STEP md5_F1) mc md ma mb 6 0xa8304613 17;
   mstmt (MD5STEP md5_F1) mb mc md ma 7 0xfd469501 22;
   mstmt (MD5STEP md5_F1) ma mb mc md 8 0x698098d8 7;
   mstmt (MD5STEP md5_F1) md ma mb mc 9 0x8b44f7af 12;
   mstmt (MD5STEP md5_F1) mc md ma mb 10 0xffff5bb1 17;
   mstmt (MD5STEP md5_F1) mb mc md ma 11 0x895cd7be 22;
   mstmt (MD5STEP md5_F1) ma mb mc md 12 0x6b901122 7;
   mstmt (MD5STEP md5_F1) md ma mb mc 13 0xfd987193 12;
   mstmt (MD5STEP md5_F1) mc md ma mb 14 0xa679438e 17;
   mstmt (MD5STEP md5_F1) mb mc md ma 15 0x49b40821 22;
   mstmt (MD5STEP md5_F2) ma mb mc md 1 0xf61e2562 5;
   mstmt (MD5STEP md5_F2) md ma mb mc 6 0xc040b340 9;
   mstmt (MD5STEP md5_F2) mc md ma mb 11 0x265e5a51 14;
   mstmt (MD5STEP md5_F2) mb mc md ma 0 0xe9b6c7aa 20;
   mstmt (MD5STEP md5_F2) ma mb mc md 5 0xd62f105d 5;
   mstmt (MD5STEP md5_F2) md ma mb mc 10 0x02441453 9;
   mstmt (MD5STEP md5_F2) mc md ma mb 15 0xd8a1e681 14;
   mstmt (MD5STEP md5_F2) mb mc md ma 4 0xe7d3fbc8 20;
   mstmt (MD5STEP md5_F2) ma mb mc md 9 0x21e1cde6 5;
   mstmt (MD5STEP md5_F2) md ma mb mc 14 0xc33707d6 9;
   mstmt (MD5STEP md5_F2) mc md ma mb 3 0xf4d50d87 14;
   mstmt (MD5STEP md5_F2) mb mc md ma 8 0x455a14ed 20;
   mstmt (MD5STEP md5_F2) ma mb mc md 13 0xa9e3e905 5;
   mstmt (MD5STEP md5_F2) md ma mb mc 2 0xfcefa3f8 9;
   mstmt (MD5STEP md5_F2) mc md ma mb 7 0x676f02d9 14;
   mstmt (MD5STEP md5_F2) mb mc md ma 12 0x8d2a4c8a 20;
   mstmt (MD5STEP md5_F3) ma mb mc md 5 0xfffa3942 4;
   mstmt (MD5STEP md5_F3) md ma mb mc 8 0x8771f681 11;
   mstmt (MD5STEP md5_F3) mc md ma mb 11 0x6d9d6122 16;
   mstmt (MD5STEP md5_F3) mb mc md ma 14 0xfde5380c 23;
   mstmt (MD5STEP md5_F3) ma mb mc md 1 0xa4beea44 4;
   mstmt (MD5STEP md5_F3) md ma mb mc 4 0x4bdecfa9 11;
   mstmt (MD5STEP md5_F3) mc md ma mb 7 0xf6bb4b60 16;
   mstmt (MD5STEP md5_F3) mb mc md ma 10 0xbebfbc70 23;
   mstmt (MD5STEP md5_F3) ma mb mc md 13 0x289b7ec6 4;
   mstmt (MD5STEP md5_F3) md ma mb mc 0 0xeaa127fa 11;
   mstmt (MD5STEP md5_F3) mc md ma mb 3 0xd4ef3085 16;
   mstmt (MD5STEP md5_F3) mb mc md ma 6 0x04881d05 23;
   mstmt (MD5STEP md5_F3) ma mb mc md 9 0xd9d4d039 4;
   mstmt (MD5STEP md5_F3) md ma mb mc 12 0xe6db99e5 11;
   mstmt (MD5STEP md5_F3) mc md ma mb 15 0x1fa27cf8 16;
   mstmt (MD5STEP md5_F3) mb mc md ma 2 0xc4ac5665 23;
   mstmt (MD5STEP md5_F4) ma mb mc md 0 0xf4292244 6;
   mstmt (MD5STEP md5_F4) md ma mb mc 7 0x432aff97 10;
   mstmt (MD5STEP md5_F4) mc md ma mb 14 0xab9423a7 15;
   mstmt (MD5STEP md5_F4) mb mc md ma 5 0xfc93a039 21;
   mstmt (MD5STEP md5_F4) ma mb mc md 12 0x655b59c3 6;
   mstmt (MD5STEP md5_F4) md ma mb mc 3 0x8f0ccc92 10;
   mstmt (MD5STEP md5_F4) mc md ma mb 10 0xffeff47d 15;
   mstmt (MD5STEP md5_F4) mb mc md ma 1 0x85845dd1 21;
   mstmt (MD5STEP md5_F4) ma mb mc md 8 0x6fa87e4f 6;
   mstmt (MD5STEP md5_F4) md ma mb mc 15 0xfe2ce6e0 10;
   mstmt (MD5STEP md5_F4) mc md ma mb 6 0xa3014314 15;
   mstmt (MD5STEP md5_F4) mb mc md ma 13 0x4e0811a1 21;
   mstmt (MD5STEP md5_F4) ma mb mc md 4 0xf7537e82 6;
   mstmt (MD5STEP md5_F4) md ma mb mc 11 0xbd3af235 10;
   mstmt (MD5STEP md5_F4) mc md ma mb 2 0x2ad7d2bb 15;
   mstmt (MD5STEP md5_F4) mb mc md ma 9 0xeb86d391 21].

Definition md5_transform : list Z → list Z → option (list Z) := md_transform md5_statements.

(** ** MD4 *)

Definition lshift (x s : Z) : Z :=
  let x := Z.land x 0xFFFFFFFF in Z.lor (Z.land (ushl 32 x s) 0xFFFFFFFF) (Z.shiftr x (32 - s)).

Definition md4_F (x y z : Z) : Z := Z.lor (Z.land x y) (Z.land (unot 32 x) z).
Definition md4_G (x y z : Z) : Z := Z.lor (Z.lor (Z.land x y) (Z.land x z)) (Z.land y z).
Definition md4_H (x y z : Z) : Z := Z.lxor (Z.lxor x y) z.

Definition md4_ROUND1 (a b c d k s : Z) : Z := lshift (u32 (a + md4_F b c d + k)) s.
Definition md4_ROUND2 (a b c d k s : Z) : Z := lshift (u32 (a + md4_G b c d + k + 0x5A827999)) s.
Definition md4_ROUND3 (a b c d k s : Z) : Z := lshift (u32 (a + md4_H b c d + k + 0x6ED9EBA1)) s.

Definition md4_statements : list md_statement :=
  [mstmt md4_ROUND1 ma mb mc md 0 0 3;
   mstmt md4_ROUND1 md ma mb mc 1 0 7;
   mstmt md4_ROUND1 mc md ma mb 2 0 11;
   mstmt md4_ROUND1 mb mc md ma 3 0 19;
   mstmt md4_ROUND1 ma mb mc md 4 0 3;
   mstmt md4_ROUND1 md ma mb mc 5 0 7;
   mstmt md4_ROUND1 mc md ma mb 6 0 11;
   mstmt md4_ROUND1 mb mc md ma 7 0 19;
   mstmt md4_ROUND1 ma mb mc md 8 0 3;
   mstmt md4_ROUND1 md ma mb mc 9 0 7;
   mstmt md4_ROUND1 mc md ma mb 10 0 11;
   mstmt md4_ROUND1 mb mc md ma 11 0 19;
   mstmt md4_ROUND1 ma mb mc md 12 0 3;
   mstmt md4_ROUND1 md ma mb mc 13 0 7;
   mstmt md4_ROUND1 mc md ma mb 14 0 11;
   mstmt md4_ROUND1 mb mc md ma 15 0 19;
   mstmt md4_ROUND2 ma mb mc md 0 0 3;
   mstmt md4_ROUND2 md ma mb mc 4 0 5;
   mstmt md4_ROUND2 mc md ma mb 8 0 9;
   mstmt md4_ROUND2 mb mc md ma 12 0 13;
   mstmt md4_ROUND2 ma mb mc md 1 0 3;
   mstmt md4_ROUND2 md ma mb mc 5 0 5;
   mstmt md4_ROUND2 mc md ma mb 9 0 9;
   mstmt md4_ROUND2 mb mc md ma 13 0 13;
   mstmt md4_ROUND2 ma mb mc md 2 0 3;
   mstmt md4_ROUND2 md ma mb mc 6 0 5;
   mstmt md4_ROUND2 mc md ma mb 10 0 9;
   mstmt md4_ROUND2 mb mc md ma 14 0 13;
   mstmt md4_ROUND2 ma mb mc md 3 0 3;
   mstmt md4_ROUND2 md ma mb mc 7 0 5;
   mstmt md4_ROUND2 mc md ma mb 11 0 9;
   mstmt md4_ROUND2 mb mc md ma 15 0 13;
   mstmt md4_ROUND3 ma mb mc md 0 0 3;
   mstmt md4_ROUND3 md ma mb mc 8 0 9;
   mstmt md4_ROUND3 mc md ma mb 4 0 11;
   mstmt md4_ROUND3 mb mc md ma 12 0 15;
   mstmt md4_ROUND3 ma mb mc md 2 0 3;
   mstmt md4_ROUND3 md ma mb mc 10 0 9;
   mstmt md4_ROUND3 mc md ma mb 6 0 11;
   mstmt md4_ROUND3 mb mc md ma 14 0 15;
   mstmt md4_ROUND3 ma mb mc md 1 0 3;
   mstmt md4_ROUND3 md ma mb mc 9 0 9;
   mstmt md4_ROUND3 mc md ma mb 5 0 11;
   mstmt md4_ROUND3 mb mc md ma 13 0 15;
   mstmt md4_ROUND3 ma mb mc md 3 0 3;
   mstmt md4_ROUND3 md ma mb mc 11 0 9;
   mstmt md4_ROUND3 mc md ma mb 7 0 11;
   mstmt md4_ROUND3 mb mc md ma 15 0 15].

Definition md4_transform : list Z → list Z → option (list Z) := md_transform md4_statements.

(** ** Half MD4 *)

Definition half_F (x y z : Z) : Z := Z.lxor z (Z.land x (Z.lxor y z)).
Definition half_G (x y z : Z) : Z := Z.land x y + Z.land (Z.lxor x y) z.
Definition half_H (x y z : Z) : Z := Z.lxor (Z.lxor x y) z.
Definition half_K1 : Z := 0.
Definition half_K2 : Z := 0x5a827999.
Definition half_K3 : Z := 0x6ed9eba1.

Definition half_ROUND (f : Z → Z → Z → Z) (a b c d x s : Z) : Z :=
  let a := u32 (a + f b c d + x) in Z.lor (ushl 32 a s) (Z.shiftr a (32 - s)).

Definition half_statements : list md_statement :=
  [mstmt (half_ROUND half_F) ma mb mc md 0 half_K1 3;
   mstmt (half_ROUND half_F) md ma mb mc 1 half_K1 7;
   mstmt (half_ROUND half_F) mc md ma mb 2 half_K1 11;
   mstmt (half_ROUND half_F) mb mc md ma 3 half_K1 19;
   mstmt (half_ROUND half_F) ma mb mc md 4 half_K1 3;
   mstmt (half_ROUND half_F) md ma mb mc 5 half_K1 7;
   mstmt (half_ROUND half_F) mc md ma mb 6 half_K1 11;
   mstmt (half_ROUND half_F) mb mc md ma 7 half_K1 19;
   mstmt (half_ROUND half_G) ma mb mc md 1 half_K2 3;
   mstmt (half_ROUND half_G) md ma mb mc 3 half_K2 5;
   mstmt (half_ROUND half_G) mc md ma mb 5 half_K2 9;
   mstmt (half_ROUND half_G) mb mc md ma 7 half_K2 13;
   mstmt (half_ROUND half_G) ma mb mc md 0 half_K2 3;
   mstmt (half_ROUND half_G) md ma mb mc 2 half_K2 5;
   mstmt (half_ROUND half_G) mc md ma mb 4 half_K2 9;
   mstmt (half_ROUND half_G) mb mc md ma 6 half_K2 13;
   mstmt (half_ROUND half_H) ma mb mc md 3 half_K3 3;
   mstmt (half_ROUND half_H) md ma mb mc 7 half_K3 9;
   mstmt (half_ROUND half_H) mc md ma mb 2 half_K3 11;
   mstmt (half_ROUND half_H) mb mc md ma 6 half_K3 15;
   mstmt (half_ROUND half_H) ma mb mc md 1 half_K3 3;
   mstmt (half_ROUND half_H) md ma mb mc 5 half_K3 9;
   mstmt (half_ROUND half_H) mc md ma mb 0 half_K3 11;
   mstmt (half_ROUND half_H) mb mc md ma 4 half_K3 15].

(** The new buffer and its second word. *)
Definition half_md4_transform (buf W : list Z) : option (list Z * Z) :=
  buf ← md_transform half_statements buf W; r ← buf.[1]; Some (buf, r).

(** ** The frame *)

Record md_ctx := MdCtx { md_hash : list Z; md_block : list Z; byte_count : Z }.

Definition md_init (mctx : md_ctx) : md_ctx :=
  MdCtx [0x67452301; 0xefcdab89; 0x98badcfe; 0x10325476] (md_block mctx) 0.

Section Frame.
Context (transform : list Z → list Z → option (list Z)).

(** [md4_transform_helper] and [md5_transform_helper] on the block in [obj]. *)
Definition md_helper (hash obj : list Z) (off : Z) : option (list Z) := W ← load_words obj off 16; transform hash W.

(** A turn of the loop over the blocks of the data, whose rest of [len] bytes starts at [off]. *)
Definition md_turn (data : list Z) (s : list Z * list Z * Z * Z) : option (list Z * list Z * Z * Z + list Z * list Z * Z * Z) :=
  let '(hash, blk, off, len) := s in
  if len >=? 64 then
    blk ← memcpy blk 0 data off 64;
    hash ← md_helper hash blk 0;
    Some (inl (hash, blk, off + 64, len - 64))
  else Some (inr (hash, blk, off, len)).

Definition md_update (mctx : md_ctx) (data : list Z) (len : Z) : option md_ctx :=
  let avail := 64 - Z.land (byte_count mctx) 0x3f in
  let cnt := u64 (byte_count mctx + len) in
  if avail >? len then
    blk ← memcpy (md_block mctx) (64 - avail) data 0 len;
    Some (MdCtx (md_hash mctx) blk cnt)
  else
    blk ← memcpy (md_block mctx) (64 - avail) data 0 avail;
    hash ← md_helper (md_hash mctx) blk 0;
    '(hash, blk, off, len) ← loop (S (Z.to_nat len)) (md_turn data) (hash, blk, avail, len - avail);
    blk ← memcpy blk 0 data off len;
    Some (MdCtx hash blk cnt).

(** The wiped context and the digest. *)
Definition md_final (mctx : md_ctx) : option (md_ctx * list Z) :=
  let offset := Z.land (byte_count mctx) 0x3f in
  let padding := 56 - (offset + 1) in
  blk ← (md_block mctx).[offset <- 0x80];
  '(hash, blk, p, padding) ←
    (if padding <? 0 then
       blk ← memset blk (offset + 1) 0 (padding + 8);
       hash ← md_helper (md_hash mctx) blk 0;
       Some (hash, blk, 0, 56)
     else Some (md_hash mctx, blk, offset + 1, padding));
  blk ← memset blk p 0 padding;
  blk ← arr_write blk 56 (le32_bytes (u32 (Z.shiftl (byte_count mctx) 3)));
  blk ← arr_write blk 60 (le32_bytes (u32 (Z.shiftr (byte_count mctx) 29)));
  hash ← md_helper hash blk 0;
  Some (MdCtx (replicate 4 0) (replicate 64 0) 0, concat (map le32_bytes hash)).
End Frame.

Definition md5_init : md_ctx → md_ctx := md_init.
Definition md5_update : md_ctx → list Z → Z → option md_ctx := md_update md5_transform.
Definition md5_final : md_ctx → option (md_ctx * list Z) := md_final md5_transform.
Definition md5_export (mctx : md_ctx) : md_ctx := mctx.
Definition md5_import (mctx from : md_ctx) : md_ctx := from.

Definition md4_init : md_ctx → md_ctx := md_init.
Definition md4_update : md_ctx → list Z → Z → option md_ctx := md_update md4_transform.
Definition md4_final : md_ctx → option (md_ctx * list Z) := md_final md4_transform.
