(* ===== verification/MdSpec.v ===== *)
(** * The MD4 and MD5 message digests

    RFC 1320 and RFC 1321 as executable functions: padding, the order of the message words,
    the shifts, and the constants, those of MD5 computed from the sine.  Nothing here refers
    to the code. *)

From S2P Require Import Prelude Hash ShaSpec.
#[local] Open Scope Z_scope.
#[local] Open Scope kernel_scope.

(** ** Bytes, words and padding *)

(** A number as [n] bytes, the least significant first, and back. *)
Definition le_bytes (n x : Z) : list Z := (λ i, x / 256 ^ i mod 256) <$> seqZ 0 n.
Definition le_val (l : list Z) : Z := foldr (λ b a, b + 256 * a) 0 l.

(** The message, the bit 1, zeros, and the length in bits modulo 2^64. *)
Definition md_pad (m : list Z) : list Z :=
  m ++ [0x80] ++ replicate (Z.to_nat ((55 - alen m) mod 64)) 0 ++ le_bytes 8 (8 * alen m mod 2 ^ 64).

Definition le_words (b : list Z) : list Z := (λ i, le_val (slice b (4 * i) 4)) <$> seqZ 0 16.

Definition not32 (x : Z) : Z := 2 ^ 32 - 1 - x.

(** ** Steps *)

(** The operation [[abcd k s t]]: a function, the number of a message word, a constant and a
    shift.  In MD5 it also adds the second register. *)
Record md_op := MdOp { o_f : Z → Z → Z → Z; o_k : Z; o_t : Z; o_s : Z }.

Definition md_value (add : bool) (o : md_op) (a b c d x : Z) : Z :=
  let r := rotl 32 (o_s o) ((a + o_f o b c d + x + o_t o) mod 2 ^ 32) in
  if add then (b + r) mod 2 ^ 32 else r.

(** The registers take turns: the new value of the first becomes the second. *)
Definition md_step (add : bool) (X R : list Z) (o : md_op) : list Z :=
  match R with
  | [a; b; c; d] => [d; md_value add o a b c d (word X (o_k o)); b; c]
  | _ => R
  end.

Definition md_compress (add : bool) (ops : list md_op) (st X : list Z) : list Z :=
  add_words 32 st (fold_left (md_step add X) ops st).

Definition md_iv : list Z := [0x67452301; 0xefcdab89; 0x98badcfe; 0x10325476].

Definition md_digest (add : bool) (ops : list md_op) (m : list Z) : list Z :=
  concat (map (le_bytes 4) (iterate 64 (λ st b, md_compress add ops st (le_words b)) md_iv (md_pad m))).

(** The elements of a short table, over and over. *)
Definition cyclic (l : list Z) (i : Z) : Z := default 0 l.[i mod alen l].

(** ** MD5 *)

(** The Taylor polynomial of degree 255 of the sine at [i] by Horner's rule: after [n] steps a
    pair [(c, a)] of c = 255!/(255 - 2n)! and a, where a/c is the rest of the series behind the
    factor i^(255 - 2n)/(255 - 2n)!.  Between 1 and 64 the remainder is below 2^-100. *)
Fixpoint sine_series (n : nat) (i : Z) : Z * Z :=
  match n with
  | O => (1, 1)
  | S n => let '(c, a) := sine_series n i in
           let j := 255 - 2 * Z.of_nat n in
           let c := c * (j * (j - 1)) in (c, c - i * i * a)
  end.

(** The integer part of 2^32 times the absolute value of the sine. *)
Definition md5_t (i : Z) : Z := let '(c, a) := sine_series 127 i in Z.abs (i * a) * 2 ^ 32 / c.

Definition md5_f (round : Z) (x y z : Z) : Z :=
  match round with
  | 0 => Z.lor (Z.land x y) (Z.land (not32 x) z)
  | 1 => Z.lor (Z.land x z) (Z.land y (not32 z))
  | 2 => Z.lxor (Z.lxor x y) z
  | _ => Z.lxor y (Z.lor x (not32 z))
  end.

Definition md5_k (round i : Z) : Z :=
  match round with 0 => i | 1 => (5 * i + 1) mod 16 | 2 => (3 * i + 5) mod 16 | _ => 7 * i mod 16 end.

Definition md5_s (round : Z) : list Z :=
  match round with 0 => [7; 12; 17; 22] | 1 => [5; 9; 14; 20] | 2 => [4; 11; 16; 23] | _ => [6; 10; 15; 21] end.

Definition md5_op (i : Z) : md_op :=
  MdOp (md5_f (i / 16)) (md5_k (i / 16) (i mod 16)) (md5_t (i + 1)) (cyclic (md5_s (i / 16)) i).

Definition md5_ops : list md_op := map md5_op (seqZ 0 64).
Definition md5 : list Z → list Z := md_digest true md5_ops.

(** ** MD4 *)

Definition md4_f (round : Z) (x y z : Z) : Z :=
  match round with
  | 0 => Z.lor (Z.land x y) (Z.land (not32 x) z)
  | 1 => Z.lor (Z.lor (Z.land x y) (Z.land x z)) (Z.land y z)
  | _ => Z.lxor (Z.lxor x y) z
  end.

(** 2^30 times the roots of 2 and 3. *)
Definition md4_t (round : Z) : Z := match round with 0 => 0 | 1 => Z.sqrt (2 * 2 ^ 60) | _ => Z.sqrt (3 * 2 ^ 60) end.

(** In the second round the words are taken by columns, in the third the bits of the number are
    reversed. *)
Definition md4_k (round i : Z) : Z :=
  match round with
  | 0 => i
  | 1 => i mod 4 * 4 + i / 4
  | _ => i mod 2 * 8 + i / 2 mod 2 * 4 + i / 4 mod 2 * 2 + i / 8
  end.

Definition md4_s (round : Z) : list Z :=
  match round with 0 => [3; 7; 11; 19] | 1 => [3; 5; 9; 13] | _ => [3; 9; 11; 15] end.

Definition md4_op (i : Z) : md_op :=
  MdOp (md4_f (i / 16)) (md4_k (i / 16) (i mod 16)) (md4_t (i / 16)) (cyclic (md4_s (i / 16)) i).

Definition md4_ops : list md_op := map md4_op (seqZ 0 48).
Definition md4 : list Z → list Z := md_digest false md4_ops.

(** ** Half MD4 *)

(** Three rounds of eight operations of MD4 on eight words, in an order of their own. *)
Definition half_k (round i : Z) : Z :=
  match round with 0 => i | 1 => (2 * i + 1) mod 9 | _ => cyclic [3; 7; 2; 6; 1; 5; 0; 4] i end.
Definition half_op (i : Z) : md_op :=
  MdOp (md4_f (i / 8)) (half_k (i / 8) (i mod 8)) (md4_t (i / 8)) (cyclic (md4_s (i / 8)) i).
Definition half_ops : list md_op := map half_op (seqZ 0 24).
