(* ===== verification/MdFrame.v ===== *)
(** * MD4 and MD5 are those of the RFCs

    The unrolled steps compute the operations of the RFCs; the block buffer, the padding and
    the length field, which may wrap around, for every compression function; the digests of
    MD4 and MD5 for every message in any pieces. *)

From S2P Require Import Prelude Words Cipher Hash Sha ShaSpec ShaFacts Md MdSpec.
#[local] Open Scope Z_scope.
#[local] Open Scope kernel_scope.

(** ** Steps *)

(** A step without its registers. *)
Record md_action := MdAct { c_f : Z → Z → Z → Z → Z → Z → Z; c_in : Z; c_k : Z; c_s : Z }.

Definition md_role (r : nat) (c : md_action) : md_statement :=
  match r with
  | 0 => mstmt (c_f c) ma mb mc md (c_in c) (c_k c) (c_s c)
  | 1 => mstmt (c_f c) md ma mb mc (c_in c) (c_k c) (c_s c)
  | 2 => mstmt (c_f c) mc md ma mb (c_in c) (c_k c) (c_s c)
  | _ => mstmt (c_f c) mb mc md ma (c_in c) (c_k c) (c_s c)
  end%nat.

Definition md_view (r : nat) (R : list Z) : list Z := drop (4 - r) R ++ take (4 - r) R.
Definition md_next (r : nat) : nat := if decide (r = 3)%nat then 0%nat else S r.

Fixpoint md_roles (r : nat) (l : list md_action) : list md_statement :=
  match l with [] => [] | c :: l => md_role r c :: md_roles (md_next r) l end.

Fixpoint md_after (n r : nat) : nat := match n with O => r | S n => md_after n (md_next r) end.

Lemma alen_4 {A} (l : list A) : alen l = 4 → ∃ a b c d, l = [a; b; c; d].
Proof. unfold alen. intros H. destruct l as [|a [|b [|c [|d [|? ?]]]]]; cbn [length] in H; try lia. by eexists _, _, _, _. Qed.

(** An action computes an operation of the specification on [n] words. *)
Definition acts (n : Z) (add : bool) (c : md_action) (o : md_op) : Prop :=
  c_in c = o_k o ∧ 0 ≤ o_k o < n ∧
  ∀ w x y z i, urange 32 w → urange 32 x → urange 32 y → urange 32 z → urange 32 i →
    c_f c w x y z (u32 (i + c_k c)) (c_s c) = md_value add o w x y z i ∧ urange 32 (md_value add o w x y z i).

Section Steps.
Context (X : list Z) (add : bool).
Hypothesis HX : Forall (urange 32) X.

Lemma exec_eval s R w x y z i R' :
  R.[m_w s] = Some w → R.[m_x s] = Some x → R.[m_y s] = Some y → R.[m_z s] = Some z → X.[m_in s] = Some i →
  R.[m_w s <- m_f s w x y z (u32 (i + m_k s)) (m_s s)] = Some R' → md_exec X R s = Some R'.
Proof. intros Hw Hx Hy Hz Hi HR. unfold md_exec. by rewrite Hw, Hx, Hy, Hz, Hi, !Some_bind. Qed.

Lemma exec_role r c o R :
  (r < 4)%nat → acts (alen X) add c o → alen R = 4 → Forall (urange 32) R →
  ∃ R', md_exec X R (md_role r c) = Some R' ∧ alen R' = 4 ∧ Forall (urange 32) R' ∧ md_view (md_next r) R' = md_step add X (md_view r R) o.
Proof.
  intros Hr (Hin & Hk & Hc) Hl HR. destruct (alen_4 R Hl) as (a & b & cc & d & ->). clear Hl.
  rewrite !list.Forall_cons in HR. destruct HR as (Ha & Hb & Hcc & Hd & _).
  destruct (arr_get_lt X (o_k o) Hk) as [x Hx]. pose proof (Forall_arr_get _ _ _ _ HX Hx) as Hxr.
  assert (Hword : word X (o_k o) = x) by (unfold word; by rewrite Hx). rewrite <- Hin in Hx.
  do 4 (destruct r as [|r]; [eexists; split; [eapply exec_eval; reflexivity || exact Hx|];
    split; [reflexivity|]; cbn [md_role m_f m_k m_s];
    match goal with |- context [c_f c ?w ?x ?y ?z _ _] => destruct (Hc w x y z _ ltac:(assumption) ltac:(assumption) ltac:(assumption) ltac:(assumption) Hxr) as [-> Hv] end;
    split; [repeat (constructor; [assumption|]); constructor|]; rewrite <- Hword; reflexivity|]). lia.
Qed.

Lemma md_next_lt r : (r < 4)%nat → (md_next r < 4)%nat.
Proof. unfold md_next. case_decide; lia. Qed.

Lemma run_actions l ops : Forall2 (acts (alen X) add) l ops → ∀ r R,
  (r < 4)%nat → alen R = 4 → Forall (urange 32) R →
  ∃ R', md_run X (md_roles r l) R = Some R' ∧ alen R' = 4 ∧ Forall (urange 32) R' ∧
    md_view (md_after (length l) r) R' = fold_left (md_step add X) ops (md_view r R).
Proof.
  induction 1 as [|c o l ops Hco Hops IH]; intros r R Hr Hl HR; [by exists R|].
  destruct (exec_role r c o R Hr Hco Hl HR) as (R1 & E1 & Hl1 & HR1 & Hv1).
  destruct (IH (md_next r) R1 (md_next_lt r Hr) Hl1 HR1) as (R2 & E2 & Hl2 & HR2 & Hv2).
  exists R2. cbn [md_roles md_run]. rewrite E1, Some_bind. ands; [done|done|done|]. cbn [length md_after fold_left]. by rewrite Hv2, Hv1.
Qed.

Lemma md_view_0 R : alen R = 4 → md_view 0 R = R.
Proof. intros H. by destruct (alen_4 R H) as (a & b & c & d & ->). Qed.

Definition md_good (st : list Z) : Prop := alen st = 4 ∧ Forall (urange 32) st.

Lemma md_transform_ok stmts l ops st :
  stmts = md_roles 0 l → md_after (length l) 0 = 0%nat → Forall2 (acts (alen X) add) l ops → md_good st →
  md_transform stmts st X = Some (md_compress add ops st X) ∧ md_good (md_compress add ops st X).
Proof.
  intros -> Hrole Hops [Hl Hst]. unfold md_transform. rewrite Hl, Z.eqb_refl.
  destruct (run_actions l ops Hops 0 st) as (R & E & HlR & HR & Hv); [lia|done|done|]. rewrite E, Some_bind.
  rewrite Hrole, !md_view_0 in Hv by done. unfold md_compress. rewrite <- Hv. split; [done|].
  destruct (alen_4 st Hl) as (? & ? & ? & ? & ->), (alen_4 R HlR) as (? & ? & ? & ? & ->). split; [done|].
  repeat (constructor; [by apply urange_uwrap|]). constructor.
Qed.
End Steps.

(** ** Functions and rotations *)

Lemma not32_unot x : urange 32 x → not32 x = unot 32 x.
Proof. unfold urange, not32, unot, uwrap. intros H. unfold Z.lnot. Z.to_euclidean_division_equations. lia. Qed.

(** Equality of 32-bit words by their bits. *)
Ltac by_bits32 :=
  rewrite ?not32_unot by done; apply Z.bits_inj'; intros i Hi;
  rewrite ?Z.lxor_spec, ?Z.land_spec, ?Z.lor_spec, ?Z.lxor_spec, ?Z.land_spec, ?Z.lor_spec, ?testbit_unot by lia;
  destruct (Z.ltb_spec i 32); [|rewrite !(urange_testbit_high 32) by done]; cbn [andb];
  repeat match goal with |- context [Z.testbit ?x i] => is_var x; destruct (Z.testbit x i) end; reflexivity.

Section Functions.
Context (x y z : Z).
Hypothesis (Hx : urange 32 x) (Hy : urange 32 y) (Hz : urange 32 z).

Lemma md5_F1_ok : md5_F1 x y z = md5_f 0 x y z.
Proof. unfold md5_F1, md5_f. by_bits32. Qed.
Lemma md5_F2_ok : md5_F2 x y z = md5_f 1 x y z.
Proof. unfold md5_F2, md5_F1, md5_f. by_bits32. Qed.
Lemma md5_F4_ok : md5_F4 x y z = md5_f 3 x y z.
Proof. unfold md5_F4, md5_f. by rewrite not32_unot. Qed.
Lemma md4_F_ok : md4_F x y z = md4_f 0 x y z.
Proof. unfold md4_F, md4_f. by rewrite not32_unot. Qed.
Lemma half_F_ok : half_F x y z = md4_f 0 x y z.
Proof. apply md5_F1_ok. Qed.
Lemma half_G_ok : half_G x y z = md4_f 1 x y z.
Proof.
  unfold half_G. rewrite Z.add_nocarry_lxor; [unfold md4_f; by_bits|].
  apply Z.bits_inj'. intros i Hi. rewrite !Z.land_spec, Z.lxor_spec, Z.bits_0. by destruct (Z.testbit x i), (Z.testbit y i), (Z.testbit z i).
Qed.
End Functions.

Lemma lshift_rol x s : urange 32 x → lshift x s = rol32 x s.
Proof.
  intros Hx. unfold lshift, rol32. change 0xFFFFFFFF with (Z.ones 32). rewrite !Z.land_ones by lia. rewrite (Z.mod_small x) by done.
  rewrite Z.mod_small; [done|]. apply urange_uwrap. lia.
Qed.

(** ** The tables *)

Lemma add_wrapped w f i k : u32 (w + f + u32 (i + k)) = (w + f + i + k) mod 2 ^ 32.
Proof. unfold uwrap. rewrite Zplus_mod_idemp_r. f_equal. lia. Qed.

(** The steps of MD5 and of half MD4, with functions that agree on words. *)
Lemma MD5STEP_ok f g kk k s w x y z i :
  0 ≤ s ≤ 32 → f x y z = g x y z → MD5STEP f w x y z (u32 (i + k)) s = md_value true (MdOp g kk k s) w x y z i.
Proof.
  intros Hs Hfg. unfold MD5STEP, md_value. cbn [o_f o_t o_s]. rewrite add_wrapped, Hfg. set (v := _ mod 2 ^ 32).
  assert (Hv : urange 32 v) by (apply Z.mod_pos_bound; lia). fold (rol32 v s). destruct (rol32_rotl v s Hs Hv) as [-> _].
  unfold uwrap. f_equal. lia.
Qed.

Lemma half_ROUND_ok f g kk k s w x y z i :
  0 ≤ s ≤ 32 → f x y z = g x y z → half_ROUND f w x y z (u32 (i + k)) s = md_value false (MdOp g kk k s) w x y z i.
Proof.
  intros Hs Hfg. unfold half_ROUND, md_value. cbn [o_f o_t o_s]. rewrite add_wrapped, Hfg. set (v := _ mod 2 ^ 32).
  assert (Hv : urange 32 v) by (apply Z.mod_pos_bound; lia). fold (rol32 v s). by destruct (rol32_rotl v s Hs Hv) as [-> _].
Qed.

Lemma lshift_ok g kk k s w x y z i v :
  0 ≤ s ≤ 32 → v = (w + g x y z + i + k) mod 2 ^ 32 → lshift v s = md_value false (MdOp g kk k s) w x y z i.
Proof.
  intros Hs ->. unfold md_value. cbn [o_f o_t o_s]. set (v := _ mod 2 ^ 32).
  assert (Hv : urange 32 v) by (apply Z.mod_pos_bound; lia). rewrite lshift_rol by done. by destruct (rol32_rotl v s Hs Hv) as [-> _].
Qed.

Lemma md_value_range add o w x y z i : 0 ≤ o_s o ≤ 32 → urange 32 (md_value add o w x y z i).
Proof.
  intros Hs. unfold md_value. destruct add; [apply Z.mod_pos_bound; lia|]. apply rol32_rotl; [done|]. apply Z.mod_pos_bound. lia.
Qed.

Lemma mod_cases i n : 0 < n → 0 ≤ i mod n < n.
Proof. apply Z.mod_pos_bound. Qed.

Definition md5_fn (round : Z) : Z → Z → Z → Z := match round with 0 => md5_F1 | 1 => md5_F2 | 2 => md5_F3 | _ => md5_F4 end.
Definition md5_action (i : Z) : md_action :=
  MdAct (MD5STEP (md5_fn (i / 16))) (md5_k (i / 16) (i mod 16)) (md5_t (i + 1)) (cyclic (md5_s (i / 16)) i).

Definition md4_fn (round : Z) : Z → Z → Z → Z → Z → Z → Z := match round with 0 => md4_ROUND1 | 1 => md4_ROUND2 | _ => md4_ROUND3 end.
Definition md4_action (i : Z) : md_action :=
  MdAct (md4_fn (i / 16)) (md4_k (i / 16) (i mod 16)) 0 (cyclic (md4_s (i / 16)) i).

Definition half_fn (round : Z) : Z → Z → Z → Z := match round with 0 => half_F | 1 => half_G | _ => half_H end.
Definition half_action (i : Z) : md_action :=
  MdAct (half_ROUND (half_fn (i / 8))) (half_k (i / 8) (i mod 8)) (md4_t (i / 8)) (cyclic (md4_s (i / 8)) i).

(** The tables are compared with variables for the functions. *)
Ltac table stmts f0 f1 f2 f3 action :=
  let t := eval unfold stmts in stmts in
  let t := eval pattern f0, f1, f2, f3 in t in
  match t with
  | ?tab _ _ _ _ =>
      match goal with |- _ = md_roles 0 (map _ ?l) =>
        assert (H : ∀ g, tab (g 0) (g 1) (g 2) (g 3) = md_roles 0 (map (action g) l)) by (intros g; vm_compute; reflexivity) end
  end.

Lemma md5_table : md5_statements = md_roles 0 (map md5_action (seqZ 0 64)).
Proof.
  table md5_statements (MD5STEP md5_F1) (MD5STEP md5_F2) (MD5STEP md5_F3) (MD5STEP md5_F4)
    (λ g i, MdAct (g (i / 16)) (md5_k (i / 16) (i mod 16)) (md5_t (i + 1)) (cyclic (md5_s (i / 16)) i)).
  exact (H (λ r, MD5STEP (md5_fn r))).
Qed.
Lemma md4_table : md4_statements = md_roles 0 (map md4_action (seqZ 0 48)).
Proof.
  table md4_statements md4_ROUND1 md4_ROUND2 md4_ROUND3 (half_ROUND half_F)
    (λ g i, MdAct (g (i / 16)) (md4_k (i / 16) (i mod 16)) 0 (cyclic (md4_s (i / 16)) i)).
  exact (H md4_fn).
Qed.
Lemma half_table : half_statements = md_roles 0 (map half_action (seqZ 0 24)).
Proof.
  table half_statements (half_ROUND half_F) (half_ROUND half_G) (half_ROUND half_H) md4_ROUND1
    (λ g i, MdAct (g (i / 8)) (half_k (i / 8) (i mod 8)) (md4_t (i / 8)) (cyclic (md4_s (i / 8)) i)).
  exact (H (λ r, half_ROUND (half_fn r))).
Qed.

(** Numbers of words and shifts are in range. *)
Definition op_fits (n k s : Z) : bool := (0 <=? k) && (k <? n) && (0 <=? s) && (s <=? 32).

Lemma acts_table n add (action : Z → md_action) (op : Z → md_op) m (k s : Z → Z) :
  forallb (λ i, op_fits n (k i) (s i)) (seqZ 0 m) = true → (∀ i, o_k (op i) = k i) → (∀ i, o_s (op i) = s i) →
  (∀ i, 0 ≤ i < m → c_in (action i) = o_k (op i)) →
  (∀ i w x y z a, 0 ≤ i < m → 0 ≤ o_s (op i) ≤ 32 → urange 32 w → urange 32 x → urange 32 y → urange 32 z → urange 32 a →
     c_f (action i) w x y z (u32 (a + c_k (action i))) (c_s (action i)) = md_value add (op i) w x y z a) →
  Forall2 (acts n add) (map action (seqZ 0 m)) (map op (seqZ 0 m)).
Proof.
  intros Hfit Hok Hos Hin Hval. rewrite forallb_forall in Hfit.
  apply Forall2_fmap, Forall_Forall2_diag, Forall_forall. intros i Hi. specialize (Hfit i Hi). apply list_elem_of_In, elem_of_seqZ in Hi.
  unfold op_fits in Hfit. rewrite <- Hok, <- Hos in Hfit. rewrite !andb_true_iff, !Z.leb_le, Z.ltb_lt in Hfit. destruct Hfit as [[[Hk1 Hk2] Hs1] Hs2].
  split; [apply Hin; lia|]. split; [lia|]. intros w x y z a Hw Hx Hy Hz Ha. split; [apply Hval; (lia || done)|by apply md_value_range].
Qed.

(** Rounds of sixteen and of eight steps. *)
Lemma round_cases i : 0 ≤ i < 64 → i / 16 = 0 ∨ i / 16 = 1 ∨ i / 16 = 2 ∨ i / 16 = 3.
Proof. intros. Z.to_euclidean_division_equations. lia. Qed.

Lemma md5_acts : Forall2 (acts 16 true) (map md5_action (seqZ 0 64)) md5_ops.
Proof.
  apply (acts_table _ _ _ _ _ (λ i, md5_k (i / 16) (i mod 16)) (λ i, cyclic (md5_s (i / 16)) i)); [vm_compute; reflexivity|reflexivity|reflexivity|reflexivity|]. intros i w x y z a Hi Hs Hw Hx Hy Hz Ha. apply MD5STEP_ok; [exact Hs|].
  destruct (round_cases i Hi) as [-> |[-> |[-> | ->]]]; [by apply md5_F1_ok|by apply md5_F2_ok|done|by apply md5_F4_ok].
Qed.

Lemma md4_acts : Forall2 (acts 16 false) (map md4_action (seqZ 0 48)) md4_ops.
Proof.
  apply (acts_table _ _ _ _ _ (λ i, md4_k (i / 16) (i mod 16)) (λ i, cyclic (md4_s (i / 16)) i)); [vm_compute; reflexivity|reflexivity|reflexivity|reflexivity|]. intros i w x y z a Hi Hs Hw Hx Hy Hz Ha.
  cbn [md4_action c_f c_k c_s md4_op o_s] in *. rewrite Z.add_0_r, (uwrap_small 32 a) by done.
  assert (Hc : i / 16 = 0 ∨ i / 16 = 1 ∨ i / 16 = 2) by (Z.to_euclidean_division_equations; lia).
  unfold md4_op. destruct Hc as [E|[E|E]]; rewrite E in *; cbn [md4_fn]; unfold md4_ROUND1, md4_ROUND2, md4_ROUND3;
    apply lshift_ok; try exact Hs; unfold uwrap.
  - rewrite md4_F_ok by done. f_equal. cbn [md4_t]. lia.
  - change (md4_t 1) with 0x5A827999. reflexivity.
  - change (md4_t 2) with 0x6ED9EBA1. reflexivity.
Qed.

Lemma half_acts : Forall2 (acts 8 false) (map half_action (seqZ 0 24)) half_ops.
Proof.
  apply (acts_table _ _ _ _ _ (λ i, half_k (i / 8) (i mod 8)) (λ i, cyclic (md4_s (i / 8)) i)); [vm_compute; reflexivity|reflexivity|reflexivity|reflexivity|]. intros i w x y z a Hi Hs Hw Hx Hy Hz Ha. apply half_ROUND_ok; [exact Hs|].
  assert (Hc : i / 8 = 0 ∨ i / 8 = 1 ∨ i / 8 = 2) by (Z.to_euclidean_division_equations; lia).
  destruct Hc as [-> |[-> | ->]]; [by apply half_F_ok|by apply half_G_ok|done].
Qed.

(** ** Words *)

Lemma load_le32_ok obj off i :
  Forall byte obj → 0 ≤ off → 0 ≤ i → off + 4 * i + 4 ≤ alen obj →
  load_le32 obj off i = Some (le_val (slice obj (off + 4 * i) 4)) ∧ urange 32 (le_val (slice obj (off + 4 * i) 4)).
Proof.
  intros Hobj Ho Hi Hl. set (p := off + 4 * i).
  destruct (arr_get_lt obj p) as [b0 H0]; [lia|]. destruct (arr_get_lt obj (p + 1)) as [b1 H1]; [lia|].
  destruct (arr_get_lt obj (p + 2)) as [b2 H2]; [lia|]. destruct (arr_get_lt obj (p + 3)) as [b3 H3]; [lia|].
  unfold load_le32. fold p. rewrite H0, H1, H2, H3, !Some_bind.
  pose proof (Forall_arr_get _ _ _ _ Hobj H0) as B0. pose proof (Forall_arr_get _ _ _ _ Hobj H1) as B1.
  pose proof (Forall_arr_get _ _ _ _ Hobj H2) as B2. pose proof (Forall_arr_get _ _ _ _ Hobj H3) as B3.
  rewrite (slice_cons _ _ _ _ H0), (slice_cons _ _ _ _ H1) by lia.
  replace (p + 1 + 1) with (p + 2) by lia. rewrite (slice_cons _ _ _ _ H2) by lia. replace (p + 2 + 1) with (p + 3) by lia.
  rewrite (slice_cons _ _ _ _ H3) by lia. change (4 - 1 - 1 - 1 - 1) with 0. rewrite slice_nil.
  cbn [le_val foldr]. unfold le_val, le32, urange in *. cbn [foldr]. split; [f_equal; lia|lia].
Qed.

Lemma load_words_ok obj off n :
  Forall byte obj → 0 ≤ off → off + 4 * Z.of_nat n ≤ alen obj →
  load_words obj off n = Some ((λ i, le_val (slice obj (off + 4 * i) 4)) <$> seqZ 0 (Z.of_nat n)) ∧
  Forall (urange 32) ((λ i, le_val (slice obj (off + 4 * i) 4)) <$> seqZ 0 (Z.of_nat n)).
Proof.
  intros Hobj Ho. induction n as [|n IH]; intros Hl; [done|]. cbn [load_words]. destruct IH as [-> HF]; [lia|].
  destruct (load_le32_ok obj off (Z.of_nat n) Hobj Ho ltac:(lia) ltac:(lia)) as [-> Hr]. rewrite !Some_bind.
  rewrite Nat2Z.inj_succ, <- Z.add_1_r, seqZ_app, fmap_app by lia. rewrite Z.add_0_l. split; [done|].
  apply Forall_app. split; [done|]. by apply Forall_singleton.
Qed.

Lemma block_words_ok obj off :
  Forall byte obj → 0 ≤ off → off + 64 ≤ alen obj →
  load_words obj off 16 = Some (le_words (slice obj off 64)) ∧ Forall (urange 32) (le_words (slice obj off 64)) ∧
  alen (le_words (slice obj off 64)) = 16.
Proof.
  intros Hobj Ho Hl. destruct (load_words_ok obj off 16 Hobj Ho ltac:(lia)) as [E HF].
  assert (EW : le_words (slice obj off 64) = (λ i, le_val (slice obj (off + 4 * i) 4)) <$> seqZ 0 (Z.of_nat 16)).
  { unfold le_words. apply list_fmap_ext. intros k i Hi. apply list_elem_of_lookup_2, elem_of_seqZ in Hi. f_equal. apply slice_slice; lia. }
  rewrite EW. ands; [done|done|]. unfold alen. by rewrite length_fmap, length_seqZ.
Qed.

(** A table of statements computes a compression function. *)
Lemma md_compresses stmts l ops add :
  stmts = md_roles 0 l → md_after (length l) 0 = 0%nat → Forall2 (acts 16 add) l ops →
  Compresses 64 (λ st b, md_compress add ops st (le_words b)) md_good (md_helper (md_transform stmts)).
Proof.
  intros Hs Ha Hops. split. intros st obj off Hst Hobj Ho Hl. unfold md_helper.
  destruct (block_words_ok obj off Hobj Ho Hl) as (-> & HW & HlW). rewrite Some_bind. rewrite <- HlW in Hops. by apply (md_transform_ok _ add HW stmts l ops).
Qed.

#[export] Instance md5_compresses : Compresses 64 (λ st b, md_compress true md5_ops st (le_words b)) md_good (md_helper md5_transform).
Proof. apply (md_compresses _ _ _ _ md5_table); [reflexivity|exact md5_acts]. Qed.

#[export] Instance md4_compresses : Compresses 64 (λ st b, md_compress false md4_ops st (le_words b)) md_good (md_helper md4_transform).
Proof. apply (md_compresses _ _ _ _ md4_table); [reflexivity|exact md4_acts]. Qed.

(** [half_md4_transform] is three rounds of MD4 on half a block. *)
Theorem half_md4_correct (buf W : list Z) (Hb : md_good buf) (HW : Forall (urange 32) W) (Hl : alen W = 8) :
  let buf' := md_compress false half_ops buf W in half_md4_transform buf W = Some (buf', word buf' 1).
Proof.
  intros buf'. pose proof half_acts as Hops. rewrite <- Hl in Hops. unfold half_md4_transform.
  destruct (md_transform_ok W false HW half_statements _ half_ops buf half_table eq_refl Hops Hb) as [-> [Hl4 _]]. rewrite Some_bind. fold buf'. fold buf' in Hl4.
  destruct (arr_get_lt buf' 1) as [x Hx]; [lia|]. unfold word. by rewrite Hx.
Qed.

(** ** Update *)

Section Frame.
Context {f : list Z → list Z → list Z} {good : list Z → Prop} {transform : list Z → list Z → option (list Z)}.
Context `{HT : !Compresses 64 f good (md_helper transform)}.
Context (iv : list Z).

Definition md_holds (mctx : md_ctx) (m : list Z) : Prop :=
  byte_count mctx = u64 (alen m) ∧ Forall byte (md_block mctx) ∧ good (md_hash mctx) ∧ taken 64 f iv (md_hash mctx) (md_block mctx) m.

Lemma helper_block st blk : good st → Forall byte blk → alen blk = 64 → md_helper transform st blk 0 = Some (f st blk) ∧ good (f st blk).
Proof.
  intros Hg Hb Hl. assert (Hin : 0 + 64 ≤ alen blk) by lia. destruct (compresses st blk 0 Hg Hb ltac:(lia) Hin) as [E H].
  assert (Hx : slice blk 0 64 = blk) by (rewrite <- Hl; apply slice_all). by rewrite Hx in *.
Qed.

Section Update.
Context (m data : list Z) (len0 : Z).
Hypothesis Hdata : Forall byte data.
Hypothesis Hlen : 0 ≤ len0 ≤ alen data.

Definition turn_inv (s : list Z * list Z * Z * Z) : Prop :=
  let '(hash, blk, off, len) := s in
  good hash ∧ Forall byte blk ∧ alen blk = 64 ∧ at_block 64 f iv hash (m ++ slice data 0 off) ∧ 0 ≤ off ∧ 0 ≤ len ∧ off + len = len0.

Lemma md_loop_ok s :
  turn_inv s → ∃ s', loop (S (Z.to_nat len0)) (md_turn transform data) s = Some s' ∧ turn_inv s' ∧ s'.2 < 64.
Proof.
  intros HI.
  destruct (loop_rule turn_inv (λ s, Z.to_nat s.2) (λ s', turn_inv s' ∧ s'.2 < 64) (md_turn transform data) (S (Z.to_nat len0)) s) as (s' & -> & HQ).
  - intros [[[hash blk] off] len] (Hg & Hb & Hl & Hat & Ho & Hn & Hs). unfold md_turn.
    destruct (Z.geb_spec len 64).
    + rewrite memcpy_ok by lia. rewrite slice_nil, app_nil_l, drop_ge, app_nil_r, Some_bind by (unfold alen in *; lia).
      assert (Hl64 : alen (slice data off 64) = 64) by (apply alen_slice; lia).
      assert (Hby : Forall byte (slice data off 64)) by (by apply Forall_take, Forall_drop).
      destruct (helper_block hash _ Hg Hby Hl64) as [-> Hg2]. rewrite Some_bind. eexists. split; [reflexivity|]. split; [|cbn [snd]; lia].
      unfold turn_inv. ands; [done|done|done| |lia|lia|lia]. rewrite slice_app, app_assoc by lia. by apply at_block_step; [lia| |].
    + eexists. split; [reflexivity|]. split; [by unfold turn_inv; ands|]. cbn [snd]. lia.
  - done.
  - destruct s as [[[hash blk] off] len]. unfold turn_inv in HI. cbn [snd]. lia.
  - by exists s'.
Qed.

Lemma md_update_ok mctx :
  md_holds mctx m → ∃ mctx', md_update transform mctx data len0 = Some mctx' ∧ md_holds mctx' (m ++ slice data 0 len0).
Proof.
  intros (Hc & Hb & Hg & Ht). unfold md_update. rewrite Hc, land_63, u64_mod by done. cbv zeta. set (p := alen m mod 64).
  assert (Hp : 0 ≤ p < 64) by (by apply Z.mod_pos_bound). replace (64 - (64 - p)) with p by lia.
  assert (Hcnt : u64 (u64 (alen m) + len0) = u64 (alen (m ++ slice data 0 len0))).
  { rewrite alen_app, alen_slice by lia. unfold uwrap. by rewrite Zplus_mod_idemp_l. }
  destruct (Z.gtb_spec (64 - p) len0).
  - destruct (taken_short 64 f iv ltac:(lia) _ _ _ data 0 len0 p Ht eq_refl) as (buf' & E2 & Ht'); [lia..|].
    rewrite E2, Some_bind. eexists. split; [reflexivity|]. unfold md_holds. cbn [byte_count md_hash md_block]. ands; [done| |done|done].
    by eapply memcpy_bytes.
  - destruct (taken_full 64 f iv ltac:(lia) _ _ _ data 0 p Ht eq_refl ltac:(lia) ltac:(lia)) as (buf & E1 & Hl & Hat & Hby).
    rewrite E1, Some_bind. specialize (Hby Hb Hdata). destruct (helper_block _ buf Hg Hby Hl) as [-> Hg2]. rewrite Some_bind.
    destruct (md_loop_ok (f (md_hash mctx) buf, buf, 64 - p, len0 - (64 - p))) as ([[[hash blk] off] len] & -> & HI & Hlt).
    { unfold turn_inv. ands; [done|done|done|done|lia|lia|lia]. }
    rewrite Some_bind. destruct HI as (Hg3 & Hb3 & Hl3 & Hat3 & Ho & Hn & Hs). cbn [snd] in Hlt.
    destruct (taken_rest 64 f iv hash blk _ data off len Hat3 Hl3) as (buf' & E4 & Ht'); [lia..|].
    rewrite E4, Some_bind. eexists. split; [reflexivity|]. unfold md_holds. cbn [byte_count md_hash md_block].
    rewrite <- app_assoc, <- slice_app in Ht' by lia. rewrite Hs in Ht'.
    ands; [done| |done|done]. by eapply memcpy_bytes.
Qed.
End Update.

(** ** Final *)

(** A store behind the part of an object that is known. *)
Lemma write_prefix (l P d : list Z) p n :
  take (Z.to_nat p) l = P → alen P = p → n = p + alen d → n ≤ alen l →
  ∃ l', arr_write l p d = Some l' ∧ alen l' = alen l ∧ take (Z.to_nat n) l' = P ++ d.
Proof.
  intros HP Hl -> Hn. pose proof (alen_nonneg P). pose proof (alen_nonneg d). unfold arr_write. fold (alen d) (alen l).
  destruct (Z.leb_spec 0 p), (Z.leb_spec (p + alen d) (alen l)); try lia. cbn [andb]. eexists. split; [reflexivity|]. rewrite HP. split.
  - rewrite !alen_app. unfold alen in *. rewrite length_drop. lia.
  - rewrite app_assoc, take_app_le by (rewrite length_app; unfold alen in *; lia). apply take_ge. rewrite length_app. unfold alen in *. lia.
Qed.

Lemma set_prefix (l P : list Z) p x :
  take (Z.to_nat p) l = P → alen P = p → p < alen l → ∃ l', l.[p <- x] = Some l' ∧ alen l' = alen l ∧ take (Z.to_nat (p + 1)) l' = P ++ [x].
Proof.
  intros HP Hl Hn. pose proof (alen_nonneg P). rewrite arr_set_lt by lia. eexists. split; [reflexivity|]. split; [by rewrite alen_insert|].
  replace (Z.to_nat (p + 1)) with (S (Z.to_nat p)) by lia. assert (Hlt : (Z.to_nat p < length l)%nat) by (unfold alen in *; lia).
  rewrite (take_S_r _ _ x) by (by apply list_lookup_insert_eq). rewrite take_insert_ge by lia. by rewrite HP.
Qed.

Lemma memset_prefix (l P : list Z) p c k n :
  take (Z.to_nat p) l = P → alen P = p → 0 ≤ k → n = p + k → n ≤ alen l →
  ∃ l', memset l p c k = Some l' ∧ alen l' = alen l ∧ take (Z.to_nat n) l' = P ++ replicate (Z.to_nat k) c.
Proof.
  intros HP Hl Hk Hn Hle. unfold memset. destruct (Z.leb_spec 0 k); [|lia]. apply write_prefix; [done|done| |done].
  unfold alen. rewrite length_replicate. lia.
Qed.

(** The last two words of the block. *)
Lemma length_field c : 0 ≤ c < 2 ^ 64 →
  le32_bytes (u32 (Z.shiftl c 3)) ++ le32_bytes (u32 (Z.shiftr c 29)) = le_bytes 8 (8 * c mod 2 ^ 64).
Proof.
  intros Hc. rewrite Z.shiftl_mul_pow2, Z.shiftr_div_pow2 by lia. unfold le32_bytes, uwrap, le_bytes.
  change (seqZ 0 8) with [0; 1; 2; 3; 4; 5; 6; 7]. cbn [fmap list_fmap app]. rewrite !Z.shiftr_div_pow2 by lia.
  repeat match goal with |- context [256 ^ ?a] => let v := eval vm_compute in (256 ^ a) in change (256 ^ a) with v end.
  repeat (apply (f_equal2 cons)); [..|done]; Z.to_euclidean_division_equations; lia.
Qed.

(** The bytes before the zeros: the tail of the message and the bit 1. *)
Lemma md_final_start mctx m :
  md_holds mctx m → Forall byte m →
  let offset := alen m mod 64 in let padding := 56 - (offset + 1) in
  ∃ blk0 hash blk p q P, (md_block mctx).[offset <- 0x80] = Some blk0 ∧
    (if padding <? 0 then
       blk ← memset blk0 (offset + 1) 0 (padding + 8);
       hash ← md_helper transform (md_hash mctx) blk 0;
       Some (hash, blk, 0, 56)
     else Some (md_hash mctx, blk0, offset + 1, padding)) = Some (hash, blk, p, 56 - p) ∧
    good hash ∧ alen blk = 64 ∧ take (Z.to_nat p) blk = P ∧ alen P = p ∧ p ≤ 56 ∧ Forall byte P ∧ at_block 64 f iv hash q ∧
    md_pad m = q ++ P ++ replicate (Z.to_nat (56 - p)) 0 ++ le_bytes 8 (8 * alen m mod 2 ^ 64).
Proof.
  intros (Hc & Hb & Hg & Ht) Hm offset padding. assert (Ho : 0 ≤ offset < 64) by (by apply Z.mod_pos_bound).
  destruct (taken_length 64 f iv ltac:(lia) _ _ _ Ht) as (Hbl & q & tail & rest & Em & Hq & Eb & Hl). fold offset in Hl.
  assert (Htail : take (Z.to_nat offset) (md_block mctx) = tail) by (rewrite Eb, <- Hl; unfold alen; rewrite Nat2Z.id; apply take_app_length).
  destruct (set_prefix _ tail offset 128 Htail Hl ltac:(lia)) as (blk0 & E0 & Hl0 & Hp0). exists blk0.
  assert (HP : Forall byte (tail ++ [128])).
  { apply Forall_app. split; [|apply Forall_singleton; by unfold urange]. rewrite Em in Hm. by apply Forall_app in Hm as [_ ?]. }
  assert (HlP : alen (tail ++ [128]) = offset + 1) by (rewrite alen_app, Hl; done).
  destruct (Z.ltb_spec padding 0) as [Hneg|Hpos].
  - destruct (memset_prefix blk0 _ (offset + 1) 0 (padding + 8) 64 Hp0 HlP ltac:(lia) ltac:(lia) ltac:(lia)) as (blk1 & E1 & Hl1 & Hp1).
    rewrite take_ge in Hp1 by (unfold alen in *; lia).
    assert (Hby : Forall byte blk1) by (rewrite Hp1; apply Forall_app; split; [done|by apply Forall_replicate]).
    destruct (helper_block (md_hash mctx) blk1 Hg Hby ltac:(lia)) as [E2 Hg2].
    exists (f (md_hash mctx) blk1), blk1, 0, (q ++ blk1), []. rewrite E1, Some_bind, E2, Some_bind.
    ands; [done|done|done|lia|done|done|lia|constructor|by apply at_block_step; [lia| |lia]|].
    unfold md_pad. rewrite Em at 1. rewrite Hp1, app_nil_l, <- !app_assoc. do 3 apply (f_equal2 app eq_refl).
    rewrite app_assoc, <- replicate_add. f_equal. f_equal. rewrite <- Z2Nat.inj_add by lia. f_equal. subst padding offset. Z.to_euclidean_division_equations. lia.
  - exists (md_hash mctx), blk0, (offset + 1), q, (tail ++ [128]).
    ands; [done|by replace (56 - (offset + 1)) with padding by lia|done|lia|done|done|lia|done|done|].
    unfold md_pad. rewrite Em at 1. rewrite <- !app_assoc. do 3 apply (f_equal2 app eq_refl). do 3 f_equal. subst padding offset. Z.to_euclidean_division_equations. lia.
Qed.

Lemma md_final_ok mctx m :
  md_holds mctx m → Forall byte m → ∃ wiped, md_final transform mctx = Some (wiped, concat (map le32_bytes (iterate 64 f iv (md_pad m)))) ∧
    alen (md_block wiped) = 64 ∧ Forall byte (md_block wiped).
Proof.
  intros Hm Hby. unfold md_final. pose proof Hm as (Hc & _). rewrite Hc, land_63, u64_mod by done. cbv zeta.
  destruct (md_final_start mctx m Hm Hby) as (blk0 & hash & blk & p & q & P & -> & E & Hg & Hl & HP & HlP & Hp & HbP & Hq & Hpad).
  rewrite Some_bind, E, Some_bind. clear E. pose proof (alen_nonneg P).
  destruct (memset_prefix blk P p 0 (56 - p) 56 HP HlP ltac:(lia) ltac:(lia) ltac:(lia)) as (blk1 & -> & Hl1 & HP1). rewrite Some_bind.
  assert (HlP1 : alen (P ++ replicate (Z.to_nat (56 - p)) 0) = 56) by (rewrite alen_app; unfold alen at 2; rewrite length_replicate; lia).
  destruct (write_prefix blk1 _ (le32_bytes (u32 (Z.shiftl (u64 (alen m)) 3))) 56 60 HP1 HlP1 eq_refl ltac:(lia)) as (blk2 & -> & Hl2 & HP2). rewrite Some_bind.
  assert (HlP2 : alen ((P ++ replicate (Z.to_nat (56 - p)) 0) ++ le32_bytes (u32 (Z.shiftl (u64 (alen m)) 3))) = 60) by (rewrite alen_app, HlP1; done).
  destruct (write_prefix blk2 _ (le32_bytes (u32 (Z.shiftr (u64 (alen m)) 29))) 60 64 HP2 HlP2 eq_refl ltac:(lia)) as (blk3 & -> & Hl3 & HP3). rewrite Some_bind.
  rewrite take_ge in HP3 by (unfold alen in *; lia). rewrite <- app_assoc, length_field in HP3 by (apply urange_uwrap; lia).
  assert (El : 8 * u64 (alen m) mod 2 ^ 64 = 8 * alen m mod 2 ^ 64) by (unfold uwrap; by rewrite Zmult_mod_idemp_r). rewrite El in HP3.
  assert (Hb3 : Forall byte blk3).
  { rewrite HP3, !Forall_app. ands; [done|by apply Forall_replicate|]. apply Forall_fmap, Forall_true. intros i. apply Z.mod_pos_bound. lia. }
  destruct (helper_block hash blk3 Hg Hb3 ltac:(lia)) as [-> Hg3]. rewrite Some_bind.
  exists (MdCtx (replicate 4 0) (replicate 64 0) 0). split; [|cbn [md_block]; by split; [|apply Forall_replicate]]. do 4 f_equal. apply at_block_iterate; [lia|]. rewrite Hpad.
  rewrite <- (app_assoc P (replicate _ _)) in HP3. rewrite <- HP3. by apply at_block_step; [lia| |lia].
Qed.

(** A message in pieces. *)
Fixpoint md_updates (mctx : md_ctx) (pieces : list (list Z)) : option md_ctx :=
  match pieces with
  | [] => Some mctx
  | d :: pieces => mctx ← md_update transform mctx d (alen d); md_updates mctx pieces
  end.

Definition md_piece (d : list Z) : Prop := Forall byte d ∧ alen d < 2 ^ 32.

Lemma md_stream_ok pieces : ∀ mctx m,
  md_holds mctx m → Forall md_piece pieces → ∃ mctx', md_updates mctx pieces = Some mctx' ∧ md_holds mctx' (m ++ concat pieces).
Proof.
  induction pieces as [|d pieces IH]; intros mctx m Hm Hp; cbn [md_updates concat].
  { exists mctx. by rewrite app_nil_r. }
  apply list.Forall_cons in Hp as [[Hd Hl] Hp]. pose proof (alen_nonneg d).
  destruct (md_update_ok m d (alen d) Hd ltac:(lia) mctx Hm) as (s1 & -> & H1). rewrite Some_bind. rewrite slice_all in H1.
  rewrite app_assoc. by apply IH.
Qed.
End Frame.

Lemma le32_le_bytes x : urange 32 x → le32_bytes x = le_bytes 4 x.
Proof.
  intros Hx. unfold urange in Hx. unfold le32_bytes, uwrap, le_bytes. change (seqZ 0 4) with [0; 1; 2; 3]. cbn [fmap list_fmap].
  rewrite !Z.shiftr_div_pow2 by lia. repeat match goal with |- context [256 ^ ?a] => let v := eval vm_compute in (256 ^ a) in change (256 ^ a) with v end.
  repeat (apply (f_equal2 cons)); [..|done]; Z.to_euclidean_division_equations; lia.
Qed.

(** ** The digests *)

Definition md_context (mctx : md_ctx) : Prop := alen (md_block mctx) = 64 ∧ Forall byte (md_block mctx).

Lemma md_pad_ok m : Forall byte m → Forall byte (md_pad m) ∧ alen (md_pad m) mod 64 = 0.
Proof.
  intros Hm. unfold md_pad. split.
  - rewrite !Forall_app. ands; [done|apply Forall_singleton; by unfold urange|by apply Forall_replicate|].
    apply Forall_fmap, Forall_true. intros i. apply Z.mod_pos_bound. lia.
  - rewrite !alen_app. unfold le_bytes. rewrite alen_fmap_seqZ by lia. change (alen [128]) with 1. unfold alen at 2. rewrite length_replicate.
    rewrite Z2Nat.id by (apply Z.mod_pos_bound; lia). Z.to_euclidean_division_equations. lia.
Qed.

Lemma md_digest_ok transform add ops mctx pieces :
  Compresses 64 (λ st b, md_compress add ops st (le_words b)) md_good (md_helper transform) →
  md_context mctx → Forall md_piece pieces →
  ∃ wiped, (mctx ← md_updates (transform := transform) (md_init mctx) pieces; md_final transform mctx) = Some (wiped, md_digest add ops (concat pieces)).
Proof.
  intros HC [Hl Hb] Hp. set (f := λ st b, md_compress add ops st (le_words b)) in HC.
  assert (Hiv : md_good md_iv) by (split; [done|]; repeat (constructor; [by unfold urange|]); constructor).
  assert (H0 : md_holds (f := f) (good := md_good) md_iv (md_init mctx) []).
  { split; [done|]. split; [done|]. split; [done|]. by apply taken_nil. }
  destruct (md_stream_ok md_iv pieces _ _ H0 Hp) as (s & -> & Hs). rewrite Some_bind, app_nil_l in *.
  assert (Hby : Forall byte (concat pieces)).
  { clear -Hp. induction Hp as [|d pieces [Hd _] Hp IH]; [constructor|]. by apply Forall_app. }
  destruct (md_final_ok md_iv s (concat pieces) Hs Hby) as (wiped & -> & _). exists wiped. unfold md_digest. fold f. do 3 f_equal.
  destruct (md_pad_ok _ Hby) as [Hpb Hpm]. destruct (iterate_good md_iv 64 (md_pad (concat pieces)) HC ltac:(lia) Hiv Hpb Hpm) as [_ HF].
  clear -HF. induction HF as [|x l Hx HF IH]; [done|]. cbn [map]. by rewrite le32_le_bytes, IH.
Qed.

Definition md5_hash (mctx : md_ctx) (pieces : list (list Z)) : option (md_ctx * list Z) :=
  mctx ← md_updates (transform := md5_transform) (md5_init mctx) pieces; md5_final mctx.
Definition md4_hash (mctx : md_ctx) (pieces : list (list Z)) : option (md_ctx * list Z) :=
  mctx ← md_updates (transform := md4_transform) (md4_init mctx) pieces; md4_final mctx.

(** C30: MD5 and MD4 over any message in any pieces, in a context with anything in it:
    initialisation, an update for each piece and the final function stay inside context and
    data, end, and give the digest that RFC 1321 and RFC 1320 define for the whole message,
    also when the length in bits does not fit 64 bits. *)
Theorem md_correct (mctx : md_ctx) (pieces : list (list Z)) (Hctx : md_context mctx) (Hp : Forall md_piece pieces) :
  (∃ wiped, md5_hash mctx pieces = Some (wiped, md5 (concat pieces))) ∧
  (∃ wiped, md4_hash mctx pieces = Some (wiped, md4 (concat pieces))).
Proof. split; apply md_digest_ok; (exact _ || exact Hctx || exact Hp). Qed.

(** The test vectors of the RFCs. *)
Lemma md_abc :
  md5 [97; 98; 99] = be_bytes 16 0x900150983cd24fb0d6963f7d28e17f72 ∧ md4 [97; 98; 99] = be_bytes 16 0xa448017aaf21d8525fc10ae87aa6729d.
Proof. split; vm_compute; reflexivity. Qed.

Lemma md_correct_witness :
  ∃ wiped, md5_hash (MdCtx [] (replicate 64 9) 5) [[97]; []; [98; 99]] = Some (wiped, be_bytes 16 0x900150983cd24fb0d6963f7d28e17f72).
Proof.
  assert (H : Forall md_piece [[97]; []; [98; 99]]).
  { repeat (constructor; [split; [repeat (constructor; [by unfold urange|]); constructor|by vm_compute]|]). constructor. }
  assert (Hc : md_context (MdCtx [] (replicate 64 9) 5)) by (split; [done|by apply Forall_replicate]).
  destruct (md_correct _ _ Hc H) as [(wiped & E) _]. exists wiped. rewrite E. change (concat [[97]; []; [98; 99]]) with [97; 98; 99]. clear E H.
  rewrite (proj1 md_abc). reflexivity.
Defined.
