(* ===== verification/Shash.v ===== *)
(** * Synchronous hashes

    Models the calls of [crypto/shash.c] and [include/crypto/hash.h] that a user of a hash
    makes: the table of operations of an algorithm, the defaults that registration fills in,
    and the dispatch that copies through an aligned buffer when an address does not have the
    alignment the algorithm asks for.  A buffer of the caller is an address and its bytes; an
    operation returns its error code with the new context. *)

From S2P Require Import Prelude Words Hash Strings.
#[local] Open Scope Z_scope.
#[local] Open Scope kernel_scope.

(** [PAGE_SIZE / 8]. *)
Definition shash_limit : Z := 4096 / 8.

(** A buffer at an address. *)
Record buf := Buf { addr : Z; bytes : list Z }.

Section Shash.
Context {S : Type}.

(** The operations that may be missing are those that registration fills in.  [export] and
    [import] copy the context. *)
Record shash_alg := ShashAlg {
  init : S → option (Z * S);
  update : S → list Z → Z → option (Z * S);
  final : S → option (Z * S * list Z);
  finup : option (S → buf → Z → Z → option (Z * S * list Z));
  digest : option (S → buf → Z → Z → option (Z * S * list Z));
  export : option (S → option (Z * S));
  import : option (S → S → option (Z * S));
  descsize : Z; digestsize : Z; statesize : Z; blocksize : Z; alignmask : Z }.

Section Calls.
Context (alg : shash_alg).

Definition unaligned (a : Z) : bool := ctrue (Z.land a (alignmask alg)).

Definition crypto_shash_init (desc : S) : option (Z * S) := init alg desc.

(** The start of the data goes through a buffer of its own, up to the next aligned address. *)
Definition shash_update_unaligned (desc : S) (data : buf) (len : Z) : option (Z * S) :=
  let unaligned_len := alignmask alg + 1 - Z.land (addr data) (alignmask alg) in
  let unaligned_len := if unaligned_len >? len then len else unaligned_len in
  b ← memcpy (replicate (Z.to_nat unaligned_len) 0) 0 (bytes data) 0 unaligned_len;
  '(err, desc) ← update alg desc b unaligned_len;
  if ctrue err then Some (err, desc) else
  update alg desc (drop (Z.to_nat unaligned_len) (bytes data)) (len - unaligned_len).

Definition crypto_shash_update (desc : S) (data : buf) (len : Z) : option (Z * S) :=
  if unaligned (addr data) then shash_update_unaligned desc data len else update alg desc (bytes data) len.

(** [out] is the address of the result; the bytes written there are returned. *)
Definition shash_final_unaligned (desc : S) : option (Z * S * list Z) :=
  '(err, desc, b) ← final alg desc;
  if ctrue err then Some (err, desc, []) else
  out ← memcpy (replicate (Z.to_nat (digestsize alg)) 0) 0 b 0 (digestsize alg); Some (err, desc, out).

Definition crypto_shash_final (desc : S) (out : Z) : option (Z * S * list Z) :=
  if unaligned out then shash_final_unaligned desc else final alg desc.

Definition shash_finup_unaligned (desc : S) (data : buf) (len out : Z) : option (Z * S * list Z) :=
  '(err, desc) ← crypto_shash_update desc data len;
  if ctrue err then Some (err, desc, []) else crypto_shash_final desc out.

Definition crypto_shash_finup (desc : S) (data : buf) (len out : Z) : option (Z * S * list Z) :=
  if unaligned (Z.lor (addr data) out) then shash_finup_unaligned desc data len out
  else f ← finup alg; f desc data len out.

Definition shash_digest_unaligned (desc : S) (data : buf) (len out : Z) : option (Z * S * list Z) :=
  '(err, desc) ← crypto_shash_init desc;
  if ctrue err then Some (err, desc, []) else crypto_shash_finup desc data len out.

Definition crypto_shash_digest (desc : S) (data : buf) (len out : Z) : option (Z * S * list Z) :=
  if unaligned (Z.lor (addr data) out) then shash_digest_unaligned desc data len out
  else f ← digest alg; f desc data len out.

Definition crypto_shash_export (desc : S) : option (Z * S) := f ← export alg; f desc.
Definition crypto_shash_import (desc from : S) : option (Z * S) := f ← import alg; f desc from.
End Calls.

Definition shash_default_export (desc : S) : option (Z * S) := Some (0, desc).
Definition shash_default_import (desc from : S) : option (Z * S) := Some (0, from).

(** The default for an operation that is missing. *)
Definition or_default {A} (f : option A) (d : A) : option A := match f with Some f => Some f | None => Some d end.

Definition with_finup (alg : shash_alg) f : shash_alg :=
  ShashAlg (init alg) (update alg) (final alg) f (digest alg) (export alg) (import alg)
    (descsize alg) (digestsize alg) (statesize alg) (blocksize alg) (alignmask alg).
Definition with_digest (alg : shash_alg) f : shash_alg :=
  ShashAlg (init alg) (update alg) (final alg) (finup alg) f (export alg) (import alg)
    (descsize alg) (digestsize alg) (statesize alg) (blocksize alg) (alignmask alg).
Definition with_export (alg : shash_alg) e i ss : shash_alg :=
  ShashAlg (init alg) (update alg) (final alg) (finup alg) (digest alg) e i
    (descsize alg) (digestsize alg) ss (blocksize alg) (alignmask alg).

(** The error code and the algorithm as registered. *)
Definition shash_prepare_alg (alg : shash_alg) : Z * shash_alg :=
  if (digestsize alg >? shash_limit) || (descsize alg >? shash_limit) || (statesize alg >? shash_limit) then (- EINVAL, alg) else
  let alg := with_finup alg (or_default (finup alg) (shash_finup_unaligned alg)) in
  let alg := with_digest alg (or_default (digest alg) (shash_digest_unaligned alg)) in
  let alg := match export alg with
             | None => with_export alg (Some shash_default_export) (Some shash_default_import) (descsize alg)
             | Some _ => alg
             end in
  (0, alg).
End Shash.
Arguments shash_alg : clear implicits.
