(* ===== verification/ShashFacts.v ===== *)
(** * What a hash promises

    The interface [Hashes] between the hash algorithms and their users, the calls of the hash
    layer against it for every alignment of the buffers, and the tables of operations with
    which [crypto/sha1_generic.c], [crypto/sha256_generic.c], [crypto/sha512_generic.c],
    [crypto/md5.c] and [crypto/md4.c] register, each of which keeps what the interface
    promises. *)

From S2P Require Import Prelude Words Cipher Hash Sha ShaSpec ShaFacts Sha1Facts Sha2Facts Sha512Facts Md MdSpec MdFrame Strings Shash.
#[local] Open Scope Z_scope.
#[local] Open Scope kernel_scope.

(** ** The interface *)

(** An algorithm computes the function [H]: [context] is what its memory must be, [holds] what
    it is behind a part of a message, [takes] which data may follow a message and [ends] which
    messages may end. *)
Class Hashes {S} (alg : shash_alg S) (H : list Z → list Z) := {
  context : S → Prop;
  holds : S → list Z → Prop;
  takes : list Z → list Z → Prop;
  ends : list Z → Prop;
  holds_context s m : holds s m → context s;
  holds_bytes s m : holds s m → Forall byte m;
  hash_init s : context s → ∃ s', init alg s = Some (0, s') ∧ holds s' [];
  hash_update s m data len : holds s m → Forall byte data → 0 ≤ len ≤ alen data → takes m (slice data 0 len) →
    ∃ s', update alg s data len = Some (0, s') ∧ holds s' (m ++ slice data 0 len);
  hash_final s m : holds s m → ends m → ∃ s', final alg s = Some (0, s', H m) ∧ context s';
  hash_bytes m : Forall byte m → Forall byte (H m) ∧ alen (H m) = digestsize alg }.

(** The data in one piece or cut behind any byte. *)
Definition takes_cut {S : Type} {alg : shash_alg S} {H} `{!Hashes alg H} (m d : list Z) : Prop :=
  takes m d ∧ ∀ k, 0 ≤ k → Z.min 1 (alen d) ≤ k ≤ alen d → takes m (slice d 0 k) ∧ takes (m ++ slice d 0 k) (slice d k (alen d - k)).

(** What registration has filled in: the operations themselves or the defaults. *)
Record registered {S} (alg : shash_alg S) : Prop := {
  reg_finup : finup alg = Some (shash_finup_unaligned alg);
  reg_digest : digest alg = Some (shash_digest_unaligned alg);
  reg_export s : crypto_shash_export alg s = Some (0, s);
  reg_import s s' : crypto_shash_import alg s s' = Some (0, s');
  reg_mask : 0 ≤ alignmask alg }.

(** ** The calls *)

Section Calls.
Context {S : Type} {alg : shash_alg S} {H : list Z → list Z} `{HH : !Hashes alg H}.
Hypothesis Hreg : registered alg.

Lemma slice_drop {A} (l : list A) k n : 0 ≤ k → slice (drop (Z.to_nat k) l) 0 n = slice l k n.
Proof. intros. unfold slice. by rewrite drop_0. Qed.

Lemma memcpy_fresh (data : list Z) n : 0 ≤ n ≤ alen data → memcpy (replicate (Z.to_nat n) 0) 0 data 0 n = Some (slice data 0 n).
Proof.
  intros Hn. assert (Hl : alen (replicate (Z.to_nat n) 0) = n) by (unfold alen; rewrite length_replicate; lia). rewrite memcpy_ok by lia.
  rewrite slice_nil, app_nil_l, drop_ge, app_nil_r; [done|]. rewrite length_replicate. lia.
Qed.

Lemma update_call s m data len :
  holds s m → Forall byte (bytes data) → 0 ≤ len ≤ alen (bytes data) → takes_cut m (slice (bytes data) 0 len) →
  ∃ s', crypto_shash_update alg s data len = Some (0, s') ∧ holds s' (m ++ slice (bytes data) 0 len).
Proof.
  intros Hs Hd Hl [Ht Hcut]. unfold crypto_shash_update. destruct (unaligned alg (addr data)); [|by apply hash_update].
  unfold shash_update_unaligned. cbv zeta. set (k0 := alignmask alg + 1 - _). set (k := if k0 >? len then len else k0).
  assert (Hk : 0 ≤ k ∧ Z.min 1 len ≤ k ≤ len).
  { subst k k0. pose proof (reg_mask alg Hreg).
    pose proof (Z.land_nonneg (addr data) (alignmask alg)). assert (Z.land (addr data) (alignmask alg) ≤ alignmask alg).
    { apply Z.ldiff_le; [done|]. apply Z.bits_inj'. intros i Hi. rewrite Z.ldiff_spec, Z.land_spec, Z.bits_0. by destruct (Z.testbit (addr data) i), (Z.testbit (alignmask alg) i). }
    destruct (Z.gtb_spec (alignmask alg + 1 - Z.land (addr data) (alignmask alg)) len); lia. }
  rewrite memcpy_fresh, Some_bind by lia. rewrite alen_slice in Hcut by lia. destruct Hk as [Hk0 Hk]. specialize (Hcut k Hk0 Hk). rewrite !slice_slice, !Z.add_0_l in Hcut by lia.
  destruct Hcut as [Ht1 Ht2]. assert (Hby : ∀ o n, Forall byte (slice (bytes data) o n)) by (intros; by apply Forall_take, Forall_drop).
  assert (Hlk : alen (slice (bytes data) 0 k) = k) by (apply alen_slice; lia).
  assert (Hall : slice (slice (bytes data) 0 k) 0 k = slice (bytes data) 0 k) by (rewrite slice_slice by lia; done).
  destruct (hash_update s m (slice (bytes data) 0 k) k Hs (Hby _ _)) as (s1 & E1 & Hs1); [lia|by rewrite Hall|]. rewrite Hall in Hs1.
  rewrite E1, Some_bind. cbn [ctrue Z.eqb negb].
  assert (Hbd : Forall byte (drop (Z.to_nat k) (bytes data))) by (by apply Forall_drop).
  destruct (hash_update s1 (m ++ slice (bytes data) 0 k) (drop (Z.to_nat k) (bytes data)) (len - k) Hs1 Hbd) as (s2 & E2 & Hs2).
  { rewrite alen_drop by lia. lia. } { by rewrite slice_drop by lia. }
  exists s2. split; [done|]. rewrite slice_drop, <- app_assoc in Hs2 by lia. replace len with (k + (len - k)) by lia. by rewrite slice_app by lia.
Qed.

Lemma final_call s m out :
  holds s m → ends m → ∃ s', crypto_shash_final alg s out = Some (0, s', H m) ∧ context s'.
Proof.
  intros Hs He. destruct (hash_final s m Hs He) as (s' & E & Hc). exists s'. split; [|done]. unfold crypto_shash_final. case_match; [|done].
  unfold shash_final_unaligned. rewrite E, Some_bind. cbn [ctrue Z.eqb negb]. destruct (hash_bytes m (holds_bytes _ _ Hs)) as [_ Hl].
  rewrite <- Hl. pose proof (alen_nonneg (H m)). rewrite memcpy_fresh, slice_all by lia. done.
Qed.

Lemma finup_call s m data len out :
  holds s m → Forall byte (bytes data) → 0 ≤ len ≤ alen (bytes data) → takes_cut m (slice (bytes data) 0 len) →
  ends (m ++ slice (bytes data) 0 len) →
  ∃ s', crypto_shash_finup alg s data len out = Some (0, s', H (m ++ slice (bytes data) 0 len)) ∧ context s'.
Proof.
  intros Hs Hd Hl Ht He. destruct (update_call s m data len Hs Hd Hl Ht) as (s1 & E1 & Hs1). destruct (final_call s1 _ out Hs1 He) as (s2 & E2 & Hc).
  exists s2. split; [|done]. unfold crypto_shash_finup. rewrite (reg_finup alg Hreg), Some_bind. unfold shash_finup_unaligned. rewrite E1, Some_bind.
  cbn [ctrue Z.eqb negb]. rewrite E2. by case_match.
Qed.

Lemma digest_call s data len out :
  context s → Forall byte (bytes data) → 0 ≤ len ≤ alen (bytes data) → takes_cut [] (slice (bytes data) 0 len) → ends (slice (bytes data) 0 len) →
  ∃ s', crypto_shash_digest alg s data len out = Some (0, s', H (slice (bytes data) 0 len)) ∧ context s'.
Proof.
  intros Hs Hd Hl Ht He. destruct (hash_init s Hs) as (s1 & E1 & Hs1). destruct (finup_call s1 [] data len out Hs1 Hd Hl Ht He) as (s2 & E2 & Hc).
  exists s2. split; [|done]. unfold crypto_shash_digest. rewrite (reg_digest alg Hreg), Some_bind. unfold shash_digest_unaligned, crypto_shash_init.
  rewrite E1, Some_bind. cbn [ctrue Z.eqb negb]. rewrite E2. by case_match.
Qed.
End Calls.

(** C26: The hash layer over any registered algorithm that keeps the promises of the interface: for
    every address of the data and of the result, aligned or not, [crypto_shash_update],
    [crypto_shash_final], [crypto_shash_finup] and [crypto_shash_digest] return zero, stay inside
    their buffers and give the hash of the message so far and the data. *)
Theorem shash_calls_correct {S} (alg : shash_alg S) (H : list Z → list Z) (HH : Hashes alg H) (Hreg : registered alg)
    (s : S) (m : list Z) (data : buf) (len out : Z)
    (Hs : holds s m) (Hd : Forall byte (bytes data)) (Hl : 0 ≤ len ≤ alen (bytes data))
    (Ht : takes_cut m (slice (bytes data) 0 len)) (He : ends (m ++ slice (bytes data) 0 len)) :
  let d := slice (bytes data) 0 len in
  (∃ s1 s', crypto_shash_update alg s data len = Some (0, s1) ∧ holds s1 (m ++ d) ∧
     crypto_shash_final alg s1 out = Some (0, s', H (m ++ d)) ∧ context s') ∧
  (∃ s', crypto_shash_finup alg s data len out = Some (0, s', H (m ++ d)) ∧ context s') ∧
  (m = [] → ∀ s0, context s0 → ∃ s', crypto_shash_digest alg s0 data len out = Some (0, s', H d) ∧ context s').
Proof.
  intros d. ands.
  - destruct (update_call Hreg s m data len Hs Hd Hl Ht) as (s1 & E1 & Hs1). destruct (final_call s1 _ out Hs1 He) as (s' & E2 & Hc). by exists s1, s'.
  - by apply finup_call.
  - intros -> s0 Hs0. by apply (digest_call Hreg).
Qed.

(** ** The tables *)

(** The operations return zero; the functions that take a context and give a digest. *)
Definition ok {A} (r : option A) : option (Z * A) := a ← r; Some (0, a).
Definition ok_out {A} (r : option (A * list Z)) : option (Z * A * list Z) := '(a, out) ← r; Some (0, a, out).

(** The sizes of the contexts are those of the structures, with their padding. *)
Definition sha1_alg : shash_alg sha_state :=
  ShashAlg (λ _, Some (0, sha1_init)) (λ s d n, ok (sha1_update s d n)) (λ s, ok_out (sha1_final s)) None None
    (Some (λ s, Some (0, sha1_export s))) (Some (λ s s', Some (0, sha1_import s s'))) 96 20 96 64 0.

Definition sha256_alg : shash_alg sha_state :=
  ShashAlg (λ s, Some (0, sha256_init s)) (λ s d n, ok (sha256_update s d n)) (λ s, ok_out (sha256_final s)) None None
    (Some (λ s, Some (0, s))) (Some (λ _ s', Some (0, s'))) 104 32 104 64 0.

Definition sha224_alg : shash_alg sha_state :=
  ShashAlg (λ s, Some (0, sha224_init s)) (λ s d n, ok (sha256_update s d n)) (λ s, ok_out (sha224_final s)) None None
    None None 104 28 0 64 0.

Definition sha512_alg : shash_alg sha512_state :=
  ShashAlg (λ s, Some (0, sha512_init s)) (λ s d n, ok (sha512_update s d n)) (λ s, ok_out (sha512_final s)) None None
    None None 208 64 0 128 0.

Definition sha384_alg : shash_alg sha512_state :=
  ShashAlg (λ s, Some (0, sha384_init s)) (λ s d n, ok (sha512_update s d n)) (λ s, ok_out (sha384_final s)) None None
    None None 208 48 0 128 0.

Definition md5_alg : shash_alg md_ctx :=
  ShashAlg (λ s, Some (0, md5_init s)) (λ s d n, ok (md5_update s d n)) (λ s, ok_out (md5_final s)) None None
    (Some (λ s, Some (0, md5_export s))) (Some (λ s s', Some (0, md5_import s s'))) 88 16 88 64 0.

Definition md4_alg : shash_alg md_ctx :=
  ShashAlg (λ s, Some (0, md4_init s)) (λ s d n, ok (md4_update s d n)) (λ s, ok_out (md4_final s)) None None
    None None 88 16 0 64 0.

(** ** Registration *)

Section Prepare.
Context {S : Type} (alg : shash_alg S).
Hypothesis Hfinup : finup alg = None.
Hypothesis Hdigest : digest alg = None.
Hypothesis Hexport : (export alg = None) ∨ (export alg = Some (λ s, Some (0, s)) ∧ import alg = Some (λ _ s, Some (0, s))).
Hypothesis Hsize : digestsize alg ≤ 512 ∧ descsize alg ≤ 512 ∧ statesize alg ≤ 512.
Hypothesis Hmask : 0 ≤ alignmask alg.

Lemma prepare_ok : (shash_prepare_alg alg).1 = 0 ∧ registered (shash_prepare_alg alg).2.
Proof.
  unfold shash_prepare_alg. change shash_limit with 512.
  destruct (Z.gtb_spec (digestsize alg) 512), (Z.gtb_spec (descsize alg) 512), (Z.gtb_spec (statesize alg) 512); try lia. cbn [orb].
  rewrite Hfinup. cbn [or_default]. cbv zeta. cbn [digest with_finup]. rewrite Hdigest. cbn [or_default export with_digest with_finup].
  destruct Hexport as [E|[E1 E2]]; [rewrite E|rewrite E1]; split; try reflexivity; split; try (intros; reflexivity); try exact Hmask.
  - intros s. unfold crypto_shash_export. cbn [snd export with_digest with_finup]. by rewrite E1.
  - intros s s'. unfold crypto_shash_import. cbn [snd import with_digest with_finup]. by rewrite E2.
Qed.

(** Registration keeps the promises. *)
Definition prepare_hashes (H : list Z → list Z) (HH : Hashes alg H) : Hashes (shash_prepare_alg alg).2 H.
Proof.
  refine {| context := context (Hashes := HH); holds := holds (Hashes := HH); takes := takes (Hashes := HH); ends := ends (Hashes := HH);
    holds_context := holds_context (Hashes := HH); holds_bytes := holds_bytes (Hashes := HH) |};
  unfold shash_prepare_alg; case_match; try apply HH; cbv zeta; case_match; apply HH.
Defined.
End Prepare.

(** ** SHA-1 and SHA-256 *)

Lemma words_bytes n st : 0 ≤ n → Forall byte (concat (map (be_bytes n) st)) ∧ alen (concat (map (be_bytes n) st)) = n * alen st.
Proof.
  intros Hn. induction st as [|x st [IH1 IH2]]; [cbn [map concat]; change (alen []) with 0; split; [constructor|lia]|]. cbn [map concat].
  destruct (be_bytes_ok n x Hn) as [Hl Hb]. split; [by apply Forall_app|]. rewrite alen_app, alen_cons, IH2, Hl. lia.
Qed.

Lemma sha_final_wipes transform s w d : sha_final transform s = Some (w, d) → sha_context w.
Proof.
  unfold sha_final. intros E. destruct (sha_update _ _ _ _) as [s1|]; [|done]. rewrite Some_bind in E. destruct (sha_update _ s1 _ _) as [s2|]; [|done].
  rewrite Some_bind in E. apply (f_equal (option_map fst)) in E. cbn [option_map fst] in E.
  assert (Hw : w = ShaState 0 (replicate (length (state s2)) 0) (replicate 64 0)) by congruence. rewrite Hw. split; [done|]. apply (Forall_replicate byte 64 0). by unfold urange.
Qed.

Section Sha.
Context {f : list Z → list Z → list Z} {good : list Z → Prop} {transform : list Z → list Z → Z → option (list Z)}.
Context `{HT : !Compresses 64 f good transform}.
Context (iv : list Z) (n : Z).
Hypothesis Hiv : good iv.
Hypothesis Hgood : ∀ st, good st → alen st = n ∧ Forall (urange 32) st.

Definition sha_fun (m : list Z) : list Z := concat (map (be_bytes 4) (iterate 64 f iv (sha_pad 64 8 m))).
Definition sha_has (s : sha_state) (m : list Z) : Prop := sha_holds (f := f) (good := good) iv s m ∧ Forall byte m.

Lemma sha_has_context s m : sha_has s m → sha_context s.
Proof. intros [(_ & Hb & _ & Ht) _]. split; [|done]. by apply (taken_length 64 f iv) in Ht as [? _]. Qed.

Lemma sha_start buf : alen buf = 64 → Forall byte buf → sha_has (ShaState 0 iv buf) [].
Proof. intros Hl Hb. split; [|constructor]. split; [done|]. split; [done|]. split; [done|]. by apply taken_nil. Qed.

Lemma sha_next s m data len :
  sha_has s m → Forall byte data → 0 ≤ len ≤ alen data → alen (slice data 0 len) ≤ 2 ^ 32 - 64 →
  ∃ s', ok (sha_update transform s data len) = Some (0, s') ∧ sha_has s' (m ++ slice data 0 len).
Proof.
  intros [Hs Hm] Hd Hl Ht. rewrite alen_slice in Ht by lia. destruct (sha_update_ok iv m data len Hd Hl Ht s Hs) as (s' & E & Hs').
  exists s'. unfold ok. rewrite E. split; [done|]. split; [done|]. apply Forall_app. split; [done|]. by apply Forall_take, Forall_drop.
Qed.

Lemma sha_fun_bytes m : Forall byte m → Forall byte (sha_fun m) ∧ alen (sha_fun m) = 4 * n.
Proof.
  intros Hm. destruct (sha_pad_ok 64 8 m ltac:(lia) Hm) as [Hpb Hpm].
  destruct (Hgood _ (iterate_good iv 64 (sha_pad 64 8 m) HT ltac:(lia) Hiv Hpb Hpm)) as [Hl _].
  destruct (words_bytes 4 (iterate 64 f iv (sha_pad 64 8 m)) ltac:(lia)) as [Hb Hlen]. split; [done|]. unfold sha_fun. by rewrite Hlen, Hl.
Qed.

Lemma sha_stop s m : sha_has s m → alen m < 2 ^ 61 → ∃ s', sha_final transform s = Some (s', sha_fun m) ∧ sha_context s'.
Proof.
  intros [Hs Hm] Hl. destruct (sha_final_ok iv s m Hs Hl) as (w & E). pose proof (sha_final_wipes _ _ _ _ E) as Hw. rewrite E. exists w. split; [|done].
  unfold sha_fun. rewrite digest_words; [reflexivity|]. destruct (sha_pad_ok 64 8 m ltac:(lia) Hm) as [Hpb Hpm].
  by apply Hgood, (iterate_good iv 64 (sha_pad 64 8 m) HT).
Qed.
End Sha.

(** The messages that the frames take. *)
Definition sha_takes (m d : list Z) : Prop := alen d ≤ 2 ^ 32 - 64.
Definition sha_ends (m : list Z) : Prop := alen m < 2 ^ 61.

Lemma take_bytes k l : Forall byte l → (k ≤ length l)%nat → Forall byte (take k l) ∧ alen (take k l) = Z.of_nat k.
Proof. intros. split; [by apply Forall_take|]. unfold alen. rewrite length_take. lia. Qed.

Lemma sha1_good_iv : sha1_good sha1_iv.
Proof. split; [done|by repeat constructor]. Qed.
Lemma sha256_good_iv : sha2_good 32 sha256_iv ∧ sha2_good 32 sha224_iv.
Proof. split; apply iv_good; vm_compute; reflexivity. Qed.

#[local] Opaque sha256_iv sha224_iv sha512_iv sha384_iv sha256_consts sha512_consts.

#[export] Instance sha1_hashes : Hashes sha1_alg sha1.
Proof.
  refine {| context := sha_context; holds := sha_has (f := sha1_compress) (good := sha1_good) sha1_iv; takes := sha_takes; ends := sha_ends;
    holds_context := sha_has_context sha1_iv; holds_bytes := λ s m H, proj2 H |}.
  - intros s _. eexists. split; [reflexivity|]. apply sha_start; [exact sha1_good_iv|done|by apply Forall_replicate].
  - intros s m data len Hs Hd Hl Ht. by apply sha_next.
  - intros s m Hs He. destruct (sha_stop sha1_iv 5 sha1_good_iv ltac:(by intros st []) s m Hs He) as (s' & E & Hc).
    exists s'. split; [|done]. cbn [final sha1_alg]. unfold ok_out, sha1_final. by rewrite E.
  - intros m Hm. exact (sha_fun_bytes sha1_iv 5 sha1_good_iv ltac:(by intros st []) m Hm).
Defined.

Lemma sha256_inits s : sha256_init s = ShaState 0 sha256_iv (buffer s) ∧ sha224_init s = ShaState 0 sha224_iv (buffer s).
Proof. destruct (sha256_ivs s) as [<- <-]. done. Qed.

(** SHA-256 and its truncation. *)
Lemma sha256_parts (iv : list Z) :
  sha2_good 32 iv →
  (∀ s m data len, sha_has (f := sha256_compress) (good := sha2_good 32) iv s m → Forall byte data → 0 ≤ len ≤ alen data → sha_takes m (slice data 0 len) →
     ∃ s', ok (sha256_update s data len) = Some (0, s') ∧ sha_has (f := sha256_compress) (good := sha2_good 32) iv s' (m ++ slice data 0 len)) ∧
  (∀ s m, sha_has (f := sha256_compress) (good := sha2_good 32) iv s m → sha_ends m →
     ∃ s', sha256_final s = Some (s', sha_fun (f := sha256_compress) iv m) ∧ sha_context s') ∧
  (∀ m, Forall byte m → Forall byte (sha_fun (f := sha256_compress) iv m) ∧ alen (sha_fun (f := sha256_compress) iv m) = 4 * 8).
Proof.
  intros Hiv. ands.
  - intros s m data len Hs Hd Hl Ht. by apply sha_next.
  - intros s m Hs He. by apply (sha_stop iv 8).
  - intros m Hm. by apply (sha_fun_bytes iv 8).
Qed.

#[export] Instance sha256_hashes : Hashes sha256_alg sha256.
Proof.
  refine {| context := sha_context; holds := sha_has (f := sha256_compress) (good := sha2_good 32) sha256_iv; takes := sha_takes; ends := sha_ends;
    holds_context := sha_has_context sha256_iv; holds_bytes := λ s m H, proj2 H |}.
  - intros s [Hl Hb]. exists (sha256_init s). split; [reflexivity|]. rewrite (proj1 (sha256_inits s)). apply sha_start; [exact (proj1 sha256_good_iv)|exact Hl|exact Hb].
  - exact (proj1 (sha256_parts sha256_iv (proj1 sha256_good_iv))).
  - intros s m Hs He. destruct (proj1 (proj2 (sha256_parts sha256_iv (proj1 sha256_good_iv))) s m Hs He) as (s' & E & Hc).
    exists s'. split; [|exact Hc]. cbn [final sha256_alg]. unfold ok_out. rewrite E. reflexivity.
  - exact (proj2 (proj2 (sha256_parts sha256_iv (proj1 sha256_good_iv)))).
Defined.

#[export] Instance sha224_hashes : Hashes sha224_alg sha224.
Proof.
  refine {| context := sha_context; holds := sha_has (f := sha256_compress) (good := sha2_good 32) sha224_iv; takes := sha_takes; ends := sha_ends;
    holds_context := sha_has_context sha224_iv; holds_bytes := λ s m H, proj2 H |}.
  - intros s [Hl Hb]. exists (sha224_init s). split; [reflexivity|]. rewrite (proj2 (sha256_inits s)). apply sha_start; [exact (proj2 sha256_good_iv)|exact Hl|exact Hb].
  - exact (proj1 (sha256_parts sha224_iv (proj2 sha256_good_iv))).
  - intros s m Hs He. destruct (proj1 (proj2 (sha256_parts sha224_iv (proj2 sha256_good_iv))) s m Hs He) as (s' & E & Hc).
    exists s'. split; [|exact Hc]. cbn [final sha224_alg]. unfold ok_out, sha224_final. rewrite E. reflexivity.
  - intros m Hm. destruct (proj2 (proj2 (sha256_parts sha224_iv (proj2 sha256_good_iv))) m Hm) as [Hb Hl].
    apply (take_bytes 28 (sha_fun (f := sha256_compress) sha224_iv m)); [exact Hb|]. unfold alen in Hl. lia.
Defined.

(** ** SHA-512 *)

Lemma sha512_final_wipes s w d : sha512_final s = Some (w, d) → sha512_context w.
Proof.
  unfold sha512_final. intros E. destruct (sha512_update _ _ _) as [s1|]; [|done]. rewrite Some_bind in E. destruct (sha512_update s1 _ _) as [s2|]; [|done].
  rewrite Some_bind in E. apply (f_equal (option_map fst)) in E. cbn [option_map fst] in E.
  assert (Hw : w = Sha512State 0 0 (replicate 8 0) (replicate 128 0)) by congruence. rewrite Hw. split; [done|]. apply (Forall_replicate byte 128 0). by unfold urange.
Qed.

(** An update with no data may not be the first one. *)
Definition sha512_takes (m d : list Z) : Prop := alen d ≤ 2 ^ 32 - 128 ∧ 0 < alen m + alen d < 2 ^ 64.
Definition sha512_ends (m : list Z) : Prop := alen m < 2 ^ 63.

Section Sha512.
Context (iv : list Z).
Hypothesis Hiv : sha2_good 64 iv.

Definition sha512_fun (m : list Z) : list Z := concat (map (be_bytes 8) (iterate 128 sha512_compress iv (sha_pad 128 16 m))).
Definition sha512_has (s : sha512_state) (m : list Z) : Prop := sha512_holds iv s m ∧ Forall byte m.

Lemma sha512_has_context s m : sha512_has s m → sha512_context s.
Proof. intros [(_ & _ & Hb & _ & Ht) _]. split; [|done]. by apply (taken_length 128 sha512_compress iv) in Ht as [? _]. Qed.

Lemma sha512_start buf : alen buf = 128 → Forall byte buf → sha512_has (Sha512State 0 0 iv buf) [].
Proof. intros Hl Hb. split; [|constructor]. split; [done|]. split; [done|]. split; [done|]. split; [done|]. by apply taken_nil. Qed.

Lemma sha512_next s m data len :
  sha512_has s m → Forall byte data → 0 ≤ len ≤ alen data → sha512_takes m (slice data 0 len) →
  ∃ s', ok (sha512_update s data len) = Some (0, s') ∧ sha512_has s' (m ++ slice data 0 len).
Proof.
  intros [Hs Hm] Hd Hl [Ht1 Ht2]. rewrite alen_slice in Ht1, Ht2 by lia. destruct (sha512_update_ok iv m data len Hd Hl Ht1 s Hs Ht2) as (s' & E & Hs').
  exists s'. unfold ok. rewrite E. split; [reflexivity|]. split; [exact Hs'|]. apply Forall_app. split; [done|]. by apply Forall_take, Forall_drop.
Qed.

Lemma sha512_fun_bytes m : Forall byte m → Forall byte (sha512_fun m) ∧ alen (sha512_fun m) = 64.
Proof.
  intros Hm. destruct (sha_pad_ok 128 16 m ltac:(lia) Hm) as [Hpb Hpm].
  destruct (iterate_good (good := sha2_good 64) iv 128 (sha_pad 128 16 m) sha512_compresses ltac:(lia) Hiv Hpb Hpm) as [Hl _].
  destruct (words_bytes 8 (iterate 128 sha512_compress iv (sha_pad 128 16 m)) ltac:(lia)) as [Hb Hlen]. split; [exact Hb|]. unfold sha512_fun. by rewrite Hlen, Hl.
Qed.

Lemma sha512_stop s m : sha512_has s m → sha512_ends m → ∃ s', sha512_final s = Some (s', sha512_fun m) ∧ sha512_context s'.
Proof.
  intros [Hs Hm] Hl. destruct (sha512_final_ok iv s m Hiv Hm Hs Hl) as (w & E). pose proof (sha512_final_wipes _ _ _ E) as Hw. exists w. split; [exact E|exact Hw].
Qed.
End Sha512.

Lemma sha512_good_iv : sha2_good 64 sha512_iv ∧ sha2_good 64 sha384_iv.
Proof. split; apply iv_good; vm_compute; reflexivity. Qed.

Lemma sha512_inits s : sha512_init s = Sha512State 0 0 sha512_iv (buf512 s) ∧ sha384_init s = Sha512State 0 0 sha384_iv (buf512 s).
Proof. destruct (sha512_ivs s) as [<- <-]. done. Qed.

#[export] Instance sha512_hashes : Hashes sha512_alg sha512.
Proof.
  refine {| context := sha512_context; holds := sha512_has sha512_iv; takes := sha512_takes; ends := sha512_ends;
    holds_context := sha512_has_context sha512_iv; holds_bytes := λ s m H, proj2 H |}.
  - intros s [Hl Hb]. exists (sha512_init s). split; [reflexivity|]. rewrite (proj1 (sha512_inits s)). apply sha512_start; [exact (proj1 sha512_good_iv)|exact Hl|exact Hb].
  - intros s m data len. apply sha512_next.
  - intros s m Hs He. destruct (sha512_stop sha512_iv (proj1 sha512_good_iv) s m Hs He) as (s' & E & Hc).
    exists s'. split; [|exact Hc]. cbn [final sha512_alg]. unfold ok_out. rewrite E. reflexivity.
  - exact (sha512_fun_bytes sha512_iv (proj1 sha512_good_iv)).
Defined.

#[export] Instance sha384_hashes : Hashes sha384_alg sha384.
Proof.
  refine {| context := sha512_context; holds := sha512_has sha384_iv; takes := sha512_takes; ends := sha512_ends;
    holds_context := sha512_has_context sha384_iv; holds_bytes := λ s m H, proj2 H |}.
  - intros s [Hl Hb]. exists (sha384_init s). split; [reflexivity|]. rewrite (proj2 (sha512_inits s)). apply sha512_start; [exact (proj2 sha512_good_iv)|exact Hl|exact Hb].
  - intros s m data len. apply sha512_next.
  - intros s m Hs He. destruct (sha512_stop sha384_iv (proj2 sha512_good_iv) s m Hs He) as (s' & E & Hc).
    exists s'. split; [|exact Hc]. cbn [final sha384_alg]. unfold ok_out, sha384_final. rewrite E. reflexivity.
  - intros m Hm. destruct (sha512_fun_bytes sha384_iv (proj2 sha512_good_iv) m Hm) as [Hb Hl].
    apply (take_bytes 48 (sha512_fun sha384_iv m)); [exact Hb|]. unfold alen in Hl. lia.
Defined.

(** ** MD5 and MD4 *)

Section Md.
Context (transform : list Z → list Z → option (list Z)) (add : bool) (ops : list md_op).
Context `{HT : !Compresses 64 (λ st b, md_compress add ops st (le_words b)) md_good (md_helper transform)}.

Abbreviation f := (λ st b, md_compress add ops st (le_words b)).

Definition md_has (s : md_ctx) (m : list Z) : Prop := md_holds (f := f) (good := md_good) md_iv s m ∧ Forall byte m.

Lemma md_has_context s m : md_has s m → md_context s.
Proof. intros [(_ & Hb & _ & Ht) _]. split; [|done]. by apply (taken_length 64 f md_iv) in Ht as [? _]. Qed.

Lemma md_good_iv : md_good md_iv.
Proof. split; [done|]. repeat (constructor; [by unfold urange|]). constructor. Qed.

Lemma md_digest_bytes m : Forall byte m → Forall byte (md_digest add ops m) ∧ alen (md_digest add ops m) = 16.
Proof.
  intros Hm. destruct (md_pad_ok _ Hm) as [Hpb Hpm]. destruct (iterate_good md_iv 64 (md_pad m) HT ltac:(lia) md_good_iv Hpb Hpm) as [Hl _].
  unfold md_digest. destruct (alen_4 _ Hl) as (a & b & c & d & ->). cbn [map concat]. split; [|reflexivity].
  rewrite !Forall_app. ands; try exact (List.Forall_nil _); apply Forall_fmap, Forall_true; intros i; apply Z.mod_pos_bound; lia.
Qed.

Lemma md_start s : md_context s → md_has (md_init s) [].
Proof. intros [Hl Hb]. split; [|constructor]. split; [done|]. split; [done|]. split; [apply md_good_iv|]. by apply taken_nil. Qed.

Lemma md_continue s m data len :
  md_has s m → Forall byte data → 0 ≤ len ≤ alen data → ∃ s', ok (md_update transform s data len) = Some (0, s') ∧ md_has s' (m ++ slice data 0 len).
Proof.
  intros [Hs Hm] Hd Hl. destruct (md_update_ok md_iv m data len Hd Hl s Hs) as (s' & E & Hs').
  exists s'. unfold ok. rewrite E. split; [reflexivity|]. split; [exact Hs'|]. apply Forall_app. split; [done|]. by apply Forall_take, Forall_drop.
Qed.

Lemma md_stop s m : md_has s m → ∃ s', md_final transform s = Some (s', md_digest add ops m) ∧ md_context s'.
Proof.
  intros [Hs Hm]. destruct (md_final_ok md_iv s m Hs Hm) as (w & E & Hw). exists w. rewrite E. split; [|exact Hw]. unfold md_digest. do 3 f_equal.
  destruct (md_pad_ok _ Hm) as [Hpb Hpm]. destruct (iterate_good md_iv 64 (md_pad m) HT ltac:(lia) md_good_iv Hpb Hpm) as [_ HF].
  clear -HF. induction HF as [|x l Hx HF IH]; [reflexivity|]. cbn [map]. by rewrite le32_le_bytes, IH.
Qed.
End Md.

(** MD5 and MD4 take any data of 32-bit length and any message. *)
Definition md_takes (m d : list Z) : Prop := alen d < 2 ^ 32.

#[export] Instance md5_hashes : Hashes md5_alg md5.
Proof.
  refine {| context := md_context; holds := md_has true md5_ops; takes := md_takes; ends := λ _, True;
    holds_context := md_has_context true md5_ops; holds_bytes := λ s m H, proj2 H |}.
  - intros s Hs. eexists. split; [reflexivity|]. by apply md_start.
  - intros s m data len Hs Hd Hl _. apply (md_continue md5_transform); [exact _|exact Hs|exact Hd|exact Hl].
  - intros s m Hs _. destruct (md_stop md5_transform true md5_ops s m Hs) as (s' & E & Hc).
    exists s'. split; [|exact Hc]. cbn [final md5_alg]. unfold ok_out, md5_final. rewrite E. reflexivity.
  - exact (md_digest_bytes md5_transform true md5_ops).
Defined.

#[export] Instance md4_hashes : Hashes md4_alg md4.
Proof.
  refine {| context := md_context; holds := md_has false md4_ops; takes := md_takes; ends := λ _, True;
    holds_context := md_has_context false md4_ops; holds_bytes := λ s m H, proj2 H |}.
  - intros s Hs. eexists. split; [reflexivity|]. by apply md_start.
  - intros s m data len Hs Hd Hl _. apply (md_continue md4_transform); [exact _|exact Hs|exact Hd|exact Hl].
  - intros s m Hs _. destruct (md_stop md4_transform false md4_ops s m Hs) as (s' & E & Hc).
    exists s'. split; [|exact Hc]. cbn [final md4_alg]. unfold ok_out, md4_final. rewrite E. reflexivity.
  - exact (md_digest_bytes md4_transform false md4_ops).
Defined.
