(* ===== verification/Hmac.v ===== *)
(** * Keyed hashes

    Models the HMAC template of [crypto/hmac.c] on top of the hash layer.  The context of a
    transform has two regions of [statesize] bytes that hold, in turn, the padded key and the
    exported state of the hash; the request holds the context of the hash. *)

From S2P Require Import Prelude Words Hash Strings Shash.
#[local] Open Scope Z_scope.
#[local] Open Scope kernel_scope.

(** A region of memory with bytes or with the exported state of a hash. *)
Inductive region (S : Type) := Raw (l : list Z) | Exported (s : S).
Arguments Raw {S} l.
Arguments Exported {S} s.

Record hmac_tfm (S : Type) := HmacTfm { ipad : region S; opad : region S }.
Arguments HmacTfm {S} ipad opad.
Arguments ipad {S} h.
Arguments opad {S} h.

Section Hmac.
Context {S : Type} (alg : shash_alg S).
(** The bytes of a context in memory. *)
Context (image : S → list Z).

Definition region_bytes (r : region S) : list Z := match r with Raw l => l | Exported s => image s end.

(** What [hmac_create] asks of the hash. *)
Definition hmac_create_check : Z :=
  if (digestsize alg >? blocksize alg) || (statesize alg <? blocksize alg) then - EINVAL else 0.

(** [ipad[i] ^= c] for [i < bs]. *)
Definition xor_pad (c bs : Z) (l : list Z) : option (list Z) := for_up 0 bs (λ i l, x ← l.[i]; l.[i <- Z.lxor x c]) l.

(** [init], [update] and [export] of one of the pads, which ends in the region of the pad; the
    error code, the region and the request. *)
Definition hmac_pad_state (desc : S) (a : Z) (pad : list Z) (bs : Z) : option (Z * region S * S) :=
  '(err, desc) ← crypto_shash_init alg desc;
  if ctrue err then Some (err, Raw pad, desc) else
  '(err, desc) ← crypto_shash_update alg desc (Buf a pad) bs;
  if ctrue err then Some (err, Raw pad, desc) else
  '(err, st) ← crypto_shash_export alg desc;
  Some (err, Exported st, desc).

(** [desc] is the request on the stack, [pi] and [po] are the addresses of the pads. *)
Definition hmac_setkey (tfm : hmac_tfm S) (desc : S) (pi po : Z) (inkey : buf) (keylen : Z) : option (Z * hmac_tfm S) :=
  let bs := blocksize alg in
  let ds := digestsize alg in
  let l0 := region_bytes (ipad tfm) in
  '(err, l, keylen, desc) ←
    (if keylen >? bs then
       '(err, desc, out) ← crypto_shash_digest alg desc inkey keylen pi;
       if ctrue err then Some (err, l0, keylen, desc) else
       l ← memcpy l0 0 out 0 ds; Some (0, l, ds, desc)
     else l ← memcpy l0 0 (bytes inkey) 0 keylen; Some (0, l, keylen, desc));
  if ctrue err then Some (err, HmacTfm (Raw l) (opad tfm)) else
  l ← memset l keylen 0 (bs - keylen);
  o ← memcpy (region_bytes (opad tfm)) 0 l 0 bs;
  l ← xor_pad 0x36 bs l;
  o ← xor_pad 0x5c bs o;
  '(err, ri, desc) ← hmac_pad_state desc pi l bs;
  if ctrue err then Some (err, HmacTfm ri (Raw o)) else
  '(err, ro, _) ← hmac_pad_state desc po o bs;
  Some (err, HmacTfm ri ro).

(** A region that an operation imports must hold an exported state. *)
Definition imported (r : region S) : option S := match r with Exported s => Some s | Raw _ => None end.

Definition hmac_export (pdesc : S) : option (Z * S) := crypto_shash_export alg pdesc.
Definition hmac_import (pdesc from : S) : option (Z * S) := crypto_shash_import alg pdesc from.
Definition hmac_init (tfm : hmac_tfm S) (pdesc : S) : option (Z * S) := s ← imported (ipad tfm); hmac_import pdesc s.
Definition hmac_update (pdesc : S) (data : buf) (nbytes : Z) : option (Z * S) := crypto_shash_update alg pdesc data nbytes.

(** The digest in [out] is the data of the outer hash. *)
Definition hmac_outer (tfm : hmac_tfm S) (desc : S) (inner : list Z) (out : Z) : option (Z * S * list Z) :=
  s ← imported (opad tfm);
  '(err, desc) ← crypto_shash_import alg desc s;
  if ctrue err then Some (err, desc, inner) else
  crypto_shash_finup alg desc (Buf out inner) (digestsize alg) out.

Definition hmac_final (tfm : hmac_tfm S) (pdesc : S) (out : Z) : option (Z * S * list Z) :=
  '(err, desc, inner) ← crypto_shash_final alg pdesc out;
  if ctrue err then Some (err, desc, inner) else hmac_outer tfm desc inner out.

Definition hmac_finup (tfm : hmac_tfm S) (pdesc : S) (data : buf) (nbytes out : Z) : option (Z * S * list Z) :=
  '(err, desc, inner) ← crypto_shash_finup alg pdesc data nbytes out;
  if ctrue err then Some (err, desc, inner) else hmac_outer tfm desc inner out.
End Hmac.
