(* ===== verification/HmacFacts.v ===== *)
(** * HMAC is that of RFC 2104

    For every hash that keeps its promises the template computes the keyed hash of the RFC;
    registration and the algorithms give the instances. *)

From S2P Require Import Prelude Words Cipher Hash Sha ShaSpec ShaFacts Sha2Facts Md MdSpec MdFrame Strings Shash ShashFacts Hmac.
#[local] Open Scope Z_scope.
#[local] Open Scope kernel_scope.

(** ** The specification *)

Section Spec.
Context (H : list Z → list Z) (B : Z).

(** The key as a block: hashed when it is longer, and filled with zeros. *)
Definition hmac_block (key : list Z) : list Z :=
  let k := if alen key >? B then H key else key in k ++ replicate (Z.to_nat (B - alen k)) 0.

Definition xor_with (c : Z) (l : list Z) : list Z := map (λ x, Z.lxor x c) l.

Definition hmac (key m : list Z) : list Z :=
  H (xor_with 0x5c (hmac_block key) ++ H (xor_with 0x36 (hmac_block key) ++ m)).
End Spec.

Lemma hmac_block_ok H B key :
  Forall byte key → Forall byte (H key) → alen (H key) ≤ B → Forall byte (hmac_block H B key) ∧ alen (hmac_block H B key) = B.
Proof.
  intros Hk HHb HHl. unfold hmac_block. cbv zeta. set (k := if alen key >? B then H key else key).
  assert (Hkl : Forall byte k ∧ alen k ≤ B) by (subst k; destruct (Z.gtb_spec (alen key) B); split; done || lia). destruct Hkl as [Hkb Hkl].
  split; [apply Forall_app; split; [done|by apply Forall_replicate]|].
  rewrite alen_app. assert (Hr : alen (replicate (Z.to_nat (B - alen k)) 0) = B - alen k) by (unfold alen in *; rewrite length_replicate; lia). lia.
Qed.

(** ** The pads *)

Lemma xor_with_ok c l : byte c → Forall byte l → Forall byte (xor_with c l) ∧ alen (xor_with c l) = alen l.
Proof.
  intros Hc Hl. split; [|unfold alen, xor_with; by rewrite length_map]. unfold xor_with.
  induction Hl as [|x l Hx Hl IH]; [constructor|]. constructor; [by apply urange_lxor|done].
Qed.

Lemma xor_pad_ok c bs l : 0 ≤ bs ≤ alen l → xor_pad c bs l = Some (xor_with c (slice l 0 bs) ++ drop (Z.to_nat bs) l).
Proof.
  intros Hbs. unfold xor_pad.
  destruct (for_up_rule (λ i l', l' = xor_with c (slice l 0 i) ++ drop (Z.to_nat i) l) 0 bs (λ i l, x ← l.[i]; l.[i <- Z.lxor x c]) l)
    as (l' & -> & ->); [lia|done| |done].
  intros i l' Hi ->. destruct (arr_get_lt l i) as [x Hx]; [lia|].
  assert (Hp : alen (xor_with c (slice l 0 i)) = i) by (unfold alen, xor_with; rewrite length_map; fold (alen (slice l 0 i)); apply alen_slice; lia).
  assert (Hdrop : drop (Z.to_nat i) l = x :: drop (Z.to_nat (i + 1)) l).
  { unfold arr_get in Hx. destruct (Z.leb_spec 0 i); [|lia]. rewrite (drop_S _ _ _ Hx). do 2 f_equal. lia. }
  rewrite Hdrop. eexists. unfold arr_get, arr_set. destruct (Z.leb_spec 0 i); [|lia].
  replace (Z.to_nat i) with (length (xor_with c (slice l 0 i)) + 0)%nat by (unfold alen in Hp; lia).
  rewrite lookup_app_r, Nat.add_sub_swap, Nat.sub_diag by lia. cbn [lookup list_lookup plus]. rewrite Some_bind.
  rewrite length_app. cbn [length]. destruct (Z.ltb_spec i (Z.of_nat (length (xor_with c (slice l 0 i)) + S (length (drop (Z.to_nat (i + 1)) l))))); [|unfold alen in Hp; lia].
  cbn [andb]. split; [reflexivity|]. rewrite insert_app_r. cbn [insert list_insert]. rewrite slice_app by lia.
  unfold xor_with. rewrite map_app, <- app_assoc. f_equal. rewrite Z.add_0_l. assert (E : slice l i 1 = [x]); [|by rewrite E].
  rewrite (slice_cons _ _ _ _ Hx) by lia. by rewrite slice_nil.
Qed.

(** ** The template *)

Section Template.
Context {S : Type} {alg : shash_alg S} {H : list Z → list Z} `{HH : !Hashes alg H}.
Context (image : S → list Z).
Hypothesis Hreg : registered alg.

Abbreviation bs := (blocksize alg).
Abbreviation ds := (digestsize alg).

(** The regions are at least a block long. *)
Definition region_ok (r : region S) : Prop := bs ≤ alen (region_bytes image r) ∧ Forall byte (region_bytes image r).

Lemma pad_state_ok desc a pad :
  context desc → Forall byte pad → 0 ≤ bs ≤ alen pad → takes_cut [] (slice pad 0 bs) →
  ∃ st, hmac_pad_state alg desc a pad bs = Some (0, Exported st, st) ∧ holds st (slice pad 0 bs).
Proof.
  intros Hc Hp Hl Ht. unfold hmac_pad_state, crypto_shash_init. destruct (hash_init desc Hc) as (s1 & -> & Hs1). rewrite Some_bind. cbn [ctrue Z.eqb negb].
  destruct (update_call Hreg s1 [] (Buf a pad) bs Hs1 Hp Hl Ht) as (s2 & -> & Hs2). rewrite Some_bind. cbn [ctrue Z.eqb negb].
  rewrite (reg_export alg Hreg), Some_bind. by exists s2.
Qed.

(** The two states behind the padded key. *)
Definition keyed (tfm : hmac_tfm S) (K : list Z) : Prop :=
  ∃ si so, tfm = HmacTfm (Exported si) (Exported so) ∧ holds si (xor_with 0x36 K) ∧ holds so (xor_with 0x5c K).

Section Setkey.
Context (tfm : hmac_tfm S) (desc : S) (pi po : Z) (inkey : buf) (keylen : Z).
Hypothesis Hi : region_ok (ipad tfm).
Hypothesis Ho : region_ok (opad tfm).
Hypothesis Hdesc : context desc.
Hypothesis Hkey : Forall byte (bytes inkey).
Hypothesis Hlen : 0 ≤ keylen ≤ alen (bytes inkey).
Hypothesis Hsize : 0 ≤ ds ≤ bs.
Hypothesis Hlong : keylen > bs → takes_cut [] (slice (bytes inkey) 0 keylen) ∧ ends (slice (bytes inkey) 0 keylen).
Hypothesis Hblock : ∀ b, Forall byte b → alen b = bs → takes_cut [] b.

(** The key or its hash at the start of the pad. *)
Lemma setkey_start :
  let key := slice (bytes inkey) 0 keylen in let l0 := region_bytes image (ipad tfm) in
  let k := if alen key >? bs then H key else key in
  ∃ l desc', (if keylen >? bs then
       '(err, desc, out) ← crypto_shash_digest alg desc inkey keylen pi;
       if ctrue err then Some (err, l0, keylen, desc) else
       l ← memcpy l0 0 out 0 ds; Some (0, l, ds, desc)
     else l ← memcpy l0 0 (bytes inkey) 0 keylen; Some (0, l, keylen, desc)) = Some (0, l, alen k, desc') ∧
    context desc' ∧ alen l = alen l0 ∧ take (Z.to_nat (alen k)) l = k ∧ Forall byte k ∧ alen k ≤ bs ∧ Forall byte l.
Proof.
  intros key l0. destruct Hi as [Hi1 Hi2]. fold l0 in Hi1, Hi2. assert (Hlk : alen key = keylen) by (apply alen_slice; lia). rewrite Hlk.
  assert (Hkb : Forall byte key) by (by apply Forall_take, Forall_drop).
  assert (Hcopy : ∀ src n k, n = alen k → k = slice src 0 n → 0 ≤ n ≤ bs → n ≤ alen src → Forall byte src → ∃ l, memcpy l0 0 src 0 n = Some l ∧
    alen l = alen l0 ∧ take (Z.to_nat (alen k)) l = k ∧ Forall byte l).
  { intros src n k Hn Hk Hb Hs Hsb. rewrite memcpy_ok by lia. eexists. split; [reflexivity|]. rewrite slice_nil, app_nil_l, <- Hk, <- Hn. ands.
    - rewrite alen_app, <- Hn, alen_drop by lia. lia.
    - rewrite Hn. unfold alen. rewrite Nat2Z.id. apply take_app_length.
    - apply Forall_app. split; [rewrite Hk; by apply Forall_take, Forall_drop|by apply Forall_drop]. }
  intros k. destruct (Z.gtb_spec keylen bs) as [Hgt|Hle]; subst k.
  - destruct (Hlong ltac:(lia)) as [Ht He]. destruct (digest_call Hreg desc inkey keylen pi Hdesc Hkey Hlen Ht He) as (desc' & -> & Hc).
    fold key. rewrite Some_bind. cbn [ctrue Z.eqb negb]. destruct (hash_bytes key Hkb) as [HHb HHl].
    destruct (Hcopy (H key) ds (H key)) as (l & -> & Hl1 & Hl2 & Hl3); [done|rewrite <- HHl; by rewrite slice_all|lia|lia|done|]. rewrite Some_bind, HHl in *.
    exists l, desc'. by ands; try lia.
  - destruct (Hcopy (bytes inkey) keylen key) as (l & -> & Hl1 & Hl2 & Hl3); [done|done|lia|lia|done|]. rewrite Some_bind.
    exists l, desc. rewrite Hlk in *. by ands; try lia.
Qed.

Lemma setkey_ok :
  ∃ tfm', hmac_setkey alg image tfm desc pi po inkey keylen = Some (0, tfm') ∧ keyed tfm' (hmac_block H bs (slice (bytes inkey) 0 keylen)).
Proof.
  unfold hmac_setkey. cbv zeta. destruct setkey_start as (l & desc' & -> & Hc & Hl & Hk & Hkb & Hkl & Hlb). rewrite Some_bind. cbn [ctrue Z.eqb negb].
  set (key := slice (bytes inkey) 0 keylen) in *. set (k := if alen key >? bs then H key else key) in *. pose proof (alen_nonneg k).
  destruct Hi as [Hi1 Hi2], Ho as [Ho1 Ho2].
  destruct (memset_prefix l k (alen k) 0 (bs - alen k) bs Hk eq_refl ltac:(lia) ltac:(lia) ltac:(lia)) as (l1 & E1 & Hl1 & Hp1). rewrite E1, Some_bind.
  change (k ++ replicate (Z.to_nat (bs - alen k)) 0) with (hmac_block H bs key) in Hp1. set (K := hmac_block H bs key) in *.
  assert (Hkeyb : Forall byte key) by (by apply Forall_take, Forall_drop). destruct (hash_bytes key Hkeyb) as [HHb HHl].
  destruct (hmac_block_ok H bs key Hkeyb HHb ltac:(lia)) as [HKb HKl]. fold K in HKb, HKl.
  assert (HsK : slice l1 0 bs = K) by (unfold slice; by rewrite drop_0). rewrite memcpy_ok, Some_bind, slice_nil, app_nil_l, HsK by lia.
  rewrite (xor_pad_ok 0x36 bs l1) by lia. rewrite Some_bind, HsK.
  rewrite (xor_pad_ok 0x5c bs) by (rewrite alen_app; pose proof (alen_nonneg (drop (Z.to_nat (0 + bs)) (region_bytes image (opad tfm)))); lia).
  rewrite Some_bind, (app_cut K) by done. rewrite Z.add_0_l.
  destruct (xor_with_ok 0x36 K ltac:(by unfold urange) HKb) as [Hxb Hxl], (xor_with_ok 0x5c K ltac:(by unfold urange) HKb) as [Hyb Hyl].
  destruct (pad_state_ok desc' pi (xor_with 54 K ++ drop (Z.to_nat bs) l1)) as (si & -> & Hsi).
  { exact Hc. } { apply Forall_app. split; [done|]. apply Forall_drop. by eapply memset_bytes. } { rewrite alen_app. pose proof (alen_nonneg (drop (Z.to_nat bs) l1)). lia. }
  { rewrite app_cut by lia. apply Hblock; [done|lia]. }
  rewrite Some_bind. cbn [ctrue Z.eqb negb].
  destruct (pad_state_ok si po (xor_with 92 K ++ drop (Z.to_nat bs) (K ++ drop (Z.to_nat bs) (region_bytes image (opad tfm))))) as (so & -> & Hso).
  { by eapply holds_context. } { apply Forall_app. split; [done|]. apply Forall_drop, Forall_app. split; [done|by apply Forall_drop]. }
  { rewrite alen_app. match goal with |- context [_ + alen ?t] => pose proof (alen_nonneg t) end. lia. }
  { rewrite app_cut by lia. apply Hblock; [done|lia]. }
  rewrite Some_bind. eexists. split; [reflexivity|]. rewrite app_cut in Hsi, Hso by lia. by exists si, so.
Qed.
End Setkey.

(** ** Messages *)

(** Data that may follow each other. *)
Fixpoint takes_seq (m : list Z) (pieces : list buf) : Prop :=
  match pieces with
  | [] => True
  | d :: pieces => Forall byte (bytes d) ∧ takes_cut m (bytes d) ∧ takes_seq (m ++ bytes d) pieces
  end.

Definition contents (pieces : list buf) : list Z := concat (map bytes pieces).

(** A request that takes the data; an error ends it. *)
Fixpoint hmac_updates (pdesc : S) (pieces : list buf) : option (Z * S) :=
  match pieces with
  | [] => Some (0, pdesc)
  | d :: pieces => '(err, pdesc) ← hmac_update alg pdesc d (alen (bytes d)); if ctrue err then Some (err, pdesc) else hmac_updates pdesc pieces
  end.

Definition hmac_start (tfm : hmac_tfm S) (pdesc : S) (pieces : list buf) : option (Z * S) :=
  '(err, pdesc) ← hmac_init alg tfm pdesc; if ctrue err then Some (err, pdesc) else hmac_updates pdesc pieces.

Lemma updates_ok pieces : ∀ s m, holds s m → takes_seq m pieces → ∃ s', hmac_updates s pieces = Some (0, s') ∧ holds s' (m ++ contents pieces).
Proof.
  induction pieces as [|d pieces IH]; intros s m Hs Ht; cbn [hmac_updates contents map concat].
  { exists s. by rewrite app_nil_r. }
  destruct Ht as (Hb & Ht & Hts). pose proof (alen_nonneg (bytes d)). unfold hmac_update.
  destruct (update_call Hreg s m d (alen (bytes d)) Hs Hb) as (s1 & -> & Hs1); [lia|by rewrite slice_all|]. rewrite slice_all in Hs1.
  rewrite Some_bind. cbn [ctrue Z.eqb negb]. rewrite app_assoc. by apply IH.
Qed.

Section Keyed.
Context (tfm : hmac_tfm S) (K : list Z).
Hypothesis Hkeyed : keyed tfm K.
Hypothesis Hdigest : ∀ d, Forall byte d → alen d = ds → takes_cut (xor_with 0x5c K) d ∧ ends (xor_with 0x5c K ++ d).

Lemma start_ok pdesc pieces :
  takes_seq (xor_with 0x36 K) pieces → ∃ s, hmac_start tfm pdesc pieces = Some (0, s) ∧ holds s (xor_with 0x36 K ++ contents pieces).
Proof.
  destruct Hkeyed as (si & so & -> & Hsi & _). intros Ht. unfold hmac_start, hmac_init, hmac_import. cbn [ipad imported]. rewrite Some_bind.
  rewrite (reg_import alg Hreg), Some_bind. cbn [ctrue Z.eqb negb]. by apply updates_ok.
Qed.

Lemma outer_ok desc m out :
  Forall byte m → ∃ s', hmac_outer alg tfm desc (H m) out = Some (0, s', H (xor_with 0x5c K ++ H m)).
Proof.
  intros Hm. destruct Hkeyed as (si & so & -> & _ & Hso). unfold hmac_outer. cbn [opad imported]. rewrite Some_bind.
  rewrite (reg_import alg Hreg), Some_bind. cbn [ctrue Z.eqb negb]. destruct (hash_bytes m Hm) as [Hb Hl], (Hdigest _ Hb Hl) as [Ht He].
  pose proof (alen_nonneg (H m)). assert (Hall : slice (H m) 0 ds = H m) by (rewrite <- Hl; apply slice_all).
  destruct (finup_call Hreg so (xor_with 0x5c K) (Buf out (H m)) ds out Hso Hb) as (s' & E & _); cbn [bytes] in *; rewrite ?Hall; [lia|done|done|].
  exists s'. by rewrite E, Hall.
Qed.

(** With [hmac_final], and with [hmac_finup] for the last piece. *)
Lemma mac_ok pdesc pieces out :
  takes_seq (xor_with 0x36 K) pieces → ends (xor_with 0x36 K ++ contents pieces) →
  ∃ s', ('(err, s) ← hmac_start tfm pdesc pieces; if ctrue err then Some (err, s, []) else hmac_final alg tfm s out) =
    Some (0, s', H (xor_with 0x5c K ++ H (xor_with 0x36 K ++ contents pieces))).
Proof.
  intros Ht He. destruct (start_ok pdesc pieces Ht) as (s & -> & Hs). rewrite Some_bind. cbn [ctrue Z.eqb negb]. unfold hmac_final.
  destruct (final_call s _ out Hs He) as (s1 & -> & _). rewrite Some_bind. cbn [ctrue Z.eqb negb]. apply outer_ok. by eapply holds_bytes.
Qed.

Lemma mac_finup_ok pdesc pieces d out :
  takes_seq (xor_with 0x36 K) (pieces ++ [d]) → ends (xor_with 0x36 K ++ contents (pieces ++ [d])) →
  ∃ s', ('(err, s) ← hmac_start tfm pdesc pieces; if ctrue err then Some (err, s, []) else hmac_finup alg tfm s d (alen (bytes d)) out) =
    Some (0, s', H (xor_with 0x5c K ++ H (xor_with 0x36 K ++ contents (pieces ++ [d])))).
Proof.
  intros Ht He. assert (Hcut : ∀ m, takes_seq m (pieces ++ [d]) → takes_seq m pieces ∧ Forall byte (bytes d) ∧ takes_cut (m ++ contents pieces) (bytes d)).
  { clear. induction pieces as [|p pieces IH]; intros m; cbn [app takes_seq contents map concat].
    - intros (? & ? & _). by rewrite app_nil_r.
    - intros (? & ? & Hts). apply IH in Hts as (? & ? & ?). rewrite app_assoc. by ands. }
  destruct (Hcut _ Ht) as (Hts & Hb & Htc). destruct (start_ok pdesc pieces Hts) as (s & -> & Hs). rewrite Some_bind. cbn [ctrue Z.eqb negb]. unfold hmac_finup.
  assert (Hall : contents (pieces ++ [d]) = contents pieces ++ slice (bytes d) 0 (alen (bytes d))).
  { rewrite slice_all. unfold contents. rewrite map_app, concat_app. cbn. by rewrite app_nil_r. }
  rewrite Hall, app_assoc in *. pose proof (alen_nonneg (bytes d)). pose proof (holds_bytes _ _ Hs) as Hsb.
  destruct (finup_call Hreg s _ d (alen (bytes d)) out Hs Hb ltac:(lia) ltac:(by rewrite slice_all) He) as (s1 & -> & _). rewrite Some_bind. cbn [ctrue Z.eqb negb].
  apply outer_ok. apply Forall_app. split; [done|]. by rewrite slice_all.
Qed.
End Keyed.
End Template.

(** ** Hashes under the template *)

(** A registered hash that the template accepts and that takes a block and a digest behind it. *)
Record hmac_ready {S} (alg : shash_alg S) {H} `{HH : !Hashes alg H} : Prop := {
  ready_registered : registered alg;
  ready_check : hmac_create_check alg = 0;
  ready_size : 0 ≤ digestsize alg;
  ready_block b : Forall byte b → alen b = blocksize alg → takes_cut [] b;
  ready_digest b d : Forall byte b → alen b = blocksize alg → Forall byte d → alen d = digestsize alg → takes_cut b d ∧ ends (b ++ d) }.

Lemma check_sizes {S} (alg : shash_alg S) : hmac_create_check alg = 0 → digestsize alg ≤ blocksize alg ≤ statesize alg.
Proof.
  unfold hmac_create_check. destruct (Z.gtb_spec (digestsize alg) (blocksize alg)), (Z.ltb_spec (statesize alg) (blocksize alg)); cbn [orb]; try lia; by vm_compute.
Qed.

(** C25: HMAC over any hash that keeps the promises of the interface: [hmac_setkey] with any key
    returns zero, whatever the transform held, and after it every request, with any data in any
    pieces at any addresses, ended by [hmac_final] or by [hmac_finup], returns zero and the
    keyed hash of RFC 2104 of the key and the data. *)
Theorem hmac_correct {S} (alg : shash_alg S) (H : list Z → list Z) (HH : Hashes alg H) (image : S → list Z)
    (tfm : hmac_tfm S) (desc : S) (pi po : Z) (inkey : buf) (keylen : Z)
    (Hready : hmac_ready alg) (Hi : region_ok (alg := alg) image (ipad tfm)) (Ho : region_ok (alg := alg) image (opad tfm)) (Hdesc : context desc)
    (Hkey : Forall byte (bytes inkey)) (Hlen : 0 ≤ keylen ≤ alen (bytes inkey))
    (Hlong : keylen > blocksize alg → takes_cut [] (slice (bytes inkey) 0 keylen) ∧ ends (slice (bytes inkey) 0 keylen)) :
  let key := slice (bytes inkey) 0 keylen in
  let inner := xor_with 0x36 (hmac_block H (blocksize alg) key) in
  ∃ tfm', hmac_setkey alg image tfm desc pi po inkey keylen = Some (0, tfm') ∧
    ∀ pdesc pieces out, takes_seq inner pieces → ends (inner ++ contents pieces) →
      (∃ s, ('(err, s) ← hmac_start (alg := alg) tfm' pdesc pieces; if ctrue err then Some (err, s, []) else hmac_final alg tfm' s out) =
        Some (0, s, hmac H (blocksize alg) key (contents pieces))) ∧
      (∀ first last, pieces = first ++ [last] →
        ∃ s, ('(err, s) ← hmac_start (alg := alg) tfm' pdesc first; if ctrue err then Some (err, s, []) else hmac_finup alg tfm' s last (alen (bytes last)) out) =
          Some (0, s, hmac H (blocksize alg) key (contents pieces))).
Proof.
  intros key inner. destruct Hready as [Hreg Hcheck Hds Hblock Hdigest]. pose proof (check_sizes alg Hcheck) as Hsizes.
  destruct (setkey_ok image Hreg tfm desc pi po inkey keylen Hi Ho Hdesc Hkey Hlen ltac:(lia) Hlong Hblock) as (tfm' & E & Hk).
  exists tfm'. split; [exact E|]. intros pdesc pieces out Ht He. fold key in Hk.
  assert (Hd : ∀ d, Forall byte d → alen d = digestsize alg → takes_cut (xor_with 0x5c (hmac_block H (blocksize alg) key)) d ∧ ends (xor_with 0x5c (hmac_block H (blocksize alg) key) ++ d)).
  { intros d Hdb Hdl. assert (HK : Forall byte (hmac_block H (blocksize alg) key) ∧ alen (hmac_block H (blocksize alg) key) = blocksize alg).
    { assert (Hkb : Forall byte key) by (by apply Forall_take, Forall_drop). destruct (hash_bytes key Hkb). apply hmac_block_ok; [done|done|lia]. }
    destruct HK as [HKb HKl], (xor_with_ok 0x5c _ ltac:(by unfold urange) HKb) as [Hxb Hxl]. apply Hdigest; [done|lia|done|done]. }
  split; [by apply (mac_ok Hreg tfm' _ Hk Hd)|]. intros first last ->. by apply (mac_finup_ok Hreg tfm' _ Hk Hd).
Qed.

(** ** The algorithms *)

Lemma slice_parts (d : list Z) k : 0 ≤ k ≤ alen d → alen (slice d 0 k) = k ∧ alen (slice d k (alen d - k)) = alen d - k.
Proof. intros. split; apply alen_slice; lia. Qed.

(** Hashes that only bound the length of the data. *)
Lemma sha_cut m d : alen d ≤ 2 ^ 32 - 64 →
  sha_takes m d ∧ ∀ k, 0 ≤ k → Z.min 1 (alen d) ≤ k ≤ alen d → sha_takes m (slice d 0 k) ∧ sha_takes (m ++ slice d 0 k) (slice d k (alen d - k)).
Proof. intros Hd. split; [done|]. intros k H0 Hk. destruct (slice_parts d k ltac:(lia)) as [H1 H2]. unfold sha_takes. lia. Qed.

Lemma md_cut m d : alen d < 2 ^ 32 →
  md_takes m d ∧ ∀ k, 0 ≤ k → Z.min 1 (alen d) ≤ k ≤ alen d → md_takes m (slice d 0 k) ∧ md_takes (m ++ slice d 0 k) (slice d k (alen d - k)).
Proof. intros Hd. split; [done|]. intros k H0 Hk. destruct (slice_parts d k ltac:(lia)) as [H1 H2]. unfold md_takes. lia. Qed.

Lemma sha512_cut m d : alen d ≤ 2 ^ 32 - 128 → 0 < alen m + alen d < 2 ^ 64 →
  sha512_takes m d ∧ ∀ k, 0 ≤ k → Z.min 1 (alen d) ≤ k ≤ alen d → sha512_takes m (slice d 0 k) ∧ sha512_takes (m ++ slice d 0 k) (slice d k (alen d - k)).
Proof.
  intros Hd Hm. split; [done|]. intros k H0 Hk. destruct (slice_parts d k ltac:(lia)) as [H1 H2]. pose proof (alen_nonneg m).
  unfold sha512_takes. rewrite alen_app, H1, H2. lia.
Qed.

(** The registered algorithms. *)
Definition reg {S} (alg : shash_alg S) : shash_alg S := (shash_prepare_alg alg).2.
#[export] Instance reg_hashes {S} (alg : shash_alg S) H (HH : Hashes alg H) : Hashes (reg alg) H := prepare_hashes alg H HH.

Lemma reg_sizes {S} (alg : shash_alg S) : digestsize (reg alg) = digestsize alg ∧ blocksize (reg alg) = blocksize alg.
Proof. unfold reg, shash_prepare_alg. case_match; [done|]. cbv zeta. case_match; done. Qed.

(** What of it depends on the algorithm. *)
Lemma ready_ok {S} (alg : shash_alg S) H (HH : Hashes alg H) :
  finup alg = None → digest alg = None →
  (export alg = None ∨ (export alg = Some (λ s, Some (0, s)) ∧ import alg = Some (λ _ s, Some (0, s)))) →
  0 ≤ digestsize alg ≤ 512 → descsize alg ≤ 512 → statesize alg ≤ 512 → 0 ≤ alignmask alg → hmac_create_check (reg alg) = 0 →
  (∀ b, alen b = blocksize alg → takes_cut [] b) →
  (∀ b d, alen b = blocksize alg → alen d = digestsize alg → takes_cut b d ∧ ends (b ++ d)) →
  hmac_ready (reg alg) (H := H).
Proof.
  intros Hf Hd He Hs1 Hs2 Hs3 Hm Hc Hb Hbd. destruct (reg_sizes alg) as [E1 E2]. split; rewrite ?E1, ?E2.
  - apply (prepare_ok alg Hf Hd He); [lia|exact Hm].
  - exact Hc.
  - lia.
  - intros b _. exact (Hb b).
  - intros b d _ Hlb _. exact (Hbd b d Hlb).
Qed.

(** Every hash of the tables can be registered and is accepted by the template. *)
Ltac ready := apply ready_ok; [reflexivity|reflexivity|(left; reflexivity) || (right; split; reflexivity)|vm_compute; split; discriminate|
  vm_compute; discriminate|vm_compute; discriminate|vm_compute; discriminate|reflexivity| |].

Lemma sha1_ready : hmac_ready (reg sha1_alg) (H := sha1).
Proof.
  ready; cbn [blocksize digestsize sha1_alg]; [intros b Hb; apply sha_cut; lia|].
  intros b d Hb Hd. split; [apply sha_cut; lia|]. unfold ends, sha1_hashes, sha_ends. rewrite alen_app. lia.
Qed.

Lemma sha256_ready : hmac_ready (reg sha256_alg) (H := sha256).
Proof.
  ready; cbn [blocksize digestsize sha256_alg]; [intros b Hb; apply sha_cut; lia|].
  intros b d Hb Hd. split; [apply sha_cut; lia|]. unfold ends, sha256_hashes, sha_ends. rewrite alen_app. lia.
Qed.

Lemma sha224_ready : hmac_ready (reg sha224_alg) (H := sha224).
Proof.
  ready; cbn [blocksize digestsize sha224_alg]; [intros b Hb; apply sha_cut; lia|].
  intros b d Hb Hd. split; [apply sha_cut; lia|]. unfold ends, sha224_hashes, sha_ends. rewrite alen_app. lia.
Qed.

Lemma sha512_ready : hmac_ready (reg sha512_alg) (H := sha512).
Proof.
  ready; cbn [blocksize digestsize sha512_alg]; [intros b Hb; apply sha512_cut; change (alen []) with 0; lia|].
  intros b d Hb Hd. split; [apply sha512_cut; lia|]. unfold ends, sha512_hashes, sha512_ends. rewrite alen_app. lia.
Qed.

Lemma sha384_ready : hmac_ready (reg sha384_alg) (H := sha384).
Proof.
  ready; cbn [blocksize digestsize sha384_alg]; [intros b Hb; apply sha512_cut; change (alen []) with 0; lia|].
  intros b d Hb Hd. split; [apply sha512_cut; lia|]. unfold ends, sha384_hashes, sha512_ends. rewrite alen_app. lia.
Qed.

Lemma md5_ready : hmac_ready (reg md5_alg) (H := md5).
Proof. ready; cbn [blocksize digestsize md5_alg]; [intros b Hb; apply md_cut; lia|]. intros b d Hb Hd. split; [apply md_cut; lia|exact I]. Qed.

Lemma md4_ready : hmac_ready (reg md4_alg) (H := md4).
Proof. ready; cbn [blocksize digestsize md4_alg]; [intros b Hb; apply md_cut; lia|]. intros b d Hb Hd. split; [apply md_cut; lia|exact I]. Qed.

(** The second test case of RFC 4231: the key Jefe. *)
Definition jefe : list Z := [0x4a; 0x65; 0x66; 0x65].
Definition what : list Z := [0x77; 0x68; 0x61; 0x74; 0x20; 0x64; 0x6f; 0x20; 0x79; 0x61; 0x20; 0x77; 0x61; 0x6e; 0x74; 0x20].
Definition for_nothing : list Z := [0x66; 0x6f; 0x72; 0x20; 0x6e; 0x6f; 0x74; 0x68; 0x69; 0x6e; 0x67; 0x3f].

Lemma hmac_jefe : hmac sha256 64 jefe (what ++ for_nothing) = be_bytes 32 0x5bdcc146bf60754e6a042426089575c75a003f089d2739839dec58b964ec3843.
Proof. vm_compute. reflexivity. Qed.

Lemma bytes_of l : forallb (λ x, (0 <=? x) && (x <? 2 ^ 8)) l = true → Forall byte l.
Proof.
  intros Hl. rewrite forallb_forall in Hl. apply Forall_forall. intros x Hx. specialize (Hl x ltac:(done)).
  apply andb_true_iff in Hl as [?%Z.leb_le ?%Z.ltb_lt]. done.
Qed.

Lemma hmac_correct_witness :
  ∃ tfm s, hmac_setkey (reg sha256_alg) (λ _, replicate 104 7) (HmacTfm (Raw (replicate 104 1)) (Exported sha1_init)) (ShaState 5 [] (replicate 64 2)) 0 104 (Buf 1 jefe) 4 = Some (0, tfm) ∧
    ('(err, s) ← hmac_start (alg := reg sha256_alg) tfm sha1_init [Buf 3 what; Buf 0 for_nothing];
     if ctrue err then Some (err, s, []) else hmac_final (reg sha256_alg) tfm s 0) =
    Some (0, s, be_bytes 32 0x5bdcc146bf60754e6a042426089575c75a003f089d2739839dec58b964ec3843).
Proof.
  destruct (hmac_correct (reg sha256_alg) sha256 _ (λ _, replicate 104 7) (HmacTfm (Raw (replicate 104 1)) (Exported sha1_init))
    (ShaState 5 [] (replicate 64 2)) 0 104 (Buf 1 jefe) 4 sha256_ready) as (tfm & E & Hmac).
  - split; [vm_compute; discriminate|by apply bytes_of].
  - split; [vm_compute; discriminate|by apply bytes_of].
  - split; [reflexivity|by apply bytes_of].
  - by apply bytes_of.
  - vm_compute. split; discriminate.
  - intros Hlt. exfalso. vm_compute in Hlt. discriminate.
  - destruct (Hmac sha1_init [Buf 3 what; Buf 0 for_nothing] 0) as [(s & Es) _].
    + cbn [takes_seq bytes]. ands; [by apply bytes_of|apply sha_cut; vm_compute; discriminate|by apply bytes_of|apply sha_cut; vm_compute; discriminate|exact I].
    + vm_compute. reflexivity.
    + exists tfm, s. split; [exact E|]. rewrite Es. change (contents [Buf 3 what; Buf 0 for_nothing]) with (what ++ for_nothing).
      change (slice (bytes (Buf 1 jefe)) 0 4) with jefe. change (blocksize (reg sha256_alg)) with 64. rewrite hmac_jefe. reflexivity.
Defined.

(** An algorithm that asks for aligned buffers. *)
Definition with_mask {S} (alg : shash_alg S) (mask : Z) : shash_alg S :=
  ShashAlg (init alg) (update alg) (final alg) (finup alg) (digest alg) (export alg) (import alg)
    (descsize alg) (digestsize alg) (statesize alg) (blocksize alg) mask.
#[export] Instance mask_hashes {S} (alg : shash_alg S) mask H (HH : Hashes alg H) : Hashes (with_mask alg mask) H.
Proof.
  refine {| context := context (Hashes := HH); holds := holds (Hashes := HH); takes := takes (Hashes := HH); ends := ends (Hashes := HH);
    holds_context := holds_context (Hashes := HH); holds_bytes := holds_bytes (Hashes := HH) |}; apply HH.
Defined.

(** Six of the bytes go through the aligned buffer, as does the result. *)
Lemma shash_calls_correct_witness :
  ∃ s, crypto_shash_digest (reg (with_mask md5_alg 7)) (MdCtx [] (replicate 64 9) 5) (Buf 2 (what ++ for_nothing)) 16 1 = Some (0, s, md5 what) ∧ md_context s.
Proof.
  set (ctx := MdCtx [] (replicate 64 9) 5). assert (Hc : md_context ctx) by (split; [reflexivity|by apply bytes_of]).
  apply (shash_calls_correct (reg (with_mask md5_alg 7)) md5 _ (proj2 (prepare_ok (with_mask md5_alg 7) eq_refl eq_refl (or_intror (conj eq_refl eq_refl))
    ltac:(vm_compute; split; [|split]; discriminate) ltac:(vm_compute; discriminate))) (md_init ctx) [] (Buf 2 (what ++ for_nothing)) 16 1); [|by apply bytes_of|vm_compute; split; discriminate| |exact I|reflexivity|exact Hc].
  - exact (md_start true md5_ops ctx Hc).
  - apply md_cut. vm_compute. reflexivity.
Defined.
