(* ===== verification/StringLib.v ===== *)
(** * The string library

    Models the rest of [lib/string.c].  The memory is one list of bytes and a pointer is an index
    in it, so that source and destination may overlap; a null pointer that a function returns
    is [None] in the result.  The functions that the architecture replaces by its own
    (memset, memcpy, memmove, memchr, strchr, strrchr) are modelled as they are written here. *)

From S2P Require Import Prelude Strings.
#[local] Open Scope Z_scope.
#[local] Open Scope kernel_scope.

Section Functions.
Implicit Types b : list Z.

(** ** Comparison *)

(** A turn of the loop of [strnicmp] on the characters and the remaining length. *)
Definition strnicmp_turn b (s : Z * Z * Z) : option (Z * Z * Z + Z) :=
  let '(s1, s2, len) := s in
  c1 ← b.[s1]; c2 ← b.[s2];
  let next := if ctrue (len - 1) then inl (s1 + 1, s2 + 1, len - 1) else inr (c1 - c2) in
  if negb (ctrue c1) || negb (ctrue c2) then Some (inr (c1 - c2)) else
  if c1 =? c2 then Some next else
  let d1 := __tolower c1 in
  let d2 := __tolower c2 in
  if d1 =? d2 then Some (if ctrue (len - 1) then inl (s1 + 1, s2 + 1, len - 1) else inr (d1 - d2)) else Some (inr (d1 - d2)).

Definition strnicmp b (s1 s2 len : Z) : option Z :=
  if ctrue len then loop (S (length b)) (strnicmp_turn b) (s1, s2, len) else Some 0.

Definition strcasecmp b (s1 s2 : Z) : option Z :=
  loop (S (length b)) (λ '(s1, s2),
    c1 ← b.[s1]; c2 ← b.[s2];
    let c1 := __tolower c1 in let c2 := __tolower c2 in
    Some (if (c1 =? c2) && ctrue c1 then inl (s1 + 1, s2 + 1) else inr (c1 - c2))) (s1, s2).

(** [--n > 0] wraps around for [n = 0]. *)
Definition strncasecmp b (s1 s2 n : Z) : option Z :=
  loop (S (length b)) (λ '(s1, s2, n),
    c1 ← b.[s1]; c2 ← b.[s2];
    let c1 := __tolower c1 in let c2 := __tolower c2 in
    let n := u32 (n - 1) in
    Some (if (n >? 0) && (c1 =? c2) && ctrue c1 then inl (s1 + 1, s2 + 1, n) else inr (c1 - c2))) (s1, s2, n).

Definition strcmp b (cs ct : Z) : option Z :=
  loop (S (length b)) (λ '(cs, ct),
    c1 ← b.[cs]; c2 ← b.[ct];
    Some (if negb (c1 =? c2) then inr (if c1 <? c2 then -1 else 1) else if ctrue c1 then inl (cs + 1, ct + 1) else inr 0)) (cs, ct).

Definition strncmp b (cs ct count : Z) : option Z :=
  loop (S (length b)) (λ '(cs, ct, count),
    if ctrue count then
      c1 ← b.[cs]; c2 ← b.[ct];
      Some (if negb (c1 =? c2) then inr (if c1 <? c2 then -1 else 1)
            else if ctrue c1 then inl (cs + 1, ct + 1, count - 1) else inr 0)
    else Some (inr 0)) (cs, ct, count).

Definition memcmp b (cs ct count : Z) : option Z :=
  loop (S (length b)) (λ '(su1, su2, count),
    if 0 <? count then
      c1 ← b.[su1]; c2 ← b.[su2];
      let res := c1 - c2 in Some (if ctrue res then inr res else inl (su1 + 1, su2 + 1, count - 1))
    else Some (inr 0)) (cs, ct, count).

(** Equality up to a line feed at the end of one of the strings. *)
Definition sysfs_streq b (s1 s2 : Z) : option bool :=
  '(s1, s2, c1, c2) ← loop (S (length b)) (λ '(s1, s2),
    c1 ← b.[s1];
    if ctrue c1 then
      c2 ← b.[s2]; Some (if c1 =? c2 then inl (s1 + 1, s2 + 1) else inr (s1, s2, c1, c2))
    else c2 ← b.[s2]; Some (inr (s1, s2, c1, c2))) (s1, s2);
  if c1 =? c2 then Some true else
  if negb (ctrue c1) && (c2 =? 10) then d ← b.[s2 + 1]; Some (negb (ctrue d)) else
  if c1 =? 10 then d ← b.[s1 + 1]; Some (negb (ctrue d) && negb (ctrue c2)) else
  Some false.

(** ** Copies *)

(** [while (( *dest++ = *src++) != 0)] *)
Definition strcpy b (dest src : Z) : option (list Z) :=
  loop (S (length b)) (λ '(b, dest, src),
    c ← b.[src]; b ← b.[dest <- c]; Some (if ctrue c then inl (b, dest + 1, src + 1) else inr b)) (b, dest, src).

Definition strncpy b (dest src count : Z) : option (list Z) :=
  loop (S (length b)) (λ '(b, tmp, src, count),
    if ctrue count then
      c ← b.[src]; b ← b.[tmp <- c];
      Some (inl (b, tmp + 1, if ctrue c then src + 1 else src, count - 1))
    else Some (inr b)) (b, dest, src, count).

Definition lib_memset b (s c count : Z) : option (list Z) :=
  loop (S (length b)) (λ '(b, xs, count),
    if ctrue count then b ← b.[xs <- u8 c]; Some (inl (b, xs + 1, count - 1)) else Some (inr b)) (b, s, count).

(** The loop that [memcpy] and [memmove] share. *)
Definition copy_up b (dest src count : Z) : option (list Z) :=
  loop (S (length b)) (λ '(b, tmp, s, count),
    if ctrue count then c ← b.[s]; b ← b.[tmp <- c]; Some (inl (b, tmp + 1, s + 1, count - 1)) else Some (inr b)) (b, dest, src, count).

Definition lib_memcpy : list Z → Z → Z → Z → option (list Z) := copy_up.

Definition memmove b (dest src count : Z) : option (list Z) :=
  if dest <=? src then copy_up b dest src count
  else loop (S (length b)) (λ '(b, tmp, s, count),
    if ctrue count then c ← b.[s - 1]; b ← b.[tmp - 1 <- c]; Some (inl (b, tmp - 1, s - 1, count - 1)) else Some (inr b))
    (b, dest + count, src + count, count).

(** The memory and the length of the source. *)
Definition strlcpy b (dest src size : Z) : option (list Z * Z) :=
  ret ← strlen b src;
  if ctrue size then
    let len := if ret >=? size then size - 1 else ret in
    b ← lib_memcpy b dest src len; b ← b.[dest + len <- 0]; Some (b, ret)
  else Some (b, ret).

(** [while ( *dest) dest++;] *)
Definition str_end b (dest : Z) : option Z :=
  loop (S (length b)) (λ dest, c ← b.[dest]; Some (if ctrue c then inl (dest + 1) else inr dest)) dest.

Definition strcat b (dest src : Z) : option (list Z) := dest ← str_end b dest; strcpy b dest src.

Definition strncat b (dest src count : Z) : option (list Z) :=
  if ctrue count then
    dest ← str_end b dest;
    loop (S (length b)) (λ '(b, dest, src, count),
      c ← b.[src]; b ← b.[dest <- c];
      if ctrue c then
        let count := count - 1 in
        if count =? 0 then b ← b.[dest + 1 <- 0]; Some (inr b) else Some (inl (b, dest + 1, src + 1, count))
      else Some (inr b)) (b, dest, src, count)
  else Some b.

(** [BUG_ON] stops the kernel: there is no result. *)
Definition strlcat b (dest src count : Z) : option (list Z * Z) :=
  dsize ← strlen b dest;
  len ← strlen b src;
  let res := u32 (dsize + len) in
  if dsize >=? count then None else
  let dest := dest + dsize in
  let count := count - dsize in
  let len := if len >=? count then count - 1 else len in
  b ← lib_memcpy b dest src len; b ← b.[dest + len <- 0]; Some (b, res).

(** ** Searches *)

Definition strchr b (s c : Z) : option (option Z) :=
  loop (S (length b)) (λ s, x ← b.[s]; Some (if x =? u8 c then inr (Some s) else if ctrue x then inl (s + 1) else inr None)) s.

Definition strrchr b (s c : Z) : option (option Z) :=
  n ← strlen b s;
  loop (S (length b)) (λ p, x ← b.[p]; Some (if x =? u8 c then inr (Some p) else if p - 1 >=? s then inl (p - 1) else inr None)) (s + n).

Definition strnchr b (s count c : Z) : option (option Z) :=
  loop (S (length b)) (λ '(s, count),
    if ctrue count then
      x ← b.[s]; Some (if ctrue x then if x =? u8 c then inr (Some s) else inl (s + 1, count - 1) else inr None)
    else Some (inr None)) (s, count).

Definition strim b (s : Z) : option (list Z * Z) :=
  s ← skip_spaces b s;
  size ← strlen b s;
  if ctrue size then
    e ← loop (S (length b)) (λ e, if e >=? s then x ← b.[e]; Some (if isspace x then inl (e - 1) else inr e) else Some (inr e)) (s + size - 1);
    b ← b.[e + 1 <- 0]; Some (b, s)
  else Some (b, s).

(** Is [c] a character of the string at [a]?  The inner loops of [strspn], [strcspn] and
    [strpbrk]. *)
Definition among b (c a : Z) : option bool :=
  loop (S (length b)) (λ a, x ← b.[a]; Some (if ctrue x then if c =? x then inr true else inl (a + 1) else inr false)) a.

Definition strspn b (s accept : Z) : option Z :=
  loop (S (length b)) (λ '(p, count),
    c ← b.[p];
    if ctrue c then found ← among b c accept; Some (if found : bool then inl (p + 1, count + 1) else inr count)
    else Some (inr count)) (s, 0).

Definition strcspn b (s reject : Z) : option Z :=
  loop (S (length b)) (λ '(p, count),
    c ← b.[p];
    if ctrue c then found ← among b c reject; Some (if found : bool then inr count else inl (p + 1, count + 1))
    else Some (inr count)) (s, 0).

Definition strpbrk b (cs ct : Z) : option (option Z) :=
  loop (S (length b)) (λ sc1,
    c ← b.[sc1];
    if ctrue c then found ← among b c ct; Some (if found : bool then inr (Some sc1) else inl (sc1 + 1))
    else Some (inr None)) cs.

(** The memory, the new value of the pointer and the token. *)
Definition strsep b (s : option Z) (ct : Z) : option (list Z * option Z * option Z) :=
  match s with
  | None => Some (b, None, None)
  | Some sbegin =>
      e ← strpbrk b sbegin ct;
      match e with
      | Some e => b ← b.[e <- 0]; Some (b, Some (e + 1), Some sbegin)
      | None => Some (b, None, Some sbegin)
      end
  end.

(** The byte or the end of the area; [c] is compared as an [int]. *)
Definition memscan b (addr c size : Z) : option Z :=
  loop (S (length b)) (λ '(p, size),
    if ctrue size then x ← b.[p]; Some (if x =? c then inr p else inl (p + 1, size - 1)) else Some (inr p)) (addr, size).

Definition memchr b (s c n : Z) : option (option Z) :=
  loop (S (length b)) (λ '(p, n),
    if ctrue n then x ← b.[p]; Some (if u8 c =? x then inr (Some p) else inl (p + 1, n - 1)) else Some (inr None)) (s, n).

(** The loop of [strstr] and [strnstr]: [l1] bytes from [s1] on are left. *)
Definition search b (s1 s2 l1 l2 : Z) : option (option Z) :=
  loop (S (length b)) (λ '(s1, l1),
    if l1 >=? l2 then
      r ← memcmp b s1 s2 l2; Some (if ctrue r then inl (s1 + 1, l1 - 1) else inr (Some s1))
    else Some (inr None)) (s1, l1).

Definition strstr b (s1 s2 : Z) : option (option Z) :=
  l2 ← strlen b s2;
  if ctrue l2 then l1 ← strlen b s1; search b s1 s2 l1 l2 else Some (Some s1).

Definition strnstr b (s1 s2 len : Z) : option (option Z) :=
  l2 ← strlen b s2;
  if ctrue l2 then search b s1 s2 len l2 else Some (Some s1).
End Functions.
