(* ===== verification/StringLibFacts.v ===== *)
(** * The string library on lists of characters

    Comparison is the lexicographic order, and copies are stores of a list of
    characters. *)

From S2P Require Import Prelude Strings StringsFacts StringLib Hash.
#[local] Open Scope Z_scope.
#[local] Open Scope kernel_scope.

(** ** Characters *)

Lemma char_ctrue c : char c → ctrue c = true.
Proof. unfold char. intros. apply ctrue_true. lia. Qed.

Lemma char_eqb c : char c → (c =? 0) = false.
Proof. unfold char. intros. lia. Qed.

(** A string is a character and a string, or a null byte. *)
Lemma cstr_cons b p t : cstr b p t → match t with [] => b.[p] = Some 0 | c :: t => b.[p] = Some c ∧ char c ∧ cstr b (p + 1) t end.
Proof. by destruct t. Qed.

(** ** Comparison *)

(** The sign of the first difference; the shorter string is the smaller one. *)
Fixpoint scmp (t u : list Z) : Z :=
  match t, u with
  | [], [] => 0
  | [], _ => -1
  | _, [] => 1
  | x :: t, y :: u => if x =? y then scmp t u else if x <? y then -1 else 1
  end.

Lemma scmp_eq t u : scmp t u = 0 ↔ t = u.
Proof.
  revert u. induction t as [|x t IH]; intros [|y u]; cbn [scmp]; try done.
  destruct (Z.eqb_spec x y) as [-> |Hne]; [rewrite IH; split; congruence|]. destruct (x <? y); split; congruence || done.
Qed.

Lemma scmp_swap t u : scmp u t = - scmp t u.
Proof.
  revert u. induction t as [|x t IH]; intros [|y u]; cbn [scmp]; try done. rewrite (Z.eqb_sym y x).
  destruct (Z.eqb_spec x y); [apply IH|]. destruct (Z.ltb_spec x y), (Z.ltb_spec y x); lia || done.
Qed.

Lemma scmp_trans t u v : scmp t u ≤ 0 → scmp u v ≤ 0 → scmp t v ≤ 0.
Proof.
  revert u v. induction t as [|x t IH]; intros [|y u] [|z v]; cbn [scmp]; try lia.
  destruct (Z.eqb_spec x y), (Z.eqb_spec y z), (Z.eqb_spec x z); try congruence; try apply IH;
    repeat match goal with |- context [?a <? ?c] => destruct (Z.ltb_spec a c) end; lia.
Qed.

Section Compare.
Context (b : list Z).

Lemma strcmp_ok p q t u : cstr b p t → cstr b q u → strcmp b p q = Some (scmp t u).
Proof.
  intros Ht. assert (Hf := cstr_fuel _ _ _ Ht). unfold strcmp. revert Hf. generalize (S (length b)) as n. revert p q u Ht.
  induction t as [|x t IH]; intros p q u Ht n Hf Hu; (destruct n as [|n]; [lia|]); cbn [loop length] in *; apply cstr_cons in Ht, Hu.
  - rewrite Ht, Some_bind. destruct u as [|y u]; [by rewrite Hu|]. destruct Hu as (-> & Hy & _). rewrite Some_bind, Z.eqb_sym, char_eqb by done.
    cbn [negb mbind option_bind scmp]. unfold char in Hy. by destruct (Z.ltb_spec 0 y); [|lia].
  - destruct Ht as (-> & Hx & Ht). rewrite Some_bind. destruct u as [|y u].
    + rewrite Hu, Some_bind, char_eqb by done. cbn [negb mbind option_bind scmp]. unfold char in Hx. by destruct (Z.ltb_spec x 0); [lia|].
    + destruct Hu as (-> & Hy & Hu). rewrite Some_bind. cbn [scmp]. destruct (Z.eqb_spec x y) as [-> |]; cbn [negb mbind option_bind]; [|by destruct (x <? y)].
      rewrite char_ctrue by done. apply IH; [done|lia|done].
Qed.

Lemma strncmp_ok p q t u n :
  cstr b p t → cstr b q u → 0 ≤ n → strncmp b p q n = Some (scmp (take (Z.to_nat n) t) (take (Z.to_nat n) u)).
Proof.
  intros Ht. assert (Hf := cstr_fuel _ _ _ Ht). unfold strncmp. revert Hf. generalize (S (length b)) as f. revert p q u n Ht.
  induction t as [|x t IH]; intros p q u n Ht f Hf Hu Hn; (destruct f as [|f]; [lia|]); cbn [loop length] in *;
    (destruct (ctrue n) eqn:En; [apply ctrue_true in En|apply ctrue_false in En; by rewrite En]);
    apply cstr_cons in Ht, Hu; replace (Z.to_nat n) with (S (Z.to_nat (n - 1))) by lia; cbn [take].
  - rewrite Ht, Some_bind. destruct u as [|y u]; [by rewrite Hu|]. destruct Hu as (-> & Hy & _). rewrite Some_bind, Z.eqb_sym, char_eqb by done.
    cbn [negb mbind option_bind scmp take]. unfold char in Hy. by destruct (Z.ltb_spec 0 y); [|lia].
  - destruct Ht as (-> & Hx & Ht). rewrite Some_bind. destruct u as [|y u].
    + rewrite Hu, Some_bind, char_eqb by done. cbn [negb mbind option_bind scmp take]. unfold char in Hx. by destruct (Z.ltb_spec x 0); [lia|].
    + destruct Hu as (-> & Hy & Hu). rewrite Some_bind. cbn [scmp take]. destruct (Z.eqb_spec x y) as [-> |]; cbn [negb mbind option_bind]; [|by destruct (x <? y)].
      rewrite char_ctrue by done. apply IH; [done|lia|done|lia].
Qed.

(** The difference of the first different bytes. *)
Fixpoint bcmp (t u : list Z) : Z := match t, u with x :: t, y :: u => if x =? y then bcmp t u else x - y | _, _ => 0 end.

Lemma bcmp_eq t u : length t = length u → bcmp t u = 0 ↔ t = u.
Proof.
  revert u. induction t as [|x t IH]; intros [|y u] Hl; cbn [bcmp length] in *; try done.
  destruct (Z.eqb_spec x y) as [-> |Hne]; [rewrite IH by lia; split; congruence|]. split; [lia|congruence].
Qed.

Lemma memcmp_ok p q n :
  0 ≤ p → 0 ≤ q → 0 ≤ n → p + n ≤ alen b → q + n ≤ alen b → memcmp b p q n = Some (bcmp (slice b p n) (slice b q n)).
Proof.
  intros Hp Hq Hn Hpl Hql. unfold memcmp. assert (Hf : (Z.to_nat n < S (length b))%nat) by (unfold alen in *; lia).
  remember (Z.to_nat n) as k eqn:Ek. revert Hf. generalize (S (length b)) as f. revert p q n Hp Hq Hn Hpl Hql Ek.
  induction k as [|k IH]; intros p q n Hp Hq Hn Hpl Hql Ek f Hf; (destruct f as [|f]; [lia|]); cbn [loop].
  - replace n with 0 by lia. done.
  - destruct (Z.ltb_spec 0 n); [|lia]. destruct (arr_get_lt b p) as [x Hx]; [lia|]. destruct (arr_get_lt b q) as [y Hy]; [lia|].
    rewrite Hx, Hy, !Some_bind. rewrite (slice_cons _ _ _ _ Hx), (slice_cons _ _ _ _ Hy) by lia. cbn [bcmp].
    destruct (Z.eqb_spec x y) as [-> |Hne].
    + rewrite Z.sub_diag. cbn [ctrue Z.eqb negb mbind option_bind]. apply IH; lia.
    + assert (ctrue (x - y) = true) as -> by (apply ctrue_true; lia). done.
Qed.
End Compare.

(** ** Comparison without case *)

Definition lower (t : list Z) : list Z := map __tolower t.

(** The difference of the first different characters, with null bytes at the ends. *)
Fixpoint dcmp (t u : list Z) : Z :=
  match t, u with
  | [], [] => 0
  | [], y :: _ => - y
  | x :: _, [] => x
  | x :: t, y :: u => if x =? y then dcmp t u else x - y
  end.

Lemma tolower_char c : char c → char (__tolower c).
Proof.
  intros Hc. unfold char in *.
  pose proof (byte_all (λ c, (c =? 0) || ((0 <? __tolower c) && (__tolower c <? 256))) ltac:(by vm_compute) c ltac:(lia)) as H.
  apply orb_true_iff in H as [H|H]; [lia|]. apply andb_true_iff in H as [?%Z.ltb_lt ?%Z.ltb_lt]. lia.
Qed.

Lemma lower_chars t : Forall char t → Forall char (lower t).
Proof. intros H. induction H as [|c t Hc H IH]; constructor; [by apply tolower_char|done]. Qed.

Lemma dcmp_eq t u : Forall char t → Forall char u → dcmp t u = 0 ↔ t = u.
Proof.
  intros Ht. revert u. induction Ht as [|x t Hx Ht IH]; intros u Hu; destruct Hu as [|y u Hy Hu]; cbn [dcmp]; try done; unfold char in *; try (split; [lia|done]).
  destruct (Z.eqb_spec x y) as [-> |Hne]; [rewrite IH by done; split; congruence|]. split; [lia|congruence].
Qed.

Section NoCase.
Context (b : list Z).

Lemma tolower_0 : __tolower 0 = 0.
Proof. done. Qed.

Lemma strcasecmp_ok p q t u : cstr b p t → cstr b q u → strcasecmp b p q = Some (dcmp (lower t) (lower u)).
Proof.
  intros Ht. assert (Hf := cstr_fuel _ _ _ Ht). unfold strcasecmp. revert Hf. generalize (S (length b)) as n. revert p q u Ht.
  induction t as [|x t IH]; intros p q u Ht n Hf Hu; (destruct n as [|n]; [lia|]); cbn [loop length] in *; apply cstr_cons in Ht, Hu.
  - rewrite Ht, Some_bind. cbv zeta. rewrite tolower_0. destruct u as [|y u]; [by rewrite Hu|]. destruct Hu as (-> & Hy & _).
    rewrite Some_bind, Z.eqb_sym, char_eqb by (by apply tolower_char). done.
  - destruct Ht as (-> & Hx & Ht). rewrite Some_bind. cbv zeta. destruct u as [|y u].
    + rewrite Hu, Some_bind, tolower_0, char_eqb by (by apply tolower_char). cbn. by rewrite Z.sub_0_r.
    + destruct Hu as (-> & Hy & Hu). rewrite Some_bind. cbn [lower map dcmp]. rewrite (char_ctrue (__tolower x)), andb_true_r by (by apply tolower_char).
      destruct (__tolower x =? __tolower y); [|done]. apply IH; [done|lia|done].
Qed.

(** A length of zero does not compare nothing: the counter wraps around. *)
Lemma strncasecmp_ok p q t u n :
  cstr b p t → cstr b q u → urange 32 n → alen b ≤ 2 ^ 32 →
  strncasecmp b p q n = Some (if n =? 0 then dcmp (lower t) (lower u) else dcmp (lower (take (Z.to_nat n) t)) (lower (take (Z.to_nat n) u))).
Proof.
  intros Ht Hu Hn H0.
  assert (Hgen : ∀ t p q u m f, cstr b p t → cstr b q u → (length t < f)%nat → 1 ≤ m ≤ 2 ^ 32 →
    ∀ n, u32 (n - 1) = m - 1 → loop f (λ '(s1, s2, n), c1 ← b.[s1]; c2 ← b.[s2];
      let c1 := __tolower c1 in let c2 := __tolower c2 in let n := u32 (n - 1) in
      Some (if (n >? 0) && (c1 =? c2) && ctrue c1 then inl (s1 + 1, s2 + 1, n) else inr (c1 - c2))) (p, q, n) =
    Some (dcmp (lower (take (Z.to_nat m) t)) (lower (take (Z.to_nat m) u)))).
  { clear. induction t as [|x t IH]; intros p q u m f Ht Hu Hf Hm n Hn; (destruct f as [|f]; [lia|]); cbn [loop length] in *; apply cstr_cons in Ht, Hu;
      cbv zeta; rewrite Hn; replace (Z.to_nat m) with (S (Z.to_nat (m - 1))) by lia; cbn [take].
    - rewrite Ht, Some_bind, tolower_0. destruct u as [|y u]; [rewrite Hu; by destruct (m - 1 >? 0)|]. destruct Hu as (-> & Hy & _).
      rewrite Some_bind, (Z.eqb_sym 0), char_eqb by (by apply tolower_char). by rewrite andb_false_r.
    - destruct Ht as (-> & Hx & Ht). rewrite Some_bind. destruct u as [|y u].
      + rewrite Hu, Some_bind, tolower_0, char_eqb by (by apply tolower_char). rewrite andb_false_r. cbn. by rewrite Z.sub_0_r.
      + destruct Hu as (-> & Hy & Hu). rewrite Some_bind. cbn [take lower map dcmp]. rewrite (char_ctrue (__tolower x)), andb_true_r by (by apply tolower_char).
        destruct (Z.eqb_spec (__tolower x) (__tolower y)) as [E|E]; [|by rewrite andb_false_r]. rewrite andb_true_r.
        destruct (Z.gtb_spec (m - 1) 0).
        * apply IH; [done|done|lia|lia|]. rewrite uwrap_small by (unfold urange; lia). done.
        * replace (m - 1) with 0 by lia. change (Z.to_nat 0) with 0%nat. cbn [take lower map dcmp]. by rewrite E, Z.sub_diag. }
  assert (Hf := cstr_fuel _ _ _ Ht). unfold strncasecmp. destruct (Z.eqb_spec n 0) as [-> |Hne].
  - apply cstr_bound in Ht as Hb1, Hu as Hb2. rewrite (Hgen t p q u (2 ^ 32)) by (done || lia).
    rewrite !take_ge by (unfold alen in *; lia). done.
  - apply Hgen; [done|done|lia|unfold urange in Hn; lia|]. apply uwrap_small. unfold urange in *. lia.
Qed.
(** [strnicmp] is zero exactly for strings that agree in as many characters up to case. *)
Lemma strnicmp_ok p q t u n :
  cstr b p t → cstr b q u → 0 ≤ n →
  ∃ r, strnicmp b p q n = Some r ∧ (r = 0 ↔ lower (take (Z.to_nat n) t) = lower (take (Z.to_nat n) u)).
Proof.
  intros Ht Hu Hn. unfold strnicmp. destruct (ctrue n) eqn:En; [apply ctrue_true in En|apply ctrue_false in En; rewrite En; by exists 0].
  assert (Hf := cstr_fuel _ _ _ Ht). revert Hf. generalize (S (length b)) as f. revert p q u n Ht Hu Hn En.
  induction t as [|x t IH]; intros p q u n Ht Hu Hn En f Hf; (destruct f as [|f]; [lia|]); cbn [loop strnicmp_turn length] in *; apply cstr_cons in Ht, Hu;
    cbv zeta; replace (Z.to_nat n) with (S (Z.to_nat (n - 1))) by lia; cbn [take].
  - rewrite Ht, Some_bind. destruct u as [|y u]; [rewrite Hu; by exists 0|]. destruct Hu as (-> & Hy & _). rewrite Some_bind. cbn.
    unfold char in Hy. eexists. split; [done|]. split; [lia|done].
  - destruct Ht as (-> & Hx & Ht). rewrite Some_bind. destruct u as [|y u].
    + rewrite Hu, Some_bind, char_ctrue by done. cbn. unfold char in Hx. eexists. split; [done|]. split; [lia|done].
    + destruct Hu as (-> & Hy & Hu). rewrite Some_bind, !char_ctrue by done. cbn [negb orb take lower map].
      assert (Hstep : ∀ v, v = 0 → __tolower x = __tolower y →
        ∃ r, match (if ctrue (n - 1) then inl (p + 1, q + 1, n - 1) else inr v) with inl s' => loop f (strnicmp_turn b) s' | inr r => Some r end = Some r ∧
          (r = 0 ↔ __tolower x :: map __tolower (take (Z.to_nat (n - 1)) t) = __tolower y :: map __tolower (take (Z.to_nat (n - 1)) u))).
      { intros v -> E. rewrite E. destruct (ctrue (n - 1)) eqn:E1; [apply ctrue_true in E1|apply ctrue_false in E1].
        - destruct (IH (p + 1) (q + 1) u (n - 1) Ht Hu ltac:(lia) E1 f ltac:(lia)) as (r & -> & Hr). exists r. split; [done|]. unfold lower in Hr. rewrite Hr. split; congruence.
        - rewrite E1. by exists 0. }
      destruct (Z.eqb_spec x y) as [-> |Hne]; [by apply Hstep; [lia|]|].
      destruct (Z.eqb_spec (__tolower x) (__tolower y)) as [E|E]; [by apply Hstep; [lia|]|]. eexists. split; [done|]. split; [lia|congruence].
Qed.

(** Strings that differ. *)
Ltac diff_line := f_equal; symmetry; apply bool_decide_eq_false; intros [?|[?|?]]; simplify_eq/=; congruence.

(** [sysfs_streq] ignores a line feed at the end of one of the strings. *)
Definition same_line (t u : list Z) : bool := bool_decide (t = u ∨ t = u ++ [10] ∨ u = t ++ [10]).

Lemma sysfs_streq_ok p q t u : cstr b p t → cstr b q u → sysfs_streq b p q = Some (same_line t u).
Proof.
  intros Ht Hu. unfold sysfs_streq. assert (Hf := cstr_fuel _ _ _ Ht). revert Hf. generalize (S (length b)) as n. revert p q u Ht Hu.
  induction t as [|x t IH]; intros p q u Ht Hu n Hf; (destruct n as [|n]; [lia|]); cbn [loop length] in *; apply cstr_cons in Ht, Hu.
  - rewrite Ht, Some_bind. cbn [ctrue Z.eqb negb]. destruct u as [|y u]; [by rewrite Hu|]. destruct Hu as (-> & Hy & Hu). rewrite !Some_bind.
    rewrite (Z.eqb_sym 0), char_eqb by done. cbn [negb andb]. destruct (Z.eqb_spec y 10) as [-> |Hne].
    + apply cstr_cons in Hu. destruct u as [|z u]; [by rewrite Hu|]. destruct Hu as (-> & Hz & _). rewrite Some_bind, (char_ctrue z) by done. cbn. diff_line.
    + change (0 =? 10) with false. cbn. diff_line.
  - destruct Ht as (-> & Hx & Ht). rewrite Some_bind, char_ctrue by done. destruct u as [|y u].
    + rewrite Hu, !Some_bind, char_eqb by done. cbn [mbind option_bind]. rewrite char_eqb, char_ctrue by done. cbn [negb andb]. destruct (Z.eqb_spec x 10) as [-> |Hne].
      * apply cstr_cons in Ht. destruct t as [|z t]; [by rewrite Ht|]. destruct Ht as (-> & Hz & _). rewrite Some_bind, (char_ctrue z) by done. cbn. diff_line.
      * diff_line.
    + destruct Hu as (-> & Hy & Hu). rewrite Some_bind. destruct (Z.eqb_spec x y) as [-> |Hne].
      * cbn [mbind option_bind]. rewrite (IH (p + 1) (q + 1) u Ht Hu n ltac:(lia)). f_equal. apply bool_decide_ext. cbn. split; intros [?|[?|?]]; simplify_eq; auto.
      * cbn [mbind option_bind]. destruct (Z.eqb_spec x y) as [|_]; [done|]. rewrite char_ctrue by done. cbn [negb andb].
        assert (same_line (x :: t) (y :: u) = false) as -> by (apply bool_decide_eq_false; intros [?|[?|?]]; simplify_eq/=; done).
        destruct (Z.eqb_spec x 10) as [-> |]; [|done]. apply cstr_cons in Ht. destruct t as [|z t]; [rewrite Ht|destruct Ht as (-> & _)]; rewrite Some_bind, (char_ctrue y) by done; by rewrite andb_false_r.
Qed.
End NoCase.

(** ** Stores *)

Lemma write_nil (b : list Z) d : 0 ≤ d ≤ alen b → arr_write b d [] = Some b.
Proof.
  intros Hd. unfold arr_write. fold (alen b). cbn [length]. destruct (Z.leb_spec 0 d), (Z.leb_spec (d + Z.of_nat 0) (alen b)); try lia. cbn [andb app].
  rewrite Nat.add_0_r. by rewrite take_drop.
Qed.

Lemma arr_write_ok (b : list Z) d (l : list Z) :
  0 ≤ d → d + alen l ≤ alen b → arr_write b d l = Some (slice b 0 d ++ l ++ drop (Z.to_nat (d + alen l)) b).
Proof.
  intros Hd Hl. unfold arr_write. fold (alen b) (alen l). destruct (Z.leb_spec 0 d), (Z.leb_spec (d + alen l) (alen b)); try lia. cbn [andb].
  unfold slice. rewrite drop_0. do 4 f_equal. unfold alen. lia.
Qed.

Lemma arr_write_cons (b : list Z) d c (l : list Z) :
  0 ≤ d → d + 1 + alen l ≤ alen b → arr_write b d (c :: l) = arr_write (<[Z.to_nat d := c]> b) (d + 1) l.
Proof.
  intros Hd Hl. pose proof (alen_nonneg l). rewrite !arr_write_ok by (rewrite ?alen_insert, ?alen_cons; lia). rewrite alen_cons. f_equal.
  assert (E1 : slice (<[Z.to_nat d := c]> b) 0 (d + 1) = slice b 0 d ++ [c]).
  { unfold slice. rewrite !drop_0. replace (Z.to_nat (d + 1)) with (S (Z.to_nat d)) by lia.
    rewrite (take_S_r _ _ c) by (apply list_lookup_insert_eq; unfold alen in *; lia). by rewrite take_insert_ge by lia. }
  rewrite E1, <- app_assoc. f_equal. cbn [app]. f_equal. f_equal. rewrite drop_insert_lt by lia. f_equal. lia.
Qed.

(** A store outside of what is read. *)
Lemma slice_insert (b : list Z) i c o n : 0 ≤ i → 0 ≤ o → 0 ≤ n → i < o ∨ o + n ≤ i → slice (<[Z.to_nat i := c]> b) o n = slice b o n.
Proof.
  intros Hi Ho Hn [H|H]; unfold slice; [by rewrite drop_insert_lt by lia|].
  destruct (decide (Z.to_nat i < length b)%nat); [|by rewrite list_insert_ge by lia].
  rewrite drop_insert_ge by lia. by rewrite take_insert_ge by lia.
Qed.

Lemma get_insert (b : list Z) i c j : 0 ≤ i → i ≠ j → (<[Z.to_nat i := c]> b).[j] = b.[j].
Proof. intros Hi Hne. unfold arr_get. destruct (Z.leb_spec 0 j); [|done]. by rewrite list_lookup_insert_ne by lia. Qed.

Lemma cstr_insert b i c p t : 0 ≤ i → cstr b p t → i < p ∨ p + alen t < i → cstr (<[Z.to_nat i := c]> b) p t.
Proof.
  intros Hi. revert p. induction t as [|x t IH]; intros p Ht Hd; cbn [cstr] in *; [change (alen []) with 0 in Hd|rewrite alen_cons in Hd].
  - by rewrite get_insert by lia.
  - pose proof (alen_nonneg t). destruct Ht as (Hx & Hc & Ht). rewrite get_insert by lia. ands; [done|done|]. apply IH; [done|lia].
Qed.

Lemma cstr_slice b p t : cstr b p t → slice b p (alen t) = t.
Proof.
  revert p. induction t as [|x t IH]; intros p Ht; [done|]. destruct Ht as (Hx & _ & Ht). pose proof (alen_nonneg t). rewrite alen_cons.
  rewrite (slice_cons _ _ _ _ Hx) by lia. replace (1 + alen t - 1) with (alen t) by lia. by rewrite IH.
Qed.

(** The string that a store leaves. *)
Lemma write_cstr b d t b' : arr_write b d (t ++ [0]) = Some b' → Forall char t → cstr b' d t.
Proof.
  intros E Ht. assert (Hd : 0 ≤ d ∧ d + alen (t ++ [0]) ≤ alen b).
  { unfold arr_write in E. fold (alen b) (alen (t ++ [0])) in E. destruct (Z.leb_spec 0 d), (Z.leb_spec (d + alen (t ++ [0])) (alen b)); done || lia. }
  rewrite arr_write_ok in E by lia. injection E as <-. rewrite alen_app in Hd. change (alen [0]) with 1 in Hd. pose proof (alen_nonneg t).
  assert (Hs : alen (slice b 0 d) = d) by (apply alen_slice; lia). apply cstr_intro; [done| |].
  - intros i Hi. rewrite arr_get_app by lia. rewrite decide_False by lia. rewrite Hs, <- app_assoc, arr_get_app by lia. rewrite decide_True by lia. f_equal. lia.
  - rewrite arr_get_app by lia. rewrite decide_False by lia. rewrite Hs, <- app_assoc, arr_get_app by lia. rewrite decide_False by lia.
    by replace (d + alen t - d - alen t) with 0 by lia.
Qed.

(** ** Copies *)

Lemma copy_up_ok b dest src n :
  0 ≤ dest → 0 ≤ src → 0 ≤ n → dest + n ≤ alen b → src + n ≤ alen b → dest ≤ src ∨ src + n ≤ dest →
  copy_up b dest src n = arr_write b dest (slice b src n).
Proof.
  intros Hd Hs Hn Hdl Hsl Ho. unfold copy_up. assert (Hf : (Z.to_nat n < S (length b))%nat) by (unfold alen in *; lia).
  remember (Z.to_nat n) as k eqn:Ek. revert Hf. generalize (S (length b)) as f. revert b dest src n Hd Hs Hn Hdl Hsl Ho Ek.
  induction k as [|k IH]; intros b dest src n Hd Hs Hn Hdl Hsl Ho Ek f Hf; (destruct f as [|f]; [lia|]); cbn [loop].
  - replace n with 0 by lia. cbn [ctrue Z.eqb negb mbind option_bind]. rewrite slice_nil, write_nil by lia. done.
  - assert (ctrue n = true) as -> by (apply ctrue_true; lia). destruct (arr_get_lt b src) as [c Hc]; [lia|].
    rewrite Hc, Some_bind, arr_set_lt, !Some_bind by lia. rewrite (slice_cons _ _ _ _ Hc) by lia.
    assert (Hl1 : alen (slice b (src + 1) (n - 1)) = n - 1) by (apply alen_slice; lia).
    rewrite arr_write_cons by lia. rewrite IH by (rewrite ?alen_insert; lia). by rewrite slice_insert by lia.
Qed.

(** [memmove] is right for any overlap. *)
Lemma memmove_ok b dest src n :
  0 ≤ dest → 0 ≤ src → 0 ≤ n → dest + n ≤ alen b → src + n ≤ alen b → memmove b dest src n = arr_write b dest (slice b src n).
Proof.
  intros Hd Hs Hn Hdl Hsl. unfold memmove. destruct (Z.leb_spec dest src); [by apply copy_up_ok; auto; lia|].
  assert (Hf : (Z.to_nat n < S (length b))%nat) by (unfold alen in *; lia). remember (Z.to_nat n) as k eqn:Ek. revert Hf. generalize (S (length b)) as f.
  revert b n Hn Hdl Hsl Ek. induction k as [|k IH]; intros b n Hn Hdl Hsl Ek f Hf; (destruct f as [|f]; [lia|]); cbn [loop].
  - replace n with 0 by lia. cbn [ctrue Z.eqb negb mbind option_bind]. rewrite slice_nil, write_nil by lia. done.
  - assert (ctrue n = true) as -> by (apply ctrue_true; lia). destruct (arr_get_lt b (src + n - 1)) as [c Hc]; [lia|].
    rewrite Hc, Some_bind, arr_set_lt, !Some_bind by lia. replace (dest + n - 1) with (dest + (n - 1)) by lia. replace (src + n - 1) with (src + (n - 1)) in * by lia.
    rewrite IH by (rewrite ?alen_insert; lia). rewrite slice_insert by lia.
    replace n with (n - 1 + 1) at 3 by lia. rewrite slice_app by lia. rewrite (slice_cons _ _ _ _ Hc) by lia. change (1 - 1) with 0. rewrite slice_nil.
    assert (Hl1 : alen (slice b src (n - 1)) = n - 1) by (apply alen_slice; lia).
    rewrite !arr_write_ok by (rewrite ?alen_insert, ?alen_app; change (alen [c]) with 1; lia). rewrite alen_app, Hl1. change (alen [c]) with 1.
    f_equal. rewrite slice_insert by lia. rewrite <- app_assoc. do 2 f_equal.
    rewrite (drop_S _ c) by (apply list_lookup_insert_eq; unfold alen in *; lia). cbn [app]. f_equal. rewrite drop_insert_lt by lia. f_equal. lia.
Qed.

Lemma lib_memset_ok b s c n : 0 ≤ s → 0 ≤ n → s + n ≤ alen b → lib_memset b s c n = arr_write b s (replicate (Z.to_nat n) (u8 c)).
Proof.
  intros Hs Hn Hl. unfold lib_memset. assert (Hf : (Z.to_nat n < S (length b))%nat) by (unfold alen in *; lia).
  remember (Z.to_nat n) as k eqn:Ek. revert Hf. generalize (S (length b)) as f. revert b s n Hs Hn Hl Ek.
  induction k as [|k IH]; intros b s n Hs Hn Hl Ek f Hf; (destruct f as [|f]; [lia|]); cbn [loop replicate].
  - replace n with 0 by lia. cbn [ctrue Z.eqb negb mbind option_bind]. by rewrite write_nil by lia.
  - assert (ctrue n = true) as -> by (apply ctrue_true; lia). rewrite arr_set_lt, !Some_bind by lia.
    rewrite arr_write_cons by (unfold alen in *; rewrite ?length_replicate; lia). apply IH; rewrite ?alen_insert; lia.
Qed.

Lemma strcpy_ok b dest src t :
  cstr b src t → 0 ≤ dest → dest + alen t < alen b → dest ≤ src ∨ src + alen t < dest → strcpy b dest src = arr_write b dest (t ++ [0]).
Proof.
  intros Ht Hd Hl Ho. unfold strcpy. assert (Hf := cstr_fuel _ _ _ Ht). revert Hf. generalize (S (length b)) as f. revert b dest src Ht Hd Hl Ho.
  induction t as [|c t IH]; intros b dest src Ht Hd Hl Ho f Hf; (destruct f as [|f]; [lia|]); cbn [loop length] in *; pose proof (cstr_bound _ _ _ Ht) as Hb;
    cbn [cstr] in Ht; [change (alen []) with 0 in *|rewrite alen_cons in *].
  - rewrite Ht, Some_bind, arr_set_lt, !Some_bind by lia. cbn [ctrue Z.eqb negb app]. rewrite arr_write_cons by (change (alen []) with 0; lia).
    by rewrite write_nil by (rewrite alen_insert; lia).
  - pose proof (alen_nonneg t). destruct Ht as (Hx & Hc & Ht). rewrite Hx, Some_bind, arr_set_lt, !Some_bind, char_ctrue by (lia || done).
    cbn [app]. rewrite arr_write_cons by (rewrite ?alen_app; change (alen [0]) with 1; lia). apply IH; rewrite ?alen_insert; [|lia..]. apply cstr_insert; [lia|done|lia].
Qed.

(** What [strncpy] stores: the characters and null bytes, without an end when they fill it. *)
Definition padded (t : list Z) (n : Z) : list Z := take (Z.to_nat n) t ++ replicate (Z.to_nat (n - alen t)) 0.

Lemma padded_cons c t n : 0 < n → padded (c :: t) n = c :: padded t (n - 1).
Proof.
  intros Hn. unfold padded. rewrite alen_cons. replace (Z.to_nat n) with (S (Z.to_nat (n - 1))) by lia. cbn [take app]. do 3 f_equal. lia.
Qed.

Lemma alen_padded t n : 0 ≤ n → alen (padded t n) = n.
Proof. intros Hn. unfold padded. rewrite alen_app. unfold alen. rewrite length_take, length_replicate. lia. Qed.

Lemma strncpy_ok b dest src t n :
  cstr b src t → 0 ≤ dest → 0 ≤ n → dest + n ≤ alen b → dest ≤ src ∧ dest + n ≤ src ∨ src + alen t < dest → strncpy b dest src n = arr_write b dest (padded t n).
Proof.
  intros Ht Hd Hn Hl Ho. unfold strncpy. assert (Hf : (Z.to_nat n < S (length b))%nat) by (unfold alen in *; lia).
  remember (Z.to_nat n) as k eqn:Ek. revert Hf. generalize (S (length b)) as f. revert b dest src t n Ht Hd Hn Hl Ho Ek.
  induction k as [|k IH]; intros b dest src t n Ht Hd Hn Hl Ho Ek f Hf; (destruct f as [|f]; [lia|]); cbn [loop].
  - replace n with 0 by lia. cbn [ctrue Z.eqb negb mbind option_bind]. unfold padded. change (Z.to_nat 0) with 0%nat. cbn [take app].
    pose proof (alen_nonneg t). replace (Z.to_nat (0 - alen t)) with 0%nat by lia. by rewrite write_nil by lia.
  - assert (ctrue n = true) as -> by (apply ctrue_true; lia). pose proof (cstr_bound _ _ _ Ht) as Hb. destruct t as [|c t]; cbn [cstr] in Ht.
    + change (alen []) with 0 in *. rewrite Ht, Some_bind, arr_set_lt, !Some_bind by lia. change (ctrue 0) with false. cbv iota.
      assert (Hp : padded [] n = 0 :: padded [] (n - 1)).
      { unfold padded. rewrite !take_nil. change (alen []) with 0. replace (Z.to_nat (n - 0)) with (S (Z.to_nat (n - 1 - 0))) by lia. done. }
      rewrite Hp, arr_write_cons by (rewrite ?alen_padded; lia). apply IH; rewrite ?alen_insert; change (alen []) with 0; try lia. cbn [cstr]. by rewrite get_insert by lia.
    + rewrite alen_cons in *. pose proof (alen_nonneg t). destruct Ht as (Hx & Hc & Ht). rewrite Hx, Some_bind, arr_set_lt, !Some_bind, char_ctrue by (lia || done).
      rewrite padded_cons, arr_write_cons by (rewrite ?alen_padded; lia). apply IH; rewrite ?alen_insert; try lia. apply cstr_insert; [lia|done|lia].
Qed.

(** A store and another one behind it. *)
Lemma write_snoc b d (l : list Z) c b1 :
  arr_write b d l = Some b1 → 0 ≤ d → d + alen l < alen b → b1.[d + alen l <- c] = arr_write b d (l ++ [c]).
Proof.
  intros E Hd Hl. pose proof (alen_nonneg l). rewrite arr_write_ok in E by lia. injection E as <-. assert (Hs : alen (slice b 0 d) = d) by (apply alen_slice; lia).
  rewrite arr_write_ok by (rewrite ?alen_app; change (alen [c]) with 1; lia). rewrite (alen_app l [c]). change (alen [c]) with 1.
  destruct (arr_get_lt b (d + alen l)) as [x Hx]; [lia|]. unfold arr_get in Hx. destruct (Z.leb_spec 0 (d + alen l)); [|lia]. rewrite (drop_S _ _ _ Hx).
  rewrite arr_set_lt by (rewrite !alen_app, alen_cons; pose proof (alen_nonneg (drop (S (Z.to_nat (d + alen l))) b)); lia). f_equal.
  replace (Z.to_nat (d + alen l)) with (length (slice b 0 d ++ l) + 0)%nat at 1 by (rewrite length_app; unfold alen in *; lia).
  rewrite app_assoc, insert_app_r. cbn [insert list_insert]. rewrite <- !app_assoc. do 4 f_equal. lia.
Qed.

(** [strlcpy] stores as much as fits with a null byte and returns the length. *)
Lemma strlcpy_ok b dest src t size :
  cstr b src t → 0 ≤ dest → 0 ≤ size → dest + Z.min size (alen t + 1) ≤ alen b → dest ≤ src ∨ src + alen t < dest →
  strlcpy b dest src size = (if size =? 0 then Some (b, alen t) else b' ← arr_write b dest (take (Z.to_nat (size - 1)) t ++ [0]); Some (b', alen t)).
Proof.
  intros Ht Hd Hs Hl Ho. unfold strlcpy. rewrite (strlen_ok _ _ _ Ht), Some_bind. pose proof (cstr_bound _ _ _ Ht) as Hb. pose proof (alen_nonneg t).
  unfold ctrue. destruct (Z.eqb_spec size 0) as [-> |Hne]; cbn [negb]; [done|]. cbv zeta.
  set (len := if alen t >=? size then size - 1 else alen t). assert (Hlen : len = Z.min (size - 1) (alen t)) by (subst len; destruct (Z.geb_spec (alen t) size); lia).
  unfold lib_memcpy. rewrite copy_up_ok by lia. assert (Hsl : slice b src len = take (Z.to_nat (size - 1)) t).
  { rewrite <- (cstr_slice _ _ _ Ht). unfold slice. rewrite take_take. f_equal. lia. }
  rewrite Hsl. assert (Hlt : alen (take (Z.to_nat (size - 1)) t) = len) by (rewrite Hlen; unfold alen in *; rewrite length_take; lia).
  destruct (arr_write b dest (take (Z.to_nat (size - 1)) t)) as [b1|] eqn:E; [|rewrite arr_write_ok in E by lia; done]. rewrite Some_bind.
  rewrite <- Hlt. rewrite (write_snoc b dest _ 0 b1 E) by lia. done.
Qed.

Lemma str_end_ok b p t : cstr b p t → str_end b p = Some (p + alen t).
Proof.
  intros Ht. unfold str_end. assert (Hf := cstr_fuel _ _ _ Ht). revert Hf. generalize (S (length b)) as f. revert p Ht.
  induction t as [|c t IH]; intros p Ht f Hf; (destruct f as [|f]; [lia|]); cbn [loop length] in *; apply cstr_cons in Ht.
  - rewrite Ht. cbn. change (alen []) with 0. by rewrite Z.add_0_r.
  - destruct Ht as (-> & Hc & Ht). rewrite !Some_bind, char_ctrue by done. rewrite IH by (done || lia). rewrite alen_cons. f_equal. lia.
Qed.

(** The copy of a string behind another one, within [room] characters and an end. *)
Lemma strcat_ok b dest src t u :
  cstr b dest t → cstr b src u → dest + alen t + alen u < alen b → src + alen u < dest + alen t ∨ dest + alen t ≤ src →
  strcat b dest src = arr_write b (dest + alen t) (u ++ [0]).
Proof.
  intros Ht Hu Hl Ho. unfold strcat. rewrite (str_end_ok _ _ _ Ht), Some_bind. pose proof (cstr_bound _ _ _ Ht). pose proof (alen_nonneg t). apply strcpy_ok; [done|lia|lia|lia].
Qed.

Lemma strncat_ok b dest src t u n :
  cstr b dest t → cstr b src u → 0 ≤ n → dest + alen t + Z.min n (alen u) < alen b →
  src + alen u < dest + alen t ∨ dest + alen t + Z.min n (alen u) < src →
  strncat b dest src n = if n =? 0 then Some b else arr_write b (dest + alen t) (take (Z.to_nat n) u ++ [0]).
Proof.
  intros Ht Hu Hn Hl Ho. unfold strncat. destruct (Z.eqb_spec n 0) as [-> |Hne]; [done|]. assert (ctrue n = true) as -> by (by apply ctrue_true).
  rewrite (str_end_ok _ _ _ Ht), Some_bind. pose proof (cstr_bound _ _ _ Ht) as Hb. pose proof (alen_nonneg t). set (d := dest + alen t) in *. assert (Hd : 0 ≤ d) by lia.
  clearbody d. clear Ht Hb. assert (Hf := cstr_fuel _ _ _ Hu). revert Hf. generalize (S (length b)) as f. revert b d src n Hu Hn Hne Hd Hl Ho.
  induction u as [|c u IH]; intros b d src n Hu Hn Hne Hd Hl Ho f Hf; (destruct f as [|f]; [lia|]); cbn [loop length] in *; cbn [cstr] in Hu;
    [change (alen []) with 0 in *|rewrite alen_cons in *]; replace (Z.to_nat n) with (S (Z.to_nat (n - 1))) by lia; cbn [take app].
  - rewrite Hu, Some_bind, arr_set_lt, !Some_bind by lia. cbn [ctrue Z.eqb negb mbind option_bind]. rewrite arr_write_cons by (change (alen []) with 0; lia).
    by rewrite write_nil by (rewrite ?alen_insert; lia).
  - pose proof (alen_nonneg u). destruct Hu as (Hx & Hc & Hu). rewrite Hx, Some_bind, arr_set_lt, !Some_bind, char_ctrue by (lia || done). cbv zeta.
    assert (Hlt : alen (take (Z.to_nat (n - 1)) u ++ [0]) = Z.min (n - 1) (alen u) + 1) by (rewrite alen_app; unfold alen; rewrite length_take; cbn [length]; lia).
    rewrite arr_write_cons by lia. destruct (Z.eqb_spec (n - 1) 0) as [E|E].
    + rewrite E. rewrite arr_set_lt, !Some_bind by (rewrite ?alen_insert; lia). change (take (Z.to_nat 0) u ++ [0]) with [0].
      rewrite arr_write_cons by (rewrite ?alen_insert; change (alen []) with 0; lia). by rewrite write_nil by (rewrite ?alen_insert; lia).
    + rewrite Some_bind. apply IH; rewrite ?alen_insert; try lia. apply cstr_insert; [lia|done|lia].
Qed.

Lemma strlcat_ok b dest src t u n :
  cstr b dest t → cstr b src u → urange 32 n → alen t < n → dest + Z.min n (alen t + alen u + 1) ≤ alen b →
  src + alen u < dest + alen t ∨ dest + alen t ≤ src →
  strlcat b dest src n = (b' ← arr_write b (dest + alen t) (take (Z.to_nat (n - alen t - 1)) u ++ [0]); Some (b', u32 (alen t + alen u))).
Proof.
  intros Ht Hu Hn Hlt Hl Ho. unfold strlcat. rewrite (strlen_ok _ _ _ Ht), (strlen_ok _ _ _ Hu), !Some_bind. cbv zeta.
  pose proof (cstr_bound _ _ _ Ht). pose proof (cstr_bound _ _ _ Hu). pose proof (alen_nonneg t). pose proof (alen_nonneg u).
  destruct (Z.geb_spec (alen t) n); [lia|]. set (len := if alen u >=? n - alen t then n - alen t - 1 else alen u).
  assert (Hlen : len = Z.min (n - alen t - 1) (alen u)) by (subst len; destruct (Z.geb_spec (alen u) (n - alen t)); lia).
  unfold lib_memcpy. rewrite copy_up_ok by lia. assert (Hsl : slice b src len = take (Z.to_nat (n - alen t - 1)) u).
  { rewrite <- (cstr_slice _ _ _ Hu). unfold slice. rewrite take_take. f_equal. lia. }
  rewrite Hsl. assert (Hll : alen (take (Z.to_nat (n - alen t - 1)) u) = len) by (rewrite Hlen; clear -Hlt; unfold alen in *; rewrite length_take; lia).
  destruct (arr_write b (dest + alen t) (take (Z.to_nat (n - alen t - 1)) u)) as [b1|] eqn:E; [|rewrite arr_write_ok in E by lia; done]. rewrite Some_bind.
  rewrite <- Hll. rewrite (write_snoc b _ _ 0 b1 E) by lia. done.
Qed.

(** ** The comparisons and copies together *)

(** C19: Comparison of strings.  On null-terminated strings the functions return: [strcmp] and [strncmp] the
    sign of the lexicographic comparison, of the strings or of their first [n] characters, which is
    zero for equal strings only and a total order; [strcasecmp] and [strnicmp] zero exactly for strings equal up to case; [sysfs_streq]
    whether the strings are equal up to a line feed at the end of one. *)
Theorem string_compare_correct (b : list Z) (p q n : Z) (t u : list Z) (Ht : cstr b p t) (Hu : cstr b q u) (Hn : 0 ≤ n) :
  strcmp b p q = Some (scmp t u) ∧ strcmp b q p = Some (- scmp t u) ∧ (scmp t u = 0 ↔ t = u) ∧
  (∀ v, scmp t u ≤ 0 → scmp u v ≤ 0 → scmp t v ≤ 0) ∧
  strncmp b p q n = Some (scmp (take (Z.to_nat n) t) (take (Z.to_nat n) u)) ∧
  (∃ r, strcasecmp b p q = Some r ∧ (r = 0 ↔ lower t = lower u)) ∧
  (∃ r, strnicmp b p q n = Some r ∧ (r = 0 ↔ lower (take (Z.to_nat n) t) = lower (take (Z.to_nat n) u))) ∧
  sysfs_streq b p q = Some (bool_decide (t = u ∨ t = u ++ [10] ∨ u = t ++ [10])).
Proof.
  ands.
  - by apply strcmp_ok.
  - rewrite <- scmp_swap. by apply strcmp_ok.
  - apply scmp_eq.
  - intros v. apply scmp_trans.
  - by apply strncmp_ok.
  - eexists. split; [by apply strcasecmp_ok|]. apply dcmp_eq; apply lower_chars; by eapply cstr_chars.
  - by apply strnicmp_ok.
  - by apply sysfs_streq_ok.
Qed.

(** "ab" and "aB" and a line feed. *)
Lemma string_compare_correct_witness :
  let b := [97; 98; 0; 97; 66; 10; 0] in
  strcmp b 0 3 = Some 1 ∧ strncmp b 0 3 1 = Some 0 ∧ sysfs_streq b 0 3 = Some false.
Proof.
  intros b. assert (H1 : cstr b 0 [97; 98]) by (vm_compute; done). assert (H2 : cstr b 3 [97; 66; 10]) by (vm_compute; done).
  destruct (string_compare_correct b 0 3 1 _ _ H1 H2 ltac:(lia)) as (E1 & _ & _ & _ & E2 & _ & _ & E3). rewrite E1, E2, E3. done.
Defined.

(** The bytes outside of a store. *)
Lemma write_frame (b : list Z) d (l : list Z) b' : arr_write b d l = Some b' → 0 ≤ d → alen b' = alen b ∧ ∀ j, ¬ (d ≤ j < d + alen l) → b'.[j] = b.[j].
Proof.
  revert b d. induction l as [|c l IH]; intros b d E Hd.
  - assert (Hl : d ≤ alen b). { unfold arr_write in E. fold (alen b) in E. cbn [length] in E. destruct (Z.leb_spec 0 d), (Z.leb_spec (d + Z.of_nat 0) (alen b)); done || lia. }
    rewrite write_nil in E by lia. by injection E as <-.
  - assert (Hl : d + 1 + alen l ≤ alen b).
    { unfold arr_write in E. fold (alen b) (alen (c :: l)) in E. rewrite alen_cons in E. destruct (Z.leb_spec 0 d), (Z.leb_spec (d + (1 + alen l)) (alen b)); done || lia. }
    rewrite arr_write_cons in E by lia. apply IH in E as [El Hf]; [|lia]. rewrite alen_insert in El. rewrite alen_cons. split; [done|].
    intros j Hj. pose proof (alen_nonneg l). rewrite Hf by lia. by rewrite get_insert by lia.
Qed.

(** The string at [d] is [t], and the bytes outside of the [n] bytes from [d] on are the old ones. *)
Definition holds_within (b b' : list Z) (d n : Z) (t : list Z) : Prop :=
  cstr b' d t ∧ alen b' = alen b ∧ ∀ j, ¬ (d ≤ j < d + n) → b'.[j] = b.[j].

Lemma write_within b d t n : Forall char t → 0 ≤ d → alen t < n → d + alen t < alen b → ∃ b', arr_write b d (t ++ [0]) = Some b' ∧ holds_within b b' d n t.
Proof.
  intros Ht Hd Hn Hl. pose proof (alen_nonneg t). assert (Hs : alen (t ++ [0]) = alen t + 1) by (by rewrite alen_app).
  destruct (arr_write b d (t ++ [0])) as [b'|] eqn:E; [|by rewrite arr_write_ok in E by lia]. exists b'. split; [done|]. destruct (write_frame _ _ _ _ E Hd) as [Ha Hf].
  split; [by eapply write_cstr|]. split; [done|]. intros j Hj. apply Hf. lia.
Qed.

(** Strings that follow each other in memory are one string. *)
Lemma cstr_join b p t u : (∀ i, 0 ≤ i < alen t → b.[p + i] = t.[i]) → Forall char t → 0 ≤ p → cstr b (p + alen t) u → cstr b p (t ++ u).
Proof.
  intros Hg Ht. revert p Hg. induction Ht as [|c t Hc Ht IH]; intros p Hg Hp Hu; cbn [app cstr]; [by rewrite Z.add_0_r in Hu|]. rewrite alen_cons in *. pose proof (alen_nonneg t).
  ands; [|done|].
  - specialize (Hg 0 ltac:(lia)). by rewrite Z.add_0_r in Hg.
  - apply IH; [|lia|by replace (p + 1 + alen t) with (p + (1 + alen t)) by lia]. intros i Hi. replace (p + 1 + i) with (p + (i + 1)) by lia.
    rewrite Hg by lia. by rewrite arr_get_cons by lia.
Qed.

Lemma cstr_at b p t i : cstr b p t → 0 ≤ i < alen t → b.[p + i] = t.[i].
Proof.
  intros Ht Hi. rewrite <- (cstr_slice _ _ _ Ht). unfold slice. pose proof (cstr_bound _ _ _ Ht). rewrite arr_get_take by lia. by rewrite arr_get_drop by lia.
Qed.

Lemma alen_take_le {A} (l : list A) n : 0 ≤ n → alen (take (Z.to_nat n) l) = Z.min n (alen l).
Proof. intros Hn. unfold alen. rewrite length_take. lia. Qed.

(** C18: The copies with a size.  Into a buffer of [size] bytes, [strlcpy] and [strlcat] store a null-terminated
    string, the longest beginning of the whole text that fits, touch no byte outside of the buffer, and return the length of the
    whole text; [strlcat] does so for a buffer that holds a string within its size. *)
Theorem bounded_copies_correct (b : list Z) (dest src size : Z) (t u : list Z) (Hu : cstr b src u)
  (Hsize : urange 32 size) (Hroom : 0 ≤ dest ∧ dest + size ≤ alen b ∧ alen b ≤ 2 ^ 32) (Hov : src + alen u < dest ∨ dest + size ≤ src) :
  (0 < size → ∃ b', strlcpy b dest src size = Some (b', alen u) ∧ holds_within b b' dest size (take (Z.to_nat (size - 1)) u)) ∧
  strlcpy b dest src 0 = Some (b, alen u) ∧
  (cstr b dest t → alen t < size →
    ∃ b', strlcat b dest src size = Some (b', u32 (alen t + alen u)) ∧ holds_within b b' dest size (take (Z.to_nat (size - 1)) (t ++ u))) ∧
  (cstr b dest t → size ≤ alen t → strlcat b dest src size = None).
Proof.
  destruct Hroom as (Hd & Hr & H32). unfold urange in Hsize. pose proof (cstr_bound _ _ _ Hu) as Hb. pose proof (alen_nonneg u). pose proof (cstr_chars _ _ _ Hu) as Hcu. ands.
  - intros H0. rewrite (strlcpy_ok _ _ _ _ _ Hu) by lia. destruct (Z.eqb_spec size 0); [lia|].
    assert (Hlt := alen_take_le u (size - 1) ltac:(lia)).
    destruct (write_within b dest (take (Z.to_nat (size - 1)) u) size) as (b' & -> & H'); [by apply Forall_take|lia..|]. by exists b'.
  - rewrite (strlcpy_ok _ _ _ _ _ Hu); [done|lia..].
  - intros Ht Hlt. pose proof (alen_nonneg t). pose proof (cstr_chars _ _ _ Ht) as Hct. pose proof (cstr_bound _ _ _ Ht).
    rewrite (strlcat_ok _ _ _ _ _ _ Ht Hu) by (unfold urange; lia). assert (Hl2 := alen_take_le u (size - alen t - 1) ltac:(lia)).
    destruct (write_within b (dest + alen t) (take (Z.to_nat (size - alen t - 1)) u) (size - alen t)) as (b' & -> & Hc & Ha & Hf); [by apply Forall_take|lia..|].
    exists b'. split; [done|]. unfold holds_within. rewrite take_app_ge by (unfold alen in *; lia).
    replace (Z.to_nat (size - 1) - length t)%nat with (Z.to_nat (size - alen t - 1)) by (unfold alen; lia). ands; [|done|intros j Hj; apply Hf; lia].
    apply cstr_join; [|done|lia|done]. intros i Hi. rewrite Hf by lia. by apply cstr_at.
  - intros Ht Hlt. unfold strlcat. rewrite (strlen_ok _ _ _ Ht), (strlen_ok _ _ _ Hu), !Some_bind. cbv zeta. destruct (Z.geb_spec (alen t) size); [done|lia].
Qed.

(** "abc" into four bytes that hold "x". *)
Lemma bounded_copies_correct_witness :
  let b := [97; 98; 99; 0; 120; 0; 1; 2; 3] in
  strlcpy b 4 0 3 = Some ([97; 98; 99; 0; 97; 98; 0; 2; 3], 3) ∧ strlcat b 4 0 4 = Some ([97; 98; 99; 0; 120; 97; 98; 0; 3], 4) ∧
  (∃ b', strlcat b 4 0 4 = Some (b', 4) ∧ cstr b' 4 [120; 97; 98]).
Proof.
  intros b. split; [by vm_compute|]. split; [by vm_compute|]. assert (H1 : cstr b 0 [97; 98; 99]) by (vm_compute; done). assert (H2 : cstr b 4 [120]) by (vm_compute; done).
  destruct (bounded_copies_correct b 4 0 4 [120] [97; 98; 99] H1 ltac:(by vm_compute) ltac:(by vm_compute) ltac:(left; by vm_compute)) as (_ & _ & H3 & _).
  destruct (H3 H2 ltac:(by vm_compute)) as (b' & E & Hc & _). exists b'. split; [exact E|exact Hc].
Defined.
