(* ===== verification/StringSearch.v ===== *)
(** * Searches in strings

    The searches of the string library return the first or the last position of what they look for;
    [strsep] splits a text into its fields and [strim] removes the spaces at its ends. *)

From S2P Require Import Prelude Strings StringsFacts StringLib Hash StringLibFacts.
#[local] Open Scope Z_scope.
#[local] Open Scope kernel_scope.

(** ** Searches *)

(** The position of the first element with a property. *)
Fixpoint posn (P : Z → bool) (l : list Z) : option Z :=
  match l with [] => None | x :: l => if P x then Some 0 else (λ i, i + 1) <$> posn P l end.

Lemma posn_Some P l i :
  posn P l = Some i ↔ 0 ≤ i ∧ (∃ x, l.[i] = Some x ∧ P x = true) ∧ ∀ j y, 0 ≤ j < i → l.[j] = Some y → P y = false.
Proof.
  revert i. induction l as [|x l IH]; intros i; cbn [posn].
  - split; [done|]. intros (_ & (x & Hx & _) & _). apply arr_get_Some_lt in Hx. change (alen []) with 0 in Hx. lia.
  - destruct (P x) eqn:E.
    + split; [intros [= <-]; ands; [lia|by exists x|lia]|]. intros (Hi & _ & Hall). destruct (decide (i = 0)) as [-> |]; [done|].
      rewrite (Hall 0 x) in E by (lia || done). done.
    + rewrite fmap_Some. split.
      * intros (k & (Hk & (y & Hy & HP) & Hall)%IH & ->). ands; [lia|exists y; by rewrite arr_get_cons|]. intros j z Hj Hz.
        destruct (decide (j = 0)) as [-> |]; [by injection Hz as <-|]. replace j with (j - 1 + 1) in Hz by lia. rewrite arr_get_cons in Hz by lia. eapply (Hall (j - 1)); [lia|done].
      * intros (Hi & (y & Hy & HP) & Hall). destruct (decide (i = 0)) as [-> |]; [injection Hy as <-; congruence|].
        replace i with (i - 1 + 1) in Hy by lia. rewrite arr_get_cons in Hy by lia. exists (i - 1). split; [|lia]. apply IH. ands; [lia|by exists y|].
        intros j z Hj Hz. apply (Hall (j + 1)); [lia|]. by rewrite arr_get_cons by lia.
Qed.

Lemma posn_None P l : posn P l = None ↔ Forall (λ x, P x = false) l.
Proof.
  induction l as [|x l IH]; cbn [posn]; [done|]. rewrite list.Forall_cons. destruct (P x); [split; [done|by intros []]|]. rewrite fmap_None, IH. split; [done|by intros []].
Qed.

(** The pointer that a search returns. *)
Definition at_pos (p : Z) (i : option Z) : option Z := (λ i, p + i) <$> i.

Lemma at_pos_S p i : at_pos (p + 1) i = at_pos p ((λ i, i + 1) <$> i).
Proof. destruct i; cbn; [f_equal; lia|done]. Qed.

Section Searches.
Context (b : list Z).

(** [strchr] finds the null byte too. *)
Lemma strchr_ok p t c : cstr b p t → strchr b p c = Some (at_pos p (posn (λ x, x =? u8 c) (t ++ [0]))).
Proof.
  intros Ht. unfold strchr. assert (Hf := cstr_fuel _ _ _ Ht). revert Hf. generalize (S (length b)) as f. revert p Ht.
  induction t as [|x t IH]; intros p Ht f Hf; (destruct f as [|f]; [lia|]); cbn [loop length app posn] in *; apply cstr_cons in Ht.
  - rewrite Ht, !Some_bind. change (ctrue 0) with false. destruct (0 =? u8 c); [|done]. cbn. by rewrite Z.add_0_r.
  - destruct Ht as (-> & Hc & Ht). rewrite !Some_bind, (char_ctrue x) by done. destruct (x =? u8 c); [cbn; by rewrite Z.add_0_r|].
    rewrite IH by (done || lia). by rewrite at_pos_S.
Qed.

(** [strnchr] does not find the null byte. *)
Lemma strnchr_ok p t n c : cstr b p t → 0 ≤ n → strnchr b p n c = Some (at_pos p (posn (λ x, x =? u8 c) (take (Z.to_nat n) t))).
Proof.
  intros Ht Hn. unfold strnchr. assert (Hf := cstr_fuel _ _ _ Ht). revert Hf. generalize (S (length b)) as f. revert p n Ht Hn.
  induction t as [|x t IH]; intros p n Ht Hn f Hf; (destruct f as [|f]; [lia|]); cbn [loop length] in *; apply cstr_cons in Ht;
    (destruct (ctrue n) eqn:En; [apply ctrue_true in En|apply ctrue_false in En; by rewrite En]); replace (Z.to_nat n) with (S (Z.to_nat (n - 1))) by lia; cbn [take posn].
  - by rewrite Ht.
  - destruct Ht as (-> & Hc & Ht). rewrite !Some_bind, (char_ctrue x) by done. destruct (x =? u8 c); [cbn; by rewrite Z.add_0_r|].
    rewrite IH by (done || lia). by rewrite at_pos_S.
Qed.

(** [strrchr] finds the last one: none is behind it. *)
Lemma strrchr_ok p t c :
  cstr b p t →
  ∃ r, strrchr b p c = Some r ∧
    match r with
    | None => Forall (λ x, x ≠ u8 c) (t ++ [0])
    | Some q => p ≤ q ∧ (t ++ [0]).[q - p] = Some (u8 c) ∧ ∀ j y, q - p < j → (t ++ [0]).[j] = Some y → y ≠ u8 c
    end.
Proof.
  intros Ht. unfold strrchr. rewrite (strlen_ok _ _ _ Ht), Some_bind.
  assert (Hg : ∀ i, 0 ≤ i ≤ alen t → b.[p + i] = (t ++ [0]).[i]).
  { intros i Hi. rewrite arr_get_app by lia. case_decide as Hd.
    - rewrite <- (cstr_slice _ _ _ Ht) at 1. unfold slice. pose proof (cstr_bound _ _ _ Ht). rewrite arr_get_take by lia. by rewrite arr_get_drop by lia.
    - replace i with (alen t) by lia. rewrite (cstr_end _ _ _ Ht), Z.sub_diag. done. }
  assert (Hl : alen (t ++ [0]) = alen t + 1) by (by rewrite alen_app). pose proof (alen_nonneg t).
  assert (Hgen : ∀ k f, (k < f)%nat → Z.of_nat k ≤ alen t → (∀ j y, Z.of_nat k < j → (t ++ [0]).[j] = Some y → y ≠ u8 c) →
    ∃ r, loop f (λ q, x ← b.[q]; Some (if x =? u8 c then inr (Some q) else if q - 1 >=? p then inl (q - 1) else inr None)) (p + Z.of_nat k) = Some r ∧
    match r with
    | None => Forall (λ x, x ≠ u8 c) (t ++ [0])
    | Some q => p ≤ q ∧ (t ++ [0]).[q - p] = Some (u8 c) ∧ ∀ j y, q - p < j → (t ++ [0]).[j] = Some y → y ≠ u8 c
    end).
  { induction k as [|k IH]; intros f Hf Hk Hall; (destruct f as [|f]; [lia|]); cbn [loop]; rewrite Hg by lia.
    - destruct (arr_get_lt (t ++ [0]) (Z.of_nat 0)) as [x Hx]; [lia|]. rewrite Hx, Some_bind. destruct (Z.eqb_spec x (u8 c)) as [-> |Hne].
      + eexists. split; [done|]. cbv iota. replace (p + Z.of_nat 0 - p) with (Z.of_nat 0) by lia. ands; [lia|done|done].
      + destruct (Z.geb_spec (p + Z.of_nat 0 - 1) p); [lia|]. cbn. eexists. split; [done|]. apply list.Forall_lookup. intros j y Hy. rewrite <- arr_get_lookup in Hy.
        destruct j as [|j]; [change (Z.of_nat 0) with 0 in *; congruence|]. eapply Hall; [|done]. lia.
    - destruct (arr_get_lt (t ++ [0]) (Z.of_nat (S k))) as [x Hx]; [lia|]. rewrite Hx, Some_bind. destruct (Z.eqb_spec x (u8 c)) as [-> |Hne].
      + eexists. split; [done|]. cbv iota. replace (p + Z.of_nat (S k) - p) with (Z.of_nat (S k)) by lia. ands; [lia|done|done].
      + destruct (Z.geb_spec (p + Z.of_nat (S k) - 1) p); [|lia]. rewrite Some_bind. replace (p + Z.of_nat (S k) - 1) with (p + Z.of_nat k) by lia.
        apply IH; [lia|lia|]. intros j y Hj Hy. destruct (decide (j = Z.of_nat (S k))) as [-> |]; [congruence|]. eapply Hall; [|done]. lia. }
  destruct (Hgen (length t) (S (length b)) (cstr_fuel _ _ _ Ht)) as (r & Hr & Hspec); [unfold alen; lia| |].
  { intros j y Hj Hy. apply arr_get_Some_lt in Hy. unfold alen in *. lia. }
  exists r. split; [|done]. exact Hr.
Qed.
End Searches.

(** ** Sets of characters *)

Definition mem (u : list Z) (c : Z) : bool := bool_decide (c ∈ u).

(** The length of the longest prefix with a property. *)
Definition prefix_len (P : Z → bool) (t : list Z) : Z := default (alen t) (posn (λ x, negb (P x)) t).

Lemma prefix_len_cons P x t : prefix_len P (x :: t) = if P x then 1 + prefix_len P t else 0.
Proof.
  unfold prefix_len. cbn [posn]. destruct (P x); [|done]. cbn [negb]. destruct (posn _ t); cbn; [lia|]. by rewrite alen_cons.
Qed.

Section Sets.
Context (b : list Z) (a : Z) (u : list Z) (Hu : cstr b a u).

Lemma among_ok c : among b c a = Some (mem u c).
Proof.
  unfold among. assert (Hf := cstr_fuel _ _ _ Hu). revert Hf. generalize (S (length b)) as f. revert a Hu.
  induction u as [|x v IH]; intros p Hp f Hf; (destruct f as [|f]; [lia|]); cbn [loop length] in *; apply cstr_cons in Hp.
  - rewrite Hp. done.
  - destruct Hp as (-> & Hc & Hp). rewrite !Some_bind, (char_ctrue x) by done. destruct (Z.eqb_spec c x) as [-> |Hne].
    + f_equal. symmetry. apply bool_decide_eq_true, elem_of_cons. by left.
    + rewrite IH by (done || lia). f_equal. apply bool_decide_ext. rewrite elem_of_cons. split; [by right|by intros [?|?]].
Qed.

Lemma strspn_ok p t : cstr b p t → strspn b p a = Some (prefix_len (mem u) t).
Proof.
  intros Ht. unfold strspn. rewrite <- (Z.add_0_l (prefix_len _ _)). generalize 0 as n. assert (Hf := cstr_fuel _ _ _ Ht). revert Hf. generalize (S (length b)) as f.
  revert p Ht. induction t as [|x t IH]; intros p Ht f Hf n; (destruct f as [|f]; [lia|]); cbn [loop length] in *; apply cstr_cons in Ht.
  - rewrite Ht. cbn. by rewrite Z.add_0_r.
  - destruct Ht as (-> & Hc & Ht). rewrite !Some_bind, (char_ctrue x), among_ok, !Some_bind, prefix_len_cons by done.
    destruct (mem u x); [|cbn; f_equal; lia]. rewrite IH by (done || lia). f_equal. lia.
Qed.

Lemma strcspn_ok p t : cstr b p t → strcspn b p a = Some (prefix_len (λ x, negb (mem u x)) t).
Proof.
  intros Ht. unfold strcspn. rewrite <- (Z.add_0_l (prefix_len _ _)). generalize 0 as n. assert (Hf := cstr_fuel _ _ _ Ht). revert Hf. generalize (S (length b)) as f.
  revert p Ht. induction t as [|x t IH]; intros p Ht f Hf n; (destruct f as [|f]; [lia|]); cbn [loop length] in *; apply cstr_cons in Ht.
  - rewrite Ht. cbn. by rewrite Z.add_0_r.
  - destruct Ht as (-> & Hc & Ht). rewrite !Some_bind, (char_ctrue x), among_ok, !Some_bind, prefix_len_cons by done.
    destruct (mem u x); cbn [negb]; [cbn; f_equal; lia|]. rewrite IH by (done || lia). f_equal. lia.
Qed.

Lemma strpbrk_ok p t : cstr b p t → strpbrk b p a = Some (at_pos p (posn (mem u) t)).
Proof.
  intros Ht. unfold strpbrk. assert (Hf := cstr_fuel _ _ _ Ht). revert Hf. generalize (S (length b)) as f. revert p Ht.
  induction t as [|x t IH]; intros p Ht f Hf; (destruct f as [|f]; [lia|]); cbn [loop length posn] in *; apply cstr_cons in Ht.
  - by rewrite Ht.
  - destruct Ht as (-> & Hc & Ht). rewrite !Some_bind, (char_ctrue x), among_ok, !Some_bind by done. destruct (mem u x); [cbn; by rewrite Z.add_0_r|].
    rewrite IH by (done || lia). by rewrite at_pos_S.
Qed.
End Sets.

(** ** Searches in memory *)

Section Memory.
Context (b : list Z).

Lemma memscan_ok p c n :
  0 ≤ p → 0 ≤ n → p + n ≤ alen b → memscan b p c n = Some (p + default n (posn (λ x, x =? c) (slice b p n))).
Proof.
  intros Hp Hn Hl. unfold memscan. assert (Hf : (Z.to_nat n < S (length b))%nat) by (unfold alen in *; lia).
  remember (Z.to_nat n) as k eqn:Ek. revert Hf. generalize (S (length b)) as f. revert p n Hp Hn Hl Ek.
  induction k as [|k IH]; intros p n Hp Hn Hl Ek f Hf; (destruct f as [|f]; [lia|]); cbn [loop].
  - replace n with 0 by lia. cbn. by rewrite Z.add_0_r.
  - assert (ctrue n = true) as -> by (apply ctrue_true; lia). destruct (arr_get_lt b p) as [x Hx]; [lia|]. rewrite Hx, !Some_bind.
    rewrite (slice_cons _ _ _ _ Hx) by lia. cbn [posn]. destruct (x =? c); [cbn; by rewrite Z.add_0_r|].
    rewrite IH by lia. destruct (posn _ (slice b (p + 1) (n - 1))); cbn; f_equal; lia.
Qed.

Lemma memchr_ok p c n :
  0 ≤ p → 0 ≤ n → p + n ≤ alen b → memchr b p c n = Some (at_pos p (posn (λ x, u8 c =? x) (slice b p n))).
Proof.
  intros Hp Hn Hl. unfold memchr. assert (Hf : (Z.to_nat n < S (length b))%nat) by (unfold alen in *; lia).
  remember (Z.to_nat n) as k eqn:Ek. revert Hf. generalize (S (length b)) as f. revert p n Hp Hn Hl Ek.
  induction k as [|k IH]; intros p n Hp Hn Hl Ek f Hf; (destruct f as [|f]; [lia|]); cbn [loop].
  - replace n with 0 by lia. done.
  - assert (ctrue n = true) as -> by (apply ctrue_true; lia). destruct (arr_get_lt b p) as [x Hx]; [lia|]. rewrite Hx, !Some_bind.
    rewrite (slice_cons _ _ _ _ Hx) by lia. cbn [posn]. destruct (u8 c =? x); [cbn; by rewrite Z.add_0_r|].
    rewrite IH by lia. by rewrite at_pos_S.
Qed.

(** The position of the first occurrence of a list of characters. *)
Fixpoint sub_at (u l : list Z) : option Z :=
  if bool_decide (u `prefix_of` l) then Some 0 else match l with [] => None | _ :: l => (λ i, i + 1) <$> sub_at u l end.

Lemma slice_prefix p n m : 0 ≤ m ≤ n → slice b p m `prefix_of` slice b p n.
Proof. intros Hm. unfold slice. exists (drop (Z.to_nat m) (take (Z.to_nat n) (drop (Z.to_nat p) b))). rewrite <- (take_drop (Z.to_nat m)) at 1. f_equal. rewrite take_take. f_equal. lia. Qed.

Lemma prefix_slice u p n : 0 ≤ p → 0 ≤ n → p + n ≤ alen b → alen u ≤ n → u `prefix_of` slice b p n ↔ slice b p (alen u) = u.
Proof.
  intros Hp Hn Hl Hu. pose proof (alen_nonneg u). split; [|intros E; rewrite <- E at 1; apply slice_prefix; lia].
  intros [v Hv]. assert (slice b p (alen u) = take (length u) (slice b p n)) as ->.
  { unfold slice. rewrite take_take. f_equal. unfold alen in *. lia. } rewrite Hv. by rewrite take_app_length.
Qed.

Lemma sub_at_short u l : alen l < alen u → sub_at u l = None.
Proof.
  induction l as [|x l IH]; intros Hl; cbn [sub_at]; rewrite bool_decide_eq_false_2; try done;
    try (intros Hp%prefix_length; unfold alen in Hl; lia). rewrite alen_cons in Hl. by rewrite IH by lia.
Qed.

Lemma search_ok s1 s2 l1 l2 :
  0 ≤ s1 → 0 ≤ s2 → 0 ≤ l1 → 0 < l2 → s1 + l1 ≤ alen b → s2 + l2 ≤ alen b →
  search b s1 s2 l1 l2 = Some (at_pos s1 (sub_at (slice b s2 l2) (slice b s1 l1))).
Proof.
  intros Hs1 Hs2 Hl1 Hl2 Hb1 Hb2. unfold search. assert (Hf : (Z.to_nat l1 < S (length b))%nat) by (unfold alen in *; lia).
  assert (Hlu : alen (slice b s2 l2) = l2) by (apply alen_slice; lia).
  remember (Z.to_nat l1) as k eqn:Ek. revert Hf. generalize (S (length b)) as f. revert s1 l1 Hs1 Hl1 Hb1 Ek.
  induction k as [|k IH]; intros s1 l1 Hs1 Hl1 Hb1 Ek f Hf; (destruct f as [|f]; [lia|]); cbn [loop]; destruct (Z.geb_spec l1 l2).
  1: lia.
  1: rewrite sub_at_short by (rewrite !alen_slice by lia; lia); done.
  2: rewrite sub_at_short by (rewrite !alen_slice by lia; lia); done.
  rewrite memcmp_ok, !Some_bind by lia. assert (Hc := bcmp_eq (slice b s1 l2) (slice b s2 l2)). specialize (Hc ltac:(apply Nat2Z.inj; fold (alen (slice b s1 l2)) (alen (slice b s2 l2)); rewrite !alen_slice by lia; done)).
  destruct (arr_get_lt b s1) as [x Hx]; [lia|]. assert (Hp : slice b s2 l2 `prefix_of` slice b s1 l1 ↔ slice b s1 l2 = slice b s2 l2) by (rewrite prefix_slice by lia; by rewrite Hlu).
  rewrite (slice_cons _ _ l1 _ Hx) in Hp |- * by lia. cbn [sub_at]. destruct (ctrue (bcmp (slice b s1 l2) (slice b s2 l2))) eqn:E.
  - apply ctrue_true in E. rewrite bool_decide_eq_false_2 by (rewrite Hp, <- Hc; done). rewrite IH by lia. by rewrite at_pos_S.
  - apply ctrue_false in E. rewrite bool_decide_eq_true_2 by (rewrite Hp, <- Hc; done). cbn. by rewrite Z.add_0_r.
Qed.
End Memory.

Lemma sub_at_Some u l i :
  sub_at u l = Some i ↔ 0 ≤ i ≤ alen l ∧ u `prefix_of` drop (Z.to_nat i) l ∧ ∀ j, 0 ≤ j < i → ¬ u `prefix_of` drop (Z.to_nat j) l.
Proof.
  revert i. induction l as [|x l IH]; intros i; cbn [sub_at]; case_bool_decide as Hp; rewrite ?alen_cons; try pose proof (alen_nonneg l).
  - change (alen []) with 0. split; [intros [= <-]; ands; [lia|lia|done|lia]|]. intros (? & _). f_equal. lia.
  - change (alen []) with 0. split; [done|]. intros (Hi & Hd & _). by replace i with 0 in Hd by lia.
  - split; [intros [= <-]; ands; [lia|lia|done|lia]|]. intros (Hi & _ & Hall). destruct (decide (i = 0)) as [-> |]; [done|]. destruct (Hall 0); [lia|done].
  - rewrite fmap_Some. split.
    + intros (k & (Hk & Hd & Hall)%IH & ->). replace (Z.to_nat (k + 1)) with (S (Z.to_nat k)) by lia. ands; [lia|lia|done|]. intros j Hj.
      destruct (decide (j = 0)) as [-> |]; [done|]. replace (Z.to_nat j) with (S (Z.to_nat (j - 1))) by lia. apply Hall. lia.
    + intros (Hi & Hd & Hall). destruct (decide (i = 0)) as [-> |]; [done|]. exists (i - 1). split; [|lia]. replace (Z.to_nat i) with (S (Z.to_nat (i - 1))) in Hd by lia.
      apply IH. ands; [lia|lia|done|]. intros j Hj Hp'. apply (Hall (j + 1)); [lia|]. by replace (Z.to_nat (j + 1)) with (S (Z.to_nat j)) by lia.
Qed.

Lemma sub_at_nil l : sub_at [] l = Some 0.
Proof. destruct l; cbn [sub_at]; by rewrite bool_decide_eq_true_2 by apply prefix_nil. Qed.

Section Substrings.
Context (b : list Z).

Lemma alen_ctrue (t : list Z) : ctrue (alen t) = false → t = [].
Proof. intros H%ctrue_false. destruct t as [|x t]; [done|]. rewrite alen_cons in H. pose proof (alen_nonneg t). lia. Qed.

Lemma strstr_ok p q t u : cstr b p t → cstr b q u → strstr b p q = Some (at_pos p (sub_at u t)).
Proof.
  intros Ht Hu. unfold strstr. rewrite (strlen_ok _ _ _ Hu), Some_bind. destruct (ctrue (alen u)) eqn:E.
  - apply ctrue_true in E. rewrite (strlen_ok _ _ _ Ht), Some_bind. pose proof (alen_nonneg u). pose proof (alen_nonneg t).
    pose proof (cstr_bound _ _ _ Ht). pose proof (cstr_bound _ _ _ Hu). rewrite search_ok by lia. by rewrite (cstr_slice _ _ _ Ht), (cstr_slice _ _ _ Hu).
  - apply alen_ctrue in E as ->. rewrite sub_at_nil. cbn. by rewrite Z.add_0_r.
Qed.

(** [strnstr] searches [len] bytes, whether a null byte is among them or not. *)
Lemma strnstr_ok p q len u :
  0 ≤ p → 0 ≤ len → p + len ≤ alen b → cstr b q u → strnstr b p q len = Some (at_pos p (sub_at u (slice b p len))).
Proof.
  intros Hp Hlen Hl Hu. unfold strnstr. rewrite (strlen_ok _ _ _ Hu), Some_bind. destruct (ctrue (alen u)) eqn:E.
  - apply ctrue_true in E. pose proof (alen_nonneg u). pose proof (cstr_bound _ _ _ Hu). rewrite search_ok by lia. by rewrite (cstr_slice _ _ _ Hu).
  - apply alen_ctrue in E as ->. rewrite sub_at_nil. cbn. by rewrite Z.add_0_r.
Qed.
End Substrings.

(** ** Fields *)

(** A string is the same where the bytes are. *)
Lemma cstr_frame b b' p t : (∀ j, p ≤ j ≤ p + alen t → b'.[j] = b.[j]) → cstr b p t → cstr b' p t.
Proof.
  revert p. induction t as [|x t IH]; intros p Hj Ht; cbn [cstr] in *; [change (alen []) with 0 in Hj|rewrite alen_cons in Hj].
  - by rewrite Hj by lia.
  - pose proof (alen_nonneg t). destruct Ht as (Hx & Hc & Ht). rewrite Hj by lia. ands; [done|done|]. apply IH; [|done]. intros j Hjj. apply Hj. lia.
Qed.

(** The fields of a text between separators. *)
Fixpoint fields (P : Z → bool) (t : list Z) : list (list Z) :=
  match t with
  | [] => [[]]
  | x :: t => if P x then [] :: fields P t else match fields P t with f :: fs => (x :: f) :: fs | [] => [] end
  end.

Lemma fields_app P f x r : Forall (λ c, P c = false) f → P x = true → fields P (f ++ x :: r) = f :: fields P r.
Proof. intros Hf Hx. induction Hf as [|c f Hc Hf IH]; cbn [app fields]; [by rewrite Hx|]. by rewrite Hc, IH. Qed.

Lemma fields_none P t : Forall (λ c, P c = false) t → fields P t = [t].
Proof. intros Hf. induction Hf as [|c f Hc Hf IH]; cbn [fields]; [done|]. by rewrite Hc, IH. Qed.

Lemma posn_split P t i : posn P t = Some i → ∃ f x r, t = f ++ x :: r ∧ Forall (λ c, P c = false) f ∧ P x = true ∧ i = alen f.
Proof.
  revert i. induction t as [|y t IH]; intros i; cbn [posn]; [done|]. destruct (P y) eqn:E; [intros [= <-]; by exists [], y, t|].
  intros (k & (f & x & r & -> & Hf & Hx & ->)%IH & ->)%fmap_Some. exists (y :: f), x, r. ands; [done|by constructor|done|]. rewrite alen_cons. lia.
Qed.

(** [while ((token = strsep(&s, ct)))]: the tokens of all calls. *)
Fixpoint tokens (n : nat) (b : list Z) (s : option Z) (ct : Z) : option (list Z * list Z) :=
  match n with
  | O => None
  | S n =>
      '(b, s, token) ← strsep b s ct;
      match token with Some p => '(b, ps) ← tokens n b s ct; Some (b, p :: ps) | None => Some (b, []) end
  end.

Lemma tokens_ok n b s t ct u :
  cstr b s t → cstr b ct u → s + alen t < ct ∨ ct + alen u < s → (length t + 1 < n)%nat →
  ∃ b' ps, tokens n b (Some s) ct = Some (b', ps) ∧ Forall2 (cstr b') ps (fields (mem u) t) ∧ ∀ j, ¬ (s ≤ j < s + alen t) → b'.[j] = b.[j].
Proof.
  revert b s t. induction n as [|n IH]; intros b s t Ht Hu Ho Hn; [lia|]. cbn [tokens strsep]. rewrite (strpbrk_ok _ _ _ Hu _ _ Ht), !Some_bind.
  destruct (posn (mem u) t) as [i|] eqn:E; cbn [at_pos fmap option_fmap option_map].
  - apply posn_split in E as (f & x & r & -> & Hf & Hx & ->). pose proof (cstr_bound _ _ _ Ht) as Hb. rewrite alen_app, alen_cons in *. rewrite length_app in Hn. cbn [length] in Hn.
    pose proof (alen_nonneg f). pose proof (alen_nonneg r). rewrite arr_set_lt, !Some_bind by lia. set (b1 := <[Z.to_nat (s + alen f) := 0]> b).
    assert (Hr : cstr b1 (s + alen f + 1) r). { apply cstr_insert; [lia| |lia]. pose proof (cstr_app b s f (x :: r) Ht) as H1. apply H1. }
    destruct (IH b1 (s + alen f + 1) r) as (b' & ps & -> & Hps & Hfr); [done|by apply cstr_insert; [lia|done|lia]|lia|lia|].
    exists b', (s :: ps). rewrite fields_app by done. cbn [mbind option_bind]. ands; [done| |].
    + constructor; [|done]. pose proof (cstr_chars _ _ _ Ht) as [Hcf _]%Forall_app. apply cstr_intro; [done| |].
      * intros k Hk. rewrite Hfr by lia. unfold b1. rewrite get_insert by lia. rewrite (cstr_at _ _ _ _ Ht) by (rewrite alen_app, alen_cons; lia). rewrite arr_get_app by lia. by rewrite decide_True by lia.
      * rewrite Hfr by lia. unfold b1. rewrite arr_get_insert by lia. by rewrite decide_True.
    + intros j Hj. rewrite Hfr by lia. unfold b1. by rewrite get_insert by lia.
  - apply posn_None in E. rewrite fields_none by done. destruct n as [|n]; [lia|]. cbn. exists b, [s]. ands; [done|by repeat constructor|done].
Qed.

(** ** Spaces *)

Definition spaces (t : list Z) : Prop := Forall (λ c, isspace c = true) t.
Definition bare (t : list Z) : Prop := match t with [] => True | c :: _ => isspace c = false end.

Lemma spaces_split t : ∃ sp r, t = sp ++ r ∧ spaces sp ∧ bare r.
Proof.
  induction t as [|c t IH]; [by exists [], []; ands; [done|constructor|done]|]. destruct (isspace c) eqn:E.
  - destruct IH as (sp & r & -> & Hsp & Hr). exists (c :: sp), r. ands; [done|by constructor|done].
  - exists [], (c :: t). ands; [done|constructor|done].
Qed.

Lemma skip_spaces_ok b p sp r : cstr b p (sp ++ r) → spaces sp → bare r → skip_spaces b p = Some (p + alen sp).
Proof.
  intros Ht Hsp Hr. unfold skip_spaces. assert (Hf := cstr_fuel _ _ _ Ht). rewrite length_app in Hf. revert Hf. generalize (S (length b)) as f. revert p Ht.
  induction Hsp as [|c sp Hc Hsp IH]; intros p Ht f Hf; (destruct f as [|f]; [cbn in Hf; lia|]); cbn [loop length app] in *.
  - apply cstr_cons in Ht. destruct r as [|c r]; [rewrite Ht|destruct Ht as (-> & _); cbn in Hr]; rewrite ?Some_bind, ?Hr; cbn; by rewrite Z.add_0_r.
  - destruct Ht as (-> & _ & Ht). rewrite Some_bind, Hc, Some_bind, IH by (done || lia). rewrite alen_cons. f_equal. lia.
Qed.

(** The loop of [strim] from the end. *)
Lemma trim_end b s q tl c f :
  (∀ i, 0 ≤ i < alen tl → b.[q + i] = tl.[i]) → spaces tl → b.[q - 1] = Some c → isspace c = false → s ≤ q - 1 → (length tl < f)%nat →
  loop f (λ e, if e >=? s then x ← b.[e]; Some (if isspace x then inl (e - 1) else inr e) else Some (inr e)) (q + alen tl - 1) = Some (q - 1).
Proof.
  intros Hg Hsp Hc Hs Hq. revert f. induction tl as [|x tl IH] using rev_ind; intros f Hf; (destruct f as [|f]; [lia|]); cbn [loop].
  - change (alen []) with 0. replace (q + 0 - 1) with (q - 1) by lia. destruct (Z.geb_spec (q - 1) s); [|lia]. rewrite Hc, Some_bind, Hs. done.
  - apply Forall_app in Hsp as [Hsp [Hx _]%list.Forall_cons]. rewrite length_app in Hf. cbn [length] in Hf. rewrite alen_app in *. change (alen [x]) with 1 in *.
    pose proof (alen_nonneg tl). replace (q + (alen tl + 1) - 1) with (q + alen tl) by lia. destruct (Z.geb_spec (q + alen tl) s); [|lia].
    rewrite Hg by lia. rewrite arr_get_app by lia. rewrite decide_False by lia. rewrite Z.sub_diag. change ([x].[0]) with (Some x). rewrite Some_bind, Hx, Some_bind.
    apply IH; [|done|lia]. intros i Hi. rewrite Hg by lia. rewrite arr_get_app by lia. by rewrite decide_True by lia.
Qed.

(** [strim] leaves the text without the spaces at its ends. *)
Lemma strim_ok b p t :
  cstr b p t →
  ∃ sp core tl b', t = sp ++ core ++ tl ∧ spaces sp ∧ spaces tl ∧ bare core ∧ bare (rev core) ∧
    strim b p = Some (b', p + alen sp) ∧ cstr b' (p + alen sp) core ∧ ∀ j, j ≠ p + alen sp + alen core → b'.[j] = b.[j].
Proof.
  intros Ht. destruct (spaces_split t) as (sp & r & -> & Hsp & Hr). destruct (spaces_split (rev r)) as (tl' & core' & E & Htl & Hcore).
  apply (f_equal (@rev Z)) in E. rewrite rev_involutive, rev_app_distr in E. set (core := rev core') in *. set (tl := rev tl') in *.
  assert (Htl' : spaces tl) by (apply Forall_rev; done). assert (Hcore' : bare (rev core)) by (by unfold core; rewrite rev_involutive).
  pose proof (cstr_app _ _ _ _ Ht) as Hrc. pose proof (cstr_bound _ _ _ Hrc) as Hb. pose proof (alen_nonneg sp). unfold strim.
  rewrite (skip_spaces_ok _ _ _ _ Ht) by done. rewrite Some_bind, (strlen_ok _ _ _ Hrc), Some_bind. set (s := p + alen sp) in *. destruct (ctrue (alen r)) eqn:Er.
  - apply ctrue_true in Er. exists sp, core, tl. rewrite E in Hrc, Er, Hb, Hr |- *. rewrite alen_app in *. pose proof (alen_nonneg core). pose proof (alen_nonneg tl).
    assert (Hbc : bare core) by (destruct core; done). assert (Hne : 0 < alen core).
    { destruct core as [|x c]; [|rewrite alen_cons; pose proof (alen_nonneg c); lia]. cbn [app] in Hr. destruct tl as [|x l]; [done|].
      cbn in Hr. inversion Htl'; subst. congruence. }
    assert (Hlast : ∃ c, b.[s + alen core - 1] = Some c ∧ isspace c = false).
    { destruct core' as [|c l] eqn:El; [cbn in core; subst core; cbn in Hne; done|]. exists c. split; [|exact Hcore].
      replace (s + alen core - 1) with (s + (alen core - 1)) by lia. rewrite (cstr_at _ _ _ _ Hrc) by (rewrite alen_app; lia). rewrite arr_get_app by lia.
      rewrite decide_True by lia. subst core. cbn [rev] in *. rewrite alen_app in *. change (alen [c]) with 1 in *. rewrite arr_get_app by lia.
      rewrite decide_False by lia. by replace (alen (rev l) + 1 - 1 - alen (rev l)) with 0 by lia. }
    destruct Hlast as (c & Hc & Hcs). replace (s + (alen core + alen tl) - 1) with (s + alen core + alen tl - 1) by lia.
    rewrite (trim_end b s (s + alen core) tl c), Some_bind; [|intros i Hi|done|done|done|lia|unfold alen in *; lia].
    2: { replace (s + alen core + i) with (s + (alen core + i)) by lia. rewrite (cstr_at _ _ _ _ Hrc) by (rewrite alen_app; lia). rewrite arr_get_app by lia.
      rewrite decide_False by lia. f_equal. lia. }
    replace (s + alen core - 1 + 1) with (s + alen core) by lia. rewrite arr_set_lt, Some_bind by lia. eexists. ands; try done.
    + apply cstr_intro.
      * pose proof (cstr_chars _ _ _ Hrc) as [? _]%Forall_app. done.
      * intros i Hi. rewrite get_insert by lia. rewrite (cstr_at _ _ _ _ Hrc) by (rewrite alen_app; lia). rewrite arr_get_app by lia. by rewrite decide_True by lia.
      * rewrite arr_get_insert by lia. by rewrite decide_True.
    + intros j Hj. by rewrite get_insert by lia.
  - apply alen_ctrue in Er as ->. exists sp, [], [], b. ands; try done. constructor.
Qed.

(** ** The searches together *)

(** The pointer to the first element of [l], which is at [p], with the property, or null when there is none. *)
Definition found_first (p : Z) (P : Z → Prop) (l : list Z) (r : option Z) : Prop :=
  match r with
  | None => Forall (λ x, ¬ P x) l
  | Some q => p ≤ q ∧ (∃ x, l.[q - p] = Some x ∧ P x) ∧ ∀ j y, 0 ≤ j < q - p → l.[j] = Some y → ¬ P y
  end.

Definition found_last (p : Z) (P : Z → Prop) (l : list Z) (r : option Z) : Prop :=
  match r with
  | None => Forall (λ x, ¬ P x) l
  | Some q => p ≤ q ∧ (∃ x, l.[q - p] = Some x ∧ P x) ∧ ∀ j y, q - p < j → l.[j] = Some y → ¬ P y
  end.

(** The same for a list of elements. *)
Definition found_string (p : Z) (u l : list Z) (r : option Z) : Prop :=
  match r with
  | None => ∀ j, 0 ≤ j ≤ alen l → ¬ u `prefix_of` drop (Z.to_nat j) l
  | Some q => p ≤ q ≤ p + alen l ∧ u `prefix_of` drop (Z.to_nat (q - p)) l ∧ ∀ j, 0 ≤ j < q - p → ¬ u `prefix_of` drop (Z.to_nat j) l
  end.

Lemma posn_found p (P : Z → Prop) (f : Z → bool) l : (∀ x, f x = true ↔ P x) → found_first p P l (at_pos p (posn f l)).
Proof.
  intros Hf. assert (Hn : ∀ x, f x = false → ¬ P x) by (intros x E ?%Hf; congruence). destruct (posn f l) as [i|] eqn:E; cbn.
  - apply posn_Some in E as (Hi & (x & Hx & HP) & Hall). replace (p + i - p) with i by lia. ands; [lia|exists x; by rewrite <- Hf|]. intros j y Hj Hy. eauto.
  - apply posn_None in E. eapply List.Forall_impl; [|done]. done.
Qed.

Lemma sub_at_None u l : sub_at u l = None → ∀ j, 0 ≤ j ≤ alen l → ¬ u `prefix_of` drop (Z.to_nat j) l.
Proof.
  induction l as [|x l IH]; cbn [sub_at]; case_bool_decide as Hp; try done.
  - intros _ j. change (alen []) with 0. intros Hj. by replace j with 0 by lia.
  - intros E%fmap_None j. rewrite alen_cons. intros Hj. destruct (decide (j = 0)) as [-> |]; [done|]. replace (Z.to_nat j) with (S (Z.to_nat (j - 1))) by lia. apply IH; [done|lia].
Qed.

Lemma sub_at_found p u l : found_string p u l (at_pos p (sub_at u l)).
Proof.
  destruct (sub_at u l) as [i|] eqn:E; cbn; [|by apply sub_at_None]. apply sub_at_Some in E as (Hi & Hp & Hall).
  replace (p + i - p) with i by lia. ands; [lia|lia|done|done].
Qed.

Lemma prefix_len_spec P t :
  0 ≤ prefix_len P t ≤ alen t ∧ Forall (λ x, P x = true) (take (Z.to_nat (prefix_len P t)) t) ∧ ∀ x, t.[prefix_len P t] = Some x → P x = false.
Proof.
  induction t as [|x t IH]; [ands; [done|done|constructor|done]|]. rewrite prefix_len_cons, alen_cons. pose proof (alen_nonneg t). destruct (P x) eqn:E.
  - destruct IH as (Hl & Ha & Hn). replace (Z.to_nat (1 + prefix_len P t)) with (S (Z.to_nat (prefix_len P t))) by lia. cbn [take]. ands; [lia|lia|by constructor|].
    rewrite Z.add_comm, arr_get_cons by lia. done.
  - ands; [lia|lia|constructor|]. by intros y [= <-].
Qed.

(** C20: Searches in strings.  On null-terminated strings [t] at [p] and [u] at [q]: [strchr] finds the first
    and [strrchr] the last byte [c], the null byte included; [strnchr] the first among [n] characters; [strpbrk] the first
    character of [t] in [u]; [strspn] and [strcspn] return the length of the longest beginning of [t] with
    all and with no characters in [u]; [strstr] finds the first place where [u] is in [t]. *)
Theorem string_search_correct (b : list Z) (p q c n : Z) (t u : list Z) (Ht : cstr b p t) (Hu : cstr b q u) (Hn : 0 ≤ n) :
  (∃ r, strchr b p c = Some r ∧ found_first p (λ x, x = u8 c) (t ++ [0]) r) ∧
  (∃ r, strrchr b p c = Some r ∧ found_last p (λ x, x = u8 c) (t ++ [0]) r) ∧
  (∃ r, strnchr b p n c = Some r ∧ found_first p (λ x, x = u8 c) (take (Z.to_nat n) t) r) ∧
  (∃ r, strpbrk b p q = Some r ∧ found_first p (λ x, x ∈ u) t r) ∧
  (∃ k, strspn b p q = Some k ∧ 0 ≤ k ≤ alen t ∧ Forall (λ x, x ∈ u) (take (Z.to_nat k) t) ∧ ∀ x, t.[k] = Some x → x ∉ u) ∧
  (∃ k, strcspn b p q = Some k ∧ 0 ≤ k ≤ alen t ∧ Forall (λ x, x ∉ u) (take (Z.to_nat k) t) ∧ ∀ x, t.[k] = Some x → x ∈ u) ∧
  (∃ r, strstr b p q = Some r ∧ found_string p u t r).
Proof.
  assert (Hm : ∀ x, mem u x = true ↔ x ∈ u) by (intros x; apply bool_decide_eq_true). ands.
  - eexists. split; [by apply strchr_ok|]. apply posn_found. intros x. apply Z.eqb_eq.
  - destruct (strrchr_ok b p t c Ht) as (r & -> & Hr). exists r. split; [done|]. destruct r as [s|]; [|done]. destruct Hr as (Hps & Hx & Hall).
    cbn. ands; [done|by eexists|done].
  - eexists. split; [by apply strnchr_ok|]. apply posn_found. intros x. apply Z.eqb_eq.
  - eexists. split; [by eapply strpbrk_ok|]. by apply posn_found.
  - exists (prefix_len (mem u) t). split; [by apply strspn_ok|]. destruct (prefix_len_spec (mem u) t) as (Hl & Ha & Hx). ands; [lia|lia| |].
    + eapply List.Forall_impl; [|exact Ha]. intros x. apply Hm.
    + intros x Hk%Hx ?%Hm. congruence.
  - exists (prefix_len (λ x, negb (mem u x)) t). split; [by apply strcspn_ok|]. destruct (prefix_len_spec (λ x, negb (mem u x)) t) as (Hl & Ha & Hx). ands; [lia|lia| |].
    + eapply List.Forall_impl; [|exact Ha]. intros x E%negb_true_iff ?%Hm. congruence.
    + intros x Hk%Hx. apply Hm. by apply negb_false_iff.
  - eexists. split; [by apply strstr_ok|]. apply sub_at_found.
Qed.

(** "banana" and "nan". *)
Lemma string_search_correct_witness :
  let b := [98; 97; 110; 97; 110; 97; 0; 110; 97; 110; 0] in
  strchr b 0 97 = Some (Some 1) ∧ strrchr b 0 97 = Some (Some 5) ∧ strstr b 0 7 = Some (Some 2) ∧ strcspn b 0 7 = Some 1 ∧
  (∃ r, strstr b 0 7 = Some r ∧ found_string 0 [110; 97; 110] [98; 97; 110; 97; 110; 97] r).
Proof.
  intros b. do 4 (split; [by vm_compute|]). assert (H1 : cstr b 0 [98; 97; 110; 97; 110; 97]) by (vm_compute; done).
  assert (H2 : cstr b 7 [110; 97; 110]) by (vm_compute; done). apply (string_search_correct b 0 7 97 3 _ _ H1 H2 ltac:(lia)).
Defined.

(** C21: Splitting.  Calls of [strsep] until it returns null give pointers to the fields of the text between the characters of
    [ct], in order, empty fields included, each null-terminated; there are finitely many calls, and no byte outside
    of the text is changed.  A call on a null pointer returns null. *)
Theorem strsep_fields_correct (b : list Z) (s ct : Z) (t u : list Z) (Ht : cstr b s t) (Hu : cstr b ct u)
  (Hov : s + alen t < ct ∨ ct + alen u < s) :
  (∃ b' ps, tokens (length t + 2) b (Some s) ct = Some (b', ps) ∧ Forall2 (cstr b') ps (fields (mem u) t) ∧
    ∀ j, ¬ (s ≤ j < s + alen t) → b'.[j] = b.[j]) ∧
  strsep b None ct = Some (b, None, None).
Proof. split; [|done]. eapply tokens_ok; [done|done|done|lia]. Qed.

(** "a,,b" with a comma. *)
Lemma strsep_fields_correct_witness :
  let b := [97; 44; 44; 98; 0; 44; 0] in
  tokens 6 b (Some 0) 5 = Some ([97; 0; 0; 98; 0; 44; 0], [0; 2; 3]) ∧ fields (mem [44]) [97; 44; 44; 98] = [[97]; []; [98]] ∧
  (∃ b' ps, tokens 6 b (Some 0) 5 = Some (b', ps) ∧ Forall2 (cstr b') ps [[97]; []; [98]]).
Proof.
  intros b. do 2 (split; [by vm_compute|]). assert (H1 : cstr b 0 [97; 44; 44; 98]) by (vm_compute; done). assert (H2 : cstr b 5 [44]) by (vm_compute; done).
  destruct (strsep_fields_correct b 0 5 _ _ H1 H2 ltac:(left; by vm_compute)) as ((b' & ps & E & Hps & _) & _). exists b', ps. split; [exact E|exact Hps].
Defined.
