(* ===== verification/Kmem.v ===== *)
(** * Objects of the kernel heap

    Models the use of [kmalloc] and [kfree] by the library functions, and the copies [kstrdup], [kstrndup] and [kmemdup]
    of [mm/util.c].  The allocator is a parameter with a state of its own: for a heap and a size it returns
    the address and the old content of an object, or fails. *)

From S2P Require Import Prelude Strings StringsFacts Hash StringLib StringLibFacts.
From stdpp Require Import gmap.
#[local] Open Scope Z_scope.
#[local] Open Scope kernel_scope.

(** An object of bytes or an array of pointers; address zero is the null pointer. *)
Inductive object := Chars (l : list Z) | Ptrs (l : list Z).
Abbreviation heap := (gmap Z object).

Class Allocator (A : Type) := kmalloc : A → heap → Z → A * option (Z * list Z).

(** What the users of [kmalloc] rely on. *)
Class AllocatorLaws (A : Type) `{Allocator A} := kmalloc_fresh :
  ∀ a h n a' p g, kmalloc a h n = (a', Some (p, g)) → 0 < n → 0 < p ∧ h !! p = None ∧ alen g = n.

Definition kfree (h : heap) (p : Z) : option heap :=
  if p =? 0 then Some h else _ ← h !! p; Some (delete p h).

Section Util.
Context `{AL : Allocator A}.

(** An array of [n] bytes of zeroed pointers. *)
Definition kzalloc_ptrs (a : A) (h : heap) (n : Z) : A * heap * Z :=
  match kmalloc a h n with
  | (a, Some (p, _)) => (a, <[p := Ptrs (replicate (Z.to_nat (n / 4)) 0)]> h, p)
  | (a, None) => (a, h, 0)
  end.

Definition kstrdup (a : A) (h : heap) (b : list Z) (s : option Z) : option (A * heap * Z) :=
  match s with
  | None => Some (a, h, 0)
  | Some s =>
      n ← strlen b s;
      let len := u32 (n + 1) in
      match kmalloc a h len with
      | (a, Some (buf, g)) => g ← memcpy g 0 b s len; Some (a, <[buf := Chars g]> h, buf)
      | (a, None) => Some (a, h, 0)
      end
  end.

Definition kstrndup (a : A) (h : heap) (b : list Z) (s : option Z) (max : Z) : option (A * heap * Z) :=
  match s with
  | None => Some (a, h, 0)
  | Some s =>
      len ← strnlen b s max;
      match kmalloc a h (u32 (len + 1)) with
      | (a, Some (buf, g)) => g ← memcpy g 0 b s len; g ← g.[len <- 0]; Some (a, <[buf := Chars g]> h, buf)
      | (a, None) => Some (a, h, 0)
      end
  end.

Definition kmemdup (a : A) (h : heap) (b : list Z) (src len : Z) : option (A * heap * Z) :=
  match kmalloc a h len with
  | (a, Some (p, g)) => g ← memcpy g 0 b src len; Some (a, <[p := Chars g]> h, p)
  | (a, None) => Some (a, h, 0)
  end.

Context `{!AllocatorLaws A}.

(** The heap has a new object of these bytes, or the result is null and nothing changed. *)
Definition duplicated (h h' : heap) (p : Z) (l : list Z) : Prop :=
  p = 0 ∧ h' = h ∨ 0 < p ∧ h !! p = None ∧ h' = <[p := Chars l]> h.

Lemma memcpy_whole (g b : list Z) s n : 0 ≤ s → 0 ≤ n → alen g = n → s + n ≤ alen b → memcpy g 0 b s n = Some (slice b s n).
Proof.
  intros Hs Hn Hg Hb. rewrite memcpy_ok by lia. rewrite slice_nil. cbn [app]. rewrite drop_ge by (unfold alen in *; lia). by rewrite app_nil_r.
Qed.

Lemma kmemdup_ok a h b src len :
  0 ≤ src → 0 < len → src + len ≤ alen b → ∃ a' h' p, kmemdup a h b src len = Some (a', h', p) ∧ duplicated h h' p (slice b src len).
Proof.
  intros Hs Hl Hb. unfold kmemdup. destruct (kmalloc a h len) as [a' [[p g]|]] eqn:E; eexists _, _, _.
  - apply kmalloc_fresh in E as (Hp & Hh & Hg); [|lia]. rewrite memcpy_whole by lia. split; [done|]. by right.
  - split; [done|]. by left.
Qed.

Lemma kstrdup_ok a h b s t :
  cstr b s t → alen b < 2 ^ 32 → ∃ a' h' p, kstrdup a h b (Some s) = Some (a', h', p) ∧ duplicated h h' p (t ++ [0]).
Proof.
  intros Ht Hb. unfold kstrdup. rewrite (strlen_ok _ _ _ Ht), Some_bind. pose proof (cstr_bound _ _ _ Ht). pose proof (alen_nonneg t).
  rewrite uwrap_small by (unfold urange; lia). destruct (kmalloc a h (alen t + 1)) as [a' [[p g]|]] eqn:E; eexists _, _, _.
  - apply kmalloc_fresh in E as (Hp & Hh & Hg); [|lia]. rewrite memcpy_whole by lia. split; [done|]. right. ands; [done|done|]. do 2 f_equal.
    rewrite slice_app by lia. rewrite (cstr_slice _ _ _ Ht), (slice_cons _ _ _ _ (cstr_end _ _ _ Ht)) by lia. done.
  - split; [done|]. by left.
Qed.

Lemma kstrndup_ok a h b s t max :
  cstr b s t → alen b < 2 ^ 32 → urange 32 max → ∃ a' h' p, kstrndup a h b (Some s) max = Some (a', h', p) ∧ duplicated h h' p (take (Z.to_nat max) t ++ [0]).
Proof.
  intros Ht Hb Hm. unfold kstrndup. rewrite (strnlen_ok _ _ _ _ Ht Hm), Some_bind. pose proof (cstr_bound _ _ _ Ht). pose proof (alen_nonneg t). unfold urange in Hm.
  rewrite uwrap_small by (unfold urange; lia). set (n := alen t `min` max). destruct (kmalloc a h (n + 1)) as [a' [[p g]|]] eqn:E.
  - apply kmalloc_fresh in E as (Hp & Hh & Hg); [|lia]. rewrite memcpy_ok by lia. rewrite slice_nil. cbn [app]. rewrite Some_bind.
    assert (Hs : slice b s n = take (Z.to_nat max) t).
    { rewrite <- (cstr_slice _ _ _ Ht). unfold slice. rewrite take_take. f_equal. lia. }
    assert (Hl : alen (slice b s n) = n) by (apply alen_slice; lia). destruct (drop (Z.to_nat (0 + n)) g) as [|x [|y l]] eqn:Ed; apply (f_equal length) in Ed; rewrite length_drop in Ed; cbn [length] in Ed; try (unfold alen in *; lia).
    rewrite arr_set_lt, Some_bind by (rewrite alen_app, Hl; change (alen [x]) with 1; lia). eexists _, _, _. split; [done|]. right. ands; [done|done|]. do 2 f_equal.
    replace (Z.to_nat n) with (length (slice b s n) + 0)%nat by (unfold alen in *; lia). rewrite insert_app_r, Hs. done.
  - eexists _, _, _. split; [done|]. by left.
Qed.
End Util.

(** ** An instance *)

(** An allocator that takes the address after the highest one, and has a number of objects left. *)
#[export] Instance counted : Allocator nat := λ a h n,
  match a with
  | O => (O, None)
  | S a => let p := Z.max 0 (map_fold (λ q _ m, Z.max q m) 0 h) + 1 in (a, Some (p, replicate (Z.to_nat n) 0))
  end.

Lemma below_max (h : heap) q : is_Some (h !! q) → q ≤ map_fold (λ q (_ : object) m, Z.max q m) 0 h.
Proof.
  apply (map_fold_weak_ind (λ m h, is_Some (h !! q) → q ≤ m)); [intros [o Ho]; by rewrite lookup_empty in Ho|]. intros i x m r Hi IH [o Ho].
  destruct (decide (i = q)) as [-> |]; [lia|]. rewrite lookup_insert_ne in Ho by done. specialize (IH ltac:(by eexists)). lia.
Qed.

#[export] Instance counted_laws : AllocatorLaws nat.
Proof.
  intros [|a] h n a' p g E Hn; [done|]. cbv [kmalloc counted] in E. cbv zeta in E. remember (map_fold _ 0 h) as m eqn:Em. injection E as _ <- <-. ands.
  - lia.
  - destruct (h !! _) eqn:Eh; [|done]. pose proof (below_max h _ ltac:(by eexists)). rewrite <- Em in *. lia.
  - unfold alen. rewrite length_replicate. lia.
Qed.
