(* ===== verification/ArgvSplit.v ===== *)
(** * Argument vectors

    Models [lib/argv_split.c]: a command line is split at its white space into an array of copies of its words. *)

From S2P Require Import Prelude Strings StringsFacts Hash StringLib StringLibFacts StringSearch Kmem.
From stdpp Require Import gmap.
#[local] Open Scope Z_scope.
#[local] Open Scope kernel_scope.

Definition skip_arg (b : list Z) (cp : Z) : option Z :=
  loop (S (length b)) (λ cp, c ← b.[cp]; Some (if ctrue c && negb (isspace c) then inl (cp + 1) else inr cp)) cp.

Definition count_argc (b : list Z) (str : Z) : option Z :=
  loop (S (length b)) (λ '(str, count),
    c ← b.[str];
    if ctrue c then
      str ← skip_spaces b str;
      c ← b.[str];
      if ctrue c then str ← skip_arg b str; Some (inl (str, s32 (count + 1))) else Some (inl (str, count))
    else Some (inr count)) (str, 0).

Definition ptrs_of (h : heap) (p : Z) : option (list Z) :=
  o ← h !! p; match o with Ptrs l => Some l | Chars _ => None end.

(** [*argvp = t] *)
Definition set_ptr (h : heap) (argv i t : Z) : option heap :=
  l ← ptrs_of h argv; l ← l.[i <- t]; Some (<[argv := Ptrs l]> h).

Definition argv_free (h : heap) (argv : Z) : option heap :=
  l ← ptrs_of h argv;
  h ← loop (S (length l)) (λ '(h, i),
    l ← ptrs_of h argv;
    p ← l.[i];
    if ctrue p then h ← kfree h p; Some (inl (h, i + 1)) else Some (inr h)) (h, 0);
  kfree h argv.

Section Split.
Context `{AL : Allocator A}.

(** A turn of the loop of [argv_split]: the loop goes on, ends with the number of words stored, or fails. *)
Definition split_turn (b : list Z) (argv : Z) (s : A * heap * Z * Z) : option (A * heap * Z * Z + A * heap * option Z) :=
  let '(a, h, str, i) := s in
  c ← b.[str];
  if ctrue c then
    str ← skip_spaces b str;
    c ← b.[str];
    if ctrue c then
      let p := str in
      str ← skip_arg b str;
      '(a, h, t) ← kstrndup a h b (Some p) (u32 (str - p));
      if t =? 0 then Some (inr (a, h, None)) else h ← set_ptr h argv i t; Some (inl (a, h, str, i + 1))
    else Some (inl (a, h, str, i))
  else Some (inr (a, h, Some i)).

(** The vector or null, and [*argcp] when it is stored. *)
Definition argv_split (a : A) (h : heap) (b : list Z) (str : Z) : option (A * heap * Z * option Z) :=
  argc ← count_argc b str;
  let '(a, h, argv) := kzalloc_ptrs a h (u32 (4 * (argc + 1))) in
  if argv =? 0 then Some (a, h, 0, None) else
  '(a, h, i) ← loop (S (length b)) (split_turn b argv) (a, h, str, 0);
  match i with
  | Some i => h ← set_ptr h argv i 0; Some (a, h, argv, Some argc)
  | None => h ← argv_free h argv; Some (a, h, 0, Some argc)
  end.
End Split.

(** ** Words *)

(** The fields between white space that are not empty. *)
Definition words_of (t : list Z) : list (list Z) := filter (λ w, w ≠ []) (fields isspace t).

Definition no_space (w : list Z) : Prop := Forall (λ c, isspace c = false) w.
Definition at_end (r : list Z) : Prop := match r with [] => True | c :: _ => isspace c = true end.

Lemma words_space c t : isspace c = true → words_of (c :: t) = words_of t.
Proof. intros Hc. unfold words_of. cbn [fields]. rewrite Hc. done. Qed.

Lemma words_spaces sp t : spaces sp → words_of (sp ++ t) = words_of t.
Proof. intros Hs. induction Hs as [|c sp Hc Hs IH]; [done|]. cbn [app]. by rewrite words_space. Qed.

Lemma words_word w r : no_space w → w ≠ [] → at_end r → words_of (w ++ r) = w :: words_of r.
Proof.
  intros Hw Hne Hr. unfold words_of. destruct r as [|c r].
  - rewrite app_nil_r, fields_none by done. cbn [fields]. rewrite filter_cons_True, filter_cons_False, filter_nil by (done || tauto). done.
  - rewrite fields_app by done. cbn [fields]. rewrite Hr. by rewrite filter_cons_True by done.
Qed.

Lemma word_split t : ∃ w r, t = w ++ r ∧ no_space w ∧ at_end r.
Proof.
  induction t as [|c t IH]; [by exists [], []; ands; [done|constructor|done]|]. destruct (isspace c) eqn:E.
  - exists [], (c :: t). ands; [done|constructor|done].
  - destruct IH as (w & r & -> & Hw & Hr). exists (c :: w), r. ands; [done|by constructor|done].
Qed.

(** A text is spaces, a word and what follows, or spaces only. *)
Lemma next_word t : (spaces t) ∨ ∃ sp w r, t = sp ++ w ++ r ∧ spaces sp ∧ no_space w ∧ w ≠ [] ∧ at_end r.
Proof.
  destruct (spaces_split t) as (sp & u & -> & Hsp & Hu). destruct u as [|c u]; [left; by rewrite app_nil_r|]. right.
  destruct (word_split (c :: u)) as (w & r & E & Hw & Hr). exists sp, w, r. rewrite E. ands; try done. intros ->. cbn in E. subst r. cbn in Hr, Hu. congruence.
Qed.

Lemma words_none t : spaces t → words_of t = [].
Proof. intros Ht. rewrite <- (app_nil_r t). by rewrite words_spaces. Qed.

Lemma words_length t : (length (words_of t) ≤ S (length t))%nat.
Proof.
  transitivity (length (fields isspace t)); [apply length_filter|]. induction t as [|c t IH]; cbn [fields length]; [done|].
  destruct (isspace c); [cbn [length]; lia|]. destruct (fields isspace t); cbn [length] in *; lia.
Qed.

Section WordLoops.
Context (b : list Z).

Lemma skip_arg_ok p w r : cstr b p (w ++ r) → no_space w → at_end r → skip_arg b p = Some (p + alen w).
Proof.
  intros Ht Hw Hr. unfold skip_arg. assert (Hf := cstr_fuel _ _ _ Ht). rewrite length_app in Hf. revert Hf. generalize (S (length b)) as f. revert p Ht.
  induction Hw as [|c w Hc Hw IH]; intros p Ht f Hf; (destruct f as [|f]; [cbn in Hf; lia|]); cbn [loop length app] in *.
  - apply cstr_cons in Ht. destruct r as [|c r]; [rewrite Ht|destruct Ht as (-> & _); cbn in Hr]; rewrite ?Some_bind, ?Hr, ?andb_false_r; cbn; by rewrite Z.add_0_r.
  - destruct Ht as (-> & Hcc & Ht). rewrite Some_bind, Hc, (char_ctrue c) by done. cbn [negb andb]. rewrite Some_bind, IH by (done || lia). rewrite alen_cons. f_equal. lia.
Qed.
(** A turn at a text that is not at its end. *)
Lemma turn_char p t : cstr b p t → t ≠ [] → ∃ c, b.[p] = Some c ∧ ctrue c = true.
Proof. intros Ht Hne. destruct t as [|c t]; [done|]. destruct Ht as (Hc & Hch & _). exists c. split; [done|by apply char_ctrue]. Qed.

Lemma turn_spaces p t : cstr b p t → spaces t → skip_spaces b p = Some (p + alen t) ∧ b.[p + alen t] = Some 0.
Proof.
  intros Ht Hs. rewrite <- (app_nil_r t) in Ht. split; [by eapply skip_spaces_ok|]. rewrite app_nil_r in Ht. by apply cstr_end.
Qed.

Lemma turn_word p sp w r :
  cstr b p (sp ++ w ++ r) → spaces sp → no_space w → w ≠ [] → at_end r →
  skip_spaces b p = Some (p + alen sp) ∧ cstr b (p + alen sp) (w ++ r) ∧ skip_arg b (p + alen sp) = Some (p + alen sp + alen w) ∧
  cstr b (p + alen sp + alen w) r ∧ ∃ c, b.[p + alen sp] = Some c ∧ ctrue c = true.
Proof.
  intros Ht Hsp Hw Hne Hr. pose proof (cstr_app _ _ _ _ Ht) as H1. pose proof (cstr_app _ _ _ _ H1) as H2. ands.
  - eapply skip_spaces_ok; [done|done|]. destruct w as [|c w]; [done|]. cbn. by inversion Hw.
  - done.
  - by eapply skip_arg_ok.
  - done.
  - eapply turn_char; [done|]. destruct w; done.
Qed.

Lemma count_argc_ok p t : cstr b p t → alen t < 2 ^ 30 → count_argc b p = Some (alen (words_of t)).
Proof.
  intros Ht Hl. unfold count_argc. assert (Hw := words_length t). assert (Hlt : (length t < S (length b))%nat) by (by eapply cstr_fuel).
  assert (Hgen : ∀ f p t n, cstr b p t → (length t < f)%nat → 0 ≤ n → n + alen (words_of t) < 2 ^ 31 →
    loop f (λ '(str, count), c ← b.[str]; if ctrue c then str ← skip_spaces b str; c ← b.[str];
      if ctrue c then str ← skip_arg b str; Some (inl (str, s32 (count + 1))) else Some (inl (str, count)) else Some (inr count)) (p, n) = Some (n + alen (words_of t))).
  { clear. induction f as [|f IH]; intros p t n Ht Hf Hn Hb; [lia|]. cbn [loop]. destruct (decide (t = [])) as [-> |Hne].
    { apply cstr_cons in Ht. rewrite Ht. cbn. f_equal. change (alen _) with 0. lia. }
    destruct (turn_char p t Ht Hne) as (c & Hc & Hcc). rewrite Hc, Some_bind, Hcc. destruct (next_word t) as [Hs|(sp & w & r & -> & Hsp & Hw & Hwn & Hr)].
    - destruct (turn_spaces p t Ht Hs) as (-> & He). rewrite Some_bind, He, !Some_bind. change (ctrue 0) with false. cbv iota.
      assert (words_of t = []) as -> by (by apply words_none). destruct f as [|f]; [destruct t; cbn in Hf; done || lia|].
      cbn [mbind option_bind]. rewrite (IH (p + alen t) [] n); [done|exact He|cbn; lia|done|change (alen (words_of [])) with 0; pose proof (alen_nonneg (words_of t)); lia].
    - destruct (turn_word p sp w r Ht Hsp Hw Hwn Hr) as (-> & H1 & E1 & H2 & c' & Hc' & Hcc'). rewrite Some_bind, Hc', Some_bind, Hcc', E1, !Some_bind.
      rewrite words_spaces, words_word, alen_cons in * by done. pose proof (alen_nonneg (words_of r)). rewrite s32_small by lia.
      rewrite !length_app in Hf. assert (0 < length w)%nat by (destruct w; [done|cbn; lia]). rewrite (IH _ r) by (done || lia). f_equal. lia. }
  rewrite (Hgen _ p t); [f_equal; lia|done|lia|lia|unfold alen in *; lia].
Qed.
End WordLoops.

(** ** The vector in the heap *)

(** The heap [h0] with a vector of [n] pointers that begins with copies [ps] of the words [ws], and null behind them. *)
Record vector (h0 : heap) (argv : Z) (n : nat) (ps : list Z) (ws : list (list Z)) (h : heap) : Prop := Vector {
  vec_new : h0 !! argv = None;
  vec_argv : h !! argv = Some (Ptrs (ps ++ replicate (n - length ps) 0));
  vec_words : Forall2 (λ p w, h !! p = Some (Chars (w ++ [0]))) ps ws;
  vec_ptrs : Forall (λ p, 0 < p ∧ p ≠ argv ∧ h0 !! p = None) ps;
  vec_nodup : NoDup ps;
  vec_rest : ∀ q, q ≠ argv → q ∉ ps → h !! q = h0 !! q }.

Lemma ptrs_of_ok h p l : h !! p = Some (Ptrs l) → ptrs_of h p = Some l.
Proof. intros E. unfold ptrs_of. by rewrite E. Qed.

Lemma vector_nil h0 argv n : h0 !! argv = None → vector h0 argv n [] [] (<[argv := Ptrs (replicate n 0)]> h0).
Proof.
  intros Hn. split; [done| |constructor|constructor|constructor|].
  - rewrite lookup_insert_eq. cbn. by rewrite Nat.sub_0_r.
  - intros q Hq _. by rewrite lookup_insert_ne.
Qed.

Lemma vector_snoc h0 argv n ps ws h p w h1 :
  vector h0 argv n ps ws h → (length ps < n)%nat → 0 < p → h !! p = None → h1 = <[p := Chars (w ++ [0])]> h →
  ∃ h2, set_ptr h1 argv (alen ps) p = Some h2 ∧ vector h0 argv n (ps ++ [p]) (ws ++ [w]) h2.
Proof.
  intros [Hn Ha Hw Hp Hd Hr] Hl Hp0 Hf ->. assert (Hpa : p ≠ argv) by congruence.
  assert (Hpp : p ∉ ps). { intros (i & Hi)%list_elem_of_lookup. destruct (Forall2_lookup_l _ _ _ _ _ Hw Hi) as (v & _ & E). congruence. }
  unfold set_ptr, ptrs_of. rewrite lookup_insert_ne, Ha, !Some_bind by done. replace (n - length ps)%nat with (S (n - length (ps ++ [p])))%nat by (rewrite length_app; cbn; lia). cbn [replicate].
  rewrite arr_set_lt, Some_bind by (rewrite alen_app, alen_cons; pose proof (alen_nonneg ps); pose proof (alen_nonneg (replicate (n - length (ps ++ [p])) 0)); lia).
  replace (Z.to_nat (alen ps)) with (length ps + 0)%nat by (unfold alen; lia). rewrite insert_app_r. cbn [insert list_insert].
  eexists. split; [done|]. split.
  - done.
  - rewrite lookup_insert_eq. by rewrite <- app_assoc.
  - apply Forall2_app; [|constructor; [|constructor]].
    + apply Forall2_same_length_lookup_2; [by eapply Forall2_length|]. intros i q v Hq Hv. pose proof (Forall2_lookup_lr _ _ _ _ _ _ Hw Hq Hv) as E.
      pose proof (Forall_lookup_1 _ _ _ _ Hp Hq) as (_ & Hqa & _). rewrite !lookup_insert_ne; [done| |done]. intros ->. apply Hpp. by eapply list_elem_of_lookup_2.
    + rewrite lookup_insert_ne by done. by rewrite lookup_insert_eq.
  - apply Forall_app. split; [done|]. constructor; [|constructor]. ands; [done|done|]. by rewrite <- Hr.
  - apply NoDup_app. ands; [done| |apply NoDup_singleton]. intros q Hq ->%list_elem_of_singleton. done.
  - intros q Hq Hqp. rewrite elem_of_app, list_elem_of_singleton in Hqp. rewrite !lookup_insert_ne by (done || intros ->; tauto). apply Hr; [done|tauto].
Qed.

(** [argv_free] gives the heap without the vector. *)
Lemma argv_free_ok h0 argv n ps ws h : vector h0 argv n ps ws h → 0 < argv → (length ps < n)%nat → argv_free h argv = Some h0.
Proof.
  intros [Hn Ha Hw Hp Hd Hr] Ha0 Hl. unfold argv_free. rewrite (ptrs_of_ok _ _ _ Ha), Some_bind. set (l := ps ++ replicate (n - length ps) 0) in *.
  assert (Hgen : ∀ rest f dn h, dn ++ rest = ps → (length rest < f)%nat → h !! argv = Some (Ptrs l) → (∀ q, q ∈ rest → is_Some (h !! q)) →
    (∀ q, q ≠ argv → q ∉ rest → h !! q = h0 !! q) →
    ∃ h', loop f (λ '(h, i), l ← ptrs_of h argv; p ← l.[i]; if ctrue p then h ← kfree h p; Some (inl (h, i + 1)) else Some (inr h)) (h, alen dn) = Some h' ∧
      is_Some (h' !! argv) ∧ ∀ q, q ≠ argv → h' !! q = h0 !! q).
  { clear h Ha Hw Hr. induction rest as [|p rest IH]; intros f dn h Edn Hf Ha Hrest Hr; (destruct f as [|f]; [lia|]); cbn [loop length] in *; rewrite (ptrs_of_ok _ _ _ Ha), Some_bind.
    - rewrite app_nil_r in Edn. subst dn. assert (l.[alen ps] = Some 0) as ->.
      { unfold l. rewrite arr_get_app by apply alen_nonneg. rewrite decide_False by lia. rewrite Z.sub_diag. destruct (n - length ps)%nat eqn:E; [lia|]. done. }
      rewrite Some_bind. change (ctrue 0) with false. cbn. exists h. ands; [done|by eexists|]. intros q Hq. apply Hr; [done|]. apply not_elem_of_nil.
    - assert (l.[alen dn] = Some p) as ->.
      { unfold l. rewrite <- Edn, <- app_assoc. rewrite arr_get_app by apply alen_nonneg. rewrite decide_False by lia. by rewrite Z.sub_diag. }
      assert (Hpin : p ∈ ps) by (rewrite <- Edn; apply elem_of_app; right; by left).
      destruct (proj1 (Forall_forall _ _) Hp p Hpin) as (Hp0 & Hpa & Hph). rewrite Some_bind.
      assert (ctrue p = true) as -> by (apply ctrue_true; lia). unfold kfree. destruct (Z.eqb_spec p 0); [lia|].
      destruct (Hrest p ltac:(by left)) as [o Ho]. rewrite Ho, !Some_bind. replace (alen dn + 1) with (alen (dn ++ [p])) by (by rewrite alen_app).
      assert (Hpr : p ∉ rest) by (rewrite <- Edn in Hd; apply NoDup_app in Hd as (_ & _ & Hd); by inversion Hd).
      apply IH.
      + by rewrite <- app_assoc.
      + lia.
      + by rewrite lookup_delete_ne by done.
      + intros q Hq. rewrite lookup_delete_ne by (intros ->; done). apply Hrest. by right.
      + intros q Hq Hqr. destruct (decide (q = p)) as [-> |]; [by rewrite lookup_delete_eq|]. rewrite lookup_delete_ne by done. apply Hr; [done|]. intros [?|?]%elem_of_cons; done. }
  destruct (Hgen ps (S (length l)) [] h eq_refl) as (h' & E & [o Ho] & Hh'); [unfold l; rewrite length_app; lia|done| |done|].
  { intros q (i & Hi)%list_elem_of_lookup. destruct (Forall2_lookup_l _ _ _ _ _ Hw Hi) as (v & _ & ->). by eexists. }
  change (alen []) with 0 in E. rewrite E, Some_bind. unfold kfree. destruct (Z.eqb_spec argv 0); [lia|]. rewrite Ho, Some_bind. f_equal.
  apply map_eq. intros q. destruct (decide (q = argv)) as [-> |]; [by rewrite lookup_delete_eq|]. rewrite lookup_delete_ne by done. by apply Hh'.
Qed.

Section SplitFacts.
Context `{AllocatorLaws A}.
Implicit Types a : A.

Lemma kstrndup_word a h b p w r :
  cstr b p (w ++ r) → alen b < 2 ^ 32 → ∃ a' h' q, kstrndup a h b (Some p) (u32 (p + alen w - p)) = Some (a', h', q) ∧ duplicated h h' q (w ++ [0]).
Proof.
  intros Ht Hb. pose proof (cstr_bound _ _ _ Ht) as Hl. rewrite alen_app in Hl. pose proof (alen_nonneg w). pose proof (alen_nonneg r).
  replace (p + alen w - p) with (alen w) by lia. rewrite uwrap_small by (unfold urange; lia).
  destruct (kstrndup_ok a h b p (w ++ r) (alen w) Ht Hb ltac:(unfold urange; lia)) as (a' & h' & q & E & Hd). exists a', h', q. split; [done|].
  unfold alen in Hd. rewrite Nat2Z.id, take_app_length in Hd. done.
Qed.

(** The loop stores copies of all words, or stops with some of them. *)
Lemma split_loop_ok b argv h0 n f :
  alen b < 2 ^ 32 → ∀ p t a h ps ws, cstr b p t → (length t < f)%nat → vector h0 argv n ps ws h → (length ps + length (words_of t) < n)%nat →
  ∃ a' h' r, loop f (split_turn b argv) (a, h, p, alen ps) = Some (a', h', r) ∧
    match r with
    | Some i => ∃ qs, i = alen qs ∧ vector h0 argv n qs (ws ++ words_of t) h'
    | None => ∃ qs vs, (length qs < n)%nat ∧ vector h0 argv n qs vs h'
    end.
Proof.
  intros Hb. induction f as [|f IH]; intros p t a h ps ws Ht Hf Hv Hn; [lia|]. cbn [loop split_turn]. destruct (decide (t = [])) as [-> |Hne].
  { apply cstr_cons in Ht. rewrite Ht. cbn. eexists _, _, _. split; [done|]. exists ps. split; [done|]. by rewrite app_nil_r. }
  destruct (turn_char b p t Ht Hne) as (c & Hc & Hcc). rewrite Hc, Some_bind, Hcc. destruct (next_word t) as [Hs|(sp & w & r & -> & Hsp & Hw & Hwn & Hr)].
  - destruct (turn_spaces b p t Ht Hs) as (-> & He). rewrite Some_bind, He, !Some_bind. change (ctrue 0) with false. cbv iota. rewrite words_none in * by done.
    rewrite Some_bind. cbv iota. destruct (IH (p + alen t) [] a h ps ws) as (a' & h' & r & E & Hr); [exact He| |done|done|by exists a', h', r].
    destruct t; cbn in *; [done|lia].
  - destruct (turn_word b p sp w r Ht Hsp Hw Hwn Hr) as (-> & H1 & E1 & H2 & c' & Hc' & Hcc'). rewrite Some_bind, Hc', Some_bind, Hcc'. cbv zeta. rewrite E1, Some_bind.
    rewrite words_spaces, words_word in * by done. rewrite !length_app in Hf. assert (0 < length w)%nat by (destruct w; [done|cbn; lia]). cbn [length] in Hn.
    destruct (kstrndup_word a h b (p + alen sp) w r H1 Hb) as (a1 & h1 & q & E2 & [[-> ->]|(Hq & Hqn & Hh1)]); rewrite E2, Some_bind; cbv iota.
    + cbn. eexists _, _, _. split; [done|]. exists ps, ws. split; [lia|done].
    + destruct (Z.eqb_spec q 0); [lia|]. destruct (vector_snoc h0 argv n ps ws h q w h1 Hv ltac:(lia) Hq Hqn Hh1) as (h2 & E3 & Hv2). rewrite E3, !Some_bind.
      replace (alen ps + 1) with (alen (ps ++ [q])) by (by rewrite alen_app).
      destruct (IH (p + alen sp + alen w) r a1 h2 (ps ++ [q]) (ws ++ [w]) H2 ltac:(lia) Hv2 ltac:(rewrite length_app; cbn; lia)) as (a' & h' & res & E & Hres).
      exists a', h', res. split; [done|]. by rewrite <- app_assoc in Hres.
Qed.

(** C22: Argument vectors.  On a text of fewer than 2^29 characters [argv_split] returns for every allocator: null with the
    heap as before, or a vector of pointers to copies of the words of the text, between white space and in order, with a null pointer behind them,
    and the number of words in [*argcp]; every other object is the old one, and [argv_free] of the vector gives the old heap back. *)
Theorem argv_split_correct (a : A) (h : heap) (b : list Z) (p : Z) (t : list Z) (Ht : cstr b p t) (Hb : alen b < 2 ^ 29) :
  ∃ a' h' argv argc, argv_split a h b p = Some (a', h', argv, argc) ∧
    (argv = 0 ∧ h' = h ∨
     0 < argv ∧ argc = Some (alen (words_of t)) ∧ h ⊆ h' ∧ argv_free h' argv = Some h ∧
     ∃ ps, h' !! argv = Some (Ptrs (ps ++ [0])) ∧ Forall2 (λ q w, h' !! q = Some (Chars (w ++ [0]))) ps (words_of t)).
Proof.
  pose proof (cstr_bound _ _ _ Ht) as Hl. pose proof (words_length t) as Hw. pose proof (cstr_fuel _ _ _ Ht) as Hf. unfold argv_split.
  rewrite (count_argc_ok b p t Ht) by lia. rewrite Some_bind. assert (Hsz : 0 < alen (words_of t) + 1 ≤ 2 ^ 29 + 1) by (unfold alen in *; lia).
  rewrite uwrap_small by (unfold urange, alen in *; lia). unfold kzalloc_ptrs. destruct (kmalloc a h (4 * (alen (words_of t) + 1))) as [a1 [[argv g]|]] eqn:E.
  - apply kmalloc_fresh in E as (Hp & Hn & _); [|lia]. destruct (Z.eqb_spec argv 0) as [|_]; [lia|].
    replace (4 * (alen (words_of t) + 1) / 4) with (alen (words_of t) + 1) by (rewrite Z.mul_comm, Z.div_mul by lia; done).
    set (n := Z.to_nat (alen (words_of t) + 1)). assert (En : n = S (length (words_of t))) by (unfold n, alen; lia).
    destruct (split_loop_ok b argv h n (S (length b)) ltac:(lia) p t a1 _ [] [] Ht Hf (vector_nil h argv n Hn) ltac:(cbn; lia)) as (a' & h' & r & E & Hr).
    change (alen []) with 0 in E. rewrite E, Some_bind. destruct r as [i|].
    + destruct Hr as (qs & -> & Hv). cbn [app] in Hv. pose proof (Forall2_length _ _ _ (vec_words _ _ _ _ _ _ Hv)) as Hlen.
      pose proof (vec_argv _ _ _ _ _ _ Hv) as Ha. replace (n - length qs)%nat with 1%nat in Ha by lia. cbn [replicate] in Ha. unfold set_ptr.
      rewrite (ptrs_of_ok _ _ _ Ha), Some_bind, arr_set_lt, !Some_bind by (rewrite alen_app; change (alen [0]) with 1; pose proof (alen_nonneg qs); lia).
      replace (Z.to_nat (alen qs)) with (length qs + 0)%nat by (unfold alen; lia). rewrite insert_app_r. cbn [insert list_insert]. rewrite (insert_id _ _ _ Ha).
      eexists _, _, _, _. split; [done|]. right. ands; [done|done| |by eapply argv_free_ok; [done|lia|lia]|by exists qs; split; [done|apply Hv]].
      apply map_subseteq_spec. intros q o Hq. rewrite (vec_rest _ _ _ _ _ _ Hv); [done|congruence|]. intros Hin.
      destruct (proj1 (Forall_forall _ _) (vec_ptrs _ _ _ _ _ _ Hv) q Hin) as (_ & _ & ?). congruence.
    + destruct Hr as (qs & vs & Hlen & Hv). rewrite (argv_free_ok _ _ _ _ _ _ Hv Hp Hlen), Some_bind. eexists _, _, _, _. split; [done|]. by left.
  - cbn. eexists _, _, _, _. split; [done|]. by left.
Qed.
End SplitFacts.

(** " ls  -l" with enough memory and with too little. *)
Lemma argv_split_correct_witness :
  let b := [32; 108; 115; 32; 32; 45; 108; 0] in
  words_of [32; 108; 115; 32; 32; 45; 108] = [[108; 115]; [45; 108]] ∧
  (∃ a' h' argv argc, argv_split 3%nat ∅ b 0 = Some (a', h', argv, argc) ∧ argv_free h' argv = Some ∅) ∧
  argv_split 2%nat ∅ b 0 = Some (O, ∅, 0, Some 2).
Proof.
  intros b. split; [by vm_compute|]. split; [|by vm_compute]. assert (H1 : cstr b 0 [32; 108; 115; 32; 32; 45; 108]) by (vm_compute; done).
  destruct (argv_split_correct 3%nat ∅ b 0 _ H1 ltac:(by vm_compute)) as (a' & h' & argv & argc & E & [[-> ->]|(_ & _ & _ & Hf & _)]); [by vm_compute in E|].
  exists a', h', argv, argc. split; [exact E|exact Hf].
Defined.
