(* ===== verification/Cmdline.v ===== *)
(** * Options of the command line

    Models [lib/cmdline.c]: lists of numbers and ranges ([get_option], [get_options]) and sizes with a suffix
    ([memparse]).  The text is one object and the array of integers another; a store outside of the array is
    a failure of the model. *)

From S2P Require Import Prelude Strings StringsFacts StringLib Hash StringLibFacts.
#[local] Open Scope Z_scope.
#[local] Open Scope kernel_scope.

(** The new value of [*str], the array and the result; [pint] is an index of the array. *)
Definition get_range (b : list Z) (str : Z) (ints : list Z) (pint : Z) : option (Z * list Z * Z) :=
  let str := str + 1 in
  '(upper_range, _) ← simple_strtol b str 0;
  first ← ints.[pint];
  let inc_counter := s32 (upper_range - first) in
  ints ← loop (S (length ints)) (λ '(ints, pint, x),
    if x <? upper_range then ints ← ints.[pint <- x]; Some (inl (ints, pint + 1, s32 (x + 1))) else Some (inr ints)) (ints, pint, first);
  Some (str, ints, inc_counter).

(** The result, the new value of [*str] and the array. *)
Definition get_option (b : list Z) (str : option Z) (ints : list Z) (pint : Z) : option (Z * option Z * list Z) :=
  match str with
  | None => Some (0, None, ints)
  | Some cur =>
      c ← b.[cur];
      if ctrue c then
        '(v, str) ← simple_strtol b cur 0;
        ints ← ints.[pint <- v];
        if cur =? str then Some (0, Some str, ints) else
        d ← b.[str];
        if d =? 44 then Some (2, Some (str + 1), ints) else
        if d =? 45 then Some (3, Some str, ints) else Some (1, Some str, ints)
      else Some (0, Some cur, ints)
  end.

(** A turn of the loop of [get_options] at a pointer that is not null. *)
Definition get_options_turn (b : list Z) (nints : Z) (s : Z * Z * list Z) : option (Z * Z * list Z + Z * Z * list Z) :=
  let '(str, i, ints) := s in
  if i <? nints then
    '(res, str', ints) ← get_option b (Some str) ints i;
    str ← str';
    if res =? 0 then Some (inr (str, i, ints)) else
    if res =? 3 then
      '(str, ints, range_nums) ← get_range b str ints i;
      if range_nums <? 0 then Some (inr (str, i, ints)) else Some (inl (str, s32 (s32 (i + (range_nums - 1)) + 1), ints))
    else
      let i := s32 (i + 1) in
      Some (if res =? 1 then inr (str, i, ints) else inl (str, i, ints))
  else Some (inr (str, i, ints)).

Definition get_options (b : list Z) (str nints : Z) (ints : list Z) : option (Z * list Z) :=
  '(str, i, ints) ← loop (S (length b)) (get_options_turn b nints) (str, 1, ints);
  ints ← ints.[0 <- s32 (i - 1)];
  Some (str, ints).

(** The value and [*retptr]; the cases fall through. *)
Definition memparse (b : list Z) (ptr : Z) : option (Z * Z) :=
  '(ret, endptr) ← simple_strtoull b ptr 0;
  c ← b.[endptr];
  let shl r := u64 (Z.shiftl r 10) in
  Some (if (c =? 71) || (c =? 103) then (shl (shl (shl ret)), endptr + 1) else
        if (c =? 77) || (c =? 109) then (shl (shl ret), endptr + 1) else
        if (c =? 75) || (c =? 107) then (shl ret, endptr + 1) else (ret, endptr)).

(** ** Decimal numbers *)

(** Decimal digits without a zero in front. *)
Definition dnum (ds : list Z) : Prop :=
  Forall (λ c, 48 ≤ c ≤ 57) ds ∧ match ds with [] => False | c :: ds => c = 48 → ds = [] end.

Definition dnum_val (ds : list Z) : Z := numval 10 ds.

(** What may follow a number. *)
Definition num_end (rest : list Z) : Prop := match rest with [] => True | c :: _ => isdigit c = false ∧ TOLOWER c ≠ 120 end.

Lemma is_dig_digit base c : char c → 2 ≤ base ≤ 10 → is_dig base c = true → isdigit c = true.
Proof.
  intros Hc Hb. unfold is_dig. pose proof (byte_all (λ c, negb (isxdigit c) || isdigit c || (10 <=? dval c)) eq_refl c ltac:(unfold char in Hc; lia)) as H. cbv beta in H.
  intros [Hx Hv%Z.ltb_lt]%andb_true_iff. rewrite Hx in H. cbn [negb orb] in H. apply orb_true_iff in H as [?|?%Z.leb_le]; [done|lia].
Qed.

Lemma digit_10 c : 48 ≤ c ≤ 57 → is_dig 10 c = true ∧ dval c = c - 48.
Proof.
  intros Hc. pose proof (byte_all (λ c, negb ((48 <=? c) && (c <=? 57)) || (is_dig 10 c && (dval c =? c - 48))) eq_refl c ltac:(lia)) as H. cbv beta in H.
  destruct (Z.leb_spec 48 c), (Z.leb_spec c 57); try lia. cbn [negb andb orb] in H. apply andb_true_iff in H as [? ?%Z.eqb_eq]. done.
Qed.

Lemma dnum_chars ds : dnum ds → Forall char ds.
Proof. intros [Hd _]. eapply List.Forall_impl; [|done]. unfold char. intros. cbv beta in *. lia. Qed.

Lemma no_digit_end base rest : Forall char rest → num_end rest → 2 ≤ base ≤ 10 → no_digit base rest.
Proof.
  intros Hc Hr Hb. destruct rest as [|c r]; [done|]. cbn. apply list.Forall_cons in Hc as [Hc _]. destruct Hr as [Hr _]. destruct (is_dig base c) eqn:E; [|done].
  apply is_dig_digit in E; [congruence|done|done].
Qed.

Lemma hex_prefix_10 t base : 2 ≤ base ≤ 10 → hex_prefix base t = [].
Proof. intros Hb. destruct t as [|c0 [|c1 t]]; unfold hex_prefix; try done; destruct (Z.eqb_spec base 16); try lia; destruct c0 as [|q|q]; try done; do 6 (destruct q as [q|q|]; try done). Qed.

(** The base that is guessed reads a decimal number as it is. *)
Lemma dnum_guess ds rest :
  dnum ds → Forall char rest → num_end rest → let base := guess_base (ds ++ rest) in 2 ≤ base ≤ 10 ∧ digits_prefix base (ds ++ rest) = ds ∧ numval base ds = dnum_val ds.
Proof.
  intros [Hd Hz] Hc Hr. destruct ds as [|c ds]; [done|]. destruct (decide (c = 48)) as [-> |Hne].
  - rewrite (Hz eq_refl) in *. assert (guess_base ([48] ++ rest) = 8) as ->.
    { destruct rest as [|x [|y r]]; [done|done|]. cbn [app guess_base]. destruct Hr as [_ Hx]. destruct (Z.eqb_spec (TOLOWER x) 120); done. }
    cbv zeta. ands; [lia|lia| |done]. apply digits_prefix_app; [by repeat constructor|]. by apply no_digit_end.
  - assert (guess_base ((c :: ds) ++ rest) = 10) as ->.
    { cbn [app]. unfold guess_base. destruct c as [|q|q]; try done. do 6 (destruct q as [q|q|]; try done). }
    cbv zeta. ands; [lia|lia| |done]. apply digits_prefix_app; [|by apply no_digit_end]. eapply List.Forall_impl; [|exact Hd]. intros x Hx. by apply digit_10.
Qed.

Lemma strtoull_dnum b p ds rest :
  cstr b p (ds ++ rest) → dnum ds → num_end rest → simple_strtoull b p 0 = Some (u64 (dnum_val ds), p + alen ds).
Proof.
  intros H Hd Hr. pose proof (cstr_chars _ _ _ H) as [_ Hc]%Forall_app. destruct (dnum_guess ds rest Hd Hc Hr) as (Hb & Hp & Hv).
  rewrite (strtoull_ok b p _ 0 H). change (base_of 0 (ds ++ rest)) with (guess_base (ds ++ rest)). cbv zeta. unfold number_digits. rewrite hex_prefix_10 by done.
  change (drop (length []) (ds ++ rest)) with (ds ++ rest). rewrite Hp, Hv. change (alen []) with 0. by rewrite Z.add_0_r.
Qed.

Lemma dnum_val_nonneg ds : Forall (λ c, 48 ≤ c ≤ 57) ds → 0 ≤ dnum_val ds.
Proof.
  intros Hd. unfold dnum_val. induction ds as [|c ds IH] using rev_ind; [done|]. apply Forall_app in Hd as [Hd [Hc _]%list.Forall_cons].
  rewrite numval_snoc. destruct (digit_10 c Hc) as [_ ->]. specialize (IH Hd). lia.
Qed.

Lemma strtol_dnum b p ds rest :
  cstr b p (ds ++ rest) → dnum ds → num_end rest → dnum_val ds < 2 ^ 31 → simple_strtol b p 0 = Some (dnum_val ds, p + alen ds).
Proof.
  intros H Hd Hr Hv. unfold simple_strtol, simple_strtoul. destruct ds as [|c ds'] eqn:E; [by destruct Hd|]. rewrite <- E in *.
  assert (b.[p] = Some c) as -> by (rewrite E in H; apply H). rewrite Some_bind. assert (48 ≤ c) by (destruct Hd as [Hd _]; rewrite E in Hd; apply list.Forall_cons in Hd as [? _]; lia).
  destruct (Z.eqb_spec c 45); [lia|]. rewrite (strtoull_dnum b p ds rest) by done. cbn [mbind option_bind].
  pose proof (dnum_val_nonneg ds (proj1 Hd)). rewrite u32_u64, uwrap_small, s32_small by (unfold urange; lia). done.
Qed.

(** ** The array *)

Lemma write_app (b : list Z) d (l l' : list Z) :
  0 ≤ d → d + alen (l ++ l') ≤ alen b → ∃ b1, arr_write b d l = Some b1 ∧ alen b1 = alen b ∧ arr_write b d (l ++ l') = arr_write b1 (d + alen l) l'.
Proof.
  revert b d. induction l as [|c l IH]; intros b d Hd Hl; cbn [app] in *.
  - rewrite write_nil by (pose proof (alen_nonneg l'); lia). exists b. ands; [done|done|]. change (alen []) with 0. by rewrite Z.add_0_r.
  - rewrite alen_cons in *. pose proof (alen_nonneg (l ++ l')). pose proof (alen_nonneg l). pose proof (alen_nonneg l'). assert (alen (l ++ l') = alen l + alen l') by (apply alen_app).
    rewrite !arr_write_cons by lia. destruct (IH (<[Z.to_nat d := c]> b) (d + 1)) as (b1 & E1 & Ha & E2); [lia|rewrite alen_insert; lia|].
    exists b1. rewrite alen_insert in Ha. ands; [done|done|]. rewrite E2. f_equal. lia.
Qed.

Lemma write_over (b : list Z) d x y (l : list Z) : 0 ≤ d → d + 1 + alen l ≤ alen b → arr_write (<[Z.to_nat d := x]> b) d (y :: l) = arr_write b d (y :: l).
Proof. intros Hd Hl. rewrite !arr_write_cons by (rewrite ?alen_insert; lia). by rewrite list_insert_insert_eq. Qed.

Lemma range_loop_ok ints pint x upper f :
  0 ≤ pint → pint + (upper - x) ≤ alen ints → x ≤ upper < 2 ^ 31 → - 2 ^ 31 ≤ x → (Z.to_nat (upper - x) < f)%nat →
  loop f (λ '(ints, pint, x), if x <? upper then ints ← ints.[pint <- x]; Some (inl (ints, pint + 1, s32 (x + 1))) else Some (inr ints)) (ints, pint, x) =
  arr_write ints pint (seqZ x (upper - x)).
Proof.
  remember (Z.to_nat (upper - x)) as k eqn:Ek. revert ints pint x f Ek. induction k as [|k IH]; intros ints pint x f Ek Hp Hl Hx Hx0 Hf; (destruct f as [|f]; [lia|]); cbn [loop].
  - destruct (Z.ltb_spec x upper); [lia|]. rewrite seqZ_nil, write_nil by lia. done.
  - destruct (Z.ltb_spec x upper); [|lia]. rewrite arr_set_lt, !Some_bind, s32_small by lia. rewrite seqZ_cons by lia.
    assert (Hls : alen (seqZ (Z.succ x) (Z.pred (upper - x))) = upper - x - 1) by (unfold alen; rewrite length_seqZ; lia).
    rewrite arr_write_cons by lia. rewrite IH by (rewrite ?alen_insert; lia). f_equal. f_equal; lia.
Qed.

(** ** Lists of numbers and ranges *)

Inductive opt := One (ds : list Z) | Range (ds es : list Z).

Definition opt_text (o : opt) : list Z := match o with One ds => ds | Range ds es => ds ++ 45 :: es end.
Definition opt_vals (o : opt) : list Z :=
  match o with One ds => [dnum_val ds] | Range ds es => seqZ (dnum_val ds) (dnum_val es - dnum_val ds + 1) end.
Definition opt_ok (o : opt) : Prop :=
  match o with
  | One ds => dnum ds ∧ dnum_val ds < 2 ^ 31
  | Range ds es => dnum ds ∧ dnum es ∧ dnum_val ds ≤ dnum_val es < 2 ^ 31
  end.

(** The text of a list, with commas between. *)
Fixpoint opts_text (o : opt) (os : list opt) : list Z :=
  match os with [] => opt_text o | o' :: os => opt_text o ++ 44 :: opts_text o' os end.

Definition opts_vals (os : list opt) : list Z := concat (map opt_vals os).

(** What may follow a list. *)
Definition opts_end (rest : list Z) : Prop := num_end rest ∧ match rest with [] => True | c :: _ => c ≠ 44 ∧ c ≠ 45 end.

Lemma get_option_dnum b p ds rest ints i :
  cstr b p (ds ++ rest) → dnum ds → num_end rest → dnum_val ds < 2 ^ 31 → 0 ≤ i < alen ints →
  get_option b (Some p) ints i =
    Some (match rest with 44 :: _ => 2 | 45 :: _ => 3 | _ => 1 end, Some (match rest with 44 :: _ => p + alen ds + 1 | _ => p + alen ds end), <[Z.to_nat i := dnum_val ds]> ints).
Proof.
  intros H Hd Hr Hv Hi. unfold get_option. pose proof (strtol_dnum b p ds rest H Hd Hr Hv) as E. pose proof (cstr_app _ _ _ _ H) as H1.
  destruct ds as [|c ds'] eqn:Eds; [by destruct Hd|]. destruct H as (Hc & Hch & _). rewrite Hc, Some_bind, char_ctrue by done. rewrite <- Eds in *. rewrite E, Some_bind.
  rewrite arr_set_lt, Some_bind by done. assert (0 < alen ds) by (rewrite Eds, alen_cons; pose proof (alen_nonneg ds'); lia). destruct (Z.eqb_spec p (p + alen ds)); [lia|].
  apply cstr_cons in H1. destruct rest as [|x r]; [by rewrite H1|]. destruct H1 as (-> & Hx & _). rewrite Some_bind. clear -Hx.
  destruct (Z.eqb_spec x 44) as [-> |]; [done|]. destruct (Z.eqb_spec x 45) as [-> |]; [done|].
  destruct x as [|q|q]; try done. do 6 (destruct q as [q|q|]; try done).
Qed.

Section Options.
Context (b : list Z) (nints : Z) (Hn : nints < 2 ^ 31).

Lemma comma_end t : num_end (44 :: t).
Proof. by split. Qed.
Lemma dash_end t : num_end (45 :: t).
Proof. by split. Qed.

Lemma one_comma p ds t ints i :
  cstr b p (ds ++ 44 :: t) → dnum ds → dnum_val ds < 2 ^ 31 → 1 ≤ i < nints → nints ≤ alen ints →
  get_options_turn b nints (p, i, ints) = Some (inl (p + alen ds + 1, i + 1, <[Z.to_nat i := dnum_val ds]> ints)).
Proof.
  intros H Hd Hv Hi Hl. cbn [get_options_turn]. rewrite (proj2 (Z.ltb_lt i nints)) by lia. rewrite (get_option_dnum b p ds (44 :: t)) by (done || lia || apply comma_end).
  rewrite !Some_bind. cbn [Z.eqb Pos.eqb]. by rewrite s32_small by lia.
Qed.

Lemma one_end p ds rest ints i :
  cstr b p (ds ++ rest) → opts_end rest → dnum ds → dnum_val ds < 2 ^ 31 → 1 ≤ i < nints → nints ≤ alen ints →
  get_options_turn b nints (p, i, ints) = Some (inr (p + alen ds, i + 1, <[Z.to_nat i := dnum_val ds]> ints)).
Proof.
  intros H [Hr Hr'] Hd Hv Hi Hl. cbn [get_options_turn]. rewrite (proj2 (Z.ltb_lt i nints)) by lia. rewrite (get_option_dnum b p ds rest) by (done || lia).
  assert (match rest with 44 :: _ => 2 | 45 :: _ => 3 | _ => 1 end = 1 ∧ match rest with 44 :: _ => p + alen ds + 1 | _ => p + alen ds end = p + alen ds) as [-> ->].
  { destruct rest as [|x r]; [done|]. destruct Hr' as [H1 H2]. destruct x as [|q|q]; try done. do 6 (destruct q as [q|q|]; try done). }
  rewrite !Some_bind. cbn [Z.eqb Pos.eqb]. by rewrite s32_small by lia.
Qed.

Lemma range_turn p ds es rest ints i ints1 :
  cstr b p ((ds ++ 45 :: es) ++ rest) → opt_ok (Range ds es) → num_end rest → 1 ≤ i → i + (dnum_val es - dnum_val ds) < nints → nints ≤ alen ints →
  arr_write (<[Z.to_nat i := dnum_val ds]> ints) i (seqZ (dnum_val ds) (dnum_val es - dnum_val ds)) = Some ints1 →
  get_options_turn b nints (p, i, ints) = Some (inl (p + alen ds + 1, i + (dnum_val es - dnum_val ds), ints1)).
Proof.
  intros H (Hd & He & Hle & Hv) Hr Hi Hin Hl E. rewrite <- app_assoc in H. cbn [app] in H. pose proof (dnum_val_nonneg ds (proj1 Hd)) as H0. cbn [get_options_turn]. rewrite (proj2 (Z.ltb_lt i nints)) by lia.
  rewrite (get_option_dnum b p ds (45 :: es ++ rest)) by (done || lia || apply dash_end). rewrite !Some_bind. cbn [Z.eqb Pos.eqb]. unfold get_range.
  pose proof (cstr_app _ _ _ _ H) as (_ & _ & H1). rewrite (strtol_dnum b _ es rest H1 He Hr Hv), Some_bind.
  rewrite arr_get_insert by lia. rewrite decide_True by done. rewrite Some_bind. cbv zeta. rewrite length_insert.
  rewrite range_loop_ok by (rewrite ?alen_insert; unfold alen in *; lia). rewrite E, !Some_bind. rewrite !s32_small by lia.
  destruct (Z.ltb_spec (dnum_val es - dnum_val ds) 0); [lia|]. rewrite (s32_small (i + _)), s32_small by lia. by replace (i + (dnum_val es - dnum_val ds - 1) + 1) with (i + (dnum_val es - dnum_val ds)) by lia.
Qed.

(** A range and its last number, stored one after the other. *)
Lemma range_write ints i lo n x l :
  0 ≤ i → 0 ≤ n → i + n + 1 + alen l ≤ alen ints →
  ∃ ints1, arr_write (<[Z.to_nat i := lo]> ints) i (seqZ lo n) = Some ints1 ∧ alen ints1 = alen ints ∧ arr_write ints1 (i + n) (x :: l) = arr_write ints i (seqZ lo n ++ x :: l).
Proof.
  intros Hi Hn0 Hl. pose proof (alen_nonneg l). assert (Hs : alen (seqZ lo n) = n) by (unfold alen; rewrite length_seqZ; lia). destruct (decide (n = 0)) as [-> |].
  - exists (<[Z.to_nat i := lo]> ints). rewrite seqZ_nil, write_nil, alen_insert by (rewrite ?alen_insert; lia). ands; [done|done|]. rewrite Z.add_0_r. apply write_over; lia.
  - destruct (write_app ints i (seqZ lo n) (x :: l)) as (b1 & E1 & Ha & E2); [done|rewrite alen_app, alen_cons; lia|]. exists b1. rewrite Hs in E2. ands; [|done|done].
    rewrite <- E1. rewrite seqZ_cons in Hs |- * by lia. rewrite alen_cons in Hs. apply write_over; lia.
Qed.

Lemma seqZ_last m n : 0 ≤ n → seqZ m (n + 1) = seqZ m n ++ [m + n].
Proof. intros Hn0. rewrite seqZ_app by lia. done. Qed.

Definition opts_run (o : opt) (os : list opt) : Prop := ∀ p i ints f rest,
  Forall opt_ok (o :: os) → opts_end rest → cstr b p (opts_text o os ++ rest) → 1 ≤ i → i + alen (opts_vals (o :: os)) ≤ nints → nints ≤ alen ints →
  (length (opts_text o os) < f)%nat →
  ∃ ints', arr_write ints i (opts_vals (o :: os)) = Some ints' ∧
    loop f (get_options_turn b nints) (p, i, ints) = Some (p + alen (opts_text o os), i + alen (opts_vals (o :: os)), ints').

Lemma opts_run_one ds os : match os with [] => True | o :: os => opts_run o os end → opts_run (One ds) os.
Proof.
  intros IH p i ints f rest Hok Hr H Hi Hin Hl Hf. apply list.Forall_cons in Hok as [[Hd Hv] Hok]. destruct f as [|f]; [lia|]. cbn [loop].
  change (opts_vals (One ds :: os)) with (dnum_val ds :: opts_vals os) in *. rewrite alen_cons in *. pose proof (alen_nonneg (opts_vals os)). destruct os as [|o os]; cbn [opts_text opt_text] in *.
  - rewrite (one_end p ds rest) by (done || lia). cbn [mbind option_bind]. eexists. split; [|done]. rewrite arr_write_cons by (change (alen (opts_vals [])) with 0; lia).
    by rewrite write_nil by (rewrite alen_insert; lia).
  - rewrite <- app_assoc in H. cbn [app] in H. rewrite (one_comma p ds (opts_text o os ++ rest)) by (done || lia). rewrite Some_bind. cbv iota.
    rewrite length_app in Hf. cbn [length] in Hf. pose proof (cstr_app _ _ _ _ H) as (_ & _ & H1).
    destruct (IH (p + alen ds + 1) (i + 1) (<[Z.to_nat i := dnum_val ds]> ints) f rest Hok Hr H1) as (ints' & E & ->); [lia|lia|by rewrite alen_insert|lia|].
    exists ints'. rewrite arr_write_cons by lia. split; [done|]. rewrite alen_app, alen_cons. do 2 f_equal. f_equal; lia.
Qed.

Lemma opts_text_one es os rest : opts_end rest → ∃ r, opts_text (One es) os ++ rest = es ++ r ∧ num_end r.
Proof. intros [Hr _]. destruct os as [|o os]; cbn [opts_text opt_text]; [by exists rest|]. eexists. rewrite <- app_assoc. split; [done|]. apply comma_end. Qed.

Lemma opts_text_range ds es os : opts_text (Range ds es) os = ds ++ 45 :: opts_text (One es) os.
Proof. destruct os; cbn [opts_text opt_text]; [done|]. by rewrite <- app_assoc. Qed.

Lemma opts_vals_range ds es os :
  dnum_val ds ≤ dnum_val es → opts_vals (Range ds es :: os) = seqZ (dnum_val ds) (dnum_val es - dnum_val ds) ++ opts_vals (One es :: os).
Proof.
  intros Hle. change (opts_vals (Range ds es :: os)) with (seqZ (dnum_val ds) (dnum_val es - dnum_val ds + 1) ++ opts_vals os). rewrite seqZ_last by lia.
  rewrite <- app_assoc. cbn [app]. change (opts_vals (One es :: os)) with (dnum_val es :: opts_vals os). do 2 f_equal. lia.
Qed.

Lemma opts_run_range ds es os : opts_run (One es) os → opts_run (Range ds es) os.
Proof.
  intros IH p i ints f rest Hok Hr H Hi Hin Hl Hf. apply list.Forall_cons in Hok as [Hok1 Hok]. assert (Hok2 := Hok1). destruct Hok2 as (Hd & He & Hle & Hv).
  rewrite opts_vals_range in * by done. rewrite opts_text_range in *. rewrite length_app in Hf. cbn [length] in Hf. rewrite alen_app in Hin. set (n := dnum_val es - dnum_val ds) in *.
  assert (Hs : alen (seqZ (dnum_val ds) n) = n) by (unfold alen; rewrite length_seqZ; lia). rewrite Hs in Hin. pose proof (alen_nonneg (opts_vals os)).
  change (opts_vals (One es :: os)) with (dnum_val es :: opts_vals os) in Hin |- * at 1. rewrite alen_cons in Hin. destruct f as [|f]; [lia|]. cbn [loop].
  destruct (range_write ints i (dnum_val ds) n (dnum_val es) (opts_vals os)) as (ints1 & E1 & Ha & E2); [lia|lia|lia|].
  destruct (opts_text_one es os rest Hr) as (r & Er & Hre). assert (H' : cstr b p ((ds ++ 45 :: es) ++ r)) by (by rewrite <- app_assoc; cbn [app]; rewrite <- Er; rewrite <- app_assoc in H).
  rewrite (range_turn p ds es r ints i ints1 H' Hok1 Hre) by (done || lia). fold n. rewrite Some_bind. cbv iota.
  rewrite <- app_assoc in H. cbn [app] in H. pose proof (cstr_app _ _ _ _ H) as (_ & _ & H1).
  destruct (IH (p + alen ds + 1) (i + n) ints1 f rest) as (ints' & E & ->); [by constructor|done|done|lia| |lia|lia|].
  { change (opts_vals (One es :: os)) with (dnum_val es :: opts_vals os). rewrite alen_cons. lia. }
  exists ints'. change (opts_vals (One es :: os)) with (dnum_val es :: opts_vals os) in *. rewrite <- E2, E. split; [done|]. rewrite !alen_app, !alen_cons, Hs. do 2 f_equal. f_equal; lia.
Qed.

Lemma opts_run_all os o : opts_run o os.
Proof.
  revert o. induction os as [|o' os IH]; intros [ds|ds es]; try apply opts_run_range; by apply opts_run_one.
Qed.
End Options.

(** C23: Lists of options.  On a list of decimal numbers and ranges with commas between, whose numbers all fit the array, [get_options] stores
    the number of numbers in [ints[0]] and the numbers behind it, each range as all of its numbers, leaves the rest of the array,
    and returns a pointer behind the list. *)
Theorem get_options_correct (b : list Z) (p nints : Z) (ints : list Z) (o : opt) (os : list opt) (rest : list Z)
  (Ht : cstr b p (opts_text o os ++ rest)) (Hok : Forall opt_ok (o :: os)) (Hend : opts_end rest)
  (Hroom : alen (opts_vals (o :: os)) < nints ≤ alen ints) (Hn : nints < 2 ^ 31) :
  get_options b p nints ints =
    Some (p + alen (opts_text o os),
          alen (opts_vals (o :: os)) :: opts_vals (o :: os) ++ drop (Z.to_nat (1 + alen (opts_vals (o :: os)))) ints).
Proof.
  pose proof (cstr_fuel _ _ _ Ht) as Hf. rewrite length_app in Hf. set (vs := opts_vals (o :: os)) in *. pose proof (alen_nonneg vs).
  destruct (opts_run_all b nints Hn os o p 1 ints (S (length b)) rest) as (ints' & E & E'); [done|done|done|lia|fold vs; lia|lia|lia|]. fold vs in E, E'.
  unfold get_options. rewrite E', Some_bind. rewrite arr_write_ok in E by lia. injection E as <-. destruct ints as [|x ints]; [change (alen []) with 0 in Hroom; lia|].
  change (slice (x :: ints) 0 1) with [x]. rewrite arr_set_lt, Some_bind by (cbn [app]; rewrite alen_cons, alen_app; pose proof (alen_nonneg (drop (Z.to_nat (1 + alen vs)) (x :: ints))); lia).
  cbn [app]. change (Z.to_nat 0) with 0%nat. cbn [insert list_insert]. rewrite s32_small by lia. by replace (1 + alen vs - 1) with (alen vs) by lia.
Qed.

(** "3,5-7" into five integers. *)
Lemma get_options_correct_witness :
  let b := [51; 44; 53; 45; 55; 0] in
  get_options b 0 5 [9; 9; 9; 9; 9; 9] = Some (5, [4; 3; 5; 6; 7; 9]) ∧ opts_vals [One [51]; Range [53] [55]] = [3; 5; 6; 7].
Proof.
  intros b. split; [|by vm_compute]. assert (H1 : cstr b 0 (opts_text (One [51]) [Range [53] [55]] ++ [])) by (vm_compute; done).
  rewrite (get_options_correct b 0 5 [9; 9; 9; 9; 9; 9] (One [51]) [Range [53] [55]] [] H1); [done| |done|done|done].
  repeat constructor; try (by vm_compute); by intros [=].
Defined.

(** A range is not limited by the size of the array: the numbers of "1-9" go past the end of three integers. *)
Lemma get_options_overflow : get_options [49; 45; 57; 0] 0 3 [0; 0; 0] = None ∧ get_options [49; 45; 57; 0] 0 3 [0; 0; 0; 7; 7; 7; 7; 7; 7; 7] = Some (2, [8; 1; 2; 3; 4; 5; 6; 7; 8; 7]).
Proof. split; vm_compute; reflexivity. Qed.

(** ** Sizes *)

Definition unit_of (c : Z) : option Z :=
  if (c =? 71) || (c =? 103) then Some 30 else if (c =? 77) || (c =? 109) then Some 20 else if (c =? 75) || (c =? 107) then Some 10 else None.

Lemma shl_u64 r : u64 (Z.shiftl (u64 r) 10) = u64 (r * 2 ^ 10).
Proof. rewrite Z.shiftl_mul_pow2 by lia. unfold uwrap. by rewrite Zmult_mod_idemp_l. Qed.

(** [memparse] reads a decimal number and multiplies it by the unit behind it, modulo 2^64. *)
Lemma memparse_ok b p ds rest :
  cstr b p (ds ++ rest) → dnum ds → num_end rest →
  memparse b p = Some (match rest with [] => (u64 (dnum_val ds), p + alen ds)
                       | c :: _ => match unit_of c with Some k => (u64 (dnum_val ds * 2 ^ k), p + alen ds + 1) | None => (u64 (dnum_val ds), p + alen ds) end end).
Proof.
  intros H Hd Hr. unfold memparse. rewrite (strtoull_dnum b p ds rest) by done. rewrite Some_bind. pose proof (cstr_app _ _ _ _ H) as H1. apply cstr_cons in H1.
  destruct rest as [|c r]; [by rewrite H1|]. destruct H1 as (-> & _). rewrite Some_bind. cbv zeta. unfold unit_of. rewrite (shl_u64 (dnum_val ds)), (shl_u64 (dnum_val ds * 2 ^ 10)), (shl_u64 (dnum_val ds * 2 ^ 10 * 2 ^ 10)). f_equal.
  destruct ((c =? 71) || (c =? 103)); [by rewrite <- !Z.mul_assoc|]. destruct ((c =? 77) || (c =? 109)); [by rewrite <- !Z.mul_assoc|].
  by destruct ((c =? 75) || (c =? 107)).
Qed.
