(* ===== verification/Parser.v ===== *)
(** * Matching of mount options

    Models [lib/parser.c]: the text of an option is matched against the patterns of a table, and the arguments that the
    patterns stand for are converted or copied.  Patterns and text are strings of one memory; an argument is
    a pair of pointers into the text. *)

From S2P Require Import Prelude Strings StringsFacts StringLib Hash StringLibFacts StringSearch Kmem.
From stdpp Require Import gmap.
#[local] Open Scope Z_scope.
#[local] Open Scope kernel_scope.

Definition MAX_OPT_ARGS : Z := 3.
Definition ENOMEM : Z := 12.

(** [substring_t] *)
Record substring := Substring { from : Z; to : Z }.

(** [struct match_token]; the last entry of a table has a null pattern. *)
Record token_pattern := Token { token : Z; pattern : option Z }.

(** The conversion [c] at [s] with the length [len]: the argument and whether it matches. *)
Definition match_arg (b : list Z) (c s len : Z) (arg : substring) : option (substring * bool) :=
  let arg := Substring s (to arg) in
  let num (r : Z * Z) := let arg := Substring s r.2 in Some (arg, negb (to arg =? from arg)) in
  if c =? 115 then
    str_len ← strlen b s;
    if str_len =? 0 then Some (arg, false) else
    let len := if (len =? -1) || (u32 len >? str_len) then str_len else len in
    Some (Substring s (s + len), true)
  else if c =? 100 then r ← simple_strtol b s 0; num r
  else if c =? 117 then r ← simple_strtoul b s 0; num r
  else if c =? 111 then r ← simple_strtoul b s 8; num r
  else if c =? 120 then r ← simple_strtoul b s 16; num r
  else Some (arg, false).

(** What follows a percent sign: [p] points behind it, and the text before it was at the end of [s]. *)
Definition match_conv (b : list Z) (s p argc : Z) (args : list substring) : option (Z * Z * Z * list substring + bool * list substring) :=
  c ← b.[p];
  if negb (isdigit c) && (c =? 37) then
    d ← b.[s];
    Some (if negb (d =? 37) then inr (false, args) else inl (s + 1, p + 1, argc, args))
  else
    '(len, p) ← (if isdigit c then '(v, p) ← simple_strtoul b p 10; Some (s32 v, p) else Some (-1, p));
    if argc >=? MAX_OPT_ARGS then Some (inr (false, args)) else
    c ← b.[p];
    arg ← args.[argc];
    '(arg, ok) ← match_arg b c s len arg;
    args ← args.[argc <- arg];
    Some (if ok : bool then inl (to arg, p + 1, argc + 1, args) else inr (false, args)).

(** A turn of the loop of [match_one] on the pointers, [argc] and [args]. *)
Definition match_turn (b : list Z) (st : Z * Z * Z * list substring) : option (Z * Z * Z * list substring + bool * list substring) :=
  let '(s, p, argc, args) := st in
  meta ← strchr b p 37;
  match meta with
  | None => r ← strcmp b p s; Some (inr (r =? 0, args))
  | Some meta =>
      r ← strncmp b p s (u32 (meta - p));
      if ctrue r then Some (inr (false, args)) else match_conv b (s + (meta - p)) (meta + 1) argc args
  end.

Definition match_one (b : list Z) (s : Z) (p : option Z) (args : list substring) : option (bool * list substring) :=
  match p with
  | None => Some (true, args)
  | Some p => loop (S (length b)) (match_turn b) (s, p, 0, args)
  end.

Fixpoint match_token (b : list Z) (s : Z) (table : list token_pattern) (args : list substring) : option (Z * list substring) :=
  match table with
  | [] => None
  | p :: table =>
      '(r, args) ← match_one b s (pattern p) args;
      if r : bool then Some (token p, args) else match_token b s table args
  end.

Section Arguments.
Context `{AL : Allocator A}.

(** The result and [*result], which is stored when the buffer is allocated. *)
Definition match_number (a : A) (h : heap) (b : list Z) (s : substring) (base : Z) : option (A * heap * Z * option Z) :=
  match kmalloc a h (u32 (to s - from s + 1)) with
  | (a, Some (buf, g)) =>
      g ← memcpy g 0 b (from s) (to s - from s);
      g ← g.[to s - from s <- 0];
      let h := <[buf := Chars g]> h in
      '(result, endp) ← simple_strtol g 0 base;
      h ← kfree h buf;
      Some (a, h, if endp =? 0 then - EINVAL else 0, Some result)
  | (a, None) => Some (a, h, - ENOMEM, None)
  end.

Definition match_int (a : A) (h : heap) (b : list Z) (s : substring) := match_number a h b s 0.
Definition match_octal (a : A) (h : heap) (b : list Z) (s : substring) := match_number a h b s 8.
Definition match_hex (a : A) (h : heap) (b : list Z) (s : substring) := match_number a h b s 16.

(** [dest] is an object of its own. *)
Definition match_strlcpy (dest : list Z) (b : list Z) (src : substring) (size : Z) : option (list Z * Z) :=
  let ret := u32 (to src - from src) in
  if ctrue size then
    let len := if ret >=? size then size - 1 else ret in
    dest ← memcpy dest 0 b (from src) len;
    dest ← dest.[len <- 0];
    Some (dest, ret)
  else Some (dest, ret).

Definition match_strdup (a : A) (h : heap) (b : list Z) (s : substring) : option (A * heap * Z) :=
  let sz := u32 (to s - from s + 1) in
  match kmalloc a h sz with
  | (a, Some (p, g)) => '(g, _) ← match_strlcpy g b s sz; Some (a, <[p := Chars g]> h, p)
  | (a, None) => Some (a, h, 0)
  end.
End Arguments.
