(* ===== verification/ParserFacts.v ===== *)
(** * Matching of mount options: the patterns

    A pattern is a sequence of characters and conversions; [match_one] decides whether a text is an instance of it
    and finds the arguments, and [match_token] finds the first pattern of a table that a text is an instance of. *)

From S2P Require Import Prelude Strings StringsFacts StringLib Hash StringLibFacts StringSearch Kmem Parser.
From stdpp Require Import gmap.
#[local] Open Scope Z_scope.
#[local] Open Scope kernel_scope.

(** ** Patterns *)

Inductive pconv := PStr | PInt | PUint | POct | PHex.
Inductive pitem := PLit (c : Z) | PArg (width : list Z) (k : pconv).

Definition pchar (k : pconv) : Z := match k with PStr => 115 | PInt => 100 | PUint => 117 | POct => 111 | PHex => 120 end.

Definition item_text (i : pitem) : list Z :=
  match i with PLit c => if c =? 37 then [37; 37] else [c] | PArg w k => 37 :: w ++ [pchar k] end.
Definition pat_text (items : list pitem) : list Z := concat (map item_text items).

Definition item_ok (i : pitem) : Prop :=
  match i with PLit c => char c | PArg w _ => Forall (λ c, 48 ≤ c ≤ 57) w ∧ numval 10 w < 2 ^ 31 end.

(** The length of the number at the start of a text. *)
Definition nat_len (base : Z) (t : list Z) : Z :=
  let base' := base_of base t in alen (hex_prefix base' t) + alen (number_digits base' t).
Definition int_len (base : Z) (t : list Z) : Z := match t with 45 :: t => 1 + nat_len base t | _ => nat_len base t end.

(** Its value. *)
Definition nat_val (base : Z) (t : list Z) : Z := let base' := base_of base t in u32 (numval base' (number_digits base' t)).
Definition int_val (base : Z) (t : list Z) : Z := s32 (match t with 45 :: t => - nat_val base t | _ => nat_val base t end).

(** The length of the argument at the start of a text, when there is one. *)
Definition arg_len (w : list Z) (k : pconv) (t : list Z) : option Z :=
  let n := match k with
           | PStr => if bool_decide (w = []) then alen t else Z.min (numval 10 w) (alen t)
           | PInt => int_len 0 t
           | PUint => nat_len 0 t
           | POct => nat_len 8 t
           | PHex => nat_len 16 t
           end in
  match k with PStr => if bool_decide (t = []) then None else Some n | _ => if n =? 0 then None else Some n end.

(** The arguments of a text at [s] that is an instance of a pattern. *)
Fixpoint pmatch (items : list pitem) (argc s : Z) (t : list Z) : option (list substring) :=
  match items with
  | [] => if bool_decide (t = []) then Some [] else None
  | PLit c :: items => match t with x :: t => if x =? c then pmatch items argc (s + 1) t else None | [] => None end
  | PArg w k :: items =>
      if argc >=? MAX_OPT_ARGS then None else
      n ← arg_len w k t; l ← pmatch items (argc + 1) (s + n) (drop (Z.to_nat n) t); Some (Substring s (s + n) :: l)
  end.

Definition matched {X} (o : option X) : bool := match o with Some _ => true | None => false end.

(** ** Numbers *)

Section Numbers.
Context (b : list Z).

Lemma strtoul_len s t base : cstr b s t → simple_strtoul b s base = Some (nat_val base t, s + nat_len base t).
Proof. intros H. rewrite (strtoul_ok b s t base H). cbv zeta. unfold nat_len. do 2 f_equal. lia. Qed.

Lemma strtol_len s t base : cstr b s t → simple_strtol b s base = Some (int_val base t, s + int_len base t).
Proof.
  intros H. unfold simple_strtol. assert (H1 := H). apply cstr_cons in H1. destruct t as [|c t].
  - rewrite H1, Some_bind. cbn [Z.eqb]. rewrite (strtoul_len s [] base H). by rewrite Some_bind.
  - destruct H1 as (-> & _ & H1). rewrite Some_bind. destruct (Z.eqb_spec c 45) as [-> |Hne].
    + rewrite (strtoul_len _ _ base H1), Some_bind. cbn [int_len int_val]. do 2 f_equal. lia.
    + rewrite (strtoul_len _ _ base H), Some_bind. unfold int_len, int_val. destruct c as [|q|q]; try done. do 6 (destruct q as [q|q|]; try done).
Qed.

Lemma nat_len_bound base t : 0 ≤ nat_len base t ≤ alen t.
Proof.
  unfold nat_len. cbv zeta. set (base' := base_of base t). destruct (hex_prefix_app base' t) as [u Hu]. unfold number_digits.
  assert (Hd : drop (length (hex_prefix base' t)) t = u) by (rewrite Hu at 2; apply drop_app_length). rewrite Hd.
  destruct (digits_prefix_split base' u) as (r & Hr & _). rewrite Hu at 3. rewrite alen_app. rewrite Hr at 3. rewrite alen_app.
  pose proof (alen_nonneg (hex_prefix base' t)). pose proof (alen_nonneg (digits_prefix base' u)). pose proof (alen_nonneg r). lia.
Qed.

Lemma int_len_bound base t : 0 ≤ int_len base t ≤ alen t.
Proof.
  unfold int_len. destruct t as [|c t]; [apply nat_len_bound|]. assert (H := nat_len_bound base (c :: t)). assert (H1 := nat_len_bound base t). rewrite alen_cons in *.
  destruct c as [|q|q]; try lia. do 6 (destruct q as [q|q|]; try lia).
Qed.

Lemma width_nonneg w : Forall (λ c, 48 ≤ c ≤ 57) w → 0 ≤ numval 10 w.
Proof.
  intros Hw. induction w as [|c w IH] using rev_ind; [done|]. apply Forall_app in Hw as [Hw [Hc _]%list.Forall_cons]. rewrite numval_snoc. specialize (IH Hw).
    pose proof (byte_all (λ c, negb ((48 <=? c) && (c <=? 57)) || (0 <=? dval c)) eq_refl c ltac:(lia)) as H. cbv beta in H.
    destruct (Z.leb_spec 48 c), (Z.leb_spec c 57); lia.
Qed.

Lemma arg_len_bound w k t n : Forall (λ c, 48 ≤ c ≤ 57) w → arg_len w k t = Some n → 0 ≤ n ≤ alen t.
Proof.
  intros Hw. pose proof (width_nonneg w Hw).
  pose proof (alen_nonneg t). unfold arg_len. destruct k; cbv zeta; intros E; repeat case_bool_decide; repeat (destruct (_ =? 0)); simplify_eq; try lia;
    try apply int_len_bound; try apply nat_len_bound; lia.
Qed.

(** The conversions take the argument, or fail. *)
Lemma match_arg_ok w k s t arg :
  cstr b s t → item_ok (PArg w k) → alen b < 2 ^ 31 →
  ∃ arg', match_arg b (pchar k) s (if bool_decide (w = []) then -1 else numval 10 w) arg = Some (arg', matched (arg_len w k t)) ∧
    ∀ n, arg_len w k t = Some n → arg' = Substring s (s + n).
Proof.
  intros H [Hw Hv] Hb. pose proof (alen_nonneg t). pose proof (cstr_bound _ _ _ H). assert (Hu := strtoul_len s t).
  assert (Hnum : ∀ m : Z, 0 ≤ m → ∃ arg', Some (Substring s (s + m), negb (s + m =? s)) = Some (arg', matched (if m =? 0 then None else Some m)) ∧
    ∀ n, (if m =? 0 then None else Some m) = Some n → arg' = Substring s (s + n)).
  { intros m Hm. eexists. split; [|by intros n; destruct (m =? 0); intros; simplify_eq]. destruct (Z.eqb_spec m 0), (Z.eqb_spec (s + m) s); done || lia. }
  unfold match_arg, arg_len. destruct k; cbn [pchar Z.eqb Pos.eqb]; cbv zeta.
  - rewrite (strlen_ok _ _ _ H), Some_bind. pose proof (width_nonneg w Hw). destruct t as [|c t]; [by eexists|].
    rewrite (bool_decide_eq_false_2 (c :: t = [])) by done. destruct (Z.eqb_spec (alen (c :: t)) 0) as [E|_]; [rewrite alen_cons in E; pose proof (alen_nonneg t); lia|].
    eexists. split; [done|]. intros n [= <-]. f_equal. case_bool_decide; [done|]. rewrite uwrap_small by (unfold urange; lia).
    destruct (Z.eqb_spec (numval 10 w) (-1)), (Z.gtb_spec (numval 10 w) (alen (c :: t))); cbn [orb]; lia.
  - rewrite (strtol_len s t 0 H). rewrite Some_bind. apply Hnum. apply int_len_bound.
  - rewrite (Hu 0 H). rewrite Some_bind. apply Hnum. apply nat_len_bound.
  - rewrite (Hu 8 H). rewrite Some_bind. apply Hnum. apply nat_len_bound.
  - rewrite (Hu 16 H). rewrite Some_bind. apply Hnum. apply nat_len_bound.
Qed.

(** The width of a conversion. *)
Lemma width_ok p w k r :
  cstr b p (w ++ pchar k :: r) → item_ok (PArg w k) →
  ∃ c, b.[p] = Some c ∧ negb (isdigit c) && (c =? 37) = false ∧
    (if isdigit c then '(v, p) ← simple_strtoul b p 10; Some (s32 v, p) else Some (-1, p)) =
      Some (if bool_decide (w = []) then -1 else numval 10 w, p + alen w) ∧
    b.[p + alen w] = Some (pchar k).
Proof.
  intros H [Hw Hv]. pose proof (cstr_app _ _ _ _ H) as (Hk & _). pose proof (width_nonneg w Hw) as H0. destruct w as [|c w].
  - change (alen []) with 0 in *. rewrite Z.add_0_r in *. exists (pchar k). ands; [done|by destruct k|by destruct k|done].
  - exists c. assert (Hc : 48 ≤ c ≤ 57) by (by apply list.Forall_cons in Hw as [? _]).
    assert (Hd : isdigit c = true).
    { pose proof (byte_all (λ c, negb ((48 <=? c) && (c <=? 57)) || isdigit c) eq_refl c ltac:(lia)) as Hx. cbv beta in Hx. destruct (Z.leb_spec 48 c), (Z.leb_spec c 57); done || lia. }
    rewrite Hd. ands; [apply H|done| |done]. set (w' := c :: w) in *. rewrite (strtoul_ok b p (w' ++ pchar k :: r) 10 H). cbv zeta. change (base_of 10 (w' ++ pchar k :: r)) with 10.
    assert (Hh : ∀ t, hex_prefix 10 t = []).
    { intros [|c0 [|c1 t]]; unfold hex_prefix; try done; destruct c0 as [|q|q]; try done; do 6 (destruct q as [q|q|]; try done). }
    unfold number_digits. rewrite Hh. change (drop (length []) (w' ++ pchar k :: r)) with (w' ++ pchar k :: r). rewrite digits_prefix_app.
    + rewrite Some_bind. cbv iota. rewrite uwrap_small, s32_small by (unfold urange; lia). rewrite bool_decide_eq_false_2 by done. change (alen []) with 0. by rewrite Z.add_0_r.
    + eapply List.Forall_impl; [|exact Hw]. intros x Hx. cbv beta in Hx.
      pose proof (byte_all (λ c, negb ((48 <=? c) && (c <=? 57)) || is_dig 10 c) eq_refl x ltac:(lia)) as Hxx. cbv beta in Hxx. destruct (Z.leb_spec 48 x), (Z.leb_spec x 57); done || lia.
    + by destruct k.
Qed.
End Numbers.

(** ** Literal characters *)

Lemma pat_text_cons i items : pat_text (i :: items) = item_text i ++ pat_text items.
Proof. done. Qed.

(** A pattern is characters up to a percent sign. *)
Lemma pat_split items :
  ∃ lits tail, items = map PLit lits ++ tail ∧ Forall (λ c, c ≠ 37) lits ∧ match tail with PLit c :: _ => c = 37 | _ => True end.
Proof.
  induction items as [|[c|w k] items IH]; [by exists [], []|destruct (decide (c = 37)) as [-> |Hne]|].
  - by exists [], (PLit 37 :: items).
  - destruct IH as (lits & tail & -> & Hl & Ht). exists (c :: lits), tail. ands; [done|by constructor|done].
  - by exists [], (PArg w k :: items).
Qed.

Lemma pat_text_lits lits tail : Forall (λ c, c ≠ 37) lits → pat_text (map PLit lits ++ tail) = lits ++ pat_text tail.
Proof. intros H. induction H as [|c lits Hc H IH]; [done|]. cbn [map app]. rewrite pat_text_cons, IH. cbn [item_text]. by rewrite (proj2 (Z.eqb_neq c 37)). Qed.

Lemma pmatch_lits lits tail argc s t :
  pmatch (map PLit lits ++ tail) argc s t =
    if bool_decide (take (length lits) t = lits) then pmatch tail argc (s + alen lits) (drop (length lits) t) else None.
Proof.
  revert s t. induction lits as [|c lits IH]; intros s t; cbn [map app length].
  - rewrite take_0, bool_decide_eq_true_2 by done. change (alen []) with 0. by rewrite Z.add_0_r.
  - destruct t as [|x t]; cbn [pmatch take drop]; [by rewrite bool_decide_eq_false_2|]. destruct (Z.eqb_spec x c) as [-> |Hne].
    + rewrite IH. rewrite alen_cons, <- Z.add_assoc. assert (bool_decide (c :: take (length lits) t = c :: lits) = bool_decide (take (length lits) t = lits)) as -> by (apply bool_decide_ext; split; congruence). done.
    + rewrite bool_decide_eq_false_2; [done|]. congruence.
Qed.

Lemma posn_lits (l r : list Z) c : Forall (λ x, x ≠ c) l → posn (λ x, x =? c) (l ++ r) = (λ i, alen l + i) <$> posn (λ x, x =? c) r.
Proof.
  intros H. induction H as [|x l Hx H IH]; cbn [app posn]; [by destruct (posn _ r)|]. rewrite (proj2 (Z.eqb_neq x c)) by done. rewrite IH, alen_cons.
  destruct (posn _ r); cbn; [f_equal; lia|done].
Qed.

(** ** One pattern *)

Section Match.
Context (b : list Z) (Hb : alen b < 2 ^ 31).

Lemma turn_last s p lits t argc args :
  cstr b p lits → cstr b s t → Forall (λ c, c ≠ 37) lits → match_turn b (s, p, argc, args) = Some (inr (bool_decide (lits = t), args)).
Proof.
  intros Hp Hs Hl. unfold match_turn. rewrite (strchr_ok _ _ _ _ Hp), Some_bind. change (u8 37) with 37. rewrite posn_lits by done. cbn [posn Z.eqb fmap option_fmap option_map at_pos].
  rewrite (strcmp_ok _ _ _ _ _ Hp Hs), Some_bind. do 3 f_equal. destruct (Z.eqb_spec (scmp lits t) 0) as [E|E]; symmetry.
  - apply bool_decide_eq_true. by apply scmp_eq.
  - apply bool_decide_eq_false. intros ?. by apply E, scmp_eq.
Qed.

Lemma turn_prefix s p lits q t argc args :
  cstr b p (lits ++ 37 :: q) → cstr b s t → Forall (λ c, c ≠ 37) lits →
  match_turn b (s, p, argc, args) =
    if bool_decide (take (length lits) t = lits) then match_conv b (s + alen lits) (p + alen lits + 1) argc args else Some (inr (false, args)).
Proof.
  intros Hp Hs Hl. pose proof (cstr_bound _ _ _ Hp) as Hbd. rewrite alen_app, alen_cons in Hbd. pose proof (alen_nonneg lits). pose proof (alen_nonneg q). unfold match_turn.
  rewrite (strchr_ok _ _ _ _ Hp), Some_bind. change (u8 37) with 37. rewrite <- app_assoc, posn_lits by done.
  cbn [app posn Z.eqb Pos.eqb fmap option_fmap option_map at_pos]. replace (p + (alen lits + 0) - p) with (alen lits) by lia. rewrite uwrap_small by (unfold urange; lia).
  rewrite (strncmp_ok _ _ _ _ _ _ Hp Hs), Some_bind by lia. unfold alen at 1 2. rewrite Nat2Z.id, take_app_length. case_bool_decide as E.
  - rewrite E. rewrite (proj2 (scmp_eq _ _) eq_refl). change (ctrue 0) with false. cbv iota. f_equal. lia.
  - assert (ctrue (scmp lits (take (length lits) t)) = true) as ->; [|done]. apply ctrue_true. intros E'%scmp_eq. by symmetry in E'.
Qed.

(** What a match gives: the result, and the arguments from [argc] on when it is one. *)
Definition match_result (argc : Z) (args : list substring) (m : option (list substring)) (r : bool) (args' : list substring) : Prop :=
  alen args' = alen args ∧ (∀ j, 0 ≤ j < argc → args'.[j] = args.[j]) ∧
  match m with
  | Some l => r = true ∧ ∀ j, 0 ≤ j < alen l → args'.[argc + j] = l.[j]
  | None => r = false
  end.

Lemma match_fails argc args : match_result argc args None false args.
Proof. by split. Qed.

(** The last characters of a pattern. *)
Lemma last_result lits t argc args s :
  match_result argc args (if bool_decide (take (length lits) t = lits) then pmatch [] argc s (drop (length lits) t) else None) (bool_decide (lits = t)) args.
Proof.
  split; [done|]. split; [done|]. cbn [pmatch]. destruct (decide (lits = t)) as [-> |Hne].
  - rewrite take_ge, drop_ge by done. rewrite !bool_decide_eq_true_2 by done. split; [done|]. change (alen []) with 0. lia.
  - rewrite (bool_decide_eq_false_2 (lits = t)) by done. case_bool_decide as E; [|done]. case_bool_decide as E'; [|done]. destruct Hne. rewrite <- (take_drop (length lits) t). by rewrite E, E', app_nil_r.
Qed.

(** An argument and the arguments behind it. *)
Lemma arg_result argc args args1 arg m r args' :
  0 ≤ argc → args.[argc <- arg] = Some args1 → match_result (argc + 1) args1 m r args' → match_result argc args (l ← m; Some (arg :: l)) r args'.
Proof.
  intros Ha E (Hl & Hold & Hm). split; [by rewrite Hl, (alen_set _ _ _ _ E)|]. split.
  - intros j Hj. rewrite Hold, (arr_get_set _ _ _ _ _ E) by lia. by rewrite decide_False by lia.
  - destruct m as [l|]; [|done]. cbn. destruct Hm as [-> Hm]. split; [done|]. intros j. rewrite alen_cons. intros Hj. destruct (decide (j = 0)) as [-> |].
    + rewrite Z.add_0_r, Hold, (arr_get_set _ _ _ _ _ E), decide_True by lia. done.
    + replace (argc + j) with (argc + 1 + (j - 1)) by lia. replace j with (j - 1 + 1) at 2 by lia. rewrite arr_get_cons by lia. apply Hm. lia.
Qed.

Lemma match_loop_ok f : ∀ items p s t argc args,
  Forall item_ok items → cstr b p (pat_text items) → cstr b s t → 0 ≤ argc → alen args = MAX_OPT_ARGS → (length (pat_text items) < f)%nat →
  ∃ r args', loop f (match_turn b) (s, p, argc, args) = Some (r, args') ∧ match_result argc args (pmatch items argc s t) r args'.
Proof.
  induction f as [|f IH]; intros items p s t argc args Hok Hp Hs Ha Hl Hf; [lia|]. cbn [loop]. destruct (pat_split items) as (lits & tail & -> & Hlit & Htail).
  rewrite pat_text_lits in * by done. rewrite pmatch_lits. apply Forall_app in Hok as [_ Hok]. rewrite length_app in Hf. destruct tail as [|i tail].
  { cbn [pat_text map concat] in Hp. rewrite app_nil_r in Hp. rewrite (turn_last s p lits t argc args Hp Hs Hlit). cbn [mbind option_bind]. eexists _, _. split; [done|]. apply last_result. }
  apply list.Forall_cons in Hok as [Hi Hok]. rewrite pat_text_cons in *. rewrite length_app in Hf.
  assert (Hq : ∃ q, item_text i = 37 :: q) by (destruct i; [subst; by eexists|by eexists]). destruct Hq as [q Hq]. rewrite Hq in Hp. cbn [app] in Hp.
  rewrite (turn_prefix s p lits (q ++ pat_text tail) t argc args Hp Hs Hlit). case_bool_decide as E; [|cbn; eexists _, _; split; [done|apply match_fails]].
  assert (Hs' : cstr b (s + alen lits) (drop (length lits) t)) by (apply cstr_app; rewrite <- E at 1; by rewrite take_drop).
  pose proof (cstr_app _ _ _ _ Hp) as (_ & _ & Hp'). set (s' := s + alen lits) in *. set (p' := p + alen lits + 1) in *. clearbody s' p'. generalize dependent (drop (length lits) t). intros t' Hs'.
  unfold match_conv. destruct i as [c|w k].
  - subst c. injection Hq as <-. cbn [app] in Hp'. destruct Hp' as (Hc & _ & Hp'). rewrite Hc, Some_bind. change (isdigit 37) with false. cbn [negb andb Z.eqb Pos.eqb pmatch].
    apply cstr_cons in Hs'. destruct t' as [|x t']; [rewrite Hs'; cbn; eexists _, _; split; [done|apply match_fails]|]. destruct Hs' as (-> & _ & Hs'). rewrite !Some_bind.
    destruct (x =? 37); cbn [negb]; [|eexists _, _; split; [done|apply match_fails]]. apply IH; try done. cbn [item_text Z.eqb Pos.eqb length] in Hf. lia.
  - injection Hq as <-. rewrite <- app_assoc in Hp'. cbn [app] in Hp'. destruct (width_ok b p' w k _ Hp' Hi) as (c & -> & Hc & Ew & Ek). rewrite Some_bind, Hc, Ew, !Some_bind. cbn [pmatch].
    destruct (Z.geb_spec argc MAX_OPT_ARGS); [cbn; eexists _, _; split; [done|apply match_fails]|]. rewrite Ek, !Some_bind. destruct (arr_get_lt args argc) as [arg Harg]; [lia|]. rewrite Harg, Some_bind.
    destruct (match_arg_ok b w k s' t' arg Hs' Hi Hb) as (arg' & -> & Hn). rewrite Some_bind. cbv iota. rewrite arr_set_lt by lia. rewrite !Some_bind.
    destruct (arg_len w k t') as [n|] eqn:En; cbn [matched].
    + pose proof (Hn n eq_refl) as ->. cbn [to]. rewrite Some_bind. pose proof (arg_len_bound w k t' n (proj1 Hi) En) as Hnb.
      assert (Hs2 : cstr b (s' + n) (drop (Z.to_nat n) t')).
      { rewrite <- (take_drop (Z.to_nat n) t') in Hs'. apply cstr_app in Hs'. by rewrite alen_take in Hs' by lia. }
      pose proof (cstr_app _ _ _ _ Hp') as (_ & _ & Hp2).
      destruct (IH tail (p' + alen w + 1) (s' + n) _ (argc + 1) (<[Z.to_nat argc := Substring s' (s' + n)]> args) Hok Hp2 Hs2) as (r & args' & Er & Hres);
        [lia|by rewrite alen_insert|cbn [item_text length] in Hf; lia|]. exists r, args'. split; [exact Er|]. eapply arg_result; [done| |exact Hres]. apply arr_set_lt. lia.
    + cbn [mbind option_bind]. eexists _, _. split; [done|]. split; [apply alen_insert|]. split; [|done]. intros j Hj. rewrite arr_get_insert by lia. by rewrite decide_False by lia.
Qed.
End Match.

(** ** Tables *)

Section Tables.
Context (b : list Z) (Hb : alen b < 2 ^ 31).

(** An entry of a table with a pattern. *)
Definition entry_of (e : token_pattern) (items : list pitem) : Prop :=
  ∃ p, pattern e = Some p ∧ Forall item_ok items ∧ cstr b p (pat_text items).

Lemma match_one_ok e items s t args :
  entry_of e items → cstr b s t → alen args = MAX_OPT_ARGS →
  ∃ r args', match_one b s (pattern e) args = Some (r, args') ∧ match_result 0 args (pmatch items 0 s t) r args'.
Proof. intros (p & -> & Hok & Hp) Hs Hl. apply match_loop_ok; try done. by eapply cstr_fuel. Qed.

(** The token of the first pattern that the text is an instance of, with its arguments. *)
Definition first_match (entries : list token_pattern) (pats : list (list pitem)) (last s : Z) (t : list Z) (tok : Z) (args : list substring) : Prop :=
  (∃ i e items l, entries !! i = Some e ∧ pats !! i = Some items ∧ tok = token e ∧ pmatch items 0 s t = Some l ∧
     (∀ j, 0 ≤ j < alen l → args.[j] = l.[j]) ∧ ∀ j items', (j < i)%nat → pats !! j = Some items' → pmatch items' 0 s t = None) ∨
  tok = last ∧ Forall (λ items, pmatch items 0 s t = None) pats.

Lemma match_token_ok entries pats last rest s t args :
  Forall2 entry_of entries pats → cstr b s t → alen args = MAX_OPT_ARGS →
  ∃ tok args', match_token b s (entries ++ Token last None :: rest) args = Some (tok, args') ∧ alen args' = MAX_OPT_ARGS ∧ first_match entries pats last s t tok args'.
Proof.
  intros He Hs. revert args. induction He as [|e items entries pats He HF IH]; intros args Hl; cbn [app match_token].
  - cbn. eexists _, _. split; [done|]. split; [done|]. by right.
  - destruct (match_one_ok e items s t args He Hs Hl) as (r & args' & -> & Hl' & _ & Hm). rewrite Some_bind. destruct (pmatch items 0 s t) as [l|] eqn:E.
    + destruct Hm as [-> Hm]. eexists _, _. split; [done|]. split; [congruence|]. left. exists 0%nat, e, items, l. ands; try done. intros j items' Hj. lia.
    + subst r. destruct (IH args' ltac:(congruence)) as (tok & args2 & Et & Hl2 & Hf). exists tok, args2. split; [exact Et|]. split; [done|].
      destruct Hf as [(i & e' & items' & l & H1 & H2 & H3 & H4 & H5 & H6)|[-> Hall]]; [left|right; split; [done|by constructor]].
      exists (S i), e', items', l. ands; try done. intros [|j] items2 Hj Hj2; [by injection Hj2 as <-|]. eapply (H6 j); [lia|done].
Qed.
End Tables.

(** C24: Tables of patterns.  [match_token] of a text returns: the token of the first pattern of the table that the text is
    an instance of, with the arguments of the pattern in [args], or the token of the last entry, which has no pattern. *)
Theorem match_token_correct (b : list Z) (s : Z) (t : list Z) (entries : list token_pattern) (pats : list (list pitem)) (last : Z)
  (rest : list token_pattern) (args : list substring) (Ht : cstr b s t) (Htable : Forall2 (entry_of b) entries pats)
  (Hargs : alen args = MAX_OPT_ARGS) (Hb : alen b < 2 ^ 31) :
  ∃ tok args', match_token b s (entries ++ Token last None :: rest) args = Some (tok, args') ∧ alen args' = MAX_OPT_ARGS ∧
    first_match entries pats last s t tok args'.
Proof. by apply match_token_ok. Qed.

(** "uid=7" against the patterns "ro" and "uid=%u". *)
Lemma match_token_correct_witness :
  let b := [117; 105; 100; 61; 55; 0; 114; 111; 0; 117; 105; 100; 61; 37; 117; 0] in
  let uid := map PLit [117; 105; 100; 61] ++ [PArg [] PUint] in
  match_token b 0 [Token 1 (Some 6); Token 2 (Some 9); Token 9 None] (replicate 3 (Substring 0 0)) = Some (2, [Substring 4 5; Substring 0 0; Substring 0 0]) ∧
  pmatch uid 0 0 [117; 105; 100; 61; 55] = Some [Substring 4 5] ∧
  ∃ tok args', match_token b 0 [Token 1 (Some 6); Token 2 (Some 9); Token 9 None] (replicate 3 (Substring 0 0)) = Some (tok, args') ∧
    first_match [Token 1 (Some 6); Token 2 (Some 9)] [map PLit [114; 111]; uid] 9 0 [117; 105; 100; 61; 55] tok args'.
Proof.
  intros b uid. do 2 (split; [by vm_compute|]). assert (H1 : cstr b 0 [117; 105; 100; 61; 55]) by (vm_compute; done).
  destruct (match_token_correct b 0 _ [Token 1 (Some 6); Token 2 (Some 9)] [map PLit [114; 111]; uid] 9 [] (replicate 3 (Substring 0 0)) H1) as (tok & args' & E & _ & Hf);
    [|done|done|by exists tok, args'].
  repeat constructor; [exists 6|exists 9]; (split; [done|]; split; [repeat constructor; vm_compute; done|vm_compute; done]).
Defined.

(** ** Arguments *)

(** A substring of the memory with the characters [w]. *)
Definition holds (b : list Z) (s : substring) (w : list Z) : Prop :=
  0 ≤ from s ∧ to s = from s + alen w ∧ to s ≤ alen b ∧ slice b (from s) (alen w) = w ∧ Forall char w ∧ alen b < 2 ^ 32 - 1.

(** A buffer with a copy of a substring. *)
Lemma copy_sub g b s w n :
  holds b s w → 0 ≤ n ≤ alen w → n < alen g → ∃ g1 g2, memcpy g 0 b (from s) n = Some g1 ∧ g1.[n <- 0] = Some g2 ∧
    alen g2 = alen g ∧ cstr g2 0 (take (Z.to_nat n) w) ∧ (n + 1 = alen g → g2 = take (Z.to_nat n) w ++ [0]).
Proof.
  intros (H0 & Ht & Hl & Hw & Hc & _) Hn Hg. assert (Hs : slice b (from s) n = take (Z.to_nat n) w) by (rewrite <- Hw; unfold slice; rewrite take_take; f_equal; lia).
  rewrite memcpy_ok by lia. rewrite slice_nil, Hs. cbn [app]. set (u := take (Z.to_nat n) w).
  assert (Hu : alen u = n) by (apply alen_take; lia). assert (Hd : alen (drop (Z.to_nat (0 + n)) g) = alen g - n) by (rewrite alen_drop by lia; lia).
  destruct (drop (Z.to_nat (0 + n)) g) as [|x l] eqn:E; [change (alen []) with 0 in Hd; lia|]. eexists _, (<[Z.to_nat n := 0]> (u ++ x :: l)). split; [done|]. split; [apply arr_set_lt; rewrite alen_app; lia|].
  replace (Z.to_nat n) with (length u + 0)%nat by (unfold alen in *; lia). rewrite insert_app_r. cbn [insert list_insert]. rewrite alen_cons in Hd. ands.
  - rewrite alen_app, alen_cons. lia.
  - apply cstr_intro; [by apply Forall_take| |].
    + intros i Hi. rewrite Z.add_0_l, arr_get_app by lia. rewrite decide_True by lia. done.
    + rewrite Z.add_0_l, arr_get_app by apply alen_nonneg. rewrite decide_False by lia. by rewrite Z.sub_diag.
  - intros Hn1. destruct l as [|y l]; [done|]. rewrite alen_cons in Hd. pose proof (alen_nonneg l). lia.
Qed.

Section ArgumentFacts.
Context `{Laws : AllocatorLaws A}.
Implicit Types a : A.

Lemma match_number_ok a h b s w base :
  holds b s w → ∃ a' h' r v, match_number a h b s base = Some (a', h', r, v) ∧ h' = h ∧
    (r = - ENOMEM ∧ v = None ∨ r = (if int_len base w =? 0 then - EINVAL else 0) ∧ v = Some (int_val base w)).
Proof.
  intros Hs. assert (Hs' := Hs). destruct Hs' as (Hf & Ht & Hl & _ & _ & Hb). pose proof (alen_nonneg w). unfold match_number.
  replace (to s - from s) with (alen w) by lia. rewrite uwrap_small by (unfold urange; lia). destruct (kmalloc a h (alen w + 1)) as [a' [[buf g]|]] eqn:E.
  - apply kmalloc_fresh in E as (Hp & Hn & Hg); [|lia]. destruct (copy_sub g b s w (alen w) Hs) as (g1 & g2 & -> & E2 & _ & Hc & _); [lia|lia|]. rewrite Some_bind, E2, Some_bind.
    cbv zeta. rewrite take_ge in Hc by (unfold alen; lia). rewrite (strtol_len g2 0 w base Hc), Some_bind. unfold kfree. destruct (Z.eqb_spec buf 0); [lia|].
    rewrite lookup_insert_eq, !Some_bind. eexists _, _, _, _. split; [done|]. rewrite Z.add_0_l. split; [|by right]. by rewrite delete_insert_id.
  - eexists _, _, _, _. split; [done|]. split; [done|by left].
Qed.

Lemma match_strlcpy_ok dest b s w size :
  holds b s w → 0 ≤ size ≤ alen dest →
  ∃ dest', match_strlcpy dest b s size = Some (dest', alen w) ∧ alen dest' = alen dest ∧ (0 < size → cstr dest' 0 (take (Z.to_nat (size - 1)) w)) ∧
    (size = alen w + 1 → size = alen dest → dest' = w ++ [0]).
Proof.
  intros Hs Hsz. assert (Hs' := Hs). destruct Hs' as (Hf & Ht & Hl & _ & _ & Hb). pose proof (alen_nonneg w). unfold match_strlcpy. replace (to s - from s) with (alen w) by lia.
  rewrite uwrap_small by (unfold urange; lia). cbv zeta. destruct (ctrue size) eqn:E; [apply ctrue_true in E|apply ctrue_false in E; exists dest; ands; [done|done|lia|lia]].
  set (len := if alen w >=? size then size - 1 else alen w). assert (Hlen : len = Z.min (size - 1) (alen w)) by (subst len; destruct (Z.geb_spec (alen w) size); lia).
  destruct (copy_sub dest b s w len Hs) as (g1 & g2 & -> & E2 & Ha & Hc & He); [lia|lia|]. rewrite Some_bind, E2, Some_bind.
  assert (Htk : take (Z.to_nat len) w = take (Z.to_nat (size - 1)) w).
  { destruct (decide (size - 1 ≤ alen w)); [f_equal; lia|]. rewrite !take_ge by (unfold alen in *; lia). done. }
  exists g2. rewrite Htk in Hc, He. ands; [done|done|done|]. intros E3 E4. rewrite He by lia. by rewrite take_ge by (unfold alen in *; lia).
Qed.

Lemma match_strdup_ok a h b s w : holds b s w → ∃ a' h' p, match_strdup a h b s = Some (a', h', p) ∧ duplicated h h' p (w ++ [0]).
Proof.
  intros Hs. assert (Hs' := Hs). destruct Hs' as (Hf & Ht & Hl & _ & _ & Hb). pose proof (alen_nonneg w). unfold match_strdup. replace (to s - from s + 1) with (alen w + 1) by lia.
  rewrite uwrap_small by (unfold urange; lia). cbv zeta. destruct (kmalloc a h (alen w + 1)) as [a' [[p g]|]] eqn:E.
  - apply kmalloc_fresh in E as (Hp & Hn & Hg); [|lia]. destruct (match_strlcpy_ok g b s w (alen w + 1) Hs) as (g' & -> & _ & _ & He); [lia|]. rewrite Some_bind, He by lia.
    eexists _, _, _. split; [done|]. by right.
  - eexists _, _, _. split; [done|]. by left.
Qed.

(** Arguments.  For a substring with the characters [w] and any allocator: [match_int], [match_octal] and [match_hex] return the value of the number
    that [w] starts with, or -EINVAL without one, or -ENOMEM, and free their buffer; [match_strlcpy] stores the longest beginning of [w] that fits, null-terminated,
    and returns the length of [w]; [match_strdup] returns a new object with a copy of [w], or null. *)
Theorem match_arguments_correct (a : A) (h : heap) (b dest : list Z) (s : substring) (w : list Z) (size : Z) (Hs : holds b s w) (Hsize : 0 ≤ size ≤ alen dest) :
  (∀ base f, In (base, f) [(0, match_int); (8, match_octal); (16, match_hex)] →
    ∃ a' r v, f a h b s = Some (a', h, r, v) ∧ (r = - ENOMEM ∧ v = None ∨ r = (if int_len base w =? 0 then - EINVAL else 0) ∧ v = Some (int_val base w))) ∧
  (∃ dest', match_strlcpy dest b s size = Some (dest', alen w) ∧ alen dest' = alen dest ∧ (0 < size → cstr dest' 0 (take (Z.to_nat (size - 1)) w))) ∧
  (∃ a' h' p, match_strdup a h b s = Some (a', h', p) ∧ (p = 0 ∧ h' = h ∨ 0 < p ∧ h !! p = None ∧ h' = <[p := Chars (w ++ [0])]> h)).
Proof.
  ands.
  - intros base f Hin. assert (f = λ a h b s, match_number a h b s base) as -> by (cbn in Hin; destruct Hin as [?|[?|[?|[]]]]; simplify_eq; done).
    destruct (match_number_ok a h b s w base Hs) as (a' & h' & r & v & E & -> & Hr). by exists a', r, v.
  - destruct (match_strlcpy_ok dest b s w size Hs Hsize) as (dest' & E & Ha & Hc & _). by exists dest'.
  - by apply match_strdup_ok.
Qed.
End ArgumentFacts.

(** "-7x" as a number, and copies of it. *)
Lemma match_arguments_correct_witness :
  let b := [61; 45; 55; 120; 44; 0] in
  let s := Substring 1 4 in
  match_int 1%nat ∅ b s = Some (0%nat, ∅, 0, Some (-7)) ∧ match_int 0%nat ∅ b s = Some (0%nat, ∅, -12, None) ∧
  (∃ dest', match_strlcpy [9; 9; 9; 9; 9] b s 3 = Some (dest', 3) ∧ alen dest' = 5 ∧ (0 < 3 → cstr dest' 0 [45; 55])).
Proof.
  intros b s. do 2 (split; [by vm_compute|]). assert (Hs : holds b s [45; 55; 120]) by (repeat split; try (by vm_compute); repeat constructor).
  exact (proj1 (proj2 (match_arguments_correct 1%nat ∅ b [9; 9; 9; 9; 9] s _ 3 Hs ltac:(by vm_compute)))).
Defined.
