(* ===== verification/AesSpec.v ===== *)
(** * The standard of AES

    FIPS 197 as executable functions: arithmetic in the field of 256 elements, the substitution box from inverses
    and an affine map, the four transformations of the state, the key expansion, the cipher and its inverse.  A word
    is a list of four bytes, and the state is the list of its four columns. *)

From S2P Require Import Prelude Words.
#[local] Open Scope Z_scope.

(** ** The field *)

Definition xtime (x : Z) : Z := let y := Z.shiftl x 1 in if Z.testbit x 7 then Z.lxor y 0x11b else y.

Fixpoint gmul_bits (n : nat) (x y acc : Z) : Z :=
  match n with O => acc | S n => gmul_bits n (xtime x) (Z.div2 y) (if Z.odd y then Z.lxor acc x else acc) end.
Definition gmul (x y : Z) : Z := gmul_bits 8 y x 0.

(** The inverse is the power 254; that of zero is zero. *)
Fixpoint gpow (x : Z) (n : positive) : Z :=
  match n with xH => x | xO n => gpow (gmul x x) n | xI n => gmul x (gpow (gmul x x) n) end.
Definition ginv (x : Z) : Z := gpow x 254.

Definition rotl8 (x k : Z) : Z := Z.lor (Z.land (Z.shiftl x k) 255) (Z.shiftr x (8 - k)).

Definition sbox (x : Z) : Z :=
  let y := ginv x in Z.lxor (Z.lxor (Z.lxor (Z.lxor (Z.lxor y (rotl8 y 1)) (rotl8 y 2)) (rotl8 y 3)) (rotl8 y 4)) 0x63.

Definition inv_sbox (x : Z) : Z := ginv (Z.lxor (Z.lxor (Z.lxor (rotl8 x 1) (rotl8 x 3)) (rotl8 x 6)) 5).

(** ** The transformations *)

Abbreviation word4 := (list Z).
Abbreviation state := (list word4).

Definition xor_word : word4 → word4 → word4 := zip_with Z.lxor.

Definition sub_bytes : state → state := map (map sbox).
Definition inv_sub_bytes : state → state := map (map inv_sbox).

(** Row [r] moves by [r] columns. *)
Definition shift_rows (s : state) : state :=
  match s with
  | [[a0; a1; a2; a3]; [b0; b1; b2; b3]; [c0; c1; c2; c3]; [d0; d1; d2; d3]] =>
      [[a0; b1; c2; d3]; [b0; c1; d2; a3]; [c0; d1; a2; b3]; [d0; a1; b2; c3]]
  | _ => s
  end.
Definition inv_shift_rows (s : state) : state :=
  match s with
  | [[a0; a1; a2; a3]; [b0; b1; b2; b3]; [c0; c1; c2; c3]; [d0; d1; d2; d3]] =>
      [[a0; d1; c2; b3]; [b0; a1; d2; c3]; [c0; b1; a2; d3]; [d0; c1; b2; a3]]
  | _ => s
  end.

(** A column times the matrix with the first row [m0 m1 m2 m3], each row shifted by one. *)
Definition mat_column (m0 m1 m2 m3 : Z) (w : word4) : word4 :=
  let row a b c d x0 x1 x2 x3 := Z.lxor (Z.lxor (Z.lxor (gmul a x0) (gmul b x1)) (gmul c x2)) (gmul d x3) in
  match w with
  | [x0; x1; x2; x3] =>
      [row m0 m1 m2 m3 x0 x1 x2 x3; row m3 m0 m1 m2 x0 x1 x2 x3; row m2 m3 m0 m1 x0 x1 x2 x3; row m1 m2 m3 m0 x0 x1 x2 x3]
  | _ => w
  end.
Definition mix_column : word4 → word4 := mat_column 2 3 1 1.
Definition inv_mix_column : word4 → word4 := mat_column 14 11 13 9.
Definition mix_columns : state → state := map mix_column.
Definition inv_mix_columns : state → state := map inv_mix_column.

Definition add_round_key (k s : state) : state := zip_with xor_word s k.

(** ** The key expansion *)

Definition rot_word (w : word4) : word4 := match w with [a; b; c; d] => [b; c; d; a] | _ => w end.
Definition sub_word : word4 → word4 := map sbox.
Definition rcon (i : nat) : word4 := [Nat.iter (pred i) xtime 1; 0; 0; 0].

(** The word after [temp] with the number [i]. *)
Definition key_temp (nk i : nat) (temp : word4) : word4 :=
  if (i mod nk =? 0)%nat then xor_word (sub_word (rot_word temp)) (rcon (i / nk))
  else if (6 <? nk)%nat && (i mod nk =? 4)%nat then sub_word temp else temp.

Definition next_word (nk : nat) (w : list word4) : word4 :=
  xor_word (nth (length w - nk) w []) (key_temp nk (length w) (List.last w [])).

Fixpoint grow (nk n : nat) (w : list word4) : list word4 :=
  match n with O => w | S n => grow nk n (w ++ [next_word nk w]) end.

(** The words of a key of [nk] words, for [nk + 6] rounds. *)
Definition key_expansion (nk : nat) (key : list word4) : list word4 := grow nk (4 * (nk + 7) - nk) key.

(** ** The cipher *)

Definition round_key (w : list word4) (r : nat) : state := take 4 (drop (4 * r) w).

Definition cipher (nr : nat) (w : list word4) (s : state) : state :=
  let s := add_round_key (round_key w 0) s in
  let s := fold_left (λ s r, add_round_key (round_key w r) (mix_columns (shift_rows (sub_bytes s)))) (seq 1 (nr - 1)) s in
  add_round_key (round_key w nr) (shift_rows (sub_bytes s)).

Definition inv_cipher (nr : nat) (w : list word4) (s : state) : state :=
  let s := add_round_key (round_key w nr) s in
  let s := fold_left (λ s r, inv_mix_columns (add_round_key (round_key w r) (inv_sub_bytes (inv_shift_rows s)))) (rev (seq 1 (nr - 1))) s in
  add_round_key (round_key w 0) (inv_sub_bytes (inv_shift_rows s)).

(** Bytes as words of four. *)
Fixpoint words4 (l : list Z) : list word4 := match l with a :: b :: c :: d :: l => [a; b; c; d] :: words4 l | _ => [] end.

(** The encryption and the decryption of a block with a key of 16, 24 or 32 bytes. *)
Definition aes_cipher (key block : list Z) : list Z :=
  let nk := Nat.div (length key) 4 in concat (cipher (nk + 6) (key_expansion nk (words4 key)) (words4 block)).
Definition aes_inv_cipher (key block : list Z) : list Z :=
  let nk := Nat.div (length key) 4 in concat (inv_cipher (nk + 6) (key_expansion nk (words4 key)) (words4 block)).
