(* ===== verification/AesFacts.v ===== *)
(** * AES against its standard

    The products with the constants of the standard are sums of doublings, doubling is linear, and the transformations of the standard
    have inverses.  The tables are the columns of the matrices of the standard, so that a round of the code is a round of the standard on
    words.  The rounds one after the other are the cipher of the standard and its inverse, for round keys at the right places, and the
    inverse cipher undoes the cipher. *)

From S2P Require Import Prelude Words Cipher Aes AesSpec.
From Stdlib Require Import Btauto.
#[local] Open Scope Z_scope.
#[local] Open Scope kernel_scope.

(** ** Bytes *)

Lemma bytes_all (P : Z → bool) : forallb P (seqZ 0 256) = true → ∀ x, byte x → P x = true.
Proof. intros H x Hx. rewrite forallb_forall in H. apply H, list_elem_of_In, elem_of_seqZ. unfold urange in Hx. lia. Qed.

Definition is_byte (x : Z) : bool := (0 <=? x) && (x <? 256).

Lemma is_byte_ok x : is_byte x = true → byte x.
Proof. unfold is_byte, urange. intros [?%Z.leb_le ?%Z.ltb_lt]%andb_true_iff. lia. Qed.

Lemma sbox_byte x : byte x → byte (sbox x).
Proof. intros Hx. apply is_byte_ok. revert x Hx. apply (bytes_all (λ x, is_byte (sbox x))). by vm_compute. Qed.
Lemma inv_sbox_byte x : byte x → byte (inv_sbox x).
Proof. intros Hx. apply is_byte_ok. revert x Hx. apply (bytes_all (λ x, is_byte (inv_sbox x))). by vm_compute. Qed.
Lemma inv_sbox_sbox x : byte x → inv_sbox (sbox x) = x.
Proof. intros Hx. apply Z.eqb_eq. revert x Hx. apply (bytes_all (λ x, inv_sbox (sbox x) =? x)). by vm_compute. Qed.
Lemma sbox_inv_sbox x : byte x → sbox (inv_sbox x) = x.
Proof. intros Hx. apply Z.eqb_eq. revert x Hx. apply (bytes_all (λ x, sbox (inv_sbox x) =? x)). by vm_compute. Qed.
Lemma xtime_byte x : byte x → byte (xtime x).
Proof. intros Hx. apply is_byte_ok. revert x Hx. apply (bytes_all (λ x, is_byte (xtime x))). by vm_compute. Qed.
#[export] Hint Resolve sbox_byte inv_sbox_byte xtime_byte : word.

Lemma xtime_lxor x y : xtime (Z.lxor x y) = Z.lxor (xtime x) (xtime y).
Proof.
  unfold xtime. rewrite Z.lxor_spec, Z.shiftl_lxor. destruct (Z.testbit x 7), (Z.testbit y 7); cbn [xorb]; apply Z.bits_inj'; intros i Hi; rewrite !Z.lxor_spec; btauto.
Qed.

(** The products as sums of doublings. *)
Lemma gmul_1 x : gmul 1 x = x.
Proof. done. Qed.
Lemma gmul_2 x : gmul 2 x = xtime x.
Proof. done. Qed.
Lemma gmul_3 x : gmul 3 x = Z.lxor x (xtime x).
Proof. done. Qed.
Lemma gmul_9 x : gmul 9 x = Z.lxor x (xtime (xtime (xtime x))).
Proof. done. Qed.
Lemma gmul_11 x : gmul 11 x = Z.lxor (Z.lxor x (xtime x)) (xtime (xtime (xtime x))).
Proof. done. Qed.
Lemma gmul_13 x : gmul 13 x = Z.lxor (Z.lxor x (xtime (xtime x))) (xtime (xtime (xtime x))).
Proof. done. Qed.
Lemma gmul_14 x : gmul 14 x = Z.lxor (Z.lxor (xtime x) (xtime (xtime x))) (xtime (xtime (xtime x))).
Proof. done. Qed.

#[local] Opaque gmul xtime.

Ltac doublings := repeat match goal with
  | |- context [gmul 1 ?x] => rewrite (gmul_1 x)
  | |- context [gmul 2 ?x] => rewrite (gmul_2 x)
  | |- context [gmul 3 ?x] => rewrite (gmul_3 x)
  | |- context [gmul 9 ?x] => rewrite (gmul_9 x)
  | |- context [gmul 11 ?x] => rewrite (gmul_11 x)
  | |- context [gmul 13 ?x] => rewrite (gmul_13 x)
  | |- context [gmul 14 ?x] => rewrite (gmul_14 x)
  end.

(** Equality of sums. *)
Ltac xors := apply Z.bits_inj'; intros ? ?; rewrite !Z.lxor_spec; btauto.

(** ** Words and states *)

Definition word_ok (w : word4) : Prop := length w = 4%nat ∧ Forall byte w.
Definition state_ok (s : state) : Prop := length s = 4%nat ∧ Forall word_ok s.

Lemma word_ok_cases w : word_ok w → ∃ a b c d, w = [a; b; c; d] ∧ byte a ∧ byte b ∧ byte c ∧ byte d.
Proof.
  intros [Hl Hb]. destruct w as [|a [|b [|c [|d [|]]]]]; try done. repeat (apply list.Forall_cons in Hb as [? Hb]). by exists a, b, c, d.
Qed.

Lemma word_ok_intro a b c d : byte a → byte b → byte c → byte d → word_ok [a; b; c; d].
Proof. intros. split; [done|]. do 4 (apply List.Forall_cons; [done|]). apply List.Forall_nil. Qed.

Lemma state_ok_cases s : state_ok s → ∃ w x y z, s = [w; x; y; z] ∧ word_ok w ∧ word_ok x ∧ word_ok y ∧ word_ok z.
Proof.
  intros [Hl Hb]. destruct s as [|a [|b [|c [|d [|]]]]]; try done. repeat (apply list.Forall_cons in Hb as [? Hb]). by exists a, b, c, d.
Qed.

Lemma state_ok_intro w x y z : word_ok w → word_ok x → word_ok y → word_ok z → state_ok [w; x; y; z].
Proof. intros. split; [done|]. do 4 (apply List.Forall_cons; [done|]). apply List.Forall_nil. Qed.

(** The bytes of a state. *)
Ltac state_bytes H :=
  let cases := fresh in pose proof (state_ok_cases _ H) as cases; destruct cases as (? & ? & ? & ? & -> & ? & ? & ? & ?);
  repeat match goal with Hw : word_ok ?w |- _ => apply word_ok_cases in Hw as (? & ? & ? & ? & -> & ? & ? & ? & ?) end.

Lemma xor_word_ok v w : word_ok v → word_ok w → word_ok (xor_word v w).
Proof. intros (a & b & c & d & -> & ? & ? & ? & ?)%word_ok_cases (e & f & g & h & -> & ? & ? & ? & ?)%word_ok_cases. apply word_ok_intro; auto with word. Qed.

Lemma map_word_ok f w : (∀ x, byte x → byte (f x)) → word_ok w → word_ok (map f w).
Proof. intros Hf (a & b & c & d & -> & ? & ? & ? & ?)%word_ok_cases. apply word_ok_intro; auto. Qed.

Lemma gmul_byte c x : In c [1; 2; 3; 9; 11; 13; 14] → byte x → byte (gmul c x).
Proof. intros Hc Hx. destruct Hc as [<-|[<-|[<-|[<-|[<-|[<-|[<-|[]]]]]]]]; doublings; auto 8 with word. Qed.

Lemma mix_column_ok w : word_ok w → word_ok (mix_column w).
Proof.
  intros (a & b & c & d & -> & ? & ? & ? & ?)%word_ok_cases. cbn [mix_column mat_column]. apply word_ok_intro;
    repeat apply byte_lxor; apply gmul_byte; try done; cbn; auto 8.
Qed.

Lemma inv_mix_column_ok w : word_ok w → word_ok (inv_mix_column w).
Proof.
  intros (a & b & c & d & -> & ? & ? & ? & ?)%word_ok_cases. cbn [inv_mix_column mat_column]. apply word_ok_intro;
    repeat apply byte_lxor; apply gmul_byte; try done; cbn; auto 8.
Qed.

Lemma list4_eq {A} (a b c d a' b' c' d' : A) : a = a' → b = b' → c = c' → d = d' → [a; b; c; d] = [a'; b'; c'; d'].
Proof. congruence. Qed.

(** The matrices are inverse to each other. *)
Lemma inv_mix_mix w : word_ok w → inv_mix_column (mix_column w) = w.
Proof.
  intros (a & b & c & d & -> & _)%word_ok_cases. cbn [inv_mix_column mix_column mat_column]. apply list4_eq; doublings; rewrite !xtime_lxor; xors.
Qed.

Lemma inv_mix_xor v w : word_ok v → word_ok w → inv_mix_column (xor_word v w) = xor_word (inv_mix_column v) (inv_mix_column w).
Proof.
  intros (a & b & c & d & -> & _)%word_ok_cases (e & f & g & h & -> & _)%word_ok_cases. cbn [inv_mix_column mat_column xor_word zip_with].
  apply list4_eq; doublings; rewrite !xtime_lxor; xors.
Qed.

#[local] Opaque gmul xtime sbox inv_sbox.

(** ** Words *)

(** The machine word of a word of the standard. *)
Definition wd (w : word4) : Z := match w with [a; b; c; d] => le32 a b c d | _ => 0 end.

Lemma wd_range w : word_ok w → urange 32 (wd w).
Proof. intros (a & b & c & d & -> & ? & ? & ? & ?)%word_ok_cases. by apply le32_range. Qed.

Lemma wd_xor v w : word_ok v → word_ok w → Z.lxor (wd v) (wd w) = wd (xor_word v w).
Proof. intros (a & b & c & d & -> & ? & ? & ? & ?)%word_ok_cases (e & f & g & h & -> & ? & ? & ? & ?)%word_ok_cases. by apply lxor_le32. Qed.

Lemma byte_n_le32 a b c d : byte a → byte b → byte c → byte d →
  byte_n (le32 a b c d) 0 = a ∧ byte_n (le32 a b c d) 1 = b ∧ byte_n (le32 a b c d) 2 = c ∧ byte_n (le32 a b c d) 3 = d.
Proof.
  intros Ha Hb Hc Hd. destruct (le32_bytes_at a b c d Ha Hb Hc Hd) as (E0 & E1 & E2 & E3).
  assert (H : ∀ x n, byte_n x n = Z.land (Z.shiftr x (Z.shiftl n 3)) 255) by (intros; unfold byte_n, uwrap; change 255 with (Z.ones 8); by rewrite Z.land_ones by lia).
  rewrite !H. by ands.
Qed.

Lemma byte_n_word a b c d : word_ok [a; b; c; d] →
  byte_n (le32 a b c d) 0 = a ∧ byte_n (le32 a b c d) 1 = b ∧ byte_n (le32 a b c d) 2 = c ∧ byte_n (le32 a b c d) 3 = d.
Proof. intros (? & ? & ? & ? & [= <- <- <- <-] & ? & ? & ? & ?)%word_ok_cases. by apply byte_n_le32. Qed.

Lemma ror32_testbit x n i : urange 32 x → 0 < n < 32 → 0 ≤ i →
  Z.testbit (ror32 x n) i = if i <? 32 then Z.testbit x (if i <? 32 - n then i + n else i + n - 32) else false.
Proof.
  intros Hx Hn Hi. unfold ror32, ushl. rewrite Z.lor_spec, Z.shiftr_spec, testbit_uwrap, Z.shiftl_spec by lia.
  destruct (Z.ltb_spec i 32), (Z.ltb_spec i (32 - n)); cbn [andb]; try lia.
  - rewrite (Z.testbit_neg_r _ (i - (32 - n))) by lia. apply orb_false_r.
  - rewrite (urange_testbit_high 32 x (i + n)) by (done || lia). cbn [orb]. f_equal. lia.
  - rewrite (urange_testbit_high 32 x (i + n)) by (done || lia). done.
Qed.

Lemma ror32_le32 a b c d : byte a → byte b → byte c → byte d →
  ror32 (le32 a b c d) 8 = le32 b c d a ∧ ror32 (le32 a b c d) 16 = le32 c d a b ∧ ror32 (le32 a b c d) 24 = le32 d a b c.
Proof.
  intros Ha Hb Hc Hd. assert (Hr : urange 32 (le32 a b c d)) by (by apply le32_range). ands; apply Z.bits_inj'; intros i Hi; rewrite ror32_testbit by (done || lia);
    (destruct (Z.ltb_spec i 32); [|symmetry; eapply urange_testbit_high; [by apply le32_range|lia]]);
    match goal with |- context [i <? 32 - ?n] => destruct (Z.ltb_spec i (32 - n)) end; rewrite !le32_testbit by (done || lia);
    repeat match goal with |- context [?x <? ?y] => destruct (Z.ltb_spec x y); try lia end; f_equal; lia.
Qed.

Lemma land_le32 a0 a1 a2 a3 b0 b1 b2 b3 :
  byte a0 → byte a1 → byte a2 → byte a3 → byte b0 → byte b1 → byte b2 → byte b3 →
  Z.land (le32 a0 a1 a2 a3) (le32 b0 b1 b2 b3) = le32 (Z.land a0 b0) (Z.land a1 b1) (Z.land a2 b2) (Z.land a3 b3).
Proof.
  intros. assert (Hl : ∀ x y, byte x → byte y → byte (Z.land x y)) by (intros; by apply urange_land).
  apply Z.bits_inj'. intros i Hi. rewrite Z.land_spec, !le32_testbit by (auto with word). repeat case_match; by rewrite ?Z.land_spec.
Qed.

(** Doubling of the four bytes at once. *)
Lemma star_x_le32 a b c d : byte a → byte b → byte c → byte d → star_x (le32 a b c d) = le32 (xtime a) (xtime b) (xtime c) (xtime d).
Proof.
  intros Ha Hb Hc Hd. unfold star_x. change 0x7f7f7f7f with (le32 127 127 127 127). change 0x80808080 with (le32 128 128 128 128). rewrite !land_le32 by (done || by vm_compute).
  assert (H : ∀ x, byte x → ∃ l h, Z.land x 127 = l ∧ Z.land x 128 = 128 * h ∧ 0 ≤ l < 128 ∧ 0 ≤ h < 2 ∧ xtime x = Z.lxor (2 * l) (27 * h)).
  { intros x Hx. exists (Z.land x 127), (Z.land x 128 / 128). pose proof (bytes_all (λ x, (Z.land x 128 =? 128 * (Z.land x 128 / 128)) && (0 <=? Z.land x 127) && (Z.land x 127 <? 128) &&
      (0 <=? Z.land x 128 / 128) && (Z.land x 128 / 128 <? 2) && (xtime x =? Z.lxor (2 * Z.land x 127) (27 * (Z.land x 128 / 128)))) ltac:(by vm_compute) x Hx) as E. cbv beta in E.
    rewrite !andb_true_iff, !Z.eqb_eq, !Z.ltb_lt, !Z.leb_le in E. tauto. }
  destruct (H a Ha) as (la & ha & -> & -> & ? & ? & ->), (H b Hb) as (lb & hb & -> & -> & ? & ? & ->), (H c Hc) as (lc & hc & -> & -> & ? & ? & ->), (H d Hd) as (ld & hd & -> & -> & ? & ? & ->).
  assert (ushl 32 (le32 la lb lc ld) 1 = le32 (2 * la) (2 * lb) (2 * lc) (2 * ld)) as ->.
  { unfold ushl. rewrite Z.shiftl_mul_pow2 by lia. rewrite uwrap_small by (unfold urange, le32; lia). unfold le32. lia. }
  assert (Z.shiftr (le32 (128 * ha) (128 * hb) (128 * hc) (128 * hd)) 7 = le32 ha hb hc hd) as ->.
  { rewrite Z.shiftr_div_pow2 by lia. replace (le32 (128 * ha) (128 * hb) (128 * hc) (128 * hd)) with (le32 ha hb hc hd * 2 ^ 7) by (unfold le32; lia). by rewrite Z.div_mul. }
  rewrite uwrap_small by (unfold urange, le32; lia). replace (le32 ha hb hc hd * 0x1b) with (le32 (27 * ha) (27 * hb) (27 * hc) (27 * hd)) by (unfold le32; lia).
  apply lxor_le32; unfold urange; lia.
Qed.

Lemma imix_col_ok w : word_ok w → imix_col (wd w) = wd (inv_mix_column w).
Proof.
  intros (a & b & c & d & -> & Ha & Hb & Hc & Hd)%word_ok_cases. cbn [wd inv_mix_column mat_column]. unfold imix_col. rewrite !star_x_le32 by (auto 8 with word).
  rewrite !lxor_le32 by (auto 12 with word).
  destruct (ror32_le32 (Z.lxor (xtime a) (Z.lxor (xtime (xtime (xtime a))) a)) (Z.lxor (xtime b) (Z.lxor (xtime (xtime (xtime b))) b))
    (Z.lxor (xtime c) (Z.lxor (xtime (xtime (xtime c))) c)) (Z.lxor (xtime d) (Z.lxor (xtime (xtime (xtime d))) d))) as (-> & _); [auto 12 with word..|].
  destruct (ror32_le32 (Z.lxor (xtime (xtime a)) (Z.lxor (xtime (xtime (xtime a))) a)) (Z.lxor (xtime (xtime b)) (Z.lxor (xtime (xtime (xtime b))) b))
    (Z.lxor (xtime (xtime c)) (Z.lxor (xtime (xtime (xtime c))) c)) (Z.lxor (xtime (xtime d)) (Z.lxor (xtime (xtime (xtime d))) d))) as (_ & -> & _); [auto 12 with word..|].
  destruct (ror32_le32 (Z.lxor (xtime (xtime (xtime a))) a) (Z.lxor (xtime (xtime (xtime b))) b) (Z.lxor (xtime (xtime (xtime c))) c) (Z.lxor (xtime (xtime (xtime d))) d)) as (_ & _ & ->); [auto 12 with word..|].
  rewrite !lxor_le32 by (auto 12 with word). doublings. f_equal; xors.
Qed.

(** ** Tables *)

Definition tab (g : Z → Z) : list Z := g <$> seqZ 0 256.

(** The tables of the matrix with the first row [m0 m1 m2 m3] after the substitution [f]: table [k] has its column [k]. *)
Definition tabs_of (m0 m1 m2 m3 : Z) (f : Z → Z) : list (list Z) :=
  let t a b c d := tab (λ x, le32 (gmul a (f x)) (gmul b (f x)) (gmul c (f x)) (gmul d (f x))) in
  [t m0 m3 m2 m1; t m1 m0 m3 m2; t m2 m1 m0 m3; t m3 m2 m1 m0].

Lemma crypto_ft_tab_ok : crypto_ft_tab = tabs_of 2 3 1 1 sbox.
Proof. vm_compute. reflexivity. Qed.
Lemma crypto_fl_tab_ok : crypto_fl_tab = tabs_of 1 0 0 0 sbox.
Proof. vm_compute. reflexivity. Qed.
Lemma crypto_it_tab_ok : crypto_it_tab = tabs_of 14 11 13 9 inv_sbox.
Proof. vm_compute. reflexivity. Qed.
Lemma crypto_il_tab_ok : crypto_il_tab = tabs_of 1 0 0 0 inv_sbox.
Proof. vm_compute. reflexivity. Qed.

Lemma tab_get g x : byte x → (tab g).[x] = Some (g x).
Proof. intros Hx. apply arr_get_fmap_seqZ. done. Qed.

Lemma get4_0 {A} (w x y z : A) : [w; x; y; z].[0] = Some w.
Proof. done. Qed.
Lemma get4_1 {A} (w x y z : A) : [w; x; y; z].[1] = Some x.
Proof. done. Qed.
Lemma get4_2 {A} (w x y z : A) : [w; x; y; z].[2] = Some y.
Proof. done. Qed.
Lemma get4_3 {A} (w x y z : A) : [w; x; y; z].[3] = Some z.
Proof. done. Qed.

(** The entries of the matrices. *)
Definition entry (c : Z) : Prop := In c [0; 1; 2; 3; 9; 11; 13; 14].

Lemma gmul_0 x : gmul 0 x = 0.
Proof. done. Qed.

Lemma entry_byte c x : entry c → byte x → byte (gmul c x).
Proof. intros [<-|Hc] Hx; [by rewrite gmul_0|by apply gmul_byte]. Qed.

Section Look.
Context (m0 m1 m2 m3 : Z) (f : Z → Z) (Hf : ∀ x, byte x → byte (f x)).
Context (H0 : entry m0) (H1 : entry m1) (H2 : entry m2) (H3 : entry m3).

Lemma look_ok a0 a1 a2 a3 b0 b1 b2 b3 c0 c1 c2 c3 d0 d1 d2 d3 :
  word_ok [a0; a1; a2; a3] → word_ok [b0; b1; b2; b3] → word_ok [c0; c1; c2; c3] → word_ok [d0; d1; d2; d3] →
  look (tabs_of m0 m1 m2 m3 f) (le32 a0 a1 a2 a3) (le32 b0 b1 b2 b3) (le32 c0 c1 c2 c3) (le32 d0 d1 d2 d3) =
    Some (wd (mat_column m0 m1 m2 m3 [f a0; f b1; f c2; f d3])).
Proof.
  intros Ha Hb Hc Hd. unfold look, tabs_of. rewrite (proj1 (byte_n_word _ _ _ _ Ha)), (proj1 (proj2 (byte_n_word _ _ _ _ Hb))),
    (proj1 (proj2 (proj2 (byte_n_word _ _ _ _ Hc)))), (proj2 (proj2 (proj2 (byte_n_word _ _ _ _ Hd)))).
  apply word_ok_cases in Ha as (? & ? & ? & ? & [= <- <- <- <-] & ? & ? & ? & ?), Hb as (? & ? & ? & ? & [= <- <- <- <-] & ? & ? & ? & ?),
    Hc as (? & ? & ? & ? & [= <- <- <- <-] & ? & ? & ? & ?), Hd as (? & ? & ? & ? & [= <- <- <- <-] & ? & ? & ? & ?).
  cbv zeta. rewrite get4_0, Some_bind, tab_get, Some_bind, get4_1, Some_bind, tab_get, Some_bind, get4_2, Some_bind, tab_get, Some_bind, get4_3, Some_bind, tab_get, Some_bind by done.
  assert (He : ∀ m x, entry m → byte x → byte (gmul m (f x))) by (intros; by apply entry_byte; [|apply Hf]).
  rewrite !lxor_le32 by (repeat apply byte_lxor; by apply He). cbn [mat_column wd]. done.
Qed.

(** The words [k] to [k + 3] of the key are those of a round key. *)
Definition round_at (key : list Z) (k : Z) (rk : state) : Prop := ∀ n w, rk.[n] = Some w → key.[k + n] = Some (wd w).

Lemma round_at_get key k w x y z : round_at key k [w; x; y; z] →
  key.[k + 0] = Some (wd w) ∧ key.[k + 1] = Some (wd x) ∧ key.[k + 2] = Some (wd y) ∧ key.[k + 3] = Some (wd z).
Proof. intros H. ands; by apply H. Qed.

Lemma mat_column_ok p q r t : byte p → byte q → byte r → byte t → word_ok (mat_column m0 m1 m2 m3 [f p; f q; f r; f t]).
Proof. intros. cbn [mat_column]. apply word_ok_intro; repeat apply byte_lxor; apply entry_byte; auto. Qed.

Ltac rows := repeat match goal with |- context [Z.land (?n + ?i) 3] => let v := eval vm_compute in (Z.land (n + i) 3) in change (Z.land (n + i) 3) with v end.

(** The four words of a round. *)
Ltac aes_round :=
  let Hs := fresh in let Hr := fresh in let Hk := fresh in intros Hs Hr Hk;
  apply state_ok_cases in Hr as (? & ? & ? & ? & -> & ? & ? & ? & ?); apply round_at_get in Hk as (K0 & K1 & K2 & K3);
  apply state_ok_cases in Hs as (? & ? & ? & ? & -> & Ha & Hb & Hc & Hd);
  pose proof (word_ok_cases _ Ha) as (a0 & a1 & a2 & a3 & -> & ? & ? & ? & ?); pose proof (word_ok_cases _ Hb) as (b0 & b1 & b2 & b3 & -> & ? & ? & ? & ?);
  pose proof (word_ok_cases _ Hc) as (c0 & c1 & c2 & c3 & -> & ? & ? & ? & ?); pose proof (word_ok_cases _ Hd) as (d0 & d1 & d2 & d3 & -> & ? & ? & ? & ?);
  cbv [f_round f_word i_round i_word]; cbn [map wd]; rows;
  rewrite get4_0, get4_1, get4_2, get4_3, !Some_bind; rewrite !look_ok by done; rewrite !Some_bind, K0, K1, K2, K3, !Some_bind; rewrite !wd_xor by (auto using mat_column_ok); reflexivity.

(** A round of the code is one of the standard, for encryption and for decryption. *)
Lemma f_round_ok s key k rk :
  state_ok s → state_ok rk → round_at key k rk →
  f_round (tabs_of m0 m1 m2 m3 f) (map wd s) key k = Some (map wd (add_round_key rk (map (mat_column m0 m1 m2 m3) (shift_rows (map (map f) s))))).
Proof. aes_round. Qed.

Lemma i_round_ok s key k rk :
  state_ok s → state_ok rk → round_at key k rk →
  i_round (tabs_of m0 m1 m2 m3 f) (map wd s) key k = Some (map wd (add_round_key rk (map (mat_column m0 m1 m2 m3) (inv_shift_rows (map (map f) s))))).
Proof. aes_round. Qed.
End Look.

(** ** States *)

Lemma map_state_ok (g : word4 → word4) s : (∀ w, word_ok w → word_ok (g w)) → state_ok s → state_ok (map g s).
Proof. intros Hg (w & x & y & z & -> & ? & ? & ? & ?)%state_ok_cases. apply state_ok_intro; auto. Qed.

Lemma sub_bytes_ok s : state_ok s → state_ok (sub_bytes s).
Proof. apply map_state_ok. intros w. apply map_word_ok, sbox_byte. Qed.
Lemma inv_sub_bytes_ok s : state_ok s → state_ok (inv_sub_bytes s).
Proof. apply map_state_ok. intros w. apply map_word_ok, inv_sbox_byte. Qed.
Lemma mix_columns_ok s : state_ok s → state_ok (mix_columns s).
Proof. apply map_state_ok, mix_column_ok. Qed.
Lemma inv_mix_columns_ok s : state_ok s → state_ok (inv_mix_columns s).
Proof. apply map_state_ok, inv_mix_column_ok. Qed.
Lemma shift_rows_ok s : state_ok s → state_ok (shift_rows s).
Proof. intros H. state_bytes H. cbn [shift_rows]. by apply state_ok_intro; apply word_ok_intro. Qed.
Lemma inv_shift_rows_ok s : state_ok s → state_ok (inv_shift_rows s).
Proof. intros H. state_bytes H. cbn [inv_shift_rows]. by apply state_ok_intro; apply word_ok_intro. Qed.
Lemma add_round_key_ok k s : state_ok k → state_ok s → state_ok (add_round_key k s).
Proof.
  intros (w & x & y & z & -> & ? & ? & ? & ?)%state_ok_cases (w' & x' & y' & z' & -> & ? & ? & ? & ?)%state_ok_cases.
  apply state_ok_intro; by apply xor_word_ok.
Qed.
Create HintDb aes.
#[local] Hint Resolve sub_bytes_ok inv_sub_bytes_ok mix_columns_ok inv_mix_columns_ok shift_rows_ok inv_shift_rows_ok add_round_key_ok : aes.

(** The inverses. *)
Lemma inv_shift_shift s : state_ok s → inv_shift_rows (shift_rows s) = s.
Proof. intros H. by state_bytes H. Qed.

Lemma inv_sub_sub s : state_ok s → inv_sub_bytes (sub_bytes s) = s.
Proof. intros H. state_bytes H. cbn [sub_bytes inv_sub_bytes map]. by rewrite !inv_sbox_sbox. Qed.

Lemma inv_mix_mix_columns s : state_ok s → inv_mix_columns (mix_columns s) = s.
Proof. intros (w & x & y & z & -> & ? & ? & ? & ?)%state_ok_cases. cbn [mix_columns inv_mix_columns map]. by rewrite !inv_mix_mix. Qed.

Lemma xor_word_twice v w : word_ok v → word_ok w → xor_word (xor_word w v) v = w.
Proof.
  intros (a & b & c & d & -> & _)%word_ok_cases (e & f & g & h & -> & _)%word_ok_cases. cbn [xor_word zip_with]. apply list4_eq; xors.
Qed.

Lemma add_round_key_twice k s : state_ok k → state_ok s → add_round_key k (add_round_key k s) = s.
Proof.
  intros (w & x & y & z & -> & ? & ? & ? & ?)%state_ok_cases (w' & x' & y' & z' & -> & ? & ? & ? & ?)%state_ok_cases.
  cbn [add_round_key zip_with]. by rewrite !xor_word_twice.
Qed.

Lemma inv_mix_add k s : state_ok k → state_ok s → inv_mix_columns (add_round_key k s) = add_round_key (inv_mix_columns k) (inv_mix_columns s).
Proof.
  intros (w & x & y & z & -> & ? & ? & ? & ?)%state_ok_cases (w' & x' & y' & z' & -> & ? & ? & ? & ?)%state_ok_cases.
  cbn [add_round_key inv_mix_columns zip_with map]. by rewrite !inv_mix_xor.
Qed.

Lemma inv_sub_shift s : state_ok s → inv_sub_bytes (inv_shift_rows s) = inv_shift_rows (inv_sub_bytes s).
Proof. intros H. by state_bytes H. Qed.

(** ** The inverse cipher *)

Section Inverse.
Context (rk : nat → state) (Hrk : ∀ r, state_ok (rk r)).

Definition fwd (s : state) (r : nat) : state := add_round_key (rk r) (mix_columns (shift_rows (sub_bytes s))).
Definition bwd (s : state) (r : nat) : state := inv_mix_columns (add_round_key (rk r) (inv_sub_bytes (inv_shift_rows s))).

Lemma fwd_ok l s : state_ok s → state_ok (fold_left fwd l s).
Proof. revert s. induction l as [|r l IH]; intros s Hs; cbn [fold_left]; [done|]. apply IH. unfold fwd. auto with aes. Qed.

Lemma bwd_fwd n s : state_ok s → fold_left bwd (rev (seq 1 n)) (shift_rows (sub_bytes (fold_left fwd (seq 1 n) s))) = shift_rows (sub_bytes s).
Proof.
  intros Hs. induction n as [|n IH]; [done|]. rewrite seq_S, fold_left_app, rev_app_distr. cbn [rev app fold_left]. pose proof (fwd_ok (seq 1 n) s Hs) as Ht.
  set (t := fold_left fwd (seq 1 n) s) in *. assert (bwd (shift_rows (sub_bytes (fwd t (1 + n)))) (1 + n) = shift_rows (sub_bytes t)) as ->; [|done].
  unfold bwd, fwd. rewrite inv_shift_shift, inv_sub_sub, add_round_key_twice, inv_mix_mix_columns by auto 8 with aes. done.
Qed.
End Inverse.

(** The words of a key schedule of [nr] rounds. *)
Definition schedule_ok (nr : nat) (w : list word4) : Prop := (4 * (nr + 1) ≤ length w)%nat ∧ Forall word_ok w.

Lemma round_key_ok nr w r : schedule_ok nr w → (r ≤ nr)%nat → state_ok (round_key w r).
Proof.
  intros [Hl Hw] Hr. unfold round_key. split; [rewrite length_take, length_drop; lia|]. by apply Forall_take, Forall_drop.
Qed.

Lemma inv_cipher_cipher nr w s : (0 < nr)%nat → schedule_ok nr w → state_ok s → inv_cipher nr w (cipher nr w s) = s.
Proof.
  intros Hnr Hw Hs. assert (Hrk : ∀ r, (r ≤ nr)%nat → state_ok (round_key w r)) by (intros; by eapply round_key_ok). unfold inv_cipher, cipher.
  set (rk := λ r, if decide (r ≤ nr)%nat then round_key w r else round_key w 0).
  assert (Hrk' : ∀ r, state_ok (rk r)) by (intros r; unfold rk; case_decide; apply Hrk; lia).
  assert (Hf : ∀ (g g' : state → nat → state) l s, Forall (λ r, (r ≤ nr)%nat) l → (∀ s r, (r ≤ nr)%nat → g s r = g' s r) → fold_left g l s = fold_left g' l s).
  { intros g g' l. induction l as [|r l IH]; intros t Hl Hg; cbn [fold_left]; [done|]. apply list.Forall_cons in Hl as [Hr Hl]. rewrite Hg by done. by apply IH. }
  assert (Hseq : Forall (λ r, (r ≤ nr)%nat) (seq 1 (nr - 1))) by (apply Forall_forall; intros r Hr%in_seq; lia).
  rewrite (Hf _ (fwd rk) (seq 1 (nr - 1))) by (done || (intros t r Hr; unfold fwd, rk; by rewrite decide_True)).
  rewrite (Hf _ (bwd rk) (rev (seq 1 (nr - 1)))) by (by apply Forall_rev || (intros t r Hr; unfold bwd, rk; by rewrite decide_True)).
  pose proof (Hrk 0%nat ltac:(lia)) as H0. pose proof (Hrk nr ltac:(lia)) as Hn.
  pose proof (fwd_ok rk Hrk' (seq 1 (nr - 1)) (add_round_key (round_key w 0) s) ltac:(auto with aes)) as Ht. rewrite add_round_key_twice by auto 8 with aes. rewrite bwd_fwd by auto with aes.
  rewrite inv_shift_shift, inv_sub_sub, add_round_key_twice by auto 8 with aes. done.
Qed.

(** ** The rounds of the code *)

Section Rounds.
Context (nround : list Z → list Z → Z → option (list Z * Z)) (lround : list Z → list Z → Z → option (list Z)) (key : list Z) (nk : nat).
Context (g : state → nat → state) (h : state → state) (Hg : ∀ s r, (1 ≤ r < nk + 6)%nat → state_ok s → state_ok (g s r)).
Context (Hn : ∀ s r, (1 ≤ r < nk + 6)%nat → state_ok s → nround (map wd s) key (4 * Z.of_nat r) = Some (map wd (g s r), 4 * Z.of_nat (S r))).
Context (Hl : ∀ s, state_ok s → lround (map wd s) key (4 * Z.of_nat (nk + 6)) = Some (map wd (h s))).

(** One round more. *)
Ltac next_round r :=
  match goal with |- context [nround (map wd ?s) key ?k] => change (nround (map wd s) key k) with (nround (map wd s) key (4 * Z.of_nat r)) end;
  rewrite (Hn _ r) by (lia || (repeat (apply Hg; [lia|]); done)); rewrite Some_bind; cbv iota.
Ltac last_round :=
  match goal with |- context [lround (map wd ?s) key _] => rewrite (Hl s) by (repeat (apply Hg; [lia|]); done) end; reflexivity.

Lemma aes_rounds_ok s :
  In nk [4; 6; 8]%nat → state_ok s →
  aes_rounds nround lround key (4 * Z.of_nat nk) (map wd s) = Some (map wd (h (fold_left g (seq 1 (nk + 5)) s))).
Proof.
  intros Hk Hs. unfold aes_rounds. cbv zeta. destruct Hk as [Hk|[Hk|[Hk|[]]]]; subst nk; cbn [Nat.add] in *.
  - change (4 * Z.of_nat 4 >? 24) with false. change (4 * Z.of_nat 4 >? 16) with false. cbv iota. rewrite !Some_bind. cbv iota.
    next_round 1%nat. next_round 2%nat. next_round 3%nat. next_round 4%nat. next_round 5%nat. next_round 6%nat. next_round 7%nat. next_round 8%nat. next_round 9%nat. last_round.
  - change (4 * Z.of_nat 6 >? 24) with false. change (4 * Z.of_nat 6 >? 16) with true. cbv iota. rewrite Some_bind. cbv iota. next_round 1%nat. next_round 2%nat.
    next_round 3%nat. next_round 4%nat. next_round 5%nat. next_round 6%nat. next_round 7%nat. next_round 8%nat. next_round 9%nat. next_round 10%nat. next_round 11%nat. last_round.
  - change (4 * Z.of_nat 8 >? 24) with true. change (4 * Z.of_nat 8 >? 16) with true. cbv iota. next_round 1%nat. next_round 2%nat. next_round 3%nat. next_round 4%nat.
    next_round 5%nat. next_round 6%nat. next_round 7%nat. next_round 8%nat. next_round 9%nat. next_round 10%nat. next_round 11%nat. next_round 12%nat. next_round 13%nat. last_round.
Qed.
End Rounds.

(** ** The block functions *)

Lemma identity_column w : word_ok w → mat_column 1 0 0 0 w = w.
Proof.
  intros (a & b & c & d & -> & _)%word_ok_cases. cbn [mat_column]. rewrite !(gmul_1 _), !gmul_0. apply list4_eq; rewrite ?Z.lxor_0_l, ?Z.lxor_0_r; done.
Qed.

Lemma identity_columns s : state_ok s → map (mat_column 1 0 0 0) s = s.
Proof. intros (w & x & y & z & -> & ? & ? & ? & ?)%state_ok_cases. cbn [map]. by rewrite !identity_column. Qed.

Lemma words_of_block b : block 16 b → state_ok (words4 b) ∧ concat (words4 b) = b ∧ ∀ n, get_le32 b n = (x ← (words4 b).[n]; Some (wd x)).
Proof.
  intros [Hl Hb]. unfold alen in Hl. do 16 (destruct b as [|? b]; [done|]). destruct b; [|cbn in Hl; lia]. repeat (apply list.Forall_cons in Hb as [? Hb]). cbn [words4]. ands.
  - by apply state_ok_intro; apply word_ok_intro.
  - done.
  - intros n. destruct (decide (0 ≤ n < 4)) as [Hn|Hn].
    + assert (n = 0 ∨ n = 1 ∨ n = 2 ∨ n = 3) as [->|[->|[->| ->]]] by lia; done.
    + unfold get_le32. rewrite !arr_get_None by (unfold alen; cbn [length]; lia). done.
Qed.

Lemma load_block_ok src key rk :
  block 16 src → state_ok rk → round_at key 0 rk → load_block src key = Some (map wd (add_round_key rk (words4 src))).
Proof.
  intros Hb Hr Hk. destruct (words_of_block src Hb) as (Hs & _ & Hg). apply state_ok_cases in Hr as (k0 & k1 & k2 & k3 & -> & ? & ? & ? & ?). apply round_at_get in Hk as (K0 & K1 & K2 & K3).
  unfold load_block. rewrite !Hg. apply state_ok_cases in Hs as (w & x & y & z & -> & ? & ? & ? & ?). rewrite get4_0, get4_1, get4_2, get4_3, !Some_bind.
  rewrite Z.add_0_l in K0, K1, K2, K3. rewrite K0, K1, K2, K3, !Some_bind, !wd_xor by done. done.
Qed.

Lemma put_wd w : word_ok w → put_le32 (wd w) = w.
Proof.
  intros (a & b & c & d & -> & ? & ? & ? & ?)%word_ok_cases. cbn [wd]. unfold put_le32, le32_bytes. destruct (byte_n_le32 a b c d) as (E0 & E1 & E2 & E3); try done.
  unfold byte_n in *. change (Z.shiftl 0 3) with 0 in E0. change (Z.shiftl 1 3) with 8 in E1. change (Z.shiftl 2 3) with 16 in E2. change (Z.shiftl 3 3) with 24 in E3.
  rewrite Z.shiftr_0_r in E0. by rewrite E0, E1, E2, E3.
Qed.

Lemma store_block_ok s : state_ok s → store_block (map wd s) = concat s.
Proof. intros (w & x & y & z & -> & ? & ? & ? & ?)%state_ok_cases. unfold store_block. cbn [map]. by rewrite !put_wd. Qed.

(** Loops over the rounds that do the same on states. *)
Lemma fold_ext (g g' : state → nat → state) l s :
  (∀ s r, In r l → state_ok s → g s r = g' s r ∧ state_ok (g s r)) → state_ok s → fold_left g l s = fold_left g' l s ∧ state_ok (fold_left g l s).
Proof.
  revert s. induction l as [|r l IH]; intros s Hg Hs; cbn [fold_left]; [done|]. destruct (Hg s r (or_introl eq_refl) Hs) as [<- Hok].
  apply IH; [|done]. intros t q Hq. apply Hg. by right.
Qed.

Lemma rev_seq_from a n : rev (seq a n) = map (λ r, a + a + n - 1 - r)%nat (seq a n).
Proof.
  revert a. induction n as [|n IH]; intros a; [done|]. cbn [seq rev]. rewrite IH, <- seq_shift, map_map.
  rewrite seq_shift. change (a :: seq (S a) n) with (seq a (S n)). rewrite seq_S, map_app. cbn [map]. f_equal; [|f_equal; lia]. apply map_ext_in. intros r _. lia.
Qed.

Lemma rev_seq n : rev (seq 1 n) = map (λ r, S n - r)%nat (seq 1 n).
Proof. rewrite rev_seq_from. apply map_ext_in. intros r _. lia. Qed.

Lemma fold_left_map_nat {A} (g : A → nat → A) (h : nat → nat) l s : fold_left g (map h l) s = fold_left (λ s r, g s (h r)) l s.
Proof. revert s. induction l as [|r l IH]; intros s; cbn [map fold_left]; [done|]. apply IH. Qed.

Section Block.
Context (ctx : crypto_aes_ctx) (nk : nat) (w : list word4) (Hk : In nk [4; 6; 8]%nat) (Hlen : key_length ctx = 4 * Z.of_nat nk) (Hw : schedule_ok (nk + 6) w).

(** The round keys in the order of encryption. *)
Definition enc_at (key : list Z) : Prop := ∀ r, (r ≤ nk + 6)%nat → round_at key (4 * Z.of_nat r) (round_key w r).

(** The round keys of decryption: the other way round, with [InvMixColumns] applied to those in the middle. *)
Definition dec_key (r : nat) : state :=
  if decide (1 ≤ r < nk + 6)%nat then inv_mix_columns (round_key w (nk + 6 - r)) else round_key w (nk + 6 - r).
Definition dec_at (key : list Z) : Prop := ∀ r, (r ≤ nk + 6)%nat → round_at key (4 * Z.of_nat r) (dec_key r).

Lemma dec_key_ok r : (r ≤ nk + 6)%nat → state_ok (dec_key r).
Proof. intros Hr. unfold dec_key. case_decide; [apply inv_mix_columns_ok|]; eapply round_key_ok; [done|lia|done|lia]. Qed.

Lemma aes_encrypt_ok b : enc_at (key_enc ctx) → block 16 b → aes_encrypt ctx b = Some (concat (cipher (nk + 6) w (words4 b))).
Proof.
  intros He Hb. destruct (words_of_block b Hb) as (Hs & _). assert (Hr : ∀ r, (r ≤ nk + 6)%nat → state_ok (round_key w r)) by (intros; by eapply round_key_ok).
  unfold aes_encrypt. rewrite (load_block_ok b _ (round_key w 0)) by first [done|apply Hr; lia|apply (He 0%nat); lia]. rewrite Some_bind, Hlen.
  rewrite (aes_rounds_ok _ _ _ nk (λ s r, add_round_key (round_key w r) (mix_columns (shift_rows (sub_bytes s)))) (λ s, add_round_key (round_key w (nk + 6)) (shift_rows (sub_bytes s)))).
  - rewrite Some_bind. f_equal. unfold cipher. replace (nk + 6 - 1)%nat with (nk + 5)%nat by lia. apply store_block_ok. apply add_round_key_ok; [apply Hr; lia|]. apply shift_rows_ok, sub_bytes_ok.
    eapply (fold_ext _ (λ s r, add_round_key (round_key w r) (mix_columns (shift_rows (sub_bytes s))))); [|apply add_round_key_ok; [apply Hr; lia|done]].
    intros t r Hrr%in_seq Ht. split; [done|]. apply add_round_key_ok; [apply Hr; lia|auto with aes].
  - intros s r Hrr Hss. apply add_round_key_ok; [apply Hr; lia|auto with aes].
  - intros s r Hrr Hss. unfold f_nround. rewrite crypto_ft_tab_ok. rewrite (f_round_ok 2 3 1 1 sbox sbox_byte) with (rk := round_key w r);
      [rewrite Some_bind; do 2 f_equal; lia|cbn; tauto..|done|apply Hr; lia|apply He; lia].
  - intros s Hss. unfold f_lround. rewrite crypto_fl_tab_ok. rewrite (f_round_ok 1 0 0 0 sbox sbox_byte) with (rk := round_key w (nk + 6));
      [|cbn; tauto..|done|apply Hr; lia|apply He; lia]. rewrite identity_columns; [done|]. by apply shift_rows_ok, sub_bytes_ok.
  - done.
  - apply add_round_key_ok; [apply Hr; lia|done].
Qed.

Lemma aes_decrypt_ok b : dec_at (key_dec ctx) → block 16 b → aes_decrypt ctx b = Some (concat (inv_cipher (nk + 6) w (words4 b))).
Proof.
  intros He Hb. destruct (words_of_block b Hb) as (Hs & _). assert (Hr : ∀ r, (r ≤ nk + 6)%nat → state_ok (dec_key r)) by apply dec_key_ok.
  assert (Hrk : ∀ r, (r ≤ nk + 6)%nat → state_ok (round_key w r)) by (intros; by eapply round_key_ok).
  unfold aes_decrypt. rewrite (load_block_ok b _ (dec_key 0)) by first [done|apply Hr; lia|apply (He 0%nat); lia]. rewrite Some_bind, Hlen.
  set (g := λ s r, add_round_key (dec_key r) (inv_mix_columns (inv_shift_rows (inv_sub_bytes s)))).
  assert (Hg : ∀ s r, (r ≤ nk + 6)%nat → state_ok s → state_ok (g s r)) by (intros s r Hrr Hss; apply add_round_key_ok; [apply Hr; lia|auto with aes]).
  rewrite (aes_rounds_ok _ _ _ nk g (λ s, add_round_key (dec_key (nk + 6)) (inv_shift_rows (inv_sub_bytes s)))).
  - rewrite Some_bind. f_equal. unfold inv_cipher. replace (nk + 6 - 1)%nat with (nk + 5)%nat by lia. rewrite rev_seq, fold_left_map_nat.
    assert (E0 : dec_key 0 = round_key w (nk + 6)) by (unfold dec_key; rewrite decide_False by lia; f_equal; lia). rewrite E0.
    assert (E1 : dec_key (nk + 6) = round_key w 0) by (unfold dec_key; rewrite decide_False by lia; f_equal; lia). rewrite E1.
    destruct (fold_ext g (λ s r, inv_mix_columns (add_round_key (round_key w (S (nk + 5) - r)) (inv_sub_bytes (inv_shift_rows s)))) (seq 1 (nk + 5))
      (add_round_key (round_key w (nk + 6)) (words4 b))) as [<- Hok].
    + intros t r Hrr%in_seq Ht. split; [|apply Hg; [lia|done]]. unfold g, dec_key. pose proof (Hrk (S (nk + 5) - r)%nat ltac:(lia)). rewrite decide_True by lia. rewrite inv_sub_shift, inv_mix_add by auto with aes.
      by replace (S (nk + 5) - r)%nat with (nk + 6 - r)%nat by lia.
    + apply add_round_key_ok; [apply Hrk; lia|done].
    + rewrite inv_sub_shift by done. apply store_block_ok. apply add_round_key_ok; [apply Hrk; lia|auto with aes].
  - intros s r Hrr Hss. apply Hg; [lia|done].
  - intros s r Hrr Hss. unfold i_nround. rewrite crypto_it_tab_ok. rewrite (i_round_ok 14 11 13 9 inv_sbox inv_sbox_byte) with (rk := dec_key r);
      [rewrite Some_bind; do 2 f_equal; lia|cbn; tauto..|done|apply Hr; lia|apply He; lia].
  - intros s Hss. unfold i_lround. rewrite crypto_il_tab_ok. rewrite (i_round_ok 1 0 0 0 inv_sbox inv_sbox_byte) with (rk := dec_key (nk + 6));
      [|cbn; tauto..|done|apply Hr; lia|apply He; lia]. rewrite identity_columns; [done|]. by apply inv_shift_rows_ok, inv_sub_bytes_ok.
  - done.
  - apply add_round_key_ok; [apply Hr; lia|done].
Qed.
End Block.
