(* ===== verification/AesKey.v ===== *)
(** * The key schedule of AES

    The expansion writes the words of the standard, and the words of the inverse cipher in the order and the form that decryption uses; with them
    the block functions are those of the standard. *)

From S2P Require Import Prelude Words Cipher Aes AesSpec AesFacts.
#[local] Open Scope Z_scope.
#[local] Open Scope kernel_scope.
#[local] Opaque gmul xtime sbox inv_sbox.

(** ** Steps of the expansion *)

Lemma rot_word_ok w : word_ok w → word_ok (rot_word w).
Proof. intros (a & b & c & d & -> & ? & ? & ? & ?)%word_ok_cases. by apply word_ok_intro. Qed.
Lemma sub_word_ok w : word_ok w → word_ok (sub_word w).
Proof. apply map_word_ok, sbox_byte. Qed.

Lemma ror_wd w : word_ok w → ror32 (wd w) 8 = wd (rot_word w).
Proof. intros (a & b & c & d & -> & ? & ? & ? & ?)%word_ok_cases. by apply ror32_le32. Qed.

Lemma ls_box_ok w : word_ok w → ls_box (wd w) = Some (wd (sub_word w)).
Proof.
  intros Hw. pose proof (sub_word_ok w Hw) as Hs. pose proof (word_ok_cases w Hw) as (a & b & c & d & -> & ? & ? & ? & ?). unfold ls_box. rewrite crypto_fl_tab_ok. cbn [wd].
  rewrite look_ok by first [done|apply sbox_byte|cbn; tauto]. rewrite identity_column; [done|exact Hs].
Qed.

Lemma rcon_ok i : (i < 10)%nat → rco_tab.[Z.of_nat i] = Some (wd (rcon (S i))) ∧ word_ok (rcon (S i)).
Proof. intros Hi. do 10 (destruct i as [|i]; [split; [by vm_compute|by apply word_ok_intro; vm_compute]|]). lia. Qed.

Lemma xor_word_comm v w : xor_word v w = xor_word w v.
Proof. unfold xor_word. revert w. induction v as [|x v IH]; intros [|y w]; cbn [zip_with]; try done. by rewrite IH, Z.lxor_comm. Qed.

Section Expand.
Context (nk : nat) (Hnk : In nk [4; 6; 8]%nat) (key : list word4) (Hkey : length key = nk) (Hok : Forall word_ok key).

Definition G (n : nat) : list word4 := grow nk n key.

Lemma grow_app n m w : grow nk (n + m) w = grow nk m (grow nk n w).
Proof. revert w. induction n as [|n IH]; intros w; cbn [Nat.add grow]; [done|]. apply IH. Qed.

Lemma G_S n : G (S n) = G n ++ [next_word nk (G n)].
Proof. unfold G. replace (S n) with (n + 1)%nat by lia. by rewrite grow_app. Qed.

Lemma G_length n : length (G n) = (nk + n)%nat.
Proof. induction n as [|n IH]; [unfold G; cbn; lia|]. rewrite G_S, length_app, IH. cbn. lia. Qed.

Lemma nk_cases : nk = 4%nat ∨ nk = 6%nat ∨ nk = 8%nat.
Proof. destruct Hnk as [<-|[<-|[<-|[]]]]; auto. Qed.

Lemma temp_ok i t : word_ok t → (i / nk ≤ 10)%nat → word_ok (key_temp nk i t).
Proof.
  intros Ht Hi. unfold key_temp. destruct (_ =? 0)%nat eqn:E; [|destruct (_ && _); [by apply sub_word_ok|done]]. apply xor_word_ok; [by apply sub_word_ok, rot_word_ok|].
  destruct (i / nk)%nat as [|m]; [by apply word_ok_intro; vm_compute|]. apply rcon_ok. lia.
Qed.

Lemma G_ok n : (n ≤ 10 * nk)%nat → Forall word_ok (G n).
Proof.
  induction n as [|n IH]; intros Hn; [done|]. rewrite G_S. apply Forall_app. split; [apply IH; lia|]. apply list.Forall_cons. split; [|done]. specialize (IH ltac:(lia)).
  pose proof nk_cases as Hc. assert (Hne : G n ≠ []) by (intros E; pose proof (G_length n) as Hl; rewrite E in Hl; cbn in Hl; lia). unfold next_word. apply xor_word_ok.
  - apply (proj1 (Forall_forall _ _) IH). apply nth_In. rewrite G_length. lia.
  - apply temp_ok; [|rewrite G_length; assert ((nk + n) / nk = 1 + n / nk)%nat as -> by (replace (nk + n)%nat with (1 * nk + n)%nat by lia; rewrite Nat.div_add_l; lia);
      assert (n / nk < 10)%nat by (apply Nat.Div0.div_lt_upper_bound; lia); lia].
    apply (proj1 (Forall_forall _ _) IH). destruct (exists_last Hne) as (l & x & ->). rewrite List.last_last. apply in_app_iff. right. by left.
Qed.

(** The array holds the words. *)
Definition key_holds (enc : list Z) (w : list word4) : Prop := ∀ j x, w.[j] = Some x → enc.[j] = Some (wd x).

(** The array holds the first [nk + n] words, and [t] is the last of them, or the word that is added to the next one. *)
Definition at_word (n : nat) (st : list Z * Z) : Prop :=
  alen st.1 = 60 ∧ key_holds st.1 (G n) ∧ st.2 = wd (List.last (G n) []).
Definition at_temp (n : nat) (st : list Z * Z) : Prop :=
  alen st.1 = 60 ∧ key_holds st.1 (G n) ∧ st.2 = wd (key_temp nk (nk + n) (List.last (G n) [])).

Lemma last_ok n : (n ≤ 10 * nk)%nat → word_ok (List.last (G n) []).
Proof.
  intros Hn. pose proof (G_ok n Hn) as H. pose proof nk_cases. assert (Hne : G n ≠ []) by (intros E; pose proof (G_length n) as Hl; rewrite E in Hl; cbn in Hl; lia).
  apply (proj1 (Forall_forall _ _) H). destruct (exists_last Hne) as (l & x & ->). rewrite List.last_last. apply in_app_iff. right. by left.
Qed.

Lemma step_word n src dst st :
  at_temp n st → (n < 10 * nk)%nat → (nk + n < 60)%nat → src = Z.of_nat n → dst = Z.of_nat (nk + n) →
  ∃ st', key_step src dst st = Some st' ∧ at_word (S n) st'.
Proof.
  destruct st as [enc t]. intros (Hl & Hk & Ht) Hn Hn' -> ->. cbn [fst snd] in *. pose proof (G_length n) as HG. pose proof (G_ok n ltac:(lia)) as Hw. pose proof nk_cases as Hc.
  destruct (lookup_lt_is_Some_2 (G n) n ltac:(lia)) as [x Hx]. rewrite <- arr_get_lookup in Hx. unfold key_step. rewrite (Hk _ _ Hx), Some_bind, arr_set_lt, Some_bind by lia.
  eexists. split; [done|]. rewrite arr_get_lookup in Hx. assert (Hxo : word_ok x) by (by eapply Forall_lookup_1).
  assert (Ht' : word_ok (key_temp nk (nk + n) (List.last (G n) []))).
  { apply temp_ok; [apply last_ok; lia|]. replace (nk + n)%nat with (1 * nk + n)%nat by lia. rewrite Nat.div_add_l by lia. assert (n / nk < 10)%nat by (apply Nat.Div0.div_lt_upper_bound; lia). lia. }
  assert (E : Z.lxor t (wd x) = wd (next_word nk (G n))).
  { rewrite Ht, wd_xor, xor_word_comm by done. unfold next_word. rewrite HG. replace (nk + n - nk)%nat with n by lia. by rewrite (nth_lookup_Some _ _ _ _ Hx). }
  unfold at_word. cbn [fst snd]. rewrite E, alen_insert, G_S, List.last_last. ands; [done| |done]. intros j y Hj.
  assert (Hj0 : 0 ≤ j) by (apply arr_get_Some_lt in Hj; lia). rewrite arr_get_app in Hj by done. rewrite arr_get_insert by lia. unfold alen in Hj. rewrite HG in Hj. case_decide as Hd.
  - rewrite decide_False by lia. by apply Hk.
  - pose proof (arr_get_Some_lt _ _ _ Hj) as Hb. change (alen [next_word nk (G n)]) with 1 in Hb. assert (j = Z.of_nat (nk + n)) as -> by lia.
    rewrite decide_True by done. rewrite Z.sub_diag in Hj. by injection Hj as <-.
Qed.

(** Between the multiples of [nk] the word before is added as it is. *)
Lemma plain_word n st : at_word n st → (n mod nk ≠ 0)%nat → nk ≠ 8%nat ∨ (n mod nk ≠ 4)%nat → at_temp n st.
Proof.
  intros (Hl & Hk & Ht) Hm H8. pose proof nk_cases as Hc. split; [done|]. split; [done|]. rewrite Ht. f_equal. unfold key_temp.
  assert (((nk + n) mod nk = n mod nk)%nat) as ->.
  { replace (nk + n)%nat with (n + 1 * nk)%nat by lia. apply Nat.Div0.mod_add. }
  destruct (Nat.eqb_spec (n mod nk) 0); [done|]. destruct (Nat.ltb_spec 6 nk), (Nat.eqb_spec (n mod nk) 4); cbn [andb]; try done. lia.
Qed.

(** At a multiple the word is rotated, substituted and added to a constant. *)
Lemma core_word n i st : at_word n st → n = (nk * i)%nat → (i < 10)%nat → ∃ st', key_core (Z.of_nat i) st = Some st' ∧ at_temp n st'.
Proof.
  destruct st as [enc t]. intros (Hl & Hk & Ht) -> Hi. cbn [fst snd] in *. pose proof nk_cases as Hc. pose proof (last_ok (nk * i) ltac:(lia)) as Hlo. unfold key_core.
  rewrite Ht, ror_wd, ls_box_ok, Some_bind by (by try apply rot_word_ok). destruct (rcon_ok i Hi) as [-> Hr]. rewrite Some_bind. eexists. split; [done|]. split; [done|]. split; [done|]. cbn [snd].
  rewrite wd_xor by first [done|by apply sub_word_ok, rot_word_ok]. f_equal. unfold key_temp. replace (nk + nk * i)%nat with (S i * nk)%nat by lia.
  rewrite Nat.Div0.mod_mul, Nat.div_mul by lia. done.
Qed.

(** In the middle of the eight words of a long key the word is substituted. *)
Lemma middle_word n st : at_word n st → nk = 8%nat → (n mod nk = 4)%nat → (n ≤ 10 * nk)%nat → ∃ l, ls_box st.2 = Some l ∧ at_temp n (st.1, l).
Proof.
  destruct st as [enc t]. intros (Hl & Hk & Ht) H8 Hm Hn. cbn [fst snd] in *. pose proof (last_ok n Hn) as Hlo. rewrite Ht, ls_box_ok by done. eexists. split; [done|].
  split; [done|]. split; [done|]. cbn [snd]. f_equal. unfold key_temp. assert (((nk + n) mod nk = n mod nk)%nat) as ->.
  { replace (nk + n)%nat with (n + 1 * nk)%nat by lia. apply Nat.Div0.mod_add. }
  rewrite Hm. rewrite H8. done.
Qed.

(** One more word after the word [n]: [plain] in between, and the step from its temporary word. *)
Ltac mods :=
  match goal with H : nk = _ |- _ => rewrite H end;
  first [apply Nat2Z.inj; rewrite Nat2Z.inj_mod|let E := fresh in intros E; apply (f_equal Z.of_nat) in E; rewrite Nat2Z.inj_mod in E];
  Z.to_euclidean_division_equations; lia.
Ltac step n :=
  match goal with
  | T : at_temp n ?st |- context [key_step ?src ?dst ?st] =>
      let st' := fresh "st" in let W := fresh "W" in let E := fresh "E" in
      destruct (step_word n src dst st T) as (st' & E & W); [lia..|]; rewrite E; clear E T; try rewrite Some_bind
  end.
Ltac plain n :=
  match goal with
  | W : at_word n ?st |- _ => let T := fresh "T" in assert (T : at_temp n st) by (apply plain_word; [exact W|mods|first [left; lia|right; mods]]); clear W; step n
  end.
Ltac finish := eexists; split; [reflexivity|]; match goal with W : at_word ?n ?st |- at_word ?m ?st => replace m with n by lia; exact W end.

Lemma loop4_ok i st : nk = 4%nat → (i < 10)%nat → at_word (4 * i) st → ∃ st', loop4 (Z.of_nat i) st = Some st' ∧ at_word (4 * (i + 1)) st'.
Proof.
  intros H4 Hi W. unfold loop4. destruct (core_word (4 * i) i st W ltac:(lia) Hi) as (s0 & -> & T). rewrite Some_bind. clear W.
  step (4 * i)%nat. plain (S (4 * i)). plain (S (S (4 * i))). plain (S (S (S (4 * i)))). finish.
Qed.

Lemma loop6_ok i st : nk = 6%nat → (i < 8)%nat → at_word (6 * i) st → ∃ st', loop6 (Z.of_nat i) st = Some st' ∧ at_word (6 * (i + 1)) st'.
Proof.
  intros H6 Hi W. unfold loop6. destruct (core_word (6 * i) i st W ltac:(lia) ltac:(lia)) as (s0 & -> & T). rewrite Some_bind. clear W.
  step (6 * i)%nat. plain (S (6 * i)). plain (S (S (6 * i))). plain (S (S (S (6 * i)))). plain (S (S (S (S (6 * i))))). plain (S (S (S (S (S (6 * i)))))). finish.
Qed.

Lemma loop8tophalf_ok i st : nk = 8%nat → (i < 7)%nat → at_word (8 * i) st → ∃ st', loop8tophalf (Z.of_nat i) st = Some st' ∧ at_word (8 * i + 4) st'.
Proof.
  intros H8 Hi W. unfold loop8tophalf. destruct (core_word (8 * i) i st W ltac:(lia) ltac:(lia)) as (s0 & -> & T). rewrite Some_bind. clear W.
  step (8 * i)%nat. plain (S (8 * i)). plain (S (S (8 * i))). plain (S (S (S (8 * i)))). finish.
Qed.

Lemma loop8_ok i st : nk = 8%nat → (i < 6)%nat → at_word (8 * i) st → ∃ st', loop8 (Z.of_nat i) st = Some st' ∧ at_word (8 * (i + 1)) st'.
Proof.
  intros H8 Hi W. unfold loop8. destruct (loop8tophalf_ok i st H8 ltac:(lia) W) as ([enc t] & -> & W1). rewrite Some_bind. clear W.
  destruct (middle_word _ _ W1 H8 ltac:(mods) ltac:(lia)) as (l & El & T). cbn [fst snd] in *. clear W1. 
  destruct (step_word (8 * i + 4) (8 * Z.of_nat i + 4) (8 * Z.of_nat i + 12) _ T) as (st1 & E & W); [lia..|]. clear T. cbn [key_step] in E.
  destruct (enc.[8 * Z.of_nat i + 4]) as [x|] eqn:Ex; [|done]. rewrite Some_bind in *. rewrite El, Some_bind. cbv zeta in *. rewrite (Z.lxor_comm x l).
  destruct (enc.[8 * Z.of_nat i + 12 <- Z.lxor l x]) as [enc1|] eqn:Es; [|done]. rewrite Some_bind in *. injection E as <-.
  replace (S (8 * i + 4)) with (8 * i + 5)%nat in W by lia. plain (8 * i + 5)%nat. plain (S (8 * i + 5)). plain (S (S (8 * i + 5))). finish.
Qed.

Lemma expansion_G n : (nk + n = 4 * (nk + 7))%nat → key_expansion nk key = G n.
Proof. intros Hn. unfold key_expansion, G. f_equal. lia. Qed.

(** The loops of the three key lengths. *)
Lemma loop_rule_words n k body st :
  0 ≤ n → at_word 0 st → (∀ i st, (i < Z.to_nat n)%nat → at_word (k * i) st → ∃ st', body (Z.of_nat i) st = Some st' ∧ at_word (k * (i + 1)) st') →
  ∃ st', for_up 0 n body st = Some st' ∧ at_word (k * Z.to_nat n) st'.
Proof.
  intros Hn W Hb. apply (for_up_rule (λ i st, at_word (k * Z.to_nat i) st)); [done|by rewrite Nat.mul_0_r|]. intros i s0 Hi Hs.
  destruct (Hb (Z.to_nat i) s0 ltac:(lia) Hs) as (s1 & E & W1). rewrite Z2Nat.id in E by lia. exists s1. split; [done|]. by replace (Z.to_nat (i + 1)) with (Z.to_nat i + 1)%nat by lia.
Qed.

Lemma loops_ok st :
  at_word 0 st →
  ∃ enc t, (if 4 * Z.of_nat nk =? AES_KEYSIZE_128 then for_up 0 10 loop4 st else
            if 4 * Z.of_nat nk =? AES_KEYSIZE_192 then for_up 0 8 loop6 st else st ← for_up 0 6 loop8 st; loop8tophalf 6 st) = Some (enc, t) ∧
    alen enc = 60 ∧ key_holds enc (key_expansion nk key).
Proof.
  intros W. destruct nk_cases as [E|[E|E]]; destruct (Z.eqb_spec (4 * Z.of_nat nk) AES_KEYSIZE_128), (Z.eqb_spec (4 * Z.of_nat nk) AES_KEYSIZE_192);
    unfold AES_KEYSIZE_128, AES_KEYSIZE_192 in *; try lia.
  - destruct (loop_rule_words 10 4 loop4 st) as ([enc t] & -> & (Hl & Hk & _)); [lia|done|intros; by apply loop4_ok; [|lia|]|]. exists enc, t. ands; [done|done|].
    rewrite (expansion_G (4 * Z.to_nat 10)) by lia. exact Hk.
  - destruct (loop_rule_words 8 6 loop6 st) as ([enc t] & -> & (Hl & Hk & _)); [lia|done|intros; by apply loop6_ok; [|lia|]|]. exists enc, t. ands; [done|done|].
    replace (6 * Z.to_nat 8)%nat with (S (S 46)) in Hk by lia. rewrite !(G_S (S 46)), (G_S 46), <- app_assoc in Hk. rewrite (expansion_G 46) by lia. intros j x Hj. apply Hk.
    pose proof (arr_get_Some_lt _ _ _ Hj). rewrite arr_get_app by lia. by rewrite decide_True by lia.
  - destruct (loop_rule_words 6 8 loop8 st) as (s1 & -> & W1); [lia|done|intros; by apply loop8_ok; [|lia|]|]. rewrite Some_bind.
    replace (8 * Z.to_nat 6)%nat with (8 * 6)%nat in W1 by lia. destruct (loop8tophalf_ok 6 s1 E ltac:(lia) W1) as ([enc t] & EL & (Hl & Hk & _)). replace (Z.of_nat 6) with 6 in EL by lia. rewrite EL.
    exists enc, t. ands; [done|done|]. rewrite (expansion_G (8 * 6 + 4)) by lia. exact Hk.
Qed.
End Expand.

(** ** The bytes of the key *)

Lemma words4_ok n b : block (4 * Z.of_nat n) b →
  length (words4 b) = n ∧ Forall word_ok (words4 b) ∧ ∀ j, get_le32 b j = (x ← (words4 b).[j]; Some (wd x)).
Proof.
  revert b. induction n as [|n IH]; intros b [Hl Hb].
  - destruct b; [|unfold alen in Hl; cbn in Hl; lia]. ands; [done|constructor|]. intros j. unfold get_le32. cbn [words4]. rewrite !arr_get_None by (unfold alen; cbn [length]; lia). done.
  - unfold alen in Hl. do 4 (destruct b as [|? b]; [cbn [length] in Hl; lia|]). do 4 (apply list.Forall_cons in Hb as [? Hb]). destruct (IH b) as (Hw & Hok & Hg); [split; [unfold alen; cbn [length] in Hl; lia|done]|].
    cbn [words4]. ands; [cbn [length]; lia|constructor; [by apply word_ok_intro|done]|]. intros j. destruct (decide (j < 0)) as [|]; [unfold get_le32; rewrite !arr_get_None by lia; done|].
    destruct (decide (j = 0)) as [-> |]; [done|]. replace j with (j - 1 + 1) by lia. rewrite arr_get_cons by lia. rewrite <- Hg. unfold get_le32.
    assert (Hs : ∀ k, 0 ≤ k → (z :: z0 :: z1 :: z2 :: b).[k + 4] = b.[k]).
    { intros k Hk. replace (k + 4) with (k + 1 + 1 + 1 + 1) by lia. rewrite !arr_get_cons by lia. done. }
    replace (4 * (j - 1 + 1)) with (4 * (j - 1) + 4) by lia. replace (4 * (j - 1) + 4 + 1) with (4 * (j - 1) + 1 + 4) by lia. replace (4 * (j - 1) + 4 + 2) with (4 * (j - 1) + 2 + 4) by lia.
    replace (4 * (j - 1) + 4 + 3) with (4 * (j - 1) + 3 + 4) by lia. rewrite !Hs by lia. done.
Qed.
