(* ===== verification/AesCorrect.v ===== *)
(** * AES is correct

    Setting a key and the block functions together: the code is the cipher of FIPS 197 for the three key lengths, and an instance of the
    interface of block ciphers. *)

From S2P Require Import Prelude Words Cipher Aes AesSpec AesFacts AesKey.
#[local] Open Scope Z_scope.
#[local] Open Scope kernel_scope.
#[local] Opaque gmul xtime sbox inv_sbox.

(** A context with its two arrays. *)
Definition ctx_ok (ctx : crypto_aes_ctx) : Prop := alen (key_enc ctx) = AES_MAX_KEYLENGTH_U32 ∧ alen (key_dec ctx) = AES_MAX_KEYLENGTH_U32.

Section SetKey.
Context (nk : nat) (Hnk : In nk [4; 6; 8]%nat) (in_key : list Z) (Hin : block (4 * Z.of_nat nk) in_key).

Let key : list word4 := words4 in_key.
Let w : list word4 := key_expansion nk key.
Let key_len : Z := 4 * Z.of_nat nk.

Lemma key_facts : length key = nk ∧ Forall word_ok key ∧ ∀ j, get_le32 in_key j = (x ← key.[j]; Some (wd x)).
Proof. by apply words4_ok. Qed.

Lemma nk_bounds : (4 ≤ nk ≤ 8)%nat.
Proof. pose proof Hnk as [E|[E|[E|[]]]]; lia. Qed.

Lemma w_expansion : length w = (4 * (nk + 7))%nat ∧ Forall word_ok w ∧ ∀ n x, key !! n = Some x → w !! n = Some x.
Proof.
  destruct key_facts as (Hl & Hok & _). pose proof nk_bounds. set (m := (4 * (nk + 7) - nk)%nat).
  assert (Ew : w = G nk key m) by (apply expansion_G; [done|lia]). rewrite Ew. ands.
  - rewrite G_length by done. lia.
  - apply G_ok; [done..|lia].
  - clearbody m. clear Ew. intros n x Hx. induction m as [|m IH]; [done|]. rewrite G_S by done. by apply lookup_app_l_Some.
Qed.

Lemma aes_key_word j : 0 ≤ j < Z.of_nat nk → ∃ x, key.[j] = Some x ∧ w.[j] = Some x ∧ get_le32 in_key j = Some (wd x).
Proof.
  intros Hj. destruct key_facts as (Hl & _ & Hg). destruct w_expansion as (_ & _ & Hw). destruct (arr_get_lt key j) as [x Hx]; [unfold alen; lia|].
  exists x. ands; [done| |rewrite Hg, Hx; done]. replace j with (Z.of_nat (Z.to_nat j)) in * by lia. rewrite arr_get_lookup in *. by apply Hw.
Qed.

(** The first words are loaded. *)
Lemma load_key_ok ctx :
  ctx_ok ctx → ∃ ctx', load_key ctx in_key key_len = Some ctx' ∧ ctx_ok ctx' ∧
    (∀ j x, 0 ≤ j < 4 → w.[j] = Some x → (key_enc ctx').[j] = Some (wd x) ∧ (key_dec ctx').[key_len + 24 + j] = Some (wd x)).
Proof.
  intros [He Hd]. change AES_MAX_KEYLENGTH_U32 with 60 in *. pose proof nk_bounds. unfold load_key.
  destruct (for_up_rule (λ i '(enc, dec), alen enc = 60 ∧ alen dec = 60 ∧ ∀ j x, 0 ≤ j < i → w.[j] = Some x → enc.[j] = Some (wd x) ∧ dec.[key_len + 24 + j] = Some (wd x))
    0 4 (λ i '(enc, dec), k ← get_le32 in_key i; enc ← enc.[i <- k]; dec ← dec.[key_len + 24 + i <- k]; Some (enc, dec)) (key_enc ctx, key_dec ctx)) as ([enc dec] & -> & (He' & Hd' & Hall)).
  - lia.
  - ands; [done|done|lia].
  - intros i [enc dec] Hi (He' & Hd' & Hall). destruct (aes_key_word i ltac:(lia)) as (x & _ & Hx & ->). cbv beta iota. unfold key_len in *. rewrite Some_bind, (arr_set_lt enc), Some_bind, (arr_set_lt dec), Some_bind by lia.
    eexists. split; [done|]. cbv beta iota. rewrite !alen_insert. ands; [done|done|]. intros j y Hj Hy. rewrite !arr_get_insert by lia. destruct (decide (j = i)) as [-> |].
    + rewrite !decide_True by lia. rewrite Hx in Hy. by injection Hy as <-.
    + rewrite !decide_False by lia. apply Hall; [lia|done].
  - eexists. split; [done|]. split; [done|]. exact Hall.
Qed.

Lemma expand_enc_ok enc :
  alen enc = 60 → (∀ j x, 0 ≤ j < 4 → w.[j] = Some x → enc.[j] = Some (wd x)) → ∃ enc', expand_enc enc in_key key_len = Some enc' ∧ alen enc' = 60 ∧ key_holds enc' w.
Proof.
  intros He H4. pose proof nk_bounds. destruct key_facts as (Hl & Hok & _). unfold expand_enc, load_rest. assert (Hdiv : key_len / 4 = Z.of_nat nk) by (unfold key_len; rewrite Z.mul_comm, Z.div_mul; lia). rewrite Hdiv.
  destruct (for_up_rule (λ i enc, alen enc = 60 ∧ ∀ j x, 0 ≤ j < i → w.[j] = Some x → enc.[j] = Some (wd x)) 4 (Z.of_nat nk)
    (λ i enc, k ← get_le32 in_key i; enc.[i <- k]) enc) as (enc1 & -> & (He1 & Hall)); [lia|done| |].
  { intros i e Hi (He' & Hall). destruct (aes_key_word i ltac:(lia)) as (x & _ & Hx & ->). rewrite Some_bind, arr_set_lt by lia. eexists. split; [done|]. rewrite alen_insert. split; [done|].
    intros j y Hj Hy. rewrite arr_get_insert by lia. destruct (decide (j = i)) as [-> |]; [rewrite Hx in Hy; by injection Hy as <-|]. apply Hall; [lia|done]. }
  rewrite Some_bind. destruct (aes_key_word (Z.of_nat nk - 1) ltac:(lia)) as (x & Hx & Hxw & _). rewrite (Hall _ x) by (done || lia). rewrite Some_bind.
  destruct (loops_ok nk Hnk key Hl Hok (enc1, wd x)) as (enc2 & t & E & Ha & Hk).
  { split; [done|]. split.
    - intros j y Hj. cbn [fst]. change (G nk key 0) with key in Hj. pose proof (arr_get_Some_lt _ _ _ Hj) as Hb. apply Hall; [unfold alen in Hb; lia|].
      destruct (aes_key_word j ltac:(unfold alen in Hb; lia)) as (z & Hz & Hzw & _). congruence.
    - cbn [snd]. change (G nk key 0) with key. f_equal. destruct (exists_last (l := key)) as (l & z & El); [intros En; rewrite En in Hl; cbn in Hl; lia|].
      rewrite El in Hx, Hl |- *. rewrite List.last_last. rewrite length_app in Hl. cbn [length] in Hl. rewrite arr_get_app in Hx by lia. unfold alen in Hx. rewrite decide_False in Hx by lia.
      replace (Z.of_nat nk - 1 - Z.of_nat (length l)) with 0 in Hx by lia. by injection Hx as <-. }
  unfold key_len. rewrite E, Some_bind. by exists enc2.
Qed.

Lemma round_key_get (l : list word4) r n x : (round_key l r).[n] = Some x → 0 ≤ n < 4 ∧ l.[4 * Z.of_nat r + n] = Some x.
Proof.
  intros H. pose proof (arr_get_Some_lt _ _ _ H) as Hb. unfold round_key in *. assert (n < 4) by (unfold alen in Hb; rewrite length_take in Hb; lia). split; [lia|].
  change 4%nat with (Z.to_nat 4) in H at 1. rewrite arr_get_take in H by lia. replace (4 * r)%nat with (Z.to_nat (4 * Z.of_nat r)) in H by lia. by rewrite arr_get_drop in H by lia.
Qed.

(** The place of word [k] in the keys of decryption. *)
Lemma place k : 0 ≤ k → Z.ldiff k 3 = 4 * (k / 4) ∧ Z.land k 3 = k mod 4.
Proof.
  intros Hk. change 3 with (Z.ones 2). rewrite Z.ldiff_ones_r, Z.land_ones, Z.shiftl_mul_pow2, Z.shiftr_div_pow2 by lia. change (2 ^ 2) with 4. lia.
Qed.

Lemma expand_dec_ok enc dec :
  alen enc = 60 → alen dec = 60 → key_holds enc w → (∀ j x, 0 ≤ j < 4 → w.[j] = Some x → dec.[key_len + 24 + j] = Some (wd x)) →
  ∃ dec', expand_dec enc dec key_len = Some dec' ∧ alen dec' = 60 ∧ dec_at nk w dec'.
Proof.
  intros He Hd Hk H0. pose proof nk_bounds as Hnb. destruct w_expansion as (Hwl & Hwok & _). unfold key_len in *. unfold expand_dec.
  assert (Hw : ∀ j, 0 ≤ j < 4 * Z.of_nat nk + 28 → ∃ x, w.[j] = Some x ∧ enc.[j] = Some (wd x) ∧ word_ok x).
  { intros j Hj. destruct (arr_get_lt w j) as [x Hx]; [unfold alen; lia|]. exists x. ands; [done|by apply Hk|]. eapply Forall_arr_get; [exact Hwok|exact Hx]. }
  destruct (for_up_rule (λ i dec, alen dec = 60 ∧ (∀ j x, 0 ≤ j < 4 → w.[j] = Some x → dec.[4 * Z.of_nat nk + 24 + j] = Some (wd x)) ∧
      ∀ j x, 0 ≤ j < i → w.[4 * Z.of_nat nk + 24 + j] = Some x → dec.[j] = Some (wd x)) 0 4 (λ i dec, k ← enc.[4 * Z.of_nat nk + 24 + i]; dec.[i <- k]) dec) as (dec1 & -> & (Hd1 & H1 & H2)).
  { lia. } { ands; [done|done|lia]. }
  { intros i d Hi (Hd1 & H1 & H2). destruct (Hw (4 * Z.of_nat nk + 24 + i) ltac:(lia)) as (x & Hx & -> & _). rewrite Some_bind, arr_set_lt by lia. eexists. split; [done|]. rewrite alen_insert. ands; [done| |].
    - intros j y Hj Hy. rewrite arr_get_insert by lia. rewrite decide_False by lia. by apply H1.
    - intros j y Hj Hy. rewrite arr_get_insert by lia. destruct (decide (j = i)) as [-> |]; [rewrite Hx in Hy; by injection Hy as <-|]. apply H2; [lia|done]. }
  rewrite Some_bind.
  destruct (for_up_rule (λ i dec, alen dec = 60 ∧ (∀ j x, 0 ≤ j < 4 → w.[j] = Some x → dec.[4 * Z.of_nat nk + 24 + j] = Some (wd x)) ∧
      (∀ j x, 0 ≤ j < 4 → w.[4 * Z.of_nat nk + 24 + j] = Some x → dec.[j] = Some (wd x)) ∧
      ∀ k x, 4 ≤ k < i → w.[k] = Some x → dec.[4 * Z.of_nat nk + 24 - 4 * (k / 4) + k mod 4] = Some (wd (inv_mix_column x))) 4 (4 * Z.of_nat nk + 24)
    (λ i dec, let j := 4 * Z.of_nat nk + 24 - Z.ldiff i 3 + Z.land i 3 in x ← enc.[i]; dec.[j <- imix_col x]) dec1) as (dec2 & E & (Hd2 & I1 & I2 & I3)).
  { lia. } { ands; [done|done|done|lia]. }
  { intros i d Hi (Hd2 & I1 & I2 & I3). cbv zeta. destruct (place i ltac:(lia)) as [-> ->]. destruct (Hw i ltac:(lia)) as (x & Hx & -> & Hxo). rewrite Some_bind, imix_col_ok by done.
    assert (Hq : 4 * (i / 4) + i mod 4 = i ∧ 0 ≤ i mod 4 < 4) by (Z.to_euclidean_division_equations; lia).
    rewrite arr_set_lt by (Z.to_euclidean_division_equations; lia). eexists. split; [done|]. rewrite alen_insert. ands; [done|..].
    - intros j y Hj Hy. rewrite arr_get_insert by (Z.to_euclidean_division_equations; lia). rewrite decide_False by (Z.to_euclidean_division_equations; lia). by apply I1.
    - intros j y Hj Hy. rewrite arr_get_insert by (Z.to_euclidean_division_equations; lia). rewrite decide_False by (Z.to_euclidean_division_equations; lia). by apply I2.
    - intros k y Hkk Hy. rewrite arr_get_insert by (Z.to_euclidean_division_equations; lia). destruct (decide (k = i)) as [-> |].
      + rewrite decide_True by done. rewrite Hx in Hy. by injection Hy as <-.
      + rewrite decide_False by (Z.to_euclidean_division_equations; lia). apply I3; [lia|done]. }
  exists dec2. split; [exact E|]. split; [done|]. intros r Hr n x Hx. unfold dec_key in Hx. case_decide as Hc.
  - unfold inv_mix_columns in Hx. unfold arr_get in Hx. destruct (Z.leb_spec 0 n); [|done]. rewrite list_lookup_fmap in Hx. apply fmap_Some in Hx as (y & Hy & ->).
    assert (Hy' : (round_key w (nk + 6 - r)).[n] = Some y) by (unfold arr_get; by rewrite (proj2 (Z.leb_le 0 n))). apply round_key_get in Hy' as [Hn Hy'].
    specialize (I3 (4 * Z.of_nat (nk + 6 - r) + n) y ltac:(lia) Hy'). assert (Hq : (4 * Z.of_nat (nk + 6 - r) + n) / 4 = Z.of_nat (nk + 6 - r) ∧ (4 * Z.of_nat (nk + 6 - r) + n) mod 4 = n) by (Z.to_euclidean_division_equations; lia).
    destruct Hq as [Eq1 Eq2]. rewrite Eq1, Eq2 in I3. rewrite <- I3. f_equal. lia.
  - apply round_key_get in Hx as [Hn Hx]. destruct (decide (r = 0)%nat) as [-> |].
    + replace (4 * Z.of_nat 0 + n) with n by lia. apply I2; [lia|]. rewrite <- Hx. f_equal. lia.
    + replace (4 * Z.of_nat r + n) with (4 * Z.of_nat nk + 24 + n) by lia. apply I1; [lia|]. rewrite <- Hx. f_equal. lia.
Qed.

(** The context with a key set holds the keys of both directions. *)
Lemma expand_key_ok ctx :
  ctx_ok ctx → ∃ ctx', crypto_aes_expand_key ctx in_key key_len = Some (0, ctx') ∧ ctx_ok ctx' ∧ key_length ctx' = key_len ∧
    enc_at nk w (key_enc ctx') ∧ dec_at nk w (key_dec ctx').
Proof.
  intros Hctx. unfold crypto_aes_expand_key.
  assert (Hg : negb (key_len =? AES_KEYSIZE_128) && negb (key_len =? AES_KEYSIZE_192) && negb (key_len =? AES_KEYSIZE_256) = false).
  { unfold key_len. destruct Hnk as [<- |[<- |[<- |[]]]]; reflexivity. }
  rewrite Hg. destruct (load_key_ok ctx Hctx) as (c1 & -> & [He1 Hd1] & H1). rewrite Some_bind.
  destruct (expand_enc_ok (key_enc c1)) as (enc & -> & He & Hk); [done|intros j x Hj Hx; by apply (H1 j x)|]. rewrite Some_bind.
  destruct (expand_dec_ok enc (key_dec c1)) as (dec & -> & Hd & Hkd); [done..|intros j x Hj Hx; by apply (H1 j x)|]. rewrite Some_bind.
  eexists. split; [done|]. split; [done|]. split; [done|]. split; [|done]. intros r Hr n x Hx. apply round_key_get in Hx as [_ Hx]. by apply Hk.
Qed.

Lemma w_schedule : schedule_ok (nk + 6) w.
Proof. destruct w_expansion as (Hl & Hok & _). split; [lia|done]. Qed.
End SetKey.

(** ** Blocks and states *)

Lemma fold_state (g : state → nat → state) l s :
  (∀ t r, In r l → state_ok t → state_ok (g t r)) → state_ok s → state_ok (fold_left g l s).
Proof. intros Hg Hs. apply (fold_ext g g l s); [|done]. intros t r Hr Ht. split; [done|by apply Hg]. Qed.

Lemma cipher_state nr w s : schedule_ok nr w → (0 < nr)%nat → state_ok s → state_ok (cipher nr w s).
Proof.
  intros Hw Hnr Hs. assert (Hrk : ∀ r, (r ≤ nr)%nat → state_ok (round_key w r)) by (intros; by eapply round_key_ok). unfold cipher. cbv zeta.
  apply add_round_key_ok; [by apply Hrk|]. apply shift_rows_ok, sub_bytes_ok, fold_state.
  - intros t r Hr%in_seq Ht. apply add_round_key_ok; [apply Hrk; lia|]. by apply mix_columns_ok, shift_rows_ok, sub_bytes_ok.
  - apply add_round_key_ok; [apply Hrk; lia|done].
Qed.

Lemma inv_cipher_state nr w s : schedule_ok nr w → (0 < nr)%nat → state_ok s → state_ok (inv_cipher nr w s).
Proof.
  intros Hw Hnr Hs. assert (Hrk : ∀ r, (r ≤ nr)%nat → state_ok (round_key w r)) by (intros; by eapply round_key_ok). unfold inv_cipher. cbv zeta.
  apply add_round_key_ok; [apply Hrk; lia|]. apply inv_sub_bytes_ok, inv_shift_rows_ok, fold_state.
  - intros t r Hr%in_rev%in_seq Ht. apply inv_mix_columns_ok, add_round_key_ok; [apply Hrk; lia|by apply inv_sub_bytes_ok, inv_shift_rows_ok].
  - apply add_round_key_ok; [by apply Hrk|done].
Qed.

Lemma state_block s : state_ok s → block 16 (concat s) ∧ words4 (concat s) = s.
Proof.
  intros (w & x & y & z & -> & Hw & Hx & Hy & Hz)%state_ok_cases.
  apply word_ok_cases in Hw as (? & ? & ? & ? & -> & ? & ? & ? & ?), Hx as (? & ? & ? & ? & -> & ? & ? & ? & ?),
    Hy as (? & ? & ? & ? & -> & ? & ? & ? & ?), Hz as (? & ? & ? & ? & -> & ? & ? & ? & ?).
  split; [|done]. split; [done|]. cbn [concat app]. by repeat (apply List.Forall_cons; [done|]).
Qed.

(** ** Contexts with a key *)

(** The key of a context: both schedules are those of the key. *)
Definition keyed (ctx : crypto_aes_ctx) (key : list Z) : Prop :=
  ∃ nk, In nk [4; 6; 8]%nat ∧ block (4 * Z.of_nat nk) key ∧ key_length ctx = alen key ∧
    enc_at nk (key_expansion nk (words4 key)) (key_enc ctx) ∧ dec_at nk (key_expansion nk (words4 key)) (key_dec ctx).

Lemma keyed_blocks ctx key b : keyed ctx key → block 16 b →
  aes_encrypt ctx b = Some (aes_cipher key b) ∧ aes_decrypt ctx b = Some (aes_inv_cipher key b) ∧
  block 16 (aes_cipher key b) ∧ block 16 (aes_inv_cipher key b) ∧ aes_inv_cipher key (aes_cipher key b) = b.
Proof.
  intros (nk & Hnk & Hkey & Hlen & He & Hd) Hb. pose proof (w_schedule nk Hnk key Hkey) as Hw. pose proof (nk_bounds nk Hnk) as Hnb.
  destruct Hkey as [Hkl _]. rewrite Hkl in Hlen. destruct (words_of_block b Hb) as (Hs & Hc & _). unfold aes_cipher, aes_inv_cipher.
  assert (Nat.div (length key) 4 = nk) as ->. { unfold alen in Hkl. symmetry. apply (Nat.div_unique _ 4 nk 0); lia. } cbv zeta.
  assert (H0 : (0 < nk + 6)%nat) by lia. pose proof (cipher_state _ _ _ Hw H0 Hs) as Hcs. destruct (state_block _ Hcs) as [Hcb Hcw]. ands.
  - by apply aes_encrypt_ok.
  - by apply aes_decrypt_ok.
  - done.
  - by apply state_block, inv_cipher_state.
  - by rewrite Hcw, inv_cipher_cipher.
Qed.

(** [aes_alg]: the cipher registered with the crypto layer, for a context. *)
Definition aes_alg (ctx : crypto_aes_ctx) : BlockCipher :=
  {| bsize := AES_BLOCK_SIZE; cia_encrypt := aes_encrypt ctx; cia_decrypt := aes_decrypt ctx |}.

Lemma aes_laws ctx key : keyed ctx key → @BlockCipherLaws (aes_alg ctx).
Proof.
  intros Hk. constructor; cbn [bsize cia_encrypt cia_decrypt aes_alg].
  - by exists 4.
  - intros b Hb. destruct (keyed_blocks _ _ _ Hk Hb) as (-> & _ & Hc & _ & Hi). exists (aes_cipher key b). ands; [done|done|].
    destruct (keyed_blocks _ _ _ Hk Hc) as (_ & -> & _). by rewrite Hi.
  - intros c Hc. destruct (keyed_blocks _ _ _ Hk Hc) as (_ & -> & _ & Hp & _). by eexists.
Qed.

Lemma set_key_keyed ctx flags key :
  ctx_ok ctx → In (alen key) [16; 24; 32] → Forall byte key →
  ∃ ctx', crypto_aes_set_key ctx flags key (alen key) = Some (0, ctx', flags) ∧ ctx_ok ctx' ∧ keyed ctx' key.
Proof.
  intros Hctx Hl Hb. assert (∃ nk, In nk [4; 6; 8]%nat ∧ alen key = 4 * Z.of_nat nk) as (nk & Hnk & Hn).
  { destruct Hl as [E|[E|[E|[]]]]; [exists 4%nat|exists 6%nat|exists 8%nat]; (split; [cbn; tauto|lia]). }
  assert (Hkey : block (4 * Z.of_nat nk) key) by (split; done). destruct (expand_key_ok nk Hnk key Hkey ctx Hctx) as (c & E & Hc & Hcl & He & Hd).
  unfold crypto_aes_set_key. rewrite Hn, E, Some_bind. cbv iota. change (0 =? 0) with true. cbv iota.
  exists c. ands; [done..|]. exists nk. by rewrite Hn.
Qed.

(** C5: AES. For every context, [crypto_aes_set_key] with a key of 16, 24 or 32 bytes returns 0, leaves the flags alone and gives a context for
    which, on every block of 16 bytes, [aes_encrypt] is the cipher of FIPS 197 with that key and [aes_decrypt] its inverse cipher, which undoes it;
    the two form a block cipher the modes of operation can use. No table and no array of the context is read or written outside its bounds.
    With every other key length the result is [-EINVAL], the context keeps its contents, and the flag for a bad length is set. *)
Theorem aes_correct (ctx : crypto_aes_ctx) (flags : Z) (key : list Z) :
  ctx_ok ctx → Forall byte key →
  if decide (In (alen key) [16; 24; 32]) then
    ∃ ctx', crypto_aes_set_key ctx flags key (alen key) = Some (0, ctx', flags) ∧ ctx_ok ctx' ∧ @BlockCipherLaws (aes_alg ctx') ∧
      ∀ b, block 16 b →
        aes_encrypt ctx' b = Some (aes_cipher key b) ∧ aes_decrypt ctx' b = Some (aes_inv_cipher key b) ∧ aes_inv_cipher key (aes_cipher key b) = b
  else crypto_aes_set_key ctx flags key (alen key) = Some (- EINVAL, ctx, Z.lor flags CRYPTO_TFM_RES_BAD_KEY_LEN).
Proof.
  intros Hctx Hb. case_decide as Hl.
  - destruct (set_key_keyed ctx flags key Hctx Hl Hb) as (c & E & Hc & Hk). exists c. ands; [done|done|by eapply aes_laws|].
    intros b Hbb. by destruct (keyed_blocks _ _ _ Hk Hbb) as (? & ? & _ & _ & ?).
  - unfold crypto_aes_set_key, crypto_aes_expand_key. cbn [In] in Hl. unfold AES_KEYSIZE_128, AES_KEYSIZE_192, AES_KEYSIZE_256.
    rewrite !(proj2 (Z.eqb_neq _ _)) by (intros E; apply Hl; rewrite E; tauto). done.
Qed.

(** The key and the block of FIPS 197, appendix C.1. *)
Lemma aes_correct_witness :
  ∃ ctx', crypto_aes_set_key (AesCtx (replicate 60 0) (replicate 60 0) 0) 0 (seqZ 0 16) 16 = Some (0, ctx', 0) ∧
    aes_encrypt ctx' (map (Z.mul 17) (seqZ 0 16)) = Some [0x69; 0xc4; 0xe0; 0xd8; 0x6a; 0x7b; 0x04; 0x30; 0xd8; 0xcd; 0xb7; 0x80; 0x70; 0xb4; 0xc5; 0x5a].
Proof.
  pose proof (aes_correct (AesCtx (replicate 60 0) (replicate 60 0) 0) 0 (seqZ 0 16)) as H. change (alen (seqZ 0 16)) with 16 in H.
  rewrite decide_True in H by (left; reflexivity). destruct H as (c & E & _ & _ & Hb).
  - split; reflexivity.
  - by apply (bool_decide_unpack _); vm_compute.
  - exists c. split; [exact E|]. destruct (Hb (map (Z.mul 17) (seqZ 0 16))) as (-> & _).
    + split; [reflexivity|]. by apply (bool_decide_unpack _); vm_compute.
    + vm_compute. reflexivity.
Defined.
