(* ===== verification/Sscanf.v ===== *)
(** * Formatted input

    Models [vsscanf] and [sscanf] of [lib/vsprintf.c].  The memory is one list of bytes that holds the input, the format and the objects the
    results go to; the arguments are a list of addresses.  Integers are stored with the least significant byte first.  A read or a store outside
    the memory and a missing argument fail. *)

From S2P Require Import Prelude Words Strings Vsprintf.
#[local] Open Scope Z_scope.
#[local] Open Scope kernel_scope.

Definition SHRT_MAX : Z := 0x7fff.

(** The bytes of an integer object of [size] bytes. *)
Definition int_bytes (size : nat) (v : Z) : list Z := map (λ i, u8 (Z.shiftr v (8 * Z.of_nat i))) (seq 0 size).

(** The variables of [vsscanf], with the memory and the arguments that are left. *)
Record scan_state := ScanState { sc_mem : list Z; sc_fmt : Z; sc_str : Z; sc_num : Z; sc_args : list Z }.

(** How a turn of the loop ends it: [break], with the test for %n behind the loop, or [return]. *)
Inductive scan_end := ScanBreak (s : scan_state) | ScanReturn (m : list Z) (num : Z).

(** [%*]: both strings go on to the next white space. *)
Definition skip_conversion (m : list Z) (fmt : Z) : option Z :=
  loop (S (length m)) (λ fmt, c ← m.[fmt]; Some (if negb (isspace c) && negb (c =? 37) && ctrue c then inl (fmt + 1) else inr fmt)) fmt.

Definition skip_input (m : list Z) (str : Z) : option Z :=
  loop (S (length m)) (λ str, c ← m.[str]; Some (if negb (isspace c) && ctrue c then inl (str + 1) else inr str)) str.

(** The field width, an [s16], and [fmt] behind it. *)
Definition scan_width (m : list Z) (fmt : Z) : option (Z * Z) :=
  c ← m.[fmt];
  if isdigit c then '(w, fmt) ← skip_atoi m fmt; Some (s16 w, fmt) else Some (-1, fmt).

(** The qualifier, a [u8] that starts as -1, and [fmt] behind it. *)
Definition scan_qualifier (m : list Z) (fmt : Z) : option (Z * Z) :=
  c ← m.[fmt];
  if (c =? 104) || (TOLOWER c =? 108) || (TOLOWER c =? 122) then
    let qualifier := c in
    let fmt := fmt + 1 in
    c ← m.[fmt];
    if qualifier =? c then
      if qualifier =? 104 then Some (72, fmt + 1) else
      if qualifier =? 108 then Some (76, fmt + 1) else Some (qualifier, fmt)
    else Some (qualifier, fmt)
  else Some (u8 (-1), fmt).

(** [%c]: the memory and [str]. *)
Definition scan_chars (m : list Z) (s str field_width : Z) : option (list Z * Z) :=
  loop (S (length m)) (λ '(m, s, str, fw),
    c ← m.[str]; m ← m.[s <- c];
    let fw := s16 (fw - 1) in
    if fw >? 0 then
      c ← m.[str + 1]; Some (if ctrue c then inl (m, s + 1, str + 1, fw) else inr (m, str + 1))
    else Some (inr (m, str + 1))) (m, s, str, field_width).

(** [%s], without the white space before it. *)
Definition scan_word (m : list Z) (s str field_width : Z) : option (list Z * Z) :=
  loop (S (length m)) (λ '(m, s, str, fw),
    c ← m.[str];
    if ctrue c && negb (isspace c) && ctrue fw then
      m ← m.[s <- c]; Some (inl (m, s + 1, str + 1, s16 (fw - 1)))
    else m ← m.[s <- 0]; Some (inr (m, str))) (m, s, str, field_width).

(** The test for the first digit. *)
Definition bad_digit (base digit : Z) : bool :=
  negb (ctrue digit) || ((base =? 16) && negb (isxdigit digit)) || ((base =? 10) && negb (isdigit digit)) ||
  ((base =? 8) && (negb (isdigit digit) || (digit >? 55))) || ((base =? 0) && negb (isdigit digit)).

(** The conversion by the qualifier: the size of the object, the value and [next]. *)
Definition scan_integer (m : list Z) (str qualifier base : Z) (is_sign : bool) : option (nat * Z * Z) :=
  let conv (size : nat) := '(v, next) ← (if is_sign then simple_strtol m str base else simple_strtoul m str base); Some (size, v, next) in
  if qualifier =? 72 then conv 1%nat else
  if qualifier =? 104 then conv 2%nat else
  if qualifier =? 108 then conv 4%nat else
  if qualifier =? 76 then '(v, next) ← (if is_sign then simple_strtoll m str base else simple_strtoull m str base); Some (8%nat, v, next) else
  if (qualifier =? 90) || (qualifier =? 122) then '(v, next) ← simple_strtoul m str base; Some (4%nat, v, next) else
  conv 4%nat.

(** The integer conversions, from the white space before the number on. [next] is set by all the [simple_strto*] functions, so the test
    for a null [next] never holds. *)
Definition scan_number (m : list Z) (fmt str num : Z) (args : list Z) (qualifier base : Z) (is_sign : bool) : option (scan_state + scan_end) :=
  str ← skip_spaces m str;
  digit ← m.[str];
  digit ← (if is_sign && (digit =? 45) then m.[str + 1] else Some digit);
  if bad_digit base digit then Some (inr (ScanBreak (ScanState m fmt str num args))) else
  '(size, v, next) ← scan_integer m str qualifier base is_sign;
  match args with
  | [] => None
  | p :: args => m ← arr_write m p (int_bytes size v); Some (inl (ScanState m fmt next (num + 1) args))
  end.

(** The conversion character [c] and what follows it. *)
Definition scan_conversion (buf : Z) (m : list Z) (fmt str num : Z) (args : list Z) (field_width qualifier c : Z) : option (scan_state + scan_end) :=
  if c =? 99 then
    match args with
    | [] => None
    | s :: args =>
        let field_width := if field_width =? -1 then 1 else field_width in
        '(m, str) ← scan_chars m s str field_width;
        Some (inl (ScanState m fmt str (num + 1) args))
    end
  else if c =? 115 then
    match args with
    | [] => None
    | s :: args =>
        let field_width := if field_width =? -1 then SHRT_MAX else field_width in
        str ← skip_spaces m str;
        '(m, str) ← scan_word m s str field_width;
        Some (inl (ScanState m fmt str (num + 1) args))
    end
  else if c =? 110 then
    match args with
    | [] => None
    | i :: args => m ← arr_write m i (int_bytes 4 (str - buf)); Some (inl (ScanState m fmt str num args))
    end
  else if c =? 111 then scan_number m fmt str num args qualifier 8 false
  else if (c =? 120) || (c =? 88) then scan_number m fmt str num args qualifier 16 false
  else if c =? 105 then scan_number m fmt str num args qualifier 0 true
  else if c =? 100 then scan_number m fmt str num args qualifier 10 true
  else if c =? 117 then scan_number m fmt str num args qualifier 10 false
  else if c =? 37 then
    d ← m.[str];
    Some (if negb (d =? 37) then inr (ScanReturn m num) else inl (ScanState m fmt (str + 1) num args))
  else Some (inr (ScanReturn m num)).

(** What follows a percent sign. *)
Definition scan_directive (buf : Z) (m : list Z) (fmt str num : Z) (args : list Z) : option (scan_state + scan_end) :=
  c ← m.[fmt];
  if c =? 42 then
    fmt ← skip_conversion m fmt; str ← skip_input m str; Some (inl (ScanState m fmt str num args))
  else
    '(field_width, fmt) ← scan_width m fmt;
    '(qualifier, fmt) ← scan_qualifier m fmt;
    c ← m.[fmt];
    if negb (ctrue c) then Some (inr (ScanBreak (ScanState m fmt str num args))) else
    d ← m.[str];
    if negb (ctrue d) then Some (inr (ScanBreak (ScanState m fmt str num args))) else
    scan_conversion buf m (fmt + 1) str num args field_width qualifier c.

(** A turn of the loop, with its condition. *)
Definition vsscanf_step (buf : Z) (st : scan_state) : option (scan_state + scan_end) :=
  let '(ScanState m fmt str num args) := st in
  cf ← m.[fmt];
  if negb (ctrue cf) then Some (inr (ScanBreak st)) else
  cs ← m.[str];
  if negb (ctrue cs) then Some (inr (ScanBreak st)) else
  '(fmt, str) ← (if isspace cf then fmt ← skip_spaces m (fmt + 1); str ← skip_spaces m str; Some (fmt, str) else Some (fmt, str));
  c ← m.[fmt];
  if negb (c =? 37) && ctrue c then
    d ← m.[str];
    let st := ScanState m (fmt + 1) (str + 1) num args in
    Some (if negb (c =? d) then inr (ScanBreak st) else inl st)
  else if negb (ctrue c) then Some (inr (ScanBreak (ScanState m fmt str num args)))
  else scan_directive buf m (fmt + 1) str num args.

(** Behind the loop: the %n at the current position of the format. *)
Definition vsscanf_end (buf : Z) (st : scan_state) : option (list Z * Z) :=
  let '(ScanState m fmt str num args) := st in
  c ← m.[fmt];
  if c =? 37 then
    d ← m.[fmt + 1];
    if d =? 110 then
      match args with [] => None | p :: _ => m ← arr_write m p (int_bytes 4 (str - buf)); Some (m, num) end
    else Some (m, num)
  else Some (m, num).

(** The memory and the number of conversions.  Every turn consumes a character of the format, which lies in the memory. *)
Definition vsscanf (m : list Z) (buf fmt : Z) (args : list Z) : option (list Z * Z) :=
  e ← loop (S (length m)) (vsscanf_step buf) (ScanState m fmt buf 0 args);
  match e with ScanBreak st => vsscanf_end buf st | ScanReturn m num => Some (m, num) end.

Definition sscanf (m : list Z) (buf fmt : Z) (args : list Z) : option (list Z * Z) := vsscanf m buf fmt args.
