(* ===== verification/SscanfSpec.v ===== *)
(** * The meaning of an input format

    What [vsscanf] stores, as a function of the characters of the format and of the input: the outputs in the order of the arguments, each
    the bytes of one object. *)

From S2P Require Import Prelude Words Strings StringsFacts Vsprintf Sscanf.
#[local] Open Scope Z_scope.
#[local] Open Scope kernel_scope.

(** ** Prefixes *)

Fixpoint take_while (P : Z → bool) (t : list Z) : list Z := match t with c :: t => if P c then c :: take_while P t else [] | [] => [] end.
Fixpoint drop_while (P : Z → bool) (t : list Z) : list Z := match t with c :: t' => if P c then drop_while P t' else t | [] => [] end.

Definition drop_spaces : list Z → list Z := drop_while isspace.
Definition nonspace (c : Z) : bool := negb (isspace c).
Definition in_skip (c : Z) : bool := negb (isspace c) && negb (c =? 37).

(** ** Parts of a directive *)

(** The field width, -1 for none, and the rest. *)
Definition fmt_width (f : list Z) : Z * list Z :=
  match take_while isdigit f with [] => (-1, f) | ds => (s16 (numval 10 ds), drop_while isdigit f) end.

Definition is_qualifier (c : Z) : bool := (c =? 104) || (TOLOWER c =? 108) || (TOLOWER c =? 122).

(** The qualifier, 255 for none, with H for hh and L for ll, and the rest. *)
Definition fmt_qualifier (f : list Z) : Z * list Z :=
  match f with
  | c :: f' =>
      if is_qualifier c then
        match f' with
        | d :: f'' => if c =? d then if c =? 104 then (72, f'') else if c =? 108 then (76, f'') else (c, f') else (c, f')
        | [] => (c, [])
        end
      else (255, f)
  | [] => (255, [])
  end.

(** ** Conversions *)

(** An output: whether it counts, and the bytes. *)
Abbreviation output := (bool * list Z)%type.

(** The most characters that %c takes for a width: at least one, and after the least [s16] the counter starts again from the greatest. *)
Definition chars_max (w : Z) : Z := let w := if w =? -1 then 1 else w in if w =? - 2 ^ 15 then 2 ^ 15 else Z.max 1 w.
(** The most characters that %s takes: a negative width goes all the way down to the least [s16] and on from the greatest. *)
Definition word_max (w : Z) : Z := if w =? -1 then 2 ^ 15 - 1 else w mod 2 ^ 16.

(** The number at the start of [t] and the rest. *)
Definition number_at (sign : bool) (base : Z) (t : list Z) : Z * list Z :=
  let neg := sign && match t with c :: _ => c =? 45 | [] => false end in
  let u := if neg then drop 1 t else t in
  let base := base_of base u in
  let v := numval base (number_digits base u) in
  (if neg then - v else v, drop (length (hex_prefix base u) + length (number_digits base u)) u).

(** A number can start here: a digit of the base, a decimal digit where the prefix decides the base. *)
Definition starts_number (sign : bool) (base : Z) (t : list Z) : bool :=
  let u := match t with c :: u => if sign && (c =? 45) then u else t | [] => [] end in
  match u with c :: _ => is_dig (if base =? 0 then 10 else base) c | [] => false end.

Definition int_size (q : Z) : nat := if q =? 72 then 1 else if q =? 104 then 2 else if q =? 76 then 8 else 4.
Definition is_size_t (q : Z) : bool := (q =? 90) || (q =? 122).

(** The rest of format and input and an output; the end, with the rest of the format and the position; an end without a test for %n. *)
Inductive scan_result := Next (f t : list Z) (o : list output) | Stop (f : list Z) (pos : Z) | Quit.

Section Scan.
(** The length of the input. *)
Context (n : Z).

Definition scan_num (q base : Z) (sign : bool) (f t : list Z) : scan_result :=
  let t := drop_spaces t in
  if starts_number sign base t then
    let '(v, t) := number_at (sign && negb (is_size_t q)) base t in Next f t [(true, int_bytes (int_size q) v)]
  else Stop f (n - alen t).

(** The base and the sign of an integer conversion. *)
Definition int_conv (c : Z) : option (Z * bool) :=
  if c =? 111 then Some (8, false) else if (c =? 120) || (c =? 88) then Some (16, false) else if c =? 105 then Some (0, true) else
  if c =? 100 then Some (10, true) else if c =? 117 then Some (10, false) else None.

Definition scan_conv (w q c : Z) (f t : list Z) : scan_result :=
  if c =? 99 then let k := Z.to_nat (chars_max w) in Next f (drop k t) [(true, take k t)] else
  if c =? 115 then
    let t := drop_spaces t in
    let s := take (Z.to_nat (word_max w)) (take_while nonspace t) in Next f (drop (length s) t) [(true, s ++ [0])] else
  if c =? 110 then Next f t [(false, int_bytes 4 (n - alen t))] else
  match int_conv c with
  | Some (base, sign) => scan_num q base sign f t
  | None => if c =? 37 then match t with 37 :: t => Next f t [] | _ => Quit end else Quit
  end.

(** Behind the percent sign. *)
Definition scan_dir (f t : list Z) : scan_result :=
  if match f with c :: _ => c =? 42 | [] => false end then Next (drop_while in_skip f) (drop_while nonspace t) [] else
  let '(w, f) := fmt_width f in
  let '(q, f) := fmt_qualifier f in
  match f, t with
  | c :: f', _ :: _ => scan_conv w q c f' t
  | _, _ => Stop f (n - alen t)
  end.

(** White space stands for any white space, another character for itself. *)
Definition scan1 (f t : list Z) : scan_result :=
  let sp := match f with c :: _ => isspace c | [] => false end in
  let f := if sp then drop_spaces f else f in
  let t := if sp then drop_spaces t else t in
  match f with
  | [] => Stop [] (n - alen t)
  | c :: f => if c =? 37 then scan_dir f t else
      match t with d :: t' => if c =? d then Next f t' [] else Stop f (n - alen t') | [] => Stop f (n + 1) end
  end.

(** A %n behind the last conversion. *)
Definition trailing (f : list Z) (pos : Z) : list output :=
  match f with c :: d :: _ => if (c =? 37) && (d =? 110) then [(false, int_bytes 4 pos)] else [] | _ => [] end.

(** The outputs; each turn takes a character of the format at least. *)
Fixpoint scan (fuel : nat) (f t : list Z) : list output :=
  match fuel with
  | O => []
  | S fuel =>
      match f, t with
      | _ :: _, _ :: _ =>
          match scan1 f t with
          | Next f t o => o ++ scan fuel f t
          | Stop f pos => trailing f pos
          | Quit => []
          end
      | _, _ => trailing f (n - alen t)
      end
  end.
End Scan.

(** What [sscanf] with the format [f] stores of the input [t]. *)
Definition scanned (f t : list Z) : list output := scan (alen t) (S (length f)) f t.
Definition counted (os : list output) : Z := alen (List.filter fst os).

(** ** The outputs in memory *)

(** The outputs go to the objects the arguments point to, in order. *)
Fixpoint store_outputs (os : list output) (args m : list Z) : option (list Z) :=
  match os with
  | [] => Some m
  | (_, bs) :: os => match args with [] => None | p :: args => m ← arr_write m p bs; store_outputs os args m end
  end.

(** The object of [k] bytes at [p] is in the memory and apart from the string of [l] bytes and its null byte at [s]. *)
Definition apart (m : list Z) (p k s l : Z) : Prop := 0 ≤ p ∧ p + k ≤ alen m ∧ (p + k ≤ s ∨ s + l < p).

(** ** The objects that a format needs *)

(** A %n comes next. *)
Definition at_n (f : list Z) : bool := match f with c :: d :: _ => (c =? 37) && (d =? 110) | _ => false end.

(** The greatest size of what goes to the argument of a conversion that [f] follows.  When a number does not match, a %n directly behind it is
    stored, and it goes to the argument of the number. *)
Definition conv_room (w q c : Z) (f : list Z) : list Z :=
  if c =? 99 then [chars_max w] else if c =? 115 then [word_max w + 1] else if c =? 110 then [4] else
  match int_conv c with Some _ => [let size := Z.of_nat (int_size q) in if at_n f then Z.max 4 size else size] | None => [] end.

(** The sizes of the objects for a format, [None] for one in which an n follows a %% directly. *)
Fixpoint rooms (fuel : nat) (f : list Z) : option (list Z) :=
  match fuel with
  | O => Some []
  | S fuel =>
      match drop_spaces f with
      | [] => Some []
      | c :: f =>
          if c =? 37 then
            if match f with c :: _ => c =? 42 | [] => false end then rooms fuel (drop_while in_skip f) else
            let '(w, f) := fmt_width f in
            let '(q, f) := fmt_qualifier f in
            match f with
            | [] => Some []
            | c :: f =>
                if (c =? 37) && match f with d :: _ => d =? 110 | [] => false end then None else
                l ← rooms fuel f; Some (conv_room w q c f ++ l)
            end
          else rooms fuel f
      end
  end.
Definition format_rooms (f : list Z) : option (list Z) := rooms (S (length f)) f.
