(* ===== verification/SscanfFacts.v ===== *)
(** * [vsscanf] stores what its format means

    The address of the null byte of a string names the places in it: the rest [t] of a string that ends at [e] is at [e - alen t].  The sizes
    that a format gives for its objects bound the outputs for every input; [vsscanf] with such objects is correct for every input. *)

From S2P Require Import Prelude Words Cipher CipherModes Strings StringsFacts Vsprintf VsprintfDigits VsprintfOut VsprintfFmt Hash TimeConv StringLib StringLibFacts StringSearch Sscanf SscanfSpec.
#[local] Open Scope Z_scope.
#[local] Open Scope kernel_scope.

(** ** Places in a string *)

Definition tail_at (m : list Z) (e : Z) (t : list Z) : Prop := cstr m (e - alen t) t.

Lemma tail_suffix m e t t' : t' `suffix_of` t → tail_at m e t → tail_at m e t'.
Proof. intros [pre ->] H. unfold tail_at in *. apply cstr_app in H. rewrite alen_app in H. by replace (e - (alen pre + alen t') + alen pre) with (e - alen t') in H by lia. Qed.

Lemma tail_nil m e : tail_at m e [] → m.[e - alen ([] : list Z)] = Some 0.
Proof. done. Qed.

Lemma tail_cons m e c t : tail_at m e (c :: t) → m.[e - alen (c :: t)] = Some c ∧ char c ∧ tail_at m e t.
Proof. intros (H1 & H2 & H3). ands; [done|done|]. unfold tail_at. rewrite alen_cons in H3. by replace (e - alen t) with (e - (1 + alen t) + 1) by lia. Qed.

Lemma next_place e c (t : list Z) : e - alen (c :: t) + 1 = e - alen t.
Proof. rewrite alen_cons. lia. Qed.

Lemma tail_fuel m e t : tail_at m e t → (length t < S (length m))%nat.
Proof. apply cstr_fuel. Qed.

Lemma tail_whole m p t : cstr m p t → tail_at m (p + alen t) t.
Proof. unfold tail_at. by replace (p + alen t - alen t) with p by lia. Qed.

Lemma drop_while_suffix P t : drop_while P t `suffix_of` t.
Proof. induction t as [|c t IH]; cbn [drop_while]; [done|]. destruct (P c); [by apply suffix_cons_r|done]. Qed.

Lemma drop_suffix k (t : list Z) : drop k t `suffix_of` t.
Proof. exists (take k t). by rewrite take_drop. Qed.

Lemma suffix_tail (c : Z) t t' : c :: t `suffix_of` t' → t `suffix_of` t'.
Proof. apply suffix_cons_l. Qed.


(** A loop that goes on while the character has a property. *)
Lemma while_loop (P : Z → bool) m e t f (step : Z → option (Z + Z)) :
  (∀ p, step p = (c ← m.[p]; Some (if P c then inl (p + 1) else inr p))) → P 0 = false →
  tail_at m e t → (length t < f)%nat → loop f step (e - alen t) = Some (e - alen (drop_while P t)).
Proof.
  intros Hs H0. revert f. induction t as [|c t IH]; intros f Ht Hf; (destruct f as [|f]; [cbn in Hf; lia|]); rewrite loop_S, Hs.
  - rewrite (tail_nil _ _ Ht), !Some_bind, H0. done.
  - apply tail_cons in Ht as (-> & _ & Ht). rewrite !Some_bind. cbn [drop_while length] in *. destruct (P c); [|done]. rewrite next_place. apply IH; [done|lia].
Qed.

Lemma spaces_ok m e t : tail_at m e t → skip_spaces m (e - alen t) = Some (e - alen (drop_spaces t)).
Proof.
  intros Ht. apply (while_loop isspace m e t); [|done|done|by eapply tail_fuel]. intros p. destruct (m.[p]) as [c|]; [|done]. rewrite !Some_bind. by destruct (isspace c).
Qed.

Lemma skip_conversion_ok m e t : tail_at m e t → skip_conversion m (e - alen t) = Some (e - alen (drop_while in_skip t)).
Proof.
  intros Ht. replace (drop_while in_skip t) with (drop_while (λ c, negb (isspace c) && negb (c =? 37) && ctrue c) t).
  - apply (while_loop _ m e t); [done|done|done|by eapply tail_fuel].
  - induction t as [|c t IH]; [done|]. apply tail_cons in Ht as (_ & Hc & Ht). cbn [drop_while]. unfold in_skip at 1. rewrite char_ctrue, andb_true_r, IH by done. done.
Qed.

Lemma skip_input_ok m e t : tail_at m e t → skip_input m (e - alen t) = Some (e - alen (drop_while nonspace t)).
Proof.
  intros Ht. replace (drop_while nonspace t) with (drop_while (λ c, negb (isspace c) && ctrue c) t).
  - apply (while_loop _ m e t); [done|done|done|by eapply tail_fuel].
  - induction t as [|c t IH]; [done|]. apply tail_cons in Ht as (_ & Hc & Ht). cbn [drop_while]. unfold nonspace at 1. rewrite char_ctrue, andb_true_r, IH by done. done.
Qed.

(** ** The width and the qualifier *)

Lemma s16_s32 x : s16 (s32 x) = s16 x.
Proof. unfold s16, s32, uwrap. assert (H : ∀ y k, (y - k * 2 ^ 32) mod 2 ^ 16 = y mod 2 ^ 16) by (intros; Z.to_euclidean_division_equations; lia).
  assert (E : (if x mod 2 ^ 32 <? 2 ^ 31 then x mod 2 ^ 32 else x mod 2 ^ 32 - 2 ^ 32) mod 2 ^ 16 = x mod 2 ^ 16); [|by rewrite E].
  destruct (_ <? _); Z.to_euclidean_division_equations; lia.
Qed.

Lemma s32_step a d : s32 (s32 a * 10 + d) = s32 (a * 10 + d).
Proof.
  assert (E : u32 (s32 a * 10 + d) = u32 (a * 10 + d)); [|unfold s32 at 1 3; by rewrite E].
  unfold s32, uwrap. destruct (_ <? _); Z.to_euclidean_division_equations; lia.
Qed.

Lemma skip_atoi_scan m e t : tail_at m e t → skip_atoi m (e - alen t) = Some (s32 (numval 10 (take_while isdigit t)), e - alen (drop_while isdigit t)).
Proof.
  intros Ht. unfold skip_atoi, numval. change 0 with (s32 0) at 1. assert (Hf := tail_fuel _ _ _ Ht). revert Hf. generalize (S (length m)) as f. generalize 0 as a.
  induction t as [|c t IH]; intros a f Hf; (destruct f as [|f]; [cbn in Hf; lia|]); rewrite loop_S.
  - rewrite (tail_nil _ _ Ht), Some_bind. done.
  - apply tail_cons in Ht as (-> & Hc & Ht). rewrite Some_bind. cbn [take_while drop_while length] in *. destruct (isdigit c) eqn:Ed; [|done].
    rewrite Some_bind, next_place. cbv beta iota. replace (s32 a * 10 + c - 48) with (s32 a * 10 + (c - 48)) by lia. rewrite s32_step, IH by (done || lia).
    cbn [fold_left]. replace (dval c) with (c - 48) by (unfold dval; by rewrite Ed). done.
Qed.

Lemma scan_width_ok m e f w f' : tail_at m e f → fmt_width f = (w, f') → scan_width m (e - alen f) = Some (w, e - alen f') ∧ f' `suffix_of` f ∧ - 2 ^ 15 ≤ w < 2 ^ 15.
Proof.
  intros Ht. unfold fmt_width, scan_width. destruct f as [|c f]; cbn [take_while drop_while].
  - intros [= <- <-]. rewrite (tail_nil _ _ Ht), Some_bind. done.
  - pose proof Ht as Ht2. apply tail_cons in Ht2 as (-> & _). rewrite Some_bind. destruct (isdigit c) eqn:Ed; intros [= <- <-]; [|done].
    rewrite (skip_atoi_scan _ _ _ Ht), Some_bind. cbn [take_while drop_while]. rewrite Ed. cbv beta iota. rewrite s16_s32. ands; [done|by apply suffix_cons_r, drop_while_suffix|..];
      unfold s16, uwrap; destruct (_ <? _) eqn:E; Z.to_euclidean_division_equations; lia.
Qed.

Lemma qualifier_ok m e f q f' : tail_at m e f → fmt_qualifier f = (q, f') → scan_qualifier m (e - alen f) = Some (q, e - alen f') ∧ f' `suffix_of` f.
Proof.
  intros Ht. unfold fmt_qualifier, scan_qualifier, is_qualifier. destruct f as [|c f]; [intros [= <- <-]; by rewrite (tail_nil _ _ Ht)|].
  pose proof Ht as Ht2. apply tail_cons in Ht2 as (-> & Hc & Ht2). rewrite Some_bind. destruct (_ || _); [|by intros [= <- <-]]. cbv zeta. rewrite next_place.
  destruct f as [|d f].
  - rewrite (tail_nil _ _ Ht2), Some_bind. rewrite char_eqb by done. intros [= <- <-]. split; [done|]. by apply suffix_cons_r.
  - apply tail_cons in Ht2 as (-> & _). rewrite Some_bind, next_place. assert (d :: f `suffix_of` c :: d :: f ∧ f `suffix_of` c :: d :: f) as [S1 S2] by (split; [by exists [c]|by exists [c; d]]).
    destruct (c =? d); [|by intros [= <- <-]]. destruct (c =? 104); [by intros [= <- <-]|]. destruct (c =? 108); by intros [= <- <-].
Qed.

(** ** Characters *)

Lemma tail_insert m e t i c : 0 ≤ i → tail_at m e t → i < e - alen t ∨ e < i → tail_at (<[Z.to_nat i := c]> m) e t.
Proof. intros Hi Ht Hd. apply cstr_insert; [done|done|lia]. Qed.

(** The turn of the loop of %c. *)
Definition chars_turn (st : list Z * Z * Z * Z) : option (list Z * Z * Z * Z + list Z * Z) :=
  let '(m, s, str, fw) := st in
  c ← m.[str]; m ← m.[s <- c];
  let fw := s16 (fw - 1) in
  if fw >? 0 then c ← m.[str + 1]; Some (if ctrue c then inl (m, s + 1, str + 1, fw) else inr (m, str + 1)) else Some (inr (m, str + 1)).

Lemma chars_turn_eq m s str fw :
  chars_turn (m, s, str, fw) = (c ← m.[str]; m ← m.[s <- c]; let fw := s16 (fw - 1) in
    if fw >? 0 then c ← m.[str + 1]; Some (if ctrue c then inl (m, s + 1, str + 1, fw) else inr (m, str + 1)) else Some (inr (m, str + 1))).
Proof. done. Qed.

Lemma chars_loop m s e t fw f :
  let u := take (Z.to_nat fw) t in
  tail_at m e t → t ≠ [] → 0 < fw < 2 ^ 15 → 0 ≤ s → s + alen u ≤ alen m → s + alen u ≤ e - alen t ∨ e < s → (length t ≤ f)%nat →
  ∃ m', arr_write m s u = Some m' ∧ loop f chars_turn (m, s, e - alen t, fw) = Some (m', e - alen (drop (Z.to_nat fw) t)).
Proof.
  cbv zeta. revert m s fw f. induction t as [|c t IH]; intros m s fw f Ht Hne Hfw Hs Hm Hd Hf; [done|]. clear Hne.
  destruct f as [|f]; [cbn in Hf; lia|]. rewrite loop_S. rewrite chars_turn_eq. apply tail_cons in Ht as (-> & Hc & Ht).
  replace (Z.to_nat fw) with (S (Z.to_nat (fw - 1))) in * by lia. cbn [take drop length] in *. rewrite alen_cons in Hm, Hd. pose proof (alen_nonneg (take (Z.to_nat (fw - 1)) t)) as H0.
  rewrite Some_bind, arr_set_lt, Some_bind by lia. cbv zeta. rewrite next_place, s16_small by lia. rewrite arr_write_cons by lia. rewrite alen_cons in Hd.
  assert (Ht1 : tail_at (<[Z.to_nat s := c]> m) e t) by (apply tail_insert; [done|done|lia]).
  destruct (fw - 1 >? 0) eqn:E.
  - destruct t as [|d t].
    + rewrite (tail_nil _ _ Ht1). cbn [ctrue Z.eqb negb]. rewrite take_nil, drop_nil, write_nil by (rewrite alen_insert; lia). by eexists.
    + pose proof Ht1 as Ht2. apply tail_cons in Ht2 as (-> & Hdc & _). rewrite !Some_bind, char_ctrue by done. apply IH; [done|done|lia|lia|by rewrite alen_insert; lia|lia|lia].
  - replace (Z.to_nat (fw - 1)) with 0%nat by lia. rewrite Some_bind. cbn [take drop]. rewrite write_nil by (rewrite alen_insert; lia). by eexists.
Qed.

Lemma scan_chars_ok m s e t w :
  let k := Z.to_nat (chars_max w) in
  tail_at m e t → t ≠ [] → - 2 ^ 15 ≤ w < 2 ^ 15 → 0 ≤ s → s + alen (take k t) ≤ alen m → s + alen (take k t) ≤ e - alen t ∨ e < s →
  ∃ m', arr_write m s (take k t) = Some m' ∧ scan_chars m s (e - alen t) (if w =? -1 then 1 else w) = Some (m', e - alen (drop k t)).
Proof.
  cbv zeta. unfold chars_max. cbv zeta. set (w' := if w =? -1 then 1 else w). intros Ht Hne Hw Hs. assert (Hw' : - 2 ^ 15 ≤ w' < 2 ^ 15) by (subst w'; destruct (w =? -1); lia). clearbody w'. clear w Hw.
  change (scan_chars m s (e - alen t) w') with (loop (S (length m)) chars_turn (m, s, e - alen t, w')). pose proof (tail_fuel _ _ _ Ht) as Hf.
  destruct (decide (0 < w')).
  { rewrite (proj2 (Z.eqb_neq w' _)), Z.max_r by lia. intros. apply chars_loop; try done; lia. }
  rewrite Z.max_l by lia. destruct t as [|c t]; [done|]. rewrite loop_S. rewrite chars_turn_eq. apply tail_cons in Ht as (-> & Hc & Ht). rewrite Some_bind.
  pose proof (alen_nonneg t). destruct (Z.eqb_spec w' (- 2 ^ 15)) as [-> |Hne'].
  - change (Z.to_nat (2 ^ 15)) with (S (Z.to_nat 32767)). cbn [take drop]. rewrite !alen_cons. pose proof (alen_nonneg (take (Z.to_nat 32767) t)). intros Hm Hd. rewrite arr_set_lt, Some_bind by lia. cbv zeta.
    change (s16 (- 2 ^ 15 - 1)) with 32767. change (32767 >? 0) with true. cbv iota. replace (e - (1 + alen t) + 1) with (e - alen t) by lia. rewrite arr_write_cons by lia.
    assert (Ht1 : tail_at (<[Z.to_nat s := c]> m) e t) by (apply tail_insert; [done|done|lia]).
    destruct t as [|d t].
    + rewrite (tail_nil _ _ Ht1). cbn [ctrue Z.eqb negb]. rewrite take_nil, drop_nil, write_nil by (rewrite alen_insert; lia). by eexists.
    + pose proof Ht1 as Ht2. apply tail_cons in Ht2 as (-> & Hdc & _). rewrite !Some_bind, char_ctrue by done. cbn [length] in Hf. apply chars_loop; [done|done|lia|lia|by rewrite alen_insert; lia|lia|cbn [length]; lia].
  - change (Z.to_nat 1) with 1%nat. cbn [take drop]. rewrite take_0, drop_0, !alen_cons. change (alen []) with 0. intros Hm Hd. rewrite arr_set_lt, Some_bind by lia. cbv zeta. rewrite s16_small by lia.
    destruct (w' - 1 >? 0) eqn:E; [lia|]. rewrite Some_bind. replace (e - (1 + alen t) + 1) with (e - alen t) by lia. rewrite arr_write_cons, write_nil by (rewrite ?alen_insert; change (alen []) with 0; lia). by eexists.
Qed.

(** The turn of the loop of %s. *)
Definition word_turn (st : list Z * Z * Z * Z) : option (list Z * Z * Z * Z + list Z * Z) :=
  let '(m, s, str, fw) := st in
  c ← m.[str];
  if ctrue c && negb (isspace c) && ctrue fw then m ← m.[s <- c]; Some (inl (m, s + 1, str + 1, s16 (fw - 1)))
  else m ← m.[s <- 0]; Some (inr (m, str)).

Lemma word_turn_eq m s str fw :
  word_turn (m, s, str, fw) = (c ← m.[str];
    if ctrue c && negb (isspace c) && ctrue fw then m ← m.[s <- c]; Some (inl (m, s + 1, str + 1, s16 (fw - 1))) else m ← m.[s <- 0]; Some (inr (m, str))).
Proof. done. Qed.

Lemma s16_pred w : - 2 ^ 15 ≤ w < 2 ^ 15 → w ≠ 0 → - 2 ^ 15 ≤ s16 (w - 1) < 2 ^ 15 ∧ s16 (w - 1) mod 2 ^ 16 = w mod 2 ^ 16 - 1 ∧ 1 ≤ w mod 2 ^ 16.
Proof. intros. unfold s16, uwrap. destruct (_ <? _) eqn:E; Z.to_euclidean_division_equations; lia. Qed.

Lemma word_loop m s e t w f :
  let u := take (Z.to_nat (w mod 2 ^ 16)) (take_while nonspace t) in
  tail_at m e t → - 2 ^ 15 ≤ w < 2 ^ 15 → 0 ≤ s → s + alen u + 1 ≤ alen m → s + alen u + 1 ≤ e - alen t ∨ e < s → (length t < f)%nat →
  ∃ m', arr_write m s (u ++ [0]) = Some m' ∧ loop f word_turn (m, s, e - alen t, w) = Some (m', e - alen (drop (length u) t)).
Proof.
  cbv zeta. revert m s w f. induction t as [|c t IH]; intros m s w f Ht Hw Hs Hm Hd Hf; (destruct f as [|f]; [cbn in Hf; lia|]); rewrite loop_S; rewrite word_turn_eq.
  - rewrite (tail_nil _ _ Ht). cbn [take_while ctrue Z.eqb negb andb] in *. rewrite take_nil in *. change (alen []) with 0 in *. rewrite Some_bind, arr_set_lt by lia. cbn [app length drop].
    rewrite arr_write_cons, write_nil by (rewrite ?alen_insert; change (alen []) with 0; lia). by eexists.
  - apply tail_cons in Ht as (-> & Hc & Ht). rewrite Some_bind, char_ctrue by done. cbn [take_while andb] in *. fold (nonspace c). destruct (nonspace c); cbn [andb].
    2:{ rewrite take_nil in *. change (alen []) with 0 in *. rewrite arr_set_lt by lia. cbn [app length drop]. rewrite arr_write_cons, write_nil by (rewrite ?alen_insert; change (alen []) with 0; lia). by eexists. }
    destruct (ctrue w) eqn:Ew.
    + apply ctrue_true in Ew. destruct (s16_pred w Hw Ew) as (Hr & Hp & Hq). replace (Z.to_nat (w mod 2 ^ 16)) with (S (Z.to_nat (s16 (w - 1) mod 2 ^ 16))) in * by lia. cbn [take] in *.
      rewrite alen_cons in Hm, Hd. set (u := take _ (take_while nonspace t)) in *. pose proof (alen_nonneg u). rewrite arr_set_lt, !Some_bind, next_place by lia. cbn [app length drop].
      rewrite arr_write_cons by (rewrite ?alen_app; change (alen [0]) with 1; lia). rewrite alen_cons in Hd. apply IH; [|done|lia|rewrite alen_insert; fold u; lia|fold u; lia|cbn in Hf; lia].
      apply tail_insert; [done|done|lia].
    + apply ctrue_false in Ew. subst w. change (0 mod 2 ^ 16) with 0 in *. change (Z.to_nat 0) with 0%nat in *. cbn [take] in *. change (alen []) with 0 in *. rewrite arr_set_lt by lia. cbn [app length drop].
      rewrite arr_write_cons, write_nil by (rewrite ?alen_insert; change (alen []) with 0; lia). by eexists.
Qed.

Lemma scan_word_ok m s e t w :
  let u := take (Z.to_nat (word_max w)) (take_while nonspace t) in
  tail_at m e t → - 2 ^ 15 ≤ w < 2 ^ 15 → 0 ≤ s → s + alen u + 1 ≤ alen m → s + alen u + 1 ≤ e - alen t ∨ e < s →
  ∃ m', arr_write m s (u ++ [0]) = Some m' ∧ scan_word m s (e - alen t) (if w =? -1 then SHRT_MAX else w) = Some (m', e - alen (drop (length u) t)).
Proof.
  cbv zeta. unfold word_max. intros Ht Hw. destruct (w =? -1).
  - change SHRT_MAX with (2 ^ 15 - 1). change (2 ^ 15 - 1) with ((2 ^ 15 - 1) mod 2 ^ 16) at 1 2 3 4 5. intros. apply word_loop; try done. by eapply tail_fuel.
  - intros. apply word_loop; try done. by eapply tail_fuel.
Qed.

(** ** Numbers *)

Lemma int_bytes_mod size k v v' : 8 * Z.of_nat size ≤ k → v mod 2 ^ k = v' mod 2 ^ k → int_bytes size v = int_bytes size v'.
Proof.
  intros Hk E. unfold int_bytes. apply map_ext_in. intros i Hi%in_seq. apply Z.bits_inj'. intros j Hj. rewrite !testbit_uwrap by lia. destruct (decide (j < 8)).
  - rewrite !Z.shiftr_spec by lia. f_equal. rewrite <- (Z.mod_pow2_bits_low v k), E, Z.mod_pow2_bits_low by lia. done.
  - by rewrite (proj2 (Z.ltb_ge j 8)) by lia.
Qed.

Lemma alen_int_bytes size v : alen (int_bytes size v) = Z.of_nat size.
Proof. unfold int_bytes, alen. by rewrite length_map, length_seq. Qed.

Lemma s32_mod v : s32 v mod 2 ^ 32 = v mod 2 ^ 32.
Proof. unfold s32, uwrap. destruct (_ <? _); Z.to_euclidean_division_equations; lia. Qed.

Lemma s64_mod v : s64 v mod 2 ^ 64 = v mod 2 ^ 64.
Proof. unfold s64, uwrap. destruct (_ <? _); Z.to_euclidean_division_equations; lia. Qed.

Lemma number_length base u : (length (hex_prefix base u) + length (number_digits base u) ≤ length u)%nat.
Proof.
  destruct (hex_prefix_app base u) as [v Hv]. unfold number_digits. rewrite Hv at 3 4. rewrite drop_app_length, length_app.
  destruct (digits_prefix_split base v) as (r & Hr & _). rewrite Hr at 2. rewrite length_app. lia.
Qed.

(** The value and the rest without a sign. *)
Lemma unsigned_ok m e u base :
  tail_at m e u → let '(v, r) := number_at false base u in
  simple_strtoul m (e - alen u) base = Some (u32 v, e - alen r) ∧ simple_strtoull m (e - alen u) base = Some (u64 v, e - alen r) ∧ r `suffix_of` u.
Proof.
  intros Hu. unfold number_at. cbv zeta. cbn [andb]. set (b := base_of base u). pose proof (number_length b u) as Hl.
  assert (E : e - alen u + alen (hex_prefix b u) + alen (number_digits b u) = e - alen (drop (length (hex_prefix b u) + length (number_digits b u)) u)).
  { unfold alen. rewrite length_drop. lia. }
  rewrite (strtoul_ok _ _ _ _ Hu), (strtoull_ok _ _ _ _ Hu). cbv zeta. fold b. rewrite E. ands; [done|done|apply drop_suffix].
Qed.

(** The value and the rest behind a minus sign. *)
Lemma number_at_neg base u : number_at true base (45 :: u) = let '(v, r) := number_at false base u in (- v, r).
Proof. done. Qed.

Lemma number_at_pos base t : match t with c :: _ => (c =? 45) = false | [] => True end → number_at true base t = number_at false base t.
Proof. destruct t as [|c t]; [done|]. intros H. unfold number_at. cbn [andb]. by rewrite H. Qed.

Lemma signed_ok m e t base :
  tail_at m e t → let '(v, r) := number_at true base t in
  ∃ v1 v2, simple_strtol m (e - alen t) base = Some (v1, e - alen r) ∧ simple_strtoll m (e - alen t) base = Some (v2, e - alen r) ∧
    v1 mod 2 ^ 32 = v mod 2 ^ 32 ∧ v2 mod 2 ^ 64 = v mod 2 ^ 64 ∧ r `suffix_of` t.
Proof.
  intros Ht. unfold simple_strtol, simple_strtoll.
  assert (∃ c, m.[e - alen t] = Some c ∧ ((∃ u, t = 45 :: u ∧ c = 45 ∧ tail_at m e u) ∨ (c =? 45) = false ∧ number_at true base t = number_at false base t)) as (c & -> & Hc).
  { destruct t as [|c u]; [exists 0; rewrite (tail_nil _ _ Ht); auto|]. apply tail_cons in Ht as (-> & _ & Hu). exists c. split; [done|].
    destruct (Z.eqb_spec c 45) as [-> |Hne]; [left; by exists u|]. right. split; [done|]. apply number_at_pos. lia. }
  rewrite !Some_bind. destruct Hc as [(u & -> & -> & Hu)|[Hne E]].
  - rewrite number_at_neg, next_place. pose proof (unsigned_ok m e u base Hu) as H. destruct (number_at false base u) as [v r]. destruct H as (-> & -> & Hs).
    change (45 =? 45) with true. cbv iota. rewrite !Some_bind. cbv beta iota. eexists _, _. ands; [done|done|rewrite s32_mod|rewrite s64_mod|by apply suffix_cons_r];
      unfold uwrap; Z.to_euclidean_division_equations; lia.
  - rewrite Hne, E. pose proof (unsigned_ok m e t base Ht) as H. destruct (number_at false base t) as [v r]. destruct H as (-> & -> & Hs). rewrite !Some_bind. cbv beta iota.
    eexists _, _. ands; [done|done|rewrite s32_mod|rewrite s64_mod|done]; unfold uwrap; by rewrite Z.mod_mod.
Qed.

Lemma scan_integer_ok m e t q base sign :
  tail_at m e t → let '(v, r) := number_at (sign && negb (is_size_t q)) base t in
  ∃ v', scan_integer m (e - alen t) q base sign = Some (int_size q, v', e - alen r) ∧ int_bytes (int_size q) v' = int_bytes (int_size q) v ∧ r `suffix_of` t.
Proof.
  intros Ht. unfold scan_integer, int_size, is_size_t.
  assert (Hz : ∀ v : Z, (v mod 2 ^ 32) mod 2 ^ 32 = v mod 2 ^ 32) by (intros; apply Z.mod_mod; lia). assert (Hz8 : ∀ v : Z, (v mod 2 ^ 64) mod 2 ^ 64 = v mod 2 ^ 64) by (intros; apply Z.mod_mod; lia).
  pose proof (unsigned_ok m e t base Ht) as Hu. pose proof (signed_ok m e t base Ht) as Hs.
  destruct (Z.eqb_spec q 72) as [-> |]; [|destruct (Z.eqb_spec q 104) as [-> |]; [|destruct (Z.eqb_spec q 108) as [-> |]; [|destruct (Z.eqb_spec q 76) as [-> |]; [|destruct ((q =? 90) || (q =? 122)) eqn:Eq]]]];
    cbn [Z.eqb Pos.eqb orb negb andb]; rewrite ?andb_true_r, ?andb_false_r; try (destruct sign);
    repeat match goal with H : let '(_, _) := ?x in _ |- _ => let v := fresh "v" in let r := fresh "r" in destruct x as [v r] end;
    repeat match goal with H : ∃ _, _ |- _ => destruct H | H : _ ∧ _ |- _ => destruct H end; simplify_eq;
    repeat match goal with H : simple_strtol _ _ _ = _ |- _ => rewrite H; clear H | H : simple_strtoll _ _ _ = _ |- _ => rewrite H; clear H
      | H : simple_strtoul _ _ _ = _ |- _ => rewrite H; clear H | H : simple_strtoull _ _ _ = _ |- _ => rewrite H; clear H end;
    rewrite ?Some_bind; cbv beta iota zeta; eexists; ands; try done; unfold uwrap;
    solve [apply (int_bytes_mod _ 32); [lia|rewrite ?Hz; done] | apply (int_bytes_mod _ 64); [lia|rewrite ?Hz8; done]].
Qed.

(** ** Outputs *)

Lemma store_outputs_app o os args m :
  store_outputs (o ++ os) args m = (m ← store_outputs o args m; store_outputs os (drop (length o) args) m).
Proof.
  revert args m. induction o as [|[b bs] o IH]; intros args m; [done|]. cbn [app store_outputs length]. destruct args as [|p args]; [done|].
  destruct (arr_write m p bs) as [m1|]; [|done]. rewrite !Some_bind. apply IH.
Qed.

Lemma counted_app o os : counted (o ++ os) = counted o + counted os.
Proof. unfold counted. by rewrite List.filter_app, alen_app. Qed.

Section Run.
Context (T F : list Z) (buf fmt : Z).

(** Where the strings end. *)
Let et : Z := buf + alen T.
Let ef : Z := fmt + alen F.

(** The object of [k] bytes at [p] is in a memory of [L] bytes and apart from both strings. *)
Definition free_at (L p k : Z) : Prop := 0 ≤ p ∧ p + k ≤ L ∧ (p + k ≤ buf ∨ et < p) ∧ (p + k ≤ fmt ∨ ef < p).

Fixpoint placed (L : Z) (os : list output) (args : list Z) : Prop :=
  match os with [] => True | (_, bs) :: os => match args with [] => False | p :: args => free_at L p (alen bs) ∧ placed L os args end end.

Lemma placed_app L o os args : placed L (o ++ os) args → placed L o args ∧ placed L os (drop (length o) args).
Proof. revert args. induction o as [|[b bs] o IH]; intros args H; [done|]. cbn [app placed length] in *. destruct args as [|p args]; [done|]. destruct H as [H1 H2]. apply IH in H2 as [H2 H3]. done. Qed.

Definition strings_at (m f t : list Z) : Prop := tail_at m ef f ∧ tail_at m et t ∧ f `suffix_of` F ∧ t `suffix_of` T.

Lemma suffix_alen (l l' : list Z) : l `suffix_of` l' → alen l ≤ alen l'.
Proof. intros H%suffix_length. unfold alen. lia. Qed.

Lemma strings_suffix m f t f' t' : strings_at m f t → f' `suffix_of` f → t' `suffix_of` t → strings_at m f' t'.
Proof. intros (H1 & H2 & H3 & H4) Hf Ht. split; [by eapply tail_suffix|]. split; [by eapply tail_suffix|]. split; by etrans. Qed.

Lemma write_free m p bs : free_at (alen m) p (alen bs) → ∃ m', arr_write m p bs = Some m' ∧ alen m' = alen m ∧
  ∀ s l u, cstr m s u → l = alen u → p + alen bs ≤ s ∨ s + l < p → cstr m' s u.
Proof.
  intros (Hp & Hk & _). pose proof (alen_nonneg bs). destruct (arr_write_spec m p bs) as (m' & E & Hl & Hg); [lia|lia|]. exists m'. ands; [done|done|].
  intros s l u Hu -> Hd. pose proof (alen_nonneg u). apply cstr_intro; [by eapply cstr_chars| |].
  - intros i Hi. rewrite Hg, decide_False by lia. by apply cstr_get.
  - rewrite Hg, decide_False by lia. by apply cstr_end.
Qed.

(** A store to a free object keeps the strings. *)
Lemma write_ok m p bs : free_at (alen m) p (alen bs) →
  ∃ m', arr_write m p bs = Some m' ∧ alen m' = alen m ∧ ∀ f t, strings_at m f t → strings_at m' f t.
Proof.
  intros Hfree. destruct (write_free m p bs Hfree) as (m' & E & Hl & Hk). destruct Hfree as (_ & _ & Hb & Hf). exists m'. ands; [done|done|].
  intros f t (H1 & H2 & H3 & H4). pose proof (suffix_alen _ _ H3). pose proof (suffix_alen _ _ H4). unfold tail_at, et, ef in *.
  split; [apply (Hk _ (alen f)); [done|done|lia]|]. split; [apply (Hk _ (alen t)); [done|done|lia]|done].
Qed.

Lemma outputs_ok m o args : placed (alen m) o args →
  ∃ m', store_outputs o args m = Some m' ∧ alen m' = alen m ∧ ∀ f t, strings_at m f t → strings_at m' f t.
Proof.
  revert m args. induction o as [|[b bs] o IH]; intros m args H; [by exists m|]. cbn [store_outputs placed] in *. destruct args as [|p args]; [done|].
  destruct H as [H1 H2]. destruct (write_ok m p bs H1) as (m1 & -> & Hl & Hs). rewrite Some_bind. destruct (IH m1 args) as (m2 & -> & Hl2 & Hs2); [by rewrite Hl|].
  exists m2. ands; [done|congruence|auto].
Qed.

(** ** A turn of the loop *)

Definition turn_ok (m f t : list Z) (num : Z) (args : list Z) (r : scan_result) (x : option (scan_state + scan_end)) : Prop :=
  match r with
  | Next f' t' o => f' `suffix_of` f ∧ t' `suffix_of` t ∧ (placed (alen m) o args → ∃ m', store_outputs o args m = Some m' ∧
      x = Some (inl (ScanState m' (ef - alen f') (et - alen t') (num + counted o) (drop (length o) args))))
  | Stop f' pos => f' `suffix_of` f ∧ x = Some (inr (ScanBreak (ScanState m (ef - alen f') (buf + pos) num args)))
  | Quit => x = Some (inr (ScanReturn m num))
  end.

Lemma turn_suffix m f t f1 t1 num args r x : f1 `suffix_of` f → t1 `suffix_of` t → turn_ok m f1 t1 num args r x → turn_ok m f t num args r x.
Proof. destruct r as [f' t' o|f' pos|]; cbn [turn_ok]; intros Hf Ht; [intros (H1 & H2 & H3)|intros (H1 & H3)|done]; ands; try done; by etrans. Qed.

Lemma place_pos (t : list Z) : et - alen t = buf + (alen T - alen t).
Proof. unfold et. lia. Qed.

(** One output and the rest of a turn. *)
Lemma turn_out m f t f' t' num args b bs x :
  f' `suffix_of` f → t' `suffix_of` t →
  (∀ p args', args = p :: args' → free_at (alen m) p (alen bs) → ∃ m', arr_write m p bs = Some m' ∧
    x = Some (inl (ScanState m' (ef - alen f') (et - alen t') (num + if b : bool then 1 else 0) args'))) →
  turn_ok m f t num args (Next f' t' [(b, bs)]) x.
Proof.
  intros Hf Ht H. cbn [turn_ok placed store_outputs]. ands; [done|done|]. destruct args as [|p args]; [done|]. intros [Hp _]. destruct (H p args eq_refl Hp) as (m' & -> & ->).
  rewrite Some_bind. exists m'. by destruct b.
Qed.

(** The test for the first digit rejects what is no digit of the base. *)
Lemma bad_digit_ok base c : In base [0; 8; 10; 16] → char c → bad_digit base c = negb (is_dig (if base =? 0 then 10 else base) c).
Proof.
  intros Hb Hc. apply eqb_prop. apply (byte_all (λ c, eqb (bad_digit base c) (negb (is_dig (if base =? 0 then 10 else base) c)))); [|unfold char in Hc; lia].
  destruct Hb as [<- |[<- |[<- |[<- |[]]]]]; by vm_compute.
Qed.

Lemma scan_number_ok m f t num args q base sign :
  In base [0; 8; 10; 16] → strings_at m f t → turn_ok m f t num args (scan_num (alen T) q base sign f t) (scan_number m (ef - alen f) (et - alen t) num args q base sign).
Proof.
  intros Hb Hs. unfold scan_num, scan_number. cbv zeta. destruct Hs as (Hf & Ht & _). rewrite (spaces_ok _ _ _ Ht), Some_bind. set (u := drop_spaces t).
  assert (Hsu : u `suffix_of` t) by apply drop_while_suffix. pose proof (tail_suffix _ _ _ _ Hsu Ht) as Hu.
  assert (∃ d, (digit ← m.[et - alen u]; if sign && (digit =? 45) then m.[et - alen u + 1] else Some digit) = Some d ∧ bad_digit base d = negb (starts_number sign base u)) as (d & E & Hd).
  { unfold starts_number. destruct u as [|c u1]; [rewrite (tail_nil _ _ Hu), Some_bind, andb_false_r; by exists 0|]. pose proof Hu as Hu2. apply tail_cons in Hu2 as (-> & Hc & Hu2). rewrite Some_bind, next_place.
    destruct (sign && (c =? 45)); [|exists c; by rewrite bad_digit_ok]. destruct u1 as [|d u1]; [rewrite (tail_nil _ _ Hu2); by exists 0|]. apply tail_cons in Hu2 as (-> & Hd & _). exists d. by rewrite bad_digit_ok. }
  revert E. destruct (m.[et - alen u]) as [c|]; [|done]. rewrite !Some_bind. intros E. rewrite E, Some_bind, Hd. destruct (starts_number sign base u); cbn [negb].
  - pose proof (scan_integer_ok m et u q base sign Hu) as H. destruct (number_at _ base u) as [v r]. destruct H as (v' & -> & Ev & Hr). rewrite Some_bind. cbv beta iota. rewrite Ev.
    apply turn_out; [done|by etrans|]. intros p args' -> Hp. destruct (write_ok _ _ _ Hp) as (m' & -> & _). rewrite Some_bind. by exists m'.
  - cbn [turn_ok]. split; [done|]. by rewrite place_pos.
Qed.

Lemma scan_conversion_ok m f t num args w q c :
  strings_at m f t → t ≠ [] → - 2 ^ 15 ≤ w < 2 ^ 15 →
  turn_ok m f t num args (scan_conv (alen T) w q c f t) (scan_conversion buf m (ef - alen f) (et - alen t) num args w q c).
Proof.
  intros Hs Hne Hw. unfold scan_conv, scan_conversion. pose proof Hs as (Hf & Ht & _ & HsT). cbv zeta.
  assert (Hlt : alen t ≤ alen T) by (by apply suffix_alen).
  destruct (c =? 99).
  { apply turn_out; [done|apply drop_suffix|]. intros p args' -> (Hp & Hk & Hb & _).
    destruct (scan_chars_ok m p et t w) as (m' & -> & ->); [done|done|done|done|done|unfold et in *; lia|]. rewrite Some_bind. by exists m'. }
  destruct (c =? 115).
  { assert (Hsu : drop_spaces t `suffix_of` t) by apply drop_while_suffix. pose proof (tail_suffix _ _ _ _ Hsu Ht) as Hu. pose proof (suffix_alen _ _ Hsu).
    apply turn_out; [done|etrans; [apply drop_suffix|done]|]. intros p args' -> (Hp & Hk & Hb & _). rewrite alen_app in Hk, Hb. change (alen [0]) with 1 in Hk, Hb.
    rewrite (spaces_ok _ _ _ Ht), Some_bind. destruct (scan_word_ok m p et (drop_spaces t) w) as (m' & -> & ->); [done|done|done|lia|unfold et in *; lia|]. rewrite Some_bind. by exists m'. }
  destruct (c =? 110).
  { apply turn_out; [done|done|]. intros p args' -> Hp. replace (et - alen t - buf) with (alen T - alen t) by (unfold et; lia).
    destruct (write_ok _ _ _ Hp) as (m' & -> & _). rewrite Some_bind. exists m'. by rewrite Z.add_0_r. }
  unfold int_conv. destruct (c =? 111); [by apply scan_number_ok; [cbn; tauto|]|]. destruct ((c =? 120) || (c =? 88)); [by apply scan_number_ok; [cbn; tauto|]|]. destruct (c =? 105); [by apply scan_number_ok; [cbn; tauto|]|].
  destruct (c =? 100); [by apply scan_number_ok; [cbn; tauto|]|]. destruct (c =? 117); [by apply scan_number_ok; [cbn; tauto|]|]. destruct (c =? 37); [|done].
  destruct t as [|d t]; [done|]. apply tail_cons in Ht as (-> & _ & _). rewrite Some_bind, next_place. destruct (Z.eqb_spec d 37) as [-> |Hd]; cbn [negb].
  - cbn [turn_ok store_outputs length drop]. ands; [done|by apply suffix_cons_r|]. intros _. exists m. split; [done|]. unfold counted. cbn [List.filter]. change (alen []) with 0. by rewrite Z.add_0_r.
  - destruct d as [|d|d]; try done. do 6 (destruct d as [d|d|]; try done).
Qed.

Lemma scan_directive_ok m f t num args :
  strings_at m f t → turn_ok m f t num args (scan_dir (alen T) f t) (scan_directive buf m (ef - alen f) (et - alen t) num args).
Proof.
  intros Hs. pose proof Hs as (Hf & Ht & _). unfold scan_dir, scan_directive.
  assert (∃ c, m.[ef - alen f] = Some c ∧ (c =? 42) = match f with c :: _ => c =? 42 | [] => false end) as (c & -> & Ec).
  { destruct f as [|c f]; [rewrite (tail_nil _ _ Hf); by exists 0|]. apply tail_cons in Hf as (-> & _). by exists c. }
  rewrite Some_bind, Ec. destruct (match f with c :: _ => c =? 42 | [] => false end).
  { rewrite (skip_conversion_ok _ _ _ Hf), Some_bind, (skip_input_ok _ _ _ Ht), Some_bind. cbn [turn_ok]. ands; [apply drop_while_suffix..|]. intros _. exists m. split; [done|].
    unfold counted. cbn [List.filter length drop]. change (alen []) with 0. by rewrite Z.add_0_r. }
  destruct (fmt_width f) as [w f1] eqn:Ew. destruct (scan_width_ok _ _ _ _ _ Hf Ew) as (-> & Hs1 & Hw). rewrite Some_bind. cbv beta iota. pose proof (tail_suffix _ _ _ _ Hs1 Hf) as Hf1.
  destruct (fmt_qualifier f1) as [q f2] eqn:Eq. destruct (qualifier_ok _ _ _ _ _ Hf1 Eq) as (-> & Hs2). rewrite Some_bind. cbv beta iota. pose proof (tail_suffix _ _ _ _ Hs2 Hf1) as Hf2.
  assert (Hs12 : f2 `suffix_of` f) by (by etrans).
  destruct f2 as [|d f2].
  { rewrite (tail_nil _ _ Hf2), Some_bind. cbn [ctrue Z.eqb negb turn_ok]. split; [done|]. by rewrite place_pos. }
  apply tail_cons in Hf2 as (-> & Hd & Hf2). rewrite Some_bind, char_ctrue by done. cbn [negb]. cbv iota. destruct t as [|x t].
  { rewrite (tail_nil _ _ Ht), Some_bind. cbn [ctrue Z.eqb negb turn_ok]. split; [done|]. by rewrite place_pos. }
  pose proof Ht as Ht2. apply tail_cons in Ht2 as (-> & Hx & _). rewrite Some_bind, char_ctrue by done. cbn [negb]. cbv iota. rewrite next_place.
  assert (Hs3 : f2 `suffix_of` f) by (by eapply suffix_tail). apply (turn_suffix m f _ f2 (x :: t)); [done|done|]. apply scan_conversion_ok; [|done|done]. by eapply strings_suffix.
Qed.

(** A turn on strings that are not at their ends. *)
Lemma step_ok m c f t num args :
  strings_at m (c :: f) t → t ≠ [] →
  turn_ok m f t num args (scan1 (alen T) (c :: f) t) (vsscanf_step buf (ScanState m (ef - alen (c :: f)) (et - alen t) num args)).
Proof.
  intros Hs Hne. pose proof Hs as (Hf & Ht & _). unfold scan1, vsscanf_step. apply tail_cons in Hf as (-> & Hc & Hf). rewrite Some_bind, char_ctrue by done. cbn [negb]. cbv iota.
  destruct t as [|x t]; [done|]. pose proof Ht as Ht2. apply tail_cons in Ht2 as (-> & Hx & _). rewrite Some_bind, char_ctrue by done. cbn [negb]. cbv iota zeta. rewrite next_place.
  set (tt := x :: t) in *.
  assert (∃ f1 t1, f1 `suffix_of` c :: f ∧ t1 `suffix_of` tt ∧ (f1 = [] ∨ ∃ d f2, f1 = d :: f2 ∧ f2 `suffix_of` f) ∧ (if isspace c then drop_spaces (c :: f) else c :: f) = f1 ∧
    (if isspace c then drop_spaces tt else tt) = t1 ∧
    (if isspace c then fmt ← skip_spaces m (ef - alen f); str ← skip_spaces m (et - alen tt); Some (fmt, str) else Some (ef - alen (c :: f), et - alen tt)) = Some (ef - alen f1, et - alen t1))
    as (f1 & t1 & Sf & St & Hf1 & -> & -> & ->).
  { destruct (isspace c) eqn:Ec.
    - rewrite (spaces_ok _ _ _ Hf), (spaces_ok _ _ _ Ht), !Some_bind. assert (Ed : drop_spaces (c :: f) = drop_spaces f) by (unfold drop_spaces; cbn [drop_while]; by rewrite Ec).
      exists (drop_spaces f), (drop_spaces tt). ands; try done; [apply suffix_cons_r, drop_while_suffix|apply drop_while_suffix|].
      pose proof (drop_while_suffix isspace f) as S1. fold (drop_spaces f) in S1. destruct (drop_spaces f) as [|d f2]; [by left|]. right. exists d, f2. split; [done|]. by eapply suffix_tail.
    - exists (c :: f), tt. ands; try done. right. by exists c, f. }
  rewrite Some_bind. cbv beta iota. assert (Hs1 : strings_at m f1 t1) by (by eapply strings_suffix). pose proof Hs1 as (Hf1t & Ht1 & _).
  destruct Hf1 as [-> |(d & f2 & -> & S2)].
  { rewrite (tail_nil _ _ Hf1t), Some_bind. cbn [Z.eqb negb andb ctrue turn_ok]. split; [apply suffix_nil|]. by rewrite place_pos. }
  pose proof Hf1t as Hf2t. apply tail_cons in Hf2t as (-> & Hd & Hf2). rewrite Some_bind, char_ctrue, andb_true_r by done. cbn [negb]. rewrite next_place. destruct (d =? 37); cbn [negb]; cbv iota.
  { apply (turn_suffix m f tt f2 t1); [done|done|]. apply scan_directive_ok. eapply strings_suffix; [exact Hs1|by apply suffix_cons_r|done]. }
  destruct t1 as [|y t1].
  { rewrite (tail_nil _ _ Ht1), Some_bind. destruct (Z.eqb_spec d 0) as [E|]; [unfold char in Hd; lia|]. cbn [negb turn_ok]. split; [done|]. rewrite place_pos. change (alen ([] : list Z)) with 0. by replace (buf + (alen T - 0) + 1) with (buf + (alen T + 1)) by lia. }
  apply tail_cons in Ht1 as (-> & _ & _). rewrite Some_bind, next_place. assert (t1 `suffix_of` tt) by (by eapply suffix_tail). destruct (d =? y); cbn [negb turn_ok].
  - ands; [done|done|]. intros _. exists m. split; [done|]. unfold counted. cbn [List.filter length drop]. change (alen []) with 0. by rewrite Z.add_0_r.
  - split; [done|]. by rewrite place_pos.
Qed.

(** Behind the loop. *)
Lemma end_ok m f pos num args :
  tail_at m ef f → placed (alen m) (trailing f pos) args →
  ∃ m', store_outputs (trailing f pos) args m = Some m' ∧ vsscanf_end buf (ScanState m (ef - alen f) (buf + pos) num args) = Some (m', num + counted (trailing f pos)).
Proof.
  intros Hf. unfold vsscanf_end, trailing. destruct f as [|c f]; [rewrite (tail_nil _ _ Hf), Some_bind; cbn; intros _; exists m; by rewrite Z.add_0_r|].
  apply tail_cons in Hf as (-> & _ & Hf). rewrite Some_bind, next_place. destruct f as [|d f].
  { rewrite (tail_nil _ _ Hf), Some_bind. intros _. exists m. split; [done|]. change (counted []) with 0. rewrite Z.add_0_r. by destruct (c =? 37). }
  apply tail_cons in Hf as (-> & _ & _). rewrite Some_bind. destruct (c =? 37); cbn [andb]; [|intros _; exists m; split; [done|by rewrite Z.add_0_r]].
  destruct (d =? 110); [|intros _; exists m; split; [done|by rewrite Z.add_0_r]]. cbn [placed store_outputs]. destruct args as [|p args]; [done|]. intros [Hp _].
  replace (buf + pos - buf) with pos by lia. destruct (write_ok _ _ _ Hp) as (m' & -> & _). rewrite !Some_bind. exists m'. split; [done|]. change (counted _) with 0. by rewrite Z.add_0_r.
Qed.

Definition finish (e : scan_end) : option (list Z * Z) := match e with ScanBreak st => vsscanf_end buf st | ScanReturn m num => Some (m, num) end.

Lemma run_ok k m f t num args fuel :
  strings_at m f t → (length f < k)%nat → (length f < fuel)%nat → let os := scan (alen T) k f t in placed (alen m) os args →
  ∃ m', store_outputs os args m = Some m' ∧
    (e ← loop fuel (vsscanf_step buf) (ScanState m (ef - alen f) (et - alen t) num args); finish e) = Some (m', num + counted os).
Proof.
  cbv zeta. revert m f t num args fuel. induction k as [|k IH]; intros m f t num args fuel Hs Hk Hfu Hp; [lia|]. destruct fuel as [|fuel]; [lia|]. rewrite loop_S. pose proof Hs as (Hf & Ht & _).
  destruct f as [|c f].
  { change (scan (alen T) (S k) [] t) with (trailing [] (alen T - alen t)) in *. unfold vsscanf_step. rewrite (tail_nil _ _ Hf), Some_bind. cbn [ctrue Z.eqb negb]. rewrite !Some_bind. cbn [finish].
    rewrite place_pos. by apply end_ok. }
  destruct t as [|x t].
  { change (scan (alen T) (S k) (c :: f) []) with (trailing (c :: f) (alen T - alen ([] : list Z))) in *. unfold vsscanf_step. pose proof Hf as Hf2. apply tail_cons in Hf2 as (-> & Hc & _). rewrite Some_bind, char_ctrue by done. cbn [negb]. cbv iota.
    rewrite (tail_nil _ _ Ht), Some_bind. cbn [ctrue Z.eqb negb]. rewrite !Some_bind. cbn [finish]. rewrite place_pos. by apply end_ok. }
  assert (Hsc : scan (alen T) (S k) (c :: f) (x :: t) = match scan1 (alen T) (c :: f) (x :: t) with Next f t o => o ++ scan (alen T) k f t | Stop f pos => trailing f pos | Quit => [] end) by done.
  rewrite Hsc in *. clear Hsc. pose proof (step_ok m c f (x :: t) num args Hs ltac:(done)) as H. destruct (scan1 _ _ _) as [f' t' o|f' pos|]; cbn [turn_ok] in H.
  - destruct H as (S1 & S2 & H). apply placed_app in Hp as [Hp1 Hp2]. destruct (H Hp1) as (m1 & E1 & ->). destruct (outputs_ok _ _ _ Hp1) as (m1' & E1' & Hl & Hst). rewrite E1 in E1'. injection E1' as <-.
    rewrite store_outputs_app, E1, !Some_bind, counted_app, Z.add_assoc. pose proof (suffix_length _ _ S1). cbn [length] in *. apply IH; [|lia|lia|by rewrite Hl].
    apply Hst. eapply strings_suffix; [exact Hs|by apply suffix_cons_r|done].
  - destruct H as (S1 & ->). rewrite !Some_bind. cbn [finish]. apply end_ok; [|done]. eapply tail_suffix; [|exact Hf]. by apply suffix_cons_r.
  - rewrite H, !Some_bind. cbn [finish]. exists m. split; [done|]. change (counted []) with 0. by rewrite Z.add_0_r.
Qed.

Lemma vsscanf_ok m args :
  cstr m buf T → cstr m fmt F → placed (alen m) (scanned F T) args →
  ∃ m', store_outputs (scanned F T) args m = Some m' ∧ vsscanf m buf fmt args = Some (m', counted (scanned F T)).
Proof.
  intros HT HF Hp. pose proof (cstr_fuel _ _ _ HF) as Hfu. unfold vsscanf.
  destruct (run_ok (S (length F)) m F T 0 args (S (length m))) as (m' & E & H); [|lia|done|done|].
  - split; [by apply tail_whole|]. split; [by apply tail_whole|done].
  - exists m'. split; [exact E|]. rewrite Z.add_0_l in H. unfold scanned. rewrite <- H. replace (ef - alen F) with fmt by (unfold ef; lia). replace (et - alen T) with buf by (unfold et; lia). done.
Qed.
End Run.

(** Every output fits the object of its argument. *)
Fixpoint fits (os : list output) (l : list Z) : Prop :=
  match os with [] => True | (_, bs) :: os => match l with [] => False | r :: l => alen bs ≤ r ∧ fits os l end end.

Lemma fits_app1 o os r l : alen o.2 ≤ r → fits os l → fits ([o] ++ os) ([r] ++ l).
Proof. by destruct o. Qed.

Lemma trailing_cases f pos : trailing f pos = if at_n f then [(false, int_bytes 4 pos)] else [].
Proof. by destruct f as [|c [|d f]]. Qed.

(** A %n at the start of a format has an object of four bytes. *)
Lemma trailing_fits k f pos l : rooms (S k) f = Some l → fits (trailing f pos) l.
Proof.
  rewrite trailing_cases. destruct (at_n f) eqn:E; [|done]. destruct f as [|c [|d f]]; try done. cbn [at_n] in E. apply andb_true_iff in E as [->%Z.eqb_eq ->%Z.eqb_eq].
  change (rooms (S k) (37 :: 110 :: f)) with (l ← rooms k f; Some ([4] ++ l)). destruct (rooms k f) as [l'|]; [|done]. rewrite Some_bind. intros [= <-]. done.
Qed.

Lemma chars_max_pos w : 1 ≤ chars_max w.
Proof. unfold chars_max. cbv zeta. destruct (_ =? - 2 ^ 15); lia. Qed.

Lemma word_max_nonneg w : 0 ≤ word_max w.
Proof. unfold word_max. destruct (w =? -1); [done|]. apply Z.mod_pos_bound. done. Qed.

Lemma take_bound k (t : list Z) : 0 ≤ k → alen (take (Z.to_nat k) t) ≤ k.
Proof. intros. unfold alen. rewrite length_take. lia. Qed.

(** One conversion and what follows. *)
Lemma conv_fits n k w q c f t l :
  rooms (S k) f = Some l → (∀ f' t', f' = f → fits (scan n (S k) f' t') l) →
  fits (match scan_conv n w q c f t with Next f t o => o ++ scan n (S k) f t | Stop f pos => trailing f pos | Quit => [] end) (conv_room w q c f ++ l).
Proof.
  intros Hr Hs. unfold scan_conv, conv_room. destruct (c =? 99).
  { apply fits_app1; [|by apply Hs]. apply take_bound. pose proof (chars_max_pos w). lia. }
  destruct (c =? 115).
  { apply fits_app1; [|by apply Hs]. cbn [snd]. rewrite alen_app. change (alen [0]) with 1. pose proof (take_bound (word_max w) (take_while nonspace (drop_spaces t)) (word_max_nonneg w)). lia. }
  destruct (c =? 110); [apply fits_app1; [|by apply Hs]; cbn [snd]; by rewrite alen_int_bytes|].
  destruct (int_conv c) as [[base sign]|].
  - unfold scan_num. cbv zeta. destruct (starts_number _ _ _).
    + destruct (number_at _ _ _) as [v r]. apply fits_app1; [|by apply Hs]. cbn [snd]. rewrite alen_int_bytes. destruct (at_n f); lia.
    + rewrite trailing_cases. destruct (at_n f); [|done]. cbn [fits app]. rewrite alen_int_bytes. split; [|done]. lia.
  - destruct (c =? 37); [|done]. destruct t as [|d t]; [done|]. destruct (Z.eq_dec d 37) as [-> |Hd]; [by apply Hs|].
    destruct d as [|d|d]; try done. do 6 (destruct d as [d|d|]; try done).
Qed.

Lemma fmt_width_length f w f' : fmt_width f = (w, f') → (length f' ≤ length f)%nat.
Proof. unfold fmt_width. destruct (take_while isdigit f); intros [= <- <-]; [done|]. apply (suffix_length _ _ (drop_while_suffix isdigit f)). Qed.

Lemma fmt_qualifier_length f q f' : fmt_qualifier f = (q, f') → (length f' ≤ length f)%nat.
Proof.
  unfold fmt_qualifier. destruct f as [|c f]; [by intros [= <- <-]|]. destruct (is_qualifier c); [|by intros [= <- <-]]. destruct f as [|d f]; [intros [= <- <-]; cbn; lia|].
  repeat match goal with |- context [if ?b then _ else _] => destruct b end; intros [= <- <-]; cbn; lia.
Qed.

(** [rooms] behind white space. *)
Definition rooms_body (rest : list Z → option (list Z)) (f : list Z) : option (list Z) :=
  match f with
  | [] => Some []
  | c :: f =>
      if c =? 37 then
        if match f with c :: _ => c =? 42 | [] => false end then rest (drop_while in_skip f) else
        let '(w, f) := fmt_width f in
        let '(q, f) := fmt_qualifier f in
        match f with
        | [] => Some []
        | c :: f => if (c =? 37) && match f with d :: _ => d =? 110 | [] => false end then None else l ← rest f; Some (conv_room w q c f ++ l)
        end
      else rest f
  end.

Lemma scan_fits n k f t l : (length f < k)%nat → rooms k f = Some l → fits (scan n k f t) l.
Proof.
  revert f t l. induction k as [|k IH]; intros f t l Hk Hr; [lia|]. destruct f as [|c f]; [done|]. destruct t as [|x t]; [by eapply trailing_fits|].
  change (fits (match scan1 n (c :: f) (x :: t) with Next f t o => o ++ scan n k f t | Stop f pos => trailing f pos | Quit => [] end) l).
  destruct k as [|k]; [cbn in Hk; lia|]. cbn [length] in Hk. set (tt := x :: t) in *. unfold scan1. set (t1 := if isspace c then drop_spaces tt else tt). clearbody t1. clear tt x t.
  assert (∃ f1, (if isspace c then drop_spaces (c :: f) else c :: f) = f1 ∧ drop_spaces (c :: f) = f1 ∧ (length f1 ≤ S (length f))%nat) as (f1 & E1 & E2 & Hl).
  { eexists. split; [done|]. destruct (isspace c) eqn:Ec.
    - split; [done|]. pose proof (suffix_length _ _ (drop_while_suffix isspace (c :: f))) as H. exact H.
    - split; [|done]. unfold drop_spaces. cbn [drop_while]. by rewrite Ec. }
  cbv zeta. rewrite E1. change (rooms (S (S k)) (c :: f)) with (rooms_body (rooms (S k)) (drop_spaces (c :: f))) in Hr. rewrite E2 in Hr. clear E1 E2 c.
  destruct f1 as [|c f1]; [done|]. cbn [rooms_body length] in *. destruct (c =? 37).
  - unfold scan_dir. destruct (match f1 with c :: _ => c =? 42 | [] => false end).
    { apply IH; [|done]. pose proof (suffix_length _ _ (drop_while_suffix in_skip f1)). lia. }
    destruct (fmt_width f1) as [w f2] eqn:Ew. destruct (fmt_qualifier f2) as [q f3] eqn:Eq. pose proof (fmt_width_length _ _ _ Ew). pose proof (fmt_qualifier_length _ _ _ Eq).
    destruct f3 as [|d f3]; [done|]. destruct ((d =? 37) && _) eqn:En; [done|]. destruct (rooms (S k) f3) as [l'|] eqn:Er; [|done]. injection Hr as <-. cbn [length] in *.
    destruct t1 as [|y t1]; [|apply conv_fits; [done|]; intros ? t' ->; apply IH; [lia|done]].
    rewrite trailing_cases. destruct f3 as [|d' f3]; cbn [at_n]; [done|]. rewrite En. done.
  - destruct t1 as [|y t1]; [by eapply trailing_fits|]. destruct (c =? y); [|by eapply trailing_fits]. apply IH; [lia|done].
Qed.

(** ** Every input *)

Lemma arr_write_inv (m : list Z) p bs m' : arr_write m p bs = Some m' →
  0 ≤ p ∧ p + alen bs ≤ alen m ∧ alen m' = alen m ∧ ∀ i, m'.[i] = if decide (p ≤ i < p + alen bs) then bs.[i - p] else m.[i].
Proof.
  intros E. assert (0 ≤ p ∧ p + alen bs ≤ alen m) as [Hp Hk].
  { unfold arr_write in E. destruct (_ && _) eqn:E2; [|done]. apply andb_true_iff in E2 as [?%Z.leb_le ?%Z.leb_le]. unfold alen. lia. }
  destruct (arr_write_spec m p bs) as (m2 & E2 & Hl & Hg); [lia|lia|]. rewrite E in E2. injection E2 as <-. done.
Qed.

Section Inputs.
Context (F : list Z) (buf fmt : Z).

(** The arguments point to objects of the sizes [l] in a memory of [L] bytes, apart from the format and from an input of [n] characters. *)
Fixpoint objects (L n : Z) (l args : list Z) : Prop :=
  match l with
  | [] => True
  | r :: l => match args with [] => False | p :: args => 0 ≤ p ∧ p + r ≤ L ∧ (p + r ≤ buf ∨ buf + n < p) ∧ (p + r ≤ fmt ∨ fmt + alen F < p) ∧ objects L n l args end
  end.

Lemma fits_placed T L os l args : fits os l → objects L (alen T) l args → placed T F buf fmt L os args.
Proof.
  revert l args. induction os as [|[b bs] os IH]; intros l args Hf Ho; [done|]. cbn [fits placed] in *. destruct l as [|r l]; [done|]. destruct Hf as [Hr Hf]. cbn [objects] in Ho.
  destruct args as [|p args]; [done|]. destruct Ho as (H1 & H2 & H3 & H4 & Ho). split; [|by eapply IH]. unfold free_at. lia.
Qed.

(** What is outside of the objects of the arguments stays. *)
Lemma store_frame os l args m m' i :
  store_outputs os args m = Some m' → fits os l → (∀ k p r, args !! k = Some p → l !! k = Some r → i < p ∨ p + r ≤ i) → m'.[i] = m.[i].
Proof.
  revert l args m. induction os as [|[b bs] os IH]; intros l args m E Hf Hi; cbn [store_outputs fits] in *; [by injection E as <-|].
  destruct args as [|p args]; [done|]. destruct l as [|r l]; [done|]. destruct Hf as [Hr Hf]. destruct (arr_write m p bs) as [m1|] eqn:Ew; [|done]. rewrite Some_bind in E.
  rewrite (IH l args m1 E Hf) by (intros k p' r' Hp Hl; apply (Hi (S k)); done). specialize (Hi 0%nat p r eq_refl eq_refl).
  destruct (arr_write_inv _ _ _ _ Ew) as (_ & _ & _ & Hg). by rewrite Hg, decide_False by lia.
Qed.
End Inputs.

(** The objects of two outputs do not overlap. *)
Definition distinct (os : list output) (args : list Z) : Prop := ∀ j k o o' p p', (j < k)%nat → os !! j = Some o → os !! k = Some o' →
  args !! j = Some p → args !! k = Some p' → p + alen o.2 ≤ p' ∨ p' + alen o'.2 ≤ p.

Lemma fits_self os : fits os (map (λ o, alen o.2) os).
Proof. induction os as [|[b bs] os IH]; [done|]. cbn. split; [lia|done]. Qed.

(** The objects hold the outputs in the end. *)
Lemma store_holds os args m m' k b bs p :
  store_outputs os args m = Some m' → distinct os args → os !! k = Some (b, bs) → args !! k = Some p → arr_read m' p (alen bs) = Some bs.
Proof.
  revert args m k. induction os as [|[b0 bs0] os IH]; intros args m k E Hd Hk Hp; [done|]. cbn [store_outputs] in E. destruct args as [|p0 args]; [done|].
  destruct (arr_write m p0 bs0) as [m1|] eqn:Ew; [|done]. rewrite Some_bind in E. assert (Hd' : distinct os args) by (intros j k' o o' q q' Hjk; apply (Hd (S j) (S k')); lia).
  destruct k as [|k]; cbn in Hk, Hp; [|by apply (IH args m1 k)]. injection Hk as -> ->. injection Hp as ->. destruct (arr_write_inv _ _ _ _ Ew) as (H1 & H2 & H3 & Hg).
  assert (Hl : alen m' = alen m1). { clear -E. revert args m1 E. induction os as [|[b1 bs1] os IH]; intros args m1 E; cbn [store_outputs] in E; [by injection E as <-|]. destruct args as [|q args]; [done|].
    destruct (arr_write m1 q bs1) as [m2|] eqn:E2; [|done]. rewrite Some_bind in E. rewrite (IH _ _ E). by destruct (arr_write_inv _ _ _ _ E2) as (_ & _ & -> & _). }
  pose proof (alen_nonneg bs). apply arr_read_iff; [done|]. ands; [done|lia|done|]. intros i Hi.
  rewrite (store_frame os (map (λ o, alen o.2) os) args m1 m' (p + i) E (fits_self os)); [rewrite Hg, decide_True by lia; f_equal; lia|].
  intros j q r Hq Hr. rewrite list_lookup_fmap in Hr. destruct (os !! j) as [o|] eqn:Eo; [|done]. injection Hr as <-. specialize (Hd 0%nat (S j) (b, bs) o p q ltac:(lia) eq_refl Eo eq_refl Hq). cbn [snd] in Hd. lia.
Qed.


(** "-7 abcdefg" scanned with "%hd %4s%n": the input, the format, and objects of two, five and four bytes. *)
Definition wit_input : list Z := [45; 55; 32; 97; 98; 99; 100; 101; 102; 103].
Definition wit_format : list Z := [37; 104; 100; 32; 37; 52; 115; 37; 110].
Definition wit_memory : list Z := wit_input ++ [0] ++ wit_format ++ [0] ++ replicate 15 170.

