(* ===== verification/SscanfRound.v ===== *)
(** * Numbers printed and scanned

    What [snprintf] prints of integers with a format, [sscanf] with the same format reads back; and inputs on which [vsscanf] does not do what a
    caller expects. *)

From S2P Require Import Prelude Words Strings StringsFacts Vsprintf VsprintfDigits VsprintfOut VsprintfFmt VsprintfFacts VsprintfRound Hash StringLib StringLibFacts Sscanf SscanfSpec SscanfFacts.
#[local] Open Scope Z_scope.
#[local] Open Scope kernel_scope.

(** An integer to print: the conversion, the length modifier and the argument. *)
Record item := Item { it_conv : conv; it_mod : length_mod; it_arg : Z }.

(** The conversions d, u, o, x and X with every modifier but t, which [vsscanf] does not have. *)
Definition item_ok (it : item) : Prop := In (it_conv it) [Cd; Cu; Co; Cx; CX] ∧ it_mod it ≠ Qt.

Definition item_dir (it : item) : directive := Directive [] NoCount NoCount (it_mod it) (it_conv it).
Definition item_va (it : item) : va_value := match it_mod it with Qll | QL => VLong (it_arg it) | _ => VWord (it_arg it) end.
Definition item_bytes (it : item) : list Z := int_bytes (int_size (mod_code (it_mod it))) (it_arg it).

(** The directives with a space before each of them but the first. *)
Definition spaced (its : list item) : list (list Z * directive) := map (λ it, ([32], item_dir it)) its.
Definition items_of (its : list item) : list (list Z * directive) := match its with [] => [] | it :: its => ([], item_dir it) :: spaced its end.
Definition numbers_fmt (its : list item) : list Z := format_text (items_of its) [].

(** ** The text of a number *)

Definition small (c : conv) : bool := match c with Cx => true | _ => false end.

Definition number_chars (c : conv) (num : Z) : list Z :=
  if is_signed c && (s64 num <? 0) then 45 :: numeral_text 10 false (- s64 num) else numeral_text (conv_base c) (small c) num.

Lemma bare_number_text q c num : In c [Cd; Cu; Co; Cx; CX] → number_text num (conv_spec q c 0 (-1) (-1)) = number_chars c num.
Proof.
  intros Hc. unfold number_text, number_chars. cbv zeta. change (precision _) with (-1). change (field_width _) with (-1).
  set (ds := numeral_text _ _ (magnitude _ _)). pose proof (alen_nonneg ds). rewrite (rep_neg 48 (-1 - alen ds)) by lia.
  match goal with |- context [-1 - alen ?l] => pose proof (alen_nonneg l); rewrite !(rep_neg _ (-1 - alen l)) by lia end. subst ds.
  destruct Hc as [<- |[<- |[<- |[<- |[<- |[]]]]]]; unfold sign_text, magnitude; cbn -[numeral_text s64 Z.ltb]; try done. by destruct (s64 num <? 0).
Qed.

(** ** Reading a numeral *)

(** A digit is no space, no minus sign and no x, and a number can start with it. *)
Lemma digit_facts base c : In base [8; 10; 16] → char c → is_dig base c = true →
  isspace c = false ∧ (c =? 45) = false ∧ (TOLOWER c =? 120) = false ∧ is_dig (if base =? 0 then 10 else base) c = true.
Proof.
  intros Hb Hc Hd.
  pose proof (byte_all (λ c, implb (is_dig base c) (negb (isspace c) && negb (c =? 45) && negb (TOLOWER c =? 120) && is_dig (if base =? 0 then 10 else base) c))) as H.
  assert (Hall : forallb (λ c, implb (is_dig base c) (negb (isspace c) && negb (c =? 45) && negb (TOLOWER c =? 120) && is_dig (if base =? 0 then 10 else base) c)) (seqZ 0 256) = true)
    by (destruct Hb as [<- |[<- |[<- |[]]]]; by vm_compute).
  specialize (H Hall c ltac:(unfold char in Hc; lia)). cbv beta in H. rewrite Hd in H. cbn [implb] in H. rewrite !andb_true_iff, !negb_true_iff in H. tauto.
Qed.

(** What may follow a number. *)
Definition after (rest : list Z) : Prop := rest = [] ∨ ∃ r, rest = 32 :: r.

Lemma hex_prefix_none base ds rest :
  In base [8; 10; 16] → Forall (λ c, is_dig base c = true ∧ char c) ds → after rest → hex_prefix base (ds ++ rest) = [].
Proof.
  intros Hb Hd Hr. assert (H : ∀ c u, ds ++ rest = 48 :: c :: u → (TOLOWER c =? 120) = false).
  { intros c u E. destruct ds as [|d ds]; cbn [app] in E; [destruct Hr as [-> |(r & ->)]; done|]. injection E as -> E. apply list.Forall_cons in Hd as [_ Hd].
    destruct ds as [|d' ds]; cbn [app] in E; [destruct Hr as [-> |(r & ->)]; [done|by injection E as <- _]|]. injection E as -> _. apply list.Forall_cons in Hd as [[H1 H2] _].
    by destruct (digit_facts base c Hb H2 H1) as (_ & _ & -> & _). }
  unfold hex_prefix. destruct (ds ++ rest) as [|c0 [|c1 u]]; try done; [by repeat case_match|]. destruct (Z.eq_dec c0 48) as [-> |Hne].
  - by rewrite (H c1 u eq_refl), andb_false_r.
  - destruct c0 as [|p|p]; try done. do 6 (destruct p as [p|p|]; try done).
Qed.

Lemma number_at_numeral base sm n rest :
  In base [8; 10; 16] → urange 64 n → after rest → number_at false base (numeral_text base sm n ++ rest) = (n, rest).
Proof.
  intros Hb Hn Hr. assert (Hb2 : 2 ≤ base ≤ 16 ∧ base ≠ 0) by (destruct Hb as [<- |[<- |[<- |[]]]]; lia). destruct (numval_text base sm n) as [Hv Hd]; [lia|done|].
  unfold number_at. cbv zeta. cbn [andb]. unfold base_of. rewrite (proj2 (Z.eqb_neq base 0)) by lia. rewrite hex_prefix_none by done.
  unfold number_digits. rewrite hex_prefix_none by done. cbn [length drop]. rewrite drop_0, digits_prefix_app; [| |].
  - rewrite Hv. cbn [Nat.add]. by rewrite drop_app_length.
  - eapply List.Forall_impl; [|exact Hd]. by intros ? [].
  - by destruct Hr as [-> |(r & ->)].
Qed.

(** The head of a numeral. *)
Lemma numeral_starts base sm n :
  In base [8; 10; 16] → urange 64 n → ∃ c ds, numeral_text base sm n = c :: ds ∧ char c ∧ is_dig base c = true.
Proof.
  intros Hb Hn. assert (Hb2 : 8 ≤ base ≤ 16) by (destruct Hb as [<- |[<- |[<- |[]]]]; lia). destruct (numval_text base sm n) as [_ Hd]; [lia|done|].
  pose proof (alen_numeral_22 base sm n ltac:(lia) Hn) as Hl. destruct (numeral_text base sm n) as [|c ds]; [change (alen []) with 0 in Hl; lia|].
  apply list.Forall_cons in Hd as [[? ?] _]. by exists c, ds.
Qed.

(** The text of a number is read back as the number it stands for, up to the words it is taken from. *)
Lemma scan_number_chars n q c num f rest :
  In c [Cd; Cu; Co; Cx; CX] → urange 64 num → (is_size_t q = true → is_signed c = true → 0 ≤ s64 num) → after rest →
  ∃ v, scan_num n q (conv_base c) (is_signed c) f (number_chars c num ++ rest) = Next f rest [(true, int_bytes (int_size q) v)] ∧ v mod 2 ^ 64 = num ∧
    ∃ d ds, number_chars c num = d :: ds ∧ isspace d = false.
Proof.
  intros Hc Hn Hz Hr. assert (Hb : In (conv_base c) [8; 10; 16]) by (destruct Hc as [<- |[<- |[<- |[<- |[<- |[]]]]]]; cbn; tauto).
  unfold scan_num, number_chars, drop_spaces. destruct (is_signed c && (s64 num <? 0)) eqn:Es.
  - apply andb_true_iff in Es as [Hs Hlt%Z.ltb_lt]. pose proof (s64_range num) as Hrg. set (k := - s64 num) in *. assert (Hk : urange 64 k) by (unfold urange; lia).
    assert (conv_base c = 10) as -> by (destruct c; done). destruct (numeral_starts 10 false k) as (d & ds & E & Hd1 & Hd2); [cbn; tauto|done|]. destruct (digit_facts 10 d ltac:(cbn; tauto) Hd1 Hd2) as (_ & _ & _ & Hbad).
    exists (- k). rewrite Hs. unfold starts_number. cbn [app drop_while]. change (isspace 45) with false. cbv iota zeta. change (45 =? 45) with true. cbn [andb]. cbv iota.
    rewrite E at 1. cbn [app]. rewrite Hbad. assert (is_size_t q = false) as -> by (destruct (is_size_t q); [|done]; specialize (Hz eq_refl Hs); lia). cbn [negb andb].
    rewrite number_at_neg, number_at_numeral by (done || (cbn; tauto)). ands; [done| |].
    + subst k. rewrite Z.opp_involutive, s64_mod. apply uwrap_small. done.
    + eexists _, _. split; [done|]. done.
  - destruct (numeral_starts (conv_base c) (small c) num Hb Hn) as (d & ds & E & Hd1 & Hd2). destruct (digit_facts _ d Hb Hd1 Hd2) as (Hsp & Hm & _ & Hbad). exists num. ands.
    + set (u := numeral_text (conv_base c) (small c) num ++ rest). assert (Eu : u = d :: ds ++ rest) by (unfold u; by rewrite E).
      assert (drop_while isspace u = u) as -> by (rewrite Eu; cbn [drop_while]; by rewrite Hsp). cbv zeta. assert (starts_number (is_signed c) (conv_base c) u = true) as ->.
      { rewrite Eu. unfold starts_number. rewrite Hm, andb_false_r, Hbad. done. }
      subst u.
      assert (number_at (is_signed c && negb (is_size_t q)) (conv_base c) (numeral_text (conv_base c) (small c) num ++ rest) = (num, rest)) as ->; [|done].
      destruct (is_signed c && negb (is_size_t q)); [rewrite number_at_pos by (by rewrite E; cbn)|]; by apply number_at_numeral.
    + by apply uwrap_small.
    + by exists d, ds.
Qed.

(** ** Items *)

(** The number [vsnprintf] takes from the argument. *)
Definition item_num (it : item) : Z := match va_num (conv_type (it_mod it) (it_conv it)) [item_va it] with Some (n, _) => n | None => 0 end.
Definition item_chars (it : item) : list Z := number_chars (it_conv it) (item_num it).

Lemma mod_mod_le x j k : 0 ≤ j ≤ k → (x mod 2 ^ k) mod 2 ^ j = x mod 2 ^ j.
Proof. intros. apply Z.mod_mod_divide. exists (2 ^ (k - j)). rewrite <- Z.pow_add_r by lia. f_equal. lia. Qed.

Lemma s16_mod x : s16 x mod 2 ^ 16 = x mod 2 ^ 16.
Proof. unfold s16, uwrap. destruct (_ <? _); Z.to_euclidean_division_equations; lia. Qed.

Lemma item_num_ok it args : item_ok it →
  va_num (conv_type (it_mod it) (it_conv it)) (item_va it :: args) = Some (item_num it, args) ∧ urange 64 (item_num it) ∧
  item_num it mod 2 ^ (8 * Z.of_nat (int_size (mod_code (it_mod it)))) = it_arg it mod 2 ^ (8 * Z.of_nat (int_size (mod_code (it_mod it)))) ∧
  (is_size_t (mod_code (it_mod it)) = true → is_signed (it_conv it) = true → 0 ≤ s64 (item_num it)).
Proof.
  destruct it as [c q x]. unfold item_ok, item_num, item_va. cbn [it_conv it_mod it_arg]. intros [Hc Hq].
  assert (Hw : ∀ k y, 0 ≤ k ≤ 64 → urange k (uwrap k y) → urange 64 (uwrap k y)) by (intros k y Hk [? ?]; split; [lia|]; pose proof (Z.pow_le_mono_r 2 k 64); lia).
  assert (Hu : ∀ k y, 0 ≤ k ≤ 64 → urange 64 (uwrap k y)) by (intros; apply Hw; [lia|]; apply urange_uwrap; lia).
  destruct Hc as [<- |[<- |[<- |[<- |[<- |[]]]]]]; destruct q; try done; (split; [reflexivity|]); cbn -[uwrap s32 s16 s64 Z.pow Z.modulo urange Z.mul]; (split; [solve [apply Hu; lia|destruct (_ <? _); apply Hu; lia]|]).
  all: split; [change (8 * Z.of_nat _) with 8 || change (8 * Z.of_nat _) with 16 || change (8 * Z.of_nat _) with 32 || change (8 * Z.of_nat _) with 64|try done].
  all: first [unfold uwrap; rewrite ?mod_mod_le by lia; rewrite ?s16_mod, ?s32_mod; reflexivity|idtac].
  all: try (unfold uwrap; rewrite mod_mod_le by lia; destruct (_ <? _); Z.to_euclidean_division_equations; lia).
  all: intros _ _; rewrite s64_small; [apply urange_uwrap; lia|]; pose proof (urange_uwrap 32 x ltac:(lia)) as [? ?]; lia.
Qed.

(** The bytes that are stored for the text of an item. *)
Lemma item_scan n it f rest :
  item_ok it → after rest →
  scan_dir n (mod_text (it_mod it) ++ conv_char (it_conv it) :: f) (item_chars it ++ rest) = Next f rest [(true, item_bytes it)] ∧
  ∃ d ds, item_chars it = d :: ds ∧ isspace d = false.
Proof.
  intros Hit Hr. destruct (item_num_ok it [] Hit) as (_ & Hn & Hm & Hz). destruct Hit as [Hc Hq]. unfold item_chars, item_bytes.
  destruct (scan_number_chars n (mod_code (it_mod it)) (it_conv it) (item_num it) f rest Hc Hn Hz Hr) as (v & E & Hv & d & ds & Ed & Hsp). split; [|by exists d, ds].
  assert (scan_dir n (mod_text (it_mod it) ++ conv_char (it_conv it) :: f) (number_chars (it_conv it) (item_num it) ++ rest) =
    scan_num n (mod_code (it_mod it)) (conv_base (it_conv it)) (is_signed (it_conv it)) f (number_chars (it_conv it) (item_num it) ++ rest)) as ->.
  { rewrite Ed. destruct Hc as [<- |[<- |[<- |[<- |[<- |[]]]]]]; destruct (it_mod it); try done; reflexivity. }
  rewrite E. assert (8 * Z.of_nat (int_size (mod_code (it_mod it))) ≤ 64) as Hs by (unfold int_size; repeat case_match; lia).
  rewrite (int_bytes_mod _ _ v (it_arg it) (Z.le_refl _)); [done|]. rewrite <- Hm, <- Hv. symmetry. apply mod_mod_le. lia.
Qed.

Definition spaced_chars (its : list item) : list Z := concat (map (λ it, 32 :: item_chars it) its).

Lemma after_spaced its : after (spaced_chars its).
Proof. destruct its as [|it its]; [by left|]. right. by eexists. Qed.

Lemma dir_text it f : directive_text (item_dir it) ++ f = 37 :: mod_text (it_mod it) ++ conv_char (it_conv it) :: f.
Proof. unfold directive_text, item_dir. cbn. by rewrite <- app_assoc. Qed.

Lemma scan_spaced n its k :
  Forall item_ok its → (length (format_text (spaced its) []) < k)%nat →
  scan n k (format_text (spaced its) []) (spaced_chars its) = map (λ it, (true, item_bytes it)) its.
Proof.
  intros H. revert k. induction H as [|it its Hit H IH]; intros k Hk; (destruct k as [|k]; [lia|]); [done|].
  cbn [spaced map format_text spaced_chars concat] in *. fold (spaced its) (spaced_chars its) in *. rewrite dir_text in *. destruct (item_scan n it (format_text (spaced its) []) (spaced_chars its) Hit (after_spaced its)) as (E & d & ds & Ed & Hd).
  cbn [app length] in *. rewrite length_app in Hk. cbn [length] in Hk.
  assert (E1 : scan1 n (32 :: 37 :: mod_text (it_mod it) ++ conv_char (it_conv it) :: format_text (spaced its) []) (32 :: item_chars it ++ spaced_chars its) =
    Next (format_text (spaced its) []) (spaced_chars its) [(true, item_bytes it)]).
  { rewrite <- E. unfold scan1. change (isspace 32) with true. cbv iota zeta. change (drop_spaces (32 :: 37 :: ?x)) with (37 :: x).
    change (drop_spaces (32 :: item_chars it ++ spaced_chars its)) with (drop_spaces (item_chars it ++ spaced_chars its)).
    replace (drop_spaces (item_chars it ++ spaced_chars its)) with (item_chars it ++ spaced_chars its); [done|]. rewrite Ed. unfold drop_spaces. cbn [app drop_while]. by rewrite Hd. }
  cbn [scan]. rewrite E1. rewrite IH by lia. done.
Qed.

Lemma scanned_numbers n its k :
  Forall item_ok its → (length (numbers_fmt its) < k)%nat →
  scan n k (numbers_fmt its) (match its with [] => [] | it :: its => item_chars it ++ spaced_chars its end) = map (λ it, (true, item_bytes it)) its.
Proof.
  intros H Hk. destruct H as [|it its Hit H]; [by destruct k|]. destruct k as [|k]; [lia|]. unfold numbers_fmt in *. cbn [items_of format_text app] in *. rewrite dir_text in *.
  destruct (item_scan n it (format_text (spaced its) []) (spaced_chars its) Hit (after_spaced its)) as (E & d & ds & Ed & Hd).
  cbn [length] in Hk. rewrite length_app in Hk. cbn [length] in Hk.
  transitivity ([(true, item_bytes it)] ++ scan n k (format_text (spaced its) []) (spaced_chars its)); [|by rewrite scan_spaced by (done || lia)].
  rewrite Ed in E |- *. cbn [app scan]. unfold scan1. change (isspace 37) with false. cbv iota zeta. change (37 =? 37) with true. cbv iota. cbn [app] in E. by rewrite E.
Qed.

(** ** The text *)

Definition numbers_text (its : list item) : list Z := match its with [] => [] | it :: its => item_chars it ++ spaced_chars its end.

Lemma render_item it args pos : item_ok it → render_dir (item_dir it) (item_va it :: args) pos = Some (item_chars it, [], args).
Proof.
  intros Hit. destruct (item_num_ok it args Hit) as (E & _). destruct Hit as [Hc Hq]. unfold render_dir, item_dir. cbn [d_flags d_width d_prec d_mod d_conv render_width render_prec count_val]. rewrite !Some_bind. cbv beta iota.
  change (flags_of []) with 0. unfold item_chars. rewrite <- (bare_number_text (it_mod it)) by done.
  destruct Hc as [Hc|[Hc|[Hc|[Hc|[Hc|[]]]]]]; rewrite <- Hc in *; unfold render_conv; change (type (conv_spec ?q ?c _ _ _)) with (conv_type q c); by rewrite E.
Qed.

Lemma render_spaced its pos : Forall item_ok its → render (spaced its) [] (map item_va its) pos = Some (spaced_chars its, []).
Proof.
  intros H. revert pos. induction H as [|it its Hit H IH]; intros pos; [done|]. cbn [spaced map render]. fold (spaced its). rewrite render_item, Some_bind by done. cbv beta iota. by rewrite IH.
Qed.

Lemma numbers_print its : Forall item_ok its → prints (numbers_fmt its ++ [0]) 0 (map item_va its) (numbers_text its) [].
Proof.
  intros H. exists (items_of its), []. assert (Hok : ∀ its, Forall item_ok its → format_ok (spaced its) [] ∧ Forall char (format_text (spaced its) [])).
  { intros l Hl. induction Hl as [|it l [Hc Hq] Hl [IH1 IH2]]; [split; constructor|]. cbn [spaced map format_ok format_text]. fold (spaced l). rewrite dir_text. split.
    - ands; [by repeat constructor| | |done]; [by repeat constructor|]. cbn. intros E. rewrite E in Hc. by destruct Hc as [?|[?|[?|[?|[?|[]]]]]].
    - apply Forall_app. split; [by repeat constructor|]. constructor; [done|]. apply Forall_app. split; [by destruct (it_mod it); repeat constructor|]. constructor; [by destruct (it_conv it)|done]. }
  destruct H as [|it l Hit H].
  { ands; [done|constructor|done]. }
  destruct (Hok l H) as [H1 H2]. unfold numbers_fmt. cbn [items_of format_ok format_text render app]. pose proof Hit as [Hc Hq]. ands.
  - rewrite dir_text. apply cstr_snoc. constructor; [done|]. apply Forall_app. split; [by destruct (it_mod it); repeat constructor|]. constructor; [by destruct (it_conv it)|done].
  - constructor.
  - by repeat constructor.
  - intros E. cbn in E. rewrite E in Hc. by destruct Hc as [?|[?|[?|[?|[?|[]]]]]].
  - done.
  - cbn [map]. rewrite render_item, Some_bind by done. cbv beta iota. by rewrite render_spaced.
Qed.

Lemma number_chars_ok c num : In c [Cd; Cu; Co; Cx; CX] → urange 64 num → Forall char (number_chars c num).
Proof.
  intros Hc Hn. assert (H : ∀ base sm v, 2 ≤ base ≤ 16 → urange 64 v → Forall char (numeral_text base sm v)).
  { intros base sm v Hb Hv. destruct (numval_text base sm v) as [_ Hd]; [done|done|]. eapply List.Forall_impl; [|exact Hd]. by intros ? []. }
  unfold number_chars. destruct (is_signed c && (s64 num <? 0)) eqn:E.
  - apply andb_true_iff in E as [_ E%Z.ltb_lt]. pose proof (s64_range num). constructor; [done|]. apply H; [lia|]. unfold urange. lia.
  - apply H; [|done]. destruct Hc as [<- |[<- |[<- |[<- |[<- |[]]]]]]; cbn; lia.
Qed.

Lemma numbers_chars its : Forall item_ok its → Forall char (numbers_text its).
Proof.
  assert (H1 : ∀ it, item_ok it → Forall char (item_chars it)) by (intros it Hit; destruct (item_num_ok it [] Hit) as (_ & Hn & _); apply number_chars_ok; [apply Hit|done]).
  assert (H2 : ∀ l, Forall item_ok l → Forall char (spaced_chars l)).
  { intros l Hl. induction Hl as [|it l Hit Hl IH]; [constructor|]. unfold spaced_chars. cbn [map concat]. fold (spaced_chars l). apply Forall_app. split; [constructor; [done|by apply H1]|done]. }
  intros [|it l Hit Hl]; [constructor|]. apply Forall_app. split; [by apply H1|by apply H2].
Qed.

Section RoundTrip.
Context (symbol_string resource_string : Z → Z → out → Z → list Z → printf_spec → Z → option out).

(** Numbers printed and scanned with the same format. For every list of integers with conversions d, u, o, x or X and length modifiers (none, hh,
    h, l, ll, L, z, Z), [snprintf] with the directives separated by spaces prints a text into every buffer that has room, and [sscanf] on that
    text, with that format and with pointers to distinct objects, stores in each object the bytes of the integer (as much of it as the modifier
    says) and returns the number of integers. *)
Theorem print_scan_roundtrip (its : list item) (m : list Z) (buf size : Z)
  (Hits : Forall item_ok its) (Hbuf : 0 ≤ buf ∧ buf + alen (numbers_text its) < 2 ^ 32 - 1)
  (Hsize : alen (numbers_text its) < size < 2 ^ 31) (Hm : size ≤ alen m) :
  ∃ m1, snprintf symbol_string resource_string m buf size (numbers_fmt its ++ [0]) 0 (map item_va its) = Some (m1, alen (numbers_text its), []) ∧
    cstr m1 0 (numbers_text its) ∧
    ∀ M str fmt ptrs,
      cstr M str (numbers_text its) → cstr M fmt (numbers_fmt its) →
      let os := map (λ it, (true, item_bytes it)) its in
      placed (numbers_text its) (numbers_fmt its) str fmt (alen M) os ptrs → distinct os ptrs →
      ∃ M', sscanf M str fmt ptrs = Some (M', alen its) ∧
        ∀ k it p, its !! k = Some it → ptrs !! k = Some p → arr_read M' p (alen (item_bytes it)) = Some (item_bytes it).
Proof.
  pose proof (numbers_print its Hits) as Hpr. pose proof (alen_nonneg (numbers_text its)). exists (stored size (numbers_text its) m). ands.
  - unfold snprintf. apply vsnprintf_ok; try lia. done.
  - apply stored_cstr; [|lia]. by apply numbers_chars.
  - intros M str fmt ptrs HT HF os Hp Hd. destruct (vsscanf_ok (numbers_text its) (numbers_fmt its) str fmt M ptrs HT HF) as (M' & E & Hs).
    + unfold scanned, numbers_text. rewrite scanned_numbers by (done || lia). done.
    + assert (Es : scanned (numbers_fmt its) (numbers_text its) = os) by (apply scanned_numbers; [done|lia]). rewrite Es in *. exists M'. split.
      * unfold sscanf. rewrite Hs. do 2 f_equal. unfold os, counted, alen. clear. f_equal. induction its as [|it its IH]; [done|]. cbn. by rewrite IH.
      * intros k it p Hk Hpk. eapply (store_holds os); [exact E|exact Hd| |exact Hpk]. unfold os. by rewrite list_lookup_fmap, Hk.
Qed.
End RoundTrip.

(** ** Inputs that surprise *)

(** An input and a format in memory, followed by eight bytes of 170 for the objects. *)
Definition scan_memory (t f : list Z) : list Z := t ++ [0] ++ f ++ [0] ++ replicate 8 170.
Definition scan_objects (t f args : list Z) : option (list Z * Z) :=
  '(m, num) ← sscanf (scan_memory t f) 0 (alen t + 1) (map (λ p, alen t + alen f + 2 + p) args);
  Some (drop (length t + length f + 2) m, num).

(** "%d %n" on "5 ": the input ends in the white space, the loop is left behind the percent sign, and the %n, which the comment behind the
    loop says is filled at the end of the input, is not filled. *)
Example sscanf_n_unfilled : scan_objects [53; 32] [37; 100; 32; 37; 110] [0; 4] = Some ([5; 0; 0; 0; 170; 170; 170; 170], 1).
Proof. by vm_compute. Qed.

(** "a%n" on "b": the literal does not match, and the %n behind it is filled all the same, with the mismatched character counted. *)
Example sscanf_n_after_mismatch : scan_objects [98] [97; 37; 110] [0] = Some ([1; 0; 0; 0; 170; 170; 170; 170], 0).
Proof. by vm_compute. Qed.

(** "%zd" on "-5": the test accepts the minus sign, but the unsigned conversion does not read it: 0 is stored and counted and nothing is
    consumed, so that the %d behind it reads the number again. *)
Example sscanf_zd_negative : scan_objects [45; 53] [37; 122; 100; 37; 100] [0; 4] = Some ([0; 0; 0; 0; 251; 255; 255; 255], 2).
Proof. by vm_compute. Qed.

(** "%hhd%n" on "x": the number does not match and leaves its argument to the %n, which stores four bytes into an object of one. *)
Example sscanf_n_wrong_object : scan_objects [120] [37; 104; 104; 100; 37; 110] [0; 4] = Some ([0; 0; 0; 0; 170; 170; 170; 170], 0).
Proof. by vm_compute. Qed.

(** "%d %%n" on "5 ": the input ends in the white space before the escaped percent sign, whose second character and the n behind it are
    taken for a %n; it has no argument. *)
Example sscanf_percent_n : scan_objects [53; 32] [37; 100; 32; 37; 37; 110] [0] = None.
Proof. by vm_compute. Qed.
